(* ===== verification/_CoqProject ===== *)
-Q . S2P
Prelude.v
Bytes.v
Ndjson.v
Sse.v
EventStream.v
Multipart.v
Checksums.v
CheckDigits.v
PyRegex.v
Json.v
Placeholders.v
JsonWalk.v
TokenSearch.v
Vault.v
Rehydrate.v
Streaming.v
JsonSource.v
Detection.v
RegexDetector.v
Deny.v
Overlaps.v
DetectorPlan.v
Modes.v
FairLock.v
Redactor.v
Winners.v
Windows.v
Redaction.v
RoundTrip.v
Refusals.v
MapWriter.v
ReadYourWrites.v
WriterFaults.v
Overrides.v
OverrideFacts.v
SqliteVault.v
SqliteFacts.v
JsonFacts.v
BodyRoundTrip.v
Adapters.v
AdapterFacts.v
McpFacts.v
Channels.v
Anthropic.v
AnthropicFacts.v
Attribution.v
AttributionFacts.v
Addressing.v
AddressingFacts.v
BodyRules.v
Handle.v
HandleFacts.v
JsonText.v
Relay.v
RelayFacts.v
StreamEcho.v
AnthropicEcho.v
Listing.v
Deliver.v
DeliverFacts.v
Doubles.v
Tagging.v
TaggingFacts.v
Wallets.v
WalletFacts.v
StreamPools.v
Responses.v
ResponsesFacts.v
OpenAI.v
OpenAIFacts.v
UploadContent.v
UploadContentFacts.v
Uploads.v
UploadsFacts.v
