(* ===== verification/Prelude.v ===== *)
(** * llm-redact: a verified model of the redacting proxy's core

    The program (src/src/llm_redact/) is a local proxy between a client and a model
    provider: it replaces secrets found in a request by placeholder tokens, forwards it,
    and restores the values in the answer.  This library models the code that decides what
    is found, what is replaced, what is restored and what is remembered, and proves what
    makes it correct.  Definitions keep the source's names; each file's opening comment
    names its module.

    ** The parts, in the order a request meets them

    - Framing (Bytes, Ndjson, Sse, EventStream, Multipart): the incremental parsers and
      serializers of ndjson.py, sse.py, eventstream.py and multipart.py.  They lose no byte,
      do not depend on how a stream is cut, read back what they write, and detect a
      corrupted frame; a part's file name is rewritten and nothing else.
    - Bodies (Json, JsonWalk): jsonwalk.py, the walks over JSON values.
    - Detection (PyRegex, Checksums, CheckDigits, Wallets, WalletFacts, Detection,
      RegexDetector, Deny, Windows, DetectorPlan, Modes, FairLock, Doubles, Tagging,
      TaggingFacts): detection/base.py, regex_rules.py, validators.py, wallet_checksums.py,
      deny.py, windows.py, tagging.py and engine.py.  A compiled pattern is a parameter of a
      rule (what it matches at a position, the empty match included); the plan's gates,
      prefilters and precomputed model rows change nothing of what running every detector
      finds; the scan inside vetoed matches ends; checksum validators refuse a mistyped
      digit, bech32 two mistyped characters, and base58check accepts exactly the encodings;
      the Viterbi decoder of a token tagger is optimal on Python's floats, whose rounded sum
      Doubles proves monotone; the model lock is exclusive and first come first served, and
      serves every waiter of a fair schedule, threads blocked until notify_all included.
    - Redaction (Overlaps, Winners, Redactor, Redaction, RoundTrip, Refusals): redactor.py,
      as a state monad over the vault, the budget, the overrides and the counts.  Overlaps
      are resolved to disjoint spans, deny strings always win, every refusal leaves the
      vault sound, a budget bounds the work, and the redacted text is restored to the
      original.
    - Tokens and vault (Placeholders, Vault): placeholders.py and the in-memory vaults of
      vault.py.  A token has one meaning, the encrypted vault refines the plain one.
    - Durable vault (SqliteVault, SqliteFacts): the sqlite vault of vault.py, its tables,
      views, batches and deletions, as operations on the tables; several processes over one
      file are runs of events.  No two answers for a session's token, of work that was not
      rolled back, name two values, whatever is deleted, reloaded or killed.
    - Restoration (TokenSearch, Rehydrate, Streaming, JsonSource): rehydrate.py; a streamed
      answer is restored as the whole answer would be, in plain text and in raw JSON source.
    - Durable maps (MapWriter, ReadYourWrites, WriterFaults): vault_writer.py with the
      operations of vault.py it runs, as a step relation of the submitting side, the writer
      thread and a delete.  Lookups read as if every write had been synchronous; the queue
      and the overlay stay bounded; every write is accounted for.

    - Approvals (Overrides, OverrideFacts): overrides.py, the store of refusal overrides and
      a request's view of it.  A value passes only after its own requester was refused that
      value and approved it; a one-time grant is used once, whatever interleaves; a code
      approves once.

    - Request preparation (Adapters, AdapterFacts, McpFacts, BodyRoundTrip): what
      providers/base.py makes of a recognized request: which fields stay verbatim, which
      blocks of exempt MCP servers are stashed, what is walked.  A verbatim field leaves as
      sent and was scanned; an exempt block leaves as sent; a redacted body is restored
      field for field.
    - The request pipeline (Addressing, AddressingFacts, Attribution, AttributionFacts,
      BodyRules, Handle, HandleFacts): proxy.py's [_handle] from the first check to the
      request sent upstream, with every local answer, and attribution.py.  What leaves was
      read by the proxy or is a pass-through request, verbatim, to the provider it belongs
      to; the proxy's credential is spent only where a body was read.
    - Answers (JsonText, Relay, RelayFacts, Channels, Anthropic, AnthropicFacts, StreamEcho,
      AnthropicEcho, StreamPools, Responses, ResponsesFacts, OpenAI, OpenAIFacts, Listing,
      Deliver, DeliverFacts): proxy.py's [_deliver], [_restore_buffered],
      [_restore_listing] and the three stream relays with their bookkeeping, and the event
      streams of the Anthropic, Responses and chat adapters.  A redacted text the model
      repeats reaches the client as the original, in a stream (for Anthropic from bytes to
      bytes) or in a body; the event-stream relay delivers every frame and every byte behind
      a corrupt one; nobody's listing is restored in another's session.
    - Uploads (UploadContent, UploadContentFacts, Uploads, UploadsFacts): upload_content.py
      and the Files API of providers/openai.py.  A text file comes back byte for byte in
      each of its five encodings, a JSON line value for value; an upload under the proxy's
      own identity carries no part unredacted.

    ** How the parts meet

    The redactor is proved against interfaces: [VaultOps] and its laws [VaultLaws], which
    the in-memory vaults satisfy, [OverrideOps], which the
    scope of Overrides implements, and a detector record
    whose conditions DetectorPlan's [plan_hands_over_order] establishes.  Rehydration uses
    the same vault interface, so RoundTrip composes the two.  Handle takes an adapter's
    operations, plugins, the network and the URL parsers as records of functions; Relay and
    Deliver take an adapter's operations on an answer, the session router's replies as a
    function of what it was told so far, the router's hooks, and the JSON reader and writer
    with the laws of [JsonLibLaws].  Channels is the argument every adapter's stream shares:
    the pieces one channel emits say what restoring the whole text says.  StreamEcho
    composes framing, relay and channel, AnthropicEcho discharges it for one provider;
    StreamPools is what the adapters that flush many channels at once share.  The tagger's
    decoder is proved against [ScoreLaws], which [double_laws] proves of Python's floats.

    ** What the theorems assume

    Each property's comment names its conditions; those that recur: the original carries no
    opening guillemet (text that does may itself read as a token); a text
    restored from a stream is [stream_safe], as Streaming shows it must be; the vault has
    kept what the redacting vault knew ([extends]); hashes and ciphers behave as documented.

    ** Conventions

    A Python [str] is a list of code points, [bytes] a list of integers; an integer is [Z];
    an exception is [Raise] of a result; a method that changes state takes and returns it.
    Where the source loops, the fuel is a bound the file proves enough: one search more than
    the text has characters for the scan of vetoed matches, twice its characters and three
    for an iteration that may meet empty matches, the tickets given up for the lock, the
    buffer's length for parsers.

    ** Not modelled

    Waiting: the clocks, client cancellation, the waits for durable map writes, and the
    interleaving of requests on the event loop outside the maps' writer.  Of proxy.py, the
    reserved endpoints, reloads, audit rows, metrics, the hops of a routed request, the
    upload inspector, the scan sink and sealed sessions; of the answers' path, the bodies of
    local error answers.  Of the adapters, all but the shared base, the event streams
    of Anthropic, Responses and chat, and the uploads of the OpenAI files.
    realtime.py, the command line, configuration parsing, the RDBMS vaults (third-party
    drivers), the creation, migrations and key rotation of the sqlite file, document
    extraction and model inference (third-party packages), and the builtin rules' patterns
    themselves.  Of the writer, its thread's start, idle exit
    and connection, futures, and the trims that bound the tables are left out; of the
    redactor, the recorder and the table of precomputed results. *)

(** ** Shared notation, automation and generic lemmas *)

From Stdlib Require Export ZArith Lia Sorted Permutation Ascii String.
From stdpp Require Export base list gmap fin_maps option.

#[global] Open Scope Z_scope.
#[global] Set Default Goal Selector "!".

(** ** Text and bytes

    A Python [str] is a list of code points and a Python [bytes] a list of
    integers below 256; both are lists of [Z], so that offsets, code points and
    byte values compute and are reasoned about with [lia]. *)

Abbreviation pystr := (list Z).
Abbreviation pybytes := (list Z).

(** An ASCII literal of the source. *)
Definition lit (s : string) : pystr :=
  map (fun a => Z.of_nat (nat_of_ascii a)) (list_ascii_of_string s).

(** The guillemets, code points U+00AB and U+00BB. *)
Definition LAQUO : Z := 171.
Definition RAQUO : Z := 187.

Definition between (a b c : Z) : bool := (a <=? c) && (c <=? b).
Definition is_AZ (c : Z) : bool := between 65 90 c.
Definition is_az (c : Z) : bool := between 97 122 c.
Definition is_09 (c : Z) : bool := between 48 57 c.

(** [str.upper] and [str.lower] of an ASCII character. *)
Definition ascii_upper (c : Z) : Z := if is_az c then c - 32 else c.
Definition ascii_lower (c : Z) : Z := if is_AZ c then c + 32 else c.

(** Unicode decimal digits (general category Nd), what [\d] matches in a [str]
    pattern and what [int()] reads: every one lies in a run of ten code points
    starting at one of these zeros (Unicode 14.0, the table of CPython 3.11). *)
Definition nd_zeros : list Z :=
  [48; 1632; 1776; 1984; 2406; 2534; 2662; 2790; 2918; 3046; 3174; 3302; 3430; 3558;
   3664; 3792; 3872; 4160; 4240; 6112; 6160; 6470; 6608; 6784; 6800; 6992; 7088; 7232;
   7248; 42528; 43216; 43264; 43472; 43504; 43600; 44016; 65296; 66720; 68912; 69734;
   69872; 69942; 70096; 70384; 70736; 70864; 71248; 71360; 71472; 71904; 72016; 72784;
   73040; 73120; 92768; 92864; 93008; 120782; 120792; 120802; 120812; 120822; 123200;
   123632; 125264; 130032].

Definition is_nd (c : Z) : bool := existsb (fun z => between z (z + 9) c) nd_zeros.

Fixpoint nd_value_from (zs : list Z) (c : Z) : Z :=
  match zs with
  | [] => 0
  | z :: zs' => if between z (z + 9) c then c - z else nd_value_from zs' c
  end.

Definition nd_value (c : Z) : Z := nd_value_from nd_zeros c.

(** [int(s)] of a string of decimal digits. *)
Definition int_of_digits (s : pystr) : Z :=
  fold_left (fun acc c => acc * 10 + nd_value c) s 0.

(** ** Formatting: [str(n)] and [f"{n:03d}"] of a natural number *)

Fixpoint digits_fuel (fuel : nat) (n : Z) (acc : pystr) : pystr :=
  match fuel with
  | O => acc
  | S f => let acc' := (48 + n mod 10) :: acc in
           if n / 10 =? 0 then acc' else digits_fuel f (n / 10) acc'
  end.

(** [fuel]: a number has at most as many digits as its binary length plus one. *)
Definition str_of_nat (n : Z) : pystr := digits_fuel (S (Z.to_nat (Z.log2 n))) n [].

Definition zfill (w : nat) (s : pystr) : pystr := replicate (w - length s) 48 ++ s.

(** ** Lists *)

(** [l[a:b]], Python's slice: a negative bound counts from the end, and both
    are clamped to the list. *)
Definition py_bound {A} (l : list A) (i : Z) : nat :=
  Z.to_nat (Z.min (Z.of_nat (length l)) (if i <? 0 then i + Z.of_nat (length l) else i)).

Definition pyslice {A} (l : list A) (a b : Z) : list A :=
  take (py_bound l b - py_bound l a) (drop (py_bound l a) l).

(** [l[a:]] *)
Definition pyfrom {A} (l : list A) (a : Z) : list A := drop (py_bound l a) l.

Definition zlen {A} (l : list A) : Z := Z.of_nat (length l).

(** [s.rfind(c)] for one character: the greatest index holding it, [None] for -1. *)
Fixpoint rfind_char (c : Z) (s : pystr) : option nat :=
  match s with
  | [] => None
  | x :: s' => match rfind_char c s' with
               | Some i => Some (S i)
               | None => if x =? c then Some 0%nat else None
               end
  end.

(** [s.find(c)] for one character. *)
Fixpoint find_char (c : Z) (s : pystr) : option nat :=
  match s with
  | [] => None
  | x :: s' => if x =? c then Some 0%nat else S <$> find_char c s'
  end.

Definition mem_char (c : Z) (s : pystr) : bool := existsb (Z.eqb c) s.

(** [s.startswith(p)] *)
Fixpoint starts_with (p s : pystr) : bool :=
  match p, s with
  | [], _ => true
  | x :: p', y :: s' => (x =? y) && starts_with p' s'
  | _, [] => false
  end.

(** [s.endswith(suffix)] *)
Definition ends_with (suffix s : pystr) : bool := starts_with (rev suffix) (rev s).

(** [s.find(p)]: the first offset at which [p] occurs. *)
Fixpoint find_sub (p s : pystr) : option nat :=
  if starts_with p s then Some 0%nat
  else match s with
       | [] => None
       | _ :: s' => S <$> find_sub p s'
       end.

Definition contains_sub (p s : pystr) : bool :=
  match find_sub p s with Some _ => true | None => false end.

Lemma starts_with_spec p s : starts_with p s = true <-> exists t, s = p ++ t.
Proof.
  revert s. induction p as [|x p IH]; intros s; cbn; [split; [by exists s|done]|].
  destruct s as [|y s]; [split; [done|by intros [? ?]]|]. rewrite andb_true_iff, Z.eqb_eq, IH. naive_solver.
Qed.

Lemma starts_with_app p t : starts_with p (p ++ t) = true.
Proof. apply starts_with_spec. by exists t. Qed.

(** [s.split(c)] for one character; the result is never empty. *)
Fixpoint split_char (c : Z) (s : pystr) : list pystr :=
  match s with
  | [] => [[]]
  | x :: s' =>
      if x =? c then [] :: split_char c s'
      else match split_char c s' with
           | [] => [[x]]
           | h :: t => (x :: h) :: t
           end
  end.

(** [sep.join(parts)] *)
Fixpoint join (sep : pystr) (parts : list pystr) : pystr :=
  match parts with
  | [] => []
  | [p] => p
  | p :: ps => p ++ sep ++ join sep ps
  end.

(** [s.split(c, 1)[0]] *)
Definition before_char (c : Z) (s : pystr) : pystr := match find_char c s with Some n => take n s | None => s end.

(** [dict.fromkeys(l)]: first occurrences, in order. *)
Fixpoint from_keys {A} `{EqDecision A} (l : list A) : list A :=
  match l with [] => [] | i :: l => i :: List.filter (fun j => negb (bool_decide (j = i))) (from_keys l) end.

(** ** Stable sorting and binary search

    [sorted(l, key=...)] is the unique stable permutation; insertion from the
    right computes it. *)
Fixpoint insert_by {A} (le : A -> A -> bool) (x : A) (l : list A) : list A :=
  match l with
  | [] => [x]
  | y :: l' => if le x y then x :: l else y :: insert_by le x l'
  end.

Definition sort_by {A} (le : A -> A -> bool) (l : list A) : list A :=
  fold_right (insert_by le) [] l.

Definition key_le {A} (key : A -> Z) (x y : A) : bool := key x <=? key y.

(** [bisect.bisect_right(a, x, lo)] and [bisect.bisect_left(a, x)]: the loops of
    the standard library's module, [fuel] at least the width of the interval. *)
Fixpoint bisect_right_go (fuel : nat) (a : list Z) (x : Z) (lo hi : nat) : nat :=
  match fuel with
  | O => lo
  | S f =>
      if decide (lo < hi)%nat then
        let mid := Nat.div (lo + hi) 2 in
        if x <? nth mid a 0 then bisect_right_go f a x lo mid
        else bisect_right_go f a x (S mid) hi
      else lo
  end.

Definition bisect_right (a : list Z) (x : Z) (lo : nat) : nat :=
  bisect_right_go (length a) a x lo (length a).

Fixpoint bisect_left_go (fuel : nat) (a : list Z) (x : Z) (lo hi : nat) : nat :=
  match fuel with
  | O => lo
  | S f =>
      if decide (lo < hi)%nat then
        let mid := Nat.div (lo + hi) 2 in
        if nth mid a 0 <? x then bisect_left_go f a x (S mid) hi
        else bisect_left_go f a x lo mid
      else lo
  end.

Definition bisect_left (a : list Z) (x : Z) : nat :=
  bisect_left_go (length a) a x 0%nat (length a).

(** ** Counters: [collections.Counter] over strings *)

Definition counter_get (m : gmap pystr Z) (k : pystr) : Z := default 0 (m !! k).
Definition counter_incr (m : gmap pystr Z) (k : pystr) : gmap pystr Z :=
  <[k := counter_get m k + 1]> m.

(** ** Results and a state monad with exceptions

    A Python call that raises keeps the state changes made before the raise, so
    the monad threads the state through both outcomes. *)

Inductive result (E A : Type) : Type :=
| Ok (a : A)
| Raise (e : E).
Arguments Ok {E A} a.
Arguments Raise {E A} e.

Lemma Ok_inj {E A} (a b : A) : @Ok E A a = Ok b -> a = b.
Proof. by intros [= ->]. Qed.

Definition M (St E A : Type) : Type := St -> result E A * St.

Definition mret {St E A} (a : A) : M St E A := fun s => (Ok a, s).
Definition mraise {St E A} (e : E) : M St E A := fun s => (Raise e, s).
Definition mbnd {St E A B} (m : M St E A) (f : A -> M St E B) : M St E B :=
  fun s => match m s with
           | (Ok a, s') => f a s'
           | (Raise e, s') => (Raise e, s')
           end.
Definition mget {St E} : M St E St := fun s => (Ok s, s).
Definition mput {St E} (s : St) : M St E unit := fun _ => (Ok tt, s).
Definition mmodify {St E} (f : St -> St) : M St E unit := fun s => (Ok tt, f s).

Declare Scope mon_scope.
Delimit Scope mon_scope with mon.
Notation "x <~ m ;; k" := (mbnd m (fun x => k))
  (at level 100, m at next level, right associativity) : mon_scope.
Notation "m ;;; k" := (mbnd m (fun _ => k))
  (at level 100, right associativity) : mon_scope.

(** ** Automation *)

Create HintDb redact discriminated.
Create Rewrite HintDb redact_rw.

(** Boolean tests of the source as propositions. *)
Ltac bool_simpl :=
  repeat match goal with
  | H : (_ && _)%bool = true |- _ => apply andb_true_iff in H as [? ?]
  | H : (_ || _)%bool = false |- _ => apply orb_false_iff in H as [? ?]
  | H : negb _ = true |- _ => apply negb_true_iff in H
  | H : negb _ = false |- _ => apply negb_false_iff in H
  | H : (_ =? _) = true |- _ => apply Z.eqb_eq in H
  | H : (_ =? _) = false |- _ => apply Z.eqb_neq in H
  | H : (_ <? _) = true |- _ => apply Z.ltb_lt in H
  | H : (_ <? _) = false |- _ => apply Z.ltb_ge in H
  | H : (_ <=? _) = true |- _ => apply Z.leb_le in H
  | H : (_ <=? _) = false |- _ => apply Z.leb_gt in H
  end.

(** Decide a goal about character classes: unfold them and let [lia] (with the
    boolean operators) finish. *)
Ltac char_solve :=
  unfold is_AZ, is_az, is_09, between, ascii_upper, ascii_lower, is_az, is_AZ in *; lia.

#[global] Arguments Z.eqb : simpl never.
#[global] Arguments Z.leb : simpl never.
#[global] Arguments Z.ltb : simpl never.
#[global] Arguments int_of_digits : simpl never.
#[global] Arguments str_of_nat : simpl never.
#[global] Arguments zfill : simpl never.

(** ** Generic lemmas *)

Lemma forallb_app' {A} (p : A -> bool) l1 l2 :
  forallb p (l1 ++ l2) = forallb p l1 && forallb p l2.
Proof. apply forallb_app. Qed.

Lemma forallb_impl {A} (p q : A -> bool) l :
  (forall x, p x = true -> q x = true) -> forallb p l = true -> forallb q l = true.
Proof.
  intros H. induction l as [|x l IH]; [done|]. cbn. intros [Hx Hl]%andb_true_iff.
  by rewrite H, IH.
Qed.

Lemma mem_char_cons c x s : mem_char c (x :: s) = (c =? x) || mem_char c s.
Proof. done. Qed.

#[global] Arguments mem_char : simpl never.

Lemma forallb_mem_char p c s : forallb p s = true -> p c = false -> mem_char c s = false.
Proof.
  intros Hs Hc. induction s as [|x s IH]; [done|]. cbn in Hs.
  apply andb_true_iff in Hs as [Hx Hs]. rewrite mem_char_cons, IH by done.
  destruct (Z.eqb_spec c x) as [->|]; [congruence|done].
Qed.

Lemma mem_char_app c s t : mem_char c (s ++ t) = mem_char c s || mem_char c t.
Proof. apply existsb_app. Qed.

Lemma mem_char_elem c s : mem_char c s = true <-> c ∈ s.
Proof.
  unfold mem_char. rewrite existsb_exists. setoid_rewrite Z.eqb_eq.
  setoid_rewrite list_elem_of_In. naive_solver.
Qed.

Lemma rfind_char_None c s : rfind_char c s = None <-> mem_char c s = false.
Proof.
  induction s as [|x s IH]; [done|]. rewrite mem_char_cons. cbn.
  destruct (rfind_char c s) eqn:E.
  - split; [done|]. intros [_ H]%orb_false_iff. apply IH in H. done.
  - rewrite (Z.eqb_sym c x), (proj1 IH eq_refl). by destruct (x =? c).
Qed.

(** The last occurrence of [c] splits the text. *)
Lemma rfind_char_Some c s i : rfind_char c s = Some i <->
  exists a b, s = a ++ c :: b /\ length a = i /\ mem_char c b = false.
Proof.
  revert i. induction s as [|x s IH]; intros i; cbn.
  - split; [done|]. intros (a & b & H & _). by destruct a.
  - destruct (rfind_char c s) as [j|] eqn:E.
    + split.
      * intros [= <-]. destruct (proj1 (IH j) eq_refl) as (a & b & -> & <- & Hb).
        by exists (x :: a), b.
      * intros (a & b & H & <- & Hb). destruct a as [|y a]; simplify_eq/=.
        { apply rfind_char_None in Hb. congruence. }
        f_equal. assert (Some j = Some (length a)) as [= ->]; [|done].
        apply IH. by exists a, b.
    + apply rfind_char_None in E. destruct (Z.eqb_spec x c) as [->|Hne]; split.
      * intros [= <-]. by exists [], s.
      * intros (a & b & H & <- & Hb). destruct a as [|y a]; simplify_eq/=; [done|].
        rewrite mem_char_app, mem_char_cons, Z.eqb_refl, orb_true_r in E. done.
      * done.
      * intros (a & b & H & <- & Hb). destruct a as [|y a]; simplify_eq/=.
        rewrite mem_char_app, mem_char_cons, Z.eqb_refl, orb_true_r in E. done.
Qed.

Lemma zlen_app {A} (l1 l2 : list A) : zlen (l1 ++ l2) = zlen l1 + zlen l2.
Proof. unfold zlen. rewrite length_app. lia. Qed.

Lemma zlen_cons {A} (x : A) l : zlen (x :: l) = 1 + zlen l.
Proof. unfold zlen. cbn. lia. Qed.

Lemma zlen_nonneg {A} (l : list A) : 0 <= zlen l.
Proof. unfold zlen. lia. Qed.

#[export] Hint Resolve zlen_nonneg : redact.
#[export] Hint Rewrite @zlen_app @zlen_cons : redact_rw.

(** ** Decimal numerals *)

Lemma is_09_nd c : is_09 c = true -> is_nd c = true.
Proof.
  unfold is_nd, is_09. intros H. cbn [existsb nd_zeros].
  change (48 + 9) with 57. by rewrite H.
Qed.

Lemma nd_value_09 c : is_09 c = true -> nd_value c = c - 48.
Proof.
  unfold nd_value, is_09. intros H. cbn [nd_value_from nd_zeros].
  change (48 + 9) with 57. by rewrite H.
Qed.

Lemma fold_digits_acc s acc :
  fold_left (fun acc c => acc * 10 + nd_value c) s acc
  = acc * 10 ^ zlen s + int_of_digits s.
Proof.
  unfold int_of_digits. revert acc. induction s as [|c s IH]; intros acc; cbn [fold_left].
  - unfold zlen. cbn. lia.
  - rewrite IH, (IH (0 * 10 + nd_value c)), zlen_cons, Z.pow_add_r by (auto with redact; lia). lia.
Qed.

Lemma int_of_digits_app s t : int_of_digits (s ++ t) = int_of_digits s * 10 ^ zlen t + int_of_digits t.
Proof. unfold int_of_digits at 1. rewrite fold_left_app. apply fold_digits_acc. Qed.

Lemma int_of_digits_cons c s : int_of_digits (c :: s) = nd_value c * 10 ^ zlen s + int_of_digits s.
Proof. apply (int_of_digits_app [c] s). Qed.

Lemma int_of_digits_zeros n : int_of_digits (replicate n 48) = 0.
Proof. induction n as [|n IH]; [done|]. cbn [replicate]. by rewrite int_of_digits_cons, IH. Qed.

Lemma int_of_digits_zfill w s : int_of_digits (zfill w s) = int_of_digits s.
Proof. unfold zfill. by rewrite int_of_digits_app, int_of_digits_zeros. Qed.

Lemma digits_fuel_spec fuel : forall n acc, 0 <= n < 2 ^ Z.of_nat fuel ->
  exists d, digits_fuel fuel n acc = d ++ acc /\ forallb is_09 d = true /\
    int_of_digits d = n /\ (fuel <> 0%nat -> d <> []).
Proof.
  induction fuel as [|f IH]; intros n acc Hn; cbn [digits_fuel]; cbv zeta.
  - exists []. cbn in *. split_and!; [done|done|unfold int_of_digits; cbn; lia|done].
  - assert (0 <= n mod 10 < 10) as Hm by (apply Z.mod_pos_bound; lia).
    assert (is_09 (48 + n mod 10) = true) as H9 by char_solve.
    destruct (Z.eqb_spec (n / 10) 0) as [H0|H0].
    + exists [48 + n mod 10]. cbn [forallb]. rewrite H9. split_and!; try done.
      rewrite int_of_digits_cons, nd_value_09 by done. unfold int_of_digits, zlen. cbn.
      pose proof (Z.div_mod n 10). lia.
    + destruct (IH (n / 10) ((48 + n mod 10) :: acc)) as (d & -> & Hd & Hi & Hne).
      { rewrite Nat2Z.inj_succ, Z.pow_succ_r in Hn by lia. split; [apply Z.div_pos; lia|].
        apply Z.div_lt_upper_bound; lia. }
      exists (d ++ [48 + n mod 10]). rewrite <- app_assoc, forallb_app, Hd. cbn [forallb].
      rewrite H9. split_and!; [done..| |by destruct d].
      rewrite int_of_digits_app, Hi, int_of_digits_cons, nd_value_09 by done.
      unfold int_of_digits, zlen. cbn. pose proof (Z.div_mod n 10). lia.
Qed.

Lemma str_of_nat_spec n : 0 <= n ->
  forallb is_09 (str_of_nat n) = true /\ int_of_digits (str_of_nat n) = n /\ str_of_nat n <> [].
Proof.
  intros Hn. unfold str_of_nat.
  destruct (digits_fuel_spec (S (Z.to_nat (Z.log2 n))) n []) as (d & -> & Hd & Hi & Hne).
  - split; [done|]. rewrite Nat2Z.inj_succ, Z2Nat.id by apply Z.log2_nonneg.
    destruct (Z.eq_dec n 0) as [->|]; [done|]. apply Z.log2_spec. lia.
  - rewrite app_nil_r. auto.
Qed.

(** No numeral has a leading zero but "0", so the length is that of the value. *)
Lemma digits_fuel_len fuel : forall n acc k, 0 <= n < 10 ^ Z.of_nat k -> (0 < k)%nat ->
  (length (digits_fuel fuel n acc) <= k + length acc)%nat.
Proof.
  induction fuel as [|f IH]; intros n acc k Hn Hk; cbn [digits_fuel]; cbv zeta; [lia|].
  destruct (Z.eqb_spec (n / 10) 0) as [|H0]; [cbn; lia|].
  destruct k as [|[|k]]; [lia|cbn in Hn; rewrite Z.div_small in H0; lia|].
  rewrite (IH (n / 10) _ (S k)); [cbn; lia| |lia].
  rewrite Nat2Z.inj_succ, Z.pow_succ_r in Hn by lia. split; [apply Z.div_pos; lia|].
  apply Z.div_lt_upper_bound; lia.
Qed.

(** A separator whose class occurs on neither right-hand side splits a text in
    one way only. *)
Lemma app_sep_inj {A} (p : A -> bool) (u v u' v' : list A) s s' :
  u ++ s :: v = u' ++ s' :: v' -> p s = true -> p s' = true ->
  forallb (fun c => negb (p c)) v = true -> forallb (fun c => negb (p c)) v' = true ->
  u = u' /\ s = s' /\ v = v'.
Proof.
  revert u'. induction u as [|x u IH]; intros [|y u'] H Hs Hs' Hv Hv'; simplify_eq/=.
  - done.
  - rewrite forallb_app in Hv. cbn in Hv. rewrite Hs' in Hv. by rewrite andb_false_r in Hv.
  - rewrite forallb_app in Hv'. cbn in Hv'. rewrite Hs in Hv'. by rewrite andb_false_r in Hv'.
  - destruct (IH u') as (-> & -> & ->); done.
Qed.

Lemma app_sep_inj_l {A} (p : A -> bool) (u v u' v' : list A) s s' :
  u ++ s :: v = u' ++ s' :: v' -> p s = true -> p s' = true ->
  forallb (fun c => negb (p c)) u = true -> forallb (fun c => negb (p c)) u' = true ->
  u = u' /\ s = s' /\ v = v'.
Proof.
  revert u'. induction u as [|x u IH]; intros [|y u'] H Hs Hs' Hu Hu'; simplify_eq/=.
  - done.
  - by rewrite Hs in Hu'.
  - by rewrite Hs' in Hu.
  - bool_simpl. destruct (IH u') as (-> & -> & ->); done.
Qed.

(** ** Stable sorting *)

Lemma elem_filter {A} (p : A -> bool) l x : x ∈ List.filter p l <-> x ∈ l /\ p x = true.
Proof. rewrite !list_elem_of_In. apply filter_In. Qed.


Lemma elem_from_keys {A} `{EqDecision A} (l : list A) x : x ∈ from_keys l <-> x ∈ l.
Proof.
  induction l as [|a l IH]; cbn; [done|]. rewrite !elem_of_cons, elem_filter, IH. destruct (decide (x = a)) as [-> |Hx]; [naive_solver|].
  rewrite bool_decide_eq_false_2 by done. naive_solver.
Qed.

Lemma insert_by_perm {A} (le : A -> A -> bool) x l : Permutation (insert_by le x l) (x :: l).
Proof.
  induction l as [|y l IH]; cbn; [done|]. destruct (le x y); [done|].
  rewrite IH. apply perm_swap.
Qed.

Lemma sort_by_perm {A} (le : A -> A -> bool) l : Permutation (sort_by le l) l.
Proof. induction l as [|x l IH]; cbn; [done|]. by rewrite insert_by_perm, IH. Qed.

Definition sorted_by {A} (le : A -> A -> bool) (l : list A) : Prop :=
  StronglySorted (fun x y => le x y = true) l.

Lemma insert_by_sorted {A} (le : A -> A -> bool) :
  (forall x y, le x y = false -> le y x = true) ->
  (forall x y z, le x y = true -> le y z = true -> le x z = true) ->
  forall x l, sorted_by le l -> sorted_by le (insert_by le x l).
Proof.
  unfold sorted_by. intros Htot Htr x l. induction 1 as [|y l Hl IH Hy]; cbn; [by repeat constructor|].
  destruct (le x y) eqn:E.
  - constructor; [by constructor|]. constructor; [done|].
    eapply Forall_impl; [|exact Hy]. cbn. eauto.
  - constructor; [done|]. rewrite insert_by_perm. constructor; [|done]. by apply Htot.
Qed.

Lemma sort_by_sorted {A} (le : A -> A -> bool) :
  (forall x y, le x y = false -> le y x = true) ->
  (forall x y z, le x y = true -> le y z = true -> le x z = true) ->
  forall l, sorted_by le (sort_by le l).
Proof. intros Htot Htr l. induction l; cbn; [constructor|by apply insert_by_sorted]. Qed.

(** Sorting a sorted list changes nothing, and sorting commutes with filtering:
    the sort is stable. *)
Lemma insert_by_min {A} (le : A -> A -> bool) x l :
  Forall (fun y => le x y = true) l -> insert_by le x l = x :: l.
Proof. intros H. destruct H as [|y l Hy _]; cbn; [done|by rewrite Hy]. Qed.

Lemma sort_by_id {A} (le : A -> A -> bool) l :
  sorted_by le l -> sort_by le l = l.
Proof.
  induction 1 as [|x l _ IH Hx]; [done|].
  change (insert_by le x (sort_by le l) = x :: l). by rewrite IH, insert_by_min.
Qed.

Lemma filter_insert_by {A} (le : A -> A -> bool) (p : A -> bool)  x l :
  (forall x y z, le x y = true -> le y z = true -> le x z = true) ->
  sorted_by le l ->
  List.filter p (insert_by le x l) =
    if p x then insert_by le x (List.filter p l) else List.filter p l.
Proof.
  intros Htr. induction 1 as [|y l Hl IH Hy]; cbn; [by destruct (p x)|].
  destruct (le x y) eqn:E; cbn.
  - destruct (p x) eqn:Hx; [|done]. symmetry. apply insert_by_min.
    assert (Forall (fun z => le x z = true) (y :: l)) as Hall.
    { constructor; [done|]. eapply Forall_impl; [|exact Hy]. cbn. eauto. }
    change (if p y then y :: List.filter p l else List.filter p l) with (List.filter p (y :: l)).
    rewrite Forall_forall in *. intros z [Hz _]%filter_In. by apply Hall.
  - rewrite IH. destruct (p y), (p x); cbn; [by rewrite E|done..].
Qed.

(** Sorting a part first changes nothing, and sorting by a key of a projection is
    sorting the projections. *)
Lemma insert_by_comm {A} (le : A -> A -> bool) x y l :
  (forall x y, le x y = false -> le y x = true) ->
  (forall x y z, le x y = true -> le y z = true -> le x z = true) ->
  le x y = false -> insert_by le y (insert_by le x l) = insert_by le x (insert_by le y l).
Proof.
  intros Htot Htr Hxy. assert (Hyx := Htot _ _ Hxy). induction l as [|z l IH]; cbn; [by rewrite Hyx, Hxy|].
  destruct (le x z) eqn:Ex; cbn.
  - rewrite Hyx, (Htr y x z Hyx Ex). cbn. by rewrite Hxy, Ex.
  - destruct (le y z) eqn:Ey; cbn; [by rewrite Hxy, Ex|]. by rewrite Ex, IH.
Qed.

Lemma fold_insert_sort {A} (le : A -> A -> bool) l acc :
  (forall x y, le x y = false -> le y x = true) ->
  (forall x y z, le x y = true -> le y z = true -> le x z = true) ->
  fold_right (insert_by le) acc (sort_by le l) = fold_right (insert_by le) acc l.
Proof.
  intros Htot Htr. assert (H : forall x l, fold_right (insert_by le) acc (insert_by le x l) = insert_by le x (fold_right (insert_by le) acc l)).
  { intros x k. induction k as [|y k IH]; cbn; [done|]. destruct (le x y) eqn:E; [done|]. cbn. rewrite IH. by apply insert_by_comm. }
  induction l as [|x l IH]; [done|]. change (sort_by le (x :: l)) with (insert_by le x (sort_by le l)). by rewrite H, IH.
Qed.

Lemma sort_by_app {A} (le : A -> A -> bool) l l' :
  sort_by le (l ++ l') = fold_right (insert_by le) (sort_by le l') l.
Proof. apply fold_right_app. Qed.

Lemma sort_by_map {A B} (f : A -> B) (le : B -> B -> bool) l :
  map f (sort_by (fun x y => le (f x) (f y)) l) = sort_by le (map f l).
Proof.
  induction l as [|x l IH]; [done|].
  change (map f (insert_by (fun x y => le (f x) (f y)) x (sort_by (fun x y => le (f x) (f y)) l)) = insert_by le (f x) (sort_by le (map f l))).
  rewrite <- IH. generalize (sort_by (fun x y => le (f x) (f y)) l). intros k.
  induction k as [|y k IHk]; cbn; [done|]. destruct (le (f x) (f y)); cbn; [done|by rewrite IHk].
Qed.

Lemma StronglySorted_weaken {A} (R S : A -> A -> Prop) l :
  (forall x y, R x y -> S x y) -> StronglySorted R l -> StronglySorted S l.
Proof.
  intros H. induction 1 as [|x l _ IH Hx]; constructor; [done|].
  eapply Forall_impl; [|exact Hx]. auto.
Qed.

Lemma filter_sort_by {A} (le : A -> A -> bool) (p : A -> bool) l :
  (forall x y, le x y = false -> le y x = true) ->
  (forall x y z, le x y = true -> le y z = true -> le x z = true) ->
  List.filter p (sort_by le l) = sort_by le (List.filter p l).
Proof.
  intros Htot Htr. induction l as [|x l IH]; [done|].
  change (List.filter p (insert_by le x (sort_by le l)) = sort_by le (List.filter p (x :: l))).
  rewrite filter_insert_by; [|done|].
  - rewrite IH. cbn. by destruct (p x).
  - by apply sort_by_sorted.
Qed.

(** A pairwise condition that is symmetric does not depend on the order. *)
Lemma StronglySorted_perm {A} (R : A -> A -> Prop) l l' : (forall x y, R x y -> R y x) ->
  Permutation l l' -> StronglySorted R l -> StronglySorted R l'.
Proof.
  intros Hsym. induction 1 as [|x l l' Hp IH|x y l|]; intros Hs; [done|..|by eauto].
  - inversion Hs; subst. constructor; [by apply IH|by rewrite <- Hp].
  - inversion Hs as [|?? Hl Hy]; subst. inversion Hl; subst. inversion Hy; subst.
    repeat constructor; auto.
Qed.

Lemma StronglySorted_app {A} (R : A -> A -> Prop) l l' :
  StronglySorted R (l ++ l') <->
  StronglySorted R l /\ StronglySorted R l' /\ forall x y, x ∈ l -> y ∈ l' -> R x y.
Proof.
  induction l as [|x l IH]; cbn.
  - split; [|tauto]. intros H. split_and!; [constructor|done|]. by intros ?? Hn%not_elem_of_nil.
  - split.
    + inversion 1 as [|?? Hl Hx]; subst. apply IH in Hl as (H1 & H2 & H3).
      apply Forall_app in Hx as [Hx1 Hx2]. rewrite list.Forall_forall in Hx2.
      split_and!; [by constructor|done|].
      intros a b [->|Ha]%elem_of_cons Hb; [by apply Hx2|by apply H3].
    + intros (H1 & H2 & H3). inversion H1 as [|?? Hl Hx]; subst. constructor.
      * apply IH. split_and!; [done..|]. intros. apply H3; set_solver.
      * apply Forall_app. split; [done|]. rewrite list.Forall_forall. intros. apply H3; set_solver.
Qed.

Lemma StronglySorted_nth {A} (R : A -> A -> Prop) l i j x y : StronglySorted R l ->
  l !! i = Some x -> l !! j = Some y -> (i < j)%nat -> R x y.
Proof.
  intros Hs. revert i j. induction Hs as [|z l Hs IH Hz]; intros i j Hi Hj Hij; [done|].
  destruct i as [|i], j as [|j]; cbn in *; try lia.
  - simplify_eq. rewrite list.Forall_forall in Hz. apply Hz. by eapply list_elem_of_lookup_2.
  - apply (IH i j); [done..|lia].
Qed.

(** ** Binary search *)

Definition sorted_le (a : list Z) : Prop :=
  forall i j, (i <= j < length a)%nat -> nth i a 0 <= nth j a 0.

Lemma mid_bounds lo hi : (lo < hi)%nat -> (lo <= (lo + hi) / 2 < hi)%nat.
Proof.
  intros H. split; [apply Nat.div_le_lower_bound; lia|apply Nat.Div0.div_lt_upper_bound; lia].
Qed.

Lemma bisect_right_go_spec fuel a x : sorted_le a -> forall lo hi,
  (lo <= hi <= length a)%nat -> (hi - lo <= fuel)%nat ->
  (forall j, (hi <= j < length a)%nat -> x < nth j a 0) ->
  let i := bisect_right_go fuel a x lo hi in
  (lo <= i <= hi)%nat /\ (forall j, (lo <= j < i)%nat -> nth j a 0 <= x) /\
  (forall j, (i <= j < length a)%nat -> x < nth j a 0).
Proof.
  intros Ha. induction fuel as [|f IH]; intros lo hi Hb Hf Hhi; cbn [bisect_right_go].
  { split_and!; [lia..|]. intros j Hj. apply Hhi. lia. }
  destruct (decide (lo < hi)%nat) as [Hlt|Hge]; [|split_and!; [lia..|intros; apply Hhi; lia]].
  pose proof (mid_bounds lo hi Hlt) as Hm. cbv zeta.
  set (mid := ((lo + hi) / 2)%nat) in *. destruct (Z.ltb_spec x (nth mid a 0)) as [Hx|Hx].
  - destruct (IH lo mid) as (H1 & H2 & H3); [lia..| |split_and!; [lia..|done|done]].
    intros j Hj. specialize (Ha mid j ltac:(lia)). lia.
  - destruct (IH (S mid) hi) as (H1 & H2 & H3); [lia..|done|]. split_and!; [lia..| |done].
    intros j Hj. destruct (decide (j <= mid)%nat); [|apply H2; lia].
    specialize (Ha j mid ltac:(lia)). lia.
Qed.

(** [bisect_right]: where the values above [x] begin. *)
Lemma bisect_right_spec a x lo : sorted_le a -> (lo <= length a)%nat ->
  let i := bisect_right a x lo in
  (lo <= i <= length a)%nat /\ (forall j, (lo <= j < i)%nat -> nth j a 0 <= x) /\
  (forall j, (i <= j < length a)%nat -> x < nth j a 0).
Proof. intros Ha Hlo. apply bisect_right_go_spec; [done|lia..|]. intros. lia. Qed.

Lemma bisect_left_go_spec fuel a x : sorted_le a -> forall lo hi,
  (lo <= hi <= length a)%nat -> (hi - lo <= fuel)%nat ->
  (forall j, (hi <= j < length a)%nat -> x <= nth j a 0) ->
  let i := bisect_left_go fuel a x lo hi in
  (lo <= i <= hi)%nat /\ (forall j, (lo <= j < i)%nat -> nth j a 0 < x) /\
  (forall j, (i <= j < length a)%nat -> x <= nth j a 0).
Proof.
  intros Ha. induction fuel as [|f IH]; intros lo hi Hb Hf Hhi; cbn [bisect_left_go].
  { split_and!; [lia..|]. intros j Hj. apply Hhi. lia. }
  destruct (decide (lo < hi)%nat) as [Hlt|Hge]; [|split_and!; [lia..|intros; apply Hhi; lia]].
  pose proof (mid_bounds lo hi Hlt) as Hm. cbv zeta.
  set (mid := ((lo + hi) / 2)%nat) in *. destruct (Z.ltb_spec (nth mid a 0) x) as [Hx|Hx].
  - destruct (IH (S mid) hi) as (H1 & H2 & H3); [lia..|done|]. split_and!; [lia..| |done].
    intros j Hj. destruct (decide (j <= mid)%nat); [|apply H2; lia].
    specialize (Ha j mid ltac:(lia)). lia.
  - destruct (IH lo mid) as (H1 & H2 & H3); [lia..| |split_and!; [lia..|done|done]].
    intros j Hj. specialize (Ha mid j ltac:(lia)). lia.
Qed.

Lemma bisect_left_spec a x : sorted_le a ->
  let i := bisect_left a x in
  (i <= length a)%nat /\ (forall j, (j < i)%nat -> nth j a 0 < x) /\
  (forall j, (i <= j < length a)%nat -> x <= nth j a 0).
Proof.
  intros Ha i. destruct (bisect_left_go_spec (length a) a x Ha 0 (length a)) as (H1 & H2 & H3);
    [lia..|intros; lia|]. fold (bisect_left a x) in H1, H2, H3. fold i in H1, H2, H3.
    split_and!; [lia| |done]. intros. apply H2. lia.
Qed.
