(* ===== verification/Bytes.v ===== *)
(** * Bytes of the standard library the transports use

    What Python's standard library gives the framing code: UTF-8 (strict, and
    with the [replace] error handler), big-endian integers of [struct], CRC-32 of
    [zlib], and the cutting of a byte stream into LF-terminated lines. *)

From S2P Require Import Prelude.

Definition is_byte (b : Z) : bool := between 0 255 b.

(** ** UTF-8 *)

(** [str.encode("utf-8")] of one code point; [None]: [UnicodeEncodeError], a
    surrogate. *)
Definition utf8_char (c : Z) : option pybytes :=
  if between 0 127 c then Some [c]
  else if between 128 2047 c then Some [192 + c / 64; 128 + c mod 64]
  else if between 55296 57343 c then None
  else if between 2048 65535 c then Some [224 + c / 4096; 128 + c / 64 mod 64; 128 + c mod 64]
  else if between 65536 1114111 c then
    Some [240 + c / 262144; 128 + c / 4096 mod 64; 128 + c / 64 mod 64; 128 + c mod 64]
  else None.

Fixpoint utf8_encode (s : pystr) : option pybytes :=
  match s with
  | [] => Some []
  | c :: s =>
      match utf8_char c, utf8_encode s with
      | Some b, Some bs => Some (b ++ bs)
      | _, _ => None
      end
  end.

(** The decoder's next step: a code point with the bytes left, or a maximal
    ill-formed prefix with the bytes left after it. *)
Inductive utf8_next : Type :=
| UChar (c : Z) (rest : pybytes)
| UBad (rest : pybytes).

Definition cont (b : Z) : bool := between 128 191 b.

(** The bytes allowed after a lead byte of three or four. *)
Definition second3 (b0 b : Z) : bool :=
  if b0 =? 224 then between 160 191 b else if b0 =? 237 then between 128 159 b else cont b.
Definition second4 (b0 b : Z) : bool :=
  if b0 =? 240 then between 144 191 b else if b0 =? 244 then between 128 143 b else cont b.

Definition utf8_step (b0 : Z) (r : pybytes) : utf8_next :=
  if between 0 127 b0 then UChar b0 r
  else if between 194 223 b0 then
    match r with
    | b1 :: r1 => if cont b1 then UChar ((b0 - 192) * 64 + (b1 - 128)) r1 else UBad r
    | [] => UBad r
    end
  else if between 224 239 b0 then
    match r with
    | b1 :: r1 =>
        if second3 b0 b1 then
          match r1 with
          | b2 :: r2 =>
              if cont b2 then UChar ((b0 - 224) * 4096 + (b1 - 128) * 64 + (b2 - 128)) r2 else UBad r1
          | [] => UBad r1
          end
        else UBad r
    | [] => UBad r
    end
  else if between 240 244 b0 then
    match r with
    | b1 :: r1 =>
        if second4 b0 b1 then
          match r1 with
          | b2 :: r2 =>
              if cont b2 then
                match r2 with
                | b3 :: r3 =>
                    if cont b3
                    then UChar ((b0 - 240) * 262144 + (b1 - 128) * 4096 + (b2 - 128) * 64 + (b3 - 128)) r3
                    else UBad r2
                | [] => UBad r2
                end
              else UBad r1
          | [] => UBad r1
          end
        else UBad r
    | [] => UBad r
    end
  else UBad r.

(** [bytes.decode("utf-8")]; [None]: [UnicodeDecodeError].  [fuel]: the number of
    bytes, since every step consumes at least one. *)
Fixpoint utf8_decode_go (fuel : nat) (s : pybytes) : option pystr :=
  match s, fuel with
  | [], _ => Some []
  | b :: r, S f =>
      match utf8_step b r with
      | UChar c rest => cons c <$> utf8_decode_go f rest
      | UBad _ => None
      end
  | _, O => None
  end.

Definition utf8_decode (s : pybytes) : option pystr := utf8_decode_go (length s) s.

(** [bytes.decode("utf-8", "replace")]: U+FFFD for each ill-formed prefix. *)
Fixpoint utf8_replace_go (fuel : nat) (s : pybytes) : pystr :=
  match s, fuel with
  | b :: r, S f =>
      match utf8_step b r with
      | UChar c rest => c :: utf8_replace_go f rest
      | UBad rest => 65533 :: utf8_replace_go f rest
      end
  | _, _ => []
  end.

Definition utf8_replace (s : pybytes) : pystr := utf8_replace_go (length s) s.

(** ** [struct]: big-endian integers of [w] bytes *)

Fixpoint be_bytes (w : nat) (n : Z) : pybytes :=
  match w with
  | O => []
  | S w => n / 256 ^ Z.of_nat w mod 256 :: be_bytes w n
  end.

Definition be_value (s : pybytes) : Z := fold_left (fun acc b => acc * 256 + b) s 0.

(** Two's complement, the signed formats. *)
Definition be_signed (w : nat) (s : pybytes) : Z :=
  let n := be_value s in
  if 2 * n <? 256 ^ Z.of_nat w then n else n - 256 ^ Z.of_nat w.

(** ** [zlib.crc32]: reflected polynomial 0xEDB88320 *)

Fixpoint crc_bits (k : nat) (c : Z) : Z :=
  match k with
  | O => c
  | S k => crc_bits k (if Z.odd c then Z.lxor 3988292384 (Z.shiftr c 1) else Z.shiftr c 1)
  end.

Definition crc_byte (c b : Z) : Z := crc_bits 8 (Z.lxor c b).

Definition crc32 (s : pybytes) : Z := Z.lxor 4294967295 (fold_left crc_byte s 4294967295).

Example crc32_check : crc32 (lit "123456789") = 3421780262.
Proof. reflexivity. Qed.

(** ** Lemmas: UTF-8 *)

#[global] Arguments Z.div : simpl never.
#[global] Arguments Z.modulo : simpl never.
#[global] Arguments Z.mul : simpl never.
#[global] Arguments Z.add : simpl never.
#[global] Arguments Z.sub : simpl never.

(** Decide a byte-class test met in the goal. *)
Ltac test_true := rewrite (proj2 (andb_true_iff _ _)) by (split; apply Z.leb_le; lia).
Ltac test_false := rewrite (proj2 (andb_false_iff _ _)) by (rewrite !Z.leb_gt; lia).

Lemma between_spec a b c : between a b c = true <-> a <= c <= b.
Proof. unfold between. rewrite andb_true_iff, !Z.leb_le. done. Qed.

Lemma between_false a b c : between a b c = false <-> c < a \/ b < c.
Proof. unfold between. rewrite andb_false_iff, !Z.leb_gt. done. Qed.

(** Replace every [between] test of the goal that arithmetic decides. *)
Ltac between_solve :=
  repeat match goal with
  | |- context [between ?a ?b ?c] =>
      (rewrite (proj2 (between_spec a b c)) by (Z.div_mod_to_equations; lia)) ||
      (rewrite (proj2 (between_false a b c)) by (Z.div_mod_to_equations; lia))
  end.

Lemma utf8_char_range c b : utf8_char c = Some b ->
  0 <= c <= 1114111 /\ ~ (55296 <= c <= 57343).
Proof.
  unfold utf8_char.
  destruct (between 0 127 c) eqn:E1; [apply between_spec in E1; lia|].
  destruct (between 128 2047 c) eqn:E2; [apply between_spec in E2; lia|].
  destruct (between 55296 57343 c) eqn:E3; [done|].
  apply between_false in E1, E2, E3.
  destruct (between 2048 65535 c) eqn:E4; [apply between_spec in E4; lia|].
  destruct (between 65536 1114111 c) eqn:E5; [apply between_spec in E5; lia|done].
Qed.

Lemma utf8_step_char c b0 bs r : utf8_char c = Some (b0 :: bs) -> utf8_step b0 (bs ++ r) = UChar c r.
Proof.
  intros H. pose proof (utf8_char_range _ _ H) as Hc. unfold utf8_char in H. unfold utf8_step, second3, second4, cont.
  destruct (between 0 127 c) eqn:E1; [apply between_spec in E1|apply between_false in E1].
  { simplify_eq. by between_solve. }
  destruct (between 128 2047 c) eqn:E2; [apply between_spec in E2|apply between_false in E2].
  { simplify_eq. between_solve. cbn [app]. between_solve. f_equal. Z.div_mod_to_equations. lia. }
  destruct (between 55296 57343 c) eqn:E3; [done|]. apply between_false in E3.
  destruct (between 2048 65535 c) eqn:E4; [apply between_spec in E4|apply between_false in E4].
  { simplify_eq. between_solve. cbn [app].
    assert (between 128 191 (128 + c mod 64) = true) as -> by (between_solve; done).
    replace ((224 + c / 4096 - 224) * 4096 + (128 + c / 64 mod 64 - 128) * 64 + (128 + c mod 64 - 128))
      with c by (Z.div_mod_to_equations; lia).
    destruct (Z.eqb_spec (224 + c / 4096) 224); [by between_solve|].
    destruct (Z.eqb_spec (224 + c / 4096) 237); by between_solve. }
  destruct (between 65536 1114111 c) eqn:E5; [apply between_spec in E5|done].
  simplify_eq. between_solve. cbn [app].
  assert (between 128 191 (128 + c mod 64) = true) as -> by (between_solve; done).
  assert (between 128 191 (128 + c / 64 mod 64) = true) as -> by (between_solve; done).
  replace ((240 + c / 262144 - 240) * 262144 + (128 + c / 4096 mod 64 - 128) * 4096 +
    (128 + c / 64 mod 64 - 128) * 64 + (128 + c mod 64 - 128)) with c by (Z.div_mod_to_equations; lia).
  destruct (Z.eqb_spec (240 + c / 262144) 240); [by between_solve|].
  destruct (Z.eqb_spec (240 + c / 262144) 244); by between_solve.
Qed.

Lemma second3_spec b0 b : 224 <= b0 <= 239 -> second3 b0 b = true ->
  128 <= b <= 191 /\ (b0 = 224 -> 160 <= b) /\ (b0 = 237 -> b <= 159).
Proof.
  unfold second3, cont. intros Hb.
  destruct (Z.eqb_spec b0 224); [rewrite between_spec; lia|].
  destruct (Z.eqb_spec b0 237); rewrite between_spec; lia.
Qed.

Lemma second4_spec b0 b : 240 <= b0 <= 244 -> second4 b0 b = true ->
  128 <= b <= 191 /\ (b0 = 240 -> 144 <= b) /\ (b0 = 244 -> b <= 143).
Proof.
  unfold second4, cont. intros Hb.
  destruct (Z.eqb_spec b0 240); [rewrite between_spec; lia|].
  destruct (Z.eqb_spec b0 244); rewrite between_spec; lia.
Qed.

(** Take a decoder step's tests apart, keeping what they say as arithmetic. *)
Ltac utf8_tests :=
  repeat match goal with
  | H : (if between ?a ?b ?c then _ else _) = UChar _ _ |- _ =>
      let E := fresh "E" in destruct (between a b c) eqn:E;
      [apply between_spec in E|apply between_false in E]
  | H : (if cont ?c then _ else _) = UChar _ _ |- _ =>
      let E := fresh "E" in destruct (cont c) eqn:E; [apply between_spec in E|done]
  | H : (if second3 ?a ?c then _ else _) = UChar _ _ |- _ =>
      let E := fresh "E" in destruct (second3 a c) eqn:E; [apply second3_spec in E; [|lia]|done]
  | H : (if second4 ?a ?c then _ else _) = UChar _ _ |- _ =>
      let E := fresh "E" in destruct (second4 a c) eqn:E; [apply second4_spec in E; [|lia]|done]
  | H : match ?r with [] => _ | _ :: _ => _ end = UChar _ _ |- _ => destruct r; [done|]
  | H : UChar _ _ = UChar _ _ |- _ => injection H as <- <-
  end; try done.

Lemma utf8_step_inv b r c rest : utf8_step b r = UChar c rest ->
  exists bs, utf8_char c = Some (b :: bs) /\ r = bs ++ rest.
Proof.
  unfold utf8_step. intros H. unfold utf8_char. utf8_tests; cbn [app].
  - exists []. by between_solve.
  - eexists [_]. between_solve. split; [|done]. repeat f_equal; Z.div_mod_to_equations; lia.
  - eexists [_; _]. between_solve. split; [|done]. repeat f_equal; Z.div_mod_to_equations; lia.
  - eexists [_; _; _]. between_solve. split; [|done]. repeat f_equal; Z.div_mod_to_equations; lia.
Qed.

Lemma utf8_char_cons c b : utf8_char c = Some b -> exists b0 bs, b = b0 :: bs.
Proof. unfold utf8_char. repeat case_match; intros; simplify_eq; eauto. Qed.

Lemma utf8_decode_go_encode s : forall b fuel, utf8_encode s = Some b -> (length b <= fuel)%nat ->
  utf8_decode_go fuel b = Some s.
Proof.
  induction s as [|c s IH]; intros b fuel He Hf; cbn in He.
  { simplify_eq. by destruct fuel. }
  destruct (utf8_char c) as [bc|] eqn:Ec; [|done]. destruct (utf8_encode s) as [bs|] eqn:Es; [|done].
  simplify_eq. destruct (utf8_char_cons _ _ Ec) as (b0 & br & ->).
  destruct fuel as [|fuel]; [cbn in Hf; lia|]. cbn [app utf8_decode_go].
  rewrite (utf8_step_char c b0 br bs) by done. rewrite (IH bs); [done..|].
  cbn in Hf. rewrite length_app in Hf. lia.
Qed.

Lemma utf8_decode_encode s b : utf8_encode s = Some b -> utf8_decode b = Some s.
Proof. intros H. by apply utf8_decode_go_encode. Qed.

Lemma utf8_encode_decode_go fuel : forall b s, utf8_decode_go fuel b = Some s -> utf8_encode s = Some b.
Proof.
  induction fuel as [|fuel IH]; intros [|b0 r] s H; cbn in H; simplify_eq; [done..|].
  destruct (utf8_step b0 r) as [c rest|] eqn:E; [|done].
  destruct (utf8_decode_go fuel rest) as [t|] eqn:Et; [|done]. cbn in H. simplify_eq.
  apply IH in Et. apply utf8_step_inv in E as (bs & Hc & ->). cbn. by rewrite Hc, Et.
Qed.

Lemma utf8_encode_decode b s : utf8_decode b = Some s -> utf8_encode s = Some b.
Proof. apply utf8_encode_decode_go. Qed.

Lemma utf8_replace_valid_go fuel : forall b s, utf8_decode_go fuel b = Some s -> utf8_replace_go fuel b = s.
Proof.
  induction fuel as [|fuel IH]; intros [|b0 r] s H; cbn in H |- *; simplify_eq; [done..|].
  destruct (utf8_step b0 r) as [c rest|] eqn:E; [|done].
  destruct (utf8_decode_go fuel rest) as [t|] eqn:Et; [|done]. cbn in H. simplify_eq. by rewrite (IH _ t).
Qed.

(** Valid bytes decode the same under [replace]. *)
Lemma utf8_replace_encode s b : utf8_encode s = Some b -> utf8_replace b = s.
Proof. intros H. by apply utf8_replace_valid_go, utf8_decode_encode. Qed.

Lemma utf8_encode_app s t bs bt : utf8_encode s = Some bs -> utf8_encode t = Some bt ->
  utf8_encode (s ++ t) = Some (bs ++ bt).
Proof.
  revert bs. induction s as [|c s IH]; intros bs Hs Ht; cbn in Hs |- *; [by simplify_eq|].
  destruct (utf8_char c) as [bc|]; [|done]. destruct (utf8_encode s) as [b|]; [|done].
  simplify_eq. rewrite (IH b) by done. by rewrite app_assoc.
Qed.

(** ** Lemmas: big-endian integers *)

Lemma be_bytes_length w n : length (be_bytes w n) = w.
Proof. revert n. induction w as [|w IH]; intros n; cbn; [done|by rewrite IH]. Qed.

Lemma be_bytes_byte w n : Forall (fun b => 0 <= b < 256) (be_bytes w n).
Proof. revert n. induction w as [|w IH]; intros n; cbn; constructor; [apply Z.mod_pos_bound; lia|done]. Qed.

Lemma be_fold s acc : fold_left (fun acc b => acc * 256 + b) s acc = acc * 256 ^ zlen s + be_value s.
Proof.
  unfold be_value. revert acc. induction s as [|b s IH]; intros acc; [change (acc = acc * 1 + 0); lia|]. cbn [fold_left].
  rewrite IH, (IH (0 * 256 + b)). rewrite zlen_cons, Z.pow_add_r by (auto with redact; lia). lia.
Qed.

Lemma be_value_cons b s : be_value (b :: s) = b * 256 ^ zlen s + be_value s.
Proof. unfold be_value at 1. cbn [fold_left]. rewrite be_fold. lia. Qed.

Lemma be_value_bytes w n : be_value (be_bytes w n) = n mod 256 ^ Z.of_nat w.
Proof.
  revert n. induction w as [|w IH]; intros n; [by rewrite Z.mod_1_r|]. cbn [be_bytes].
  rewrite be_value_cons, IH. unfold zlen. rewrite be_bytes_length, Nat2Z.inj_succ, Z.pow_succ_r by lia.
  rewrite (Z.mul_comm 256), Z.rem_mul_r; lia.
Qed.

Lemma be_value_range s : Forall (fun b => 0 <= b < 256) s -> 0 <= be_value s < 256 ^ zlen s.
Proof.
  induction 1 as [|b s Hb _ IH]; [change (0 <= 0 < 1); lia|]. rewrite be_value_cons, zlen_cons, Z.pow_add_r by (auto with redact; lia).
  nia.
Qed.

Lemma be_bytes_mod w m n : (forall k, (k < w)%nat -> m / 256 ^ Z.of_nat k mod 256 = n / 256 ^ Z.of_nat k mod 256) ->
  be_bytes w m = be_bytes w n.
Proof. induction w as [|w IH]; intros H; cbn; [done|]. rewrite H, IH; auto. Qed.

(** Adding a multiple of [256 ^ w] leaves the [w] low digits. *)
Lemma digit_add w k b n : (k < w)%nat ->
  (b * 256 ^ Z.of_nat w + n) / 256 ^ Z.of_nat k mod 256 = n / 256 ^ Z.of_nat k mod 256.
Proof.
  intros Hk. replace (256 ^ Z.of_nat w) with (256 ^ (Z.of_nat w - Z.of_nat k - 1) * 256 * 256 ^ Z.of_nat k).
  - rewrite Z.mul_assoc, Z.div_add_l by lia. by rewrite Z.mul_assoc, Z.add_comm, Z.mod_add by lia.
  - rewrite <- (Z.pow_1_r 256) at 2. rewrite <- !Z.pow_add_r by lia. f_equal. lia.
Qed.

Lemma be_bytes_value s : Forall (fun b => 0 <= b < 256) s -> be_bytes (length s) (be_value s) = s.
Proof.
  induction 1 as [|b s Hb Hs IH]; [done|]. cbn [length be_bytes].
  pose proof (be_value_range s Hs) as Hr. rewrite be_value_cons. unfold zlen in *.
  rewrite Z.div_add_l, Z.div_small, Z.add_0_r, Z.mod_small by lia. f_equal.
  transitivity (be_bytes (length s) (be_value s)); [|done]. apply be_bytes_mod.
  intros k Hk. by apply digit_add.
Qed.

Lemma be_signed_bytes w n : (0 < w)%nat -> - 256 ^ Z.of_nat w <= 2 * n < 256 ^ Z.of_nat w ->
  be_signed w (be_bytes w n) = n.
Proof.
  intros Hw Hn. unfold be_signed. cbv zeta. rewrite be_value_bytes. destruct (Z.ltb_spec n 0).
  - replace (n mod 256 ^ Z.of_nat w) with (n + 256 ^ Z.of_nat w).
    + destruct (Z.ltb_spec (2 * (n + 256 ^ Z.of_nat w)) (256 ^ Z.of_nat w)); lia.
    + apply (Z.mod_unique _ _ (-1)); lia.
  - rewrite Z.mod_small by lia. destruct (Z.ltb_spec (2 * n) (256 ^ Z.of_nat w)); lia.
Qed.

Lemma be_bytes_signed s : Forall (fun b => 0 <= b < 256) s -> be_bytes (length s) (be_signed (length s) s) = s.
Proof.
  intros Hs. transitivity (be_bytes (length s) (be_value s)); [|by apply be_bytes_value]. unfold be_signed. cbv zeta.
  destruct (Z.ltb_spec (2 * be_value s) (256 ^ Z.of_nat (length s))); [done|].
  apply be_bytes_mod. intros k Hk.
  replace (be_value s - 256 ^ Z.of_nat (length s)) with (-1 * 256 ^ Z.of_nat (length s) + be_value s) by lia.
  by apply digit_add.
Qed.

Lemma be_signed_range s : (0 < length s)%nat -> Forall (fun b => 0 <= b < 256) s ->
  - 256 ^ zlen s <= 2 * be_signed (length s) s < 256 ^ zlen s.
Proof.
  intros Hl Hs. pose proof (be_value_range s Hs). unfold be_signed, zlen in *. cbv zeta.
  destruct (Z.ltb_spec (2 * be_value s) (256 ^ Z.of_nat (length s))); lia.
Qed.

(** ** LF-terminated lines *)

(** The complete lines of a buffer, without their LF, and the unterminated rest. *)
Fixpoint cut_lines (s : pybytes) : list pybytes * pybytes :=
  match s with
  | [] => ([], [])
  | x :: s' =>
      let (ls, r) := cut_lines s' in
      if x =? 10 then ([] :: ls, r)
      else match ls with
           | [] => ([], x :: r)
           | l :: ls' => ((x :: l) :: ls', r)
           end
  end.

(** The bytes of complete lines and a rest. *)
Definition uncut (lr : list pybytes * pybytes) : pybytes := concat (map (fun l => l ++ [10]) lr.1) ++ lr.2.

Lemma uncut_cut s : uncut (cut_lines s) = s.
Proof.
  unfold uncut. induction s as [|x s IH]; [done|]. cbn. destruct (cut_lines s) as [ls r]. cbn in IH.
  destruct (Z.eqb_spec x 10) as [->|]; [cbn; by rewrite IH|].
  destruct ls as [|l ls]; cbn in IH |- *; by rewrite IH.
Qed.

Lemma cut_lines_no_lf s : Forall (fun l => mem_char 10 l = false) (cut_lines s).1 /\ mem_char 10 (cut_lines s).2 = false.
Proof.
  induction s as [|x s [IHl IHr]]; [by split|]. cbn. destruct (cut_lines s) as [ls r]. cbn in IHl, IHr.
  destruct (Z.eqb_spec x 10) as [->|Hx]; [by split; [constructor|]|].
  assert ((10 =? x) = false) as Hx' by (by apply Z.eqb_neq).
  destruct ls as [|l ls]; cbn; [split; [done|]|split; [|done]].
  - by rewrite mem_char_cons, Hx', IHr.
  - inversion_clear IHl. constructor; [|done]. rewrite mem_char_cons, Hx'. done.
Qed.

Lemma cut_lines_line l s : mem_char 10 l = false ->
  cut_lines (l ++ 10 :: s) = (l :: (cut_lines s).1, (cut_lines s).2).
Proof.
  induction l as [|x l IH]; intros H; cbn; [by destruct (cut_lines s)|].
  rewrite mem_char_cons in H. apply orb_false_iff in H as [Hx Hl].
  rewrite IH by done. rewrite Z.eqb_sym in Hx. by rewrite Hx.
Qed.

Lemma cut_lines_rest r : mem_char 10 r = false -> cut_lines r = ([], r).
Proof.
  induction r as [|x r IH]; intros H; cbn; [done|]. rewrite mem_char_cons in H.
  apply orb_false_iff in H as [Hx Hr]. rewrite IH by done. rewrite Z.eqb_sym in Hx. by rewrite Hx.
Qed.

(** Cutting is the only way to write a buffer as complete lines and a rest. *)
Lemma cut_lines_uncut ls r : Forall (fun l => mem_char 10 l = false) ls -> mem_char 10 r = false ->
  cut_lines (uncut (ls, r)) = (ls, r).
Proof.
  unfold uncut. cbn. intros Hls Hr. induction Hls as [|l ls Hl _ IH]; cbn; [by apply cut_lines_rest|].
  by rewrite <- !app_assoc; cbn [app]; rewrite cut_lines_line, IH.
Qed.

(** More bytes only extend the rest: the lines already complete stay. *)
Lemma cut_lines_app s t :
  cut_lines (s ++ t) = ((cut_lines s).1 ++ (cut_lines ((cut_lines s).2 ++ t)).1, (cut_lines ((cut_lines s).2 ++ t)).2).
Proof.
  rewrite <- (uncut_cut s) at 1. destruct (cut_lines_no_lf s) as [Hls _].
  destruct (cut_lines s) as [ls r]. unfold uncut. cbn in *. rewrite <- app_assoc.
  induction Hls as [|l ls Hl _ IH]; cbn; [by destruct (cut_lines (r ++ t))|].
  by rewrite <- !app_assoc; cbn [app]; rewrite cut_lines_line, IH.
Qed.

Lemma find_char_Some c s n : find_char c s = Some n ->
  exists a b, s = a ++ c :: b /\ length a = n /\ mem_char c a = false.
Proof.
  revert n. induction s as [|x s IH]; intros n; cbn; [done|]. destruct (Z.eqb_spec x c) as [->|Hx].
  - intros [= <-]. by exists [], s.
  - destruct (find_char c s) as [m|] eqn:E; [|done]. intros [= <-].
    destruct (IH m eq_refl) as (a & b & -> & <- & Ha). exists (x :: a), b.
    rewrite mem_char_cons, Ha. by apply Z.eqb_neq in Hx; rewrite Z.eqb_sym in Hx; rewrite Hx.
Qed.

Lemma find_char_None c s : find_char c s = None -> mem_char c s = false.
Proof.
  induction s as [|x s IH]; [done|]. cbn. rewrite mem_char_cons, (Z.eqb_sym c x).
  destruct (x =? c); [done|]. intros H. rewrite IH; [done|]. by destruct (find_char c s).
Qed.

(** [split(b"\n")] gives the complete lines followed by the rest. *)
Lemma split_char_cut s : split_char 10 s = (cut_lines s).1 ++ [(cut_lines s).2].
Proof.
  induction s as [|x s IH]; [done|]. cbn. destruct (x =? 10).
  - rewrite IH. by destruct (cut_lines s).
  - rewrite IH. destruct (cut_lines s) as [ls r]. by destruct ls.
Qed.

(** ** Lemmas: CRC-32 *)

#[global] Arguments crc_byte : simpl never.
#[global] Arguments crc_bits : simpl never.

Definition u32 (c : Z) : Prop := 0 <= c < 2 ^ 32.

Lemma lxor_range n a b : 0 <= n -> 0 <= a < 2 ^ n -> 0 <= b < 2 ^ n -> 0 <= Z.lxor a b < 2 ^ n.
Proof.
  intros Hn Ha Hb. assert (0 <= Z.lxor a b) as H0 by (apply Z.lxor_nonneg; lia). split; [done|].
  destruct (Z.eq_dec (Z.lxor a b) 0) as [->|Hne]; [lia|]. apply Z.log2_lt_pow2; [lia|].
  assert (forall x, 0 <= x < 2 ^ n -> Z.log2 x < n \/ x = 0) as Hlog.
  { intros x Hx. destruct (Z.eq_dec x 0); [by right|]. left. apply Z.log2_lt_pow2; lia. }
  pose proof (Z.log2_lxor a b ltac:(lia) ltac:(lia)).
  destruct (Hlog a Ha) as [?| ->], (Hlog b Hb) as [?| ->]; rewrite ?Z.lxor_0_l, ?Z.lxor_0_r in *; lia.
Qed.

Definition crc_step (c : Z) : Z := if Z.odd c then Z.lxor 3988292384 (Z.shiftr c 1) else Z.shiftr c 1.

Lemma shiftr_1_range c : u32 c -> 0 <= Z.shiftr c 1 < 2 ^ 31.
Proof. unfold u32. rewrite Z.shiftr_div_pow2 by lia. change (2 ^ 1) with 2. intros. Z.div_mod_to_equations. lia. Qed.

Lemma crc_step_range c : u32 c -> u32 (crc_step c).
Proof.
  intros Hc. pose proof (shiftr_1_range c Hc). unfold crc_step, u32 in *. destruct (Z.odd c); [|lia].
  apply lxor_range; lia.
Qed.

(** The step's top bit is the bit it shifted out. *)
Lemma crc_step_top c : u32 c -> Z.testbit (crc_step c) 31 = Z.odd c.
Proof.
  intros Hc. pose proof (shiftr_1_range c Hc) as Hs. unfold crc_step.
  assert (Z.testbit (Z.shiftr c 1) 31 = false) as Hb.
  { destruct (Z.eq_dec (Z.shiftr c 1) 0) as [->|]; [done|]. apply Z.bits_above_log2; [lia|].
    apply Z.log2_lt_pow2; lia. }
  destruct (Z.odd c); [|done]. by rewrite Z.lxor_spec, Hb.
Qed.

Lemma lxor_inj a b c : Z.lxor a b = Z.lxor a c -> b = c.
Proof.
  intros H. rewrite <- (Z.lxor_0_l b), <- (Z.lxor_0_l c), <- (Z.lxor_nilpotent a), !Z.lxor_assoc. by rewrite H.
Qed.

Lemma crc_step_inj c d : u32 c -> u32 d -> crc_step c = crc_step d -> c = d.
Proof.
  intros Hc Hd H. assert (Z.odd c = Z.odd d) as Ho by (by rewrite <- !crc_step_top, H).
  assert (Z.shiftr c 1 = Z.shiftr d 1) as Hs.
  { unfold crc_step in H. rewrite Ho in H. destruct (Z.odd d); [by apply lxor_inj in H|done]. }
  rewrite <- !Z.div2_spec in Hs. rewrite (Zdiv2_odd_eqn c), (Zdiv2_odd_eqn d). by rewrite Hs, Ho.
Qed.

Lemma crc_bits_step k c : crc_bits (S k) c = crc_bits k (crc_step c).
Proof. done. Qed.

Lemma crc_bits_range k : forall c, u32 c -> u32 (crc_bits k c).
Proof. induction k as [|k IH]; intros c Hc; [done|]. rewrite crc_bits_step. by apply IH, crc_step_range. Qed.

Lemma crc_bits_inj k : forall c d, u32 c -> u32 d -> crc_bits k c = crc_bits k d -> c = d.
Proof.
  induction k as [|k IH]; intros c d Hc Hd; [done|]. rewrite !crc_bits_step. intros H.
  apply crc_step_inj; [done..|]. apply IH; [by apply crc_step_range..|done].
Qed.

Lemma crc_xor_range c b : u32 c -> 0 <= b < 256 -> u32 (Z.lxor c b).
Proof. unfold u32. intros. apply lxor_range; lia. Qed.

Lemma crc_byte_range c b : u32 c -> 0 <= b < 256 -> u32 (crc_byte c b).
Proof. intros. by apply crc_bits_range, crc_xor_range. Qed.

Lemma crc_fold_range s : Forall (fun b => 0 <= b < 256) s -> forall c, u32 c -> u32 (fold_left crc_byte s c).
Proof. induction 1 as [|b s Hb _ IH]; intros c Hc; cbn; [done|]. by apply IH, crc_byte_range. Qed.

Lemma crc_byte_inj_l b c d : u32 c -> u32 d -> 0 <= b < 256 -> crc_byte c b = crc_byte d b -> c = d.
Proof.
  intros Hc Hd Hb H. apply crc_bits_inj in H; [|by apply crc_xor_range..].
  rewrite !(Z.lxor_comm _ b) in H. by apply lxor_inj in H.
Qed.

Lemma crc_byte_inj_r c x y : u32 c -> 0 <= x < 256 -> 0 <= y < 256 -> crc_byte c x = crc_byte c y -> x = y.
Proof. intros Hc Hx Hy H. apply crc_bits_inj in H; [|by apply crc_xor_range..]. by apply lxor_inj in H. Qed.

Lemma crc_fold_inj s : Forall (fun b => 0 <= b < 256) s -> forall c d, u32 c -> u32 d ->
  fold_left crc_byte s c = fold_left crc_byte s d -> c = d.
Proof.
  induction 1 as [|b s Hb _ IH]; intros c d Hc Hd; cbn [fold_left]; [done|]. intros H.
  apply IH in H; [|by apply crc_byte_range..]. by apply crc_byte_inj_l in H.
Qed.

Lemma u32_ones : u32 4294967295.
Proof. unfold u32. lia. Qed.

Lemma crc32_range s : Forall (fun b => 0 <= b < 256) s -> 0 <= crc32 s < 2 ^ 32.
Proof. intros H. apply lxor_range; [lia|lia|]. apply crc_fold_range; [done|apply u32_ones]. Qed.

Lemma crc_fold_detects i a b x y : u32 i -> Forall (fun b => 0 <= b < 256) (a ++ x :: b) -> 0 <= y < 256 ->
  fold_left crc_byte (a ++ x :: b) i = fold_left crc_byte (a ++ y :: b) i -> x = y.
Proof.
  intros Hi [Ha [Hx Hb]%Forall_cons_1]%Forall_app Hy H.
  pose proof (crc_fold_range a Ha i Hi) as Hr. rewrite !fold_left_app in H. cbn [fold_left] in H.
  apply crc_fold_inj in H; [|done|by apply crc_byte_range..]. by apply crc_byte_inj_r in H.
Qed.

(** A single changed byte changes the checksum. *)
Lemma crc32_detects a b x y : Forall (fun b => 0 <= b < 256) (a ++ x :: b) -> 0 <= y < 256 ->
  crc32 (a ++ x :: b) = crc32 (a ++ y :: b) -> x = y.
Proof.
  intros Hs Hy H. unfold crc32 in H. apply lxor_inj in H.
  exact (crc_fold_detects 4294967295 a b x y u32_ones Hs Hy H).
Qed.

Lemma utf8_char_bytes c b : utf8_char c = Some b -> Forall (fun b => 0 <= b < 256) b.
Proof.
  intros H. pose proof (utf8_char_range _ _ H). unfold utf8_char in H.
  destruct (between 0 127 c) eqn:E1; [apply between_spec in E1|]; [|
  destruct (between 128 2047 c) eqn:E2; [apply between_spec in E2|]; [|
  destruct (between 55296 57343 c) eqn:E3; [done|];
  destruct (between 2048 65535 c) eqn:E4; [apply between_spec in E4|]; [|
  destruct (between 65536 1114111 c) eqn:E5; [apply between_spec in E5|done]]]];
  simplify_eq; repeat constructor; Z.div_mod_to_equations; lia.
Qed.

Lemma utf8_encode_bytes s b : utf8_encode s = Some b -> Forall (fun b => 0 <= b < 256) b.
Proof.
  revert b. induction s as [|c s IH]; intros b H; cbn in H; [by injection H as <-|].
  destruct (utf8_char c) eqn:E; [|done]. destruct (utf8_encode s); [|done]. injection H as <-.
  apply Forall_app. split; [by eapply utf8_char_bytes|by apply IH].
Qed.

#[global] Arguments be_bytes : simpl never.
#[global] Arguments be_value : simpl never.
#[global] Arguments be_signed : simpl never.
#[global] Arguments crc32 : simpl never.
