(* ===== verification/Ndjson.v ===== *)
(** * NDJSON line framing -- src/llm_redact/ndjson.py *)

From S2P Require Import Prelude Bytes.

Module NDJSONParser.

(** [self._buffer] *)
Definition t : Type := pybytes.

Definition init : t := [].

(** [*lines, self._buffer = self._buffer.split(b"\n")] *)
Definition feed (buffer : t) (chunk : pybytes) : list pybytes * t :=
  let parts := split_char 10 (buffer ++ chunk) in
  (removelast parts, List.last parts []).

Definition close (buffer : t) : pybytes * t := (buffer, []).

Fixpoint feed_all (buffer : t) (chunks : list pybytes) : list pybytes * t :=
  match chunks with
  | [] => ([], buffer)
  | chunk :: chunks =>
      let (lines, buffer1) := feed buffer chunk in
      let (more, buffer2) := feed_all buffer1 chunks in (lines ++ more, buffer2)
  end.

Lemma feed_cut buffer chunk : feed buffer chunk = cut_lines (buffer ++ chunk).
Proof.
  unfold feed. rewrite split_char_cut, removelast_last, last_last. by destruct (cut_lines _).
Qed.

Lemma feed_all_cut chunks : forall buffer, mem_char 10 buffer = false ->
  feed_all buffer chunks = cut_lines (buffer ++ concat chunks).
Proof.
  induction chunks as [|c chunks IH]; intros buffer Hb; cbn [feed_all concat].
  { by rewrite app_nil_r, cut_lines_rest. }
  rewrite feed_cut, app_assoc, (cut_lines_app (buffer ++ c)).
  destruct (cut_lines_no_lf (buffer ++ c)) as [_ Hr].
  destruct (cut_lines (buffer ++ c)) as [ls r]. cbn in *. rewrite IH by done.
  by destruct (cut_lines (r ++ _)).
Qed.

(** NDJSON framing loses nothing and does not depend on the chunks: however a
    stream is cut, the lines handed out are its LF-terminated lines in order, the
    buffer holds only the unterminated rest (never an LF), and lines, LFs and the
    rest together are the stream's bytes. *)
Theorem ndjson_lines chunks :
  let (lines, buffer) := feed_all init chunks in
  Forall (fun l => mem_char 10 l = false) lines /\ mem_char 10 buffer = false /\
  concat (map (fun l => l ++ [10]) lines) ++ (close buffer).1 = concat chunks.
Proof.
  rewrite feed_all_cut by done. unfold init. cbn [app]. destruct (cut_lines_no_lf (concat chunks)) as [Hl Hr].
  pose proof (uncut_cut (concat chunks)) as Hu. destruct (cut_lines (concat chunks)) as [ls r].
  cbn in *. split_and!; done.
Qed.

End NDJSONParser.
