(* ===== verification/Sse.v ===== *)
(** * Server-sent events -- src/llm_redact/sse.py

    The incremental parser over bytes and the serializer.  [serialize] answers
    [None] where the source raises [UnicodeEncodeError]. *)

From S2P Require Import Prelude Bytes.

Record SSEEvent : Type := mk_event {
  event : option pystr;
  data : pystr;
  ev_id : option pystr;
  comments : list pystr
}.

Definition blank_event : SSEEvent := mk_event None [] None [].

Definition is_comment_only (e : SSEEvent) : bool :=
  match event e, data e, ev_id e, comments e with
  | None, [], None, _ :: _ => true
  | _, _, _, _ => false
  end.

(** [s.lstrip(" ")], [s.removeprefix(" ")], [s.rstrip(b"\r")] and
    [s.partition(":")] (its first and last part). *)
Fixpoint lstrip_char (c : Z) (s : pystr) : pystr :=
  match s with x :: s' => if x =? c then lstrip_char c s' else s | [] => [] end.

Definition rstrip_char (c : Z) (s : pystr) : pystr := rev (lstrip_char c (rev s)).

Definition removeprefix_char (c : Z) (s : pystr) : pystr :=
  match s with x :: s' => if x =? c then s' else s | [] => [] end.

Definition partition_char (c : Z) (s : pystr) : pystr * pystr :=
  match find_char c s with
  | Some n => (take n s, drop (S n) s)
  | None => (s, [])
  end.

Module SSEParser.

Record t : Type := mk { byte_buffer : pybytes; pending : option SSEEvent }.

Definition init : t := mk [] None.

(** [_current] *)
Definition current (pending : option SSEEvent) : SSEEvent := default blank_event pending.

(** A non-empty line's effect on the event under construction. *)
Definition on_field (e : SSEEvent) (line : pystr) : SSEEvent :=
  if starts_with (lit ":") line then
    mk_event (event e) (data e) (ev_id e) (comments e ++ [lstrip_char 32 (drop 1 line)])
  else
    let (name, value) := partition_char 58 line in
    let value := removeprefix_char 32 value in
    if decide (name = lit "event") then mk_event (Some value) (data e) (ev_id e) (comments e)
    else if decide (name = lit "data") then
      mk_event (event e)
        (match data e with [] => value | _ => data e ++ [10] ++ value end) (ev_id e) (comments e)
    else if decide (name = lit "id") then mk_event (event e) (data e) (Some value) (comments e)
    else e.

(** The body of [feed]'s loop for one complete, decoded line. *)
Definition on_line (pending : option SSEEvent) (line : pystr) : list SSEEvent * option SSEEvent :=
  match line with
  | [] => match pending with Some e => ([e], None) | None => ([], None) end
  | _ => ([], Some (on_field (current pending) line))
  end.

Definition decode_line (raw_line : pybytes) : pystr := utf8_replace (rstrip_char 13 raw_line).

(** [feed]'s loop.  [fuel]: more than the LFs of the buffer. *)
Fixpoint feed_go (fuel : nat) (buffer : pybytes) (pending : option SSEEvent) : list SSEEvent * t :=
  match find_char 10 buffer, fuel with
  | Some newline, S fuel =>
      let (events, pending) := on_line pending (decode_line (take newline buffer)) in
      let (more, p) := feed_go fuel (drop (S newline) buffer) pending in
      (events ++ more, p)
  | _, _ => ([], mk buffer pending)
  end.

Definition feed (p : t) (chunk : pybytes) : list SSEEvent * t :=
  let buffer := byte_buffer p ++ chunk in feed_go (length buffer) buffer (pending p).

Definition close (p : t) : list SSEEvent * t :=
  let (events, p) :=
    match byte_buffer p with
    | [] => ([], p)
    | _ =>
        let (events, p) := feed p [10] in
        match byte_buffer p with
        | [] => (events, p)
        | _ => let (more, p) := feed (mk (byte_buffer p ++ [10]) (pending p)) [10] in (events ++ more, p)
        end
    end in
  match pending p with
  | Some e => (events ++ [e], mk (byte_buffer p) None)
  | None => (events, p)
  end.

Fixpoint feed_all (p : t) (chunks : list pybytes) : list SSEEvent * t :=
  match chunks with
  | [] => ([], p)
  | chunk :: chunks =>
      let (events, p) := feed p chunk in
      let (more, p) := feed_all p chunks in (events ++ more, p)
  end.

End SSEParser.

(** The lines [serialize] joins. *)
Definition event_lines (e : SSEEvent) : list pystr :=
  map (fun c => match c with [] => lit ":" | _ => lit ": " ++ c end) (comments e) ++
  match event e with Some v => [lit "event: " ++ v] | None => [] end ++
  match ev_id e with Some v => [lit "id: " ++ v] | None => [] end ++
  match data e with [] => [] | _ => map (fun part => lit "data: " ++ part) (split_char 10 (data e)) end.

Definition serialize (e : SSEEvent) : option pybytes :=
  utf8_encode (join [10] (event_lines e) ++ [10; 10]).

(** ** The parser as a fold over complete lines *)
Section Lines.
Import SSEParser.

Fixpoint run_lines (pending : option SSEEvent) (lines : list pystr) : list SSEEvent * option SSEEvent :=
  match lines with
  | [] => ([], pending)
  | l :: lines =>
      let (events, pending) := on_line pending l in
      let (more, pending) := run_lines pending lines in (events ++ more, pending)
  end.

Lemma run_lines_app ls1 ls2 : forall pending,
  run_lines pending (ls1 ++ ls2) =
  let (e1, p1) := run_lines pending ls1 in let (e2, p2) := run_lines p1 ls2 in (e1 ++ e2, p2).
Proof.
  induction ls1 as [|l ls1 IH]; intros pending; cbn; [by destruct (run_lines pending ls2)|].
  destruct (on_line pending l) as [ev p]. rewrite IH.
  destruct (run_lines p ls1) as [e1 p1], (run_lines p1 ls2). by rewrite app_assoc.
Qed.

Lemma feed_go_lines fuel : forall buffer pending, (length buffer <= fuel)%nat ->
  feed_go fuel buffer pending =
  let (ls, r) := cut_lines buffer in let (ev, p) := run_lines pending (map decode_line ls) in (ev, mk r p).
Proof.
  induction fuel as [|fuel IH]; intros buffer pending Hf.
  { destruct buffer; [done|cbn in Hf; lia]. }
  cbn [feed_go]. destruct (find_char 10 buffer) as [n|] eqn:E.
  - apply find_char_Some in E as (a & b & -> & <- & Ha). rewrite cut_lines_line, take_app_length by done.
    rewrite length_app in Hf. cbn in Hf. replace (drop (S (length a)) (a ++ 10 :: b)) with b.
    2: { rewrite drop_app_ge by lia. by replace (S (length a) - length a)%nat with 1%nat by lia. }
    cbn [run_lines map]. destruct (on_line pending (decode_line a)) as [ev p]. rewrite IH by lia.
    destruct (cut_lines b) as [ls r]. cbn. by destruct (run_lines p _).
  - apply find_char_None in E. by rewrite cut_lines_rest.
Qed.

Lemma feed_lines p chunk : feed p chunk =
  let (ls, r) := cut_lines (byte_buffer p ++ chunk) in let (ev, q) := run_lines (pending p) (map decode_line ls) in (ev, mk r q).
Proof. by apply feed_go_lines. Qed.

Lemma feed_all_lines chunks : forall p, mem_char 10 (byte_buffer p) = false -> feed_all p chunks =
  let (ls, r) := cut_lines (byte_buffer p ++ concat chunks) in
  let (ev, q) := run_lines (pending p) (map decode_line ls) in (ev, mk r q).
Proof.
  induction chunks as [|c chunks IH]; intros [buf pend] Hb; cbn [feed_all concat byte_buffer pending] in *.
  { by rewrite app_nil_r, cut_lines_rest. }
  rewrite feed_lines, app_assoc, (cut_lines_app (buf ++ c)). cbn [byte_buffer pending].
  destruct (cut_lines_no_lf (buf ++ c)) as [_ Hr].
  destruct (cut_lines (buf ++ c)) as [ls r]. cbn [fst snd] in *. rewrite map_app, run_lines_app.
  destruct (run_lines pend (map decode_line ls)) as [e1 p1]. rewrite IH by done. cbn [byte_buffer pending].
  destruct (cut_lines (r ++ concat chunks)) as [ls2 r2]. cbn [fst snd].
  by destruct (run_lines p1 _).
Qed.
End Lines.

(** Server-sent events do not depend on the chunks: however the bytes of a
    stream are cut -- also inside a UTF-8 sequence or between CR and LF -- the
    events and the parser's state are those of one [feed] of the whole stream, and
    the buffer never holds a complete line. *)
Theorem sse_chunk_independent chunks :
  SSEParser.feed_all SSEParser.init chunks = SSEParser.feed SSEParser.init (concat chunks) /\
  mem_char 10 (SSEParser.byte_buffer (SSEParser.feed_all SSEParser.init chunks).2) = false.
Proof.
  rewrite feed_all_lines, feed_lines by done. split; [done|]. cbn.
  destruct (cut_lines_no_lf (concat chunks)) as [_ Hr]. destruct (cut_lines (concat chunks)) as [ls r].
  by destruct (run_lines None _).
Qed.

(** ** What the parser hands out can be serialized and reads back *)

Definition char_ok (c : Z) : bool := between 0 1114111 c && negb (between 55296 57343 c).

(** A line's text: encodable, without LF, and not ending in CR. *)
Definition line_ok (s : pystr) : bool :=
  forallb char_ok s && negb (mem_char 10 s) && bool_decide (list.last s <> Some 13).

Definition data_ok (d : pystr) : bool := forallb line_ok (split_char 10 d) && negb (starts_with [10] d).

Definition event_ok (e : SSEEvent) : bool :=
  forallb (fun c => line_ok c && negb (starts_with [32] c)) (comments e) &&
  default true (line_ok <$> event e) && default true (line_ok <$> ev_id e) && data_ok (data e).

Lemma line_ok_spec s : line_ok s = true <->
  forallb char_ok s = true /\ mem_char 10 s = false /\ list.last s <> Some 13.
Proof. unfold line_ok. rewrite !andb_true_iff, negb_true_iff, bool_decide_eq_true. tauto. Qed.

Lemma line_ok_suffix a b : line_ok (a ++ b) = true -> line_ok b = true.
Proof.
  rewrite !line_ok_spec, forallb_app, andb_true_iff, mem_char_app, orb_false_iff.
  intros ([_ Hb] & [_ Hm] & Hl). split_and!; try done. intros Hlast. apply Hl.
  destruct b as [|x b]; [done|]. by rewrite last_app, Hlast.
Qed.

Lemma lstrip_char_suffix c s : exists a, s = a ++ lstrip_char c s.
Proof.
  induction s as [|x s [a IH]]; [by exists []|]. cbn. destruct (x =? c); [|by exists []].
  exists (x :: a). cbn. by rewrite <- IH.
Qed.

Lemma lstrip_char_head c s : starts_with [c] (lstrip_char c s) = false.
Proof.
  induction s as [|x s IH]; [done|]. cbn. destruct (Z.eqb_spec x c) as [->|Hx]; [done|].
  cbn. apply Z.eqb_neq in Hx. by rewrite Z.eqb_sym, Hx.
Qed.

Lemma removeprefix_suffix c s : exists a, s = a ++ removeprefix_char c s.
Proof. destruct s as [|x s]; [by exists []|]. cbn. destruct (x =? c); [by exists [x]|by exists []]. Qed.

Lemma partition_suffix c s : exists a, s = a ++ (partition_char c s).2.
Proof.
  unfold partition_char. destruct (find_char c s) as [n|]; cbn.
  - exists (take (S n) s). by rewrite take_drop.
  - exists s. by rewrite app_nil_r.
Qed.

Lemma starts_with_one c s : starts_with [c] s = true <-> exists t, s = c :: t.
Proof.
  destruct s as [|x s]; cbn; [split; [done|by intros [? ?]]|]. rewrite andb_true_r, Z.eqb_eq. naive_solver.
Qed.

Lemma split_char_no c s : mem_char c s = false -> split_char c s = [s].
Proof.
  induction s as [|x s IH]; [done|]. rewrite mem_char_cons. intros [Hx Hs]%orb_false_iff. cbn.
  rewrite Z.eqb_sym in Hx. by rewrite Hx, IH.
Qed.

Lemma split_char_app c s t : split_char c (s ++ c :: t) = split_char c s ++ split_char c t.
Proof.
  induction s as [|x s IH]; cbn; [by rewrite Z.eqb_refl|]. destruct (x =? c); [by rewrite IH|].
  rewrite IH. by destruct (split_char c s) as [|h l] eqn:E; [destruct s; cbn in E; repeat case_match; simplify_eq|].
Qed.

Lemma split_char_cons c s : exists h l, split_char c s = h :: l.
Proof. destruct s as [|x s]; cbn; [eauto|]. destruct (x =? c); [eauto|]. destruct (split_char c s); eauto. Qed.

Lemma join_split c s : join [c] (split_char c s) = s.
Proof.
  induction s as [|x s IH]; [done|]. cbn [split_char]. destruct (split_char_cons c s) as (h & l & E).
  rewrite E in IH |- *. destruct (Z.eqb_spec x c) as [->|_].
  - change (join [c] ([] :: h :: l)) with (c :: join [c] (h :: l)). by rewrite IH.
  - destruct l; cbn in IH |- *; by rewrite IH.
Qed.

Lemma forallb_prefix {A} (p : A -> bool) a b : forallb p (a ++ b) = true -> forallb p a = true.
Proof. rewrite forallb_app, andb_true_iff. by intros [? _]. Qed.

(** *** Every decoded line is [line_ok] *)

Lemma utf8_step_suffix b r rest : utf8_step b r = UBad rest -> exists p, r = p ++ rest.
Proof.
  unfold utf8_step. intros H. repeat case_match; simplify_eq;
    first [by exists []|by eexists [_]|by eexists [_; _]].
Qed.

Lemma char_ok_utf8 c b : utf8_char c = Some b -> char_ok c = true.
Proof.
  intros H. apply utf8_char_range in H as [H1 H2]. unfold char_ok.
  rewrite (proj2 (between_spec _ _ _)) by lia. by rewrite (proj2 (between_false _ _ _)) by lia.
Qed.

Lemma utf8_char_ascii c b bs : 0 <= c < 128 -> utf8_char c = Some (b :: bs) -> b = c /\ bs = [].
Proof. intros Hc. unfold utf8_char. rewrite (proj2 (between_spec _ _ _)) by lia. by intros [= <- <-]. Qed.

Lemma replace_chars fuel : forall b, forallb char_ok (utf8_replace_go fuel b) = true.
Proof.
  induction fuel as [|fuel IH]; intros [|b r]; [done..|]. cbn.
  destruct (utf8_step b r) as [c rest|rest] eqn:E; cbn; rewrite IH; [|done].
  apply utf8_step_inv in E as (bs & Hc & _). by rewrite (char_ok_utf8 _ _ Hc).
Qed.

Lemma replace_no_lf fuel : forall b, mem_char 10 b = false -> mem_char 10 (utf8_replace_go fuel b) = false.
Proof.
  induction fuel as [|fuel IH]; intros [|b r]; [done..|]. cbn. rewrite mem_char_cons.
  intros [Hb Hr]%orb_false_iff. destruct (utf8_step b r) as [c rest|rest] eqn:E; rewrite mem_char_cons.
  - apply utf8_step_inv in E as (bs & Hc & ->). rewrite mem_char_app, orb_false_iff in Hr. rewrite IH by tauto.
    destruct (Z.eqb_spec 10 c) as [<-|]; [|done]. apply utf8_char_ascii in Hc as [-> _]; [done|lia].
  - apply utf8_step_suffix in E as [p ->]. rewrite mem_char_app, orb_false_iff in Hr. by rewrite IH by tauto.
Qed.

Lemma last_cons_ne {A} (x : A) s : s <> [] -> list.last (x :: s) = list.last s.
Proof. by destruct s. Qed.

Lemma last_app_ne {A} (s t : list A) : t <> [] -> list.last (s ++ t) = list.last t.
Proof.
  induction s as [|x s IH]; [done|]. intros Ht. rewrite <- IH by done. cbn [app].
  apply last_cons_ne. destruct s; [by cbn|done].
Qed.

Lemma replace_nonempty fuel b : (length b <= fuel)%nat -> b <> [] -> utf8_replace_go fuel b <> [].
Proof. intros Hf Hb. destruct b as [|x b]; [done|]. destruct fuel; [cbn in Hf; lia|]. cbn. by destruct (utf8_step _ _). Qed.

Lemma replace_last fuel : forall b, (length b <= fuel)%nat ->
  list.last (utf8_replace_go fuel b) = Some 13 -> list.last b = Some 13.
Proof.
  induction fuel as [|fuel IH]; intros [|b r] Hf; [done|cbn in Hf; lia|done|]. cbn [utf8_replace_go]. cbn in Hf.
  assert (forall c rest p, r = p ++ rest -> (c = 13 -> b = 13 /\ p = []) ->
    list.last (c :: utf8_replace_go fuel rest) = Some 13 -> list.last (b :: r) = Some 13) as H.
  { intros c rest p -> Hc. rewrite length_app in Hf. destruct rest as [|x rest].
    - replace (utf8_replace_go fuel []) with (@nil Z) by (by destruct fuel).
      intros [= ->]. destruct (Hc eq_refl) as [-> ->]. done.
    - rewrite last_cons_ne by (apply replace_nonempty; [lia|done]). intros Hl.
      rewrite app_comm_cons, last_app_ne by done. apply IH; [lia|done]. }
  destruct (utf8_step b r) as [c rest|rest] eqn:E.
  - apply utf8_step_inv in E as (bs & Hc & ->). eapply H; [done|]. intros ->.
    apply utf8_char_ascii in Hc as [-> ->]; [done|lia].
  - apply utf8_step_suffix in E as [p ->]. by eapply H.
Qed.

Lemma rstrip_char_prefix c s : exists t, s = rstrip_char c s ++ t.
Proof.
  unfold rstrip_char. destruct (lstrip_char_suffix c (rev s)) as [a Ha].
  exists (rev a). by rewrite <- rev_app_distr, <- Ha, rev_involutive.
Qed.

Lemma last_rev {A} (s : list A) : list.last (rev s) = head s.
Proof. destruct s; [done|]. cbn [rev]. by rewrite last_snoc. Qed.

Lemma rstrip_char_last c s : list.last (rstrip_char c s) <> Some c.
Proof.
  unfold rstrip_char. rewrite last_rev. pose proof (lstrip_char_head c (rev s)) as H.
  destruct (lstrip_char c (rev s)) as [|x t]; [done|]. cbn in *. intros [= ->]. by rewrite Z.eqb_refl in H.
Qed.

Lemma decode_line_ok raw : mem_char 10 raw = false -> line_ok (SSEParser.decode_line raw) = true.
Proof.
  intros H. apply line_ok_spec. unfold SSEParser.decode_line, utf8_replace. split_and!.
  - apply replace_chars.
  - apply replace_no_lf. destruct (rstrip_char_prefix 13 raw) as [t Ht]. rewrite Ht, mem_char_app in H.
    by apply orb_false_iff in H as [H _].
  - intros Hl. apply replace_last in Hl; [|done]. by apply rstrip_char_last in Hl.
Qed.

(** *** The event under construction stays [event_ok] *)

Lemma data_ok_add d v : data_ok d = true -> line_ok v = true ->
  data_ok (match d with [] => v | _ => d ++ [10] ++ v end) = true.
Proof.
  intros Hd Hv. assert (mem_char 10 v = false) as Hm by (by apply line_ok_spec in Hv as (_ & ? & _)).
  unfold data_ok in *. destruct d as [|x d].
  - rewrite split_char_no by done. cbn. rewrite Hv. destruct v as [|y v]; [done|]. cbn.
    rewrite mem_char_cons in Hm. apply orb_false_iff in Hm as [-> _]. done.
  - cbn [app]. apply andb_true_iff in Hd as [Hd Hx].
    change (x :: d ++ 10 :: v) with ((x :: d) ++ 10 :: v).
    rewrite split_char_app, forallb_app, Hd, split_char_no by done. cbn. by rewrite Hv.
Qed.

Lemma on_field_ok e line : event_ok e = true -> line_ok line = true ->
  event_ok (SSEParser.on_field e line) = true.
Proof.
  intros He Hl. unfold SSEParser.on_field. destruct e as [ev d id cs]. unfold event_ok in *. cbn [event data ev_id comments] in He.
  rewrite !andb_true_iff in He. destruct He as [[[Hcs Hev] Hid] Hd].
  destruct (starts_with (lit ":") line) eqn:E; cbn [event data ev_id comments].
  - rewrite forallb_app, Hcs, Hev, Hid, Hd. cbn [forallb andb].
    assert (line_ok (lstrip_char 32 (drop 1 line)) = true) as ->.
    { destruct (lstrip_char_suffix 32 (drop 1 line)) as [a Ha]. apply (line_ok_suffix (take 1 line ++ a)).
      by rewrite <- app_assoc, <- Ha, take_drop. }
    by rewrite lstrip_char_head.
  - destruct (partition_char 58 line) as [name value] eqn:Ep.
    assert (line_ok (removeprefix_char 32 value) = true) as Hv.
    { destruct (partition_suffix 58 line) as [a Ha]. rewrite Ep in Ha. cbn in Ha. rewrite Ha in Hl.
      destruct (removeprefix_suffix 32 value) as [b Hb]. apply line_ok_suffix in Hl. rewrite Hb in Hl.
      by apply line_ok_suffix in Hl. }
    repeat case_decide; cbn [event data ev_id comments]; rewrite ?Hcs, ?Hev, ?Hid, ?Hd; cbn; rewrite ?Hv; try done.
    by rewrite data_ok_add.
Qed.

Definition pending_ok (p : option SSEEvent) : bool := default true (event_ok <$> p).

Lemma run_lines_ok lines : forall p, pending_ok p = true -> forallb line_ok lines = true ->
  forallb event_ok (run_lines p lines).1 = true /\ pending_ok (run_lines p lines).2 = true.
Proof.
  induction lines as [|l lines IH]; intros p Hp Hl; [done|]. cbn in Hl. apply andb_true_iff in Hl as [Hl Hls].
  cbn. unfold SSEParser.on_line. destruct l as [|c l].
  - destruct p as [e|].
    + specialize (IH None eq_refl Hls). destruct (run_lines None lines). cbn in *. by rewrite Hp.
    + specialize (IH None eq_refl Hls). by destruct (run_lines None lines).
  - specialize (IH (Some (SSEParser.on_field (SSEParser.current p) (c :: l)))).
    destruct (run_lines _ lines). apply IH; [|done]. apply on_field_ok; [by destruct p|done].
Qed.

(** *** The lines of a serialized event read back *)

Lemma utf8_char_ok c : char_ok c = true -> exists b bs, utf8_char c = Some (b :: bs) /\
  ((b = c /\ bs = [] /\ c < 128) \/ (128 <= c /\ Forall (Z.le 128) (b :: bs))).
Proof.
  unfold char_ok, utf8_char. rewrite andb_true_iff, negb_true_iff, between_spec, between_false. intros [H1 H2].
  destruct (between 0 127 c) eqn:E1; [apply between_spec in E1|apply between_false in E1].
  { eexists _, _. split; [done|]. left. split_and!; [done..|lia]. }
  destruct (between 128 2047 c) eqn:E2; [apply between_spec in E2|apply between_false in E2].
  { eexists _, _. split; [done|]. right. split; [lia|].
    repeat constructor; Z.div_mod_to_equations; lia. }
  rewrite (proj2 (between_false 55296 57343 c)) by lia.
  destruct (between 2048 65535 c) eqn:E3; [apply between_spec in E3|apply between_false in E3].
  { eexists _, _. split; [done|]. right. split; [lia|]. repeat constructor; Z.div_mod_to_equations; lia. }
  rewrite (proj2 (between_spec 65536 1114111 c)) by lia.
  eexists _, _. split; [done|]. right. split; [lia|]. repeat constructor; Z.div_mod_to_equations; lia.
Qed.

Lemma encode_ok s : forallb char_ok s = true -> exists b, utf8_encode s = Some b /\
  (mem_char 10 s = false -> mem_char 10 b = false) /\ (list.last b = Some 13 -> list.last s = Some 13).
Proof.
  induction s as [|c s IH]; [by exists []|]. cbn [forallb]. intros [Hc Hs]%andb_true_iff.
  destruct (IH Hs) as (b & Hb & Hm & Hl). destruct (utf8_char_ok c Hc) as (b0 & bs & Hcb & Hcase).
  exists ((b0 :: bs) ++ b). cbn [utf8_encode]. rewrite Hcb, Hb. split_and!; [done|..].
  - rewrite mem_char_cons, mem_char_app. intros [Hx Hs']%orb_false_iff. apply orb_false_iff.
    split; [|by apply Hm]. destruct Hcase as [(-> & -> & _)|[_ Hge]]; [by rewrite mem_char_cons, Hx|].
    apply not_true_is_false. rewrite mem_char_elem. intros Hin. rewrite list.Forall_forall in Hge.
    specialize (Hge _ Hin). lia.
  - destruct b as [|y b].
    + assert (s = []) as ->.
      { destruct s as [|z s]; [done|]. cbn in Hb. cbn in Hs. apply andb_true_iff in Hs as [Hz _].
        destruct (utf8_char_ok z Hz) as (? & ? & Hz' & _). rewrite Hz' in Hb. by destruct (utf8_encode s). }
      rewrite app_nil_r. destruct Hcase as [(-> & -> & _)|[_ Hge]]; [done|]. intros Hlast.
      apply list.last_Some_elem_of in Hlast. rewrite list.Forall_forall in Hge. specialize (Hge _ Hlast). lia.
    + rewrite last_app_ne by done. intros Hlast. specialize (Hl Hlast). rewrite last_cons_ne; [done|by intros ->].
Qed.

Lemma rstrip_char_id c s : list.last s <> Some c -> rstrip_char c s = s.
Proof.
  unfold rstrip_char. intros H. rewrite <- (rev_involutive s) in H at 1. rewrite last_rev in H.
  destruct (rev s) as [|x t] eqn:E; [by rewrite <- (rev_involutive s), E|].
  cbn in H |- *. destruct (Z.eqb_spec x c) as [->|_]; [done|]. by rewrite <- (rev_involutive s), E.
Qed.

Lemma line_ok_decode s : line_ok s = true -> exists b, utf8_encode s = Some b /\
  mem_char 10 b = false /\ SSEParser.decode_line b = s.
Proof.
  intros (Hc & Hm & Hl)%line_ok_spec. destruct (encode_ok s Hc) as (b & Hb & Hmb & Hlb).
  exists b. split_and!; [done|by apply Hmb|]. unfold SSEParser.decode_line.
  rewrite rstrip_char_id by auto. by apply utf8_replace_encode.
Qed.

Lemma utf8_encode_lf : utf8_encode [10] = Some [10].
Proof. done. Qed.

Lemma lines_decode ls : forallb line_ok ls = true -> exists bls,
  utf8_encode (concat (map (fun l => l ++ [10]) ls)) = Some (concat (map (fun l => l ++ [10]) bls)) /\
  Forall (fun l => mem_char 10 l = false) bls /\ map SSEParser.decode_line bls = ls.
Proof.
  induction ls as [|l ls IH]; [by exists []|]. cbn [forallb]. intros [Hl Hls]%andb_true_iff.
  destruct (IH Hls) as (bls & He & Hm & Hd). destruct (line_ok_decode l Hl) as (b & Hb & Hbm & Hbd).
  exists (b :: bls). cbn [map concat]. split_and!; [|by constructor|by rewrite Hbd, Hd].
  apply utf8_encode_app; [|done]. by apply utf8_encode_app.
Qed.

Lemma join_lines ls : ls <> [] -> join [10] ls ++ [10] = concat (map (fun l => l ++ [10]) ls).
Proof.
  induction ls as [|l ls IH]; [done|]. intros _. destruct ls as [|l' ls]; [cbn; by rewrite app_nil_r|].
  change (join [10] (l :: l' :: ls)) with (l ++ [10] ++ join [10] (l' :: ls)).
  rewrite <- !app_assoc. rewrite (IH ltac:(done)). cbn [map concat]. by rewrite <- !app_assoc.
Qed.

Lemma run_fields ls : forallb (fun l => bool_decide (l <> [])) ls = true -> forall p,
  run_lines p ls = ([], match ls with [] => p | _ => Some (fold_left SSEParser.on_field ls (SSEParser.current p)) end).
Proof.
  induction ls as [|l ls IH]; [done|]. cbn [forallb]. intros [Hl Hls]%andb_true_iff p.
  apply bool_decide_eq_true in Hl. cbn [run_lines]. destruct l as [|c l]; [done|]. cbn [SSEParser.on_line].
  rewrite IH by done. destruct ls; done.
Qed.

(** Each line of a serialized event sets its field. *)
Lemma on_field_comment e c : starts_with [32] c = false ->
  SSEParser.on_field e (match c with [] => lit ":" | _ => lit ": " ++ c end) =
  mk_event (event e) (data e) (ev_id e) (comments e ++ [c]).
Proof.
  intros Hc. destruct c as [|x c]; [done|]. unfold SSEParser.on_field. cbn. cbn in Hc.
  rewrite andb_true_r in Hc. rewrite Z.eqb_sym in Hc. by rewrite Hc.
Qed.

Lemma fold_comments cs : forall e, forallb (fun c => line_ok c && negb (starts_with [32] c)) cs = true ->
  fold_left SSEParser.on_field (map (fun c => match c with [] => lit ":" | _ => lit ": " ++ c end) cs) e =
  mk_event (event e) (data e) (ev_id e) (comments e ++ cs).
Proof.
  induction cs as [|c cs IH]; intros e; [by destruct e; cbn; rewrite app_nil_r|].
  cbn [forallb map fold_left]. intros [[_ Hc%negb_true_iff]%andb_true_iff Hcs]%andb_true_iff.
  rewrite on_field_comment, IH by done. cbn. by rewrite <- app_assoc.
Qed.

Lemma on_field_data e v : SSEParser.on_field e (lit "data: " ++ v) =
  mk_event (event e) (match data e with [] => v | _ => data e ++ [10] ++ v end) (ev_id e) (comments e).
Proof. done. Qed.

Lemma fold_data parts : forall e, data e <> [] ->
  fold_left SSEParser.on_field (map (fun part => lit "data: " ++ part) parts) e =
  mk_event (event e) (join [10] (data e :: parts)) (ev_id e) (comments e).
Proof.
  induction parts as [|p parts IH]; intros [ev d id cs] Hd; [done|]. cbn [map fold_left].
  rewrite on_field_data. cbn [data event ev_id comments] in *. destruct d as [|x d]; [done|].
  rewrite IH by done. cbn [data event ev_id comments]. f_equal. cbn. f_equal.
  destruct parts; cbn; by rewrite ?app_nil_r, <- ?app_assoc.
Qed.

Lemma line_ok_prefix p s : forallb char_ok p = true -> mem_char 10 p = false -> list.last p <> Some 13 ->
  line_ok s = true -> line_ok (p ++ s) = true.
Proof.
  rewrite !line_ok_spec. intros Hc Hm Hl (Hcs & Hms & Hls). rewrite forallb_app, Hc, Hcs, mem_char_app, Hm, Hms.
  split_and!; [done..|]. destruct s as [|x s]; [by rewrite app_nil_r|by rewrite last_app_ne].
Qed.

Lemma event_lines_ok e : event_ok e = true ->
  forallb line_ok (event_lines e) = true /\ forallb (fun l => bool_decide (l <> [])) (event_lines e) = true /\
  (e <> blank_event -> event_lines e <> []).
Proof.
  destruct e as [ev d id cs]. unfold event_ok, event_lines. cbn [event data ev_id comments].
  rewrite !andb_true_iff. intros [[[Hcs Hev] Hid] [Hd _]%andb_true_iff]. split_and!.
  - rewrite !forallb_app, !andb_true_iff. split_and!.
    + rewrite forallb_forall in Hcs |- *. intros l (c & <- & Hin)%in_map_iff.
      apply Hcs, andb_true_iff in Hin as [Hc _]. destruct c as [|x c]; [done|]. by apply (line_ok_prefix (lit ": ")).
    + destruct ev as [v|]; [|done]. cbn in Hev. cbn [forallb]. by rewrite (line_ok_prefix (lit "event: ")).
    + destruct id as [v|]; [|done]. cbn in Hid. cbn [forallb]. by rewrite (line_ok_prefix (lit "id: ")).
    + destruct d as [|x d]; [done|]. rewrite forallb_forall in Hd |- *.
      intros l (c & <- & Hin)%in_map_iff. apply (line_ok_prefix (lit "data: ")); [done..|]. by apply Hd.
  - rewrite !forallb_app, !andb_true_iff. split_and!.
    + apply forallb_forall. intros l (c & <- & _)%in_map_iff. by destruct c.
    + by destruct ev.
    + by destruct id.
    + destruct d as [|x d]; [done|]. apply forallb_forall. by intros l (c & <- & _)%in_map_iff.
  - intros Hne. destruct cs as [|c cs]; [|done]. destruct ev; [done|]. destruct id; [done|].
    destruct d as [|x d]; [done|]. cbn [map app]. by destruct (split_char_cons 10 (x :: d)) as (h & l & ->).
Qed.

Lemma fold_event e : event_ok e = true -> fold_left SSEParser.on_field (event_lines e) blank_event = e.
Proof.
  destruct e as [ev d id cs]. unfold event_ok, event_lines. cbn [event data ev_id comments].
  rewrite !andb_true_iff. intros [[[Hcs _] _] [_ Hd%negb_true_iff]%andb_true_iff].
  rewrite !fold_left_app, fold_comments by done. cbn [event data ev_id comments app].
  assert (forall e', fold_left SSEParser.on_field (match ev with Some v => [lit "event: " ++ v] | None => [] end) e' =
    mk_event (match ev with Some v => Some v | None => event e' end) (data e') (ev_id e') (comments e')) as ->
    by (intros []; by destruct ev).
  cbn [event data ev_id comments].
  assert (forall e', fold_left SSEParser.on_field (match id with Some v => [lit "id: " ++ v] | None => [] end) e' =
    mk_event (event e') (data e') (match id with Some v => Some v | None => ev_id e' end) (comments e')) as ->
    by (intros []; by destruct id).
  cbn [event data ev_id comments].
  transitivity (mk_event ev d id cs); [|done]. destruct d as [|x d].
  { by destruct ev, id. }
  pose proof (join_split 10 (x :: d)) as Hj. destruct (split_char_cons 10 (x :: d)) as (h & l & E). rewrite E in *.
  cbn [map fold_left]. rewrite on_field_data. cbn [event data ev_id comments blank_event].
  assert (h <> []) as Hh.
  { intros ->. destruct l as [|p l]; [done|]. cbn in Hj. injection Hj as <- _. by cbn in Hd. }
  rewrite fold_data by (cbn; by destruct h). cbn [event data ev_id comments]. rewrite Hj. by destruct ev, id.
Qed.

(** A serialized event is a sequence of complete lines, the last one empty. *)
Lemma serialize_lines e : event_ok e = true -> e <> blank_event -> exists bls,
  serialize e = Some (uncut (bls ++ [[]], [])) /\ Forall (fun l => mem_char 10 l = false) (bls ++ [[]]) /\
  map SSEParser.decode_line (bls ++ [[]]) = event_lines e ++ [[]].
Proof.
  intros He Hne. destruct (event_lines_ok e He) as (Hl & _ & Hn). specialize (Hn Hne).
  destruct (lines_decode _ Hl) as (bls & Hb & Hm & Hd). exists bls. split_and!.
  - unfold serialize, uncut. cbn [fst snd]. rewrite app_nil_r, map_app, concat_app.
    change [10; 10] with ([10] ++ [10]). rewrite app_assoc, join_lines by done. by apply utf8_encode_app.
  - apply Forall_app. split; [done|by repeat constructor].
  - by rewrite map_app, Hd.
Qed.

Lemma feed_serialized e b rest p : event_ok e = true -> e <> blank_event -> serialize e = Some b ->
  SSEParser.pending p = None -> SSEParser.byte_buffer p = [] ->
  SSEParser.feed p (b ++ rest) = let (ev, q) := SSEParser.feed SSEParser.init rest in (e :: ev, q).
Proof.
  intros He Hne Hs Hp Hb. destruct (serialize_lines e He Hne) as (bls & Hs' & Hm & Hd).
  rewrite Hs in Hs'. injection Hs' as ->. rewrite !feed_lines, Hp, Hb. cbn [app SSEParser.init SSEParser.byte_buffer].
  rewrite cut_lines_app, (cut_lines_uncut _ _ Hm) by done. cbn [fst snd app].
  destruct (cut_lines rest) as [ls r]. cbn [fst snd]. rewrite map_app, Hd, run_lines_app, run_lines_app.
  destruct (event_lines_ok e He) as (_ & Hf & Hn). rewrite run_fields by done.
  cbn [SSEParser.current SSEParser.pending default]. rewrite fold_event by done.
  destruct (event_lines e); [by specialize (Hn Hne)|]. cbn. by destruct (run_lines None _).
Qed.

(** A stream of events the proxy writes is read back exactly: serializing any
    sequence of well-formed, non-blank events and parsing the bytes -- in chunks
    cut anywhere -- gives the same events and leaves nothing buffered. *)
Theorem sse_round_trip es chunks : Forall (fun e => event_ok e = true /\ e <> blank_event) es ->
  exists bs, Forall2 (fun e b => serialize e = Some b) es bs /\
  (concat chunks = concat bs -> SSEParser.feed_all SSEParser.init chunks = (es, SSEParser.init)).
Proof.
  intros Hes. assert (exists bs, Forall2 (fun e b => serialize e = Some b) es bs /\
    SSEParser.feed SSEParser.init (concat bs) = (es, SSEParser.init)) as (bs & Hbs & Hf).
  { induction Hes as [|e es [He Hne] _ (bs & Hbs & IH)]; [by exists []|].
    destruct (serialize_lines e He Hne) as (bls & Hs & _). exists (uncut (bls ++ [[]], []) :: bs).
    split; [by constructor|]. cbn [concat]. rewrite (feed_serialized e) by done. by rewrite IH. }
  exists bs. split; [done|]. intros Hc.
  rewrite feed_all_lines by done. rewrite Hc, <- Hf, feed_lines. done.
Qed.

Lemma sse_round_trip_witness :
  let e1 := mk_event (Some (lit "delta")) (lit "{text" ++ [10] ++ lit " 1}") None [lit "ping"] in
  let e2 := mk_event None (lit "[DONE]") None [] in
  match serialize e1, serialize e2 with
  | Some b1, Some b2 =>
      SSEParser.feed_all SSEParser.init [take 9 (b1 ++ b2); drop 9 (b1 ++ b2)] = ([e1; e2], SSEParser.init)
  | _, _ => False
  end.
Proof.
  intros e1 e2.
  destruct (sse_round_trip [e1; e2]
    match serialize e1, serialize e2 with
    | Some b1, Some b2 => [take 9 (b1 ++ b2); drop 9 (b1 ++ b2)]
    | _, _ => []
    end) as (bs & Hbs & H).
  - repeat constructor; vm_compute; congruence.
  - inversion Hbs as [|? b1 ? ? H1 Hr]; subst. inversion Hr as [|? b2 ? ? H2 Hr']; subst.
    inversion Hr'; subst. rewrite H1, H2 in *. apply H. cbn [concat]. by rewrite !app_nil_r, take_drop.
Defined.

Lemma event_ok_blank e : e = blank_event \/ e <> blank_event.
Proof. destruct e as [[] [] [] []]; (by left) || by right. Qed.

Lemma close_ok p es : pending_ok (SSEParser.pending p) = true -> mem_char 10 (SSEParser.byte_buffer p) = false ->
  forallb event_ok es = true ->
  (SSEParser.close p).2 = SSEParser.init /\ forallb event_ok (es ++ (SSEParser.close p).1) = true.
Proof.
  intros Hp Hb Hes. rewrite forallb_app, Hes. destruct p as [buf pend]. cbn in Hp, Hb. unfold SSEParser.close.
  cbn [SSEParser.byte_buffer]. destruct buf as [|x buf].
  { cbn [SSEParser.pending]. destruct pend as [e|]; cbn in Hp |- *; by rewrite ?Hp. }
  rewrite feed_lines. cbn [SSEParser.byte_buffer SSEParser.pending].
  rewrite cut_lines_line by done. cbn [cut_lines fst snd map].
  pose proof (run_lines_ok [SSEParser.decode_line (x :: buf)] pend Hp) as Hr.
  destruct (run_lines pend [SSEParser.decode_line (x :: buf)]) as [ev q]. cbn [SSEParser.byte_buffer SSEParser.pending].
  cbn [fst snd] in Hr. destruct Hr as [Hev Hq]; [cbn [forallb]; by rewrite decode_line_ok|].
  destruct q as [e|]; cbn in Hq |- *; [|done]. rewrite forallb_app, Hev. cbn. by rewrite Hq.
Qed.

(** What the parser hands out can always be written again: for any bytes
    whatsoever -- malformed UTF-8, stray CRs, unknown fields -- in any chunks,
    every event of the stream, the one [close] flushes included, serializes, and
    the bytes parse back to that event alone (a blank event, made of unknown
    fields only, serializes to two LFs); [close] leaves the parser empty. *)
Theorem sse_reemission_faithful chunks :
  let (es, p) := SSEParser.feed_all SSEParser.init chunks in
  let (final, q) := SSEParser.close p in
  q = SSEParser.init /\
  Forall (fun e => exists b, serialize e = Some b /\
    (SSEParser.feed SSEParser.init b = ([e], SSEParser.init) \/ (e = blank_event /\ b = [10; 10]))) (es ++ final).
Proof.
  rewrite feed_all_lines by done. cbn [app SSEParser.init SSEParser.byte_buffer SSEParser.pending].
  destruct (cut_lines_no_lf (concat chunks)) as [Hls Hr]. destruct (cut_lines (concat chunks)) as [ls r]. cbn in Hls, Hr.
  assert (forallb line_ok (map SSEParser.decode_line ls) = true) as Hl.
  { apply forallb_forall. intros l (raw & <- & Hin)%in_map_iff. rewrite List.Forall_forall in Hls.
    by apply decode_line_ok, Hls. }
  destruct (run_lines_ok (map SSEParser.decode_line ls) None eq_refl Hl) as [Hes Hp].
  destruct (run_lines None (map SSEParser.decode_line ls)) as [es p]. cbn [fst snd] in Hes, Hp.
  destruct (close_ok (SSEParser.mk r p) es Hp Hr Hes) as [Hq Hall].
  destruct (SSEParser.close (SSEParser.mk r p)) as [final q]. cbn [fst snd] in *. split; [done|].
  rewrite forallb_forall in Hall. apply List.Forall_forall. intros e He%Hall.
  destruct (event_ok_blank e) as [->|Hne].
  - exists [10; 10]. split; [done|by right].
  - destruct (serialize_lines e He Hne) as (bls & Hs & _). eexists. split; [done|]. left.
    rewrite <- (app_nil_r (uncut _)), (feed_serialized e) by done. done.
Qed.
