(* ===== verification/EventStream.v ===== *)
(** * AWS event stream framing -- src/llm_redact/eventstream.py

    Header values keep their Python type, so that [serialize] fails where the
    source's [struct.pack], assertions and encoder fail. *)

From S2P Require Import Prelude Bytes.

Definition BOOL_TRUE : Z := 0.
Definition BOOL_FALSE : Z := 1.
Definition BYTE : Z := 2.
Definition SHORT : Z := 3.
Definition INT : Z := 4.
Definition LONG : Z := 5.
Definition BYTE_ARRAY : Z := 6.
Definition STRING : Z := 7.
Definition TIMESTAMP : Z := 8.
Definition UUID : Z := 9.

(** [_INT_FORMATS]: the formats' sizes, all signed and big-endian. *)
Definition INT_FORMATS (code : Z) : option nat :=
  if code =? BYTE then Some 1%nat
  else if code =? SHORT then Some 2%nat
  else if code =? INT then Some 4%nat
  else if code =? LONG then Some 8%nat
  else if code =? TIMESTAMP then Some 8%nat
  else None.

(** What parsing and serializing raise. *)
Inductive es_error : Type :=
| EventStreamError (why : string)
| UnicodeDecodeError
| UnicodeEncodeError
| StructError
| AssertionError
| ByteRangeError.

(** A header's value: [bool], [int], [bytes], [str] or [uuid.UUID]. *)
Inductive hvalue : Type :=
| VBool (b : bool)
| VInt (n : Z)
| VBytes (s : pybytes)
| VStr (s : pystr)
| VUuid (s : pybytes).

Record header_t : Type := mk_header { h_name : pystr; h_code : Z; h_value : hvalue }.

Record EventStreamMessage : Type := mk_message { headers : list header_t; payload : pybytes }.

(** [header]: the first header of that name; the three [str]-typed accessors. *)
Definition header (m : EventStreamMessage) (name : pystr) : option hvalue :=
  h_value <$> List.find (fun h => bool_decide (h_name h = name)) (headers m).

Definition str_header (name : string) (m : EventStreamMessage) : option pystr :=
  match header m (lit name) with Some (VStr s) => Some s | _ => None end.
Definition message_type : EventStreamMessage -> option pystr := str_header ":message-type".
Definition event_type : EventStreamMessage -> option pystr := str_header ":event-type".
Definition exception_type : EventStreamMessage -> option pystr := str_header ":exception-type".

Local Abbreviation err why := (Raise (EventStreamError why)).

(** [len(data) - pos < n], the data given from [pos] on. *)
Definition short_of (data : pybytes) (n : Z) : bool := zlen data <? n.

Definition take_z (n : Z) (s : pybytes) : pybytes := take (Z.to_nat n) s.
Definition drop_z (n : Z) (s : pybytes) : pybytes := drop (Z.to_nat n) s.

(** One header's value of type [code], and the data after it. *)
Definition parse_value (code : Z) (data : pybytes) : result es_error (hvalue * pybytes) :=
  if code =? BOOL_TRUE then Ok (VBool true, data)
  else if code =? BOOL_FALSE then Ok (VBool false, data)
  else match INT_FORMATS code with
  | Some size =>
      if short_of data (Z.of_nat size) then err "truncated header value"
      else Ok (VInt (be_signed size (take size data)), drop size data)
  | None =>
      if (code =? BYTE_ARRAY) || (code =? STRING) then
        if short_of data 2 then err "truncated header value length"
        else
          let length := be_value (take 2 data) in
          let data := drop 2 data in
          if short_of data length then err "truncated header value"
          else
            let raw := take_z length data in
            if code =? STRING then
              match utf8_decode raw with
              | Some s => Ok (VStr s, drop_z length data)
              | None => Raise UnicodeDecodeError
              end
            else Ok (VBytes raw, drop_z length data)
      else if code =? UUID then
        if short_of data 16 then err "truncated header value"
        else Ok (VUuid (take 16 data), drop 16 data)
      else err "unknown header value type"
  end.

(** [_parse_headers].  [fuel]: the length of the data, since every header takes a
    byte at least. *)
Fixpoint parse_headers_go (fuel : nat) (data : pybytes) : result es_error (list header_t) :=
  match data, fuel with
  | [], _ => Ok []
  | _, O => Ok []
  | name_len :: data, S fuel =>
      if short_of data (name_len + 1) then err "truncated header name"
      else
        match utf8_decode (take_z name_len data) with
        | None => Raise UnicodeDecodeError
        | Some name =>
            match drop_z name_len data with
            | [] => err "truncated header name"
            | code :: data =>
                match parse_value code data with
                | Raise e => Raise e
                | Ok (value, data) =>
                    match parse_headers_go fuel data with
                    | Raise e => Raise e
                    | Ok hs => Ok (mk_header name code value :: hs)
                    end
                end
            end
        end
  end.

Definition parse_headers (data : pybytes) : result es_error (list header_t) :=
  parse_headers_go (length data) data.

(** The integer [struct.pack] sees: a [bool] is an [int]. *)
Definition as_int (v : hvalue) : option Z :=
  match v with VInt n => Some n | VBool b => Some (Z.b2z b) | _ => None end.

Definition serialize_value (code : Z) (value : hvalue) : result es_error pybytes :=
  if (code =? BOOL_TRUE) || (code =? BOOL_FALSE) then Ok []
  else match INT_FORMATS code with
  | Some size =>
      match as_int value with
      | Some n =>
          if (- 256 ^ Z.of_nat size <=? 2 * n) && (2 * n <? 256 ^ Z.of_nat size)
          then Ok (be_bytes size n) else Raise StructError
      | None => Raise StructError
      end
  | None =>
      if (code =? BYTE_ARRAY) || (code =? STRING) then
        match match value with
              | VStr s => match utf8_encode s with Some raw => Ok raw | None => Raise UnicodeEncodeError end
              | VBytes raw => Ok raw
              | _ => Raise AssertionError
              end with
        | Raise e => Raise e
        | Ok raw => if 65535 <? zlen raw then Raise StructError else Ok (be_bytes 2 (zlen raw) ++ raw)
        end
      else if code =? UUID then
        match value with VUuid s => Ok s | _ => Raise AssertionError end
      else err "unknown header value type"
  end.

(** [_serialize_headers] *)
Fixpoint serialize_headers (hs : list header_t) : result es_error pybytes :=
  match hs with
  | [] => Ok []
  | mk_header name code value :: hs =>
      match utf8_encode name with
      | None => Raise UnicodeEncodeError
      | Some name_bytes =>
          if 255 <? zlen name_bytes then err "header name over 255 bytes"
          else if negb (between 0 255 code) then Raise ByteRangeError
          else
            match serialize_value code value with
            | Raise e => Raise e
            | Ok v =>
                match serialize_headers hs with
                | Raise e => Raise e
                | Ok rest => Ok (zlen name_bytes :: name_bytes ++ code :: v ++ rest)
                end
            end
      end
  end.

(** [serialize]; [struct.pack] refuses a length of more than four bytes. *)
Definition frame (hs payload : pybytes) : pybytes :=
  let prelude := be_bytes 4 (16 + zlen hs + zlen payload) ++ be_bytes 4 (zlen hs) in
  let body := prelude ++ be_bytes 4 (crc32 prelude) ++ hs ++ payload in
  body ++ be_bytes 4 (crc32 body).

Definition serialize (message : EventStreamMessage) : result es_error pybytes :=
  match serialize_headers (headers message) with
  | Raise e => Raise e
  | Ok hs =>
      if 2 ^ 32 <=? 16 + zlen hs + zlen (payload message) then Raise StructError
      else Ok (frame hs (payload message))
  end.

Module EventStreamParser.
Section Bound.
Context (max_frame_bytes : Z).

(** One round of [feed]'s loop over the buffer from [pos] on: a message and the
    bytes after its frame, or [None] to wait for more bytes. *)
Definition next_frame (buffer : pybytes) : result es_error (option (EventStreamMessage * pybytes)) :=
  if short_of buffer 12 then Ok None
  else
    let total := be_value (take 4 buffer) in
    let headers_len := be_value (take 4 (drop 4 buffer)) in
    let prelude_crc := be_value (take 4 (drop 8 buffer)) in
    if (total <? 16) || (max_frame_bytes <? total) || (total - 16 <? headers_len)
    then err "implausible frame lengths"
    else if negb (crc32 (take 8 buffer) =? prelude_crc) then err "prelude CRC mismatch"
    else if short_of buffer total then Ok None
    else
      let frame := take_z total buffer in
      let message_crc := be_value (drop_z (total - 4) frame) in
      if negb (crc32 (take_z (total - 4) frame) =? message_crc) then err "message CRC mismatch"
      else
        match parse_headers (take_z headers_len (drop 12 frame)) with
        | Raise e => Raise e
        | Ok hs =>
            let payload := drop_z (12 + headers_len) (take_z (total - 4) frame) in
            Ok (Some (mk_message hs payload, drop_z total buffer))
        end.

(** [feed]'s loop; [fuel]: at least the number of frames in the buffer. *)
Fixpoint feed_go (fuel : nat) (buffer : pybytes) : result es_error (list EventStreamMessage * pybytes) :=
  match fuel with
  | O => Ok ([], buffer)
  | S fuel =>
      match next_frame buffer with
      | Raise e => Raise e
      | Ok None => Ok ([], buffer)
      | Ok (Some (m, rest)) =>
          match feed_go fuel rest with
          | Raise e => Raise e
          | Ok (ms, rest) => Ok (m :: ms, rest)
          end
      end
  end.

(** [feed]: the state is the buffer; consumed bytes are deleted only when the whole
    round succeeds. *)
Definition feed (buffer chunk : pybytes) : result es_error (list EventStreamMessage) * pybytes :=
  let buffer := buffer ++ chunk in
  match feed_go (length buffer) buffer with
  | Ok (ms, rest) => (Ok ms, rest)
  | Raise e => (Raise e, buffer)
  end.

Definition residual (buffer : pybytes) : pybytes := buffer.

Definition close (buffer : pybytes) : result es_error unit :=
  match buffer with [] => Ok tt | _ => err "trailing bytes at stream end" end.

End Bound.
End EventStreamParser.

Definition string_header (name value : pystr) : header_t := mk_header name STRING (VStr value).

(** ** Headers: parse and serialize are inverse *)

Definition is_bytes (s : pybytes) : Prop := Forall (fun b => 0 <= b < 256) s.

Definition value_typed (code : Z) (v : hvalue) : bool :=
  match v with
  | VBool true => code =? BOOL_TRUE
  | VBool false => code =? BOOL_FALSE
  | VInt _ => match INT_FORMATS code with Some _ => true | None => false end
  | VBytes _ => code =? BYTE_ARRAY
  | VStr _ => code =? STRING
  | VUuid s => (code =? UUID) && (zlen s =? 16)
  end.

Definition header_typed (h : header_t) : bool := value_typed (h_code h) (h_value h).

Lemma is_bytes_app s t : is_bytes (s ++ t) <-> is_bytes s /\ is_bytes t.
Proof. apply Forall_app. Qed.

Lemma is_bytes_be w n : is_bytes (be_bytes w n).
Proof. apply be_bytes_byte. Qed.

Lemma short_of_false s n : short_of s n = false <-> n <= zlen s.
Proof. unfold short_of. apply Z.ltb_ge. Qed.

Lemma short_of_true s n : short_of s n = true <-> zlen s < n.
Proof. unfold short_of. apply Z.ltb_lt. Qed.

Lemma take_app_z s t : take_z (zlen s) (s ++ t) = s.
Proof. unfold take_z, zlen. by rewrite Nat2Z.id, take_app_length. Qed.

Lemma drop_app_z s t : drop_z (zlen s) (s ++ t) = t.
Proof. unfold drop_z, zlen. by rewrite Nat2Z.id, drop_app_length. Qed.

Lemma take_drop_z n s : take_z n s ++ drop_z n s = s.
Proof. apply take_drop. Qed.

Lemma zlen_take_z n s : 0 <= n <= zlen s -> zlen (take_z n s) = n.
Proof. unfold zlen, take_z. rewrite length_take. lia. Qed.

(** Cut [s] at [n] when it is long enough. *)
Lemma split_at (s : pybytes) n : 0 <= n <= zlen s -> exists a b, s = a ++ b /\ zlen a = n.
Proof. intros H. exists (take_z n s), (drop_z n s). by rewrite take_drop_z, zlen_take_z. Qed.

Lemma split_at_nat (s : pybytes) n : Z.of_nat n <= zlen s -> exists a b, s = a ++ b /\ length a = n.
Proof. unfold zlen. intros H. exists (take n s), (drop n s). rewrite take_drop, length_take. split; [done|lia]. Qed.

Lemma INT_FORMATS_pos code size : INT_FORMATS code = Some size -> (0 < size)%nat.
Proof. unfold INT_FORMATS. repeat case_match; intros; simplify_eq; lia. Qed.

Lemma INT_FORMATS_other code size : INT_FORMATS code = Some size ->
  (code =? BOOL_TRUE) = false /\ (code =? BOOL_FALSE) = false.
Proof.
  unfold INT_FORMATS. destruct (Z.eqb_spec code BOOL_TRUE) as [->|]; [done|].
  by destruct (Z.eqb_spec code BOOL_FALSE) as [->|].
Qed.

Lemma parse_value_inv code data v rest : is_bytes data -> parse_value code data = Ok (v, rest) ->
  value_typed code v = true /\ exists vb, serialize_value code v = Ok vb /\ data = vb ++ rest.
Proof.
  intros Hb. unfold parse_value, serialize_value.
  destruct (Z.eqb_spec code BOOL_TRUE) as [->|Ht]; [intros [= <- <-]; split; [done|by exists []]|].
  destruct (Z.eqb_spec code BOOL_FALSE) as [->|Hf]; [intros [= <- <-]; split; [done|by exists []]|].
  cbn [orb]. destruct (INT_FORMATS code) as [size|] eqn:Ei.
  { destruct (short_of data (Z.of_nat size)) eqn:Es; [done|]. intros [= <- <-]. apply short_of_false in Es.
    destruct (split_at_nat data size Es) as (a & b & -> & <-). apply is_bytes_app in Hb as [Ha _].
    rewrite take_app_length, drop_app_length. cbn [value_typed as_int]. rewrite Ei. split; [done|].
    pose proof (be_signed_range a (INT_FORMATS_pos _ _ Ei) Ha) as Hr. unfold zlen in Hr.
    rewrite (proj2 (Z.leb_le _ _)), (proj2 (Z.ltb_lt _ _)) by lia. cbn.
    exists a. by rewrite be_bytes_signed. }
  destruct ((code =? BYTE_ARRAY) || (code =? STRING)) eqn:Eb.
  { destruct (short_of data 2) eqn:E2; [done|]. apply short_of_false in E2.
    destruct (split_at_nat data 2 E2) as (l & d & -> & Hl). apply is_bytes_app in Hb as [Hbl Hbd].
    rewrite (take_app_length' l d 2), (drop_app_length' l d 2) by done. cbv zeta.
    destruct (short_of d (be_value l)) eqn:E3; [done|]. apply short_of_false in E3.
    pose proof (be_value_range l Hbl) as Hr. unfold zlen in Hr. rewrite Hl in Hr.
    change (256 ^ Z.of_nat 2) with 65536 in Hr.
    destruct (split_at d (be_value l)) as (a & b & -> & Ha); [lia|].
    assert (be_bytes 2 (zlen a) = l) as Hla by (rewrite Ha, <- Hl; by apply be_bytes_value).
    rewrite <- Ha, take_app_z, drop_app_z.
    assert (zlen a <= 65535) as Hle by lia. apply Z.ltb_ge in Hle.
    destruct (Z.eqb_spec code STRING) as [->|Hs].
    - destruct (utf8_decode a) as [s|] eqn:Ed; [|done]. intros [= <- <-]. split; [done|].
      rewrite (utf8_encode_decode _ _ Ed), Hle, Hla. eexists. split; [done|]. by rewrite app_assoc.
    - intros [= <- <-]. rewrite orb_false_r in Eb. split; [done|]. rewrite Hle, Hla. eexists.
      split; [done|]. by rewrite app_assoc. }
  destruct (Z.eqb_spec code UUID) as [->|]; [|done].
  destruct (short_of data 16) eqn:E6; [done|]. intros [= <- <-]. apply short_of_false in E6.
  destruct (split_at_nat data 16 E6) as (a & b & -> & Ha).
  rewrite (take_app_length' a b 16), (drop_app_length' a b 16) by done.
  split; [|by exists a]. cbn. unfold zlen. by rewrite Ha.
Qed.

(** A length-prefixed array in front of more data. *)
Lemma array_prefix raw rest : zlen raw <= 65535 ->
  let data := (be_bytes 2 (zlen raw) ++ raw) ++ rest in
  short_of data 2 = false /\ be_value (take 2 data) = zlen raw /\ drop 2 data = raw ++ rest /\
  short_of (raw ++ rest) (zlen raw) = false /\ take_z (zlen raw) (raw ++ rest) = raw /\
  drop_z (zlen raw) (raw ++ rest) = rest.
Proof.
  intros Hle data. pose proof (zlen_nonneg raw). pose proof (zlen_nonneg rest). subst data. rewrite <- app_assoc.
  pose proof (be_bytes_length 2 (zlen raw)) as Hl.
  rewrite (take_app_length' _ _ 2), (drop_app_length' _ _ 2) by done.
  rewrite take_app_z, drop_app_z, be_value_bytes, Z.mod_small by (cbn; lia).
  rewrite !short_of_false, !zlen_app. unfold zlen at 1. rewrite Hl. split_and!; done || lia.
Qed.

(** The two array types. *)
Lemma serialize_bytes raw : serialize_value BYTE_ARRAY (VBytes raw) =
  if 65535 <? zlen raw then Raise StructError else Ok (be_bytes 2 (zlen raw) ++ raw).
Proof. done. Qed.

Lemma serialize_str s : serialize_value STRING (VStr s) =
  match utf8_encode s with
  | Some raw => if 65535 <? zlen raw then Raise StructError else Ok (be_bytes 2 (zlen raw) ++ raw)
  | None => Raise UnicodeEncodeError
  end.
Proof. unfold serialize_value. cbn. by destruct (utf8_encode s). Qed.

Lemma parse_bytes data : parse_value BYTE_ARRAY data =
  if short_of data 2 then err "truncated header value length"
  else if short_of (drop 2 data) (be_value (take 2 data)) then err "truncated header value"
  else Ok (VBytes (take_z (be_value (take 2 data)) (drop 2 data)), drop_z (be_value (take 2 data)) (drop 2 data)).
Proof. done. Qed.

Lemma parse_str data : parse_value STRING data =
  if short_of data 2 then err "truncated header value length"
  else if short_of (drop 2 data) (be_value (take 2 data)) then err "truncated header value"
  else match utf8_decode (take_z (be_value (take 2 data)) (drop 2 data)) with
       | Some s => Ok (VStr s, drop_z (be_value (take 2 data)) (drop 2 data))
       | None => Raise UnicodeDecodeError
       end.
Proof. done. Qed.

Lemma parse_uuid data : parse_value UUID data =
  if short_of data 16 then err "truncated header value" else Ok (VUuid (take 16 data), drop 16 data).
Proof. done. Qed.

Lemma parse_int_serialize code size n vb rest : INT_FORMATS code = Some size ->
  serialize_value code (VInt n) = Ok vb -> parse_value code (vb ++ rest) = Ok (VInt n, rest).
Proof.
  intros Ei. destruct (INT_FORMATS_other _ _ Ei) as [E1 E2]. unfold serialize_value, parse_value.
  rewrite E1, E2, Ei. cbn [as_int orb]. destruct (_ && _) eqn:E; [|done]. intros [= <-].
  apply andb_true_iff in E as [E3%Z.leb_le E4%Z.ltb_lt].
  pose proof (be_bytes_length size n) as Hl. pose proof (zlen_nonneg rest).
  replace (short_of (be_bytes size n ++ rest) (Z.of_nat size)) with false
    by (symmetry; apply short_of_false; rewrite zlen_app; unfold zlen in *; lia).
  rewrite (take_app_length' _ _ _ (eq_sym Hl)), (drop_app_length' _ _ _ (eq_sym Hl)).
  rewrite be_signed_bytes; [done|by eapply INT_FORMATS_pos|lia].
Qed.

Lemma parse_value_serialize code v vb rest : value_typed code v = true -> serialize_value code v = Ok vb ->
  parse_value code (vb ++ rest) = Ok (v, rest).
Proof.
  intros Ht Hs. destruct v as [[]|n|raw|s|s]; cbn in Ht.
  - apply Z.eqb_eq in Ht as ->. by injection Hs as <-.
  - apply Z.eqb_eq in Ht as ->. by injection Hs as <-.
  - destruct (INT_FORMATS code) eqn:Ei; [|done]. by eapply parse_int_serialize.
  - apply Z.eqb_eq in Ht as ->. rewrite serialize_bytes in Hs. rewrite parse_bytes.
    destruct (Z.ltb_spec 65535 (zlen raw)); [done|]. apply Ok_inj in Hs as <-.
    destruct (array_prefix raw rest) as (E1 & E2 & E3 & E4 & E5 & E6); [done|].
    by rewrite E1, E2, E3, E4, E5, E6.
  - apply Z.eqb_eq in Ht as ->. rewrite serialize_str in Hs. rewrite parse_str.
    destruct (utf8_encode s) as [raw|] eqn:Es; [|done].
    destruct (Z.ltb_spec 65535 (zlen raw)); [done|]. apply Ok_inj in Hs as <-.
    destruct (array_prefix raw rest) as (E1 & E2 & E3 & E4 & E5 & E6); [done|].
    by rewrite E1, E2, E3, E4, E5, E6, (utf8_decode_encode _ _ Es).
  - apply andb_true_iff in Ht as [->%Z.eqb_eq Hl%Z.eqb_eq]. apply Ok_inj in Hs as <-. rewrite parse_uuid.
    replace (short_of (s ++ rest) 16) with false
      by (symmetry; apply short_of_false; rewrite zlen_app; pose proof (zlen_nonneg rest); lia).
    unfold zlen in Hl. rewrite (take_app_length' s rest 16), (drop_app_length' s rest 16) by lia. done.
Qed.

#[global] Arguments parse_value : simpl never.
#[global] Arguments serialize_value : simpl never.

Lemma parse_headers_inv fuel : forall data hs, is_bytes data -> (length data <= fuel)%nat ->
  parse_headers_go fuel data = Ok hs -> serialize_headers hs = Ok data /\ forallb header_typed hs = true.
Proof.
  induction fuel as [|fuel IH]; intros [|name_len data] hs Hb Hf H; [|cbn in Hf; lia| |];
    cbn [parse_headers_go] in H; [by injection H as <-..|].
  apply Forall_cons_1 in Hb as [Hn Hb]. cbn in Hf.
  destruct (short_of data (name_len + 1)) eqn:Es; [done|]. apply short_of_false in Es.
  destruct (split_at data name_len) as (nb & d & -> & Hnb); [lia|]. rewrite <- Hnb, take_app_z, drop_app_z in H.
  destruct (utf8_decode nb) as [name|] eqn:Ed; [|done]. destruct d as [|code d]; [done|].
  apply is_bytes_app in Hb as [_ Hb]. apply Forall_cons_1 in Hb as [Hc Hb].
  destruct (parse_value code d) as [[v rest]|] eqn:Ev; [|done].
  destruct (parse_value_inv _ _ _ _ Hb Ev) as (Ht & vb & Hs & ->).
  destruct (parse_headers_go fuel rest) as [hs'|] eqn:Er; [|done]. injection H as <-.
  apply is_bytes_app in Hb as [_ Hb]. rewrite !length_app in Hf. cbn in Hf. rewrite length_app in Hf.
  destruct (IH rest hs') as [Hsh Hth]; [done|lia|done|]. cbn [serialize_headers forallb header_typed h_code h_value].
  rewrite (utf8_encode_decode _ _ Ed), Hs, Hsh, Hth.
  rewrite (proj2 (Z.ltb_ge _ _)) by lia. rewrite (proj2 (between_spec _ _ _)) by lia. cbn [negb].
  split; [by rewrite Hnb|]. unfold header_typed. cbn [h_code h_value]. by rewrite Ht.
Qed.

Lemma parse_headers_serialize hs : forall fuel data, forallb header_typed hs = true ->
  serialize_headers hs = Ok data -> (length data <= fuel)%nat -> parse_headers_go fuel data = Ok hs.
Proof.
  induction hs as [|[name code v] hs IH]; intros fuel data Ht Hs Hf; cbn in Hs.
  { injection Hs as <-. by destruct fuel. }
  cbn [forallb] in Ht. apply andb_true_iff in Ht as [Ht Hts]. unfold header_typed in Ht. cbn [h_code h_value] in Ht.
  destruct (utf8_encode name) as [nb|] eqn:En; [|done]. destruct (255 <? zlen nb); [done|].
  destruct (between 0 255 code); [|done]. cbn [negb] in Hs.
  destruct (serialize_value code v) as [vb|] eqn:Ev; [|done].
  destruct (serialize_headers hs) as [rest|] eqn:Er; [|done]. apply Ok_inj in Hs as <-.
  destruct fuel as [|fuel]; [cbn in Hf; lia|]. cbn [parse_headers_go].
  rewrite length_cons, !length_app in Hf. cbn in Hf. rewrite length_app in Hf.
  replace (short_of (nb ++ code :: vb ++ rest) (zlen nb + 1)) with false.
  2: { symmetry. apply short_of_false. rewrite zlen_app, zlen_cons. pose proof (zlen_nonneg (vb ++ rest)). lia. }
  rewrite take_app_z, drop_app_z, (utf8_decode_encode _ _ En), (parse_value_serialize _ _ vb rest Ht Ev).
  by rewrite (IH fuel rest) by (done || lia).
Qed.


(** ** Frames *)
Section Frames.
Context (max_frame_bytes : Z).
Local Abbreviation next_frame := (EventStreamParser.next_frame max_frame_bytes).
Local Abbreviation feed_go := (EventStreamParser.feed_go max_frame_bytes).
Local Abbreviation feed := (EventStreamParser.feed max_frame_bytes).

Lemma be4 n : zlen (be_bytes 4 n) = 4.
Proof. unfold zlen. by rewrite be_bytes_length. Qed.

Lemma be4_value n : 0 <= n < 2 ^ 32 -> be_value (be_bytes 4 n) = n.
Proof. intros H. rewrite be_value_bytes. by apply Z.mod_small. Qed.

Lemma be4_of s : is_bytes s -> length s = 4%nat -> be_bytes 4 (be_value s) = s.
Proof. intros H <-. by apply be_bytes_value. Qed.

Lemma be4_range s : is_bytes s -> length s = 4%nat -> 0 <= be_value s < 2 ^ 32.
Proof. intros H Hl. pose proof (be_value_range s H) as Hr. unfold zlen in Hr. by rewrite Hl in Hr. Qed.

(** A buffer long enough for a prelude, cut into its three words and the rest. *)
Lemma prelude_cut (buf : pybytes) : 12 <= zlen buf -> exists w1 w2 w3 r,
  buf = w1 ++ w2 ++ w3 ++ r /\ length w1 = 4%nat /\ length w2 = 4%nat /\ length w3 = 4%nat.
Proof.
  intros H. destruct (split_at_nat buf 4) as (w1 & r1 & -> & H1); [lia|]. rewrite zlen_app in H. unfold zlen in H at 1.
  destruct (split_at_nat r1 4) as (w2 & r2 & -> & H2); [lia|]. rewrite zlen_app in H. unfold zlen in H at 1.
  destruct (split_at_nat r2 4) as (w3 & r3 & -> & H3); [lia|]. by exists w1, w2, w3, r3.
Qed.

(** [next_frame] once the prelude's words are known. *)
Lemma next_frame_words w1 w2 w3 r : 0 <= be_value w2 -> length w1 = 4%nat -> length w2 = 4%nat -> length w3 = 4%nat ->
  next_frame (w1 ++ w2 ++ w3 ++ r) =
  let total := be_value w1 in let headers_len := be_value w2 in
  if (total <? 16) || (max_frame_bytes <? total) || (total - 16 <? headers_len)
  then err "implausible frame lengths"
  else if negb (crc32 (w1 ++ w2) =? be_value w3) then err "prelude CRC mismatch"
  else if short_of r (total - 12) then Ok None
  else
    let body := take_z (total - 16) r in
    if negb (crc32 (w1 ++ w2 ++ w3 ++ body) =? be_value (take_z 4 (drop_z (total - 16) r)))
    then err "message CRC mismatch"
    else
      match parse_headers (take_z headers_len body) with
      | Raise e => Raise e
      | Ok hs => Ok (Some (mk_message hs (drop_z headers_len body), drop_z (total - 12) r))
      end.
Proof.
  intros H0 H1 H2 H3. unfold EventStreamParser.next_frame. cbv zeta.
  replace (short_of (w1 ++ w2 ++ w3 ++ r) 12) with false.
  2: { symmetry. apply short_of_false. rewrite !zlen_app. pose proof (zlen_nonneg r). unfold zlen in *. lia. }
  rewrite (take_app_length' w1 _ 4), (drop_app_length' w1 _ 4), (take_app_length' w2 _ 4) by done.
  replace (drop 8 (w1 ++ w2 ++ w3 ++ r)) with (w3 ++ r).
  2: { rewrite app_assoc, drop_app_length' by (rewrite length_app; lia). done. }
  replace (take 8 (w1 ++ w2 ++ w3 ++ r)) with (w1 ++ w2).
  2: { rewrite app_assoc, take_app_length' by (rewrite length_app; lia). done. }
  rewrite (take_app_length' w3 _ 4) by done.
  destruct (_ || _) eqn:Eb; [done|]. apply orb_false_iff in Eb as [[E1%Z.ltb_ge _]%orb_false_iff E2%Z.ltb_ge].
  destruct (negb _); [done|].
  assert (zlen (w1 ++ w2 ++ w3) = 12) as H12 by (rewrite !zlen_app; unfold zlen; lia).
  replace (short_of (w1 ++ w2 ++ w3 ++ r) (be_value w1)) with (short_of r (be_value w1 - 12)).
  2: { unfold short_of. rewrite !zlen_app in *. apply Bool.eq_iff_eq_true. rewrite !Z.ltb_lt. lia. }
  destruct (short_of r (be_value w1 - 12)) eqn:Es; [done|]. apply short_of_false in Es.
  set (T := be_value w1) in *. set (H := be_value w2) in *.
  destruct (split_at r (T - 16)) as (body & r1 & -> & Hbody); [lia|].
  rewrite zlen_app in Es. destruct (split_at r1 4) as (crc & rest & -> & Hcrc); [lia|].
  set (W := w1 ++ w2 ++ w3) in *.
  assert (forall x, w1 ++ w2 ++ w3 ++ x = W ++ x) as HW by (intros; unfold W; by rewrite <- !app_assoc).
  rewrite !HW. assert (T = zlen (W ++ body ++ crc)) as HT by (rewrite !zlen_app; lia).
  assert (W ++ body ++ crc ++ rest = (W ++ body ++ crc) ++ rest) as -> by (by rewrite <- !app_assoc).
  assert (take_z T ((W ++ body ++ crc) ++ rest) = W ++ body ++ crc) as -> by (rewrite HT; apply take_app_z).
  assert (drop_z T ((W ++ body ++ crc) ++ rest) = rest) as -> by (rewrite HT; apply drop_app_z).
  assert (T - 4 = zlen (W ++ body)) as HT4 by (rewrite !zlen_app in *; lia).
  assert (take_z (T - 4) (W ++ body ++ crc) = W ++ body) as -> by (rewrite HT4, app_assoc; apply take_app_z).
  assert (drop_z (T - 4) (W ++ body ++ crc) = crc) as -> by (rewrite HT4, app_assoc; apply drop_app_z).
  assert (take_z (T - 16) (body ++ crc ++ rest) = body) as -> by (rewrite <- Hbody; apply take_app_z).
  assert (drop_z (T - 16) (body ++ crc ++ rest) = crc ++ rest) as -> by (rewrite <- Hbody; apply drop_app_z).
  assert (drop_z (T - 12) (body ++ crc ++ rest) = rest) as ->.
  { replace (T - 12) with (zlen (body ++ crc)) by (rewrite zlen_app; lia). rewrite app_assoc. apply drop_app_z. }
  rewrite <- Hcrc, take_app_z.
  assert (drop 12 (W ++ body ++ crc) = body ++ crc) as -> by (apply drop_app_length'; unfold zlen in H12; lia).
  assert (take_z H (body ++ crc) = take_z H body) as -> by (apply take_app_le; unfold zlen in *; lia).
  assert (drop_z (12 + H) (W ++ body) = drop_z H body) as ->; [|done].
  unfold drop_z. rewrite drop_app_ge by (unfold zlen in *; lia). f_equal. unfold zlen in *. lia.
Qed.

Lemma take_z_app n s t : n <= zlen s -> take_z n (s ++ t) = take_z n s.
Proof. intros H. apply take_app_le. unfold zlen in H. lia. Qed.

Lemma drop_z_app n s t : n <= zlen s -> drop_z n (s ++ t) = drop_z n s ++ t.
Proof. intros H. apply drop_app_le. unfold zlen in H. lia. Qed.

Lemma short_buffer buf : short_of buf 12 = true -> next_frame buf = Ok None.
Proof. unfold EventStreamParser.next_frame. by intros ->. Qed.

(** Either the buffer is too short, or it starts with a prelude. *)
Lemma buffer_cases buf : is_bytes buf -> next_frame buf = Ok None \/ exists w1 w2 w3 r,
  buf = w1 ++ w2 ++ w3 ++ r /\ length w1 = 4%nat /\ length w2 = 4%nat /\ length w3 = 4%nat /\
  is_bytes w1 /\ is_bytes w2 /\ is_bytes w3 /\ is_bytes r /\ 0 <= be_value w2.
Proof.
  intros Hb. destruct (short_of buf 12) eqn:Es; [left; by apply short_buffer|].
  right. apply short_of_false in Es. destruct (prelude_cut buf Es) as (w1 & w2 & w3 & r & -> & H1 & H2 & H3).
  rewrite !is_bytes_app in Hb. destruct Hb as (Hb1 & Hb2 & Hb3 & Hr).
  pose proof (be4_range w2 Hb2 H2). exists w1, w2, w3, r. split_and!; done || lia.
Qed.

(** More bytes change nothing that was decided. *)
Lemma next_frame_app buf t : is_bytes buf ->
  (forall m rest, next_frame buf = Ok (Some (m, rest)) -> next_frame (buf ++ t) = Ok (Some (m, rest ++ t))) /\
  (forall e, next_frame buf = Raise e -> next_frame (buf ++ t) = Raise e).
Proof.
  intros Hb. destruct (buffer_cases buf Hb) as [->|(w1 & w2 & w3 & r & -> & H1 & H2 & H3 & _ & _ & _ & _ & H0)]; [done|].
  rewrite <- !app_assoc, !next_frame_words by done. cbv zeta.
  destruct (_ || _) eqn:Eb; [done|]. apply orb_false_iff in Eb as [[E1%Z.ltb_ge _]%orb_false_iff E2%Z.ltb_ge].
  destruct (negb _); [done|]. destruct (short_of r _) eqn:Es; [done|]. apply short_of_false in Es.
  replace (short_of (r ++ t) (be_value w1 - 12)) with false
    by (symmetry; apply short_of_false; rewrite zlen_app; pose proof (zlen_nonneg t); lia).
  rewrite (take_z_app (be_value w1 - 16)), !drop_z_app, (take_z_app 4) by
    (try lia; unfold drop_z, zlen in *; rewrite length_drop; lia).
  destruct (negb _); [done|]. destruct (parse_headers _); [|done]. split; [|done]. by intros m rest [= <- <-].
Qed.

(** A frame that parsed is what its message serializes to. *)
Lemma next_frame_inv buf m rest : is_bytes buf -> next_frame buf = Ok (Some (m, rest)) ->
  exists f, serialize m = Ok f /\ buf = f ++ rest /\ (16 <= length f)%nat.
Proof.
  intros Hb. destruct (buffer_cases buf Hb)
    as [->|(w1 & w2 & w3 & r & -> & H1 & H2 & H3 & Hb1 & Hb2 & Hb3 & Hbr & H0)]; [done|].
  rewrite next_frame_words by done. cbv zeta.
  destruct (_ || _) eqn:Eb; [done|]. apply orb_false_iff in Eb as [[E1%Z.ltb_ge _]%orb_false_iff E2%Z.ltb_ge].
  destruct (crc32 (w1 ++ w2) =? be_value w3) eqn:Ec1; [|done]. apply Z.eqb_eq in Ec1. cbn [negb].
  destruct (short_of r _) eqn:Es; [done|]. apply short_of_false in Es.
  destruct (split_at r (be_value w1 - 16)) as (body & r1 & -> & Hbody); [lia|].
  rewrite zlen_app in Es. destruct (split_at r1 4) as (crc & r2 & -> & Hcrc); [lia|].
  rewrite <- Hbody, take_app_z, drop_app_z. rewrite <- Hcrc, take_app_z.
  destruct (crc32 (w1 ++ w2 ++ w3 ++ body) =? be_value crc) eqn:Ec2; [|done]. apply Z.eqb_eq in Ec2. cbn [negb].
  rewrite !is_bytes_app in Hbr. destruct Hbr as (Hbb & Hbc & _).
  assert (drop_z (be_value w1 - 12) (body ++ crc ++ r2) = r2) as ->.
  { replace (be_value w1 - 12) with (zlen (body ++ crc)) by (rewrite zlen_app; lia).
    rewrite app_assoc. apply drop_app_z. }
  destruct (split_at body (be_value w2)) as (hs & pl & -> & Hhs); [lia|].
  rewrite <- Hhs, take_app_z, drop_app_z. rewrite is_bytes_app in Hbb. destruct Hbb as [Hbh _].
  destruct (parse_headers hs) as [h|] eqn:Eh; [|done]. intros [= <- <-].
  apply parse_headers_inv in Eh as [Eh _]; [|done..]. rewrite zlen_app in Hbody.
  pose proof (be4_range w1 Hb1 H1) as Hr1.
  assert (length crc = 4%nat) as H4 by (unfold zlen in Hcrc; lia).
  exists (w1 ++ w2 ++ w3 ++ hs ++ pl ++ crc). split_and!.
  - unfold serialize. cbn [headers payload]. rewrite Eh. rewrite (proj2 (Z.leb_gt _ _)) by lia. f_equal.
    unfold frame. cbv zeta. replace (16 + zlen hs + zlen pl) with (be_value w1) by lia. rewrite Hhs.
    rewrite (be4_of w1), (be4_of w2), Ec1, (be4_of w3) by done. rewrite <- !app_assoc.
    rewrite Ec2, (be4_of crc) by done. done.
  - by rewrite <- !app_assoc.
  - rewrite !length_app. lia.
Qed.

(** A frame in front of more bytes is taken whole. *)
Lemma next_frame_frame hs pl rest : is_bytes hs -> is_bytes pl ->
  16 + zlen hs + zlen pl < 2 ^ 32 -> 16 + zlen hs + zlen pl <= max_frame_bytes ->
  next_frame (frame hs pl ++ rest) =
  match parse_headers hs with
  | Raise e => Raise e
  | Ok h => Ok (Some (mk_message h pl, rest))
  end.
Proof.
  intros Hh Hp Hlt Hmax. pose proof (zlen_nonneg hs). pose proof (zlen_nonneg pl). unfold frame. cbv zeta.
  set (w1 := be_bytes 4 (16 + zlen hs + zlen pl)). set (w2 := be_bytes 4 (zlen hs)).
  set (w3 := be_bytes 4 (crc32 (w1 ++ w2))).
  assert (is_bytes (w1 ++ w2)) as Hw by (apply is_bytes_app; split; apply is_bytes_be).
  set (body := (w1 ++ w2) ++ w3 ++ hs ++ pl).
  assert (is_bytes body) as Hb.
  { unfold body. rewrite (is_bytes_app (w1 ++ w2)), !(is_bytes_app w3), (is_bytes_app hs). split_and!; try done. apply is_bytes_be. }
  set (crc := be_bytes 4 (crc32 body)).
  assert ((body ++ crc) ++ rest = w1 ++ w2 ++ w3 ++ ((hs ++ pl) ++ crc ++ rest)) as ->
    by (unfold body; by rewrite <- !app_assoc).
  assert (be_value w1 = 16 + zlen hs + zlen pl) as H1 by (apply be4_value; lia).
  assert (be_value w2 = zlen hs) as H2 by (apply be4_value; lia).
  assert (be_value w3 = crc32 (w1 ++ w2)) as H3 by (apply be4_value; by apply crc32_range).
  assert (be_value crc = crc32 body) as H4 by (apply be4_value; by apply crc32_range).
  rewrite next_frame_words by (rewrite ?H2; done || apply be_bytes_length). cbv zeta. rewrite H1, H2.
  rewrite (proj2 (Z.ltb_ge _ 16)), (proj2 (Z.ltb_ge _ (16 + zlen hs + zlen pl))), (proj2 (Z.ltb_ge _ (zlen hs))) by lia.
  cbn [orb]. rewrite H3. rewrite Z.eqb_refl. cbn [negb].
  assert (zlen (hs ++ pl) = 16 + zlen hs + zlen pl - 16) as Hz by (rewrite zlen_app; lia).
  assert (zlen crc = 4) as Hc by apply be4.
  replace (short_of _ _) with false.
  2: { symmetry. apply short_of_false. rewrite !zlen_app. pose proof (zlen_nonneg rest). lia. }
  rewrite <- Hz, take_app_z, drop_app_z. rewrite <- Hc, take_app_z.
  replace (w1 ++ w2 ++ w3 ++ hs ++ pl) with body by (unfold body; by rewrite <- !app_assoc).
  rewrite H4. rewrite Z.eqb_refl. cbn [negb].
  rewrite take_app_z, drop_app_z. destruct (parse_headers hs); [|done].
  replace (16 + zlen hs + zlen pl - 12) with (zlen ((hs ++ pl) ++ crc)) by (rewrite zlen_app; lia).
  by rewrite (app_assoc (hs ++ pl)), drop_app_z.
Qed.

(** ** Feeding chunks *)

(** The loop's result once there is fuel enough for every frame. *)
Definition parse_all (buf : pybytes) : result es_error (list EventStreamMessage * pybytes) := feed_go (length buf) buf.

Lemma feed_go_fuel fuel : forall buf, is_bytes buf -> (length buf <= fuel)%nat -> feed_go fuel buf = parse_all buf.
Proof.
  induction fuel as [fuel IH] using lt_wf_ind. intros buf Hb Hf. unfold parse_all.
  destruct buf as [|x buf]; [destruct fuel; [done|by cbn]|]. destruct fuel as [|fuel]; [cbn in Hf; lia|].
  cbn [length EventStreamParser.feed_go]. destruct (next_frame (x :: buf)) as [[[m rest]|]|] eqn:E; [|done..].
  destruct (next_frame_inv _ _ _ Hb E) as (f & _ & Heq & Hl). rewrite Heq in Hb. apply is_bytes_app in Hb as [_ Hr].
  assert (length rest < length (x :: buf))%nat as Hlt by (rewrite Heq, length_app; lia). cbn in Hf, Hlt.
  rewrite (IH fuel) by (done || lia). destruct (Nat.eq_dec (length buf) fuel) as [->|Hne].
  - rewrite (IH fuel) by (done || lia). done.
  - rewrite (IH (length buf)) by (done || lia). done.
Qed.

Lemma parse_all_eq buf : is_bytes buf -> parse_all buf =
  match next_frame buf with
  | Raise e => Raise e
  | Ok None => Ok ([], buf)
  | Ok (Some (m, rest)) =>
      match parse_all rest with Raise e => Raise e | Ok (ms, rem) => Ok (m :: ms, rem) end
  end.
Proof.
  intros Hb. unfold parse_all at 1. destruct buf as [|x buf]; [done|]. cbn [length EventStreamParser.feed_go].
  destruct (next_frame (x :: buf)) as [[[m rest]|]|] eqn:E; [|done..].
  destruct (next_frame_inv _ _ _ Hb E) as (f & _ & Heq & Hl).
  assert (length rest < length (x :: buf))%nat as Hlt by (rewrite Heq, length_app; lia). cbn in Hlt.
  rewrite Heq in Hb. apply is_bytes_app in Hb as [_ Hr]. by rewrite feed_go_fuel by (done || lia).
Qed.

(** Induction over the frames of a buffer. *)
Lemma frames_ind (P : pybytes -> Prop) :
  (forall buf, is_bytes buf ->
    (forall m rest, next_frame buf = Ok (Some (m, rest)) -> is_bytes rest -> P rest) -> P buf) ->
  forall buf, is_bytes buf -> P buf.
Proof.
  intros HP. enough (forall n buf, (length buf < n)%nat -> is_bytes buf -> P buf) as H by (intros; eapply H; eauto).
  induction n as [|n IH]; intros buf Hl Hb; [lia|]. apply HP; [done|]. intros m rest E Hr.
  destruct (next_frame_inv _ _ _ Hb E) as (f & _ & -> & Hf). rewrite length_app in Hl. apply IH; [lia|done].
Qed.

(** What was parsed, and what is left, is the buffer; what is rem holds no frame. *)
Lemma parse_all_inv buf : is_bytes buf -> forall ms rem, parse_all buf = Ok (ms, rem) ->
  (exists fs, Forall2 (fun m f => serialize m = Ok f) ms fs /\ buf = concat fs ++ rem) /\
  parse_all rem = Ok ([], rem) /\ is_bytes rem.
Proof.
  revert buf. refine (frames_ind _ _). intros buf Hb IH ms rem.
  rewrite parse_all_eq by done. destruct (next_frame buf) as [[[m rest]|]|] eqn:E; [| |done].
  - destruct (next_frame_inv _ _ _ Hb E) as (f & Hf & Heq & _). pose proof Hb as Hb'. rewrite Heq in Hb'.
    apply is_bytes_app in Hb' as [_ Hr].
    destruct (parse_all rest) as [[ms' rem']|] eqn:Er; [|done]. intros [= <- <-].
    destruct (IH _ _ eq_refl Hr _ _ Er) as ((fs & Hfs & Hrest) & Hleft & Hbl). split_and!; [|done..].
    exists (f :: fs). split; [by constructor|]. cbn. by rewrite Heq, Hrest, <- app_assoc.
  - intros [= <- <-]. split_and!; [by exists []|by rewrite parse_all_eq, E|done].
Qed.

Lemma parse_all_app buf : is_bytes buf -> forall t, is_bytes t -> parse_all (buf ++ t) =
  match parse_all buf with
  | Raise e => Raise e
  | Ok (ms, rem) =>
      match parse_all (rem ++ t) with Raise e => Raise e | Ok (ms', rem') => Ok (ms ++ ms', rem') end
  end.
Proof.
  revert buf. refine (frames_ind _ _). intros buf Hb IH t Ht.
  assert (is_bytes (buf ++ t)) as Hbt by (by apply is_bytes_app).
  destruct (next_frame_app buf t Hb) as [Hok Hraise]. rewrite (parse_all_eq buf) by done.
  destruct (next_frame buf) as [[[m rest]|]|e] eqn:E.
  - rewrite parse_all_eq, (Hok _ _ eq_refl) by done.
    destruct (next_frame_inv _ _ _ Hb E) as (f & _ & Heq & _). rewrite Heq in Hb. apply is_bytes_app in Hb as [_ Hr].
    rewrite (IH m rest eq_refl Hr t Ht). destruct (parse_all rest) as [[ms rem]|]; [|done].
    by destruct (parse_all (rem ++ t)) as [[]|].
  - by destruct (parse_all (buf ++ t)) as [[]|].
  - by rewrite parse_all_eq, (Hraise _ eq_refl).
Qed.

(** The parser fed chunk after chunk until it raises: the messages handed out, what it
    raised, its [residual] and the chunks it was not fed. *)
Fixpoint feed_all (buffer : pybytes) (chunks : list pybytes)
    : list EventStreamMessage * option es_error * pybytes * list pybytes :=
  match chunks with
  | [] => ([], None, EventStreamParser.residual buffer, [])
  | chunk :: chunks =>
      match feed buffer chunk with
      | (Ok ms, buffer) => let '(more, e, residual, unfed) := feed_all buffer chunks in (ms ++ more, e, residual, unfed)
      | (Raise e, buffer) => ([], Some e, EventStreamParser.residual buffer, chunks)
      end
  end.

Lemma feed_parse_all buffer chunk : feed buffer chunk =
  match parse_all (buffer ++ chunk) with
  | Ok (ms, rest) => (Ok ms, rest)
  | Raise e => (Raise e, buffer ++ chunk)
  end.
Proof. done. Qed.

Lemma feed_all_whole chunks : Forall is_bytes chunks -> forall buffer ms rem, is_bytes buffer ->
  parse_all buffer = Ok ([], buffer) -> parse_all (buffer ++ concat chunks) = Ok (ms, rem) ->
  feed_all buffer chunks = (ms, None, rem, []).
Proof.
  induction 1 as [|c chunks Hc Hcs IH]; intros buffer ms rem Hb Hst Hp; cbn [feed_all concat] in *.
  { rewrite app_nil_r, Hst in Hp. by injection Hp as <- <-. }
  rewrite feed_parse_all. rewrite app_assoc in Hp.
  assert (is_bytes (buffer ++ c)) as Hbc by (by apply is_bytes_app).
  rewrite parse_all_app in Hp by (done || by apply Forall_concat).
  destruct (parse_all (buffer ++ c)) as [[ms1 rem1]|] eqn:E1; [|done].
  destruct (parse_all_inv _ Hbc _ _ E1) as (_ & Hst1 & Hb1).
  destruct (parse_all (rem1 ++ concat chunks)) as [[ms2 rem2]|] eqn:E2; [|done]. injection Hp as <- <-.
  by rewrite (IH rem1 ms2 rem2).
Qed.

Lemma feed_all_bytes chunks : Forall is_bytes chunks -> forall buffer, is_bytes buffer ->
  let '(ms, _, residual, unfed) := feed_all buffer chunks in
  exists fs, Forall2 (fun m f => serialize m = Ok f) ms fs /\
    concat fs ++ residual ++ concat unfed = buffer ++ concat chunks.
Proof.
  induction 1 as [|c chunks Hc Hcs IH]; intros buffer Hb; cbn [feed_all concat]; [by exists []|].
  rewrite feed_parse_all. assert (is_bytes (buffer ++ c)) as Hbc by (by apply is_bytes_app).
  destruct (parse_all (buffer ++ c)) as [[ms rem]|] eqn:E; [|exists []; split; [done|]; cbn; by rewrite app_assoc].
  destruct (parse_all_inv _ Hbc _ _ E) as ((fs & Hfs & Heq) & _ & Hbl). specialize (IH rem Hbl).
  destruct (feed_all rem chunks) as [[[more e] residual] unfed]. destruct IH as (fs' & Hfs' & Heq').
  exists (fs ++ fs'). split; [by apply Forall2_app|]. by rewrite concat_app, <- app_assoc, Heq', (app_assoc buffer), Heq, <- app_assoc.
Qed.
End Frames.

(** The parser loses nothing: whatever bytes arrive, in whatever chunks, the messages
    handed out serialize to exactly the bytes they were parsed from, and those bytes, the
    residual and the chunks not fed after an exception are the stream, in order. *)
Theorem eventstream_lossless max_frame_bytes chunks : Forall is_bytes chunks ->
  let '(ms, _, residual, unfed) := feed_all max_frame_bytes [] chunks in
  exists fs, Forall2 (fun m f => serialize m = Ok f) ms fs /\
    concat fs ++ residual ++ concat unfed = concat chunks.
Proof. intros Hc. exact (feed_all_bytes max_frame_bytes chunks Hc [] (List.Forall_nil _)). Qed.

(** A message whose values have the types their codes say, and hold bytes. *)
Definition message_ok (m : EventStreamMessage) : bool :=
  forallb header_typed (headers m) &&
  forallb (fun h => match h_value h with VBytes s | VUuid s => forallb (between 0 255) s | _ => true end) (headers m) &&
  forallb (between 0 255) (payload m).

Lemma is_bytes_forallb s : forallb (between 0 255) s = true -> is_bytes s.
Proof.
  intros H. apply List.Forall_forall. intros x Hx. rewrite forallb_forall in H.
  apply H, between_spec in Hx. lia.
Qed.

Lemma chunks_forallb chunks : forallb (forallb (between 0 255)) chunks = true -> Forall is_bytes chunks.
Proof. intros H. apply List.Forall_forall. intros s Hs. rewrite forallb_forall in H. by apply is_bytes_forallb, H. Qed.

(** A frame in two chunks, then bytes that are none. *)
Lemma eventstream_lossless_witness :
  let f := frame [] [123; 125] in
  let chunks := [take 5 f; drop 5 f; replicate 16 7; [1; 2]] in
  match feed_all 1000 [] chunks with
  | (ms, e, residual, unfed) =>
      length ms = 1%nat /\ e <> None /\ length residual = 16%nat /\ unfed = [[1; 2]] /\
      exists fs, Forall2 (fun m f => serialize m = Ok f) ms fs /\ concat fs ++ residual ++ concat unfed = concat chunks
  end.
Proof.
  cbv zeta. set (chunks := [take 5 _; _; _; _]). assert (Hb : Forall is_bytes chunks) by (apply chunks_forallb; vm_compute; reflexivity).
  assert (H := eventstream_lossless 1000 chunks Hb).
  assert (Hn : match feed_all 1000 [] chunks with
               | (ms, e, residual, unfed) => length ms = 1%nat /\ e <> None /\ length residual = 16%nat /\ unfed = [[1; 2]]
               end) by (vm_compute; split_and!; congruence).
  destruct (feed_all 1000 [] chunks) as [[[ms e] residual] unfed]. destruct Hn as (? & ? & ? & ?). by split_and!.
Defined.

Lemma serialize_value_bytes code v vb : serialize_value code v = Ok vb ->
  match v with VBytes s | VUuid s => forallb (between 0 255) s = true | _ => True end -> is_bytes vb.
Proof.
  unfold serialize_value. intros H Hv. destruct (_ || _); [injection H as <-; constructor|].
  destruct (INT_FORMATS code).
  { destruct (as_int v); [|done]. destruct (_ && _); [|done]. injection H as <-. apply is_bytes_be. }
  destruct (_ || _).
  - destruct v as [|n|s|s|s]; [done|done| | |done].
    + destruct (65535 <? zlen s); [done|]. apply Ok_inj in H as <-.
      apply is_bytes_app. split; [apply is_bytes_be|by apply is_bytes_forallb].
    + destruct (utf8_encode s) as [raw|] eqn:E; [|done]. destruct (65535 <? zlen raw); [done|].
      apply Ok_inj in H as <-. apply is_bytes_app. split; [apply is_bytes_be|by eapply utf8_encode_bytes].
  - destruct (code =? UUID); [|done]. destruct v; try done. injection H as <-. by apply is_bytes_forallb.
Qed.

Lemma serialize_headers_bytes hs data : serialize_headers hs = Ok data ->
  forallb (fun h => match h_value h with VBytes s | VUuid s => forallb (between 0 255) s | _ => true end) hs = true ->
  is_bytes data.
Proof.
  revert data. induction hs as [|[name code v] hs IH]; intros data Hs Hb; cbn in Hs; [injection Hs as <-; constructor|].
  cbn [forallb h_value] in Hb. apply andb_true_iff in Hb as [Hb Hbs].
  destruct (utf8_encode name) as [nb|] eqn:En; [|done]. destruct (Z.ltb_spec 255 (zlen nb)); [done|].
  destruct (between 0 255 code) eqn:Ec; [|done]. cbn [negb] in Hs. apply between_spec in Ec.
  destruct (serialize_value code v) as [vb|] eqn:Ev; [|done].
  destruct (serialize_headers hs) as [rest|]; [|done]. apply Ok_inj in Hs as <-. pose proof (zlen_nonneg nb).
  apply list.Forall_cons. split; [lia|]. apply is_bytes_app. split; [by eapply utf8_encode_bytes|].
  apply list.Forall_cons. split; [lia|]. apply is_bytes_app. split; [|by apply IH].
  eapply serialize_value_bytes; [done|]. by destruct v.
Qed.

Lemma next_frame_serialize max_frame_bytes m f rest : message_ok m = true -> serialize m = Ok f ->
  zlen f <= max_frame_bytes ->
  is_bytes f /\ EventStreamParser.next_frame max_frame_bytes (f ++ rest) = Ok (Some (m, rest)).
Proof.
  unfold message_ok, serialize. rewrite !andb_true_iff. intros [[Ht Hhb] Hpb] Hs Hmax.
  destruct (serialize_headers (headers m)) as [hs|] eqn:Eh; [|done].
  destruct (Z.leb_spec (2 ^ 32) (16 + zlen hs + zlen (payload m))); [done|]. apply Ok_inj in Hs as <-.
  pose proof (serialize_headers_bytes _ _ Eh Hhb) as Hb. pose proof (is_bytes_forallb _ Hpb) as Hp. split.
  - unfold frame. cbv zeta. rewrite !is_bytes_app. split_and!; done || apply is_bytes_be.
  - unfold frame in Hmax. cbv zeta in Hmax. rewrite !zlen_app, !be4 in Hmax.
    rewrite next_frame_frame by (done || lia). unfold parse_headers.
    rewrite (parse_headers_serialize _ _ _ Ht Eh) by done. by destruct m.
Qed.

(** What [serialize] writes is read back, however the bytes are cut: a stream of
    serialized messages, none over the frame bound, parses to those messages with
    nothing left over and no error. *)
Theorem eventstream_round_trip max_frame_bytes ms fs chunks :
  Forall (fun m => message_ok m = true) ms -> Forall2 (fun m f => serialize m = Ok f /\ zlen f <= max_frame_bytes) ms fs ->
  Forall is_bytes chunks -> concat chunks = concat fs ->
  feed_all max_frame_bytes [] chunks = (ms, None, [], []) /\ EventStreamParser.close [] = Ok tt.
Proof.
  intros Hms Hfs Hc Heq. split; [|done].
  apply feed_all_whole; [done|apply List.Forall_nil|done|]. cbn [app]. rewrite Heq.
  assert (is_bytes (concat fs) /\ parse_all max_frame_bytes (concat fs) = Ok (ms, [])) as [_ H]; [|done].
  clear chunks Hc Heq. induction Hfs as [|m f ms fs [Hs Hmax] _ IH]; [by split; [apply List.Forall_nil|]|]. apply Forall_cons_1 in Hms as [Hm Hms].
  destruct (IH Hms) as [Hb Hp]. destruct (next_frame_serialize max_frame_bytes m f (concat fs) Hm Hs Hmax) as [Hbf Hn].
  cbn [concat]. assert (is_bytes (f ++ concat fs)) by (by apply is_bytes_app). split; [done|].
  by rewrite parse_all_eq, Hn, Hp.
Qed.

Lemma eventstream_round_trip_witness :
  let m1 := mk_message [string_header (lit ":event-type") (lit "chunk"); mk_header (lit "n") SHORT (VInt (-2))] (lit "{}") in
  let m2 := mk_message [mk_header (lit "ok") BOOL_TRUE (VBool true)] [] in
  match serialize m1, serialize m2 with
  | Ok f1, Ok f2 => feed_all 1000 [] [take 21 (f1 ++ f2); drop 21 (f1 ++ f2)] = ([m1; m2], None, [], [])
  | _, _ => False
  end.
Proof.
  intros m1 m2. destruct (serialize m1) as [f1|] eqn:E1; [|vm_compute in E1; congruence].
  destruct (serialize m2) as [f2|] eqn:E2; [|vm_compute in E2; congruence].
  assert (forallb (between 0 255) (f1 ++ f2) = true) as Hb.
  { vm_compute in E1, E2. injection E1 as <-. injection E2 as <-. vm_compute. reflexivity. }
  apply (eventstream_round_trip 1000 [m1; m2] [f1; f2] [take 21 (f1 ++ f2); drop 21 (f1 ++ f2)]).
  - repeat constructor.
  - vm_compute in E1, E2. injection E1 as <-. injection E2 as <-.
    repeat constructor; vm_compute; congruence.
  - pose proof (is_bytes_forallb _ Hb) as H. rewrite <- (take_drop 21 (f1 ++ f2)) in H.
    apply is_bytes_app in H as [? ?]. by repeat constructor.
  - cbn [concat]. by rewrite !app_nil_r, take_drop.
Defined.

(** ** A corrupted frame is refused *)

Lemma app_cons_cases (a b u v : pybytes) x : a ++ x :: b = u ++ v ->
  (exists c, u = a ++ x :: c /\ b = c ++ v) \/ (exists c, a = u ++ c /\ v = c ++ x :: b).
Proof.
  revert u. induction a as [|z a IH]; intros [|w u] H; cbn in H.
  - right. by exists [].
  - injection H as <- ->. left. by exists u.
  - right. by exists (z :: a).
  - injection H as <- H. destruct (IH u H) as [(c & -> & ->)|(c & -> & ->)]; [left|right]; by exists c.
Qed.

Lemma be4_inj s t : is_bytes s -> is_bytes t -> length s = 4%nat -> length t = 4%nat ->
  be_value s = be_value t -> s = t.
Proof. intros Hs Ht Hls Hlt H. by rewrite <- (be4_of s), <- (be4_of t), H. Qed.

(** A checksummed piece [s ++ crc]: a single byte changed in it no longer checks. *)
Lemma checked_piece s crc a b x y s' crc' : is_bytes s -> length crc = 4%nat ->
  be_value crc = crc32 s -> is_bytes crc -> 0 <= y < 256 -> x <> y ->
  s ++ crc = a ++ x :: b -> s' ++ crc' = a ++ y :: b -> length s' = length s -> length crc' = 4%nat ->
  crc32 s' <> be_value crc'.
Proof.
  intros Hs Hl Hc Hbc Hy Hxy H H' Hls Hlc Heq.
  destruct (app_cons_cases a b s crc x (eq_sym H)) as [(c & -> & ->)|(c & -> & ->)].
  - rewrite (app_comm_cons c crc y), app_assoc in H'. apply app_inj_1 in H' as [-> ->].
    2: { by rewrite Hls, !length_app. }
    rewrite <- Heq in Hc. symmetry in Hc. apply Hxy. by eapply crc32_detects.
  - rewrite <- app_assoc in H'. apply app_inj_1 in H' as [-> ->]; [|done].
    assert (c ++ x :: b = c ++ y :: b) as Hcc.
    { apply be4_inj; [done| |done..|by rewrite Hc, Heq]. apply is_bytes_app in Hbc as [? Hbc].
      apply Forall_cons_1 in Hbc as [_ ?]. apply is_bytes_app. split; [done|]. by apply list.Forall_cons. }
    apply app_inv_head in Hcc. congruence.
Qed.

(** The pieces of a buffer that is exactly one frame. *)
Lemma one_frame max_frame_bytes f m : is_bytes f ->
  EventStreamParser.next_frame max_frame_bytes f = Ok (Some (m, [])) -> exists w1 w2 w3 body crc,
  f = w1 ++ w2 ++ w3 ++ body ++ crc /\ length w1 = 4%nat /\ length w2 = 4%nat /\ length w3 = 4%nat /\
  length crc = 4%nat /\ zlen body = be_value w1 - 16 /\ 0 <= be_value w2 /\
  be_value w3 = crc32 (w1 ++ w2) /\ be_value crc = crc32 (w1 ++ w2 ++ w3 ++ body).
Proof.
  intros Hb. destruct (buffer_cases max_frame_bytes f Hb)
    as [->|(w1 & w2 & w3 & r & -> & H1 & H2 & H3 & _ & _ & _ & _ & H0)]; [done|].
  rewrite next_frame_words by done. cbv zeta.
  destruct (_ || _) eqn:Eb; [done|]. apply orb_false_iff in Eb as [[E1%Z.ltb_ge _]%orb_false_iff E2%Z.ltb_ge].
  destruct (crc32 (w1 ++ w2) =? be_value w3) eqn:Ec1; [|done]. apply Z.eqb_eq in Ec1. cbn [negb].
  destruct (short_of r _) eqn:Es; [done|]. apply short_of_false in Es.
  destruct (split_at r (be_value w1 - 16)) as (body & r1 & -> & Hbody); [lia|].
  rewrite zlen_app in Es. destruct (split_at r1 4) as (crc & r2 & -> & Hcrc); [lia|].
  rewrite <- Hbody, take_app_z, drop_app_z. rewrite <- Hcrc, take_app_z.
  destruct (crc32 (w1 ++ w2 ++ w3 ++ body) =? be_value crc) eqn:Ec2; [|done]. apply Z.eqb_eq in Ec2. cbn [negb].
  assert (drop_z (be_value w1 - 12) (body ++ crc ++ r2) = r2) as ->.
  { replace (be_value w1 - 12) with (zlen (body ++ crc)) by (rewrite zlen_app; lia).
    rewrite app_assoc. apply drop_app_z. }
  destruct (parse_headers _); [|done]. intros [= _ ->].
  exists w1, w2, w3, body, crc. rewrite app_nil_r. unfold zlen in Hcrc. split_and!; done || lia.
Qed.

(** A buffer whose prelude does not check is refused. *)
Lemma bad_prelude max_frame_bytes w1 w2 w3 r : 0 <= be_value w2 -> length w1 = 4%nat -> length w2 = 4%nat ->
  length w3 = 4%nat -> crc32 (w1 ++ w2) <> be_value w3 ->
  exists why, EventStreamParser.next_frame max_frame_bytes (w1 ++ w2 ++ w3 ++ r) = err why.
Proof.
  intros H0 H1 H2 H3 Hc. rewrite next_frame_words by done. cbv zeta. destruct (_ || _); [eauto|].
  apply Z.eqb_neq in Hc. rewrite Hc. cbn [negb]. eauto.
Qed.

(** A complete frame whose checksum does not check is refused. *)
Lemma bad_body max_frame_bytes w1 w2 w3 body crc : 0 <= be_value w2 -> length w1 = 4%nat -> length w2 = 4%nat ->
  length w3 = 4%nat -> length crc = 4%nat -> zlen body = be_value w1 - 16 ->
  crc32 (w1 ++ w2 ++ w3 ++ body) <> be_value crc ->
  exists why, EventStreamParser.next_frame max_frame_bytes (w1 ++ w2 ++ w3 ++ body ++ crc) = err why.
Proof.
  intros H0 H1 H2 H3 H4 Hbody Hc. rewrite next_frame_words by done. cbv zeta. destruct (_ || _); [eauto|].
  destruct (negb _); [eauto|]. assert (zlen crc = 4) as Hz by (unfold zlen; lia).
  replace (short_of _ _) with false by (symmetry; apply short_of_false; rewrite zlen_app; lia).
  rewrite <- Hbody, take_app_z, drop_app_z.
  assert (take_z 4 crc = crc) as -> by (apply take_ge; unfold zlen in Hz; lia).
  apply Z.eqb_neq in Hc. rewrite Hc. cbn [negb]. eauto.
Qed.

(** C40: corruption is detected: change any one byte of a serialized frame -- in the
    lengths, the checksums, the headers or the payload -- and the parser raises
    [EventStreamError] instead of handing out a message; every byte is kept for
    the verbatim pass-through. *)
Theorem eventstream_detects_corruption max_frame_bytes m a b x y :
  message_ok m = true -> serialize m = Ok (a ++ x :: b) -> zlen (a ++ x :: b) <= max_frame_bytes ->
  0 <= y < 256 -> x <> y ->
  exists why, EventStreamParser.feed max_frame_bytes [] (a ++ y :: b) = (err why, a ++ y :: b).
Proof.
  intros Hm Hs Hmax Hy Hxy. destruct (next_frame_serialize max_frame_bytes m _ [] Hm Hs Hmax) as [Hb Hn].
  rewrite app_nil_r in Hn.
  assert (is_bytes (a ++ y :: b)) as Hb'.
  { apply is_bytes_app in Hb as [? Hb]. apply Forall_cons_1 in Hb as [_ ?]. apply is_bytes_app. split; [done|].
    by apply list.Forall_cons. }
  rewrite feed_parse_all. cbn [app]. rewrite parse_all_eq by done.
  enough (exists why, EventStreamParser.next_frame max_frame_bytes (a ++ y :: b) = err why) as [why ->] by (by exists why).
  assert (length (a ++ y :: b) = length (a ++ x :: b)) as Hlen by (by rewrite !length_app).
  destruct (one_frame _ _ _ Hb Hn) as (w1 & w2 & w3 & body & crc & Hf & H1 & H2 & H3 & H4 & Hbody & H0 & Hc1 & Hc2).
  rewrite Hf in Hlen, Hb. rewrite !is_bytes_app in Hb. destruct Hb as (Hb1 & Hb2 & Hb3 & Hbb & Hbc).
  destruct (prelude_cut (a ++ y :: b)) as (v1 & v2 & v3 & r & Hf' & G1 & G2 & G3).
  { unfold zlen. rewrite Hlen, !length_app. lia. }
  rewrite Hf' in Hlen, Hb' |- *. rewrite !is_bytes_app in Hb'. destruct Hb' as (_ & Hbv2 & _ & _).
  pose proof (be4_range v2 Hbv2 G2) as G0. rewrite !length_app in Hlen.
  rewrite !(app_assoc w1), (app_assoc (w1 ++ w2)) in Hf. rewrite !(app_assoc v1), (app_assoc (v1 ++ v2)) in Hf'.
  destruct (app_cons_cases _ _ _ _ _ Hf) as [(c & Hp & ->)|(c & -> & Hr)].
  - apply bad_prelude; [lia|done..|].
    assert ((v1 ++ v2) ++ v3 = a ++ y :: c) as Hp'.
    { rewrite app_comm_cons, app_assoc in Hf'. apply app_inj_1 in Hf' as [<- _]; [done|].
      apply (f_equal length) in Hp. rewrite !length_app in *. cbn in *. lia. }
    eapply (checked_piece (w1 ++ w2) w3 a c x y); try done; [by apply is_bytes_app|rewrite !length_app; lia].
  - rewrite <- app_assoc in Hf'. apply app_inj_1 in Hf' as [Hp <-]; [|rewrite !length_app; lia].
    apply app_inj_1 in Hp as [Hp <-]; [|rewrite !length_app; lia]. apply app_inj_1 in Hp as [<- <-]; [|lia].
    destruct (split_at_nat (c ++ y :: b) (length body)) as (body' & crc' & Hr' & Hl).
    { apply (f_equal length) in Hr. rewrite !length_app in *. unfold zlen. rewrite length_app. cbn in *. lia. }
    rewrite Hr' in Hlen |- *. rewrite length_app in Hlen.
    apply bad_body; try done; [lia|unfold zlen in *; lia|].
    eapply (checked_piece (w1 ++ w2 ++ w3 ++ body) crc ((w1 ++ w2 ++ w3) ++ c) b x y); try done.
    + by rewrite !is_bytes_app.
    + rewrite <- !app_assoc. by rewrite <- Hr.
    + rewrite <- !app_assoc. by rewrite Hr'.
    + rewrite !length_app. lia.
    + lia.
Qed.

Lemma eventstream_detects_corruption_witness :
  let m := mk_message [string_header (lit "k") (lit "v")] (lit "hello") in
  match serialize m with
  | Ok f => exists why,
      EventStreamParser.feed 1000 [] (take 18 f ++ 200 :: drop 19 f) = (err why, take 18 f ++ 200 :: drop 19 f)
  | Raise _ => False
  end.
Proof.
  intros m. destruct (serialize m) as [f|] eqn:E; [|vm_compute in E; congruence].
  apply (eventstream_detects_corruption 1000 m (take 18 f) (drop 19 f) (nth 18 f 0) 200).
  - reflexivity.
  - rewrite E. vm_compute in E. injection E as <-. reflexivity.
  - vm_compute in E. injection E as <-. vm_compute. congruence.
  - lia.
  - vm_compute in E. injection E as <-. vm_compute. congruence.
Defined.

(** Not every frame the parser cannot read makes it raise [EventStreamError]: a
    frame with correct lengths and checksums whose header name is not UTF-8 makes
    [feed] raise [UnicodeDecodeError], which the proxy's pass-through, written
    for [EventStreamError], does not catch. *)
Theorem eventstream_undecodable_header :
  let f := frame [1; 255; BOOL_TRUE] [] in
  EventStreamParser.feed 1000 [] f = (Raise UnicodeDecodeError, f).
Proof. vm_compute. reflexivity. Qed.
