(* ===== verification/Multipart.v ===== *)
(** * multipart/form-data -- src/llm_redact/multipart.py

    The byte-faithful codec and the strict reading of header parameters.  Offsets
    are the source's, into a header block or a body's remainder. *)

From S2P Require Import Prelude Bytes.

Local Open Scope mon_scope.

Definition CR : Z := 13.
Definition LF : Z := 10.
Definition DQUOTE : Z := 34.
Definition BACKSLASH : Z := 92.

Definition CRLF : pybytes := [CR; LF].
Definition CRLF2 : pybytes := [CR; LF; CR; LF].

(** ** Byte classes *)

Definition in_lit (s : string) (c : Z) : bool := mem_char c (lit s).
Definition ALNUM (c : Z) : bool := is_09 c || is_AZ c || is_az c.
Definition TCHAR (c : Z) : bool := ALNUM c || in_lit "!#$%&'*+-.^_`|~" c.
Definition ATTR_CHAR (c : Z) : bool := ALNUM c || in_lit "!#$&+-.^_`|~" c.
Definition HEX (c : Z) : bool := is_09 c || between 65 70 c || between 97 102 c.
Definition BCHARS (c : Z) : bool := ALNUM c || in_lit "'()+_,-./:=? " c.
Definition NAIVE_BREAKS (c : Z) : bool := (c =? 59) || (c =? BACKSLASH).
Definition OWS (c : Z) : bool := (c =? 32) || (c =? 9).
Definition CONTROLS (c : Z) : bool := between 0 8 c || between 10 31 c || (c =? 127).
Definition VALUE_STOP (c : Z) : bool :=
  between 0 32 c || (c =? DQUOTE) || (c =? 59) || (c =? BACKSLASH) || (c =? 127).

(** ASCII whitespace, what [bytes.strip()] strips. *)
Definition ascii_space (c : Z) : bool := (c =? 32) || between 9 13 c.

Fixpoint lstrip_if (p : Z -> bool) (s : pybytes) : pybytes :=
  match s with c :: s' => if p c then lstrip_if p s' else s | [] => [] end.
Definition strip_if (p : Z -> bool) (s : pybytes) : pybytes := rev (lstrip_if p (rev (lstrip_if p s))).

(** [s.partition(sep)] for a one-byte separator: before, whether found, after. *)
Definition partition1 (c : Z) (s : pybytes) : pybytes * bool * pybytes :=
  match find_char c s with
  | Some n => (take n s, true, drop (S n) s)
  | None => (s, false, [])
  end.

(** [s.split(sep)] for a longer separator.  [fuel]: the length of [s]. *)
Fixpoint split_sub_go (fuel : nat) (sep s : pybytes) : list pybytes :=
  match find_sub sep s, fuel with
  | Some n, S fuel => take n s :: split_sub_go fuel sep (drop (n + length sep) s)
  | _, _ => [s]
  end.
Definition split_sub (sep s : pybytes) : list pybytes := split_sub_go (length s) sep s.

(** What the codec raises: [AmbiguousHeaders], [UnicodeEncodeError] of a value the
    caller's [redact] returned, or an exception of [redact] itself. *)
Inductive mp_error (E : Type) : Type :=
| AmbiguousHeaders
| EncodeError
| RedactError (e : E).
Arguments AmbiguousHeaders {E}.
Arguments EncodeError {E}.
Arguments RedactError {E} e.

Record Param : Type := mk_param { value : pystr; quoted : bool; p_start : nat; p_end : nat }.

Record MultipartPart : Type := mk_part { headers : option pybytes; content : pybytes }.

Record Multipart : Type := mk_multipart {
  boundary : pybytes;
  preamble : pybytes;
  parts : list MultipartPart;
  epilogue : pybytes
}.

(** ** Reading parameters *)
Section Params.
Context {E : Type}.
Local Abbreviation R := (result (mp_error E)).

(** [while pos < end and p(block[pos]): pos += 1] *)
Fixpoint advance_go (p : Z -> bool) (fuel : nat) (block : pybytes) (pos end_ : nat) : nat :=
  match fuel with
  | O => pos
  | S fuel =>
      if (pos <? end_)%nat && p (nth pos block 0) then advance_go p fuel block (S pos) end_ else pos
  end.

Definition advance (p : Z -> bool) (block : pybytes) (pos end_ : nat) : nat :=
  advance_go p (end_ - pos) block pos end_.

Definition skip_ows : pybytes -> nat -> nat -> nat := advance OWS.

(** [block[pos:end]] *)
Definition span (block : pybytes) (pos end_ : nat) : pybytes := take (end_ - pos) (drop pos block).

Definition utf8 (raw : pybytes) : R pystr :=
  match utf8_decode raw with Some s => Ok s | None => Raise AmbiguousHeaders end.

(** The quoted-string's loop of [_parse_value], from [i] on: the bytes read and the
    offset of the closing quote. *)
Fixpoint quoted_go (fuel : nat) (block : pybytes) (i end_ : nat) : R (pybytes * nat) :=
  match fuel with
  | O => Raise AmbiguousHeaders
  | S fuel =>
      if (i <? end_)%nat && negb (nth i block 0 =? DQUOTE) then
        let byte := nth i block 0 in
        if byte =? BACKSLASH then
          let i := S i in
          if (i =? end_)%nat || negb ((nth i block 0 =? DQUOTE) || (nth i block 0 =? BACKSLASH))
          then Raise AmbiguousHeaders
          else
            match quoted_go fuel block (S i) end_ with
            | Ok (out, i') => Ok (nth i block 0 :: out, i')
            | Raise e => Raise e
            end
        else
          match quoted_go fuel block (S i) end_ with
          | Ok (out, i') => Ok (byte :: out, i')
          | Raise e => Raise e
          end
      else if (i =? end_)%nat then Raise AmbiguousHeaders else Ok ([], i)
  end.

(** [_parse_value] *)
Definition parse_value (block : pybytes) (pos end_ : nat) : R (Param * nat) :=
  if (pos <? end_)%nat && (nth pos block 0 =? DQUOTE) then
    match quoted_go (S (end_ - pos)) block (S pos) end_ with
    | Raise e => Raise e
    | Ok (out, i) =>
        match utf8 out with
        | Raise e => Raise e
        | Ok v => Ok (mk_param v true (S pos) i, S i)
        end
    end
  else
    let stop := advance (fun c => negb (VALUE_STOP c)) block pos end_ in
    if (stop =? pos)%nat then Raise AmbiguousHeaders
    else
      match utf8 (span block pos stop) with
      | Raise e => Raise e
      | Ok v => Ok (mk_param v false pos stop, stop)
      end.

(** A [dict] of parameters, in insertion order. *)
Definition params_t : Type := list (pystr * Param).

Fixpoint get_param (ps : params_t) (key : pystr) : option Param :=
  match ps with
  | [] => None
  | (k, v) :: ps => if decide (k = key) then Some v else get_param ps key
  end.

(** The loop of [_parse_params]; [fuel]: the block's length, since every round
    moves past a [;]. *)
Fixpoint params_go (fuel : nat) (block : pybytes) (pos end_ : nat) (params : params_t) : R params_t :=
  match fuel with
  | O => Ok params
  | S fuel =>
      if negb (pos <? end_)%nat then Ok params
      else
        let pos := skip_ows block (S pos) end_ in
        if (pos =? end_)%nat then Ok params
        else
          let key_end := advance TCHAR block pos end_ in
          let key := map ascii_lower (span block pos key_end) in
          let pos := skip_ows block key_end end_ in
          if bool_decide (key = []) || (pos =? end_)%nat || negb (nth pos block 0 =? 61)
          then Raise AmbiguousHeaders
          else
            match parse_value block (skip_ows block (S pos) end_) end_ with
            | Raise e => Raise e
            | Ok (param, pos) =>
                match get_param params key with
                | Some _ => Raise AmbiguousHeaders
                | None =>
                    let pos := skip_ows block pos end_ in
                    if (pos <? end_)%nat && negb (nth pos block 0 =? 59) then Raise AmbiguousHeaders
                    else params_go fuel block pos end_ (params ++ [(key, param)])
                end
            end
  end.

(** [_parse_params] *)
Definition parse_params (block : pybytes) (pos end_ : nat) : R params_t :=
  let kind := (partition1 59 (span block pos end_)).1.1 in
  params_go (S (length block)) block (pos + length kind) end_ [].

(** ** Part headers *)

(** [while end > start and p(block[end - 1]): end -= 1] *)
Fixpoint retreat (p : Z -> bool) (fuel : nat) (block : pybytes) (start end_ : nat) : nat :=
  match fuel with
  | O => end_
  | S fuel =>
      if (start <? end_)%nat && p (nth (end_ - 1) block 0) then retreat p fuel block start (end_ - 1) else end_
  end.

(** The loop of [_field] over the block's lines. *)
Fixpoint field_go (name : pybytes) (block : pybytes) (lines : list pybytes) (pos : nat)
    (found : option (nat * nat)) : R (option (nat * nat)) :=
  match lines with
  | [] => Ok found
  | line :: lines =>
      let '(key, colon, _) := partition1 58 line in
      if negb colon || bool_decide (key = []) || negb (forallb TCHAR key) then Raise AmbiguousHeaders
      else if existsb CONTROLS line then Raise AmbiguousHeaders
      else
        let next := (pos + length line + 2)%nat in
        if decide (map ascii_lower key = name) then
          match found with
          | Some _ => Raise AmbiguousHeaders
          | None =>
              let start := skip_ows block (pos + length key + 1) (pos + length line) in
              let end_ := retreat OWS (pos + length line) block start (pos + length line) in
              field_go name block lines next (Some (start, end_))
          end
        else field_go name block lines next found
  end%nat.

(** [_field]: the block with the value's span. *)
Definition field (part : MultipartPart) (name : pybytes) : R (option (pybytes * nat * nat)) :=
  match headers part with
  | None => Ok None
  | Some block =>
      match field_go name block (split_sub CRLF block) 0 None with
      | Raise e => Raise e
      | Ok None => Ok None
      | Ok (Some (start, end_)) => Ok (Some (block, start, end_))
      end
  end.

(** [header]; [name] is given in lower case. *)
Definition header (part : MultipartPart) (name : pybytes) : R (option pybytes) :=
  match field part name with
  | Raise e => Raise e
  | Ok found => Ok (match found with None => None | Some (block, start, end_) => Some (span block start end_) end)
  end.

(** [params] *)
Definition params (part : MultipartPart) (name : pybytes) : R (option params_t) :=
  match field part name with
  | Raise e => Raise e
  | Ok None => Ok None
  | Ok (Some (block, start, end_)) =>
      match parse_params block start end_ with
      | Raise e => Raise e
      | Ok ps => Ok (Some ps)
      end
  end.
End Params.

(** The lenient readers [_header_value] and [_disposition_param]: the first match,
    split naively. *)
Fixpoint first_line (name : pybytes) (lines : list pybytes) : option pybytes :=
  match lines with
  | [] => None
  | line :: lines =>
      let '(key, _, value) := partition1 58 line in
      if decide (map ascii_lower (strip_if ascii_space key) = name) then Some (strip_if ascii_space value)
      else first_line name lines
  end.

Definition header_value (part : MultipartPart) (name : pybytes) : option pybytes :=
  match headers part with
  | None => None
  | Some block => first_line name (split_sub CRLF block)
  end.

Fixpoint first_piece (param : pybytes) (pieces : list pybytes) : option pystr :=
  match pieces with
  | [] => None
  | piece :: pieces =>
      let '(key, _, value) := partition1 61 (strip_if ascii_space piece) in
      if decide (map ascii_lower (strip_if ascii_space key) = param)
      then Some (utf8_replace (strip_if (Z.eqb DQUOTE) (strip_if ascii_space value)))
      else first_piece param pieces
  end.

Definition disposition_param (part : MultipartPart) (param : pybytes) : option pystr :=
  match header_value part (lit "content-disposition") with
  | None => None
  | Some disposition => first_piece param (split_char 59 disposition)
  end.

(** [_disposition], [name] and [filename] *)
Definition disposition (part : MultipartPart) (key : pystr) : option pystr :=
  match @params Empty_set part (lit "content-disposition") with
  | Raise _ => disposition_param part key
  | Ok None => None
  | Ok (Some ps) => value <$> get_param ps key
  end.

Definition name (part : MultipartPart) : option pystr := disposition part (lit "name").
Definition filename (part : MultipartPart) : option pystr :=
  match disposition part (lit "filename") with
  | Some plain => Some plain
  | None => disposition part (lit "filename*")
  end.

(** ** Writing values back *)

(** [text.replace(c, r)] for one character. *)
Definition replace_char (c : Z) (r : pystr) (text : pystr) : pystr :=
  flat_map (fun x => if x =? c then r else [x]) text.

(** [_quote] *)
Definition quote (text : pystr) : pystr :=
  replace_char DQUOTE [BACKSLASH; DQUOTE] (replace_char BACKSLASH [BACKSLASH; BACKSLASH] text).

Definition hex_value (c : Z) : Z := if is_09 c then c - 48 else if between 65 70 c then c - 55 else c - 87.
Definition hex_upper (d : Z) : Z := if d <? 10 then 48 + d else 55 + d.

(** The percent-decoding loop of [_ext_value]. *)
Fixpoint ext_decode {E} (raw : pybytes) : result (mp_error E) pybytes :=
  match raw with
  | [] => Ok []
  | c :: rest =>
      let plain := if ATTR_CHAR c then
          match ext_decode rest with Ok data => Ok (c :: data) | Raise e => Raise e end
        else Raise AmbiguousHeaders in
      match rest with
      | h :: l :: rest' =>
          if (c =? 37) && (HEX h && HEX l) then
            match ext_decode rest' with
            | Ok data => Ok (hex_value h * 16 + hex_value l :: data)
            | Raise e => Raise e
            end
          else plain
      | _ => plain
      end
  end.

(** [_ext_value]: charset, language and the percent-decoded bytes. *)
Definition ext_value {E} (param : Param) : result (mp_error E) (pystr * pystr * pybytes) :=
  let '(charset, _, rest) := partition1 39 (value param) in
  let '(language, second, encoded) := partition1 39 rest in
  if quoted param || bool_decide (charset = []) || negb second then Raise AmbiguousHeaders
  else
    match utf8_encode encoded with
    | None => Raise EncodeError
    | Some raw =>
        match ext_decode raw with
        | Raise e => Raise e
        | Ok data => Ok (charset, language, data)
        end
    end.

(** [_ext_encode] *)
Definition ext_encode (data : pybytes) : pystr :=
  flat_map (fun byte => if ATTR_CHAR byte then [byte] else [37; hex_upper (byte / 16); hex_upper (byte mod 16)]) data.

(** *** redact_filenames *)
Section RedactFilenames.
Context {St E : Type} (redact : pystr -> M St E pystr).
Local Abbreviation MM := (M St (mp_error E)).

Definition edit : Type := (nat * nat * pybytes)%type.

Definition liftr {A} (r : result (mp_error E) A) : MM A := fun s => (r, s).

Definition call (text : pystr) : MM pystr :=
  fun s => match redact text s with
           | (Ok new, s') => (Ok new, s')
           | (Raise e, s') => (Raise (RedactError e), s')
           end.

Definition encode (text : pystr) : MM pybytes :=
  match utf8_encode text with Some raw => mret raw | None => mraise EncodeError end.

(** What is read before anything is redacted: the parameters, and the [filename*]
    with its prefix and text where its charset is UTF-8. *)
Definition read_disposition (part : MultipartPart) (strict : bool)
    : result (mp_error E) (params_t * option (Param * pystr * pystr)) :=
  match params part (lit "content-disposition") with
  | Raise e => Raise e
  | Ok ps =>
      let ps := default [] ps in
      match get_param ps (lit "filename*") with
      | None => Ok (ps, None)
      | Some ext =>
          match ext_value ext with
          | Raise e => Raise e
          | Ok (charset, language, data) =>
              if decide (map ascii_lower charset = lit "utf-8") then
                match utf8 data with
                | Raise e => Raise e
                | Ok text => Ok (ps, Some (ext, charset ++ [39] ++ language ++ [39], text))
                end
              else if strict then Raise AmbiguousHeaders else Ok (ps, None)
          end
      end
  end.

Definition edit_plain (ps : params_t) : MM (list edit) :=
  match get_param ps (lit "filename") with
  | None => mret []
  | Some plain =>
      new <~ call (value plain) ;;
      if decide (new = value plain) then mret []
      else
        raw <~ encode (if quoted plain then quote new else new) ;;
        mret [(p_start plain, p_end plain, raw)]
  end.

Definition edit_ext (ext : option (Param * pystr * pystr)) : MM (list edit) :=
  match ext with
  | None => mret []
  | Some (ext, prefix, text) =>
      new <~ call text ;;
      if decide (new = text) then mret []
      else
        data <~ encode new ;;
        raw <~ encode (prefix ++ ext_encode data) ;;
        mret [(p_start ext, p_end ext, raw)]
  end.

(** [block[:start] + raw + block[end:]] *)
Definition apply_edit (block : pybytes) (e : edit) : pybytes :=
  let '(start, end_, raw) := e in take start block ++ raw ++ drop end_ block.

(** [sorted(edits, reverse=True)]: the two spans have different starts. *)
Definition later_first (e1 e2 : edit) : bool := (e2.1.1 <=? e1.1.1)%nat.

(** [redact_filenames]: whether the block changed, and the part after it. *)
Definition redact_filenames (part : MultipartPart) (strict : bool) : MM (bool * MultipartPart) :=
  match headers part with
  | None => mret (false, part)
  | Some block =>
      match read_disposition part strict with
      | Raise AmbiguousHeaders => if strict then mraise AmbiguousHeaders else mret (false, part)
      | Raise e => mraise e
      | Ok (ps, ext) =>
          plain_edits <~ edit_plain ps ;;
          ext_edits <~ edit_ext ext ;;
          let edits := plain_edits ++ ext_edits in
          let block := fold_left apply_edit (sort_by later_first edits) block in
          mret (match edits with [] => false | _ => true end, mk_part (Some block) (content part))
      end
  end.
End RedactFilenames.

(** ** Bodies *)

Definition serialize (m : Multipart) : pybytes :=
  let delim := lit "--" ++ boundary m in
  preamble m ++
  flat_map (fun part =>
    delim ++ CRLF ++ match headers part with Some h => h ++ CRLF2 | None => [] end ++ content part ++ CRLF)
    (parts m) ++
  delim ++ lit "--" ++ epilogue m.

(** [parse_boundary] *)
Definition parse_boundary (content_type : pystr) (media_type : pystr) (refuse : list pystr)
    : result (mp_error Empty_set) (option pybytes) :=
  match utf8_encode content_type with
  | None => Raise EncodeError
  | Some raw =>
      if existsb CONTROLS raw then Ok None
      else
        let media := (partition1 59 raw).1.1 in
        if negb (bool_decide (map ascii_lower (strip_if ascii_space media) = media_type)) then Ok None
        else
          match @parse_params Empty_set raw (length media) (length raw) with
          | Raise _ => Ok None
          | Ok ps =>
              if existsb (fun kv => existsb NAIVE_BREAKS (span raw (p_start kv.2) (p_end kv.2))) ps then Ok None
              else if existsb (fun kv => bool_decide (kv.1 ∈ refuse)) ps then Ok None
              else
                match get_param ps (lit "boundary") with
                | None => Ok None
                | Some b =>
                    match utf8_encode (value b) with
                    | None => Raise EncodeError
                    | Some v =>
                        if bool_decide (v = []) || negb (forallb BCHARS v) || bool_decide (list.last v = Some 32)
                        then Ok None else Ok (Some v)
                    end
                end
          end
  end.

(** One part from the bytes between two delimiters. *)
Definition part_of (raw : pybytes) : MultipartPart :=
  match find_sub CRLF2 raw with
  | Some n => mk_part (Some (take n raw)) (drop (n + 4) raw)
  | None => mk_part None raw
  end.

(** The loop of [parse], over the body from [pos] on.  [fuel]: more than the
    remainder's delimiters. *)
Fixpoint parse_go (fuel : nat) (separator : pybytes) (rest : pybytes)
    : option (list MultipartPart * pybytes) :=
  match fuel with
  | O => None
  | S fuel =>
      if starts_with (lit "--") rest then Some ([], drop 2 rest)
      else if negb (starts_with CRLF rest) then None
      else
        match find_sub separator (drop 2 rest) with
        | None => None
        | Some n =>
            let raw := take n (drop 2 rest) in
            match parse_go fuel separator (drop (n + length separator) (drop 2 rest)) with
            | None => None
            | Some (parts, epilogue) => Some (part_of raw :: parts, epilogue)
            end
        end
  end.

(** [parse] *)
Definition parse (body boundary : pybytes) : option Multipart :=
  let separator := CRLF ++ lit "--" ++ boundary in
  let start :=
    if starts_with (drop 2 separator) body then Some ([], drop (length separator - 2) body)
    else
      match find_sub separator body with
      | None => None
      | Some idx => Some (take (idx + 2) body, drop (idx + length separator) body)
      end in
  match start with
  | None => None
  | Some (preamble, rest) =>
      match parse_go (S (length rest)) separator rest with
      | None => None
      | Some (parts, epilogue) => Some (mk_multipart boundary preamble parts epilogue)
      end
  end.

(** ** Substring search *)

Lemma find_sub_Some p s n : find_sub p s = Some n -> exists a b, s = a ++ p ++ b /\ length a = n.
Proof.
  revert n. induction s as [|x s IH]; intros n; cbn.
  - destruct (starts_with p []) eqn:E; [|done]. intros [= <-]. apply starts_with_spec in E as [t E]. by exists [], t.
  - destruct (starts_with p (x :: s)) eqn:E.
    + intros [= <-]. apply starts_with_spec in E as [t E]. by exists [], t.
    + destruct (find_sub p s) as [m|] eqn:Em; [|done]. intros [= <-].
      destruct (IH m eq_refl) as (a & b & -> & <-). by exists (x :: a), b.
Qed.

Lemma drop_found (a p b : pybytes) : drop (length a + length p) (a ++ p ++ b) = b.
Proof. rewrite <- length_app, app_assoc. apply drop_app_length. Qed.

Lemma take_found (a b : pybytes) : take (length a) (a ++ b) = a.
Proof. apply take_app_length. Qed.

(** ** Parsing and serializing a body *)

(** The bytes [serialize] writes for a part after its delimiter's CRLF. *)
Definition raw_of (part : MultipartPart) : pybytes :=
  match headers part with Some h => h ++ CRLF2 | None => [] end ++ content part.

Lemma part_of_raw raw : raw_of (part_of raw) = raw.
Proof.
  unfold part_of, raw_of. destruct (find_sub CRLF2 raw) as [n|] eqn:E; cbn; [|done].
  apply find_sub_Some in E as (a & b & -> & <-). rewrite take_found.
  change 4%nat with (length CRLF2). by rewrite drop_found, <- app_assoc.
Qed.

Definition delim_of (boundary : pybytes) : pybytes := lit "--" ++ boundary.
Definition separator_of (boundary : pybytes) : pybytes := CRLF ++ delim_of boundary.

Definition parts_bytes (delim : pybytes) (ps : list MultipartPart) : pybytes :=
  flat_map (fun part => delim ++ CRLF ++ raw_of part ++ CRLF) ps.

Lemma serialize_eq m : serialize m =
  preamble m ++ parts_bytes (delim_of (boundary m)) (parts m) ++ delim_of (boundary m) ++ lit "--" ++ epilogue m.
Proof.
  unfold serialize, parts_bytes, delim_of, raw_of. rewrite <- !app_assoc. f_equal. f_equal.
  apply flat_map_ext. intros p. by destruct (headers p); rewrite <- ?app_assoc.
Qed.

Lemma parse_go_bytes fuel b : forall rest ps epi, parse_go fuel (separator_of b) rest = Some (ps, epi) ->
  delim_of b ++ rest = parts_bytes (delim_of b) ps ++ delim_of b ++ lit "--" ++ epi.
Proof.
  induction fuel as [|fuel IH]; intros rest ps epi; cbn [parse_go]; [done|].
  destruct (starts_with (lit "--") rest) eqn:E1.
  { intros [= <- <-]. apply starts_with_spec in E1 as [t ->]. done. }
  destruct (starts_with CRLF rest) eqn:E2; [|done]. apply starts_with_spec in E2 as [t ->]. cbn [negb].
  change (drop 2 (CRLF ++ t)) with t. destruct (find_sub (separator_of b) t) as [n|] eqn:E3; [|done].
  apply find_sub_Some in E3 as (raw & u & -> & <-). rewrite take_found, drop_found.
  destruct (parse_go fuel (separator_of b) u) as [[ps' epi']|] eqn:E4; [|done]. intros [= <- <-].
  apply IH in E4. unfold parts_bytes in *. cbn [flat_map]. rewrite part_of_raw. rewrite <- !app_assoc.
  rewrite <- E4. unfold separator_of. by rewrite <- !app_assoc.
Qed.

(** C29: the multipart codec is byte-faithful: whatever [parse] accepts serializes
    back to exactly the body it was given, under the boundary it was given. *)
Theorem multipart_byte_faithful body b m : parse body b = Some m -> serialize m = body /\ boundary m = b.
Proof.
  unfold parse. change (CRLF ++ lit "--" ++ b) with (separator_of b). cbv zeta.
  destruct (starts_with (drop 2 (separator_of b)) body) eqn:E1.
  - change (drop 2 (separator_of b)) with (delim_of b) in *. apply starts_with_spec in E1 as [t ->].
    replace (length (separator_of b) - 2)%nat with (length (delim_of b)) by (cbn; lia).
    rewrite drop_app_length. destruct (parse_go _ _ t) as [[ps epi]|] eqn:E; [|done]. intros [= <-].
    split; [|done]. rewrite serialize_eq. cbn [preamble boundary parts epilogue]. by rewrite <- (parse_go_bytes _ _ _ _ _ E).
  - destruct (find_sub (separator_of b) body) as [idx|] eqn:E2; [|done].
    apply find_sub_Some in E2 as (a & t & -> & <-). rewrite drop_found.
    destruct (parse_go _ _ t) as [[ps epi]|] eqn:E; [|done]. intros Hm. apply (inj Some) in Hm as <-.
    split; [|done]. rewrite serialize_eq. cbn [preamble boundary parts epilogue].
    rewrite <- (parse_go_bytes _ _ _ _ _ E).
     assert (take (length a + 2) (a ++ separator_of b ++ t) = a ++ CRLF) as ->.
    { unfold separator_of. rewrite <- (app_assoc CRLF), (app_assoc a). change 2%nat with (length CRLF).
      rewrite <- length_app. apply take_app_length. }
    unfold separator_of. by rewrite <- !app_assoc.
Qed.

Lemma multipart_byte_faithful_witness :
  let body := lit "--b" ++ CRLF ++ lit "Content-Disposition: form-data; name=f" ++ CRLF2 ++ lit "x" ++ CRLF ++
    lit "--b" ++ CRLF ++ lit "opaque" ++ CRLF ++ lit "--b--" ++ CRLF in
  match parse body (lit "b") with
  | Some m => length (parts m) = 2%nat /\ serialize m = body
  | None => False
  end.
Proof.
  intros body. destruct (parse body (lit "b")) as [m|] eqn:E; [|vm_compute in E; congruence]. split.
  - vm_compute in E. injection E as <-. reflexivity.
  - apply (multipart_byte_faithful body (lit "b") m E).
Defined.

(** *** A rewritten body reads back *)

Lemma starts_with_split p a b : starts_with p (a ++ b) = true ->
  starts_with p a = true \/ exists q, p = a ++ q /\ q <> [] /\ starts_with q b = true.
Proof.
  revert p. induction a as [|x a IH]; intros p H; cbn in H.
  - destruct p as [|y p]; [by left|]. right. by exists (y :: p).
  - destruct p as [|y p]; [by left|]. cbn in H. apply andb_true_iff in H as [->%Z.eqb_eq H].
    destruct (IH p H) as [H'|(q & -> & Hq & H')]; [left; cbn; by rewrite Z.eqb_refl|].
    right. by exists q.
Qed.

(** A separator that starts with the only CR it has is found where it is put. *)
Lemma find_sub_first t raw rest : mem_char CR t = false -> contains_sub (CR :: t) raw = false ->
  find_sub (CR :: t) (raw ++ (CR :: t) ++ rest) = Some (length raw).
Proof.
  intros Ht. unfold contains_sub. induction raw as [|x raw IH]; intros H.
  - cbn [app length]. pose proof (starts_with_app (CR :: t) rest) as Hs. cbn [app] in Hs.
    cbn [find_sub]. by rewrite Hs.
  - cbn [app]. cbn [find_sub] in H |- *. destruct (starts_with (CR :: t) (x :: raw)) eqn:E; [done|].
    destruct (starts_with (CR :: t) (x :: raw ++ CR :: t ++ rest)) eqn:E2.
    + exfalso. rewrite app_comm_cons in E2. apply starts_with_split in E2 as [E2|(q & Hq & Hne & E2)]; [congruence|].
      destruct q as [|y q]; [done|]. cbn in E2. apply andb_true_iff in E2 as [->%Z.eqb_eq _].
      injection Hq as _ ->. rewrite mem_char_app, mem_char_cons, Z.eqb_refl, orb_true_r in Ht. done.
    + change (CR :: t ++ rest) with ((CR :: t) ++ rest). rewrite IH; [done|]. by destruct (find_sub (CR :: t) raw).
Qed.

(** A part that reads back: its bytes do not hold the delimiter, and its header
    block ends where it says. *)
Definition part_ok (b : pybytes) (part : MultipartPart) : bool :=
  negb (contains_sub (separator_of b) (raw_of part)) &&
  match headers part with
  | Some h => bool_decide (find_sub CRLF2 (h ++ CRLF2 ++ content part) = Some (length h))
  | None => negb (contains_sub CRLF2 (content part))
  end.

Definition multipart_ok (m : Multipart) : bool :=
  negb (mem_char CR (boundary m)) &&
  (bool_decide (preamble m = []) ||
   existsb (fun pre => bool_decide (preamble m = pre ++ CRLF) && negb (contains_sub (separator_of (boundary m)) pre) &&
     negb (starts_with (delim_of (boundary m)) (pre ++ separator_of (boundary m))))
     [take (length (preamble m) - 2) (preamble m)]) &&
  forallb (part_ok (boundary m)) (parts m).

Lemma part_of_ok b part : part_ok b part = true -> part_of (raw_of part) = part.
Proof.
  unfold part_ok, part_of, raw_of. destruct part as [[h|] c]; cbn [headers content]; intros [_ H]%andb_true_iff.
  - apply bool_decide_eq_true in H. rewrite <- app_assoc, H, take_found.
    change 4%nat with (length CRLF2). by rewrite drop_found.
  - unfold contains_sub in H. cbn [app] in *. by destruct (find_sub CRLF2 c).
Qed.

Lemma parse_go_parts b epi ps : mem_char CR b = false -> forallb (part_ok b) ps = true ->
  forall fuel rest, (length ps < fuel)%nat ->
  delim_of b ++ rest = parts_bytes (delim_of b) ps ++ delim_of b ++ lit "--" ++ epi ->
  parse_go fuel (separator_of b) rest = Some (ps, epi).
Proof.
  intros Hb. induction ps as [|p ps IH]; intros Hok fuel rest Hf Heq; (destruct fuel as [|fuel]; [cbn in Hf; lia|]).
  - cbn [parts_bytes flat_map app] in Heq. apply app_inv_head in Heq as ->. done.
  - cbn [forallb] in Hok. apply andb_true_iff in Hok as [Hp Hps].
    set (tail := parts_bytes (delim_of b) ps ++ delim_of b ++ lit "--" ++ epi) in *.
    assert (exists u, tail = delim_of b ++ u) as [u Hu].
    { unfold tail. destruct ps as [|p' ps']; [by eexists|]. cbn [parts_bytes flat_map]. rewrite <- !app_assoc. by eexists. }
    assert (rest = CRLF ++ raw_of p ++ CRLF ++ delim_of b ++ u) as ->.
    { cbn [parts_bytes flat_map] in Heq. rewrite <- !app_assoc in Heq. apply app_inv_head in Heq as ->.
      by rewrite <- Hu. }
    cbn [parse_go]. rewrite starts_with_app. change (starts_with (lit "--") (CRLF ++ raw_of p ++ CRLF ++ delim_of b ++ u)) with false.
    change (drop 2 (CRLF ++ raw_of p ++ CRLF ++ delim_of b ++ u)) with (raw_of p ++ separator_of b ++ u).
    cbn [negb]. pose proof Hp as Hraw. unfold part_ok in Hraw. apply andb_true_iff in Hraw as [Hraw%negb_true_iff _].
    assert (find_sub (separator_of b) (raw_of p ++ separator_of b ++ u) = Some (length (raw_of p))) as ->.
    { by apply (find_sub_first (LF :: delim_of b)). }
    rewrite take_found, drop_found, (part_of_ok b) by done. rewrite (IH Hps fuel u); [done|cbn in Hf; lia|].
    by rewrite <- Hu.
Qed.

Lemma parts_bytes_length delim ps : (length ps <= length (parts_bytes delim ps))%nat.
Proof.
  induction ps as [|p ps IH]; [done|]. unfold parts_bytes in *. cbn [flat_map]. rewrite !length_app.
  change (length CRLF) with 2%nat. cbn [length]. lia.
Qed.

(** A rewritten body reads back part by part: a multipart value whose parts do
    not hold the delimiter -- what the adapters make of a parsed body -- is
    recovered exactly by parsing its serialization. *)
Theorem multipart_reads_back m : multipart_ok m = true -> parse (serialize m) (boundary m) = Some m.
Proof.
  unfold multipart_ok. rewrite !andb_true_iff, negb_true_iff. intros [[Hb Hpre] Hps].
  unfold parse. change (CRLF ++ lit "--" ++ boundary m) with (separator_of (boundary m)). cbv zeta.
  change (drop 2 (separator_of (boundary m))) with (delim_of (boundary m)).
  set (tail := parts_bytes (delim_of (boundary m)) (parts m) ++ delim_of (boundary m) ++ lit "--" ++ epilogue m).
  assert (exists u, tail = delim_of (boundary m) ++ u) as [u Hu].
  { unfold tail. destruct (parts m) as [|p' ps']; [by eexists|]. cbn [parts_bytes flat_map]. rewrite <- !app_assoc. by eexists. }
  assert (parse_go (S (length u)) (separator_of (boundary m)) u = Some (parts m, epilogue m)) as Hgo.
  { apply parse_go_parts; [done..| |by rewrite <- Hu]. apply (f_equal length) in Hu. unfold tail in Hu.
    rewrite !length_app in Hu. pose proof (parts_bytes_length (delim_of (boundary m)) (parts m)).
    change (length (lit "--")) with 2%nat in Hu. lia. }
  rewrite serialize_eq. fold tail. rewrite Hu. apply orb_true_iff in Hpre as [Hpre|Hpre].
  - apply bool_decide_eq_true in Hpre. rewrite Hpre. cbn [app]. rewrite starts_with_app.
    replace (length (separator_of (boundary m)) - 2)%nat with (length (delim_of (boundary m))) by (cbn; lia).
    rewrite drop_app_length, Hgo. by destruct m; cbn in Hpre |- *; subst.
  - cbn [existsb] in Hpre. rewrite orb_false_r, !andb_true_iff in Hpre.
    set (pre := take _ _) in Hpre. destruct Hpre as [[Hp%bool_decide_eq_true Hn%negb_true_iff] Hs%negb_true_iff].
    rewrite Hp. replace ((pre ++ CRLF) ++ delim_of (boundary m) ++ u) with (pre ++ separator_of (boundary m) ++ u)
      by (unfold separator_of; by rewrite <- !app_assoc).
    destruct (starts_with (delim_of (boundary m)) (pre ++ separator_of (boundary m) ++ u)) eqn:E.
    { exfalso. rewrite app_assoc in E. apply starts_with_split in E as [E|(q & Hq & Hne & _)]; [congruence|].
      apply (f_equal length) in Hq. rewrite !length_app in Hq. cbn in Hq. lia. }
    assert (find_sub (separator_of (boundary m)) (pre ++ separator_of (boundary m) ++ u) = Some (length pre)) as ->.
    { by apply (find_sub_first (LF :: delim_of (boundary m))). }
    rewrite drop_found, Hgo. destruct m as [b p ps e]. cbn [preamble boundary parts epilogue] in *. do 2 f_equal.
    rewrite Hp. unfold separator_of. rewrite <- (app_assoc CRLF), (app_assoc pre). change 2%nat with (length CRLF).
    rewrite <- length_app. apply take_app_length.
Qed.

Lemma multipart_reads_back_witness :
  let m := mk_multipart (lit "b") (lit "pre" ++ CRLF)
    [mk_part (Some (lit "Content-Type: text/plain")) (LAQUO :: lit "NAME_001" ++ [RAQUO]); mk_part None (lit "x")] CRLF in
  parse (serialize m) (lit "b") = Some m.
Proof. intros m. apply (multipart_reads_back m). vm_compute. reflexivity. Defined.

(** A boundary [parse_boundary] accepts is usable: it is non-empty, made of RFC
    2046 characters only -- so it holds no CR, as [multipart_reads_back]'s
    condition asks -- and does not end in a space. *)
Theorem parse_boundary_usable content_type media_type refuse b :
  parse_boundary content_type media_type refuse = Ok (Some b) ->
  b <> [] /\ forallb BCHARS b = true /\ list.last b <> Some 32 /\ mem_char CR b = false.
Proof.
  unfold parse_boundary. destruct (utf8_encode content_type) as [raw|]; [|done].
  destruct (existsb CONTROLS raw); [done|]. cbv zeta. destruct (negb _); [done|].
  destruct (parse_params _ _ _) as [ps|]; [|done]. destruct (existsb _ ps); [done|].
  destruct (existsb _ ps); [done|]. destruct (get_param ps _) as [p|]; [|done].
  destruct (utf8_encode (value p)) as [v|]; [|done]. destruct (_ || _) eqn:E; [done|]. intros [= <-].
  rewrite !orb_false_iff, negb_false_iff, !bool_decide_eq_false in E. destruct E as [[Hne Hb] Hl].
  split_and!; [done..|]. by eapply forallb_mem_char.
Qed.

Lemma parse_boundary_usable_witness :
  parse_boundary (lit "multipart/form-data; boundary=xY-1") (lit "multipart/form-data") [] = Ok (Some (lit "xY-1")) /\
  mem_char CR (lit "xY-1") = false.
Proof.
  split; [vm_compute; reflexivity|].
  apply (parse_boundary_usable (lit "multipart/form-data; boundary=xY-1") (lit "multipart/form-data") [] (lit "xY-1")).
  vm_compute. reflexivity.
Defined.

(** ** Values read back *)

Definition quote1 (c : Z) : pystr :=
  if c =? BACKSLASH then [BACKSLASH; BACKSLASH] else if c =? DQUOTE then [BACKSLASH; DQUOTE] else [c].

Lemma quote_cons c s : quote (c :: s) = quote1 c ++ quote s.
Proof.
  unfold quote, quote1, replace_char. cbn [flat_map]. rewrite flat_map_app.
  destruct (Z.eqb_spec c BACKSLASH) as [->|Hb]; [done|]. cbn [flat_map]. by destruct (c =? DQUOTE).
Qed.

Lemma quote_plain s : Forall (Z.le 128) s -> quote s = s.
Proof.
  induction 1 as [|c s Hc _ IH]; [done|]. rewrite quote_cons, IH. unfold quote1, BACKSLASH, DQUOTE.
  rewrite !(proj2 (Z.eqb_neq _ _)) by lia. done.
Qed.

Lemma quote_app s t : quote (s ++ t) = quote s ++ quote t.
Proof. unfold quote, replace_char. by rewrite !flat_map_app. Qed.

Lemma utf8_char_split c b : utf8_char c = Some b -> (c < 128 /\ b = [c]) \/ (128 <= c /\ Forall (Z.le 128) b).
Proof.
  intros H. pose proof (utf8_char_range _ _ H) as Hr. unfold utf8_char in H.
  destruct (between 0 127 c) eqn:E1; [apply between_spec in E1; simplify_eq; left; split; [lia|done]|].
  apply between_false in E1. right. split; [lia|].
  destruct (between 128 2047 c) eqn:E2; [apply between_spec in E2|apply between_false in E2].
  { simplify_eq. repeat constructor; Z.div_mod_to_equations; lia. }
  destruct (between 55296 57343 c) eqn:E3; [done|].
  destruct (between 2048 65535 c) eqn:E4; [apply between_spec in E4|apply between_false in E4].
  { simplify_eq. repeat constructor; Z.div_mod_to_equations; lia. }
  destruct (between 65536 1114111 c) eqn:E5; [apply between_spec in E5|done].
  simplify_eq. repeat constructor; Z.div_mod_to_equations; lia.
Qed.

(** Quoting commutes with UTF-8. *)
Lemma utf8_quote s b : utf8_encode s = Some b -> utf8_encode (quote s) = Some (quote b).
Proof.
  revert b. induction s as [|c s IH]; intros b H; cbn in H; [by injection H as <-|].
  destruct (utf8_char c) as [bc|] eqn:Ec; [|done]. destruct (utf8_encode s) as [bs|]; [|done]. injection H as <-.
  rewrite quote_cons, quote_app. apply utf8_encode_app; [|by apply IH].
  destruct (utf8_char_split _ _ Ec) as [[Hc ->]|[Hc Hb]].
  - rewrite quote_cons. unfold quote1. destruct (Z.eqb_spec c BACKSLASH) as [->|]; [done|].
    destruct (Z.eqb_spec c DQUOTE) as [->|]; [done|]. cbn. by rewrite Ec.
  - rewrite quote_plain by done. unfold quote1, BACKSLASH, DQUOTE.
    rewrite !(proj2 (Z.eqb_neq _ _)) by lia. cbn. by rewrite Ec, app_nil_r.
Qed.

Lemma utf8_encode_app_None s t : utf8_encode t = None -> utf8_encode (s ++ t) = None.
Proof. intros H. induction s as [|c s IH]; [done|]. cbn. rewrite IH. by destruct (utf8_char c). Qed.

Lemma utf8_quote_inv s q : utf8_encode (quote s) = Some q -> exists b, utf8_encode s = Some b /\ q = quote b.
Proof.
  intros H. destruct (utf8_encode s) as [b|] eqn:E.
  { apply utf8_quote in E. exists b. split; [done|congruence]. }
  enough (utf8_encode (quote s) = None) by congruence. clear H. induction s as [|c s IH]; [done|].
  cbn in E. rewrite quote_cons. destruct (utf8_char c) as [bc|] eqn:Ec.
  - apply utf8_encode_app_None, IH. by destruct (utf8_encode s).
  - unfold quote1. destruct (Z.eqb_spec c BACKSLASH) as [->|]; [done|].
    destruct (Z.eqb_spec c DQUOTE) as [->|]; [done|]. cbn. by rewrite Ec.
Qed.

Lemma nth_at {A} (pre : list A) x s d : nth (length pre) (pre ++ x :: s) d = x.
Proof. apply nth_middle. Qed.

Lemma nth_at_1 {A} (pre : list A) x y s d : nth (S (length pre)) (pre ++ x :: y :: s) d = y.
Proof.
  replace (S (length pre)) with (length (pre ++ [x])) by (rewrite length_app; cbn; lia).
  by rewrite (app_assoc pre [x] (y :: s) : pre ++ x :: y :: s = (pre ++ [x]) ++ y :: s), nth_middle.
Qed.

(** The quoted-string's loop reads back what [quote] wrote. *)
Lemma quoted_go_quote {E} b : forall fuel pre post end_,
  (length (quote b) < fuel)%nat -> (length pre + length (quote b) < end_)%nat ->
  @quoted_go E fuel (pre ++ quote b ++ DQUOTE :: post) (length pre) end_ = Ok (b, (length pre + length (quote b))%nat).
Proof.
  induction b as [|c b IH]; intros fuel pre post end_ Hf He; (destruct fuel as [|fuel]; [lia|]); cbn [quoted_go].
  - cbn [app quote replace_char flat_map] in *. rewrite nth_at. cbn in He. rewrite Z.eqb_refl, andb_false_r.
    rewrite (proj2 (Nat.eqb_neq _ _)) by lia. cbn. by rewrite Nat.add_0_r.
  - rewrite quote_cons in *. rewrite length_app in *. rewrite <- app_assoc.
    rewrite (proj2 (Nat.ltb_lt _ _)) by lia. cbn [andb].
    assert (forall x s, quote1 c = x :: s -> nth (length pre) (pre ++ quote1 c ++ quote b ++ DQUOTE :: post) 0 = x) as Hn.
    { intros x s ->. apply nth_at. }
    unfold quote1 in *. destruct (Z.eqb_spec c BACKSLASH) as [->|Hb].
    + rewrite (Hn _ _ eq_refl). cbn [negb]. change (BACKSLASH =? DQUOTE) with false. cbn [negb].
      rewrite Z.eqb_refl. cbn [app length] in *. rewrite nth_at_1, Z.eqb_refl, orb_true_r.
      rewrite (proj2 (Nat.eqb_neq _ _)) by lia. cbn [orb negb].
      specialize (IH fuel (pre ++ [BACKSLASH; BACKSLASH]) post end_). rewrite length_app in IH. cbn [length] in IH.
      rewrite <- app_assoc in IH. cbn [app] in IH.
      replace (S (S (length pre))) with (length pre + 2)%nat by lia. rewrite IH by lia. do 2 f_equal. lia.
    + destruct (Z.eqb_spec c DQUOTE) as [->|Hd].
      * rewrite (Hn _ _ eq_refl). change (BACKSLASH =? DQUOTE) with false. cbn [negb].
        rewrite Z.eqb_refl. cbn [app length] in *. rewrite nth_at_1, Z.eqb_refl.
        rewrite (proj2 (Nat.eqb_neq _ _)) by lia. cbn [orb negb].
        specialize (IH fuel (pre ++ [BACKSLASH; DQUOTE]) post end_). rewrite length_app in IH. cbn [length] in IH.
        rewrite <- app_assoc in IH. cbn [app] in IH.
        replace (S (S (length pre))) with (length pre + 2)%nat by lia. rewrite IH by lia. do 2 f_equal. lia.
      * rewrite (Hn _ _ eq_refl). apply Z.eqb_neq in Hb, Hd. rewrite Hb, Hd. cbn [negb app length] in *.
        specialize (IH fuel (pre ++ [c]) post end_). rewrite length_app in IH. cbn [length] in IH.
        rewrite <- app_assoc in IH. cbn [app] in IH.
        replace (S (length pre)) with (length pre + 1)%nat by lia. rewrite IH by lia. do 2 f_equal. lia.
Qed.

Lemma parse_value_quote {E} pre text b post end_ : utf8_encode text = Some b ->
  (length pre + length (quote b) + 1 < end_)%nat ->
  @parse_value E (pre ++ DQUOTE :: quote b ++ DQUOTE :: post) (length pre) end_ =
  Ok (mk_param text true (S (length pre)) (S (length pre) + length (quote b)), S (S (length pre) + length (quote b)))%nat.
Proof.
  intros Ht He. unfold parse_value. rewrite nth_at, (proj2 (Nat.ltb_lt _ _)), Z.eqb_refl by lia. cbn [andb].
  pose proof (@quoted_go_quote E b (S (end_ - length pre)) (pre ++ [DQUOTE]) post end_) as Hq.
  rewrite length_app in Hq. cbn [length] in Hq. rewrite <- app_assoc in Hq. cbn [app] in Hq.
  replace (length pre + 1)%nat with (S (length pre)) in Hq by lia. rewrite Hq by lia.
  unfold utf8. by rewrite (utf8_decode_encode _ _ Ht).
Qed.

Lemma quoted_go_span {E} fuel block end_ : forall i out i', @quoted_go E fuel block i end_ = Ok (out, i') ->
  (i <= end_)%nat -> (i <= i' < end_)%nat /\ nth i' block 0 = DQUOTE.
Proof.
  induction fuel as [|fuel IH]; intros i out i'; cbn [quoted_go]; [done|]. intros H Hi.
  destruct (Nat.ltb_spec i end_) as [Hlt|Hge]; cbn [andb] in H.
  - destruct (Z.eqb_spec (nth i block 0) DQUOTE) as [Hq|Hq]; cbn [negb] in H.
    + destruct (Nat.eqb_spec i end_); [done|]. injection H as _ <-. split; [lia|done].
    + destruct (nth i block 0 =? BACKSLASH).
      * destruct (Nat.eqb_spec (S i) end_); [done|]. cbn [orb] in H. destruct (negb _); [done|].
        destruct (quoted_go fuel block (S (S i)) end_) as [[o j]|] eqn:E1; [|done]. injection H as _ <-.
        apply IH in E1 as [? ?]; [|lia]. split; [lia|done].
      * destruct (quoted_go fuel block (S i) end_) as [[o j]|] eqn:E1; [|done]. injection H as _ <-.
        apply IH in E1 as [? ?]; [|lia]. split; [lia|done].
  - destruct (Nat.eqb_spec i end_); [done|lia].
Qed.

(** Where a quoted parameter's bytes lie: between two quotes of the block. *)
Definition quoted_at (block : pybytes) (p : Param) : Prop :=
  exists pre mid post, block = pre ++ DQUOTE :: mid ++ DQUOTE :: post /\
    p_start p = S (length pre) /\ p_end p = (S (length pre) + length mid)%nat.

Lemma nth_split_at (block : pybytes) i : (i < length block)%nat -> exists pre post,
  block = pre ++ nth i block 0 :: post /\ length pre = i.
Proof. intros H. destruct (nth_split block 0 H) as (pre & post & ? & ?). by exists pre, post. Qed.

Lemma parse_value_quoted {E} block pos end_ p next : @parse_value E block pos end_ = Ok (p, next) ->
  quoted p = true -> (end_ <= length block)%nat -> quoted_at block p.
Proof.
  unfold parse_value. intros H Hq He. destruct ((pos <? end_)%nat && _) eqn:Ec.
  2: { destruct (_ =? _)%nat; [done|]. destruct (utf8 _); [|done]. by injection H as <- <-. }
  apply andb_true_iff in Ec as [Hlt%Nat.ltb_lt Hd%Z.eqb_eq].
  destruct (quoted_go _ block (S pos) end_) as [[out i]|] eqn:Eq; [|done].
  destruct (utf8 out); [|done]. injection H as <- <-. apply quoted_go_span in Eq as [Hi Hn]; [|lia].
  destruct (nth_split_at block pos) as (pre & rest & Hb & Hl); [lia|]. rewrite Hd in Hb.
  destruct (nth_split_at rest (i - S pos)) as (mid & post & Hr & Hm).
  { apply (f_equal length) in Hb. rewrite length_app in Hb. cbn in Hb. lia. }
  exists pre, mid, post. cbn [p_start p_end]. split_and!; [|lia..]. rewrite Hb, Hr at 1.
  replace (nth (i - S pos) rest 0) with DQUOTE; [done|]. rewrite <- Hn, Hb, app_nth2 by lia.
  replace (i - length pre)%nat with (S (i - S pos)) by lia. done.
Qed.

Lemma params_go_from {E} (P : Param -> Prop) block end_ :
  (forall pos p next, @parse_value E block pos end_ = Ok (p, next) -> P p) ->
  forall fuel pos acc ps, @params_go E fuel block pos end_ acc = Ok ps ->
  Forall (fun kv => P kv.2) acc -> Forall (fun kv => P kv.2) ps.
Proof.
  intros HP. induction fuel as [|fuel IH]; intros pos acc ps H Hacc; cbn [params_go] in H; [by injection H as <-|].
  destruct (negb _); [by injection H as <-|]. cbv zeta in H. destruct (_ =? end_)%nat; [by injection H as <-|].
  destruct (_ || _); [done|]. destruct (parse_value _ _ _) as [[p next]|] eqn:Ep; [|done].
  destruct (get_param acc _); [done|]. destruct (_ && _); [done|]. apply IH in H; [done|].
  apply Forall_app. split; [done|]. constructor; [by eapply HP|constructor].
Qed.

Lemma get_param_in ps key p : get_param ps key = Some p -> (key, p) ∈ ps.
Proof.
  induction ps as [|[k v] ps IH]; cbn; [done|]. destruct (decide (k = key)) as [->|]; intros H; simplify_eq; set_solver.
Qed.

Lemma field_go_bounds {E} name block lines : forall pos found a b,
  @field_go E name block lines pos found = Ok (Some (a, b)) ->
  (forall x y, found = Some (x, y) -> (y <= length block)%nat) ->
  (length (concat (map (fun l => l ++ CRLF) lines)) + pos <= length block + 2)%nat -> (b <= length block)%nat.
Proof.
  induction lines as [|line lines IH]; intros pos found a b H Hf Hl; cbn [field_go] in H.
  { injection H as ->. by eapply Hf. }
  destruct (partition1 58 line) as [[key colon] rest]. destruct (_ || _); [done|]. destruct (existsb _ _); [done|].
  cbn [map concat] in Hl. rewrite !length_app in Hl. change (length CRLF) with 2%nat in Hl. cbv zeta in H.
  assert (forall f s, retreat OWS f block s (pos + length line) <= pos + length line)%nat as Hret.
  { intros f s. generalize (pos + length line)%nat. induction f as [|f IHf]; intros e; cbn [retreat]; [lia|].
    destruct (_ && _); [|lia]. specialize (IHf (e - 1)%nat). lia. }
  destruct (decide _); [destruct found; [done|]|].
  - eapply IH; [exact H| |lia]. intros x y [= _ <-].
    specialize (Hret (pos + length line)%nat (skip_ows block (pos + length key + 1) (pos + length line))). lia.
  - eapply IH; [exact H|exact Hf|lia].
Qed.

Lemma split_sub_length fuel sep s : (length (concat (map (fun l => l ++ sep) (split_sub_go fuel sep s))) = length s + length sep)%nat.
Proof.
  revert s. induction fuel as [|fuel IH]; intros s; cbn [split_sub_go].
  - destruct (find_sub sep s); cbn; rewrite app_nil_r, length_app; lia.
  - destruct (find_sub sep s) as [n|] eqn:E; [|cbn; rewrite app_nil_r, length_app; lia].
    apply find_sub_Some in E as (a & b & -> & <-). cbn [map concat]. rewrite length_app, IH, drop_found, take_found.
    rewrite !length_app. lia.
Qed.

Lemma field_bounds {E} part name block a b : @field E part name = Ok (Some (block, a, b)) ->
  headers part = Some block /\ (b <= length block)%nat.
Proof.
  unfold field. destruct (headers part) as [blk|]; [|done].
  destruct (field_go name blk (split_sub CRLF blk) 0 None) as [[[x y]|]|] eqn:E1; [|done..]. intros [= <- <- <-].
  split; [done|]. eapply field_go_bounds; [exact E1|done|]. unfold split_sub. rewrite split_sub_length.
  change (length CRLF) with 2%nat. lia.
Qed.

(** Redacting an upload's file name rewrites the name and nothing else: where
    [redact_filenames] changes a quoted [filename], the header block's bytes in
    front of the value and behind it stay as they were, the content stays, and
    the new block reads back, at the same place, as exactly what [redact] made
    of the name -- quotes and backslashes in it included. *)
Theorem filename_redacted {St E} (redact : pystr -> M St E pystr) part strict s changed part' s' ps p block :
  redact_filenames redact part strict s = (Ok (changed, part'), s') ->
  headers part = Some block -> @params E part (lit "content-disposition") = Ok (Some ps) ->
  get_param ps (lit "filename") = Some p -> get_param ps (lit "filename*") = None -> quoted p = true ->
  content part' = content part /\
  exists new, redact (value p) s = (Ok new, s') /\ (changed = false <-> new = value p) /\
  (changed = false -> headers part' = Some block) /\
  (changed = true -> exists raw block', utf8_encode new = Some raw /\ headers part' = Some block' /\
    take (p_start p) block' = take (p_start p) block /\
    drop (p_start p + length (quote raw)) block' = drop (p_end p) block /\
    exists next, @parse_value E block' (p_start p - 1) (length block') =
      Ok (mk_param new true (p_start p) (p_start p + length (quote raw)), next)).
Proof.
  intros Hr Hb Hps Hp Hext Hq.
  assert (quoted_at block p) as (pre & mid & post & Hblock & Hs & He).
  { unfold params in Hps. destruct (field part _) as [[[[blk a] b]|]|] eqn:Ef; [|done..].
    apply field_bounds in Ef as [Hb' Hbound]. rewrite Hb in Hb'. injection Hb' as <-.
    destruct (parse_params block a b) as [ps'|] eqn:Epp; [|done]. injection Hps as <-.
    unfold parse_params in Epp. cbv zeta in Epp.
    eapply (params_go_from (fun p => quoted p = true -> quoted_at block p)) in Epp; [| |constructor].
    - rewrite list.Forall_forall in Epp. specialize (Epp _ (get_param_in _ _ _ Hp)). by apply Epp.
    - intros pos q next Hv Hqq. by eapply parse_value_quoted. }
  unfold redact_filenames, read_disposition in Hr. rewrite Hb, Hps in Hr.
  change (default [] (Some ps)) with ps in Hr.
  rewrite Hext in Hr. unfold mbnd, edit_plain, edit_ext, call in Hr. rewrite Hp in Hr. unfold mbnd in Hr.
  destruct (redact (value p) s) as [[new|e] s1] eqn:Er; [|done].
  destruct (decide (new = value p)) as [->|Hne]; unfold mret in Hr.
  { cbn in Hr. injection Hr as <- <- <-. split; [done|]. exists (value p). split_and!; done. }
  rewrite Hq in Hr. unfold encode in Hr. destruct (utf8_encode (quote new)) as [q|] eqn:Eq; [|done].
  unfold mret in Hr. cbn [app fold_left sort_by fold_right insert_by] in Hr. injection Hr as <- <- <-.
  split; [done|]. exists new. split_and!; [done|by split|done|]. intros _.
  apply utf8_quote_inv in Eq as (raw & En & ->). exists raw, (take (p_start p) block ++ quote raw ++ drop (p_end p) block).
  assert (take (p_start p) block = pre ++ [DQUOTE]) as Htake.
  { rewrite Hs, Hblock. change (DQUOTE :: mid ++ DQUOTE :: post) with ([DQUOTE] ++ mid ++ DQUOTE :: post).
    rewrite app_assoc. apply take_app_length'. rewrite length_app. cbn. lia. }
  assert (drop (p_end p) block = DQUOTE :: post) as Hdrop.
  { rewrite He, Hblock. change (DQUOTE :: mid ++ DQUOTE :: post) with ([DQUOTE] ++ mid ++ DQUOTE :: post).
    rewrite !app_assoc. apply drop_app_length'. rewrite !length_app. cbn. lia. }
  rewrite Htake, Hdrop, <- app_assoc. cbn [app]. split_and!; [done|done|..].
  - rewrite Hs. change (DQUOTE :: quote raw ++ DQUOTE :: post) with ([DQUOTE] ++ quote raw ++ DQUOTE :: post).
    rewrite app_assoc. apply take_app_length'. rewrite length_app. cbn. lia.
  - rewrite Hs. change (DQUOTE :: quote raw ++ DQUOTE :: post) with ([DQUOTE] ++ quote raw ++ DQUOTE :: post).
    rewrite !app_assoc. apply drop_app_length'. rewrite !length_app. cbn. lia.
  - eexists. rewrite Hs. replace (S (length pre) - 1)%nat with (length pre) by lia.
    apply parse_value_quote; [done|]. rewrite !length_app. cbn. rewrite length_app. cbn. lia.
Qed.

(** The name a redactor would write: [Aurora] under a token. *)
Definition demo_redact (text : pystr) : M unit Empty_set pystr := mret (LAQUO :: lit "DENY_001" ++ [RAQUO]).

Lemma filename_redacted_witness :
  let name_bytes := lit "a" ++ [BACKSLASH; DQUOTE] ++ lit "b.jsonl" in
  let block := lit "Content-Disposition: form-data; name=f; filename=" ++ [DQUOTE] ++ name_bytes ++ [DQUOTE] in
  let part := mk_part (Some block) (lit "{}") in
  let r := redact_filenames demo_redact part true tt in
  match r.1, @params Empty_set part (lit "content-disposition") with
  | Ok (changed, part'), Ok (Some ps) =>
      match get_param ps (lit "filename") with
      | Some p => changed = true /\ content part' = lit "{}" /\
          exists new, demo_redact (value p) tt = (Ok new, tt) /\ (changed = false <-> new = value p)
      | None => False
      end
  | _, _ => False
  end.
Proof.
  intros name_bytes block part r.
  destruct r as [[[changed part']|] []] eqn:Er; [|vm_compute in Er; congruence].
  destruct (@params Empty_set part (lit "content-disposition")) as [[ps|]|] eqn:Ep;
    [|vm_compute in Ep; congruence..].
  destruct (get_param ps (lit "filename")) as [p|] eqn:Eg;
    [|vm_compute in Ep; injection Ep as <-; vm_compute in Eg; congruence].
  destruct (filename_redacted demo_redact part true tt changed part' tt ps p block) as (Hc & new & Hn & Hch & _).
  - exact Er.
  - reflexivity.
  - exact Ep.
  - exact Eg.
  - vm_compute in Ep. injection Ep as <-. reflexivity.
  - vm_compute in Ep. injection Ep as <-. vm_compute in Eg. injection Eg as <-. reflexivity.
  - cbn [fst]. split; [|split; [exact Hc|exists new; split; [exact Hn|exact Hch]]].
    vm_compute in Er. injection Er as <- _. reflexivity.
Defined.

(** *** Extended values *)

Lemma hex_ok d : 0 <= d < 16 -> HEX (hex_upper d) = true /\ hex_value (hex_upper d) = d.
Proof.
  intros Hd. unfold hex_upper, HEX, hex_value, is_09. destruct (Z.ltb_spec d 10).
  - rewrite (proj2 (between_spec 48 57 _)) by lia. split; [done|lia].
  - rewrite (proj2 (between_false 48 57 _)), (proj2 (between_spec 65 70 _)) by lia. split; [done|lia].
Qed.

Lemma hex_ascii d : 0 <= d < 16 -> 0 <= hex_upper d < 128.
Proof. unfold hex_upper. destruct (Z.ltb_spec d 10); lia. Qed.

Lemma attr_not_percent c : ATTR_CHAR c = true -> (c =? 37) = false.
Proof. destruct (Z.eqb_spec c 37) as [->|]; [by vm_compute|done]. Qed.

Lemma ext_decode_encode {E} data : Forall (fun b => 0 <= b < 256) data -> @ext_decode E (ext_encode data) = Ok data.
Proof.
  induction 1 as [|b data Hb _ IH]; [done|]. unfold ext_encode in *. cbn [flat_map].
  destruct (ATTR_CHAR b) eqn:Ea; cbn [app ext_decode].
  - rewrite Ea, IH, (attr_not_percent _ Ea). cbn [andb]. destruct (flat_map _ data) as [|h [|l rest]]; done.
  - destruct (hex_ok (b / 16)) as [H1 V1]; [Z.div_mod_to_equations; lia|].
    destruct (hex_ok (b mod 16)) as [H2 V2]; [Z.div_mod_to_equations; lia|].
    rewrite Z.eqb_refl, H1, H2, V1, V2, IH. cbn [andb]. do 2 f_equal. Z.div_mod_to_equations. lia.
Qed.

Lemma attr_ascii c : ATTR_CHAR c = true -> 0 <= c < 128.
Proof.
  unfold ATTR_CHAR, ALNUM, is_09, is_AZ, is_az, between. rewrite !orb_true_iff, !andb_true_iff, !Z.leb_le.
  intros [[[?|?]|?]|H]; try lia. unfold in_lit, mem_char in H.
  match type of H with context [lit ?s] => let l := eval vm_compute in (lit s) in change (lit s) with l in H end.
  cbn [existsb] in H. rewrite !orb_true_iff, !Z.eqb_eq in H. intuition lia.
Qed.

Lemma utf8_ascii s : Forall (fun c => 0 <= c < 128) s -> utf8_encode s = Some s.
Proof.
  induction 1 as [|c s Hc _ IH]; [done|]. cbn. rewrite IH. unfold utf8_char.
  by rewrite (proj2 (between_spec _ _ _)) by lia.
Qed.

Lemma ext_encode_ascii data : Forall (fun b => 0 <= b < 256) data -> Forall (fun c => 0 <= c < 128) (ext_encode data).
Proof.
  induction 1 as [|b data Hb _ IH]; [constructor|]. unfold ext_encode in *. cbn [flat_map]. apply Forall_app.
  split; [|done]. destruct (ATTR_CHAR b) eqn:Ea; [by apply Forall_singleton, attr_ascii|].
  apply list.Forall_cons. split; [lia|]. apply list.Forall_cons.
  split; [|apply Forall_singleton]; apply hex_ascii; Z.div_mod_to_equations; lia.
Qed.

Lemma partition1_found c s t : mem_char c s = false -> partition1 c (s ++ c :: t) = (s, true, t).
Proof.
  intros H. unfold partition1. assert (find_char c (s ++ c :: t) = Some (length s)) as ->.
  { induction s as [|x s IH]; cbn; [by rewrite Z.eqb_refl|]. rewrite mem_char_cons in H.
    apply orb_false_iff in H as [Hx Hs]. rewrite Z.eqb_sym in Hx. by rewrite Hx, IH. }
  rewrite take_app_length. replace (S (length s)) with (length (s ++ [c])) by (rewrite length_app; cbn; lia).
  replace (s ++ c :: t) with ((s ++ [c]) ++ t) by (by rewrite <- app_assoc). by rewrite drop_app_length.
Qed.

(** An RFC 8187 [filename*] reads back: for any bytes -- the UTF-8 of any redacted
    name -- the value [redact_filenames] writes is read by [_ext_value] as the same
    charset, language and bytes. *)
Theorem ext_value_round_trip charset language data a b : charset <> [] ->
  mem_char 39 charset = false -> mem_char 39 language = false -> Forall (fun b => 0 <= b < 256) data ->
  @ext_value Empty_set (mk_param (charset ++ [39] ++ language ++ [39] ++ ext_encode data) false a b) =
  Ok (charset, language, data).
Proof.
  intros Hne Hc Hl Hd. unfold ext_value. cbn [value quoted app].
  rewrite partition1_found, partition1_found by done. cbn [orb negb]. rewrite bool_decide_eq_false_2 by done. cbn [orb].
  rewrite utf8_ascii by (by apply ext_encode_ascii). by rewrite ext_decode_encode.
Qed.

Lemma ext_value_round_trip_witness :
  @ext_value Empty_set (mk_param (lit "UTF-8''%C2%ABDENY_001%C2%BB.txt") false 0 0) =
  Ok (lit "UTF-8", [], [194; 171] ++ lit "DENY_001" ++ [194; 187] ++ lit ".txt").
Proof.
  apply (ext_value_round_trip (lit "UTF-8") [] ([194; 171] ++ lit "DENY_001" ++ [194; 187] ++ lit ".txt") 0 0);
    [done|reflexivity..|].
  repeat constructor; lia.
Defined.
