(* ===== verification/Checksums.v ===== *)
(** * Checksum validators -- src/llm_redact/detection/regex_rules.py, validators.py

    A validator maps the text a rule's pattern matched ([match.group(0)]) to a
    verdict, or raises where the source would: [int()] of a character that is no
    decimal digit, an index past the end, a missing table key.  Where the source
    converts a run of characters with one [int()] call, the run is digits by the
    rule's pattern; anything else raises here. *)

From S2P Require Import Prelude.

Inductive py_exc : Type := ValueError | IndexError | KeyError.

Definition res (A : Type) : Type := result py_exc A.

Definition rbind {A B} (m : res A) (f : A -> res B) : res B :=
  match m with Ok a => f a | Raise e => Raise e end.

Declare Scope res_scope.
Notation "x <- m ; k" := (rbind m (fun x => k)) (at level 100, m at next level, right associativity) : res_scope.
Local Open Scope res_scope.

(** ** Characters and digits *)

(** [str.isdigit] of a character that is no decimal digit: superscripts, circled
    digits and the like (Unicode 14.0, the table of CPython 3.11). *)
Definition other_digits : list (Z * Z) :=
  [(178, 179); (185, 185); (4969, 4977); (6618, 6618); (8304, 8304); (8308, 8313); (8320, 8329);
   (9312, 9320); (9332, 9340); (9352, 9360); (9450, 9450); (9461, 9469); (9471, 9471);
   (10102, 10110); (10112, 10120); (10122, 10130); (68160, 68163); (69216, 69224);
   (69714, 69722); (127232, 127242)].

Definition isdigit (c : Z) : bool := is_nd c || existsb (fun r => between r.1 r.2 c) other_digits.

(** [int(c)] of one character and [int(s)] of a run of digits. *)
Definition int1 (c : Z) : res Z := if is_nd c then Ok (nd_value c) else Raise ValueError.

Definition int_of (s : pystr) : res Z :=
  match s with [] => Raise ValueError | _ => if forallb is_nd s then Ok (int_of_digits s) else Raise ValueError end.

(** [[int(c) for c in s]] *)
Fixpoint ints (s : pystr) : res (list Z) :=
  match s with
  | [] => Ok []
  | c :: s => d <- int1 c; ds <- ints s; Ok (d :: ds)
  end.

(** [s[i]] of a non-negative index. *)
Definition at_ {A} (s : list A) (i : nat) : res A :=
  match s !! i with Some c => Ok c | None => Raise IndexError end.

(** [re.sub("[...]", "", s)] and [s.replace(c, "")]. *)
Definition without (seps : pystr) (s : pystr) : pystr := List.filter (fun c => negb (mem_char c seps)) s.

(** [fold_digits]: every decimal digit as its ASCII digit. *)
Definition fold_digits (text : pystr) : pystr := map (fun c => if is_nd c then 48 + nd_value c else c) text.

(** [sum(w * d for w, d in zip(...))] *)
Definition dot (ws ds : list Z) : Z := fold_right Z.add 0 (zip_with Z.mul ws ds).

(** [zip(..., strict=True)]: raises when the lengths differ. *)
Definition dot_strict (ws ds : list Z) : res Z :=
  if (length ws =? length ds)%nat then Ok (dot ws ds) else Raise ValueError.

(** [range(a, b, -1)] *)
Definition down_from (a : Z) (n : nat) : list Z := map (fun i => a - Z.of_nat i) (seq 0 n).

(** ** Luhn *)

(** One digit's share: every second digit from the right is doubled. *)
Definition luhn_digit (odd : bool) (d : Z) : Z :=
  if odd then (if 9 <? d * 2 then d * 2 - 9 else d * 2) else d.

Fixpoint luhn_sum (odd : bool) (rev_digits : list Z) : Z :=
  match rev_digits with
  | [] => 0
  | d :: ds => luhn_digit odd d + luhn_sum (negb odd) ds
  end.

Definition luhn_checksum (digits : list Z) : Z := luhn_sum false (rev digits) mod 10.

Definition luhn_ok (group0 : pystr) : res bool :=
  digits <- ints (without (lit " -") group0);
  Ok (if negb ((13 <=? length digits) && (length digits <=? 19))%nat then false
      else if negb (existsb (fun d => negb (d =? 0)) digits) then false
      else luhn_checksum digits =? 0).

Definition sin_ok (group0 : pystr) : res bool :=
  digits <- ints (without (lit " -") group0);
  first <- at_ digits 0;
  Ok (if first =? 8 then false else luhn_checksum digits =? 0).

(** ** Verhoeff *)

Definition VERHOEFF_D : list (list Z) :=
  [[0; 1; 2; 3; 4; 5; 6; 7; 8; 9]; [1; 2; 3; 4; 0; 6; 7; 8; 9; 5]; [2; 3; 4; 0; 1; 7; 8; 9; 5; 6];
   [3; 4; 0; 1; 2; 8; 9; 5; 6; 7]; [4; 0; 1; 2; 3; 9; 5; 6; 7; 8]; [5; 9; 8; 7; 6; 0; 4; 3; 2; 1];
   [6; 5; 9; 8; 7; 1; 0; 4; 3; 2]; [7; 6; 5; 9; 8; 2; 1; 0; 4; 3]; [8; 7; 6; 5; 9; 3; 2; 1; 0; 4];
   [9; 8; 7; 6; 5; 4; 3; 2; 1; 0]].

Definition VERHOEFF_P : list (list Z) :=
  [[0; 1; 2; 3; 4; 5; 6; 7; 8; 9]; [1; 5; 7; 6; 2; 8; 3; 0; 9; 4]; [5; 8; 0; 3; 7; 9; 6; 1; 4; 2];
   [8; 9; 1; 6; 0; 4; 3; 5; 2; 7]; [9; 4; 5; 3; 1; 2; 6; 8; 7; 0]; [4; 2; 8; 6; 5; 7; 3; 9; 0; 1];
   [2; 7; 9; 3; 8; 0; 6; 4; 1; 5]; [7; 0; 4; 6; 9; 1; 3; 2; 5; 8]].

Definition table (t : list (list Z)) (i j : Z) : Z := nth (Z.to_nat j) (nth (Z.to_nat i) t []) 0.

(** The loop over the reversed digits, from index [i] on. *)
Fixpoint verhoeff_go (i : nat) (checksum : Z) (rev_digits : list Z) : Z :=
  match rev_digits with
  | [] => checksum
  | d :: ds =>
      verhoeff_go (S i) (table VERHOEFF_D checksum (table VERHOEFF_P (Z.of_nat (i mod 8)) d)) ds
  end.

Definition verhoeff_checksum (digits : list Z) : Z := verhoeff_go 0 0 (rev digits).

Definition aadhaar_ok (group0 : pystr) : res bool :=
  digits <- ints (without (lit " -") group0);
  Ok (verhoeff_checksum digits =? 0).

(** ** The named validators of custom rules (validators.py) *)

(** [[int(c) for c in match.group(0) if c.isdigit()]] *)
Definition digits_of (group0 : pystr) : res (list Z) := ints (List.filter isdigit group0).

Definition luhn (group0 : pystr) : res bool :=
  digits <- digits_of group0;
  Ok ((2 <=? length digits)%nat && existsb (fun d => negb (d =? 0)) digits && (luhn_checksum digits =? 0)).

Definition verhoeff (group0 : pystr) : res bool :=
  digits <- digits_of group0;
  Ok (match digits with [] => false | _ => verhoeff_checksum digits =? 0 end).

(** ** National identifiers *)

Definition NINO_INVALID_PREFIXES : list pystr :=
  [lit "BG"; lit "GB"; lit "NK"; lit "KN"; lit "TN"; lit "NT"; lit "ZZ"].

Definition nino_ok (group0 : pystr) : res bool :=
  Ok (negb (bool_decide (take 2 (without (lit " ") group0) ∈ NINO_INVALID_PREFIXES))).

Definition TFN_WEIGHTS : list Z := [1; 4; 3; 7; 5; 8; 6; 9; 10].

Definition tfn_ok (group0 : pystr) : res bool :=
  digits <- ints (without (lit " -") group0);
  total <- dot_strict TFN_WEIGHTS digits;
  Ok (total mod 11 =? 0).

Definition DNI_LETTERS : pystr := lit "TRWAGMYFPDXBNJZSQVHLCKE".

(** [value[:-1]] and [value[-1]] *)
Definition split_last (value : pystr) : res (pystr * Z) :=
  match rev value with
  | [] => Raise IndexError
  | c :: body => Ok (rev body, c)
  end.

Definition dni_ok (group0 : pystr) : res bool :=
  parts <- split_last (without (lit "-") group0);
  let '(body, letter) := parts in
  first <- at_ body 0;
  let body :=
    if first =? 88 then 48 :: drop 1 body else if first =? 89 then 49 :: drop 1 body
    else if first =? 90 then 50 :: drop 1 body else body in
  n <- int_of body;
  expected <- at_ DNI_LETTERS (Z.to_nat (n mod 23));
  Ok (expected =? letter).

Definition replace1 (a b : Z) (s : pystr) : pystr := map (fun c => if c =? a then b else c) s.

Definition nir_ok (group0 : pystr) : res bool :=
  let value := without (lit " ") group0 in
  let body := take (length value - 2) value in
  let key := drop (length value - 2) value in
  number <- (if mem_char 65 body then n <- int_of (replace1 65 48 body); Ok (n - 1000000)
             else if mem_char 66 body then n <- int_of (replace1 66 48 body); Ok (n - 2000000)
             else int_of body);
  k <- int_of key;
  Ok (k =? 97 - number mod 97).

Definition cpf_ok (group0 : pystr) : res bool :=
  digits <- ints (without (lit ".-") group0);
  if (length (remove_dups (take 9 digits)) =? 1)%nat then Ok false
  else
    t9 <- dot_strict (down_from 10 9) (take 9 digits);
    d9 <- at_ digits 9;
    if negb (t9 * 10 mod 11 mod 10 =? d9) then Ok false
    else
      t10 <- dot_strict (down_from 11 10) (take 10 digits);
      d10 <- at_ digits 10;
      Ok (t10 * 10 mod 11 mod 10 =? d10).

(** [_CF_ODD], by character. *)
Definition CF_ODD (c : Z) : res Z :=
  let values := [1; 0; 5; 7; 9; 13; 15; 17; 19; 21] in
  let letters := values ++ [2; 4; 18; 20; 11; 3; 6; 8; 12; 14; 16; 10; 22; 25; 24; 23] in
  if is_09 c then Ok (nth (Z.to_nat (c - 48)) values 0)
  else if is_AZ c then Ok (nth (Z.to_nat (c - 65)) letters 0) else Raise KeyError.

Definition cf_even (c : Z) : res Z := if isdigit c then int1 c else Ok (c - 65).

Fixpoint cf_total (even : bool) (s : pystr) : res Z :=
  match s with
  | [] => Ok 0
  | c :: s =>
      v <- (if even then CF_ODD c else cf_even c);
      rest <- cf_total (negb even) s;
      Ok (v + rest)
  end.

Definition codice_fiscale_ok (group0 : pystr) : res bool :=
  let value := fold_digits group0 in
  day <- int_of (take 2 (drop 9 value));
  if negb (between 1 31 day || between 41 71 day) then Ok false
  else
    total <- cf_total true (take 15 value);
    check <- at_ value 15;
    Ok (total mod 26 + 65 =? check).

Definition ahv_ok (group0 : pystr) : res bool :=
  digits <- ints (without (lit ".") group0);
  let total := dot (map (fun i => if Nat.even i then 1 else 3) (seq 0 12)) (take 12 digits) in
  check <- at_ digits 12;
  Ok ((10 - total mod 10) mod 10 =? check).

Fixpoint personnummer_sum (even : bool) (digits : list Z) : Z :=
  match digits with
  | [] => 0
  | d :: ds => luhn_digit even d + personnummer_sum (negb even) ds
  end.

Definition personnummer_ok (group0 : pystr) : res bool :=
  digits <- ints (List.filter isdigit group0);
  d2 <- at_ digits 2; d3 <- at_ digits 3; d4 <- at_ digits 4; d5 <- at_ digits 5;
  let month := d2 * 10 + d3 in
  let day := d4 * 10 + d5 in
  Ok (if negb (between 1 12 month && (between 1 31 day || between 61 91 day)) then false
      else personnummer_sum true digits mod 10 =? 0).

Definition belgian_nn_ok (group0 : pystr) : res bool :=
  let value := without (lit ".-") group0 in
  let body := take 9 value in
  check <- int_of (drop 9 value);
  month <- int_of (take 2 (drop 2 body));
  day <- int_of (take 2 (drop 4 body));
  if negb (between 0 12 month && between 0 31 day) then Ok false
  else
    n <- int_of body;
    if check =? 97 - n mod 97 then Ok true
    else n2 <- int_of (50 :: body); Ok (check =? 97 - n2 mod 97).

Definition HETU_CHECK : pystr := lit "0123456789ABCDEFHJKLMNPRSTUVWXY".
Definition HETU_CENTURY : pystr := lit "+-YXWVUABCDEF".

Definition hetu_ok (group0 : pystr) : res bool :=
  sign <- at_ group0 6;
  check <- at_ group0 10;
  if negb (mem_char sign HETU_CENTURY) then Ok false
  else
    day <- int_of (take 2 group0);
    month <- int_of (take 2 (drop 2 group0));
    if negb (between 1 31 day && between 1 12 month) then Ok false
    else
      n <- int_of (take 6 group0 ++ take 3 (drop 7 group0));
      expected <- at_ HETU_CHECK (Z.to_nat (n mod 31));
      Ok (expected =? check).

(** [11 - r], folded as the mod-11 families fold it: 11 becomes 0. *)
Definition control11 (total : Z) : Z := let c := 11 - total mod 11 in if c =? 11 then 0 else c.

Definition nhs_ok (group0 : pystr) : res bool :=
  let digits := without (lit " ") group0 in
  body <- ints (take 9 digits);
  let check := control11 (dot (down_from 10 9) body) in
  if check =? 10 then Ok false
  else
    c <- at_ digits 9; d <- int1 c;
    Ok (check =? d).

Definition FNR_K1 : list Z := [3; 7; 6; 1; 8; 9; 4; 5; 2].
Definition FNR_K2 : list Z := [5; 4; 3; 2; 7; 6; 5; 4; 3; 2].

(** [sum(int(digits[i]) * ws[i] for i in range(len(ws)))] *)
Fixpoint indexed_sum (ws : list Z) (s : pystr) : res Z :=
  match ws with
  | [] => Ok 0
  | w :: ws =>
      c <- at_ s 0; d <- int1 c;
      rest <- indexed_sum ws (drop 1 s);
      Ok (d * w + rest)
  end.

Definition norwegian_fnr_ok (group0 : pystr) : res bool :=
  let digits := List.filter is_nd group0 in
  t1 <- indexed_sum FNR_K1 digits;
  let k1 := control11 t1 in
  if k1 =? 10 then Ok false
  else
    c9 <- at_ digits 9; d9 <- int1 c9;
    if negb (k1 =? d9) then Ok false
    else
      t2 <- indexed_sum FNR_K2 digits;
      let k2 := control11 t2 in
      if k2 =? 10 then Ok false
      else c10 <- at_ digits 10; d10 <- int1 c10; Ok (k2 =? d10).

Definition RRN_W : list Z := [2; 3; 4; 5; 6; 7; 8; 9; 2; 3; 4; 5].

Definition rrn_ok (group0 : pystr) : res bool :=
  let digits := take 6 group0 ++ drop 7 group0 in
  month <- int_of (take 2 (drop 2 digits));
  day <- int_of (take 2 (drop 4 digits));
  if negb (between 1 12 month && between 1 31 day) then Ok false
  else
    g <- at_ digits 6;
    if negb (mem_char g (lit "12345678")) then Ok false
    else
      total <- indexed_sum RRN_W digits;
      c <- at_ digits 12; d <- int1 c;
      Ok ((11 - total mod 11) mod 10 =? d).

Definition NRIC_W : list Z := [2; 7; 6; 5; 4; 3; 2].
Definition NRIC_ST : pystr := lit "JZIHGFEDCBA".
Definition NRIC_FG : pystr := lit "XWUTRQPNMLK".

Definition nric_ok (group0 : pystr) : res bool :=
  prefix <- at_ group0 0;
  check <- at_ group0 8;
  total <- indexed_sum NRIC_W (take 7 (drop 1 group0));
  let total := if mem_char prefix (lit "TG") then total + 4 else total in
  expected <- at_ (if mem_char prefix (lit "ST") then NRIC_ST else NRIC_FG) (Z.to_nat (total mod 11));
  Ok (expected =? check).

(** [tuple(pow(2, 17 - i, 11) for i in range(17))] *)
Definition CN_ID_W : list Z := map (fun i => 2 ^ (17 - Z.of_nat i) mod 11) (seq 0 17).
Definition CN_ID_CHECK : pystr := lit "10X98765432".
Definition CN_ID_PROVINCES : list Z :=
  [11; 12; 13; 14; 15; 21; 22; 23; 31; 32; 33; 34; 35; 36; 37; 41; 42; 43; 44; 45; 46; 50; 51; 52; 53; 54;
   61; 62; 63; 64; 65; 71; 81; 82].

(** [datetime.date(y, m, d)] does not raise. *)
Definition leap (y : Z) : bool := (y mod 4 =? 0) && (negb (y mod 100 =? 0) || (y mod 400 =? 0)).
Definition month_days (y m : Z) : Z :=
  if m =? 2 then (if leap y then 29 else 28)
  else if (m =? 4) || (m =? 6) || (m =? 9) || (m =? 11) then 30 else 31.
Definition real_date (y m d : Z) : bool := between 1 9999 y && between 1 12 m && between 1 (month_days y m) d.

(** [str.upper] on what the rule's pattern matches: digits and a final X. *)
Definition cn_resident_ok (group0 : pystr) : res bool :=
  let value := map ascii_upper group0 in
  province <- int_of (take 2 value);
  if negb (bool_decide (province ∈ CN_ID_PROVINCES)) then Ok false
  else
    match (y <- int_of (take 4 (drop 6 value)); m <- int_of (take 2 (drop 10 value));
           d <- int_of (take 2 (drop 12 value)); Ok (real_date y m d)) with
    | Raise ValueError => Ok false
    | Raise e => Raise e
    | Ok false => Ok false
    | Ok true =>
        total <- indexed_sum CN_ID_W value;
        expected <- at_ CN_ID_CHECK (Z.to_nat (total mod 11));
        check <- at_ value 17;
        Ok (expected =? check)
    end.

(** The weights of [zip(range(11, 0, -1), body)]. *)
Definition my_number_weights : list Z := map (fun m => if m <=? 6 then m + 1 else m - 5) (down_from 11 11).

Definition my_number_ok (group0 : pystr) : res bool :=
  digits <- ints (without (lit " -") group0);
  check <- at_ digits 11;
  total <- dot_strict my_number_weights (take 11 digits);
  let remainder := total mod 11 in
  Ok (check =? (if remainder <=? 1 then 0 else 11 - remainder)).

Definition thai_id_ok (group0 : pystr) : res bool :=
  digits <- ints (without (lit "-") group0);
  let total := dot (down_from 13 12) (take 12 digits) in
  check <- at_ digits 12;
  Ok (check =? (11 - total mod 11) mod 10).

Definition PPS_ALPHABET : pystr := lit "WABCDEFGHIJKLMNOPQRSTUV".

Definition pps_ok (group0 : pystr) : res bool :=
  total <- indexed_sum (down_from 8 7) group0;
  total <- match group0 !! 8%nat with
           | Some c => if (length group0 =? 9)%nat && negb (c =? 87) then Ok (total + (c - 64) * 9) else Ok total
           | None => Ok total
           end;
  expected <- at_ PPS_ALPHABET (Z.to_nat (total mod 23));
  check <- at_ group0 7;
  Ok (expected =? check).

(** [_CURP_CHARSET]; U+00D1 is the N with tilde. *)
Definition CURP_CHARSET : pystr := lit "0123456789ABCDEFGHIJKLMN" ++ [209] ++ lit "OPQRSTUVWXYZ".
Definition CURP_STATES : list pystr := map lit
  ["AS"; "BC"; "BS"; "CC"; "CL"; "CM"; "CS"; "CH"; "DF"; "DG"; "GT"; "GR"; "HG"; "JC"; "MC"; "MN"; "MS";
   "NT"; "NL"; "OC"; "PL"; "QT"; "QR"; "SP"; "SL"; "SR"; "TC"; "TS"; "TL"; "VZ"; "YN"; "ZS"; "NE"]%string.

Fixpoint curp_total (ws : list Z) (s : pystr) : res Z :=
  match ws with
  | [] => Ok 0
  | w :: ws =>
      c <- at_ s 0;
      match find_char c CURP_CHARSET with
      | None => Raise ValueError
      | Some i => rest <- curp_total ws (drop 1 s); Ok (Z.of_nat i * w + rest)
      end
  end.

Definition curp_ok (group0 : pystr) : res bool :=
  let value := fold_digits group0 in
  if negb (bool_decide (take 2 (drop 11 value) ∈ CURP_STATES)) then Ok false
  else
    c16 <- at_ value 16;
    let century := if isdigit c16 then 1900 else 2000 in
    match (y <- int_of (take 2 (drop 4 value)); m <- int_of (take 2 (drop 6 value));
           d <- int_of (take 2 (drop 8 value)); Ok (real_date (century + y) m d)) with
    | Raise ValueError => Ok false
    | Raise e => Raise e
    | Ok false => Ok false
    | Ok true =>
        total <- curp_total (down_from 18 17) value;
        c17 <- at_ value 17; d <- int1 c17;
        Ok ((10 - total mod 10) mod 10 =? d)
    end.

(** The ISO 7064 MOD 11,10 product over the first ten digits. *)
Definition steuer_step (product d : Z) : Z :=
  let s := (d + product) mod 10 in 2 * (if s =? 0 then 10 else s) mod 11.

Definition steuer_id_ok (group0 : pystr) : res bool :=
  digits <- ints (without (lit " ") group0);
  check <- at_ digits 10;
  let first10 := take 10 digits in
  let repeats := List.filter (fun n => (1 <? n)%nat)
    (map (fun d => length (List.filter (Z.eqb d) first10)) (remove_dups first10)) in
  Ok (if negb (bool_decide (repeats = [2%nat]) || bool_decide (repeats = [3%nat])) then false
      else
        let expected := 11 - fold_left steuer_step first10 10 in
        check =? (if expected =? 10 then 0 else expected)).

Definition phone_ok (group0 : pystr) : res bool :=
  Ok (let digits := length (List.filter isdigit group0) in ((8 <=? digits) && (digits <=? 15))%nat).

(** [area, group, serial = match.group(0).split("-")] *)
Definition ssn_ok (group0 : pystr) : res bool :=
  match split_char 45 group0 with
  | [area; group; serial] =>
      Ok (if bool_decide (area ∈ [lit "000"; lit "666"]) || starts_with (lit "9") area then false
          else negb (bool_decide (group = lit "00")) && negb (bool_decide (serial = lit "0000")))
  | _ => Raise ValueError
  end.

(** [int(ch, 36)], then [str]: a digit stays one, a letter becomes 10 .. 35. *)
Definition base36 (c : Z) : res Z :=
  if is_nd c then Ok (nd_value c)
  else if is_AZ c then Ok (c - 55) else if is_az c then Ok (c - 87) else Raise ValueError.

(** [int("".join(str(int(ch, 36)) for ch in s))], from an accumulated prefix. *)
Fixpoint base36_number (acc : Z) (s : pystr) : res Z :=
  match s with
  | [] => Ok acc
  | c :: s => v <- base36 c; base36_number (if v <? 10 then acc * 10 + v else acc * 100 + v) s
  end.

Definition IBAN_LENGTHS : list (pystr * nat) := map (fun x => (lit x.1, x.2))
  [("AD", 24); ("AT", 20); ("BE", 16); ("CH", 21); ("CZ", 24); ("DE", 22); ("DK", 18); ("ES", 24); ("FI", 18);
   ("FR", 27); ("GB", 22); ("IE", 22); ("IT", 27); ("LU", 20); ("NL", 18); ("NO", 15); ("PL", 28); ("PT", 25);
   ("SE", 24)]%string%nat.

Definition IBAN_SEPARATORS : pystr := [32; 160; 8239].

Fixpoint assoc {A} (l : list (pystr * A)) (k : pystr) : option A :=
  match l with [] => None | (k', v) :: l => if decide (k' = k) then Some v else assoc l k end.

Definition iban_number (value : pystr) : res Z := base36_number 0 (drop 4 value ++ take 4 value).

Definition iban_ok (group0 : pystr) : res bool :=
  c4 <- at_ group0 4;
  let paper := mem_char c4 IBAN_SEPARATORS in
  let value := if paper then without IBAN_SEPARATORS group0 else group0 in
  if negb paper && match assoc IBAN_LENGTHS (take 2 group0) with
                   | Some expected => negb (length group0 =? expected)%nat
                   | None => false
                   end
  then Ok false
  else
    n <- iban_number value;
    Ok (n mod 97 =? 1).

(** ** Published numbers *)

Example luhn_ex : luhn_ok (lit "4111 1111 1111 1111") = Ok true.
Proof. reflexivity. Qed.
Example sin_ex : sin_ok (lit "046 454 286") = Ok true.
Proof. reflexivity. Qed.
Example aadhaar_ex : aadhaar_ok (lit "2345 6789 1238") = Ok true.
Proof. vm_compute. reflexivity. Qed.
Example tfn_ex : tfn_ok (lit "123 456 782") = Ok true.
Proof. reflexivity. Qed.
Example dni_ex : dni_ok (lit "12345678Z") = Ok true /\ dni_ok (lit "X1234567L") = Ok true.
Proof. vm_compute. split; reflexivity. Qed.
Example nir_ex : nir_ok (lit "2 55 08 14 168 025 38") = Ok true.
Proof. vm_compute. reflexivity. Qed.
Example cpf_ex : cpf_ok (lit "111.444.777-35") = Ok true.
Proof. vm_compute. reflexivity. Qed.
Example codice_fiscale_ex : codice_fiscale_ok (lit "RSSMRA85T10A562S") = Ok true.
Proof. vm_compute. reflexivity. Qed.
Example ahv_ex : ahv_ok (lit "756.9217.0769.85") = Ok true.
Proof. vm_compute. reflexivity. Qed.
Example personnummer_ex : personnummer_ok (lit "811228-9874") = Ok true.
Proof. vm_compute. reflexivity. Qed.
Example belgian_ex : belgian_nn_ok (lit "85.07.30-033.28") = Ok true.
Proof. vm_compute. reflexivity. Qed.
Example hetu_ex : hetu_ok (lit "131052-308T") = Ok true.
Proof. vm_compute. reflexivity. Qed.
Example nhs_ex : nhs_ok (lit "943 476 5919") = Ok true.
Proof. vm_compute. reflexivity. Qed.
Example nric_ex : nric_ok (lit "S1234567D") = Ok true.
Proof. vm_compute. reflexivity. Qed.
Example cn_ex : cn_resident_ok (lit "11010519491231002x") = Ok true.
Proof. vm_compute. reflexivity. Qed.
Example thai_ex : thai_id_ok (lit "1-2345-67890-12-1") = Ok true.
Proof. vm_compute. reflexivity. Qed.
Example pps_ex : pps_ok (lit "1234567T") = Ok true.
Proof. vm_compute. reflexivity. Qed.
Example curp_ex : curp_ok (lit "HEGG560427MVZRRL04") = Ok true.
Proof. vm_compute. reflexivity. Qed.
Example steuer_ex : steuer_id_ok (lit "86095742719") = Ok true.
Proof. vm_compute. reflexivity. Qed.
Example iban_ex : iban_ok (lit "GB82 WEST 1234 5698 7654 32") = Ok true /\ iban_ok (lit "GB82WEST12345698765432") = Ok true.
Proof. vm_compute. split; reflexivity. Qed.
