(* ===== verification/CheckDigits.v ===== *)
(** * What the check digits detect

    The checksums of Checksums.v exist to tell a real identifier from a run of
    digits.  Here: each family tells it from itself with one digit mistyped, and
    the dihedral one also from itself with two neighbouring digits swapped. *)

From S2P Require Import Prelude Checksums.

(** ** One element changed *)

Definition changed (P : Z -> Prop) (l l' : list Z) : Prop :=
  exists a x x' b, l = a ++ x :: b /\ l' = a ++ x' :: b /\ x <> x' /\ P x /\ P x'.

Definition digit (d : Z) : Prop := 0 <= d <= 9.

(** A text with one ASCII digit replaced by another, and the same of the digits. *)
Definition typo : pystr -> pystr -> Prop := changed is_09.
Definition dtypo : list Z -> list Z -> Prop := changed digit.

Lemma changed_length P l l' : changed P l l' -> length l' = length l.
Proof. intros (a & d & d' & b & -> & -> & _). by rewrite !length_app. Qed.

Lemma changed_rev P l l' : changed P l l' -> changed P (rev l) (rev l').
Proof.
  intros (a & d & d' & b & -> & -> & H). exists (rev b), d, d', (rev a).
  rewrite !rev_app_distr. cbn. by rewrite <- !app_assoc.
Qed.

(** The change is on one side of any cut. *)
Lemma changed_cut P n l l' : changed P l l' ->
  (changed P (take n l) (take n l') /\ drop n l = drop n l') \/
  (take n l = take n l' /\ changed P (drop n l) (drop n l')).
Proof.
  intros (a & d & d' & b & -> & -> & H). destruct (decide (n <= length a)%nat) as [Hn|Hn].
  - right. rewrite !take_app_le, !drop_app_le by done. split; [done|]. by exists (drop n a), d, d', b.
  - left. rewrite !take_app_ge, !drop_app_ge by lia.
    destruct (n - length a)%nat as [|m] eqn:E; [lia|]. cbn. split; [|done]. by exists a, d, d', (take m b).
Qed.

Lemma changed_app P l l' m m' : (changed P l l' /\ m = m') \/ (l = l' /\ changed P m m') ->
  changed P (l ++ m) (l' ++ m').
Proof.
  intros [[(a & d & d' & b & -> & -> & H) ->]|[-> (a & d & d' & b & -> & -> & H)]].
  - exists a, d, d', (b ++ m'). by rewrite <- !app_assoc.
  - exists (l' ++ a), d, d', b. by rewrite <- !app_assoc.
Qed.

(** An index holds the same element, or the change. *)
Lemma changed_at P n l l' x : changed P l l' -> at_ l n = Ok x ->
  at_ l' n = Ok x \/ exists x', at_ l' n = Ok x' /\ x' <> x /\ P x /\ P x' /\ take n l = take n l' /\ drop (S n) l = drop (S n) l'.
Proof.
  unfold at_. intros (a & d & d' & b & -> & -> & Hne & Hd & Hd') Hx.
  destruct (lt_eq_lt_dec n (length a)) as [[Hlt| ->]|Hgt].
  - rewrite !lookup_app_l in * by done. by left.
  - rewrite !lookup_app_r, Nat.sub_diag in * by lia. cbn in *. injection Hx as ->. right. exists d'.
    split_and!; [done|congruence|done..| |]; [by rewrite !take_app_length|].
    rewrite !drop_app_ge by lia. by replace (S (length a) - length a)%nat with 1%nat by lia.
  - rewrite !lookup_app_r in * by lia. destruct (n - length a)%nat as [|m] eqn:E; [lia|]. by left.
Qed.

Lemma changed_at_same P n l l' x : changed P l l' -> at_ l n = Ok x -> ~ P x -> at_ l' n = Ok x.
Proof. intros H Hx Hp. destruct (changed_at P n l l' x H Hx) as [?|(x' & _ & _ & ? & _)]; done. Qed.

(** ** From text to digits *)

Lemma nd_value_range c : is_nd c = true -> digit (nd_value c).
Proof.
  unfold is_nd, nd_value, digit. generalize nd_zeros. intros l. induction l as [|z l IH]; cbn; [done|].
  destruct (between z (z + 9) c) eqn:E; [|done]. unfold between in E. lia.
Qed.

Lemma typo_filter p s s' : (forall c, is_09 c = true -> p c = true) -> typo s s' ->
  typo (List.filter p s) (List.filter p s').
Proof.
  intros Hp (a & c & c' & b & -> & -> & Hne & Hc & Hc'). exists (List.filter p a), c, c', (List.filter p b).
  rewrite !filter_app. cbn. rewrite !Hp by (by apply Is_true_true). done.
Qed.

Definition no_digit (seps : pystr) : bool := forallb (fun x => negb (is_09 x)) seps.

Lemma typo_without seps s s' : no_digit seps = true -> typo s s' -> typo (without seps s) (without seps s').
Proof.
  intros Hs. apply typo_filter. intros c Hc. apply negb_true_iff.
  apply (forallb_mem_char (fun x => negb (is_09 x))); [done|]. by rewrite Hc.
Qed.

Lemma is_09_spec c : Is_true (is_09 c) <-> 48 <= c <= 57.
Proof. unfold is_09, between. rewrite Is_true_true, andb_true_iff, !Z.leb_le. done. Qed.

Lemma typo_map f s s' : (forall c, Is_true (is_09 c) -> f c = c) -> typo s s' -> typo (map f s) (map f s').
Proof.
  intros Hf (a & c & c' & b & -> & -> & Hne & Hc & Hc'). exists (map f a), c, c', (map f b).
  rewrite !map_app. cbn. by rewrite !Hf.
Qed.

Lemma typo_same_set p s s' : typo s s' -> no_digit p = true -> forall c, c ∈ p -> mem_char c s = mem_char c s'.
Proof.
  intros (a & x & x' & b & -> & -> & _ & Hx & Hx') Hp c Hc. unfold mem_char. rewrite !existsb_app. cbn.
  unfold no_digit in Hp. rewrite forallb_forall in Hp. specialize (Hp c (proj1 (list_elem_of_In _ _) Hc)).
  apply negb_true_iff in Hp. 
  replace (c =? x) with false by (symmetry; apply Z.eqb_neq; intros ->; rewrite Hp in Hx; done).
  by replace (c =? x') with false by (symmetry; apply Z.eqb_neq; intros ->; rewrite Hp in Hx'; done).
Qed.

Lemma ints_app s t : ints (s ++ t) = rbind (ints s) (fun a => rbind (ints t) (fun b => Ok (a ++ b))).
Proof.
  induction s as [|c s IH]; cbn; [by destruct (ints t)|]. rewrite IH. destruct (int1 c); [|done]. cbn.
  destruct (ints s); [|done]. cbn. by destruct (ints t).
Qed.

Lemma ints_digits s ds : ints s = Ok ds -> Forall digit ds /\ length ds = length s.
Proof.
  revert ds. induction s as [|c s IH]; intros ds; cbn; [by intros [= <-]|]. unfold int1.
  destruct (is_nd c) eqn:E; [|done]. cbn. destruct (ints s) as [l|]; [|done]. cbn. intros [= <-].
  destruct (IH l eq_refl) as [? <-]. split; [constructor; [by apply nd_value_range|done]|done].
Qed.

Lemma int1_09 c : Is_true (is_09 c) -> int1 c = Ok (c - 48).
Proof. intros H%Is_true_true. unfold int1. by rewrite is_09_nd, nd_value_09. Qed.

Lemma typo_ints s s' ds : typo s s' -> ints s = Ok ds -> exists ds', ints s' = Ok ds' /\ dtypo ds ds'.
Proof.
  intros (a & c & c' & b & -> & -> & Hne & Hc & Hc'). rewrite !ints_app. cbn [ints].
  rewrite !int1_09 by done. apply is_09_spec in Hc, Hc'.
  destruct (ints a) as [x|]; [|done]. cbn [rbind]. destruct (ints b) as [y|]; [|done]. cbn [rbind].
  intros [= <-]. eexists. split; [done|]. exists x, (c - 48), (c' - 48), y. unfold digit. split_and!; done || lia.
Qed.

(** ** Weighted sums *)

Lemma dot_cons w ws d ds : dot (w :: ws) (d :: ds) = w * d + dot ws ds.
Proof. done. Qed.

Ltac Zify.zify_post_hook ::= Z.to_euclidean_division_equations.

#[local] Arguments dot : simpl never.
#[local] Arguments is_nd : simpl never.
#[local] Arguments nd_value : simpl never.

(** A changed digit moves the sum by its weight times the change. *)
Lemma dot_changed ws ds ds' : dtypo ds ds' -> length ws = length ds ->
  exists w delta, w ∈ ws /\ dot ws ds - dot ws ds' = w * delta /\ delta <> 0 /\ -9 <= delta <= 9.
Proof.
  intros (a & d & d' & b & -> & -> & Hne & Hd & Hd'). unfold digit in *. revert ws.
  induction a as [|x a IH]; intros [|w ws] Hl; cbn in Hl; try lia.
  - exists w, (d - d'). cbn [app]. rewrite !dot_cons. split_and!; [set_solver|lia..].
  - destruct (IH ws ltac:(lia)) as (w0 & delta & Hw & Hs & ?). exists w0, delta. cbn [app]. rewrite !dot_cons.
    split_and!; [set_solver|lia..].
Qed.

(** [p] divides no weight's multiple by a change of digit. *)
Definition separates (p : Z) (ws : list Z) : bool :=
  forallb (fun w => forallb (fun d => negb (w * d mod p =? 0) && negb (w * - d mod p =? 0))
                      [1; 2; 3; 4; 5; 6; 7; 8; 9]) ws.

Lemma separates_mod p ws w delta : separates p ws = true -> w ∈ ws -> delta <> 0 -> -9 <= delta <= 9 ->
  w * delta mod p <> 0.
Proof.
  unfold separates. rewrite forallb_forall. intros H Hw%list_elem_of_In Hne Hd. specialize (H w Hw).
  rewrite forallb_forall in H. assert (Hin : In (Z.abs delta) [1; 2; 3; 4; 5; 6; 7; 8; 9]) by (cbn; lia).
  specialize (H _ Hin). rewrite andb_true_iff, !negb_true_iff, !Z.eqb_neq in H.
  destruct (decide (0 <= delta)); [rewrite Z.abs_eq in H by lia; tauto|].
  rewrite Z.abs_neq, Z.opp_involutive in H by lia. tauto.
Qed.

Lemma mod_eq_sub a b p : a mod p = b mod p -> (a - b) mod p = 0.
Proof. intros H. by rewrite Zminus_mod, H, Z.sub_diag, Zmod_0_l. Qed.

Lemma dot_detects p ws ds ds' : separates p ws = true -> dtypo ds ds' -> length ws = length ds ->
  dot ws ds mod p <> dot ws ds' mod p.
Proof.
  intros Hp Ht Hl E%mod_eq_sub. destruct (dot_changed ws ds ds' Ht Hl) as (w & delta & Hw & Hs & Hne & Hr).
  rewrite Hs in E. by apply (separates_mod p ws w delta).
Qed.

Lemma at_cons {A} (x : A) s n : at_ (x :: s) (S n) = at_ s n.
Proof. done. Qed.

(** The indexed sum is the weighted sum of the digits it reads. *)
Lemma indexed_sum_dot ws s t : indexed_sum ws s = Ok t ->
  exists ds, ints (take (length ws) s) = Ok ds /\ length ds = length ws /\ t = dot ws ds.
Proof.
  revert s t. induction ws as [|w ws IH]; intros s t; cbn; [by intros [= <-]; exists []|].
  destruct s as [|c s]; [done|]. cbn. unfold int1. destruct (is_nd c) eqn:E; [|done]. cbn.
  rewrite drop_0. destruct (indexed_sum ws s) as [rest|] eqn:Er; [|done]. cbn. intros [= <-].
  destruct (IH s rest Er) as (ds & Hds & Hl & ->). rewrite Hds. exists (nd_value c :: ds).
  split_and!; [done|cbn; lia|]. rewrite dot_cons.  lia.
Qed.

Lemma indexed_sum_detects p ws s s' t t' : separates p ws = true -> typo (take (length ws) s) (take (length ws) s') ->
  indexed_sum ws s = Ok t -> indexed_sum ws s' = Ok t' -> t mod p <> t' mod p.
Proof.
  intros Hp Ht (ds & Hds & Hl & ->)%indexed_sum_dot (ds' & Hds' & Hl' & ->)%indexed_sum_dot.
  destruct (typo_ints _ _ _ Ht Hds) as (ds2 & E & Hd). rewrite E in Hds'. injection Hds' as ->.
  by apply dot_detects.
Qed.

Lemma indexed_sum_same ws s s' : take (length ws) s = take (length ws) s' -> indexed_sum ws s = indexed_sum ws s'.
Proof.
  revert s s'. induction ws as [|w ws IH]; intros [|c s] [|c' s'] H; cbn in *; try done.
  injection H as <- H. cbn. rewrite !drop_0. by rewrite (IH s s' H).
Qed.

(** A relation on digits that holds of no two different ones, by its table. *)
Definition ten : list Z := [0; 1; 2; 3; 4; 5; 6; 7; 8; 9].

Lemma digit_in_ten d : digit d -> In d ten.
Proof. unfold digit. cbn. lia. Qed.

Lemma digit_table (rel : Z -> Z -> bool) d d' :
  forallb (fun x => forallb (fun y => implb (rel x y) (x =? y)) ten) ten = true ->
  digit d -> digit d' -> rel d d' = true -> d = d'.
Proof.
  intros H Hd%digit_in_ten Hd'%digit_in_ten Hr. rewrite forallb_forall in H. specialize (H _ Hd).
  rewrite forallb_forall in H. specialize (H _ Hd'). rewrite Hr in H. by apply Z.eqb_eq.
Qed.

(** ** Luhn *)

Lemma luhn_sum_app odd a b :
  luhn_sum odd (a ++ b) = luhn_sum odd a + luhn_sum (xorb odd (Nat.odd (length a))) b.
Proof.
  revert odd. induction a as [|x a IH]; intros odd; [by cbn; rewrite xorb_false_r|].
  cbn [app luhn_sum length]. rewrite IH, Nat.odd_succ, <- Nat.negb_odd.
  replace (xorb odd (negb (Nat.odd (length a)))) with (xorb (negb odd) (Nat.odd (length a)))
    by (by destruct odd, (Nat.odd (length a))). lia.
Qed.

Lemma luhn_digit_inj odd d d' : digit d -> digit d' -> luhn_digit odd d mod 10 = luhn_digit odd d' mod 10 -> d = d'.
Proof.
  intros Hd Hd' E. by apply (digit_table (fun x y => luhn_digit odd x mod 10 =? luhn_digit odd y mod 10));
    [destruct odd|..|apply Z.eqb_eq].
Qed.

Lemma luhn_detects ds ds' : dtypo ds ds' -> forall odd, luhn_sum odd ds mod 10 <> luhn_sum odd ds' mod 10.
Proof.
  intros (a & d & d' & b & -> & -> & Hne & Hd & Hd') odd. rewrite !luhn_sum_app. cbn [luhn_sum].
  intros E. apply Hne, (luhn_digit_inj (xorb odd (Nat.odd (length a)))); [done..|]. lia.
Qed.

Lemma luhn_checksum_detects ds ds' : dtypo ds ds' -> luhn_checksum ds <> luhn_checksum ds'.
Proof. intros H. apply luhn_detects. by apply changed_rev. Qed.

Lemma personnummer_sum_luhn ds even : personnummer_sum even ds = luhn_sum even ds.
Proof. revert even. induction ds as [|d ds IH]; intros even; cbn; [done|]. by rewrite IH. Qed.

(** ** Verhoeff *)

Definition verhoeff_step (i : nat) (c d : Z) : Z := table VERHOEFF_D c (table VERHOEFF_P (Z.of_nat (i mod 8)) d).

Definition eight : list nat := [0; 1; 2; 3; 4; 5; 6; 7]%nat.

Lemma in_eight i : In (i mod 8)%nat eight.
Proof. pose proof (Nat.mod_upper_bound i 8 ltac:(done)). cbn. lia. Qed.

Lemma step_mod i c d : verhoeff_step i c d = verhoeff_step (i mod 8) c d.
Proof. unfold verhoeff_step. by rewrite Nat.Div0.mod_mod. Qed.

(** A property of the step at every position, state and digit, by the tables. *)
Lemma step_table (p : nat -> Z -> Z -> bool) :
  forallb (fun i => forallb (fun c => forallb (p i c) ten) ten) eight = true ->
  forall i c d, digit c -> digit d -> p (i mod 8)%nat c d = true.
Proof.
  intros H i c d Hc%digit_in_ten Hd%digit_in_ten. rewrite forallb_forall in H. specialize (H _ (in_eight i)).
  rewrite forallb_forall in H. specialize (H _ Hc). rewrite forallb_forall in H. by apply H.
Qed.

Lemma step_digit i c d : digit c -> digit d -> digit (verhoeff_step i c d).
Proof.
  intros Hc Hd. rewrite step_mod.
  assert (E := step_table (fun i c d => between 0 9 (verhoeff_step i c d)) eq_refl i c d Hc Hd).
  unfold between in E. unfold digit. lia.
Qed.

(** Two digits lead to different states, and so do two states under one digit. *)
Lemma step_inj i c d d' : digit c -> digit d -> digit d' -> verhoeff_step i c d = verhoeff_step i c d' -> d = d'.
Proof.
  intros Hc Hd Hd' E. rewrite step_mod, (step_mod i c d') in E.
  assert (T := step_table (fun i c d => forallb (fun d' =>
    implb (verhoeff_step i c d =? verhoeff_step i c d') (d =? d')) ten) eq_refl i c d Hc Hd).
  rewrite forallb_forall in T. specialize (T _ (digit_in_ten _ Hd')). rewrite E, Z.eqb_refl in T. by apply Z.eqb_eq.
Qed.

Lemma step_inj_state i c c' d : digit c -> digit c' -> digit d ->
  verhoeff_step i c d = verhoeff_step i c' d -> c = c'.
Proof.
  intros Hc Hc' Hd E. rewrite step_mod, (step_mod i c') in E.
  assert (T := step_table (fun i c d => forallb (fun c' =>
    implb (verhoeff_step i c d =? verhoeff_step i c' d) (c =? c')) ten) eq_refl i c d Hc Hd).
  rewrite forallb_forall in T. specialize (T _ (digit_in_ten _ Hc')). rewrite E, Z.eqb_refl in T. by apply Z.eqb_eq.
Qed.

(** Two neighbouring digits in either order lead to different states. *)
Lemma step_swap i c x y : digit c -> digit x -> digit y ->
  verhoeff_step (S i) (verhoeff_step i c x) y = verhoeff_step (S i) (verhoeff_step i c y) x -> x = y.
Proof.
  intros Hc Hx Hy E. rewrite (step_mod (S i)), (step_mod (S i) _ x), (step_mod i c x), (step_mod i c y) in E.
  replace (S i mod 8)%nat with (S (i mod 8) mod 8)%nat in E
    by (rewrite <- (Nat.add_1_r (i mod 8)), <- (Nat.add_1_r i); apply Nat.Div0.add_mod_idemp_l).
  rewrite <- (step_mod (S _)), <- (step_mod (S _) _ x) in E.
  assert (T := step_table (fun i c x => forallb (fun y => implb
    (verhoeff_step (S i) (verhoeff_step i c x) y =? verhoeff_step (S i) (verhoeff_step i c y) x) (x =? y)) ten)
    eq_refl i c x Hc Hx).
  rewrite forallb_forall in T. specialize (T _ (digit_in_ten _ Hy)). rewrite E, Z.eqb_refl in T. by apply Z.eqb_eq.
Qed.

Lemma verhoeff_go_cons i c d ds : verhoeff_go i c (d :: ds) = verhoeff_go (S i) (verhoeff_step i c d) ds.
Proof. done. Qed.

Lemma verhoeff_go_app i c a : Forall digit a -> digit c -> exists c',
  digit c' /\ forall b, verhoeff_go i c (a ++ b) = verhoeff_go (i + length a) c' b.
Proof.
  revert i c. induction a as [|d a IH]; intros i c Ha Hc; cbn.
  - exists c. split; [done|]. intros b'. by rewrite Nat.add_0_r.
  - apply list.Forall_cons_1 in Ha as [Hd Ha]. destruct (IH (S i) (verhoeff_step i c d) Ha) as (c' & Hc' & E).
    + by apply step_digit.
    + exists c'. split; [done|]. intros b'. fold (verhoeff_step i c d). rewrite E. f_equal. lia.
Qed.

Lemma verhoeff_go_inj b : Forall digit b -> forall i c c', digit c -> digit c' ->
  verhoeff_go i c b = verhoeff_go i c' b -> c = c'.
Proof.
  induction 1 as [|d b Hd _ IH]; intros i c c' Hc Hc' E; [done|]. rewrite !verhoeff_go_cons in E.
  apply IH in E; [|by apply step_digit..]. by apply (step_inj_state i) in E.
Qed.

Lemma verhoeff_detects ds ds' : Forall digit ds -> dtypo ds ds' -> verhoeff_checksum ds <> verhoeff_checksum ds'.
Proof.
  intros Hds (a & d & d' & b & -> & -> & Hne & Hd & Hd') E. unfold verhoeff_checksum in E.
  rewrite !rev_app_distr in E. cbn [rev] in E. rewrite <- !app_assoc in E. cbn [app] in E.
  apply Forall_app in Hds as [Ha Hb%list.Forall_cons_1]. destruct Hb as [_ Hb].
  destruct (verhoeff_go_app 0 0 (rev b)) as (c & Hc & Eg); [by apply Forall_rev|unfold digit; lia|].
  rewrite !Eg, !verhoeff_go_cons in E.
  apply verhoeff_go_inj in E; [|by apply Forall_rev|by apply step_digit..]. by apply step_inj in E.
Qed.

(** Two neighbouring digits exchanged. *)
Definition dswap (ds ds' : list Z) : Prop := exists a x y b, ds = a ++ x :: y :: b /\ ds' = a ++ y :: x :: b /\ x <> y.

Lemma verhoeff_detects_swap ds ds' : Forall digit ds -> dswap ds ds' -> verhoeff_checksum ds <> verhoeff_checksum ds'.
Proof.
  intros Hds (a & x & y & b & -> & -> & Hne) E. unfold verhoeff_checksum in E.
  rewrite !rev_app_distr in E. cbn [rev] in E. rewrite <- !app_assoc in E. cbn [app] in E.
  apply Forall_app in Hds as [Ha Hb%list.Forall_cons_1]. destruct Hb as [Hx [Hy Hb]%list.Forall_cons_1].
  destruct (verhoeff_go_app 0 0 (rev b)) as (c & Hc & Eg); [by apply Forall_rev|unfold digit; lia|].
  rewrite !Eg, !verhoeff_go_cons in E.
  apply verhoeff_go_inj in E; [|by apply Forall_rev|by repeat apply step_digit..]. by apply step_swap in E.
Qed.

(** ** Numbers modulo a prime *)

Definition coprime_ten (p : Z) : Prop := p = 23 \/ p = 31 \/ p = 97.

Lemma shift_detects p delta k : coprime_ten p -> delta <> 0 -> -9 <= delta <= 9 ->
  (delta * 10 ^ Z.of_nat k) mod p <> 0.
Proof.
  intros Hp Hne Hr. induction k as [|k IH].
  - change (10 ^ Z.of_nat 0) with 1. destruct Hp as [-> |[-> | ->]]; lia.
  - intros E. apply IH. rewrite Nat2Z.inj_succ, Z.pow_succ_r in E by lia.
    revert E. generalize (10 ^ Z.of_nat k). intros y E. replace (delta * (10 * y)) with (10 * (delta * y)) in E by lia.
    revert E. generalize (delta * y). intros z E. destruct Hp as [-> |[-> | ->]]; lia.
Qed.

(** Two numbers whose difference is a digit's change at some place. *)
Definition place_off (n n' : Z) : Prop :=
  exists delta k, n - n' = delta * 10 ^ Z.of_nat k /\ delta <> 0 /\ -9 <= delta <= 9.

Lemma place_off_mod p n n' : coprime_ten p -> place_off n n' -> n mod p <> n' mod p.
Proof.
  intros Hp (delta & k & E & Hne & Hr) H%mod_eq_sub. rewrite E in H. by apply (shift_detects p delta k).
Qed.

Lemma int_fold b acc : fold_left (fun acc c => acc * 10 + nd_value c) b acc =
  acc * 10 ^ Z.of_nat (length b) + int_of_digits b.
Proof.
  unfold int_of_digits. revert acc. induction b as [|c b IH]; intros acc; cbn [fold_left length].
  - change (10 ^ Z.of_nat 0) with 1. lia.
  - rewrite IH, (IH (0 * 10 + nd_value c)), Nat2Z.inj_succ, Z.pow_succ_r by lia. lia.
Qed.

Lemma typo_int s s' n : typo s s' -> int_of s = Ok n -> exists n', int_of s' = Ok n' /\ place_off n n'.
Proof.
  intros (a & c & c' & b & -> & -> & Hne & Hc & Hc').
  assert (E : forall x, Is_true (is_09 x) -> int_of (a ++ x :: b) =
    if forallb is_nd a && forallb is_nd b then Ok (int_of_digits (a ++ x :: b)) else Raise ValueError).
  { intros x Hx%Is_true_true. unfold int_of. rewrite forallb_app. cbn. rewrite (is_09_nd x Hx).
    by destruct (a ++ x :: b) eqn:Ea; [apply app_eq_nil in Ea as [_ ?]|]. }
  rewrite !E by done. destruct (_ && _); [|done]. intros [= <-]. eexists. split; [done|].
  exists (c - c'), (length b). unfold int_of_digits at 1 2. rewrite !fold_left_app. cbn [fold_left].
  rewrite (int_fold b (_ + nd_value c)), (int_fold b (_ + nd_value c')).
  rewrite !nd_value_09 by (by apply Is_true_true). apply is_09_spec in Hc, Hc'. split_and!; [|lia..].
  generalize (10 ^ Z.of_nat (length b)), (fold_left (fun acc c0 => acc * 10 + nd_value c0) a 0). intros. nia.
Qed.

Lemma base36_shift b n0 acc : base36_number acc b = Ok n0 ->
  exists k m, forall acc', base36_number acc' b = Ok (acc' * 10 ^ Z.of_nat k + m).
Proof.
  revert acc n0. induction b as [|c b IH]; intros acc n0; cbn.
  - intros _. exists 0%nat, 0. intros acc'. change (10 ^ Z.of_nat 0) with 1. f_equal. lia.
  - destruct (base36 c) as [v|]; [|done]. cbn. intros H. destruct (IH _ _ H) as (k & m & E).
    destruct (v <? 10).
    + exists (S k), (v * 10 ^ Z.of_nat k + m). intros acc'. rewrite E, Nat2Z.inj_succ, Z.pow_succ_r by lia. f_equal. lia.
    + exists (S (S k)), (v * 10 ^ Z.of_nat k + m). intros acc'.
      rewrite E, !Nat2Z.inj_succ, !Z.pow_succ_r by lia. f_equal. lia.
Qed.

Lemma base36_09 c : Is_true (is_09 c) -> base36 c = Ok (c - 48).
Proof. intros H%Is_true_true. unfold base36. by rewrite is_09_nd, nd_value_09. Qed.

Lemma typo_base36 s s' n : typo s s' -> base36_number 0 s = Ok n -> exists n', base36_number 0 s' = Ok n' /\ place_off n n'.
Proof.
  intros (a & c & c' & b & -> & -> & Hne & Hc & Hc'). generalize 0. induction a as [|x a IH]; intros acc; cbn [app base36_number].
  - rewrite !base36_09 by done. cbn [rbind]. apply is_09_spec in Hc, Hc'.
    destruct (Z.ltb_spec (c - 48) 10); [|lia]. destruct (Z.ltb_spec (c' - 48) 10); [|lia].
    intros Hn. destruct (base36_shift _ _ _ Hn) as (k & m & E). rewrite E in Hn. injection Hn as <-. rewrite E.
    eexists. split; [done|]. exists (c - c'), k. split_and!; [|lia..]. generalize (10 ^ Z.of_nat k). intros. nia.
  - destruct (base36 x) as [v|]; [|done]. cbn [rbind]. apply IH.
Qed.

(** ** The validators *)

Definition detects (f : pystr -> res bool) (shape : pystr -> bool) : Prop :=
  forall s s', shape s = true -> typo s s' -> f s = Ok true -> f s' <> Ok true.

Definition any (s : pystr) : bool := true.

(** Run a computation known to return, binding by binding. *)
Ltac unres H := repeat (cbn [rbind] in H; match type of H with
  | rbind ?m _ = _ => let E := fresh "E" in destruct m eqn:E; [|discriminate H]
  | (if ?b then _ else _) = _ => let E := fresh "E" in destruct b eqn:E; try discriminate H
  | Ok _ = Ok true => apply Ok_inj in H
  | (?x =? ?y) = true => apply Z.eqb_eq in H
  | (_ && _) = true => apply andb_true_iff in H; destruct H as [_ H]
  | false = true => discriminate H
  end); cbn [rbind] in H.

Lemma typo_ints_both s s' ds ds' : typo s s' -> ints s = Ok ds -> ints s' = Ok ds' -> dtypo ds ds'.
Proof. intros Ht Hs Hs'. destruct (typo_ints _ _ _ Ht Hs) as (x & E & ?). rewrite E in Hs'. by injection Hs' as <-. Qed.

Lemma typo_digits_of s s' ds ds' : typo s s' -> digits_of s = Ok ds -> digits_of s' = Ok ds' -> dtypo ds ds'.
Proof.
  intros Ht. apply typo_ints_both, typo_filter; [|done]. intros c H. unfold isdigit. by rewrite is_09_nd.
Qed.

Lemma luhn_ok_detects : detects luhn_ok any.
Proof.
  intros s s' _ Ht H H'. unfold luhn_ok in *. unres H. unres H'.
  apply (luhn_checksum_detects a a0); [|congruence]. by apply (typo_ints_both _ _ _ _ (typo_without (lit " -") s s' eq_refl Ht)).
Qed.

Lemma sin_ok_detects : detects sin_ok any.
Proof.
  intros s s' _ Ht H H'. unfold sin_ok in *. unres H. unres H'.
  apply (luhn_checksum_detects a a1); [|congruence]. by apply (typo_ints_both _ _ _ _ (typo_without (lit " -") s s' eq_refl Ht)).
Qed.

Lemma luhn_detects_typo : detects luhn any.
Proof.
  intros s s' _ Ht H H'. unfold luhn in *. unres H. unres H'.
  apply (luhn_checksum_detects a a0); [|congruence]. by apply (typo_digits_of s s').
Qed.

Lemma personnummer_ok_detects : detects personnummer_ok any.
Proof.
  intros s s' _ Ht H H'. unfold personnummer_ok in *. unres H. unres H'. rewrite !personnummer_sum_luhn in *.
  apply (luhn_detects a a4 (typo_digits_of s s' a a4 Ht E E5) true). congruence.
Qed.

Lemma aadhaar_ok_detects : detects aadhaar_ok any.
Proof.
  intros s s' _ Ht H H'. unfold aadhaar_ok in *. unres H. unres H'.
  apply (verhoeff_detects a a0); [by apply ints_digits in E as []| |congruence].
  by apply (typo_ints_both _ _ _ _ (typo_without (lit " -") s s' eq_refl Ht)).
Qed.

Lemma verhoeff_detects_typo : detects verhoeff any.
Proof.
  intros s s' _ Ht H H'. unfold verhoeff in *. unres H. unres H'.
  destruct (ints_digits _ _ E) as [Hd _]. apply (verhoeff_detects _ _ Hd (typo_digits_of s s' _ _ Ht E E1)). congruence.
Qed.

Lemma tfn_ok_detects : detects tfn_ok any.
Proof.
  intros s s' _ Ht H H'. unfold tfn_ok, dot_strict in *. unres H. unres H'.
  assert (Hd : dtypo a a1) by by apply (typo_ints_both _ _ _ _ (typo_without (lit " -") s s' eq_refl Ht)).
  destruct (Nat.eqb_spec (length TFN_WEIGHTS) (length a)); [|done]. destruct (_ =? _)%nat; [|done].
  injection E0 as <-. injection E2 as <-. apply (dot_detects 11 TFN_WEIGHTS a a1); [done|done|done|congruence].
Qed.

(** The character expected at a remainder tells the remainder. *)
Lemma at_inj (l : pystr) i j c : NoDup l -> 0 <= i -> 0 <= j ->
  at_ l (Z.to_nat i) = Ok c -> at_ l (Z.to_nat j) = Ok c -> i = j.
Proof.
  unfold at_. intros Hn Hi Hj. destruct (l !! Z.to_nat i) eqn:Ei; [|done]. destruct (l !! Z.to_nat j) eqn:Ej; [|done].
  intros [= ->] [= ->]. assert (E := NoDup_lookup l _ _ _ Hn Ei Ej). lia.
Qed.

Lemma at_in (l : pystr) i c : at_ l i = Ok c -> c ∈ l.
Proof. unfold at_. destruct (l !! i) eqn:E; [|done]. intros [= <-]. by apply list_elem_of_lookup_2 in E. Qed.

(** A check letter is no digit. *)
Lemma letter_not_digit l c : no_digit l = true -> c ∈ l -> ~ Is_true (is_09 c).
Proof.
  unfold no_digit. rewrite forallb_forall. intros H Hc%list_elem_of_In. specialize (H c Hc).
  apply negb_true_iff in H. rewrite H. by intros [].
Qed.

(** ** Check letters and check digits *)

Definition dni_body (first : Z) (body : pystr) : pystr :=
  if first =? 88 then 48 :: drop 1 body else if first =? 89 then 49 :: drop 1 body
  else if first =? 90 then 50 :: drop 1 body else body.

Lemma typo_dni_body u u' x x' : typo u u' -> at_ u 0 = Ok x -> at_ u' 0 = Ok x' -> typo (dni_body x u) (dni_body x' u').
Proof.
  intros ([|y a] & c & c' & b & -> & -> & H) [= <-] [= <-].
  - assert (E : forall d, Is_true (is_09 d) -> dni_body d (d :: b) = d :: b).
    { intros d Hd%is_09_spec. unfold dni_body. by rewrite !(proj2 (Z.eqb_neq d _)) by lia. }
    destruct H as (? & ? & ?). cbn. rewrite !E by done. by exists [], c, c', b.
  - unfold dni_body. cbn [app drop]. rewrite !drop_0. repeat case_match; by (eexists (_ :: a), c, c', b).
Qed.

(** Remainders that expect one letter are one remainder. *)
Lemma expected_letter (l : pystr) p n n' c : bool_decide (NoDup l) = true -> 0 < p ->
  at_ l (Z.to_nat (n mod p)) = Ok c -> at_ l (Z.to_nat (n' mod p)) = Ok c -> n mod p = n' mod p.
Proof.
  intros Hn%bool_decide_eq_true Hp H H'. apply (at_inj l _ _ c); try done; by apply Z.mod_pos_bound.
Qed.

Lemma dni_ok_detects : detects dni_ok any.
Proof.
  intros s s' _ Ht H H'. unfold dni_ok in *. apply (typo_without (lit "-")) in Ht; [|done].
  revert H H' Ht. generalize (without (lit "-") s), (without (lit "-") s'). clear s s'.
  intros v v' H H' Hv%changed_rev. unfold split_last in *.
  destruct Hv as ([|l a] & c & c' & b & Ev & Ev' & Hne & Hc & Hc'); rewrite Ev in H; rewrite Ev' in H'; cbn [app] in H, H'.
  - unres H. subst. apply at_in in E1. by eapply (letter_not_digit DNI_LETTERS).
  - assert (Ht : typo (rev (a ++ c :: b)) (rev (a ++ c' :: b))) by (apply changed_rev; by exists a, c, c', b).
    unres H. unres H'. subst. destruct (typo_int _ _ _ (typo_dni_body _ _ _ _ Ht E E2) E0) as (n' & En & Hoff).
    unfold dni_body in En. rewrite E3 in En. injection En as <-.
    apply (place_off_mod 23 _ _ (or_introl eq_refl) Hoff). by apply (expected_letter DNI_LETTERS 23 _ _ l).
Qed.

Definition nir_number (body : pystr) : res Z :=
  if mem_char 65 body then rbind (int_of (replace1 65 48 body)) (fun n => Ok (n - 1000000))
  else if mem_char 66 body then rbind (int_of (replace1 66 48 body)) (fun n => Ok (n - 2000000))
  else int_of body.

Lemma typo_replace c s s' : is_09 c = false -> typo s s' -> typo (replace1 c 48 s) (replace1 c 48 s').
Proof. intros Hc. apply typo_map. intros d Hd. destruct (Z.eqb_spec d c) as [-> |]; [|done]. by rewrite Hc in Hd. Qed.

Lemma place_off_sub n n' k : place_off n n' -> place_off (n - k) (n' - k).
Proof. intros (delta & j & E & H). exists delta, j. split; [lia|done]. Qed.

Lemma typo_nir_number s s' n : typo s s' -> nir_number s = Ok n -> exists n', nir_number s' = Ok n' /\ place_off n n'.
Proof.
  intros Ht. unfold nir_number.
  rewrite <- !(typo_same_set (lit "AB") _ _ Ht eq_refl) by (apply list_elem_of_In; vm_compute; tauto).
  assert (Hl : forall c k, is_09 c = false -> rbind (int_of (replace1 c 48 s)) (fun n => Ok (n - k)) = Ok n ->
    exists n', rbind (int_of (replace1 c 48 s')) (fun n => Ok (n - k)) = Ok n' /\ place_off n n').
  { intros c k Hc H. unres H. injection H as <-. destruct (typo_int _ _ _ (typo_replace c _ _ Hc Ht) E) as (n' & -> & Hoff).
    eexists. split; [done|]. by apply place_off_sub. }
  destruct (mem_char 65 s); [by apply Hl|]. destruct (mem_char 66 s); [by apply Hl|]. by apply (typo_int s).
Qed.

Lemma place_off_ne n n' : place_off n n' -> n <> n'.
Proof. intros H ->. by apply (place_off_mod 97 n' n' (or_intror (or_intror eq_refl)) H). Qed.

Lemma nir_ok_detects : detects nir_ok any.
Proof.
  intros s s' _ Ht H H'. unfold nir_ok in *. apply (typo_without (lit " ")) in Ht; [|done].
  revert H H' Ht. generalize (without (lit " ") s), (without (lit " ") s'). clear s s'. intros v v' H H' Hv.
  rewrite (changed_length _ _ _ Hv) in H'. apply (changed_cut _ (length v - 2)) in Hv.
  revert H H' Hv. generalize (length v - 2)%nat. intros n H H'.
  fold (nir_number (take n v)) in H. fold (nir_number (take n v')) in H'. unres H. unres H'.
  intros [[Hb Hk]|[Hb Hk]].
  - destruct (typo_nir_number _ _ _ Hb E) as (m & Em & Hoff). rewrite Em in E1. injection E1 as ->.
    rewrite Hk, E2 in E0. injection E0 as ->. apply (place_off_mod 97 a a1); [by right; right|done|lia].
  - rewrite Hb, E1 in E. injection E as ->. destruct (typo_int _ _ _ Hk E0) as (m & Em & Hoff).
    rewrite Em in E2. injection E2 as ->. apply (place_off_ne _ _ Hoff). lia.
Qed.

Lemma iban_ok_detects : detects iban_ok any.
Proof.
  intros s s' _ Ht H H'. unfold iban_ok in *. unres H. unres H'.
  assert (Hc : mem_char a1 IBAN_SEPARATORS = mem_char a IBAN_SEPARATORS).
  { destruct (changed_at _ _ _ _ _ Ht E) as [Ea|(x & Ea & _ & Hx & Hx' & _)]; rewrite Ea in E2; injection E2 as <-; [done|].
    assert (Hn : forall d, Is_true (is_09 d) -> mem_char d IBAN_SEPARATORS = false).
    { intros d Hd%is_09_spec. unfold mem_char, IBAN_SEPARATORS. cbn [existsb]. by rewrite !(proj2 (Z.eqb_neq d _)) by lia. }
    by rewrite !Hn. }
  rewrite Hc in E4. unfold iban_number in *.
  assert (Hv : typo (if mem_char a IBAN_SEPARATORS then without IBAN_SEPARATORS s else s)
    (if mem_char a IBAN_SEPARATORS then without IBAN_SEPARATORS s' else s')) by (case_match; [by apply typo_without|done]).
  revert E1 E4 Hv. generalize (if mem_char a IBAN_SEPARATORS then without IBAN_SEPARATORS s else s),
    (if mem_char a IBAN_SEPARATORS then without IBAN_SEPARATORS s' else s'). intros v v' En En' Hv.
  assert (Hr : typo (drop 4 v ++ take 4 v) (drop 4 v' ++ take 4 v')).
  { apply changed_app. destruct (changed_cut _ 4 _ _ Hv) as [[? ?]|[? ?]]; [by right|by left]. }
  destruct (typo_base36 _ _ _ Hr En) as (m & Em & Hoff). rewrite Em in En'. injection En' as ->.
  apply (place_off_mod 97 a0 a2); [by right; right|done|lia].
Qed.

(** The change is in the body or it is the check character at its end. *)
Lemma changed_check P n l l' c c' : changed P l l' -> length l = S n -> at_ l n = Ok c -> at_ l' n = Ok c' ->
  (changed P (take n l) (take n l') /\ c' = c) \/ (take n l = take n l' /\ c' <> c /\ P c /\ P c').
Proof.
  intros H Hl Hc Hc'. destruct (changed_at _ _ _ _ _ H Hc) as [E|(x & E & ? & ? & ? & ? & _)];
    rewrite E in Hc'; injection Hc' as <-; [left|by right]. split; [|done].
  destruct (changed_cut _ n _ _ H) as [[? _]|[Ht Hd]]; [done|exfalso].
  assert (Hn : forall (u : pystr) x, at_ u n = Ok x -> length u = S n -> drop n u = [x]).
  { unfold at_. intros u x Hu Hlu. destruct (u !! n) eqn:Eu; [|done]. injection Hu as ->.
    rewrite (drop_S _ _ _ Eu). f_equal. apply skipn_all2. lia. }
  rewrite (Hn _ _ Hc Hl), (Hn _ _ E (eq_trans (changed_length _ _ _ H) Hl)) in Hd.
  destruct Hd as ([|y a] & x & x' & b & E1 & E2 & Hne & _); cbn in *; [congruence|].
  destruct a; cbn in E1; discriminate.
Qed.

Definition ahv_weights : list Z := map (fun i => if Nat.even i then 1 else 3) (seq 0 12).

Lemma ahv_ok_detects : detects ahv_ok (fun s => length (without (lit ".") s) =? 13)%nat.
Proof.
  intros s s' Hl%Nat.eqb_eq Ht H H'. unfold ahv_ok in *. apply (typo_without (lit ".")) in Ht; [|done].
  unres H. unres H'. assert (Hd := typo_ints_both _ _ _ _ Ht E E1). destruct (ints_digits _ _ E) as [_ Hla].
  destruct (changed_check _ 12 _ _ _ _ Hd ltac:(lia) E0 E2) as [[Hb ->]|(Hb & Hne & _)].
  - fold ahv_weights in *. apply (dot_detects 10 ahv_weights _ _ eq_refl Hb); [rewrite length_take, Hla, Hl; done|lia].
  - rewrite Hb in H. congruence.
Qed.

(** [control11] folds 11 to 0 and keeps the other eleven controls apart. *)
Lemma control11_inj t t' : control11 t = control11 t' -> t mod 11 = t' mod 11.
Proof.
  unfold control11. destruct (Z.eqb_spec (11 - t mod 11) 11), (Z.eqb_spec (11 - t' mod 11) 11); lia.
Qed.

Lemma nhs_ok_detects : detects nhs_ok (fun s => length (without (lit " ") s) =? 10)%nat.
Proof.
  intros s s' Hl%Nat.eqb_eq Ht H H'. unfold nhs_ok in *. apply (typo_without (lit " ")) in Ht; [|done].
  unres H. unres H'. destruct (changed_check _ 9 _ _ _ _ Ht Hl E1 E5) as [[Hb ->]|(Hb & Hne & Hc & Hc')].
  - assert (Hd := typo_ints_both _ _ _ _ Hb E E3). destruct (ints_digits _ _ E) as [_ Hla].
    apply (dot_detects 11 (down_from 10 9) a a2); [done|done|rewrite Hla, length_take, Hl; done|].
    apply control11_inj. congruence.
  - rewrite <- Hb, E in E3. injection E3 as ->. rewrite int1_09 in E2, E6 by done.
    injection E2 as <-. injection E6 as <-. lia.
Qed.

Lemma fnr_ok_detects : detects norwegian_fnr_ok (fun s => length (List.filter is_nd s) =? 11)%nat.
Proof.
  intros s s' Hl%Nat.eqb_eq Ht H H'. unfold norwegian_fnr_ok in *.
  apply (typo_filter is_nd) in Ht; [|apply is_09_nd]. revert Hl Ht H H'.
  generalize (List.filter is_nd s), (List.filter is_nd s'). clear s s'. intros v v' Hl Ht H H'. unres H. unres H'.
  destruct (changed_check _ 10 _ _ _ _ Ht Hl E6 E15) as [[Hb ->]|(Hb & Hne & Hc & Hc')].
  - apply (indexed_sum_detects 11 FNR_K2 v v' _ _ eq_refl Hb E4 E13), control11_inj. congruence.
  - rewrite (indexed_sum_same FNR_K2 v v' Hb), E13 in E4. injection E4 as ->. rewrite int1_09 in E7, E16 by done.
    injection E7 as <-. injection E16 as <-. lia.
Qed.

(** A character outside [P] stays in place: the change is past it. *)
Lemma changed_past P l l' x : changed P l l' -> at_ l 0 = Ok x -> ~ P x ->
  at_ l' 0 = Ok x /\ changed P (drop 1 l) (drop 1 l').
Proof.
  intros ([|y a] & c & c' & b & -> & -> & H) [= <-] Hx; [tauto|]. split; [done|]. cbn. rewrite !drop_0.
  by exists a, c, c', b.
Qed.

Lemma not_AZ_digit c : is_AZ c = true -> ~ Is_true (is_09 c).
Proof. intros H Hd%is_09_spec. unfold is_AZ, between in H. lia. Qed.

Lemma nric_ok_detects : detects nric_ok (fun s => (length s =? 9)%nat && match s with p :: _ => is_AZ p | [] => false end).
Proof.
  intros s s' [Hl%Nat.eqb_eq Hp]%andb_true_iff Ht H H'. unfold nric_ok in *. unres H. unres H'.
  assert (Hpre : ~ Is_true (is_09 a)) by (destruct s as [|p s]; [done|]; injection E as <-; by apply not_AZ_digit).
  destruct (changed_check _ 8 _ _ _ _ Ht Hl E0 E4) as [[Hb ->]|(Hb & Hne & Hc & _)].
  - destruct (changed_past _ _ _ _ Ht E Hpre) as [E' _]. rewrite E' in E3. injection E3 as <-.
    assert (Hb' : typo (take 7 (take 7 (drop 1 s))) (take 7 (take 7 (drop 1 s')))).
    { rewrite !take_take. cbn [Nat.min]. rewrite !take_drop_commute. apply (changed_past _ _ _ a Hb); [|done]. destruct s; [done|]. by injection E as <-. }
    apply (indexed_sum_detects 11 NRIC_W _ _ _ _ eq_refl Hb' E1 E5). subst.
    assert (Hm : forall (l : pystr) (x : Z), bool_decide (NoDup l) = true ->
      at_ l (Z.to_nat ((if mem_char a (lit "TG") then a1 + 4 else a1) mod 11)) = Ok x ->
      at_ l (Z.to_nat ((if mem_char a (lit "TG") then a5 + 4 else a5) mod 11)) = Ok x -> a1 mod 11 = a5 mod 11).
    { intros l x Hn H1 H2. assert (Hm := expected_letter l 11 _ _ _ Hn ltac:(lia) H1 H2). destruct (mem_char a (lit "TG")); lia. }
    destruct (mem_char a (lit "ST")); [exact (Hm NRIC_ST _ eq_refl E2 E6)|exact (Hm NRIC_FG _ eq_refl E2 E6)].
  - subst. apply at_in in E2. destruct (mem_char a (lit "ST"));
      [exact (letter_not_digit NRIC_ST _ eq_refl E2 Hc)|exact (letter_not_digit NRIC_FG _ eq_refl E2 Hc)].
Qed.

(** The number around a separator that stays. *)
Lemma changed_around P t t' x n : changed P t t' -> at_ (drop n t) 0 = Ok x -> ~ P x ->
  changed P (take n t ++ drop (S n) t) (take n t' ++ drop (S n) t').
Proof.
  intros Ht Hx Hp. apply changed_app. replace (S n) with (n + 1)%nat by lia. rewrite <- !drop_drop.
  destruct (changed_cut _ n _ _ Ht) as [[H1 H2]|[H1 H2]].
  - left. by rewrite H2.
  - right. split; [done|]. apply (changed_past _ _ _ x); done.
Qed.

Lemma hetu_ok_detects : detects hetu_ok (fun s => length s =? 11)%nat.
Proof.
  intros s s' Hl%Nat.eqb_eq Ht H H'. unfold hetu_ok in *. unres H. unres H'. subst.
  destruct (changed_check _ 10 _ _ _ _ Ht Hl E0 E8) as [[Hb ->]|(Hb & Hne & _)].
  - apply negb_false_iff in E1. assert (Ha : ~ Is_true (is_09 a)).
    { apply (letter_not_digit HETU_CENTURY); [done|]. unfold mem_char in E1. apply existsb_exists in E1 as (x & Hx & ->%Z.eqb_eq).
      by apply list_elem_of_In. }
    assert (Hn := changed_around _ _ _ a 6 Hb). rewrite !take_take, !skipn_firstn_comm in Hn. cbn [Nat.min Nat.sub] in Hn.
    destruct (typo_int _ _ _ (Hn ltac:(by destruct s as [|? [|? [|? [|? [|? [|? [|? s]]]]]]]) Ha) E5) as (n' & En & Hoff).
    rewrite En in E13. injection E13 as <-. apply (place_off_mod 31 _ _ (or_intror (or_introl eq_refl)) Hoff).
    exact (expected_letter HETU_CHECK 31 _ _ _ eq_refl ltac:(lia) E6 E14).
  - assert (Hs : forall u : pystr, take 6 u ++ take 3 (drop 7 u) = take 6 (take 10 u) ++ drop 7 (take 10 u)).
    { intros u. by rewrite take_take, skipn_firstn_comm. }
    rewrite Hs, Hb, <- Hs, E13 in E5. injection E5 as ->. congruence.
Qed.

Definition pps_extra (s : pystr) : Z :=
  match s !! 8%nat with
  | Some c => if (length s =? 9)%nat && negb (c =? 87) then (c - 64) * 9 else 0
  | None => 0
  end.

Lemma pps_total s t t' : match s !! 8%nat with
    | Some c => if (length s =? 9)%nat && negb (c =? 87) then Ok (t + (c - 64) * 9) else Ok t
    | None => Ok t
    end = @Ok py_exc Z t' -> t' = t + pps_extra s.
Proof. unfold pps_extra. destruct (s !! 8%nat); [destruct (_ && _)|]; intros [= <-]; lia. Qed.

(** The second letter is the ninth character: a change there moves the total by nine times it. *)
Lemma pps_extra_moves s s' x : (length s <= 9)%nat -> typo (drop 7 s) (drop 7 s') -> at_ (drop 7 s) 0 = Ok x ->
  ~ Is_true (is_09 x) -> at_ (drop 7 s') 0 = Ok x /\ pps_extra s mod 23 <> pps_extra s' mod 23.
Proof.
  intros Hl Ht Hx Hp. assert (Hls := changed_length _ _ _ Ht). rewrite !length_drop in Hls.
  destruct (changed_past _ _ _ x Ht Hx Hp) as [Hx' (a & c & c' & b & E & E' & Hne & Hc & Hc')]. split; [done|].
  rewrite drop_drop in E, E'. cbn [Nat.add] in E, E'. assert (Hlen : length (drop 8 s) = length (a ++ c :: b)) by by rewrite E.
  rewrite length_drop, length_app in Hlen. cbn [length] in Hlen.
  assert (a = []) as -> by (destruct a; [done|cbn in Hlen; lia]). cbn in Hlen, E, E'.
  assert (El : forall (u : pystr) y t, drop 8 u = y :: t -> u !! 8%nat = Some y).
  { intros u y t Eu. change 8%nat with (8 + 0)%nat. by rewrite <- lookup_drop, Eu. }
  unfold pps_extra. rewrite (El _ _ _ E), (El _ _ _ E').
  replace (length s) with 9%nat by lia. replace (length s') with 9%nat by lia. cbn [Nat.eqb andb].
  apply is_09_spec in Hc, Hc'. rewrite !(proj2 (Z.eqb_neq _ 87)) by lia. cbn [negb]. lia.
Qed.

Lemma pps_ok_detects : detects pps_ok (fun s => length s <=? 9)%nat.
Proof.
  intros s s' Hl%Nat.leb_le Ht H H'. unfold pps_ok in *. unres H. unres H'. subst.
  apply pps_total in E0, E4. subst. assert (Hal := letter_not_digit PPS_ALPHABET _ eq_refl (at_in _ _ _ E1)).
  destruct (changed_cut _ 7 _ _ Ht) as [[Hb Hd]|[Hb Hd]].
  - apply (indexed_sum_detects 23 (down_from 8 7) s s' _ _ eq_refl Hb E E3).
    assert (He : pps_extra s = pps_extra s').
    { unfold pps_extra. rewrite (changed_length _ _ _ Ht). change 8%nat with (7 + 1)%nat. by rewrite <- !lookup_drop, Hd. }
    assert (Hc : at_ s' 7 = Ok a2).
    { unfold at_ in *. rewrite <- (Nat.add_0_r 7), <- lookup_drop in E2 |- *. by rewrite <- Hd. }
    rewrite Hc in E6. injection E6 as <-. assert (Hm := expected_letter PPS_ALPHABET 23 _ _ _ eq_refl ltac:(lia) E1 E5).
    rewrite He in Hm. lia.
  - rewrite (indexed_sum_same (down_from 8 7) s s' Hb), E3 in E. injection E as ->.
    assert (Hx : forall u : pystr, at_ (drop 7 u) 0 = at_ u 7) by (intros u; unfold at_; by rewrite lookup_drop).
    destruct (pps_extra_moves s s' a2 Hl Hd ltac:(by rewrite Hx) Hal) as [Hc He]. rewrite Hx, E6 in Hc. injection Hc as ->.
    assert (Hm := expected_letter PPS_ALPHABET 23 _ _ _ eq_refl ltac:(lia) E1 E5). lia.
Qed.

(** ** The properties *)

(** Two neighbouring digits of a text exchanged. *)
Definition swapped (s s' : pystr) : Prop :=
  exists a x y b, s = a ++ x :: y :: b /\ s' = a ++ y :: x :: b /\ x <> y /\ is_09 x = true /\ is_09 y = true.

Lemma swapped_ints p s s' ds ds' : (forall c, is_09 c = true -> p c = true) -> swapped s s' ->
  ints (List.filter p s) = Ok ds -> ints (List.filter p s') = Ok ds' -> dswap ds ds'.
Proof.
  intros Hp (a & x & y & b & -> & -> & Hne & Hx & Hy). rewrite !filter_app. cbn. rewrite !Hp by done.
  rewrite !ints_app. cbn [ints]. rewrite !int1_09 by (by apply Is_true_true).
  destruct (ints (List.filter p a)) as [u|]; [|done]. cbn [rbind].
  destruct (ints (List.filter p b)) as [v|]; [|done]. cbn [rbind].
  intros [= <-] [= <-]. exists u, (x - 48), (y - 48), v. split_and!; [done..|lia].
Qed.

(** The validators one mistyped digit cannot pass, each with the texts it reads to
    the end (its rule's pattern matches no others). *)
Definition typo_detectors : list ((pystr -> res bool) * (pystr -> bool)) :=
  [(luhn_ok, any); (sin_ok, any); (luhn, any); (personnummer_ok, any); (aadhaar_ok, any); (verhoeff, any);
   (tfn_ok, any); (dni_ok, any); (nir_ok, any); (iban_ok, any);
   (ahv_ok, fun s => length (without (lit ".") s) =? 13)%nat;
   (nhs_ok, fun s => length (without (lit " ") s) =? 10)%nat;
   (norwegian_fnr_ok, fun s => length (List.filter is_nd s) =? 11)%nat;
   (nric_ok, fun s => (length s =? 9)%nat && match s with p :: _ => is_AZ p | [] => false end);
   (hetu_ok, fun s => length s =? 11)%nat; (pps_ok, fun s => length s <=? 9)%nat].

(** C35: sixteen checksum validators accept no text that differs from an accepted one
    in a single character, one ASCII digit for another: Luhn and the two Verhoeff checks,
    the weighted sums modulo 10, 11 and 23, and the numbers modulo 23, 31 and 97.  Of six
    of them (AHV, NHS, the Norwegian number, NRIC, HETU, PPS) only for a text of the length
    and, for the NRIC, the letter first that their rule's pattern matches ([typo_detectors]).
    A digit of another script in an ASCII digit's place is the same digit to them. *)
Theorem check_digits_detect_typos f shape s s' : (f, shape) ∈ typo_detectors -> shape s = true -> typo s s' ->
  f s = Ok true -> f s' <> Ok true.
Proof.
  intros Hin%list_elem_of_In. revert s s'. change (detects f shape). cbn [typo_detectors In] in Hin.
  repeat destruct Hin as [Hin|Hin]; try done; injection Hin as <- <-.
  - apply luhn_ok_detects.
  - apply sin_ok_detects.
  - apply luhn_detects_typo.
  - apply personnummer_ok_detects.
  - apply aadhaar_ok_detects.
  - apply verhoeff_detects_typo.
  - apply tfn_ok_detects.
  - apply dni_ok_detects.
  - apply nir_ok_detects.
  - apply iban_ok_detects.
  - apply ahv_ok_detects.
  - apply nhs_ok_detects.
  - apply fnr_ok_detects.
  - apply nric_ok_detects.
  - apply hetu_ok_detects.
  - apply pps_ok_detects.
Qed.

Lemma check_digits_detect_typos_witness :
  luhn_ok (lit "4111 1111 1111 1111") = Ok true /\ luhn_ok (lit "4111 1171 1111 1111") <> Ok true.
Proof.
  split; [reflexivity|]. apply (check_digits_detect_typos luhn_ok any (lit "4111 1111 1111 1111")).
  - apply list_elem_of_In. by left.
  - done.
  - exists (lit "4111 11"), 49, 55, (lit "1 1111 1111"). done.
  - reflexivity.
Defined.

(** The two Verhoeff validators also accept no text in which two neighbouring
    digits of an accepted one are exchanged. *)
Theorem verhoeff_detects_swaps f s s' : f = aadhaar_ok \/ f = verhoeff -> swapped s s' -> f s = Ok true -> f s' <> Ok true.
Proof.
  intros [-> | ->] Hs H H'; unfold aadhaar_ok, verhoeff in *; unres H; unres H'.
  - destruct (ints_digits _ _ E) as [Hd _]. refine (verhoeff_detects_swap _ _ Hd (swapped_ints _ s s' _ _ _ Hs E E0) _); [|congruence].
    intros c Hc. apply negb_true_iff. by apply (forallb_mem_char (fun x => negb (is_09 x))); [|rewrite Hc].
  - destruct (ints_digits _ _ E) as [Hd _]. refine (verhoeff_detects_swap _ _ Hd (swapped_ints _ s s' _ _ _ Hs E E1) _); [|congruence].
    intros c Hc. unfold isdigit. by rewrite is_09_nd.
Qed.

Lemma verhoeff_detects_swaps_witness :
  aadhaar_ok (lit "2345 6789 1238") = Ok true /\ aadhaar_ok (lit "2345 7689 1238") <> Ok true.
Proof.
  split; [vm_compute; reflexivity|].
  apply (verhoeff_detects_swaps aadhaar_ok (lit "2345 6789 1238")).
  - by left.
  - exists (lit "2345 "), 54, 55, (lit "89 1238"). done.
  - vm_compute. reflexivity.
Defined.

(** The named validators of custom rules keep the characters [str.isdigit] accepts
    and read them with [int], which refuses superscript two: a match holding one raises
    ValueError instead of answering. *)
Theorem named_validators_raise :
  luhn (lit "4111 1111 1111 1111" ++ [178]) = Raise ValueError /\
  verhoeff (lit "2345 6789 1238" ++ [178]) = Raise ValueError.
Proof. split; vm_compute; reflexivity. Qed.
