(* ===== verification/PyRegex.v ===== *)
(** * A backtracking model of Python's [re]

    The constructs the source's patterns use: character classes, concatenation,
    ordered alternation, greedy bounded repetition, named groups, one-character
    lookbehind and [\Z].  [mt] is the backtracking matcher in continuation style
    (it explores alternatives in [re]'s order, so it finds the match [re] finds);
    [rx] is the declarative meaning of a pattern, and the two agree ([mt_sound],
    [mt_complete]).  [scan] is the left-to-right search behind [finditer] and
    [sub]. *)

From S2P Require Import Prelude.

Inductive regex : Type :=
| Chr (p : Z -> bool)
| Eps
| Cat (r1 r2 : regex)
| Alt (r1 r2 : regex)
| Rep (lo : nat) (hi : option nat) (r : regex)
| Grp (name : string) (r : regex)
| Behind (p : Z -> bool)
| NotBehind (p : Z -> bool)
| Eos.

Definition Lit (c : Z) : regex := Chr (Z.eqb c).
Definition star (r : regex) : regex := Rep 0 None r.
Definition plus (r : regex) : regex := Rep 1 None r.
Definition opt (r : regex) : regex := Rep 0 (Some 1%nat) r.

(** Captured groups, the latest capture of a name first. *)
Definition caps : Type := list (string * pystr).

Fixpoint group (cs : caps) (name : string) : pystr :=
  match cs with
  | [] => []
  | (n, w) :: cs' => if String.eqb n name then w else group cs' name
  end.

Definition within (hi : option nat) (n : nat) : bool :=
  match hi with Some h => (n <? h)%nat | None => true end.

Section Matcher.
Context {R : Type}.

(** A matcher: from a position (the text before it, reversed, and after it)
    and the captures so far, to the continuation's first success. *)
Definition matcher : Type :=
  pystr -> pystr -> caps -> (pystr -> pystr -> caps -> option R) -> option R.

(** Greedy repetition of [step], [n] iterations done: one more if it leads to
    a match, else stop when the lower bound is met.  An iteration consumes at
    least one character, so the length of the text bounds [fuel]. *)
Fixpoint rep_loop (step : matcher) (lo : nat) (hi : option nat)
    (k : pystr -> pystr -> caps -> option R)
    (fuel n : nat) (pre suf : pystr) (cs : caps) {struct fuel} : option R :=
  let stop := if (lo <=? n)%nat then k pre suf cs else None in
  match fuel with
  | O => stop
  | S f =>
      if within hi n then
        match step pre suf cs (fun pre' suf' cs' =>
                if (length suf' <? length suf)%nat
                then rep_loop step lo hi k f (S n) pre' suf' cs' else None) with
        | Some x => Some x
        | None => stop
        end
      else stop
  end.

(** [mt r pre suf cs k]: match [r] at the position between [pre] (reversed)
    and [suf], then go on with [k]. *)
Fixpoint mt (r : regex) : matcher := fun pre suf cs k =>
  match r with
  | Chr p =>
      match suf with
      | c :: suf' => if p c then k (c :: pre) suf' cs else None
      | [] => None
      end
  | Eps => k pre suf cs
  | Cat r1 r2 => mt r1 pre suf cs (fun pre' suf' cs' => mt r2 pre' suf' cs' k)
  | Alt r1 r2 =>
      match mt r1 pre suf cs k with
      | Some x => Some x
      | None => mt r2 pre suf cs k
      end
  | Rep lo hi r1 => rep_loop (mt r1) lo hi k (S (length suf)) 0 pre suf cs
  | Grp name r1 =>
      mt r1 pre suf cs (fun pre' suf' cs' =>
        k pre' suf' ((name, take (length suf - length suf') suf) :: cs'))
  | Behind p => match pre with c :: _ => if p c then k pre suf cs else None | [] => None end
  | NotBehind p => match pre with c :: _ => if p c then None else k pre suf cs | [] => k pre suf cs end
  | Eos => match suf with [] => k pre suf cs | _ => None end
  end.
End Matcher.

(** [pattern.match] at a position: the matched text and the groups. *)
Definition match_at (r : regex) (pre suf : pystr) : option (pystr * caps) :=
  mt r pre suf [] (fun _ suf' cs => Some (take (length suf - length suf') suf, cs)).

(** [pattern.fullmatch(s)] *)
Definition fullmatch (r : regex) (s : pystr) : option caps :=
  mt r [] s [] (fun _ suf' cs => match suf' with [] => Some cs | _ => None end).

(** One piece of a searched text: a character no match covers, or a match. *)
Inductive seg : Type :=
| SChar (c : Z)
| SHit (w : pystr) (cs : caps).

(** The search of [finditer] and [sub]: leftmost, non-overlapping matches.  The
    source's patterns never match the empty string; [skip] counts the characters
    of the current match still to pass. *)
Fixpoint scan_go (r : regex) (pre suf : pystr) (skip : nat) : list seg :=
  match suf with
  | [] => []
  | c :: rest =>
      match skip with
      | S k => scan_go r (c :: pre) rest k
      | O => match match_at r pre suf with
             | Some (_ :: w', cs) =>
                 SHit (take (S (length w')) suf) cs :: scan_go r (c :: pre) rest (length w')
             | _ => SChar c :: scan_go r (c :: pre) rest 0
             end
      end
  end.

Definition scan (r : regex) (s : pystr) : list seg := scan_go r [] s 0.

Definition finditer (r : regex) (s : pystr) : list (pystr * caps) :=
  flat_map (fun g => match g with SHit w cs => [(w, cs)] | SChar _ => [] end) (scan r s).

(** [pattern.sub(f, s)] *)
Definition sub (r : regex) (f : pystr -> caps -> pystr) (s : pystr) : pystr :=
  flat_map (fun g => match g with SHit w cs => f w cs | SChar c => [c] end) (scan r s).

(** [pattern.search(s)], as a boolean. *)
Definition search (r : regex) (s : pystr) : bool :=
  match finditer r s with [] => false | _ => true end.

(** ** The declarative meaning of a pattern

    A [spec] says of a word [w] standing between [pre] (reversed) and [suf]
    whether it matches, turning the captures [cs] into [cs']. *)
Definition spec : Type := pystr -> pystr -> pystr -> caps -> caps -> Prop.

Definition within_max (hi : option nat) (n : nat) : Prop :=
  match hi with Some h => (n <= h)%nat | None => True end.

Inductive rx_iter (step : spec) : nat -> spec :=
| rx_iter_O pre suf cs : rx_iter step 0 pre [] suf cs cs
| rx_iter_S n pre w1 w2 suf cs cs1 cs' :
    w1 <> [] -> step pre w1 (w2 ++ suf) cs cs1 ->
    rx_iter step n (rev w1 ++ pre) w2 suf cs1 cs' ->
    rx_iter step (S n) pre (w1 ++ w2) suf cs cs'.

Fixpoint rx (r : regex) : spec := fun pre w suf cs cs' =>
  match r with
  | Chr p => exists c, w = [c] /\ p c = true /\ cs' = cs
  | Eps => w = [] /\ cs' = cs
  | Cat r1 r2 => exists w1 w2 cs1, w = w1 ++ w2 /\
      rx r1 pre w1 (w2 ++ suf) cs cs1 /\ rx r2 (rev w1 ++ pre) w2 suf cs1 cs'
  | Alt r1 r2 => rx r1 pre w suf cs cs' \/ rx r2 pre w suf cs cs'
  | Rep lo hi r1 => exists n, (lo <= n)%nat /\ within_max hi n /\
      rx_iter (rx r1) n pre w suf cs cs'
  | Grp name r1 => exists cs1, rx r1 pre w suf cs cs1 /\ cs' = (name, w) :: cs1
  | Behind p => w = [] /\ cs' = cs /\ exists c pre', pre = c :: pre' /\ p c = true
  | NotBehind p => w = [] /\ cs' = cs /\ match pre with c :: _ => p c = false | [] => True end
  | Eos => w = [] /\ cs' = cs /\ suf = []
  end.

(** ** The matcher agrees with the declarative meaning *)

Lemma take_app_sub {A} (w s : list A) : take (length (w ++ s) - length s) (w ++ s) = w.
Proof. rewrite length_app, Nat.add_sub. apply take_app_length. Qed.

Lemma rev_pre {A} (w1 w2 pre : list A) : rev (w1 ++ w2) ++ pre = rev w2 ++ rev w1 ++ pre.
Proof. by rewrite rev_app_distr, <- app_assoc. Qed.

Section Agreement.
Context {R : Type}.
Implicit Types (k : pystr -> pystr -> caps -> option R) (x : R).

Definition sound (step : @matcher R) (sp : spec) : Prop := forall pre suf cs k x,
  step pre suf cs k = Some x ->
  exists w suf' cs', suf = w ++ suf' /\ sp pre w suf' cs cs' /\
    k (rev w ++ pre) suf' cs' = Some x.

Definition complete (step : @matcher R) (sp : spec) : Prop := forall pre w suf cs cs' k x,
  sp pre w suf cs cs' -> k (rev w ++ pre) suf cs' = Some x ->
  exists y, step pre (w ++ suf) cs k = Some y.

Lemma rep_loop_sound step sp lo hi k fuel : sound step sp ->
  forall n pre suf cs x, within_max hi n ->
  rep_loop step lo hi k fuel n pre suf cs = Some x ->
  exists w suf' cs' m, suf = w ++ suf' /\ (lo <= n + m)%nat /\ within_max hi (n + m) /\
    rx_iter sp m pre w suf' cs cs' /\ k (rev w ++ pre) suf' cs' = Some x.
Proof.
  intros Hs. induction fuel as [|f IH]; intros n pre suf cs x Hhi; cbn [rep_loop]; cbv zeta.
  all: assert (Hstop : (if (lo <=? n)%nat then k pre suf cs else None) = Some x ->
    exists w suf' cs' m, suf = w ++ suf' /\ (lo <= n + m)%nat /\ within_max hi (n + m) /\
      rx_iter sp m pre w suf' cs cs' /\ k (rev w ++ pre) suf' cs' = Some x)
    by (destruct (Nat.leb_spec lo n); [|done]; intros; exists [], suf, cs, 0%nat;
        rewrite Nat.add_0_r; split_and!; (done || constructor)).
  1: done.
  destruct (within hi n) eqn:Hw; [|done]. destruct (step _ _ _ _) eqn:E; [|done].
  intros [= ->]. apply Hs in E as (w1 & s1 & c1 & -> & Hr1 & H).
  destruct (Nat.ltb_spec (length s1) (length (w1 ++ s1))) as [Hlt|]; [|done].
  rewrite length_app in Hlt.
  assert (within_max hi (S n)) as Hhi'.
  { destruct hi; cbn in *; [apply Nat.ltb_lt in Hw; lia|done]. }
  apply (IH _ _ _ _ _ Hhi') in H as (w2 & s2 & c2 & m & -> & Hm1 & Hm2 & Hit & Hk).
  exists (w1 ++ w2), s2, c2, (S m). rewrite <- app_assoc, rev_pre, Nat.add_succ_r.
  split_and!; try done. econstructor; [|done..]. intros ->. cbn in Hlt. lia.
Qed.

Lemma mt_sound r : sound (mt r) (rx r).
Proof.
  induction r as [p| |r1 IH1 r2 IH2|r1 IH1 r2 IH2|lo hi r1 IH1|nm r1 IH1|p|p|];
    intros pre suf cs k x; cbn [mt rx].
  - destruct suf as [|c suf]; [done|]. destruct (p c) eqn:Hp; [|done].
    intros. exists [c], suf, cs. naive_solver.
  - intros. by exists [], suf, cs.
  - intros H. apply IH1 in H as (w1 & s1 & c1 & -> & Hr1 & H).
    apply IH2 in H as (w2 & s2 & c2 & -> & Hr2 & H).
    exists (w1 ++ w2), s2, c2. rewrite rev_pre, <- app_assoc. naive_solver.
  - intros H. destruct (mt r1 pre suf cs k) eqn:E.
    + simplify_eq. apply IH1 in E. naive_solver.
    + apply IH2 in H. naive_solver.
  - intros H. eapply rep_loop_sound in H; [|done|destruct hi; cbn; [lia|done]].
    naive_solver.
  - intros H. apply IH1 in H as (w & s' & c' & -> & Hr & H).
    rewrite take_app_sub in H. exists w, s', ((nm, w) :: c'). naive_solver.
  - destruct pre as [|c pre]; [done|]. destruct (p c) eqn:Hp; [|done].
    intros. exists [], suf, cs. naive_solver.
  - destruct pre as [|c pre]; [|destruct (p c) eqn:Hp; [done|]];
      intros; exists [], suf, cs; naive_solver.
  - destruct suf; [|done]. intros. exists [], [], cs. naive_solver.
Qed.

Lemma rep_loop_complete step sp lo hi k x : complete step sp ->
  forall m n fuel pre w suf cs cs', rx_iter sp m pre w suf cs cs' ->
  (length (w ++ suf) < fuel)%nat -> (lo <= n + m)%nat -> within_max hi (n + m) ->
  k (rev w ++ pre) suf cs' = Some x ->
  exists y, rep_loop step lo hi k fuel n pre (w ++ suf) cs = Some y.
Proof.
  intros Hc. induction m as [|m IH]; intros n fuel pre w suf cs cs' Hit Hf Hlo Hhi Hk;
    inversion Hit as [|? ? w1 w2 ? ? c1 ? Hne H1 H2]; subst;
    destruct fuel as [|f]; [lia| |lia|]; cbn [rep_loop]; cbv zeta.
  - cbn in *. rewrite Nat.add_0_r in *. rewrite (proj2 (Nat.leb_le _ _) Hlo), Hk.
    destruct (within hi n); [destruct (step _ _ _ _)|]; eauto.
  - assert (within hi n = true) as ->.
    { destruct hi; cbn in *; [apply Nat.ltb_lt; lia|done]. }
    rewrite <- !app_assoc in *. rewrite rev_pre in Hk. rewrite !length_app in Hf.
    assert (0 < length w1)%nat by (destruct w1; cbn; [done|lia]).
    edestruct (IH (S n) f) as [y Hy]; [done| |rewrite Nat.add_succ_r in *; done..|].
    { rewrite length_app. lia. }
    destruct (Hc pre w1 (w2 ++ suf) cs c1 (fun pre' suf' cs' =>
      if (length suf' <? length (w1 ++ w2 ++ suf))%nat
      then rep_loop step lo hi k f (S n) pre' suf' cs' else None) y) as [z ->]; [done| |eauto].
    rewrite (proj2 (Nat.ltb_lt _ _)); [done|]. rewrite !length_app. lia.
Qed.

Lemma mt_complete r : complete (mt r) (rx r).
Proof.
  induction r as [p| |r1 IH1 r2 IH2|r1 IH1 r2 IH2|lo hi r1 IH1|nm r1 IH1|p|p|];
    intros pre w suf cs cs' k x; cbn [mt rx].
  - intros (c & -> & Hp & ->) Hk. cbn. rewrite Hp. eauto.
  - intros [-> ->] Hk. eauto.
  - intros (w1 & w2 & c1 & -> & H1 & H2) Hk. rewrite rev_pre in Hk. rewrite <- app_assoc.
    destruct (IH2 _ _ _ _ _ _ _ H2 Hk) as [y Hy]. by eapply IH1.
  - intros [H|H] Hk.
    + destruct (IH1 _ _ _ _ _ _ _ H Hk) as [y ->]. eauto.
    + destruct (mt r1 _ _ _ _); eauto.
  - intros (n & Hlo & Hhi & Hit) Hk.
    by eapply rep_loop_complete with (m := n); [..|lia| | |].
  - intros (c1 & H1 & ->) Hk. eapply IH1; [done|]. cbv beta. rewrite take_app_sub. done.
  - intros (-> & -> & c & pre' & -> & Hp) Hk. cbn. rewrite Hp. eauto.
  - intros (-> & -> & Hp) Hk. destruct pre; [|rewrite Hp]; eauto.
  - intros (-> & -> & ->) Hk. eauto.
Qed.
End Agreement.

(** ** Consequences for whole patterns *)

Lemma rx_iter_chr p n : forall pre w suf cs cs',
  rx_iter (rx (Chr p)) n pre w suf cs cs' <->
  length w = n /\ forallb p w = true /\ cs' = cs.
Proof.
  induction n as [|n IH]; intros pre w suf cs cs'; split.
  - inversion 1; naive_solver.
  - intros (Hl & _ & ->). destruct w; [constructor|done].
  - inversion 1 as [|? ? w1 w2 ? ? c1 ? Hne (c & -> & Hp & ->) H2]; subst.
    apply IH in H2 as (<- & Hf & ->). cbn. by rewrite Hp.
  - intros (Hl & Hf & ->). destruct w as [|c w]; [done|]. cbn in Hl, Hf.
    apply andb_true_iff in Hf as [Hc Hf].
    apply (rx_iter_S _ n pre [c] w suf cs cs cs); [done|cbn; eauto|].
    apply IH. naive_solver.
Qed.

Lemma rx_rep_chr lo hi p pre w suf cs cs' :
  rx (Rep lo hi (Chr p)) pre w suf cs cs' <->
  (lo <= length w)%nat /\ within_max hi (length w) /\ forallb p w = true /\ cs' = cs.
Proof.
  cbn [rx]. setoid_rewrite rx_iter_chr. naive_solver.
Qed.

Lemma match_at_sound r pre suf w cs :
  match_at r pre suf = Some (w, cs) -> exists suf', suf = w ++ suf' /\ rx r pre w suf' [] cs.
Proof.
  unfold match_at. intros H. apply mt_sound in H as (w' & s' & c' & -> & Hr & H).
  rewrite take_app_sub in H. simplify_eq. eauto.
Qed.

Lemma match_at_complete r pre suf w cs :
  rx r pre w suf [] cs -> is_Some (match_at r pre (w ++ suf)).
Proof.
  intros H. unfold match_at.
  destruct (mt_complete (R := pystr * caps) r pre w suf [] cs
    (fun _ suf' c => Some (take (length (w ++ suf) - length suf') (w ++ suf), c)) _ H eq_refl)
    as [y Hy]. exists y. exact Hy.
Qed.

Lemma fullmatch_sound r w cs : fullmatch r w = Some cs -> rx r [] w [] [] cs.
Proof.
  unfold fullmatch. intros H. apply mt_sound in H as (w' & s' & c' & -> & Hr & H).
  destruct s'; [|done]. simplify_eq. by rewrite app_nil_r.
Qed.

Lemma fullmatch_complete r w cs : rx r [] w [] [] cs -> is_Some (fullmatch r w).
Proof.
  intros H. unfold fullmatch.
  destruct (mt_complete (R := caps) r [] w [] [] cs
    (fun _ suf' c => match suf' with [] => Some c | _ => None end) _ H eq_refl) as [y Hy].
  rewrite app_nil_r in Hy. by exists y.
Qed.

(** Whether a text as a whole matches. *)
Definition is_match (r : regex) (w : pystr) : bool :=
  match fullmatch r w with Some _ => true | None => false end.

Lemma is_match_spec r w : is_match r w = true <-> exists cs, rx r [] w [] [] cs.
Proof.
  unfold is_match. split.
  - destruct (fullmatch r w) eqn:E; [|done]. eauto using fullmatch_sound.
  - intros [cs H]. apply fullmatch_complete in H as [y ->]. done.
Qed.

(** Patterns without lookbehind do not depend on what stands before. *)
Fixpoint no_behind (r : regex) : bool :=
  match r with
  | Chr _ | Eps | Eos => true
  | Cat r1 r2 | Alt r1 r2 => no_behind r1 && no_behind r2
  | Rep _ _ r1 | Grp _ r1 => no_behind r1
  | Behind _ | NotBehind _ => false
  end.

Lemma mt_no_behind {R} r : no_behind r = true ->
  forall pre1 pre2 suf cs (k1 k2 : pystr -> pystr -> caps -> option R),
  (forall p1 p2 s c, k1 p1 s c = k2 p2 s c) ->
  mt r pre1 suf cs k1 = mt r pre2 suf cs k2.
Proof.
  induction r as [p| |r1 IH1 r2 IH2|r1 IH1 r2 IH2|lo hi r1 IH1|nm r1 IH1|p|p|];
    cbn [no_behind]; intros Hn pre1 pre2 suf cs k1 k2 Hk; cbn [mt]; try done.
  - destruct suf as [|c suf]; [done|]. destruct (p c); [apply Hk|done].
  - apply andb_true_iff in Hn as [H1 H2]. apply IH1; [done|]. intros. by apply IH2.
  - apply andb_true_iff in Hn as [H1 H2].
    rewrite (IH1 H1 pre1 pre2 _ _ k1 k2 Hk), (IH2 H2 pre1 pre2 _ _ k1 k2 Hk). done.
  - generalize 0%nat as n. generalize (S (length suf)) as fuel.
    intros fuel. revert pre1 pre2 suf cs.
    induction fuel as [|f IH]; intros pre1 pre2 suf cs n; cbn [rep_loop]; cbv zeta.
    + by rewrite (Hk pre1 pre2).
    + rewrite (Hk pre1 pre2). destruct (within hi n); [|done].
      match goal with |- context [mt r1 pre2 suf cs ?k] => rewrite (IH1 Hn pre1 pre2 suf cs _ k) end;
        [done|]. intros p1 p2 s c.
      destruct (length s <? length suf)%nat; [apply IH|done].
  - apply IH1; [done|]. intros. apply Hk.
  - destruct suf; [apply Hk|done].
Qed.

Lemma match_at_pre r pre suf : no_behind r = true -> match_at r pre suf = match_at r [] suf.
Proof. intros H. unfold match_at. by apply mt_no_behind. Qed.

Lemma scan_go_pre r pre suf skip : no_behind r = true ->
  scan_go r pre suf skip = scan_go r [] suf skip.
Proof.
  intros Hn. revert pre skip. assert (forall suf pre1 pre2 skip,
    scan_go r pre1 suf skip = scan_go r pre2 suf skip) as H; [|intros; apply H].
  clear suf. induction suf as [|c rest IH]; intros pre1 pre2 skip; cbn [scan_go]; [done|].
  destruct skip; [|apply IH].
  rewrite (match_at_pre r pre1), (match_at_pre r pre2) by done.
  destruct (match_at r [] (c :: rest)) as [[[|x w'] cs]|]; f_equal; apply IH.
Qed.

Lemma scan_go_skip r pre w suf :
  scan_go r pre (w ++ suf) (length w) = scan_go r (rev w ++ pre) suf 0.
Proof.
  revert pre. induction w as [|c w IH]; intros pre; cbn; [done|].
  rewrite IH. f_equal. by rewrite <- app_assoc.
Qed.

Lemma scan_hit r w cs suf : no_behind r = true -> w <> [] ->
  match_at r [] (w ++ suf) = Some (w, cs) -> scan r (w ++ suf) = SHit w cs :: scan r suf.
Proof.
  intros Hn Hw Hm. unfold scan. destruct w as [|c w]; [done|].
  cbn [app scan_go]. cbn [app] in Hm. rewrite Hm.
  rewrite scan_go_skip, scan_go_pre by done. f_equal. f_equal.
  change (c :: w ++ suf) with ((c :: w) ++ suf).
  change (S (length w)) with (length (c :: w)). apply take_app_length.
Qed.

Lemma scan_char r c suf : no_behind r = true ->
  match_at r [] (c :: suf) = None -> scan r (c :: suf) = SChar c :: scan r suf.
Proof. intros Hn Hm. unfold scan. cbn [scan_go]. rewrite Hm, scan_go_pre; done. Qed.

(** ** Introduction rules and inversion of concrete patterns *)

Lemma rx_chr (p : Z -> bool) pre c suf cs : p c = true -> rx (Chr p) pre [c] suf cs cs.
Proof. cbn. eauto. Qed.

Lemma rx_lit pre c suf cs : rx (Lit c) pre [c] suf cs cs.
Proof. apply rx_chr, Z.eqb_refl. Qed.

Lemma rx_cat r1 r2 pre w1 w2 suf cs cs1 cs' :
  rx r1 pre w1 (w2 ++ suf) cs cs1 -> rx r2 (rev w1 ++ pre) w2 suf cs1 cs' ->
  rx (Cat r1 r2) pre (w1 ++ w2) suf cs cs'.
Proof. cbn. naive_solver. Qed.

Lemma rx_rep lo hi p pre w suf cs :
  (lo <= length w)%nat -> within_max hi (length w) -> forallb p w = true ->
  rx (Rep lo hi (Chr p)) pre w suf cs cs.
Proof. intros. by apply rx_rep_chr. Qed.

Lemma rx_grp name r pre w suf cs cs1 :
  rx r pre w suf cs cs1 -> rx (Grp name r) pre w suf cs ((name, w) :: cs1).
Proof. cbn. naive_solver. Qed.

Lemma rx_opt r pre w suf cs cs' :
  rx (opt r) pre w suf cs cs' <-> (w = [] /\ cs' = cs) \/ (w <> [] /\ rx r pre w suf cs cs').
Proof.
  cbn [opt rx]. split.
  - intros ([|n] & _ & Hn & H); [inversion H; by left|]. cbn in Hn.
    inversion H as [|? ? w1 w2 ? ? c1 ? Hne H1 H2]; subst.
    assert (n = 0%nat) as -> by lia. inversion H2; subst. right.
    rewrite app_nil_r. by destruct w1.
  - intros [[-> ->]|[Hne H]].
    + exists 0%nat. split_and!; [lia|cbn; lia|constructor].
    + exists 1%nat. split_and!; [lia|cbn; lia|]. rewrite <- (app_nil_r w).
      econstructor; [done|done|constructor].
Qed.

(** [rx_intro] builds a match of a word written as a concatenation;
    [rx_inv H] takes a match of a concrete pattern apart. *)
Ltac rx_intro :=
  repeat first
    [ apply rx_lit | eapply rx_cat | eapply rx_grp
    | eapply rx_rep; cbn [within_max] | eapply rx_chr ].

Ltac rx_inv :=
  repeat match goal with
  | H : rx (Cat _ _) _ _ _ _ _ |- _ => destruct H as (? & ? & ? & -> & ? & ?)
  | H : rx (Lit _) _ _ _ _ _ |- _ => destruct H as (? & -> & ?%Z.eqb_eq & ->)
  | H : rx (Chr _) _ _ _ _ _ |- _ => destruct H as (? & -> & ? & ->)
  | H : rx (star (Lit _)) _ _ _ _ _ |- _ => apply rx_rep_chr in H as (? & ? & ? & ->)
  | H : rx (star (Chr _)) _ _ _ _ _ |- _ => apply rx_rep_chr in H as (? & ? & ? & ->)
  | H : rx (Rep _ _ (Chr _)) _ _ _ _ _ |- _ => apply rx_rep_chr in H as (? & ? & ? & ->)
  | H : rx (opt _) _ _ _ _ _ |- _ => apply rx_opt in H as [[-> ->]|[? H]]
  | H : rx (Behind _) _ _ _ _ _ |- _ => destruct H as (-> & -> & ? & ? & ? & ?)
  | H : rx (Grp _ _) _ _ _ _ _ |- _ => destruct H as (? & ? & ->)
  | H : rx Eos _ _ _ _ _ |- _ => destruct H as (-> & -> & ?)
  | H : rx Eps _ _ _ _ _ |- _ => destruct H as (-> & ->)
  end.

#[global] Arguments match_at : simpl never.
#[global] Arguments fullmatch : simpl never.
#[global] Arguments is_match : simpl never.
#[global] Arguments scan : simpl never.
