(* ===== verification/Json.v ===== *)
(** * Parsed JSON values

    The values [json.loads] produces and the walks of the source take apart: a
    number is kept as its source text, since no walk reads it; a [dict] is the
    list of its items in insertion order. *)

From S2P Require Import Prelude.

Inductive json : Type :=
| JNull
| JBool (b : bool)
| JNum (repr : pystr)
| JStr (s : pystr)
| JList (items : list json)
| JDict (items : list (pystr * json)).

(** The number of nodes: what bounds the walks with an explicit stack. *)
Fixpoint jsize (v : json) : nat :=
  match v with
  | JList l => S (list_sum (map jsize l))
  | JDict l => S (list_sum (map (fun kv => S (jsize kv.2)) l))
  | _ => 1%nat
  end.

(** Induction with hypotheses for the items of arrays and objects. *)
Section JsonInd.
Variable P : json -> Prop.
Hypothesis Hnull : P JNull.
Hypothesis Hbool : forall b, P (JBool b).
Hypothesis Hnum : forall s, P (JNum s).
Hypothesis Hstr : forall s, P (JStr s).
Hypothesis Hlist : forall l, Forall P l -> P (JList l).
Hypothesis Hdict : forall l, Forall (fun kv => P kv.2) l -> P (JDict l).

Fixpoint json_ind' (v : json) : P v :=
  match v with
  | JNull => Hnull
  | JBool b => Hbool b
  | JNum s => Hnum s
  | JStr s => Hstr s
  | JList l => Hlist l ((fix go l : Forall P l :=
      match l with
      | [] => Forall_nil_2 _
      | x :: l' => Forall_cons_2 _ _ _ (json_ind' x) (go l')
      end) l)
  | JDict l => Hdict l ((fix go l : Forall (fun kv => P kv.2) l :=
      match l with
      | [] => Forall_nil_2 _
      | x :: l' => Forall_cons_2 (fun kv => P kv.2) x l' (json_ind' x.2) (go l')
      end) l)
  end.
End JsonInd.

(** [d.get(key)] *)
Fixpoint jget (items : list (pystr * json)) (key : pystr) : option json :=
  match items with
  | [] => None
  | (k, v) :: rest => if decide (k = key) then Some v else jget rest key
  end.

Definition is_container (v : json) : bool :=
  match v with JList _ | JDict _ => true | _ => false end.

Definition is_jstr (v : json) : bool := match v with JStr _ => true | _ => false end.

(** Every key and every string of a value. *)
Fixpoint json_texts (v : json) : list pystr :=
  match v with
  | JStr s => [s]
  | JList l => flat_map json_texts l
  | JDict l => flat_map (fun kv => kv.1 :: json_texts kv.2) l
  | _ => []
  end.

(** The nesting of objects and arrays: 0 for a scalar. *)
Fixpoint jdepth (v : json) : nat :=
  match v with
  | JList l => S (list_max (map jdepth l))
  | JDict l => S (list_max (map (fun kv => jdepth kv.2) l))
  | _ => 0%nat
  end.

(** Equality of values, decided. *)
Fixpoint json_eqb (v w : json) {struct v} : bool :=
  match v, w with
  | JNull, JNull => true
  | JBool a, JBool b => Bool.eqb a b
  | JNum a, JNum b => bool_decide (a = b)
  | JStr a, JStr b => bool_decide (a = b)
  | JList l, JList l' =>
      (fix go (l l' : list json) {struct l} : bool :=
         match l, l' with [], [] => true | x :: l, y :: l' => json_eqb x y && go l l' | _, _ => false end) l l'
  | JDict l, JDict l' =>
      (fix go (l l' : list (pystr * json)) {struct l} : bool :=
         match l, l' with
         | [], [] => true
         | (k, x) :: l, (k', y) :: l' => bool_decide (k = k') && json_eqb x y && go l l'
         | _, _ => false
         end) l l'
  | _, _ => false
  end.

Lemma json_eqb_spec v : forall w, json_eqb v w = true <-> v = w.
Proof.
  induction v as [|b|n|t|l IH|l IH] using json_ind'; intros [|b'|n'|t'|l'|l']; cbn; try done.
  - rewrite Bool.eqb_true_iff. split; congruence.
  - rewrite bool_decide_eq_true. split; congruence.
  - rewrite bool_decide_eq_true. split; congruence.
  - revert l'. induction IH as [|x l Hx _ IHl]; intros [|y l']; try done. rewrite andb_true_iff, Hx, IHl. split; [intros [-> [= ->]]; done|by intros [= -> ->]].
  - revert l'. induction IH as [|[k x] l Hx _ IHl]; intros [|[k' y] l']; try done. cbn [snd] in Hx. rewrite !andb_true_iff, bool_decide_eq_true, Hx, IHl.
    split; [intros [[-> ->] [= ->]]; done|by intros [= -> -> ->]].
Qed.

#[export] Instance json_eq_dec : EqDecision json.
Proof.
  intros v w. destruct (json_eqb v w) eqn:E; [left; by apply json_eqb_spec|right]. intros H%json_eqb_spec. congruence.
Defined.
