(* ===== verification/Placeholders.v ===== *)
(** * Placeholder tokens («TYPE_NNN») -- src/llm_redact/placeholders.py

    The strict and the fuzzy token grammar, canonicalization, the prefix test
    behind streaming holdback, and the token floors of a request. *)

From S2P Require Import Prelude PyRegex Json.

Definition MAX_PLACEHOLDER_LEN : Z := 40.
Definition MAX_TOKEN_NUMBER : Z := 999999999.

(** ** Character classes *)
Definition cls_AZ09_ (c : Z) : bool := is_AZ c || is_09 c || (c =? 95).
Definition cls_word (c : Z) : bool := is_AZ c || is_az c || is_09 c || (c =? 95) || (c =? 45).
Definition cls_letter (c : Z) : bool := is_AZ c || is_az c.
Definition cls_pad (c : Z) : bool := (c =? 32) || (c =? 160).
Definition cls_sep (c : Z) : bool := (c =? 95) || (c =? 45).
Definition cls_ab (c : Z) : bool := (c =? 97) || (c =? 65) || (c =? 98) || (c =? 66).
Definition cls_b (c : Z) : bool := (c =? 98) || (c =? 66).
Definition cls_a (c : Z) : bool := (c =? 97) || (c =? 65).

(** [«[A-Z][A-Z0-9_]{0,}_\d{3,}»] *)
Definition PLACEHOLDER_RE : regex :=
  Cat (Lit LAQUO) (Cat (Chr is_AZ) (Cat (star (Chr cls_AZ09_)) (Cat (Lit 95)
    (Cat (Rep 3 None (Chr is_nd)) (Lit RAQUO))))).

(** [«[pad]{0,2}(?P<body>[A-Za-z][A-Za-z0-9_-]{0,30}[_-]0{0,}(?P<n>\d{1,9}))[pad]{0,2}»] *)
Definition FUZZY_PLACEHOLDER_RE : regex :=
  Cat (Lit LAQUO) (Cat (Rep 0 (Some 2%nat) (Chr cls_pad))
    (Cat (Grp "body" (Cat (Chr cls_letter) (Cat (Rep 0 (Some 30%nat) (Chr cls_word))
        (Cat (Chr cls_sep) (Cat (star (Lit 48))
          (Grp "n" (Rep 1 (Some 9%nat) (Chr is_nd))))))))
      (Cat (Rep 0 (Some 2%nat) (Chr cls_pad)) (Lit RAQUO)))).

(** [[pad]{0,2}(?:[A-Za-z][A-Za-z0-9_-]{0,}(?:(?<=\d)[pad]{0,2})?)?\Z] *)
Definition FUZZY_INTERIOR_PREFIX_RE : regex :=
  Cat (Rep 0 (Some 2%nat) (Chr cls_pad))
    (Cat (opt (Cat (Chr cls_letter) (Cat (star (Chr cls_word))
        (opt (Cat (Behind is_nd) (Rep 0 (Some 2%nat) (Chr cls_pad)))))))
      Eos).

Definition BODY_CHAR_RE : regex := Chr cls_AZ09_.

(** [[A-Z][A-Z0-9_]{0,19}\Z] *)
Definition TYPE_NAME_RE : regex :=
  Cat (Chr is_AZ) (Cat (Rep 0 (Some 19%nat) (Chr cls_AZ09_)) Eos).

(** [[A-Z][A-Z0-9_]{0,}\Z] *)
Definition PLACEHOLDER_TYPE_RE : regex := Cat (Chr is_AZ) (Cat (star (Chr cls_AZ09_)) Eos).

(** [«[pad]{0,2}(?P<type>[A-Za-z][A-Za-z0-9_-]{0,})[_-]0{0,}(?P<n>\d{1,9})[pad]{0,2}»] *)
Definition FLOOR_TOKEN_RE : regex :=
  Cat (Lit LAQUO) (Cat (Rep 0 (Some 2%nat) (Chr cls_pad))
    (Cat (Grp "type" (Cat (Chr cls_letter) (star (Chr cls_word))))
      (Cat (Chr cls_sep) (Cat (star (Lit 48))
        (Cat (Grp "n" (Rep 1 (Some 9%nat) (Chr is_nd)))
          (Cat (Rep 0 (Some 2%nat) (Chr cls_pad)) (Lit RAQUO))))))).

(** [\\u00([aAbB])[bB]], the escape of either guillemet *)
Definition GUILLEMET_ESCAPE_RE : regex :=
  Cat (Lit 92) (Cat (Lit 117) (Cat (Lit 48) (Cat (Lit 48)
    (Cat (Grp "1" (Chr cls_ab)) (Chr cls_b))))).

Definition PERCENT_GUILLEMET : regex := Cat (Lit 37) (Cat (Chr cls_a) (Chr cls_b)).

(** ** Tokens *)

Definition format_placeholder (type_name : pystr) (n : Z) : pystr :=
  LAQUO :: type_name ++ lit "_" ++ zfill 3 (str_of_nat n) ++ [RAQUO].

Definition MAX_TYPE_NAME_LEN : Z :=
  MAX_PLACEHOLDER_LEN - zlen (format_placeholder [] MAX_TOKEN_NUMBER).

Definition is_placeholder_type (name : pystr) : bool :=
  (zlen name <=? MAX_TYPE_NAME_LEN) &&
  match match_at PLACEHOLDER_TYPE_RE [] name with Some _ => true | None => false end.

(** [s.upper().replace("-", "_")] of a token body: ASCII letters, decimal
    digits, [_] and [-], so only the ASCII letters change under [upper]. *)
Definition canon_char (c : Z) : Z := if c =? 45 then 95 else ascii_upper c.
Definition canon_body (s : pystr) : pystr := map canon_char s.

(** [s.rpartition("_")]: what stands before the last [_] ([""] without one). *)
Definition rpartition_underscore (s : pystr) : pystr :=
  match rfind_char 95 s with Some i => take i s | None => [] end.

Definition canonicalize (matched : pystr) : option pystr :=
  match fullmatch FUZZY_PLACEHOLDER_RE matched with
  | None => None
  | Some cs =>
      let body := canon_body (group cs "body") in
      let type_name := rpartition_underscore body in
      match type_name with
      | [] => None
      | _ =>
          let canonical := format_placeholder type_name (int_of_digits (group cs "n")) in
          if MAX_PLACEHOLDER_LEN <? zlen canonical then None else Some canonical
      end
  end.

Definition viable_prefix_start (fuzzy : bool) (text : pystr) : option nat :=
  match rfind_char LAQUO text with
  | None => None
  | Some start =>
      let tail := drop start text in
      if mem_char RAQUO tail then None
      else if MAX_PLACEHOLDER_LEN <=? zlen tail then None
      else
        let body := drop 1 tail in
        if fuzzy then
          if is_match FUZZY_INTERIOR_PREFIX_RE body then Some start else None
        else if forallb (fun ch => is_match BODY_CHAR_RE [ch]) body then Some start else None
  end.

(** ** Token floors *)

Abbreviation floors := (gmap pystr Z).

Definition floor_of (fl : floors) (t : pystr) : Z := default 0 (fl !! t).

Definition raise_floor (fl : floors) (t : pystr) (n : Z) : floors :=
  if floor_of fl t <? n then <[t := n]> fl else fl.

Definition unescape_guillemets (text : pystr) : pystr :=
  if contains_sub (lit "\u00") text then
    sub GUILLEMET_ESCAPE_RE
      (fun _ cs => if decide (map ascii_lower (group cs "1") = lit "a") then [LAQUO] else [RAQUO]) text
  else text.

Definition scan_into (text : pystr) (fl : floors) : floors :=
  let text := unescape_guillemets text in
  if negb (mem_char LAQUO text) then fl
  else fold_left (fun fl m =>
         raise_floor fl (canon_body (group m.2 "type")) (int_of_digits (group m.2 "n")))
       (finditer FLOOR_TOKEN_RE text) fl.

Definition token_floors (text : pystr) : floors := scan_into text ∅.

(** [json_floors]: the work list of the source, last pushed first; [fuel] bounds
    the pops and [jsize] of the root is enough. *)
Fixpoint json_floors_go (fuel : nat) (stack : list json) (fl : floors) : floors :=
  match fuel, stack with
  | O, _ | _, [] => fl
  | S f, node :: stack =>
      match node with
      | JStr s => json_floors_go f stack (scan_into s fl)
      | JDict items =>
          json_floors_go f (rev (map (fun kv => JStr kv.1) items ++ map snd items) ++ stack) fl
      | JList items => json_floors_go f (rev items ++ stack) fl
      | _ => json_floors_go f stack fl
      end
  end.

Definition json_floors (obj : json) : floors := json_floors_go (S (jsize obj)) [obj] ∅.

(** [into] raised to [found], per type, in the order [found] lists its items. *)
Definition merge_floors (into : floors) (found : list (pystr * Z)) : floors :=
  fold_left (fun fl tn => raise_floor fl tn.1 tn.2) found into.

Definition may_carry_tokens_str (raw : pystr) : bool :=
  mem_char LAQUO raw || contains_sub (lit "\u00") raw || search PERCENT_GUILLEMET raw.

Definition may_carry_tokens_bytes (raw : pybytes) : bool :=
  mem_char LAQUO raw || contains_sub (lit "\u00") raw || mem_char 0 raw
  || search PERCENT_GUILLEMET raw.

(** ** Examples on concrete input *)

Example format_ex : format_placeholder (lit "EMAIL") 7 = LAQUO :: lit "EMAIL_007" ++ [RAQUO].
Proof. reflexivity. Qed.

Example max_type_name_len_ex : MAX_TYPE_NAME_LEN = 28.
Proof. reflexivity. Qed.

Example canonicalize_ex :
  canonicalize (LAQUO :: lit " email-1" ++ [RAQUO]) = Some (format_placeholder (lit "EMAIL") 1).
Proof. vm_compute. reflexivity. Qed.

Example floors_ex :
  let t := lit "x \u00abemail-3\u00bb " ++ LAQUO :: lit "EMAIL_0012" ++ [RAQUO] in
  floor_of (token_floors t) (lit "EMAIL") = 12.
Proof. vm_compute. reflexivity. Qed.

(** ** The shape of tokens *)

Lemma cls_AZ09_guill c : cls_AZ09_ c = true -> c <> LAQUO /\ c <> RAQUO.
Proof. unfold cls_AZ09_, LAQUO, RAQUO. char_solve. Qed.

Lemma is_AZ_cls c : is_AZ c = true -> cls_AZ09_ c = true.
Proof. unfold cls_AZ09_. by intros ->. Qed.

Lemma is_09_cls c : is_09 c = true -> cls_AZ09_ c = true.
Proof. unfold cls_AZ09_. intros ->. by rewrite orb_true_r. Qed.

(** A decimal digit of any script is none of the delimiters of the grammar. *)
Lemma is_nd_not c : is_nd c = true ->
  c <> LAQUO /\ c <> RAQUO /\ c <> 95 /\ c <> 45 /\ c <> 32 /\ c <> 160.
Proof.
  unfold is_nd. intros (z & Hz & Hc)%existsb_exists.
  assert (forallb (fun z => (48 =? z) || (1632 <=? z)) nd_zeros = true) as Hall by done.
  rewrite forallb_forall in Hall. apply Hall in Hz. unfold between, LAQUO, RAQUO in *. lia.
Qed.

(** [no_guill s]: neither guillemet occurs in [s]. *)
Definition no_guill (s : pystr) : bool := negb (mem_char LAQUO s) && negb (mem_char RAQUO s).

Lemma no_guill_app s t : no_guill (s ++ t) = no_guill s && no_guill t.
Proof.
  unfold no_guill. rewrite !mem_char_app, !negb_orb.
  by destruct (mem_char LAQUO s), (mem_char RAQUO s), (mem_char LAQUO t).
Qed.

Lemma no_guill_forallb p s :
  (forall c, p c = true -> c <> LAQUO /\ c <> RAQUO) -> forallb p s = true -> no_guill s = true.
Proof.
  intros Hp Hs. unfold no_guill.
  rewrite !(forallb_mem_char p); try done.
  - destruct (p RAQUO) eqn:E; [|done]. by apply Hp in E as [_ []].
  - destruct (p LAQUO) eqn:E; [|done]. by apply Hp in E as [[] _].
Qed.

Lemma no_guill_cons c s : no_guill (c :: s) = true <-> c <> LAQUO /\ c <> RAQUO /\ no_guill s = true.
Proof.
  unfold no_guill. rewrite !mem_char_cons, !negb_orb, !andb_true_iff, !negb_true_iff, !Z.eqb_neq.
  naive_solver.
Qed.

(** The strict grammar, spelled out. *)
Lemma rx_placeholder pre w suf cs cs' : rx PLACEHOLDER_RE pre w suf cs cs' <->
  exists a b d, w = LAQUO :: a :: b ++ 95 :: d ++ [RAQUO] /\ is_AZ a = true /\
    forallb cls_AZ09_ b = true /\ (3 <= length d)%nat /\ forallb is_nd d = true /\ cs' = cs.
Proof.
  split.
  - unfold PLACEHOLDER_RE. intros H. rx_inv. subst. naive_solver.
  - intros (a & b & d & -> & Ha & Hb & Hd & Hd' & ->).
    change (rx PLACEHOLDER_RE pre ([LAQUO] ++ [a] ++ b ++ [95] ++ d ++ [RAQUO]) suf cs cs).
    rx_intro; done || lia.
Qed.

(** A regular expression whose matches are delimited by guillemets and hold none
    inside; both token grammars are.  This is what makes searching a text for
    tokens local: see [Rehydrate]. *)
Class Delimited (r : regex) : Prop := {
  delim_shape pre w suf cs cs' : rx r pre w suf cs cs' ->
    exists b, w = LAQUO :: b ++ [RAQUO] /\ no_guill b = true;
  delim_ctx pre w suf pre' suf' cs cs' : rx r pre w suf cs cs' -> rx r pre' w suf' cs cs';
  delim_no_behind : no_behind r = true
}.

#[export] Instance placeholder_delimited : Delimited PLACEHOLDER_RE.
Proof.
  split; [|intros pre w suf pre' suf' cs cs'; by rewrite !rx_placeholder|done].
  intros pre w suf cs cs' (a & b & d & -> & Ha & Hb & _ & Hd & _)%rx_placeholder.
  exists (a :: b ++ 95 :: d). split; [cbn; by rewrite <- app_assoc|].
  apply no_guill_cons. apply is_AZ_cls, cls_AZ09_guill in Ha as [??]. split_and!; [done..|].
  rewrite no_guill_app, (no_guill_forallb _ _ cls_AZ09_guill Hb).
  apply no_guill_cons. split_and!; [done..|].
  eapply no_guill_forallb; [|done]. intros c Hc%is_nd_not. tauto.
Qed.

(** The fuzzy grammar, spelled out. *)
Lemma rx_fuzzy pre w suf cs cs' : rx FUZZY_PLACEHOLDER_RE pre w suf cs cs' <->
  exists p1 a b s z n p2,
    w = LAQUO :: p1 ++ (a :: b ++ s :: z ++ n) ++ p2 ++ [RAQUO] /\
    (length p1 <= 2)%nat /\ forallb cls_pad p1 = true /\ cls_letter a = true /\
    (length b <= 30)%nat /\ forallb cls_word b = true /\ cls_sep s = true /\
    forallb (Z.eqb 48) z = true /\ (1 <= length n <= 9)%nat /\ forallb is_nd n = true /\
    (length p2 <= 2)%nat /\ forallb cls_pad p2 = true /\
    cs' = ("body"%string, a :: b ++ s :: z ++ n) :: ("n"%string, n) :: cs.
Proof.
  split.
  - unfold FUZZY_PLACEHOLDER_RE. intros H. rx_inv. subst. cbn [within_max] in *.
    do 7 eexists. split; [cbn; reflexivity|]. split_and!; done.
  - intros (p1 & a & b & s & z & n & p2 & -> & ? & ? & ? & ? & ? & ? & ? & ? & ? & ? & ? & ->).
    change (rx FUZZY_PLACEHOLDER_RE pre
      ([LAQUO] ++ p1 ++ ([a] ++ b ++ [s] ++ z ++ n) ++ p2 ++ [RAQUO]) suf cs
      (("body"%string, [a] ++ b ++ [s] ++ z ++ n) :: ("n"%string, n) :: cs)).
    rx_intro; done || lia.
Qed.

Lemma cls_word_guill c : cls_word c = true -> c <> LAQUO /\ c <> RAQUO.
Proof. unfold cls_word, LAQUO, RAQUO. char_solve. Qed.
Lemma cls_pad_guill c : cls_pad c = true -> c <> LAQUO /\ c <> RAQUO.
Proof. unfold cls_pad, LAQUO, RAQUO. lia. Qed.
Lemma cls_letter_word c : cls_letter c = true -> cls_word c = true.
Proof. unfold cls_letter, cls_word. by intros ->. Qed.
Lemma cls_sep_word c : cls_sep c = true -> cls_word c = true.
Proof. unfold cls_sep, cls_word. lia. Qed.
Lemma zero_word c : (48 =? c) = true -> cls_word c = true.
Proof. unfold cls_word. intros <-%Z.eqb_eq. done. Qed.
Lemma zero_nd c : (48 =? c) = true -> is_nd c = true.
Proof. by intros <-%Z.eqb_eq. Qed.
Lemma is_nd_guill c : is_nd c = true -> c <> LAQUO /\ c <> RAQUO.
Proof. intros ?%is_nd_not. tauto. Qed.

#[export] Hint Resolve cls_AZ09_guill cls_word_guill cls_pad_guill is_nd_guill
  cls_letter_word cls_sep_word zero_word zero_nd is_AZ_cls is_09_cls is_09_nd : redact.

(** Solve [no_guill] of a concatenation of words of guillemet-free classes. *)
Ltac no_guill_solve :=
  repeat match goal with
  | |- no_guill (_ ++ _) = true => rewrite no_guill_app; apply andb_true_iff; split
  | |- no_guill (_ :: _) = true => apply no_guill_cons; split_and!
  | |- no_guill [] = true => done
  | H : forallb _ ?s = true |- no_guill ?s = true =>
      apply (no_guill_forallb _ _) with (2 := H); solve [eauto with redact]
  end.

#[export] Instance fuzzy_delimited : Delimited FUZZY_PLACEHOLDER_RE.
Proof.
  split; [|intros pre w suf pre' suf' cs cs'; by rewrite !rx_fuzzy|done].
  intros pre w suf cs cs'
    (p1 & a & b & s & z & n & p2 & -> & _ & Hp1 & Ha & _ & Hb & Hs & Hz & _ & Hn & _ & Hp2 & _)%rx_fuzzy.
  exists (p1 ++ (a :: b ++ s :: z ++ n) ++ p2). split.
  { by rewrite app_comm_cons, <- !app_assoc. }
  assert (forallb cls_word z = true) by (eapply forallb_impl; [|done]; eauto with redact).
  apply cls_letter_word, cls_word_guill in Ha as [??].
  apply cls_sep_word, cls_word_guill in Hs as [??].
  no_guill_solve; done.
Qed.

(** ** Issued tokens

    A token is taken apart by [rpartition "_"] on its inside, the way the source
    reads a restored token's type. *)
Definition token_type (tok : pystr) : pystr :=
  rpartition_underscore (pyslice tok 1 (-1)).

Lemma rpartition_underscore_app t d :
  forallb is_nd d = true -> rpartition_underscore (t ++ 95 :: d) = t.
Proof.
  intros Hd. unfold rpartition_underscore.
  rewrite (proj2 (rfind_char_Some 95 (t ++ 95 :: d) (length t))).
  - by rewrite take_app_length.
  - exists t, d. split_and!; [done..|]. eapply forallb_mem_char; [done|reflexivity].
Qed.

Lemma pyslice_inside {A} (x y : A) l : pyslice (x :: l ++ [y]) 1 (-1) = l.
Proof.
  unfold pyslice, py_bound. cbn [length]. rewrite length_app. cbn [length].
  replace (Z.to_nat (Z.min (Z.of_nat (S (length l + 1))) (if 1 <? 0 then _ else 1))) with 1%nat
    by (change (1 <? 0) with false; cbv iota; lia).
  replace (Z.to_nat _ - 1)%nat with (length l) by (change (-1 <? 0) with true; cbv iota; lia).
  cbn. apply take_app_length.
Qed.

(** The decimal digits of an issued token. *)
Definition token_digits (n : Z) : pystr := zfill 3 (str_of_nat n).

Lemma forallb_zfill p w s : p 48 = true -> forallb p (zfill w s) = forallb p s.
Proof.
  intros Hp. unfold zfill. rewrite forallb_app. induction (w - length s)%nat; [done|].
  cbn. by rewrite Hp.
Qed.

Lemma token_digits_spec n : 0 <= n ->
  forallb is_09 (token_digits n) = true /\ forallb is_nd (token_digits n) = true /\
  (3 <= length (token_digits n))%nat /\ int_of_digits (token_digits n) = n.
Proof.
  intros Hn. destruct (str_of_nat_spec n Hn) as (H9 & Hi & Hne). unfold token_digits.
  assert (forallb is_09 (zfill 3 (str_of_nat n)) = true) as H9' by (rewrite forallb_zfill; done).
  split_and!; [done| |..].
  - eapply forallb_impl; [|done]. eauto with redact.
  - unfold zfill. rewrite length_app, length_replicate. lia.
  - by rewrite int_of_digits_zfill.
Qed.

Lemma token_digits_len n : 0 <= n <= MAX_TOKEN_NUMBER -> (length (token_digits n) <= 9)%nat.
Proof.
  intros Hn. unfold token_digits, zfill. rewrite length_app, length_replicate.
  assert (length (str_of_nat n) <= 9)%nat; [|lia].
  unfold str_of_nat. rewrite (digits_fuel_len _ _ [] 9); [cbn; lia| |lia].
  unfold MAX_TOKEN_NUMBER in Hn. cbn. lia.
Qed.

Lemma format_placeholder_eq ty n :
  format_placeholder ty n = LAQUO :: (ty ++ 95 :: token_digits n) ++ [RAQUO].
Proof. unfold format_placeholder, token_digits. change (lit "_") with [95]. by rewrite <- app_assoc. Qed.

Lemma token_type_format ty n : 0 <= n -> token_type (format_placeholder ty n) = ty.
Proof.
  intros Hn. unfold token_type. rewrite format_placeholder_eq, pyslice_inside.
  apply rpartition_underscore_app. by apply token_digits_spec.
Qed.

(** Distinct (type, number) pairs give distinct tokens. *)
Lemma format_placeholder_inj ty n ty' n' : 0 <= n -> 0 <= n' ->
  format_placeholder ty n = format_placeholder ty' n' -> ty = ty' /\ n = n'.
Proof.
  intros Hn Hn' H. pose proof (f_equal token_type H) as Ht.
  rewrite !token_type_format in Ht by done. subst ty'. split; [done|].
  rewrite !format_placeholder_eq in H. injection H as H.
  apply app_inj_tail in H as [H _]. apply app_inv_head in H. injection H as H.
  destruct (token_digits_spec n Hn) as (_ & _ & _ & <-).
  destruct (token_digits_spec n' Hn') as (_ & _ & _ & <-). by rewrite H.
Qed.

(** A placeholder type, spelled out. *)
Lemma is_placeholder_type_spec ty : is_placeholder_type ty = true <->
  (length ty <= 28)%nat /\ exists a b, ty = a :: b /\ is_AZ a = true /\ forallb cls_AZ09_ b = true.
Proof.
  unfold is_placeholder_type. rewrite andb_true_iff, max_type_name_len_ex, Z.leb_le.
  unfold zlen. split.
  - intros [Hl H]. split; [lia|].
    destruct (match_at _ _ _) as [[w cs]|] eqn:E; [|done].
    apply match_at_sound in E as (s & -> & Hr). unfold PLACEHOLDER_TYPE_RE in Hr. rx_inv. subst.
    do 2 eexists. rewrite !app_nil_r. cbn. split_and!; done.
  - intros [Hl (a & b & -> & Ha & Hb)]. split; [lia|].
    assert (rx PLACEHOLDER_TYPE_RE [] ([a] ++ b ++ []) [] [] []) as Hr.
    { unfold PLACEHOLDER_TYPE_RE. rx_intro; try done; try lia. }
    apply match_at_complete in Hr as [[w cs] Hm]. rewrite !app_nil_r in Hm. cbn in Hm.
    by rewrite Hm.
Qed.

Lemma placeholder_type_cls ty : is_placeholder_type ty = true -> forallb cls_AZ09_ ty = true.
Proof.
  intros (_ & a & b & -> & Ha & Hb)%is_placeholder_type_spec. cbn. by rewrite is_AZ_cls.
Qed.

#[export] Hint Resolve placeholder_type_cls : redact.

Lemma canon_nd c : is_nd c = true -> canon_char c = c.
Proof.
  unfold is_nd. intros (z & Hz & Hc)%existsb_exists.
  assert (forallb (fun z => (48 =? z) || (1632 <=? z)) nd_zeros = true) as Hall by done.
  rewrite forallb_forall in Hall. apply Hall in Hz.
  unfold canon_char, between in *. destruct (Z.eqb_spec c 45); [char_solve|].
  unfold ascii_upper. destruct (is_az c) eqn:E; [|done]. char_solve.
Qed.

Lemma canon_AZ09 c : cls_AZ09_ c = true -> canon_char c = c.
Proof.
  unfold cls_AZ09_, canon_char. intros H. destruct (Z.eqb_spec c 45); [char_solve|].
  unfold ascii_upper. destruct (is_az c) eqn:E; [char_solve|done].
Qed.

Lemma canon_word c : cls_word c = true -> cls_AZ09_ (canon_char c) = true.
Proof.
  unfold cls_AZ09_, cls_word, canon_char. intros H. destruct (Z.eqb_spec c 45); [done|].
  unfold ascii_upper. destruct (is_az c) eqn:E; char_solve.
Qed.

Lemma canon_letter c : cls_letter c = true -> is_AZ (canon_char c) = true.
Proof.
  unfold cls_letter, canon_char. intros H. destruct (Z.eqb_spec c 45); [char_solve|].
  unfold ascii_upper. destruct (is_az c) eqn:E; char_solve.
Qed.

Lemma map_id_on {A} (f : A -> A) p l :
  (forall x, p x = true -> f x = x) -> forallb p l = true -> map f l = l.
Proof.
  intros H. induction l as [|x l IH]; [done|]. cbn. intros [Hx Hl]%andb_true_iff.
  by rewrite H, IH.
Qed.

Lemma forallb_map {A B} (f : A -> B) (p : A -> bool) (q : B -> bool) l :
  (forall x, p x = true -> q (f x) = true) -> forallb p l = true -> forallb q (map f l) = true.
Proof.
  intros H. induction l as [|x l IH]; [done|]. cbn. intros [Hx Hl]%andb_true_iff.
  by rewrite H, IH.
Qed.

Lemma int_of_digits_lead z n : forallb (Z.eqb 48) z = true ->
  int_of_digits (z ++ n) = int_of_digits n.
Proof.
  induction z as [|c z IH]; [done|]. cbn. intros [<-%Z.eqb_eq Hz]%andb_true_iff.
  by rewrite int_of_digits_cons, IH.
Qed.

Lemma int_of_digits_bound s : forallb is_nd s = true -> 0 <= int_of_digits s < 10 ^ zlen s.
Proof.
  induction s as [|c s IH]; [done|]. cbn [forallb]. intros [Hc Hs]%andb_true_iff.
  rewrite int_of_digits_cons, zlen_cons, Z.pow_add_r by (auto with redact; lia).
  specialize (IH Hs). assert (0 <= nd_value c <= 9); [|nia].
  clear -Hc. unfold is_nd in Hc. unfold nd_value. revert Hc.
  generalize nd_zeros as zs. induction zs as [|z zs IHz]; cbn; [done|].
  destruct (between z (z + 9) c) eqn:E; [unfold between in E; lia|]. apply IHz.
Qed.

Lemma pad_not_word c : cls_pad c = true -> cls_word c = false.
Proof. unfold cls_pad, cls_word. intros H. apply not_true_iff_false. intros H'. char_solve. Qed.

Lemma nd_not_sep c : is_nd c = true -> cls_sep c = false.
Proof. intros ?%is_nd_not. unfold cls_sep. lia. Qed.

Lemma nd_not_pad c : is_nd c = true -> cls_pad c = false.
Proof. intros ?%is_nd_not. unfold cls_pad. lia. Qed.

Lemma letter_not_pad c : cls_letter c = true -> cls_pad c = false.
Proof. unfold cls_letter, cls_pad. char_solve. Qed.

Lemma lead_zeros_nd z n :
  forallb (Z.eqb 48) z = true -> forallb is_nd n = true -> forallb is_nd (z ++ n) = true.
Proof.
  intros Hz Hn. rewrite forallb_app, Hn, andb_true_r. eapply forallb_impl; [|done].
  eauto with redact.
Qed.

Lemma forallb_snoc_inv {A} (p : A -> bool) l : l <> [] -> forallb p l = true ->
  exists l0 x, l = l0 ++ [x] /\ p x = true.
Proof.
  intros Hne Hl. destruct (exists_last Hne) as (l0 & x & ->). exists l0, x. split; [done|].
  rewrite forallb_app in Hl. cbn in Hl. by destruct (p x), (forallb p l0).
Qed.

(** A fuzzy token is read in one way: the pads, the type part and the digits. *)
Lemma fuzzy_parts_unique p1 a b s d p2 p1' a' b' s' d' p2' :
  LAQUO :: p1 ++ (a :: b ++ s :: d) ++ p2 ++ [RAQUO]
    = LAQUO :: p1' ++ (a' :: b' ++ s' :: d') ++ p2' ++ [RAQUO] ->
  cls_letter a = true -> cls_letter a' = true -> cls_sep s = true -> cls_sep s' = true ->
  forallb is_nd d = true -> forallb is_nd d' = true -> d <> [] -> d' <> [] ->
  forallb cls_pad p1 = true -> forallb cls_pad p1' = true ->
  forallb cls_pad p2 = true -> forallb cls_pad p2' = true ->
  a :: b = a' :: b' /\ d = d'.
Proof.
  intros [= H] Ha Ha' Hs Hs' Hd Hd' Hne Hne' Hp1 Hp1' Hp2 Hp2'.
  assert (forall l, forallb cls_pad l = true ->
    forallb (fun c => negb (negb (cls_pad c))) l = true) as Hnn
    by (intros l; apply forallb_impl; intros c ->; done).
  cbn in H.
  apply (app_sep_inj_l (fun c => negb (cls_pad c))) in H as (_ & -> & H);
    [|by rewrite letter_not_pad..|by auto|by auto].
  rewrite !(app_assoc _ _ [RAQUO]) in H. apply app_inj_tail in H as [H _].
  rewrite <- !app_assoc in H. cbn in H.
  destruct (forallb_snoc_inv _ _ Hne Hd) as (d0 & x & -> & Hx).
  destruct (forallb_snoc_inv _ _ Hne' Hd') as (d0' & x' & -> & Hx').
  assert ((b ++ s :: d0) ++ x :: p2 = (b' ++ s' :: d0') ++ x' :: p2') as H'.
  { rewrite <- !app_assoc in H. rewrite <- !app_assoc. exact H. }
  apply (app_sep_inj (fun c => negb (cls_pad c))) in H' as (H' & -> & _);
    [|by rewrite nd_not_pad..|by auto|by auto].
  rewrite forallb_app in Hd, Hd'. bool_simpl.
  assert (forall l, forallb is_nd l = true -> forallb (fun c => negb (cls_sep c)) l = true) as Hns
    by (intros l; apply forallb_impl; intros c ?; by rewrite nd_not_sep).
  apply (app_sep_inj cls_sep) in H' as (-> & _ & ->); auto.
Qed.

(** What [canonicalize] computes from a fuzzy token's parts. *)
Lemma canonicalize_parts p1 a b s z n p2 :
  (length p1 <= 2)%nat -> forallb cls_pad p1 = true -> cls_letter a = true ->
  (length b <= 30)%nat -> forallb cls_word b = true -> cls_sep s = true ->
  forallb (Z.eqb 48) z = true -> (1 <= length n <= 9)%nat -> forallb is_nd n = true ->
  (length p2 <= 2)%nat -> forallb cls_pad p2 = true ->
  canonicalize (LAQUO :: p1 ++ (a :: b ++ s :: z ++ n) ++ p2 ++ [RAQUO]) =
    let c := format_placeholder (map canon_char (a :: b)) (int_of_digits (z ++ n)) in
    if MAX_PLACEHOLDER_LEN <? zlen c then None else Some c.
Proof.
  intros Hp1l Hp1 Ha Hbl Hb Hs Hz Hnl Hn Hp2l Hp2.
  assert (rx FUZZY_PLACEHOLDER_RE [] (LAQUO :: p1 ++ (a :: b ++ s :: z ++ n) ++ p2 ++ [RAQUO]) [] []
    (("body"%string, a :: b ++ s :: z ++ n) :: ("n"%string, n) :: [])) as Hr.
  { apply rx_fuzzy. exists p1, a, b, s, z, n, p2. split_and!; done || lia. }
  apply fullmatch_complete in Hr as [cs Hm]. unfold canonicalize. rewrite Hm.
  apply fullmatch_sound, rx_fuzzy in Hm
    as (p1' & a' & b' & s' & z' & n' & p2' & Heq & _ & Hp1' & Ha' & _ & Hb' & Hs' & Hz' & [Hnl' _]
        & Hn' & _ & Hp2' & ->).
  destruct (fuzzy_parts_unique _ _ _ _ _ _ _ _ _ _ _ _ Heq)
    as ([= <- <-] & Hzn); eauto using lead_zeros_nd.
  { destruct z, n; done || (cbn in Hnl; lia). }
  { destruct z', n'; done || (cbn in Hnl'; lia). }
  assert (canon_body (a :: b ++ s' :: z' ++ n') = map canon_char (a :: b) ++ 95 :: z ++ n) as Hbody.
  { unfold canon_body. rewrite app_comm_cons, map_app. f_equal. cbn [map]. f_equal.
    - unfold cls_sep in Hs'. unfold canon_char. destruct (Z.eqb_spec s' 45); [done|].
      assert (s' = 95) as -> by lia. done.
    - rewrite <- Hzn. apply (map_id_on _ is_nd); eauto using lead_zeros_nd, canon_nd. }
  change (group _ "body") with (a :: b ++ s' :: z' ++ n'). change (group _ "n") with n'.
  rewrite Hbody, rpartition_underscore_app by (by apply lead_zeros_nd).
  by rewrite <- (int_of_digits_lead z' n' Hz'), <- Hzn.
Qed.

(** Every token a vault can issue for a valid type fits the strict grammar and
    [MAX_PLACEHOLDER_LEN]. *)
Lemma is_match_format a b n : is_AZ a = true -> forallb cls_AZ09_ b = true -> 0 <= n ->
  is_match PLACEHOLDER_RE (format_placeholder (a :: b) n) = true.
Proof.
  intros Ha Hb Hn. apply is_match_spec. exists [].
  apply rx_placeholder. exists a, b, (token_digits n).
  destruct (token_digits_spec n Hn) as (_ & ? & ? & _).
  split_and!; done.
Qed.

Lemma issued_is_match ty n : is_placeholder_type ty = true -> 0 <= n ->
  is_match PLACEHOLDER_RE (format_placeholder ty n) = true.
Proof. intros (_ & a & b & -> & Ha & Hb)%is_placeholder_type_spec Hn. by apply is_match_format. Qed.

Lemma issued_length ty n : is_placeholder_type ty = true -> 0 <= n <= MAX_TOKEN_NUMBER ->
  zlen (format_placeholder ty n) <= MAX_PLACEHOLDER_LEN.
Proof.
  intros [Hl _]%is_placeholder_type_spec Hn. apply token_digits_len in Hn.
  rewrite format_placeholder_eq. unfold zlen, MAX_PLACEHOLDER_LEN. cbn.
  rewrite !length_app. cbn. lia.
Qed.

(** A canonical token within the length limit canonicalizes to itself. *)
Lemma canonicalize_format a b n : is_AZ a = true -> forallb cls_AZ09_ b = true ->
  (length b <= 30)%nat -> 0 <= n <= MAX_TOKEN_NUMBER ->
  zlen (format_placeholder (a :: b) n) <= MAX_PLACEHOLDER_LEN ->
  canonicalize (format_placeholder (a :: b) n) = Some (format_placeholder (a :: b) n).
Proof.
  intros Ha Hb Hbl Hn Hlen.
  assert (format_placeholder (a :: b) n
    = LAQUO :: [] ++ (a :: b ++ 95 :: [] ++ token_digits n) ++ [] ++ [RAQUO]) as Heq
    by (rewrite format_placeholder_eq; done).
  destruct (token_digits_spec n) as (_ & Hd & Hd3 & Hi); [lia|].
  rewrite Heq at 1. rewrite canonicalize_parts; try done; try (cbn; lia).
  - cbn [app]. rewrite Hi, (map_id_on _ cls_AZ09_); [|apply canon_AZ09|cbn; by rewrite is_AZ_cls].
    cbv zeta. destruct (Z.ltb_spec MAX_PLACEHOLDER_LEN (zlen (format_placeholder (a :: b) n))); [lia|done].
  - unfold cls_letter. by rewrite Ha.
  - eapply forallb_impl; [|done]. unfold cls_AZ09_, cls_word. intros. char_solve.
  - apply token_digits_len in Hn. lia.
Qed.

Lemma canonicalize_issued_id ty n : is_placeholder_type ty = true -> 0 <= n <= MAX_TOKEN_NUMBER ->
  canonicalize (format_placeholder ty n) = Some (format_placeholder ty n).
Proof.
  intros Hty Hn. pose proof (issued_length ty n Hty Hn) as Hlen.
  apply is_placeholder_type_spec in Hty as (Hl & a & b & -> & Ha & Hb).
  apply canonicalize_format; try done. cbn in Hl. lia.
Qed.

Lemma canonicalize_inv m c : canonicalize m = Some c ->
  exists a b n, c = format_placeholder (a :: b) n /\ is_AZ a = true /\
    forallb cls_AZ09_ b = true /\ (length b <= 30)%nat /\ 0 <= n <= MAX_TOKEN_NUMBER /\
    zlen c <= MAX_PLACEHOLDER_LEN.
Proof.
  intros H.
  assert (is_match FUZZY_PLACEHOLDER_RE m = true) as Hm.
  { unfold is_match. unfold canonicalize in H. by destruct (fullmatch _ _). }
  apply is_match_spec in Hm as [cs Hm]. apply rx_fuzzy in Hm
    as (p1 & a & b & s & z & n & p2 & -> & Hp1l & Hp1 & Ha & Hbl & Hb & Hs & Hz & Hnl & Hn & Hp2l & Hp2 & _).
  rewrite canonicalize_parts in H by done. cbv zeta in H. cbn [map] in H.
  destruct (Z.ltb_spec MAX_PLACEHOLDER_LEN (zlen (format_placeholder
    (canon_char a :: map canon_char b) (int_of_digits (z ++ n))))); [done|]. simplify_eq.
  exists (canon_char a), (map canon_char b), (int_of_digits (z ++ n)).
  rewrite length_map, int_of_digits_lead in * by done. split_and!; eauto using canon_letter.
  - apply (forallb_map _ cls_word); eauto using canon_word.
  - apply (int_of_digits_bound n Hn).
  - pose proof (int_of_digits_bound n Hn) as [_ Hi].
    assert (10 ^ zlen n <= 10 ^ 9); [|unfold MAX_TOKEN_NUMBER; lia].
    apply Z.pow_le_mono_r; unfold zlen; lia.
Qed.

(** A fuzzy token that canonicalizes at all gives a token of the strict
    grammar, at most [MAX_PLACEHOLDER_LEN] characters long, on which
    [canonicalize] is idempotent -- so what is looked up in a vault is always in
    canonical form. *)
Theorem canonicalize_canonical m c : canonicalize m = Some c ->
  is_match PLACEHOLDER_RE c = true /\ zlen c <= MAX_PLACEHOLDER_LEN /\ canonicalize c = Some c.
Proof.
  intros (a & b & n & -> & Ha & Hb & Hbl & Hn & Hlen)%canonicalize_inv.
  split_and!; [apply is_match_format|..|apply canonicalize_format]; done || lia.
Qed.

Lemma canonicalize_canonical_witness :
  let c := format_placeholder (lit "EMAIL") 1 in
  is_match PLACEHOLDER_RE c = true /\ zlen c <= MAX_PLACEHOLDER_LEN /\ canonicalize c = Some c.
Proof.
  apply (canonicalize_canonical (LAQUO :: lit " email-0001" ++ [RAQUO])).
  vm_compute. reflexivity.
Defined.
