(* ===== verification/JsonWalk.v ===== *)
(** * Walks over parsed JSON -- src/llm_redact/jsonwalk.py

    The transformation of every string value that redaction and rehydration
    share, with its skip rules, and the bounded parse's depth and duplicate-key
    checks.  The transformed function may keep state and raise, so the walks are
    monadic. *)

From S2P Require Import Prelude PyRegex Json.

Definition STRUCTURAL_KEYS : gset pystr := list_to_set (map lit
  ["model"; "role"; "type"; "id"; "name"; "tool_use_id"; "tool_call_id"; "call_id";
   "previous_response_id"; "media_type"; "stop_reason"; "stop_sequence"; "finish_reason";
   "data"; "signature"]%string).

Definition pos (parent key : string) : option pystr * pystr := (Some (lit parent), lit key).

Definition OPAQUE_POSITIONS : gset (option pystr * pystr) := list_to_set
  [pos "functionCall" "args"; pos "function_call" "args";
   pos "functionResponse" "response"; pos "function_response" "response";
   pos "functionResponses" "response"; pos "function_responses" "response";
   pos "functionCalls" "args"; pos "function_calls" "args";
   pos "content" "input"; pos "toolUse" "input"; pos "content" "json";
   pos "document" "data"; pos "tool_results" "outputs"; pos "call" "parameters";
   pos "tool_calls" "parameters"; pos "function" "arguments"; pos "prompt" "variables";
   (None, lit "instances"); (None, lit "parameters")].

Definition OPAQUE_ANYWHERE : gset pystr :=
  list_to_set (map lit ["attributes"; "documents"; "metadata"; "requestMetadata"]%string).

Definition ENUM_LIST_POSITIONS : gset (option pystr * pystr) := list_to_set
  [pos "session" "modalities"; pos "response" "modalities";
   pos "session" "output_modalities"; pos "response" "output_modalities";
   pos "generationConfig" "responseModalities"; pos "generationConfig" "response_modalities";
   pos "generation_config" "responseModalities"; pos "generation_config" "response_modalities"].

Definition MEDIA_POSITIONS : gset (option pystr * pystr) := {[pos "source" "bytes"]}.

(** The key sets the source tests first ([_OPAQUE_KEYS], [_ENUM_LIST_KEYS],
    [_MEDIA_KEYS]). *)
Definition keys_of (s : gset (option pystr * pystr)) : gset pystr := set_map snd s.
Definition OPAQUE_KEYS : gset pystr := keys_of OPAQUE_POSITIONS ∪ OPAQUE_ANYWHERE.
Definition ENUM_LIST_KEYS : gset pystr := keys_of ENUM_LIST_POSITIONS.
Definition MEDIA_KEYS : gset pystr := keys_of MEDIA_POSITIONS.

Definition is_opaque (parent : option pystr) (key : pystr) : bool :=
  bool_decide (key ∈ OPAQUE_KEYS) &&
  (bool_decide (key ∈ OPAQUE_ANYWHERE) || bool_decide ((parent, key) ∈ OPAQUE_POSITIONS)).

Definition is_media (parent : option pystr) (key : pystr) (value : json) : bool :=
  bool_decide (key ∈ MEDIA_KEYS) && bool_decide ((parent, key) ∈ MEDIA_POSITIONS) && is_jstr value.

Definition is_enum_list (parent : option pystr) (key : pystr) (value : json) : bool :=
  bool_decide (key ∈ ENUM_LIST_KEYS) && bool_decide ((parent, key) ∈ ENUM_LIST_POSITIONS) &&
  match value with JList items => negb (existsb is_container items) | _ => false end.

(** ** The walks *)
Section Walk.
Context {St E : Type}.
Local Open Scope mon_scope.

Abbreviation transform := (pystr -> M St E pystr).

Fixpoint walk_opaque (fn : transform) (obj : json) {struct obj} : M St E json :=
  match obj with
  | JStr s => t <~ fn s;; mret (JStr t)
  | JList items =>
      l <~ (fix go (l : list json) : M St E (list json) :=
              match l with
              | [] => mret []
              | x :: l' => x' <~ walk_opaque fn x;; r <~ go l';; mret (x' :: r)
              end) items;;
      mret (JList l)
  | JDict items =>
      l <~ (fix go (l : list (pystr * json)) : M St E (list (pystr * json)) :=
              match l with
              | [] => mret []
              | (k, x) :: l' => x' <~ walk_opaque fn x;; r <~ go l';; mret ((k, x') :: r)
              end) items;;
      mret (JDict l)
  | _ => mret obj
  end.

Definition transform_all_strings (fn : transform) (obj : json) : M St E json := walk_opaque fn obj.

(** [_walk]; [key_overrides] is the optional map of per-key transforms. *)
Fixpoint walk (fn : transform) (skip_keys : gset pystr) (key_overrides : pystr -> option transform)
    (parent : option pystr) (obj : json) {struct obj} : M St E json :=
  match obj with
  | JStr s => t <~ fn s;; mret (JStr t)
  | JList items =>
      l <~ (fix go (l : list json) : M St E (list json) :=
              match l with
              | [] => mret []
              | x :: l' => x' <~ walk fn skip_keys key_overrides parent x;; r <~ go l';; mret (x' :: r)
              end) items;;
      mret (JList l)
  | JDict items =>
      let plaintext_source :=
        match jget items (lit "type") with Some (JStr s) => bool_decide (s = lit "text") | _ => false end in
      l <~ (fix go (l : list (pystr * json)) : M St E (list (pystr * json)) :=
              match l with
              | [] => mret []
              | (key, value) :: l' =>
                  v <~ match value, key_overrides key with
                       | JStr s, Some f => t <~ f s;; mret (JStr t)
                       | _, _ =>
                           if is_opaque parent key then walk_opaque fn value
                           else if bool_decide (key = lit "data") && plaintext_source && is_jstr value then
                             match value with
                             | JStr s => t <~ fn s;; mret (JStr t)
                             | _ => mret value
                             end
                           else if (bool_decide (key ∈ skip_keys) && negb (is_container value))
                                   || is_enum_list parent key value || is_media parent key value
                           then mret value
                           else walk fn skip_keys key_overrides (Some key) value
                       end;;
                  r <~ go l';;
                  mret ((key, v) :: r)
              end) items;;
      mret (JDict l)
  | _ => mret obj
  end.

Definition transform_strings (fn : transform) (skip_keys : gset pystr)
    (key_overrides : pystr -> option transform) (encrypted_content_passthrough : bool)
    (obj : json) : M St E json :=
  let skip := if encrypted_content_passthrough then skip_keys ∪ {[lit "encrypted_content"]}
              else skip_keys in
  walk fn skip key_overrides None obj.
End Walk.

(** ** Depth and duplicate keys *)
Definition MAX_JSON_DEPTH : nat := 128.

(** [_too_deep]: the containers of a value, level by level. *)
Definition children (node : json) : list json :=
  match node with JList l => l | JDict l => map snd l | _ => [] end.

Fixpoint too_deep_go (rounds : nat) (level : list json) : bool :=
  match rounds with
  | O => true
  | S r =>
      let next := List.filter is_container (flat_map children level) in
      match next with [] => false | _ => too_deep_go r next end
  end.

Definition too_deep (value : json) : bool := too_deep_go MAX_JSON_DEPTH [value].

(** [dict(pairs)]: a repeated key keeps its first place and its last value. *)
Fixpoint dict_set (d : list (pystr * json)) (k : pystr) (v : json) : list (pystr * json) :=
  match d with
  | [] => [(k, v)]
  | (k0, v0) :: d' => if decide (k0 = k) then (k0, v) :: d' else (k0, v0) :: dict_set d' k v
  end.

Definition py_dict (pairs : list (pystr * json)) : list (pystr * json) :=
  fold_left (fun d kv => dict_set d kv.1 kv.2) pairs [].

(** [_unique_pairs]: an object's items, [None] ([_DuplicateKey]) when a key repeats. *)
Definition unique_pairs (pairs : list (pystr * json)) : option (list (pystr * json)) :=
  let obj := py_dict pairs in
  if (length obj =? length pairs)%nat then Some obj else None.

(** What the standard library's scanner makes of a document: its syntax tree --
    here a [JDict] lists an object's members as written, repeats included -- a
    malformed document, or a nesting it gives up on ([RecursionError]). *)
Inductive document : Type :=
| DocTree (raw : json)
| DocMalformed
| DocRecursion.

(** [json.loads(data)]: objects become dicts. *)
Fixpoint loads (raw : json) : json :=
  match raw with
  | JList l => JList (map loads l)
  | JDict l => JDict (py_dict (map (fun kv => (kv.1, loads kv.2)) l))
  | _ => raw
  end.

(** [json.loads(data, object_pairs_hook=_unique_pairs)]: the hook runs on every
    object, the inner ones first. *)
Fixpoint loads_unique (raw : json) : option json :=
  match raw with
  | JList l =>
      l' ← (fix go (l : list json) : option (list json) :=
               match l with
               | [] => Some []
               | x :: l => x' ← loads_unique x; r ← go l; Some (x' :: r)
               end) l;
      Some (JList l')
  | JDict l =>
      l' ← (fix go (l : list (pystr * json)) : option (list (pystr * json)) :=
               match l with
               | [] => Some []
               | (k, x) :: l => x' ← loads_unique x; r ← go l; Some ((k, x') :: r)
               end) l;
      d ← unique_pairs l';
      Some (JDict d)
  | _ => Some raw
  end.

Inductive load_error : Type := JsonTooDeep | ValueErr.

Definition loads_bounded (d : document) : result load_error json :=
  match d with
  | DocTree raw => let value := loads raw in if too_deep value then Raise JsonTooDeep else Ok value
  | DocMalformed => Raise ValueErr
  | DocRecursion => Raise JsonTooDeep
  end.

Definition loads_request (d : document) : result load_error (json * bool) :=
  match d with
  | DocTree raw =>
      match loads_unique raw with
      | None =>
          match loads_bounded d with Ok v => Ok (v, true) | Raise e => Raise e end
      | Some value => if too_deep value then Raise JsonTooDeep else Ok (value, false)
      end
  | DocMalformed => Raise ValueErr
  | DocRecursion => Raise JsonTooDeep
  end.

(** ** The one serializer's surrogate escapes ([json_text])

    [json_text] post-processes the text of [json.dumps(..., ensure_ascii=False)]:
    each lone surrogate becomes its [\udXXX] escape. *)
Definition is_surrogate (c : Z) : bool := between 55296 57343 c.

Definition hex_digit (d : Z) : Z := if d <? 10 then 48 + d else 87 + d.

(** [f"{c:04x}"] of a code point below 2^16. *)
Definition hex4 (c : Z) : pystr :=
  [hex_digit (Z.land (Z.shiftr c 12) 15); hex_digit (Z.land (Z.shiftr c 8) 15);
   hex_digit (Z.land (Z.shiftr c 4) 15); hex_digit (Z.land c 15)].

Definition escape_surrogate (c : Z) : pystr := lit "\u" ++ hex4 c.

Definition is_ascii (text : pystr) : bool := forallb (between 0 127) text.

Definition json_text_of (encoded : pystr) : pystr :=
  if is_ascii encoded then encoded
  else if existsb is_surrogate encoded then
    flat_map (fun c => if is_surrogate c then escape_surrogate c else [c]) encoded
  else encoded.
