(* ===== verification/TokenSearch.v ===== *)
(** * Searching a text for guillemet-delimited tokens

    For a pattern all of whose matches are guillemet-delimited ([Delimited]) the
    search of [pattern.sub] is local: equations that let a text be cut at a
    guillemet, which the streaming and round-trip results rest on.  They are
    stated for any output alphabet [A]: with [A := Z] the output is the
    substituted text, with [A := Z + pystr] also the list of restored tokens. *)

From S2P Require Import Prelude PyRegex Placeholders.

Section Search.
Context (r : regex) `{!Delimited r} {A : Type} (e : Z -> A) (g : pystr -> list A).

Definition subst (s : pystr) : list A :=
  flat_map (fun sg => match sg with SHit w _ => g w | SChar c => [e c] end) (scan r s).

Lemma token_shape w : is_match r w = true ->
  exists b, w = LAQUO :: b ++ [RAQUO] /\ no_guill b = true.
Proof. intros [cs H]%is_match_spec. by eapply delim_shape. Qed.

Lemma no_guill_mem b : no_guill b = true -> mem_char LAQUO b = false /\ mem_char RAQUO b = false.
Proof. unfold no_guill. intros H. bool_simpl. done. Qed.

(** A text starts with at most one token. *)
Lemma token_unique w1 s1 w2 s2 : is_match r w1 = true -> is_match r w2 = true ->
  w1 ++ s1 = w2 ++ s2 -> w1 = w2 /\ s1 = s2.
Proof.
  intros (b1 & -> & H1)%token_shape (b2 & -> & H2)%token_shape [= H].
  rewrite <- !app_assoc in H. cbn in H. apply no_guill_mem in H1 as [_ H1], H2 as [_ H2].
  apply (app_sep_inj_l (Z.eqb RAQUO)) in H as (-> & _ & ->); [done..| |].
  - clear -H1. induction b1 as [|c b IH]; [done|]. rewrite mem_char_cons in H1. bool_simpl.
    cbn. destruct (Z.eqb_spec RAQUO c); [done|auto].
  - clear -H2. induction b2 as [|c b IH]; [done|]. rewrite mem_char_cons in H2. bool_simpl.
    cbn. destruct (Z.eqb_spec RAQUO c); [done|auto].
Qed.

Lemma match_at_token pre s w cs : match_at r pre s = Some (w, cs) ->
  is_match r w = true /\ exists s', s = w ++ s'.
Proof.
  intros H. apply match_at_sound in H as (s' & -> & H). split; [|eauto].
  apply is_match_spec. eexists. by eapply delim_ctx.
Qed.

Lemma token_match_at w s : is_match r w = true -> exists cs, match_at r [] (w ++ s) = Some (w, cs).
Proof.
  intros Hw. pose proof Hw as [cs H]%is_match_spec.
  apply (delim_ctx _ _ _ [] s) in H. apply match_at_complete in H as [[w' cs'] Hm].
  pose proof (match_at_token _ _ _ _ Hm) as (Hw' & s' & Heq).
  apply token_unique in Heq as [-> _]; eauto.
Qed.

Lemma subst_nil : subst [] = [].
Proof. done. Qed.

Lemma subst_token w s : is_match r w = true -> subst (w ++ s) = g w ++ subst s.
Proof.
  intros Hw. destruct (token_match_at w s Hw) as [cs Hm].
  pose proof (token_shape w Hw) as (b & Hb & _).
  unfold subst. rewrite (scan_hit r w cs); [done|apply delim_no_behind|by subst w|done].
Qed.

Lemma subst_token_all w : is_match r w = true -> subst w = g w.
Proof. intros Hw. rewrite <- (app_nil_r w) at 1. rewrite subst_token by done. apply app_nil_r. Qed.

Lemma subst_char_no_match c s : match_at r [] (c :: s) = None -> subst (c :: s) = e c :: subst s.
Proof. intros Hm. unfold subst. rewrite scan_char; [done|apply delim_no_behind|done]. Qed.

Lemma subst_char c s : c <> LAQUO -> subst (c :: s) = e c :: subst s.
Proof.
  intros Hc. apply subst_char_no_match. destruct (match_at r [] (c :: s)) as [[w cs]|] eqn:E; [|done].
  apply match_at_token in E as [(b & -> & _)%token_shape (s' & [= -> _])]. done.
Qed.

Lemma subst_no_token s : (forall w s', LAQUO :: s = w ++ s' -> is_match r w = false) ->
  subst (LAQUO :: s) = e LAQUO :: subst s.
Proof.
  intros H. apply subst_char_no_match. destruct (match_at r [] (LAQUO :: s)) as [[w cs]|] eqn:E; [|done].
  apply match_at_token in E as [Hw (s' & Heq)]. apply H in Heq. congruence.
Qed.

Lemma subst_plain a s : mem_char LAQUO a = false -> subst (a ++ s) = map e a ++ subst s.
Proof.
  induction a as [|c a IH]; [done|]. rewrite mem_char_cons. intros H. bool_simpl.
  cbn. rewrite subst_char, IH by done. done.
Qed.

Lemma subst_plain_all a : mem_char LAQUO a = false -> subst a = map e a.
Proof. intros Ha. rewrite <- (app_nil_r a) at 1. rewrite subst_plain by done. apply app_nil_r. Qed.

(** Whether a text starts with a token. *)
Definition token_prefix (s : pystr) : option pystr := fst <$> match_at r [] s.

Lemma token_prefix_Some s w : token_prefix s = Some w -> is_match r w = true /\ exists s', s = w ++ s'.
Proof.
  unfold token_prefix. destruct (match_at r [] s) as [[w' cs]|] eqn:E; [|done].
  intros [= <-]. by eapply match_at_token.
Qed.

Lemma token_prefix_None s w s' : token_prefix s = None -> s = w ++ s' -> is_match r w = false.
Proof.
  intros H ->. apply not_true_iff_false. intros Hw. destruct (token_match_at w s' Hw) as [cs Hm].
  unfold token_prefix in H. by rewrite Hm in H.
Qed.

(** A text may always be cut before a guillemet. *)
Lemma subst_cut a t : subst (a ++ LAQUO :: t) = subst a ++ subst (LAQUO :: t).
Proof.
  remember (length a) as n eqn:Hn. revert a Hn.
  induction (lt_wf n) as [n _ IH]. intros [|c a] ->; [done|].
  destruct (decide (c = LAQUO)) as [->|Hc].
  2: { cbn. rewrite !subst_char by done. cbn. f_equal. apply (IH (length a)); cbn; auto. }
  destruct (token_prefix (LAQUO :: a)) as [w|] eqn:Ew.
  - apply token_prefix_Some in Ew as [Hw [s' Heq]]. rewrite Heq, <- app_assoc, !(subst_token w) by done.
    rewrite <- (app_assoc (g w)). f_equal. apply (IH (length s')); [|done].
    apply (f_equal length) in Heq. rewrite length_app in Heq.
    destruct (token_shape w Hw) as (b & -> & _). cbn in *. lia.
  - cbn [app]. rewrite (subst_no_token (a ++ LAQUO :: t)), (subst_no_token a).
    + cbn. f_equal. apply (IH (length a)); cbn; auto.
    + intros w s'. by apply token_prefix_None.
    + intros w s' Heq. apply not_true_iff_false. intros Hw.
      pose proof (token_shape w Hw) as (b & -> & [Hb _]%no_guill_mem).
      injection Heq as Heq.
      assert (exists u, a = b ++ [RAQUO] ++ u) as [u Hu].
      { revert Heq Hb. clear. revert b. induction a as [|x a IH]; intros b Heq Hb.
        - destruct b as [|y b]; cbn in Heq; [done|]. injection Heq as <- _.
          rewrite mem_char_cons, Z.eqb_refl in Hb. done.
        - destruct b as [|y b]; cbn in Heq; injection Heq as <- Heq; [by exists a|].
          rewrite mem_char_cons in Hb. bool_simpl. destruct (IH b) as [u ->]; [done..|].
          by exists u. }
      eapply (token_prefix_None _ (LAQUO :: b ++ [RAQUO]) u) in Ew; [congruence|].
      rewrite Hu. cbn. by rewrite <- app_assoc.
Qed.

(** An unclosed guillemet passes, together with what follows it, when the token
    it may complete to stands for itself. *)
Lemma subst_open b t : no_guill b = true ->
  (forall u s', t = u ++ s' -> is_match r (LAQUO :: b ++ u) = true ->
     g (LAQUO :: b ++ u) = map e (LAQUO :: b ++ u)) ->
  subst (LAQUO :: b ++ t) = map e (LAQUO :: b) ++ subst t.
Proof.
  intros Hb Hu. pose proof (no_guill_mem b Hb) as [Hb1 Hb2].
  destruct (token_prefix (LAQUO :: b ++ t)) as [w|] eqn:Ew.
  - apply token_prefix_Some in Ew as [Hw [s' Heq]].
    pose proof (token_shape w Hw) as (c & -> & Hc). injection Heq as Heq.
    assert (exists u, c = b ++ u /\ t = u ++ RAQUO :: s') as (u & -> & ->).
    { revert Heq Hb2. clear. revert c. induction b as [|x b IH]; intros c Heq Hb2.
      - exists c. split; [done|]. cbn in Heq. by rewrite <- app_assoc in Heq.
      - rewrite mem_char_cons in Hb2. bool_simpl.
        destruct c as [|y c]; cbn in Heq; injection Heq as -> Heq; [done|].
        destruct (IH c) as (u & -> & ->); [done..|]. by exists u. }
    rewrite no_guill_app in Hc. bool_simpl.
    pose proof (no_guill_mem u) as Hug. specialize (Hug ltac:(done)) as [Hu1 _].
    assert (LAQUO :: (b ++ u) ++ [RAQUO] = LAQUO :: b ++ (u ++ [RAQUO])) as Hrew by (by rewrite <- app_assoc).
    rewrite Hrew in Hw. specialize (Hu (u ++ [RAQUO]) s').
    replace (LAQUO :: b ++ u ++ RAQUO :: s') with ((LAQUO :: b ++ u ++ [RAQUO]) ++ s')
      by (cbn; by rewrite <- !app_assoc).
    rewrite subst_token, Hu by (rewrite <- ?app_assoc; done).
    rewrite subst_plain, subst_char by done. cbn. by rewrite !map_app, <- !app_assoc.
  - rewrite subst_no_token; [|intros; by eapply token_prefix_None].
    by rewrite subst_plain.
Qed.

(** A closed guillemet pair that is no token passes. *)
Lemma subst_closed b t : no_guill b = true -> is_match r (LAQUO :: b ++ [RAQUO]) = false ->
  subst (LAQUO :: b ++ RAQUO :: t) = map e (LAQUO :: b ++ [RAQUO]) ++ subst t.
Proof.
  intros Hb Hm. rewrite subst_no_token.
  - rewrite subst_plain, subst_char; [|done|by apply no_guill_mem]. cbn.
    by rewrite map_app, <- app_assoc.
  - intros w s' Heq. apply not_true_iff_false. intros Hw.
    pose proof (token_shape w Hw) as (c & -> & Hc). injection Heq as Heq.
    rewrite <- app_assoc in Heq. cbn in Heq.
    assert (b = c) as ->; [|congruence].
    assert (forall l, no_guill l = true -> forallb (fun x => negb (RAQUO =? x)) l = true) as Hf.
    { intros l Hl%no_guill_mem. destruct Hl as [_ Hl]. induction l as [|x l IH]; [done|].
      rewrite mem_char_cons in Hl. bool_simpl. cbn.
      destruct (Z.eqb_spec RAQUO x); [done|auto]. }
    apply (app_sep_inj_l (Z.eqb RAQUO)) in Heq as (-> & _ & _); auto.
Qed.
End Search.

#[global] Arguments subst : simpl never.

Lemma subst_sub r g s : subst r (fun c => c) g s = sub r (fun w _ => g w) s.
Proof. done. Qed.

(** Mapping the output characters of one substitution gives another. *)
Lemma subst_map {A B} (h : A -> list B) r e g s :
  flat_map h (subst r e g s)
  = flat_map (fun sg => match sg with SHit w _ => flat_map h (g w) | SChar c => h (e c) end) (scan r s).
Proof.
  unfold subst. induction (scan r s) as [|[c|w cs] l IH]; cbn; [done|by rewrite IH|].
  by rewrite flat_map_app, IH.
Qed.

(** The first closing guillemet of a text. *)
Lemma split_raquo t : mem_char RAQUO t = true ->
  exists b1 b2, t = b1 ++ RAQUO :: b2 /\ mem_char RAQUO b1 = false.
Proof.
  induction t as [|c t IH]; [done|]. rewrite mem_char_cons.
  destruct (Z.eqb_spec RAQUO c) as [<-|Hc]; intros H.
  - by exists [], t.
  - destruct (IH H) as (b1 & b2 & -> & Hb). exists (c :: b1), b2. split; [done|].
    rewrite mem_char_cons. destruct (Z.eqb_spec RAQUO c); done.
Qed.
