(* ===== verification/Vault.v ===== *)
(** * The placeholder vault -- src/llm_redact/vault.py

    The interface a vault promises to its clients ([VaultOps], [VaultLaws]) and
    its in-memory implementations: [InMemoryVault], [EncryptedInMemoryVault] and
    [InMemoryVaultManager]. *)

From S2P Require Import Prelude PyRegex Placeholders.

(** [PlaceholderSpaceExhausted], carrying the detector type. *)
Inductive vault_error : Type :=
| PlaceholderSpaceExhausted (detector_type : pystr)
| CipherFault.

(** [next_number(issued, floor, detector_type)] *)
Definition next_number (issued floor : Z) (detector_type : pystr) : result vault_error Z :=
  let n := Z.max issued floor + 1 in
  if MAX_TOKEN_NUMBER <? n then Raise (PlaceholderSpaceExhausted detector_type) else Ok n.

(** The operations of the [Vault] protocol, over a vault state [V]. *)
Class VaultOps (V : Type) : Type := {
  placeholder_for : V -> pystr -> pystr -> Z -> result vault_error pystr * V;
  original_for : V -> pystr -> option pystr;
  vault_len : V -> nat
}.

(** What a vault promises.  [vinv] is its state's invariant; a raise changes
    nothing that can be observed. *)
Class VaultLaws (V : Type) `{VaultOps V} : Type := {
  vinv : V -> Prop;
  vinv_token v tok o : vinv v -> original_for v tok = Some o ->
    exists ty n, tok = format_placeholder ty n /\ is_placeholder_type ty = true /\
      1 <= n <= MAX_TOKEN_NUMBER;
  vinv_issue v ty o fl tok v' : vinv v -> is_placeholder_type ty = true -> 0 <= fl ->
    placeholder_for v ty o fl = (Ok tok, v') ->
    vinv v' /\ original_for v' tok = Some o /\
    (exists n, tok = format_placeholder ty n /\ 1 <= n <= MAX_TOKEN_NUMBER) /\
    (original_for v tok = None \/ v' = v) /\
    (forall t, t <> tok -> original_for v' t = original_for v t);
  vinv_raise v ty o fl e v' : placeholder_for v ty o fl = (Raise e, v') -> v' = v
}.

(** ** InMemoryVault *)
Module InMemoryVault.

Record t : Type := mk {
  forward : gmap pystr pystr;
  reverse : gmap pystr pystr;
  counters : gmap pystr Z
}.

Definition empty : t := mk ∅ ∅ ∅.

(** [f"{detector_type}::{original}"] *)
Definition key (detector_type original : pystr) : pystr := detector_type ++ lit "::" ++ original.

Definition counter (v : t) (ty : pystr) : Z := default 0 (counters v !! ty).

Definition placeholder_for (v : t) (detector_type original : pystr) (floor : Z)
    : result vault_error pystr * t :=
  let k := key detector_type original in
  match forward v !! k with
  | Some existing => (Ok existing, v)
  | None =>
      match next_number (counter v detector_type) floor detector_type with
      | Raise e => (Raise e, v)
      | Ok n =>
          let placeholder := format_placeholder detector_type n in
          (Ok placeholder,
           mk (<[k := placeholder]> (forward v)) (<[placeholder := original]> (reverse v))
              (<[detector_type := n]> (counters v)))
      end
  end.

Definition original_for (v : t) (placeholder : pystr) : option pystr := reverse v !! placeholder.

Definition forget_mappings (v : t) : t := mk ∅ ∅ (counters v).

Definition len (v : t) : nat := size (reverse v).

#[global] Instance ops : VaultOps t := {
  Vault.placeholder_for := placeholder_for;
  Vault.original_for := original_for;
  Vault.vault_len := len
}.

(** The invariant: forward and reverse entries mirror each other, and every
    token's number is at most its type's counter. *)
Record inv (v : t) : Prop := {
  inv_fwd k p : forward v !! k = Some p -> exists ty o n,
    k = key ty o /\ is_placeholder_type ty = true /\ p = format_placeholder ty n /\
    1 <= n <= counter v ty /\ reverse v !! p = Some o;
  inv_rev p o : reverse v !! p = Some o -> exists ty n,
    p = format_placeholder ty n /\ is_placeholder_type ty = true /\ 1 <= n <= counter v ty /\
    forward v !! key ty o = Some p;
  inv_cnt ty : 0 <= counter v ty <= MAX_TOKEN_NUMBER
}.

Lemma empty_inv : inv empty.
Proof. split; [done..|]. intros ty. unfold counter. cbn. by rewrite lookup_empty. Qed.

(** A type has no colon, so the two parts of a key can be told apart. *)
Lemma key_inj ty o ty' o' :
  is_placeholder_type ty = true -> is_placeholder_type ty' = true ->
  key ty o = key ty' o' -> ty = ty' /\ o = o'.
Proof.
  intros Hty Hty'. unfold key. change (lit "::") with [58; 58]. cbn [app]. intros H.
  apply (app_sep_inj_l (Z.eqb 58)) in H as (-> & _ & [= ->]); [done..| |].
  - eapply forallb_impl; [|by apply placeholder_type_cls].
    intros c Hc. destruct (Z.eqb_spec 58 c) as [<-|]; done.
  - eapply forallb_impl; [|by apply placeholder_type_cls].
    intros c Hc. destruct (Z.eqb_spec 58 c) as [<-|]; done.
Qed.

Lemma counter_insert v ty n f r ty' :
  counter (mk f r (<[ty := n]> (counters v))) ty' = if decide (ty = ty') then n else counter v ty'.
Proof. unfold counter. cbn. rewrite lookup_insert. by case_decide. Qed.

Lemma next_number_ok issued fl ty n : 0 <= issued -> 0 <= fl ->
  next_number issued fl ty = Ok n -> issued < n /\ fl < n /\ 1 <= n <= MAX_TOKEN_NUMBER.
Proof.
  unfold next_number. cbv zeta. destruct (Z.ltb_spec MAX_TOKEN_NUMBER (Z.max issued fl + 1)); [done|].
  intros ??[= <-]. lia.
Qed.

(** What issuing a new value does to a state satisfying the invariant. *)
Lemma issue_inv v ty o n f' r' :
  inv v -> is_placeholder_type ty = true -> forward v !! key ty o = None ->
  counter v ty < n -> 1 <= n <= MAX_TOKEN_NUMBER ->
  f' = <[key ty o := format_placeholder ty n]> (forward v) ->
  r' = <[format_placeholder ty n := o]> (reverse v) ->
  inv (mk f' r' (<[ty := n]> (counters v))).
Proof.
  intros [Hf Hr Hc] Hty Hk Hlt Hn -> ->.
  assert (forall ty' m, is_placeholder_type ty' = true -> 1 <= m <= counter v ty' ->
    format_placeholder ty' m <> format_placeholder ty n) as Hfresh.
  { intros ty' m Hty' Hm Heq. apply format_placeholder_inj in Heq as [-> ->]; lia. }
  split; cbn.
  - intros k p. rewrite lookup_insert. case_decide as Hd.
    + intros [= <-]. exists ty, o, n. rewrite counter_insert, decide_True, lookup_insert_eq by done.
      split_and!; done || lia.
    + intros Hp. destruct (Hf k p Hp) as (ty' & o' & m & -> & Hty' & -> & Hm & Hrev).
      exists ty', o', m. rewrite counter_insert, lookup_insert_ne by (symmetry; eauto).
      split_and!; try done; [lia|]. case_decide; subst; lia.
  - intros p o'. rewrite lookup_insert. case_decide as Hd.
    + intros [= <-]. subst p. exists ty, n. rewrite counter_insert, decide_True, lookup_insert_eq by done.
      split_and!; done || lia.
    + intros Hp. destruct (Hr p o' Hp) as (ty' & m & -> & Hty' & Hm & Hfwd).
      exists ty', m. rewrite counter_insert, lookup_insert_ne.
      * split_and!; try done; [lia|]. case_decide; subst; lia.
      * intros Hkey. rewrite Hkey in Hk. congruence.
  - intros ty'. rewrite counter_insert. case_decide; [lia|apply Hc].
Qed.

Lemma placeholder_for_spec v ty o fl tok v' : inv v -> is_placeholder_type ty = true -> 0 <= fl ->
  placeholder_for v ty o fl = (Ok tok, v') ->
  inv v' /\ original_for v' tok = Some o /\
  (exists n, tok = format_placeholder ty n /\ 1 <= n <= MAX_TOKEN_NUMBER) /\
  (original_for v tok = None \/ v' = v) /\
  (forall t, t <> tok -> original_for v' t = original_for v t).
Proof.
  intros Hv Hty Hfl. unfold placeholder_for, original_for.
  pose proof (inv_cnt v Hv ty) as Hcnt.
  destruct (forward v !! key ty o) as [p|] eqn:Ek.
  - intros [= <- <-]. destruct (inv_fwd v Hv _ _ Ek) as (ty' & o' & n & Hkey & Hty' & -> & Hn & Hrev).
    apply key_inj in Hkey as [<- <-]; [|done..]. split_and!; eauto. exists n. split; [done|lia].
  - destruct (next_number _ _ _) as [n|e] eqn:En; [|done]. intros [= <- <-].
    apply next_number_ok in En as (Hin & Hfn & Hn); [|lia..]. cbn. split_and!.
    + by eapply issue_inv.
    + apply lookup_insert_eq.
    + eauto.
    + left. destruct (reverse v !! _) as [o'|] eqn:Er; [|done].
      apply (inv_rev v Hv) in Er as (ty' & m & Heq & _ & Hm & _).
      apply format_placeholder_inj in Heq as [-> ->]; lia.
    + intros t Ht. by rewrite lookup_insert_ne.
Qed.

Lemma placeholder_for_raise v ty o fl e v' :
  placeholder_for v ty o fl = (Raise e, v') -> v' = v.
Proof.
  unfold placeholder_for. destruct (forward v !! _); [done|].
  by destruct (next_number _ _ _); intros [=].
Qed.

#[global] Program Instance laws : VaultLaws t := {| vinv := inv |}.
Next Obligation.
  intros v tok o Hv Ho. destruct (inv_rev v Hv tok o Ho) as (ty & n & -> & Hty & Hn & _).
  pose proof (inv_cnt v Hv ty). exists ty, n. split_and!; done || lia.
Qed.
Next Obligation. intros *. apply placeholder_for_spec. Qed.
Next Obligation. intros *. apply placeholder_for_raise. Qed.

(** A vault that issued the given (type, value) pairs, for concrete runs. *)
Definition vault_of (l : list (pystr * pystr)) : t :=
  fold_left (fun v x => (placeholder_for v x.1 x.2 0).2) l empty.

Lemma vault_of_inv l : forallb (fun x => is_placeholder_type x.1) l = true -> inv (vault_of l).
Proof.
  unfold vault_of. generalize empty_inv. generalize empty.
  induction l as [|[ty o] l IH]; intros v Hv; cbn; [done|]. intros [Hty Hl]%andb_true_iff.
  apply IH; [|done]. destruct (placeholder_for v ty o 0) as [[tok|e] v'] eqn:E; cbn.
  - by apply placeholder_for_spec in E as [? _].
  - apply placeholder_for_raise in E. by subst.
Qed.

End InMemoryVault.

(** ** EncryptedInMemoryVault

    The cipher (the optional [VaultCipher] plugin) is a parameter: [mac] indexes
    a value, [encrypt] and [decrypt] may raise ([None]). *)
Module EncryptedInMemoryVault.
Section Cipher.
Context (mac : pystr -> pystr -> pystr -> pystr).
Context (encrypt : pystr -> option pybytes) (decrypt : pybytes -> option pystr).
Context (session_id : pystr).

Record t : Type := mk {
  forward : gmap pystr pystr;
  reverse : gmap pystr pybytes;
  counters : gmap pystr Z
}.

Definition empty : t := mk ∅ ∅ ∅.

Definition counter (v : t) (ty : pystr) : Z := default 0 (counters v !! ty).

Definition placeholder_for (v : t) (detector_type original : pystr) (floor : Z)
    : result vault_error pystr * t :=
  let m := mac session_id detector_type original in
  match forward v !! m with
  | Some existing => (Ok existing, v)
  | None =>
      match next_number (counter v detector_type) floor detector_type with
      | Raise e => (Raise e, v)
      | Ok n =>
          match encrypt original with
          | None => (Raise CipherFault, v)
          | Some ciphertext =>
              let placeholder := format_placeholder detector_type n in
              (Ok placeholder,
               mk (<[m := placeholder]> (forward v)) (<[placeholder := ciphertext]> (reverse v))
                  (<[detector_type := n]> (counters v)))
          end
      end
  end.

Definition original_for (v : t) (placeholder : pystr) : result vault_error (option pystr) :=
  match reverse v !! placeholder with
  | None => Ok None
  | Some token => match decrypt token with Some o => Ok (Some o) | None => Raise CipherFault end
  end.

Definition forget_mappings (v : t) : t := mk ∅ ∅ (counters v).

Definition len (v : t) : nat := size (reverse v).

(** A request to a vault, and a run of requests with the answers. *)
Inductive op : Type :=
| OpIssue (ty o : pystr) (fl : Z)
| OpLookup (tok : pystr)
| OpForget.

Inductive answer : Type :=
| AToken (r : result vault_error pystr)
| AOriginal (r : result vault_error (option pystr))
| ADone.

Definition step (v : t) (x : op) : answer * t :=
  match x with
  | OpIssue ty o fl => let (r, v') := placeholder_for v ty o fl in (AToken r, v')
  | OpLookup tok => (AOriginal (original_for v tok), v)
  | OpForget => (ADone, forget_mappings v)
  end.

Definition plain_step (v : InMemoryVault.t) (x : op) : answer * InMemoryVault.t :=
  match x with
  | OpIssue ty o fl => let (r, v') := InMemoryVault.placeholder_for v ty o fl in (AToken r, v')
  | OpLookup tok => (AOriginal (Ok (InMemoryVault.original_for v tok)), v)
  | OpForget => (ADone, InMemoryVault.forget_mappings v)
  end.

Fixpoint run {S} (st : S -> op -> answer * S) (v : S) (xs : list op) : list answer :=
  match xs with
  | [] => []
  | x :: xs => let (a, v') := st v x in a :: run st v' xs
  end.

(** What the vault relies on: decrypting an encryption gives the value back,
    encryption succeeds, and the session's HMAC index has no collisions. *)
Hypothesis cipher_roundtrip : forall o, exists c, encrypt o = Some c /\ decrypt c = Some o.
Hypothesis mac_inj : forall ty o ty' o',
  mac session_id ty o = mac session_id ty' o' -> ty = ty' /\ o = o'.

Definition valid_op (x : op) : Prop :=
  match x with OpIssue ty _ _ => is_placeholder_type ty = true | _ => True end.

(** The simulation relation: same numbering; the same values mapped to the
    same tokens, up to the index; each stored ciphertext decrypts to the
    original the plain vault stores. *)
Record sim (v : t) (w : InMemoryVault.t) : Prop := {
  sim_cnt : counters v = InMemoryVault.counters w;
  sim_fwd ty o : is_placeholder_type ty = true ->
    forward v !! mac session_id ty o = InMemoryVault.forward w !! InMemoryVault.key ty o;
  sim_rev tok : (reverse v !! tok ≫= decrypt) = InMemoryVault.reverse w !! tok;
  sim_dec tok c : reverse v !! tok = Some c -> is_Some (decrypt c)
}.

Lemma sim_step v w x : sim v w -> valid_op x ->
  (step v x).1 = (plain_step w x).1 /\ sim (step v x).2 (plain_step w x).2.
Proof.
  intros [Hc Hf Hr Hd] Hx. destruct x as [ty o fl|tok|]; cbn in Hx |- *.
  - unfold placeholder_for, InMemoryVault.placeholder_for, counter, InMemoryVault.counter.
    rewrite Hf, Hc by done. destruct (InMemoryVault.forward w !! _) eqn:Ek; [done|].
    destruct (next_number _ _ _) as [n|e]; [|done].
    destruct (cipher_roundtrip o) as (c & -> & Hdec). cbn. split; [done|]. split; cbn.
    + done.
    + intros ty' o' Hty'. rewrite !lookup_insert. case_decide as H1; case_decide as H2; try done.
      * apply mac_inj in H1 as [<- <-]. done.
      * apply InMemoryVault.key_inj in H2 as [<- <-]; done.
      * by apply Hf.
    + intros tok. rewrite !lookup_insert. case_decide; [done|apply Hr].
    + intros tok c'. rewrite lookup_insert. case_decide; [|apply Hd].
      intros [= <-]. rewrite Hdec. eauto.
  - split; [|done]. unfold original_for, InMemoryVault.original_for. rewrite <- Hr.
    destruct (reverse v !! tok) as [c|] eqn:E; [|done]. cbn.
    destruct (Hd _ _ E) as [o ->]. done.
  - split; [done|]. split; cbn; [done|..]; intros; by rewrite ?lookup_empty in *.
Qed.

Lemma sim_run xs : forall v w, sim v w -> Forall valid_op xs ->
  run step v xs = run plain_step w xs.
Proof.
  induction xs as [|x xs IH]; intros v w Hs Hv; [done|]. inversion_clear Hv as [|?? Hx Hxs].
  cbn. destruct (sim_step v w x Hs Hx) as [Ha Hs'].
  destruct (step v x), (plain_step w x). cbn in *. by rewrite Ha, (IH _ _ Hs').
Qed.

Lemma sim_empty : sim empty InMemoryVault.empty.
Proof. split; cbn; [done|..]; intros; by rewrite ?lookup_empty in *. Qed.

(** The encrypted vault refines the plain one: started empty, it gives
    the same answer to every request of every sequence of requests (issue,
    look up, forget), although it holds no plaintext. *)
Theorem encrypted_refines_plain xs : Forall valid_op xs ->
  run step empty xs = run plain_step InMemoryVault.empty xs.
Proof. intros. by apply sim_run; [apply sim_empty|]. Qed.
End Cipher.

(** A cipher for concrete runs: code points shifted by one, values indexed by
    their type's length, their type and themselves. *)
Definition demo_mac (session_id ty o : pystr) : pystr := Z.of_nat (length ty) :: ty ++ o.
Definition demo_encrypt (o : pystr) : option pybytes := Some (map Z.succ o).
Definition demo_decrypt (c : pybytes) : option pystr := Some (map Z.pred c).

Lemma demo_roundtrip o : exists c, demo_encrypt o = Some c /\ demo_decrypt c = Some o.
Proof.
  exists (map Z.succ o). split; [done|]. unfold demo_decrypt. f_equal. rewrite map_map.
  erewrite map_ext; [apply map_id|]. intros. apply Z.pred_succ.
Qed.

Lemma demo_mac_inj s ty o ty' o' : demo_mac s ty o = demo_mac s ty' o' -> ty = ty' /\ o = o'.
Proof. intros [= Hl H]. apply Nat2Z.inj in Hl. by apply app_inj_1 in H. Qed.

Lemma encrypted_refines_plain_witness :
  let xs := [OpIssue (lit "EMAIL") (lit "a@b.co") 0; OpIssue (lit "EMAIL") (lit "c@d.co") 6;
             OpLookup (LAQUO :: lit "EMAIL_007" ++ [RAQUO]); OpForget;
             OpIssue (lit "EMAIL") (lit "a@b.co") 0] in
  run (step demo_mac demo_encrypt demo_decrypt (lit "s")) empty xs =
    [AToken (Ok (LAQUO :: lit "EMAIL_001" ++ [RAQUO])); AToken (Ok (LAQUO :: lit "EMAIL_007" ++ [RAQUO]));
     AOriginal (Ok (Some (lit "c@d.co"))); ADone; AToken (Ok (LAQUO :: lit "EMAIL_008" ++ [RAQUO]))].
Proof.
  intros xs.
  rewrite (encrypted_refines_plain demo_mac demo_encrypt demo_decrypt (lit "s")
    demo_roundtrip (demo_mac_inj (lit "s")) xs ltac:(repeat constructor)).
  vm_compute. reflexivity.
Defined.
End EncryptedInMemoryVault.

(** ** InMemoryVaultManager: one vault per session, kept for the process's life *)
Module InMemoryVaultManager.

Definition t : Type := list (pystr * InMemoryVault.t).

Fixpoint find (m : t) (session_id : pystr) : option InMemoryVault.t :=
  match m with
  | [] => None
  | (s, v) :: m' => if decide (s = session_id) then Some v else find m' session_id
  end.

(** [self._vaults[session_id] = vault]: in place, or appended. *)
Fixpoint set (m : t) (session_id : pystr) (v : InMemoryVault.t) : t :=
  match m with
  | [] => [(session_id, v)]
  | (s, v0) :: m' => if decide (s = session_id) then (s, v) :: m' else (s, v0) :: set m' session_id v
  end.

Definition get (m : t) (session_id : pystr) : InMemoryVault.t * t :=
  match find m session_id with
  | Some v => (v, m)
  | None => (InMemoryVault.empty, set m session_id InMemoryVault.empty)
  end.

Definition has_session (m : t) (session_id : pystr) : bool :=
  match find m session_id with
  | Some v => (0 <? InMemoryVault.len v)%nat
  | None => false
  end.

Definition session_count (m : t) : nat :=
  length (List.filter (fun sv => (0 <? InMemoryVault.len sv.2)%nat) m).

Definition total_entries (m : t) : nat := list_sum (map (fun sv => InMemoryVault.len sv.2) m).

Definition sessions_summary (m : t) : list (pystr * nat) :=
  map (fun sv => (sv.1, InMemoryVault.len sv.2))
    (List.filter (fun sv => (0 <? InMemoryVault.len sv.2)%nat) m).

Definition prune_sessions (m : t) (days : Z) : Z * t := (0, m).

(** [forget_sessions]: [session_ids] is the set of the ids given. *)
Definition forget_one (acc : nat * t) (session_id : pystr) : nat * t :=
  let (forgotten, m) := acc in
  match find m session_id with
  | Some v =>
      if (0 <? InMemoryVault.len v)%nat
      then (S forgotten, set m session_id (InMemoryVault.forget_mappings v))
      else (forgotten, m)
  | None => (forgotten, m)
  end.

Definition forget_sessions (m : t) (session_ids : gset pystr) : nat * t :=
  fold_left forget_one (elements session_ids) (0%nat, m).

(** *** Tokens never gain a second meaning

    A request issues a value in a session; a purge forgets sessions.  The ghost
    history records every (session, token, value) ever answered. *)
Inductive op : Type :=
| MIssue (session_id ty o : pystr) (fl : Z)
| MForget (session_ids : gset pystr).

Definition history : Type := list (pystr * pystr * pystr).

Definition issue (m : t) (session_id ty o : pystr) (fl : Z) : result vault_error pystr * t :=
  let (v, m1) := get m session_id in
  let (r, v') := InMemoryVault.placeholder_for v ty o fl in
  (r, set m1 session_id v').

Definition step (st : t * history) (x : op) : t * history :=
  let (m, h) := st in
  match x with
  | MIssue s ty o fl =>
      match issue m s ty o fl with
      | (Ok tok, m') => (m', (s, tok, o) :: h)
      | (Raise _, m') => (m', h)
      end
  | MForget ids => ((forget_sessions m ids).2, h)
  end.

Definition valid_op (x : op) : Prop :=
  match x with MIssue _ ty _ fl => is_placeholder_type ty = true /\ 0 <= fl | MForget _ => True end.

Lemma find_set m s s' v : find (set m s v) s' = if decide (s = s') then Some v else find m s'.
Proof.
  induction m as [|[k w] m IH]; cbn; [done|].
  destruct (decide (k = s)) as [->|Hk]; cbn.
  - by case_decide.
  - rewrite IH. repeat case_decide; congruence.
Qed.

(** The vault of a session, with its part of the history: every recorded token
    is numbered at most by the counters, and what the vault maps was recorded. *)
Record vault_hist (v : InMemoryVault.t) (s : pystr) (h : history) : Prop := {
  vh_inv : InMemoryVault.inv v;
  vh_num tok o : (s, tok, o) ∈ h -> exists ty n, tok = format_placeholder ty n /\
    1 <= n <= InMemoryVault.counter v ty;
  vh_rev tok o : InMemoryVault.reverse v !! tok = Some o -> (s, tok, o) ∈ h;
  vh_fun tok o o' : (s, tok, o) ∈ h -> (s, tok, o') ∈ h -> o = o'
}.

Definition hist_inv (st : t * history) : Prop := forall s,
  match find st.1 s with
  | Some v => vault_hist v s st.2
  | None => forall tok o, (s, tok, o) ∉ st.2
  end.

Lemma vault_hist_empty s h : (forall tok o, (s, tok, o) ∉ h) -> vault_hist InMemoryVault.empty s h.
Proof. intros H. split; [apply InMemoryVault.empty_inv|naive_solver..]. Qed.

Lemma vault_hist_other v s h s' tok o : s <> s' -> vault_hist v s h -> vault_hist v s ((s', tok, o) :: h).
Proof. intros Hne [Hi Hn Hr Hf]. split; [done|..]; set_solver. Qed.

Lemma vault_hist_forget v s h : vault_hist v s h -> vault_hist (InMemoryVault.forget_mappings v) s h.
Proof.
  intros [[Hf Hr Hc] Hn Hrv Hfn]. split; [|done|by intros ??; cbn; rewrite lookup_empty|done].
  split; cbn; [by intros ??; rewrite lookup_empty..|apply Hc].
Qed.

Lemma vault_hist_issue v s h ty o fl tok v' :
  vault_hist v s h -> is_placeholder_type ty = true -> 0 <= fl ->
  InMemoryVault.placeholder_for v ty o fl = (Ok tok, v') ->
  vault_hist v' s ((s, tok, o) :: h).
Proof.
  intros [Hi Hn Hr Hf] Hty Hfl Hp.
  destruct (InMemoryVault.placeholder_for_spec _ _ _ _ _ _ Hi Hty Hfl Hp)
    as (Hi' & Ho & (n & -> & Hnn) & _ & _).
  unfold InMemoryVault.placeholder_for in Hp. pose proof (InMemoryVault.inv_cnt v Hi ty) as Hc.
  destruct (InMemoryVault.forward v !! _) as [p|] eqn:Ek.
  - simplify_eq. assert ((s, format_placeholder ty n, o) ∈ h) as Hin by (by apply Hr).
    split; [done|..]; set_solver.
  - destruct (next_number _ _ _) as [m|e] eqn:En; [|done].
    apply InMemoryVault.next_number_ok in En as (Hin & _ & Hm); [|lia..].
    apply pair_equal_spec in Hp as [Hp <-].
    assert (format_placeholder ty m = format_placeholder ty n) as Heq by congruence.
    apply format_placeholder_inj in Heq as [_ ->]; [|lia..].
    assert (forall o', (s, format_placeholder ty n, o') ∉ h) as Hfresh.
    { intros o' (ty' & k & Heq & Hk)%Hn.
      apply format_placeholder_inj in Heq as [<- <-]; lia. }
    split; [done|..]; cbn.
    + intros tok o' [[= -> ->]|Hin']%elem_of_cons.
      * exists ty, n. rewrite InMemoryVault.counter_insert, decide_True by done. split; [done|lia].
      * destruct (Hn _ _ Hin') as (ty' & k & -> & Hk). exists ty', k. split; [done|].
        rewrite InMemoryVault.counter_insert. case_decide; subst; lia.
    + intros tok o'. rewrite lookup_insert. case_decide; subst; [|intros; set_solver].
      intros [= <-]. set_solver.
    + intros tok o1 o2 [[= -> ->]|H1]%elem_of_cons [[= -> ]|H2]%elem_of_cons; eauto; naive_solver.
Qed.

Lemma forget_sessions_inv m h ids : hist_inv (m, h) -> hist_inv ((forget_sessions m ids).2, h).
Proof.
  unfold forget_sessions. generalize 0%nat. generalize (elements ids).
  intros l. revert m. induction l as [|s l IH]; intros m k Hh; [done|]. cbn [fold_left forget_one].
  destruct (find m s) as [v|] eqn:Ef; [|by apply IH].
  destruct (0 <? InMemoryVault.len v)%nat; [|by apply IH].
  apply IH. intros s'. cbn. rewrite find_set. pose proof (Hh s') as Hs'. cbn in Hs'.
  case_decide; [subst|done]. rewrite Ef in Hs'. by apply vault_hist_forget.
Qed.

Lemma step_hist st x : hist_inv st -> valid_op x -> hist_inv (step st x).
Proof.
  destruct st as [m h]. intros Hh Hx. destruct x as [s ty o fl|ids]; [|by apply forget_sessions_inv].
  cbn in Hx. destruct Hx as [Hty Hfl]. cbn [step].
  assert (exists v, vault_hist v s h /\ issue m s ty o fl =
    let (r, v') := InMemoryVault.placeholder_for v ty o fl in
    (r, set (get m s).2 s v')) as (v & Hv & ->).
  { unfold issue, get. specialize (Hh s). cbn in Hh. destruct (find m s) as [v|] eqn:Ef; cbn.
    - exists v. by destruct (InMemoryVault.placeholder_for v ty o fl).
    - exists InMemoryVault.empty. split; [by apply vault_hist_empty|].
      by destruct (InMemoryVault.placeholder_for _ ty o fl). }
  assert (forall s', s <> s' -> find (get m s).2 s' = find m s') as Hget.
  { intros s' Hne. unfold get. destruct (find m s) eqn:E; cbn; [done|]. rewrite find_set.
    by rewrite decide_False. }
  destruct (InMemoryVault.placeholder_for v ty o fl) as [[tok|e] v'] eqn:Ep; intros s'; cbn;
    rewrite find_set; (case_decide as Hs'; [subst s'|rewrite Hget by done]).
  - by eapply vault_hist_issue.
  - specialize (Hh s'). cbn in Hh. destruct (find m s'); [by apply vault_hist_other|set_solver].
  - apply InMemoryVault.placeholder_for_raise in Ep. by subst.
  - apply (Hh s').
Qed.

Lemma run_hist xs : forall st, hist_inv st -> Forall valid_op xs -> hist_inv (fold_left step xs st).
Proof.
  induction xs as [|x xs IH]; intros st Hh Hv; [done|]. inversion_clear Hv.
  apply IH; [|done]. by apply step_hist.
Qed.

(** Over any run of the manager -- values issued in any sessions, under any
    floors, sessions purged in between -- a token of a session is only ever the
    answer for one value: purging never lets a number be issued again. *)
Theorem token_single_meaning xs s tok o o' : Forall valid_op xs ->
  let h := (fold_left step xs ([], [])).2 in
  (s, tok, o) ∈ h -> (s, tok, o') ∈ h -> o = o'.
Proof.
  intros Hv h H1 H2. assert (hist_inv (fold_left step xs ([], []))) as Hh.
  { apply run_hist; [|done]. intros s'. cbn. set_solver. }
  specialize (Hh s). destruct (find _ s) as [v|].
  - by eapply vh_fun.
  - by apply Hh in H1.
Qed.

Lemma token_single_meaning_witness :
  let xs := [MIssue (lit "s") (lit "EMAIL") (lit "a@b.co") 0; MForget {[lit "s"]};
             MIssue (lit "s") (lit "EMAIL") (lit "c@d.co") 0] in
  let h := (fold_left step xs ([], [])).2 in
  h = [(lit "s", LAQUO :: lit "EMAIL_002" ++ [RAQUO], lit "c@d.co");
       (lit "s", LAQUO :: lit "EMAIL_001" ++ [RAQUO], lit "a@b.co")] /\
  (forall o, (lit "s", LAQUO :: lit "EMAIL_002" ++ [RAQUO], o) ∈ h -> o = lit "c@d.co").
Proof.
  intros xs h. split; [vm_compute; reflexivity|]. intros o Ho.
  apply (token_single_meaning xs (lit "s") (LAQUO :: lit "EMAIL_002" ++ [RAQUO]) o (lit "c@d.co")).
  - repeat constructor; done.
  - exact Ho.
  - unfold h. vm_compute. left.
Defined.

End InMemoryVaultManager.
