(* ===== verification/Rehydrate.v ===== *)
(** * Restoring originals in responses -- src/llm_redact/rehydrate.py

    Substitution of recognized tokens, the incremental channel
    ([StreamingRehydrator]) with its holdback, and the pool of channels. *)

From S2P Require Import Prelude PyRegex Json Placeholders JsonWalk Vault.

(** [(?<!\\)((?:\\\\){0,})\\u00([aA][bB]|[bB][bB])] *)
Definition GUILLEMET_ESCAPE : regex :=
  Cat (NotBehind (Z.eqb 92)) (Cat (Grp "1" (star (Cat (Lit 92) (Lit 92))))
    (Cat (Lit 92) (Cat (Lit 117) (Cat (Lit 48) (Cat (Lit 48)
      (Grp "2" (Alt (Cat (Chr cls_a) (Chr cls_b)) (Cat (Chr cls_b) (Chr cls_b))))))))).

Definition normalize_guillemet_escapes (text : pystr) : pystr :=
  sub GUILLEMET_ESCAPE
    (fun _ cs => group cs "1" ++
       (if decide (map ascii_lower (group cs "2") = lit "ab") then [LAQUO] else [RAQUO])) text.

Definition escape_body_is_guillemet_prefix (body : pystr) : bool :=
  match body with
  | [] => true
  | c0 :: hexpart =>
      if (4 <? length body)%nat || negb (c0 =? 117) then false
      else forallb (fun ic => if (ic.1 <? 2)%nat then ic.2 =? 48
                              else let c := ascii_lower ic.2 in (c =? 97) || (c =? 98))
                   (imap pair hexpart)
  end.

(** The number of backslashes that end [s] (the loop over [j]). *)
Fixpoint run_of (c : Z) (rev_s : pystr) : nat :=
  match rev_s with x :: s => if x =? c then S (run_of c s) else 0%nat | [] => 0%nat end.

Definition escape_prefix_start (text : pystr) : option nat :=
  match rfind_char 92 text with
  | None => None
  | Some i =>
      if negb (escape_body_is_guillemet_prefix (drop (S i) text)) then None
      else if Nat.odd (run_of 92 (rev (take i text))) then None
      else Some i
  end.

(** [json.dumps(s)[1:-1]]: [s] as the inside of an ASCII JSON string. *)
Definition json_u (c : Z) : pystr := lit "\u" ++ hex4 c.

Definition json_escape_char (c : Z) : pystr :=
  if c =? 34 then [92; 34]
  else if c =? 92 then [92; 92]
  else if c =? 10 then lit "\n"
  else if c =? 13 then lit "\r"
  else if c =? 9 then lit "\t"
  else if c =? 12 then lit "\f"
  else if c =? 8 then lit "\b"
  else if between 32 126 c then [c]
  else if c <? 65536 then json_u c
  else let v := c - 65536 in
       json_u (Z.lor 55296 (Z.land (Z.shiftr v 10) 1023)) ++ json_u (Z.lor 56320 (Z.land v 1023)).

Definition json_escape (s : pystr) : pystr := flat_map json_escape_char s.

Abbreviation counter := (gmap pystr Z).

Section Rehydration.
Context {V : Type} `{VaultOps V}.

Definition pattern (fuzzy : bool) : regex := if fuzzy then FUZZY_PLACEHOLDER_RE else PLACEHOLDER_RE.

(** The vault gate: the canonical form of a token with its original. *)
Definition resolve (fuzzy : bool) (v : V) (token : pystr) : option (pystr * pystr) :=
  match (if fuzzy then canonicalize token else Some token) with
  | None => None
  | Some canonical =>
      match original_for v canonical with
      | Some original => Some (canonical, original)
      | None => None
      end
  end.

(** What [replace] puts in a token's place. *)
Definition replacement (fuzzy json_esc : bool) (v : V) (token : pystr) : pystr :=
  match resolve fuzzy v token with
  | None => token
  | Some (_, original) => if json_esc then json_escape original else original
  end.

(** What it adds to the counts: one restore of the token's type. *)
Definition count_restore (fuzzy : bool) (v : V) (counts : counter) (token : pystr) : counter :=
  match resolve fuzzy v token with
  | None => counts
  | Some (canonical, _) => counter_incr counts (token_type canonical)
  end.

Definition substitute_tokens (fuzzy json_esc : bool) (v : V) (counts : counter) (text : pystr)
    : pystr * counter :=
  (sub (pattern fuzzy) (fun token _ => replacement fuzzy json_esc v token) text,
   fold_left (fun c m => count_restore fuzzy v c m.1) (finditer (pattern fuzzy) text) counts).

(** ** Rehydrator: whole bodies *)
Definition rehydrate_text (fuzzy : bool) (v : V) (counts : counter) (text : pystr) : pystr * counter :=
  substitute_tokens fuzzy false v counts text.

Definition rehydrate_json (fuzzy encrypted_content_passthrough : bool) (v : V) (counts : counter)
    (obj : json) : result Empty_set json * counter :=
  transform_strings (fun text counts =>
      let (out, counts') := rehydrate_text fuzzy v counts text in (Ok out, counts'))
    STRUCTURAL_KEYS (fun _ => None) encrypted_content_passthrough obj counts.

Definition rehydrate_json_source_text (fuzzy : bool) (v : V) (counts : counter) (text : pystr)
    : pystr * counter :=
  substitute_tokens fuzzy true v counts (normalize_guillemet_escapes text).

(** ** StreamingRehydrator: one stream channel *)
Record channel : Type := mk_channel {
  json_source : bool;
  ch_fuzzy : bool;
  buffer : pystr;
  escape_tail : pystr
}.

Definition new_channel (json_src fuzzy : bool) : channel := mk_channel json_src fuzzy [] [].

Definition ch_match (ch : channel) (v : V) (counts : counter) (text : pystr) : pystr * counter :=
  substitute_tokens (ch_fuzzy ch) (json_source ch) v counts text.

Definition feed (v : V) (ch : channel) (counts : counter) (text : pystr)
    : pystr * channel * counter :=
  let '(data, tail) :=
    if json_source ch then
      let data := escape_tail ch ++ text in
      match escape_prefix_start data with
      | Some cut => (normalize_guillemet_escapes (take cut data), drop cut data)
      | None => (normalize_guillemet_escapes data, [])
      end
    else (text, escape_tail ch) in
  let '(substituted, counts') := ch_match ch v counts (buffer ch ++ data) in
  match viable_prefix_start (ch_fuzzy ch) substituted with
  | None => (substituted, mk_channel (json_source ch) (ch_fuzzy ch) [] tail, counts')
  | Some holdback =>
      (take holdback substituted,
       mk_channel (json_source ch) (ch_fuzzy ch) (drop holdback substituted) tail, counts')
  end.

Definition flush (v : V) (ch : channel) (counts : counter) : pystr * channel * counter :=
  let buf := match escape_tail ch with
             | [] => buffer ch
             | tail => buffer ch ++ normalize_guillemet_escapes tail
             end in
  let '(out, counts') := ch_match ch v counts buf in
  (out, mk_channel (json_source ch) (ch_fuzzy ch) [] [], counts').

(** A whole stream: every chunk fed in order, then the flush. *)
Fixpoint feed_all (v : V) (ch : channel) (counts : counter) (chunks : list pystr)
    : list pystr * channel * counter :=
  match chunks with
  | [] => ([], ch, counts)
  | x :: xs =>
      let '(out, ch1, counts1) := feed v ch counts x in
      let '(outs, ch2, counts2) := feed_all v ch1 counts1 xs in
      (out :: outs, ch2, counts2)
  end.

Definition stream (v : V) (ch : channel) (counts : counter) (chunks : list pystr) : pystr * counter :=
  let '(outs, ch1, counts1) := feed_all v ch counts chunks in
  let '(last, _, counts2) := flush v ch1 counts1 in
  (concat outs ++ last, counts2).

(** ** RehydratorPool: channels made on first use, in insertion order *)
Section Pool.
Context {K : Type} `{EqDecision K}.

Record pool : Type := mk_pool {
  p_fuzzy : bool;
  channels : list (K * channel);
  p_counts : counter
}.

Definition pool_find (key : K) (p : pool) : option channel :=
  snd <$> List.find (fun kc => bool_decide (kc.1 = key)) (channels p).

Definition pool_set (key : K) (ch : channel) (p : pool) : pool :=
  mk_pool (p_fuzzy p)
    (match pool_find key p with
     | Some _ => map (fun kc => if bool_decide (kc.1 = key) then (key, ch) else kc) (channels p)
     | None => channels p ++ [(key, ch)]
     end) (p_counts p).

Definition pool_get (key : K) (json_src : bool) (p : pool) : channel * pool :=
  match pool_find key p with
  | Some ch => (ch, p)
  | None => let ch := new_channel json_src (p_fuzzy p) in (ch, pool_set key ch p)
  end.

(** [pool.get(key, json_source=...).feed(text)] *)
Definition pool_feed (v : V) (key : K) (json_src : bool) (text : pystr) (p : pool) : pystr * pool :=
  let (ch, p1) := pool_get key json_src p in
  let '(out, ch', counts') := feed v ch (p_counts p1) text in
  let p2 := pool_set key ch' p1 in
  (out, mk_pool (p_fuzzy p2) (channels p2) counts').

Definition pool_flush (v : V) (key : K) (p : pool) : pystr * pool :=
  match pool_find key p with
  | None => ([], p)
  | Some ch =>
      let '(out, _, counts') := flush v ch (p_counts p) in
      (out, mk_pool (p_fuzzy p)
              (List.filter (fun kc => negb (bool_decide (kc.1 = key))) (channels p)) counts')
  end.

(** The leftovers of the channels satisfying [predicate], in order, the empty
    ones dropped; those channels leave the pool. *)
Definition flush_matching (v : V) (predicate : K -> bool) (p : pool) : list (K * pystr) * pool :=
  let step := fun (acc : list (K * pystr) * counter) (kc : K * channel) =>
    let '(out, _, counts') := flush v kc.2 acc.2 in
    (acc.1 ++ [(kc.1, out)], counts') in
  let '(leftovers, counts') :=
    fold_left step (List.filter (fun kc => predicate kc.1) (channels p)) ([], p_counts p) in
  (List.filter (fun kt => match kt.2 with [] => false | _ => true end) leftovers,
   mk_pool (p_fuzzy p) (List.filter (fun kc => negb (predicate kc.1)) (channels p)) counts').

Definition flush_all (v : V) (p : pool) : list (K * pystr) * pool :=
  flush_matching v (fun _ => true) p.

Definition rehydrate_whole (v : V) (json_src : bool) (text : pystr) (p : pool) : pystr * pool :=
  let '(out, ch, c1) := feed v (new_channel json_src (p_fuzzy p)) (p_counts p) text in
  let '(last, _, c2) := flush v ch c1 in
  (out ++ last, mk_pool (p_fuzzy p) (channels p) c2).
End Pool.
End Rehydration.

#[global] Arguments substitute_tokens : simpl never.
