(* ===== verification/Streaming.v ===== *)
(** * Streaming restoration equals whole-text restoration

    The sweep invariant of src/llm_redact/rehydrate.py: a channel fed a text in
    chunks, however they are cut, restores what one pass over the whole text
    restores -- under the conditions the proof isolates ([stream_safe]). *)

From S2P Require Import Prelude PyRegex Json Placeholders JsonWalk TokenSearch Vault Rehydrate.

(** ** What is held back *)

(** The inside of an open guillemet that [viable_prefix_start] holds back. *)
Definition viable (fuzzy : bool) (b : pystr) : bool :=
  negb (MAX_PLACEHOLDER_LEN <=? zlen (LAQUO :: b)) &&
  (if fuzzy then is_match FUZZY_INTERIOR_PREFIX_RE b
   else forallb (fun ch => is_match BODY_CHAR_RE [ch]) b).

Lemma no_guill_iff b : no_guill b = true <-> mem_char LAQUO b = false /\ mem_char RAQUO b = false.
Proof. unfold no_guill. by rewrite andb_true_iff, !negb_true_iff. Qed.

Lemma drop_length_app {A} (a b : list A) : drop (length a) (a ++ b) = b.
Proof. by rewrite drop_app_length. Qed.

Lemma vps_cut fuzzy a b : mem_char LAQUO b = false ->
  viable_prefix_start fuzzy (a ++ LAQUO :: b) =
    if mem_char RAQUO b then None else if viable fuzzy b then Some (length a) else None.
Proof.
  intros Hb. unfold viable_prefix_start.
  rewrite (proj2 (rfind_char_Some LAQUO _ (length a))) by (by exists a, b).
  rewrite drop_length_app, mem_char_cons. change (RAQUO =? LAQUO) with false. cbn [orb drop].
  destruct (mem_char RAQUO b); [done|]. unfold viable.
  destruct (_ <=? _); [done|]. cbn [negb andb]. by destruct fuzzy.
Qed.

(** A text has no guillemet, or is cut at the last one. *)
Lemma laquo_cases t : mem_char LAQUO t = false \/
  exists a b, t = a ++ LAQUO :: b /\ mem_char LAQUO b = false.
Proof.
  destruct (rfind_char LAQUO t) as [i|] eqn:E.
  - right. apply rfind_char_Some in E as (a & b & -> & _ & Hb). by exists a, b.
  - left. by apply rfind_char_None.
Qed.

Lemma vps_plain fuzzy t : mem_char LAQUO t = false -> viable_prefix_start fuzzy t = None.
Proof. intros H%rfind_char_None. unfold viable_prefix_start. by rewrite H. Qed.

Lemma vps_Some fuzzy t i : viable_prefix_start fuzzy t = Some i ->
  exists a b, t = a ++ LAQUO :: b /\ length a = i /\ no_guill b = true /\ viable fuzzy b = true.
Proof.
  destruct (laquo_cases t) as [H|(a & b & -> & Hb)]; [by rewrite vps_plain|].
  rewrite vps_cut by done. destruct (mem_char RAQUO b) eqn:Hr; [done|].
  destruct (viable fuzzy b) eqn:Hv; [|done]. intros [= <-]. exists a, b.
  by rewrite no_guill_iff.
Qed.

(** Only what follows the last guillemet matters. *)
Lemma vps_app_None fuzzy p t : viable_prefix_start fuzzy (p ++ t) = None ->
  viable_prefix_start fuzzy t = None.
Proof.
  destruct (laquo_cases t) as [H|(a & b & -> & Hb)]; [by intros _; apply vps_plain|].
  rewrite app_assoc, !vps_cut by done. destruct (mem_char RAQUO b); [done|]. by destruct (viable fuzzy b).
Qed.

Lemma is_match_body c : is_match BODY_CHAR_RE [c] = cls_AZ09_ c.
Proof.
  apply eq_true_iff_eq. rewrite is_match_spec. unfold BODY_CHAR_RE. split.
  - intros (cs & H). rx_inv. naive_solver.
  - intros H. exists []. by apply rx_chr.
Qed.

(** The inside of a fuzzy open token: pads, a word, and pads after a digit. *)
Inductive interior : pystr -> Prop :=
| interior_pad p : (length p <= 2)%nat -> forallb cls_pad p = true -> interior p
| interior_word p a b : (length p <= 2)%nat -> forallb cls_pad p = true -> cls_letter a = true ->
    forallb cls_word b = true -> interior (p ++ a :: b)
| interior_trail p a b b0 x p2 : (length p <= 2)%nat -> forallb cls_pad p = true ->
    cls_letter a = true -> forallb cls_word b = true -> a :: b = b0 ++ [x] -> is_nd x = true ->
    (length p2 <= 2)%nat -> forallb cls_pad p2 = true -> interior (p ++ (a :: b) ++ p2).

Lemma last_of_rev {A} (a : A) b pre x pre' :
  rev b ++ rev [a] ++ pre = x :: pre' -> exists b0, a :: b = b0 ++ [x].
Proof.
  intros H. destruct (exists_last (l := a :: b)) as (b0 & y & E); [done|].
  apply (f_equal (@rev A)) in E as E'. rewrite rev_app_distr in E'. cbn in E', H.
  change (rev b ++ [a] ++ pre = x :: pre') in H. rewrite app_assoc, E' in H. injection H as -> _. eauto.
Qed.

Lemma is_match_interior w : is_match FUZZY_INTERIOR_PREFIX_RE w = true <-> interior w.
Proof.
  rewrite is_match_spec. split.
  - intros [cs H]. unfold FUZZY_INTERIOR_PREFIX_RE in H. rx_inv.
    all: subst; cbn [within_max] in *; rewrite ?app_nil_r.
    1, 2: by constructor.
    match goal with H : rev _ ++ rev [_] ++ _ = _ |- _ => apply last_of_rev in H as [b0 H] end.
    match goal with |- interior (?p ++ [?a] ++ ?b ++ [] ++ ?q) =>
      eapply (interior_trail p a b _ _ q); done end.
  - intros H. exists []. unfold FUZZY_INTERIOR_PREFIX_RE.
    destruct H as [p Hl Hp|p a b Hl Hp Ha Hb|p a b b0 x p2 Hl Hp Ha Hb Hx Hd Hl2 Hp2].
    + rewrite <- (app_nil_r p). eapply rx_cat; [apply rx_rep; done || (cbn; lia)|].
      apply (rx_cat _ _ _ [] [] _ _ []); [apply rx_opt; by left|done].
    + eapply rx_cat; [apply rx_rep; done || (cbn; lia)|].
      rewrite <- (app_nil_r (a :: b)). apply (rx_cat _ _ _ _ [] _ _ []); [|done]. apply rx_opt; right. split; [done|].
      apply (rx_cat _ _ _ [a] b _ _ []); [by apply rx_chr|].
      rewrite <- (app_nil_r b). eapply rx_cat; [apply rx_rep; done || (cbn; lia)|].
      apply rx_opt; by left.
    + eapply rx_cat; [apply rx_rep; done || (cbn; lia)|].
      rewrite <- (app_nil_r ((a :: b) ++ p2)). apply (rx_cat _ _ _ _ [] _ _ []); [|done]. apply rx_opt; right.
      split; [done|]. apply (rx_cat _ _ _ [a] (b ++ p2) _ _ []); [by apply rx_chr|].
      eapply rx_cat; [apply rx_rep; done || (cbn; lia)|].
      destruct p2 as [|y p2]; [apply rx_opt; by left|]. apply rx_opt; right. split; [done|].
      apply (rx_cat _ _ _ [] (y :: p2) _ _ []); [|apply rx_rep; done || (cbn; lia)].
      split_and!; [done..|]. exists x, (rev b0 ++ rev p). split; [|done].
      apply (f_equal (@rev Z)) in Hx. rewrite rev_app_distr in Hx. cbn in Hx.
      rewrite app_nil_r, app_assoc. change (rev [a]) with [a]. by rewrite Hx.
Qed.

Lemma forallb_app_l {A} (p : A -> bool) l1 l2 : forallb p (l1 ++ l2) = true -> forallb p l1 = true.
Proof. rewrite forallb_app. by intros [??]%andb_true_iff. Qed.

Lemma interior_app b c : interior (b ++ c) -> interior b.
Proof.
  intros H. inversion H as [p Hl Hp|p a d Hl Hp Ha Hb Heq|p a d d0 x p2 Hl Hp Ha Hb Hx Hd Hl2 Hp2 Heq].
  - subst. rewrite length_app in Hl. apply forallb_app_l in Hp. constructor; [lia|done].
  - apply app_eq_inv in Heq as [(k & -> & Hk)|(k & -> & Hk)].
    + rewrite length_app in Hl. apply forallb_app_l in Hp. constructor; [lia|done].
    + destruct k as [|a' k]; [rewrite app_nil_r; by constructor|]. injection Hk as -> ->.
      apply forallb_app_l in Hb. by constructor.
  - apply app_eq_inv in Heq as [(k & -> & Hk)|(k & -> & Hk)].
    + rewrite length_app in Hl. apply forallb_app_l in Hp. constructor; [lia|done].
    + apply (app_eq_inv (a :: d) p2) in Hk as [(k' & Hk & ->)|(k' & -> & ->)].
      * destruct k as [|a' k]; [rewrite app_nil_r; by constructor|]. injection Hk as -> ->.
        apply forallb_app_l in Hb. by constructor.
      * rewrite length_app in Hl2. apply forallb_app_l in Hp2.
        eapply interior_trail; done || lia.
Qed.

Lemma viable_app fuzzy b c : viable fuzzy (b ++ c) = true -> viable fuzzy b = true.
Proof.
  unfold viable. intros [Hl H]%andb_true_iff. apply andb_true_iff. split.
  - rewrite !zlen_cons, zlen_app in *. pose proof (zlen_nonneg c). lia.
  - destruct fuzzy; [|by apply forallb_app_l in H].
    apply is_match_interior. apply is_match_interior in H. by eapply interior_app.
Qed.

(** ** A text as a list of pieces

    Substitution, seen as the characters that pass and the tokens it restores;
    the restored text and the counts are two readings of the pieces. *)
Abbreviation piece := (Z + pystr)%type.

#[export] Instance pattern_delimited fuzzy : Delimited (pattern fuzzy).
Proof. destruct fuzzy; apply _. Qed.

Section Pieces.
Context {V : Type} `{VaultOps V} (fuzzy : bool) (v : V) (json_esc : bool).

Definition restores (w : pystr) : bool :=
  match resolve fuzzy v w with Some _ => true | None => false end.

Definition as_pieces (w : pystr) : list piece := if restores w then [inr w] else map inl w.

Definition pieces (s : pystr) : list piece := subst (pattern fuzzy) inl as_pieces s.

Definition render1 (p : piece) : pystr :=
  match p with inl c => [c] | inr w => replacement fuzzy json_esc v w end.

Definition render (ps : list piece) : pystr := flat_map render1 ps.

Definition tally (counts : counter) (p : piece) : counter :=
  match p with inl _ => counts | inr w => count_restore fuzzy v counts w end.

Lemma render_app p q : render (p ++ q) = render p ++ render q.
Proof. apply flat_map_app. Qed.

Lemma render_chars s : render (map inl s) = s.
Proof. induction s as [|c s IH]; [done|]. unfold render in *. cbn. by rewrite IH. Qed.

Lemma tally_chars s counts : fold_left tally (map inl s) counts = counts.
Proof. by induction s. Qed.

Lemma render_as_pieces w : render (as_pieces w) = replacement fuzzy json_esc v w.
Proof.
  unfold as_pieces. destruct (restores w) eqn:E; [by cbn; rewrite app_nil_r|].
  rewrite render_chars. unfold replacement, restores in *.
  by destruct (resolve _ _ _) as [[??]|].
Qed.

Lemma tally_as_pieces w counts :
  fold_left tally (as_pieces w) counts = count_restore fuzzy v counts w.
Proof.
  unfold as_pieces. destruct (restores w) eqn:E; [done|].
  rewrite tally_chars. unfold count_restore, restores in *.
  by destruct (resolve _ _ _) as [[??]|].
Qed.

Lemma substitute_pieces counts s :
  substitute_tokens fuzzy json_esc v counts s
  = (render (pieces s), fold_left tally (pieces s) counts).
Proof.
  unfold substitute_tokens, pieces, sub, finditer. f_equal.
  - unfold render. rewrite subst_map. apply flat_map_ext. intros [c|w cs]; [done|].
    symmetry. apply render_as_pieces.
  - unfold subst. revert counts. induction (scan (pattern fuzzy) s) as [|[c|w cs] l IH]; intros counts;
      [done|apply IH|]. cbn. by rewrite fold_left_app, tally_as_pieces, IH.
Qed.

(** What the equality of the two ways of restoring needs of a text: a token it
    restores is held back while it is incomplete, starts where no other token
    is being held back, and its value opens no guillemet. *)
Record safe (t : pystr) : Prop := {
  safe_held a w c b u : t = a ++ w ++ c -> is_match (pattern fuzzy) w = true -> restores w = true ->
    w = LAQUO :: b ++ u -> no_guill b = true -> viable fuzzy b = true;
  safe_flat a w c : t = a ++ w ++ c -> is_match (pattern fuzzy) w = true -> restores w = true ->
    viable_prefix_start fuzzy a = None;
  safe_value a w c : t = a ++ w ++ c -> is_match (pattern fuzzy) w = true -> restores w = true ->
    mem_char LAQUO (replacement fuzzy json_esc v w) = false
}.

Lemma safe_prefix s t : safe (s ++ t) -> safe s.
Proof.
  intros [H1 H2 H3]. split; intros.
  - subst s. eapply (H1 a w (c ++ t)); [by rewrite <- !app_assoc|done..].
  - subst s. eapply (H2 a w (c ++ t)); [by rewrite <- !app_assoc|done..].
  - subst s. eapply (H3 a w (c ++ t)); [by rewrite <- !app_assoc|done..].
Qed.

Lemma safe_suffix s t : safe (s ++ t) -> safe t.
Proof.
  intros [H1 H2 H3]. split; intros.
  - subst t. eapply (H1 (s ++ a) w c); [by rewrite <- !app_assoc|done..].
  - subst t. eapply vps_app_None, (H2 (s ++ a) w c); [by rewrite <- !app_assoc|done..].
  - subst t. eapply (H3 (s ++ a) w c); [by rewrite <- !app_assoc|done..].
Qed.

(** Without a closing guillemet nothing is restored. *)
Lemma pieces_open b : no_guill b = true -> pieces (LAQUO :: b) = map inl (LAQUO :: b).
Proof.
  intros Hb. unfold pieces. rewrite <- (app_nil_r b) at 1.
  rewrite subst_open; [by rewrite app_nil_r|apply _|done|].
  intros u s' Heq. symmetry in Heq. apply app_nil in Heq as [-> ->]. rewrite app_nil_r.
  intros (b' & Hw & _)%token_shape; [|apply _]. injection Hw as ->.
  apply no_guill_mem in Hb as [_ Hb]. rewrite mem_char_app, mem_char_cons, Z.eqb_refl in Hb.
  by rewrite orb_true_r in Hb.
Qed.

Lemma pieces_cut a t : pieces (a ++ LAQUO :: t) = pieces a ++ pieces (LAQUO :: t).
Proof. apply subst_cut, _. Qed.

Lemma pieces_plain a t : mem_char LAQUO a = false -> pieces (a ++ t) = map inl a ++ pieces t.
Proof. apply subst_plain, _. Qed.

Lemma pieces_plain_all a : mem_char LAQUO a = false -> pieces a = map inl a.
Proof. apply subst_plain_all, _. Qed.

(** What follows the last guillemet [LAQUO :: b] of a text: an incomplete
    token, or a closed pair and text without guillemets opening. *)
Lemma open_cases b : mem_char LAQUO b = false ->
  no_guill b = true \/
  exists b1 b2, b = b1 ++ RAQUO :: b2 /\ no_guill b1 = true /\ mem_char LAQUO b2 = false.
Proof.
  intros Hb. destruct (mem_char RAQUO b) eqn:Hr; [right|left; by rewrite no_guill_iff].
  apply split_raquo in Hr as (b1 & b2 & -> & H1). rewrite mem_char_app, mem_char_cons in Hb.
  exists b1, b2. rewrite no_guill_iff. bool_simpl. done.
Qed.

Lemma pieces_closed b t : no_guill b = true ->
  pieces (LAQUO :: b ++ RAQUO :: t) = pieces (LAQUO :: b ++ [RAQUO]) ++ pieces t.
Proof.
  intros Hb. unfold pieces.
  destruct (is_match (pattern fuzzy) (LAQUO :: b ++ [RAQUO])) eqn:Hm.
  - replace (LAQUO :: b ++ RAQUO :: t) with ((LAQUO :: b ++ [RAQUO]) ++ t)
      by (cbn; by rewrite <- app_assoc).
    rewrite subst_token by (apply _ || done). f_equal.
    symmetry. apply subst_token_all; [apply _|done].
  - rewrite !subst_closed by (apply _ || done). by rewrite <- app_assoc.
Qed.

(** A restored token, or the text itself. *)
Lemma pieces_pair b : no_guill b = true ->
  pieces (LAQUO :: b ++ [RAQUO]) = [inr (LAQUO :: b ++ [RAQUO])] /\
    is_match (pattern fuzzy) (LAQUO :: b ++ [RAQUO]) = true /\ restores (LAQUO :: b ++ [RAQUO]) = true
  \/ pieces (LAQUO :: b ++ [RAQUO]) = map inl (LAQUO :: b ++ [RAQUO]).
Proof.
  intros Hb. unfold pieces.
  destruct (is_match (pattern fuzzy) (LAQUO :: b ++ [RAQUO])) eqn:Hm.
  - rewrite subst_token_all by (apply _ || done). unfold as_pieces. destruct (restores _); auto.
  - right. rewrite subst_closed by (apply _ || done). apply app_nil_r.
Qed.

Lemma pieces_split D x : safe (D ++ x) -> viable_prefix_start fuzzy D = None ->
  pieces (D ++ x) = pieces D ++ pieces x.
Proof.
  intros Hs HD. destruct (laquo_cases D) as [H0|(a & b & -> & Hb)].
  { by rewrite pieces_plain, (pieces_plain_all D). }
  rewrite vps_cut in HD by done. rewrite <- app_assoc in *. cbn in *. rewrite !pieces_cut, <- app_assoc.
  f_equal. destruct (open_cases b Hb) as [Hg|(b1 & b2 & -> & H1 & H2)].
  - pose proof Hg as [_ Hr]%no_guill_iff. rewrite Hr in HD.
    assert (viable fuzzy b = false) as Hv by (by destruct (viable fuzzy b)).
    rewrite (pieces_open b Hg). unfold pieces. apply subst_open; [apply _|done|].
    intros u s' -> Hw. unfold as_pieces. destruct (restores _) eqn:E; [|done].
    enough (viable fuzzy b = true) by congruence.
    apply (safe_held _ Hs a (LAQUO :: b ++ u) s' b u); [|done..].
    cbn. by rewrite <- app_assoc.
  - rewrite <- app_assoc. cbn. rewrite (pieces_closed b1 (b2 ++ x)), (pieces_closed b1 b2) by done.
    rewrite <- app_assoc. f_equal.
    by rewrite pieces_plain, (pieces_plain_all b2).
Qed.

Lemma vps_None_app a z : viable_prefix_start fuzzy a = None -> mem_char LAQUO z = false ->
  viable_prefix_start fuzzy (a ++ z) = None.
Proof.
  intros Ha Hz. destruct (laquo_cases a) as [H0|(p & b & -> & Hb)].
  { apply vps_plain. by rewrite mem_char_app, H0. }
  rewrite vps_cut in Ha by done. rewrite <- app_assoc. cbn.
  rewrite vps_cut, mem_char_app by (by rewrite mem_char_app, Hb).
  destruct (mem_char RAQUO b); [done|]. destruct (viable fuzzy b) eqn:E; [done|].
  destruct (_ || _); [done|]. destruct (viable fuzzy (b ++ z)) eqn:E'; [|done].
  apply viable_app in E'. congruence.
Qed.

Lemma render_vps t : safe t -> viable_prefix_start fuzzy t = None ->
  viable_prefix_start fuzzy (render (pieces t)) = None.
Proof.
  remember (length t) as n eqn:Hn. revert t Hn. induction (lt_wf n) as [n _ IH].
  intros t -> Hs Ht. destruct (laquo_cases t) as [H0|(a & b & -> & Hb)].
  { rewrite pieces_plain_all, render_chars by done. by apply vps_plain. }
  rewrite vps_cut in Ht by done. rewrite pieces_cut, render_app.
  destruct (open_cases b Hb) as [Hg|(b1 & b2 & -> & H1 & H2)].
  - rewrite pieces_open, render_chars, vps_cut by done.
    destruct (mem_char RAQUO b); [done|]. by destruct (viable fuzzy b).
  - rewrite (pieces_closed b1 b2), render_app by done.
    rewrite (pieces_plain_all b2), render_chars by done.
    destruct (pieces_pair b1 H1) as [(-> & Hm & Hr)| ->].
    + cbn [render flat_map]. rewrite app_nil_r.
      assert (a ++ LAQUO :: b1 ++ RAQUO :: b2 = a ++ (LAQUO :: b1 ++ [RAQUO]) ++ b2) as Heq
        by (cbn; by rewrite <- app_assoc).
      apply vps_None_app.
      * apply (IH (length a)); [rewrite length_app; cbn; lia|done|by eapply safe_prefix|].
        by eapply (safe_flat _ Hs _ _ _ Heq).
      * rewrite mem_char_app, H2, orb_false_r. by eapply (safe_value _ Hs _ _ _ Heq).
    + rewrite render_chars. cbn. rewrite <- app_assoc, vps_cut.
      * rewrite mem_char_app. cbn. by rewrite mem_char_cons, Z.eqb_refl, orb_true_r.
      * cbn. rewrite mem_char_app, mem_char_cons, H2. apply no_guill_iff in H1 as [-> _]. done.
Qed.

(** *** The channel's state after a text *)

(** The pieces already sent and the tail held back, of the text so far. *)
Definition held (D : pystr) : list piece * pystr :=
  match viable_prefix_start fuzzy D with
  | None => (pieces D, [])
  | Some i => (pieces (take i D), drop i D)
  end.

(** One step of [feed] on decoded data keeps the state [held]. *)
Lemma held_step D x : safe (D ++ x) ->
  exists q, (held (D ++ x)).1 = (held D).1 ++ q /\
    pieces ((held D).2 ++ x) = q ++ map inl (held (D ++ x)).2 /\
    viable_prefix_start fuzzy (render (pieces ((held D).2 ++ x))) =
      match (held (D ++ x)).2 with [] => None | _ => Some (length (render q)) end.
Proof.
  intros Hs.
  assert (exists p B, D = p ++ B /\ (held D).1 = pieces p /\ (held D).2 = B /\
    pieces (D ++ x) = pieces p ++ pieces (B ++ x) /\
    (B = [] /\ viable_prefix_start fuzzy D = None \/ exists b, B = LAQUO :: b))
    as (p & B & -> & Hp & HB & Hcut & HBs).
  { unfold held. destruct (viable_prefix_start fuzzy D) as [i|] eqn:E.
    - apply vps_Some in E as (a & b & -> & <- & Hg & Hv).
      rewrite take_app_length, drop_length_app. exists a, (LAQUO :: b). split_and!; eauto.
      rewrite <- app_assoc. apply pieces_cut.
    - exists D, []. rewrite app_nil_r. split_and!; auto. by apply pieces_split. }
  rewrite Hp, HB. rewrite <- app_assoc in *. pose proof (safe_suffix _ _ Hs) as HsB.
  unfold held. destruct (viable_prefix_start fuzzy (p ++ B ++ x)) as [i|] eqn:E; cbn.
  - apply vps_Some in E as (a' & b' & Heq & <- & Hg & Hv).
    assert (exists c, B ++ x = c ++ LAQUO :: b' /\ a' = p ++ c) as (c & Hc & ->).
    { apply app_eq_inv in Heq as [(k & -> & Hk)|(k & -> & Hk)]; [|by eauto].
      destruct k as [|y k]; [exists []; by rewrite !app_nil_r|]. exfalso.
      injection Hk as <- ->. destruct HBs as [[-> HD]|[b ->]].
      + rewrite app_nil_r in HD. apply no_guill_iff in Hg as [Hg Hr].
        rewrite mem_char_app in Hg, Hr. bool_simpl. apply viable_app in Hv.
        rewrite vps_cut, Hv in HD by done. by destruct (mem_char RAQUO k).
      + apply no_guill_iff in Hg as [Hg _]. rewrite mem_char_app in Hg. cbn in Hg.
        by rewrite mem_char_cons, Z.eqb_refl, orb_true_r in Hg. }
    rewrite Hc, app_assoc, take_app_length, drop_length_app.
    assert (pieces (c ++ LAQUO :: b') = pieces c ++ map inl (LAQUO :: b')) as Hpc
      by (by rewrite pieces_cut, pieces_open).
    exists (pieces c). split_and!; [|done|].
    + rewrite Hc, Hpc, app_assoc, app_assoc in Hcut. apply app_inv_tail with (l := map inl (LAQUO :: b')).
      rewrite <- Hcut. by rewrite pieces_cut, pieces_open.
    + rewrite Hpc, render_app, render_chars, vps_cut by (by apply no_guill_iff in Hg as [??]).
      apply no_guill_iff in Hg as [_ ->]. by rewrite Hv.
  - exists (pieces (B ++ x)). split_and!; [done|by rewrite app_nil_r|].
    apply render_vps; [done|]. by eapply vps_app_None.
Qed.

(** What [feed] does with decoded data, in terms of the text so far. *)
Lemma feed_emit D x tail counts : safe (D ++ x) ->
  exists q, (held (D ++ x)).1 = (held D).1 ++ q /\
    (let '(substituted, counts') := substitute_tokens fuzzy json_esc v counts ((held D).2 ++ x) in
     match viable_prefix_start fuzzy substituted with
     | None => (substituted, mk_channel json_esc fuzzy [] tail, counts')
     | Some holdback => (take holdback substituted,
                         mk_channel json_esc fuzzy (drop holdback substituted) tail, counts')
     end)
    = (render q, mk_channel json_esc fuzzy (held (D ++ x)).2 tail, fold_left tally q counts).
Proof.
  intros Hs. destruct (held_step D x Hs) as (q & Hq & Hp & Hv). exists q. split; [done|].
  rewrite substitute_pieces. rewrite Hv. rewrite Hp, render_app, render_chars, fold_left_app, tally_chars.
  destruct (held (D ++ x)).2; [by rewrite app_nil_r|].
  by rewrite take_app_length, drop_length_app.
Qed.

Lemma held_nil : held [] = ([], []).
Proof. done. Qed.

(** The flush completes the text. *)
Lemma held_flush D : pieces D = (held D).1 ++ pieces (held D).2.
Proof.
  unfold held. destruct (viable_prefix_start fuzzy D) as [i|] eqn:E; cbn.
  - apply vps_Some in E as (a & b & -> & <- & _). rewrite take_app_length, drop_length_app.
    apply pieces_cut.
  - by rewrite app_nil_r.
Qed.

(** What is held back is an open guillemet, which passes as it is. *)
Lemma pieces_held D : pieces (held D).2 = map inl (held D).2.
Proof.
  unfold held. destruct (viable_prefix_start fuzzy D) as [i|] eqn:E; [|done].
  apply vps_Some in E as (a & b & -> & <- & Hg & _). cbn. rewrite drop_length_app. by apply pieces_open.
Qed.

Lemma held_pieces D x : safe (D ++ x) -> pieces (D ++ x) = (held D).1 ++ pieces ((held D).2 ++ x).
Proof.
  intros Hs. destruct (held_step D x Hs) as (q & Hq & -> & _).
  by rewrite (held_flush (D ++ x)), pieces_held, Hq, <- app_assoc.
Qed.
End Pieces.

(** ** Plain channels *)
Section Plain.
Context {V : Type} `{VaultOps V} (fuzzy : bool) (v : V).

Abbreviation held := (held fuzzy v).
Abbreviation safe := (safe fuzzy v false).

Lemma feed_all_held chunks : forall D counts, safe (D ++ concat chunks) ->
  exists q outs, (held (D ++ concat chunks)).1 = (held D).1 ++ q /\
    feed_all v (mk_channel false fuzzy (held D).2 []) counts chunks
    = (outs, mk_channel false fuzzy (held (D ++ concat chunks)).2 [], fold_left (tally fuzzy v) q counts) /\
    concat outs = render fuzzy v false q.
Proof.
  induction chunks as [|x xs IH]; intros D counts Hs; cbn [concat feed_all] in *.
  { exists [], []. rewrite !app_nil_r. done. }
  rewrite app_assoc in Hs |- *. unfold feed, ch_match. cbn [json_source ch_fuzzy escape_tail buffer].
  destruct (feed_emit fuzzy v false D x [] counts (safe_prefix _ _ _ _ _ Hs)) as (q & Hq & ->).
  destruct (IH (D ++ x) (fold_left (tally fuzzy v) q counts) Hs) as (q' & outs & Hq' & -> & Ho).
  exists (q ++ q'), (render fuzzy v false q :: outs).
  rewrite Hq', Hq, <- app_assoc, fold_left_app. cbn. by rewrite render_app, Ho.
Qed.

Lemma stream_pieces chunks counts : safe (concat chunks) ->
  stream v (new_channel false fuzzy) counts chunks
  = substitute_tokens fuzzy false v counts (concat chunks).
Proof.
  intros Hs. destruct (feed_all_held chunks [] counts Hs) as (q & outs & Hq & Hf & Ho).
  rewrite held_nil in *. unfold stream, new_channel. cbn in Hq, Hf. rewrite Hf.
  unfold flush, ch_match. cbn. rewrite !substitute_pieces, (held_flush _ _ (concat chunks)), Hq.
  by rewrite Ho, render_app, fold_left_app.
Qed.
End Plain.

(** ** The conditions, decided on a text *)
Section Conditions.
Context {V : Type} `{VaultOps V} (fuzzy : bool) (v : V) (json_esc : bool).

(** Where a text holds a token that is restored: what precedes it, and it. *)
Definition restored_at (t : pystr) : list (pystr * pystr) :=
  omap (fun i => match token_prefix (pattern fuzzy) (drop i t) with
                 | Some w => if restores fuzzy v w then Some (take i t, w) else None
                 | None => None
                 end) (seq 0 (length t)).

(** Every proper prefix of a token is held back. *)
Definition held_back (w : pystr) : bool :=
  forallb (fun k => viable fuzzy (take k (drop 1 w))) (seq 0 (length w - 1)).

(** [stream_safe]: no restored token lies in an open guillemet that is being
    held back, no restored value opens a guillemet, and a token of the fuzzy
    grammar is written with at most [MAX_PLACEHOLDER_LEN] ASCII characters (the
    strict tokens a vault issues always are). *)
Definition stream_safe (t : pystr) : bool :=
  forallb (fun aw =>
    match viable_prefix_start fuzzy aw.1 with None => true | Some _ => false end
    && negb (mem_char LAQUO (replacement fuzzy json_esc v aw.2))
    && (negb fuzzy || held_back aw.2)) (restored_at t).

Lemma restored_at_in t a w c : t = a ++ w ++ c -> is_match (pattern fuzzy) w = true ->
  restores fuzzy v w = true -> (a, w) ∈ restored_at t.
Proof.
  intros -> Hw Hr. unfold restored_at. apply list_elem_of_omap. exists (length a). split.
  - apply elem_of_seq. destruct (token_shape _ w Hw) as (b & -> & _). rewrite !length_app. cbn. lia.
  - rewrite drop_length_app, take_app_length. unfold token_prefix.
    destruct (token_match_at _ w c Hw) as [cs ->]. cbn. by rewrite Hr.
Qed.

Lemma held_back_viable w b u : held_back w = true -> w = LAQUO :: b ++ u -> u <> [] ->
  viable fuzzy b = true.
Proof.
  intros Hh -> Hu. unfold held_back in Hh. rewrite forallb_forall in Hh.
  specialize (Hh (length b)). change (drop 1 (LAQUO :: b ++ u)) with (b ++ u) in Hh.
  cbv beta in Hh. rewrite take_app_length in Hh. apply Hh.
  apply in_seq. cbn. rewrite length_app. destruct u; [done|cbn; lia].
Qed.
End Conditions.

Section Laws.
Context {V : Type} `{VaultLaws V} (fuzzy : bool) (v : V) (json_esc : bool).

(** An issued token is held back by the strict test from its first character. *)
Lemma issued_viable b u : vinv v -> restores false v (LAQUO :: b ++ u) = true -> u <> [] ->
  viable false b = true.
Proof.
  unfold restores, resolve. intros Hv Hr Hu.
  destruct (original_for v _) as [o|] eqn:Ho; [|done].
  destruct (vinv_token v _ o Hv Ho) as (ty & n & Heq & Hty & Hn).
  assert (zlen (LAQUO :: b ++ u) <= MAX_PLACEHOLDER_LEN) as Hl
    by (rewrite Heq; apply issued_length; [done|lia]).
  assert (forallb cls_AZ09_ b = true) as Hb.
  { rewrite format_placeholder_eq in Heq. injection Heq as Heq.
    destruct (exists_last Hu) as (u' & y & ->). rewrite app_assoc in Heq.
    apply app_inj_tail in Heq as [Heq _]. apply (forallb_app_l _ b u'). rewrite Heq, forallb_app.
    rewrite placeholder_type_cls by done. cbn. destruct (token_digits_spec n) as [H9 _]; [lia|].
    by apply (forallb_impl is_09); [apply is_09_cls|]. }
  unfold viable. apply andb_true_iff. split.
  - rewrite zlen_cons, zlen_app in Hl. rewrite zlen_cons. unfold zlen in *.
    destruct u; [done|]. cbn in Hl. lia.
  - eapply forallb_impl; [|done]. intros c. by rewrite is_match_body.
Qed.

Lemma stream_safe_ok t : vinv v -> stream_safe fuzzy v json_esc t = true -> safe fuzzy v json_esc t.
Proof.
  unfold stream_safe. intros Hv Hs. rewrite forallb_forall in Hs.
  assert (forall a w c, t = a ++ w ++ c -> is_match (pattern fuzzy) w = true ->
    restores fuzzy v w = true -> viable_prefix_start fuzzy a = None /\
    mem_char LAQUO (replacement fuzzy json_esc v w) = false /\
    (fuzzy = true -> held_back fuzzy w = true)) as Hall.
  { intros a w c Ht Hw Hr. pose proof (restored_at_in fuzzy v t a w c Ht Hw Hr) as Hin.
    apply list_elem_of_In, Hs in Hin. cbn in Hin. bool_simpl.
    destruct (viable_prefix_start fuzzy a); [done|]. split_and!; [done..|].
    intros Hf. by rewrite Hf in *. }
  split; intros a w c; [|intros; by edestruct Hall as (? & ? & ?)..].
  intros b u Ht Hw Hr -> Hb.
  assert (u <> []) as Hu.
  { intros ->. rewrite app_nil_r in Hw. pose proof (token_shape _ _ Hw) as (b' & [= ->] & _).
    apply no_guill_iff in Hb as [_ Hb]. by rewrite mem_char_app, orb_true_r in Hb. }
  destruct (Hall _ _ _ Ht Hw Hr) as (_ & _ & Hf). destruct fuzzy eqn:Ef.
  - by eapply held_back_viable; [apply Hf| |].
  - by eapply issued_viable.
Qed.

End Laws.

(** C11: the sweep invariant.  However a text is cut into chunks, a plain
    streaming channel emits, chunks and flush together, what one pass over the
    whole text emits, and counts the same restores -- for both grammars, and for a text
    whose restored tokens are [stream_safe]: none lies in an open guillemet that is being
    held back, none stands for a value that opens a guillemet, and those of the fuzzy
    grammar are written within the length held back.  ([fuzzy_padding_breaks_sweep] and
    [nested_guillemet_breaks_sweep] show that the code needs this.) *)
Theorem streaming_equals_whole {V} `{VaultLaws V} fuzzy (v : V) chunks counts : vinv v ->
  stream_safe fuzzy v false (concat chunks) = true ->
  stream v (new_channel false fuzzy) counts chunks
  = rehydrate_text fuzzy v counts (concat chunks).
Proof. intros Hv Hs. by apply stream_pieces, stream_safe_ok. Qed.

Definition demo_vault : InMemoryVault.t :=
  InMemoryVault.vault_of [(lit "EMAIL", lit "jo@x.org"); (lit "PHONE", lit "+1 555")].

Definition tok (s : string) : pystr := LAQUO :: lit s ++ [RAQUO].

Lemma streaming_equals_whole_witness :
  let chunks := [lit "to " ++ [LAQUO]; lit "ema"; lit "il-01"; [RAQUO] ++ lit " or " ++ tok "PHONE_001"] in
  let out := stream demo_vault (new_channel false true) ∅ chunks in
  out = rehydrate_text true demo_vault ∅ (concat chunks) /\ out.1 = lit "to jo@x.org or +1 555".
Proof.
  intros chunks out. split; [|vm_compute; reflexivity].
  apply (streaming_equals_whole true demo_vault chunks ∅); [|vm_compute; reflexivity].
  apply InMemoryVault.vault_of_inv. vm_compute. reflexivity.
Defined.

(** The bound on a token's length cannot be dropped in fuzzy mode: a token
    zero-padded past [MAX_PLACEHOLDER_LEN] characters is restored by the
    whole-text pass and released unrestored by a stream that splits it, so the
    invariant of [substitute_tokens]'s comment fails for it. *)
Theorem fuzzy_padding_breaks_sweep :
  let text := LAQUO :: lit "EMAIL_" ++ replicate 32 48 ++ lit "001" ++ [RAQUO] in
  let chunks := [take 41 text; drop 41 text] in
  concat chunks = text /\
  (stream demo_vault (new_channel false true) ∅ chunks).1 = text /\
  (rehydrate_text true demo_vault ∅ text).1 = lit "jo@x.org".
Proof. vm_compute. auto. Qed.

(** Nor can the condition on open guillemets be dropped in strict mode: a
    restored value that continues an open guillemet is scanned again when the
    next chunk arrives, and may be restored as a token the text never held. *)
Theorem nested_guillemet_breaks_sweep :
  let v := InMemoryVault.vault_of [(lit "EMAIL", lit "_00"); (lit "A", lit "secret")] in
  let chunks := [LAQUO :: lit "A" ++ tok "EMAIL_001"; lit "1" ++ [RAQUO]] in
  (stream v (new_channel false false) ∅ chunks).1 = lit "secret" /\
  (rehydrate_text false v ∅ (concat chunks)).1 = LAQUO :: lit "A_001" ++ [RAQUO].
Proof. vm_compute. auto. Qed.
