(* ===== verification/JsonSource.v ===== *)
(** * Guillemet escapes in raw JSON source

    The channels of src/llm_redact/rehydrate.py that carry JSON source text
    (tool-call arguments): what [normalize_guillemet_escapes] rewrites, that the
    held-back escape tail makes it independent of chunk boundaries, and the
    streaming result for such channels. *)

From S2P Require Import Prelude PyRegex Json Placeholders JsonWalk TokenSearch Vault Rehydrate Streaming.

(** The guillemet that the text after a backslash escapes, and what follows. *)
Definition escaped (t : pystr) : option (Z * pystr) :=
  match t with
  | u :: z1 :: z2 :: h1 :: h2 :: rest =>
      if (u =? 117) && (z1 =? 48) && (z2 =? 48) && cls_ab h1 && cls_b h2
      then Some (if cls_a h1 then LAQUO else RAQUO, rest) else None
  | _ => None
  end.

Lemma escaped_Some t g rest : escaped t = Some (g, rest) ->
  exists h1 h2, t = [117; 48; 48; h1; h2] ++ rest /\ cls_ab h1 = true /\ cls_b h2 = true /\
    g = if cls_a h1 then LAQUO else RAQUO.
Proof.
  unfold escaped. destruct t as [|u [|z1 [|z2 [|h1 [|h2 t]]]]]; try done.
  destruct (_ && _) eqn:E; [|done]. intros [= <- <-]. bool_simpl. subst. by exists h1, h2.
Qed.

Definition head_is (c : Z) (s : pystr) : bool := match s with x :: _ => x =? c | [] => false end.

Lemma rx_pairs n : forall pre w suf cs cs',
  rx_iter (rx (Cat (Lit 92) (Lit 92))) n pre w suf cs cs' <-> w = replicate (2 * n) 92 /\ cs' = cs.
Proof.
  induction n as [|n IH]; intros pre w suf cs cs'; split.
  - by inversion 1.
  - intros [-> ->]. constructor.
  - inversion 1 as [|? ? w1 w2 ? ? c1 ? Hne H1 H2]; subst. apply IH in H2 as [-> ->].
    rx_inv. subst. split; [|done]. by rewrite Nat.mul_succ_r, Nat.add_comm.
  - intros [-> ->]. rewrite Nat.mul_succ_r, Nat.add_comm, replicate_add. econstructor; [done| |by apply IH].
    apply (rx_cat _ _ _ [92] [92]) with (cs1 := cs); apply rx_lit.
Qed.

Lemma rx_hex pre w suf cs cs' :
  rx (Alt (Cat (Chr cls_a) (Chr cls_b)) (Cat (Chr cls_b) (Chr cls_b))) pre w suf cs cs' <->
  exists h1 h2, w = [h1; h2] /\ cls_ab h1 = true /\ cls_b h2 = true /\ cs' = cs.
Proof.
  split.
  - intros [H|H]; rx_inv; subst; do 2 eexists; (split; [done|]); split_and!; try done;
      unfold cls_ab, cls_a, cls_b in *; lia.
  - intros (h1 & h2 & -> & H1 & H2 & ->).
    assert (cls_a h1 = true \/ cls_b h1 = true) as [Ha|Hb] by (unfold cls_ab, cls_a, cls_b in *; lia);
      [left|right]; apply (rx_cat _ _ _ [h1] [h2]) with (cs1 := cs); by apply rx_chr.
Qed.

Lemma rx_escape pre w suf cs : rx GUILLEMET_ESCAPE pre w suf [] cs <->
  head_is 92 pre = false /\ exists k h1 h2, w = replicate (2 * k) 92 ++ [92; 117; 48; 48; h1; h2] /\
    cls_ab h1 = true /\ cls_b h2 = true /\
    cs = [("2"%string, [h1; h2]); ("1"%string, replicate (2 * k) 92)].
Proof.
  split.
  - intros (w1 & w2 & c1 & -> & (-> & -> & Hpre) & H). cbn [app].
    split; [destruct pre; [done|]; cbn in *; destruct (Z.eqb_spec z 92); subst; done|].
    destruct H as (w1 & w3 & c1 & -> & (c2 & (k & _ & _ & [-> ->]%rx_pairs) & ->) & H).
    rx_inv. match goal with H : rx (Alt _ _) _ _ _ _ _ |- _ => apply rx_hex in H as (h1 & h2 & -> & ? & ? & ->) end.
    subst. by exists k, h1, h2.
  - intros (Hpre & k & h1 & h2 & -> & H1 & H2 & ->).
    apply (rx_cat _ _ _ [] _ _ [] []).
    { split_and!; [done..|]. destruct pre; [done|]. cbn in *. by rewrite Z.eqb_sym. }
    apply (rx_cat _ _ _ _ _ _ [] [("1"%string, replicate (2 * k) 92)]).
    { eexists. split; [|done]. exists k. split_and!; [lia|done|by apply rx_pairs]. }
    apply (rx_cat _ _ _ [92] [117; 48; 48; h1; h2]) with (cs1 := [("1"%string, replicate (2 * k) 92)]);
      [apply rx_lit|].
    apply (rx_cat _ _ _ [117] [48; 48; h1; h2]) with (cs1 := [("1"%string, replicate (2 * k) 92)]);
      [apply rx_lit|].
    apply (rx_cat _ _ _ [48] [48; h1; h2]) with (cs1 := [("1"%string, replicate (2 * k) 92)]);
      [apply rx_lit|].
    apply (rx_cat _ _ _ [48] [h1; h2]) with (cs1 := [("1"%string, replicate (2 * k) 92)]);
      [apply rx_lit|].
    apply rx_grp, rx_hex. by exists h1, h2.
Qed.

(** ** The scan, one run of backslashes at a time *)

Definition norm_out (sg : seg) : pystr :=
  match sg with
  | SHit _ cs => group cs "1" ++
      (if decide (map ascii_lower (group cs "2") = lit "ab") then [LAQUO] else [RAQUO])
  | SChar c => [c]
  end.

(** The rewriting of [s] when [pre] (reversed) stands before it. *)
Definition norm_at (pre s : pystr) : pystr := flat_map norm_out (scan_go GUILLEMET_ESCAPE pre s 0).

Abbreviation norm := normalize_guillemet_escapes.

Lemma norm_at_nil s : norm_at [] s = norm s.
Proof. done. Qed.

Lemma norm_at_char pre c s : match_at GUILLEMET_ESCAPE pre (c :: s) = None ->
  norm_at pre (c :: s) = c :: norm_at (c :: pre) s.
Proof. intros Hm. unfold norm_at. cbn [scan_go]. by rewrite Hm. Qed.

Lemma norm_at_hit pre w cs s : w <> [] -> match_at GUILLEMET_ESCAPE pre (w ++ s) = Some (w, cs) ->
  norm_at pre (w ++ s) = norm_out (SHit w cs) ++ norm_at (rev w ++ pre) s.
Proof.
  intros Hw Hm. unfold norm_at. destruct w as [|c w]; [done|]. cbn [app scan_go] in *. rewrite Hm.
  rewrite (scan_go_skip _ (c :: pre) w s). cbn [flat_map rev norm_out].
  by rewrite <- (app_assoc (rev w)).
Qed.

Lemma run_unique n m t u : head_is 92 t = false -> head_is 92 u = false ->
  replicate n 92 ++ t = replicate m 92 ++ u -> n = m /\ t = u.
Proof.
  intros Ht Hu. revert m. induction n as [|n IH]; intros [|m] H; cbn in *.
  - done.
  - by subst.
  - by subst.
  - injection H as H. destruct (IH _ H). by subst.
Qed.

Lemma match_run pre n t w cs : head_is 92 t = false ->
  match_at GUILLEMET_ESCAPE pre (replicate n 92 ++ t) = Some (w, cs) ->
  head_is 92 pre = false /\ Nat.odd n = true /\ exists h1 h2 rest,
    t = [117; 48; 48; h1; h2] ++ rest /\ cls_ab h1 = true /\ cls_b h2 = true /\
    w = replicate n 92 ++ [117; 48; 48; h1; h2] /\
    cs = [("2"%string, [h1; h2]); ("1"%string, replicate (n - 1) 92)].
Proof.
  intros Ht H. apply match_at_sound in H as (s & Heq & H).
  apply rx_escape in H as (Hpre & k & h1 & h2 & -> & H1 & H2 & ->).
  assert (replicate n 92 ++ t = replicate (2 * k + 1) 92 ++ [117; 48; 48; h1; h2] ++ s) as Heq'.
  { rewrite Heq, replicate_add, <- !app_assoc. done. }
  apply run_unique in Heq' as [-> ->]; [|done..]. split; [done|]. split.
  { by rewrite Nat.odd_add, Nat.odd_mul. }
  exists h1, h2, s. rewrite Nat.add_sub, replicate_add, <- app_assoc. done.
Qed.

(** What the scan does with a maximal run of backslashes. *)
Definition norm_run (n : nat) (t : pystr) (k : pystr -> pystr) : pystr :=
  match (if Nat.odd n then escaped t else None) with
  | Some (g, rest) => replicate (n - 1) 92 ++ g :: k rest
  | None => replicate n 92 ++ match t with [] => [] | c :: t' => c :: k t' end
  end.

Lemma norm_at_pass pre n t : head_is 92 t = false ->
  (head_is 92 pre = true \/ (if Nat.odd n then escaped t else None) = None) ->
  exists pre', norm_at pre (replicate n 92 ++ t) = replicate n 92 ++ norm_at pre' t.
Proof.
  intros Ht. revert pre. induction n as [|n IH]; intros pre Hor; [by exists pre|].
  destruct (match_at GUILLEMET_ESCAPE pre (replicate (S n) 92 ++ t)) as [[w cs]|] eqn:E.
  - apply match_run in E as (Hpre & Hodd & h1 & h2 & rest & -> & H1 & H2 & _); [|done].
    rewrite Hpre in Hor. destruct Hor as [|Hor]; [done|]. rewrite Hodd in Hor. cbn in Hor.
    by rewrite H1, H2 in Hor.
  - cbn [replicate app] in *. rewrite norm_at_char by done.
    destruct (IH (92 :: pre)) as [pre' ->]; [by left|]. by exists pre'.
Qed.

Lemma norm_at_first pre c t : c <> 92 -> norm_at pre (c :: t) = c :: norm_at (c :: pre) t.
Proof.
  intros Hc. apply norm_at_char.
  destruct (match_at GUILLEMET_ESCAPE pre (c :: t)) as [[w cs]|] eqn:E; [|done].
  apply (match_run pre 0) in E as (_ & [=] & _). cbn. by destruct (Z.eqb_spec c 92).
Qed.

Lemma split_run s : exists n t, s = replicate n 92 ++ t /\ head_is 92 t = false.
Proof.
  induction s as [|c s (n & t & -> & Ht)]; [by exists 0%nat, []|].
  destruct (decide (c = 92)) as [->|Hc]; [by exists (S n), t|].
  exists 0%nat, (c :: replicate n 92 ++ t). cbn. by destruct (Z.eqb_spec c 92).
Qed.

Lemma lower_ab h1 h2 : cls_ab h1 = true -> cls_b h2 = true ->
  bool_decide (map ascii_lower [h1; h2] = lit "ab") = cls_a h1.
Proof.
  intros H1 H2. unfold cls_ab in H1. unfold cls_b in H2.
  assert (h1 = 97 \/ h1 = 65 \/ h1 = 98 \/ h1 = 66) as Hh1 by lia.
  assert (h2 = 98 \/ h2 = 66) as Hh2 by lia.
  by repeat destruct Hh1 as [->|Hh1]; subst; destruct Hh2 as [->| ->].
Qed.

Lemma odd_pred n : Nat.odd n = true -> (n - 1 = 2 * (n / 2))%nat /\ (n = n - 1 + 1)%nat.
Proof. intros [k ->]%Nat.odd_spec. rewrite (Nat.add_comm _ 1), Nat.mul_comm, Nat.div_add by lia. cbn. lia. Qed.

Lemma norm_at_run m : forall s pre, (length s < m)%nat -> head_is 92 pre = false ->
  forall n t, s = replicate n 92 ++ t -> head_is 92 t = false ->
  norm_at pre s = norm_run n t norm.
Proof.
  induction m as [|m IH]; intros s pre Hm Hpre n t Hs Ht; [lia|].
  assert (Hirr : forall s pre, (length s < m)%nat -> head_is 92 pre = false -> norm_at pre s = norm s).
  { intros s0 p Hs0 Hp. destruct (split_run s0) as (k & u & Hsu & Hu).
    rewrite <- norm_at_nil. by rewrite (IH s0 p Hs0 Hp k u Hsu Hu), (IH s0 [] Hs0 eq_refl k u Hsu Hu). }
  subst s. unfold norm_run. rewrite length_app, length_replicate in Hm.
  destruct (if Nat.odd n then escaped t else None) as [[g rest]|] eqn:E.
  - destruct (Nat.odd n) eqn:Hodd; [|done]. apply odd_pred in Hodd as [Hn1 Hn2].
    apply escaped_Some in E as (h1 & h2 & -> & H1 & H2 & ->).
    set (w := replicate n 92 ++ [117; 48; 48; h1; h2]).
    assert (replicate n 92 ++ [117; 48; 48; h1; h2] ++ rest = w ++ rest) as Heq
      by (unfold w; by rewrite <- app_assoc).
    rewrite Heq.
    assert (is_Some (match_at GUILLEMET_ESCAPE pre (w ++ rest))) as [[w' cs] Hma].
    { apply (match_at_complete _ _ _ _ [("2"%string, [h1; h2]); ("1"%string, replicate (n - 1) 92)]).
      apply rx_escape. split; [done|]. exists (n / 2)%nat, h1, h2. rewrite <- Hn1. split_and!; try done.
      unfold w. rewrite Hn2 at 1. by rewrite replicate_add, <- app_assoc. }
    pose proof Hma as Hma'. rewrite <- Heq in Hma'.
    apply match_run in Hma' as (_ & _ & h1' & h2' & rest' & Ht' & _ & _ & -> & ->); [|done].
    injection Ht' as <- <- <-. assert (w <> []) as Hw by (unfold w; clear; by destruct n).
    rewrite (norm_at_hit _ _ _ _ Hw Hma).
    rewrite Hirr.
    + unfold norm_out. cbn [group String.eqb]. change (group _ "2") with [h1; h2].
      change (group _ "1") with (replicate (n - 1) 92). rewrite <- app_assoc. f_equal.
      pose proof (lower_ab h1 h2 H1 H2) as Hl. destruct (decide _) as [Hd|Hd].
      * rewrite bool_decide_true in Hl by done. by rewrite <- Hl.
      * rewrite bool_decide_false in Hl by done. by rewrite <- Hl.
    + rewrite length_app in Hm. cbn in Hm. lia.
    + unfold w. rewrite rev_app_distr. cbn. clear -H2. unfold cls_b in H2. lia.
  - destruct (norm_at_pass pre n t Ht (or_intror E)) as [pre' ->]. f_equal.
    destruct t as [|c t]; [done|]. cbn in Ht, Hm. bool_simpl. rewrite norm_at_first by done. f_equal.
    apply Hirr; [lia|]. cbn. by destruct (Z.eqb_spec c 92).
Qed.

Lemma norm_eq n t : head_is 92 t = false -> norm (replicate n 92 ++ t) = norm_run n t norm.
Proof. intros Ht. rewrite <- norm_at_nil. by apply (norm_at_run _ _ [] (Nat.lt_succ_diag_r _)). Qed.

(** ** The equations of the rewriting: how a JSON parser reads a string *)
Lemma norm_char c s : c <> 92 -> norm (c :: s) = c :: norm s.
Proof. intros Hc. apply (norm_eq 0 (c :: s)). cbn. by destruct (Z.eqb_spec c 92). Qed.

Lemma norm_pair s : norm (92 :: 92 :: s) = 92 :: 92 :: norm s.
Proof.
  destruct (split_run s) as (n & t & -> & Ht).
  rewrite (norm_eq n t Ht). change (92 :: 92 :: replicate n 92 ++ t) with (replicate (S (S n)) 92 ++ t).
  rewrite (norm_eq (S (S n)) t Ht). unfold norm_run. rewrite Nat.odd_succ_succ.
  destruct (Nat.odd n) eqn:Ho; [|done]. destruct (escaped t) as [[g rest]|]; [|done].
  apply odd_pred in Ho as [_ Ho]. replace (S (S n) - 1)%nat with (S (S (n - 1))) by lia. done.
Qed.

Lemma norm_escape t g rest : escaped t = Some (g, rest) -> norm (92 :: t) = g :: norm rest.
Proof.
  intros He. pose proof He as (h1 & h2 & -> & _ & _ & _)%escaped_Some.
  change (92 :: ([117; 48; 48; h1; h2] ++ rest)) with (replicate 1 92 ++ [117; 48; 48; h1; h2] ++ rest). rewrite norm_eq by done. unfold norm_run.
  change (Nat.odd 1) with true. by rewrite He.
Qed.

Lemma norm_other t : head_is 92 t = false -> escaped t = None -> norm (92 :: t) = 92 :: norm t.
Proof.
  intros Ht He. pose proof (norm_eq 1 t Ht) as H1. pose proof (norm_eq 0 t Ht) as H0.
  unfold norm_run in *. change (Nat.odd 1) with true in H1. rewrite He in H1. cbn in H0, H1.
  by rewrite H1, H0.
Qed.

(** ** The escape tail *)

Lemma escape_prefix_char c s : c <> 92 -> escape_prefix_start (c :: s) = S <$> escape_prefix_start s.
Proof.
  intros Hc. unfold escape_prefix_start. cbn [rfind_char].
  destruct (rfind_char 92 s) as [i|]; [|by destruct (Z.eqb_spec c 92)].
  cbn [drop take rev]. destruct (negb _); [done|].
  assert (run_of 92 (rev (take i s) ++ [c]) = run_of 92 (rev (take i s))) as ->.
  { induction (rev (take i s)) as [|x l IH]; cbn; [by destruct (Z.eqb_spec c 92)|].
    by rewrite IH. }
  by destruct (Nat.odd _).
Qed.

Lemma run_of_snoc2 l : Nat.odd (run_of 92 (l ++ [92; 92])) = Nat.odd (run_of 92 l).
Proof. induction l as [|x l IH]; cbn; [done|]. destruct (x =? 92); [|done]. by rewrite !Nat.odd_succ, <- !Nat.negb_odd, IH. Qed.

Lemma escape_prefix_pair s : escape_prefix_start (92 :: 92 :: s) = S <$> (S <$> escape_prefix_start s).
Proof.
  unfold escape_prefix_start. cbn [rfind_char].
  destruct (rfind_char 92 s) as [i|].
  - cbn [drop take rev]. destruct (negb _); [done|]. rewrite <- app_assoc. cbn [app].
    rewrite run_of_snoc2. by destruct (Nat.odd _).
  - change (92 =? 92) with true. cbn [drop take rev app]. by destruct (negb _).
Qed.

Lemma escape_prefix_one s : head_is 92 s = false -> escape_prefix_start (92 :: s) =
  if mem_char 92 s then S <$> escape_prefix_start s
  else if escape_body_is_guillemet_prefix s then Some 0%nat else None.
Proof.
  intros Hs. unfold escape_prefix_start. cbn [rfind_char].
  destruct (rfind_char 92 s) as [i|] eqn:E.
  - assert (mem_char 92 s = true) as -> by (apply not_false_iff_true; intros H%rfind_char_None; congruence).
    cbn [drop take rev]. destruct (negb _); [done|].
    assert (run_of 92 (rev (take i s) ++ [92]) = run_of 92 (rev (take i s))) as ->; [|by destruct (Nat.odd _)].
    apply rfind_char_Some in E as (a & b & -> & <- & _). rewrite take_app_length.
    destruct a as [|x a]; [done|]. cbn in Hs |- *. clear -Hs. induction (rev a) as [|y l IH]; cbn.
    + by rewrite Hs.
    + destruct (y =? 92); [|done]. by rewrite IH.
  - apply rfind_char_None in E. rewrite E. change (92 =? 92) with true. cbn [drop take rev run_of].
    rewrite drop_0. by destruct (escape_body_is_guillemet_prefix s).
Qed.

Lemma escaped_app t x g rest : escaped t = Some (g, rest) -> escaped (t ++ x) = Some (g, rest ++ x).
Proof.
  intros (h1 & h2 & -> & H1 & H2 & ->)%escaped_Some. cbn. by rewrite H1, H2.
Qed.

(** Text that is no proper prefix of an escape body does not grow into one. *)
Lemma escaped_grows t x : escaped t = None ->
  mem_char 92 t = true \/ escape_body_is_guillemet_prefix t = false -> escaped (t ++ x) = None.
Proof.
  intros He Hor. destruct (escaped (t ++ x)) as [[g rest]|] eqn:E; [|done].
  apply escaped_Some in E as (h1 & h2 & Ht & H1 & H2 & _). exfalso.
  assert (Hb : forall c, cls_ab c = true -> c <> 92) by (unfold cls_ab; lia).
  assert (Hbb : cls_b h2 = true -> h2 <> 92) by (unfold cls_b; lia).
  assert (Hlow : forall c, cls_ab c = true -> ((ascii_lower c =? 97) || (ascii_lower c =? 98)) = true).
  { intros c Hc. unfold cls_ab in Hc. assert (c = 97 \/ c = 65 \/ c = 98 \/ c = 66) as Hd by lia.
    by repeat destruct Hd as [->|Hd]; [..|subst]. }
  specialize (Hb h1 H1). specialize (Hbb H2). pose proof (Hlow h1 H1) as Hl1.
  destruct t as [|u [|z1 [|z2 [|a1 [|a2 t]]]]]; cbn in Ht; simplify_eq;
    try (destruct Hor as [Hor|Hor];
         [rewrite ?mem_char_cons in Hor; bool_simpl; clear -Hor Hb; unfold mem_char in Hor; cbn in Hor; lia
         |cbn in Hor; unfold escape_body_is_guillemet_prefix in Hor; cbn in Hor;
          rewrite ?Hl1 in Hor; done]).
  cbn in He. by rewrite H1, H2 in He.
Qed.

Lemma escape_prefix_escaped t g rest : escaped t = Some (g, rest) ->
  escape_prefix_start (92 :: t) = Nat.add 6 <$> escape_prefix_start rest.
Proof.
  intros (h1 & h2 & -> & H1 & H2 & _)%escaped_Some.
  assert (h1 <> 92 /\ h2 <> 92) as [Hn1 Hn2] by (unfold cls_ab in H1; unfold cls_b in H2; lia).
  rewrite escape_prefix_one by done. cbn [app]. rewrite !mem_char_cons.
  replace (92 =? h1) with false by lia. replace (92 =? h2) with false by lia.
  change (92 =? 117) with false. change (92 =? 48) with false. cbn [orb].
  rewrite !escape_prefix_char by done. destruct (mem_char 92 rest) eqn:Hm.
  - by destruct (escape_prefix_start rest).
  - assert (escape_prefix_start rest = None) as -> by
      (unfold escape_prefix_start; by apply rfind_char_None in Hm as ->). done.
Qed.

(** [feed] decodes exactly up to the escape tail. *)
Lemma norm_split D x :
  match escape_prefix_start D with
  | None => norm (D ++ x) = norm D ++ norm x
  | Some k => norm (D ++ x) = norm (take k D) ++ norm (drop k D ++ x)
  end.
Proof.
  remember (length D) as n eqn:Hn. revert D Hn. induction (lt_wf n) as [n _ IH].
  intros D ->. destruct D as [|c D]; [done|].
  assert (IH' : forall s, (length s < length (c :: D))%nat -> match escape_prefix_start s with
    | None => norm (s ++ x) = norm s ++ norm x
    | Some k => norm (s ++ x) = norm (take k s) ++ norm (drop k s ++ x) end)
    by (intros s Hs; by apply (IH (length s))). clear IH.
  destruct (decide (c = 92)) as [->|Hc].
  2: { rewrite escape_prefix_char by done. specialize (IH' D ltac:(cbn; lia)). cbn [app].
       destruct (escape_prefix_start D) as [k|]; cbn [fmap option_fmap option_map take drop];
         rewrite !norm_char, IH' by done; done. }
  destruct (head_is 92 D) eqn:Hh.
  { destruct D as [|d D]; [done|]. cbn in Hh. bool_simpl. subst d.
    rewrite escape_prefix_pair. specialize (IH' D ltac:(cbn; lia)). cbn [app].
    destruct (escape_prefix_start D) as [k|]; cbn [fmap option_fmap option_map take drop];
      rewrite !norm_pair, IH'; done. }
  destruct (escaped D) as [[g rest]|] eqn:He.
  - pose proof (escaped_app _ x _ _ He) as Hex. pose proof (escape_prefix_escaped _ _ _ He) as ->.
    apply escaped_Some in He as He'. destruct He' as (h1 & h2 & -> & _).
    specialize (IH' rest ltac:(cbn; lia)). cbn [app] in *. rewrite !(norm_escape _ g _ Hex).
    destruct (escape_prefix_start rest) as [k|]; cbn [fmap option_fmap option_map].
    + change (take (6 + k) (92 :: 117 :: 48 :: 48 :: h1 :: h2 :: rest))
        with (92 :: 117 :: 48 :: 48 :: h1 :: h2 :: take k rest).
      assert (escaped (117 :: 48 :: 48 :: h1 :: h2 :: take k rest) = Some (g, take k rest)) as Hk.
      { revert He. cbn. destruct (_ && _); [|done]. by intros [= ->]. }
      rewrite (norm_escape _ _ _ Hk). cbn. by rewrite IH'.
    + by rewrite (norm_escape _ _ _ He), IH'.
  - rewrite escape_prefix_one by done. specialize (IH' D ltac:(cbn; lia)).
    destruct (mem_char 92 D) eqn:Hm; [|destruct (escape_body_is_guillemet_prefix D) eqn:Hb; [done|]].
    + assert (head_is 92 (D ++ x) = false) as Hhx by (by destruct D).
      cbn [app]. rewrite (norm_other (D ++ x)) by auto using escaped_grows.
      destruct (escape_prefix_start D) as [k|]; cbn [fmap option_fmap option_map take drop];
        rewrite IH', norm_other; try done.
      * by destruct D, k.
      * destruct (escaped (take k D)) as [[g rest]|] eqn:E; [|done].
        apply (escaped_app _ (drop k D)) in E. rewrite take_drop in E. congruence.
    + assert (escape_prefix_start D = None) as Hn.
      { unfold escape_prefix_start. by apply rfind_char_None in Hm as ->. }
      rewrite Hn in IH'. assert (head_is 92 (D ++ x) = false) as Hhx by (by destruct D).
      cbn [app]. rewrite (norm_other (D ++ x)) by auto using escaped_grows.
      by rewrite (norm_other D), IH'.
Qed.

(** ** JSON-source channels *)

(** The decoded data and the new tail of one [feed]. *)
Definition decode_step (data : pystr) : pystr * pystr :=
  match escape_prefix_start data with
  | Some cut => (norm (take cut data), drop cut data)
  | None => (norm data, [])
  end.

Lemma decode_step_norm data y :
  norm (data ++ y) = (decode_step data).1 ++ norm ((decode_step data).2 ++ y).
Proof. unfold decode_step. pose proof (norm_split data y). by destruct (escape_prefix_start data). Qed.

Section Source.
Context {V : Type} `{VaultOps V} (fuzzy : bool) (v : V).

Abbreviation held := (held fuzzy v).
Abbreviation safe := (safe fuzzy v true).

Lemma feed_all_source chunks : forall D tail counts,
  safe (D ++ norm (tail ++ concat chunks)) ->
  exists q outs D' tail', norm (tail ++ concat chunks) = D' ++ norm tail' /\
    (held (D ++ D')).1 = (held D).1 ++ q /\
    feed_all v (mk_channel true fuzzy (held D).2 tail) counts chunks
    = (outs, mk_channel true fuzzy (held (D ++ D')).2 tail', fold_left (tally fuzzy v) q counts) /\
    concat outs = render fuzzy v true q.
Proof.
  induction chunks as [|x xs IH]; intros D tail counts Hs; cbn [concat feed_all] in *.
  { exists [], [], [], tail. by rewrite !app_nil_r. }
  rewrite app_assoc in Hs |- *. rewrite decode_step_norm in Hs |- *.
  unfold feed, ch_match. cbn [json_source ch_fuzzy escape_tail buffer].
  change (match escape_prefix_start (tail ++ x) with
          | Some cut => (norm (take cut (tail ++ x)), drop cut (tail ++ x))
          | None => (norm (tail ++ x), []) end) with (decode_step (tail ++ x)).
  destruct (decode_step (tail ++ x)) as [d tail1]. cbn [fst snd] in *.
  rewrite app_assoc in Hs.
  destruct (feed_emit fuzzy v true D d tail1 counts (safe_prefix _ _ _ _ _ Hs)) as (q & Hq & ->).
  destruct (IH (D ++ d) tail1 (fold_left (tally fuzzy v) q counts) Hs)
    as (q' & outs & D' & tail' & -> & Hq' & -> & Ho).
  exists (q ++ q'), (render fuzzy v true q :: outs), (d ++ D'), tail'.
  rewrite !app_assoc, Hq', Hq, <- app_assoc, fold_left_app. cbn. by rewrite render_app, Ho.
Qed.

Lemma stream_source chunks counts : safe (norm (concat chunks)) ->
  stream v (new_channel true fuzzy) counts chunks
  = rehydrate_json_source_text fuzzy v counts (concat chunks).
Proof.
  intros Hs. destruct (feed_all_source chunks [] [] counts Hs)
    as (q & outs & D & tail & Hn & Hq & Hf & Ho).
  rewrite held_nil in *. unfold stream, new_channel. cbn [fst snd app] in *. rewrite Hf.
  unfold rehydrate_json_source_text. rewrite Hn, substitute_pieces, (held_pieces fuzzy v true) by congruence.
  unfold flush, ch_match. cbn [json_source ch_fuzzy escape_tail buffer].
  assert (forall b, match tail with [] => b | z :: l => b ++ norm (z :: l) end = b ++ norm tail) as Ht
    by (intros b; destruct tail; [by rewrite app_nil_r|done]).
  rewrite Ht.
  by rewrite substitute_pieces, Ho, Hq, render_app, fold_left_app.
Qed.
End Source.

(** C19: a channel that carries raw JSON source restores, however the source is
    cut -- also in the middle of an escape -- exactly what the one-shot
    [rehydrate_json_source_text] restores: escapes normalized, originals
    re-escaped, same counts; for a source whose normalized text is [stream_safe], as for
    plain channels (a restored value is ASCII there, so none opens a guillemet). *)
Theorem json_source_streaming {V} `{VaultLaws V} fuzzy (v : V) chunks counts : vinv v ->
  stream_safe fuzzy v true (norm (concat chunks)) = true ->
  stream v (new_channel true fuzzy) counts chunks
  = rehydrate_json_source_text fuzzy v counts (concat chunks).
Proof. intros Hv Hs. by apply stream_source, stream_safe_ok. Qed.

Lemma json_source_streaming_witness :
  let v := InMemoryVault.vault_of [(lit "EMAIL", LAQUO :: lit "\")] in
  let chunks := [lit "\\\"; lit "u00"; lit "abEMAIL_0"; lit "01\u00B"; lit "b!\u0"] in
  let out := stream v (new_channel true false) ∅ chunks in
  out = rehydrate_json_source_text false v ∅ (concat chunks) /\
  out.1 = lit "\\\u00ab\\!\u0".
Proof.
  intros v chunks out. split; [|vm_compute; reflexivity].
  apply (json_source_streaming false v chunks ∅); [|vm_compute; reflexivity].
  apply InMemoryVault.vault_of_inv. vm_compute. reflexivity.
Defined.

(** [normalize_guillemet_escapes] is one left-to-right pass of a JSON string
    reader: an escaped backslash passes as a pair, the escape of a guillemet
    (either hex case) becomes the guillemet, everything else passes -- although
    the source states it as a search with lookbehind. *)
Theorem normalize_is_json_reader s : norm s =
  match s with
  | [] => []
  | c :: t =>
      if c =? 92 then
        match t with
        | d :: u => if d =? 92 then 92 :: 92 :: norm u
                    else match escaped t with
                         | Some (g, rest) => g :: norm rest
                         | None => 92 :: norm t
                         end
        | [] => [92]
        end
      else c :: norm t
  end.
Proof.
  destruct s as [|c t]; [done|]. destruct (Z.eqb_spec c 92) as [->|Hc]; [|by apply norm_char].
  destruct t as [|d u]; [done|]. destruct (Z.eqb_spec d 92) as [->|Hd]; [apply norm_pair|].
  assert (head_is 92 (d :: u) = false) as Hh by (cbn; by destruct (Z.eqb_spec d 92)).
  destruct (escaped (d :: u)) as [[g rest]|] eqn:E; [by apply norm_escape|by apply norm_other].
Qed.
