(* ===== verification/Detection.v ===== *)
(** * Detections -- src/llm_redact/detection/base.py

    A value found in a text, the order the detector plan lists detections in, and
    what a well-formed detection of a text is. *)

From S2P Require Import Prelude Placeholders.

Definition ADDITIVE_TIER : Z := 2.

(** [Detection]; [members] is left out of the source's equality, which nothing in
    the model compares. *)
Inductive detection : Type := mk_detection {
  start : Z;
  stop : Z;
  detector_type : pystr;
  value : pystr;
  priority : Z;
  tier : Z;
  joins : bool;
  members : list detection
}.

(** [str.isspace] of one character, which [str.strip] removes at the edges. *)
Definition is_space (c : Z) : bool :=
  between 9 13 c || between 28 32 c || (c =? 133) || (c =? 160) || (c =? 5760)
  || between 8192 8202 c || (c =? 8232) || (c =? 8233) || (c =? 8239) || (c =? 8287) || (c =? 12288).

Fixpoint lstrip (s : pystr) : pystr :=
  match s with c :: s' => if is_space c then lstrip s' else s | [] => [] end.

Definition rstrip (s : pystr) : pystr := rev (lstrip (rev s)).
Definition strip (s : pystr) : pystr := rstrip (lstrip s).

(** [text[a:b]] for offsets of a detection. *)
Definition span_text (text : pystr) (a b : Z) : pystr := pyslice text a b.

(** The sort keys of the source. *)
Definition dlen (d : detection) : Z := stop d - start d.

Definition start_le (a b : detection) : bool := start a <=? start b.

(** [(d.start, -(d.end - d.start), d.priority)] *)
Definition sweep_le (a b : detection) : bool :=
  (start a <? start b) ||
  ((start a =? start b) &&
   ((dlen b <? dlen a) || ((dlen a =? dlen b) && (priority a <=? priority b)))).

(** ** Well-formed detections of a text *)
Record valid (text : pystr) (d : detection) : Prop := {
  valid_span : 0 <= start d < stop d /\ stop d <= zlen text;
  valid_value : value d = span_text text (start d) (stop d);
  valid_type : is_placeholder_type (detector_type d) = true
}.

(** The characters of a text a detection covers. *)
Definition covers (d : detection) (i : Z) : Prop := start d <= i < stop d.
Definition covered (ds : list detection) (i : Z) : Prop := exists d, d ∈ ds /\ covers d i.

Definition overlap (a b : detection) : Prop := start a < stop b /\ start b < stop a.

(** Disjoint and sorted by start. *)
Definition before (a b : detection) : Prop := stop a <= start b.
Definition disjoint_sorted (ds : list detection) : Prop :=
  StronglySorted before ds /\ Forall (fun d => start d < stop d) ds.

(** ** Facts about disjoint spans *)

Definition nonempty (d : detection) : Prop := start d < stop d.
Definition apart (a b : detection) : Prop := before a b \/ before b a.

Lemma apart_sym a b : apart a b -> apart b a.
Proof. unfold apart. tauto. Qed.

Lemma apart_overlap a b : apart a b <-> ~ overlap a b.
Proof. unfold apart, before, overlap. lia. Qed.

#[export] Instance overlap_dec a b : Decision (overlap a b).
Proof. unfold overlap. apply _. Defined.

Lemma start_le_total x y : start_le x y = false -> start_le y x = true.
Proof. unfold start_le. lia. Qed.
Lemma start_le_trans x y z : start_le x y = true -> start_le y z = true -> start_le x z = true.
Proof. unfold start_le. lia. Qed.
Lemma sweep_le_total x y : sweep_le x y = false -> sweep_le y x = true.
Proof. unfold sweep_le. lia. Qed.
Lemma sweep_le_trans x y z : sweep_le x y = true -> sweep_le y z = true -> sweep_le x z = true.
Proof. unfold sweep_le. lia. Qed.
Lemma sweep_start_le x y : sweep_le x y = true -> start_le x y = true.
Proof. unfold sweep_le, start_le. lia. Qed.

#[export] Hint Resolve start_le_total start_le_trans sweep_le_total sweep_le_trans apart_sym : redact.

Lemma sorted_sweep_start l : sorted_by sweep_le l -> sorted_by start_le l.
Proof. apply StronglySorted_weaken, sweep_start_le. Qed.

Lemma sort_start_sorted l : sorted_by start_le (sort_by start_le l).
Proof. apply sort_by_sorted; eauto with redact. Qed.

Lemma disjoint_apart l : disjoint_sorted l -> StronglySorted apart l.
Proof. intros [H _]. eapply StronglySorted_weaken; [|done]. unfold apart. auto. Qed.

(** Pairwise disjoint non-empty spans in start order are [disjoint_sorted]. *)
Lemma apart_sorted l : Forall nonempty l -> StronglySorted apart l -> sorted_by start_le l ->
  disjoint_sorted l.
Proof.
  intros Hne Ha Hs. split; [|done]. induction Hs as [|x l Hs IH Hx]; [constructor|].
  inversion Ha as [|?? Ha1 Ha2]; subst. inversion Hne as [|?? Hn1 Hn2]; subst.
  constructor; [by apply IH|]. rewrite list.Forall_forall in *. intros y Hy.
  specialize (Ha2 y Hy). specialize (Hx y Hy). specialize (Hn2 y Hy).
  unfold apart, before, start_le, nonempty in *. lia.
Qed.

Lemma disjoint_start_sorted l : disjoint_sorted l -> sorted_by start_le l.
Proof.
  intros [H Hne]. induction H as [|x l Hl IH Hx]; [constructor|].
  inversion Hne as [|?? Hn1 Hn2]; subst. constructor; [by apply IH|].
  rewrite list.Forall_forall in *. intros y Hy. specialize (Hx y Hy).
  unfold before, start_le in *. lia.
Qed.

(** Two groups of disjoint spans, none of one overlapping one of the other,
    merge into disjoint spans. *)
Lemma merge_disjoint a b : disjoint_sorted a -> disjoint_sorted b ->
  (forall x y, x ∈ a -> y ∈ b -> apart x y) -> disjoint_sorted (sort_by start_le (a ++ b)).
Proof.
  intros Ha Hb Hab. apply apart_sorted.
  - rewrite sort_by_perm. apply Forall_app. split; [apply Ha|apply Hb].
  - eapply StronglySorted_perm; [apply apart_sym|symmetry; apply sort_by_perm|].
    apply StronglySorted_app. auto using disjoint_apart.
  - apply sort_start_sorted.
Qed.

Lemma disjoint_nth l i j x y : disjoint_sorted l -> l !! i = Some x -> l !! j = Some y ->
  (i < j)%nat -> before x y.
Proof.
  intros [Hs _]. by apply StronglySorted_nth.
Qed.

Lemma disjoint_nonempty l x : disjoint_sorted l -> x ∈ l -> nonempty x.
Proof. intros [_ Hne] Hx. rewrite list.Forall_forall in Hne. by apply Hne. Qed.

Lemma nth_map_lookup (f : detection -> Z) l i x : l !! i = Some x -> nth i (map f l) 0 = f x.
Proof.
  intros H. apply nth_error_nth. revert i H. induction l as [|y l IH]; intros [|i] H; cbn in *; try done.
  - by simplify_eq.
  - by apply IH.
Qed.

Lemma disjoint_ends_sorted (f : detection -> Z) l : disjoint_sorted l ->
  (forall x y, nonempty x -> nonempty y -> before x y -> f x <= f y) -> sorted_le (map f l).
Proof.
  intros Hd Hf i j Hij. rewrite length_map in Hij.
  destruct (lookup_lt_is_Some_2 l i) as [x Hx]; [lia|].
  destruct (lookup_lt_is_Some_2 l j) as [y Hy]; [lia|].
  rewrite (nth_map_lookup _ _ _ _ Hx), (nth_map_lookup _ _ _ _ Hy).
  destruct (decide (i = j)) as [->|]; [simplify_eq; lia|].
  apply Hf; [by eapply disjoint_nonempty, list_elem_of_lookup_2..|].
  eapply (disjoint_nth l i j); [done..|lia].
Qed.

(** The binary searches over the ends and starts of disjoint spans. *)
Lemma bisect_ends l x lo : disjoint_sorted l -> (lo <= length l)%nat ->
  let i := bisect_right (map stop l) x lo in
  (lo <= i <= length l)%nat /\
  (forall j w, (lo <= j < i)%nat -> l !! j = Some w -> stop w <= x) /\
  (forall j w, (i <= j)%nat -> l !! j = Some w -> x < stop w).
Proof.
  intros Hd Hlo i. assert (sorted_le (map stop l)) as Hs.
  { apply disjoint_ends_sorted; [done|]. unfold nonempty, before. lia. }
  destruct (bisect_right_spec (map stop l) x lo Hs) as (H1 & H2 & H3); [by rewrite length_map|].
  rewrite length_map in *. fold i in H1, H2, H3. split_and!; [lia..| |].
  - intros j w Hj Hw. rewrite <- (nth_map_lookup stop _ _ _ Hw). by apply H2.
  - intros j w Hj Hw. rewrite <- (nth_map_lookup stop _ _ _ Hw). apply H3.
    apply lookup_lt_Some in Hw. lia.
Qed.

Lemma bisect_starts l x : disjoint_sorted l ->
  let i := bisect_left (map start l) x in
  (i <= length l)%nat /\
  (forall j w, (j < i)%nat -> l !! j = Some w -> start w < x) /\
  (forall j w, (i <= j)%nat -> l !! j = Some w -> x <= start w).
Proof.
  intros Hd i. assert (sorted_le (map start l)) as Hs.
  { apply disjoint_ends_sorted; [done|]. unfold nonempty, before. lia. }
  destruct (bisect_left_spec (map start l) x Hs) as (H1 & H2 & H3).
  rewrite length_map in *. fold i in H1, H2, H3. split_and!; [lia..| |].
  - intros j w Hj Hw. rewrite <- (nth_map_lookup start _ _ _ Hw). by apply H2.
  - intros j w Hj Hw. rewrite <- (nth_map_lookup start _ _ _ Hw). apply H3.
    apply lookup_lt_Some in Hw. lia.
Qed.

(** The first span ending after a span's start decides whether any overlaps it. *)
Lemma first_overlap l d lo : disjoint_sorted l -> nonempty d -> (lo <= length l)%nat ->
  (forall j w, (j < lo)%nat -> l !! j = Some w -> stop w <= start d) ->
  match l !! bisect_right (map stop l) (start d) lo with
  | None => forall w, w ∈ l -> apart w d
  | Some w => if start w <? stop d then w ∈ l /\ overlap w d else forall w, w ∈ l -> apart w d
  end.
Proof.
  intros Hd Hne Hlo Hpre. destruct (bisect_ends l (start d) lo Hd Hlo) as (H1 & H2 & H3).
  set (i := bisect_right (map stop l) (start d) lo) in *.
  assert (Hbelow : forall j w, (j < i)%nat -> l !! j = Some w -> apart w d).
  { intros j w Hj Hw. left. unfold before. destruct (decide (lo <= j)%nat).
    - by apply (H2 j).
    - apply (Hpre j); [lia|done]. }
  destruct (l !! i) as [w|] eqn:Ei.
  - destruct (Z.ltb_spec (start w) (stop d)) as [Hlt|Hge].
    + split; [by eapply list_elem_of_lookup_2|]. split; [done|]. by apply (H3 i).
    + intros w' [j Hj]%list_elem_of_lookup_1. destruct (decide (j < i)%nat); [by eapply Hbelow|].
      right. unfold before. destruct (decide (j = i)) as [->|]; [by simplify_eq|].
      pose proof (disjoint_nth l i j w w' Hd Ei Hj ltac:(lia)) as Hb.
      assert (w ∈ l) as Hw by (by eapply list_elem_of_lookup_2).
      pose proof (disjoint_nonempty l w Hd Hw). unfold nonempty, before in *. lia.
  - intros w [j Hj]%list_elem_of_lookup_1. apply (Hbelow j); [|done].
    apply lookup_ge_None in Ei. apply lookup_lt_Some in Hj. lia.
Qed.

(** ** Slices *)

Lemma pyslice_nat {A} (l : list A) a b : 0 <= a <= b -> b <= zlen l ->
  pyslice l a b = take (Z.to_nat (b - a)) (drop (Z.to_nat a) l).
Proof.
  unfold zlen, pyslice, py_bound. intros H1 H2.
  destruct (Z.ltb_spec a 0), (Z.ltb_spec b 0); try lia.
  rewrite !Z.min_r by lia. f_equal. lia.
Qed.

Lemma zlen_pyslice {A} (l : list A) a b : 0 <= a <= b -> b <= zlen l -> zlen (pyslice l a b) = b - a.
Proof.
  intros H1 H2. rewrite pyslice_nat by done. unfold zlen in *. rewrite length_take, length_drop. lia.
Qed.

Lemma pyslice_pyslice {A} (l : list A) s e x y : 0 <= s <= e -> e <= zlen l -> 0 <= x <= y -> y <= e - s ->
  pyslice (pyslice l s e) x y = pyslice l (s + x) (s + y).
Proof.
  intros H1 H2 H3 H4. rewrite (pyslice_nat (pyslice l s e)) by (rewrite ?zlen_pyslice; lia).
  rewrite !pyslice_nat by lia. rewrite skipn_firstn_comm, drop_drop, take_take. f_equal; [lia|].
  f_equal. lia.
Qed.

Lemma pyslice_inner {A} (l : list A) a b pre k post : 0 <= a <= b -> b <= zlen l ->
  pyslice l a b = pre ++ k ++ post -> k = pyslice l (a + zlen pre) (a + zlen pre + zlen k).
Proof.
  intros H1 H2 Heq. pose proof (zlen_pyslice l a b H1 H2) as Hl. rewrite Heq, !zlen_app in Hl.
  pose proof (zlen_nonneg pre). pose proof (zlen_nonneg k). pose proof (zlen_nonneg post).
  replace (a + zlen pre + zlen k) with (a + (zlen pre + zlen k)) by lia.
  rewrite <- (pyslice_pyslice l a b) by lia. rewrite Heq, pyslice_nat by (rewrite ?zlen_app; lia).
  unfold zlen. replace (Z.to_nat (Z.of_nat (length pre))) with (length pre) by lia.
  replace (Z.to_nat _) with (length k) by lia. by rewrite drop_app_length, take_app_length.
Qed.

Lemma pyslice_lookup {A} (l : list A) a b i : 0 <= a <= i -> i < b -> b <= zlen l ->
  pyslice l a b !! Z.to_nat (i - a) = l !! Z.to_nat i.
Proof.
  intros H1 H2 H3. rewrite pyslice_nat by lia. rewrite lookup_take_lt by lia.
  rewrite lookup_drop. f_equal. lia.
Qed.

(** [strip] removes whitespace at the two edges and nothing else. *)
Lemma lstrip_split s : exists pre, s = pre ++ lstrip s /\ forallb is_space pre = true.
Proof.
  induction s as [|c s (pre & Heq & Hp)]; [by exists []|]. cbn [lstrip].
  destruct (is_space c) eqn:E; [|by exists []]. exists (c :: pre). cbn. by rewrite <- Heq, E.
Qed.

Lemma strip_split s : exists pre post, s = pre ++ strip s ++ post /\ lstrip s = strip s ++ post /\
  forallb is_space pre = true /\ forallb is_space post = true.
Proof.
  destruct (lstrip_split s) as (pre & Heq & Hpre).
  destruct (lstrip_split (rev (lstrip s))) as (post & Heq' & Hpost).
  exists pre, (rev post). apply (f_equal (@rev Z)) in Heq' as Heq2.
  rewrite rev_involutive, rev_app_distr in Heq2. unfold strip, rstrip.
  rewrite <- Heq2. split_and!; [done..|]. rewrite forallb_forall in *. intros x Hx.
  apply Hpost. by apply in_rev in Hx.
Qed.
