(* ===== verification/RegexDetector.v ===== *)
(** * Regex rules -- src/llm_redact/detection/regex_rules.py, RegexDetector

    How a rule is run on a text: its prefilter (the literals a match needs), its
    anchors (the literals a match starts with), the plain scan, and the two scans
    that read on inside a vetoed match.  What a compiled pattern matches at a
    position is the pattern's own ([pattern.match]); searching and iterating over
    it are written out as [re] does them. *)

From stdpp Require sorting.
From S2P Require Import Prelude Placeholders Checksums Detection.

(** ** Matches and patterns *)

(** [re.Match]: the span and, when the pattern has one and it took part, the span
    of the group named value. *)
Record rmatch := RMatch { m_start : nat; m_end : nat; m_value : option (nat * nat) }.

(** Where a match lies: it starts at [pos] and ends in the text, and so does the group. *)
Definition match_at (text : pystr) (pos : nat) (m : rmatch) : Prop :=
  m_start m = pos /\ (pos <= m_end m <= length text)%nat /\
  forall a b, m_value m = Some (a, b) -> (a <= b <= length text)%nat.

(** A compiled pattern is what it matches at a position of a text: [pmatch] what it
    prefers there, the empty match included, and [pmatch_past] what it prefers of the
    matches that are not empty, which the search after an empty match asks for. *)
Record pattern := Pattern {
  pmatch : pystr -> nat -> option rmatch;
  pmatch_past : pystr -> nat -> option rmatch;
  pmatch_at : forall text pos m, pmatch text pos = Some m -> match_at text pos m;
  pmatch_past_at : forall text pos m, pmatch_past text pos = Some m -> match_at text pos m /\ (pos < m_end m)%nat;
  pmatch_past_same : forall text pos m, pmatch text pos = Some m -> (pos < m_end m)%nat -> pmatch_past text pos = Some m;
  pmatch_past_none : forall text pos, pmatch text pos = None -> pmatch_past text pos = None }.

(** [pattern.search(text, pos)]: the leftmost match, [n] positions tried from [pos]. *)
Fixpoint search_go (p : pattern) (text : pystr) (n pos : nat) : option rmatch :=
  match n with
  | O => None
  | S n => match pmatch p text pos with Some m => Some m | None => search_go p text n (S pos) end
  end.

Definition search (p : pattern) (text : pystr) (pos : nat) : option rmatch :=
  search_go p text (S (length text) - pos) pos.

(** The iterator's search: after an empty match ([past]) the match at [pos] itself may
    not be empty. *)
Definition search_on (p : pattern) (text : pystr) (past : bool) (pos : nat) : option rmatch :=
  if past then match pmatch_past p text pos with Some m => Some m | None => search p text (S pos) end
  else search p text pos.

(** [pattern.finditer(text)]: search again from each match's end. *)
Fixpoint finditer_go (fuel : nat) (p : pattern) (text : pystr) (past : bool) (pos : nat) : list rmatch :=
  match fuel with
  | O => []
  | S f => match search_on p text past pos with
           | None => []
           | Some m => m :: finditer_go f p text (m_end m =? m_start m)%nat (m_end m)
           end
  end.

(** A search for each position, and one more for each empty match. *)
Definition finditer (p : pattern) (text : pystr) : list rmatch := finditer_go (2 * length text + 3) p text false 0.

(** [match.group(0)] and [match.group("value")] *)
Definition group0 (text : pystr) (m : rmatch) : pystr := take (m_end m - m_start m) (drop (m_start m) text).

(** ** Rules *)

Record rule := Rule {
  r_name : pystr;
  r_type : pystr;
  r_pattern : pattern;
  r_validator : option (pystr -> rmatch -> res bool);
  r_priority : Z;
  r_group : Z;
  r_required : list (list pystr);
  r_required_ci : bool;
  r_anchors : list pystr;
  r_anchors_ci : bool;
  r_resume : option (pystr -> rmatch -> nat);
  r_inside : option (pystr -> rmatch -> nat -> option rmatch);
  r_joins : option (pystr -> rmatch -> bool) }.

Section Haystacks.
(** [str.lower]. *)
Context (str_lower : pystr -> pystr).

Definition isascii (text : pystr) : bool := forallb (fun c => c <? 128) text.

(** The three characters a case-insensitive pattern matches beside an ASCII letter:
    U+0130, U+0131 and U+017F. *)
Definition lower_for_ci (text : pystr) : pystr :=
  if isascii text then str_lower text
  else str_lower (replace1 383 115 (replace1 305 105 (replace1 304 105 text))).

(** [PreparedText]: the two derived haystacks (computed once, on demand). *)
Definition haystack (ci : bool) (text : pystr) : pystr := if ci then lower_for_ci text else fold_digits text.

(** [RegexDetector.required]: the literals in the form of their haystack. *)
Definition required_of (r : rule) : list (list pystr) :=
  if r_required_ci r then r_required r else map (map fold_digits) (r_required r).

(** ** The anchored scan *)

(** [haystack.find(anchor, idx)] *)
Definition find_from (anchor text : pystr) (idx : nat) : option nat :=
  if (length text <? idx)%nat then None else (fun i => (idx + i)%nat) <$> find_sub anchor (drop idx text).

Fixpoint occurrences_go (fuel : nat) (anchor text : pystr) (idx : nat) : list nat :=
  match fuel with
  | O => []
  | S f => match find_from anchor text idx with
           | None => []
           | Some i => i :: occurrences_go f anchor text (S i)
           end
  end.

Definition occurrences (anchor text : pystr) : list nat := occurrences_go (S (S (length text))) anchor text 0.

(** [sorted(positions)] of the set of every anchor's occurrences. *)
Definition positions (anchors : list pystr) (text : pystr) : list nat :=
  sort_by Nat.leb (remove_dups (concat (map (fun a => occurrences a text) anchors))).

(** The loop over the positions; [last_end] starts at -1. *)
Fixpoint anchored_go (p : pattern) (text : pystr) (last_end : Z) (ps : list nat) : list rmatch :=
  match ps with
  | [] => []
  | pos :: ps =>
      if Z.of_nat pos <? last_end then anchored_go p text last_end ps
      else match pmatch p text pos with
           | Some m => m :: anchored_go p text (Z.of_nat (m_end m)) ps
           | None => anchored_go p text last_end ps
           end
  end.

Definition anchored_matches (r : rule) (text : pystr) : list rmatch :=
  let hay := if r_anchors_ci r then lower_for_ci text else text in
  if r_anchors_ci r && negb (length hay =? length text)%nat then finditer (r_pattern r) text
  else anchored_go (r_pattern r) text (-1) (positions (r_anchors r) hay).

(** ** From matches to detections *)

Definition has_value (r : rule) (m : rmatch) : option (nat * nat) := if r_group r =? 0 then None else m_value m.

Definition detection_of (r : rule) (text : pystr) (joins : bool) (m : rmatch) : detection :=
  let '(a, b) := match has_value r m with Some ab => ab | None => (m_start m, m_end m) end in
  mk_detection (Z.of_nat a) (Z.of_nat b) (r_type r) (take (b - a) (drop a text)) (r_priority r) 1
    (joins || match r_joins r with Some j => j text m | None => false end) [].

(** The validator's verdict; a rule without one accepts every match. *)
Definition accepts (r : rule) (text : pystr) (m : rmatch) : res bool :=
  match r_validator r with None => Ok true | Some v => v text m end.

(** [_detections_from]: a validator that raises ends the scan. *)
Fixpoint detections_from (r : rule) (text : pystr) (validated : bool) (ms : list rmatch) : res (list detection) :=
  match ms with
  | [] => Ok []
  | m :: ms =>
      rbind (if validated then Ok true else accepts r text m) (fun ok =>
      rbind (detections_from r text validated ms) (fun ds =>
      Ok (if ok then detection_of r text false m :: ds else ds)))
  end.

(** [_insides] *)
Fixpoint insides (r : rule) (text : pystr) (inside : pystr -> rmatch -> nat -> option rmatch)
    (ms : list rmatch) : res (list detection) :=
  match ms with
  | [] => Ok []
  | m :: ms =>
      let limit := match ms with [] => length text | following :: _ => m_start following end in
      rbind (accepts r text m) (fun ok =>
      let found := if ok then Some (detection_of r text false m)
                   else detection_of r text true <$> inside text m limit in
      rbind (insides r text inside ms) (fun ds =>
      Ok (match found with Some d => d :: ds | None => ds end)))
  end.

(** [_resumed]: after a vetoed match the search goes on at [resume]. *)
Fixpoint resumed (fuel : nat) (r : rule) (text : pystr) (resume : pystr -> rmatch -> nat) (pos : nat) :
    option (res (list rmatch)) :=
  match fuel with
  | O => None
  | S f =>
      match search (r_pattern r) text pos with
      | None => Some (Ok [])
      | Some m =>
          match accepts r text m with
          | Raise e => Some (Raise e)
          | Ok true => (fun rest => rbind rest (fun ms => Ok (m :: ms))) <$> resumed f r text resume (m_end m)
          | Ok false => resumed f r text resume (resume text m)
          end
      end
  end.

(** A rule with [resume] never matches the empty string and goes on past each match's
    start, so a text of [n] characters takes at most [n + 1] searches
    ([resumed_scan_ends]). *)
Definition detect (r : rule) (text : pystr) : res (list detection) :=
  match r_resume r with
  | Some resume =>
      match resumed (S (length text)) r text resume 0 with
      | Some ms => rbind ms (detections_from r text true)
      | None => Ok []
      end
  | None =>
      match r_inside r with
      | Some inside => insides r text inside (finditer (r_pattern r) text)
      | None => detections_from r text false (finditer (r_pattern r) text)
      end
  end.

Definition prefilter (required : list (list pystr)) (hay : pystr) : bool :=
  forallb (fun group => existsb (fun l => contains_sub l hay) group) required.

Definition detect_prepared (r : rule) (text : pystr) : res (list detection) :=
  if negb (prefilter (required_of r) (haystack (r_required_ci r) text)) then Ok []
  else match r_anchors r with
       | [] => detect r text
       | _ :: _ => detections_from r text false (anchored_matches r text)
       end.
End Haystacks.

(** ** The rules' own readings *)

Definition before_dots (text : pystr) (m : rmatch) : bool := starts_with (lit ".") (drop (m_end m) text).

Definition ipv6_before_close (text : pystr) (m : rmatch) : bool :=
  starts_with (lit ".") (drop (m_end m) text) || starts_with (lit ":") (drop (m_end m) text).

(** [match.group(0)[4]]: the pattern holds at least fifteen characters. *)
Definition iban_paper (text : pystr) (m : rmatch) : bool := mem_char (nth 4 (group0 text m) 0) IBAN_SEPARATORS.

Definition iban_resume (text : pystr) (m : rmatch) : nat :=
  if iban_paper text m then (m_start m + 5)%nat else m_end m.

(** ** The scan as a pass over the positions *)

Definition skip_to (last : Z) (pos : nat) : bool := Z.of_nat pos <? last.

Lemma anchored_go_step p text last pos ps : anchored_go p text last (pos :: ps) =
  if skip_to last pos then anchored_go p text last ps
  else match pmatch p text pos with
       | Some m => m :: anchored_go p text (Z.of_nat (m_end m)) ps
       | None => anchored_go p text last ps
       end.
Proof. done. Qed.

(** Positions where nothing matches can be left out. *)
Lemma anchored_go_filter p text q ps : (forall pos, pos ∈ ps -> q pos = false -> pmatch p text pos = None) ->
  forall last, anchored_go p text last (List.filter q ps) = anchored_go p text last ps.
Proof.
  induction ps as [|pos ps IH]; intros H last; [done|]. cbn [List.filter].
  assert (IH' := IH (fun x Hx => H x ltac:(by right))). rewrite anchored_go_step.
  destruct (q pos) eqn:Eq.
  - rewrite anchored_go_step, IH'. destruct (skip_to last pos); [done|]. destruct (pmatch p text pos); [|done]. by rewrite IH'.
  - rewrite (H pos ltac:(by left) Eq), IH'. by destruct (skip_to last pos).
Qed.

(** Positions before the last end are skipped. *)
Lemma anchored_go_skip p text ps rest last : Forall (fun pos => Z.of_nat pos < last) ps ->
  anchored_go p text last (ps ++ rest) = anchored_go p text last rest.
Proof.
  induction 1 as [|pos ps Hp _ IH]; [done|]. cbn [app]. rewrite anchored_go_step. unfold skip_to.
  by destruct (Z.ltb_spec (Z.of_nat pos) last); [|lia].
Qed.

Lemma search_go_spec p text n pos :
  match search_go p text n pos with
  | None => forall i, (pos <= i < pos + n)%nat -> pmatch p text i = None
  | Some m => exists i, (pos <= i < pos + n)%nat /\ pmatch p text i = Some m /\
                forall j, (pos <= j < i)%nat -> pmatch p text j = None
  end.
Proof.
  revert pos. induction n as [|n IH]; intros pos; cbn; [lia|]. destruct (pmatch p text pos) as [m|] eqn:E.
  - exists pos. split_and!; [lia..|done|lia].
  - specialize (IH (S pos)). destruct (search_go p text n (S pos)) as [m|].
    + destruct IH as (i & Hi & Hm & Hj). exists i. split_and!; [lia..|done|].
      intros j Hj'. destruct (decide (j = pos)) as [-> |]; [done|]. apply Hj. lia.
    + intros i Hi. destruct (decide (i = pos)) as [-> |]; [done|]. apply IH. lia.
Qed.

(** The pattern matches the empty string nowhere in the text. *)
Definition never_empty (p : pattern) (text : pystr) : Prop :=
  forall pos m, pmatch p text pos = Some m -> (pos < m_end m)%nat.

Lemma search_none p text pos : (length text < pos)%nat -> search p text pos = None.
Proof. intros H. unfold search. by replace (S (length text) - pos)%nat with 0%nat by lia. Qed.

Lemma search_on_spec p text past pos m : search_on p text past pos = Some m -> exists i, (pos <= i <= length text)%nat /\
  m_start m = i /\ (pmatch p text i = Some m \/ pmatch_past p text i = Some m).
Proof.
  assert (Hs : forall q, search p text q = Some m -> exists i, (q <= i <= length text)%nat /\ m_start m = i /\ pmatch p text i = Some m).
  { intros q Hq. unfold search in Hq. assert (H := search_go_spec p text (S (length text) - q) q). rewrite Hq in H.
    destruct H as (i & Hi & Hm & _). exists i. split_and!; [lia..| |done]. by apply pmatch_at in Hm as [-> _]. }
  unfold search_on. destruct past.
  - destruct (pmatch_past p text pos) as [m'|] eqn:E.
    + intros [= <-]. exists pos. destruct (pmatch_past_at _ _ _ _ E) as [(-> & Hb & _) _]. split_and!; [lia..|done|by right].
    + intros (i & Hi & Es & Hm)%Hs. exists i. split_and!; [lia..|done|by left].
  - intros (i & Hi & Es & Hm)%Hs. exists i. split_and!; [lia..|done|by left].
Qed.

(** Where no match is empty the iterator's next search is a plain one. *)
Lemma finditer_go_plain p text f pos : never_empty p text -> finditer_go (S f) p text false pos =
  match search p text pos with None => [] | Some m => m :: finditer_go f p text false (m_end m) end.
Proof.
  intros Hn. cbn [finditer_go search_on]. destruct (search p text pos) as [m|] eqn:E; [|done]. f_equal.
  unfold search in E. assert (Hs := search_go_spec p text (S (length text) - pos) pos). rewrite E in Hs.
  destruct Hs as (i & _ & Hm & _). assert (Hb := Hn _ _ Hm). destruct (pmatch_at _ _ _ _ Hm) as (-> & _).
  by destruct (Nat.eqb_spec (m_end m) i); [lia|].
Qed.

(** The searches from [pos] on are the pass over the positions from [pos] on. *)
Lemma finditer_go_anchored p text fuel pos : never_empty p text -> (S (length text) - pos < fuel)%nat -> (pos <= S (length text))%nat ->
  finditer_go fuel p text false pos = anchored_go p text (Z.of_nat pos) (seq pos (S (length text) - pos)).
Proof.
  intros Hne. revert pos. induction fuel as [|f IH]; intros pos Hf Hpos; [lia|]. rewrite finditer_go_plain by done.
  set (len := length text) in *.
  assert (Hnone : forall last n i, (forall j, (i <= j < i + n)%nat -> pmatch p text j = None) -> forall rest,
    anchored_go p text last (seq i n ++ rest) = anchored_go p text last rest).
  { intros last n. induction n as [|n IHn]; intros i Hn rest; [done|]. cbn [seq app]. rewrite anchored_go_step.
    rewrite (Hn i ltac:(lia)), IHn by (intros; apply Hn; lia). by destruct (skip_to last i). }
  assert (Hs := search_go_spec p text (S len - pos) pos). unfold search. fold len.
  destruct (search_go p text (S len - pos) pos) as [m|].
  - destruct Hs as (i & Hi & Hm & Hj). destruct (pmatch_at p text i m Hm) as (Ha & Hb & _). fold len in Hb.
    assert (Hb' := Hne i m Hm).
    replace (S len - pos)%nat with ((i - pos) + S ((m_end m - S i) + (S len - m_end m)))%nat by lia.
    rewrite seq_app, Hnone by (intros j Hj'; apply Hj; lia). replace (pos + (i - pos))%nat with i by lia.
    cbn [seq]. rewrite anchored_go_step. unfold skip_to. destruct (Z.ltb_spec (Z.of_nat i) (Z.of_nat pos)); [lia|].
    rewrite Hm. f_equal. rewrite IH by lia. rewrite seq_app, anchored_go_skip.
    + do 2 f_equal. lia.
    + apply Forall_forall. intros x Hx%in_seq. lia.
  - rewrite <- (app_nil_r (seq _ _)), Hnone; [done|]. intros j Hj. apply Hs. lia.
Qed.

Lemma anchored_go_neg p text last last' ps : last <= 0 -> last' <= 0 ->
  anchored_go p text last ps = anchored_go p text last' ps.
Proof.
  intros H H'. induction ps as [|pos ps IH]; [done|]. rewrite !anchored_go_step. unfold skip_to.
  destruct (Z.ltb_spec (Z.of_nat pos) last); [lia|]. destruct (Z.ltb_spec (Z.of_nat pos) last'); [lia|].
  destruct (pmatch p text pos); [done|apply IH].
Qed.

(** ** The positions of the anchors *)

Lemma find_sub_spec q s : match find_sub q s with
  | Some i => starts_with q (drop i s) = true /\ (i <= length s)%nat /\ forall j, (j < i)%nat -> starts_with q (drop j s) = false
  | None => forall j, (j <= length s)%nat -> starts_with q (drop j s) = false
  end.
Proof.
  induction s as [|x s IH]; cbn [find_sub].
  - destruct (starts_with q []) eqn:E; [split_and!; [done|cbn; lia|lia]|].
    intros j Hj. cbn in Hj. by replace j with 0%nat by lia.
  - destruct (starts_with q (x :: s)) eqn:E; [split_and!; [done|cbn; lia|lia]|].
    destruct (find_sub q s) as [i|]; cbn [fmap option_fmap option_map].
    + destruct IH as (H1 & H2 & H3). split_and!; [done|cbn; lia|]. intros [|j] Hj; [done|]. apply H3. lia.
    + intros [|j] Hj; [done|]. apply IH. cbn in Hj. lia.
Qed.

Definition occurs_at (q text : pystr) (i : nat) : bool := (i <=? length text)%nat && starts_with q (drop i text).

Lemma find_from_spec q text idx : match find_from q text idx with
  | Some i => occurs_at q text i = true /\ (idx <= i)%nat /\ forall j, (idx <= j < i)%nat -> occurs_at q text j = false
  | None => forall j, (idx <= j)%nat -> occurs_at q text j = false
  end.
Proof.
  unfold find_from, occurs_at. destruct (Nat.ltb_spec (length text) idx) as [Hl|Hl].
  - intros j Hj. by destruct (Nat.leb_spec j (length text)); [lia|].
  - assert (H := find_sub_spec q (drop idx text)). rewrite length_drop in H.
    destruct (find_sub q (drop idx text)) as [i|]; cbn [fmap option_fmap option_map].
    + destruct H as (H1 & H2 & H3). rewrite drop_drop in H1. split_and!; [|lia|].
      * rewrite H1, andb_true_r. by apply Nat.leb_le; lia.
      * intros j Hj. specialize (H3 (j - idx)%nat ltac:(lia)). rewrite drop_drop in H3.
        replace (idx + (j - idx))%nat with j in H3 by lia. rewrite H3. apply andb_false_r.
    + intros j Hj. destruct (Nat.leb_spec j (length text)); [|done]. specialize (H (j - idx)%nat ltac:(lia)).
      rewrite drop_drop in H. by replace (idx + (j - idx))%nat with j in H by lia.
Qed.

Lemma occurrences_go_spec q text fuel idx i :
  i ∈ occurrences_go fuel q text idx -> (idx <= i)%nat /\ occurs_at q text i = true.
Proof.
  revert idx i. induction fuel as [|f IH]; intros idx i; cbn; [set_solver|].
  assert (H := find_from_spec q text idx). destruct (find_from q text idx) as [j|]; [|set_solver].
  destruct H as (H1 & H2 & _). intros [-> |Hi]%elem_of_cons; [done|]. apply IH in Hi as [? ?]. split; [lia|done].
Qed.

Lemma occurrences_go_complete q text fuel idx : (S (length text) - idx < fuel)%nat -> forall i,
  (idx <= i)%nat -> occurs_at q text i = true -> i ∈ occurrences_go fuel q text idx.
Proof.
  revert idx. induction fuel as [|f IH]; intros idx Hf i Hi Ho; [lia|]. cbn.
  assert (H := find_from_spec q text idx). destruct (find_from q text idx) as [j|].
  - destruct H as (H1 & H2 & H3). destruct (decide (i = j)) as [-> |Hne]; [by left|]. right.
    destruct (decide (i < j)%nat) as [Hlt|Hge]; [rewrite H3 in Ho by lia; done|].
    assert (Hil : (i <= length text)%nat) by (unfold occurs_at in Ho; apply andb_true_iff in Ho as [Ho _]; by apply Nat.leb_le in Ho).
    apply IH; [lia|lia|done].
  - by rewrite H in Ho.
Qed.

Lemma occurrences_spec q text i : i ∈ occurrences q text <-> occurs_at q text i = true.
Proof.
  unfold occurrences. split.
  - intros H. by apply occurrences_go_spec in H as [_ ?].
  - intros H. apply occurrences_go_complete; [lia|lia|done].
Qed.

Definition anchored_at (anchors : list pystr) (text : pystr) (i : nat) : bool :=
  existsb (fun a => occurs_at a text i) anchors.

(** A sorted set of numbers below [n] lists, in order, the numbers in it. *)
Lemma sorted_set_filter (l : list nat) q n : (forall i, i ∈ l <-> (i < n)%nat /\ q i = true) ->
  sort_by Nat.leb (remove_dups l) = List.filter q (seq 0 n).
Proof.
  intros Hl. apply (sorting.StronglySorted_unique le).
  - eapply StronglySorted_weaken; [|apply sort_by_sorted].
    + intros x y H. cbn in H. by apply Nat.leb_le.
    + intros x y H. apply Nat.leb_gt in H. apply Nat.leb_le. lia.
    + intros x y z H1%Nat.leb_le H2%Nat.leb_le. apply Nat.leb_le. lia.
  - clear Hl. generalize 0%nat. induction n as [|n IH]; intros i; cbn; [constructor|].
    destruct (q i); [|apply IH]. constructor; [apply IH|].
    apply Forall_forall. intros x [Hx%in_seq _]%filter_In. lia.
  - rewrite sort_by_perm. apply NoDup_Permutation.
    + apply NoDup_remove_dups.
    + apply NoDup_ListNoDup, NoDup_filter, seq_NoDup.
    + intros i. rewrite elem_of_remove_dups, elem_filter, Hl, list_elem_of_In, in_seq. split; intros [? ?]; split; lia || done.
Qed.

(** The sorted set of positions lists, in order, where an anchor occurs. *)
Lemma positions_filter anchors text : positions anchors text = List.filter (anchored_at anchors text) (seq 0 (S (length text))).
Proof.
  apply sorted_set_filter. intros i. rewrite list_elem_of_In, in_concat. split.
  - intros (l & Hl & Hi). apply in_map_iff in Hl as (a & <- & Ha). apply list_elem_of_In, occurrences_spec in Hi.
    split; [unfold occurs_at in Hi; apply andb_true_iff in Hi as [Hi _]; apply Nat.leb_le in Hi; lia|].
    unfold anchored_at. apply existsb_exists. by exists a.
  - intros [_ Ha]. unfold anchored_at in Ha. apply existsb_exists in Ha as (a & Ha & Ho).
    exists (occurrences a text). split; [by apply in_map_iff; exists a|]. by apply list_elem_of_In, occurrences_spec.
Qed.

(** ** The declarations a rule makes about its pattern *)

Section Declared.
Context (str_lower : pystr -> pystr).

(** [required]: a text the pattern matches in holds a literal of each group;
    [anchors]: every match starts with one, and so is not empty; an anchored rule reads
    nothing on inside a vetoed match. *)
Record declared (r : rule) : Prop := {
  decl_required : forall text pos m, pmatch (r_pattern r) text pos = Some m ->
    prefilter (required_of r) (haystack str_lower (r_required_ci r) text) = true;
  decl_anchors : r_anchors r <> [] -> forall text pos m, pmatch (r_pattern r) text pos = Some m ->
    existsb (fun a => starts_with a (drop pos (if r_anchors_ci r then lower_for_ci str_lower text else text))) (r_anchors r) = true;
  decl_nonempty : r_anchors r <> [] -> forall text, never_empty (r_pattern r) text;
  decl_plain : r_anchors r <> [] -> r_resume r = None /\ r_inside r = None }.

Lemma finditer_anchored p text : never_empty p text -> finditer p text = anchored_go p text (-1) (seq 0 (S (length text))).
Proof.
  intros Hn. unfold finditer. rewrite finditer_go_anchored by (done || lia). rewrite Nat.sub_0_r. apply anchored_go_neg; lia.
Qed.

(** Where the pattern matches, a match of the scan covers the start. *)
Lemma anchored_go_covers p text ps : never_empty p text -> StronglySorted le ps -> forall i m0 last, i ∈ ps -> pmatch p text i = Some m0 ->
  Z.of_nat i < last \/ exists m, m ∈ anchored_go p text last ps /\ (m_start m <= i < m_end m)%nat.
Proof.
  intros Hne. induction 1 as [|pos ps _ IH Hle]; intros i m0 last Hi Hm; [set_solver|]. rewrite anchored_go_step. unfold skip_to.
  destruct (Z.ltb_spec (Z.of_nat pos) last) as [Hl|Hl].
  - apply elem_of_cons in Hi as [-> |Hi]; [by left|by eapply IH].
  - destruct (pmatch p text pos) as [m|] eqn:Ep.
    + destruct (pmatch_at p text pos m Ep) as (Hs & _). assert (He := Hne pos m Ep). apply elem_of_cons in Hi as [-> |Hi].
      * right. exists m. split; [by left|lia].
      * assert (Hpi : (pos <= i)%nat) by (eapply list.Forall_forall in Hle; done).
        destruct (IH i m0 (Z.of_nat (m_end m)) Hi Hm) as [Hlt|(m' & Hin & Hb)]; right;
          [exists m; split; [by left|lia]|exists m'; split; [by right|done]].
    + apply elem_of_cons in Hi as [-> |Hi]; [congruence|]. by eapply IH.
Qed.

Lemma finditer_covers p text i m0 : never_empty p text -> pmatch p text i = Some m0 ->
  exists m, m ∈ finditer p text /\ (m_start m <= i < m_end m)%nat.
Proof.
  intros Hne Hm. rewrite finditer_anchored by done. destruct (pmatch_at p text i m0 Hm) as (_ & He & _).
  destruct (anchored_go_covers p text (seq 0 (S (length text)))) with (i := i) (m0 := m0) (last := -1) as [|H]; [done| |by apply list_elem_of_In, in_seq; lia|done|lia|done].
  generalize 0%nat. induction (S (length text)) as [|n IH]; intros j; cbn; [constructor|].
  constructor; [apply IH|]. apply list.Forall_forall. intros x Hx%list_elem_of_In%in_seq. lia.
Qed.

Lemma anchored_finditer r text : declared r -> r_anchors r <> [] -> anchored_matches str_lower r text = finditer (r_pattern r) text.
Proof.
  intros Hd Ha. unfold anchored_matches.
  set (hay := if r_anchors_ci r then lower_for_ci str_lower text else text).
  destruct (r_anchors_ci r && negb (length hay =? length text)%nat) eqn:El; [done|].
  assert (Hlen : length hay = length text).
  { subst hay. destruct (r_anchors_ci r); [|done]. cbn in El. apply negb_false_iff in El. by apply Nat.eqb_eq. }
  rewrite finditer_anchored by (by apply decl_nonempty). rewrite positions_filter, Hlen. apply anchored_go_filter.
  intros pos Hpos Hq. destruct (pmatch (r_pattern r) text pos) as [m|] eqn:Em; [|done]. exfalso.
  assert (H := decl_anchors r Hd Ha text pos m Em). fold hay in H. apply existsb_exists in H as (a & Hin & Hs).
  assert (Ht : anchored_at (r_anchors r) hay pos = true); [|congruence].
  unfold anchored_at. apply existsb_exists. exists a. split; [done|]. unfold occurs_at. rewrite Hs, andb_true_r.
  apply list_elem_of_In, in_seq in Hpos. apply Nat.leb_le. lia.
Qed.

Lemma no_match_search p text : (forall pos, pmatch p text pos = None) -> forall pos, search p text pos = None.
Proof. intros H pos. unfold search. generalize (S (length text) - pos)%nat. intros n. revert pos.
  induction n as [|n IH]; intros pos; cbn; [done|]. by rewrite H. Qed.

Lemma no_match_finditer p text : (forall pos, pmatch p text pos = None) -> finditer p text = [].
Proof.
  intros H. unfold finditer. replace (2 * length text + 3)%nat with (S (2 * length text + 2)) by lia.
  cbn [finditer_go search_on]. by rewrite no_match_search.
Qed.

Lemma no_match_detect r text : (forall pos, pmatch (r_pattern r) text pos = None) -> detect r text = Ok [].
Proof.
  intros H. unfold detect. cbn [resumed]. rewrite no_match_search, no_match_finditer by done.
  destruct (r_resume r); [done|]. by destruct (r_inside r).
Qed.

Lemma no_match_prepared r text : (forall pos, pmatch (r_pattern r) text pos = None) -> detect_prepared str_lower r text = Ok [].
Proof.
  intros H. unfold detect_prepared. destruct (prefilter _ _); [|done]. cbn [negb].
  destruct (r_anchors r) as [|a l]; [by apply no_match_detect|]. unfold anchored_matches.
  rewrite (no_match_finditer _ _ H). destruct (_ && _); [done|].
  generalize (-1). induction (positions _ _) as [|p ps IH]; intros last; [done|]. rewrite anchored_go_step, H.
  destruct (skip_to last p); apply IH.
Qed.

(** The prefilter and the anchors change nothing. *)
Lemma detect_prepared_same r text : declared r -> detect_prepared str_lower r text = detect r text.
Proof.
  intros Hd. unfold detect_prepared. destruct (prefilter _ _) eqn:Ep; cbn [negb].
  - destruct (r_anchors r) as [|a l] eqn:Ea; [done|]. assert (Hne : r_anchors r <> []) by by rewrite Ea.
    destruct (decl_plain r Hd Hne) as [E1 E2]. unfold detect. by rewrite E1, E2, anchored_finditer.
  - symmetry. apply no_match_detect. intros pos. destruct (pmatch _ _ _) as [m|] eqn:Em; [|done].
    by rewrite (decl_required r Hd text pos m Em) in Ep.
Qed.
End Declared.

(** ** What a rule finds *)

Definition spans_in (text : pystr) (m : rmatch) : Prop := match_at text (m_start m) m.

(** A rule's type fits a placeholder, and what it reads inside a match lies in the text. *)
Record well_made (r : rule) : Prop := {
  made_type : is_placeholder_type (r_type r) = true;
  made_inside : forall f text m limit m', r_inside r = Some f -> spans_in text m ->
    f text m limit = Some m' -> spans_in text m' }.

(** A detection of some characters is well formed; one of none the plan drops. *)
Definition sound (text : pystr) (d : detection) : Prop := start d < stop d -> valid text d.

Lemma detection_of_sound r text j m : well_made r -> spans_in text m -> sound text (detection_of r text j m).
Proof.
  intros Hw (_ & Hm & Hv). unfold detection_of.
  assert (H : forall a b, (a <= b <= length text)%nat -> sound text
    (mk_detection (Z.of_nat a) (Z.of_nat b) (r_type r) (take (b - a) (drop a text)) (r_priority r) 1
      (j || match r_joins r with Some j => j text m | None => false end) [])).
  { intros a b Hab Hlt. cbn in Hlt. split; cbn; [unfold zlen; lia| |apply Hw].
    unfold span_text. rewrite pyslice_nat by (unfold zlen; lia). by rewrite Nat2Z.id, <- Nat2Z.inj_sub, Nat2Z.id by lia. }
  unfold has_value. destruct (r_group r =? 0); [by apply H|]. destruct (m_value m) as [[a b]|]; [|by apply H].
  apply H. by apply Hv.
Qed.

Lemma finditer_go_matches p text fuel past pos m : m ∈ finditer_go fuel p text past pos ->
  pmatch p text (m_start m) = Some m \/ pmatch_past p text (m_start m) = Some m.
Proof.
  revert past pos. induction fuel as [|f IH]; intros past pos; cbn; [set_solver|].
  destruct (search_on p text past pos) as [m'|] eqn:E; [|set_solver].
  intros [-> |Hin]%elem_of_cons; [|by eapply IH]. by apply search_on_spec in E as (i & _ & <- & Hm).
Qed.

Lemma matched_spans p text pos m : pmatch p text pos = Some m \/ pmatch_past p text pos = Some m -> spans_in text m.
Proof.
  intros [H|H]; [apply pmatch_at in H as H'|apply pmatch_past_at in H as [H' _]]; destruct H' as (<- & ? & ?); done.
Qed.

Lemma finditer_spans p text : Forall (spans_in text) (finditer p text).
Proof. apply list.Forall_forall. intros m Hm%finditer_go_matches. by eapply matched_spans. Qed.

Lemma detections_from_sound r text v ms ds : well_made r -> Forall (spans_in text) ms ->
  detections_from r text v ms = Ok ds -> Forall (sound text) ds.
Proof.
  intros Hw Hms. revert ds. induction Hms as [|m ms Hm _ IH]; intros ds; cbn; [by intros [= <-]|].
  destruct (if v then _ else _) as [ok|]; [|done]. cbn.
  destruct (detections_from r text v ms) as [l|]; [|done]. cbn. intros [= <-].
  specialize (IH l eq_refl). destruct ok; [constructor; [by apply detection_of_sound|]|]; done.
Qed.

Lemma insides_sound r text f ms ds : well_made r -> r_inside r = Some f -> Forall (spans_in text) ms ->
  insides r text f ms = Ok ds -> Forall (sound text) ds.
Proof.
  intros Hw Hf Hms. revert ds. induction Hms as [|m ms Hm _ IH]; intros ds; cbn; [by intros [= <-]|].
  destruct (accepts r text m) as [ok|]; [|done]. cbn. destruct (insides r text f ms) as [l|]; [|done]. cbn.
  specialize (IH l eq_refl). intros [= <-]. destruct ok; [constructor; [|done]; by apply detection_of_sound|].
  destruct (f text m _) as [m'|] eqn:Ef; cbn; [|done]. constructor; [|done].
  apply detection_of_sound; [done|by eapply (made_inside r Hw)].
Qed.

Lemma resumed_spans r text f fuel pos ms : resumed fuel r text f pos = Some (Ok ms) -> Forall (spans_in text) ms.
Proof.
  revert pos ms. induction fuel as [|n IH]; intros pos ms; cbn; [done|].
  assert (Hs := search_go_spec (r_pattern r) text (S (length text) - pos) pos). unfold search.
  destruct (search_go _ text _ pos) as [m'|]; [|intros [= <-]; constructor]. destruct Hs as (i & _ & Hm & _).
  destruct (accepts r text m') as [[]|]; [| |done].
  - destruct (resumed n r text f (m_end m')) as [[l|]|] eqn:E; cbn; [|done..]. intros [= <-].
    constructor; [eapply matched_spans; by left|by eapply IH].
  - intros H. by eapply IH.
Qed.

Lemma detect_sound r text ds : well_made r -> detect r text = Ok ds -> Forall (sound text) ds.
Proof.
  intros Hw. unfold detect. destruct (r_resume r) as [f|].
  - destruct (resumed _ r text f 0) as [[ms|]|] eqn:E; [|done|by intros [= <-]]. cbn.
    apply detections_from_sound; [done|]. by eapply resumed_spans.
  - destruct (r_inside r) as [f|] eqn:Ef.
    + apply insides_sound; [done|done|apply finditer_spans].
    + apply detections_from_sound; [done|apply finditer_spans].
Qed.

Lemma anchored_go_spans p text last ps : Forall (spans_in text) (anchored_go p text last ps).
Proof.
  revert last. induction ps as [|pos ps IH]; intros last; [constructor|]. rewrite anchored_go_step.
  destruct (skip_to last pos); [apply IH|]. destruct (pmatch p text pos) as [m|] eqn:Em; [|apply IH].
  constructor; [eapply matched_spans; by left|apply IH].
Qed.

Lemma detect_prepared_sound lo r text ds : well_made r -> detect_prepared lo r text = Ok ds -> Forall (sound text) ds.
Proof.
  intros Hw. unfold detect_prepared. destruct (negb _); [by intros [= <-]|].
  destruct (r_anchors r) as [|a l] eqn:Ea; [by apply detect_sound|]. apply detections_from_sound; [done|].
  unfold anchored_matches. destruct (_ && _); [apply finditer_spans|apply anchored_go_spans].
Qed.

(** ** Termination of the resumed scan *)

(** What [resume] is for: a rule whose matches are never empty, and that goes on past a
    vetoed match's first character. *)
Definition advances (r : rule) (f : pystr -> rmatch -> nat) : Prop :=
  forall text m, pmatch (r_pattern r) text (m_start m) = Some m -> (m_start m < m_end m)%nat /\ (m_start m < f text m)%nat.

Lemma resumed_ends_from r f text fuel pos : advances r f -> (length text - pos < fuel)%nat ->
  exists out, forall fuel', (fuel <= fuel')%nat -> resumed fuel' r text f pos = Some out.
Proof.
  intros Ha. revert pos. induction fuel as [|n IH]; intros pos Hf; [lia|].
  assert (Hs := search_go_spec (r_pattern r) text (S (length text) - pos) pos). fold (search (r_pattern r) text pos) in Hs.
  destruct (search (r_pattern r) text pos) as [m|] eqn:E.
  2: { exists (Ok []). intros [|f'] ?; [lia|]. cbn. by rewrite E. }
  destruct Hs as (i & Hi & Hm & _).
  destruct (pmatch_at (r_pattern r) text i m Hm) as (Es & He & _). destruct (Ha text m ltac:(by rewrite Es)) as [Hne Hadv].
  destruct (accepts r text m) as [[]|e] eqn:Ea.
  - destruct (IH (m_end m) ltac:(lia)) as [out Ho]. exists (rbind out (fun ms => Ok (m :: ms))).
    intros [|f'] ?; [lia|]. cbn. rewrite E, Ea, Ho by lia. done.
  - destruct (IH (f text m) ltac:(lia)) as [out Ho]. exists out. intros [|f'] ?; [lia|]. cbn. rewrite E, Ea. apply Ho. lia.
  - exists (Raise e). intros [|f'] ?; [lia|]. cbn. by rewrite E, Ea.
Qed.

Lemma iban_resume_advances r : (forall text, never_empty (r_pattern r) text) -> advances r iban_resume.
Proof.
  intros Hn text m Hm. assert (H := Hn text _ _ Hm). split; [done|]. unfold iban_resume.
  destruct (iban_paper text m); lia.
Qed.

(** ** Literals and folded haystacks *)

Lemma contains_sub_spec q s : contains_sub q s = true <-> exists i, (i <= length s)%nat /\ starts_with q (drop i s) = true.
Proof.
  unfold contains_sub. assert (H := find_sub_spec q s). destruct (find_sub q s) as [i|].
  - destruct H as (H & Hi & _). split; [by exists i|done].
  - split; [done|]. intros (i & Hi & Hs). by rewrite H in Hs.
Qed.

Lemma starts_with_map f q s : starts_with q s = true -> starts_with (map f q) (map f s) = true.
Proof.
  revert s. induction q as [|x q IH]; intros [|y s]; cbn; try done. intros [->%Z.eqb_eq H]%andb_true_iff.
  by rewrite Z.eqb_refl, IH.
Qed.

Lemma fold_digits_keeps l text : contains_sub l text = true -> contains_sub (fold_digits l) (fold_digits text) = true.
Proof.
  intros (i & Hi & Hs)%contains_sub_spec. unfold fold_digits.
  apply contains_sub_spec. exists i. rewrite length_map. split; [done|]. rewrite skipn_map. by apply starts_with_map.
Qed.

(** ** Escaped literals *)

Fixpoint matches_at (eqc : Z -> Z -> bool) (v text : pystr) : bool :=
  match v, text with
  | [], _ => true
  | x :: v, y :: text => eqc x y && matches_at eqc v text
  | _ :: _, [] => false
  end.

(** What an escaped literal matches, under a notion of equal characters. *)
Definition lit_match (eqc : Z -> Z -> bool) (v text : pystr) (pos : nat) : option rmatch :=
  if (pos <=? length text)%nat && matches_at eqc v (drop pos text) then Some (RMatch pos (pos + length v) None) else None.

(** An empty literal has no match that is not empty. *)
Definition lit_match_past (eqc : Z -> Z -> bool) (v text : pystr) (pos : nat) : option rmatch :=
  match v with [] => None | _ => lit_match eqc v text pos end.

Lemma matches_at_length eqc v text : matches_at eqc v text = true -> (length v <= length text)%nat.
Proof.
  revert text. induction v as [|x v IH]; intros [|y text]; cbn; [lia..|done|]. intros [_ H]%andb_true_iff. apply IH in H. lia.
Qed.

Lemma lit_match_ends eqc v text pos m : lit_match eqc v text pos = Some m -> m_end m = (pos + length v)%nat.
Proof. unfold lit_match. destruct (_ && _); [|done]. by intros [= <-]. Qed.

Lemma lit_match_at eqc v text pos m : lit_match eqc v text pos = Some m -> match_at text pos m.
Proof.
  unfold lit_match. destruct (_ && _) eqn:E; [|done]. intros [= <-]. split; [done|]. split; [|done]. cbn.
  apply andb_true_iff in E as [Hp%Nat.leb_le Hm%matches_at_length]. rewrite length_drop in Hm. lia.
Qed.

Lemma lit_match_past_at eqc v text pos m : lit_match_past eqc v text pos = Some m -> match_at text pos m /\ (pos < m_end m)%nat.
Proof.
  destruct v as [|x v]; [done|]. intros H. split; [by apply lit_match_at in H|]. apply lit_match_ends in H. cbn in H. lia.
Qed.

Lemma lit_match_past_same eqc v text pos m : lit_match eqc v text pos = Some m -> (pos < m_end m)%nat ->
  lit_match_past eqc v text pos = Some m.
Proof. intros H. rewrite (lit_match_ends _ _ _ _ _ H). destruct v; [cbn; lia|done]. Qed.

Lemma lit_match_past_none eqc v text pos : lit_match eqc v text pos = None -> lit_match_past eqc v text pos = None.
Proof. by destruct v. Qed.

Definition lit_pattern (eqc : Z -> Z -> bool) (v : pystr) : pattern :=
  Pattern (lit_match eqc v) (lit_match_past eqc v) (lit_match_at eqc v) (lit_match_past_at eqc v)
    (lit_match_past_same eqc v) (lit_match_past_none eqc v).

Lemma lit_never_empty eqc v text : v <> [] -> never_empty (lit_pattern eqc v) text.
Proof. intros Hv pos m H. cbn in H. rewrite (lit_match_ends _ _ _ _ _ H). destruct v; [done|]. cbn. lia. Qed.

(** A rule of one literal. *)
Definition key_rule (name prefix : pystr) (anchors : list pystr) : rule :=
  Rule name (lit "KEY") (lit_pattern Z.eqb prefix) None 10 0 [[prefix]] false anchors false None None None.

Lemma matches_starts v text : matches_at Z.eqb v text = starts_with v text.
Proof. revert text. induction v as [|x v IH]; intros [|y text]; cbn; try done. by rewrite IH. Qed.

Lemma key_rule_match name prefix anchors text pos m : pmatch (r_pattern (key_rule name prefix anchors)) text pos = Some m ->
  m = RMatch pos (pos + length prefix) None /\ (pos <= length text)%nat /\ starts_with prefix (drop pos text) = true.
Proof.
  cbn. unfold lit_match. destruct (_ && _) eqn:E; [|done]. intros [= <-].
  apply andb_true_iff in E as [Hp%Nat.leb_le Hm]. by rewrite matches_starts in Hm.
Qed.

(** The declarations of a literal rule hold. *)
Lemma key_rule_declared lo name prefix anchors : prefix <> [] -> anchors = [] \/ anchors = [prefix] -> declared lo (key_rule name prefix anchors).
Proof.
  intros Hp0 Ha. split.
  - intros text pos m Hm. apply key_rule_match in Hm as (_ & Hp & Hs). cbn. rewrite orb_false_r, andb_true_r.
    apply fold_digits_keeps. by apply contains_sub_spec; exists pos.
  - intros Hne text pos m Hm. apply key_rule_match in Hm as (_ & Hp & Hs). destruct Ha as [-> | ->]; [done|]. cbn. by rewrite Hs.
  - intros _ text. by apply lit_never_empty.
  - done.
Qed.

Lemma key_rule_made name prefix anchors : well_made (key_rule name prefix anchors).
Proof. split; [vm_compute; reflexivity|done]. Qed.

(** ** The properties *)

(** A literal the text holds, its digit-folded haystack holds folded, at the same
    offsets. *)
Theorem fold_digits_keeps_literals l text : contains_sub l text = true ->
  contains_sub (fold_digits l) (fold_digits text) = true /\ length (fold_digits text) = length text.
Proof.
  intros H. split; [by apply fold_digits_keeps|]. apply length_map.
Qed.

Lemma fold_digits_keeps_literals_witness : contains_sub [65297; 46] [65; 65297; 46] = true /\
  contains_sub (fold_digits [65297; 46]) (fold_digits [65; 65297; 46]) = true.
Proof. split; [vm_compute; reflexivity|]. apply (fold_digits_keeps_literals [65297; 46]). vm_compute. reflexivity. Defined.

(** C22: for a rule whose declarations hold of its pattern -- each required group of
    literals is one a match needs, each match of an anchored rule starts with an anchor
    and is not empty, and an anchored rule has neither [resume] nor [inside] -- the
    prefiltered, anchored run is the full scan: the same matches, so the same detections
    or the same exception. *)
Theorem prefilter_and_anchors_exact str_lower r text : declared str_lower r ->
  detect_prepared str_lower r text = detect r text /\
  (r_anchors r <> [] -> anchored_matches str_lower r text = finditer (r_pattern r) text).
Proof. intros Hd. split; [by apply detect_prepared_same|by apply anchored_finditer]. Qed.

(** C39: the scan that reads on inside vetoed matches ends, with its matches or the
    validator's exception, after at most one search more than the text has characters
    (any more fuel gives the same), for a rule whose matches are never empty and that
    goes on past a vetoed match's first character, as the IBAN rule does. *)
Theorem resumed_scan_ends r f text : advances r f \/ (f = iban_resume /\ forall text, never_empty (r_pattern r) text) ->
  exists out, forall fuel, (length text < fuel)%nat -> resumed fuel r text f 0 = Some out.
Proof.
  intros H. destruct (resumed_ends_from r f text (S (length text)) 0) as [out Ho]; [|lia|by exists out; intros; apply Ho; lia].
  destruct H as [H|[-> Hn]]; [done|]. by apply iban_resume_advances.
Qed.

Lemma prefilter_and_anchors_exact_witness :
  detect_prepared (map ascii_lower) (key_rule (lit "sk") (lit "sk-") [lit "sk-"]) (lit "my sk-1") =
  detect (key_rule (lit "sk") (lit "sk-") [lit "sk-"]) (lit "my sk-1").
Proof. apply (prefilter_and_anchors_exact (map ascii_lower)). apply key_rule_declared; [done|by right]. Defined.

(** The word xx, vetoed where an a follows it: the search goes on inside it. *)
Definition veto_rule : rule :=
  Rule (lit "xx") (lit "KEY") (lit_pattern Z.eqb (lit "xx"))
    (Some (fun text m => Ok (negb (starts_with (lit "a") (drop (m_end m) text))))) 10 0 [] false [] false
    (Some (fun _ m => S (m_start m))) None None.

Lemma resumed_scan_ends_witness :
  resumed 7 veto_rule (lit "xxaxxx") (fun _ m => S (m_start m)) 0 = Some (Ok [RMatch 3 5 None]) /\
  exists out, forall fuel, (length (lit "xxaxxx") < fuel)%nat -> resumed fuel veto_rule (lit "xxaxxx") (fun _ m => S (m_start m)) 0 = Some out.
Proof.
  split; [vm_compute; reflexivity|]. apply (resumed_scan_ends veto_rule _ (lit "xxaxxx")). left. intros text m Hm. split; [|lia].
  by apply (lit_never_empty Z.eqb (lit "xx") text ltac:(done) _ m).
Defined.

(** ** Empty matches *)

(** The pattern (?=sk-)|sk-\w+ : it prefers the empty match where sk- stands. *)
Definition ahead_match (past : bool) (text : pystr) (pos : nat) : option rmatch :=
  if (pos <=? length text)%nat && starts_with (lit "sk-x") (drop pos text)
  then Some (RMatch pos (if past then pos + 4 else pos) None) else None.

Lemma ahead_match_at past text pos m : ahead_match past text pos = Some m ->
  match_at text pos m /\ m_end m = (if past then pos + 4 else pos)%nat.
Proof.
  unfold ahead_match. destruct (_ && _) eqn:E; [|done]. intros [= <-]. apply andb_true_iff in E as [Hp%Nat.leb_le Hs].
  rewrite <- matches_starts in Hs. apply matches_at_length in Hs. rewrite length_drop in Hs. cbn in Hs.
  split; [|done]. split_and!; [done|cbn; destruct past; lia..|done].
Qed.

Definition ahead_pattern : pattern.
Proof.
  refine (Pattern (ahead_match false) (ahead_match true) _ _ _ _).
  - intros text pos m H. by apply ahead_match_at in H as [H _].
  - intros text pos m H. apply ahead_match_at in H as [H E]. split; [done|]. rewrite E. lia.
  - intros text pos m H Hlt. apply ahead_match_at in H as [_ E]. rewrite E in Hlt. lia.
  - intros text pos. unfold ahead_match. by destruct (_ && _).
Defined.

Definition ahead_rule : rule :=
  Rule (lit "ahead") (lit "KEY") ahead_pattern None 10 0 [] false [lit "sk-"] false None None None.

(** After the empty match the iterator finds the value standing there; the anchored scan
    does not, so that [decl_nonempty] is needed. *)
Example anchored_scan_misses_after_empty :
  finditer ahead_pattern (lit "my sk-x") = [RMatch 3 3 None; RMatch 3 7 None] /\
  anchored_matches (map ascii_lower) ahead_rule (lit "my sk-x") = [RMatch 3 3 None].
Proof. split; vm_compute; reflexivity. Qed.
