(* ===== verification/Deny.v ===== *)
(** * Deny strings -- src/llm_redact/detection/deny.py

    Every configured value found as a substring, each entry on its own match stream.
    An escaped literal matches where the text's characters equal the value's, under
    the entry's notion of equality: the same code point, or [re.IGNORECASE]'s. *)

From S2P Require Import Prelude Placeholders Checksums Detection RegexDetector.

Record deny_entry := DenyEntry { d_value : pystr; case_sensitive : bool; d_type : pystr }.

Section Deny.
(** Whether two characters match under [re.IGNORECASE]. *)
Context (ci_eq : Z -> Z -> bool).

Definition same_char (e : deny_entry) : Z -> Z -> bool := if case_sensitive e then Z.eqb else ci_eq.

Definition deny_detection (e : deny_entry) (text : pystr) (m : rmatch) : detection :=
  mk_detection (Z.of_nat (m_start m)) (Z.of_nat (m_end m)) (d_type e) (group0 text m) 0 0 false [].

(** [DenyDetector.detect] *)
Definition deny_detect (entries : list deny_entry) (text : pystr) : list detection :=
  concat (map (fun e => map (deny_detection e text) (finditer (lit_pattern (same_char e) (d_value e)) text)) entries).

(** ** What it finds *)

Lemma deny_detect_sound entries text : Forall (fun e => is_placeholder_type (d_type e) = true) entries ->
  Forall (sound text) (deny_detect entries text) /\ Forall (fun d => tier d = 0) (deny_detect entries text).
Proof.
  intros He. unfold deny_detect.
  enough (H : Forall (fun d => sound text d /\ tier d = 0) (concat (map (fun e =>
    map (deny_detection e text) (finditer (lit_pattern (same_char e) (d_value e)) text)) entries)))
    by (split; eapply Forall_impl; [|exact H| |exact H]; cbn; tauto).
  apply Forall_concat, Forall_map. eapply list.Forall_impl; [exact He|]. intros e Ht. cbn beta. apply Forall_map.
  eapply list.Forall_impl; [apply finditer_spans|]. intros m (_ & Hb & _). split; [|done]. intros Hlt. cbn in Hlt.
  split; cbn; [unfold zlen; lia| |done]. unfold span_text, group0.
  rewrite pyslice_nat by (unfold zlen; lia). by rewrite Nat2Z.id, <- Nat2Z.inj_sub, Nat2Z.id by lia.
Qed.

(** Every deny string is found: each occurrence of an entry's value, under the
    entry's notion of equality, starts inside a detection of its type, which names a
    span of the text in tier 0. *)
Theorem deny_strings_found entries e text i : Forall (fun e => is_placeholder_type (d_type e) = true) entries ->
  e ∈ entries -> d_value e <> [] -> (i <= length text)%nat -> matches_at (same_char e) (d_value e) (drop i text) = true ->
  exists d, d ∈ deny_detect entries text /\ start d <= Z.of_nat i < stop d /\ detector_type d = d_type e /\
    tier d = 0 /\ valid text d.
Proof.
  intros Ht He Hv Hi Hm. destruct (deny_detect_sound entries text Ht) as [Hval Htier].
  assert (Hp : pmatch (lit_pattern (same_char e) (d_value e)) text i = Some (RMatch i (i + length (d_value e)) None)).
  { cbn. unfold lit_match. rewrite Hm. by rewrite (proj2 (Nat.leb_le _ _) Hi). }
  destruct (finditer_covers _ _ _ _ (lit_never_empty _ _ _ Hv) Hp) as (m & Hin & Hs & Hend). exists (deny_detection e text m).
  assert (Hd : deny_detection e text m ∈ deny_detect entries text).
  { unfold deny_detect. apply list_elem_of_In, in_concat. eexists. split; [apply in_map_iff; by exists e; split; [|by apply list_elem_of_In]|].
    apply in_map_iff. exists m. split; [done|by apply list_elem_of_In]. }
  split_and!; [done|cbn; lia|cbn; lia|done|done|]. eapply list.Forall_forall in Hval; [|exact Hd]. apply Hval. cbn. lia.
Qed.
End Deny.

Lemma deny_strings_found_witness : exists d, d ∈ deny_detect (fun x y => ascii_lower x =? ascii_lower y)
    [DenyEntry (lit "aurora") false (lit "DENY")] (lit "Project AURORAs") /\ start d <= 8 < stop d /\ detector_type d = lit "DENY" /\
  tier d = 0 /\ valid (lit "Project AURORAs") d.
Proof.
  apply (deny_strings_found (fun x y => ascii_lower x =? ascii_lower y) [DenyEntry (lit "aurora") false (lit "DENY")]
    (DenyEntry (lit "aurora") false (lit "DENY")) (lit "Project AURORAs") 8).
  - constructor; [vm_compute; reflexivity|constructor].
  - by left.
  - done.
  - cbn. lia.
  - vm_compute. reflexivity.
Defined.
