(* ===== verification/Overlaps.v ===== *)
(** * Overlap resolution -- src/llm_redact/redactor.py

    The pure functions that decide which of the detections of a text redaction
    acts on: the greedy sweep, the tiers, the additive detections cut around the
    others, and the joining of overlapping values. *)

From S2P Require Import Prelude Placeholders Detection.

(** ** The source's functions *)

Fixpoint sweep_from (last_end : Z) (detections : list detection) : list detection :=
  match detections with
  | [] => []
  | d :: ds => if last_end <=? start d then d :: sweep_from (stop d) ds else sweep_from last_end ds
  end.

Definition sweep (detections : list detection) : list detection := sweep_from (-1) detections.

Definition piece (d : detection) (a b : Z) : list detection :=
  let start' := Z.max a (start d) in
  let stop' := Z.min b (stop d) in
  let raw := if start' <? stop' then pyslice (value d) (start' - start d) (stop' - start d) else [] in
  let kept := strip raw in
  match kept with
  | [] => []
  | _ => let begin := start' + zlen raw - zlen (lstrip raw) in
         [mk_detection begin (begin + zlen kept) (detector_type d) kept (priority d) (tier d) false []]
  end.

(** The pieces of [d] between the winners it overlaps. *)
Fixpoint cut_around (d : detection) (cursor : Z) (winners : list detection) : list detection :=
  match winners with
  | [] => piece d cursor (stop d)
  | w :: ws => piece d cursor (start w) ++ cut_around d (stop w) ws
  end.

Definition outside (fixed spans : list detection) : list detection :=
  let ends := map stop fixed in
  let starts := map start fixed in
  flat_map (fun d =>
    let first := bisect_right ends (start d) 0 in
    let last := bisect_left starts (stop d) in
    if (last <=? first)%nat then [d]
    else cut_around d (start d) (take (last - first) (drop first fixed))) spans.

(** Phase 2's filter: [i] only moves forward ([lo=i]). *)
Fixpoint skip_denied (deny_chosen : list detection) (i : nat) (detections : list detection)
    : list detection :=
  match detections with
  | [] => []
  | d :: ds =>
      if tier d =? 0 then skip_denied deny_chosen i ds
      else
        let i := bisect_right (map stop deny_chosen) (start d) i in
        match deny_chosen !! i with
        | Some w => if start w <? stop d then skip_denied deny_chosen i ds
                    else d :: skip_denied deny_chosen i ds
        | None => d :: skip_denied deny_chosen i ds
        end
  end.

Definition resolve_tiers (detections : list detection) : list detection :=
  if forallb (fun d => negb (tier d =? 0)) detections then sweep detections
  else
    let deny_chosen := sweep (List.filter (fun d => tier d =? 0) detections) in
    let others := skip_denied deny_chosen 0 detections in
    sort_by start_le (deny_chosen ++ sweep others).

Definition additive (d : detection) : bool := tier d =? ADDITIVE_TIER.

Definition resolve_overlaps (detections : list detection) : list detection :=
  if forallb (fun d => negb (additive d)) detections then resolve_tiers detections
  else
    let fixed := resolve_tiers (List.filter (fun d => negb (additive d)) detections) in
    let added := sort_by sweep_le (List.filter additive detections) in
    sort_by start_le (fixed ++ outside fixed (sweep added)).

(** [_overlapping]: [ends[-1]] is the running end of the last run; the runs and
    each run are built in order. *)
Fixpoint runs_go (run : list detection) (run_end : Z) (spans : list detection) : list (list detection) :=
  match spans with
  | [] => [run]
  | d :: ds =>
      if start d <? run_end then runs_go (run ++ [d]) (Z.max run_end (stop d)) ds
      else run :: runs_go [d] (stop d) ds
  end.

Definition overlapping (spans : list detection) : list (list detection) :=
  match sort_by start_le spans with
  | [] => []
  | d :: ds => runs_go [d] (stop d) ds
  end.

Definition joins_others (d : detection) : bool := joins d || (tier d =? 0).

(** [max(d.end for d in run)] of a non-empty run. *)
Definition run_end (run : list detection) : Z :=
  match run with [] => 0 | d :: ds => fold_left (fun m d => Z.max m (stop d)) ds (stop d) end.

Definition joined (text : pystr) (run : list detection) : list detection :=
  match run with
  | [] => []
  | [first] => [first]
  | first :: _ =>
      [mk_detection (start first) (run_end run) (detector_type first)
         (span_text text (start first) (run_end run)) 100 0 false run]
  end.

Definition unite (text : pystr) (spans : list detection) : list detection :=
  flat_map (joined text) (overlapping spans).

Definition covering (text : pystr) (run : list detection) : list detection :=
  match run with
  | [] => []
  | first :: rest =>
      if forallb (fun d => (stop d <=? stop first) && (negb (tier d =? 0) || (tier first =? 0))) rest
      then [first] else joined text run
  end.

Definition clear_of (spans others : list detection) : list detection :=
  List.filter (fun d =>
    match spans !! bisect_right (map stop spans) (start d) 0 with
    | None => true
    | Some s => stop d <=? start s
    end) others.

(** The stretches that start-sorted spans cover together, as (start, end). *)
Fixpoint stretches (a b : Z) (spans : list detection) : list (Z * Z) :=
  match spans with
  | [] => [(a, b)]
  | d :: ds => if start d <=? b then stretches a (Z.max b (stop d)) ds
               else (a, b) :: stretches (start d) (stop d) ds
  end.

Definition merged (spans : list detection) : list (Z * Z) :=
  match spans with [] => [] | d :: ds => stretches (start d) (stop d) ds end.

Definition not_covered (spans values : list detection) : list detection :=
  let ss := merged spans in
  List.filter (fun d =>
    match ss !! bisect_right (map snd ss) (start d) 0 with
    | None => true
    | Some (a, b) => (start d <? a) || (b <? stop d)
    end) values.

(** ** The greedy sweep *)

Lemma sweep_from_spec ds : Forall nonempty ds -> forall last,
  disjoint_sorted (sweep_from last ds) /\ Forall (fun d => last <= start d) (sweep_from last ds) /\
  (forall d, d ∈ sweep_from last ds -> d ∈ ds).
Proof.
  induction 1 as [|d ds Hd Hds IH]; intros last; cbn [sweep_from].
  { split_and!; [split; constructor|constructor|done]. }
  destruct (Z.leb_spec last (start d)) as [Hle|Hgt].
  - destruct (IH (stop d)) as ([H1 H1'] & H2 & H3). split_and!.
    + split; constructor; auto.
    + constructor; [done|]. eapply Forall_impl; [|exact H2]. unfold nonempty in Hd. cbn. lia.
    + intros x [->|Hx]%elem_of_cons; set_solver.
  - destruct (IH last) as (H1 & H2 & H3). split_and!; [done..|]. set_solver.
Qed.

Lemma sweep_disjoint ds : Forall nonempty ds -> disjoint_sorted (sweep ds).
Proof. intros H. apply (sweep_from_spec ds H). Qed.

Lemma sweep_in ds d : Forall nonempty ds -> d ∈ sweep ds -> d ∈ ds.
Proof. intros H. by apply (sweep_from_spec ds H). Qed.

(** What the sweep drops starts inside a span it keeps. *)
Lemma sweep_from_hits ds : sorted_by start_le ds -> forall last d, d ∈ ds -> last <= start d ->
  exists c, c ∈ sweep_from last ds /\ (c = d \/ start c <= start d < stop c).
Proof.
  induction 1 as [|x ds Hs IH Hx]; intros last d Hd Hl; [by apply not_elem_of_nil in Hd|].
  cbn [sweep_from]. apply elem_of_cons in Hd as [->|Hd].
  - destruct (Z.leb_spec last (start x)); [|lia]. exists x. split; [by left|by left].
  - rewrite list.Forall_forall in Hx. pose proof (Hx d Hd) as Hxd. unfold start_le in Hxd. bool_simpl.
    destruct (Z.leb_spec last (start x)) as [Hle|Hgt]; [|by apply IH].
    destruct (Z_lt_dec (start d) (stop x)) as [Hin|Hout].
    + exists x. split; [by left|]. right. lia.
    + destruct (IH (stop x) d Hd) as (c & Hc & H); [lia|]. exists c. split; [by right|done].
Qed.

Lemma sweep_hits ds d : sorted_by start_le ds -> d ∈ ds -> 0 <= start d ->
  exists c, c ∈ sweep ds /\ (c = d \/ start c <= start d < stop c).
Proof. intros Hs Hd H0. apply sweep_from_hits; [done..|lia]. Qed.

(** ** The tiers *)

Lemma skip_denied_spec deny ds : disjoint_sorted deny -> sorted_by start_le ds -> Forall nonempty ds ->
  forall i, (i <= length deny)%nat ->
  (forall j w d, (j < i)%nat -> deny !! j = Some w -> d ∈ ds -> stop w <= start d) ->
  forall d, d ∈ skip_denied deny i ds <->
    d ∈ ds /\ tier d <> 0 /\ forall w, w ∈ deny -> apart w d.
Proof.
  intros Hdeny. induction 1 as [|x ds Hs IH Hx]; intros Hne i Hi Hpre d; cbn [skip_denied].
  { split; [intros H%not_elem_of_nil|intros [H%not_elem_of_nil _]]; done. }
  inversion Hne as [|?? Hnx Hnds]; subst. rewrite list.Forall_forall in Hx.
  destruct (Z.eqb_spec (tier x) 0) as [Ht|Ht].
  { rewrite IH; [|done..|intros; eapply Hpre; eauto; by right].
    rewrite elem_of_cons. split; [naive_solver|]. intros ([->|?] & ? & ?); [done|auto]. }
  pose proof (first_overlap deny x i Hdeny Hnx Hi) as Hfirst. specialize (Hfirst ltac:(intros;
    eapply Hpre; eauto; by left)).
  destruct (bisect_ends deny (start x) i Hdeny Hi) as (Hb1 & Hb2 & _).
  set (k := bisect_right (map stop deny) (start x) i) in *. cbv zeta.
  assert (Hpre' : forall j w d, (j < k)%nat -> deny !! j = Some w -> d ∈ ds -> stop w <= start d).
  { intros j w d' Hj Hw Hd'. specialize (Hx d' Hd'). unfold start_le in Hx. bool_simpl.
    destruct (decide (j < i)%nat).
    - pose proof (Hpre j w x ltac:(lia) Hw ltac:(by left)). lia.
    - pose proof (Hb2 j w ltac:(lia) Hw). lia. }
  assert (Hrec : d ∈ skip_denied deny k ds <-> d ∈ ds /\ tier d <> 0 /\ forall w, w ∈ deny -> apart w d)
    by (apply IH; [done|lia|done]).
  assert (Hkeep : (forall w, w ∈ deny -> apart w x) -> d ∈ x :: skip_denied deny k ds <->
    d ∈ x :: ds /\ tier d <> 0 /\ forall w, w ∈ deny -> apart w d).
  { intros Hap. rewrite !elem_of_cons, Hrec. split; [|naive_solver].
    intros [->|?]; naive_solver. }
  destruct (deny !! k) as [w|]; [|by apply Hkeep].
  destruct (start w <? stop x); [|by apply Hkeep]. rewrite Hrec, elem_of_cons. split; [naive_solver|].
  intros ([->|?] & ? & Hap); [|done]. destruct Hfirst as [Hw Hov]. by apply Hap, apart_overlap in Hw.
Qed.

Lemma skip_denied_sublist deny i ds : sublist (skip_denied deny i ds) ds.
Proof.
  revert i. induction ds as [|x ds IH]; intros i; cbn [skip_denied]; [constructor|].
  destruct (tier x =? 0); [by constructor|]. cbv zeta. destruct (deny !! _); [|by constructor].
  destruct (_ <? _); by constructor.
Qed.

Lemma sublist_sorted {A} (R : A -> A -> Prop) l l' : sublist l l' -> StronglySorted R l' -> StronglySorted R l.
Proof.
  induction 1 as [|x l l' Hsub IH|x l l' Hsub IH]; intros H; [done|inversion H; subst..].
  - constructor; [by apply IH|]. rewrite list.Forall_forall in *. intros y Hy.
    match goal with H : forall x, x ∈ l' -> _ |- _ => apply H end. by eapply elem_of_sublist.
  - by apply IH.
Qed.

Lemma filter_sublist' {A} (p : A -> bool) l : sublist (List.filter p l) l.
Proof. induction l as [|x l IH]; cbn; [constructor|]. destruct (p x); by constructor. Qed.

Lemma sublist_Forall {A} (P : A -> Prop) l l' : sublist l l' -> Forall P l' -> Forall P l.
Proof.
  rewrite !list.Forall_forall. intros Hs H x Hx. apply H. by eapply elem_of_sublist.
Qed.

Lemma sublist_start_sorted l l' : sublist l l' -> sorted_by start_le l' -> sorted_by start_le l.
Proof. apply sublist_sorted. Qed.

Lemma forallb_false_ex {A} (p : A -> bool) l : forallb p l = false -> exists x, x ∈ l /\ p x = false.
Proof.
  induction l as [|x l IH]; cbn; [done|]. destruct (p x) eqn:E; cbn; intros H.
  - destruct (IH H) as (y & ? & ?). exists y. split; [by right|done].
  - exists x. split; [by left|done].
Qed.

Lemma forallb_elem {A} (p : A -> bool) l x : forallb p l = true -> x ∈ l -> p x = true.
Proof. intros H Hx. rewrite forallb_forall in H. by apply H, list_elem_of_In. Qed.

(** The input the detector plan hands over: sorted, no empty span. *)
Record plan_order (ds : list detection) : Prop := {
  po_sorted : sorted_by start_le ds;
  po_nonempty : Forall nonempty ds;
  po_start : Forall (fun d => 0 <= start d) ds
}.

Lemma plan_order_sublist l l' : sublist l l' -> plan_order l' -> plan_order l.
Proof.
  intros Hs [H1 H2 H3]. split; [by eapply sublist_start_sorted|by eapply sublist_Forall..].
Qed.

Lemma plan_order_filter p ds : plan_order ds -> plan_order (List.filter p ds).
Proof. apply plan_order_sublist, filter_sublist'. Qed.

(** What a set of winners guarantees of the detections it is chosen from. *)
Record resolution (ds ws : list detection) : Prop := {
  res_disjoint : disjoint_sorted ws;
  res_in w : w ∈ ws -> w ∈ ds;
  res_hit d : d ∈ ds -> exists w, w ∈ ws /\ (w = d \/ overlap w d);
  res_deny d : d ∈ ds -> tier d = 0 ->
    exists w, w ∈ ws /\ tier w = 0 /\ (w = d \/ start w <= start d < stop w)
}.

Lemma sweep_resolution ds : plan_order ds -> Forall (fun d => tier d <> 0) ds -> resolution ds (sweep ds).
Proof.
  intros [Hs Hne H0] Ht. split.
  - by apply sweep_disjoint.
  - intros w. by apply sweep_in.
  - intros d Hd. rewrite list.Forall_forall in H0.
    destruct (sweep_hits ds d Hs Hd (H0 d Hd)) as (c & Hc & [->|H]); [by eauto|].
    exists c. split; [done|right]. rewrite list.Forall_forall in Hne. specialize (Hne d Hd).
    unfold overlap, nonempty in *. lia.
  - intros d Hd Hd0. rewrite list.Forall_forall in Ht. by apply Ht in Hd.
Qed.

Lemma resolve_tiers_resolution ds : plan_order ds -> resolution ds (resolve_tiers ds).
Proof.
  intros Ho. unfold resolve_tiers.
  destruct (forallb (fun d => negb (tier d =? 0)) ds) eqn:Hall.
  { apply sweep_resolution; [done|]. rewrite list.Forall_forall. intros d Hd.
    pose proof (forallb_elem _ _ _ Hall Hd) as H. cbv beta in H. bool_simpl. done. }
  clear Hall. set (deny_in := List.filter (fun d => tier d =? 0) ds).
  pose proof (plan_order_filter (fun d => tier d =? 0) ds Ho) as Hdo. fold deny_in in Hdo.
  pose proof Hdo as [Hds Hdn Hd0]. pose proof (sweep_disjoint _ Hdn) as Hdd.
  set (others := skip_denied (sweep deny_in) 0 ds).
  assert (Hsub : sublist others ds) by apply skip_denied_sublist.
  pose proof (plan_order_sublist _ _ Hsub Ho) as Hoo.
  assert (Hspec : forall d, d ∈ others <->
    d ∈ ds /\ tier d <> 0 /\ forall w, w ∈ sweep deny_in -> apart w d).
  { apply skip_denied_spec; [done|apply Ho..|lia|]. intros; lia. }
  assert (sweep_resolution' : resolution others (sweep others)).
  { apply sweep_resolution; [done|]. rewrite list.Forall_forall. intros d Hd. by apply Hspec. }
  destruct sweep_resolution' as [R1 R2 R3 _].
  assert (Hdeny0 : forall d, d ∈ sweep deny_in -> d ∈ ds /\ tier d = 0).
  { intros d Hd. apply sweep_in in Hd; [|done]. apply elem_filter in Hd as [??].
    split; [done|]. by apply Z.eqb_eq. }
  assert (Hin : forall w, w ∈ sort_by start_le (sweep deny_in ++ sweep others) <->
    w ∈ sweep deny_in \/ w ∈ sweep others) by (intros w; by rewrite sort_by_perm, elem_of_app).
  split.
  - apply merge_disjoint; [done..|]. intros x y Hx Hy. apply R2, Hspec in Hy as (_ & _ & Hap). auto.
  - intros w [Hw|Hw]%Hin; [by apply Hdeny0|by apply R2, Hspec in Hw as [? _]].
  - intros d Hd. setoid_rewrite Hin. destruct (decide (tier d = 0)) as [Ht|Ht].
    + assert (d ∈ deny_in) as Hdi by (apply elem_filter; split; [done|by apply Z.eqb_eq]).
      rewrite list.Forall_forall in Hd0. destruct (sweep_hits deny_in d Hds Hdi) as (c & Hc & Hcd); [auto|].
      exists c. split; [by left|]. destruct Hcd as [|Hcd]; [by left|right].
      destruct Ho as [_ Hne _]. rewrite list.Forall_forall in Hne. specialize (Hne d Hd).
      unfold overlap, nonempty in *. lia.
    + destruct (decide (Forall (fun w => ~ overlap w d) (sweep deny_in))) as [Hf|Hf].
      * assert (d ∈ others) as Hdo'.
        { apply Hspec. split_and!; [done..|]. intros w Hw. apply apart_overlap.
          rewrite list.Forall_forall in Hf. by apply Hf. }
        destruct (R3 d Hdo') as (w & ? & ?). eauto.
      * apply not_Forall_Exists, list.Exists_exists in Hf as (w & Hw & Hov); [|apply _].
        exists w. split; [by left|right]. by apply dec_stable.
  - intros d Hd Ht. setoid_rewrite Hin.
    assert (d ∈ deny_in) as Hdi by (apply elem_filter; split; [done|by apply Z.eqb_eq]).
    rewrite list.Forall_forall in Hd0. destruct (sweep_hits deny_in d Hds Hdi) as (c & Hc & Hcd); [auto|].
    exists c. split; [by left|]. split; [by apply Hdeny0|done].
Qed.

(** ** Additive detections *)

(** [i] holds a whitespace character of the text. *)
Definition space_at (text : pystr) (i : Z) : Prop :=
  exists c, text !! Z.to_nat i = Some c /\ is_space c = true.

(** Detections cut out of [d]: inside it, with its type, priority and tier. *)
Definition part_of (d p : detection) : Prop :=
  start d <= start p /\ stop p <= stop d /\ nonempty p /\
  detector_type p = detector_type d /\ priority p = priority d /\ tier p = tier d.

Lemma piece_spec text d a b : valid text d ->
  let s := Z.max a (start d) in
  let e := Z.min b (stop d) in
  (piece d a b = [] \/ exists p, piece d a b = [p] /\ valid text p /\ part_of d p /\
    s <= start p /\ stop p <= e) /\
  forall i, s <= i < e -> covered (piece d a b) i \/ space_at text i.
Proof.
  intros [Hsp Hv Hty] s e. unfold piece. fold s e.
  assert (0 <= start d <= s /\ e <= stop d <= zlen text) as Hbd by lia. clearbody s e.
  destruct (Z.ltb_spec s e) as [Hlt|Hge]; [|split; [by left|intros; lia]].
  set (raw := pyslice (value d) (s - start d) (e - start d)).
  assert (Hraw : raw = pyslice text s e).
  { unfold raw. rewrite Hv. unfold span_text. rewrite pyslice_pyslice by lia. f_equal; lia. }
  assert (Hlen : zlen raw = e - s) by (rewrite Hraw, zlen_pyslice; lia).
  destruct (strip_split raw) as (pre & post & Hsplit & Hl & Hpre & Hpost).
  assert (Hspace : forall i, s <= i < e -> i < s + zlen pre \/ s + zlen pre + zlen (strip raw) <= i ->
    space_at text i).
  { intros i Hi Hor. assert (text !! Z.to_nat i = raw !! Z.to_nat (i - s)) as Hc.
    { rewrite Hraw, pyslice_lookup by lia. done. }
    rewrite Hsplit in Hlen. rewrite !zlen_app in Hlen. unfold zlen in *.
    assert (exists c, raw !! Z.to_nat (i - s) = Some c /\ is_space c = true) as (c & Hc1 & Hc2).
    { rewrite Hsplit. destruct Hor as [Hlow|Hhigh].
      - rewrite lookup_app_l by lia. destruct (lookup_lt_is_Some_2 pre (Z.to_nat (i - s))) as [c Hc'];
          [lia|]. exists c. split; [done|]. apply (forallb_elem _ pre); [done|by eapply list_elem_of_lookup_2].
      - rewrite !lookup_app_r by lia.
        destruct (lookup_lt_is_Some_2 post (Z.to_nat (i - s) - length pre - length (strip raw))) as [c Hc'];
          [lia|]. exists c. split; [done|]. apply (forallb_elem _ post); [done|by eapply list_elem_of_lookup_2]. }
    exists c. by rewrite Hc. }
  rewrite Hsplit, !zlen_app in Hlen. cbv zeta. rewrite Hl.
  pose proof (zlen_nonneg pre). pose proof (zlen_nonneg post).
  rewrite (f_equal zlen Hsplit), !zlen_app.
  replace (s + (zlen pre + (zlen (strip raw) + zlen post)) - (zlen (strip raw) + zlen post))
    with (s + zlen pre) by lia.
  destruct (strip raw) as [|c k] eqn:Ek.
  - split; [by left|]. intros i Hi. right. apply Hspace; [done|]. change (zlen []) with 0. lia.
  - rewrite <- Ek in *. assert (0 < zlen (strip raw)) as Hk by (rewrite Ek; unfold zlen; cbn; lia).
    assert (Hval : strip raw = pyslice text (s + zlen pre) (s + zlen pre + zlen (strip raw))).
    { rewrite Hraw in Hsplit at 1. by apply pyslice_inner in Hsplit; [|lia..]. }
    split.
    + right. eexists. split; [done|]. split; [split; cbn; [lia|done|done]|].
      split; [|cbn; lia]. unfold part_of, nonempty. cbn. split_and!; done || lia.
    + intros i Hi. destruct (decide (s + zlen pre <= i < s + zlen pre + zlen (strip raw))) as [Hin|Hout].
      * left. eexists. split; [by left|]. done.
      * right. apply Hspace; [done|lia].
Qed.

Lemma covered_app a b i : covered (a ++ b) i <-> covered a i \/ covered b i.
Proof. unfold covered. setoid_rewrite elem_of_app. naive_solver. Qed.

Lemma covered_cons d ds i : covered (d :: ds) i <-> covers d i \/ covered ds i.
Proof. unfold covered. setoid_rewrite elem_of_cons. naive_solver. Qed.

Lemma disjoint_sorted_app a b : disjoint_sorted a -> disjoint_sorted b ->
  (forall x y, x ∈ a -> y ∈ b -> before x y) -> disjoint_sorted (a ++ b).
Proof. intros [H1 H2] [H3 H4] H. split; [by apply StronglySorted_app|by apply Forall_app]. Qed.

Lemma disjoint_sorted_one d : nonempty d -> disjoint_sorted [d].
Proof. intros H. split; repeat constructor. done. Qed.

Lemma disjoint_sorted_nil : disjoint_sorted [].
Proof. split; constructor. Qed.

Lemma disjoint_sorted_tail w ws : disjoint_sorted (w :: ws) ->
  disjoint_sorted ws /\ nonempty w /\ Forall (before w) ws.
Proof. intros [H1 H2]. inversion H1; inversion H2; subst. done. Qed.

#[export] Hint Resolve disjoint_sorted_nil disjoint_sorted_one : redact.

(** What the pieces of [d] beside the winners [ws] are. *)
Record cut_result (text : pystr) (d : detection) (from : Z) (ws ps : list detection) : Prop := {
  cut_disjoint : disjoint_sorted ps;
  cut_valid : Forall (valid text) ps;
  cut_part : Forall (part_of d) ps;
  cut_from : Forall (fun p => from <= start p) ps;
  cut_apart p w : p ∈ ps -> w ∈ ws -> apart p w;
  cut_cover i : covers d i -> from <= i -> covered ws i \/ covered ps i \/ space_at text i
}.

Lemma piece_list text d a b : valid text d -> let ps := piece d a b in
  disjoint_sorted ps /\ Forall (valid text) ps /\ Forall (part_of d) ps /\
  Forall (fun p => a <= start p) ps /\ Forall (fun p => stop p <= b) ps.
Proof.
  intros Hd ps. destruct (piece_spec text d a b Hd) as [[Hp|(p & Hp & Hv & Hpart & Hs & He)] _];
    unfold ps; rewrite Hp; [by split_and!; auto with redact|].
  rewrite !Forall_singleton. split_and!; [|done..|lia|lia]. apply disjoint_sorted_one, Hpart.
Qed.

Lemma cut_around_spec text d ws : valid text d -> disjoint_sorted ws -> forall from,
  Forall (fun w => from <= stop w) ws -> cut_result text d from ws (cut_around d from ws).
Proof.
  intros Hd. induction ws as [|w ws IH]; intros Hws from Hfrom; cbn [cut_around].
  - destruct (piece_list text d from (stop d) Hd) as (H1 & H2 & H3 & H4 & H5). split; try done.
    + by intros ?? _ Hn%not_elem_of_nil.
    + intros i Hi Hf. right. apply (piece_spec text d from (stop d) Hd). unfold covers in Hi. lia.
  - apply disjoint_sorted_tail in Hws as (Hws & Hnw & Hbw). inversion Hfrom as [|?? Hfw _]; subst.
    destruct (IH Hws (stop w)) as [R1 R2 R3 R4 R5 R6].
    { apply list.Forall_forall. intros w' Hw'. rewrite list.Forall_forall in Hbw.
      specialize (Hbw w' Hw'). destruct Hws as [_ Hws]. rewrite list.Forall_forall in Hws.
      specialize (Hws w' Hw'). unfold before in *. cbn in Hws. lia. }
    destruct (piece_list text d from (start w) Hd) as (H1 & H2 & H3 & H4 & H5).
    rewrite list.Forall_forall in H3, H5, R4, Hbw.
    assert (Hpw : forall p, p ∈ piece d from (start w) -> before p w) by (intros p Hp; apply H5; done).
    assert (Hwp : forall p, p ∈ cut_around d (stop w) ws -> before w p) by (intros p Hp; by apply R4).
    split.
    + apply disjoint_sorted_app; [done..|]. intros x y Hx Hy.
      specialize (Hpw x Hx). specialize (Hwp y Hy). unfold before, nonempty in *. lia.
    + by apply Forall_app.
    + apply Forall_app. split; [by apply list.Forall_forall|done].
    + apply Forall_app. split; [done|]. apply list.Forall_forall. intros p Hp. specialize (R4 p Hp). lia.
    + intros p w' [Hp|Hp]%elem_of_app [->|Hw']%elem_of_cons.
      * left. auto.
      * left. specialize (Hpw p Hp). specialize (Hbw w' Hw'). unfold before, nonempty in *. lia.
      * right. auto.
      * by apply R5.
    + intros i Hi Hf. rewrite covered_cons, covered_app.
      destruct (Z_lt_dec i (start w)).
      * destruct (piece_spec text d from (start w) Hd) as [_ Hc]. unfold covers in Hi.
        destruct (Hc i); [lia|auto..].
      * destruct (Z_lt_dec i (stop w)); [left; left; unfold covers; lia|].
        destruct (R6 i Hi) as [?|[?|?]]; [lia|auto..].
Qed.

Lemma list_slice_elem {A} (l : list A) i j x : x ∈ take (j - i) (drop i l) ->
  exists k, l !! k = Some x /\ (i <= k < j)%nat.
Proof.
  intros [k Hk]%list_elem_of_lookup_1. rewrite lookup_take in Hk. case_decide; [|done].
  rewrite lookup_drop in Hk. exists (i + k)%nat. split; [done|lia].
Qed.

Lemma disjoint_slice l i n : disjoint_sorted l -> disjoint_sorted (take n (drop i l)).
Proof.
  intros [H1 H2]. rewrite <- (take_drop i l) in H1, H2. apply StronglySorted_app in H1 as (_ & H1 & _).
  apply Forall_app in H2 as [_ H2]. rewrite <- (take_drop n (drop i l)) in H1, H2.
  apply StronglySorted_app in H1 as (H1 & _ & _). by apply Forall_app in H2 as [H2 _].
Qed.

(** The parts of one span that the winners leave. *)
Definition outside_one (fixed : list detection) (d : detection) : list detection :=
  let first := bisect_right (map stop fixed) (start d) 0 in
  let last := bisect_left (map start fixed) (stop d) in
  if (last <=? first)%nat then [d]
  else cut_around d (start d) (take (last - first) (drop first fixed)).

Lemma outside_one_spec text fixed d : valid text d -> disjoint_sorted fixed ->
  cut_result text d (start d) fixed (outside_one fixed d).
Proof.
  intros Hd Hfix. pose proof Hd as [Hsp _ _]. assert (Hne : nonempty d) by (unfold nonempty; lia).
  unfold outside_one. cbv zeta.
  destruct (bisect_ends fixed (start d) 0 Hfix ltac:(lia)) as (Ha1 & Ha2 & Ha3).
  destruct (bisect_starts fixed (stop d) Hfix) as (Hb1 & Hb2 & Hb3).
  set (i := bisect_right (map stop fixed) (start d) 0) in *.
  set (j := bisect_left (map start fixed) (stop d)) in *.
  assert (Hout : forall k w, fixed !! k = Some w -> ~ (i <= k < j)%nat -> apart w d).
  { intros k w Hk Hnot. destruct (decide (k < i)%nat).
    - left. apply (Ha2 k); [lia|done].
    - right. apply (Hb3 k); [lia|done]. }
  destruct (Nat.leb_spec j i) as [Hle|Hlt].
  - split; [by apply disjoint_sorted_one|by apply Forall_singleton|..].
    + constructor; [|done]. unfold part_of. split_and!; done || lia.
    + constructor; [lia|done].
    + intros p w ->%list_elem_of_singleton [k Hk]%list_elem_of_lookup_1. apply apart_sym, (Hout k); [done|lia].
    + intros x Hx _. right; left. exists d. split; [by left|done].
  - pose proof (disjoint_slice fixed i (j - i) Hfix) as Hmid.
    destruct (cut_around_spec text d _ Hd Hmid (start d)) as [R1 R2 R3 R4 R5 R6].
    { apply list.Forall_forall. intros w (k & Hk & Hik)%list_slice_elem.
      specialize (Ha3 k w ltac:(lia) Hk). lia. }
    split; try done.
    + intros p w Hp Hw. destruct (proj1 (list_elem_of_lookup _ _) Hw) as [k Hk].
      destruct (decide (i <= k < j)%nat) as [Hin|Hnin].
      * apply R5; [done|]. apply list_elem_of_lookup. exists (k - i)%nat.
        rewrite lookup_take_lt, lookup_drop by lia. rewrite <- Hk. f_equal. lia.
      * specialize (Hout k w Hk Hnin). rewrite list.Forall_forall in R3. specialize (R3 p Hp).
        unfold apart, before, part_of in *. lia.
    + intros x Hx Hf. destruct (R6 x Hx Hf) as [(w & Hw & Hc)|?]; [left|by right].
      exists w. split; [|done]. apply list_slice_elem in Hw as (k & Hk & _).
      by eapply list_elem_of_lookup_2.
Qed.

Lemma outside_eq fixed spans : outside fixed spans = flat_map (outside_one fixed) spans.
Proof. done. Qed.

Lemma outside_spec text fixed spans : disjoint_sorted fixed -> disjoint_sorted spans ->
  Forall (valid text) spans ->
  let ps := outside fixed spans in
  disjoint_sorted ps /\ Forall (valid text) ps /\
  (forall p, p ∈ ps -> exists d, d ∈ spans /\ part_of d p) /\
  (forall p w, p ∈ ps -> w ∈ fixed -> apart p w) /\
  (forall i, covered spans i -> covered fixed i \/ covered ps i \/ space_at text i).
Proof.
  intros Hfix Hsp Hval. rewrite outside_eq. induction spans as [|d ds IH]; cbn [flat_map]; cbv zeta.
  { split_and!; [auto with redact|done|by intros p Hn%not_elem_of_nil|by intros p w Hn%not_elem_of_nil|].
    by intros i (d & Hn%not_elem_of_nil & _). }
  apply disjoint_sorted_tail in Hsp as (Hds & Hnd & Hbd). inversion Hval as [|?? Hvd Hvds]; subst.
  destruct (IH Hds Hvds) as (R1 & R2 & R3 & R4 & R5).
  destruct (outside_one_spec text fixed d Hvd Hfix) as [S1 S2 S3 S4 S5 S6].
  rewrite list.Forall_forall in S3, Hbd. split_and!.
  - apply disjoint_sorted_app; [done..|]. intros x y Hx (d' & Hd' & Hpart)%R3.
    specialize (S3 x Hx). specialize (Hbd d' Hd'). unfold part_of, before in *. lia.
  - by apply Forall_app.
  - intros p [Hp|Hp]%elem_of_app; [exists d; split; [by left|auto]|].
    destruct (R3 p Hp) as (d' & ? & ?). exists d'. split; [by right|done].
  - intros p w [Hp|Hp]%elem_of_app; auto.
  - intros i. rewrite covered_cons, covered_app. intros [Hi|Hi].
    + destruct (S6 i Hi) as [?|[?|?]]; [unfold covers in Hi; lia|auto..].
    + destruct (R5 i Hi) as [?|[?|?]]; auto.
Qed.

Lemma Forall_sub {A} (P : A -> Prop) l l' : (forall x, x ∈ l -> x ∈ l') -> Forall P l' -> Forall P l.
Proof. rewrite !list.Forall_forall. auto. Qed.

Lemma filter_all {A} (p : A -> bool) l : (forall x, x ∈ l -> p x = true) -> List.filter p l = l.
Proof.
  induction l as [|x l IH]; intros H; cbn; [done|]. rewrite H by (by left). f_equal. apply IH.
  intros. apply H. by right.
Qed.

Lemma filter_none {A} (p : A -> bool) l : (forall x, x ∈ l -> p x = false) -> List.filter p l = [].
Proof.
  induction l as [|x l IH]; intros H; cbn; [done|]. rewrite H by (by left). apply IH.
  intros. apply H. by right.
Qed.

Lemma sorted_additive_order ds : plan_order ds ->
  plan_order (sort_by sweep_le (List.filter additive ds)).
Proof.
  intros [H1 H2 H3]. split.
  - apply sorted_sweep_start, sort_by_sorted; eauto with redact.
  - rewrite sort_by_perm. by eapply sublist_Forall; [apply filter_sublist'|].
  - rewrite sort_by_perm. by eapply sublist_Forall; [apply filter_sublist'|].
Qed.

(** The additive detections taken, in their own sweep. *)
Definition additive_taken (ds : list detection) : list detection :=
  sweep (sort_by sweep_le (List.filter additive ds)).

Lemma additive_taken_spec text ds : plan_order ds -> Forall (valid text) ds ->
  disjoint_sorted (additive_taken ds) /\ Forall (valid text) (additive_taken ds) /\
  forall d, d ∈ additive_taken ds -> d ∈ ds /\ additive d = true.
Proof.
  intros Ho Hv. pose proof (sorted_additive_order ds Ho) as [_ Hne _].
  assert (Hin : forall d, d ∈ additive_taken ds -> d ∈ ds /\ additive d = true).
  { intros d Hd. apply sweep_in in Hd; [|done]. rewrite sort_by_perm in Hd. by apply elem_filter in Hd. }
  split_and!; [by apply sweep_disjoint| |done]. eapply Forall_sub; [|done]. intros d Hd. by apply Hin.
Qed.

(** Winners with the additive detections taken in around them. *)
Lemma merge_additive text ws ds : disjoint_sorted ws -> Forall (valid text) ws ->
  (forall w, w ∈ ws -> additive w = false) -> plan_order ds -> Forall (valid text) ds ->
  let rs := sort_by start_le (ws ++ outside ws (additive_taken ds)) in
  disjoint_sorted rs /\ Forall (valid text) rs /\
  List.filter (fun d => negb (additive d)) rs = ws /\
  (forall r, r ∈ rs -> additive r = true -> exists d, d ∈ ds /\ additive d = true /\ part_of d r) /\
  (forall i, covered (additive_taken ds) i -> covered rs i \/ space_at text i).
Proof.
  intros Hws Hvw Hna Ho Hv rs. destruct (additive_taken_spec text ds Ho Hv) as (A1 & A2 & A3).
  destruct (outside_spec text ws (additive_taken ds) Hws A1 A2) as (O1 & O2 & O3 & O4 & O5).
  assert (Hadd : forall p, p ∈ outside ws (additive_taken ds) -> additive p = true).
  { intros p (d & Hd & Hpart)%O3. apply A3 in Hd as [_ Hd]. unfold additive, part_of in *.
    destruct Hpart as (_ & _ & _ & _ & _ & ->). done. }
  assert (Hin : forall x, x ∈ rs <-> x ∈ ws \/ x ∈ outside ws (additive_taken ds))
    by (intros x; unfold rs; by rewrite sort_by_perm, elem_of_app).
  split_and!.
  - apply merge_disjoint; [done..|]. intros x y Hx Hy. auto with redact.
  - unfold rs. rewrite sort_by_perm. by apply Forall_app.
  - unfold rs. rewrite filter_sort_by by eauto with redact. rewrite filter_app, filter_all, filter_none.
    + rewrite app_nil_r. by apply sort_by_id, disjoint_start_sorted.
    + intros p Hp. by rewrite Hadd.
    + intros w Hw. by rewrite Hna.
  - intros r [Hr|Hr]%Hin Ha; [by rewrite Hna in Ha|]. destruct (O3 r Hr) as (d & Hd & Hpart).
    apply A3 in Hd as [? ?]. eauto.
  - intros i Hi. destruct (O5 i Hi) as [(x & Hx & Hc)|[(x & Hx & Hc)|?]]; [left|left|by right];
      exists x; rewrite Hin; auto.
Qed.

Lemma resolve_overlaps_eq ds : plan_order ds ->
  resolve_overlaps ds =
    let ws := resolve_tiers (List.filter (fun d => negb (additive d)) ds) in
    sort_by start_le (ws ++ outside ws (additive_taken ds)).
Proof.
  intros Ho. unfold resolve_overlaps.
  destruct (forallb (fun d => negb (additive d)) ds) eqn:E; [|done]. cbv zeta.
  rewrite filter_all by (intros; by eapply (forallb_elem (fun d => negb (additive d)))).
  assert (List.filter additive ds = []) as Hn.
  { apply filter_none. intros d Hd. pose proof (forallb_elem _ _ _ E Hd) as H. cbv beta in H. by bool_simpl. }
  unfold additive_taken. rewrite Hn. cbn. rewrite app_nil_r. symmetry.
  by apply sort_by_id, disjoint_start_sorted, resolve_tiers_resolution.
Qed.

(** C23: overlap resolution gives disjoint, start-sorted winners that stand for
    the text they cover; an additive (model) detection only ever adds: without
    those the winners are exactly the winners of the other detections, and every
    character of an additive span the sweep took is covered by some winner or is
    whitespace. *)
Theorem resolve_overlaps_spec text ds : plan_order ds -> Forall (valid text) ds ->
  let rs := resolve_overlaps ds in
  disjoint_sorted rs /\ Forall (valid text) rs /\
  List.filter (fun d => negb (additive d)) rs
    = resolve_overlaps (List.filter (fun d => negb (additive d)) ds) /\
  (forall r, r ∈ rs -> additive r = true -> exists d, d ∈ ds /\ additive d = true /\ part_of d r) /\
  (forall i, covered (additive_taken ds) i -> covered rs i \/ space_at text i).
Proof.
  intros Ho Hv rs. set (fixed := List.filter (fun d => negb (additive d)) ds).
  assert (Hf : plan_order fixed) by (by apply plan_order_filter).
  destruct (resolve_tiers_resolution fixed Hf) as [R1 R2 _ _].
  assert (Hfv : Forall (valid text) (resolve_tiers fixed)).
  { eapply Forall_sub; [|done]. intros x Hx. apply R2 in Hx. by apply elem_filter in Hx as [? _]. }
  assert (Hna : forall w, w ∈ resolve_tiers fixed -> additive w = false).
  { intros w Hw. apply R2 in Hw. apply elem_filter in Hw as [_ Hw]. cbv beta in Hw. by bool_simpl. }
  assert (resolve_overlaps fixed = resolve_tiers fixed) as Hrf.
  { unfold resolve_overlaps. replace (forallb _ fixed) with true; [done|]. symmetry.
    apply forallb_forall. intros x Hx. by apply filter_In in Hx as [_ Hx]. }
  rewrite Hrf. unfold rs. rewrite resolve_overlaps_eq by done. by apply merge_additive.
Qed.

Lemma resolve_overlaps_sound text ds : plan_order ds -> Forall (valid text) ds ->
  disjoint_sorted (resolve_overlaps ds) /\ Forall (valid text) (resolve_overlaps ds).
Proof.
  intros Ho Hv. rewrite resolve_overlaps_eq by done. cbv zeta.
  destruct (resolve_tiers_resolution _ (plan_order_filter (fun d => negb (additive d)) ds Ho)) as [R1 R2 _ _].
  edestruct (merge_additive text _ ds R1) as (M1 & M2 & _); [| |exact Ho|exact Hv|done].
  - eapply Forall_sub; [|done]. intros x Hx%R2. by apply elem_filter in Hx as [? _].
  - intros w Hw%R2. apply elem_filter in Hw as [_ Hw]. cbv beta in Hw. by bool_simpl.
Qed.

Definition demo_detection (a b : Z) (ty : string) (text : pystr) (pr ti : Z) : detection :=
  mk_detection a b (lit ty) (span_text text a b) pr ti false [].

Lemma resolve_overlaps_spec_witness :
  let text := lit "call Jo Doe 555-1234 now" in
  let ds := [demo_detection 5 20 "PERSON" text 50 2; demo_detection 12 20 "PHONE" text 100 1] in
  let rs := resolve_overlaps ds in
  map value rs = [lit "Jo Doe"; lit "555-1234"] /\ disjoint_sorted rs.
Proof.
  intros text ds rs. split; [vm_compute; reflexivity|].
  apply (resolve_overlaps_spec text ds).
  - split; repeat constructor; unfold nonempty; cbn; lia.
  - repeat constructor; cbn; unfold zlen; cbn; lia.
Defined.

(** A deny string (tier 0) wins every overlap: each one found in the text is
    among the winners of [_resolve_tiers], or starts inside a deny winner; and
    nothing found is left without a winner overlapping it. *)
Theorem deny_always_wins ds d : plan_order ds -> d ∈ ds ->
  let rs := resolve_tiers ds in
  (exists w, w ∈ rs /\ (w = d \/ overlap w d)) /\
  (tier d = 0 -> exists w, w ∈ rs /\ tier w = 0 /\ (w = d \/ start w <= start d < stop w)).
Proof. intros Ho Hd rs. split; [|intros]; by apply (resolve_tiers_resolution ds Ho). Qed.

Lemma deny_always_wins_witness :
  let text := lit "project aurora report" in
  let rule := demo_detection 0 21 "CODE" text 10 1 in
  let deny := demo_detection 8 14 "DENY" text 0 0 in
  resolve_tiers [rule; deny] = [deny] /\
  exists w, w ∈ resolve_tiers [rule; deny] /\ tier w = 0 /\ (w = deny \/ start w <= start deny < stop w).
Proof.
  intros text rule deny. split; [vm_compute; reflexivity|].
  apply (deny_always_wins [rule; deny] deny); [|by right; left|done].
  split; repeat constructor; unfold nonempty; cbn; lia.
Defined.

(** ** Runs of overlapping spans *)

Lemma run_end_cons d ds : run_end (d :: ds) = fold_left (fun m d => Z.max m (stop d)) ds (stop d).
Proof. done. Qed.

Lemma run_end_snoc run d : run <> [] -> run_end (run ++ [d]) = Z.max (run_end run) (stop d).
Proof. destruct run as [|x run]; [done|]. intros _. cbn. by rewrite fold_left_app. Qed.

Lemma run_end_max run d : d ∈ run -> stop d <= run_end run.
Proof.
  destruct run as [|x run]; [by intros H%not_elem_of_nil|]. rewrite run_end_cons.
  assert (forall l m, m <= fold_left (fun m d => Z.max m (stop d)) l m /\
    forall d, d ∈ l -> stop d <= fold_left (fun m d => Z.max m (stop d)) l m) as Hf.
  { induction l as [|y l IH]; intros m; cbn; [split; [lia|by intros ? H%not_elem_of_nil]|].
    destruct (IH (Z.max m (stop y))) as [H1 H2]. split; [lia|].
    intros d' [->|Hd']%elem_of_cons; [lia|auto]. }
  destruct (Hf run (stop x)) as [H1 H2]. intros [->|Hd]%elem_of_cons; auto.
Qed.

Definition run_start (run : list detection) : Z := match run with [] => 0 | d :: _ => start d end.

(** A run: its spans cover one stretch without a gap. *)
Definition run_ok (run : list detection) : Prop :=
  run <> [] /\ Forall nonempty run /\ Forall (fun d => run_start run <= start d) run /\
  forall i, covered run i <-> run_start run <= i < run_end run.

Lemma run_ok_one d : nonempty d -> run_ok [d].
Proof.
  intros H. split_and!; [done|by apply Forall_singleton|by apply Forall_singleton; cbn|].
  intros i. unfold covered. setoid_rewrite list_elem_of_singleton. unfold covers. cbn. naive_solver.
Qed.

Lemma run_ok_snoc run d : run_ok run -> nonempty d -> run_start run <= start d -> start d < run_end run ->
  run_ok (run ++ [d]).
Proof.
  intros (Hne & Hn & Hs & Hc) Hd Hsd Hlt.
  assert (run_start (run ++ [d]) = run_start run) as Hst by (by destruct run). split_and!.
  - by destruct run.
  - apply Forall_app. split; [done|by apply Forall_singleton].
  - rewrite Hst. apply Forall_app. split; [done|by apply Forall_singleton].
  - intros i. rewrite Hst, run_end_snoc, covered_app, Hc by done.
    unfold covered. setoid_rewrite list_elem_of_singleton. unfold covers, nonempty in *.
    split; [intros [?|(? & -> & ?)]; lia|]. intros Hi.
    destruct (Z_lt_dec i (run_end run)); [left; lia|]. right. exists d. split; [done|lia].
Qed.

Definition runs_apart (r1 r2 : list detection) : Prop := run_end r1 <= run_start r2.

Lemma runs_go_spec spans : forall run, run_ok run -> sorted_by start_le (run ++ spans) ->
  Forall nonempty spans ->
  let rs := runs_go run (run_end run) spans in
  concat rs = run ++ spans /\ Forall run_ok rs /\ StronglySorted runs_apart rs /\
  Forall (fun r => run_start run <= run_start r) rs.
Proof.
  induction spans as [|d ds IH]; intros run Hr Hs Hne; cbn [runs_go]; cbv zeta.
  { cbn. split_and!; [done|by apply Forall_singleton|by repeat constructor|by apply Forall_singleton]. }
  inversion Hne as [|?? Hd Hds]; subst. pose proof Hr as (Hrne & _).
  assert (Hsd : run_start run <= start d).
  { destruct run as [|x run]; [done|]. inversion Hs as [|?? _ Hx]; subst.
    rewrite list.Forall_forall in Hx. specialize (Hx d ltac:(set_solver)). unfold start_le in Hx. cbn. lia. }
  destruct (Z.ltb_spec (start d) (run_end run)) as [Hlt|Hge].
  - rewrite <- run_end_snoc by done.
    assert (sorted_by start_le ((run ++ [d]) ++ ds)) as Hs' by (by rewrite <- app_assoc).
    destruct (IH (run ++ [d]) (run_ok_snoc _ _ Hr Hd Hsd Hlt) Hs' Hds) as (H1 & H2 & H3 & H4).
    rewrite <- app_assoc in H1. split_and!; [done..|]. by destruct run.
  - assert (sorted_by start_le ([d] ++ ds)) as Hs' by (by apply StronglySorted_app in Hs as (_ & ? & _)).
    destruct (IH [d] (run_ok_one d Hd) Hs' Hds) as (H1 & H2 & H3 & H4).
    change (run_end [d]) with (stop d) in *. change (run_start [d]) with (start d) in *.
    split_and!.
    + cbn [concat]. by rewrite H1.
    + by constructor.
    + constructor; [done|]. eapply Forall_impl; [|exact H4]. unfold runs_apart. cbn. lia.
    + constructor; [lia|]. eapply Forall_impl; [|exact H4]. cbn. lia.
Qed.

Lemma overlapping_spec spans : Forall nonempty spans ->
  concat (overlapping spans) = sort_by start_le spans /\ Forall run_ok (overlapping spans) /\
  StronglySorted runs_apart (overlapping spans).
Proof.
  intros Hne. pose proof (sort_start_sorted spans) as Hs. rewrite <- (sort_by_perm start_le) in Hne.
  unfold overlapping. destruct (sort_by start_le spans) as [|d ds]; [by repeat constructor|].
  inversion Hne as [|?? Hd Hds]; subst.
  destruct (runs_go_spec ds [d] (run_ok_one d Hd) Hs Hds) as (H1 & H2 & H3 & _). done.
Qed.

Lemma overlapping_in spans r d : Forall nonempty spans -> r ∈ overlapping spans -> d ∈ r -> d ∈ spans.
Proof.
  intros Hne Hr Hd. destruct (overlapping_spec spans Hne) as (Hc & _).
  rewrite <- (sort_by_perm start_le spans), <- Hc. apply list_elem_of_In, in_concat.
  exists r. split; by apply list_elem_of_In.
Qed.

(** One detection standing for a run: its whole stretch. *)
Definition stands_for (text : pystr) (run ds : list detection) : Prop :=
  exists d, ds = [d] /\ valid text d /\ start d = run_start run /\ stop d = run_end run.

Lemma joined_spec text run : run_ok run -> Forall (valid text) run -> stands_for text run (joined text run).
Proof.
  intros (Hne & Hn & Hs & _) Hv. destruct run as [|d [|d' run]]; [done|..].
  - exists d. inversion Hv; subst. by split_and!.
  - unfold joined. eexists. split; [done|]. split_and!; [|done..].
    inversion Hv as [|?? [Hd _ Hty] Hv']; subst.
    assert (Hmax : stop d <= run_end (d :: d' :: run)) by (apply run_end_max; by left).
    assert (Hlen : run_end (d :: d' :: run) <= zlen text).
    { assert (Hall : forall l m, m <= zlen text -> Forall (valid text) l ->
        fold_left (fun m d => Z.max m (stop d)) l m <= zlen text).
      { induction l as [|y l IH]; intros m Hm Hl; cbn; [done|]. inversion Hl as [|?? [Hy _ _] Hl']; subst.
        apply IH; [lia|done]. }
      rewrite run_end_cons. apply Hall; [lia|done]. }
    split; cbn [start stop value]; [lia|done|done].
Qed.

(** Detections standing for runs, one each. *)
Lemma stand_for_runs text f rs : Forall run_ok rs -> StronglySorted runs_apart rs ->
  (forall r, r ∈ rs -> stands_for text r (f r)) ->
  disjoint_sorted (flat_map f rs) /\ Forall (valid text) (flat_map f rs) /\
  forall i, covered (flat_map f rs) i <-> covered (concat rs) i.
Proof.
  induction 1 as [|r rs Hr Hrs IH]; intros Hs Hf; cbn [flat_map concat].
  { split_and!; [auto with redact|done..]. }
  inversion Hs as [|?? Hs' Hap]; subst.
  destruct (IH Hs') as (H1 & H2 & H3); [intros; apply Hf; by right|].
  destruct (Hf r) as (d & -> & Hv & Hst & Hen); [by left|]. destruct Hr as (_ & _ & _ & Hc).
  pose proof Hv as [Hsp _ _]. split_and!.
  - apply disjoint_sorted_app; [apply disjoint_sorted_one; unfold nonempty; lia|done|].
    intros x y ->%list_elem_of_singleton (r' & Hr' & Hy)%list_elem_of_In%in_flat_map.
    apply list_elem_of_In in Hr'.
    destruct (Hf r') as (d' & Hfr & _ & Hst' & _); [by right|]. rewrite Hfr in Hy.
    apply list_elem_of_In, list_elem_of_singleton in Hy as ->. rewrite list.Forall_forall in Hap.
    specialize (Hap r' Hr'). unfold before, runs_apart in *. lia.
  - by constructor.
  - intros i. rewrite !covered_app, H3, Hc. unfold covered. setoid_rewrite list_elem_of_singleton.
    unfold covers. split; [intros [(? & -> & ?)|?]; [left; lia|auto]|].
    intros [?|?]; [left; exists d; split; [done|lia]|auto].
Qed.

Lemma covered_perm a b i : Permutation a b -> covered a i <-> covered b i.
Proof. intros H. unfold covered. by setoid_rewrite H. Qed.

Lemma runs_valid text spans r : Forall (valid text) spans -> r ∈ overlapping spans -> Forall (valid text) r.
Proof.
  intros Hv Hr. eapply Forall_sub; [|exact Hv]. intros d Hd. eapply overlapping_in; [|done..].
  eapply Forall_impl; [|exact Hv]. intros x [H _ _]. unfold nonempty. lia.
Qed.

Lemma valid_nonempty text ds : Forall (valid text) ds -> Forall nonempty ds.
Proof. intros Hv. eapply Forall_impl; [|exact Hv]. intros x [H _ _]. unfold nonempty. lia. Qed.

Lemma unite_spec text spans : Forall (valid text) spans ->
  disjoint_sorted (unite text spans) /\ Forall (valid text) (unite text spans) /\
  forall i, covered (unite text spans) i <-> covered spans i.
Proof.
  intros Hv. destruct (overlapping_spec spans (valid_nonempty _ _ Hv)) as (Hc & Hok & Hap).
  destruct (stand_for_runs text (joined text) _ Hok Hap) as (H1 & H2 & H3).
  { intros r Hr. apply joined_spec; [|by eapply runs_valid].
    rewrite list.Forall_forall in Hok. by apply Hok. }
  split_and!; [done..|]. intros i. unfold unite. rewrite H3, Hc. apply covered_perm, sort_by_perm.
Qed.

Lemma covering_spec text run : run_ok run -> Forall (valid text) run ->
  stands_for text run (covering text run).
Proof.
  intros Hok Hv. pose proof Hok as (Hne & _). destruct run as [|d run]; [done|]. cbn [covering].
  destruct (forallb _ run) eqn:E; [|by apply joined_spec].
  inversion Hv as [|?? Hd _]; subst. exists d. split_and!; [done..|].
  rewrite run_end_cons.
  assert (Hg : forall l m, forallb (fun d' => (stop d' <=? m) && (negb (tier d' =? 0) || (tier d =? 0))) l = true ->
    m = fold_left (fun m d => Z.max m (stop d)) l m).
  { induction l as [|y l IH]; intros m H; cbn in *; [done|]. bool_simpl. rewrite Z.max_l by lia. by apply IH. }
  by apply Hg.
Qed.

(** ** Spans against disjoint spans *)

Lemma clear_of_spec spans others d : disjoint_sorted spans -> Forall nonempty others ->
  d ∈ clear_of spans others <-> d ∈ others /\ forall s, s ∈ spans -> apart s d.
Proof.
  intros Hs Hne. unfold clear_of. rewrite elem_filter. split.
  - intros [Hd Hk]. split; [done|]. rewrite list.Forall_forall in Hne.
    pose proof (first_overlap spans d 0 Hs (Hne d Hd) ltac:(lia) ltac:(intros; lia)) as Hf.
    destruct (spans !! _) as [s|]; [|done].
    replace (start s <? stop d) with false in Hf by lia. done.
  - intros [Hd Hap]. split; [done|]. rewrite list.Forall_forall in Hne.
    pose proof (first_overlap spans d 0 Hs (Hne d Hd) ltac:(lia) ltac:(intros; lia)) as Hf.
    destruct (spans !! _) as [s|]; [|done].
    destruct (Z.ltb_spec (start s) (stop d)) as [Hlt|]; [|lia].
    destruct Hf as [Hin Hov]. by apply Hap, apart_overlap in Hin.
Qed.

Lemma disjoint_same l x y : disjoint_sorted l -> x ∈ l -> y ∈ l -> overlap x y -> x = y.
Proof.
  intros Hd [i Hi]%list_elem_of_lookup_1 [j Hj]%list_elem_of_lookup_1 Hov.
  destruct (lt_eq_lt_dec i j) as [[Hlt| ->]|Hgt]; [|by simplify_eq|];
    [pose proof (disjoint_nth l i j x y Hd Hi Hj Hlt)|pose proof (disjoint_nth l j i y x Hd Hj Hi Hgt)];
    unfold before, overlap in *; lia.
Qed.

(** A character of a start-sorted list's spans lies in one of the merged
    stretches, and the stretches are covered without a gap. *)
Definition in_stretch (i : Z) (ab : Z * Z) : Prop := ab.1 <= i < ab.2.

Lemma stretches_spec ds : forall a b, sorted_by start_le ds -> Forall nonempty ds -> a < b ->
  Forall (fun d => a <= start d) ds ->
  let ss := stretches a b ds in
  StronglySorted (fun p q => p.2 < q.1) ss /\ Forall (fun p => p.1 < p.2) ss /\
  Forall (fun p => a <= p.1) ss /\
  forall i, Exists (in_stretch i) ss <-> a <= i < b \/ covered ds i.
Proof.
  induction ds as [|d ds IH]; intros a b Hs Hne Hab Ha; cbn [stretches]; cbv zeta.
  { split_and!; [by repeat constructor|by apply Forall_singleton|by apply Forall_singleton; cbn|].
    intros i. rewrite Exists_cons, Exists_nil. unfold in_stretch, covered. cbn.
    split; [intros [?|[]]; auto|intros [?|(? & H%not_elem_of_nil & _)]; auto]. }
  inversion Hs as [|?? Hs' Hd]; subst. inversion Hne as [|?? Hnd Hne']; subst.
  inversion Ha as [|?? Had Ha']; subst. unfold nonempty in Hnd.
  assert (Hds : Forall (fun x => start d <= start x) ds).
  { eapply Forall_impl; [|exact Hd]. unfold start_le. cbn. lia. }
  destruct (Z.leb_spec (start d) b) as [Hle|Hgt].
  - destruct (IH a (Z.max b (stop d)) Hs' Hne' ltac:(lia) Ha') as (H1 & H2 & H3 & H4).
    split_and!; [done..|]. intros i. rewrite H4, covered_cons. unfold covers.
    assert (a <= i < b `max` stop d <-> a <= i < b \/ start d <= i < stop d) by lia. tauto.
  - destruct (IH (start d) (stop d) Hs' Hne' Hnd Hds) as (H1 & H2 & H3 & H4). split_and!.
    + constructor; [done|]. eapply Forall_impl; [|exact H3]. cbn. lia.
    + by constructor.
    + constructor; [cbn; lia|]. eapply Forall_impl; [|exact H3]. cbn. lia.
    + intros i. rewrite Exists_cons, H4, covered_cons. done.
Qed.

Lemma merged_spec spans : sorted_by start_le spans -> Forall nonempty spans ->
  let ss := merged spans in
  StronglySorted (fun p q => p.2 < q.1) ss /\ Forall (fun p => p.1 < p.2) ss /\
  forall i, Exists (in_stretch i) ss <-> covered spans i.
Proof.
  intros Hs Hne. destruct spans as [|d ds]; cbn [merged]; cbv zeta.
  { split_and!; [constructor|done|]. intros i. rewrite Exists_nil. unfold covered.
    split; [done|]. by intros (? & Hn%not_elem_of_nil & _). }
  inversion Hs as [|?? Hs' Hd]; subst. inversion Hne as [|?? Hnd Hne']; subst.
  destruct (stretches_spec ds (start d) (stop d) Hs' Hne' Hnd) as (H1 & H2 & _ & H4).
  { eapply Forall_impl; [|exact Hd]. unfold start_le. cbn. lia. }
  split_and!; [done..|]. intros i. by rewrite H4, covered_cons.
Qed.

Lemma sorted_pairs_nth ss i j p q : StronglySorted (fun p q : Z * Z => p.2 < q.1) ss ->
  ss !! i = Some p -> ss !! j = Some q -> (i < j)%nat -> p.2 < q.1.
Proof.
  intros Hs. by apply (StronglySorted_nth (fun p q : Z * Z => p.2 < q.1)).
Qed.

Lemma nth_map_snd (ss : list (Z * Z)) i p : ss !! i = Some p -> nth i (map snd ss) 0 = p.2.
Proof.
  revert i. induction ss as [|q ss IH]; intros [|i] Hi; cbn in *; [done..| |by apply IH]. by simplify_eq.
Qed.

Lemma not_covered_spec spans values d : sorted_by start_le spans -> Forall nonempty spans ->
  nonempty d -> d ∈ not_covered spans values <->
    d ∈ values /\ exists i, covers d i /\ ~ covered spans i.
Proof.
  intros Hs Hne Hd. destruct (merged_spec spans Hs Hne) as (H1 & H2 & H3).
  unfold not_covered. cbv zeta. rewrite elem_filter. apply and_iff_compat_l.
  setoid_rewrite <- H3. clear H3. revert H1 H2. generalize (merged spans) as ss. intros ss H1 H2.
  rewrite list.Forall_forall in H2.
  assert (Hends : sorted_le (map snd ss)).
  { intros i j Hij. rewrite length_map in Hij.
    destruct (lookup_lt_is_Some_2 ss i) as [p Hp]; [lia|].
    destruct (lookup_lt_is_Some_2 ss j) as [q Hq]; [lia|].
    rewrite (nth_map_snd _ _ _ Hp), (nth_map_snd _ _ _ Hq).
    destruct (decide (i = j)) as [->|]; [simplify_eq; lia|].
    pose proof (sorted_pairs_nth _ i j _ _ H1 Hp Hq ltac:(lia)).
    pose proof (H2 q ltac:(by eapply list_elem_of_lookup_2)). cbn in *. lia. }
  destruct (bisect_right_spec (map snd ss) (start d) 0 Hends ltac:(lia)) as (B1 & B2 & B3).
  rewrite length_map in *. set (k := bisect_right (map snd ss) (start d) 0) in *.
  assert (Hlow : forall j p, (j < k)%nat -> ss !! j = Some p -> p.2 <= start d).
  { intros j p Hj Hp. rewrite <- (nth_map_snd _ _ _ Hp). apply B2. lia. }
  assert (Hno : forall i, (forall j p, ss !! j = Some p -> ~ in_stretch i p) -> ~ Exists (in_stretch i) ss).
  { intros i Hi (p & [j Hj]%list_elem_of_lookup_1 & Hp)%list.Exists_exists. by eapply Hi. }
  unfold nonempty, covers in *. destruct (ss !! k) as [[a b]|] eqn:Ek.
  - assert (Hb : start d < b).
    { pose proof (B3 k ltac:(apply lookup_lt_Some in Ek; lia)) as Hx. by rewrite (nth_map_snd _ _ _ Ek) in Hx. }
    assert (Hhigh : forall j p, (k < j)%nat -> ss !! j = Some p -> b < p.1)
      by (intros j p Hj Hp; apply (sorted_pairs_nth ss k j (a, b) p); done).
    split.
    + intros Hor. destruct (Z_lt_dec (start d) a) as [Ha|Ha].
      * exists (start d). split; [lia|]. apply Hno. intros j p Hj. unfold in_stretch.
        destruct (lt_eq_lt_dec j k) as [[Hlt| ->]|Hgt]; [|simplify_eq; cbn; lia|].
        { specialize (Hlow j p Hlt Hj). lia. }
        { specialize (Hhigh j p Hgt Hj). lia. }
      * exists b. split; [lia|]. apply Hno. intros j p Hj. unfold in_stretch.
        destruct (lt_eq_lt_dec j k) as [[Hlt| ->]|Hgt]; [|simplify_eq; cbn; lia|].
        { specialize (Hlow j p Hlt Hj). lia. }
        { specialize (Hhigh j p Hgt Hj). lia. }
    + intros (i & Hi & Hn). destruct (decide (a <= i < b)) as [Hin|Hout]; [|lia].
      exfalso. apply Hn, list.Exists_exists. exists (a, b). split; [by eapply list_elem_of_lookup_2|done].
  - split; [intros _|done]. exists (start d). split; [lia|]. apply Hno. intros j p Hj. unfold in_stretch.
    apply lookup_ge_None in Ek. pose proof (lookup_lt_Some _ _ _ Hj). specialize (Hlow j p ltac:(lia) Hj). lia.
Qed.
