(* ===== verification/DetectorPlan.v ===== *)
(** * The detector plan -- src/llm_redact/detection/engine.py

    A detector list compiled for one string at a time: which detectors a short text
    can skip, how each is run, the allowlist, and the order the redactor gets the
    detections in.  The counters of the model-backed detectors are the state. *)

From S2P Require Import Prelude Checksums Placeholders Detection RegexDetector Deny Overlaps.

Local Open Scope mon_scope.

(** ** The allowlist *)

Definition DEFAULT_ALLOWLIST : list pystr :=
  map lit ["127.0.0.1"; "0.0.0.0"; "255.255.255.255"; "::1"; "::"]%string.

(** [patterns] are the compiled patterns' [search(value) is not None]. *)
Record allowlist := Allowlist {
  exact : gset pystr;
  patterns : list (pystr -> bool);
  by_type : gmap pystr (gset pystr) }.

Definition allows (a : allowlist) (v : pystr) : bool :=
  if bool_decide (v ∈ exact a) then true else existsb (fun p => p v) (patterns a).

Definition allows_for (a : allowlist) (ty v : pystr) : bool :=
  if allows a v then true else bool_decide (v ∈ default ∅ (by_type a !! ty)).

(** ** Detectors *)

(** [NerStats]: the two counters the plan keeps. *)
Record ner_stats := NerStats { inline_calls : Z; prefetch_misses : Z }.

Section Plan.
(** [str.lower]; whether a pattern's source can be an alternation's member; the
    exceptions detectors raise, a rule's validator's among them. *)
Context (str_lower : pystr -> pystr) (combinable : pattern -> bool) {E : Type} (of_py : py_exc -> E).

(** A regex rule's detector; a model-backed one, with or without counters; any other
    (deny strings, plugin detectors). *)
Inductive detector : Type :=
  | DRegex (r : rule)
  | DHeavy (f : pystr -> result E (list detection)) (has_stats : bool)
  | DOther (f : pystr -> result E (list detection)).

(** [TypeFilteredDetector.detect] *)
Definition type_filtered (suppressed : gset pystr) (f : pystr -> result E (list detection)) (text : pystr) :
    result E (list detection) :=
  match f text with
  | Ok ds => Ok (List.filter (fun d => negb (bool_decide (detector_type d ∈ suppressed))) ds)
  | Raise e => Raise e
  end.

(** The counters, by detector index. *)
Abbreviation counters := (gmap nat ner_stats).
Abbreviation P := (M counters E).

Definition count_inline (index : nat) (c : counters) : counters :=
  alter (fun s => NerStats (inline_calls s + 1) (prefetch_misses s)) index c.

Definition count_miss (index : nat) (c : counters) : counters :=
  alter (fun s => NerStats (inline_calls s) (prefetch_misses s + 1)) index c.

Definition of_res {A} (m : res A) : result E A := match m with Ok a => Ok a | Raise e => Raise (of_py e) end.

(** [_runner] and [_inline]: a heavy detector's call is counted whether it returns or
    raises. *)
Definition runner (index : nat) (det : detector) (text : pystr) : P (list detection) :=
  match det with
  | DRegex r => fun c => (of_res (detect_prepared str_lower r text), c)
  | DHeavy f _ => fun c => (f text, count_inline index c)
  | DOther f => fun c => (f text, c)
  end.

(** ** Building the plan *)

(** [min(len(lit) for lit in group)] *)
Definition shortest (group : list pystr) : nat :=
  match group with [] => O | l :: ls => fold_left Nat.min (map length ls) (length l) end.

(** [max(required, key=...)]: the first of the greatest. *)
Definition gate_group (required : list (list pystr)) : list pystr :=
  match required with
  | [] => []
  | g :: gs => fold_left (fun best g => if (shortest best <? shortest g)%nat then g else best) gs g
  end.

Abbreviation table := (gmap Z (gmap pystr (list nat))).

(** [table.setdefault(lit[0], {}).setdefault(lit, []).append(index)] *)
Definition table_add (index : nat) (t : table) (l : pystr) : table :=
  match l with
  | [] => t
  | c :: _ =>
      let inner := default ∅ (t !! c) in
      <[c := <[l := default [] (inner !! l) ++ [index]]> inner]> t
  end.

Record gates := Gates { cs : table; ci : table; always : list nat; members : list (nat * pattern) }.

(** One detector of the constructor's loop. *)
Definition gate_step (g : gates) (entry : nat * detector) : gates :=
  let '(index, det) := entry in
  let always_too := Gates (cs g) (ci g) (always g ++ [index]) (members g) in
  match det with
  | DRegex r =>
      match required_of r with
      | [] => if combinable (r_pattern r)
              then Gates (cs g) (ci g) (always g) (members g ++ [(index, r_pattern r)]) else always_too
      | _ :: _ =>
          let gate := gate_group (required_of r) in
          if existsb (fun l => bool_decide (l = [])) gate then always_too
          else if r_required_ci r then Gates (cs g) (fold_left (table_add index) gate (ci g)) (always g) (members g)
          else Gates (fold_left (table_add index) gate (cs g)) (ci g) (always g) (members g)
      end
  | _ => always_too
  end.

(** [enumerate(self.detectors)] *)
Definition enumerate (dets : list detector) : list (nat * detector) := imap (fun i d => (i, d)) dets.

Definition gates_of (dets : list detector) : gates := fold_left gate_step (enumerate dets) (Gates ∅ ∅ [] []).

(** The loop over one table: the rules gated by a literal the haystack holds, looked
    up by the haystack's characters. *)
Definition gated_by (t : table) (hay : pystr) : list nat :=
  concat (map (fun e : Z * gmap pystr (list nat) => if mem_char e.1 hay then
      concat (map (fun le : pystr * list nat => if contains_sub le.1 hay then le.2 else []) (map_to_list e.2)) else [])
    (map_to_list t)).

(** [self._combined.search(text)]: an alternation matches where a member does. *)
Definition combined_search (ms : list (nat * pattern)) (text : pystr) : bool :=
  existsb (fun m => match search m.2 text 0 with Some _ => true | None => false end) ms.

(** A table that is empty is not looked up, so its haystack is not computed. *)
Definition candidates (dets : list detector) (text : pystr) : list nat :=
  let g := gates_of dets in
  let chosen := always g ++ gated_by (cs g) (haystack str_lower false text) ++ gated_by (ci g) (haystack str_lower true text) ++
    (if combined_search (members g) text then map fst (members g) else []) in
  sort_by Nat.leb (remove_dups chosen).

(** ** Running it *)

Definition GATED_MAX_CHARS : nat := 1024.

Definition kept (a : allowlist) (d : detection) : bool :=
  (start d <? stop d) && ((tier d =? 0) || negb (allows_for a (detector_type d) (value d))).

(** The loop of [_run]. *)
Fixpoint run_each (dets : list detector) (a : allowlist) (pre : option (gmap nat (list detection))) (missed : bool)
    (text : pystr) (order : list nat) : P (list detection) :=
  match order with
  | [] => mret []
  | index :: order =>
      found <~ match pre ≫= (fun t => t !! index), dets !! index with
               | Some found, _ => mret found
               | None, Some det =>
                   (if missed then mmodify (count_miss index) else mret tt) ;;; runner index det text
               | None, None => mret []
               end ;;
      rest <~ run_each dets a pre missed text order ;;
      mret (List.filter (kept a) found ++ rest)
  end.

Definition run_plan (dets : list detector) (order : list nat) (text : pystr) (a : allowlist)
    (pre : option (gmap nat (list detection))) (missed : bool) : P (list detection) :=
  ds <~ run_each dets a pre missed text order ;;
  mret (sort_by sweep_le ds).

Definition every (dets : list detector) : list nat := seq 0 (length dets).

Definition order_for (gated_max_chars : nat) (dets : list detector) (text : pystr) : list nat :=
  if (gated_max_chars <? length text)%nat then every dets else candidates dets text.

Definition plan_detect (gated_max_chars : nat) (dets : list detector) (text : pystr) (a : allowlist)
    (pre : option (gmap nat (list detection))) (missed : bool) : P (list detection) :=
  run_plan dets (order_for gated_max_chars dets text) text a pre missed.

Definition detect_each (dets : list detector) (text : pystr) (a : allowlist) : P (list detection) :=
  run_plan dets (every dets) text a None false.

(** [heavy_indices] and [detect_heavy] *)
Definition heavy_fun (d : detector) : option (pystr -> result E (list detection)) :=
  match d with DHeavy f _ => Some f | _ => None end.

Fixpoint detect_heavy_from (i : nat) (dets : list detector) (text : pystr) : result E (gmap nat (list detection)) :=
  match dets with
  | [] => Ok ∅
  | d :: dets =>
      match heavy_fun d with
      | None => detect_heavy_from (S i) dets text
      | Some f =>
          match f text with
          | Raise e => Raise e
          | Ok ds => match detect_heavy_from (S i) dets text with Ok t => Ok (<[i := ds]> t) | Raise e => Raise e end
          end
      end
  end.

Definition detect_heavy (dets : list detector) (text : pystr) : result E (gmap nat (list detection)) :=
  detect_heavy_from 0 dets text.

(** [detect_sourced]: each candidate run by itself, its detections named. *)
Fixpoint sourced_each {S : Type} (sources : nat -> S) (dets : list detector) (a : allowlist)
    (pre : option (gmap nat (list detection))) (missed : bool) (text : pystr) (order : list nat) : P (list (detection * S)) :=
  match order with
  | [] => mret []
  | index :: order =>
      ds <~ run_plan dets [index] text a pre missed ;;
      rest <~ sourced_each sources dets a pre missed text order ;;
      mret (map (fun d => (d, sources index)) ds ++ rest)
  end.

Definition detect_sourced {S : Type} (sources : nat -> S) (gated_max_chars : nat) (dets : list detector) (text : pystr)
    (a : allowlist) (pre : option (gmap nat (list detection))) (missed : bool) : P (list (detection * S)) :=
  found <~ sourced_each sources dets a pre missed text (order_for gated_max_chars dets text) ;;
  mret (sort_by (fun x y => sweep_le x.1 y.1) found).

(** ** The gate *)

Lemma contains_head c l hay : contains_sub (c :: l) hay = true -> mem_char c hay = true.
Proof.
  unfold contains_sub. destruct (find_sub (c :: l) hay) as [i|] eqn:Ef; [|done]. intros _. revert i Ef.
  induction hay as [|x hay IH]; intros i; cbn [find_sub starts_with]; [done|]. rewrite mem_char_cons.
  destruct (Z.eqb_spec c x) as [-> |]; [done|]. cbn. destruct (find_sub (c :: l) hay) as [j|] eqn:Ef; [|done].
  intros _. by eapply IH.
Qed.

(** The index stands in the table under a character and a literal. *)
Definition held (t : table) (c : Z) (l : pystr) (i : nat) : Prop :=
  exists inner ixs, t !! c = Some inner /\ inner !! l = Some ixs /\ i ∈ ixs.

Lemma held_default t c l i : held t c l i <-> i ∈ default [] (default ∅ (t !! c) !! l).
Proof.
  unfold held. destruct (t !! c) as [inner|]; cbn.
  - destruct (inner !! l) as [ixs|] eqn:El; cbn; [naive_solver|].
    split; [intros (? & ? & [= <-] & ? & ?); congruence|by intros ?%elem_of_nil].
  - rewrite lookup_empty. cbn. split; [by intros (? & ? & ? & _)|by intros ?%elem_of_nil].
Qed.

Lemma held_add index t l c' l' i : held (table_add index t l) c' l' i <->
  held t c' l' i \/ (l' = l /\ i = index /\ hd_error l = Some c').
Proof.
  destruct l as [|c u]; [cbn; naive_solver|]. cbn [table_add hd_error]. rewrite !held_default.
  destruct (decide (c = c')) as [<-|Hc].
  - rewrite lookup_insert_eq. cbn [from_option id]. destruct (decide (l' = c :: u)) as [-> |Hl].
    + rewrite lookup_insert_eq. cbn [from_option id].
      rewrite elem_of_app, list_elem_of_singleton. tauto.
    + rewrite lookup_insert_ne by done. tauto.
  - rewrite lookup_insert_ne by done. split; [tauto|]. intros [?|(_ & _ & [= ?])]; done.
Qed.

Lemma held_add_all index gate t c l i : held (fold_left (table_add index) gate t) c l i <->
  held t c l i \/ (l ∈ gate /\ i = index /\ hd_error l = Some c).
Proof.
  revert t. induction gate as [|g gate IH]; intros t; cbn [fold_left]; [set_solver|].
  rewrite IH, held_add, elem_of_cons. naive_solver.
Qed.

Lemma gated_by_spec t hay i : i ∈ gated_by t hay <-> exists c l, held t c l i /\ mem_char c hay = true /\ contains_sub l hay = true.
Proof.
  unfold gated_by, held. rewrite list_elem_of_In, in_concat. setoid_rewrite in_map_iff. split.
  - intros (l & ([c inner] & <- & Hin) & Hi). cbn in Hi. apply list_elem_of_In, elem_of_map_to_list in Hin.
    destruct (mem_char c hay) eqn:Ec; [|done]. apply in_concat in Hi as (l & Hl & Hi). apply in_map_iff in Hl as ([l' ixs] & <- & Hl).
    cbn in Hi. apply list_elem_of_In, elem_of_map_to_list in Hl. destruct (contains_sub l' hay) eqn:El; [|done].
    exists c, l'. split_and!; [|done|done]. exists inner, ixs. split_and!; [done|done|by apply list_elem_of_In].
  - intros (c & l & (inner & ixs & Hc & Hl & Hi) & Hch & Hsub). eexists. split.
    + exists (c, inner). split; [done|]. by apply list_elem_of_In, elem_of_map_to_list.
    + cbn. rewrite Hch. apply in_concat. eexists. split.
      * apply in_map_iff. exists (l, ixs). split; [done|]. by apply list_elem_of_In, elem_of_map_to_list.
      * cbn. rewrite Hsub. by apply list_elem_of_In.
Qed.

Lemma gate_group_in required : required <> [] -> gate_group required ∈ required.
Proof.
  destruct required as [|g gs]; [done|]. intros _. unfold gate_group.
  enough (H : forall gs b, fold_left (fun best g => if (shortest best <? shortest g)%nat then g else best) gs b ∈ b :: gs) by apply H.
  clear. induction gs as [|x gs IH]; intros b; cbn [fold_left]; [by left|].
  destruct (_ <? _)%nat; [right; apply IH|]. specialize (IH b). rewrite elem_of_cons in IH.
  destruct IH as [-> |IH]; [by left|right; by right].
Qed.

(** How the gate accounts for a detector. *)
Definition gate_ok (g : gates) (e : nat * detector) : Prop :=
  e.1 ∈ always g \/
  match e.2 with
  | DRegex r =>
      (e.1, r_pattern r) ∈ members g \/
      exists gate, gate ∈ required_of r /\ forall l, l ∈ gate ->
        exists c, hd_error l = Some c /\ held (if r_required_ci r then ci g else cs g) c l e.1
  | _ => False
  end.

Definition indices_below (n : nat) (g : gates) : Prop :=
  (forall i, i ∈ always g -> (i < n)%nat) /\ (forall m, m ∈ members g -> (m.1 < n)%nat) /\
  (forall c l i, held (cs g) c l i \/ held (ci g) c l i -> (i < n)%nat).

Lemma gate_step_ok g e : gate_ok (gate_step g e) e.
Proof.
  destruct e as [i [r|f b|f]]; unfold gate_ok; cbn; [|left; cbn; set_solver..].
  destruct (required_of r) as [|g0 gs] eqn:Er.
  - destruct (combinable (r_pattern r)); cbn; [right; left|left]; set_solver.
  - destruct (existsb _ _) eqn:Ex; [left; cbn; set_solver|]. right. right.
    assert (Hne : forall l, l ∈ gate_group (g0 :: gs) -> l <> []).
    { intros l Hl ->. assert (Ht : existsb (fun l => bool_decide (l = [])) (gate_group (g0 :: gs)) = true); [|congruence].
      apply existsb_exists. exists []. split; [by apply list_elem_of_In|done]. }
    exists (gate_group (g0 :: gs)). split; [by apply gate_group_in|]. intros l Hl.
    destruct l as [|c u] eqn:El; [by apply Hne in Hl|]. exists c. split; [done|].
    destruct (r_required_ci r); cbn; apply held_add_all; right; done.
Qed.

Lemma gate_step_mono g e e' : gate_ok g e -> gate_ok (gate_step g e') e.
Proof.
  assert (Hs : (forall i, i ∈ always g -> i ∈ always (gate_step g e')) /\ (forall m, m ∈ members g -> m ∈ members (gate_step g e')) /\
    (forall c l i, held (cs g) c l i -> held (cs (gate_step g e')) c l i) /\
    (forall c l i, held (ci g) c l i -> held (ci (gate_step g e')) c l i)).
  { destruct e' as [i [r|f b|f]]; cbn; [|split_and!; cbn; set_solver..].
    destruct (required_of r); [destruct (combinable _); split_and!; cbn; set_solver|].
    destruct (existsb _ _); [split_and!; cbn; set_solver|].
    destruct (r_required_ci r); split_and!; cbn; try done; intros; apply held_add_all; by left. }
  destruct Hs as (Ha & Hm & Hcs & Hci). unfold gate_ok. intros [H|H]; [left; by apply Ha|right].
  destruct e.2; [|done..]. destruct H as [H|(gate & Hg & H)]; [left; by apply Hm|right].
  exists gate. split; [done|]. intros l Hl. destruct (H l Hl) as (c & Hc & Hh). exists c. split; [done|].
  destruct (r_required_ci r); auto.
Qed.

Lemma gate_step_below n g e : indices_below n g -> (e.1 < n)%nat -> indices_below n (gate_step g e).
Proof.
  intros (Ha & Hm & Hh) He. destruct e as [i d]. cbn in He.
  assert (Hal : forall j, j ∈ always g ++ [i] -> (j < n)%nat).
  { intros j [Hj| ->%list_elem_of_singleton]%elem_of_app; auto. }
  destruct d as [r|f b|f]; cbn; [|split_and!; cbn; auto..].
  destruct (required_of r) as [|g0 gs].
  - destruct (combinable _); split_and!; cbn; auto. intros m [Hx| ->%list_elem_of_singleton]%elem_of_app; auto.
  - destruct (existsb _ _); [split_and!; cbn; auto|].
    destruct (r_required_ci r); split_and!; cbn; auto; intros c l j [H|H]; eauto;
      apply held_add_all in H as [H|(_ & -> & _)]; eauto.
Qed.

Lemma fold_gates es : forall g n, indices_below n g -> Forall (fun e => (e.1 < n)%nat) es ->
  indices_below n (fold_left gate_step es g) /\
  forall e, e ∈ es \/ gate_ok g e -> gate_ok (fold_left gate_step es g) e.
Proof.
  induction es as [|x es IH]; intros g n Hb Hes; cbn [fold_left]; [split; [done|set_solver]|].
  apply list.Forall_cons_1 in Hes as [Hx Hes]. destruct (IH (gate_step g x) n) as [H1 H2]; [by apply gate_step_below|done|].
  split; [done|]. intros e [[-> |He]%elem_of_cons|He]; apply H2; [right; apply gate_step_ok|by left|right; by apply gate_step_mono].
Qed.

Lemma gates_spec dets : indices_below (length dets) (gates_of dets) /\
  forall i d, dets !! i = Some d -> gate_ok (gates_of dets) (i, d).
Proof.
  unfold gates_of. destruct (fold_gates (enumerate dets) (Gates ∅ ∅ [] []) (length dets)) as [H1 H2].
  - split_and!; cbn; [set_solver..|]. intros c l i [(inner & ixs & H & _)|(inner & ixs & H & _)]; by rewrite lookup_empty in H.
  - apply list.Forall_forall. intros [i d] Hin. apply list_elem_of_lookup in Hin as [j Hj].
    unfold enumerate in Hj. rewrite list_lookup_imap in Hj. destruct (dets !! j) eqn:Ej; cbn in Hj; [|done].
    injection Hj as <- <-. by apply lookup_lt_Some in Ej.
  - split; [done|]. intros i d Hd. apply H2. left. apply list_elem_of_lookup. exists i.
    unfold enumerate. by rewrite list_lookup_imap, Hd.
Qed.

(** ** The gated path *)

Definition chosen (dets : list detector) (text : pystr) : list nat :=
  let g := gates_of dets in
  always g ++ gated_by (cs g) (haystack str_lower false text) ++ gated_by (ci g) (haystack str_lower true text) ++
    (if combined_search (members g) text then map fst (members g) else []).

Lemma chosen_below dets text i : i ∈ chosen dets text -> (i < length dets)%nat.
Proof.
  destruct (gates_spec dets) as [(Ha & Hm & Hh) _]. unfold chosen. rewrite !elem_of_app, !gated_by_spec.
  intros [H|[(c & l & H & _)|[(c & l & H & _)|H]]]; [by apply Ha|by eapply Hh; left|by eapply Hh; right|].
  destruct (combined_search _ _); [|set_solver]. apply list_elem_of_In, in_map_iff in H as (m & <- & H%list_elem_of_In). by apply Hm.
Qed.

Lemma candidates_filter dets text : candidates dets text =
  List.filter (fun i => bool_decide (i ∈ chosen dets text)) (every dets).
Proof.
  apply sorted_set_filter. intros i. rewrite bool_decide_eq_true. fold (chosen dets text). split; [|tauto].
  intros H. split; [by eapply chosen_below|done].
Qed.

Lemma prefilter_group required hay gate : gate ∈ required -> (forall l, l ∈ gate -> contains_sub l hay = false) ->
  prefilter required hay = false.
Proof.
  intros Hg Hl. unfold prefilter. destruct (forallb _ required) eqn:Ef; [|done]. rewrite forallb_forall in Ef.
  specialize (Ef gate (proj1 (list_elem_of_In _ _) Hg)). apply existsb_exists in Ef as (l & Hin & Hc).
  rewrite Hl in Hc; [done|by apply list_elem_of_In].
Qed.

Lemma search_go_none p text n pos : search_go p text n pos = None -> forall i, (pos <= i < pos + n)%nat -> pmatch p text i = None.
Proof. intros H. assert (Hs := search_go_spec p text n pos). by rewrite H in Hs. Qed.

Lemma search_none_all p text : search p text 0 = None -> forall i, pmatch p text i = None.
Proof.
  unfold search. rewrite Nat.sub_0_r. intros H i. destruct (decide (i < S (length text))%nat).
  - apply (search_go_none _ _ _ _ H). lia.
  - destruct (pmatch p text i) as [m|] eqn:Em; [|done]. apply pmatch_at in Em as (_ & ? & _). lia.
Qed.

(** A detector the gate leaves out is a regex rule that finds nothing. *)
Lemma gate_sound dets text i d : dets !! i = Some d -> i ∉ chosen dets text ->
  exists r, d = DRegex r /\ detect_prepared str_lower r text = Ok [].
Proof.
  intros Hd Hi. destruct (gates_spec dets) as [_ Hg]. specialize (Hg i d Hd). unfold chosen in Hi.
  rewrite !elem_of_app in Hi. destruct Hg as [Ha|Hg]; [by destruct Hi; left|]. cbn in Hg. destruct d as [r|f b|f]; [|done..].
  exists r. split; [done|]. destruct Hg as [Hm|(gate & Hgate & Hl)].
  - apply no_match_prepared. destruct (combined_search (members (gates_of dets)) text) eqn:Ec.
    + destruct Hi. do 3 right. apply list_elem_of_In, in_map_iff. exists (i, r_pattern r). split; [done|by apply list_elem_of_In].
    + apply search_none_all. destruct (search (r_pattern r) text 0) eqn:Es; [|done]. exfalso.
      assert (Ht : combined_search (members (gates_of dets)) text = true); [|congruence].
      apply existsb_exists. exists (i, r_pattern r). split; [by apply list_elem_of_In|]. cbn [snd]. by rewrite Es.
  - unfold detect_prepared. rewrite (prefilter_group _ _ gate Hgate); [done|]. intros l Hin.
    destruct (contains_sub l _) eqn:Ec; [|done]. destruct (Hl l Hin) as (c & Hc & Hh).
    destruct l as [|c' u]; [done|]. injection Hc as ->. assert (Hch := contains_head _ _ _ Ec).
    destruct Hi. right. destruct (r_required_ci r); [right; left|left]; apply gated_by_spec; by exists c, (c :: u).
Qed.

(** The precomputed rows are those of model-backed detectors. *)
Definition heavy_rows (dets : list detector) (pre : option (gmap nat (list detection))) : Prop :=
  forall t i ds, pre = Some t -> t !! i = Some ds -> exists f b, dets !! i = Some (DHeavy f b).

(** Only model-backed detectors have counters. *)
Definition heavy_counters (dets : list detector) (c : counters) : Prop :=
  forall i s, c !! i = Some s -> exists f, dets !! i = Some (DHeavy f true).

Lemma run_each_cons dets a pre missed text i order c :
  run_each dets a pre missed text (i :: order) c =
  match (match pre ≫= (fun t => t !! i), dets !! i with
         | Some found, _ => mret found
         | None, Some det => (if missed then mmodify (count_miss i) else mret tt) ;;; runner i det text
         | None, None => mret []
         end) c with
  | (Ok found, c') => match run_each dets a pre missed text order c' with
                      | (Ok rest, c'') => (Ok (List.filter (kept a) found ++ rest), c'')
                      | (Raise e, c'') => (Raise e, c'')
                      end
  | (Raise e, c') => (Raise e, c')
  end.
Proof.
  cbn [run_each]. unfold mbnd at 1. destruct (_ c) as [[found|e] c']; [|done].
  unfold mbnd, mret. by destruct (run_each dets a pre missed text order c') as [[?|?] ?].
Qed.

Lemma count_miss_none i c : c !! i = None -> count_miss i c = c.
Proof. intros H. unfold count_miss. apply map_eq. intros j. destruct (decide (i = j)) as [<-|]; [rewrite lookup_alter_eq, H|rewrite lookup_alter_ne]; done. Qed.

Lemma runner_counters dets c i d text : heavy_counters dets c -> dets !! i = Some d ->
  heavy_counters dets (runner i d text c).2 /\ heavy_counters dets (count_miss i c).
Proof.
  intros Hc Hd. assert (Ha : forall f, heavy_counters dets (alter f i c)).
  { intros f j s Hs. destruct (decide (i = j)) as [<-|]; [rewrite lookup_alter_eq in Hs|rewrite lookup_alter_ne in Hs by done; by eapply Hc].
    destruct (c !! i) eqn:E'; [|done]. by eapply Hc. }
  split; [|apply Ha]. destruct d; [done|apply Ha|done].
Qed.

(** One detector of the loop. *)
Definition run_one (dets : list detector) (pre : option (gmap nat (list detection))) (missed : bool) (text : pystr) (i : nat) :
    P (list detection) :=
  match pre ≫= (fun t => t !! i), dets !! i with
  | Some found, _ => mret found
  | None, Some det => (if missed then mmodify (count_miss i) else mret tt) ;;; runner i det text
  | None, None => mret []
  end.

Lemma run_each_one dets a pre missed text i order c : run_each dets a pre missed text (i :: order) c =
  match run_one dets pre missed text i c with
  | (Ok found, c') => match run_each dets a pre missed text order c' with
                      | (Ok rest, c'') => (Ok (List.filter (kept a) found ++ rest), c'')
                      | (Raise e, c'') => (Raise e, c'')
                      end
  | (Raise e, c') => (Raise e, c')
  end.
Proof. apply run_each_cons. Qed.

Lemma run_one_counters dets pre missed text i c : heavy_counters dets c ->
  heavy_counters dets (run_one dets pre missed text i c).2.
Proof.
  intros Hc. unfold run_one. destruct (pre ≫= _); [done|]. destruct (dets !! i) as [d|] eqn:Ed; [|done].
  destruct (runner_counters dets c i d text Hc Ed) as [H1 H2]. destruct missed; cbn; [|done].
  by apply (runner_counters dets (count_miss i c) i d text).
Qed.

Lemma run_one_quiet dets pre missed text i r c : heavy_rows dets pre -> heavy_counters dets c -> dets !! i = Some (DRegex r) ->
  detect_prepared str_lower r text = Ok [] -> run_one dets pre missed text i c = (Ok [], c).
Proof.
  intros Hp Hc Hd Hq. unfold run_one.
  assert (pre ≫= (fun t => t !! i) = None) as ->.
  { destruct pre as [t|]; [|done]. cbn. destruct (t !! i) as [ds|] eqn:Et; [|done].
    destruct (Hp t i ds eq_refl Et) as (f & b & H). congruence. }
  assert (Hn : c !! i = None).
  { destruct (c !! i) as [s|] eqn:Es; [|done]. destruct (Hc i s Es) as [f H]. congruence. }
  rewrite Hd. destruct missed; cbn; unfold mbnd, mmodify, mret; [rewrite count_miss_none by done|]; cbn; by rewrite Hq.
Qed.

Lemma run_each_filter dets a pre missed text q order : heavy_rows dets pre ->
  (forall i, i ∈ order -> q i = false -> exists r, dets !! i = Some (DRegex r) /\ detect_prepared str_lower r text = Ok []) ->
  forall c, heavy_counters dets c -> run_each dets a pre missed text (List.filter q order) c = run_each dets a pre missed text order c.
Proof.
  intros Hp. induction order as [|i order IH]; intros Hq c Hc; [done|]. cbn [List.filter].
  assert (IH' := IH (fun j Hj => Hq j ltac:(by right))). rewrite run_each_one.
  destruct (q i) eqn:Eq.
  - rewrite run_each_one. assert (Hc' := run_one_counters dets pre missed text i c Hc).
    destruct (run_one dets pre missed text i c) as [[found|e] c']; [|done]. by rewrite IH'.
  - destruct (Hq i ltac:(by left) Eq) as (r & Hd & Hr). rewrite (run_one_quiet _ _ _ _ _ r) by done.
    rewrite IH' by done. cbn [List.filter app]. by destruct (run_each dets a pre missed text order c) as [[?|?] ?].
Qed.

Lemma gated_same dets n text a pre missed c : heavy_rows dets pre -> heavy_counters dets c ->
  plan_detect n dets text a pre missed c = run_plan dets (every dets) text a pre missed c.
Proof.
  intros Hp Hc. unfold plan_detect, order_for, run_plan, mbnd. destruct (n <? length text)%nat; [done|].
  rewrite candidates_filter, run_each_filter; [done|done| |done].
  intros i Hi Hq. apply bool_decide_eq_false in Hq. unfold every in Hi. apply list_elem_of_In, in_seq in Hi.
  destruct (lookup_lt_is_Some_2 dets i ltac:(lia)) as [d Hd]. destruct (gate_sound dets text i d Hd Hq) as (r & -> & Hr). by exists r.
Qed.

(** ** Detection ahead of the redaction *)

Lemma detect_heavy_from_spec text dets : forall k t, detect_heavy_from k dets text = Ok t ->
  (forall i, (i < k)%nat -> t !! i = None) /\
  forall i, t !! (k + i)%nat = match dets !! i with Some (DHeavy f _) => match f text with Ok ds => Some ds | Raise _ => None end | _ => None end /\
    (forall f b, dets !! i = Some (DHeavy f b) -> exists ds, f text = Ok ds).
Proof.
  induction dets as [|d dets IH]; intros k t; cbn [detect_heavy_from].
  - intros [= <-]. split; [done|]. intros i. split; [by rewrite lookup_empty|done].
  - destruct (heavy_fun d) as [f|] eqn:Ef.
    + destruct d as [|g b|]; try done. injection Ef as ->. destruct (f text) as [ds|] eqn:Eft; [|done].
      destruct (detect_heavy_from (S k) dets text) as [t'|] eqn:Et; [|done]. intros [= <-].
      destruct (IH (S k) t' Et) as [H1 H2]. split; [intros i Hi; rewrite lookup_insert_ne by lia; apply H1; lia|].
      intros [|i]; cbn [lookup list_lookup].
      * rewrite Nat.add_0_r, lookup_insert_eq, Eft. split; [done|]. intros f' b' [= <- _]. by exists ds.
      * rewrite lookup_insert_ne by lia. replace (k + S i)%nat with (S k + i)%nat by lia. apply H2.
    + intros Ht. destruct (IH (S k) t Ht) as [H1 H2]. split; [intros i Hi; apply H1; lia|].
      intros [|i]; cbn [lookup list_lookup].
      * rewrite Nat.add_0_r, H1 by lia. split; [by destruct d|]. by intros f b [= ->].
      * replace (k + S i)%nat with (S k + i)%nat by lia. apply H2.
Qed.

(** What the worker computed ahead is what running the detectors gives, without the
    inline calls. *)
Lemma run_each_precomputed dets a missed text t : detect_heavy dets text = Ok t -> forall order c c',
  match run_each dets a (Some t) missed text order c, run_each dets a None false text order c' with
  | (Ok ds, d), (Ok ds', _) => ds = ds' /\ (heavy_counters dets c -> d = c)
  | (Raise e, _), (Raise e', _) => e = e'
  | _, _ => False
  end.
Proof.
  intros Ht. destruct (detect_heavy_from_spec text dets 0 t Ht) as [_ Hs]. intros order.
  induction order as [|i order IH]; intros c c'; [done|]. rewrite !run_each_one.
  destruct (Hs i) as [Hi Hok]. cbn [Nat.add] in Hi.
  assert (H1 : match run_one dets (Some t) missed text i c, run_one dets None false text i c' with
    | (Ok ds, d), (Ok ds', _) => ds = ds' /\ (heavy_counters dets c -> d = c)
    | (Raise e, _), (Raise e', _) => e = e' | _, _ => False end).
  { unfold run_one. cbn [mbind option_bind]. rewrite Hi. destruct (dets !! i) as [[r|f b|f]|] eqn:Ed; [| | |done].
    - assert (Hm : heavy_counters dets c -> count_miss i c = c).
      { intros Hc. apply count_miss_none. destruct (c !! i) as [s|] eqn:Es; [|done]. destruct (Hc i s Es) as [f H]. congruence. }
      destruct missed; cbn; destruct (of_res _); try done; by split; [|intros Hc; rewrite ?Hm].
    - destruct (Hok f b eq_refl) as [ds Eds]. rewrite Eds. cbn. by rewrite Eds.
    - assert (Hm : heavy_counters dets c -> count_miss i c = c).
      { intros Hc. apply count_miss_none. destruct (c !! i) as [s|] eqn:Es; [|done]. destruct (Hc i s Es) as [g H]. congruence. }
      destruct missed; cbn; destruct (f text); try done; by split; [|intros Hc; rewrite ?Hm]. }
  destruct (run_one dets (Some t) missed text i c) as [[ds|e] d], (run_one dets None false text i c') as [[ds'|e'] d']; try done.
  destruct H1 as [<- Hd]. specialize (IH d d').
  destruct (run_each dets a (Some t) missed text order d) as [[l|e] d1], (run_each dets a None false text order d') as [[l'|e'] d1']; try done.
  destruct IH as [<- Hd1]. split; [done|]. intros Hc. rewrite Hd in Hd1 by done. by apply Hd1.
Qed.

(** ** The detections with the detector that found each *)

Lemma sourced_each_spec {S : Type} (sources : nat -> S) dets a pre missed text order : forall c,
  match sourced_each sources dets a pre missed text order c, run_each dets a pre missed text order c with
  | (Ok found, d), (Ok ds, d') => sort_by sweep_le (map fst found) = sort_by sweep_le ds /\ d = d'
  | (Raise e, d), (Raise e', d') => e = e' /\ d = d'
  | _, _ => False
  end.
Proof.
  induction order as [|i order IH]; intros c; [done|]. rewrite run_each_one.
  cbn [sourced_each]. unfold mbnd at 1. unfold run_plan at 1, mbnd at 1. rewrite run_each_one.
  destruct (run_one dets pre missed text i c) as [[found|e] c']; [|done]. cbn [run_each mret].
  unfold mbnd at 1, mret. specialize (IH c'). unfold mret in IH.
  destruct (sourced_each sources dets a pre missed text order c') as [[l|e] d],
    (run_each dets a pre missed text order c') as [[l'|e'] d']; try done.
  destruct IH as [IH ->]. split; [|done]. rewrite app_nil_r, map_app, map_map. cbn [fst]. rewrite map_id.
  rewrite !sort_by_app, IH. apply fold_insert_sort; eauto with redact.
Qed.

(** ** What the redactor is handed *)

(** What a model-backed or plugin detector hands the plan: its detections of at least one
    character are spans of the text holding their value under a placeholder's type. *)
Definition sound_fun (f : pystr -> result E (list detection)) : Prop :=
  forall text ds, f text = Ok ds -> Forall (sound text) ds.

(** Of a regex rule only its type is asked: its spans and values are its matches'. *)
Definition sound_detector (d : detector) : Prop :=
  match d with DRegex r => well_made r | DHeavy f _ => sound_fun f | DOther f => sound_fun f end.

Lemma run_each_kept dets a missed text order : Forall sound_detector dets -> forall pre c ds c',
  (forall t i row, pre = Some t -> t !! i = Some row -> Forall (sound text) row) ->
  run_each dets a pre missed text order c = (Ok ds, c') -> Forall (fun d => valid text d /\ kept a d = true) ds.
Proof.
  intros Hs pre c ds c' Hp. revert c ds c'. induction order as [|i order IH]; intros c ds c'; [by intros [= <- _]|].
  rewrite run_each_one. destruct (run_one dets pre missed text i c) as [[found|e] d] eqn:E1; [|done].
  destruct (run_each dets a pre missed text order d) as [[rest|e] d'] eqn:E2; [|done]. intros [= <- _].
  apply Forall_app. split; [|by eapply IH].
  assert (Hf : Forall (sound text) found).
  { unfold run_one in E1. destruct (pre ≫= (fun t => t !! i)) as [row|] eqn:Er.
    - injection E1 as <- _. destruct pre as [t|]; [|done]. by eapply Hp.
    - destruct (dets !! i) as [det|] eqn:Ed; [|by injection E1 as <- _].
      assert (Hd : sound_detector det) by by eapply (proj1 (list.Forall_lookup _ _) Hs).
      assert (Hr : forall c1 c2, runner i det text c1 = (Ok found, c2) -> Forall (sound text) found).
      { intros c1 c2 H. destruct det as [r|f b|f]; cbn in H, Hd; injection H as H _; [|by apply Hd..].
        destruct (detect_prepared str_lower r text) as [l|] eqn:El; [|done]. injection H as <-. by eapply detect_prepared_sound. }
      destruct missed; cbn in E1; by eapply Hr. }
  apply list.Forall_forall. intros x [Hx Hk]%elem_filter. split; [|done]. eapply list.Forall_forall in Hf; [|exact Hx]. apply Hf.
  unfold kept in Hk. apply andb_true_iff in Hk as [Hk _]. by apply Z.ltb_lt.
Qed.

(** ** The properties *)

(** C18: skipping the detectors that provably find nothing changes nothing: on a text of
    any length, with or without precomputed rows, the gated plan returns or raises what
    running every detector does, and leaves the same counters. *)
Theorem gated_plan_exact dets n text a pre missed c : heavy_rows dets pre -> heavy_counters dets c ->
  plan_detect n dets text a pre missed c = run_plan dets (every dets) text a pre missed c /\
  (pre = None -> missed = false -> plan_detect n dets text a pre missed c = detect_each dets text a c).
Proof.
  intros Hp Hc. split; [by apply gated_same|]. intros -> ->. by apply gated_same.
Qed.

(** Taking what the worker computed ahead gives what running the models inline
    gives, the same exception or the same detections, and counts no inline call and no
    miss. *)
Theorem prefetch_equals_inline dets n text a missed t c : detect_heavy dets text = Ok t -> heavy_counters dets c ->
  (plan_detect n dets text a (Some t) missed c).1 = (plan_detect n dets text a None false c).1 /\
  forall ds c', plan_detect n dets text a (Some t) missed c = (Ok ds, c') -> c' = c.
Proof.
  intros Ht Hc. destruct (detect_heavy_from_spec text dets 0 t Ht) as [_ Hs].
  assert (Hp : heavy_rows dets (Some t)).
  { intros t' i ds [= <-] Hi. destruct (Hs i) as [Hi' _]. cbn [Nat.add] in Hi'. rewrite Hi in Hi'.
    destruct (dets !! i) as [[|f b|]|]; try done. by exists f, b. }
  assert (Hn : heavy_rows dets None) by done. rewrite !gated_same by done. unfold run_plan, mbnd, mret.
  assert (H := run_each_precomputed dets a missed text t Ht (every dets) c c).
  destruct (run_each dets a (Some t) missed text (every dets) c) as [[ds|e] d],
    (run_each dets a None false text (every dets) c) as [[ds'|e'] d']; try done.
  - destruct H as [<- Hd]. split; [done|]. intros ds0 c' [= _ <-]. by apply Hd.
  - by rewrite H.
Qed.

(** The detections named with the detector that found each are the plan's, in the
    plan's order, at the same cost in counted calls. *)
Theorem detect_sourced_agrees {S : Type} (sources : nat -> S) n dets text a pre missed c :
  match detect_sourced sources n dets text a pre missed c, plan_detect n dets text a pre missed c with
  | (Ok found, d), (Ok ds, d') => map fst found = ds /\ d = d'
  | (Raise e, d), (Raise e', d') => e = e' /\ d = d'
  | _, _ => False
  end.
Proof.
  unfold detect_sourced, plan_detect, run_plan, mbnd, mret.
  assert (H := sourced_each_spec sources dets a pre missed text (order_for n dets text) c).
  destruct (sourced_each _ _ _ _ _ _ _ c) as [[l|e] d], (run_each _ _ _ _ _ _ c) as [[l'|e'] d']; try done.
  destruct H as [H ->]. split; [|done]. rewrite (sort_by_map fst sweep_le). exact H.
Qed.

(** C36: what the plan hands the redactor is what overlap resolution needs: sorted by
    start, no empty span, every detection a span of the text holding its value under a
    type a placeholder can carry; and none is allowlisted but a deny string's.  Assumed:
    every rule's type is a placeholder's, and the non-empty detections of model-backed
    and plugin detectors, precomputed ones included, are spans of the text holding their
    value under such a type; of a regex rule's matches, which may be empty, nothing. *)
Theorem plan_hands_over_order dets n text a pre missed c ds c' : Forall sound_detector dets ->
  (forall t i row, pre = Some t -> t !! i = Some row -> Forall (sound text) row) ->
  plan_detect n dets text a pre missed c = (Ok ds, c') ->
  plan_order ds /\ Forall (valid text) ds /\
  Forall (fun d => tier d = 0 \/ allows_for a (detector_type d) (value d) = false) ds.
Proof.
  intros Hs Hp. unfold plan_detect, run_plan, mbnd, mret.
  destruct (run_each dets a pre missed text (order_for n dets text) c) as [[l|e] d] eqn:El; [|done]. intros [= <- _].
  assert (Hv : Forall (fun d => valid text d /\ kept a d = true) (sort_by sweep_le l)) by (rewrite sort_by_perm; by eapply run_each_kept).
  split_and!; [split| |].
  - apply sorted_sweep_start, sort_by_sorted; eauto with redact.
  - eapply list.Forall_impl; [exact Hv|]. intros x [Hx _]. apply (valid_span _ _ Hx).
  - eapply list.Forall_impl; [exact Hv|]. intros x [Hx _]. apply (valid_span _ _ Hx).
  - eapply list.Forall_impl; [exact Hv|]. by intros x [Hx _].
  - eapply list.Forall_impl; [exact Hv|]. intros x [_ Hk]. unfold kept in Hk. apply andb_true_iff in Hk as [_ Hk].
    apply orb_true_iff in Hk as [Ht%Z.eqb_eq|Hk%negb_true_iff]; [by left|by right].
Qed.
End Plan.

(** ** A plan of two rules, a deny string and a model *)

Definition model (text : pystr) : result py_exc (list detection) :=
  Ok (if starts_with (lit "Ada") text then [mk_detection 0 3 (lit "PERSON") (take 3 text) 60 1 false []] else []).

Lemma model_sound text : Forall (sound text)
  (if starts_with (lit "Ada") text then [mk_detection 0 3 (lit "PERSON") (take 3 text) 60 1 false []] else []).
Proof.
  destruct (starts_with (lit "Ada") text) eqn:Hs; [|constructor]. constructor; [|constructor]. intros _.
  destruct text as [|a [|b [|c text]]]; [done| | |];
    [cbn in Hs; by destruct (_ =? a)|cbn in Hs; destruct (_ =? a); [by destruct (_ =? b)|done]|].
  split; [cbn; unfold zlen; cbn; lia|by cbn [value start stop]; unfold span_text; rewrite pyslice_nat by (unfold zlen; cbn; lia)|vm_compute; reflexivity].
Qed.

Definition demo : list (detector (E := py_exc)) :=
  [DRegex (key_rule (lit "sk") (lit "sk-") [lit "sk-"]); DRegex (key_rule (lit "pk") (lit "pk-") []); DHeavy model true;
   DOther (fun text => Ok (deny_detect Z.eqb [DenyEntry (lit "aurora") true (lit "DENY")] text))].

Definition demo_counters : gmap nat ner_stats := {[2%nat := NerStats 0 0]}.

Lemma demo_counters_heavy : heavy_counters demo demo_counters.
Proof.
  intros i s H. unfold demo_counters in H. apply lookup_singleton_Some in H as [<- _]. by exists model.
Qed.

Definition text0 : pystr := lit "Ada sent sk-1 to aurora".

Lemma gated_plan_exact_witness :
  candidates (map ascii_lower) (fun _ => true) demo text0 = [0; 2; 3]%nat /\
  plan_detect (map ascii_lower) (fun _ => true) id GATED_MAX_CHARS demo text0 (Allowlist ∅ [] ∅) None false demo_counters =
  detect_each (map ascii_lower) id demo text0 (Allowlist ∅ [] ∅) demo_counters.
Proof.
  split; [vm_compute; reflexivity|].
  apply (gated_plan_exact (map ascii_lower) (fun _ => true) id demo GATED_MAX_CHARS text0 (Allowlist ∅ [] ∅) None false demo_counters);
    [done|apply demo_counters_heavy|done|done].
Defined.

Lemma prefetch_equals_inline_witness : exists t, detect_heavy demo text0 = Ok t /\
  (plan_detect (map ascii_lower) (fun _ => true) id GATED_MAX_CHARS demo text0 (Allowlist ∅ [] ∅) (Some t) true demo_counters).1 =
  (plan_detect (map ascii_lower) (fun _ => true) id GATED_MAX_CHARS demo text0 (Allowlist ∅ [] ∅) None false demo_counters).1.
Proof.
  eexists. split; [vm_compute; reflexivity|].
  apply (prefetch_equals_inline (map ascii_lower) (fun _ => true) id demo GATED_MAX_CHARS text0 (Allowlist ∅ [] ∅) true);
    [vm_compute; reflexivity|apply demo_counters_heavy].
Defined.

(** A custom rule that matches the empty string stands in the plan. *)
Definition demo_empty : list (detector (E := py_exc)) := DRegex (key_rule (lit "none") [] []) :: demo.

Lemma plan_hands_over_order_witness : exists ds c',
  plan_detect (map ascii_lower) (fun _ => true) id GATED_MAX_CHARS demo_empty text0 (Allowlist {[lit "sk-"]} [] ∅) None false demo_counters = (Ok ds, c') /\
  length ds = 2%nat /\ plan_order ds /\ Forall (valid text0) ds.
Proof.
  eexists _, _. split; [vm_compute; reflexivity|]. split; [reflexivity|].
  match goal with |- plan_order ?l /\ _ => enough (H : plan_order l /\ Forall (valid text0) l /\
    Forall (fun d => tier d = 0 \/ allows_for (Allowlist {[lit "sk-"]} [] ∅) (detector_type d) (value d) = false) l) by tauto end.
  eapply (plan_hands_over_order (map ascii_lower) (fun _ => true) id demo_empty GATED_MAX_CHARS text0 (Allowlist {[lit "sk-"]} [] ∅) None false demo_counters);
    [|done|vm_compute; reflexivity].
  do 3 (constructor; [apply key_rule_made|]). constructor; [|constructor; [|constructor]].
  - intros text ds [= <-]. apply model_sound.
  - intros text ds [= <-]. apply deny_detect_sound. constructor; [vm_compute; reflexivity|constructor].
Defined.
