(* ===== verification/Modes.v ===== *)
(** * Handling modes -- src/llm_redact/detection/engine.py, build_modes

    Modes are configured per rule and dispatched per detector type: every rule of a
    type must be given one mode. *)

From S2P Require Import Prelude.

(** The errors of the configuration: the unknown names; the type and the two rules. *)
Inductive modes_error : Type :=
  | UnknownRules (names : list pystr)
  | ConflictingModes (detector_type rule other : pystr).

Definition REDACT : pystr := lit "redact".

(** [type_by_rule]: the built-in rules, then the custom ones over them. *)
Definition type_by_rule (builtin custom : list (pystr * pystr)) : gmap pystr pystr :=
  fold_left (fun m r => <[r.1 := r.2]> m) (builtin ++ custom) ∅.

(** The loop; [rules] is [rule_by_type], read for the message only. *)
Fixpoint assign_modes (types : gmap pystr pystr) (modes : list (pystr * pystr)) (by_type : gmap pystr pystr)
    (rules : gmap pystr pystr) : result modes_error (gmap pystr pystr) :=
  match modes with
  | [] => Ok by_type
  | (name, mode) :: modes =>
      if decide (mode = REDACT) then assign_modes types modes by_type rules
      else
        let ty := default [] (types !! name) in
        match by_type !! ty with
        | Some existing =>
            if decide (existing = mode) then assign_modes types modes (<[ty := mode]> by_type) (<[ty := name]> rules)
            else Raise (ConflictingModes ty (default [] (rules !! ty)) name)
        | None => assign_modes types modes (<[ty := mode]> by_type) (<[ty := name]> rules)
        end
  end.

Definition build_modes (builtin custom modes : list (pystr * pystr)) : result modes_error (gmap pystr pystr) :=
  let types := type_by_rule builtin custom in
  match List.filter (fun name => negb (bool_decide (is_Some (types !! name)))) (map fst modes) with
  | [] => assign_modes types modes ∅ ∅
  | unknown => Raise (UnknownRules unknown)
  end.

(** ** What it builds *)

Lemma assign_modes_spec types modes : forall by_type rules m,
  assign_modes types modes by_type rules = Ok m ->
  (forall ty md, by_type !! ty = Some md -> m !! ty = Some md) /\
  (forall name md, (name, md) ∈ modes -> md <> REDACT -> m !! default [] (types !! name) = Some md) /\
  (forall ty md, m !! ty = Some md -> by_type !! ty = Some md \/
    exists name, (name, md) ∈ modes /\ md <> REDACT /\ default [] (types !! name) = ty).
Proof.
  induction modes as [|[name mode] modes IH]; intros by_type rules m; cbn [assign_modes].
  - intros [= <-]. split_and!; [done|set_solver|by left].
  - assert (Hskip : forall bt, (forall ty md, bt !! ty = Some md -> m !! ty = Some md) /\
        (forall n md, (n, md) ∈ modes -> md <> REDACT -> m !! default [] (types !! n) = Some md) /\
        (forall ty md, m !! ty = Some md -> bt !! ty = Some md \/ exists n, (n, md) ∈ modes /\ md <> REDACT /\ default [] (types !! n) = ty) ->
        (mode = REDACT /\ bt = by_type) \/ (mode <> REDACT /\ bt = <[default [] (types !! name) := mode]> by_type /\
          forall x, by_type !! default [] (types !! name) = Some x -> x = mode) ->
        (forall ty md, by_type !! ty = Some md -> m !! ty = Some md) /\
        (forall n md, (n, md) ∈ (name, mode) :: modes -> md <> REDACT -> m !! default [] (types !! n) = Some md) /\
        (forall ty md, m !! ty = Some md -> by_type !! ty = Some md \/ exists n, (n, md) ∈ (name, mode) :: modes /\ md <> REDACT /\ default [] (types !! n) = ty)).
    { intros bt (H1 & H2 & H3) [[-> ->]|(Hne & -> & Hx)].
      - split_and!; [done| |].
        + intros n md [[= -> ->]|Hin]%elem_of_cons Hmd; [done|by apply H2].
        + intros ty md Hm. destruct (H3 ty md Hm) as [?|(n & ? & ?)]; [by left|right]. exists n. split; [by right|done].
      - set (t := default [] (types !! name)) in *. split_and!.
        + intros ty md Hm. destruct (decide (t = ty)) as [<-|Hn].
          * rewrite (Hx md Hm). apply H1. apply lookup_insert_eq.
          * apply H1. by rewrite lookup_insert_ne.
        + intros n md [[= -> ->]|Hin]%elem_of_cons Hmd; [|by apply H2]. apply H1. apply lookup_insert_eq.
        + intros ty md Hm. destruct (H3 ty md Hm) as [Hb|(n & ? & ?)].
          * destruct (decide (t = ty)) as [<-|Hn].
            { rewrite lookup_insert_eq in Hb. injection Hb as <-. right. exists name. split; [by left|done]. }
            { rewrite lookup_insert_ne in Hb by done. by left. }
          * right. exists n. split; [by right|done]. }
    destruct (decide (mode = REDACT)) as [Hr|Hr].
    + intros H. apply (Hskip by_type); [by eapply IH|by left].
    + destruct (by_type !! default [] (types !! name)) as [ex|] eqn:Ex.
      * destruct (decide (ex = mode)) as [-> |]; [|done]. intros H.
        apply (Hskip (<[default [] (types !! name) := mode]> by_type)); [by eapply IH|]. right. split_and!; [done|done|]. by intros x [= ->].
      * intros H. apply (Hskip (<[default [] (types !! name) := mode]> by_type)); [by eapply IH|]. right. split_and!; [done|done|done].
Qed.

(** The mode map built from the configuration holds, for each detector type, exactly
    the mode its rules were given: every entry other than redact takes effect for its
    rule's type, no type gets a mode no entry gave it, redact is never stored, and a
    configuration naming an unknown rule or giving one type two modes builds none. *)
Theorem build_modes_exact builtin custom modes m : build_modes builtin custom modes = Ok m ->
  (forall name md, (name, md) ∈ modes -> exists ty, type_by_rule builtin custom !! name = Some ty /\
    (md <> REDACT -> m !! ty = Some md)) /\
  (forall ty md, m !! ty = Some md -> md <> REDACT /\
    exists name, (name, md) ∈ modes /\ type_by_rule builtin custom !! name = Some ty) /\
  (forall n1 n2 md1 md2 ty, (n1, md1) ∈ modes -> (n2, md2) ∈ modes -> md1 <> REDACT -> md2 <> REDACT ->
    type_by_rule builtin custom !! n1 = Some ty -> type_by_rule builtin custom !! n2 = Some ty -> md1 = md2).
Proof.
  unfold build_modes. set (types := type_by_rule builtin custom). destruct (List.filter _ _) eqn:Ef; [|done]. intros H.
  apply assign_modes_spec in H as (_ & H2 & H3).
  assert (Hk : forall name md, (name, md) ∈ modes -> exists ty, types !! name = Some ty).
  { intros name md Hin. destruct (types !! name) as [ty|] eqn:Et; [by exists ty|exfalso].
    assert (Hf : name ∈ List.filter (fun name => negb (bool_decide (is_Some (types !! name)))) (map fst modes)).
    { apply elem_filter. rewrite Et. split; [apply list_elem_of_In, in_map_iff; exists (name, md); split; [done|by apply list_elem_of_In]|done]. }
    rewrite Ef in Hf. set_solver. }
  assert (Hs : forall name md ty, (name, md) ∈ modes -> md <> REDACT -> types !! name = Some ty -> m !! ty = Some md).
  { intros name md ty Hin Hne Ht. specialize (H2 name md Hin Hne). by rewrite Ht in H2. }
  split_and!.
  - intros name md Hin. destruct (Hk name md Hin) as [ty Ht]. exists ty. split; [done|]. intros Hne. by eapply Hs.
  - intros ty md Hm. destruct (H3 ty md Hm) as [Hb|(name & Hin & Hne & Ht)]; [by rewrite lookup_empty in Hb|].
    split; [done|]. exists name. split; [done|]. destruct (Hk name md Hin) as [ty' Ht']. rewrite Ht' in Ht |- *. by rewrite <- Ht.
  - intros n1 n2 md1 md2 ty Hi1 Hi2 Hn1 Hn2 Ht1 Ht2. assert (E1 := Hs _ _ _ Hi1 Hn1 Ht1). assert (E2 := Hs _ _ _ Hi2 Hn2 Ht2). congruence.
Qed.

Lemma build_modes_exact_witness : exists m,
  build_modes [(lit "github_token", lit "GITHUB_TOKEN"); (lit "email", lit "EMAIL")] [] [(lit "email", lit "warn"); (lit "github_token", lit "redact")] = Ok m /\
  m !! lit "EMAIL" = Some (lit "warn") /\
  forall ty md, m !! ty = Some md -> md <> REDACT /\ exists name, (name, md) ∈ [(lit "email", lit "warn"); (lit "github_token", lit "redact")] /\
    type_by_rule [(lit "github_token", lit "GITHUB_TOKEN"); (lit "email", lit "EMAIL")] [] !! name = Some ty.
Proof.
  eexists. split; [vm_compute; reflexivity|]. split; [vm_compute; reflexivity|].
  apply (build_modes_exact [(lit "github_token", lit "GITHUB_TOKEN"); (lit "email", lit "EMAIL")] []). vm_compute. reflexivity.
Defined.

(** Two rules of one type under two modes are refused. *)
Example build_modes_conflict :
  build_modes [(lit "a", lit "T"); (lit "b", lit "T")] [] [(lit "a", lit "warn"); (lit "b", lit "block")] =
  Raise (ConflictingModes (lit "T") (lit "a") (lit "b")).
Proof. vm_compute. reflexivity. Qed.
