(* ===== verification/FairLock.v ===== *)
(** * The first-come, first-served lock -- src/llm_redact/detection/engine.py, FairLock

    Each method runs its sections under the lock's condition, so a section is one
    step: [acquire] up to its first wait, and again each time it is woken.  The lock's
    state is [fair_lock], the threads blocked on its condition included, which only
    [notify_all] wakes; [sys] adds the threads: which tickets' owners have not returned
    from [acquire] and which hold the lock. *)

From S2P Require Import Prelude.

(** ** The lock's state and its methods *)

(** [asleep]: the tickets whose threads [_cond.wait()] blocks. *)
Record fair_lock := FairLock { next_ : nat; serving : nat; abandoned : gset nat; asleep : gset nat }.

Definition new_lock : fair_lock := FairLock 0 0 ∅ ∅.

(** [_cond.notify_all()] *)
Definition notify_all (l : fair_lock) : fair_lock := FairLock (next_ l) (serving l) (abandoned l) ∅.

(** [_cond.wait()], and its end: notified, or by an exception. *)
Definition wait (t : nat) (l : fair_lock) : fair_lock := FairLock (next_ l) (serving l) (abandoned l) ({[t]} ∪ asleep l).
Definition unwait (t : nat) (l : fair_lock) : fair_lock := FairLock (next_ l) (serving l) (abandoned l) (asleep l ∖ {[t]}).

(** [_advance]: the loop past the tickets given up; [fuel] more than there are. *)
Fixpoint skip_abandoned (fuel : nat) (s : nat) (ab : gset nat) : nat * gset nat :=
  match fuel with
  | O => (s, ab)
  | S f => if decide (s ∈ ab) then skip_abandoned f (S s) (ab ∖ {[s]}) else (s, ab)
  end.

Definition advance (l : fair_lock) : fair_lock :=
  let '(s, ab) := skip_abandoned (S (size (abandoned l))) (S (serving l)) (abandoned l) in
  notify_all (FairLock (next_ l) s ab (asleep l)).

Definition locked (l : fair_lock) : bool := negb (next_ l =? serving l)%nat.

(** [acquire], up to the loop: [None] when it does not block and the lock is taken,
    else the ticket. *)
Definition take_ticket (blocking : bool) (l : fair_lock) : option nat * fair_lock :=
  if negb blocking && locked l then (None, l)
  else (Some (next_ l), FairLock (S (next_ l)) (serving l) (abandoned l) (asleep l)).

(** The loop's test: the wait is over. *)
Definition turn (l : fair_lock) (ticket : nat) : bool := (serving l =? ticket)%nat.

(** The handler of an exception raised by the wait. *)
Definition abandon (l : fair_lock) (ticket : nat) : fair_lock :=
  if turn l ticket then advance l else FairLock (next_ l) (serving l) ({[ticket]} ∪ abandoned l) (asleep l).

Inductive lock_exc : Type := RuntimeError.

Definition release (l : fair_lock) : result lock_exc fair_lock :=
  if (next_ l =? serving l)%nat then Raise RuntimeError else Ok (advance l).

(** ** The threads *)

(** [waiting]: in [acquire]; [holders]: returned from it. *)
Record sys := Sys { lock : fair_lock; waiting : gset nat; holders : gset nat }.

Definition start : sys := Sys new_lock ∅ ∅.

(** A thread in [acquire] that nothing blocks: it runs the loop's test next. *)
Definition awake (s : sys) : gset nat := waiting s ∖ asleep (lock s).

(** One run of the loop's test by the thread of [t]: it has the lock, or waits again. *)
Definition test (t : nat) (s : sys) : sys :=
  if turn (lock s) t then Sys (lock s) (waiting s ∖ {[t]}) ({[t]} ∪ holders s)
  else Sys (wait t (lock s)) (waiting s) (holders s).

Inductive event : Type := Idle | Refused | Queued (t : nat) | Tested (t : nat) | Gave_up (t : nat) | Released (t : nat).

#[export] Instance event_eq_dec : EqDecision event.
Proof. solve_decision. Defined.

(** A thread queues and tests in one section; [step_idle] is a thread that does
    something else. *)
Inductive step : sys -> event -> sys -> Prop :=
  | step_idle s : step s Idle s
  | step_refused l w h l' : take_ticket false l = (None, l') -> step (Sys l w h) Refused (Sys l' w h)
  | step_queued blocking l w h t l' : take_ticket blocking l = (Some t, l') ->
      step (Sys l w h) (Queued t) (test t (Sys l' ({[t]} ∪ w) h))
  | step_tested s t : t ∈ awake s -> step s (Tested t) (test t s)
  | step_gave_up l w h t : t ∈ w -> step (Sys l w h) (Gave_up t) (Sys (abandon (unwait t l) t) (w ∖ {[t]}) h)
  | step_released l w h t l' : t ∈ h -> release l = Ok l' -> step (Sys l w h) (Released t) (Sys l' w (h ∖ {[t]})).

Inductive run : sys -> list event -> sys -> Prop :=
  | run_nil s : run s [] s
  | run_cons s e s' es s'' : step s e s' -> run s' es s'' -> run s (e :: es) s''.

Definition reachable (s : sys) : Prop := exists es, run start es s.

(** ** The invariant *)

(** The tickets from the one served on are each one of: waiting, held, given up; the
    one served is not given up, only it is held, and its thread is not asleep. *)
Record lock_inv (s : sys) : Prop := {
  inv_cover : forall t, (serving (lock s) <= t < next_ (lock s))%nat <->
    t ∈ waiting s \/ t ∈ holders s \/ t ∈ abandoned (lock s);
  inv_waiting : forall t, t ∈ waiting s -> (t ∉ holders s) /\ (t ∉ abandoned (lock s));
  inv_served : serving (lock s) ∉ abandoned (lock s);
  inv_held : forall t, t ∈ holders s -> t = serving (lock s);
  inv_order : (serving (lock s) <= next_ (lock s))%nat;
  inv_asleep : serving (lock s) ∉ asleep (lock s) }.

Lemma size_remove (ab : gset nat) s : s ∈ ab -> S (size (ab ∖ {[s]})) = size ab.
Proof.
  intros H. rewrite size_difference by set_solver. rewrite size_singleton.
  assert (size ab <> 0)%nat by (rewrite size_non_empty_iff; set_solver). lia.
Qed.

(** The skip passes exactly the given-up tickets in a row. *)
Lemma skip_spec fuel s ab s' ab' : (size ab < fuel)%nat -> skip_abandoned fuel s ab = (s', ab') ->
  (s <= s')%nat /\ (forall t, t ∈ ab' <-> t ∈ ab /\ ~ (s <= t < s')%nat) /\
  (forall t, (s <= t < s')%nat -> t ∈ ab) /\ s' ∉ ab'.
Proof.
  revert s ab. induction fuel as [|f IH]; intros s ab Hf; cbn; [lia|].
  destruct (decide (s ∈ ab)) as [Hs|Hs].
  - intros H. apply IH in H as (H1 & H2 & H3 & H4); [|pose proof (size_remove ab s Hs); lia].
    split_and!; [lia| | |done].
    + intros t. rewrite H2. rewrite elem_of_difference, elem_of_singleton. split; [intros [[? ?] ?]|intros [? ?]]; split_and?; try done; lia.
    + intros t Ht. destruct (decide (t = s)) as [-> |]; [done|]. specialize (H3 t ltac:(lia)). set_solver.
  - intros [= <- <-]. split_and!; [done| | |done]; [|lia]. intros t. split; [|tauto]. split; [done|lia].
Qed.

Lemma advance_spec l : exists s' ab', advance l = FairLock (next_ l) s' ab' ∅ /\
  (serving l < s')%nat /\ (forall t, t ∈ ab' <-> t ∈ abandoned l /\ ~ (serving l < t < s')%nat) /\
  (forall t, (serving l < t < s')%nat -> t ∈ abandoned l) /\ s' ∉ ab'.
Proof.
  unfold advance. destruct (skip_abandoned _ _ _) as [s' ab'] eqn:E. apply skip_spec in E as (H1 & H2 & H3 & H4); [|lia].
  exists s', ab'. split_and!; [done|lia| | |done]; intros t; [rewrite H2|]; firstorder lia.
Qed.

Lemma start_inv : lock_inv start.
Proof. split; cbn; try done; try set_solver. intros t. split; [lia|set_solver]. Qed.

(** The ticket served leaves: the turn passes to the next one nobody gave up. *)
Lemma advance_inv l w h : lock_inv (Sys l w h) -> serving l ∈ w \/ serving l ∈ h ->
  lock_inv (Sys (advance l) (w ∖ {[serving l]}) (h ∖ {[serving l]})).
Proof.
  intros [Hc Hw Hs Hh Ho _] Hin. cbn in *.
  destruct (advance_spec l) as (s' & ab' & -> & Hlt & Hab & Hgap & Hs').
  assert (Hserv : (serving l < next_ l)%nat) by (destruct (Hc (serving l)) as [_ H]; apply H; tauto).
  assert (Hle : (s' <= next_ l)%nat).
  { destruct (decide (s' <= next_ l)%nat) as [|Hn]; [done|exfalso].
    assert (Ha := Hgap (next_ l) ltac:(lia)). destruct (Hc (next_ l)) as [_ H]. specialize (H ltac:(tauto)). lia. }
  split; cbn; [| | |set_solver|done|set_solver].
  - intros t. rewrite !elem_of_difference, !elem_of_singleton, Hab. split.
    + intros Ht. destruct (Hc t) as [H _]. destruct (H ltac:(lia)) as [?|[?|?]]; [left|right; left|right; right]; split; done || lia.
    + intros Ht. assert (Hr : (serving l <= t < next_ l)%nat) by (apply Hc; tauto). split; [|lia].
      destruct (decide (s' <= t)%nat) as [|Hn]; [done|exfalso].
      destruct (decide (t = serving l)) as [-> |Hne]; [destruct Ht as [[_ ?]|[[_ ?]|[Ha _]]]; by try apply Hs in Ha|].
      assert (Ha := Hgap t ltac:(lia)). destruct Ht as [[Ht _]|[[Ht _]|[_ Ht]]]; [by apply Hw in Ht as [_ ?]| |].
      * apply Hh in Ht. lia.
      * lia.
  - intros t [Ht _]%elem_of_difference. destruct (Hw t Ht) as [H1 H2]. rewrite Hab. set_solver.
  - done.
Qed.

Lemma release_spec l l' : release l = Ok l' -> l' = advance l /\ next_ l <> serving l.
Proof. unfold release. destruct (Nat.eqb_spec (next_ l) (serving l)); [done|]. by intros [= <-]. Qed.

Lemma holders_only s t : lock_inv s -> t ∈ holders s -> t = serving (lock s) /\ holders s = {[t]}.
Proof. intros [_ _ _ Hh _ _] Ht. assert (E := Hh t Ht). split; [done|]. apply set_eq. intros x. rewrite elem_of_singleton.
  split; [intros Hx; apply Hh in Hx; congruence|by intros ->]. Qed.

Lemma take_ticket_inv blocking l w h t l' : lock_inv (Sys l w h) -> take_ticket blocking l = (Some t, l') ->
  t = next_ l /\ lock_inv (Sys l' ({[t]} ∪ w) h).
Proof.
  intros [Hc Hw Hs Hh Ho Hz]. unfold take_ticket. destruct (_ && _); [done|]. intros [= <- <-]. split; [done|]. cbn in *.
  assert (Hfresh : (next_ l ∉ w) /\ (next_ l ∉ h) /\ (next_ l ∉ abandoned l)).
  { split_and!; intros H; assert (Hx : (serving l <= next_ l < next_ l)%nat) by (apply Hc; tauto); lia. }
  split; cbn; try done; [| |lia].
  - intros t. rewrite elem_of_union, elem_of_singleton. specialize (Hc t).
    destruct (decide (t = next_ l)) as [-> |Hne]; [split; [tauto|lia]|].
    split; [intros Ht; assert (Ht' : (serving l <= t < next_ l)%nat) by lia; tauto|].
    intros Ht. assert (Ht' : (serving l <= t < next_ l)%nat) by tauto. lia.
  - intros t [->%elem_of_singleton|Ht]%elem_of_union; [tauto|by apply Hw].
Qed.

Lemma unwait_inv l w h t : lock_inv (Sys l w h) -> lock_inv (Sys (unwait t l) w h).
Proof. intros [Hc Hw Hs Hh Ho Hz]. split; cbn in *; [done..|set_solver]. Qed.

Lemma abandon_inv l w h t : lock_inv (Sys l w h) -> t ∈ w -> lock_inv (Sys (abandon l t) (w ∖ {[t]}) h).
Proof.
  intros Hi Ht. unfold abandon, turn. destruct (Nat.eqb_spec (serving l) t) as [<-|Hne].
  - assert (H := advance_inv l w h Hi (or_introl Ht)). destruct Hi as [_ Hw _ Hh _ _]. cbn in *.
    assert (h ∖ {[serving l]} = h) as Eh; [|by rewrite Eh in H]. destruct (Hw _ Ht) as [Hn _].
    apply set_eq. intros x. rewrite elem_of_difference, elem_of_singleton. split; [tauto|].
    intros Hx. split; [done|]. intros ->. done.
  - destruct Hi as [Hc Hw Hs Hh Ho Hz]. cbn in *. split; cbn; try done.
    + intros x. rewrite Hc. destruct (decide (x = t)) as [-> |]; set_solver.
    + intros x Hx. assert (Hx' := Hw x ltac:(set_solver)). set_solver.
    + set_solver.
Qed.

Lemma test_inv s t : lock_inv s -> t ∈ waiting s -> lock_inv (test t s).
Proof.
  destruct s as [l w h]. intros [Hc Hw Hs Hh Ho Hz] Ht. unfold test, turn. cbn in *.
  destruct (Hw t Ht) as [H1 H2]. destruct (Nat.eqb_spec (serving l) t) as [E|Hne].
  - split; cbn; try done.
    + intros x. rewrite Hc. destruct (decide (x = t)) as [-> |]; set_solver.
    + intros x Hx. assert (Hx' := Hw x ltac:(set_solver)). set_solver.
    + intros x [->%elem_of_singleton|Hx]%elem_of_union; [done|by apply Hh].
  - split; cbn; try done. intros [?%elem_of_singleton|?]%elem_of_union; done.
Qed.

Lemma step_inv s e s' : step s e s' -> lock_inv s -> lock_inv s'.
Proof.
  intros Hst Hi. destruct Hst as [s|l w h l' H|b l w h t l' H|s t Ht|l w h t Ht|l w h t l' Ht H].
  - done.
  - unfold take_ticket in H. destruct (_ && _); [|done]. by injection H as <-.
  - apply (take_ticket_inv b l w h t l') in H as [_ H]; [|done]. apply test_inv; [done|cbn; set_solver].
  - apply test_inv; [done|]. unfold awake in Ht. set_solver.
  - apply abandon_inv; [by apply unwait_inv|done].
  - apply release_spec in H as [-> _]. destruct (holders_only _ t Hi Ht) as [-> Eh]. cbn in *.
    assert (H := advance_inv l w h Hi (or_intror Ht)). destruct Hi as [_ Hw _ _ _ _]. cbn in *.
    assert (w ∖ {[serving l]} = w) as Ew; [|by rewrite Ew in H].
    apply set_eq. intros x. rewrite elem_of_difference, elem_of_singleton. split; [tauto|].
    intros Hx. split; [done|]. intros ->. by apply Hw in Hx as [? _].
Qed.

Lemma run_inv s es s' : run s es s' -> lock_inv s -> lock_inv s'.
Proof. induction 1; [done|]. intros Hi. by eauto using step_inv. Qed.

Lemma reachable_inv s : reachable s -> lock_inv s.
Proof. intros [es H]. exact (run_inv _ _ _ H start_inv). Qed.

(** ** The properties *)

(** At most one thread holds the lock, and its ticket is the least of those waiting. *)
Theorem fair_lock_exclusive_fifo s : reachable s ->
  (forall t t', t ∈ holders s -> t' ∈ holders s -> t = t') /\
  (forall t t', t ∈ holders s -> t' ∈ waiting s -> (t < t')%nat).
Proof.
  intros Hi%reachable_inv. split.
  - intros t t' H H'. rewrite (inv_held _ Hi t H). by rewrite (inv_held _ Hi t' H').
  - intros t t' H H'. assert (E := inv_held _ Hi t H). destruct (inv_cover _ Hi t') as [_ Hr]. specialize (Hr ltac:(tauto)).
    destruct (inv_waiting _ Hi t' H') as [Hn _]. destruct (decide (t = t')) as [-> |]; [done|lia].
Qed.

(** One thread has the lock, another waits behind it. *)
Definition two : sys := Sys (FairLock 2 0 ∅ ({[1%nat]} ∪ ∅)) ({[1%nat]} ∪ (({[0%nat]} ∪ ∅) ∖ {[0%nat]})) ({[0%nat]} ∪ ∅).

Lemma two_reachable : reachable two.
Proof.
  exists [Queued 0%nat; Queued 1%nat]. econstructor; [by apply (step_queued true)|].
  econstructor; [by apply (step_queued true)|constructor].
Qed.

Lemma fair_lock_exclusive_fifo_witness : reachable two /\ 0%nat ∈ holders two /\ 1%nat ∈ waiting two /\ (0 < 1)%nat.
Proof.
  split; [apply two_reachable|]. split; [cbn; set_solver|]. split; [cbn; set_solver|].
  apply (proj2 (fair_lock_exclusive_fifo _ two_reachable) 0%nat 1%nat); cbn; set_solver.
Defined.

(** Nobody left means nothing taken: when no thread waits or holds (every other
    released it or gave up its turn), the lock is free and no given-up ticket is left. *)
Theorem fair_lock_not_orphaned s : reachable s -> waiting s = ∅ -> holders s = ∅ ->
  locked (lock s) = false /\ abandoned (lock s) = ∅ /\ release (lock s) = Raise RuntimeError.
Proof.
  intros Hi%reachable_inv Hw Hh. destruct Hi as [Hc _ Hs _ Ho _]. rewrite Hw, Hh in Hc.
  assert (E : next_ (lock s) = serving (lock s)).
  { destruct (decide (next_ (lock s) = serving (lock s))) as [|Hne]; [done|exfalso].
    destruct (Hc (serving (lock s))) as [H _]. destruct (H ltac:(lia)) as [?|[?|?]]; [set_solver..|done]. }
  unfold locked, release. rewrite E, Nat.eqb_refl. split_and!; [done| |done].
  apply set_eq. intros x. split; [|set_solver]. intros Hx. assert (Hr : (serving (lock s) <= x < next_ (lock s))%nat) by (apply Hc; tauto). lia.
Qed.

(** ** Fair schedules *)

(** What one step leaves of a waiting thread, of the holder and of an awake one. *)
Lemma step_waiting s e s' t : step s e s' -> t ∈ waiting s -> e <> Gave_up t -> t ∈ waiting s' \/ t ∈ holders s'.
Proof.
  intros Hst Ht He. destruct Hst as [s|l w h l' H|b l w h u l' H|s u Hu|l w h u Hu|l w h u l' Hu H]; cbn in *; [by left..| | | |by left].
  - unfold test. destruct (turn _ _); cbn; [destruct (decide (t = u)) as [-> |]|]; set_solver.
  - unfold test. destruct (turn _ _); cbn; [|by left]. destruct (decide (t = u)) as [-> |]; set_solver.
  - left. destruct (decide (t = u)) as [-> |]; [done|set_solver].
Qed.

Lemma advance_serving l : (serving l < serving (advance l))%nat.
Proof. by destruct (advance_spec l) as (s' & ab & -> & H & _). Qed.

Lemma step_serving s e s' : step s e s' -> (serving (lock s) <= serving (lock s'))%nat.
Proof.
  intros Hst. destruct Hst as [s|l w h l' H|b l w h u l' H|s u Hu|l w h u Hu|l w h u l' Hu H]; cbn; [done|..].
  - unfold take_ticket in H. destruct (_ && _); [|done]. by injection H as <-.
  - unfold take_ticket in H. destruct (_ && _); [done|]. injection H as <- <-. unfold test. by destruct (turn _ _).
  - unfold test. by destruct (turn _ _).
  - unfold abandon. destruct (turn _ _); [|done]. assert (H := advance_serving (unwait u l)). cbn in H. lia.
  - apply release_spec in H as [-> _]. assert (H := advance_serving l). lia.
Qed.

Lemma step_holder s e s' t : lock_inv s -> step s e s' -> t ∈ holders s -> t ∈ holders s' \/ (t < serving (lock s'))%nat.
Proof.
  intros Hi Hst Ht. assert (Hs := inv_held _ Hi t Ht).
  destruct Hst as [s|l w h l' H|b l w h u l' H|s u Hu|l w h u Hu|l w h u l' Hu H]; cbn in *; [by left..| | |by left|].
  - left. unfold test. destruct (turn _ _); cbn; set_solver.
  - left. unfold test. destruct (turn _ _); cbn; set_solver.
  - right. apply release_spec in H as [-> _]. rewrite Hs. apply advance_serving.
Qed.

Lemma step_awake s e s' : lock_inv s -> step s e s' -> serving (lock s) ∈ waiting s ->
  serving (lock s) ∈ awake s' \/ serving (lock s) ∈ holders s' \/ (serving (lock s) < serving (lock s'))%nat.
Proof.
  intros Hi Hst Ht. assert (Hst' := step_serving _ _ _ Hst). assert (Hi' := step_inv _ _ _ Hst Hi).
  destruct (decide (serving (lock s') = serving (lock s))) as [E|]; [|right; right; lia].
  destruct (decide (e = Gave_up (serving (lock s)))) as [-> |Hne].
  - right. right. clear Hst' Hi' E. inversion Hst as [| | | |l w h t Hu|]; subst. cbn in *. unfold abandon, turn. cbn. rewrite Nat.eqb_refl.
    apply (advance_serving (unwait (serving l) l)).
  - destruct (step_waiting _ _ _ _ Hst Ht Hne) as [H|H]; [left|by right; left]. apply elem_of_difference. split; [done|].
    rewrite <- E. apply (inv_asleep _ Hi').
Qed.

Section Fair.
(** An infinite schedule: the states in turn, and the event between two of them. *)
Context (st : nat -> sys) (ev : nat -> event).

(** A thread that nothing blocks comes to run the loop's test (or gives up), and a
    holder comes to release. *)
Record fair_schedule : Prop := {
  sched_start : reachable (st 0);
  sched_step : forall i, step (st i) (ev i) (st (S i));
  sched_awake : forall i t, t ∈ awake (st i) -> exists j, (i <= j)%nat /\ t ∉ awake (st j);
  sched_release : forall i t, t ∈ holders (st i) -> exists j, (i <= j)%nat /\ t ∉ holders (st j) }.

Context (Hf : fair_schedule).

Lemma sched_inv i : lock_inv (st i).
Proof. induction i as [|i IH]; [apply reachable_inv, Hf|]. eapply step_inv; [apply (sched_step Hf)|done]. Qed.

Lemma sched_serving i j : (i <= j)%nat -> (serving (lock (st i)) <= serving (lock (st j)))%nat.
Proof. induction 1 as [|j _ IH]; [done|]. etrans; [exact IH|]. eapply step_serving, (sched_step Hf). Qed.

(** A waiting thread waits until it has the lock. *)
Lemma waits_until t i j : (forall k, ev k <> Gave_up t) -> t ∈ waiting (st i) -> (i <= j)%nat ->
  (exists k, (i <= k <= j)%nat /\ t ∈ holders (st k)) \/ t ∈ waiting (st j).
Proof.
  intros Hg Ht. induction 1 as [|j Hj IH]; [by right|]. destruct IH as [(k & Hk & H)|H]; [left; exists k; split; [lia|done]|].
  destruct (step_waiting _ _ _ _ (sched_step Hf j) H (Hg j)) as [H'|H']; [by right|left; exists (S j); split; [lia|done]].
Qed.

(** The turn passes on from a held lock. *)
Lemma turn_from_holder i u : u ∈ holders (st i) -> exists j, (i <= j)%nat /\ (u < serving (lock (st j)))%nat.
Proof.
  intros Hu. destruct (sched_release Hf i u Hu) as (j & Hij & Hj).
  enough (H : u ∈ holders (st j) \/ exists k, (i <= k)%nat /\ (u < serving (lock (st k)))%nat) by by destruct H.
  clear Hj. induction Hij as [|j Hij IH]; [by left|]. destruct IH as [IH|IH]; [|by right].
  destruct (step_holder _ _ _ u (sched_inv j) (sched_step Hf j) IH) as [H|H]; [by left|]. right. exists (S j). split; [lia|done].
Qed.

(** The thread whose turn it is gets the lock, or gives the turn up. *)
Lemma served_holds i u : u = serving (lock (st i)) -> u ∈ waiting (st i) ->
  exists j, (i <= j)%nat /\ (u ∈ holders (st j) \/ (u < serving (lock (st j)))%nat).
Proof.
  intros Eu Hu. assert (Ha : u ∈ awake (st i)).
  { apply elem_of_difference. split; [done|]. rewrite Eu. apply (inv_asleep _ (sched_inv i)). }
  destruct (sched_awake Hf i u Ha) as (j & Hij & Hj).
  enough (H : u ∈ awake (st j) \/ exists k, (i <= k)%nat /\ (u ∈ holders (st k) \/ (u < serving (lock (st k)))%nat)) by by destruct H.
  clear Hj. induction Hij as [|j Hij IH]; [by left|]. destruct IH as [IH|IH]; [|by right].
  assert (Hw : u ∈ waiting (st j)) by by apply elem_of_difference in IH as [? _].
  assert (Hs := sched_serving i j Hij). destruct (decide (u < serving (lock (st j)))%nat) as [Hlt|Hge]; [right; exists j; split; [lia|by right]|].
  assert (E : u = serving (lock (st j))) by lia. rewrite E in Hw.
  destruct (step_awake _ _ _ (sched_inv j) (sched_step Hf j) Hw) as [H|H]; rewrite <- E in H; [by left|]. right. exists (S j). split; [lia|done].
Qed.

(** While a ticket waits the turn comes nearer. *)
Lemma turn_passes i t : t ∈ waiting (st i) -> serving (lock (st i)) <> t ->
  exists j, (i <= j)%nat /\ (serving (lock (st i)) < serving (lock (st j)))%nat.
Proof.
  intros Ht Hne. set (u := serving (lock (st i))) in *. assert (Hi := sched_inv i).
  destruct (inv_cover _ Hi t) as [_ Hr]. specialize (Hr ltac:(tauto)). destruct (inv_cover _ Hi u) as [Hc _].
  destruct (Hc ltac:(unfold u in *; lia)) as [Hw|[Hh|Ha]]; [| |by apply (inv_served _ Hi) in Ha].
  - destruct (served_holds i u eq_refl Hw) as (j & Hij & [Hj|Hj]); [|by exists j].
    destruct (turn_from_holder j u Hj) as (k & Hjk & Hk). exists k. split; [lia|done].
  - apply turn_from_holder in Hh as (j & Hij & Hj). by exists j.
Qed.

Lemma served_within n i t : (forall k, ev k <> Gave_up t) -> (t - serving (lock (st i)) < n)%nat -> t ∈ waiting (st i) ->
  exists j, (i <= j)%nat /\ t ∈ holders (st j).
Proof.
  intros Hg. revert i. induction n as [|n IH]; intros i Hn Ht; [lia|].
  assert (Hnext : forall j, (i <= j)%nat -> (serving (lock (st i)) < serving (lock (st j)))%nat -> exists k, (i <= k)%nat /\ t ∈ holders (st k)).
  { intros j Hij Hlt. destruct (waits_until t i j Hg Ht Hij) as [(k & Hk & H)|H]; [exists k; split; [lia|done]|].
    destruct (inv_cover _ (sched_inv j) t) as [_ Hr]. specialize (Hr ltac:(tauto)).
    destruct (IH j ltac:(lia) H) as (k & Hk & H'). exists k. split; [lia|done]. }
  destruct (decide (serving (lock (st i)) = t)) as [E|Hne].
  - subst t. destruct (served_holds i _ eq_refl Ht) as (j & Hij & [Hj|Hj]); [by exists j|by eapply Hnext].
  - destruct (turn_passes i t Ht Hne) as (j & Hij & Hj). by eapply Hnext.
Qed.
End Fair.

(** C24: no waiter starves, in any fair schedule: whatever threads queue, give up and
    release, a thread waiting in [acquire] that is not interrupted comes to hold the
    lock, and until then no thread that queued after it does; where fair means that a
    thread nothing blocks comes to run the loop's test and a holder comes to release.
    (A thread blocked on the condition is woken by notify_all alone.) *)
Theorem fair_lock_serves_every_waiter st ev i t : fair_schedule st ev -> (forall k, ev k <> Gave_up t) -> t ∈ waiting (st i) ->
  exists j, (i <= j)%nat /\ t ∈ holders (st j) /\
    forall k u, (i <= k <= j)%nat -> u ∈ holders (st k) -> (u <= t)%nat.
Proof.
  intros Hf Hg Ht. destruct (served_within st ev Hf _ i t Hg (Nat.lt_succ_diag_r _) Ht) as (j & Hij & Hj).
  exists j. split_and!; [done|done|]. intros k u [Hik Hkj] Hu. rewrite (inv_held _ (sched_inv st ev Hf k) u Hu).
  rewrite (inv_held _ (sched_inv st ev Hf j) t Hj). by apply (sched_serving st ev Hf).
Qed.

(** ** A schedule: the holder releases, the thread behind it wakes, holds and releases *)

Definition demo_step (s : sys) (e : event) : sys :=
  match e with
  | Tested t => test t s
  | Released t => match release (lock s) with Ok l => Sys l (waiting s) (holders s ∖ {[t]}) | Raise _ => s end
  | _ => s
  end.

Definition demo_events (i : nat) : event := nth i [Released 0%nat; Tested 1%nat; Released 1%nat] Idle.

Fixpoint demo_state (i : nat) : sys :=
  match i with O => two | S i => demo_step (demo_state i) (demo_events i) end.

Lemma demo_rest i : demo_state (3 + i) = demo_state 3.
Proof. induction i as [|i IH]; [done|]. rewrite Nat.add_succ_r. cbn [demo_state]. rewrite IH. unfold demo_events. by destruct i. Qed.

Lemma demo_empty : waiting (demo_state 3) = ∅ /\ holders (demo_state 3) = ∅.
Proof. by vm_compute. Qed.

Lemma demo_late i t : (t ∉ awake (demo_state (3 + i))) /\ (t ∉ holders (demo_state (3 + i))).
Proof. rewrite demo_rest. destruct demo_empty as [Hw Hh]. unfold awake. rewrite Hw, Hh. set_solver. Qed.

Lemma demo_fair : fair_schedule demo_state demo_events.
Proof.
  split.
  - apply two_reachable.
  - intros [|[|[|i]]].
    + apply (step_released _ _ _ 0%nat (advance (lock two))); [cbn; set_solver|done].
    + apply step_tested. by vm_compute.
    + apply (step_released _ _ _ 1%nat); [by vm_compute|done].
    + change (demo_step (demo_state (S (S (S i)))) (demo_events (S (S (S i))))) with (demo_state (3 + S i)).
      assert (E : demo_events (S (S (S i))) = Idle) by by destruct i. cbn [demo_state]. rewrite E. apply step_idle.
  - intros i t _. exists (3 + i)%nat. split; [lia|]. apply demo_late.
  - intros i t _. exists (3 + i)%nat. split; [lia|]. apply demo_late.
Qed.

Lemma fair_lock_serves_every_waiter_witness : 1%nat ∈ asleep (lock (demo_state 0)) /\
  exists j, (0 <= j)%nat /\ 1%nat ∈ holders (demo_state j) /\
    forall k u, (0 <= k <= j)%nat -> u ∈ holders (demo_state k) -> (u <= 1)%nat.
Proof.
  split; [cbn; set_solver|]. apply (fair_lock_serves_every_waiter demo_state demo_events 0 1); [apply demo_fair| |cbn; set_solver].
  intros [|[|[|[|k]]]]; done.
Defined.

Lemma fair_lock_not_orphaned_witness : locked (lock (demo_state 3)) = false.
Proof.
  assert (H : forall i, reachable (demo_state i)).
  { intros i. induction i as [|i [es IH]]; [apply two_reachable|]. exists (es ++ [demo_events i]).
    assert (Ha : forall s1 es1 s2 e s3, run s1 es1 s2 -> step s2 e s3 -> run s1 (es1 ++ [e]) s3).
    { clear. induction 1 as [|? ? ? ? ? H1 _ IH]; intros; cbn; econstructor; [done|constructor|done|by apply IH]. }
    eapply Ha; [exact IH|]. apply (sched_step _ _ demo_fair). }
  apply (fair_lock_not_orphaned _ (H 3%nat)); apply demo_empty.
Defined.
