(* ===== verification/Redactor.v ===== *)
(** * The redactor -- src/llm_redact/redactor.py, class [Redactor]

    What a request's text becomes: its detections resolved under the modes and the
    requester's overrides, the warn-mode values counted, and every value that
    redacts replaced by a placeholder of the vault. *)

From S2P Require Import Prelude Json Placeholders JsonWalk Vault Detection Overlaps.

Inductive mode : Type := MRedact | MWarn | MBlock.
#[export] Instance mode_eq_dec : EqDecision mode.
Proof. solve_decision. Defined.

(** The exceptions that refuse a request. *)
Inductive refusal : Type :=
| BlockedRequest (detector_type : pystr)
| TooManyStrings (limit : Z)
| PlaceholderLimitReached (detector_type : pystr)
| DetectorUnavailable (backend reason : pystr)
| VaultFault.

(** The requester's approved overrides ([OverrideCheck]), a state of their own:
    asking may record or consume. *)
Class OverrideOps (O : Type) : Type := {
  allows : O -> pystr -> pystr -> bool * O;
  unoverridable : O -> O
}.

(** The redactor's immutable part. [detect] is the plan's answer for a text with
    the allowlist applied, [added_deny] the detection overlay's. *)
Record redactor : Type := mk_redactor {
  detect : pystr -> result refusal (list detection);
  added_deny : option (pystr -> list detection);
  modes : gmap pystr mode;
  floors : gmap pystr Z;
  budget_limit : option Z;
  final_blocks : gset pystr;
  encrypted_content_passthrough : bool
}.

(** The state its calls share and change. *)
Record rstate (V O : Type) : Type := mk_rstate {
  vault : V;
  counts : gmap pystr Z;
  warn_counts : gmap pystr Z;
  used : Z;
  overrides : option O
}.
Arguments mk_rstate {V O}. Arguments vault {V O}. Arguments counts {V O}.
Arguments warn_counts {V O}. Arguments used {V O}. Arguments overrides {V O}.

Local Open Scope mon_scope.

(** ** Resolution, over any way of asking whether a refusing value passes *)
Section Resolution.
Context {St : Type} (rd : redactor) (ask : detection -> M St refusal bool).

Abbreviation R := (M St refusal).

Definition type_mode (ty : pystr) : mode := default MRedact (modes rd !! ty).

Definition mode_of (d : detection) : mode :=
  if tier d =? 0 then MRedact else type_mode (detector_type d).

Fixpoint by_mode (ds : list detection) : R (list detection * list detection) :=
  match ds with
  | [] => mret ([], [])
  | d :: ds =>
      passes <~ (if decide (mode_of d = MBlock) then ask d else mret true);;
      if passes then
        rest <~ by_mode ds;;
        let '(redacting, passing) := rest in
        if decide (mode_of d = MRedact) then mret (d :: redacting, passing)
        else mret (redacting, d :: passing)
      else mraise (BlockedRequest (detector_type d))
  end.

Definition join (text : pystr) (run : list detection) : R (list detection) :=
  split <~ by_mode run;;
  let '(redacting, passing) := split in
  let covered := flat_map (covering text) (overlapping redacting) in
  let kept := clear_of covered passing in
  mret (covered ++ sweep kept).

(** The loop over the runs: what is joined, and what is swept as before. *)
Fixpoint join_runs (text : pystr) (runs : list (list detection))
    : R (list detection * list detection) :=
  match runs with
  | [] => mret ([], [])
  | run :: runs =>
      if existsb joins_others run then
        j <~ join text run;;
        rest <~ join_runs text runs;;
        let '(joined, swept) := rest in
        mret (j ++ joined, swept)
      else
        rest <~ join_runs text runs;;
        let '(joined, swept) := rest in
        mret (joined, run ++ swept)
  end.

Definition resolved (text : pystr) (detections : list detection) : R (list detection) :=
  if negb (existsb joins_others detections) then mret (resolve_overlaps detections)
  else
    js <~ join_runs text (overlapping (List.filter (fun d => negb (additive d)) detections));;
    let '(joined, swept) := js in
    let winners := sort_by start_le (joined ++ resolve_tiers swept) in
    let added := sort_by sweep_le (List.filter additive detections) in
    match added with
    | [] => mret winners
    | _ => mret (sort_by start_le (winners ++ outside winners (sweep added)))
    end.

Definition absorb (text : pystr) (winners added : list detection) : R (list detection) :=
  split <~ by_mode winners;;
  let '(redacting, passing) := split in
  let united := unite text (redacting ++ added) in
  mret (resolve_tiers (sort_by start_le (united ++ passing))).

Definition resolution_of (text : pystr) (found : list detection) (added : option (list detection))
    : R (list detection) :=
  configured <~ resolved text found;;
  match added with
  | None => mret configured
  | Some added => absorb text configured added
  end.
End Resolution.

(** ** Counting the warn-mode values *)
Section Counting.
Context (rd : redactor).

Definition warns : bool := bool_decide (map_Exists (fun _ m => m = MWarn) (modes rd)).
Definition blocks : bool := bool_decide (map_Exists (fun _ m => m = MBlock) (modes rd)).

Definition forwarded (found : list detection) : list detection :=
  List.filter (fun d => negb (tier d =? 0) &&
    match modes rd !! detector_type d with Some MWarn | Some MBlock => true | _ => false end) found.

Definition replaces (winner : detection) : bool := bool_decide (mode_of rd winner = MRedact).

Definition replaced (winners : list detection) : list detection := List.filter replaces winners.

(** The warn-mode and block-mode values taken, in the order they are counted. *)
Definition warn_taken (values replaced : list detection) : list detection :=
  let rules := List.filter (fun d => negb (additive d)) values in
  let taken := sweep (not_covered replaced rules) in
  let findings := List.filter additive values in
  match findings with
  | [] => taken
  | _ => let held := sort_by start_le (replaced ++ taken) in
         taken ++ sweep (not_covered held findings)
  end.

Definition count_warned (values replaced : list detection) (warn_counts : gmap pystr Z) : gmap pystr Z :=
  fold_left (fun c d =>
    match modes rd !! detector_type d with
    | Some MWarn => counter_incr c (detector_type d)
    | _ => c
    end) (warn_taken values replaced) warn_counts.
End Counting.

(** ** The redactor's operations *)
Section Redactor.
Context {V O : Type} `{VaultOps V} `{OverrideOps O} (rd : redactor).

Abbreviation S := (rstate V O).
Abbreviation R := (M S refusal).

Definition set_vault (v : V) (s : S) : S := mk_rstate v (counts s) (warn_counts s) (used s) (overrides s).
Definition set_counts (c : gmap pystr Z) (s : S) : S := mk_rstate (vault s) c (warn_counts s) (used s) (overrides s).
Definition set_warn_counts (c : gmap pystr Z) (s : S) : S := mk_rstate (vault s) (counts s) c (used s) (overrides s).
Definition set_used (n : Z) (s : S) : S := mk_rstate (vault s) (counts s) (warn_counts s) n (overrides s).
Definition set_overrides (o : option O) (s : S) : S := mk_rstate (vault s) (counts s) (warn_counts s) (used s) o.

Definition charge (count : Z) : R unit :=
  match budget_limit rd with
  | None => mret tt
  | Some limit =>
      s <~ mget;;
      mput (set_used (used s + count) s);;;
      if limit <? used s + count then mraise (TooManyStrings limit) else mret tt
  end.

Definition unoverride : R unit :=
  mmodify (fun s => set_overrides (unoverridable <$> overrides s) s).

Definition put_to (ty value : pystr) : R bool :=
  s <~ mget;;
  match overrides s with
  | None => mret false
  | Some o => let (ok, o') := allows o ty value in mput (set_overrides (Some o') s);;; mret ok
  end.

Definition overridden (d : detection) : R bool :=
  s <~ mget;;
  match overrides s with
  | None => mret false
  | Some _ =>
      if decide (detector_type d ∈ final_blocks rd) then unoverride;;; mret false
      else put_to (detector_type d) (value d)
  end.

(** [_resolution] of the copy of [_count_refused]: every value approved. *)
Definition approving_resolution (text : pystr) (found : list detection) (added : option (list detection))
    : result refusal (list detection) :=
  (resolution_of (St := unit) rd (fun _ => mret true) text found added tt).1.

Definition count_refused (text : pystr) (found : list detection) (added : option (list detection))
    : R unit :=
  match approving_resolution text found added with
  | Raise e => mraise e
  | Ok winners =>
      mmodify (fun s => set_warn_counts
        (count_warned rd (forwarded rd found) (replaced rd winners) (warn_counts s)) s)
  end.

Definition is_deny (d : detection) : bool := tier d =? 0.

Definition settled (text : pystr) (found : list detection) (added : option (list detection))
    (unrewritable : bool) : R (list detection) :=
  (if unrewritable && (match added with Some (_ :: _) => true | _ => false end || existsb is_deny found)
   then unoverride else mret tt);;;
  fun s =>
    match resolution_of rd overridden text found added s with
    | (Raise (BlockedRequest ty), s') =>
        ((if warns rd then count_refused text found added else mret tt);;;
         mraise (BlockedRequest ty)) s'
    | (Raise e, s') => (Raise e, s')
    | (Ok winners, s') =>
        ((if warns rd then
            mmodify (fun s => set_warn_counts
              (count_warned rd (forwarded rd found) (replaced rd winners) (warn_counts s)) s)
          else mret tt);;; mret winners) s'
    end.

Definition lift {A} (r : result refusal A) : R A := fun s => (r, s).

Definition winners (text : pystr) (unrewritable : bool) : R (list detection) :=
  found <~ lift (detect rd text);;
  settled text found (option_map (fun f => f text) (added_deny rd)) unrewritable.

Definition placeholder (detector_type value : pystr) : R pystr := fun s =>
  match placeholder_for (vault s) detector_type value (default 0 (floors rd !! detector_type)) with
  | (Ok tok, v') => (Ok tok, set_vault v' s)
  | (Raise (PlaceholderSpaceExhausted ty), v') => (Raise (PlaceholderLimitReached ty), set_vault v' s)
  | (Raise CipherFault, v') => (Raise VaultFault, set_vault v' s)
  end.

(** The loop of [redact_text] from [cursor]: the rest of the output. *)
Fixpoint replace_from (text : pystr) (cursor : Z) (ds : list detection) : R pystr :=
  match ds with
  | [] => mret (pyfrom text cursor)
  | d :: ds =>
      match mode_of rd d with
      | MBlock =>
          ok <~ overridden d;;
          if ok then replace_from text cursor ds else mraise (BlockedRequest (detector_type d))
      | MWarn => replace_from text cursor ds
      | MRedact =>
          tok <~ placeholder (detector_type d) (value d);;
          mmodify (fun s => set_counts (counter_incr (counts s) (detector_type d)) s);;;
          rest <~ replace_from text (stop d) ds;;
          mret (span_text text cursor (start d) ++ tok ++ rest)
      end
  end.

Definition redact_text (text : pystr) : R pystr :=
  charge 1;;;
  detections <~ winners text false;;
  match detections with
  | [] => mret text
  | _ => replace_from text 0 detections
  end.

(** [_joined_passes]: every member is asked before any answer counts. *)
Fixpoint ask_all (ms : list detection) : R bool :=
  match ms with
  | [] => mret true
  | m :: ms =>
      a <~ put_to (detector_type m) (value m);;
      rest <~ ask_all ms;;
      mret (a && rest)
  end.

Definition joined_passes (d : detection) : R bool :=
  match members d with
  | [] => unoverride;;; mret false
  | ms => if existsb (fun m => is_deny m || bool_decide (detector_type m ∈ final_blocks rd)) ms
          then unoverride;;; mret false
          else ask_all ms
  end.

(** [scan]'s loop: the types found, and whether an override let a value pass. *)
Fixpoint scan_loop (redactable : bool) (ds : list detection) (found : gmap pystr Z) (passed : bool)
    : R (gmap pystr Z * bool) :=
  match ds with
  | [] => mret (found, passed)
  | d :: ds =>
      let refuse := scan_loop redactable ds (counter_incr found (detector_type d)) passed in
      let pass := scan_loop redactable ds found true in
      if is_deny d then
        s <~ mget;;
        ok <~ (if negb redactable && match overrides s with Some _ => true | None => false end
               then joined_passes d else mret false);;
        if ok then pass else refuse
      else
        match modes rd !! detector_type d with
        | Some MWarn => scan_loop redactable ds found passed
        | m =>
            let block := match m with Some MBlock => true | _ => false end in
            ok <~ (if block || negb redactable then overridden d else mret false);;
            if ok then pass
            else if block then mraise (BlockedRequest (detector_type d)) else refuse
        end
  end.

Definition scan (text : pystr) (redactable : bool) : R (gmap pystr Z * bool) :=
  charge 1;;;
  ws <~ winners text (negb redactable);;
  scan_loop redactable ws ∅ false.

Definition scan_text (text : pystr) : R (gmap pystr Z) := r <~ scan text false;; mret r.1.

Fixpoint first_blocked (ds : list detection) : R (option pystr) :=
  match ds with
  | [] => mret None
  | d :: ds =>
      if negb (is_deny d) && bool_decide (modes rd !! detector_type d = Some MBlock) then
        ok <~ overridden d;;
        if ok then first_blocked ds else mret (Some (detector_type d))
      else first_blocked ds
  end.

Definition blocked_type (text : pystr) : R (option pystr) :=
  found <~ lift (detect rd text);;
  fun s =>
    match resolved rd overridden text found s with
    | (Raise (BlockedRequest ty), s') => (Ok (Some ty), s')
    | (Raise e, s') => (Raise e, s')
    | (Ok ws, s') => first_blocked ws s'
    end.

Definition redact_json (obj : json) : R json :=
  transform_strings redact_text STRUCTURAL_KEYS (fun _ => None) (encrypted_content_passthrough rd) obj.
End Redactor.

(** [with_floors] and [with_budget]: copies for one request. *)
Definition with_floors (rd : redactor) (fl : gmap pystr Z) : redactor :=
  let raised := filter (fun tn => default 0 (floors rd !! tn.1) < tn.2) fl in
  if decide (raised = ∅) then rd
  else mk_redactor (detect rd) (added_deny rd) (modes rd) (raised ∪ floors rd) (budget_limit rd)
         (final_blocks rd) (encrypted_content_passthrough rd).

Definition with_budget (rd : redactor) (limit : Z) : redactor :=
  mk_redactor (detect rd) (added_deny rd) (modes rd) (floors rd) (Some limit)
    (final_blocks rd) (encrypted_content_passthrough rd).
