(* ===== verification/Winners.v ===== *)
(** * What redaction acts on

    Soundness of the resolution of src/llm_redact/redactor.py ([_resolved],
    [_join], [_absorb]): whatever the modes and the overrides, the winners are
    disjoint spans of the text, and what redacts is never lost to what does not. *)

From S2P Require Import Prelude Json Placeholders JsonWalk Vault Detection Overlaps Redactor.

Local Open Scope mon_scope.

(** ** Successful runs of the monad *)
Lemma mbnd_ok {St E A B} (m : M St E A) (f : A -> M St E B) s b s' :
  mbnd m f s = (Ok b, s') -> exists a s1, m s = (Ok a, s1) /\ f a s1 = (Ok b, s').
Proof. unfold mbnd. destruct (m s) as [[a|e] s1]; [|done]. eauto. Qed.

Lemma mret_ok {St E A} (a b : A) (s s' : St) : @mret St E A a s = (Ok b, s') -> b = a /\ s' = s.
Proof. unfold mret. intros H. split; congruence. Qed.

Ltac ok_inv :=
  repeat match goal with
  | H : mbnd _ _ _ = (Ok _, _) |- _ => apply mbnd_ok in H as (? & ? & ? & H)
  | H : mret _ _ = (Ok _, _) |- _ =>
      let E := fresh in destruct (mret_ok _ _ _ _ H) as [E ?]; clear H; simplify_eq/=
  | H : mraise _ _ = (Ok _, _) |- _ => discriminate H
  end.

Section Winners.
Context {St : Type} (rd : redactor) (ask : detection -> M St refusal bool).

Definition redacts (d : detection) : bool := bool_decide (mode_of rd d = MRedact).

Lemma by_mode_ok ds s r p s' : by_mode rd ask ds s = (Ok (r, p), s') ->
  r = List.filter redacts ds /\ p = List.filter (fun d => negb (redacts d)) ds.
Proof.
  revert s r p s'. induction ds as [|d ds IH]; intros s r p s' H; cbn [by_mode] in H; ok_inv.
  { done. }
  destruct x; [|discriminate]. ok_inv. destruct x as [r0 p0]. 
  match goal with H : by_mode _ _ _ _ = _ |- _ => apply IH in H as [-> ->] end.
  cbn. destruct (decide (mode_of rd d = MRedact)) as [E|E]; ok_inv.
  - by replace (redacts d) with true by (symmetry; by apply bool_decide_eq_true).
  - by replace (redacts d) with false by (symmetry; by apply bool_decide_eq_false).
Qed.

Lemma redacts_deny d : tier d = 0 -> redacts d = true.
Proof. intros Ht. unfold redacts, mode_of. rewrite Ht. done. Qed.

Lemma not_redacts_tier d : redacts d = false -> tier d <> 0.
Proof. intros H Ht. by rewrite redacts_deny in H. Qed.

(** *** One joined run *)

Definition within_run (run : list detection) (d : detection) : Prop :=
  run_start run <= start d /\ stop d <= run_end run.

Lemma run_within run d : run_ok run -> d ∈ run -> within_run run d.
Proof.
  intros (_ & _ & Hs & _) Hd. rewrite list.Forall_forall in Hs. split; [by apply Hs|by apply run_end_max].
Qed.

Lemma sub_run_within spans run r : Forall nonempty spans -> (forall d, d ∈ spans -> within_run run d) ->
  r ∈ overlapping spans -> run_start run <= run_start r /\ run_end r <= run_end run.
Proof.
  intros Hne Hw Hr. destruct (overlapping_spec spans Hne) as (_ & Hok & _).
  rewrite list.Forall_forall in Hok. destruct (Hok r Hr) as (Hr0 & Hrn & _ & _).
  assert (Hall : forall d, d ∈ r -> within_run run d) by (intros d Hd; by eapply Hw, overlapping_in).
  destruct r as [|d r]; [done|]. split; [apply (Hall d); by left|].
  rewrite run_end_cons. assert (Hf : forall l m, m <= run_end run -> (forall d, d ∈ l -> within_run run d) ->
    fold_left (fun m d => Z.max m (stop d)) l m <= run_end run).
  { induction l as [|y l IH]; intros m Hm Hl; cbn; [done|]. apply IH; [|intros; apply Hl; by right].
    destruct (Hl y) as [_ ?]; [by left|lia]. }
  apply Hf; [apply (Hall d); by left|]. intros; apply Hall; by right.
Qed.

(** What stands for a run of redacting values redacts, at tier 0 when one of
    them is a deny string. *)
Lemma covering_redacts text r d : (forall x, x ∈ r -> redacts x = true) -> d ∈ covering text r ->
  redacts d = true /\ ((exists x, x ∈ r /\ tier x = 0) -> tier d = 0).
Proof.
  intros Hr Hd. destruct r as [|x r]; [by apply not_elem_of_nil in Hd|]. cbn [covering] in Hd.
  assert (Hj : d ∈ joined text (x :: r) ->
    redacts d = true /\ ((exists x0, x0 ∈ x :: r /\ tier x0 = 0) -> tier d = 0)).
  { destruct r as [|y r]; cbn [joined]; intros ->%list_elem_of_singleton.
    - split; [apply Hr; by left|]. by intros (y & ->%list_elem_of_singleton & Ht).
    - split; [by apply redacts_deny|done]. }
  destruct (forallb _ r) eqn:E; [|by apply Hj]. apply list_elem_of_singleton in Hd as ->.
  split; [apply Hr; by left|]. intros (y & [->|Hy]%elem_of_cons & Ht); [done|].
  pose proof (forallb_elem _ _ _ E Hy) as Hb. cbv beta in Hb. rewrite Ht in Hb. bool_simpl.
  cbn in *. lia.
Qed.

Lemma elem_flat_map {A B} (f : A -> list B) l y : y ∈ flat_map f l <-> exists x, x ∈ l /\ y ∈ f x.
Proof. setoid_rewrite list_elem_of_In. rewrite in_flat_map. done. Qed.

(** The spans standing for overlapping redacting values. *)
Lemma cover_spec text ds : Forall (valid text) ds -> (forall d, d ∈ ds -> redacts d = true) ->
  let cs := flat_map (covering text) (overlapping ds) in
  disjoint_sorted cs /\ Forall (valid text) cs /\ (forall c, c ∈ cs -> redacts c = true) /\
  (forall i, covered cs i <-> covered ds i) /\
  (forall d i, d ∈ ds -> tier d = 0 -> covers d i -> exists c, c ∈ cs /\ tier c = 0 /\ covers c i).
Proof.
  intros Hv Hr cs. pose proof (valid_nonempty _ _ Hv) as Hne.
  destruct (overlapping_spec ds Hne) as (Hc & Hok & Hap). rewrite list.Forall_forall in Hok.
  destruct (stand_for_runs text (covering text) (overlapping ds)) as (H1 & H2 & H3).
  { by apply list.Forall_forall. }
  { done. }
  { intros r Hin. apply covering_spec; [by apply Hok|by eapply runs_valid]. }
  assert (Hrun : forall r x, r ∈ overlapping ds -> x ∈ r -> redacts x = true)
    by (intros r x Hin Hx; by eapply Hr, overlapping_in).
  split_and!; [done..| | |].
  - intros c (r & Hin & Hcr)%elem_flat_map. eapply covering_redacts; [|done]. exact (fun x => Hrun r x Hin).
  - intros i. unfold cs. rewrite H3, Hc. apply covered_perm, sort_by_perm.
  - intros d i Hd Ht Hi.
    assert (exists r, r ∈ overlapping ds /\ d ∈ r) as (r & Hin & Hdr).
    { rewrite <- (sort_by_perm start_le ds), <- Hc in Hd. apply list_elem_of_In, in_concat in Hd as (r & ? & ?).
      exists r. by rewrite !list_elem_of_In. }
    destruct (covering_spec text r (Hok r Hin) (runs_valid _ _ _ Hv Hin)) as (c & Hcr & _ & Hst & Hen).
    exists c. split_and!.
    + apply elem_flat_map. exists r. rewrite Hcr. split; [done|by left].
    + eapply (covering_redacts text r c); [exact (fun x => Hrun r x Hin)|rewrite Hcr; by left|by exists d].
    + destruct (run_within r d (Hok r Hin) Hdr). unfold covers in *. lia.
Qed.

(** What joining a run gives. *)
Record join_result (text : pystr) (run ws : list detection) : Prop := {
  jr_apart : StronglySorted apart ws;
  jr_valid : Forall (valid text) ws;
  jr_within : Forall (within_run run) ws;
  jr_redact d i : d ∈ run -> redacts d = true -> covers d i ->
    exists w, w ∈ ws /\ redacts w = true /\ covers w i /\ (tier d = 0 -> tier w = 0);
  jr_additive : (forall d, d ∈ run -> additive d = false) -> forall w, w ∈ ws -> additive w = false
}.

Lemma covering_additive text r d : (forall x, x ∈ r -> additive x = false) -> d ∈ covering text r ->
  additive d = false.
Proof.
  intros Hr Hd. destruct r as [|x r]; [by apply not_elem_of_nil in Hd|]. cbn [covering] in Hd.
  destruct (forallb _ r); [apply list_elem_of_singleton in Hd as ->; apply Hr; by left|].
  destruct r as [|y r]; cbn [joined] in Hd; apply list_elem_of_singleton in Hd as ->; [|done].
  apply Hr; by left.
Qed.

Lemma join_spec text run s ws s' : run_ok run -> Forall (valid text) run ->
  join rd ask text run s = (Ok ws, s') -> join_result text run ws.
Proof.
  intros Hok Hv H. unfold join in H. ok_inv. destruct x as [r p].
  match goal with H : by_mode _ _ _ _ = _ |- _ => apply by_mode_ok in H as [-> ->] end. ok_inv.
  set (red := List.filter redacts run). set (pass := List.filter (fun d => negb (redacts d)) run).
  assert (Hred : forall d, d ∈ red <-> d ∈ run /\ redacts d = true) by (intros; apply elem_filter).
  assert (Hpass : forall d, d ∈ pass -> d ∈ run) by (intros d [? _]%elem_filter; done).
  assert (Hvr : Forall (valid text) red) by (eapply Forall_sub; [|exact Hv]; naive_solver).
  assert (Hvp : Forall (valid text) pass) by (eapply Forall_sub; [|exact Hv]; done).
  destruct (cover_spec text red Hvr) as (C1 & C2 & C3 & C4 & C5); [naive_solver|].
  set (cs := flat_map (covering text) (overlapping red)) in *.
  pose proof (clear_of_spec cs pass) as Hclear.
  set (kept := clear_of cs pass) in *.
  assert (Hk : forall d, d ∈ kept <-> d ∈ pass /\ forall c, c ∈ cs -> apart c d)
    by (intros d; apply Hclear; [done|by eapply valid_nonempty]).
  assert (Hkn : Forall nonempty kept).
  { eapply Forall_sub; [|by eapply valid_nonempty, Hvp]. intros d Hd. by apply Hk in Hd as [? _]. }
  assert (Hsw : forall d, d ∈ sweep kept -> d ∈ kept) by (intros d; by apply sweep_in).
  split.
  - apply StronglySorted_app. split_and!; [by apply disjoint_apart|by apply disjoint_apart, sweep_disjoint|].
    intros x y Hx Hy%Hsw%Hk. destruct Hy as [_ Hap]. auto.
  - apply Forall_app. split; [done|]. eapply Forall_sub; [|exact Hvp]. intros d Hd%Hsw%Hk. tauto.
  - apply Forall_app. split; apply list.Forall_forall.
    + intros c (r & Hin & Hcr)%elem_flat_map.
      pose proof (valid_nonempty _ _ Hvr) as Hne. destruct (overlapping_spec red Hne) as (_ & Hrok & _).
      rewrite list.Forall_forall in Hrok.
      destruct (covering_spec text r (Hrok r Hin) (runs_valid _ _ _ Hvr Hin)) as (c' & Hc' & _ & Hst & Hen).
      rewrite Hc' in Hcr. apply list_elem_of_singleton in Hcr as ->.
      destruct (sub_run_within red run r Hne) as [? ?]; [|done|unfold within_run; lia].
      intros d [Hd _]%Hred. by apply run_within.
    + intros d Hd%Hsw%Hk. apply run_within; [done|]. apply Hpass. tauto.
  - intros d i Hd Hrd Hi. destruct (decide (tier d = 0)) as [Ht|Ht].
    + destruct (C5 d i) as (c & Hc & Htc & Hci); [by apply Hred|done..|].
      exists c. split_and!; [apply elem_of_app; by left|by apply C3|done|done].
    + assert (covered cs i) as (c & Hc & Hci) by (apply C4; exists d; split; [by apply Hred|done]).
      exists c. split_and!; [apply elem_of_app; by left|by apply C3|done|done].
  - intros Hna w [(r & Hin & Hcr)%elem_flat_map|Hw%Hsw%Hk]%elem_of_app.
    + eapply covering_additive; [|done]. intros x Hx. apply Hna.
      apply (overlapping_in red) in Hx; [|by eapply valid_nonempty|done]. by apply Hred in Hx as [? _].
    + apply Hna, Hpass. tauto.
Qed.

(** *** The runs of a text *)

(** [w] redacts what [d] covers at [i], at tier 0 when [d] is a deny string. *)
Definition keeps (ws : list detection) (d : detection) (i : Z) : Prop :=
  exists w, w ∈ ws /\ redacts w = true /\ covers w i /\ (tier d = 0 -> tier w = 0).

Lemma keeps_mono ws ws' d i : (forall w, w ∈ ws -> w ∈ ws') -> keeps ws d i -> keeps ws' d i.
Proof. intros H (w & ? & ?). exists w. auto. Qed.

Record runs_result (text : pystr) (runs : list (list detection)) (joined swept : list detection)
    : Prop := {
  rr_apart : StronglySorted apart joined;
  rr_valid : Forall (valid text) joined;
  rr_within : Forall (fun w => exists r, r ∈ runs /\ existsb joins_others r = true /\ within_run r w) joined;
  rr_swept : sublist swept (concat runs);
  rr_swept_run x : x ∈ swept -> exists r, r ∈ runs /\ existsb joins_others r = false /\ x ∈ r;
  rr_keeps r d i : r ∈ runs -> existsb joins_others r = true -> d ∈ r -> redacts d = true ->
    covers d i -> keeps joined d i;
  rr_additive : (forall d, d ∈ concat runs -> additive d = false) ->
    forall w, w ∈ joined -> additive w = false
}.

Lemma runs_apart_within r1 r2 w1 w2 : runs_apart r1 r2 -> within_run r1 w1 -> within_run r2 w2 ->
  before w1 w2.
Proof. unfold runs_apart, within_run, before. lia. Qed.

Lemma join_runs_spec text runs : Forall run_ok runs -> StronglySorted runs_apart runs ->
  Forall (Forall (valid text)) runs -> forall s joined swept s',
  join_runs rd ask text runs s = (Ok (joined, swept), s') -> runs_result text runs joined swept.
Proof.
  induction 1 as [|run runs Hok Hoks IH]; intros Hap Hv s joined swept s' H; cbn [join_runs] in H.
  { ok_inv. split; cbn.
    - constructor.
    - constructor.
    - constructor.
    - constructor.
    - by intros x Hn%not_elem_of_nil.
    - by intros r d i Hn%not_elem_of_nil.
    - by intros _ w Hn%not_elem_of_nil. }
  inversion Hap as [|?? Hap' Hrun]; subst. inversion Hv as [|?? Hvr Hvs]; subst.
  rewrite list.Forall_forall in Hrun.
  destruct (existsb joins_others run) eqn:Ej; ok_inv.
  - match goal with H : join _ _ _ _ _ = _ |- _ => apply join_spec in H as [J1 J2 J3 J4 J5]; [|done..] end.
    destruct x1 as [joined0 swept0].
    match goal with H : join_runs _ _ _ _ _ = _ |- _ => apply IH in H as [R1 R2 R3 R4 R5 R6 R7]; [|done..] end.
    ok_inv. rewrite list.Forall_forall in J3, R3. split.
    + apply StronglySorted_app. split_and!; [done..|]. intros a b Ha Hb. left.
      destruct (R3 b Hb) as (r & Hr & _ & Hw). eapply runs_apart_within; [by apply Hrun|auto|done].
    + by apply Forall_app.
    + apply list.Forall_forall. intros w [Hw|Hw]%elem_of_app.
      * exists run. split_and!; [by left|done|auto].
      * destruct (R3 w Hw) as (r & ? & ?). exists r. split; [by right|done].
    + cbn. by apply sublist_inserts_l.
    + intros y (r & ? & ?)%R5. exists r. split; [by right|done].
    + intros r d i [->|Hr]%elem_of_cons Hj Hd Hrd Hi.
      * destruct (J4 d i Hd Hrd Hi) as (w & ? & ?). exists w. split; [apply elem_of_app; by left|tauto].
      * eapply keeps_mono; [|by eapply R6]. intros; apply elem_of_app; by right.
    + intros Hna w [Hw|Hw]%elem_of_app.
      * eapply J5; [|done]. intros d Hd. apply Hna. cbn. apply elem_of_app. by left.
      * eapply R7; [|done]. intros d Hd. apply Hna. cbn. apply elem_of_app. by right.
  - destruct x as [joined0 swept0].
    match goal with H : join_runs _ _ _ _ _ = _ |- _ => apply IH in H as [R1 R2 R3 R4 R5 R6 R7]; [|done..] end.
    ok_inv. split; try done.
    + eapply Forall_impl; [|exact R3]. cbn. intros w (r & ? & ?). exists r. split; [by right|done].
    + cbn. by apply sublist_app.
    + intros y [Hy|Hy]%elem_of_app.
      * exists run. split_and!; [by left|done..].
      * destruct (R5 y Hy) as (r & ? & ?). exists r. split; [by right|done].
    + intros r d i [->|Hr]%elem_of_cons Hj; [congruence|]. by apply R6.
    + intros Hna. apply R7. intros d Hd. apply Hna. cbn. apply elem_of_app. by right.
Qed.

(** *** The configured winners *)

(** Disjoint, sorted spans of the text. *)
Definition sound (text : pystr) (ws : list detection) : Prop :=
  disjoint_sorted ws /\ Forall (valid text) ws.

Lemma concat_in {A} (ls : list (list A)) x : x ∈ concat ls <-> exists l, l ∈ ls /\ x ∈ l.
Proof. setoid_rewrite list_elem_of_In. apply in_concat. Qed.

Lemma existsb_elem {A} (p : A -> bool) l x : x ∈ l -> p x = true -> existsb p l = true.
Proof. intros Hx Hp. apply existsb_exists. exists x. by rewrite <- list_elem_of_In. Qed.

Lemma join_runs_sound text ds s joined swept s' : Forall (valid text) ds -> Forall (fun d => 0 <= start d) ds ->
  (forall d, d ∈ ds -> additive d = false) ->
  join_runs rd ask text (overlapping ds) s = (Ok (joined, swept), s') ->
  let ws := sort_by start_le (joined ++ resolve_tiers swept) in
  sound text ws /\ (forall w, w ∈ ws -> additive w = false) /\
  (forall d i, d ∈ ds -> joins_others d = true -> redacts d = true -> covers d i -> keeps ws d i).
Proof.
  intros Hv H0 Hna H ws. pose proof (valid_nonempty _ _ Hv) as Hne.
  destruct (overlapping_spec ds Hne) as (Hc & Hok & Hap).
  assert (Hin : forall d, d ∈ concat (overlapping ds) <-> d ∈ ds) by (intros d; by rewrite Hc, sort_by_perm).
  destruct (join_runs_spec text _ Hok Hap) with (s := s) (joined := joined) (swept := swept) (s' := s')
    as [R1 R2 R3 R4 R5 R6 R7]; [|done|].
  { apply list.Forall_forall. intros r Hr. by eapply runs_valid. }
  rewrite list.Forall_forall in R3.
  assert (Hsd : forall x, x ∈ swept -> x ∈ ds) by (intros x Hx; apply Hin; by eapply elem_of_sublist).
  assert (Hpo : plan_order swept).
  { split; [eapply sublist_start_sorted; [exact R4|rewrite Hc; apply sort_start_sorted]|..];
      by eapply Forall_sub. }
  destruct (resolve_tiers_resolution swept Hpo) as [T1 T2 _ _].
  assert (Hw : forall w, w ∈ ws <-> w ∈ joined \/ w ∈ resolve_tiers swept)
    by (intros w; unfold ws; by rewrite sort_by_perm, elem_of_app).
  assert (Hja : forall a b, a ∈ joined -> b ∈ resolve_tiers swept -> apart a b).
  { intros a b Ha Hb%T2. destruct (R3 a Ha) as (r & Hr & Hj & Hwr).
    destruct (R5 b Hb) as (r' & Hr' & Hj' & Hbr). rewrite list.Forall_forall in Hok.
    pose proof (run_within r' b (Hok r' Hr') Hbr) as Hwb.
    apply list_elem_of_lookup_1 in Hr as [k Hk], Hr' as [k' Hk'].
    destruct (lt_eq_lt_dec k k') as [[Hlt| ->]|Hgt]; [|simplify_eq; congruence|].
    - left. eapply runs_apart_within; [|done..]. by eapply StronglySorted_nth.
    - right. eapply runs_apart_within; [|done..]. by eapply StronglySorted_nth. }
  split_and!.
  - split.
    + unfold ws. apply apart_sorted.
      * rewrite sort_by_perm. apply Forall_app. split; [by eapply valid_nonempty|apply T1].
      * eapply StronglySorted_perm; [apply apart_sym|symmetry; apply sort_by_perm|].
        apply StronglySorted_app. split_and!; [done|by apply disjoint_apart|done].
      * apply sort_start_sorted.
    + unfold ws. rewrite sort_by_perm. apply Forall_app. split; [done|]. eapply Forall_sub; [|exact Hv]. auto.
  - intros w [Hj|Ht]%Hw; [|by apply Hna, Hsd, T2]. eapply R7; [|done]. intros d Hd%Hin. auto.
  - intros d i Hd Hj Hr Hi. apply Hin, concat_in in Hd as (r & Hrr & Hdr).
    eapply keeps_mono; [|eapply R6; [done|by eapply existsb_elem|done..]]. intros w Hwj. apply Hw. by left.
Qed.

Lemma resolved_sound text ds s ws s' : plan_order ds -> Forall (valid text) ds ->
  resolved rd ask text ds s = (Ok ws, s') ->
  sound text ws /\
  (forall d i, d ∈ ds -> additive d = false -> joins_others d = true -> redacts d = true ->
    covers d i -> keeps ws d i).
Proof.
  intros Ho Hv H. unfold resolved in H. destruct (existsb joins_others ds) eqn:Ej; cbn [negb] in H.
  - set (fixed := List.filter (fun d => negb (additive d)) ds) in *.
    assert (Hf : forall d, d ∈ fixed <-> d ∈ ds /\ additive d = false).
    { intros d. unfold fixed. rewrite elem_filter. by rewrite negb_true_iff. }
    ok_inv. destruct x as [joined swept].
    match goal with H : join_runs _ _ _ _ _ = _ |- _ => apply join_runs_sound in H as ([W1 W2] & W3 & W4) end.
    2: { eapply Forall_sub; [|exact Hv]. naive_solver. }
    2: { destruct Ho as [_ _ Hst]. eapply Forall_sub; [|exact Hst]. naive_solver. }
    2: naive_solver.
    set (w0 := sort_by start_le (joined ++ resolve_tiers swept)) in *.
    assert (Hm : ws = sort_by start_le (w0 ++ outside w0 (additive_taken ds))).
    { unfold additive_taken. destruct (sort_by sweep_le (List.filter additive ds)); ok_inv; [|done].
      cbn. rewrite app_nil_r. symmetry. by apply sort_by_id, disjoint_start_sorted. }
    destruct (merge_additive text w0 ds W1 W2 W3 Ho Hv) as (M1 & M2 & M3 & _). rewrite <- Hm in M1, M2, M3.
    split; [done|]. intros d i Hd Hna Hj Hr Hi. eapply keeps_mono; [|by apply W4; [apply Hf|..]].
    intros w Hw. rewrite <- M3 in Hw. by apply elem_filter in Hw as [? _].
  - ok_inv. destruct (resolve_overlaps_sound text ds Ho Hv) as [R1 R2]. split; [done|].
    intros d i Hd _ Hj. by rewrite (existsb_elem _ _ _ Hd Hj) in Ej.
Qed.

(** *** The overlay's deny strings taken in *)
Lemma joined_redacts text r d : (forall x, x ∈ r -> redacts x = true) -> d ∈ joined text r ->
  redacts d = true /\ ((exists x, x ∈ r /\ tier x = 0) -> tier d = 0) /\ (d ∈ r \/ tier d = 0).
Proof.
  intros Hr Hd. destruct r as [|x [|y r]]; cbn [joined] in Hd; [by apply not_elem_of_nil in Hd|..];
    apply list_elem_of_singleton in Hd as ->.
  - split_and!; [apply Hr; by left| |left; by left]. by intros (y & ->%list_elem_of_singleton & ?).
  - split_and!; [by apply redacts_deny|done|by right].
Qed.

Lemma absorb_sound text cs added s ws s' : sound text cs -> Forall (valid text) added ->
  (forall a, a ∈ added -> tier a = 0) ->
  absorb rd ask text cs added s = (Ok ws, s') ->
  sound text ws /\
  (forall w i, w ∈ cs ++ added -> redacts w = true -> covers w i -> keeps ws w i).
Proof.
  intros [Hd Hv] Hva Hta H. unfold absorb in H. ok_inv. destruct x as [r p].
  match goal with H : by_mode _ _ _ _ = _ |- _ => apply by_mode_ok in H as [-> ->] end. ok_inv.
  set (red := List.filter redacts cs). set (pass := List.filter (fun d => negb (redacts d)) cs).
  assert (Hred : forall d, d ∈ red <-> d ∈ cs /\ redacts d = true) by (intros; apply elem_filter).
  assert (Hpass : forall d, d ∈ pass <-> d ∈ cs /\ redacts d = false).
  { intros d. unfold pass. by rewrite elem_filter, negb_true_iff. }
  assert (Hvs : Forall (valid text) (red ++ added)).
  { apply Forall_app. split; [|done]. eapply Forall_sub; [|exact Hv]. naive_solver. }
  assert (Hrs : forall x, x ∈ red ++ added -> redacts x = true).
  { intros x [Hx|Hx]%elem_of_app; [naive_solver|by apply redacts_deny, Hta]. }
  destruct (unite_spec text _ Hvs) as (U1 & U2 & U3).
  set (us := unite text (red ++ added)) in *.
  pose proof (valid_nonempty _ _ Hvs) as Hne. destruct (overlapping_spec _ Hne) as (Hc & Hok & Hap).
  rewrite list.Forall_forall in Hok.
  assert (Hu : forall u, u ∈ us -> redacts u = true /\ (u ∈ red ++ added \/ tier u = 0)).
  { intros u (r & Hr & Hur)%elem_flat_map.
    destruct (joined_redacts text r u) as (? & _ & [?|?]); [|done|..|by auto].
    - intros x Hx. by eapply Hrs, overlapping_in.
    - split; [done|left]. by eapply overlapping_in. }
  set (all := sort_by start_le (us ++ pass)).
  assert (Hall : forall x, x ∈ all <-> x ∈ us \/ x ∈ pass)
    by (intros x; unfold all; by rewrite sort_by_perm, elem_of_app).
  assert (Hva' : Forall (valid text) all).
  { unfold all. rewrite sort_by_perm. apply Forall_app. split; [done|]. eapply Forall_sub; [|exact Hv]. naive_solver. }
  assert (Hpo : plan_order all).
  { split; [apply sort_start_sorted|by eapply valid_nonempty|].
    eapply Forall_impl; [|exact Hva']. intros x [Hx _ _]. lia. }
  destruct (resolve_tiers_resolution all Hpo) as [T1 T2 T3 T4].
  split; [split; [done|eapply Forall_sub; [|exact Hva']; auto]|].
  assert (Hstay : forall u, u ∈ us -> u ∈ resolve_tiers all).
  { intros u Huu. destruct (Hu u Huu) as [Hru Hor].
    assert (Hnu : nonempty u) by (by apply (disjoint_nonempty us)).
    destruct (decide (tier u = 0)) as [Ht|Ht].
    - destruct (T4 u) as (w & Hw & Htw & Hwu); [apply Hall; by left|done|].
      assert (w = u) as <-; [|done]. destruct Hwu as [|Hwu]; [done|].
      pose proof (T2 w Hw) as Hwa. apply Hall in Hwa as [Hwa|Hwa].
      + eapply (disjoint_same us); [done..|]. unfold overlap, nonempty in *. lia.
      + apply Hpass in Hwa as [_ Hwa]. by apply not_redacts_tier in Hwa.
    - destruct (T3 u) as (w & Hw & Hwu); [apply Hall; by left|].
      assert (w = u) as <-; [|done]. destruct Hwu as [|Hwu]; [done|].
      pose proof (T2 w Hw) as Hwa. apply Hall in Hwa as [Hwa|Hwa]; [by eapply (disjoint_same us)|].
      destruct Hor as [[Hin|Hin]%elem_of_app|]; [|by apply Hta in Hin|done].
      apply Hred in Hin as [? _]. apply Hpass in Hwa as [? _]. by eapply (disjoint_same cs). }
  intros w i Hw Hr Hi.
  assert (Hwin : w ∈ red ++ added).
  { apply elem_of_app in Hw as [Hw|Hw]; apply elem_of_app; [left; by apply Hred|by right]. }
  assert (exists r, r ∈ overlapping (red ++ added) /\ w ∈ r) as (r & Hin & Hwr).
  { apply concat_in. by rewrite Hc, sort_by_perm. }
  destruct (joined_spec text r (Hok r Hin) (runs_valid _ _ _ Hvs Hin)) as (u & Hur & _ & Hst & Hen).
  assert (Huin : u ∈ us) by (apply elem_flat_map; exists r; rewrite Hur; split; [done|by left]).
  destruct (run_within r w (Hok r Hin) Hwr). exists u. split_and!; [by apply Hstay|by apply Hu| |].
  - unfold covers in *. lia.
  - intros Ht. eapply (joined_redacts text r u); [|rewrite Hur; by left|by exists w].
    intros x Hx. by eapply Hrs, overlapping_in.
Qed.
End Winners.
