(* ===== verification/Windows.v ===== *)
(** * Reading long strings in windows -- src/llm_redact/detection/windows.py *)

From S2P Require Import Prelude Detection.

(** [drop_exact_duplicates]: the key of a detection, and the loop with its [seen]. *)
Definition dup_key (d : detection) : Z * Z * pystr := (start d, stop d, detector_type d).

Fixpoint drop_exact_go (seen : list (Z * Z * pystr)) (detections : list detection) : list detection :=
  match detections with
  | [] => []
  | d :: ds =>
      if decide (dup_key d ∈ seen) then drop_exact_go seen ds
      else d :: drop_exact_go (dup_key d :: seen) ds
  end.

Definition drop_exact_duplicates (detections : list detection) : list detection :=
  drop_exact_go [] detections.

Section WordWindows.
Context (costs : list Z) (max_words : nat) (budget : option Z).

Definition cost (i : nat) : Z := nth i costs 0.

(** [budget is not None and spent > budget] *)
Definition over (spent : Z) : bool := match budget with Some b => b <? spent | None => false end.

(** The inner loop: the window's end and what its words cost.  [fuel]: the words
    from [end_] on. *)
Fixpoint fill (fuel first end_ : nat) (spent : Z) : nat * Z :=
  match fuel with
  | O => (end_, spent)
  | S fuel =>
      if (end_ <? length costs)%nat && (end_ - first <? max_words)%nat then
        if (first <? end_)%nat && over (spent + cost end_) then (end_, spent)
        else fill fuel first (S end_) (spent + cost end_)
      else (end_, spent)
  end.

(** The outer loop: the windows yielded from [first] on.  [fuel]: more than the
    words from [first] on, since every window starts after the one before. *)
Fixpoint windows_from (fuel first : nat) : list (nat * nat * bool) :=
  match fuel with
  | O => []
  | S fuel =>
      let (end_, spent) := fill (length costs - first) first first 0 in
      (first, end_, over spent) ::
      if (length costs <=? end_)%nat then []
      else windows_from fuel (Nat.max (end_ - (end_ - first) / 5) (S first))
  end.

Definition word_windows : list (nat * nat * bool) := windows_from (S (length costs)) 0.

(** What the words [first] .. [end_ - 1] cost. *)
Definition spent_on (first end_ : nat) : Z := fold_right Z.add 0 (take (end_ - first) (drop first costs)).

Lemma spent_on_snoc first end_ : (first <= end_ < length costs)%nat ->
  spent_on first (S end_) = spent_on first end_ + cost end_.
Proof.
  intros H. unfold spent_on, cost. replace (S end_ - first)%nat with (S (end_ - first)) by lia.
  destruct (lookup_lt_is_Some_2 costs end_) as [c Hc]; [lia|].
  rewrite (take_S_r _ _ c), foldr_snoc, nth_lookup, Hc.
  2: { rewrite lookup_drop. by replace (first + (end_ - first))%nat with end_ by lia. }
  change (default 0 (Some c)) with c. generalize (take (end_ - first) (drop first costs)). intros l.
  induction l as [|x l IH]; cbn [foldr]; lia.
Qed.

Lemma spent_on_empty first : spent_on first first = 0.
Proof. unfold spent_on. by rewrite Nat.sub_diag. Qed.

(** What a round of the outer loop yields. *)
Record window_ok (first e : nat) (o : bool) : Prop := {
  wo_range : (first <= e <= length costs)%nat;
  wo_progress : (0 < max_words)%nat -> (first < length costs)%nat -> (first < e)%nat;
  wo_words : (e - first <= max_words)%nat;
  wo_over : o = over (spent_on first e);
  wo_alone : o = true -> (e <= S first)%nat;
  wo_maximal : (e < length costs)%nat -> (e - first < max_words)%nat -> over (spent_on first (S e)) = true
}.

Lemma fill_spec fuel first : forall e, (first <= e <= length costs)%nat -> (length costs - e <= fuel)%nat ->
  (e - first <= max_words)%nat -> (over (spent_on first e) = true -> (e <= S first)%nat) ->
  ((0 < max_words)%nat -> (first < length costs)%nat -> (first < e)%nat \/ e = first) ->
  let (e', s) := fill fuel first e (spent_on first e) in
  s = spent_on first e' /\ window_ok first e' (over s) /\ (e <= e')%nat.
Proof.
  induction fuel as [|fuel IH]; intros e Hr Hf Hw Ho Hp; cbn [fill].
  { split_and!; [done| |lia]. split; try done; intros; lia. }
  destruct (Nat.ltb_spec e (length costs)) as [Hlt|Hge]; cbn [andb].
  2: { split_and!; [done| |lia]. split; try done; intros; lia. }
  destruct (Nat.ltb_spec (e - first) max_words) as [Hm|Hm]; cbn [andb].
  2: { split_and!; [done| |lia]. split; try done; intros; lia. }
  destruct (Nat.ltb_spec first e) as [Hfe|Hfe]; cbn [andb].
  - destruct (over (spent_on first e + cost e)) eqn:Eo.
    + split_and!; [done| |lia]. split; try done. intros _ _. by rewrite spent_on_snoc by lia.
    + rewrite <- spent_on_snoc in * by lia. specialize (IH (S e)).
      destruct (fill fuel first (S e) _) as [e' s'].
      destruct IH as (? & ? & ?); [lia|lia|lia|congruence|lia|]. split_and!; [done..|lia].
  - rewrite <- spent_on_snoc by lia. specialize (IH (S e)).
    destruct (fill fuel first (S e) _) as [e' s'].
    destruct IH as (? & ? & ?); [lia|lia|lia|lia|lia|]. split_and!; [done..|lia].
Qed.

(** The windows yielded from [first] on, as the loop chains them. *)
Inductive chain : nat -> list (nat * nat * bool) -> Prop :=
| chain_last first e o : window_ok first e o -> e = length costs -> chain first [(first, e, o)]
| chain_next first e o ws : window_ok first e o -> (e < length costs)%nat ->
    chain (Nat.max (e - (e - first) / 5) (S first)) ws -> chain first ((first, e, o) :: ws).

Lemma windows_from_chain fuel : (0 < max_words)%nat -> forall first, (first <= length costs)%nat ->
  (length costs - first < fuel)%nat -> chain first (windows_from fuel first).
Proof.
  intros Hmw. induction fuel as [|fuel IH]; intros first Hr Hf; [lia|]. cbn [windows_from].
  pose proof (fill_spec (length costs - first) first first) as Hfill. rewrite spent_on_empty in Hfill.
  destruct (fill _ first first 0) as [e s]. destruct Hfill as (_ & Hok & _); [lia..|].
  pose proof (wo_range _ _ _ Hok) as Hre. destruct (Nat.leb_spec (length costs) e) as [Hle|Hlt].
  - apply chain_last; [done|lia].
  - apply chain_next; [done..|]. pose proof (wo_progress _ _ _ Hok Hmw ltac:(lia)).
    assert ((e - first) / 5 <= e - first)%nat by (apply Nat.Div0.div_le_upper_bound; lia). apply IH; lia.
Qed.

Lemma chain_covers first ws : chain first ws -> (0 < max_words)%nat -> forall i, (first <= i < length costs)%nat ->
  exists f e o, (f, e, o) ∈ ws /\ (f <= i < e)%nat.
Proof.
  induction 1 as [first e o Hok ->|first e o ws Hok Hlt _ IH]; intros Hmw i Hi.
  - exists first, (length costs), o. split; [by left|lia].
  - destruct (decide (i < e)%nat) as [Hie|Hie].
    + exists first, e, o. split; [by left|lia].
    + pose proof (wo_progress _ _ _ Hok Hmw ltac:(lia)). destruct (IH Hmw i) as (f & e' & o' & Hin & ?); [lia|].
      exists f, e', o'. split; [by right|lia].
Qed.

Lemma chain_ok first ws : chain first ws -> Forall (fun w => window_ok w.1.1 w.1.2 w.2) ws.
Proof. induction 1 as [first e o Hok _|first e o ws Hok _ _ IH]; by constructor. Qed.
End WordWindows.

(** Every word is read: [word_windows] ends (its fuel suffices), every word of
    the text lies in some window, a window holds at most [max_words] words, and
    is within the budget unless it is marked [over], which only a single word on
    its own is. *)
Theorem word_windows_cover costs max_words budget : (0 < max_words)%nat ->
  let ws := word_windows costs max_words budget in
  (forall i, (i < length costs)%nat -> exists f e o, (f, e, o) ∈ ws /\ (f <= i < e)%nat) /\
  Forall (fun w => let '(f, e, o) := w in (f <= e <= length costs)%nat /\ (e - f <= max_words)%nat /\
    (o = false -> over budget (spent_on costs f e) = false) /\ (o = true -> (e <= S f)%nat)) ws.
Proof.
  intros Hmw ws. assert (chain costs max_words budget 0 ws) as Hc by (apply windows_from_chain; lia). split.
  - intros i Hi. eapply chain_covers; [done..|lia].
  - apply chain_ok in Hc. eapply List.Forall_impl; [|exact Hc]. intros [[f e] o] [Hr _ Hw Ho Ha _].
    cbn [fst snd] in *. subst o. split; [exact Hr|]. split; [exact Hw|]. split; [done|exact Ha].
Qed.

Lemma word_windows_cover_witness :
  word_windows [3; 1; 40; 2; 2; 2] 3 (Some 10) = [(0, 2, false); (2, 3, true); (3, 6, false)]%nat /\
  forall i, (i < 6)%nat -> exists f e o, (f, e, o) ∈ word_windows [3; 1; 40; 2; 2; 2] 3 (Some 10) /\ (f <= i < e)%nat.
Proof.
  split; [vm_compute; reflexivity|].
  apply (word_windows_cover [3; 1; 40; 2; 2; 2] 3 (Some 10)). lia.
Defined.

Lemma no_budget_full costs max_words first ws : chain costs max_words None first ws -> (0 < max_words)%nat ->
  forall a b, (first <= a)%nat -> (a < b <= length costs)%nat -> (b - a <= max_words / 5 + 1)%nat ->
  exists f e o, (f, e, o) ∈ ws /\ (f <= a)%nat /\ (b <= e)%nat.
Proof.
  induction 1 as [first e o Hok ->|first e o ws Hok Hlt Hc IH]; intros Hmw a b Ha Hb Hl.
  - exists first, (length costs), o. split; [by left|lia].
  - destruct (decide (b <= e)%nat) as [Hbe|Hbe]; [exists first, e, o; split; [by left|lia]|].
    assert (e - first = max_words)%nat as He.
    { pose proof (wo_words _ _ _ _ _ _ Hok). destruct (decide (e - first < max_words)%nat) as [Hm|]; [|lia].
      by pose proof (wo_maximal _ _ _ _ _ _ Hok Hlt Hm). }
    assert (5 * (max_words / 5) <= max_words)%nat by (apply Nat.Div0.mul_div_le).
    destruct (IH Hmw a b) as (f & e' & o' & Hin & ?); [rewrite He; lia|lia|lia|].
    exists f, e', o'. split; [by right|lia].
Qed.

(** Without a budget, nothing is cut at a seam: a value up to one word more than
    a fifth of [max_words] long lies whole inside one window, wherever it is. *)
Theorem word_windows_seam costs max_words a b : (0 < max_words)%nat ->
  (a < b <= length costs)%nat -> (b - a <= max_words / 5 + 1)%nat ->
  exists f e o, (f, e, o) ∈ word_windows costs max_words None /\ (f <= a)%nat /\ (b <= e)%nat.
Proof.
  intros Hmw Hb Hl. eapply no_budget_full; [apply windows_from_chain; lia|lia..].
Qed.

Lemma word_windows_seam_witness :
  exists f e o, (f, e, o) ∈ word_windows (replicate 23 1) 10 None /\ (f <= 9)%nat /\ (12 <= e)%nat.
Proof. apply (word_windows_seam (replicate 23 1) 10 9 12); [lia|cbn; lia|cbn; lia]. Defined.

(** With a budget the docstring's promise fails: a two-word value at the seam of
    a ten-word window -- a fifth of its length -- is cut by every window, although
    the two words together are within the budget. *)
Theorem word_windows_budget_seam :
  let costs := replicate 10 10 ++ [90; 1] in
  let ws := word_windows costs 10 (Some 100) in
  head ws = Some (0, 10, false)%nat /\ spent_on costs 9 11 = 100 /\
  forallb (fun w => let '(f, e, _) := w in negb ((f <=? 9) && (11 <=? e)))%nat ws = true.
Proof. vm_compute. split_and!; reflexivity. Qed.
