(* ===== verification/Redaction.v ===== *)
(** * Redaction and the round trip

    What [Redactor.redact_text] of src/llm_redact/redactor.py makes of a text, and
    that restoring a response undoes it ([Rehydrate], [Streaming]): the proxy's
    purpose, end to end. *)

From S2P Require Import Prelude PyRegex Json Placeholders JsonWalk TokenSearch Vault Rehydrate.
From S2P Require Import Streaming Detection Overlaps Redactor Winners.

Local Open Scope mon_scope.

(** ** What a run leaves unchanged *)
Section Preserve.
Context {St E X : Type} (f : St -> X).

Definition pres {A} (m : M St E A) : Prop := forall s, f (m s).2 = f s.

Lemma pres_ret {A} (a : A) : pres (mret a).
Proof. done. Qed.
Lemma pres_raise {A} (e : E) : pres (A := A) (mraise e).
Proof. done. Qed.
Lemma pres_bnd {A B} (m : M St E A) (k : A -> M St E B) :
  pres m -> (forall a, pres (k a)) -> pres (mbnd m k).
Proof.
  intros Hm Hk s. unfold mbnd. specialize (Hm s). destruct (m s) as [[a|e] s1]; cbn in *; [|done].
  by rewrite Hk.
Qed.
Lemma pres_if {A} (b : bool) (m1 m2 : M St E A) : pres m1 -> pres m2 -> pres (if b then m1 else m2).
Proof. by destruct b. Qed.
End Preserve.

#[export] Hint Resolve pres_ret pres_raise pres_if : redact.

Section ResolutionFrame.
Context {St X : Type} (f : St -> X) (rd : redactor) (ask : detection -> M St refusal bool).
Hypothesis ask_pres : forall d, pres f (ask d).

Lemma by_mode_pres ds : pres f (by_mode rd ask ds).
Proof.
  induction ds as [|d ds IH]; cbn [by_mode]; [auto with redact|]. apply pres_bnd.
  - destruct (decide _); auto with redact.
  - intros []; [|auto with redact]. apply pres_bnd; [done|]. intros [r p].
    destruct (decide _); auto with redact.
Qed.

Lemma join_pres text run : pres f (join rd ask text run).
Proof. apply pres_bnd; [apply by_mode_pres|]. intros [r p]. auto with redact. Qed.

Lemma join_runs_pres text runs : pres f (join_runs rd ask text runs).
Proof.
  induction runs as [|run runs IH]; cbn [join_runs]; [auto with redact|]. apply pres_if.
  - apply pres_bnd; [apply join_pres|]. intros j. apply pres_bnd; [done|]. intros []. auto with redact.
  - apply pres_bnd; [done|]. intros []. auto with redact.
Qed.

Lemma resolved_pres text ds : pres f (resolved rd ask text ds).
Proof.
  unfold resolved. apply pres_if; [auto with redact|]. apply pres_bnd; [apply join_runs_pres|].
  intros []. destruct (sort_by _ _); auto with redact.
Qed.

Lemma resolution_pres text found added : pres f (resolution_of rd ask text found added).
Proof.
  apply pres_bnd; [apply resolved_pres|]. intros cs. destruct added; [|auto with redact].
  apply pres_bnd; [apply by_mode_pres|]. intros []. auto with redact.
Qed.
End ResolutionFrame.

(** What detection owes the redactor: its answers are in the plan's order and
    name spans of the text, with types tokens can carry. *)
Record detector_ok (rd : redactor) : Prop := {
  dk_raise text e : detect rd text = Raise e -> exists backend reason, e = DetectorUnavailable backend reason;
  dk_plan text ds : detect rd text = Ok ds -> plan_order ds /\ Forall (valid text) ds;
  dk_added f text : added_deny rd = Some f ->
    Forall (valid text) (f text) /\ forall d, d ∈ f text -> tier d = 0;
  dk_floors ty n : floors rd !! ty = Some n -> 0 <= n
}.

Section Redaction.
Context {V O : Type} `{VaultLaws V} `{OverrideOps O} (rd : redactor).

Abbreviation S := (rstate V O).
Abbreviation ask := (overridden (V := V) (O := O) rd).

(** The part of the state only [redact_text] itself changes. *)
Definition issued (s : S) : V * gmap pystr Z * Z := (vault s, counts s, used s).

Lemma overridden_pres d : pres issued (ask d).
Proof.
  intros s. unfold overridden, mbnd, mget. destruct (overrides s) as [o|] eqn:E; [|done].
  destruct (decide _); [done|]. unfold put_to, mbnd, mget. rewrite E.
  by destruct (allows o _ _).
Qed.

Lemma settled_ok text found added u (s : S) ws s' : settled rd text found added u s = (Ok ws, s') ->
  exists s0 s1, resolution_of rd ask text found added s0 = (Ok ws, s1) /\
    issued s' = issued s.
Proof.
  unfold settled. intros Hm. apply mbnd_ok in Hm as (t & s0 & Hu & Hm).
  assert (issued s0 = issued s) as Hs0.
  { destruct (u && _); [unfold unoverride, mmodify in Hu|unfold mret in Hu]; by inversion Hu. }
  pose proof (resolution_pres issued rd ask overridden_pres text found added s0) as Hp.
  destruct (resolution_of rd ask text found added s0) as [[ws'|[]] s1] eqn:E; try done.
  - apply mbnd_ok in Hm as (t' & s2 & Hw & Hm). apply mret_ok in Hm as [-> ->]. exists s0, s1.
    split; [done|]. rewrite <- Hs0, <- Hp. cbn.
    destruct (warns rd); [unfold mmodify in Hw|unfold mret in Hw]; by inversion Hw.
  - apply mbnd_ok in Hm as (t' & s2 & Hw & Hm). discriminate Hm.
Qed.

Lemma winners_ok text u (s : S) ws s' : detector_ok rd -> winners rd text u s = (Ok ws, s') ->
  exists ds, detect rd text = Ok ds /\ sound text ws /\ issued s' = issued s /\
    forall d i, tier d = 0 ->
      (d ∈ ds \/ exists f, added_deny rd = Some f /\ d ∈ f text) -> covers d i ->
      keeps rd ws d i.
Proof.
  intros [_ Hdk Hak _] Hm. unfold winners in Hm. apply mbnd_ok in Hm as (ds & s1 & Hd & Hm).
  unfold lift in Hd. assert (detect rd text = Ok ds /\ s1 = s) as [Hdet ->] by (split; congruence). clear Hd.
  destruct (Hdk text ds Hdet) as [Ho Hv]. apply settled_ok in Hm as (s0 & s2 & Hr & Hi).
  exists ds. split; [done|]. unfold resolution_of in Hr. apply mbnd_ok in Hr as (cs & s3 & Hc & Hr).
  destruct (resolved_sound rd _ text ds _ cs _ Ho Hv Hc) as [Hcs Hck].
  assert (Hdeny : forall d i, d ∈ ds -> tier d = 0 -> covers d i -> keeps rd cs d i).
  { intros d i Hd Ht Hi'. apply Hck; try done.
    - unfold additive. rewrite Ht. done.
    - unfold joins_others. rewrite Ht. by rewrite orb_true_r.
    - by apply redacts_deny. }
  destruct (added_deny rd) as [f|] eqn:Ef; cbn [option_map] in Hr.
  - destruct (Hak f text eq_refl) as [Hva Hta].
    destruct (absorb_sound rd _ text cs (f text) _ ws _ Hcs Hva Hta Hr) as [Hws Hk].
    split_and!; [done..|]. intros d i Ht [Hd|(f' & [= <-] & Hd)] Hi'.
    + destruct (Hdeny d i Hd Ht Hi') as (w & Hw & Hrw & Hcw & Htw).
      destruct (Hk w i) as (w' & ? & ? & ? & Htw'); [apply elem_of_app; by left|done..|].
      exists w'. split_and!; auto.
    + apply Hk; [apply elem_of_app; by right|by apply redacts_deny|done].
  - ok_inv. split_and!; [done|unfold issued; congruence|]. intros d i Ht [Hd|(f' & ? & _)] Hi'; [auto|done].
Qed.

(** ** The output of [redact_text]

    [spliced v text cursor ws out]: [out] is the text from [cursor] with each
    redacting winner replaced by a token that [v] resolves to its value. *)
Inductive spliced (v : V) (text : pystr) : Z -> list detection -> pystr -> Prop :=
| spliced_end cursor : spliced v text cursor [] (pyfrom text cursor)
| spliced_pass cursor d ds out : redacts rd d = false ->
    spliced v text cursor ds out -> spliced v text cursor (d :: ds) out
| spliced_token cursor d ds n rest : redacts rd d = true ->
    is_placeholder_type (detector_type d) = true -> 1 <= n <= MAX_TOKEN_NUMBER ->
    original_for v (format_placeholder (detector_type d) n) = Some (value d) ->
    spliced v text (stop d) ds rest ->
    spliced v text cursor (d :: ds)
      (span_text text cursor (start d) ++ format_placeholder (detector_type d) n ++ rest).

(** A vault only learns: what it restores it keeps restoring. *)
Definition extends (v v' : V) : Prop :=
  forall t o, original_for v t = Some o -> original_for v' t = Some o.

Lemma extends_trans v1 v2 v3 : extends v1 v2 -> extends v2 v3 -> extends v1 v3.
Proof. unfold extends. auto. Qed.

Lemma issue_extends v ty o fl tok v' : vinv v -> is_placeholder_type ty = true -> 0 <= fl ->
  placeholder_for v ty o fl = (Ok tok, v') -> extends v v'.
Proof.
  intros Hv Hty Hfl Hp t x Ht.
  destruct (vinv_issue v ty o fl tok v' Hv Hty Hfl Hp) as (_ & Hr & _ & Hor & Hother).
  destruct (decide (t = tok)) as [->|Hne]; [|by rewrite Hother].
  destruct Hor as [Hnone| ->]; congruence.
Qed.

Lemma spliced_extends v v' text cursor ws out : extends v v' ->
  spliced v text cursor ws out -> spliced v' text cursor ws out.
Proof.
  intros He. induction 1; [constructor|by apply spliced_pass|by apply spliced_token; auto].
Qed.

Lemma floor_nonneg ty : detector_ok rd -> 0 <= default 0 (floors rd !! ty).
Proof.
  intros [_ _ _ Hf]. destruct (floors rd !! ty) as [n|] eqn:E; cbn; [|done]. by eapply Hf.
Qed.

Lemma replace_from_ok text ws : detector_ok rd -> Forall (valid text) ws ->
  forall cursor (s : S) out s', vinv (vault s) -> replace_from rd text cursor ws s = (Ok out, s') ->
  vinv (vault s') /\ extends (vault s) (vault s') /\ spliced (vault s') text cursor ws out.
Proof.
  intros Hdk. induction 1 as [|d ws Hd Hws IH]; intros cursor s out s' Hv Hm; cbn [replace_from] in Hm.
  { ok_inv. split_and!; [done|by intros ??|constructor]. }
  destruct (mode_of rd d) eqn:Emode.
  - apply mbnd_ok in Hm as (tok & s1 & Hp & Hm). apply mbnd_ok in Hm as (t & s2 & Hc & Hm).
    apply mbnd_ok in Hm as (rest & s3 & Hrec & Hm). apply mret_ok in Hm as [-> ->].
    unfold placeholder in Hp. destruct Hd as [_ _ Hty].
    destruct (placeholder_for (vault s) _ _ _) as [[tok'|[]] v'] eqn:Epf; try done.
    apply pair_equal_spec in Hp as [Htok <-]. assert (tok' = tok) as -> by congruence.
    pose proof (floor_nonneg (detector_type d) Hdk) as Hfl.
    destruct (vinv_issue _ _ _ _ _ _ Hv Hty Hfl Epf) as (Hv' & Hres & (n & -> & Hn) & _).
    pose proof (issue_extends _ _ _ _ _ _ Hv Hty Hfl Epf) as He.
    unfold mmodify in Hc. apply pair_equal_spec in Hc as [_ <-].
    destruct (IH (stop d) (set_counts _ (set_vault v' s)) rest s3 Hv' Hrec) as (Hv3 & He3 & Hsp). cbn in He3. split_and!; [done|..].
    + by eapply extends_trans.
    + apply spliced_token; [by apply bool_decide_eq_true|done..| |done]. by apply He3.
  - destruct (IH cursor s out s' Hv Hm) as (? & ? & ?). split_and!; [done..|].
    apply spliced_pass; [|done]. apply bool_decide_eq_false. congruence.
  - apply mbnd_ok in Hm as (ok & s1 & Ho & Hm). destruct ok; [|discriminate Hm].
    assert (vault s1 = vault s) as Hvs.
    { pose proof (overridden_pres d s) as Hp. rewrite Ho in Hp. unfold issued in Hp. cbn in Hp. congruence. }
    rewrite <- Hvs in Hv. destruct (IH cursor s1 out s' Hv Hm) as (? & He & ?). rewrite Hvs in He.
    split_and!; [done..|]. apply spliced_pass; [|done]. apply bool_decide_eq_false. congruence.
Qed.

Lemma pyfrom_0 (text : pystr) : pyfrom text 0 = text.
Proof.
  unfold pyfrom, py_bound. change (0 <? 0) with false. cbv iota.
  by replace (Z.to_nat _) with 0%nat by lia.
Qed.

Lemma redact_text_ok text (s : S) out s' : detector_ok rd -> vinv (vault s) ->
  redact_text rd text s = (Ok out, s') ->
  exists ds ws, detect rd text = Ok ds /\ sound text ws /\
    vinv (vault s') /\ extends (vault s) (vault s') /\ spliced (vault s') text 0 ws out /\
    forall d i, tier d = 0 -> (d ∈ ds \/ exists f, added_deny rd = Some f /\ d ∈ f text) ->
      covers d i -> keeps rd ws d i.
Proof.
  intros Hdk Hv Hm. unfold redact_text in Hm. apply mbnd_ok in Hm as (t & s1 & Hc & Hm).
  assert (vault s1 = vault s) as Hs1.
  { unfold charge in Hc. destruct (budget_limit rd) as [lim|]; [|by apply mret_ok in Hc as [_ ->]].
    unfold mbnd, mget, mput in Hc. destruct (_ <? _); [discriminate Hc|].
    apply mret_ok in Hc as [_ ->]. done. }
  apply mbnd_ok in Hm as (ws & s2 & Hw & Hm).
  destruct (winners_ok text false s1 ws s2 Hdk Hw) as (ds & Hdet & Hsound & Hi & Hk).
  assert (vault s2 = vault s) as Hs2 by (unfold issued in Hi; congruence).
  assert (vinv (vault s') /\ extends (vault s) (vault s') /\ spliced (vault s') text 0 ws out)
    as (? & ? & ?); [|exists ds, ws; auto 10].
  rewrite <- Hs2 in *. destruct ws as [|w ws].
  - ok_inv. split_and!; [done|by intros ??|]. rewrite <- (pyfrom_0 text) at 2. constructor.
  - destruct Hsound as [_ Hvs]. by apply replace_from_ok.
Qed.
End Redaction.
