(* ===== verification/RoundTrip.v ===== *)
(** * The round trip

    A redacted text restored through the vault that redacted it -- whole, or
    streamed back in chunks cut anywhere -- is the original text. *)

From S2P Require Import Prelude PyRegex Json Placeholders JsonWalk TokenSearch Vault Rehydrate.
From S2P Require Import Streaming Detection Overlaps Redactor Winners Redaction.

(** ** Issued tokens in either grammar *)
Section Issued.
Context {V : Type} `{VaultLaws V} (fuzzy : bool) (v : V).

Lemma issued_pattern ty n : is_placeholder_type ty = true -> 1 <= n <= MAX_TOKEN_NUMBER ->
  is_match (pattern fuzzy) (format_placeholder ty n) = true.
Proof.
  intros Hty Hn. destruct fuzzy; [|apply issued_is_match; [done|lia]].
  pose proof (canonicalize_issued_id ty n Hty ltac:(lia)) as Hc. unfold canonicalize in Hc.
  cbn [pattern]. unfold is_match. by destruct (fullmatch FUZZY_PLACEHOLDER_RE _).
Qed.

Lemma issued_resolve ty n o : is_placeholder_type ty = true -> 1 <= n <= MAX_TOKEN_NUMBER ->
  original_for v (format_placeholder ty n) = Some o ->
  resolve fuzzy v (format_placeholder ty n) = Some (format_placeholder ty n, o).
Proof.
  intros Hty Hn Ho. unfold resolve. destruct fuzzy; [|by rewrite Ho].
  rewrite canonicalize_issued_id by (done || lia). by rewrite Ho.
Qed.

Lemma issued_replacement ty n o : is_placeholder_type ty = true -> 1 <= n <= MAX_TOKEN_NUMBER ->
  original_for v (format_placeholder ty n) = Some o ->
  replacement fuzzy false v (format_placeholder ty n) = o.
Proof. intros Hty Hn Ho. unfold replacement. by rewrite (issued_resolve ty n o). Qed.

(** An issued token opens one guillemet, at its start, and closes it at its end. *)
Lemma issued_shape ty n : is_placeholder_type ty = true -> 0 <= n ->
  exists b, format_placeholder ty n = LAQUO :: b ++ [RAQUO] /\ no_guill b = true /\
    forallb cls_AZ09_ b = true.
Proof.
  intros Hty Hn. rewrite format_placeholder_eq. eexists. split; [done|].
  assert (forallb cls_AZ09_ (ty ++ 95 :: token_digits n) = true) as Hb.
  { rewrite forallb_app, placeholder_type_cls by done. cbn.
    destruct (token_digits_spec n Hn) as [H9 _]. by apply (forallb_impl is_09); [apply is_09_cls|]. }
  split; [|done]. by eapply no_guill_forallb; [apply cls_AZ09_guill|].
Qed.

Lemma issued_held ty n b u : is_placeholder_type ty = true -> 1 <= n <= MAX_TOKEN_NUMBER ->
  format_placeholder ty n = LAQUO :: b ++ u -> u <> [] -> viable fuzzy b = true.
Proof.
  intros Hty Hn Heq Hu.
  assert (zlen (LAQUO :: b ++ u) <= MAX_PLACEHOLDER_LEN) as Hl
    by (rewrite <- Heq; apply issued_length; [done|lia]).
  destruct (issued_shape ty n Hty ltac:(lia)) as (c & Hc & _ & Hcls).
  destruct (exists_last Hu) as (u' & y & ->).
  assert (c = b ++ u') as -> by
    (rewrite Hc in Heq; injection Heq as Heq; rewrite app_assoc in Heq; by apply app_inj_tail in Heq as [? _]).
  apply forallb_app_l in Hcls as Hb. unfold viable. apply andb_true_iff. split.
  - rewrite zlen_cons, !zlen_app in Hl. rewrite zlen_cons. unfold zlen in *. cbn in Hl. lia.
  - destruct fuzzy.
    + apply is_match_interior. rewrite format_placeholder_eq in Hc. injection Hc as Hc.
      apply app_inj_tail in Hc as [Hc _].
      apply is_placeholder_type_spec in Hty as (_ & a & t & -> & Ha & Ht).
      destruct b as [|a' b]; [apply (interior_pad []); [cbn; lia|done]|]. cbn in Hc. injection Hc as <- _.
      apply (interior_word [] a b); [cbn; lia|done|unfold cls_letter; by rewrite Ha|].
      cbn in Hb. bool_simpl. eapply forallb_impl; [|done]. unfold cls_AZ09_, cls_word. char_solve.
    + eapply forallb_impl; [|exact Hb]. intros x. by rewrite is_match_body.
Qed.
End Issued.

(** ** Texts without guillemets, and a token in front *)
Section Safe.
Context {V : Type} `{VaultLaws V} (fuzzy : bool) (v : V).

Abbreviation safe := (safe fuzzy v false).

Lemma token_start_at w (a c s : pystr) : is_match (pattern fuzzy) w = true -> s = a ++ w ++ c ->
  exists w', s = a ++ LAQUO :: w' /\ w ++ c = LAQUO :: w'.
Proof. intros (b & -> & _)%token_shape ->; [|apply _]. eexists. split; [|done]. done. Qed.

Lemma safe_plain s : mem_char LAQUO s = false -> safe s.
Proof.
  intros Hs. split; intros a w c; [intros b u|..]; intros Heq Hw; exfalso;
    destruct (token_start_at w a c s Hw Heq) as (w' & -> & _);
    rewrite mem_char_app, mem_char_cons, Z.eqb_refl, orb_true_r in Hs; done.
Qed.

(** The occurrences of a token in [p ++ tok ++ t], [p] without guillemets. *)
Lemma occurrence p ty n t a w c : mem_char LAQUO p = false ->
  is_placeholder_type ty = true -> 1 <= n <= MAX_TOKEN_NUMBER ->
  p ++ format_placeholder ty n ++ t = a ++ w ++ c -> is_match (pattern fuzzy) w = true ->
  (a = p /\ w = format_placeholder ty n) \/
  exists a', a = p ++ format_placeholder ty n ++ a' /\ t = a' ++ w ++ c.
Proof.
  intros Hp Hty Hn Heq Hw. destruct (issued_shape ty n Hty ltac:(lia)) as (b & Hb & Hg & _).
  pose proof (issued_pattern fuzzy ty n Hty Hn) as HF.
  assert (Hsame : format_placeholder ty n ++ t = w ++ c -> w = format_placeholder ty n).
  { intros Hx. by destruct (token_unique (pattern fuzzy) _ t w c HF Hw Hx) as [-> _]. }
  destruct (token_shape _ w Hw) as (wb & Hwb & _).
  apply app_eq_inv in Heq as [(k & Hpk & Hk)|(k & -> & Hk)].
  - destruct k as [|x k]; [left; rewrite app_nil_r in Hpk; split; [done|by apply Hsame]|].
    exfalso. rewrite Hwb in Hk. injection Hk as <- _.
    by rewrite Hpk, mem_char_app, mem_char_cons, Z.eqb_refl, orb_true_r in Hp.
  - apply app_eq_inv in Hk as [(k' & Hk' & Hk)|(k' & -> & ->)]; [|right; exists k'; by rewrite app_assoc].
    destruct k' as [|x k'].
    { rewrite app_nil_r in Hk'. subst k. right. exists []. rewrite app_nil_r. by rewrite Hk. }
    destruct k as [|y k]; [left; rewrite app_nil_r; split; [done|]; apply Hsame; by rewrite Hk', Hk|].
    exfalso. rewrite Hwb in Hk. injection Hk as <- _. rewrite Hb in Hk'. injection Hk' as _ Hk'.
    apply no_guill_iff in Hg as [Hg _]. apply (f_equal (mem_char LAQUO)) in Hk'.
    rewrite !mem_char_app, !mem_char_cons, Hg, Z.eqb_refl, orb_true_r in Hk'. done.
Qed.

Lemma vps_closed p ty n a : is_placeholder_type ty = true -> 1 <= n <= MAX_TOKEN_NUMBER ->
  viable_prefix_start fuzzy a = None ->
  viable_prefix_start fuzzy (p ++ format_placeholder ty n ++ a) = None.
Proof.
  intros Hty Hn Ha. destruct (issued_shape ty n Hty ltac:(lia)) as (b & -> & [Hg _]%no_guill_iff & _).
  destruct (laquo_cases a) as [H0'|(a1 & a2 & -> & H2)].
  - cbn. rewrite vps_cut by (by rewrite !mem_char_app, Hg, H0').
    by rewrite !mem_char_app, mem_char_cons, Z.eqb_refl, orb_true_r.
  - rewrite !app_assoc, !vps_cut in * by done. destruct (mem_char RAQUO a2); [done|].
    by destruct (viable fuzzy a2).
Qed.

Lemma safe_token p ty n t o : mem_char LAQUO p = false ->
  is_placeholder_type ty = true -> 1 <= n <= MAX_TOKEN_NUMBER ->
  original_for v (format_placeholder ty n) = Some o -> mem_char LAQUO o = false ->
  safe t -> safe (p ++ format_placeholder ty n ++ t).
Proof.
  intros Hp Hty Hn Ho Hol [S1 S2 S3]. split; intros a w c.
  - intros b u Heq Hw Hr Hwb Hg.
    destruct (occurrence p ty n t a w c Hp Hty Hn Heq Hw) as [[_ ->]|(a' & _ & ->)]; [|by eapply S1].
    eapply issued_held; [done..|]. intros ->. rewrite app_nil_r in Hwb.
    destruct (issued_shape ty n Hty ltac:(lia)) as (b' & Hb' & _). rewrite Hb' in Hwb.
    injection Hwb as <-. apply no_guill_iff in Hg as [_ Hg]. by rewrite mem_char_app, orb_true_r in Hg.
  - intros Heq Hw Hr.
    destruct (occurrence p ty n t a w c Hp Hty Hn Heq Hw) as [[-> _]|(a' & -> & ->)].
    + by apply vps_plain.
    + apply vps_closed; [done..|]. by eapply S2.
  - intros Heq Hw Hr.
    destruct (occurrence p ty n t a w c Hp Hty Hn Heq Hw) as [[_ ->]|(a' & _ & ->)]; [|by eapply S3].
    by rewrite (issued_replacement fuzzy v ty n o).
Qed.
End Safe.

(** ** Slices of a text *)
Lemma pyfrom_nat {A} (l : list A) a : 0 <= a <= zlen l -> pyfrom l a = drop (Z.to_nat a) l.
Proof.
  unfold zlen, pyfrom, py_bound. intros Ha. destruct (Z.ltb_spec a 0); [lia|]. f_equal. lia.
Qed.

Lemma slice_cut {A} (l : list A) a b : 0 <= a <= b -> b <= zlen l ->
  pyfrom l a = pyslice l a b ++ pyfrom l b.
Proof.
  intros H1 H2. rewrite !pyfrom_nat, pyslice_nat by lia.
  rewrite <- (take_drop (Z.to_nat (b - a)) (drop (Z.to_nat a) l)) at 1. f_equal.
  rewrite drop_drop. f_equal. lia.
Qed.

Lemma mem_char_sub c s s' : (forall x, x ∈ s -> x ∈ s') -> mem_char c s' = false -> mem_char c s = false.
Proof.
  intros Hs. destruct (mem_char c s) eqn:E; [|done]. apply mem_char_elem, Hs, mem_char_elem in E. congruence.
Qed.

Lemma mem_pyslice c s a b : mem_char c s = false -> mem_char c (pyslice s a b) = false.
Proof.
  apply mem_char_sub. intros x Hx. unfold pyslice in Hx. apply (elem_of_sublist _ _ _ Hx).
  etrans; [apply sublist_take|apply sublist_drop].
Qed.

Lemma mem_pyfrom c s a : mem_char c s = false -> mem_char c (pyfrom s a) = false.
Proof.
  apply mem_char_sub. intros x Hx. unfold pyfrom in Hx. apply (elem_of_sublist _ _ _ Hx), sublist_drop.
Qed.

(** ** Redacted text *)
Section Spliced.
Context {V : Type} `{VaultLaws V} (rd : redactor) (fuzzy : bool) (v : V) (text : pystr).
Hypothesis no_open : mem_char LAQUO text = false.

Lemma spliced_safe cursor ws out : Forall (valid text) ws -> spliced rd v text cursor ws out ->
  safe fuzzy v false out.
Proof.
  intros Hv. induction 1 as [cursor|cursor d ds out Hr Hs IH|cursor d ds n rest Hr Hty Hn Ho Hs IH].
  - by apply safe_plain, mem_pyfrom.
  - inversion Hv; subst. auto.
  - inversion Hv as [|?? [_ Hval _] Hvs]; subst. eapply safe_token; [|done..| |by apply IH].
    + by apply mem_pyslice.
    + rewrite Hval. by apply mem_pyslice.
Qed.

Lemma spliced_restores cursor ws out : Forall (valid text) ws -> StronglySorted before ws ->
  0 <= cursor <= zlen text -> Forall (fun d => cursor <= start d) ws ->
  spliced rd v text cursor ws out ->
  subst (pattern fuzzy) (fun c => c) (replacement fuzzy false v) out = pyfrom text cursor.
Proof.
  intros Hv Hb Hc Hst Hs. revert Hv Hb Hc Hst.
  induction Hs as [cursor|cursor d ds out Hr Hs IH|cursor d ds n rest Hr Hty Hn Ho Hs IH]; intros.
  - rewrite subst_plain_all; [apply map_id|apply _|]. by apply mem_pyfrom.
  - inversion Hv; subst. inversion Hb; subst. inversion Hst; subst. auto.
  - inversion Hv as [|?? Hd Hvs]; subst. inversion Hb as [|?? Hbs Hbd]; subst. 
    inversion Hst as [|?? Hsd _]; subst. destruct Hd as [Hsp Hval _].
    rewrite subst_plain; [|apply _|by apply mem_pyslice]. rewrite map_id.
    rewrite subst_token by (apply _ || by apply issued_pattern).
    rewrite IH; [|done|done|lia|done].
    rewrite (issued_replacement fuzzy v _ n _ Hty Hn Ho), Hval. unfold span_text.
    rewrite <- slice_cut by lia. symmetry. apply slice_cut; lia.
Qed.
End Spliced.

Lemma rehydrate_subst {V} `{VaultOps V} fuzzy (v : V) counts s :
  (rehydrate_text fuzzy v counts s).1 = subst (pattern fuzzy) (fun c => c) (replacement fuzzy false v) s.
Proof. by rewrite subst_sub. Qed.

(** What [redact_text] makes of a text without opening guillemets is restored by any
    vault that kept what the redacting vault knew, and is safe to stream. *)
Lemma redacted_restores {V O} `{VaultLaws V} `{OverrideOps O} rd fuzzy text (s : rstate V O) out s' v :
  detector_ok rd -> vinv (vault s) -> mem_char LAQUO text = false ->
  redact_text rd text s = (Ok out, s') -> extends (vault s') v ->
  safe fuzzy v false out /\ forall counts, (rehydrate_text fuzzy v counts out).1 = text.
Proof.
  intros Hdk Hv Ht Hred Hext.
  destruct (redact_text_ok rd text s _ s' Hdk Hv Hred) as (ds & ws & _ & [[Hb _] Hvs] & _ & _ & Hsp & _).
  apply (spliced_extends rd _ v) in Hsp; [|done]. split; [by eapply (spliced_safe rd fuzzy v text Ht 0 ws)|]. intros counts.
  rewrite rehydrate_subst, (spliced_restores rd fuzzy v text Ht 0 ws); try done.
  - apply pyfrom_0.
  - pose proof (zlen_nonneg text). lia.
  - eapply Forall_impl; [|exact Hvs]. intros d [Hd _ _]. lia.
Qed.

(** C1: redaction followed by restoration is the identity: the text [redact_text]
    makes of a text without opening guillemets is restored to it by any vault that
    has kept what the redacting vault knew -- in one pass, and streamed in chunks
    cut anywhere, in strict and in fuzzy mode, whatever was detected, joined,
    forwarded under an override or numbered above the request's floors. *)
Theorem redaction_round_trip {V O} `{VaultLaws V} `{OverrideOps O} rd fuzzy text (s : rstate V O) out s' v
    chunks counts :
  detector_ok rd -> vinv (vault s) -> mem_char LAQUO text = false ->
  redact_text rd text s = (Ok out, s') -> extends (vault s') v -> concat chunks = out ->
  (rehydrate_text fuzzy v counts out).1 = text /\
  (stream v (new_channel false fuzzy) counts chunks).1 = text.
Proof.
  intros Hdk Hv Ht Hred Hext <-. destruct (redacted_restores rd fuzzy text s _ s' v Hdk Hv Ht Hred Hext) as [Hs Hw].
  split; [apply Hw|]. rewrite (stream_pieces fuzzy v chunks counts); [apply Hw|done].
Qed.

(** C20: nothing of a deny string leaves: the output of [redact_text] is the text
    with disjoint spans replaced by tokens of the vault, and every character of
    every deny string found, configured or added by an access gate, lies in a
    replaced span. *)
Theorem deny_strings_replaced {V O} `{VaultLaws V} `{OverrideOps O} rd text (s : rstate V O) out s' :
  detector_ok rd -> vinv (vault s) -> redact_text rd text s = (Ok out, s') ->
  exists ds ws, detect rd text = Ok ds /\ disjoint_sorted ws /\ Forall (valid text) ws /\
    spliced rd (vault s') text 0 ws out /\
    forall d i, tier d = 0 -> (d ∈ ds \/ exists f, added_deny rd = Some f /\ d ∈ f text) -> covers d i ->
      exists w, w ∈ ws /\ mode_of rd w = MRedact /\ covers w i.
Proof.
  intros Hdk Hv Hred.
  destruct (redact_text_ok rd text s _ s' Hdk Hv Hred) as (ds & ws & Hdet & [Hd Hvs] & _ & _ & Hsp & Hk).
  exists ds, ws. split_and!; try done. intros d i Ht Hin Hi.
  destruct (Hk d i Ht Hin Hi) as (w & ? & Hr & ? & _). exists w. split_and!; [done| |done].
  by apply bool_decide_eq_true in Hr.
Qed.

(** *** A concrete redactor *)
#[export] Instance no_overrides : OverrideOps unit := {| allows o _ _ := (false, o); unoverridable o := o |}.

Definition demo_text : pystr := lit "mail jo@x.org about Aurora or call +1 555-0100".

Definition demo_found : list detection :=
  [demo_detection 5 13 "EMAIL" demo_text 100 1; demo_detection 20 26 "DENY" demo_text 0 0;
   demo_detection 35 46 "PHONE" demo_text 100 1].

Definition demo_redactor : redactor :=
  mk_redactor (fun t => Ok (if decide (t = demo_text) then demo_found else [])) None ∅ ∅ None ∅ false.

Definition demo_state : rstate InMemoryVault.t unit := mk_rstate InMemoryVault.empty ∅ ∅ 0 None.

Lemma demo_redactor_ok : detector_ok demo_redactor.
Proof.
  split; [done| |done|intros ty n; cbn; by rewrite lookup_empty].
  intros text ds. cbn. intros [= <-]. destruct (decide _) as [->|]; [|split; [split|]; constructor].
  split; [split; repeat constructor; unfold nonempty; cbn; lia|].
  repeat constructor; cbn; unfold zlen; cbn; lia.
Defined.

Lemma redaction_round_trip_witness :
  let out := lit "mail " ++ tok "EMAIL_001" ++ lit " about " ++ tok "DENY_001" ++ lit " or call "
             ++ tok "PHONE_001" in
  let r := redact_text demo_redactor demo_text demo_state in
  r.1 = Ok out /\
  (stream (vault r.2) (new_channel false true) ∅ [take 20 out; drop 20 out]).1 = demo_text.
Proof.
  intros out r. split; [vm_compute; reflexivity|].
  apply (redaction_round_trip demo_redactor true demo_text demo_state
           out r.2 (vault r.2)).
  - apply demo_redactor_ok.
  - apply InMemoryVault.empty_inv.
  - vm_compute. reflexivity.
  - vm_compute. reflexivity.
  - intros t o Ho. exact Ho.
  - vm_compute. reflexivity.
Defined.

Lemma deny_strings_replaced_witness :
  let r := redact_text demo_redactor demo_text demo_state in
  exists ds ws, detect demo_redactor demo_text = Ok ds /\ disjoint_sorted ws /\
    Forall (valid demo_text) ws /\
    spliced demo_redactor (vault r.2) demo_text 0 ws
      (lit "mail " ++ tok "EMAIL_001" ++ lit " about " ++ tok "DENY_001" ++ lit " or call "
       ++ tok "PHONE_001") /\
    forall d i, tier d = 0 ->
      (d ∈ ds \/ exists f, added_deny demo_redactor = Some f /\ d ∈ f demo_text) -> covers d i ->
      exists w, w ∈ ws /\ mode_of demo_redactor w = MRedact /\ covers w i.
Proof.
  intros r. apply (deny_strings_replaced demo_redactor demo_text demo_state _ r.2).
  - apply demo_redactor_ok.
  - apply InMemoryVault.empty_inv.
  - vm_compute. reflexivity.
Defined.
