(* ===== verification/Refusals.v ===== *)
(** * Refusals, scans and budgets of the redactor

    The error paths of src/llm_redact/redactor.py: block-mode refusals and the check
    ahead of them ([blocked_type]), the string budget, the scan of text the proxy
    cannot rewrite, and the count of a refused text. *)

From S2P Require Import Prelude PyRegex Json Placeholders JsonWalk Vault Detection Overlaps.
From S2P Require Import Redactor Winners Redaction RoundTrip.

Local Open Scope mon_scope.

(** ** A resolution that approves every value never refuses *)
Section Approving.
Context {St : Type} (rd : redactor).

Definition never_raises {A} (m : M St refusal A) : Prop := forall s, exists a s', m s = (Ok a, s').

Lemma nr_ret {A} (a : A) : never_raises (mret a).
Proof. intros s. by exists a, s. Qed.

Lemma nr_bnd {A B} (m : M St refusal A) (k : A -> M St refusal B) :
  never_raises m -> (forall a, never_raises (k a)) -> never_raises (mbnd m k).
Proof. intros Hm Hk s. unfold mbnd. destruct (Hm s) as (a & s1 & ->). apply Hk. Qed.

Definition approve : detection -> M St refusal bool := fun _ => mret true.

Lemma by_mode_approve ds : never_raises (by_mode rd approve ds).
Proof.
  induction ds as [|d ds IH]; cbn [by_mode]; [apply nr_ret|].
  intros s. unfold mbnd at 1. destruct (IH s) as (rp & s' & E).
  destruct (decide (mode_of rd d = MBlock)); cbn; unfold mbnd; rewrite E; destruct rp;
    destruct (decide _); eexists _, _; done.
Qed.

Lemma join_runs_approve text runs : never_raises (join_runs rd approve text runs).
Proof.
  induction runs as [|run runs IH]; cbn [join_runs]; [apply nr_ret|].
  destruct (existsb _ _); [|apply nr_bnd; [done|intros []; apply nr_ret]].
  apply nr_bnd.
  - apply nr_bnd; [apply by_mode_approve|]. intros []. apply nr_ret.
  - intros j. apply nr_bnd; [done|]. intros []. apply nr_ret.
Qed.

Lemma resolution_approve text found added : never_raises (resolution_of rd approve text found added).
Proof.
  unfold resolution_of. apply nr_bnd.
  - unfold resolved. destruct (negb _); [apply nr_ret|]. apply nr_bnd; [apply join_runs_approve|].
    intros []. destruct (sort_by _ _); apply nr_ret.
  - intros cs. destruct added; [|apply nr_ret]. apply nr_bnd; [apply by_mode_approve|].
    intros []. apply nr_ret.
Qed.
End Approving.

Lemma approving_ok rd text found added : exists ws, approving_resolution rd text found added = Ok ws.
Proof.
  unfold approving_resolution. destruct (resolution_approve (St := unit) rd text found added tt) as (ws & s & E).
  exists ws. unfold approve in E. by rewrite E.
Qed.

(** ** Without overrides, asking is a refusal *)
Section Refusals.
Context {V O : Type} `{VaultLaws V} `{OverrideOps O} (rd : redactor).

Abbreviation S := (rstate V O).
Abbreviation ask := (overridden (V := V) (O := O) rd).

Lemma ask_none d (s : S) : overrides s = None -> ask d s = (Ok false, s).
Proof. intros Hs. unfold overridden, mbnd, mget. by rewrite Hs. Qed.

(** The first block-mode detection. *)
Fixpoint first_block (ds : list detection) : option pystr :=
  match ds with
  | [] => None
  | d :: ds => if decide (mode_of rd d = MBlock) then Some (detector_type d) else first_block ds
  end.

Lemma by_mode_none ds (s : S) : overrides s = None ->
  by_mode rd ask ds s =
    match first_block ds with
    | Some ty => (Raise (BlockedRequest ty), s)
    | None => (Ok (List.filter (redacts rd) ds, List.filter (fun d => negb (redacts rd d)) ds), s)
    end.
Proof.
  intros Hs. induction ds as [|d ds IH]; [done|]. cbn [by_mode first_block List.filter]. unfold mbnd at 1.
  destruct (decide (mode_of rd d = MBlock)) as [E|E]; [by rewrite ask_none|].
  change (mret true s) with (@Ok refusal bool true, s). unfold mbnd. rewrite IH.
  destruct (first_block ds); [done|].
  destruct (decide (mode_of rd d = MRedact)) as [E'|E'].
  - by replace (redacts rd d) with true by (symmetry; by apply bool_decide_eq_true).
  - by replace (redacts rd d) with false by (symmetry; by apply bool_decide_eq_false).
Qed.

Lemma first_blocked_none ds (s : S) : overrides s = None ->
  first_blocked (V := V) (O := O) rd ds s = (Ok (first_block ds), s).
Proof.
  intros Hs. induction ds as [|d ds IH]; [done|]. cbn [first_blocked first_block].
  assert (negb (is_deny d) && bool_decide (modes rd !! detector_type d = Some MBlock)
          = bool_decide (mode_of rd d = MBlock)) as ->.
  { unfold is_deny, mode_of, type_mode. destruct (tier d =? 0); cbn; [done|].
    apply bool_decide_ext. destruct (modes rd !! detector_type d) as [m|]; cbn; [|done]. naive_solver. }
  destruct (decide (mode_of rd d = MBlock)) as [E|E].
  - rewrite bool_decide_true by done. unfold mbnd. by rewrite ask_none.
  - by rewrite bool_decide_false.
Qed.

Lemma first_block_elem ds ty : first_block ds = Some ty <->
  exists a d b, ds = a ++ d :: b /\ detector_type d = ty /\ mode_of rd d = MBlock /\
    forall x, x ∈ a -> mode_of rd x <> MBlock.
Proof.
  induction ds as [|d ds IH]; cbn [first_block].
  - split; [done|]. intros (a & ? & ? & Heq & _). by destruct a.
  - destruct (decide (mode_of rd d = MBlock)) as [E|E].
    + split.
      * intros [= <-]. exists [], d, ds. split_and!; try done. by intros ? Hn%not_elem_of_nil.
      * intros ([|x a] & d' & b & Heq & <- & Hb & Ha); injection Heq as -> ->; [done|].
        exfalso. apply (Ha x); [by left|done].
    + rewrite IH. split.
      * intros (a & d' & b & -> & <- & Hb & Ha). exists (d :: a), d', b. split_and!; try done.
        intros x [->|Hx]%elem_of_cons; auto.
      * intros ([|x a] & d' & b & Heq & <- & Hb & Ha); injection Heq as -> ->; [done|].
        exists a, d', b. split_and!; try done. intros. apply Ha. by right.
Qed.

(** The mode of a winner in the loop of [redact_text] is the one it was
    resolved under, so what passed [by_mode] blocks nothing there. *)
Lemma replace_from_blocked text ws cursor (s : S) ty s' : overrides s = None ->
  replace_from rd text cursor ws s = (Raise (BlockedRequest ty), s') -> first_block ws = Some ty.
Proof.
  revert cursor s. induction ws as [|d ws IH]; intros cursor s Hs Hm; cbn [replace_from] in Hm; [done|].
  cbn [first_block]. destruct (mode_of rd d) eqn:Em.
  - destruct (decide _); [done|]. unfold mbnd at 1 in Hm. unfold placeholder in Hm.
    destruct (placeholder_for _ _ _ _) as [[tok|[]] v']; try done. unfold mbnd, mmodify in Hm.
    match type of Hm with context [replace_from rd text ?c ws ?st] =>
      destruct (replace_from rd text c ws st) as [[rest|e] s2] eqn:E end; [done|].
    injection Hm as -> ->. by eapply IH; [|exact E].
  - destruct (decide _); [done|]. by eapply IH.
  - destruct (decide _); [|done]. unfold mbnd in Hm. rewrite ask_none in Hm by done. by injection Hm as <- _.
Qed.

Lemma replace_from_passes text ws cursor (s : S) out s' : overrides s = None ->
  replace_from rd text cursor ws s = (Ok out, s') -> first_block ws = None.
Proof.
  revert cursor s out s'. induction ws as [|d ws IH]; intros cursor s out s' Hs Hm; cbn [replace_from] in Hm; [done|].
  cbn [first_block]. destruct (mode_of rd d) eqn:Em.
  - destruct (decide _); [done|]. apply mbnd_ok in Hm as (tok & s1 & Hp & Hm).
    apply mbnd_ok in Hm as (t & s2 & Hc & Hm). apply mbnd_ok in Hm as (rest & s3 & Hrec & _).
    unfold mmodify in Hc. apply pair_equal_spec in Hc as [_ <-]. eapply IH; [|exact Hrec].
    unfold placeholder in Hp. destruct (placeholder_for _ _ _ _) as [[tok'|[]] v']; try done.
    by apply pair_equal_spec in Hp as [_ <-].
  - destruct (decide _); [done|]. by eapply IH.
  - unfold mbnd in Hm. by rewrite ask_none in Hm.
Qed.

(** A state without overrides, as a whole: resolution leaves it alone. *)
Definition unasked (s : S) : option S := match overrides s with None => Some s | Some _ => None end.

Lemma ask_unasked d : pres unasked (ask d).
Proof.
  intros s. unfold unasked. destruct (overrides s) as [o|] eqn:E; [|rewrite ask_none by done; cbn; by rewrite E].
  unfold overridden, mbnd, mget. rewrite E. destruct (decide _).
  - cbn. by rewrite E.
  - unfold put_to, mbnd, mget. rewrite E. by destruct (allows o _ _).
Qed.

Lemma unasked_same {A} (m : M S refusal A) s : pres unasked m -> overrides s = None -> (m s).2 = s.
Proof.
  intros Hm Hs. specialize (Hm s). unfold unasked at 2 in Hm. rewrite Hs in Hm.
  unfold unasked in Hm. destruct (overrides (m s).2); congruence.
Qed.

(** ... and answers the same in every such state. *)
Definition uniform {A} (m : M S refusal A) (r : result refusal A) : Prop :=
  forall s, overrides s = None -> m s = (r, s).

Lemma uniform_bnd {A B} (m : M S refusal A) (k : A -> M S refusal B) r : uniform m r ->
  (forall a, exists r', uniform (k a) r') -> exists r', uniform (mbnd m k) r'.
Proof.
  intros Hm Hk. destruct r as [a|e].
  - destruct (Hk a) as [r' Hr']. exists r'. intros s Hs. unfold mbnd. rewrite Hm by done. by apply Hr'.
  - exists (Raise e). intros s Hs. unfold mbnd. by rewrite Hm.
Qed.

Lemma uniform_ret {A} (a : A) : exists r, uniform (mret a) r.
Proof. by exists (Ok a). Qed.

Lemma join_runs_uniform text runs : exists r, uniform (join_runs rd ask text runs) r.
Proof.
  induction runs as [|run runs [r IH]]; cbn [join_runs]; [apply uniform_ret|].
  assert (Hrest : forall k, (forall js, exists r', uniform (k js) r') ->
    exists r', uniform (mbnd (join_runs rd ask text runs) k) r' (A := list detection * list detection))
    by (intros k Hk; by eapply uniform_bnd).
  destruct (existsb _ _); [|apply Hrest; intros []; apply uniform_ret].
  destruct (first_block run) as [ty|] eqn:Ef.
  - exists (Raise (BlockedRequest ty)). intros s Hs. unfold join, mbnd. by rewrite by_mode_none, Ef.
  - eapply uniform_bnd.
    + intros s Hs. unfold join, mbnd. rewrite by_mode_none, Ef by done. done.
    + intros j. apply Hrest. intros []. apply uniform_ret.
Qed.

Lemma resolved_uniform text ds : exists r, uniform (resolved rd ask text ds) r.
Proof.
  unfold resolved. destruct (negb _); [apply uniform_ret|].
  destruct (join_runs_uniform text (overlapping (List.filter (fun d => negb (additive d)) ds))) as [r Hr].
  eapply uniform_bnd; [done|]. intros []. destruct (sort_by _ _); apply uniform_ret.
Qed.

Lemma resolved_none text ds (s : S) : overrides s = None ->
  exists r, resolved rd ask text ds s = (r, s).
Proof. intros Hs. destruct (resolved_uniform text ds) as [r Hr]. exists r. by apply Hr. Qed.

Lemma charge_none n (s : S) : exists s1, charge rd n s = (Ok tt, s1) /\ overrides s1 = overrides s
    /\ vault s1 = vault s \/ exists lim, charge rd n s = (Raise (TooManyStrings lim), s1).
Proof.
  unfold charge. destruct (budget_limit rd) as [lim|]; [|exists s; by left].
  unfold mbnd, mget, mput. destruct (lim <? used s + n); eexists; [right; by eexists|by left].
Qed.

(** The winners [_settled] hands on, without overrides. *)
Lemma settled_none text found added (s : S) : overrides s = None ->
  match resolution_of rd ask text found added s with
  | (Ok ws, _) => exists s', settled rd text found added false s = (Ok ws, s') /\ overrides s' = None
  | (Raise (BlockedRequest ty), _) =>
      exists s', settled rd text found added false s = (Raise (BlockedRequest ty), s')
  | (Raise e, _) => exists s', settled rd text found added false s = (Raise e, s')
  end.
Proof.
  intros Hs. unfold settled. cbn [andb].
  match goal with |- context [mbnd (mret tt) ?k s] => change (mbnd (mret tt) k s) with (k tt s) end.
  cbv beta. pose proof (unasked_same (resolution_of rd ask text found added) s) as Hst.
  specialize (Hst ltac:(apply resolution_pres, ask_unasked) Hs).
  destruct (resolution_of rd ask text found added s) as [[ws|[]] s1]; cbn in Hst; subst s1; try by eexists.
  - destruct (warns rd); eexists; split; done.
  - destruct (warns rd); [|by eexists]. unfold count_refused.
    destruct (approving_ok rd text found added) as [ws ->]. by eexists.
Qed.

Lemma absorb_first_block text cs added (s : S) ws s' : overrides s = None -> sound text cs ->
  Forall (valid text) added -> (forall a, a ∈ added -> tier a = 0) ->
  absorb rd ask text cs added s = (Ok ws, s') -> first_block cs = None /\ first_block ws = None.
Proof.
  intros Hs [Hd Hv] Hva Hta Hm. unfold absorb in Hm. unfold mbnd in Hm. rewrite by_mode_none in Hm by done.
  destruct (first_block cs) as [ty|] eqn:Ef; [done|]. split; [done|].
  injection Hm as <- _. set (red := List.filter (redacts rd) cs). set (pass := List.filter _ cs).
  match goal with |- ?x = None => destruct x as [ty|] eqn:Eb; [exfalso|reflexivity] end.
  apply first_block_elem in Eb as (a & d & b & Heq & _ & Hbl & _).
  assert (Hvs : Forall (valid text) (red ++ added)).
  { apply Forall_app. split; [|done]. eapply Forall_sub; [|exact Hv]. intros x [? _]%elem_filter. done. }
  assert (Hvp : Forall (valid text) pass).
  { eapply Forall_sub; [|exact Hv]. intros x [? _]%elem_filter. done. }
  destruct (unite_spec text _ Hvs) as (U1 & U2 & _).
  assert (Hpo : plan_order (sort_by start_le (unite text (red ++ added) ++ pass))).
  { assert (Hva' : Forall (valid text) (sort_by start_le (unite text (red ++ added) ++ pass)))
      by (rewrite sort_by_perm; by apply Forall_app).
    split; [apply sort_start_sorted|by eapply valid_nonempty|].
    eapply Forall_impl; [|exact Hva']. intros x [Hx _ _]. lia. }
  assert (Hin : d ∈ unite text (red ++ added) \/ d ∈ pass).
  { rewrite <- elem_of_app, <- (sort_by_perm start_le).
    apply (res_in _ _ (resolve_tiers_resolution _ Hpo)). rewrite Heq. set_solver. }
  destruct Hin as [Hin|Hin].
  - apply elem_flat_map in Hin as (r & Hr & Hdr).
    destruct (joined_redacts rd text r d) as (Hrd & _); [|done|].
    + intros x Hx. apply (overlapping_in _ _ _ (valid_nonempty _ _ Hvs) Hr) in Hx.
      apply elem_of_app in Hx as [[_ Hx]%elem_filter|Hx]; [done|by apply redacts_deny, Hta].
    + apply bool_decide_eq_true in Hrd. congruence.
  - apply elem_filter in Hin as [Hin _]. clear -Ef Hin Hbl.
    induction cs as [|c cs IH]; [by apply not_elem_of_nil in Hin|]. cbn in Ef.
    destruct (decide (mode_of rd c = MBlock)); [done|].
    apply elem_of_cons in Hin as [->|Hin]; [done|auto].
Qed.
End Refusals.

(** ** The check ahead of the redaction *)
Section Precheck.
Context {V O : Type} `{VaultLaws V} `{OverrideOps O} (rd : redactor).
Abbreviation S := (rstate V O).
Abbreviation ask := (overridden (V := V) (O := O) rd).

(** Why the winners of a text refuse it, without overrides. *)
Lemma winners_none text ds (s : S) : detector_ok rd -> overrides s = None -> detect rd text = Ok ds ->
  match resolved rd ask text ds s with
  | (Raise (BlockedRequest ty), _) =>
      exists s', winners rd text false s = (Raise (BlockedRequest ty), s')
  | (Raise e, _) => exists s', winners rd text false s = (Raise e, s')
  | (Ok cs, _) =>
      match added_deny rd, first_block rd cs with
      | Some _, Some ty => exists s', winners rd text false s = (Raise (BlockedRequest ty), s')
      | _, fb => exists ws s', winners rd text false s = (Ok ws, s') /\ overrides s' = None /\
                   first_block rd ws = fb
      end
  end.
Proof.
  intros Hdk Hs Hdet. pose proof Hdk as [_ Hplan Hadd _]. destruct (Hplan text ds Hdet) as [Ho Hv].
  unfold winners, lift. rewrite Hdet.
  change (mbnd (fun s0 : S => (Ok ds, s0)) ?k s) with (k ds s).
  destruct (resolved_none rd text ds s Hs) as [r Hr].
  pose proof (settled_none rd text ds (option_map (fun f => f text) (added_deny rd)) s Hs) as Hset.
  unfold resolution_of in Hset. unfold mbnd at 1 in Hset. cbv beta. rewrite Hr in Hset |- *.
  destruct r as [cs|[]]; try done.
  destruct (added_deny rd) as [f|] eqn:Ef; cbn [option_map] in *.
  - destruct (Hadd f text eq_refl) as [Hva Hta].
    destruct (resolved_sound rd _ text ds s cs s Ho Hv Hr) as [Hcs _].
    destruct (absorb rd ask text cs (f text) s) as [[ws|e] s2] eqn:Ea.
    + destruct (absorb_first_block rd text cs (f text) s ws s2 Hs Hcs Hva Hta Ea) as [-> Hws].
      destruct Hset as (s' & Hset & Hs'). by exists ws, s'.
    + unfold absorb, mbnd in Ea. rewrite by_mode_none in Ea by done.
      destruct (first_block rd cs) as [ty|]; [|done]. injection Ea as <- <-. done.
  - destruct Hset as (s' & Hset & Hs'). by exists cs, s'.
Qed.

Lemma blocked_type_none text ds (s : S) : overrides s = None -> detect rd text = Ok ds ->
  (blocked_type rd text s).1 =
    match (resolved rd ask text ds s).1 with
    | Raise (BlockedRequest ty) => Ok (Some ty)
    | Raise e => Raise e
    | Ok cs => Ok (first_block rd cs)
    end.
Proof.
  intros Hs Hdet. unfold blocked_type, lift. rewrite Hdet.
  change (mbnd (fun s0 : S => (Ok ds, s0)) ?k s) with (k ds s). cbv beta.
  destruct (resolved_none rd text ds s Hs) as [r ->]. cbn [fst].
  destruct r as [cs|[]]; try done. by rewrite first_blocked_none.
Qed.
End Precheck.

(** [blocked_type], the check ahead of the redaction, agrees with it where no
    overrides are attached: the type [redact_text] refuses a text for is the type
    the check answers, and it answers no type for a text [redact_text] redacts --
    also with the deny strings of an access gate, which the check leaves out. *)
Theorem blocked_type_agrees {V O} `{VaultLaws V} `{OverrideOps O} rd text (s : rstate V O) r s' :
  detector_ok rd -> overrides s = None -> redact_text rd text s = (r, s') ->
  (forall ty, r = Raise (BlockedRequest ty) -> (blocked_type rd text s).1 = Ok (Some ty)) /\
  (forall out, r = Ok out -> (blocked_type rd text s).1 = Ok None).
Proof.
  intros Hdk Hs Hm. unfold redact_text in Hm. unfold mbnd at 1 in Hm.
  destruct (charge_none (V := V) (O := O) rd 1 s) as (s1 & [(Hc & Hs1 & _)|(lim & Hc)]); rewrite Hc in Hm;
    [|by injection Hm as <- _].
  rewrite Hs in Hs1. destruct (detect rd text) as [ds|e] eqn:Hdet.
  2: { unfold winners, lift, mbnd in Hm. rewrite Hdet in Hm. injection Hm as <- _. split; [|done].
       intros ty [= ->]. destruct (dk_raise _ Hdk _ _ Hdet) as (? & ? & [=]). }
  rewrite (blocked_type_none rd text ds s Hs Hdet).
  pose proof (winners_none rd text ds s1 Hdk Hs1 Hdet) as Hw.
  destruct (resolved_uniform (V := V) rd text ds) as [r0 Hr0]. rewrite (Hr0 s Hs). rewrite (Hr0 s1 Hs1) in Hw.
  cbn [fst]. unfold mbnd in Hm. destruct r0 as [cs|e].
  - assert (Hcase : (exists ty s2, winners rd text false s1 = (Raise (BlockedRequest ty), s2) /\
        first_block rd cs = Some ty) \/
      exists ws s2, winners rd text false s1 = (Ok ws, s2) /\ overrides s2 = None /\
        first_block rd ws = first_block rd cs).
    { destruct (added_deny rd), (first_block rd cs) as [ty|]; [|by right..].
      left. destruct Hw as [s2 Hw]. by exists ty, s2. }
    destruct Hcase as [(ty & s2 & Hw' & Hf)|(ws & s2 & Hw' & Hs2 & Hf)]; rewrite Hw' in Hm.
    + injection Hm as <- _. rewrite Hf. split; [by intros ? [= ->]|done].
    + rewrite <- Hf. split.
      * intros ty ->. destruct ws as [|w ws]; [done|].
        by rewrite (replace_from_blocked rd text (w :: ws) 0 s2 ty s').
      * intros out ->. destruct ws as [|w ws]; [done|].
        by rewrite (replace_from_passes rd text (w :: ws) 0 s2 out s').
  - assert (Hraise : exists s2, winners rd text false s1 = (Raise e, s2)) by (destruct e; exact Hw).
    destruct Hraise as [s2 Hw']. rewrite Hw' in Hm. injection Hm as <- _. split; [|done].
    by intros ty [= ->].
Qed.

(** A redactor whose policy blocks phone numbers. *)
Definition blocking_redactor : redactor :=
  mk_redactor (detect demo_redactor) None {[lit "PHONE" := MBlock]} ∅ None ∅ false.

Lemma blocking_redactor_ok : detector_ok blocking_redactor.
Proof. destruct demo_redactor_ok as [H1 H2 H3 H4]. by split. Qed.

Lemma blocked_type_agrees_witness :
  (redact_text blocking_redactor demo_text demo_state).1 = Raise (BlockedRequest (lit "PHONE")) /\
  (blocked_type blocking_redactor demo_text demo_state).1 = Ok (Some (lit "PHONE")).
Proof.
  split; [vm_compute; reflexivity|].
  apply (blocked_type_agrees blocking_redactor demo_text demo_state
    (Raise (BlockedRequest (lit "PHONE"))) (redact_text blocking_redactor demo_text demo_state).2).
  - apply blocking_redactor_ok.
  - reflexivity.
  - vm_compute. reflexivity.
  - reflexivity.
Defined.

(** ** Whatever the outcome *)
Section Outcome.
Context {V O : Type} `{VaultLaws V} `{OverrideOps O} (rd : redactor).
Abbreviation S := (rstate V O).

(** The state's part a scan may change is the budget, the warnings and the
    overrides: nothing is issued or counted. *)
Definition written (s : S) : V * gmap pystr Z := (vault s, counts s).

Lemma written_issued (s s' : S) : issued s' = issued s -> written s' = written s.
Proof. unfold issued, written. congruence. Qed.

Lemma charge_written n : pres written (charge (V := V) (O := O) rd n).
Proof.
  intros s. unfold charge. destruct (budget_limit rd); [|done].
  unfold mbnd, mget, mput. by destruct (_ <? _).
Qed.

Lemma unoverride_issued : pres issued (unoverride (V := V) (O := O)).
Proof. done. Qed.

Lemma put_to_issued ty val : pres issued (put_to (V := V) (O := O) ty val).
Proof.
  intros s. unfold put_to, mbnd, mget. destruct (overrides s) as [o|]; [|done]. by destruct (allows o _ _).
Qed.

Lemma settled_written text found added u : pres written (settled (V := V) (O := O) rd text found added u).
Proof.
  intros s. unfold settled. unfold mbnd at 1.
  destruct ((if u && _ then unoverride else mret tt) s) as [[[]|e] s0] eqn:Hu.
  2: { by destruct (u && _). }
  assert (written s0 = written s) as <-.
  { apply written_issued. by destruct (u && _); inversion Hu. }
  pose proof (resolution_pres issued rd (overridden rd) (overridden_pres rd) text found added s0) as Hp.
  destruct (resolution_of rd (overridden rd) text found added s0) as [[ws|[]] s1]; cbn in Hp;
    apply written_issued in Hp; try done.
  - rewrite <- Hp. by destruct (warns rd).
  - rewrite <- Hp. destruct (warns rd); [|done]. unfold count_refused.
    destruct (approving_ok rd text found added) as [ws ->]. done.
Qed.

Lemma winners_written text u : pres written (winners (V := V) (O := O) rd text u).
Proof. apply pres_bnd; [done|]. intros ds. apply settled_written. Qed.

Lemma pres_written {A} (m : M S refusal A) : pres issued m -> pres written m.
Proof. intros Hm s. apply written_issued, Hm. Qed.

Lemma ask_all_issued ms : pres issued (ask_all (V := V) (O := O) ms).
Proof.
  induction ms as [|m ms IH]; cbn [ask_all]; [auto with redact|].
  apply pres_bnd; [apply put_to_issued|]. intros a. apply pres_bnd; [done|]. auto with redact.
Qed.

Lemma joined_passes_issued d : pres issued (joined_passes (V := V) (O := O) rd d).
Proof.
  unfold joined_passes. destruct (members d) as [|m ms].
  - apply pres_bnd; [apply unoverride_issued|auto with redact].
  - apply pres_if; [|apply ask_all_issued]. apply pres_bnd; [apply unoverride_issued|auto with redact].
Qed.

Lemma scan_loop_issued b ds : forall found passed,
  pres issued (scan_loop (V := V) (O := O) rd b ds found passed).
Proof.
  induction ds as [|d ds IH]; intros found passed; cbn [scan_loop]; [auto with redact|]. cbv zeta.
  apply pres_if.
  - apply pres_bnd; [done|]. intros s. apply pres_bnd.
    + apply pres_if; [apply joined_passes_issued|auto with redact].
    + intros ok. by apply pres_if.
  - assert (Hgen : forall blk : bool, pres issued
      (ok <~ (if blk || negb b then overridden (V := V) (O := O) rd d else mret false);;
       if ok then scan_loop rd b ds found true
       else if blk then mraise (BlockedRequest (detector_type d))
            else scan_loop rd b ds (counter_incr found (detector_type d)) passed)).
    { intros blk. apply pres_bnd.
      - apply pres_if; [apply overridden_pres|auto with redact].
      - intros ok. apply pres_if; [done|]. apply pres_if; [auto with redact|done]. }
    destruct (modes rd !! detector_type d) as [[]|]; [apply (Hgen false)|done|apply (Hgen true)|apply (Hgen false)].
Qed.

Lemma placeholder_keeps ty val (s : S) r s' : detector_ok rd -> vinv (vault s) ->
  is_placeholder_type ty = true -> placeholder rd ty val s = (r, s') ->
  vinv (vault s') /\ extends (vault s) (vault s').
Proof.
  intros Hdk Hv Hty Hp. unfold placeholder in Hp.
  destruct (placeholder_for (vault s) ty val _) as [[tok|e] v'] eqn:E.
  - injection Hp as <- <-. cbn. split.
    + eapply vinv_issue; [done|done|by apply (floor_nonneg rd)|exact E].
    + eapply issue_extends; [done|done|by apply (floor_nonneg rd)|exact E].
  - apply vinv_raise in E as ->. destruct e; injection Hp as <- <-; cbn; (split; [done|by intros ??]).
Qed.

Lemma replace_from_keeps text ws : detector_ok rd -> Forall (valid text) ws ->
  forall cursor (s : S) r s', vinv (vault s) -> replace_from rd text cursor ws s = (r, s') ->
  vinv (vault s') /\ extends (vault s) (vault s').
Proof.
  intros Hdk. induction 1 as [|d ws Hd Hws IH]; intros cursor s r s' Hv Hm; cbn [replace_from] in Hm.
  { injection Hm as <- <-. split; [done|by intros ??]. }
  destruct Hd as [_ _ Hty]. destruct (mode_of rd d).
  - unfold mbnd at 1 in Hm. destruct (placeholder rd _ _ s) as [[tok|e] s1] eqn:Ep.
    + destruct (placeholder_keeps _ _ s _ s1 Hdk Hv Hty Ep) as [Hv1 He1].
      unfold mbnd, mmodify in Hm.
      match type of Hm with context [replace_from rd text ?c ws ?st] =>
        destruct (replace_from rd text c ws st) as [[rest|e] s2] eqn:E;
        apply IH in E as [Hv2 He2]; [|done| |done] end;
        injection Hm as <- <-; (split; [done|by eapply extends_trans]).
    + injection Hm as <- <-. by eapply placeholder_keeps.
  - by eapply IH.
  - unfold mbnd in Hm. pose proof (overridden_pres rd d s) as Hp.
    destruct (overridden rd d s) as [[[]|e] s1]; cbn in Hp; unfold issued in Hp; injection Hp as Hvs _ _;
      [rewrite <- Hvs in Hv |- *; by eapply IH|injection Hm as <- <-; rewrite Hvs; split; [done|by intros ??]..].
Qed.
End Outcome.

(** Scanning text the proxy cannot rewrite issues nothing: whatever the
    outcome -- found types, an override used, a refusal -- the vault and the
    redaction counts are as they were. *)
Theorem scan_issues_nothing {V O} `{VaultLaws V} `{OverrideOps O} rd text redactable (s : rstate V O) :
  let s' := (scan rd text redactable s).2 in vault s' = vault s /\ counts s' = counts s.
Proof.
  intros s'. enough (pres (written (V:=V) (O:=O)) (scan rd text redactable)) as Hp.
  { specialize (Hp s). unfold written in Hp. subst s'. split; congruence. }
  apply pres_bnd; [apply charge_written|].
  intros _. apply pres_bnd; [apply winners_written|]. intros ws. apply pres_written, scan_loop_issued.
Qed.

(** A refused text does no harm: whatever [redact_text] does -- redact, refuse
    for a block, run out of numbers or of the string budget -- the vault's
    invariant holds after it and every token it restored it still restores. *)
Theorem redact_text_keeps_vault {V O} `{VaultLaws V} `{OverrideOps O} rd text (s : rstate V O) r s' :
  detector_ok rd -> vinv (vault s) -> redact_text rd text s = (r, s') ->
  vinv (vault s') /\ forall t o, original_for (vault s) t = Some o -> original_for (vault s') t = Some o.
Proof.
  intros Hdk Hv Hm. change (vinv (vault s') /\ extends (vault s) (vault s')).
  unfold redact_text in Hm. unfold mbnd at 1 in Hm.
  pose proof (charge_written rd 1 s) as Hc. destruct (charge rd 1 s) as [[[]|e] s1]; cbn in Hc;
    injection Hc as Hc _; [|injection Hm as <- <-; rewrite Hc; split; [done|by intros ??]].
  unfold mbnd at 1 in Hm. destruct (winners rd text false s1) as [[ws|e] s2] eqn:Ew;
    pose proof (winners_written rd text false s1) as Hw; rewrite Ew in Hw; cbn in Hw; injection Hw as Hw _;
    rewrite <- Hc, <- Hw in *; [|injection Hm as <- <-; split; [done|by intros ??]].
  destruct ws as [|w ws]; [injection Hm as <- <-; split; [done|by intros ??]|].
  apply winners_ok in Ew as (ds & _ & [_ Hvs] & _); [|done]. by eapply replace_from_keeps.
Qed.

Lemma redact_text_keeps_vault_witness :
  let r := redact_text blocking_redactor demo_text demo_state in
  (exists n, original_for (vault r.2) (LAQUO :: lit "EMAIL_001" ++ [RAQUO]) = Some n) /\ vinv (vault r.2).
Proof.
  intros r. split; [eexists; vm_compute; reflexivity|].
  apply (redact_text_keeps_vault blocking_redactor demo_text demo_state r.1 r.2).
  - apply blocking_redactor_ok.
  - apply InMemoryVault.empty_inv.
  - vm_compute. reflexivity.
Defined.

(** The string budget is charged before any work: past the limit a text is
    refused without being scanned, and a text that is redacted stayed within it. *)
Theorem budget_bounds_redaction {V O} `{VaultOps V} `{OverrideOps O} rd limit text (s : rstate V O) r s' :
  budget_limit rd = Some limit -> redact_text rd text s = (r, s') ->
  (limit < used s + 1 -> r = Raise (TooManyStrings limit) /\ vault s' = vault s /\ counts s' = counts s) /\
  (forall out, r = Ok out -> used s + 1 <= limit).
Proof.
  intros Hb Hm. unfold redact_text in Hm. unfold mbnd at 1, charge in Hm. rewrite Hb in Hm.
  unfold mbnd, mget, mput in Hm. destruct (Z.ltb_spec limit (used s + 1)) as [Hlt|Hge]; cbn in Hm.
  - injection Hm as <- <-. split; [done|]. by intros.
  - split; [lia|]. by intros.
Qed.

Lemma budget_bounds_redaction_witness :
  let rd := with_budget demo_redactor 0 in
  (redact_text rd demo_text demo_state).1 = Raise (TooManyStrings 0).
Proof.
  intros rd.
  apply (budget_bounds_redaction rd 0 demo_text demo_state _ (redact_text rd demo_text demo_state).2);
    [reflexivity|vm_compute; reflexivity|vm_compute; reflexivity].
Defined.
