(* ===== verification/MapWriter.v ===== *)
(** * The background writer of the durable maps -- src/llm_redact/vault_writer.py

    One writer thread applies queued writes to the database; until a write lands,
    lookups answer from the overlay.  A method's section under the writer's lock is
    one step, and so is each database operation; [sys] puts the writer's state, the
    thread's place in [_apply] and the database together.

    The database is the map's table: a row per key, holding its session.  The trims
    that bound the table and the writer's connection handling are left out. *)

From S2P Require Import Prelude.

(** ** Writes and the database *)

(** A key of the overlay: its keyspace (row, handle) and the id. *)
Abbreviation key := (pystr * pystr)%type.

(** [MapWrite], and what its callables do ([SqliteVaultManager._record_row],
    [record_handle_session]): [sets] are the keys it writes, [removes] those it deletes
    where they name its session; [erased] says [run] was replaced by [erase]. *)
Record write := Write { wid : nat; session : pystr; sets : list key; removes : list key; erased : bool }.

Abbreviation table := (gmap key pystr).

(** [write_handle]: the superseded rows of the same session, then the row itself. *)
Definition apply_run (w : write) (d : table) : table :=
  fold_left (fun d k => <[k := session w]> d) (sets w)
    (fold_left (fun d k => if decide (d !! k = Some (session w)) then delete k d else d) (removes w) d).

Definition apply_erase (w : write) (d : table) : table := fold_left (fun d k => delete k d) (sets w) d.

Definition run_op (w : write) (d : table) : table := if erased w then apply_erase w d else apply_run w d.

(** [delete_sessions]: every row of the sessions. *)
Definition delete_rows (gone : gset pystr) (d : table) : table := filter (fun kv : key * pystr => kv.2 ∉ gone) d.

(** ** The overlay *)

Inductive verdict : Type := VSession (s : pystr) | VAbsent | VRemoved (sessions : gset pystr).

(** [_Entry]: the verdict and the last write that set it, [None] for one kept in memory
    only. *)
Record entry := Entry { val : verdict; owner : option nat }.

Record writer := Writer {
  queue : list write;
  in_flight : option write;
  erase_after : bool;
  abandoned : bool;
  overlay : gmap key entry;
  unwritten : list key;
  wkeys : gmap nat (list key);
  closed : bool;
  deletes : nat;
  next_id : nat;
  faults : Z }.

Definition new_writer : writer := Writer [] None false false ∅ [] ∅ false 0 0 0.

(** [del unwritten[key]] and the loop that forgets the oldest records. *)
Definition without_key (k : key) (l : list key) : list key := List.filter (fun k' => negb (bool_decide (k' = k))) l.

Fixpoint evict (max_unwritten : nat) (l : list key) (ov : gmap key entry) : list key * gmap key entry :=
  match l with
  | oldest :: rest =>
      if (max_unwritten <? length l)%nat then evict max_unwritten rest (delete oldest ov) else (l, ov)
  | [] => ([], ov)
  end.

(** [_place] *)
Definition place (max_unwritten : nat) (k : key) (e : entry) (st : writer) : writer :=
  let ov := <[k := e]> (overlay st) in
  let un := without_key k (unwritten st) in
  match owner e with
  | Some w => Writer (queue st) (in_flight st) (erase_after st) (abandoned st) ov un
                (<[w := default [] (wkeys st !! w) ++ [k]]> (wkeys st)) (closed st) (deletes st) (next_id st) (faults st)
  | None => let '(un, ov) := evict max_unwritten (un ++ [k]) ov in
            Writer (queue st) (in_flight st) (erase_after st) (abandoned st) ov un (wkeys st) (closed st) (deletes st)
              (next_id st) (faults st)
  end.

(** [_set] and [_remove] *)
Definition set_key (mu : nat) (s : pystr) (o : option nat) (st : writer) (k : key) : writer := place mu k (Entry (VSession s) o) st.

Definition remove_key (mu : nat) (s : pystr) (o : option nat) (st : writer) (k : key) : writer :=
  match overlay st !! k with
  | None => place mu k (Entry (VRemoved {[s]}) o) st
  | Some e =>
      match val e with
      | VRemoved ss => place mu k (Entry (VRemoved (ss ∪ {[s]})) o) st
      | VSession s' => if decide (s' = s) then place mu k (Entry VAbsent o) st else st
      | VAbsent => st
      end
  end.

Inductive submitted : Type := Refused | Queued | Overflowed.

(** [submit] of a write of [s] under a fresh identity. *)
Definition submit (max_pending max_unwritten : nat) (s : pystr) (ks rs : list key) (st : writer) : submitted * writer :=
  if closed st then
    (Refused, Writer (queue st) (in_flight st) (erase_after st) (abandoned st) (overlay st) (unwritten st) (wkeys st) true
                (deletes st) (next_id st) (faults st + 1))
  else
    let queued := (length (queue st) <? max_pending)%nat in
    let o := if queued then Some (next_id st) else None in
    let st := fold_left (set_key max_unwritten s o) ks st in
    let st := fold_left (remove_key max_unwritten s o) rs st in
    if queued then
      (Queued, Writer (queue st ++ [Write (next_id st) s ks rs false]) (in_flight st) (erase_after st) (abandoned st) (overlay st)
                 (unwritten st) (wkeys st) (closed st) (deletes st) (S (next_id st)) (faults st))
    else
      (Overflowed, Writer (queue st) (in_flight st) (erase_after st) (abandoned st) (overlay st) (unwritten st) (wkeys st) (closed st)
                     (deletes st) (S (next_id st)) (faults st + 1)).

(** [verdict]: [None] is the miss. *)
Definition verdict_of (st : writer) (k : key) : option verdict := val <$> overlay st !! k.

(** [handle_answer] and the row lookups: what the manager answers, [row] being the
    database's. *)
Definition answer (v : option verdict) (row : option pystr) : option pystr :=
  match v with
  | Some (VSession s) => Some s
  | Some VAbsent => None
  | Some (VRemoved ss) => match row with Some s => if decide (s ∈ ss) then None else Some s | None => None end
  | None => row
  end.

Definition lookup (st : writer) (d : table) (k : key) : option pystr := answer (verdict_of st k) (d !! k).

(** [_deleted] *)
Definition erase_queued (gone : gset pystr) (w : write) : write :=
  if decide (session w ∈ gone) then Write (wid w) (session w) (sets w) (removes w) true else w.

Definition gone_entry (gone : gset pystr) (e : entry) : entry :=
  match val e with VSession s => if decide (s ∈ gone) then Entry VAbsent (owner e) else e | _ => e end.

Definition in_flight_of (gone : gset pystr) (w : option write) : bool :=
  match w with Some w => bool_decide (session w ∈ gone) | None => false end.

Definition mark_deleted (gone : gset pystr) (st : writer) : writer :=
  Writer (map (erase_queued gone) (queue st)) (in_flight st) (erase_after st || in_flight_of gone (in_flight st)) (abandoned st)
    (gone_entry gone <$> overlay st) (unwritten st) (wkeys st) (closed st) (deletes st) (next_id st) (faults st).

Definition with_deletes (n : nat) (st : writer) : writer :=
  Writer (queue st) (in_flight st) (erase_after st) (abandoned st) (overlay st) (unwritten st) (wkeys st) (closed st) n
    (next_id st) (faults st).

(** [pending] *)
Definition pending (st : writer) : nat :=
  (length (queue st) + match in_flight st with Some _ => 1 | None => 0 end)%nat.

(** [_next_write], when there is one to take. *)
Definition next_write (st : writer) : option writer :=
  match queue st with
  | w :: q => if closed st then None
              else Some (Writer q (Some w) false false (overlay st) (unwritten st) (wkeys st) (closed st) (deletes st)
                           (next_id st) (faults st))
  | [] => None
  end.

(** [_settle] *)
Definition settle_key (w : nat) (ov : gmap key entry) (k : key) : gmap key entry :=
  match ov !! k with
  | Some e => if decide (owner e = Some w) then delete k ov else ov
  | None => ov
  end.

Definition settle (w : write) (st : writer) : writer :=
  Writer (queue st) (in_flight st) (erase_after st) (abandoned st)
    (fold_left (settle_key (wid w)) (default [] (wkeys st !! wid w)) (overlay st)) (unwritten st) (wkeys st) (closed st)
    (deletes st) (next_id st) (faults st).

(** The rest of [_apply]: a failure is posted unless [close] gave the write up, and the
    write is no longer in flight. *)
Definition finish (failed : bool) (st : writer) : writer :=
  Writer (queue st) None false false (overlay st) (unwritten st) (wkeys st) (closed st) (deletes st) (next_id st)
    (if failed && negb (abandoned st) then faults st + 1 else faults st).

(** [close], the drain over: the queue dropped, the write in flight given up when its
    thread does not finish in time. *)
Definition close (finished : bool) (st : writer) : nat * writer :=
  let dropped := length (queue st) in
  let stuck := match in_flight st with Some _ => negb finished | None => false end in
  let n := (dropped + if stuck then 1 else 0)%nat in
  (n, Writer [] (in_flight st) (erase_after st) (abandoned st || stuck) ∅ [] (wkeys st) true (deletes st) (next_id st)
        (faults st + Z.of_nat n)).

(** ** The system *)

(** Where the writer thread is in [_apply]. *)
Inductive pc : Type := Idle | Taken | Ran | Erasing | Checked | Settled.

(** [window]: the sessions of a delete that committed and has not reported them yet;
    [failed]: an attempt of the write in flight raised. *)
Record sys := Sys { wr : writer; at_pc : pc; db : table; window : option (gset pystr); failed : bool }.

Definition start : sys := Sys new_writer Idle ∅ None false.

Inductive event : Type :=
  | Submit (s : pystr) (ks rs : list key) (how : submitted)
  | Take
  | Run (ok : bool)
  | Check
  | Erase (ok : bool)
  | Settle
  | Finish
  | Delete_begin
  | Delete_commit (gone : gset pystr)
  | Delete_mark
  | Delete_end
  | Close (finished : bool).

Section Steps.
Context (max_pending max_unwritten : nat).

(** The submitting side runs on the event loop, which a delete holds from its commit to
    its report; the writer thread runs at any time.  An attempt that fails changes
    nothing in the database. *)
Inductive step : sys -> event -> sys -> Prop :=
  | step_submit st p d f s ks rs how st' : submit max_pending max_unwritten s ks rs st = (how, st') ->
      step (Sys st p d None f) (Submit s ks rs how) (Sys st' p d None f)
  | step_take st d w st' f : next_write st = Some st' -> step (Sys st Idle d w f) Take (Sys st' Taken d w false)
  | step_run st d w f x ok : in_flight st = Some x ->
      step (Sys st Taken d w f) (Run ok) (Sys st Ran (if ok then run_op x d else d) w (f || negb ok))
  | step_check st d w f : deletes st = 0%nat ->
      step (Sys st Ran d w f) Check (Sys st (if erase_after st then Erasing else Checked) d w f)
  | step_erase st d w f x ok : in_flight st = Some x ->
      step (Sys st Erasing d w f) (Erase ok) (Sys st Checked (if ok then apply_erase x d else d) w (negb ok))
  | step_settle st d w f x : in_flight st = Some x ->
      step (Sys st Checked d w f) Settle (Sys (settle x st) Settled d w f)
  | step_finish st d w f : step (Sys st Settled d w f) Finish (Sys (finish f st) Idle d w false)
  | step_delete_begin st p d f : deletes st = 0%nat ->
      step (Sys st p d None f) Delete_begin (Sys (with_deletes 1 st) p d None f)
  | step_delete_commit st p d f gone : deletes st = 1%nat ->
      step (Sys st p d None f) (Delete_commit gone) (Sys st p (delete_rows gone d) (Some gone) f)
  | step_delete_mark st p d f gone :
      step (Sys st p d (Some gone) f) Delete_mark (Sys (mark_deleted gone st) p d None f)
  | step_delete_end st p d f : deletes st = 1%nat ->
      step (Sys st p d None f) Delete_end (Sys (with_deletes 0 st) p d None f)
  | step_close st p d f finished : step (Sys st p d None f) (Close finished) (Sys (close finished st).2 p d None f).

Inductive run : sys -> list event -> sys -> Prop :=
  | run_nil s : run s [] s
  | run_snoc s es s' e s'' : run s es s' -> step s' e s'' -> run s (es ++ [e]) s''.

Definition reaches (es : list event) (s : sys) : Prop := run start es s.

(** The same steps as a function: [None] where the event cannot happen. *)
#[global] Instance submitted_eq : EqDecision submitted.
Proof. solve_decision. Defined.

Definition next (s : sys) (e : event) : option sys :=
  let '(Sys st p d win f) := s in
  match e, p, win, in_flight st with
  | Submit s ks rs how, _, None, _ =>
      let '(how', st') := submit max_pending max_unwritten s ks rs st in
      if decide (how' = how) then Some (Sys st' p d None f) else None
  | Take, Idle, _, _ => st' ← next_write st; Some (Sys st' Taken d win false)
  | Run ok, Taken, _, Some x => Some (Sys st Ran (if ok then run_op x d else d) win (f || negb ok))
  | Check, Ran, _, _ => if (deletes st =? 0)%nat then Some (Sys st (if erase_after st then Erasing else Checked) d win f) else None
  | Erase ok, Erasing, _, Some x => Some (Sys st Checked (if ok then apply_erase x d else d) win (negb ok))
  | Settle, Checked, _, Some x => Some (Sys (settle x st) Settled d win f)
  | Finish, Settled, _, _ => Some (Sys (finish f st) Idle d win false)
  | Delete_begin, _, None, _ => if (deletes st =? 0)%nat then Some (Sys (with_deletes 1 st) p d None f) else None
  | Delete_commit gone, _, None, _ => if (deletes st =? 1)%nat then Some (Sys st p (delete_rows gone d) (Some gone) f) else None
  | Delete_mark, _, Some gone, _ => Some (Sys (mark_deleted gone st) p d None f)
  | Delete_end, _, None, _ => if (deletes st =? 1)%nat then Some (Sys (with_deletes 0 st) p d None f) else None
  | Close finished, _, None, _ => Some (Sys (close finished st).2 p d None f)
  | _, _, _, _ => None
  end.

Lemma next_step s e s' : next s e = Some s' -> step s e s'.
Proof.
  destruct s as [st p d win f]. destruct e; cbn; intros H.
  all: repeat first
    [ discriminate H | injection H as <-
    | match type of H with
      | context [match ?x with _ => _ end] => let E := fresh "E" in destruct x eqn:E
      end ].
  all: try subst; try (apply bind_Some in H as (? & ? & [= <-])); try (by econstructor; eauto using Nat.eqb_eq; by apply Nat.eqb_eq).
  all: constructor; try done; by apply Nat.eqb_eq.
Qed.

Fixpoint exec (s : sys) (es : list event) : option sys :=
  match es with [] => Some s | e :: es => s' ← next s e; exec s' es end.

Lemma exec_reaches es s : exec start es = Some s -> reaches es s.
Proof.
  unfold reaches. assert (H : forall pre t, run start pre t -> exec t es = Some s -> run start (pre ++ es) s).
  { induction es as [|e es IH]; cbn; intros pre t Hr H; [injection H as <-; by rewrite app_nil_r|].
    apply bind_Some in H as (t' & H1 & H2). change (e :: es) with ([e] ++ es). rewrite app_assoc. eapply IH; [|exact H2].
    eapply run_snoc; [exact Hr|]. by apply next_step. }
  intros He. apply (H [] start); [constructor|done].
Qed.
End Steps.

(** ** The map written synchronously *)

Definition sync (d : table) (e : event) : table :=
  match e with
  | Submit s ks rs _ => apply_run (Write 0 s ks rs false) d
  | Delete_commit gone => delete_rows gone d
  | _ => d
  end.

Definition sync_map (es : list event) : table := fold_left sync es ∅.
