(* ===== verification/ReadYourWrites.v ===== *)
(** * The background writer answers as the synchronous one -- src/llm_redact/vault_writer.py

    Key by key: what each queued write will still do to a row, what the overlay makes
    of the row meanwhile, and that the two agree at every step of the writer thread and
    of a delete running beside it. *)

From S2P Require Import Prelude MapWriter.

(** ** What a write does to one row *)

Inductive act : Type := ASet (s : pystr) | ADel | ARm (s : pystr) | ANop.

Definition act_fun (a : act) (x : option pystr) : option pystr :=
  match a with
  | ASet s => Some s
  | ADel => None
  | ARm s => if decide (x = Some s) then None else x
  | ANop => x
  end.

Definition soft (a : act) : Prop := match a with ARm _ | ANop => True | _ => False end.

(** The write's act on the row of [k]; [doomed] says an erase of its key follows. *)
Definition act_of (k : key) (doomed : bool) (w : write) : act :=
  if decide (k ∈ sets w) then (if erased w || doomed then ADel else ASet (session w))
  else if decide (k ∈ removes w) then (if erased w then ANop else ARm (session w)) else ANop.

Lemma act_idem a x : act_fun a (act_fun a x) = act_fun a x.
Proof. destruct a; cbn; try done. destruct (decide (x = Some s)); [done|]. by rewrite decide_False. Qed.

Lemma fold_sets_lookup s ks d k : fold_left (fun (d : table) k => <[k := s]> d) ks d !! k =
  if decide (k ∈ ks) then Some s else d !! k.
Proof.
  revert d. induction ks as [|k' ks IH]; intros d; cbn [fold_left]; [by rewrite decide_False by apply not_elem_of_nil|].
  rewrite IH. destruct (decide (k = k')) as [<-|Hne].
  - rewrite lookup_insert_eq. rewrite (decide_True (P := k ∈ k :: ks)) by left. by destruct (decide (k ∈ ks)).
  - rewrite lookup_insert_ne by done. destruct (decide (k ∈ ks)) as [H|H];
      [rewrite decide_True by (by right)|rewrite decide_False by (by rewrite elem_of_cons; intros [?|?])]; done.
Qed.

Lemma fold_dels_lookup ks d k : fold_left (fun (d : table) k => delete k d) ks d !! k =
  if decide (k ∈ ks) then None else d !! k.
Proof.
  revert d. induction ks as [|k' ks IH]; intros d; cbn [fold_left]; [by rewrite decide_False by apply not_elem_of_nil|].
  rewrite IH. destruct (decide (k = k')) as [<-|Hne].
  - rewrite lookup_delete_eq. rewrite (decide_True (P := k ∈ k :: ks)) by left. by destruct (decide (k ∈ ks)).
  - rewrite lookup_delete_ne by done. destruct (decide (k ∈ ks)) as [H|H];
      [rewrite decide_True by (by right)|rewrite decide_False by (by rewrite elem_of_cons; intros [?|?])]; done.
Qed.

Lemma fold_rms_lookup s ks d k :
  fold_left (fun (d : table) k => if decide (d !! k = Some s) then delete k d else d) ks d !! k =
  if decide (k ∈ ks) then act_fun (ARm s) (d !! k) else d !! k.
Proof.
  revert d. induction ks as [|k' ks IH]; intros d; cbn [fold_left]; [by rewrite decide_False by apply not_elem_of_nil|].
  rewrite IH. destruct (decide (k = k')) as [<-|Hne].
  - rewrite (decide_True (P := k ∈ k :: ks)) by left.
    assert (E : (if decide (d !! k = Some s) then delete k d else d) !! k = act_fun (ARm s) (d !! k)).
    { cbn. destruct (decide (d !! k = Some s)); [apply lookup_delete_eq|done]. }
    rewrite E. destruct (decide (k ∈ ks)); [apply act_idem|done].
  - assert (E : (if decide (d !! k' = Some s) then delete k' d else d) !! k = d !! k).
    { destruct (decide (d !! k' = Some s)); [by rewrite lookup_delete_ne|done]. }
    rewrite E. destruct (decide (k ∈ ks)) as [H|H];
      [rewrite decide_True by (by right)|rewrite decide_False by (by rewrite elem_of_cons; intros [?|?])]; done.
Qed.

Lemma run_op_lookup w d k : run_op w d !! k = act_fun (act_of k false w) (d !! k).
Proof.
  unfold run_op, act_of, apply_run, apply_erase. rewrite orb_false_r. destruct (erased w).
  - rewrite fold_dels_lookup. destruct (decide (k ∈ sets w)); [done|]. by destruct (decide (k ∈ removes w)).
  - rewrite fold_sets_lookup, fold_rms_lookup. destruct (decide (k ∈ sets w)); [done|]. by destruct (decide (k ∈ removes w)).
Qed.

Lemma apply_run_lookup s ks rs i d k : apply_run (Write i s ks rs false) d !! k =
  act_fun (act_of k false (Write i s ks rs false)) (d !! k).
Proof. apply (run_op_lookup (Write i s ks rs false)). Qed.

Lemma erase_lookup w d k : apply_erase w d !! k = if decide (k ∈ sets w) then None else d !! k.
Proof. apply fold_dels_lookup. Qed.

(** A delete's effect on one row. *)
Definition gone_row (gone : gset pystr) (x : option pystr) : option pystr :=
  match x with Some s => if decide (s ∈ gone) then None else Some s | None => None end.

Lemma delete_rows_lookup gone d k : delete_rows gone d !! k = gone_row gone (d !! k).
Proof.
  unfold delete_rows, gone_row. destruct (d !! k) as [s|] eqn:E.
  - destruct (decide (s ∈ gone)) as [H|H].
    + apply map_lookup_filter_None. right. intros x Hx. rewrite E in Hx. injection Hx as <-. cbn. tauto.
    + by apply map_lookup_filter_Some.
  - apply map_lookup_filter_None. by left.
Qed.

(** ** One row: its value, the acts still to come, its overlay entry *)

Abbreviation acts := (list (nat * act)).

Definition run_acts (l : acts) (x : option pystr) : option pystr := fold_left (fun x a => act_fun a.2 x) l x.

Definition verdict_fun (v : option verdict) (x : option pystr) : option pystr := answer v x.
#[local] Arguments verdict_fun : simpl never.

(** An act that changes nothing at [y], whatever happened before it. *)
Definition idle_at (y : option pystr) (a : nat * act) : Prop := soft a.2 /\ act_fun a.2 y = y.

(** The entry stands for the acts up to its owner's; those after it change nothing; a
    [Removed] verdict is met by removals alone. *)
Definition agrees (x : option pystr) (l : acts) (e : option entry) : Prop :=
  match e with
  | None => Forall (idle_at x) l
  | Some (Entry v o) => exists pre post i, l = pre ++ post /\ o = Some i /\
      (pre = [] \/ exists pre' a, pre = pre' ++ [(i, a)]) /\
      run_acts pre x = verdict_fun (Some v) x /\ Forall (idle_at (verdict_fun (Some v) x)) post /\
      match v with
      | VRemoved ss => Forall (fun a => soft a.2 /\ forall s, a.2 = ARm s -> s ∈ ss \/ x <> Some s) l
      | _ => True
      end
  end.

Lemma run_acts_app l l' x : run_acts (l ++ l') x = run_acts l' (run_acts l x).
Proof. apply fold_left_app. Qed.

Lemma run_acts_idle y l : Forall (idle_at y) l -> run_acts l y = y.
Proof. unfold run_acts. induction 1 as [|a l [_ Ha] _ IH]; cbn; [done|by rewrite Ha]. Qed.

(** The answer is what the row will be. *)
Lemma agrees_answer x l e : agrees x l e -> verdict_fun (val <$> e) x = run_acts l x.
Proof.
  destruct e as [[v o]|]; cbn [fmap option_fmap option_map val].
  - intros (pre & post & i & -> & _ & _ & Hpre & Hpost & _). by rewrite run_acts_app, Hpre, run_acts_idle.
  - intros H. by rewrite run_acts_idle.
Qed.

Lemma verdict_idem_act v ss a x : v = VRemoved ss -> soft a -> (forall s, a = ARm s -> s ∈ ss \/ x <> Some s) ->
  verdict_fun (Some v) (act_fun a x) = verdict_fun (Some v) x.
Proof.
  intros -> Ha Hs. destruct a as [| |s|]; [done|done| |done]. unfold verdict_fun. cbn. destruct (decide (x = Some s)) as [-> |]; [|done].
  destruct (Hs s eq_refl) as [H|H]; [by rewrite decide_True|done].
Qed.

Lemma idle_act_entry v ss a x : v = VRemoved ss -> soft a -> (forall s, a = ARm s -> s ∈ ss \/ x <> Some s) ->
  act_fun a (verdict_fun (Some v) x) = verdict_fun (Some v) x.
Proof.
  intros -> Ha Hs. destruct a as [| |s|]; [done|done| |done]. unfold verdict_fun. cbn. destruct x as [s'|]; cbn; [|done].
  destruct (decide (s' ∈ ss)); [done|]. rewrite decide_False; [done|]. intros [= ->]. by destruct (Hs s eq_refl).
Qed.

(** The first act runs. *)
Lemma agrees_exec x i a l e : agrees x ((i, a) :: l) e -> agrees (act_fun a x) l e.
Proof.
  destruct e as [[v o]|]; cbn [agrees].
  - intros (pre & post & j & El & Ho & Hlast & Hpre & Hpost & Hv).
    destruct pre as [|b pre]; cbn in El; [subst post|injection El as <- El].
    + apply list.Forall_cons_1 in Hpost as [[Ha Hx] Hpost]. cbn in Hpre, Ha, Hx. rewrite <- Hpre in Hx, Hpost. rewrite Hx.
      exists [], l, j. split_and!; [done|done|by left|done|by rewrite <- Hpre|].
      destruct v; try done. by apply list.Forall_cons_1 in Hv as [_ ?].
    + assert (Hsame : verdict_fun (Some v) (act_fun a x) = verdict_fun (Some v) x).
      { destruct v as [s| |ss]; [done|done|]. apply list.Forall_cons_1 in Hv as [[Ha Hs] _]. by apply (verdict_idem_act _ ss). }
      exists pre, post, j. rewrite Hsame. split_and!; [done|done| |done|done|].
      * destruct Hlast as [|(pre' & b & Hl)]; [done|]. destruct pre' as [|c pre']; cbn in Hl; [left; by injection Hl|].
        right. exists pre', b. by injection Hl.
      * destruct v as [s| |ss]; try done. apply list.Forall_cons_1 in Hv as [[Ha Hs] Hv].
        eapply list.Forall_impl; [exact Hv|]. intros c [Hc Hcs]. split; [done|]. intros s Es. destruct (Hcs s Es) as [?|Hn]; [by left|right].
        destruct a as [| |s'|]; try done. cbn. by destruct (decide (x = Some s')).
  - intros [[Ha Hx] Hl]%list.Forall_cons_1. cbn in Hx. by rewrite Hx.
Qed.

(** The first act runs and is still to come: it changes nothing more. *)
Lemma agrees_repeat x x' i a l e : (x' = act_fun a x \/ a = ADel) -> agrees x ((i, a) :: l) e -> agrees x' ((i, a) :: l) e.
Proof.
  intros Hx'. assert (Hact : act_fun a x' = act_fun a x) by (destruct Hx' as [-> | ->]; [apply act_idem|done]).
  destruct e as [[v o]|]; cbn [agrees].
  - intros (pre & post & j & El & Ho & Hlast & Hpre & Hpost & Hv).
    destruct pre as [|b pre]; cbn in El; [subst post|injection El as <- El].
    + cbn in Hpre. apply list.Forall_cons_1 in Hpost as H0. destruct H0 as [[Ha Hx] _]. cbn in Ha, Hx. rewrite <- Hpre in Hx.
      assert (x' = x) as -> by (destruct Hx' as [-> | ->]; done).
      exists [], ((i, a) :: l), j. split_and!; [done|done|by left|done|done|done].
    + assert (Hsame : verdict_fun (Some v) x' = verdict_fun (Some v) x).
      { destruct v as [s| |ss]; [done|done|]. apply list.Forall_cons_1 in Hv as [[Ha Hs] _].
        destruct Hx' as [-> | ->]; [by apply (verdict_idem_act _ ss)|done]. }
      exists ((i, a) :: pre), post, j. rewrite Hsame, El. split_and!; [done|done|done| |done|].
      * unfold run_acts in *. cbn in *. by rewrite Hact.
      * destruct v as [s| |ss]; try done. rewrite El in Hv. eapply list.Forall_impl; [exact Hv|]. intros c [Hc Hcs]. split; [done|].
        intros s Es. destruct (Hcs s Es) as [?|Hn]; [by left|right]. apply list.Forall_cons_1 in Hv as [[Ha _] _]. cbn in Ha.
        destruct Hx' as [-> | ->]; [|done]. destruct a as [| |s'|]; try done. cbn. by destruct (decide (x = Some s')).
  - intros Hl. assert (H0 := Hl). apply list.Forall_cons_1 in H0 as [[Ha Hx] _]. cbn in Hx, Ha.
    assert (x' = x) as -> by (destruct Hx' as [-> | ->]; done). done.
Qed.

(** ** A write is queued *)

Definition rm_entry (s : pystr) (o : option nat) (e : option entry) : option entry :=
  match e with
  | None => Some (Entry (VRemoved {[s]}) o)
  | Some (Entry (VRemoved ss) _) => Some (Entry (VRemoved (ss ∪ {[s]})) o)
  | Some (Entry (VSession s') o') => if decide (s' = s) then Some (Entry VAbsent o) else Some (Entry (VSession s') o')
  | Some (Entry VAbsent o') => Some (Entry VAbsent o')
  end.

Lemma rm_entry_idem s o e : rm_entry s o (rm_entry s o e) = rm_entry s o e.
Proof.
  destruct e as [[[s'| |ss] o']|]; cbn; [|done|..].
  - destruct (decide (s' = s)) as [->|Hne]; [done|]. cbn. by rewrite decide_False.
  - do 3 f_equal. set_solver.
  - do 3 f_equal. set_solver.
Qed.

Lemma set_key_overlay mu s i st k k' : overlay (set_key mu s (Some i) st k) !! k' =
  if decide (k' = k) then Some (Entry (VSession s) (Some i)) else overlay st !! k'.
Proof.
  unfold set_key, place. cbn. destruct (decide (k' = k)) as [-> |]; [apply lookup_insert_eq|by rewrite lookup_insert_ne].
Qed.

Lemma remove_key_overlay mu s i st k k' : overlay (remove_key mu s (Some i) st k) !! k' =
  if decide (k' = k) then rm_entry s (Some i) (overlay st !! k) else overlay st !! k'.
Proof.
  unfold remove_key, rm_entry. destruct (overlay st !! k) as [[[s'| |ss] o]|] eqn:E; cbn [val].
  1: destruct (decide (s' = s)).
  all: unfold place; cbn; destruct (decide (k' = k)) as [-> |]; rewrite ?lookup_insert_eq, ?lookup_insert_ne, ?E by done; done.
Qed.

Lemma fold_set_overlay mu s i ks st k : overlay (fold_left (set_key mu s (Some i)) ks st) !! k =
  if decide (k ∈ ks) then Some (Entry (VSession s) (Some i)) else overlay st !! k.
Proof.
  revert st. induction ks as [|k' ks IH]; intros st; cbn [fold_left]; [by rewrite decide_False by apply not_elem_of_nil|].
  rewrite IH, set_key_overlay. destruct (decide (k ∈ ks)) as [H|H].
  - by rewrite decide_True by (by right).
  - destruct (decide (k = k')) as [-> |Hne]; [by rewrite decide_True by left|].
    by rewrite decide_False by (by rewrite elem_of_cons; intros [?|?]).
Qed.

Lemma fold_remove_overlay mu s i rs st k : overlay (fold_left (remove_key mu s (Some i)) rs st) !! k =
  if decide (k ∈ rs) then rm_entry s (Some i) (overlay st !! k) else overlay st !! k.
Proof.
  revert st. induction rs as [|k' rs IH]; intros st; cbn [fold_left]; [by rewrite decide_False by apply not_elem_of_nil|].
  rewrite IH, remove_key_overlay. destruct (decide (k = k')) as [<-|Hne].
  - rewrite (decide_True (P := k ∈ k :: rs)) by left. destruct (decide (k ∈ rs)); [apply rm_entry_idem|done].
  - destruct (decide (k ∈ rs)) as [H|H]; [by rewrite decide_True by (by right)|].
    by rewrite decide_False by (by rewrite elem_of_cons; intros [?|?]).
Qed.

Lemma last_snoc (l : acts) i a : exists pre' b, l ++ [(i, a)] = pre' ++ [(i, b)].
Proof. by exists l, a. Qed.

Lemma agrees_set x l e i s : agrees x l e -> agrees x (l ++ [(i, ASet s)]) (Some (Entry (VSession s) (Some i))).
Proof.
  intros _. exists (l ++ [(i, ASet s)]), [], i. rewrite app_nil_r. split_and!; [done|done|right; apply last_snoc| |constructor|done].
  by rewrite run_acts_app.
Qed.

Lemma agrees_nop x l e i : agrees x l e -> agrees x (l ++ [(i, ANop)]) e.
Proof.
  destruct e as [[v o]|]; cbn [agrees].
  - intros (pre & post & j & -> & Ho & Hlast & Hpre & Hpost & Hv). exists pre, (post ++ [(i, ANop)]), j.
    rewrite <- app_assoc. split_and!; [done|done|done|done| |].
    + apply Forall_app. split; [done|]. by repeat constructor.
    + destruct v; try done. rewrite app_assoc. apply Forall_app. split; [done|]. by repeat constructor.
  - intros H. apply Forall_app. split; [done|]. by repeat constructor.
Qed.

Lemma agrees_rm x l e i s : agrees x l e -> agrees x (l ++ [(i, ARm s)]) (rm_entry s (Some i) e).
Proof.
  assert (Hall : forall l y, run_acts (l ++ [(i, ARm s)]) y = act_fun (ARm s) (run_acts l y)) by (intros; by rewrite run_acts_app).
  destruct e as [[v o]|]; cbn [agrees].
  - intros (pre & post & j & -> & Ho & Hlast & Hpre & Hpost & Hv).
    assert (Hrun : run_acts (pre ++ post) x = verdict_fun (Some v) x) by (by rewrite run_acts_app, Hpre, run_acts_idle).
    destruct v as [s'| |ss]; cbn [rm_entry].
    + destruct (decide (s' = s)) as [-> |Hne].
      * exists ((pre ++ post) ++ [(i, ARm s)]), [], i. rewrite app_nil_r. split_and!; [done|done|right; apply last_snoc| |constructor|done].
        rewrite Hall, Hrun. unfold verdict_fun. cbn. by rewrite decide_True.
      * exists pre, (post ++ [(i, ARm s)]), j. rewrite <- app_assoc. split_and!; [done|done|done|done| |done].
        apply Forall_app. split; [done|]. constructor; [|constructor]. split; [done|]. unfold verdict_fun. cbn. by rewrite decide_False by congruence.
    + exists pre, (post ++ [(i, ARm s)]), j. rewrite <- app_assoc. split_and!; [done|done|done|done| |done].
      apply Forall_app. split; [done|]. by repeat constructor.
    + exists ((pre ++ post) ++ [(i, ARm s)]), [], i. rewrite app_nil_r. split_and!; [done|done|right; apply last_snoc| |constructor|].
      * rewrite Hall, Hrun. unfold verdict_fun. cbn. destruct x as [s'|]; cbn; [|done].
        destruct (decide (s' ∈ ss)), (decide (s' ∈ ss ∪ {[s]})); cbn; try set_solver;
          [rewrite decide_True; [done|set_solver]|rewrite decide_False; [done|set_solver]].
      * apply Forall_app. split.
        { eapply list.Forall_impl; [exact Hv|]. intros a [Ha Has]. split; [done|]. intros s' Es. destruct (Has s' Es); [left; set_solver|by right]. }
        { constructor; [|constructor]. split; [done|]. intros s' [= ->]. left. set_solver. }
  - intros Hl. cbn [rm_entry]. exists (l ++ [(i, ARm s)]), [], i. rewrite app_nil_r.
    split_and!; [done|done|right; apply last_snoc| |constructor|].
    + rewrite Hall, run_acts_idle by done. unfold verdict_fun. cbn. destruct x as [s'|]; cbn; [|done].
      destruct (decide (s' ∈ ({[s]} : gset pystr))); [rewrite decide_True; [done|set_solver]|rewrite decide_False; [done|set_solver]].
    + apply Forall_app. split.
      * eapply list.Forall_impl; [exact Hl|]. intros [j a] [Ha Hx]. split; [done|]. intros s' Es. right. cbn in Es, Hx. subst a. cbn in Hx.
        intros ->. by rewrite decide_True in Hx.
      * constructor; [|constructor]. split; [done|]. intros s' [= ->]. left. set_solver.
Qed.

(** ** A delete commits, and reports *)

Definition commit_act (gone : gset pystr) (a : nat * act) : nat * act :=
  (a.1, match a.2 with ASet s => if decide (s ∈ gone) then ADel else ASet s | b => b end).

Lemma commit_act_fun gone a x : act_fun (commit_act gone a).2 (gone_row gone x) = gone_row gone (act_fun a.2 x).
Proof.
  destruct a as [i [s| |s|]]; cbn; [|done| |done].
  - by destruct (decide (s ∈ gone)).
  - destruct x as [s'|]; cbn; [|by destruct (decide (_ = _))]. destruct (decide (s' ∈ gone)) as [Hg|Hg].
    + rewrite decide_False by done. destruct (decide (Some s' = Some s)); [done|]. cbn. by rewrite decide_True.
    + destruct (decide (Some s' = Some s)); [done|]. cbn. by rewrite decide_False.
Qed.

Lemma run_acts_commit gone l x : run_acts (map (commit_act gone) l) (gone_row gone x) = gone_row gone (run_acts l x).
Proof.
  unfold run_acts. revert x. induction l as [|a l IH]; intros x; [done|]. cbn [map fold_left]. by rewrite commit_act_fun, IH.
Qed.

Lemma commit_soft gone a : soft a.2 -> commit_act gone a = a.
Proof. destruct a as [i [s| |s|]]; done. Qed.

Lemma idle_commit gone y a : idle_at y a -> idle_at (gone_row gone y) (commit_act gone a).
Proof.
  intros [Ha Hx]. split; [by rewrite commit_soft|]. by rewrite commit_act_fun, Hx.
Qed.

Lemma gone_verdict gone e x : verdict_fun (Some (val (gone_entry gone e))) (gone_row gone x) = gone_row gone (verdict_fun (Some (val e)) x).
Proof.
  destruct e as [[s| |ss] o]; unfold verdict_fun, gone_entry; cbn.
  - by destruct (decide (s ∈ gone)).
  - done.
  - destruct x as [s|]; cbn; [|done]. destruct (decide (s ∈ gone)) as [Hg|Hg]; cbn.
    + destruct (decide (s ∈ ss)); cbn; [done|by rewrite decide_True].
    + destruct (decide (s ∈ ss)); cbn; [done|by rewrite decide_False].
Qed.

Lemma agrees_commit gone x l e : agrees x l e ->
  agrees (gone_row gone x) (map (commit_act gone) l) (gone_entry gone <$> e).
Proof.
  destruct e as [[v o]|]; cbn [agrees fmap option_fmap option_map].
  - intros (pre & post & i & -> & Ho & Hlast & Hpre & Hpost & Hv).
    assert (Eg := gone_verdict gone (Entry v o) x). cbn [val] in Eg.
    destruct (gone_entry gone (Entry v o)) as [v' o'] eqn:Ee. cbn [val] in Eg.
    assert (o' = o) as -> by (unfold gone_entry in Ee; cbn in Ee; destruct v; [destruct (decide _)|..]; by injection Ee).
    exists (map (commit_act gone) pre), (map (commit_act gone) post), i. rewrite map_app.
    split_and!; [done|done| | | |].
    + destruct Hlast as [-> |(pre' & a & ->)]; [by left|right]. rewrite map_app. by eexists _, _.
    + by rewrite run_acts_commit, Hpre.
    + rewrite Eg. apply Forall_map. eapply list.Forall_impl; [exact Hpost|]. intros a. apply idle_commit.
    + destruct v' as [s| |ss]; [done|done|]. assert (v = VRemoved ss) as ->.
      { unfold gone_entry in Ee. destruct v; cbn in Ee; [destruct (decide _)|..]; congruence. }
      rewrite <- map_app. apply Forall_map. eapply list.Forall_impl; [exact Hv|]. intros a [Ha Has]. rewrite commit_soft by done.
      split; [done|]. intros s Es. destruct (Has s Es) as [?|Hn]; [by left|right]. destruct x as [s'|]; [|done]. cbn.
      by destruct (decide (s' ∈ gone)).
  - intros Hl. apply Forall_map. eapply list.Forall_impl; [exact Hl|]. intros a. apply idle_commit.
Qed.

(** Two lists of acts that do the same from [x] on, the second no less soft. *)
Inductive same_from : option pystr -> acts -> acts -> Prop :=
  | same_nil x : same_from x [] []
  | same_cons x i a a' l l' : act_fun a' x = act_fun a x -> (a' = a \/ (soft a /\ a' = ANop)) -> same_from (act_fun a x) l l' ->
      same_from x ((i, a) :: l) ((i, a') :: l').

Lemma same_refl x l : same_from x l l.
Proof. revert x. induction l as [|[i a] l IH]; intros x; constructor; [done|by left|apply IH]. Qed.

Lemma same_run x l l' : same_from x l l' -> run_acts l' x = run_acts l x.
Proof. unfold run_acts. induction 1 as [|x i a a' l l' Ha _ _ IH]; cbn; [done|]. by rewrite Ha. Qed.

Lemma same_split x l l' : same_from x l l' -> forall pre post, l = pre ++ post -> exists pre' post', l' = pre' ++ post' /\
  same_from x pre pre' /\ same_from (run_acts pre x) post post'.
Proof.
  induction 1 as [x|x i a a' l l' Ha Hs Hl IH]; intros pre post E.
  - symmetry in E. apply app_eq_nil in E as [-> ->]. exists [], []. split_and!; [done|constructor..].
  - destruct pre as [|b pre]; cbn in E; [subst post|injection E as <- E].
    + exists [], ((i, a') :: l'). split_and!; [done|constructor|by constructor].
    + destruct (IH pre post E) as (pre' & post' & -> & H1 & H2). exists ((i, a') :: pre'), post'. split_and!; [done|by constructor|done].
Qed.

Lemma same_idle y l l' : same_from y l l' -> Forall (idle_at y) l -> Forall (idle_at y) l'.
Proof.
  intros H. remember y as z eqn:Ez in H. revert Ez. induction H as [|x i a a' l l' Ha Hs Hl IH]; intros ->; [done|].
  intros [[H1 H2] H3]%list.Forall_cons_1. cbn in H1, H2. constructor; [|by apply IH].
  split; cbn; [by destruct Hs as [-> |[_ ->]]|]. by rewrite Ha.
Qed.

Lemma agrees_same x l l' e : same_from x l l' -> agrees x l e -> agrees x l' e.
Proof.
  intros Hs. destruct e as [[v o]|]; cbn [agrees]; [|by apply same_idle].
  intros (pre & post & i & -> & Ho & Hlast & Hpre & Hpost & Hv).
  destruct (same_split _ _ _ Hs pre post eq_refl) as (pre' & post' & -> & H1 & H2).
  exists pre', post', i. split_and!; [done|done| | | |].
  - destruct Hlast as [-> |(p & a & ->)]; [left; by inversion H1|right].
    destruct (same_split _ _ _ H1 p [(i, a)] eq_refl) as (p' & t & -> & _ & H4). inversion H4 as [|? ? ? a' ? ? ? ? H5]; subst.
    inversion H5; subst. by exists p', a'.
  - by rewrite (same_run _ _ _ H1).
  - rewrite Hpre in H2. by eapply same_idle.
  - destruct v as [s| |ss]; try done. clear - Hs Hv. revert Hs. generalize (pre' ++ post'). revert Hv. generalize (pre ++ post).
    generalize x at 2. intros z l Hl l' H. revert Hl.
    induction H as [|y i a a' l l' Ha Hs _ IH]; [done|]. intros [[H1 H2] H3]%list.Forall_cons_1. cbn in H1, H2. constructor; [|by apply IH].
    cbn. destruct Hs as [-> |[_ ->]]; [done|]. split; [done|]. by intros s.
Qed.

(** The writes a reported delete turned into erases do what they would have done, on rows
    no deleted session is left in. *)
Lemma mark_queue gone k q : forall x, gone_row gone x = x ->
  same_from x (map (fun w => (wid w, act_of k (bool_decide (session w ∈ gone)) w)) q)
    (map (fun w => (wid w, act_of k false w)) (map (erase_queued gone) q)) .
Proof.
  induction q as [|w q IH]; intros x Hx; cbn [map]; [constructor|].
  assert (Ew : wid (erase_queued gone w) = wid w) by (unfold erase_queued; by destruct (decide _)). rewrite Ew.
  assert (Hclean : gone_row gone (act_fun (act_of k (bool_decide (session w ∈ gone)) w) x) =
    act_fun (act_of k (bool_decide (session w ∈ gone)) w) x).
  { unfold act_of. destruct (decide (k ∈ sets w)).
    - destruct (erased w || bool_decide (session w ∈ gone)) eqn:Eb; [done|]. apply orb_false_iff in Eb as [_ Eb%bool_decide_eq_false].
      cbn. by rewrite decide_False.
    - destruct (decide (k ∈ removes w)); [|done]. destruct (erased w); [done|]. cbn. by destruct (decide (x = Some (session w))). }
  constructor; [| |by apply IH].
  - unfold act_of, erase_queued. destruct (decide (session w ∈ gone)) as [Hg|Hg]; cbn.
    + rewrite bool_decide_eq_true_2 by done. rewrite orb_true_r. destruct (decide (k ∈ sets w)); [done|].
      destruct (decide (k ∈ removes w)); [|done]. destruct (erased w); [done|]. cbn. rewrite decide_False; [done|].
      intros ->. cbn in Hx. by rewrite decide_True in Hx.
    + by rewrite bool_decide_eq_false_2.
  - unfold act_of, erase_queued. destruct (decide (session w ∈ gone)) as [Hg|Hg]; cbn.
    + rewrite bool_decide_eq_true_2 by done. rewrite orb_true_r. destruct (decide (k ∈ sets w)); [by left|].
      destruct (decide (k ∈ removes w)); [|by left]. destruct (erased w); [by left|right; done].
    + rewrite bool_decide_eq_false_2 by done. by left.
Qed.

(** ** The invariant of the system *)

Definition in_window (win : option (gset pystr)) (w : write) : bool :=
  match win with Some gone => bool_decide (session w ∈ gone) | None => false end.

Definition pc_acts (p : pc) (k : key) (dm : bool) (w : write) : acts :=
  match p with Taken | Ran | Erasing => [(wid w, act_of k dm w)] | _ => [] end.

(** What is still to happen to the row of [k]: the write in flight, then the queue. *)
Definition flight_acts (s : sys) (k : key) : acts :=
  match in_flight (wr s) with
  | Some w => pc_acts (at_pc s) k (erase_after (wr s) || in_window (window s) w) w
  | None => []
  end.

Definition queue_acts (win : option (gset pystr)) (k : key) (q : list write) : acts :=
  map (fun w => (wid w, act_of k (in_window win w) w)) q.

Definition row_acts (s : sys) (k : key) : acts := flight_acts s k ++ queue_acts (window s) k (queue (wr s)).

Definition row_entry (s : sys) (k : key) : option entry :=
  match window s with
  | Some gone => gone_entry gone <$> overlay (wr s) !! k
  | None => overlay (wr s) !! k
  end.

Definition ids (st : writer) : list nat :=
  match in_flight st with Some w => [wid w] | None => [] end ++ map wid (queue st).

Record good (es : list event) (s : sys) : Prop := {
  g_sync k : sync_map es !! k = run_acts (row_acts s k) (db s !! k);
  g_agree k : agrees (db s !! k) (row_acts s k) (row_entry s k);
  g_ran w k : in_flight (wr s) = Some w -> at_pc s = Ran \/ at_pc s = Erasing ->
    k ∉ sets w \/ erase_after (wr s) || in_window (window s) w = false ->
    act_fun (act_of k (erase_after (wr s) || in_window (window s) w) w) (db s !! k) = db s !! k;
  g_clean gone k : window s = Some gone -> gone_row gone (run_acts (flight_acts s k) (db s !! k)) = run_acts (flight_acts s k) (db s !! k);
  g_idle : at_pc s = Idle <-> in_flight (wr s) = None;
  g_erasing : at_pc s = Erasing -> erase_after (wr s) = true;
  g_ids : NoDup (ids (wr s)) /\ Forall (fun i => (i < next_id (wr s))%nat) (ids (wr s));
  g_window : window s <> None -> deletes (wr s) = 1%nat }.

(** Every write is queued, names no key it also supersedes, and succeeds; nothing is
    closed. *)
Definition calm (e : event) : Prop :=
  match e with
  | Submit _ ks rs how => how = Queued /\ forall k, k ∈ ks -> k ∉ rs
  | Run ok | Erase ok => ok = true
  | Close _ => False
  | _ => True
  end.

Lemma sync_snoc es e : sync_map (es ++ [e]) = sync (sync_map es) e.
Proof. unfold sync_map. by rewrite fold_left_app. Qed.

Lemma start_good : good [] start.
Proof.
  split; cbn; try done.
  - intros k. constructor.
  - split; [constructor|constructor].
Qed.

Section Steps.
Context (mp mu : nat).

Lemma place_frame m k e st : let st' := place m k e st in
  queue st' = queue st /\ in_flight st' = in_flight st /\ erase_after st' = erase_after st /\ next_id st' = next_id st /\
  deletes st' = deletes st /\ closed st' = closed st.
Proof. unfold place. destruct (owner e); [done|]. by destruct (evict _ _ _). Qed.

Lemma set_frame m s o ks st : let st' := fold_left (set_key m s o) ks st in
  queue st' = queue st /\ in_flight st' = in_flight st /\ erase_after st' = erase_after st /\ next_id st' = next_id st /\
  deletes st' = deletes st /\ closed st' = closed st.
Proof.
  revert st. induction ks as [|k ks IH]; intros st; cbn [fold_left]; [done|].
  destruct (IH (set_key m s o st k)) as (-> & -> & -> & -> & -> & ->). apply place_frame.
Qed.

Lemma remove_frame m s o ks st : let st' := fold_left (remove_key m s o) ks st in
  queue st' = queue st /\ in_flight st' = in_flight st /\ erase_after st' = erase_after st /\ next_id st' = next_id st /\
  deletes st' = deletes st /\ closed st' = closed st.
Proof.
  revert st. induction ks as [|k ks IH]; intros st; cbn [fold_left]; [done|].
  destruct (IH (remove_key m s o st k)) as (-> & -> & -> & -> & -> & ->). unfold remove_key.
  destruct (overlay st !! k) as [[[s'| |ss] o']|]; cbn [val]; [|done|apply place_frame..].
  destruct (decide (s' = s)); [apply place_frame|done].
Qed.

Lemma submit_good es st p d f s ks rs st' : (forall k, k ∈ ks -> k ∉ rs) -> submit mp mu s ks rs st = (Queued, st') ->
  good es (Sys st p d None f) -> good (es ++ [Submit s ks rs Queued]) (Sys st' p d None f).
Proof.
  intros Hdis H Hg. unfold submit in H. destruct (closed st); [done|]. destruct (_ <? _)%nat; [|done].
  injection H as <-. set (i := next_id st).
  destruct (set_frame mu s (Some i) ks st) as (Q1 & F1 & A1 & N1 & D1 & C1).
  set (st1 := fold_left (set_key mu s (Some i)) ks st) in *.
  destruct (remove_frame mu s (Some i) rs st1) as (Q2 & F2 & A2 & N2 & D2 & C2).
  set (st2 := fold_left (remove_key mu s (Some i)) rs st1) in *.
  rewrite Q1 in Q2. rewrite F1 in F2. rewrite A1 in A2. rewrite N1 in N2. rewrite D1 in D2.
  fold i in N2. destruct Hg as [Hsync Hagree Hran Hclean Hidle Her [Hnd Hlt] Hwin].
  match goal with |- good _ ?x => set (s' := x) end.
  assert (Hacts : forall k, row_acts s' k = row_acts (Sys st p d None f) k ++ [(i, act_of k false (Write i s ks rs false))]).
  { intros k. unfold s', row_acts, flight_acts, queue_acts. cbn. rewrite Q2, F2, A2, map_app. cbn. by rewrite app_assoc, N2. }
  split.
  - intros k. rewrite Hacts, run_acts_app, sync_snoc. cbn [sync]. rewrite apply_run_lookup, Hsync. unfold act_of, run_acts at 2. cbn.
    destruct (decide (k ∈ ks)), (decide (k ∈ rs)); done.
  - intros k. rewrite Hacts. unfold row_entry, s'. cbn [wr at_pc db window overlay]. unfold st2. rewrite fold_remove_overlay. unfold st1.
    rewrite fold_set_overlay. specialize (Hagree k). unfold row_entry in Hagree. cbn [wr db window] in Hagree. unfold act_of. cbn.
    destruct (decide (k ∈ ks)) as [Hk|Hk].
    + rewrite decide_False by by apply Hdis. by eapply agrees_set.
    + destruct (decide (k ∈ rs)); [by apply agrees_rm|by apply agrees_nop].
  - intros w k. unfold s'. cbn. rewrite F2, A2. apply Hran.
  - by intros gone k.
  - unfold s'. cbn. by rewrite F2.
  - unfold s'. cbn. intros Hp. rewrite A2. by apply Her.
  - unfold s', ids in *. cbn in *. rewrite F2, Q2, N2, map_app, app_assoc. cbn. fold i. split.
    + apply list.NoDup_app. split_and!; [done| |apply list.NoDup_singleton]. intros j Hj Hj'%list_elem_of_singleton. rewrite Hj' in Hj.
      eapply list.Forall_forall in Hlt; [|exact Hj]. unfold i in Hlt. lia.
    + apply Forall_app. split; [eapply list.Forall_impl; [exact Hlt|]; cbn; lia|]. constructor; [unfold i; lia|constructor].
  - done.
Qed.

Lemma take_good es st d win st' f : next_write st = Some st' -> good es (Sys st Idle d win f) ->
  good (es ++ [Take]) (Sys st' Taken d win false).
Proof.
  unfold next_write. destruct (queue st) as [|w q] eqn:Eq; [done|]. destruct (closed st); [done|]. intros [= <-].
  intros [Hsync Hagree Hran Hclean Hidle Her [Hnd Hlt] Hwin]. cbn -[row_acts flight_acts] in *.
  assert (Hn : in_flight st = None) by by apply Hidle.
  match goal with |- good _ ?x => set (s' := x) end.
  assert (Hacts : forall k, row_acts s' k = row_acts (Sys st Idle d win f) k).
  { intros k. unfold s', row_acts, flight_acts, queue_acts. cbn. by rewrite Hn, Eq. }
  split.
  - intros k. rewrite Hacts, sync_snoc. apply Hsync.
  - intros k. rewrite Hacts. apply Hagree.
  - intros w' k _ [H|H]; done.
  - unfold s'. cbn -[flight_acts]. intros gone k ->. specialize (Hclean gone k eq_refl). unfold flight_acts in Hclean |- *. cbn in *.
    rewrite Hn in Hclean. cbn in Hclean. unfold act_of. destruct (decide (k ∈ sets w)).
    + destruct (erased w || bool_decide (session w ∈ gone)) eqn:Eb; [done|]. apply orb_false_iff in Eb as [_ Eb%bool_decide_eq_false].
      cbn. by rewrite decide_False.
    + destruct (decide (k ∈ removes w)); [|done]. destruct (erased w); [done|]. cbn. by destruct (decide (d !! k = Some (session w))).
  - unfold s'. cbn. done.
  - done.
  - unfold s', ids in *. cbn in *. rewrite Hn, Eq in *. done.
  - done.
Qed.

Lemma act_of_cases k dm w : act_of k dm w = act_of k false w \/ (act_of k dm w = ADel /\ k ∈ sets w /\ dm = true).
Proof.
  unfold act_of. destruct dm; [|by left]. destruct (decide (k ∈ sets w)); [|by left]. rewrite orb_true_r. by right.
Qed.

Lemma act_of_soft_same k dm w : k ∉ sets w \/ dm = false -> act_of k dm w = act_of k false w.
Proof. intros H. destruct (act_of_cases k dm w) as [?|(_ & Hk & ->)]; [done|]. by destruct H. Qed.

Lemma run_good es st d w f x : in_flight st = Some x -> good es (Sys st Taken d w f) ->
  good (es ++ [Run true]) (Sys st Ran (run_op x d) w (f || false)).
Proof.
  intros Hx [Hsync Hagree Hran Hclean Hidle Her [Hnd Hlt] Hwin]. match goal with |- good _ ?y => set (s' := y) end.
  set (dm := erase_after st || in_window w x). cbn [db] in Hsync, Hagree.
  assert (Hacts : forall k, exists q, row_acts s' k = (wid x, act_of k dm x) :: q /\ row_acts (Sys st Taken d w f) k = (wid x, act_of k dm x) :: q).
  { intros k. unfold s', row_acts, flight_acts. cbn. rewrite Hx. by eexists. }
  assert (Hdb : forall k, db s' !! k = act_fun (act_of k dm x) (d !! k) \/ act_of k dm x = ADel).
  { intros k. unfold s'. cbn. rewrite run_op_lookup. destruct (act_of_cases k dm x) as [-> |(-> & _)]; [by left|by right]. }
  assert (Hrun : forall k, act_fun (act_of k dm x) (db s' !! k) = act_fun (act_of k dm x) (d !! k)).
  { intros k. destruct (Hdb k) as [-> | ->]; [apply act_idem|done]. }
  split.
  - intros k. rewrite sync_snoc. cbn [sync]. rewrite Hsync. destruct (Hacts k) as (q & -> & ->). unfold run_acts. cbn [fold_left snd]. by rewrite Hrun.
  - intros k. specialize (Hagree k). destruct (Hacts k) as (q & E1 & E2). rewrite E2 in Hagree. rewrite E1.
    eapply agrees_repeat; [apply Hdb|exact Hagree].
  - unfold s'. cbn [wr window at_pc db]. intros y k Hy _ Hk. rewrite Hx in Hy. injection Hy as <-. fold dm in Hk |- *.
    rewrite run_op_lookup, act_of_soft_same by done. apply act_idem.
  - unfold s'. cbn [window]. intros gone k ->. specialize (Hclean gone k eq_refl). unfold flight_acts in *. cbn [wr at_pc window db] in *.
    rewrite Hx in *. cbn [pc_acts] in *. fold dm in Hclean |- *. specialize (Hrun k). unfold s' in Hrun. cbn [db] in Hrun.
    unfold run_acts in *. cbn [fold_left snd] in *. by rewrite Hrun.
  - unfold s'. cbn. by rewrite Hx.
  - done.
  - by split.
  - done.
Qed.

Lemma check_good es st d w f : deletes st = 0%nat -> good es (Sys st Ran d w f) ->
  good (es ++ [Check]) (Sys st (if erase_after st then Erasing else Checked) d w f).
Proof.
  intros Hdel [Hsync Hagree Hran Hclean Hidle Her [Hnd Hlt] Hwin]. cbn in Hwin.
  assert (w = None) as -> by (destruct w; [by specialize (Hwin ltac:(done)); lia|done]).
  destruct (in_flight st) as [x|] eqn:Hx; [|by apply Hidle in Hx].
  destruct (erase_after st) eqn:Ee.
  - match goal with |- good _ ?y => set (s' := y) end.
    assert (Hacts : forall k, row_acts s' k = row_acts (Sys st Ran d None f) k) by (intros k; unfold s', row_acts, flight_acts; cbn; by rewrite Hx).
    split; try done.
    + intros k. rewrite Hacts, sync_snoc. apply Hsync.
    + intros y k Hy _ Hk. apply Hran; [done|by left|done].
    + unfold s'. cbn. by rewrite Hx.
  - match goal with |- good _ ?y => set (s' := y) end.
    assert (Hacts : forall k, row_acts (Sys st Ran d None f) k = (wid x, act_of k false x) :: row_acts s' k).
    { intros k. unfold s', row_acts, flight_acts. cbn. by rewrite Hx, Ee. }
    assert (Hsame : forall k, act_fun (act_of k false x) (d !! k) = d !! k).
    { intros k. specialize (Hran x k Hx (or_introl eq_refl)). cbn in Hran. rewrite Ee in Hran. apply Hran. by right. }
    split; try done.
    + intros k. rewrite sync_snoc. cbn [sync]. rewrite Hsync, Hacts. unfold run_acts. cbn [fold_left snd db]. by rewrite Hsame.
    + intros k. specialize (Hagree k). rewrite Hacts in Hagree. apply agrees_exec in Hagree. cbn [db] in Hagree. by rewrite Hsame in Hagree.
    + intros y k _ [H|H]; done.
    + unfold s'. cbn. by rewrite Hx.
Qed.

Lemma erase_good es st d w f x : in_flight st = Some x -> good es (Sys st Erasing d w f) ->
  good (es ++ [Erase true]) (Sys st Checked (apply_erase x d) w false).
Proof.
  intros Hx [Hsync Hagree Hran Hclean Hidle Her [Hnd Hlt] Hwin]. specialize (Her eq_refl). cbn in Her.
  match goal with |- good _ ?y => set (s' := y) end.
  assert (Hacts : forall k, row_acts (Sys st Erasing d w f) k = (wid x, act_of k true x) :: row_acts s' k).
  { intros k. unfold s', row_acts, flight_acts. cbn. by rewrite Hx, Her. }
  assert (Hdb : forall k, db s' !! k = act_fun (act_of k true x) (d !! k)).
  { intros k. unfold s'. cbn [db]. rewrite erase_lookup. destruct (decide (k ∈ sets x)) as [Hk|Hk].
    - unfold act_of. rewrite decide_True by done. by rewrite orb_true_r.
    - specialize (Hran x k Hx (or_intror eq_refl) (or_introl Hk)). cbn in Hran. by rewrite Her in Hran. }
  split; try done.
  - intros k. rewrite sync_snoc. cbn [sync]. rewrite Hsync, Hacts, Hdb. done.
  - intros k. rewrite Hdb. specialize (Hagree k). rewrite Hacts in Hagree. by eapply agrees_exec.
  - intros y k _ [H|H]; done.
  - unfold s'. cbn [window]. intros gone k ->. specialize (Hclean gone k eq_refl). unfold flight_acts in *. cbn [wr at_pc window db] in *.
    rewrite Hx in *. cbn [pc_acts] in *. rewrite Her in Hclean. cbn [orb] in Hclean. specialize (Hdb k). unfold s' in Hdb. cbn [db] in Hdb.
    unfold run_acts in *. cbn [fold_left snd] in *. by rewrite Hdb.
  - unfold s'. cbn. by rewrite Hx.
Qed.

Lemma settle_lookup w ks ov k : let ov' := fold_left (settle_key w) ks ov in
  ov' !! k = ov !! k \/ (exists e, ov !! k = Some e /\ owner e = Some w /\ ov' !! k = None).
Proof.
  cbn. revert ov. induction ks as [|k' ks IH]; intros ov; cbn [fold_left]; [by left|].
  destruct (IH (settle_key w ov k')) as [H|(e & H1 & H2 & H3)]; unfold settle_key in *;
    destruct (ov !! k') as [e'|] eqn:E'; try destruct (decide (owner e' = Some w)) as [Ho|Ho]; try (by left); try (by right; eauto).
  - destruct (decide (k = k')) as [-> |Hne]; [right; exists e'; by rewrite H, lookup_delete_eq|left; by rewrite H, lookup_delete_ne].
  - destruct (decide (k = k')) as [-> |Hne]; [by rewrite lookup_delete_eq in H1|].
    rewrite lookup_delete_ne in H1 by done. right. by exists e.
Qed.

Lemma settle_good es st d w f x : in_flight st = Some x -> good es (Sys st Checked d w f) ->
  good (es ++ [Settle]) (Sys (settle x st) Settled d w f).
Proof.
  intros Hx [Hsync Hagree Hran Hclean Hidle Her [Hnd Hlt] Hwin]. match goal with |- good _ ?y => set (s' := y) end.
  assert (Hacts : forall k, row_acts s' k = row_acts (Sys st Checked d w f) k).
  { intros k. unfold s', row_acts, flight_acts. cbn. by rewrite Hx. }
  split; try done.
  - intros k. rewrite Hacts, sync_snoc. apply Hsync.
  - intros k. rewrite Hacts. specialize (Hagree k). unfold row_entry in *. unfold s'. cbn [wr window db] in *. cbn [settle overlay].
    destruct (settle_lookup (wid x) (default [] (wkeys st !! wid x)) (overlay st) k) as [-> |(e & He & Ho & ->)]; [done|].
    rewrite He in Hagree.
    assert (Hpre : exists v, agrees (d !! k) (row_acts (Sys st Checked d w f) k) (Some (Entry v (Some (wid x))))).
    { clear - Hagree Ho. destruct w as [gone|]; [|exists (val e); destruct e as [v o]; cbn in *; by subst o].
      cbn -[agrees row_acts] in Hagree. unfold gone_entry in Hagree. destruct e as [[s| |ss] o]; cbn [val owner] in *; subst o; [destruct (decide (s ∈ gone))|..]; by eexists. }
    assert (Hnone : Forall (idle_at (d !! k)) (row_acts (Sys st Checked d w f) k)); [|by destruct w].
    destruct Hpre as (v & pre & post & i & El & [= <-] & Hlast & Hpre & Hpost & _).
    destruct Hlast as [-> |(pre' & a & ->)]; [cbn in El, Hpre; by rewrite El, Hpre|exfalso].
    unfold row_acts, flight_acts in El. cbn in El. rewrite Hx in El. cbn in El.
    assert (Hin : wid x ∈ map wid (queue st)).
    { assert (H : (wid x, a) ∈ queue_acts w k (queue st)) by (rewrite El; set_solver).
      unfold queue_acts in H. apply list_elem_of_In, in_map_iff in H as (y & [= E _] & Hy). rewrite <- E. by apply list_elem_of_In, in_map. }
    unfold ids in Hnd. cbn in Hnd. rewrite Hx in Hnd. apply list.NoDup_cons in Hnd as [Hn _]. done.
  - intros y k _ [H|H]; done.
  - unfold s'. cbn. by rewrite Hx.
Qed.

Lemma finish_good es st d w f : good es (Sys st Settled d w f) -> good (es ++ [Finish]) (Sys (finish f st) Idle d w false).
Proof.
  intros [Hsync Hagree Hran Hclean Hidle Her [Hnd Hlt] Hwin]. match goal with |- good _ ?y => set (s' := y) end.
  assert (Hacts : forall k, row_acts s' k = row_acts (Sys st Settled d w f) k).
  { intros k. unfold s', row_acts, flight_acts. cbn. by destruct (in_flight st). }
  split; try done.
  - intros k. rewrite Hacts, sync_snoc. apply Hsync.
  - intros k. rewrite Hacts. apply Hagree.
  - unfold s'. cbn [window]. intros gone k Hw. specialize (Hclean gone k Hw). unfold flight_acts in *. cbn in *. by destruct (in_flight st).
  - unfold s', ids in *. cbn in *. destruct (in_flight st); [|done]. apply list.NoDup_cons in Hnd as [_ ?]. by apply list.Forall_cons_1 in Hlt as [_ ?].
Qed.

Lemma deletes_good es st p d f n e : sync (sync_map es) e = sync_map es -> good es (Sys st p d None f) ->
  good (es ++ [e]) (Sys (with_deletes n st) p d None f).
Proof.
  intros He [Hsync Hagree Hran Hclean Hidle Her Hid Hwin]. split; try done. intros k. rewrite sync_snoc, He. apply Hsync.
Qed.

Lemma act_of_commit gone k dm w : act_of k (dm || bool_decide (session w ∈ gone)) w = (commit_act gone (wid w, act_of k dm w)).2.
Proof.
  unfold act_of, commit_act. cbn. destruct (decide (k ∈ sets w)).
  - destruct (erased w), dm; cbn; try done. destruct (decide (session w ∈ gone)); [by rewrite bool_decide_eq_true_2|by rewrite bool_decide_eq_false_2].
  - destruct (decide (k ∈ removes w)); [|done]. by destruct (erased w).
Qed.

Lemma gone_row_idem gone x : gone_row gone (gone_row gone x) = gone_row gone x.
Proof. destruct x as [s|]; [|done]. cbn. destruct (decide (s ∈ gone)) eqn:E; [done|]. cbn. by rewrite E. Qed.

Lemma commit_flight gone st p d f k : flight_acts (Sys st p (delete_rows gone d) (Some gone) f) k =
  map (commit_act gone) (flight_acts (Sys st p d None f) k).
Proof.
  unfold flight_acts. cbn. destruct (in_flight st) as [w|]; [|done]. rewrite orb_false_r. by destruct p; cbn [pc_acts map]; rewrite ?act_of_commit.
Qed.

Lemma commit_acts gone st p d f k : row_acts (Sys st p (delete_rows gone d) (Some gone) f) k =
  map (commit_act gone) (row_acts (Sys st p d None f) k).
Proof.
  unfold row_acts. rewrite commit_flight, map_app. f_equal. unfold queue_acts. rewrite map_map. apply map_ext. intros w. cbn [in_window window].
  change (bool_decide (session w ∈ gone)) with (false || bool_decide (session w ∈ gone)).
  by rewrite (act_of_commit gone k false w).
Qed.

Lemma commit_good es st p d f gone : deletes st = 1%nat -> good es (Sys st p d None f) ->
  good (es ++ [Delete_commit gone]) (Sys st p (delete_rows gone d) (Some gone) f).
Proof.
  intros Hdel [Hsync Hagree Hran Hclean Hidle Her Hid Hwin].
  split; try done.
  - intros k. rewrite commit_acts, sync_snoc. cbn [sync db]. rewrite !delete_rows_lookup, Hsync. cbn [db]. by rewrite run_acts_commit.
  - intros k. rewrite commit_acts. cbn [db]. rewrite delete_rows_lookup. apply agrees_commit, Hagree.
  - cbn [wr at_pc db window in_window]. intros w k Hw Hp Hk. rewrite delete_rows_lookup, act_of_commit, commit_act_fun. cbn [snd].
    specialize (Hran w k Hw Hp). cbn [wr db window in_window] in Hran. rewrite orb_false_r in Hran. rewrite Hran; [done|].
    destruct Hk as [Hk|Hk]; [by left|right]. by apply orb_false_iff in Hk as [? _].
  - intros g k [= <-]. rewrite commit_flight. cbn [db]. by rewrite delete_rows_lookup, run_acts_commit, gone_row_idem.
Qed.

Lemma same_app x l q q' : same_from (run_acts l x) q q' -> same_from x (l ++ q) (l ++ q').
Proof.
  revert x. induction l as [|[i a] l IH]; intros x H; [done|]. cbn. constructor; [done|by left|]. by apply IH.
Qed.

Lemma mark_good es st p d f gone : good es (Sys st p d (Some gone) f) ->
  good (es ++ [Delete_mark]) (Sys (mark_deleted gone st) p d None f).
Proof.
  intros [Hsync Hagree Hran Hclean Hidle Her Hid Hwin].
  assert (Hfl : forall k, flight_acts (Sys (mark_deleted gone st) p d None f) k = flight_acts (Sys st p d (Some gone) f) k).
  { intros k. unfold flight_acts. cbn. destruct (in_flight st) as [w|]; [|done]. cbn. by rewrite orb_false_r. }
  assert (Hacts : forall k, same_from (d !! k) (row_acts (Sys st p d (Some gone) f) k) (row_acts (Sys (mark_deleted gone st) p d None f) k)).
  { intros k. unfold row_acts. rewrite Hfl. apply same_app. apply mark_queue. by apply (Hclean gone k). }
  assert (Hids : ids (mark_deleted gone st) = ids st).
  { unfold ids. cbn. f_equal. rewrite map_map. apply map_ext. intros w. unfold erase_queued. by destruct (decide _). }
  split; try done.
  - intros k. rewrite sync_snoc. cbn [sync db]. rewrite Hsync. symmetry. by apply same_run.
  - intros k. eapply agrees_same; [apply Hacts|]. unfold row_entry. cbn [window wr mark_deleted overlay]. rewrite lookup_fmap. apply Hagree.
  - cbn [wr at_pc db window in_window mark_deleted in_flight erase_after]. intros w k Hw Hp Hk. specialize (Hran w k Hw Hp).
    cbn [wr at_pc db window in_window] in Hran. rewrite orb_false_r in *. rewrite Hw in *. cbn [in_flight_of] in *. by apply Hran.
  - cbn. intros Hp. specialize (Her Hp). cbn in Her. by rewrite Her.
  - cbn [wr]. rewrite Hids. apply Hid.
Qed.

Lemma step_good es s e s' : calm e -> good es s -> step mp mu s e s' -> good (es ++ [e]) s'.
Proof.
  intros Hc Hg H. destruct H; cbn in Hc; subst.
  - destruct Hc as [-> Hdis]. by eapply submit_good.
  - by eapply take_good.
  - by eapply run_good.
  - by apply check_good.
  - by eapply erase_good.
  - by apply settle_good.
  - by apply finish_good.
  - by apply deletes_good.
  - by apply commit_good.
  - by apply mark_good.
  - by apply deletes_good.
  - done.
Qed.

Lemma reaches_good es s : reaches mp mu es s -> Forall calm es -> good es s.
Proof.
  unfold reaches. intros H. remember start as s0 eqn:E0. induction H as [s|s es s' e s'' _ IH Hs]; intros Hc; subst; [apply start_good|].
  apply Forall_app in Hc as [Hc He]. eapply step_good; [by eapply List.Forall_inv|by apply IH|exact Hs].
Qed.
End Steps.

(** C2: however the writer thread, the submissions and the deletes interleave, and
    wherever the thread is in the write it has in flight, a lookup through the overlay
    answers what the table would hold had every write and delete run synchronously, in the
    order they were submitted, so long as the run is [calm]: no run or erase fails, the
    queue has room for every write, the writer is not closed, and no write supersedes a key
    it also records ([write_handle] would keep such a key and the overlay reads it as
    unknown until the write has run). *)
Theorem read_your_writes mp mu es s k : reaches mp mu es s -> Forall calm es -> window s = None ->
  lookup (wr s) (db s) k = sync_map es !! k.
Proof.
  intros Hr Hc Hw. destruct (reaches_good _ _ _ _ Hr Hc) as [Hsync Hagree _ _ _ _ _ _].
  rewrite Hsync, <- (agrees_answer _ _ _ (Hagree k)). unfold row_entry. by rewrite Hw.
Qed.

(** A resumed Live handle's first record, its successor, and a delete of the session that
    commits before the first one lands. *)
Definition resumed : list event :=
  let h1 := (lit "handle", lit "d1") in let h2 := (lit "handle", lit "d2") in let s := lit "A" in
  [Submit s [h1] [] Queued; Take; Delete_begin; Submit s [h2] [h1] Queued; Delete_commit {[s]}; Run true; Delete_mark;
   Delete_end; Check].

Lemma read_your_writes_witness :
  let s := default start (exec 4 4 start resumed) in
  reaches 4 4 resumed s /\ lookup (wr s) (db s) (lit "handle", lit "d1") = None /\
  lookup (wr s) (db s) (lit "handle", lit "d2") = None /\ db s !! (lit "handle", lit "d1") = Some (lit "A").
Proof.
  cbv zeta. assert (Hr : reaches 4 4 resumed (default start (exec 4 4 start resumed))).
  { apply exec_reaches. vm_compute. reflexivity. }
  assert (Hc : Forall calm resumed).
  { repeat constructor; try by intros k _ ?%not_elem_of_nil. intros k ->%list_elem_of_singleton Hk%list_elem_of_singleton. discriminate Hk. }
  split; [exact Hr|]. split; [|split].
  - rewrite (read_your_writes 4 4 resumed _ _ Hr Hc) by (vm_compute; reflexivity). vm_compute. reflexivity.
  - rewrite (read_your_writes 4 4 resumed _ _ Hr Hc) by (vm_compute; reflexivity). vm_compute. reflexivity.
  - vm_compute. reflexivity.
Defined.
