(* ===== verification/WriterFaults.v ===== *)
(** * Bounds and faults of the background writer -- src/llm_redact/vault_writer.py

    What the queue and the overlay may hold whatever fails, the accounting of every
    submitted write, and where a failed or self-superseding write parts from the
    synchronous map. *)

From S2P Require Import Prelude MapWriter ReadYourWrites.

(** ** The overlay holds no more than what is pending or unwritten *)

Definition owned (s : sys) (i : nat) : Prop :=
  i ∈ ids (wr s) /\ (at_pc s = Settled -> forall w, in_flight (wr s) = Some w -> wid w <> i).

Definition kept_keys (P : nat -> Prop) (st : writer) : Prop :=
  forall k e, overlay st !! k = Some e ->
    match owner e with None => k ∈ unwritten st | Some i => k ∈ default [] (wkeys st !! i) /\ P i end.

Definition unwritten_ok (mu : nat) (st : writer) : Prop :=
  (length (unwritten st) <= mu)%nat /\ NoDup (unwritten st).

Record bounded (mp mu : nat) (s : sys) : Prop := {
  b_queue : (length (queue (wr s)) <= mp)%nat;
  b_unwritten : unwritten_ok mu (wr s);
  b_kept : kept_keys (owned s) (wr s);
  b_idle : at_pc s = Idle <-> in_flight (wr s) = None;
  b_ids : NoDup (ids (wr s)) /\ Forall (fun i => (i < next_id (wr s))%nat) (ids (wr s)) }.

Lemma elem_without k k' l : k ∈ without_key k' l <-> k ∈ l /\ k <> k'.
Proof.
  unfold without_key. rewrite !list_elem_of_In, filter_In. by rewrite negb_true_iff, bool_decide_eq_false.
Qed.

Lemma without_NoDup k l : NoDup l -> NoDup (without_key k l).
Proof. rewrite !NoDup_ListNoDup. apply List.NoDup_filter. Qed.

Lemma without_length k l : (length (without_key k l) <= length l)%nat.
Proof. apply filter_length_le. Qed.

Lemma evict_spec mu l ov l' ov' : NoDup l -> evict mu l ov = (l', ov') ->
  (length l' <= mu)%nat /\ NoDup l' /\
  (forall k e, ov' !! k = Some e -> ov !! k = Some e /\ (k ∈ l -> k ∈ l')).
Proof.
  revert ov. induction l as [|k0 l IH]; intros ov Hl; cbn [evict]; [intros [= <- <-]; split_and!; [cbn; lia|done|done]|].
  apply list.NoDup_cons in Hl as Hl'. destruct Hl' as [Hk Hl']. destruct (_ <? _)%nat eqn:E.
  - intros H. destruct (IH _ Hl' H) as (H1 & H2 & H3). split_and!; [done|done|]. intros k e Hke.
    destruct (H3 k e Hke) as [Ho Hin]. destruct (decide (k = k0)) as [-> |Hne]; [by rewrite lookup_delete_eq in Ho|].
    rewrite lookup_delete_ne in Ho by done. split; [done|]. rewrite elem_of_cons. intros [?|?]; [done|by apply Hin].
  - intros [= <- <-]. apply Nat.ltb_ge in E. done.
Qed.

Lemma place_kept mu (P : nat -> Prop) k e st : match owner e with Some i => P i | None => True end ->
  unwritten_ok mu st -> kept_keys P st ->
  unwritten_ok mu (place mu k e st) /\ kept_keys P (place mu k e st).
Proof.
  intros HP [Hlen Hnd] Hk. assert (Hnd' := without_NoDup k _ Hnd). assert (Hl' := without_length k (unwritten st)). unfold place.
  destruct (owner e) as [i|] eqn:Eo.
  - split; [split; cbn; [lia|done]|]. intros k' e' H. cbn in *. destruct (decide (k' = k)) as [-> |Hne].
    + rewrite lookup_insert_eq in H. injection H as <-. rewrite Eo, lookup_insert_eq. split; [|done]. cbn. set_solver.
    + rewrite lookup_insert_ne in H by done. specialize (Hk k' e' H). destruct (owner e') as [j|]; [|by apply elem_without].
      destruct Hk as [Hj HPj]. split; [|done]. destruct (decide (j = i)) as [-> |Hji]; [rewrite lookup_insert_eq; cbn; set_solver|].
      by rewrite lookup_insert_ne.
  - destruct (evict mu _ _) as [un ov] eqn:Ev. apply evict_spec in Ev as (H1 & H2 & H3).
    + split; [by split|]. intros k' e' H. cbn in *. destruct (H3 k' e' H) as [Ho Hin]. destruct (decide (k' = k)) as [-> |Hne].
      * rewrite lookup_insert_eq in Ho. injection Ho as <-. rewrite Eo. apply Hin. set_solver.
      * rewrite lookup_insert_ne in Ho by done. specialize (Hk k' e' Ho). destruct (owner e') as [j|]; [done|].
        apply Hin, elem_of_app. left. by apply elem_without.
    + apply list.NoDup_app. split_and!; [done| |apply list.NoDup_singleton]. intros x Hx ->%list_elem_of_singleton. by apply elem_without in Hx as [_ ?].
Qed.

Lemma sets_kept mu (P : nat -> Prop) s o ks st : match o with Some i => P i | None => True end ->
  unwritten_ok mu st -> kept_keys P st ->
  unwritten_ok mu (fold_left (set_key mu s o) ks st) /\ kept_keys P (fold_left (set_key mu s o) ks st).
Proof.
  intros HP. revert st. induction ks as [|k ks IH]; intros st H1 H2; cbn [fold_left]; [done|].
  destruct (place_kept mu P k (Entry (VSession s) o) st HP H1 H2). by apply IH.
Qed.

Lemma remove_kept mu (P : nat -> Prop) s o st k : match o with Some i => P i | None => True end ->
  unwritten_ok mu st -> kept_keys P st ->
  unwritten_ok mu (remove_key mu s o st k) /\ kept_keys P (remove_key mu s o st k).
Proof.
  intros HP H1 H2. unfold remove_key. destruct (overlay st !! k) as [[[s'| |ss] o']|]; cbn [val];
    [destruct (decide (s' = s)); [by apply place_kept|done]|done|by apply place_kept..].
Qed.

Lemma removes_kept mu (P : nat -> Prop) s o ks st : match o with Some i => P i | None => True end ->
  unwritten_ok mu st -> kept_keys P st ->
  unwritten_ok mu (fold_left (remove_key mu s o) ks st) /\ kept_keys P (fold_left (remove_key mu s o) ks st).
Proof.
  intros HP. revert st. induction ks as [|k ks IH]; intros st H1 H2; cbn [fold_left]; [done|].
  destruct (remove_kept mu P s o st k HP H1 H2). by apply IH.
Qed.

Lemma kept_impl (P Q : nat -> Prop) st : (forall i, P i -> Q i) -> kept_keys P st -> kept_keys Q st.
Proof. intros H Hk k e He. specialize (Hk k e He). destruct (owner e); [|done]. destruct Hk. auto. Qed.

Lemma settle_gone (w : nat) (ks : list key) (ov : gmap key entry) (k : key) : k ∈ ks -> (owner <$> ov !! k) = Some (Some w) -> fold_left (settle_key w) ks ov !! k = None.
Proof.
  revert ov. induction ks as [|k' ks IH]; intros ov Hk Ho; [by apply not_elem_of_nil in Hk|]. cbn [fold_left].
  destruct (decide (k = k')) as [<-|Hne].
  - assert (E : settle_key w ov k !! k = None).
    { unfold settle_key. destruct (ov !! k) as [e|] eqn:E; [|done]. cbn in Ho. injection Ho as Ho. by rewrite decide_True, lookup_delete_eq. }
    destruct (settle_lookup w ks (settle_key w ov k) k) as [-> |(e & H & _)]; [done|]. by rewrite E in H.
  - apply IH; [by apply elem_of_cons in Hk as [?|?]|]. unfold settle_key. destruct (ov !! k'); [|done].
    destruct (decide _); [by rewrite lookup_delete_ne|done].
Qed.

#[local] Ltac ids_of Eids F2 Q2 N2 st :=
  match goal with
  | |- context [ids ?x] => lazymatch x with st => fail | _ => rewrite (Eids x F2) by (cbn; by rewrite ?Q2, ?N2) end
  end.

Section Bounds.
Context (mp mu : nat).

Lemma submit_bounded st p d f s ks rs how st' : submit mp mu s ks rs st = (how, st') ->
  bounded mp mu (Sys st p d None f) -> bounded mp mu (Sys st' p d None f).
Proof.
  intros H [Hq Hu Hk Hid [Hnd Hlt]]. unfold submit in H. destruct (closed st); [injection H as <- <-; by split|].
  set (o := if (length (queue st) <? mp)%nat then Some (next_id st) else None) in H.
  set (P := fun i => owned (Sys st p d None f) i \/ i = next_id st).
  assert (HP : match o with Some i => P i | None => True end) by (unfold o; destruct (_ <? _)%nat; [by right|done]).
  destruct (sets_kept mu P s o ks st HP Hu) as [U1 K1]; [eapply kept_impl; [|exact Hk]; by left|].
  destruct (set_frame mu s o ks st) as (Q1 & F1 & _ & N1 & _ & _). set (st1 := fold_left (set_key mu s o) ks st) in *.
  destruct (removes_kept mu P s o rs st1 HP U1 K1) as [U2 K2].
  destruct (remove_frame mu s o rs st1) as (Q2 & F2 & _ & N2 & _ & _). set (st2 := fold_left (remove_key mu s o) rs st1) in *.
  rewrite Q1 in Q2. rewrite F1 in F2. rewrite N1 in N2. cbn [wr at_pc] in *.
  assert (Hfresh : next_id st ∉ ids st) by (intros Hi; eapply list.Forall_forall in Hlt; [|exact Hi]; lia).
  destruct (_ <? _)%nat eqn:El; injection H as <- <-.
  - apply Nat.ltb_lt in El. assert (Eids : forall q, in_flight q = in_flight st -> queue q = queue st ++ [Write (next_id st) s ks rs false] -> ids q = ids st ++ [next_id st]).
    { intros q H1 H2. unfold ids. by rewrite H1, H2, map_app, app_assoc. }
    split; cbn [wr at_pc queue in_flight next_id].
    + rewrite Q2, length_app. cbn. lia.
    + exact U2.
    + eapply kept_impl; [|exact K2]. intros i Hi. unfold owned. cbn [wr at_pc in_flight].
      ids_of Eids F2 Q2 N2 st.
      rewrite F2. destruct Hi as [[Hi1 Hi2]| ->]; [split; [set_solver|exact Hi2]|]. split; [set_solver|]. intros _ w Hw Ew. apply Hfresh.
      unfold ids. rewrite Hw, Ew. set_solver.
    + by rewrite F2.
    + ids_of Eids F2 Q2 N2 st.
      rewrite N2. split.
      * apply list.NoDup_app. split_and!; [done| |apply list.NoDup_singleton]. by intros x Hx ->%list_elem_of_singleton.
      * apply Forall_app. split; [eapply list.Forall_impl; [exact Hlt|]; cbn; lia|]. constructor; [lia|constructor].
  - assert (Eids : forall q, in_flight q = in_flight st -> queue q = queue st -> ids q = ids st) by (intros q H1 H2; unfold ids; by rewrite H1, H2).
    split; cbn [wr at_pc queue in_flight next_id].
    + by rewrite Q2.
    + exact U2.
    + assert (Ho : o = None) by done. clear HP. 
      assert (K3 : kept_keys (owned (Sys st p d None f)) st2).
      { unfold st2, st1. rewrite Ho. destruct (sets_kept mu (owned (Sys st p d None f)) s None ks st I Hu Hk). by apply removes_kept. }
      eapply kept_impl; [|exact K3]. intros i. unfold owned. cbn [wr at_pc in_flight].
      ids_of Eids F2 Q2 N2 st.
      by rewrite F2.
    + by rewrite F2.
    + ids_of Eids F2 Q2 N2 st.
      rewrite N2. split; [done|]. eapply list.Forall_impl; [exact Hlt|]. cbn. lia.
Qed.

Lemma kept_gone gone (P : nat -> Prop) st : kept_keys P st -> kept_keys P (mark_deleted gone st).
Proof.
  intros H k e. cbn. rewrite lookup_fmap. destruct (overlay st !! k) as [e'|] eqn:E; [|done]. intros [= <-].
  specialize (H k e' E). unfold gone_entry. destruct (val e') as [s| |]; [destruct (decide _)|..]; done.
Qed.

Lemma settle_kept w st (P : nat -> Prop) : kept_keys P st -> kept_keys (fun i => P i /\ i <> wid w) (settle w st).
Proof.
  intros H k e He. cbn in He. assert (Hs := settle_lookup (wid w) (default [] (wkeys st !! wid w)) (overlay st) k). cbn in Hs.
  assert (Ho : overlay st !! k = Some e) by (destruct Hs as [<-|(e' & _ & _ & Hn)]; [done|by rewrite Hn in He]).
  specialize (H k e Ho). cbn. destruct (owner e) as [i|] eqn:Eo; [|done]. destruct H as [Hk Hi]. split_and!; [done|done|].
  intros ->. rewrite settle_gone in He; [done|done|]. rewrite Ho. cbn. by rewrite Eo.
Qed.

Lemma step_bounded s e s' : bounded mp mu s -> step mp mu s e s' -> bounded mp mu s'.
Proof.
  intros Hb H. destruct H as [st p d f s ks rs how st' H|st d w st' f H|st d w f x ok H|st d w f H|st d w f x ok H|st d w f x H|st d w f
    |st p d f H|st p d f gone H|st p d f gone|st p d f H|st p d f fin].
  - by eapply submit_bounded.
  - destruct Hb as [Hq Hu Hk Hid [Hnd Hlt]]. unfold next_write in H. destruct (queue st) as [|w0 q] eqn:Eq; [done|].
    destruct (closed st); [done|]. injection H as <-. cbn in Hid. assert (Hn : in_flight st = None) by by apply Hid.
    assert (Ei : forall n, ids (Writer q (Some w0) false false (overlay st) (unwritten st) (wkeys st) n (deletes st) (next_id st) (faults st)) = ids st)
      by (intros n; unfold ids; cbn; by rewrite Hn, Eq).
    split; cbn [wr at_pc queue in_flight].
    + cbn in Hq. rewrite Eq in Hq. cbn in Hq. lia.
    + done.
    + eapply kept_impl; [|exact Hk]. intros i [Hi _]. split; [|done]. cbn [wr] in *. by rewrite Ei.
    + done.
    + by rewrite Ei.
  - destruct Hb as [Hq Hu Hk Hid Hi]. split; try done; [|by cbn; rewrite H]. eapply kept_impl; [|exact Hk]. by intros i [Hi1 _].
  - destruct Hb as [Hq Hu Hk Hid Hi]. cbn in Hid. split; try done.
    + eapply kept_impl; [|exact Hk]. intros i [Hi1 _]. split; [done|]. cbn. by destruct (erase_after st).
    + cbn. split; [by destruct (erase_after st)|]. intros Hn. by apply Hid in Hn.
  - destruct Hb as [Hq Hu Hk Hid Hi]. split; try done; [|by cbn; rewrite H]. eapply kept_impl; [|exact Hk]. by intros i [Hi1 _].
  - destruct Hb as [Hq Hu Hk Hid Hi]. split; try done; [|by cbn; rewrite H].
    cbn [wr]. eapply kept_impl; [|apply settle_kept, Hk]. intros i [[Hi1 _] Hne]. split; [done|]. cbn. rewrite H. intros _ w0 [= <-]. by apply not_eq_sym.
  - destruct Hb as [Hq Hu Hk Hid [Hnd Hlt]]. split; try done.
    + eapply kept_impl; [|exact Hk]. intros i [Hi1 Hi2]. split; [|done]. cbn [wr at_pc] in *. unfold ids in *. cbn in *.
      destruct (in_flight st) as [w0|]; [|done]. specialize (Hi2 eq_refl w0 eq_refl). set_solver.
    + cbn [wr] in *. unfold ids in *. cbn in *. destruct (in_flight st); [|done]. apply list.NoDup_cons in Hnd as [_ ?].
      by apply list.Forall_cons_1 in Hlt as [_ ?].
  - destruct Hb. by split.
  - destruct Hb. by split.
  - destruct Hb as [Hq Hu Hk Hid Hi].
    assert (Ei : ids (mark_deleted gone st) = ids st).
    { unfold ids. cbn. f_equal. rewrite map_map. apply map_ext. intros w. unfold erase_queued. by destruct (decide _). }
    split; cbn [wr at_pc]; try done.
    + cbn. by rewrite length_map.
    + apply kept_gone. eapply kept_impl; [|exact Hk]. intros i. unfold owned. cbn [wr at_pc]. by rewrite Ei.
    + by rewrite Ei.
  - destruct Hb. by split.
  - destruct Hb as [Hq Hu Hk Hid [Hnd Hlt]]. split; cbn [wr at_pc close snd queue unwritten in_flight]; try done.
    + cbn. lia.
    + split; cbn; [lia|constructor].
    + cbn [wr] in *. unfold ids in *. cbn in *. rewrite app_nil_r. apply list.NoDup_app in Hnd as (? & _). by apply Forall_app in Hlt as [? _].
Qed.

Lemma reaches_bounded es s : reaches mp mu es s -> bounded mp mu s.
Proof.
  unfold reaches. intros H. remember start as s0 eqn:E0. induction H as [s|s es s' e s'' _ IH Hs]; subst.
  - split; cbn; try done; [lia|split; cbn; [lia|constructor]|split; constructor].
  - eapply step_bounded; [by apply IH|exact Hs].
Qed.
End Bounds.

(** C38: whatever fails, and however submissions, deletes and the writer thread interleave,
    at most [max_pending] writes wait and at most [max_unwritten] records are kept in
    memory only; every record of the overlay is one of those or belongs to a write still
    queued or in flight, so a drained writer's overlay holds the unwritten records only. *)
Theorem writer_bounded mp mu es s : reaches mp mu es s ->
  (length (queue (wr s)) <= mp)%nat /\ (length (unwritten (wr s)) <= mu)%nat /\
  (forall k e, overlay (wr s) !! k = Some e ->
     match owner e with
     | None => k ∈ unwritten (wr s)
     | Some i => exists w, wid w = i /\ (in_flight (wr s) = Some w \/ w ∈ queue (wr s))
     end) /\
  (pending (wr s) = 0%nat -> forall k, k ∉ unwritten (wr s) -> overlay (wr s) !! k = None).
Proof.
  intros [Hq [Hu _] Hk _ _]%reaches_bounded.
  assert (Howned : forall k e, overlay (wr s) !! k = Some e ->
     match owner e with
     | None => k ∈ unwritten (wr s)
     | Some i => exists w, wid w = i /\ (in_flight (wr s) = Some w \/ w ∈ queue (wr s))
     end).
  { intros k e He. specialize (Hk k e He). destruct (owner e) as [i|]; [|done]. destruct Hk as [_ [Hi _]].
    unfold ids in Hi. apply elem_of_app in Hi as [Hi|Hi].
    - destruct (in_flight (wr s)) as [w|]; [|by apply not_elem_of_nil in Hi]. apply list_elem_of_singleton in Hi as ->.
      exists w. split; [done|by left].
    - apply list_elem_of_In, in_map_iff in Hi as (w & <- & Hw). exists w. split; [done|right]. by apply list_elem_of_In. }
  split_and!; [done|done|exact Howned|]. intros Hp k Hn. destruct (overlay (wr s) !! k) as [e|] eqn:E; [|done]. exfalso.
  specialize (Howned k e E). unfold pending in Hp. destruct (owner e); [|done]. destruct Howned as (w & _ & [Hw|Hw]).
  - rewrite Hw in Hp. lia.
  - destruct (queue (wr s)); [by apply not_elem_of_nil in Hw|]. cbn in Hp. lia.
Qed.

(** Submissions while the disk is slow: the second overflows, the third evicts its record. *)
Definition overflown : list event :=
  let row (s : string) := (lit "row", lit s) in
  [Submit (lit "A") [row "r1"%string] [] Queued; Submit (lit "A") [row "r2"%string] [] Overflowed; Submit (lit "B") [row "r3"%string] [] Overflowed;
   Take; Run false; Check; Settle; Finish].

Lemma writer_bounded_witness :
  let s := default start (exec 1 1 start overflown) in
  (length (unwritten (wr s)) <= 1)%nat /\ overlay (wr s) !! (lit "row", lit "r1") = None /\
  overlay (wr s) !! (lit "row", lit "r2") = None /\ lookup (wr s) (db s) (lit "row", lit "r3") = Some (lit "B").
Proof.
  cbv zeta. assert (Hr : reaches 1 1 overflown (default start (exec 1 1 start overflown))).
  { apply exec_reaches. vm_compute. reflexivity. }
  destruct (writer_bounded 1 1 overflown _ Hr) as (_ & Hu & _ & Hi). split; [exact Hu|]. split; [|split].
  - apply Hi; [vm_compute; reflexivity|]. vm_compute. intros H. inversion H as [|? ? ? H']. inversion H'.
  - apply Hi; [vm_compute; reflexivity|]. vm_compute. intros H. inversion H as [|? ? ? H']. inversion H'.
  - vm_compute. reflexivity.
Defined.

(** ** Every submitted write is accounted for *)

(** The writes that landed: [Finish] after an attempt, the last one, that succeeded. *)
Definition land (t : nat * bool) (e : event) : nat * bool :=
  match e with
  | Run ok | Erase ok => (t.1, ok)
  | Finish => (if t.2 then S t.1 else t.1, t.2)
  | _ => t
  end.

Definition landed (es : list event) : nat := (fold_left land es (0%nat, true)).1.

Definition submissions (es : list event) : nat :=
  length (List.filter (fun e => match e with Submit _ _ _ _ => true | _ => false end) es).

Definition tallied (es : list event) (s : sys) : Prop :=
  Z.of_nat (submissions es) = Z.of_nat (landed es) + faults (wr s) + Z.of_nat (pending (wr s)) /\
  abandoned (wr s) = false /\ (at_pc s = Idle <-> in_flight (wr s) = None) /\
  (at_pc s = Taken -> failed s = false) /\
  (at_pc s <> Idle -> at_pc s <> Taken -> failed s = negb (fold_left land es (0%nat, true)).2).

Lemma place_faults mu k e st : faults (place mu k e st) = faults st /\ abandoned (place mu k e st) = abandoned st.
Proof. unfold place. destruct (owner e); [done|]. by destruct (evict _ _ _). Qed.

Lemma sets_faults mu s o ks st : faults (fold_left (set_key mu s o) ks st) = faults st /\
  abandoned (fold_left (set_key mu s o) ks st) = abandoned st.
Proof.
  revert st. induction ks as [|k ks IH]; intros st; cbn [fold_left]; [done|]. destruct (IH (set_key mu s o st k)) as [-> ->]. apply place_faults.
Qed.

Lemma removes_faults mu s o ks st : faults (fold_left (remove_key mu s o) ks st) = faults st /\
  abandoned (fold_left (remove_key mu s o) ks st) = abandoned st.
Proof.
  revert st. induction ks as [|k ks IH]; intros st; cbn [fold_left]; [done|]. destruct (IH (remove_key mu s o st k)) as [-> ->].
  unfold remove_key. destruct (overlay st !! k) as [[[s'| |ss] o']|]; cbn [val]; [destruct (decide (s' = s))|..]; try done; apply place_faults.
Qed.

Lemma submit_tally mp mu s ks rs st how st' : submit mp mu s ks rs st = (how, st') ->
  faults st' + Z.of_nat (pending st') = faults st + Z.of_nat (pending st) + 1 /\ abandoned st' = abandoned st /\ in_flight st' = in_flight st.
Proof.
  unfold submit. destruct (closed st); [intros [= <- <-]; unfold pending; cbn; split_and!; [lia|done|done]|].
  match goal with |- context [set_key mu s ?x] => set (o := x) end.
  destruct (sets_faults mu s o ks st) as [E1 A1]. destruct (set_frame mu s o ks st) as (Q1 & F1 & _). set (st1 := fold_left (set_key mu s o) ks st) in *.
  destruct (removes_faults mu s o rs st1) as [E2 A2]. destruct (remove_frame mu s o rs st1) as (Q2 & F2 & _).
  set (st2 := fold_left (remove_key mu s o) rs st1) in *.
  destruct (_ <? _)%nat; intros [= <- <-]; unfold pending; cbn; rewrite E2, E1, Q2, Q1, F2, F1, A2, A1, ?length_app; cbn; split_and!; [lia|done..|lia|done|done].
Qed.

Lemma tally_snoc es e : (forall s k r h, e <> Submit s k r h) -> submissions (es ++ [e]) = submissions es.
Proof. intros H. unfold submissions. rewrite List.filter_app, length_app. destruct e; cbn; try lia. by edestruct H. Qed.

Lemma step_tallied mp mu es s e s' : e <> Close false -> tallied es s -> step mp mu s e s' -> tallied (es ++ [e]) s'.
Proof.
  intros Hc (Ht & Ha & Hid & Htk & Hf) H. unfold tallied, landed in *. rewrite fold_left_app. cbn [fold_left].
  set (t := fold_left land es (0%nat, true)) in *.
  destruct H as [st p d f s ks rs how st' H|st d w st' f H|st d w f x ok H|st d w f H|st d w f x ok H|st d w f x H|st d w f
    |st p d f H|st p d f gone H|st p d f gone|st p d f H|st p d f fin]; cbn [wr at_pc failed] in *; rewrite ?tally_snoc by done; cbn [land fst snd].
  - apply submit_tally in H as (H1 & H2 & H3). rewrite H2, H3. split_and!; try done.
    unfold submissions. rewrite List.filter_app, length_app. cbn. fold (submissions es). lia.
  - unfold next_write in H. destruct (queue st) as [|x q] eqn:Eq; [done|]. destruct (closed st); [done|]. injection H as <-.
    assert (Hn : in_flight st = None) by by apply Hid. unfold pending in *. cbn. rewrite Eq, Hn in Ht. cbn in Ht. split_and!; try done. lia.
  - split_and!; try done; [cbn; by rewrite H|]. intros _ _. by rewrite Htk.
  - split_and!; try done; [|by destruct (erase_after st)|intros _ _; by apply Hf].
    split; [by destruct (erase_after st)|]. intros Hn. by apply Hid in Hn.
  - split_and!; try done. cbn. by rewrite H.
  - split_and!; try done; [cbn; by rewrite H|]. intros _ _. by apply Hf.
  - specialize (Hf ltac:(done) ltac:(done)). unfold pending in *. cbn. rewrite Ha. cbn.
    destruct (in_flight st) as [x|]; [|by destruct Hid as [_ Hid]; specialize (Hid eq_refl)]. cbn in Ht. split_and!; try done. rewrite Hf. destruct t.2; cbn; lia.
  - split_and!; done.
  - split_and!; done.
  - split_and!; try done. unfold pending in *. cbn. by rewrite length_map.
  - split_and!; done.
  - destruct fin; [|done]. unfold pending in *. cbn in *. rewrite Ha. destruct (in_flight st); cbn in *; split_and!; try done; lia.
Qed.

Lemma reaches_tallied mp mu es s : reaches mp mu es s -> Forall (fun e => e <> Close false) es -> tallied es s.
Proof.
  unfold reaches. intros H. remember start as s0 eqn:E0. induction H as [s|s es s' e s'' _ IH Hs]; intros Hc; subst; [done|].
  apply Forall_app in Hc as [Hc He]. eapply step_tallied; [by eapply List.Forall_inv in He|by apply IH|exact Hs].
Qed.

(** C37: every submitted write is accounted for exactly once: it landed, it was counted as a
    fault (refused by a closed writer, kept out of a full queue, failed or dropped at
    [close]), or it is still queued or in flight -- however the writer's steps interleave,
    unless [close] gives up a write its thread has not finished. *)
Theorem every_write_accounted mp mu es s : reaches mp mu es s -> Forall (fun e => e <> Close false) es ->
  Z.of_nat (submissions es) = Z.of_nat (landed es) + faults (wr s) + Z.of_nat (pending (wr s)).
Proof. intros Hr Hc. by destruct (reaches_tallied _ _ _ _ Hr Hc) as [? _]. Qed.

Lemma every_write_accounted_witness :
  let s := default start (exec 1 1 start overflown) in
  Z.of_nat (submissions overflown) = Z.of_nat (landed overflown) + faults (wr s) + Z.of_nat (pending (wr s)) /\
  submissions overflown = 3%nat /\ faults (wr s) = 3.
Proof.
  cbv zeta. split; [|split; vm_compute; reflexivity]. apply (every_write_accounted 1 1).
  - apply exec_reaches. vm_compute. reflexivity.
  - repeat constructor; discriminate.
Defined.

(** ** Where the map parts from the synchronous one *)

(** A write that fails leaves its record unknown, except the erase of a deleted
    session's: its first attempt landed, the erase fails, and once the write has settled
    the record answers for the session the delete removed. *)
Theorem failed_erase_answers_deleted :
  let h := (lit "handle", lit "d1") in
  let es := [Submit (lit "A") [h] [] Queued; Take; Delete_begin; Delete_commit {[lit "A"]}; Run true; Delete_mark; Delete_end;
             Check; Erase false; Settle; Finish] in
  exists s, reaches 4 4 es s /\ pending (wr s) = 0%nat /\ faults (wr s) = 1 /\ sync_map es !! h = None /\
            lookup (wr s) (db s) h = Some (lit "A").
Proof.
  cbv zeta. eexists. split; [apply exec_reaches; vm_compute; reflexivity|]. repeat (split; [vm_compute; reflexivity|]). vm_compute. reflexivity.
Qed.

(** A handle that is recorded again and named in its own [replaces] is deleted before it
    is written by [write_handle], and kept; queued, the overlay applies [replaces] last and
    answers that it is unknown until the write lands. *)
Theorem self_replacing_handle_unknown :
  let h := (lit "handle", lit "d1") in let es := [Submit (lit "A") [h] [h] Queued] in
  exists s, reaches 4 4 es s /\ sync_map es !! h = Some (lit "A") /\ lookup (wr s) (db s) h = None.
Proof.
  cbv zeta. eexists. split; [apply exec_reaches; vm_compute; reflexivity|]. split; vm_compute; reflexivity.
Qed.
