(* ===== verification/Overrides.v ===== *)
(** * Refusal overrides -- src/llm_redact/overrides.py

    The approval store ([OverrideStore]) and one request's view of it
    ([OverrideScope]).  The sqlite file is its two tables, rows in the order of their
    ids; a transaction is one step.  Times are integers; a fault of the database, where
    the code contains one, is an argument of the operation.  Reading a file without
    opening it for writing, and its creation's modes and pragmas, are left out. *)

From S2P Require Import Prelude Bytes Checksums Detection Redactor.

(** ** Codes *)

Definition VALUE_KINDS : list pystr := [lit "block"; lit "binary_values"; lit "verbatim_field"].
Definition ROUTE_KINDS : list pystr := [lit "unscanned_body"; lit "binary_upload"].
Definition ONCE : pystr := lit "once".
Definition ALWAYS : pystr := lit "always".
Definition SCOPES : list pystr := [ONCE; ALWAYS].

Definition CODE_LENGTH : nat := 12.
Definition CODE_ALPHABET : pystr := lit "0123456789ABCDEFGHJKMNPQRSTVWXYZ".
Definition code_alias (c : Z) : Z := if c =? 79 then 48 else if (c =? 73) || (c =? 76) then 49 else c.

(** [normalize_code] *)
Definition normalize_code (str_upper : pystr -> pystr) (text : pystr) : option pystr :=
  let dense := List.filter (fun c => negb (is_space c) && negb (c =? 45)) text in
  let code := map code_alias (str_upper dense) in
  if negb (length code =? CODE_LENGTH)%nat || existsb (fun c => negb (mem_char c CODE_ALPHABET)) code then None else Some code.

Definition DEFAULT_TTL_SECONDS : Z := 900.
Definition MAX_PENDING : nat := 256.
Definition MAX_PENDING_TOTAL : nat := 4096.
Definition MAX_ONCE_GRANTS : nat := 256.
Definition USE_FLUSH_SECONDS : Z := 60.

Definition VALUE_DOMAIN : pybytes := lit "llm-redact override value v1" ++ [0].
Definition CODE_DOMAIN : pybytes := lit "llm-redact override code v1" ++ [0].

(** One character under the surrogatepass handler. *)
Definition utf8_char_sp (c : Z) : pybytes :=
  match utf8_char c with Some b => b | None => [224 + c / 4096; 128 + c / 64 mod 64; 128 + c mod 64] end.

Definition utf8_surrogatepass (s : pystr) : pybytes := flat_map utf8_char_sp s.

(** ** Listing text *)

Definition SHOWN_CHARS : nat := 120.

Definition hex_digit (n : Z) : Z := if n <? 10 then 48 + n else 87 + n.

Fixpoint hex (w : nat) (n : Z) : pystr :=
  match w with O => [] | S w => hex_digit (n / 16 ^ Z.of_nat w mod 16) :: hex w n end.

Section Printing.
Context (isprintable : Z -> bool).

Definition escaped_char (c : Z) : pystr :=
  if isprintable c then [c]
  else if c <? 256 then 92 :: 120 :: hex 2 c
  else if c <? 65536 then 92 :: 117 :: hex 4 c
  else 92 :: 85 :: hex 8 c.

Definition printable (text : pystr) : pystr := flat_map escaped_char text.

Definition shown (text : pystr) : pystr :=
  let escaped := printable text in
  if (SHOWN_CHARS <? length escaped)%nat
  then take SHOWN_CHARS escaped ++ [8230] ++ lit " (" ++ str_of_nat (zlen escaped) ++ lit " characters)"
  else escaped.
End Printing.

(** ** The tables *)

(** The JSON text of a row's items is the list of (type, digest) pairs it encodes. *)
Abbreviation item := (pystr * pystr)%type.

Record pending_row := PendingRow { p_id : Z; p_code : pystr; p_kind : pystr; p_subject : pystr; p_provider : pystr;
  p_method : pystr; p_route : pystr; p_items : list item; p_created : Z; p_expires : Z }.

Record rule := Rule { r_id : Z; r_scope : pystr; r_kind : pystr; r_subject : pystr; r_provider : pystr; r_method : pystr;
  r_route : pystr; r_items : list item; r_created : Z; r_expires : option Z; r_uses : Z; r_consumed : bool }.

(** The two AUTOINCREMENT sequences never give an id twice. *)
Record tables := Tables { pendings : list pending_row; rules : list rule; next_pending : Z; next_rule : Z }.

Definition no_tables : tables := Tables [] [] 1 1.

(** [file]: [None] until a first code is minted; then its key and its tables. *)
Record store := Store { file : option (pybytes * tables); unflushed : gmap Z Z; last_flush : Z; used : gmap pystr Z }.

(** [OverrideEntry] *)
Record override_entry := OverrideEntry { e_id : pystr; e_state : pystr; e_kind : pystr; e_types : list pystr; e_route : pystr;
  e_subject : pystr; e_created : Z; e_expires : option Z; e_uses : Z }.

(** [OverrideError] by its message; [PyValueError] is the interpreter's. *)
Inductive override_error : Type := BadScope | BadId | NoPending | OtherRequester | NothingToRevoke | PyValueError.

Definition of_kind (k : pystr) (kinds : list pystr) : bool := bool_decide (k ∈ kinds).

Definition live (now : Z) (r : rule) : bool :=
  negb (r_consumed r) && match r_expires r with None => true | Some e => now <? e end.

Definition set_uses (u : Z) (consumed : bool) (r : rule) : rule :=
  Rule (r_id r) (r_scope r) (r_kind r) (r_subject r) (r_provider r) (r_method r) (r_route r) (r_items r) (r_created r)
    (r_expires r) u consumed.

Definition with_rules (rs : list rule) (t : tables) : tables := Tables (pendings t) rs (next_pending t) (next_rule t).
Definition with_pendings (ps : list pending_row) (t : tables) : tables := Tables ps (rules t) (next_pending t) (next_rule t).
Definition with_file (f : option (pybytes * tables)) (st : store) : store := Store f (unflushed st) (last_flush st) (used st).

(** The ids of the newest [n] rows: those a trim keeps. *)
Definition newest (n : nat) (ids : list Z) : list Z := drop (length ids - n) ids.

(** ** Reading *)

Record snapshot := Snapshot { always_values : gmap item Z; once_values : list (Z * gset item);
  always_routes : gmap (pystr * pystr * pystr * pystr) Z; once_routes : gmap (pystr * pystr * pystr * pystr) Z }.

Definition empty_snapshot : snapshot := Snapshot ∅ [] ∅ ∅.

Definition snap_rule (snap : snapshot) (r : rule) : snapshot :=
  if of_kind (r_kind r) ROUTE_KINDS then
    let key := (r_kind r, r_provider r, r_method r, r_route r) in
    if bool_decide (r_scope r = ALWAYS)
    then Snapshot (always_values snap) (once_values snap) (<[key := r_id r]> (always_routes snap)) (once_routes snap)
    else Snapshot (always_values snap) (once_values snap) (always_routes snap) (<[key := r_id r]> (once_routes snap))
  else if bool_decide (r_scope r = ALWAYS) then
    Snapshot (fold_left (fun m i => <[i := r_id r]> m) (r_items r) (always_values snap)) (once_values snap)
      (always_routes snap) (once_routes snap)
  else Snapshot (always_values snap) (once_values snap ++ [(r_id r, list_to_set (r_items r))]) (always_routes snap) (once_routes snap).

Definition store_snapshot (subject : pystr) (now : Z) (st : store) : snapshot :=
  match file st with
  | None => empty_snapshot
  | Some (_, t) => fold_left snap_rule (List.filter (fun r => bool_decide (r_subject r = subject) && live now r) (rules t)) empty_snapshot
  end.

(** ** Minting and approving *)

Fixpoint str_le (a b : pystr) : bool :=
  match a, b with
  | [], _ => true
  | _ :: _, [] => false
  | x :: a, y :: b => (x <? y) || ((x =? y) && str_le a b)
  end.

Definition item_le (a b : item) : bool := if bool_decide (a.1 = b.1) then str_le a.2 b.2 else str_le a.1 b.1.

Definition sorted_items (l : list item) : list item := sort_by item_le (remove_dups l).

Section Store.
Context (sha256_hex : pybytes -> pystr) (hmac_hex : pybytes -> pybytes -> pystr) (isprintable : Z -> bool).

Definition code_hash (code : pystr) : pystr := sha256_hex (CODE_DOMAIN ++ code).

(** [_digest] *)
Definition digest (key : pybytes) (detector_type value : pystr) : pystr :=
  hmac_hex key (VALUE_DOMAIN ++ utf8_surrogatepass detector_type ++ [0] ++ utf8_surrogatepass value).

(** [_open] with [create]: [key] is the random one a new file gets. *)
Definition opened (key : pybytes) (st : store) : pybytes * tables := default (key, no_tables) (file st).

(** [record_pending], the code drawn; [None] where the code's UNIQUE hash is taken. *)
Definition record_pending (ttl : Z) (max_pending max_total : nat) (key : pybytes) (code : pystr) (now : Z)
    (kind subject provider method route : pystr) (values : list (pystr * pystr)) (st : store) : option store :=
  let '(key, t) := opened key st in
  let items := sorted_items (map (fun tv => (tv.1, digest key tv.1 tv.2)) values) in
  let row := PendingRow (next_pending t) (code_hash code) kind subject provider method route items now (now + ttl) in
  let ps := List.filter (fun p => negb (p_expires p <=? now)) (pendings t) in
  if existsb (fun p => bool_decide (p_code p = p_code row)) ps then None
  else
    let ps := ps ++ [row] in
    let own := newest max_pending (map p_id (List.filter (fun p => bool_decide (p_subject p = subject)) ps)) in
    let ps := List.filter (fun p => negb (bool_decide (p_subject p = subject)) || bool_decide (p_id p ∈ own)) ps in
    let all := newest max_total (map p_id ps) in
    let ps := List.filter (fun p => bool_decide (p_id p ∈ all)) ps in
    Some (with_file (Some (key, Tables ps (rules t) (next_pending t + 1) (next_rule t))) st).

Definition item_types (items : list item) : list pystr := sort_by str_le (remove_dups (map fst items)).

Definition route_shown (method provider route : pystr) : pystr :=
  shown isprintable (method ++ lit " " ++ provider ++ lit " " ++ route).

(** [_pending_entry] *)
Definition pending_entry (p : pending_row) : override_entry :=
  OverrideEntry (lit "p" ++ str_of_nat (p_id p)) (lit "pending") (p_kind p) (item_types (p_items p))
    (route_shown (p_method p) (p_provider p) (p_route p)) (shown isprintable (p_subject p)) (p_created p) (Some (p_expires p)) 0.

(** [_entry_number]: [str.isdigit] also accepts digits [int] refuses. *)
Definition entry_number (entry_id : pystr) (prefix : Z) : result override_error Z :=
  match entry_id with
  | c :: ds => if (c =? prefix) && negb (bool_decide (ds = [])) && forallb isdigit ds && (length entry_id <=? 20)%nat
               then match int_of ds with Ok n => Ok n | Raise _ => Raise PyValueError end
               else Raise BadId
  | [] => Raise BadId
  end.

(** [describe] *)
Definition describe (now : Z) (code : pystr) (st : store) : result override_error override_entry :=
  match file st with
  | None => Raise NoPending
  | Some (_, t) =>
      match List.find (fun p => bool_decide (p_code p = code_hash code) && (now <? p_expires p)) (pendings t) with
      | Some p => Ok (pending_entry p)
      | None => Raise NoPending
      end
  end.

(** [_insert_always] *)
Definition insert_always (kind subject provider method route : pystr) (items : list item) (now : Z) (t : tables) : tables :=
  let same r :=
    bool_decide (r_scope r = ALWAYS) && bool_decide (r_subject r = subject) && bool_decide (r_items r = items) &&
    (of_kind (r_kind r) VALUE_KINDS ||
     (bool_decide (r_kind r = kind) && bool_decide (r_provider r = provider) && bool_decide (r_method r = method) &&
      bool_decide (r_route r = route))) in
  if existsb same (rules t) then t
  else Tables (pendings t)
         (rules t ++ [Rule (next_rule t) ALWAYS kind subject provider method route items now None 0 false])
         (next_pending t) (next_rule t + 1).

(** What [approve] inserts for a row. *)
Definition insert_once (ttl now : Z) (p : pending_row) (t : tables) : tables :=
  let rs := rules t ++ [Rule (next_rule t) ONCE (p_kind p) (p_subject p) (p_provider p) (p_method p) (p_route p) (p_items p) now
                          (Some (now + ttl)) 0 false] in
  let kept := newest MAX_ONCE_GRANTS (map r_id (List.filter (fun r => bool_decide (r_scope r = ONCE)) rs)) in
  Tables (pendings t) (List.filter (fun r => negb (bool_decide (r_scope r = ONCE)) || bool_decide (r_id r ∈ kept)) rs)
    (next_pending t) (next_rule t + 1).

Definition insert_rules (scope : pystr) (ttl now : Z) (p : pending_row) (t : tables) : tables :=
  if bool_decide (scope = ONCE) then insert_once ttl now p t
  else if of_kind (p_kind p) ROUTE_KINDS
  then insert_always (p_kind p) (p_subject p) (p_provider p) (p_method p) (p_route p) [] now t
  else fold_left (fun t i => insert_always (p_kind p) (p_subject p) (p_provider p) (p_method p) (p_route p) [i] now t)
         (sorted_items (p_items p)) t.

Inductive named : Type := ByCode (code : pystr) | ById (pending_id : pystr).

Definition named_row (how : named) : result override_error (pending_row -> bool) :=
  match how with
  | ByCode code => Ok (fun p => bool_decide (p_code p = code_hash code))
  | ById pid => match entry_number pid 112 with Ok n => Ok (fun p => p_id p =? n) | Raise e => Raise e end
  end.

(** [approve] *)
Definition approve (ttl : Z) (scope : pystr) (approver : option pystr) (how : named) (now : Z) (st : store)
    : result override_error override_entry * store :=
  if negb (of_kind scope SCOPES) then (Raise BadScope, st)
  else match named_row how with
  | Raise e => (Raise e, st)
  | Ok where_ =>
      match file st with
      | None => (Raise NoPending, st)
      | Some (key, t) =>
          match List.find (fun p => where_ p && (now <? p_expires p)) (pendings t) with
          | None => (Raise NoPending, st)
          | Some p =>
              if negb (bool_decide (p_subject p = default [] approver)) then (Raise OtherRequester, st)
              else
                let t := with_pendings (List.filter (fun q => negb (p_id q =? p_id p)) (pendings t)) t in
                let e := pending_entry p in
                (Ok (OverrideEntry (e_id e) scope (e_kind e) (e_types e) (e_route e) (e_subject e) now
                       (if bool_decide (scope = ONCE) then Some (now + ttl) else None) 0),
                 with_file (Some (key, insert_rules scope ttl now p t)) st)
          end
      end
  end.

(** ** Using a rule *)

(** One UPDATE of [consume]; [None] when it changed no row. *)
Definition grant_hit (now id : Z) (r : rule) : bool :=
  (r_id r =? id) && bool_decide (r_scope r = ONCE) && negb (r_consumed r) &&
  match r_expires r with Some e => now <? e | None => false end.

Definition consume_one (now : Z) (t : option tables) (id : Z) : option tables :=
  t ← t;
  if (length (List.filter (grant_hit now id) (rules t)) =? 1)%nat
  then Some (with_rules (map (fun r => if grant_hit now id r then set_uses (r_uses r + 1) true r else r) (rules t)) t)
  else None.

(** [consume] *)
Definition consume (now : Z) (once : list Z) (st : store) : bool * store :=
  match file st with
  | None => (false, st)
  | Some (key, t) =>
      match fold_left (consume_one now) once (Some t) with
      | None => (false, st)
      | Some t =>
          let spent r := bool_decide (r_scope r = ONCE) && match r_expires r with Some e => e <=? now | None => false end in
          (true, with_file (Some (key, with_rules (List.filter (fun r => negb (spent r)) (rules t)) t)) st)
      end
  end.

(** [release] *)
Definition release_one (t : tables) (id : Z) : tables :=
  let hit r := (r_id r =? id) && bool_decide (r_scope r = ONCE) && r_consumed r in
  with_rules (map (fun r => if hit r then set_uses (r_uses r - 1) false r else r) (rules t)) t.

Definition release (once : list Z) (st : store) : store :=
  match file st with
  | None => st
  | Some (key, t) => with_file (Some (key, fold_left release_one once t)) st
  end.

(** [flush_uses]: the counts are taken before the write, and lost when it faults. *)
Definition flush_one (t : tables) (u : Z * Z) : tables :=
  with_rules (map (fun r => if r_id r =? u.1 then set_uses (r_uses r + u.2) (r_consumed r) r else r) (rules t)) t.

Definition flush_uses (written : bool) (now : Z) (st : store) : store :=
  let f := match file st with
           | Some (key, t) => Some (key, if written then fold_left flush_one (map_to_list (unflushed st)) t else t)
           | None => None
           end in
  Store f ∅ now (used st).

(** [count_uses] *)
Definition count_uses (written : bool) (now : Z) (always : list Z) (st : store) : store :=
  let counted := fold_left (fun m id => <[id := default 0 (m !! id) + 1]> m) always (unflushed st) in
  let st := Store (file st) counted (last_flush st) (used st) in
  if USE_FLUSH_SECONDS <=? now - last_flush st then flush_uses written now st else st.

(** ** Listing and revoking *)

(** [entries] *)
Definition rule_entry (st : store) (r : rule) : override_entry :=
  OverrideEntry (lit "r" ++ str_of_nat (r_id r)) (r_scope r) (r_kind r) (item_types (r_items r))
    (if bool_decide (r_scope r = ALWAYS) && of_kind (r_kind r) VALUE_KINDS then lit "any route"
     else route_shown (r_method r) (r_provider r) (r_route r))
    (shown isprintable (r_subject r)) (r_created r) (r_expires r) (r_uses r + default 0 (unflushed st !! r_id r)).

Definition of_subject (subject : option pystr) (s : pystr) : bool :=
  match subject with None => true | Some x => bool_decide (x = s) end.

Definition entries (subject : option pystr) (now : Z) (st : store) : list override_entry :=
  match file st with
  | None => []
  | Some (_, t) =>
      map pending_entry (List.filter (fun p => (now <? p_expires p) && of_subject subject (p_subject p)) (pendings t)) ++
      map (rule_entry st) (List.filter (fun r => live now r && of_subject subject (r_subject r)) (rules t))
  end.

(** [revoke] *)
Definition revoke (entry_id : pystr) (subject : option pystr) (st : store) : result override_error unit * store :=
  let first := match entry_id with c :: _ => c | [] => 114 end in
  let prefix := if (first =? 114) || (first =? 112) then first else 114 in
  match entry_number entry_id prefix with
  | Raise e => (Raise e, st)
  | Ok n =>
      match file st with
      | None => (Raise NothingToRevoke, st)
      | Some (key, t) =>
          if first =? 114 then
            let hit r := (r_id r =? n) && of_subject subject (r_subject r) in
            if existsb hit (rules t)
            then (Ok tt, with_file (Some (key, with_rules (List.filter (fun r => negb (hit r)) (rules t)) t)) st)
            else (Raise NothingToRevoke, st)
          else
            let hit p := (p_id p =? n) && of_subject subject (p_subject p) in
            if existsb hit (pendings t)
            then (Ok tt, with_file (Some (key, with_pendings (List.filter (fun p => negb (hit p)) (pendings t)) t)) st)
            else (Raise NothingToRevoke, st)
      end
  end.

(** [counts]: pending, once, always. *)
Definition counts (now : Z) (st : store) : nat * nat * nat :=
  match file st with
  | None => (0, 0, 0)%nat
  | Some (_, t) =>
      let of_scope s := length (List.filter (fun r => live now r && bool_decide (r_scope r = s)) (rules t)) in
      (length (List.filter (fun p => now <? p_expires p) (pendings t)), of_scope ONCE, of_scope ALWAYS)
  end.
End Store.

(** ** One request's view *)

(** [OverrideScope]: the owner and whether it can approve are asked once, so they are
    values here; [refused] and [allowed] are dicts used as ordered sets. *)
Record scope := Scope { owner : option pystr; approvable : bool; snap : option snapshot; refused : list (pystr * pystr);
  allowed : list (pystr * pystr); s_once : gset Z; s_always : gset Z; final : bool; fault : bool;
  to_settle : option (list Z * list Z * pystr) }.

Definition new_scope (owner : option pystr) (approvable : bool) : scope := Scope owner approvable None [] [] ∅ ∅ false false None.

(** [d[k] = None] *)
Definition add_pair (tv : pystr * pystr) (l : list (pystr * pystr)) : list (pystr * pystr) :=
  if bool_decide (tv ∈ l) then l else l ++ [tv].

Section Scope.
Context (sha256_hex : pybytes -> pystr) (hmac_hex : pybytes -> pybytes -> pystr).

(** [_snapshot], [read] telling whether the store could be read. *)
Definition scope_snapshot (read : bool) (now : Z) (st : store) (sc : scope) : snapshot * scope :=
  match snap sc with
  | Some s => (s, sc)
  | None =>
      let s := match owner sc with Some o => if read then store_snapshot o now st else empty_snapshot | None => empty_snapshot end in
      (s, Scope (owner sc) (approvable sc) (Some s) (refused sc) (allowed sc) (s_once sc) (s_always sc) (final sc) (fault sc) (to_settle sc))
  end.

Definition refuse_value (tv : pystr * pystr) (sc : scope) : scope :=
  Scope (owner sc) (approvable sc) (snap sc) (add_pair tv (refused sc)) (allowed sc) (s_once sc) (s_always sc) (final sc) (fault sc) (to_settle sc).

Definition use_rules (once always : gset Z) (al : list (pystr * pystr)) (sc : scope) : scope :=
  Scope (owner sc) (approvable sc) (snap sc) (refused sc) al (s_once sc ∪ once) (s_always sc ∪ always) (final sc) (fault sc) (to_settle sc).

(** The item looked up: the store has its key once its file is open. *)
Definition item_of (st : store) (detector_type value : pystr) : item :=
  (detector_type, digest hmac_hex (default [] (fst <$> file st)) detector_type value).

(** [allows] *)
Definition scope_allows (read : bool) (now : Z) (st : store) (detector_type value : pystr) (sc : scope) : bool * scope :=
  let '(s, sc) := scope_snapshot read now st sc in
  let i := item_of st detector_type value in
  match always_values s !! i with
  | Some r => (true, use_rules ∅ {[r]} (add_pair (detector_type, value) (allowed sc)) sc)
  | None =>
      match List.find (fun g => bool_decide (i ∈ g.2)) (once_values s) with
      | Some g => (true, use_rules {[g.1]} ∅ (add_pair (detector_type, value) (allowed sc)) sc)
      | None => (false, refuse_value (detector_type, value) sc)
      end
  end.

(** [allowed_types] *)
Definition allowed_types (sc : scope) : gmap pystr Z :=
  fold_left (fun m tv => counter_incr m tv.1) (allowed sc) ∅.

(** [unoverridable] *)
Definition scope_unoverridable (sc : scope) : scope :=
  Scope (owner sc) (approvable sc) (snap sc) (refused sc) (allowed sc) (s_once sc) (s_always sc) true (fault sc) (to_settle sc).

(** [route_rule] and [use_route] *)
Definition route_rule (read : bool) (now : Z) (st : store) (kind provider method route : pystr) (sc : scope)
    : option (pystr * Z) * scope :=
  let '(s, sc) := scope_snapshot read now st sc in
  let key := (kind, provider, method, route) in
  (match always_routes s !! key with
   | Some r => Some (ALWAYS, r)
   | None => (fun r => (ONCE, r)) <$> once_routes s !! key
   end, sc).

Definition use_route (rule : pystr * Z) (sc : scope) : scope :=
  if bool_decide (rule.1 = ALWAYS) then use_rules ∅ {[rule.2]} (allowed sc) sc else use_rules {[rule.2]} ∅ (allowed sc) sc.

(** [refusal_code], the code drawn and [written] telling whether the store took it. *)
Definition refusal_code (ttl : Z) (max_pending max_total : nat) (written : bool) (key : pybytes) (code : pystr) (now : Z)
    (kind provider method route : pystr) (sc : scope) (st : store) : option pystr * store :=
  if of_kind kind VALUE_KINDS && (final sc || bool_decide (refused sc = [])) then (None, st)
  else if negb (approvable sc) then (None, st)
  else match owner sc with
  | None => (None, st)
  | Some o =>
      match (if written
             then record_pending sha256_hex hmac_hex ttl max_pending max_total key code now kind o provider method route (refused sc) st
             else None) with
      | Some st => (Some code, st)
      | None => (None, st)
      end
  end.

(** [commit] and [settle] *)
Definition commit (written : bool) (now : Z) (sc : scope) (st : store) : (bool * option pystr) * scope * store :=
  if bool_decide (s_once sc = ∅) && bool_decide (s_always sc = ∅) then ((true, None), sc, st)
  else
    let once := sort_by Z.leb (elements (s_once sc)) in
    let '(ok, st) := if bool_decide (once = []) then (true, st) else if written then consume now once st else (false, st) in
    if ok then
      let marker := if bool_decide (once = []) then ALWAYS else ONCE in
      ((true, Some marker),
       Scope (owner sc) (approvable sc) (snap sc) (refused sc) (allowed sc) ∅ ∅ (final sc) (fault sc)
         (Some (once, sort_by Z.leb (elements (s_always sc)), marker)), st)
    else
      ((false, None),
       Scope (owner sc) (approvable sc) (snap sc) (refused sc) (allowed sc) (s_once sc) (s_always sc) (final sc)
         (fault sc || negb written) (to_settle sc), st).

Definition settle (sent written : bool) (now : Z) (sc : scope) (st : store) : scope * store :=
  let sc' := Scope (owner sc) (approvable sc) (snap sc) (refused sc) (allowed sc) (s_once sc) (s_always sc) (final sc) (fault sc) None in
  match to_settle sc with
  | None => (sc', st)
  | Some (once, always, marker) =>
      if sent then
        let st := Store (file st) (unflushed st) (last_flush st) (counter_incr (used st) marker) in
        (sc', if bool_decide (always = []) then st else count_uses written now always st)
      else (sc', if bool_decide (once = []) || negb written then st else release once st)
  end.

(** [allow_hint], [refusal_hint] and [raced_message] *)
Definition allow_hint (code : pystr) (config_arg : option pystr) : pystr :=
  lit "to allow: llm-redact override " ++
  match config_arg with None => [] | Some arg => lit "--config " ++ arg ++ lit " " end ++ code ++ lit " --once | --always".

Definition DASHBOARD_HINT : pystr :=
  lit "to allow: Allow once | Always allow under Refusal overrides in the llm-redact dashboard".

Definition refusal_hint (subject : pystr) (config_arg code : option pystr) : option pystr :=
  (fun code => if bool_decide (subject = []) then allow_hint code config_arg else DASHBOARD_HINT) <$> code.
End Scope.

(** The scope as the redactor asks it: the store it reads, whether it can, and when. *)
Record override_check := OverrideCheck { oc_store : store; oc_read : bool; oc_now : Z; oc_scope : scope }.

#[global] Instance scope_overrides (hmac_hex : pybytes -> pybytes -> pystr) : OverrideOps override_check := {|
  Redactor.allows o ty v :=
    let '(b, sc) := scope_allows hmac_hex (oc_read o) (oc_now o) (oc_store o) ty v (oc_scope o) in
    (b, OverrideCheck (oc_store o) (oc_read o) (oc_now o) sc);
  Redactor.unoverridable o := OverrideCheck (oc_store o) (oc_read o) (oc_now o) (scope_unoverridable (oc_scope o)) |}.
