(* ===== verification/OverrideFacts.v ===== *)
(** * What an approval lets through -- src/llm_redact/overrides.py

    Requests, approvals and revocations of any requesters interleaved over one store: a
    one-time grant is spent by one request at most, and a value passes only after its
    own requester was refused that value and approved it. *)

From S2P Require Import Prelude Bytes Redactor Overrides.

Lemma NoDup_map_elem {A B} (f : A -> B) l x y : List.NoDup (map f l) -> x ∈ l -> y ∈ l -> f x = f y -> x = y.
Proof.
  induction l as [|z l IH]; cbn; intros Hn Hx Hy E; [by apply not_elem_of_nil in Hx|]. inversion Hn as [|? ? Hz Hl]; subst.
  apply elem_of_cons in Hx as [-> |Hx], Hy as [-> |Hy]; [done|exfalso; apply Hz..|by apply IH].
  - rewrite E. by apply in_map, list_elem_of_In.
  - rewrite <- E. by apply in_map, list_elem_of_In.
Qed.

Lemma sublist_map {A B} (f : A -> B) l k : sublist l k -> sublist (map f l) (map f k).
Proof. induction 1; cbn; by constructor. Qed.

Lemma filter_sublist_mono {A} (f : A -> bool) l k : sublist l k -> sublist (List.filter f l) (List.filter f k).
Proof. induction 1 as [|x l k _ IH|x l k _ IH]; cbn; [constructor|destruct (f x); [by constructor|done]|destruct (f x); [by constructor|done]]. Qed.

Lemma filter_is_sublist {A} (f : A -> bool) l : sublist (List.filter f l) l.
Proof. induction l as [|x l IH]; cbn; [constructor|]. destruct (f x); by constructor. Qed.

Lemma Forall_sublist {A} (P : A -> Prop) l k : sublist l k -> Forall P k -> Forall P l.
Proof. rewrite !list.Forall_forall. intros Hs H x Hx. apply H. by eapply elem_of_sublist; [exact Hx|]. Qed.

Lemma filter_or_sublist {A} (f g : A -> bool) l :
  sublist (List.filter f (List.filter (fun x => negb (f x) || g x) l)) (List.filter g (List.filter f l)).
Proof.
  induction l as [|x l IH]; cbn; [constructor|]. destruct (f x) eqn:Ef; cbn; [|by rewrite Ef].
  destruct (g x) eqn:Eg; cbn; [rewrite Ef; by constructor|done].
Qed.

(** As many rows keep one of the newest [n] ids as there may be. *)
Lemma newest_length {A} (f : A -> Z) n l k : sublist k l -> NoDup (map f l) -> (length (List.filter (fun x => bool_decide (f x ∈ newest n (map f l))) k) <= n)%nat.
Proof.
  intros Hs Hn. transitivity (length (newest n (map f l))); [|unfold newest; rewrite length_drop; lia].
  rewrite <- (length_map f). apply submseteq_length, NoDup_submseteq.
  - eapply sublist_NoDup; [exact Hn|]. apply sublist_map. etrans; [apply filter_is_sublist|exact Hs].
  - intros x (y & <- & Hy%list_elem_of_In)%list_elem_of_In%in_map_iff. apply elem_filter in Hy as [_ Hy]. by apply bool_decide_eq_true in Hy.
Qed.

Section World.
Context (sha256_hex : pybytes -> pystr) (hmac_hex : pybytes -> pybytes -> pystr) (isprintable : Z -> bool).
Context (ttl : Z) (max_pending max_total : nat).

(** The store, the requests' scopes, and the one-time grants of the requests sent. *)
Record world := World { w_store : store; w_scopes : list scope; w_sent : list Z }.

Inductive event : Type :=
  | New_scope (owner : option pystr) (approvable : bool)
  | Ask (i : nat) (read : bool) (now : Z) (detector_type value : pystr)
  | Route (i : nat) (read : bool) (now : Z) (kind provider method route : pystr)
  | Refuse (i : nat) (written : bool) (key : pybytes) (code : pystr) (now : Z) (kind provider method route : pystr)
  | Unoverridable (i : nat)
  | Commit (i : nat) (written : bool) (now : Z)
  | Settle (i : nat) (sent written : bool) (now : Z)
  | Approve (scope : pystr) (approver : option pystr) (how : named) (now : Z)
  | Revoke (entry_id : pystr) (subject : option pystr)
  | Flush (written : bool) (now : Z).

Definition once_held (sc : scope) : list Z := match to_settle sc with Some (once, _, _) => once | None => [] end.

Definition on_scope (w : world) (i : nat) (f : scope -> scope * store * list Z) : world :=
  match w_scopes w !! i with
  | Some sc => let '(sc, st, sent) := f sc in World st (<[i := sc]> (w_scopes w)) (w_sent w ++ sent)
  | None => w
  end.

Definition step (w : world) (e : event) : world :=
  let st := w_store w in
  match e with
  | New_scope o a => World st (w_scopes w ++ [new_scope o a]) (w_sent w)
  | Ask i read now ty v => on_scope w i (fun sc => ((scope_allows hmac_hex read now st ty v sc).2, st, []))
  | Route i read now kind provider method route =>
      on_scope w i (fun sc => let '(r, sc) := route_rule read now st kind provider method route sc in
                              (match r with Some r => use_route r sc | None => sc end, st, []))
  | Refuse i written key code now kind provider method route =>
      on_scope w i (fun sc => (sc, (refusal_code sha256_hex hmac_hex ttl max_pending max_total written key code now kind provider
                                      method route sc st).2, []))
  | Unoverridable i => on_scope w i (fun sc => (scope_unoverridable sc, st, []))
  | Commit i written now => on_scope w i (fun sc => let '(_, sc, st) := commit written now sc st in (sc, st, []))
  | Settle i sent written now =>
      on_scope w i (fun sc => let '(sc', st) := settle sent written now sc st in (sc', st, if sent then once_held sc else []))
  | Approve scope approver how now => World (approve sha256_hex isprintable ttl scope approver how now st).2 (w_scopes w) (w_sent w)
  | Revoke entry_id subject => World (revoke entry_id subject st).2 (w_scopes w) (w_sent w)
  | Flush written now => World (flush_uses written now st) (w_scopes w) (w_sent w)
  end.

Definition empty_world : world := World (Store None ∅ 0 ∅) [] [].

Definition run (es : list event) : world := fold_left step es empty_world.

Lemma run_snoc es e : run (es ++ [e]) = step (run es) e.
Proof. unfold run. by rewrite fold_left_app. Qed.

(** ** The rules of a store *)

Definition rules_of (st : store) : list rule := match file st with Some (_, t) => rules t | None => [] end.
Definition next_of (st : store) : Z := match file st with Some (_, t) => next_rule t | None => 1 end.

(** Ids are fresh and distinct; the ids of [taken] are those of no unconsumed rule. *)
Record sound (rs : list rule) (nx : Z) (taken : list Z) : Prop := {
  sd_ids : NoDup (map r_id rs);
  sd_next r : r ∈ rs -> r_id r < nx;
  sd_taken : NoDup taken;
  sd_fresh i : i ∈ taken -> i < nx;
  sd_consumed r : r ∈ rs -> r_id r ∈ taken -> r_consumed r = true }.

Definition held (w : world) : list Z := concat (map once_held (w_scopes w)).

Definition grants_ok (w : world) : Prop := sound (rules_of (w_store w)) (next_of (w_store w)) (held w ++ w_sent w).

Lemma sound_filter (f : rule -> bool) rs nx taken : sound rs nx taken -> sound (List.filter f rs) nx taken.
Proof.
  intros [H1 H2 H3 H4 H5]. split; try done.
  - eapply sublist_NoDup; [exact H1|]. clear. induction rs as [|r rs IH]; cbn; [constructor|]. destruct (f r); cbn; by constructor.
  - intros r [Hr _]%elem_filter. by apply H2.
  - intros r [Hr _]%elem_filter. by apply H5.
Qed.

Lemma sound_insert r rs nx taken : r_id r = nx -> sound rs nx taken -> sound (rs ++ [r]) (nx + 1) taken.
Proof.
  intros Hr [H1 H2 H3 H4 H5]. split; try done.
  - rewrite map_app. apply list.NoDup_app. split_and!; [done| |apply list.NoDup_singleton]. intros i Hi ->%list_elem_of_singleton.
    apply list_elem_of_In, in_map_iff in Hi as (r' & E & Hr'%list_elem_of_In). specialize (H2 r' Hr'). cbn in E. lia.
  - intros r' [Hr'| ->%list_elem_of_singleton]%elem_of_app; [specialize (H2 r' Hr'); lia|lia].
  - intros i Hi. specialize (H4 i Hi). lia.
  - intros r' [Hr'| ->%list_elem_of_singleton]%elem_of_app Hi; [by apply H5|]. specialize (H4 _ Hi). lia.
Qed.

Lemma sound_map (g : rule -> rule) rs nx taken : (forall r, r_id (g r) = r_id r) ->
  (forall r, r ∈ rs -> r_id r ∈ taken -> r_consumed r = true -> r_consumed (g r) = true) ->
  sound rs nx taken -> sound (map g rs) nx taken.
Proof.
  intros Hg Hc [H1 H2 H3 H4 H5]. split; try done.
  - by rewrite map_map, (map_ext _ r_id).
  - intros r (r' & <- & Hr'%list_elem_of_In)%list_elem_of_In%in_map_iff. rewrite Hg. by apply H2.
  - intros r (r' & <- & Hr'%list_elem_of_In)%list_elem_of_In%in_map_iff. rewrite Hg. intros Hi. by apply Hc; [| |apply H5].
Qed.

Lemma sound_taken rs nx taken taken' : NoDup taken' -> (forall i, i ∈ taken' -> i ∈ taken) -> sound rs nx taken -> sound rs nx taken'.
Proof. intros Hn Hs [H1 H2 H3 H4 H5]. split; auto. Qed.

Lemma set_uses_id u c r : r_id (set_uses u c r) = r_id r.
Proof. done. Qed.

(** ** Consuming and handing back *)

Lemma consume_one_sound now t id t' taken : consume_one now (Some t) id = Some t' ->
  sound (rules t) (next_rule t) taken -> sound (rules t') (next_rule t') (taken ++ [id]).
Proof.
  unfold consume_one. cbn [mbind option_bind].
  assert (Hhit : forall r, grant_hit now id r = true -> r_id r = id /\ r_consumed r = false).
  { intros r. unfold grant_hit. rewrite !andb_true_iff, negb_true_iff. intros [[[H1%Z.eqb_eq _] H2] _]. done. }
  set (hit := grant_hit now id) in *. clearbody hit. destruct (_ =? 1)%nat eqn:E; [|done]. intros [= <-] Hs. cbn [rules next_rule with_rules].
  assert (Hx : exists r, r ∈ rules t /\ hit r = true).
  { apply Nat.eqb_eq in E. destruct (List.filter hit (rules t)) as [|r l] eqn:El; [done|]. exists r.
    apply elem_filter. rewrite El. left. }
  destruct Hx as (r & Hr & Hh). destruct (Hhit r Hh) as [Hid Hc]. assert (Hn : id ∉ taken).
  { intros Hi. rewrite <- Hid in Hi. by rewrite (sd_consumed _ _ _ Hs r Hr Hi) in Hc. }
  assert (Hm : sound (map (fun r => if hit r then set_uses (r_uses r + 1) true r else r) (rules t)) (next_rule t) taken).
  { apply sound_map; [intros r'; by destruct (hit r')| |done]. intros r' _ _ Hc'. by destruct (hit r'). }
  destruct Hs as [H1 H2 H3 H4 H5]. destruct Hm as [M1 M2 M3 M4 M5]. split; try done.
  - apply list.NoDup_app. split_and!; [done| |apply list.NoDup_singleton]. by intros i Hi ->%list_elem_of_singleton.
  - intros i [Hi| ->%list_elem_of_singleton]%elem_of_app; [by apply H4|]. rewrite <- Hid. by apply H2.
  - intros r' Hr' [Hi|Hi%list_elem_of_singleton]%elem_of_app; [by apply M5|].
    apply list_elem_of_In, in_map_iff in Hr' as (r0 & <- & Hr0%list_elem_of_In).
    assert (r0 = r) as ->; [|by rewrite Hh]. apply (NoDup_map_elem r_id (rules t)); [by apply NoDup_ListNoDup|done..|].
    destruct (hit r0); cbn in Hi; congruence.
Qed.

Lemma consume_sound now once t t' taken : fold_left (consume_one now) once (Some t) = Some t' ->
  sound (rules t) (next_rule t) taken -> sound (rules t') (next_rule t') (taken ++ once).
Proof.
  revert t taken. induction once as [|i once IH]; intros t taken; cbn [fold_left]; [intros [= <-]; by rewrite app_nil_r|].
  destruct (consume_one now (Some t) i) as [t1|] eqn:E.
  - intros H Hs. change (i :: once) with ([i] ++ once). rewrite app_assoc. eapply IH; [exact H|]. by eapply consume_one_sound.
  - intros H. exfalso. clear -H. induction once; [done|]. by apply IHonce.
Qed.

Lemma consume_ok now once st st' taken : consume now once st = (true, st') ->
  sound (rules_of st) (next_of st) taken -> sound (rules_of st') (next_of st') (taken ++ once).
Proof.
  unfold consume, rules_of, next_of. destruct (file st) as [[key t]|]; [|done]. destruct (fold_left _ _ _) as [t1|] eqn:E; [|done].
  intros [= <-] Hs. cbn. apply sound_filter. by eapply consume_sound.
Qed.

Lemma release_sound once t taken : sound (rules t) (next_rule t) taken -> (forall i, i ∈ once -> i ∉ taken) ->
  sound (rules (fold_left release_one once t)) (next_rule (fold_left release_one once t)) taken.
Proof.
  revert t. induction once as [|i once IH]; intros t Hs Hn; cbn [fold_left]; [done|]. apply IH; [|intros j Hj; apply Hn; by right].
  unfold release_one. cbn [rules next_rule with_rules]. apply sound_map; [intros r; by destruct (_ && _)| |done].
  intros r _ Hi Hc. destruct (r_id r =? i) eqn:E; [|done]. apply Z.eqb_eq in E. exfalso. apply (Hn i); [left|by rewrite <- E].
Qed.

Lemma flush_sound us t taken : sound (rules t) (next_rule t) taken ->
  sound (rules (fold_left flush_one us t)) (next_rule (fold_left flush_one us t)) taken.
Proof.
  revert t. induction us as [|u us IH]; intros t Hs; cbn [fold_left]; [done|]. apply IH. unfold flush_one. cbn [rules next_rule with_rules].
  apply sound_map; [intros r; by destruct (_ =? _)| |done]. intros r _ _ Hc. by destruct (_ =? _).
Qed.

Lemma flush_uses_sound written now st taken : sound (rules_of st) (next_of st) taken ->
  sound (rules_of (flush_uses written now st)) (next_of (flush_uses written now st)) taken.
Proof.
  unfold rules_of, next_of, flush_uses. cbn. destruct (file st) as [[key t]|]; [|done]. destruct written; [|done]. apply flush_sound.
Qed.

Lemma count_uses_sound written now always st taken : sound (rules_of st) (next_of st) taken ->
  sound (rules_of (count_uses written now always st)) (next_of (count_uses written now always st)) taken.
Proof. intros H. unfold count_uses. destruct (_ <=? _); [by apply flush_uses_sound|done]. Qed.

(** ** Minting, approving, revoking *)

Lemma insert_always_sound k s p m r items now t taken : sound (rules t) (next_rule t) taken ->
  sound (rules (insert_always k s p m r items now t)) (next_rule (insert_always k s p m r items now t)) taken.
Proof. intros H. unfold insert_always. destruct (existsb _ _); [done|]. by apply sound_insert. Qed.

Lemma insert_rules_sound scope now p t taken : sound (rules t) (next_rule t) taken ->
  sound (rules (insert_rules scope ttl now p t)) (next_rule (insert_rules scope ttl now p t)) taken.
Proof.
  intros H. unfold insert_rules. destruct (bool_decide _); [unfold insert_once; cbn; by apply sound_filter, sound_insert|].
  destruct (of_kind _ _); [by apply insert_always_sound|]. revert t H. induction (sorted_items (p_items p)) as [|i l IH]; intros t H; [done|].
  cbn [fold_left]. by apply IH, insert_always_sound.
Qed.

Lemma record_pending_rules key code now k s p m r vs st st' :
  record_pending sha256_hex hmac_hex ttl max_pending max_total key code now k s p m r vs st = Some st' ->
  rules_of st' = rules_of st /\ next_of st' = next_of st.
Proof.
  unfold record_pending, opened, rules_of, next_of. destruct (file st) as [[key' t]|]; cbn.
  all: try match goal with |- context [existsb ?f ?l] => destruct (existsb f l); [done|] end; by intros [= <-].
Qed.

Lemma approve_sound scope approver how now st taken : sound (rules_of st) (next_of st) taken ->
  sound (rules_of (approve sha256_hex isprintable ttl scope approver how now st).2) (next_of (approve sha256_hex isprintable ttl scope approver how now st).2) taken.
Proof.
  intros H. unfold approve. destruct (negb _); [done|]. destruct (named_row _ _); [|done].
  unfold rules_of, next_of in *. destruct (file st) as [[key t]|] eqn:Ef; [|cbn; by rewrite Ef]. destruct (List.find _ _) as [p|]; [|cbn; by rewrite Ef].
  destruct (negb _); cbn; [by rewrite Ef|]. by apply insert_rules_sound.
Qed.

Lemma revoke_sound entry_id subject st taken : sound (rules_of st) (next_of st) taken ->
  sound (rules_of (revoke entry_id subject st).2) (next_of (revoke entry_id subject st).2) taken.
Proof.
  intros H. unfold revoke. destruct (entry_number _ _); [|done]. unfold rules_of, next_of in *.
  destruct (file st) as [[key t]|] eqn:Ef; [|cbn; by rewrite Ef].
  destruct (_ =? 114); match goal with |- context [existsb ?f ?l] => destruct (existsb f l) end; cbn; rewrite ?Ef; try done.
  by apply sound_filter.
Qed.

(** ** The invariant *)

Lemma held_split scs i sc : scs !! i = Some sc -> exists rest, (forall sc', Permutation (concat (map once_held (<[i := sc']> scs))) (once_held sc' ++ rest)).
Proof.
  intros H. exists (concat (map once_held (take i scs ++ drop (S i) scs))). intros sc'.
  rewrite insert_take_drop by (by eapply lookup_lt_Some). rewrite !map_app, !concat_app. cbn [map concat]. rewrite Permutation_app_swap_app. done.
Qed.

Lemma held_at w i sc : w_scopes w !! i = Some sc -> exists rest, Permutation (held w) (once_held sc ++ rest) /\
  (forall sc', Permutation (concat (map once_held (<[i := sc']> (w_scopes w)))) (once_held sc' ++ rest)).
Proof.
  intros H. destruct (held_split _ _ _ H) as [rest Hr]. exists rest. split; [|done].
  specialize (Hr sc). by rewrite list_insert_id in Hr by done.
Qed.

(** A scope's step: what the grants of the other scopes and the sent ones are is kept. *)
Lemma on_scope_ok w i (f : scope -> scope * store * list Z) : grants_ok w ->
  (forall sc rest, w_scopes w !! i = Some sc -> sound (rules_of (w_store w)) (next_of (w_store w)) (once_held sc ++ rest) ->
     let '(sc', st, sent) := f sc in sound (rules_of st) (next_of st) ((once_held sc' ++ sent) ++ rest)) ->
  grants_ok (on_scope w i f).
Proof.
  intros Hw Hf. unfold on_scope. destruct (w_scopes w !! i) as [sc|] eqn:E; [|done]. destruct (held_at w i sc E) as (rest & H1 & H2).
  specialize (Hf sc (rest ++ w_sent w) eq_refl). destruct (f sc) as [[sc' st] sent]. unfold grants_ok, held. cbn [w_store w_scopes w_sent].
  assert (Hp : Permutation (concat (map once_held (<[i:=sc']> (w_scopes w))) ++ w_sent w ++ sent) ((once_held sc' ++ sent) ++ rest ++ w_sent w)).
  { rewrite H2. rewrite <- !app_assoc. apply Permutation_app_head. rewrite app_assoc. apply (Permutation_app_comm (rest ++ w_sent w) sent). }
  assert (Hs : sound (rules_of st) (next_of st) ((once_held sc' ++ sent) ++ rest ++ w_sent w)).
  { apply Hf. eapply sound_taken; [| |exact Hw]; [|intros j; by rewrite H1, app_assoc]. rewrite app_assoc, <- H1. apply Hw. }
  eapply sound_taken; [| |exact Hs]; [rewrite Hp; apply Hs|intros j; by rewrite Hp].
Qed.

Lemma scope_kept read now st sc : once_held (scope_snapshot read now st sc).2 = once_held sc.
Proof. unfold scope_snapshot. by destruct (snap sc). Qed.

Lemma allows_kept read now st ty v sc : once_held (scope_allows hmac_hex read now st ty v sc).2 = once_held sc.
Proof.
  unfold scope_allows. rewrite <- (scope_kept read now st sc). destruct (scope_snapshot read now st sc) as [s sc'].
  destruct (_ !! _); [done|]. by destruct (List.find _ _).
Qed.

Lemma route_kept read now st k p m r sc : once_held (route_rule read now st k p m r sc).2 = once_held sc.
Proof. unfold route_rule. rewrite <- (scope_kept read now st sc). by destruct (scope_snapshot read now st sc). Qed.

Lemma use_route_kept r sc : once_held (use_route r sc) = once_held sc.
Proof. unfold use_route. by destruct (bool_decide _). Qed.

Lemma refusal_rules written key code now k p m r sc st st' c :
  refusal_code sha256_hex hmac_hex ttl max_pending max_total written key code now k p m r sc st = (c, st') ->
  rules_of st' = rules_of st /\ next_of st' = next_of st.
Proof.
  unfold refusal_code. destruct (_ && _); [by intros [= _ <-]|]. destruct (negb _); [by intros [= _ <-]|]. destruct (owner sc) as [o|]; [|by intros [= _ <-]].
  destruct written; [|by intros [= _ <-]]. destruct (record_pending _ _ _ _ _ _ _ _ _ _ _ _ _ _ _) as [st1|] eqn:E; [|by intros [= _ <-]].
  intros [= _ <-]. by eapply record_pending_rules.
Qed.

Lemma commit_ok written now sc st r sc' st' rest : commit written now sc st = (r, sc', st') ->
  sound (rules_of st) (next_of st) (once_held sc ++ rest) -> sound (rules_of st') (next_of st') (once_held sc' ++ rest).
Proof.
  unfold commit. intros H Hs. destruct (_ && _); [by injection H as <- <- <-|]. set (once := sort_by Z.leb (elements (s_once sc))) in H.
  destruct (bool_decide (once = [])) eqn:Eo.
  - apply bool_decide_eq_true in Eo. injection H as <- <- <-. cbn. rewrite Eo. cbn. eapply sound_taken; [| |exact Hs].
    + apply sd_taken in Hs. by apply list.NoDup_app in Hs as (_ & _ & ?).
    + intros i Hi. apply elem_of_app. by right.
  - destruct written; [|by injection H as <- <- <-]. destruct (consume now once st) as [ok st1] eqn:Ec. destruct ok.
    + injection H as <- <- <-. cbn. assert (Hr := consume_ok _ _ _ _ _ Ec Hs). clear - Hr. eapply sound_taken; [| |exact Hr].
      * apply sd_taken in Hr. apply list.NoDup_app in Hr as (H1 & H2 & H3). apply list.NoDup_app in H1 as (_ & _ & H4).
        apply list.NoDup_app. split_and!; [done| |done]. intros i Hi Hi'. eapply H2; [|exact Hi]. apply elem_of_app. by right.
      * intros i. rewrite !elem_of_app. tauto.
    + injection H as <- <- <-. cbn. unfold consume in Ec. destruct (file st) as [[key t]|]; [|by injection Ec as <-].
      destruct (fold_left _ _ _); [done|]. by injection Ec as <-.
Qed.

Lemma settle_ok sent written now sc st sc' st' rest : settle sent written now sc st = (sc', st') ->
  sound (rules_of st) (next_of st) (once_held sc ++ rest) ->
  sound (rules_of st') (next_of st') ((once_held sc' ++ if sent then once_held sc else []) ++ rest).
Proof.
  unfold settle. intros H Hs.
  assert (Hn : NoDup rest) by (apply sd_taken in Hs; by apply list.NoDup_app in Hs as (_ & _ & ?)).
  assert (Hr : sound (rules_of st) (next_of st) rest) by (eapply sound_taken; [done| |exact Hs]; intros i Hi; apply elem_of_app; by right).
  destruct (to_settle sc) as [[[once always] marker]|] eqn:Et.
  - assert (Eh : once_held sc = once) by (unfold once_held; by rewrite Et). rewrite Eh in *. destruct sent; injection H as <- <-; cbn.
    + destruct (bool_decide _); [done|]. by apply count_uses_sound.
    + destruct (_ || _); [done|]. unfold release, rules_of, next_of in *. destruct (file st) as [[key t]|] eqn:Ef; cbn; [|by rewrite Ef].
      apply release_sound; [done|]. intros i Hi Hi'. apply sd_taken in Hs. apply list.NoDup_app in Hs as (_ & Hd & _). by eapply Hd.
  - injection H as <- <-. cbn. assert (Eh : once_held sc = []) by (unfold once_held; by rewrite Et). rewrite Eh in *. by destruct sent.
Qed.

Lemma step_ok w e : grants_ok w -> grants_ok (step w e).
Proof.
  intros Hw. destruct e; cbn [step].
  - unfold grants_ok, held in *. cbn. rewrite map_app, concat_app. cbn. by rewrite app_nil_r.
  - apply on_scope_ok; [done|]. intros sc rest _ Hs. rewrite app_nil_r. by rewrite allows_kept.
  - apply on_scope_ok; [done|]. intros sc rest _ Hs. assert (Hk := route_kept read now (w_store w) kind provider method route sc).
    destruct (route_rule _ _ _ _ _ _ _ _) as [r sc']. cbn in Hk |- *. rewrite app_nil_r.
    destruct r as [r|]; [|by rewrite Hk]. by rewrite use_route_kept, Hk.
  - apply on_scope_ok; [done|]. intros sc rest _ Hs. destruct (refusal_code _ _ _ _ _ _ _ _ _ _ _ _ _ _ _) as [c st'] eqn:E. cbn.
    apply refusal_rules in E as [-> ->]. by rewrite app_nil_r.
  - apply on_scope_ok; [done|]. intros sc rest _ Hs. by rewrite app_nil_r.
  - apply on_scope_ok; [done|]. intros sc rest _ Hs. destruct (commit written now sc (w_store w)) as [[r sc'] st'] eqn:E.
    rewrite app_nil_r. by eapply commit_ok.
  - apply on_scope_ok; [done|]. intros sc rest _ Hs. destruct (settle sent written now sc (w_store w)) as [sc' st'] eqn:E. by eapply settle_ok.
  - by apply approve_sound.
  - by apply revoke_sound.
  - by apply flush_uses_sound.
Qed.

Lemma run_ok es : grants_ok (run es).
Proof.
  induction es as [|e es IH] using rev_ind; [|rewrite run_snoc; by apply step_ok].
  split; cbn; [constructor|intros r Hr; by apply not_elem_of_nil in Hr|constructor|intros i Hr; by apply not_elem_of_nil in Hr|
    intros r Hr; by apply not_elem_of_nil in Hr].
Qed.

(** ** Where a rule comes from *)

(** The number the store's next pending code gets. *)
Definition next_code_of (st : store) : Z := match file st with Some (_, t) => next_pending t | None => 1 end.

(** The pending code [p] was minted for a request of its subject's that was refused the
    value behind [i], and answered with it. *)
Definition minted (key : pybytes) (es : list event) (p : pending_row) (i : item) : Prop :=
  exists es1 es2 j written key0 code now kind provider method route sc tv,
    es = es1 ++ Refuse j written key0 code now kind provider method route :: es2 /\ w_scopes (run es1) !! j = Some sc /\
    owner sc = Some (p_subject p) /\
    (refusal_code sha256_hex hmac_hex ttl max_pending max_total written key0 code now kind provider method route sc (w_store (run es1))).1 = Some code /\
    p_code p = code_hash sha256_hex code /\ p_id p = next_code_of (w_store (run es1)) /\
    tv ∈ refused sc /\ i = (tv.1, digest hmac_hex key tv.1 tv.2).

(** What an approval names: the code itself, or the listed entry's number. *)
Definition names (how : named) (p : pending_row) : Prop :=
  match how with ByCode code => p_code p = code_hash sha256_hex code | ById pid => entry_number pid 112 = Ok (p_id p) end.

(** And [o] approved that very refusal. *)
Definition approved (key : pybytes) (es : list event) (o : pystr) (i : item) : Prop :=
  exists es1 es2 scope approver how now entry p, es = es1 ++ Approve scope approver how now :: es2 /\
    (approve sha256_hex isprintable ttl scope approver how now (w_store (run es1))).1 = Ok entry /\
    default [] approver = o /\ p_subject p = o /\ names how p /\ minted key es1 p i.

Lemma minted_snoc key es e p i : minted key es p i -> minted key (es ++ [e]) p i.
Proof.
  intros (es1 & es2 & j & w & k0 & c & n & k & pr & m & r & sc & tv & -> & Hm). exists es1, (es2 ++ [e]), j, w, k0, c, n, k, pr, m, r, sc, tv.
  by rewrite <- app_assoc.
Qed.

Lemma approved_snoc key es e o i : approved key es o i -> approved key (es ++ [e]) o i.
Proof.
  intros (es1 & es2 & sc & ap & how & n & en & p & -> & Ha). exists es1, (es2 ++ [e]), sc, ap, how, n, en, p. by rewrite <- app_assoc.
Qed.

Lemma named_row_names how f p : named_row sha256_hex how = Ok f -> f p = true -> names how p.
Proof.
  destruct how as [c|pid]; cbn [named_row names]; [intros [= <-]; apply bool_decide_eq_true|].
  destruct (entry_number pid 112) as [n|e]; [|done]. intros [= <-] ->%Z.eqb_eq. done.
Qed.

Definition values_of (s : snapshot) (i : item) : Prop :=
  (exists r, always_values s !! i = Some r) \/ (exists g, g ∈ once_values s /\ i ∈ g.2).

Definition snap_ok (st : store) (es : list event) (sc : scope) : Prop :=
  forall s i, snap sc = Some s -> values_of s i ->
    exists key o, fst <$> file st = Some key /\ owner sc = Some o /\ approved key es o i.

(** The pending codes: distinct hashes and ids, within the bounds. *)
Record pend_ok (t : tables) : Prop := {
  pd_codes : NoDup (map p_code (pendings t));
  pd_ids : NoDup (map p_id (pendings t)) /\ Forall (fun p => p_id p < next_pending t) (pendings t);
  pd_total : (length (pendings t) <= max_total)%nat;
  pd_own s : (length (List.filter (fun p => bool_decide (p_subject p = s)) (pendings t)) <= max_pending)%nat }.

Lemma pend_sub t t' : sublist (pendings t') (pendings t) -> next_pending t' = next_pending t -> pend_ok t -> pend_ok t'.
Proof.
  intros Hs Hn [H1 [H2 H2'] H3 H4]. split.
  - eapply sublist_NoDup; [exact H1|]. by apply sublist_map.
  - split; [eapply sublist_NoDup; [exact H2|]; by apply sublist_map|]. rewrite Hn. eapply Forall_sublist; [exact Hs|done].
  - apply sublist_length in Hs. lia.
  - intros s. specialize (H4 s). etrans; [|exact H4]. apply sublist_length. by apply filter_sublist_mono.
Qed.

Lemma no_pend_ok : pend_ok no_tables.
Proof. split; cbn; [constructor|split; constructor|lia|intros s; cbn; lia]. Qed.

Definition rows_ok (es : list event) (f : pybytes * tables) : Prop :=
  pend_ok f.2 /\
  (forall p i, p ∈ pendings f.2 -> i ∈ p_items p -> minted f.1 es p i) /\
  (forall r i, r ∈ rules f.2 -> i ∈ r_items r -> approved f.1 es (r_subject r) i).

Definition vouched (es : list event) (w : world) : Prop :=
  (forall f, file (w_store w) = Some f -> rows_ok es f) /\ forall sc, sc ∈ w_scopes w -> snap_ok (w_store w) es sc.

Lemma fold_insert_lookup (r : Z) (l : list item) (m : gmap item Z) i x :
  fold_left (fun m i => <[i := r]> m) l m !! i = Some x -> i ∈ l \/ m !! i = Some x.
Proof.
  revert m. induction l as [|j l IH]; intros m; cbn [fold_left]; [by right|]. intros H. destruct (IH _ H) as [?|H1]; [left; by right|].
  destruct (decide (i = j)) as [-> |]; [left; left|]. right. by rewrite lookup_insert_ne in H1.
Qed.

Lemma snap_rule_values snap r i : values_of (snap_rule snap r) i -> values_of snap i \/ i ∈ r_items r.
Proof.
  unfold snap_rule, values_of. destruct (of_kind _ _); [by destruct (bool_decide _); left|]. destruct (bool_decide _); cbn.
  - intros [[x Hx]|Hg]; [|left; by right]. destruct (fold_insert_lookup _ _ _ _ _ Hx); [by right|left; left; by eexists].
  - intros [Hx|(g & Hg & Hi)]; [left; by left|]. apply elem_of_app in Hg as [Hg|Hg%list_elem_of_singleton]; [left; right; by exists g|].
    subst g. cbn in Hi. right. by apply elem_of_list_to_set in Hi.
Qed.

Lemma store_snapshot_values subject now st i : values_of (store_snapshot subject now st) i ->
  exists key t r, file st = Some (key, t) /\ r ∈ rules t /\ r_subject r = subject /\ i ∈ r_items r.
Proof.
  unfold store_snapshot. destruct (file st) as [[key t]|]; [|intros [[x Hx]|(g & Hg & _)]; [done|by apply not_elem_of_nil in Hg]].
  set (l := List.filter _ (rules t)). intros H.
  assert (Hl : exists r, r ∈ l /\ i ∈ r_items r).
  { assert (Hg : forall snap, values_of (fold_left snap_rule l snap) i -> values_of snap i \/ exists r, r ∈ l /\ i ∈ r_items r).
    { clear H. induction l as [|r l' IH]; intros snap H; [by left|]. cbn [fold_left] in H. destruct (IH _ H) as [H1|(r' & Hr & Hi)].
      - destruct (snap_rule_values _ _ _ H1) as [?|?]; [by left|right; exists r; split; [by left|done]].
      - right. exists r'. split; [by right|done]. }
    destruct (Hg _ H) as [[[x Hx]|(g & Hg' & _)]|?]; [done|by apply not_elem_of_nil in Hg'|done]. }
  destruct Hl as (r & Hr & Hi). apply elem_filter in Hr as [Hr Hs]. apply andb_true_iff in Hs as [Hs%bool_decide_eq_true _].
  by exists key, t, r.
Qed.

Lemma scope_snapshot_ok read now st es sc : rows_ok es (default ([], no_tables) (file st)) -> snap_ok st es sc ->
  snap_ok st es (scope_snapshot read now st sc).2 /\ snap (scope_snapshot read now st sc).2 = Some (scope_snapshot read now st sc).1 /\
  owner (scope_snapshot read now st sc).2 = owner sc.
Proof.
  intros (_ & _ & Hr) Hs. unfold scope_snapshot. destruct (snap sc) as [s|] eqn:Es; [done|]. split_and!; [|done|done]. intros s i [= <-]. cbn [owner].
  destruct (owner sc) as [o|]; [|intros [[x Hx]|(g & Hg & _)]; [done|by apply not_elem_of_nil in Hg]].
  destruct read; [|intros [[x Hx]|(g & Hg & _)]; [done|by apply not_elem_of_nil in Hg]].
  intros (key & t & r & Hf & Hin & Hsub & Hi)%store_snapshot_values. exists key, o. rewrite Hf in Hr |- *. split_and!; [done|done|].
  rewrite <- Hsub. by apply (Hr r).
Qed.

Definition keeps_key (st st' : store) : Prop := forall k, fst <$> file st = Some k -> fst <$> file st' = Some k.

Lemma snap_ok_keep st st' es e sc sc' : snap sc' = snap sc -> owner sc' = owner sc -> keeps_key st st' ->
  snap_ok st es sc -> snap_ok st' (es ++ [e]) sc'.
Proof.
  intros H1 H2 Hk Hs s i. rewrite H1, H2. intros Es Hv. destruct (Hs s i Es Hv) as (k & o & Hf & Ho & Ha). exists k, o.
  split_and!; [by apply Hk|done|by apply approved_snoc].
Qed.

Lemma rows_none es key : rows_ok es (key, no_tables).
Proof. split; [apply no_pend_ok|]. split; cbn; intros ? ? H; by apply not_elem_of_nil in H. Qed.

Lemma rows_snoc es e f : rows_ok es f -> rows_ok (es ++ [e]) f.
Proof. intros (H0 & H1 & H2). split_and!; [done|intros; by apply minted_snoc, H1|intros; by apply approved_snoc, H2]. Qed.

(** Rules that say what rules of [rs] said. *)
Definition derived (rs rs' : list rule) : Prop :=
  forall r, r ∈ rs' -> exists r0, r0 ∈ rs /\ r_subject r0 = r_subject r /\ r_items r0 = r_items r.

Lemma derived_refl rs : derived rs rs.
Proof. intros r Hr. by exists r. Qed.

Lemma derived_trans rs rs1 rs2 : derived rs rs1 -> derived rs1 rs2 -> derived rs rs2.
Proof. intros H1 H2 r Hr. destruct (H2 r Hr) as (r1 & Hr1 & <- & <-). by apply H1. Qed.

Lemma derived_filter f rs : derived rs (List.filter f rs).
Proof. intros r [Hr _]%elem_filter. by exists r. Qed.

Lemma derived_map (g : rule -> rule) rs : (forall r, r_subject (g r) = r_subject r /\ r_items (g r) = r_items r) -> derived rs (map g rs).
Proof. intros Hg r (r0 & <- & Hr0%list_elem_of_In)%list_elem_of_In%in_map_iff. exists r0. destruct (Hg r0) as [-> ->]. done. Qed.

Definition same_pend (t t' : tables) : Prop := pendings t' = pendings t /\ next_pending t' = next_pending t.

Lemma derived_fold {A} (f : tables -> A -> tables) l t : (forall t a, derived (rules t) (rules (f t a)) /\ same_pend t (f t a)) ->
  derived (rules t) (rules (fold_left f l t)) /\ same_pend t (fold_left f l t).
Proof.
  intros Hf. revert t. induction l as [|a l IH]; intros t; cbn [fold_left]; [split; [apply derived_refl|done]|].
  destruct (Hf t a) as [H1 [H2 H2']]. destruct (IH (f t a)) as [H3 [H4 H4']]. split; [by eapply derived_trans|]. split; congruence.
Qed.

(** A change of the store by which no row says more. *)
Definition tame (st st' : store) : Prop := keeps_key st st' /\
  match file st' with
  | None => True
  | Some (key, t') => exists t, file st = Some (key, t) /\ derived (rules t) (rules t') /\ sublist (pendings t') (pendings t) /\
                       next_pending t' = next_pending t
  end.

Lemma tame_rows st st' es e : tame st st' -> (forall f, file st = Some f -> rows_ok es f) -> forall f, file st' = Some f -> rows_ok (es ++ [e]) f.
Proof.
  intros [_ Ht] Hr f Hf. rewrite Hf in Ht. destruct f as [key t']. destruct Ht as (t & Hft & Hd & Hp & Hn). destruct (Hr _ Hft) as (H0 & H1 & H2).
  split_and!; cbn in *.
  - by eapply pend_sub.
  - intros p i Hin Hi. apply minted_snoc. apply H1; [by eapply elem_of_sublist|done].
  - intros r i Hin Hi. destruct (Hd r Hin) as (r0 & Hr0 & <- & Hi0). apply approved_snoc, H2; [done|by rewrite Hi0].
Qed.

Lemma tame_file st st' : file st' = file st -> tame st st'.
Proof.
  intros H. unfold tame, keeps_key. rewrite H. split; [done|]. destruct (file st) as [[key t]|]; [|done]. exists t. split_and!; [done|apply derived_refl|done|done].
Qed.

Lemma consume_derived now once t t' : fold_left (consume_one now) once (Some t) = Some t' ->
  derived (rules t) (rules t') /\ same_pend t t'.
Proof.
  revert t. induction once as [|i once IH]; intros t; cbn [fold_left]; [intros [= <-]; split; [apply derived_refl|done]|].
  destruct (consume_one now (Some t) i) as [t1|] eqn:E.
  - intros H. destruct (IH _ H) as [H1 H2]. unfold consume_one in E. cbn [mbind option_bind] in E. destruct (_ =? 1)%nat; [|done].
    injection E as <-. split; [|done]. eapply derived_trans; [|exact H1]. apply derived_map. intros r. by destruct (grant_hit _ _ _).
  - intros H. exfalso. clear -H. induction once; [done|]. by apply IHonce.
Qed.

Lemma consume_tame now once st : tame st (consume now once st).2.
Proof.
  unfold consume. destruct (file st) as [[key t]|] eqn:Ef; [|by apply tame_file]. destruct (fold_left _ _ _) as [t'|] eqn:E; [|by apply tame_file].
  apply consume_derived in E as [H1 H2]. split; cbn; [unfold keeps_key; by rewrite Ef|]. exists t. destruct H2 as [H2 H2'].
  split_and!; [done| |by rewrite H2|done]. eapply derived_trans; [exact H1|apply derived_filter].
Qed.

Lemma release_tame once st : tame st (release once st).
Proof.
  unfold release. destruct (file st) as [[key t]|] eqn:Ef; [|by apply tame_file].
  destruct (derived_fold release_one once t) as [H1 H2]; [intros t' i; split; [apply derived_map; intros r; by destruct (_ && _)|done]|].
  destruct H2 as [H2 H2']. split; cbn; [unfold keeps_key; by rewrite Ef|]. exists t. by rewrite H2.
Qed.

Lemma flush_tame written now st : tame st (flush_uses written now st).
Proof.
  unfold flush_uses. destruct (file st) as [[key t]|] eqn:Ef; [|by apply tame_file; rewrite Ef].
  assert (H : derived (rules t) (rules (if written then fold_left flush_one (map_to_list (unflushed st)) t else t)) /\
              same_pend t (if written then fold_left flush_one (map_to_list (unflushed st)) t else t)).
  { destruct written; [|split; [apply derived_refl|done]]. apply derived_fold. intros t' u. split; [apply derived_map; intros r; by destruct (_ =? _)|done]. }
  destruct H as [H1 [H2 H2']]. split; cbn; [unfold keeps_key; by rewrite Ef|]. exists t. by rewrite H2.
Qed.

Lemma count_tame written now always st : tame st (count_uses written now always st).
Proof. unfold count_uses. destruct (_ <=? _); [|by apply tame_file]. apply (flush_tame written now (Store _ _ _ _)). Qed.

Lemma revoke_tame entry_id subject st : tame st (revoke entry_id subject st).2.
Proof.
  unfold revoke. destruct (entry_number _ _); [|by apply tame_file]. destruct (file st) as [[key t]|] eqn:Ef; [|by apply tame_file].
  destruct (_ =? 114); match goal with |- context [existsb ?f ?l] => destruct (existsb f l) end; try (by apply tame_file).
  all: split; cbn; [unfold keeps_key; by rewrite Ef|]; exists t; split_and!; try done.
  - apply derived_filter.
  - apply derived_refl.
  - apply filter_is_sublist.
Qed.

Lemma commit_tame written now sc st : tame st (commit written now sc st).2.
Proof.
  unfold commit. destruct (_ && _); [by apply tame_file|]. set (once := sort_by _ _). destruct (bool_decide (once = [])); [by apply tame_file|].
  destruct written; [|by apply tame_file]. assert (H := consume_tame now once st). by destruct (consume now once st) as [[] st'].
Qed.

Lemma commit_same written now sc st : let sc' := (commit written now sc st).1.2 in snap sc' = snap sc /\ owner sc' = owner sc.
Proof.
  unfold commit. destruct (_ && _); [done|]. set (once := sort_by _ _). destruct (bool_decide (once = [])); [done|].
  destruct written; [|done]. by destruct (consume now once st) as [[] st'].
Qed.

Lemma settle_tame sent written now sc st : tame st (settle sent written now sc st).2 /\
  snap (settle sent written now sc st).1 = snap sc /\ owner (settle sent written now sc st).1 = owner sc.
Proof.
  unfold settle. destruct (to_settle sc) as [[[once always] marker]|]; [|split; [by apply tame_file|done]].
  destruct sent; cbn; (split; [|done]); destruct (_ : bool) eqn:E; try (by apply tame_file).
  - apply (count_tame written now always (Store _ _ _ _)).
  - apply release_tame.
Qed.

(** ** Minting and approving say what was refused and approved *)

Lemma mint_pend row rs nr t now : p_id row = next_pending t -> pend_ok t ->
  existsb (fun p => bool_decide (p_code p = p_code row)) (List.filter (fun p => negb (p_expires p <=? now)) (pendings t)) = false ->
  let ps := List.filter (fun p => negb (p_expires p <=? now)) (pendings t) ++ [row] in
  let own := newest max_pending (map p_id (List.filter (fun p => bool_decide (p_subject p = p_subject row)) ps)) in
  let ps := List.filter (fun p => negb (bool_decide (p_subject p = p_subject row)) || bool_decide (p_id p ∈ own)) ps in
  let all := newest max_total (map p_id ps) in
  pend_ok (Tables (List.filter (fun p => bool_decide (p_id p ∈ all)) ps) rs (next_pending t + 1) nr).
Proof.
  intros Hid [H1 [H2 H2'] H3 H4] Hu. cbv zeta. set (old := List.filter _ (pendings t)) in *. set (ps := old ++ [row]).
  assert (Hold : sublist old (pendings t)) by apply filter_is_sublist.
  assert (Hids : NoDup (map p_id ps)).
  { unfold ps. rewrite map_app. apply list.NoDup_app. split_and!; [eapply sublist_NoDup; [exact H2|by apply sublist_map]| |apply list.NoDup_singleton].
    intros x (p & <- & Hp%list_elem_of_In)%list_elem_of_In%in_map_iff Hx%list_elem_of_singleton.
    eapply list.Forall_forall in H2'; [|by eapply elem_of_sublist]. cbn in Hx. lia. }
  set (own := newest max_pending _). set (ps1 := List.filter _ ps). assert (Hs1 : sublist ps1 ps) by apply filter_is_sublist.
  set (ps2 := List.filter _ ps1). assert (Hs2 : sublist ps2 ps1) by apply filter_is_sublist. split; cbn [pendings next_pending].
  - eapply sublist_NoDup; [|apply sublist_map; etrans; [exact Hs2|exact Hs1]]. unfold ps. rewrite map_app. apply list.NoDup_app.
    split_and!; [eapply sublist_NoDup; [exact H1|by apply sublist_map]| |apply list.NoDup_singleton].
    intros x (p & <- & Hp)%list_elem_of_In%in_map_iff Hx%list_elem_of_singleton. apply Bool.not_true_iff_false in Hu. apply Hu.
    apply existsb_exists. exists p. split; [done|]. by apply bool_decide_eq_true.
  - split; [eapply sublist_NoDup; [exact Hids|apply sublist_map; by etrans]|]. eapply Forall_sublist; [by etrans; [exact Hs2|exact Hs1]|].
    unfold ps. apply Forall_app. split; [|constructor; [lia|constructor]]. eapply Forall_sublist; [exact Hold|].
    eapply list.Forall_impl; [exact H2'|]. cbn. lia.
  - apply newest_length; [done|]. eapply sublist_NoDup; [exact Hids|by apply sublist_map].
  - intros s. destruct (decide (s = p_subject row)) as [-> |Hne].
    + transitivity (length (List.filter (fun p => bool_decide (p_id p ∈ own)) (List.filter (fun p => bool_decide (p_subject p = p_subject row)) ps))).
      * apply sublist_length. transitivity (List.filter (fun p => bool_decide (p_subject p = p_subject row)) ps1).
        { by apply filter_sublist_mono. }
        { apply filter_or_sublist. }
      * apply newest_length; [done|]. eapply sublist_NoDup; [exact Hids|]. apply sublist_map, filter_is_sublist.
    + etrans; [|exact (H4 s)]. apply sublist_length. transitivity (List.filter (fun p => bool_decide (p_subject p = s)) ps).
      * apply filter_sublist_mono. by etrans.
      * unfold ps. rewrite List.filter_app. cbn. rewrite bool_decide_eq_false_2 by done. rewrite app_nil_r. by apply filter_sublist_mono.
Qed.

Lemma mint_rows es i written key0 code now k p m r sc c st' :
  w_scopes (run es) !! i = Some sc -> vouched es (run es) ->
  refusal_code sha256_hex hmac_hex ttl max_pending max_total written key0 code now k p m r sc (w_store (run es)) = (c, st') ->
  keeps_key (w_store (run es)) st' /\
  forall f, file st' = Some f -> rows_ok (es ++ [Refuse i written key0 code now k p m r]) f.
Proof.
  intros Hsc [Hr _]. set (st := w_store (run es)) in *. set (e := Refuse _ _ _ _ _ _ _ _ _).
  assert (Hsame : keeps_key st st /\ forall f, file st = Some f -> rows_ok (es ++ [e]) f).
  { split; [by intros x|]. intros f Hf. by apply rows_snoc, Hr. }
  intros Hc. assert (Hcode := Hc). unfold refusal_code in Hc. destruct (_ && _); [by injection Hc as _ <-|]. destruct (negb _); [by injection Hc as _ <-|].
  destruct (owner sc) as [o|] eqn:Eo; [|by injection Hc as _ <-]. destruct written eqn:Ew; [|by injection Hc as _ <-].
  destruct (record_pending _ _ _ _ _ _ _ _ _ _ _ _ _ _ _) as [st1|] eqn:E; [|by injection Hc as _ <-]. injection Hc as <- <-.
  unfold record_pending in E. destruct (opened key0 st) as [key t] eqn:Ek.
  match type of E with (if ?b then _ else _) = _ => destruct b eqn:Eb; [done|] end. injection E as <-.
  assert (Hrows : rows_ok es (key, t)).
  { unfold opened in Ek. destruct (file st) as [f|] eqn:Ef; cbn in Ek; [subst f; by apply Hr|injection Ek as <- <-].
    apply rows_none. }
  destruct Hrows as (H0 & H1 & H2). split.
  - unfold keeps_key. cbn. unfold opened in Ek. destruct (file st) as [f|]; [cbn in Ek; by subst f|done].
  - intros f [= <-]. split_and!; cbn [fst snd pendings rules].
    + match type of Eb with existsb (fun p0 => bool_decide (p_code p0 = p_code ?row)) _ = _ => apply (mint_pend row (rules t) (next_rule t) t now) end; done.
    + intros q i' [Hq _]%elem_filter Hi. apply elem_filter in Hq as [Hq _]. apply elem_of_app in Hq as [Hq|Hq%list_elem_of_singleton].
      * apply elem_filter in Hq as [Hq _]. apply minted_snoc. by apply (H1 q).
      * subst q. cbn in Hi |- *. unfold sorted_items in Hi. rewrite sort_by_perm, elem_of_remove_dups in Hi.
        apply list_elem_of_In, in_map_iff in Hi as (tv & <- & Htv%list_elem_of_In).
        exists es, [], i, true, key0, code, now, k, p, m, r, sc, tv. fold st. cbn [p_subject p_code p_id]. split_and!; try done; [by rewrite Hcode|].
        unfold next_code_of, opened in *. destruct (file st) as [f|]; cbn in Ek; [by subst f|by injection Ek as <- <-].
    + intros q i' Hq Hi. apply approved_snoc. by apply (H2 q).
Qed.

Lemma insert_always_says k s p m r items now t q : q ∈ rules (insert_always k s p m r items now t) ->
  q ∈ rules t \/ (r_subject q = s /\ r_items q = items).
Proof.
  unfold insert_always. destruct (existsb _ _); [by left|]. cbn. intros [?| ->%list_elem_of_singleton]%elem_of_app; [by left|by right].
Qed.

Lemma insert_rules_says scope now p t q : q ∈ rules (insert_rules scope ttl now p t) ->
  q ∈ rules t \/ (r_subject q = p_subject p /\ forall i, i ∈ r_items q -> i ∈ p_items p).
Proof.
  unfold insert_rules. destruct (bool_decide _).
  - unfold insert_once. cbn. intros [Hq _]%elem_filter. apply elem_of_app in Hq as [?| ->%list_elem_of_singleton]; [by left|by right].
  - destruct (of_kind _ _).
    + intros [?|[-> ->]]%insert_always_says; [by left|right]. split; [done|]. intros i Hi. by apply not_elem_of_nil in Hi.
    + assert (Hs : forall i, i ∈ sorted_items (p_items p) -> i ∈ p_items p).
      { intros i Hi. unfold sorted_items in Hi. by rewrite sort_by_perm, elem_of_remove_dups in Hi. }
      revert t Hs. induction (sorted_items (p_items p)) as [|i l IH]; intros t Hs; cbn [fold_left]; [by left|].
      intros H. apply IH in H as [H|?]; [|by right|intros j Hj; apply Hs; by right].
      apply insert_always_says in H as [?|[-> ->]]; [by left|right]. split; [done|]. intros j ->%list_elem_of_singleton. apply Hs. left.
Qed.

Lemma insert_rules_pendings scope now p t : same_pend t (insert_rules scope ttl now p t).
Proof.
  assert (Ha : forall k s p m r items now t, same_pend t (insert_always k s p m r items now t)).
  { intros. unfold insert_always. by destruct (existsb _ _). }
  unfold insert_rules. destruct (bool_decide _); [done|]. destruct (of_kind _ _); [apply Ha|].
  revert t. induction (sorted_items (p_items p)) as [|i l IH]; intros t; cbn [fold_left]; [done|].
  destruct (IH (insert_always (p_kind p) (p_subject p) (p_provider p) (p_method p) (p_route p) [i] now t)) as [E1 E2].
  destruct (Ha (p_kind p) (p_subject p) (p_provider p) (p_method p) (p_route p) [i] now t) as [E3 E4]. split; congruence.
Qed.

Lemma approve_rows es scope approver how now : (forall f, file (w_store (run es)) = Some f -> rows_ok es f) ->
  let st' := (approve sha256_hex isprintable ttl scope approver how now (w_store (run es))).2 in
  keeps_key (w_store (run es)) st' /\ forall f, file st' = Some f -> rows_ok (es ++ [Approve scope approver how now]) f.
Proof.
  intros Hr. cbv zeta. set (st := w_store (run es)) in *. set (e := Approve _ _ _ _).
  assert (Hsame : keeps_key st st /\ forall f, file st = Some f -> rows_ok (es ++ [e]) f) by (split; [by intros x|]; intros f Hf; by apply rows_snoc, Hr).
  destruct Hsame as [Hk Hrow]. destruct (approve sha256_hex isprintable ttl scope approver how now st) as [res st'] eqn:Ea. cbn. assert (Ea' := Ea).
  unfold approve in Ea. destruct (negb _); [by injection Ea as _ <-|]. destruct (named_row _ _) as [where_|] eqn:En; [|by injection Ea as _ <-].
  destruct (file st) as [[key t]|] eqn:Ef; [|injection Ea as _ <-; split; [by intros x|by rewrite Ef]].
  destruct (List.find _ _) as [p|] eqn:Ep; [|injection Ea as _ <-; split; [by intros x|by rewrite Ef]].
  destruct (negb (bool_decide (p_subject p = default [] approver))) eqn:Eo; [injection Ea as _ <-; split; [by intros x|by rewrite Ef]|].
  apply negb_false_iff, bool_decide_eq_true in Eo. apply List.find_some in Ep as [Hp%list_elem_of_In [Hw _]%andb_true_iff].
  injection Ea as Hres <-. destruct (Hr _ eq_refl) as (H0 & H1 & H2). split; [unfold keeps_key; cbn; by rewrite Ef|]. intros f [= <-]. cbn [fst snd].
  assert (Hpend : forall q, q ∈ pendings (insert_rules scope ttl now p (with_pendings (List.filter (fun q => negb (p_id q =? p_id p)) (pendings t)) t)) -> q ∈ pendings t).
  { intros q. rewrite (proj1 (insert_rules_pendings _ _ _ _)). cbn. by intros [Hq _]%elem_filter. }
  split_and!; cbn [fst snd].
  - destruct (insert_rules_pendings scope now p (with_pendings (List.filter (fun q => negb (p_id q =? p_id p)) (pendings t)) t)) as [E1 E2].
    eapply pend_sub; [rewrite E1; apply filter_is_sublist|by rewrite E2|done].
  - intros q i Hq Hi. apply minted_snoc. apply (H1 q); [by apply Hpend|done].
  - intros q i Hq Hi. apply insert_rules_says in Hq as [Hq|[Hs Hi']]; [apply approved_snoc; by apply (H2 q)|].
    exists es, [], scope, approver, how, now. eexists _, p. split_and!; [done|fold st; rewrite Ea'; cbn; by rewrite <- Hres|by rewrite Hs, Eo|done|by eapply named_row_names|].
    apply (H1 p); [done|]. by apply Hi'.
Qed.

Lemma on_scope_vouched es e w i (f : scope -> scope * store * list Z) : vouched es w ->
  (forall sc, w_scopes w !! i = Some sc -> let '(sc', st, _) := f sc in
     keeps_key (w_store w) st /\ (forall fl, file st = Some fl -> rows_ok (es ++ [e]) fl) /\ snap_ok st (es ++ [e]) sc') ->
  vouched (es ++ [e]) (on_scope w i f).
Proof.
  intros [Hr Hs] Hf. unfold on_scope. destruct (w_scopes w !! i) as [sc|] eqn:E.
  - specialize (Hf sc eq_refl). destruct (f sc) as [[sc' st] sent]. destruct Hf as (Hk & Hr' & Hs'). split; [done|]. cbn [w_scopes w_store].
    intros x (j & Hj)%list_elem_of_lookup. destruct (decide (j = i)) as [-> |Hne].
    + rewrite list_lookup_insert_eq in Hj by (by eapply lookup_lt_Some). by injection Hj as <-.
    + rewrite list_lookup_insert_ne in Hj by done. apply (snap_ok_keep (w_store w) st es e x x); [done..|]. apply Hs.
      apply list_elem_of_lookup. by exists j.
  - split; [intros fl Hfl; by apply rows_snoc, Hr|]. intros x Hx. apply (snap_ok_keep (w_store w) (w_store w) es e x x); [done|done|by intros k|by apply Hs].
Qed.

Lemma vouched_default es w : vouched es w -> rows_ok es (default ([], no_tables) (file (w_store w))).
Proof.
  intros [Hr _]. destruct (file (w_store w)) as [f|]; [by apply Hr|]. apply rows_none.
Qed.

Lemma allows_same read now st ty v sc : let sc' := (scope_allows hmac_hex read now st ty v sc).2 in
  let sc1 := (scope_snapshot read now st sc).2 in snap sc' = snap sc1 /\ owner sc' = owner sc1.
Proof.
  unfold scope_allows. destruct (scope_snapshot read now st sc) as [s sc1]. cbn [snd]. destruct (_ !! _); [done|]. by destruct (List.find _ _).
Qed.

Lemma route_same read now st k p m r sc : let sc' := (route_rule read now st k p m r sc).2 in
  let sc1 := (scope_snapshot read now st sc).2 in snap sc' = snap sc1 /\ owner sc' = owner sc1.
Proof. unfold route_rule. by destruct (scope_snapshot read now st sc). Qed.

Lemma use_route_same r sc : snap (use_route r sc) = snap sc /\ owner (use_route r sc) = owner sc.
Proof. unfold use_route. by destruct (bool_decide _). Qed.

Lemma store_vouched es e w st' : vouched es w -> keeps_key (w_store w) st' -> (forall f, file st' = Some f -> rows_ok (es ++ [e]) f) ->
  vouched (es ++ [e]) (World st' (w_scopes w) (w_sent w)).
Proof.
  intros [_ Hs] Hk Hr. split; [done|]. intros sc Hsc. apply (snap_ok_keep (w_store w) st' es e sc sc); [done..|by apply Hs].
Qed.

Lemma run_vouched es : vouched es (run es).
Proof.
  induction es as [|e es IH] using rev_ind; [split; [done|intros sc H; by apply not_elem_of_nil in H]|]. rewrite run_snoc.
  assert (Hst : forall st', tame (w_store (run es)) st' -> keeps_key (w_store (run es)) st' /\ forall f, file st' = Some f -> rows_ok (es ++ [e]) f).
  { intros st' Ht. split; [apply Ht|]. eapply tame_rows; [exact Ht|apply IH]. }
  assert (Hsame := Hst _ (tame_file (w_store (run es)) _ eq_refl)). assert (Hd := vouched_default _ _ IH).
  destruct e; cbn [step].
  - destruct IH as [Hr Hs]. split; [intros f Hf; by apply rows_snoc, Hr|]. cbn [w_scopes w_store].
    intros sc [Hsc| ->%list_elem_of_singleton]%elem_of_app; [|by intros s i Hi]. apply (snap_ok_keep (w_store (run es)) (w_store (run es)) es _ sc sc); [done|done|by intros k|by apply Hs].
  - apply on_scope_vouched; [done|]. intros sc Hsc. destruct Hsame as [Hk Hr']. split_and!; [done|done|].
    destruct (scope_snapshot_ok read now (w_store (run es)) es sc Hd) as (H1 & _ & H3); [by apply IH, list_elem_of_lookup; exists i|].
    destruct (allows_same read now (w_store (run es)) detector_type value sc) as [E1 E2]. eapply snap_ok_keep; [exact E1|exact E2|done|done].
  - apply on_scope_vouched; [done|]. intros sc Hsc. destruct Hsame as [Hk Hr'].
    destruct (scope_snapshot_ok read now (w_store (run es)) es sc Hd) as (H1 & _ & H3); [by apply IH, list_elem_of_lookup; exists i|].
    destruct (route_same read now (w_store (run es)) kind provider method route sc) as [E1 E2].
    destruct (route_rule read now (w_store (run es)) kind provider method route sc) as [r sc1]. split_and!; [done|done|].
    destruct r as [r|]; [destruct (use_route_same r sc1) as [E3 E4]|]; (eapply snap_ok_keep; [..|exact H1]); try done; cbn in *; congruence.
  - apply on_scope_vouched; [done|]. intros sc Hsc. destruct (refusal_code _ _ _ _ _ _ _ _ _ _ _ _ _ _ _) as [c st'] eqn:E.
    destruct (mint_rows es _ _ _ _ _ _ _ _ _ _ _ _ Hsc IH E) as [Hk Hr']. cbn. split_and!; [done|done|].
    eapply snap_ok_keep; [done|done|exact Hk|]. apply IH, list_elem_of_lookup. by exists i.
  - apply on_scope_vouched; [done|]. intros sc Hsc. destruct Hsame as [Hk Hr']. split_and!; [done|done|].
    eapply snap_ok_keep; [| |done|apply IH, list_elem_of_lookup; by exists i]; done.
  - apply on_scope_vouched; [done|]. intros sc Hsc. destruct (commit_same written now sc (w_store (run es))) as [E1 E2].
    destruct (Hst _ (commit_tame written now sc (w_store (run es)))) as [Hk Hr']. destruct (commit written now sc (w_store (run es))) as [[r sc'] st'].
    split_and!; [done|done|]. eapply snap_ok_keep; [exact E1|exact E2|done|]. apply IH, list_elem_of_lookup. by exists i.
  - apply on_scope_vouched; [done|]. intros sc Hsc. destruct (settle_tame sent written now sc (w_store (run es))) as (Ht & E1 & E2).
    destruct (Hst _ Ht) as [Hk Hr']. destruct (settle sent written now sc (w_store (run es))) as [sc' st'].
    split_and!; [done|done|]. eapply snap_ok_keep; [exact E1|exact E2|done|]. apply IH, list_elem_of_lookup. by exists i.
  - destruct (approve_rows es scope approver how now) as [Hk Hr']; [apply IH|]. by apply store_vouched.
  - destruct (Hst _ (revoke_tame entry_id subject (w_store (run es)))). by apply store_vouched.
  - destruct (Hst _ (flush_tame written now (w_store (run es)))). by apply store_vouched.
Qed.

(** C17: whatever requests, approvals, releases and revocations interleave, no one-time
    grant is in two hands: none was used by two requests sent upstream, none is held by
    two requests, and none a request holds or used is left for another to consume. *)
Theorem one_time_grants_used_once es :
  NoDup (held (run es) ++ w_sent (run es)) /\
  forall now i once, i ∈ held (run es) ++ w_sent (run es) -> i ∈ once -> consume now once (w_store (run es)) = (false, w_store (run es)).
Proof.
  destruct (run_ok es) as [H1 H2 H3 H4 H5]. split; [done|]. intros now i once Hi Hin.
  destruct (consume now once (w_store (run es))) as [[] st'] eqn:E.
  - exfalso. assert (Hs := consume_ok _ _ _ _ _ E (run_ok es)). apply sd_taken in Hs. apply list.NoDup_app in Hs as (_ & Hd & _). by apply (Hd i).
  - unfold consume in E. destruct (file _) as [[key t]|]; [|by injection E as <-]. destruct (fold_left _ _ _); [done|]. by injection E as <-.
Qed.

(** ** What an approval covers *)

Definition is_text (s : pystr) : Prop := Forall (fun c => 0 <= c <= 1114111) s.

Definition sp_char (c : Z) : pybytes :=
  if c <? 128 then [c] else if c <? 2048 then [192 + c / 64; 128 + c mod 64]
  else if c <? 65536 then [224 + c / 4096; 128 + c / 64 mod 64; 128 + c mod 64]
  else [240 + c / 262144; 128 + c / 4096 mod 64; 128 + c / 64 mod 64; 128 + c mod 64].

Lemma utf8_char_sp_eq c : 0 <= c <= 1114111 -> utf8_char_sp c = sp_char c.
Proof.
  intros H. unfold utf8_char_sp, utf8_char, sp_char, between.
  repeat match goal with |- context [?a <=? ?b] => destruct (Z.leb_spec a b) end; cbn;
    repeat match goal with |- context [?a <? ?b] => destruct (Z.ltb_spec a b) end; try lia; done.
Qed.

#[local] Ltac Zify.zify_post_hook ::= Z.to_euclidean_division_equations.

Lemma sp_char_inj c c' r r' : 0 <= c <= 1114111 -> 0 <= c' <= 1114111 -> sp_char c ++ r = sp_char c' ++ r' -> c = c' /\ r = r'.
Proof.
  intros H H'. unfold sp_char.
  repeat match goal with |- context [?a <? ?b] => destruct (Z.ltb_spec a b) end; cbn; intros E; injection E; intros;
    subst; try (split; [lia|done]); lia.
Qed.

Lemma surrogatepass_inj u v : is_text u -> is_text v -> utf8_surrogatepass u = utf8_surrogatepass v -> u = v.
Proof.
  revert v. induction u as [|c u IH]; intros v Hu Hv; destruct v as [|c' v]; [done| | |].
  - apply list.Forall_cons_1 in Hv as [Hc _]. cbn. rewrite utf8_char_sp_eq by done. unfold sp_char.
    repeat match goal with |- context [?a <? ?b] => destruct (a <? b) end; done.
  - apply list.Forall_cons_1 in Hu as [Hc _]. cbn. rewrite utf8_char_sp_eq by done. unfold sp_char.
    repeat match goal with |- context [?a <? ?b] => destruct (a <? b) end; done.
  - apply list.Forall_cons_1 in Hu as [Hc Hu], Hv as [Hc' Hv]. cbn. rewrite !utf8_char_sp_eq by done.
    intros [-> E]%sp_char_inj; [|done|done]. f_equal. by apply IH.
Qed.

(** C16: a value is let through only for a requester who was refused exactly it before --
    this value under this type -- in a request answered with a code minted for it, and who
    approved that very refusal themselves, by its code or its entry's number: approving
    another refusal, value, type or requester's never does, whatever else happened to the
    store.  The digest is taken to be injective, as HMAC-SHA-256's are for want of a
    collision. *)
Theorem override_covers_refused_value (hmac_inj : forall key x y, hmac_hex key x = hmac_hex key y -> x = y)
    es sc read now ty v sc' :
  sc ∈ w_scopes (run es) -> scope_allows hmac_hex read now (w_store (run es)) ty v sc = (true, sc') ->
  exists o es1 j written key0 code n kind provider method route es2 scope approver how n' entry es3 sc0 v',
    es = es1 ++ Refuse j written key0 code n kind provider method route :: es2 ++ Approve scope approver how n' :: es3 /\
    owner sc = Some o /\ w_scopes (run es1) !! j = Some sc0 /\ owner sc0 = Some o /\ (ty, v') ∈ refused sc0 /\
    (is_text v -> is_text v' -> v' = v) /\
    (refusal_code sha256_hex hmac_hex ttl max_pending max_total written key0 code n kind provider method route sc0 (w_store (run es1))).1 = Some code /\
    default [] approver = o /\
    (approve sha256_hex isprintable ttl scope approver how n'
       (w_store (run (es1 ++ Refuse j written key0 code n kind provider method route :: es2)))).1 = Ok entry /\
    match how with
    | ByCode c => code_hash sha256_hex c = code_hash sha256_hex code
    | ById pid => entry_number pid 112 = Ok (next_code_of (w_store (run es1)))
    end.
Proof.
  intros Hsc Ha. destruct (run_vouched es) as [Hr Hs].
  destruct (scope_snapshot_ok read now (w_store (run es)) es sc) as (Hok & Hsnap & Ho); [by apply vouched_default, run_vouched|by apply Hs|].
  unfold scope_allows in Ha. destruct (scope_snapshot read now (w_store (run es)) sc) as [s sc1]. cbn in Hok, Hsnap, Ho.
  set (i := item_of hmac_hex (w_store (run es)) ty v) in Ha.
  assert (Hv : values_of s i).
  { destruct (always_values s !! i) as [r|] eqn:E; [left; by eexists|]. destruct (List.find _ _) as [g|] eqn:Eg; [|done].
    apply List.find_some in Eg as [Hg%list_elem_of_In Hi%bool_decide_eq_true]. right. by exists g. }
  destruct (Hok s i Hsnap Hv) as (key & o & Hkey & Hown & es' & es3 & scope & ap & how & n' & entry & row & -> & Happ & Hap & Hsub & Hname & Hm).
  destruct Hm as (es1 & es2 & j & w & k0 & code & n & kind & p & m & r & sc0 & [ty' v'] & -> & Hj & Ho0 & Hcode & Hrow & Hid & Hin & Hi).
  unfold i, item_of in Hi. rewrite Hkey in Hi. cbn in Hi. injection Hi as <- Hd.
  exists o, es1, j, w, k0, code, n, kind, p, m, r, es2, scope, ap, how, n', entry, es3, sc0, v'.
  rewrite <- app_assoc. cbn [app]. rewrite Ho in Hown. rewrite Hsub in Ho0. split_and!; try done.
  - intros Hv1 Hv2. unfold digest in Hd. apply hmac_inj in Hd. apply app_inv_head, app_inv_head in Hd. injection Hd as Hd. symmetry. by apply surrogatepass_inj.
  - destruct how as [c|pid]; cbn [names] in Hname; [by rewrite <- Hname|by rewrite <- Hid].
Qed.

(** An approval that fails changes nothing; one that succeeds takes the pending code of
    the approver's own unexpired refusal, which nothing approves again; and there are never
    more pending codes than the bounds, for the install or for one requester. *)
Theorem approval_takes_one_code es scope approver how now :
  let st := w_store (run es) in
  (forall key t, file st = Some (key, t) -> (length (pendings t) <= max_total)%nat /\
     forall s, (length (List.filter (fun p => bool_decide (p_subject p = s)) (pendings t)) <= max_pending)%nat) /\
  match approve sha256_hex isprintable ttl scope approver how now st with
  | (Raise _, st') => st' = st
  | (Ok entry, st') => exists key t p, file st = Some (key, t) /\ p ∈ pendings t /\ now < p_expires p /\
      p_subject p = default [] approver /\ e_id entry = lit "p" ++ str_of_nat (p_id p) /\
      forall code scope' approver' now', p_code p = code_hash sha256_hex code ->
        (approve sha256_hex isprintable ttl scope' approver' (ByCode code) now' st').2 = st' /\
        exists why, (approve sha256_hex isprintable ttl scope' approver' (ByCode code) now' st').1 = Raise why
  end.
Proof.
  cbv zeta. destruct (run_vouched es) as [Hr _]. set (st := w_store (run es)) in *. split.
  { intros key t Hf. destruct (Hr _ Hf) as [[_ _ H1 H2] _]. done. }
  destruct (approve sha256_hex isprintable ttl scope approver how now st) as [res st'] eqn:E. unfold approve in E.
  destruct (negb _); [by injection E as <- <-|]. destruct (named_row _ _) as [where_|]; [|by injection E as <- <-].
  destruct (file st) as [[key t]|] eqn:Ef; [|by injection E as <- <-].
  destruct (List.find _ _) as [p|] eqn:Ep; [|by injection E as <- <-].
  destruct (negb (bool_decide (p_subject p = default [] approver))) eqn:Eo; [by injection E as <- <-|].
  apply negb_false_iff, bool_decide_eq_true in Eo. apply List.find_some in Ep as [Hp%list_elem_of_In Hl].
  apply andb_true_iff in Hl as [_ Hl%Z.ltb_lt]. injection E as <- <-. exists key, t, p. split_and!; try done.
  destruct (Hr _ eq_refl) as [[Hc _ _ _] _]. cbn in Hc. intros code scope' approver' now' Hcode.
  unfold approve. destruct (negb _); [split; [done|by eexists]|]. cbn [named_row file with_file].
  destruct (List.find _ _) as [q|] eqn:Eq; [exfalso|split; [done|by eexists]].
  apply List.find_some in Eq as [Hq%list_elem_of_In Hh]. apply andb_true_iff in Hh as [Hh%bool_decide_eq_true _].
  rewrite (proj1 (insert_rules_pendings _ _ _ _)) in Hq. cbn in Hq. apply elem_filter in Hq as [Hq Hne].
  assert (q = p) as ->; [|by rewrite Z.eqb_refl in Hne].
  apply (NoDup_map_elem p_code (pendings t)); [by apply NoDup_ListNoDup|done|done|by rewrite Hh, Hcode].
Qed.
End World.

(** The local operator's request is refused a value, approves it once and asks again. *)
Definition approving : list event :=
  [New_scope (Some []) true; Ask 0 true 10 (lit "API_KEY") (lit "sk-1");
   Refuse 0 true [7] (lit "0123456789AB") 10 (lit "block") (lit "openai") (lit "POST") (lit "/v1");
   Approve ONCE None (ByCode (lit "0123456789AB")) 20; New_scope (Some []) true].

Lemma override_covers_refused_value_witness :
  let w := run (fun x => x) (fun _ x => x) (fun _ => true) 900 256 4096 approving in
  let sc := new_scope (Some []) true in
  sc ∈ w_scopes w /\ (scope_allows (fun _ x => x) true 30 (w_store w) (lit "API_KEY") (lit "sk-1") sc).1 = true /\
  (scope_allows (fun _ x => x) true 30 (w_store w) (lit "API_KEY") (lit "sk-2") sc).1 = false /\
  exists o es1 e es2 sc0 v', approving = es1 ++ e :: es2 /\
    w_scopes (run (fun x => x) (fun _ x => x) (fun _ => true) 900 256 4096 es1) !! 0%nat = Some sc0 /\ owner sc0 = Some o /\
    (lit "API_KEY", v') ∈ refused sc0.
Proof.
  cbv zeta. assert (Hin : new_scope (Some []) true ∈ w_scopes (run (fun x => x) (fun _ x => x) (fun _ => true) 900 256 4096 approving)).
  { vm_compute. right. left. }
  assert (Ha : (scope_allows (fun _ x => x) true 30 (w_store (run (fun x => x) (fun _ x => x) (fun _ => true) 900 256 4096 approving))
                  (lit "API_KEY") (lit "sk-1") (new_scope (Some []) true)).1 = true) by (vm_compute; reflexivity).
  split; [exact Hin|]. split; [exact Ha|]. split; [vm_compute; reflexivity|].
  destruct (scope_allows _ _ _ _ _ _ _) as [b sc'] eqn:E in Ha. cbn in Ha. subst b.
  destruct (override_covers_refused_value (fun x => x) (fun _ x => x) (fun _ => true) 900 256 4096 (fun _ _ _ H => H) approving
              (new_scope (Some []) true) true 30 (lit "API_KEY") (lit "sk-1") sc' Hin E)
    as (o & es1 & j & w & k0 & c & n & kd & p & m & r & es2 & s & ap & how & n' & en & es3 & sc0 & v' & He & _ & Hj & Ho & Hv & _).
  exists o, es1, (Refuse j w k0 c n kd p m r), (es2 ++ Approve s ap how n' :: es3), sc0, v'. split_and!; [exact He| |exact Ho|exact Hv].
  destruct j as [|j]; [exact Hj|exfalso]. destruct es1 as [|? [|? [|? [|? [|? [|? es1]]]]]]; discriminate He.
Defined.
