(* ===== verification/SqliteVault.v ===== *)
(** * The durable vault -- src/llm_redact/vault.py, SqliteVault and SqliteVaultManager

    The sqlite file is its tables, the rows in insertion order; a process is a
    connection with the views over it and the batch open on it.  A write transaction
    excludes every other connection's, as BEGIN IMMEDIATE does; readers see what is
    committed, a connection its own uncommitted rows besides.  The cipher is a parameter,
    as for [EncryptedInMemoryVault]; without one the index and the stored value are the
    value itself.  A row that repeats a UNIQUE column is never inserted ([insert_unique]), so
    the constraints need no check.  A deleted session's response and handle rows, deleted
    with it, are MapWriter's.  The file's creation, migrations and key rotation are left out. *)

From S2P Require Import Prelude Placeholders Vault.

(** ** The tables *)

Record mapping := Mapping { m_session : pystr; m_type : pystr; m_index : pystr; m_stored : pybytes; m_placeholder : pystr; m_n : Z }.

Record db := Db { mappings : list mapping; retired : gmap pystr Z }.

Definition empty_db : db := Db [] ∅.

(** [_retired_number] *)
Definition retired_number (d : db) (session : pystr) : Z := default 0 (retired d !! session).

(** [COALESCE(MAX(n), 0)] *)
Definition max_n (rows : list mapping) : Z := fold_right Z.max 0 (map m_n rows).

Definition of_session (session : pystr) (r : mapping) : bool := bool_decide (m_session r = session).

(** [delete_sessions]: how many held mappings, and the tables after it. *)
Definition delete_sessions (sessions : gset pystr) (d : db) : nat * db :=
  let gone r := bool_decide (m_session r ∈ sessions) in
  let held := List.filter (fun s => existsb (of_session s) (mappings d)) (elements sessions) in
  let retire m s := <[s := Z.max (max_n (List.filter (of_session s) (mappings d))) (retired_number d s)]> m in
  (length held, Db (List.filter (fun r => negb (gone r)) (mappings d)) (fold_left retire held (retired d))).

(** ** One session's view *)

Record view := View { forward : gmap pystr pystr; reverse : gmap pystr pystr; staged_forward : gmap pystr pystr;
  staged_reverse : gmap pystr pystr; epoch : Z }.

(** The errors a request meets: the vault's own, or the database's. *)
Inductive sqlite_error : Type := VaultError (e : vault_error) | DatabaseError.

Section Vault.
Context (mac : pystr -> pystr -> pystr -> pystr) (encrypt : pystr -> option pybytes) (decrypt : pybytes -> option pystr).

(** [_load]: all rows of the session, or nothing when one does not decrypt. *)
Fixpoint load_rows (rows : list mapping) (f r : gmap pystr pystr) : option (gmap pystr pystr * gmap pystr pystr) :=
  match rows with
  | [] => Some (f, r)
  | m :: rows =>
      match decrypt (m_stored m) with
      | Some original => load_rows rows (<[InMemoryVault.key (m_type m) original := m_placeholder m]> f) (<[m_placeholder m := original]> r)
      | None => None
      end
  end.

Definition load (d : db) (session : pystr) (staged : gmap pystr pystr * gmap pystr pystr) : option view :=
  '(f, r) ← load_rows (List.filter (of_session session) (mappings d)) ∅ ∅;
  Some (View f r staged.1 staged.2 (retired_number d session)).

(** [_insert] *)
Definition insert (session detector_type original : pystr) (floor : Z) (d : db) : result vault_error (pystr * db) :=
  let index := mac session detector_type original in
  match List.find (fun r => of_session session r && bool_decide (m_type r = detector_type) && bool_decide (m_index r = index)) (mappings d) with
  | Some row => Ok (m_placeholder row, d)
  | None =>
      let issued := max_n (List.filter (fun r => of_session session r && bool_decide (m_type r = detector_type)) (mappings d)) in
      match next_number (Z.max issued (retired_number d session)) floor detector_type with
      | Raise e => Raise e
      | Ok n =>
          let placeholder := format_placeholder detector_type n in
          match encrypt original with
          | None => Raise CipherFault
          | Some stored => Ok (placeholder, Db (mappings d ++ [Mapping session detector_type index stored placeholder n]) (retired d))
          end
      end
  end.

(** ** Processes sharing the file *)

(** [_Batch]: its transaction's tables once begun, and whether a write in it failed. *)
Record batch := Batch { working : option db; failure : bool }.

Record proc := Proc { open_batch : option batch; views : gmap pystr view }.

Definition new_proc : proc := Proc None ∅.

(** What a connection reads. *)
Definition seen (committed : db) (p : proc) : db := default committed (open_batch p ≫= working).

Definition begun (p : proc) : bool := match open_batch p ≫= working with Some _ => true | None => false end.

Definition with_view (session : pystr) (v : view) (p : proc) : proc := Proc (open_batch p) (<[session := v]> (views p)).
Definition with_batch (b : option batch) (p : proc) : proc := Proc b (views p).

(** [_revalidate], when the check is due: [readable] says the database answers. *)
Definition revalidate (due readable : bool) (committed : db) (session : pystr) (v : view) (p : proc) : view :=
  match open_batch p with
  | Some _ => v
  | None =>
      if due && readable && negb (retired_number committed session =? epoch v)
      then default v (load committed session (staged_forward v, staged_reverse v)) else v
  end.

(** [_remember] *)
Definition remember (key placeholder original : pystr) (v : view) (p : proc) : view :=
  match open_batch p with
  | None => View (<[key := placeholder]> (forward v)) (<[placeholder := original]> (reverse v)) (staged_forward v) (staged_reverse v) (epoch v)
  | Some _ => View (forward v) (reverse v) (<[key := placeholder]> (staged_forward v)) (<[placeholder := original]> (staged_reverse v)) (epoch v)
  end.

(** [_issue_alone] and [_issue_in]: [free] says no other connection holds the write lock,
    [fault] that the database fails.  The answer, the committed tables, and the batch. *)
Definition issue (free fault : bool) (session detector_type original : pystr) (floor : Z) (committed : db) (p : proc)
    : result sqlite_error pystr * db * option batch :=
  match open_batch p with
  | None =>
      if negb free || fault then (Raise DatabaseError, committed, None)
      else match insert session detector_type original floor committed with
           | Ok (placeholder, d) => (Ok placeholder, d, None)
           | Raise e => (Raise (VaultError e), committed, None)
           end
  | Some b =>
      match (match working b with Some d => Some d | None => if free then Some committed else None end) with
      | None => (Raise DatabaseError, committed, Some (Batch None true))
      | Some d =>
          if fault then (Raise DatabaseError, committed, Some (Batch (Some d) true))
          else match insert session detector_type original floor d with
               | Ok (placeholder, d) => (Ok placeholder, committed, Some (Batch (Some d) (failure b)))
               | Raise e => (Raise (VaultError e), committed, Some (Batch (Some d) true))
               end
      end
  end.

(** [placeholder_for] *)
Definition placeholder_for (due readable free fault : bool) (session detector_type original : pystr) (floor : Z) (v : view)
    (committed : db) (p : proc) : result sqlite_error pystr * db * proc :=
  let v := revalidate due readable committed session v p in
  let key := InMemoryVault.key detector_type original in
  match (match forward v !! key with Some t => Some t | None => staged_forward v !! key end) with
  | Some existing => (Ok existing, committed, with_view session v p)
  | None =>
      let '(answer, committed, b) := issue free fault session detector_type original floor committed p in
      match answer with
      | Ok placeholder => (answer, committed, with_batch b (with_view session (remember key placeholder original v p) p))
      | Raise _ => (answer, committed, with_batch b (with_view session v p))
      end
  end.

(** [original_for] *)
Definition original_for (due readable fault : bool) (session placeholder : pystr) (v : view) (committed : db) (p : proc)
    : result sqlite_error (option pystr) * proc :=
  let v := revalidate due readable committed session v p in
  match reverse v !! placeholder with
  | Some o => (Ok (Some o), with_view session v p)
  | None =>
      if fault then (Raise DatabaseError, with_view session v p)
      else match List.find (fun r => of_session session r && bool_decide (m_placeholder r = placeholder)) (mappings (seen committed p)) with
           | None => (Ok None, with_view session v p)
           | Some row =>
               match decrypt (m_stored row) with
               | None => (Raise (VaultError CipherFault), with_view session v p)
               | Some o => (Ok (Some o), with_view session (remember (InMemoryVault.key (m_type row) o) placeholder o v p) p)
               end
           end
  end.

(** [_keep_staged] and [_drop_staged] *)
Definition keep_staged (v : view) : view := View (staged_forward v ∪ forward v) (staged_reverse v ∪ reverse v) ∅ ∅ (epoch v).
Definition drop_staged (v : view) : view := View (forward v) (reverse v) ∅ ∅ (epoch v).

(** [batched], its start (the view it is asked on revalidated first) and its end:
    [returned] says the work returned, [commits] that the COMMIT succeeds. *)
Definition batch_begin (due readable : bool) (session : pystr) (v : view) (committed : db) (p : proc) : proc :=
  match open_batch p with
  | Some _ => p
  | None => Proc (Some (Batch None false)) (<[session := revalidate due readable committed session v p]> (views p))
  end.

Definition batch_end (returned commits : bool) (committed : db) (p : proc) : bool * db * proc :=
  match open_batch p with
  | None => (true, committed, p)
  | Some b =>
      if returned && negb (failure b) && (commits || negb (begun p))
      then (true, default committed (working b), Proc None (keep_staged <$> views p))
      else (false, committed, Proc None (drop_staged <$> views p))
  end.

(** [SqliteVaultManager.get]: a live view, or a new one loaded. *)
Definition get (session : pystr) (committed : db) (p : proc) : option (view * proc) :=
  match views p !! session with
  | Some v => Some (v, p)
  | None => v ← load (seen committed p) session (∅, ∅); Some (v, with_view session v p)
  end.

(** [_drop_views]: the deleted sessions' live views are loaded again. *)
Definition drop_views (sessions : gset pystr) (committed : db) (p : proc) : proc :=
  Proc (open_batch p) (map_imap (fun s v => if decide (s ∈ sessions) then Some (default v (load committed s (staged_forward v, staged_reverse v)))
                                            else Some v) (views p)).

(** [forget_sessions]; [prune_sessions] is the same for the sessions it finds idle. *)
Definition forget_sessions (free fault : bool) (sessions : gset pystr) (committed : db) (p : proc) : result sqlite_error nat * db * proc :=
  if negb free || fault then (Raise DatabaseError, committed, p)
  else let '(present, d) := delete_sessions sessions committed in (Ok present, d, drop_views sessions d p).

(** [session_count] and [total_entries] *)
Definition session_count (d : db) : nat := length (remove_dups (map m_session (mappings d))).
Definition total_entries (d : db) : nat := length (mappings d).
End Vault.
