(* ===== verification/SqliteFacts.v ===== *)
(** * A durable token never means two values -- src/llm_redact/vault.py

    Several processes over one file: requests, batches that commit or roll back, whole
    sessions deleted under live views, views dropped and reloaded, crashes.  A process has
    heard what was answered outside a batch or in one that committed, in whichever process,
    and what its own open batch has answered so far.  A batch that rolls back takes its
    answers with it: the request they were for is refused, and their numbers are issued again,
    to other values even ([rolled_back_number_reused]).  A run makes and drops views, and
    deletes sessions, between a process's batches: the work of one is synchronous, on a view
    it has ([batched]'s callers: one request, one upload, one realtime frame). *)

From S2P Require Import Prelude PyRegex Placeholders Vault SqliteVault.

(** What was ever issued: session, type, number, value. *)
Abbreviation fact := (pystr * pystr * Z * pystr)%type.

Lemma max_n_ge rows r : r ∈ rows -> m_n r <= max_n rows.
Proof.
  unfold max_n. induction rows as [|r' rows IH]; [intros H; by apply not_elem_of_nil in H|]. cbn.
  intros [-> |H]%elem_of_cons; [lia|]. specialize (IH H). lia.
Qed.

Lemma max_n_nonneg rows : 0 <= max_n rows.
Proof. unfold max_n. induction rows as [|r rows IH]; cbn; lia. Qed.

Lemma of_session_spec s r : of_session s r = true <-> m_session r = s.
Proof. unfold of_session. apply bool_decide_eq_true. Qed.

Lemma retired_db rows m s : retired_number (Db rows m) s = default 0 (m !! s).
Proof. done. Qed.

Section Facts.
Context (mac : pystr -> pystr -> pystr -> pystr) (encrypt : pystr -> option pybytes) (decrypt : pybytes -> option pystr).
Hypothesis cipher_roundtrip : forall o, exists c, encrypt o = Some c /\ decrypt c = Some o.
Hypothesis mac_inj : forall s ty o o', mac s ty o = mac s ty o' -> o = o'.

Lemma decrypt_encrypt o c : encrypt o = Some c -> decrypt c = Some o.
Proof. intros H. destruct (cipher_roundtrip o) as (c' & H1 & H2). congruence. Qed.

(** ** The tables and the facts *)

Definition fact_of (ever : list fact) (s tok o : pystr) : Prop :=
  exists ty n, tok = format_placeholder ty n /\ (s, ty, n, o) ∈ ever.

Record facts_ok (ever : list fact) : Prop := {
  f_range s ty n o : (s, ty, n, o) ∈ ever -> is_placeholder_type ty = true /\ 1 <= n <= MAX_TOKEN_NUMBER;
  f_fun s ty n o o' : (s, ty, n, o) ∈ ever -> (s, ty, n, o') ∈ ever -> o = o' }.

Record db_ok (ever : list fact) (d : db) : Prop := {
  d_row r : r ∈ mappings d -> exists o, (m_session r, m_type r, m_n r, o) ∈ ever /\
    m_placeholder r = format_placeholder (m_type r) (m_n r) /\ decrypt (m_stored r) = Some o /\
    m_index r = mac (m_session r) (m_type r) o;
  d_past s ty n o : (s, ty, n, o) ∈ ever -> n <= retired_number d s \/
    exists r, r ∈ mappings d /\ m_session r = s /\ m_type r = ty /\ m_n r = n;
  d_retired s : 0 <= retired_number d s }.

Lemma fact_of_fun ever s tok o o' : facts_ok ever -> fact_of ever s tok o -> fact_of ever s tok o' -> o = o'.
Proof.
  intros [Hr Hf] (ty & n & -> & H1) (ty' & n' & E & H2). destruct (Hr _ _ _ _ H1) as [Ht Hn], (Hr _ _ _ _ H2) as [Ht' Hn'].
  apply format_placeholder_inj in E as [<- <-]; [|lia..]. by eapply Hf.
Qed.

Lemma fact_mono ever ever' s tok o : (forall x, x ∈ ever -> x ∈ ever') -> fact_of ever s tok o -> fact_of ever' s tok o.
Proof. intros H (ty & n & -> & Hin). exists ty, n. auto. Qed.

(** A new row's number is above everything its session ever issued under its type. *)
Lemma fresh_number ever d s ty fl n : facts_ok ever -> db_ok ever d -> is_placeholder_type ty = true -> 0 <= fl ->
  next_number (Z.max (max_n (List.filter (fun r => of_session s r && bool_decide (m_type r = ty)) (mappings d))) (retired_number d s)) fl ty = Ok n ->
  1 <= n <= MAX_TOKEN_NUMBER /\ forall o', (s, ty, n, o') ∉ ever.
Proof.
  intros Hf Hd Hty Hfl En. set (rows := List.filter _ (mappings d)) in En. assert (Hm := max_n_nonneg rows). assert (Hr0 := d_retired _ _ Hd s).
  apply InMemoryVault.next_number_ok in En as (Hi & _ & Hn); [|lia|done]. split; [lia|].
  intros o' Hin. destruct (d_past _ _ Hd _ _ _ _ Hin) as [?|(r & Hr & Hs & Ht & Hrn)]; [lia|].
  assert (Hin' : r ∈ rows) by (apply elem_filter; split; [done|]; rewrite andb_true_iff, of_session_spec, bool_decide_eq_true; done).
  apply max_n_ge in Hin'. lia.
Qed.

(** The row an insert adds violates none of the table's UNIQUE constraints. *)
Lemma insert_unique ever d s ty o fl tok d' : facts_ok ever -> db_ok ever d -> is_placeholder_type ty = true -> 0 <= fl ->
  insert mac encrypt s ty o fl d = Ok (tok, d') -> d' = d \/
  exists row, mappings d' = mappings d ++ [row] /\ m_session row = s /\ m_placeholder row = tok /\
    forall r, r ∈ mappings d -> m_session r = s -> m_placeholder r <> tok /\ (m_type r = ty -> m_n r <> m_n row) /\
      (m_type r = ty -> m_index r <> m_index row).
Proof.
  intros Hf Hd Hty Hfl. unfold insert. destruct (List.find _ _) as [row|] eqn:E; [intros [= _ <-]; by left|].
  destruct (next_number _ fl ty) as [n|e] eqn:En; [|done]. destruct (encrypt o) as [c|] eqn:Ec; [|done]. intros [= <- <-]. right.
  destruct (fresh_number ever d s ty fl n Hf Hd Hty Hfl En) as [Hn Hnew]. eexists. cbn. split_and!; [done..|].
  intros r Hr Hs. destruct (d_row _ _ Hd r Hr) as (o' & Hin & Hp & _). rewrite Hs in Hin. destruct (f_range _ Hf _ _ _ _ Hin) as [Hty' Hn'].
  split_and!.
  - rewrite Hp. intros [Ht Hrn]%format_placeholder_inj; [|lia..]. rewrite Ht, Hrn in Hin. by apply Hnew in Hin.
  - intros Ht Hrn. rewrite Ht, Hrn in Hin. by apply Hnew in Hin.
  - intros Ht Hi. apply list_elem_of_In, (find_none _ _ E) in Hr. cbn in Hi.
    rewrite (proj2 (of_session_spec s r) Hs), !bool_decide_eq_true_2 in Hr; done.
Qed.

Lemma insert_ok ever d s ty o fl tok d' : facts_ok ever -> db_ok ever d -> is_placeholder_type ty = true -> 0 <= fl ->
  insert mac encrypt s ty o fl d = Ok (tok, d') ->
  exists ever', facts_ok ever' /\ db_ok ever' d' /\ (forall x, x ∈ ever -> x ∈ ever') /\ fact_of ever' s tok o.
Proof.
  intros Hf Hd Hty Hfl. unfold insert. destruct (List.find _ _) as [row|] eqn:E.
  - intros [= <- <-]. exists ever. split_and!; [done|done|done|]. apply List.find_some in E as [Hr%list_elem_of_In E].
    rewrite !andb_true_iff, of_session_spec, !bool_decide_eq_true in E. destruct E as [[Hs Ht] Hi].
    destruct (d_row _ _ Hd row Hr) as (o' & Hin & Hp & _ & Hm). rewrite Hs, Ht in *. exists ty, (m_n row).
    rewrite Hi in Hm. apply mac_inj in Hm as ->. done.
  - clear E. set (rows := List.filter _ (mappings d)). destruct (next_number _ fl ty) as [n|e] eqn:En; [|done].
    destruct (encrypt o) as [c|] eqn:Ec; [|done]. intros [= <- <-].
    destruct (fresh_number ever d s ty fl n Hf Hd Hty Hfl En) as [Hn Hnew].
    exists ((s, ty, n, o) :: ever). split_and!.
    + destruct Hf as [H1 H2]. split.
      * intros s' ty' n' o' [[= -> -> -> ->]|H]%elem_of_cons; [done|by eapply H1].
      * intros s' ty' n' o1 o2 [E1|Hi1]%elem_of_cons [E2|Hi2]%elem_of_cons; try congruence; [injection E1 as -> -> -> ->; by apply Hnew in Hi2|
          injection E2 as -> -> -> ->; by apply Hnew in Hi1|by eapply H2].
    + destruct Hd as [H1 H2 H3]. split; cbn.
      * intros r [Hr| ->%list_elem_of_singleton]%elem_of_app; [destruct (H1 r Hr) as (o' & Hin & H)|].
        { exists o'. split; [by right|done]. }
        { exists o. cbn. split_and!; [left|done|by eapply decrypt_encrypt|done]. }
      * intros s' ty' n' o' [[= -> -> -> ->]|H]%elem_of_cons.
        { right. eexists. split; [apply elem_of_app; right; by left|done]. }
        { destruct (H2 _ _ _ _ H) as [?|(r & Hr & Hrest)]; [by left|right]. exists r. split; [apply elem_of_app; by left|done]. }
      * done.
    + intros x Hx. by right.
    + exists ty, n. split; [done|]. left.
Qed.

Lemma fold_retire (held : list pystr) (d : db) (m : gmap pystr Z) (s : pystr) :
  let f := fold_left (fun (m : gmap pystr Z) s => <[s := Z.max (max_n (List.filter (of_session s) (mappings d))) (retired_number d s)]> m) held m in
  (s ∈ held -> f !! s = Some (Z.max (max_n (List.filter (of_session s) (mappings d))) (retired_number d s))) /\
  (s ∉ held -> f !! s = m !! s).
Proof.
  cbn. revert m. induction held as [|x held IH]; intros m; cbn [fold_left]; [split; [intros H; by apply not_elem_of_nil in H|done]|].
  destruct (IH (<[x := Z.max (max_n (List.filter (of_session x) (mappings d))) (retired_number d x)]> m)) as [H1 H2]. split.
  - intros Hs. destruct (decide (s ∈ held)) as [Hin|Hin]; [by apply H1|]. apply elem_of_cons in Hs as [-> |?]; [|done].
    rewrite H2 by done. apply lookup_insert_eq.
  - intros Hs. rewrite not_elem_of_cons in Hs. destruct Hs as [Hne Hin]. rewrite H2 by done. by rewrite lookup_insert_ne.
Qed.

Lemma delete_ok ever d sessions : db_ok ever d -> db_ok ever (delete_sessions sessions d).2.
Proof.
  intros [H1 H2 H3]. unfold delete_sessions. cbv zeta. cbn [snd]. set (held := List.filter _ (elements sessions)).
  assert (Hret : forall s : pystr, let f := fold_left (fun (m : gmap pystr Z) s => <[s := Z.max (max_n (List.filter (of_session s) (mappings d))) (retired_number d s)]> m) held (retired d) in
    (s ∈ held -> f !! s = Some (Z.max (max_n (List.filter (of_session s) (mappings d))) (retired_number d s))) /\ (s ∉ held -> f !! s = retired d !! s)).
  { intros s. apply fold_retire. }
  assert (Hheld : forall r, r ∈ mappings d -> m_session r ∈ sessions -> m_session r ∈ held).
  { intros r Hr Hs. apply elem_filter. split; [by apply elem_of_elements|]. apply existsb_exists. exists r.
    split; [by apply list_elem_of_In|by apply of_session_spec]. }
  split; cbn [mappings].
  - intros r [Hr _]%elem_filter. by apply H1.
  - intros s ty n o Hin. rewrite retired_db. destruct (Hret s) as [Ha Hb].
    destruct (H2 _ _ _ _ Hin) as [Hle|(r & Hr & Hs & Ht & Hn)].
    + left. destruct (decide (s ∈ held)) as [Hh|Hh]; [rewrite Ha by done; cbn; lia|rewrite Hb by done; exact Hle].
    + destruct (decide (s ∈ sessions)) as [Hd|Hd].
      * left. rewrite Ha by (subst s; by apply Hheld). cbn. assert (Hx : r ∈ List.filter (of_session s) (mappings d)).
        { apply elem_filter. split; [done|by apply of_session_spec]. }
        apply max_n_ge in Hx. lia.
      * right. exists r. split_and!; [|done..]. apply elem_filter. split; [done|]. rewrite Hs. by rewrite bool_decide_eq_false_2.
  - intros s. rewrite retired_db. destruct (Hret s) as [Ha Hb].
    destruct (decide (s ∈ held)) as [Hh|Hh]; [rewrite Ha by done; cbn; specialize (H3 s); lia|rewrite Hb by done; apply H3].
Qed.

(** ** Views *)

Definition cache_ok (ever : list fact) (s : pystr) (f r : gmap pystr pystr) : Prop :=
  (forall tok o, r !! tok = Some o -> fact_of ever s tok o) /\
  (forall k tok, f !! k = Some tok -> exists ty o, k = InMemoryVault.key ty o /\ is_placeholder_type ty = true /\ fact_of ever s tok o).

Definition view_ok (ever ever' : list fact) (s : pystr) (v : view) : Prop :=
  cache_ok ever s (forward v) (reverse v) /\ cache_ok ever' s (staged_forward v) (staged_reverse v).

Lemma cache_mono ever ever' s f r : (forall x, x ∈ ever -> x ∈ ever') -> cache_ok ever s f r -> cache_ok ever' s f r.
Proof.
  intros H [H1 H2]. split; [intros tok o Ho; eapply fact_mono; eauto|]. intros k tok Hk. destruct (H2 k tok Hk) as (ty & o & ? & ? & ?).
  exists ty, o. split_and!; [done|done|by eapply fact_mono].
Qed.

Lemma cache_empty ever s : cache_ok ever s ∅ ∅.
Proof. split; intros ? ?; by rewrite lookup_empty. Qed.

Lemma cache_insert ever s f r ty o tok : is_placeholder_type ty = true -> fact_of ever s tok o -> cache_ok ever s f r ->
  cache_ok ever s (<[InMemoryVault.key ty o := tok]> f) (<[tok := o]> r).
Proof.
  intros Hty Hf [H1 H2]. split.
  - intros t x. rewrite lookup_insert. case_decide; [intros [= <-]; by subst|apply H1].
  - intros k t. rewrite lookup_insert. case_decide; [intros [= <-]; subst; by exists ty, o|apply H2].
Qed.

Lemma cache_union ever s f r f' r' : cache_ok ever s f r -> cache_ok ever s f' r' -> cache_ok ever s (f ∪ f') (r ∪ r').
Proof.
  intros [H1 H2] [H3 H4]. split; intros ? ? H; apply lookup_union_Some_raw in H as [H|[_ H]]; eauto.
Qed.

Lemma row_fact ever d r : facts_ok ever -> db_ok ever d -> r ∈ mappings d ->
  exists o, decrypt (m_stored r) = Some o /\ is_placeholder_type (m_type r) = true /\ fact_of ever (m_session r) (m_placeholder r) o.
Proof.
  intros Hf Hd Hr. destruct (d_row _ _ Hd r Hr) as (o & Hin & Hp & Hdec & _). exists o. split_and!; [done|by eapply f_range|].
  exists (m_type r), (m_n r). done.
Qed.

Lemma load_rows_ok ever d s rows f r f' r' : facts_ok ever -> db_ok ever d -> (forall m, m ∈ rows -> m ∈ mappings d /\ m_session m = s) ->
  cache_ok ever s f r -> load_rows decrypt rows f r = Some (f', r') -> cache_ok ever s f' r'.
Proof.
  intros Hf Hd. revert f r. induction rows as [|m rows IH]; intros f r Hrows Hc; cbn; [intros [= <- <-]; done|].
  destruct (Hrows m ltac:(left)) as [Hm Hs]. destruct (row_fact _ _ _ Hf Hd Hm) as (o & -> & Hty & Hfact). apply IH; [intros x Hx; apply Hrows; by right|].
  rewrite Hs in Hfact. by apply cache_insert.
Qed.

Lemma load_ok ever ever' d s v v' : facts_ok ever -> db_ok ever d -> view_ok ever ever' s v ->
  load decrypt d s (staged_forward v, staged_reverse v) = Some v' -> view_ok ever ever' s v'.
Proof.
  intros Hf Hd [_ Hs] H. unfold load in H. apply bind_Some in H as ([f r] & H1 & [= <-]). split; [|done]. cbn.
  eapply (load_rows_ok ever d s _ ∅ ∅); [done|done| |apply cache_empty|exact H1].
  intros m [Hm E]%elem_filter. by apply of_session_spec in E.
Qed.

Lemma revalidate_ok ever ever' due readable c s v p : facts_ok ever -> db_ok ever c -> view_ok ever ever' s v ->
  view_ok ever ever' s (revalidate decrypt due readable c s v p).
Proof.
  intros Hf Hd Hv. unfold revalidate. destruct (open_batch p); [done|]. destruct (_ && _); [|done].
  destruct (load decrypt c s _) as [v'|] eqn:E; [|done]. cbn. by eapply load_ok.
Qed.

(** ** The processes *)

Definition answered : Type := list (pystr * pystr * pystr).

(** A process with the answers of its open batch. *)
Record wproc := WProc { the_proc : proc; answers : answered }.

Record world := World { w_db : db; w_procs : list wproc; w_hist : answered }.

Inductive event : Type :=
  | Start
  | Crash (i : nat)
  | Get (i : nat) (session : pystr)
  | Evict (i : nat) (session : pystr)
  | Issue (i : nat) (session detector_type original : pystr) (floor : Z) (due readable fault : bool)
  | Restore (i : nat) (session placeholder : pystr) (due readable fault : bool)
  | Begin (i : nat) (session : pystr) (due readable : bool)
  | End (i : nat) (returned commits : bool)
  | Forget (i : nat) (sessions : gset pystr) (fault : bool).

(** Whether no connection but [i]'s holds the write lock. *)
Definition free_for (w : world) (i : nat) : bool :=
  forallb (fun jp => (jp.1 =? i)%nat || negb (begun (the_proc jp.2))) (imap pair (w_procs w)).

(** An answer counts at once, or when the open batch commits. *)
Definition answer (entry : list (pystr * pystr * pystr)) (p : proc) (wp : wproc) (hist : answered) : wproc * answered :=
  match open_batch (the_proc wp) with
  | None => (WProc p (answers wp), hist ++ entry)
  | Some _ => (WProc p (answers wp ++ entry), hist)
  end.

Definition on_proc (w : world) (i : nat) (f : wproc -> db * wproc * answered) : world :=
  match w_procs w !! i with
  | Some wp => let '(d, wp, hist) := f wp in World d (<[i := wp]> (w_procs w)) hist
  | None => w
  end.

(** [batched] joins a batch's answers to the history when it commits and drops them when
    it rolls back; views come and go, and sessions are deleted, between batches. *)
Definition step (w : world) (e : event) : world :=
  let c := w_db w in let hist := w_hist w in
  match e with
  | Start => World c (w_procs w ++ [WProc new_proc []]) hist
  | Crash i => on_proc w i (fun _ => (c, WProc new_proc [], hist))
  | Get i s => on_proc w i (fun wp =>
      match open_batch (the_proc wp), get decrypt s c (the_proc wp) with
      | None, Some (_, p) => (c, WProc p (answers wp), hist)
      | _, _ => (c, wp, hist)
      end)
  | Evict i s => on_proc w i (fun wp =>
      match open_batch (the_proc wp) with
      | None => (c, WProc (Proc None (delete s (views (the_proc wp)))) (answers wp), hist)
      | Some _ => (c, wp, hist)
      end)
  | Issue i s ty o floor due readable fault => on_proc w i (fun wp =>
      match views (the_proc wp) !! s with
      | None => (c, wp, hist)
      | Some v => let '(r, c', p) := placeholder_for mac encrypt decrypt due readable (free_for w i) fault s ty o floor v c (the_proc wp) in
                  let '(wp, hist) := answer (match r with Ok tok => [(s, tok, o)] | Raise _ => [] end) p wp hist in (c', wp, hist)
      end)
  | Restore i s tok due readable fault => on_proc w i (fun wp =>
      match views (the_proc wp) !! s with
      | None => (c, wp, hist)
      | Some v => let '(r, p) := original_for decrypt due readable fault s tok v c (the_proc wp) in
                  let '(wp, hist) := answer (match r with Ok (Some o) => [(s, tok, o)] | _ => [] end) p wp hist in (c, wp, hist)
      end)
  | Begin i s due readable => on_proc w i (fun wp =>
      match views (the_proc wp) !! s with
      | None => (c, wp, hist)
      | Some v => (c, WProc (batch_begin decrypt due readable s v c (the_proc wp)) (answers wp), hist)
      end)
  | End i returned commits => on_proc w i (fun wp =>
      let '(ok, c', p) := batch_end returned commits c (the_proc wp) in
      (c', WProc p [], if ok then hist ++ answers wp else hist))
  | Forget i sessions fault => on_proc w i (fun wp =>
      match open_batch (the_proc wp) with
      | None => let '(_, c', p) := forget_sessions decrypt (free_for w i) fault sessions c (the_proc wp) in (c', WProc p (answers wp), hist)
      | Some _ => (c, wp, hist)
      end)
  end.

Definition run (es : list event) : world := fold_left step es (World empty_db [] []).

(** ** The invariant *)

Definition told (ever : list fact) (h : answered) : Prop := forall s tok o, (s, tok, o) ∈ h -> fact_of ever s tok o.

(** What a process knows: the committed facts and, in a batch, those it is writing. *)
Definition proc_ok (ever : list fact) (wp : wproc) : Prop :=
  exists ever', facts_ok ever' /\ (forall x, x ∈ ever -> x ∈ ever') /\
    match open_batch (the_proc wp) ≫= working with Some d => db_ok ever' d | None => ever' = ever end /\
    (open_batch (the_proc wp) = None -> answers wp = []) /\
    (forall s v, views (the_proc wp) !! s = Some v -> view_ok ever ever' s v) /\ told ever' (answers wp).

Record world_ok (ever : list fact) (w : world) : Prop := {
  wo_facts : facts_ok ever;
  wo_db : db_ok ever (w_db w);
  wo_hist : told ever (w_hist w);
  wo_procs i wp : w_procs w !! i = Some wp -> proc_ok ever wp;
  wo_lock i j p q : w_procs w !! i = Some p -> w_procs w !! j = Some q -> begun (the_proc p) = true -> begun (the_proc q) = true -> i = j }.

Lemma view_mono ever1 ever2 ever1' ever2' s v : (forall x, x ∈ ever1 -> x ∈ ever2) -> (forall x, x ∈ ever1' -> x ∈ ever2') ->
  view_ok ever1 ever1' s v -> view_ok ever2 ever2' s v.
Proof. intros H H' [H1 H2]. split; by eapply cache_mono. Qed.

Lemma told_mono ever ever' h : (forall x, x ∈ ever -> x ∈ ever') -> told ever h -> told ever' h.
Proof. intros H Ht s tok o Hin. eapply fact_mono; eauto. Qed.

Lemma told_app ever h s tok o : told ever h -> fact_of ever s tok o -> told ever (h ++ [(s, tok, o)]).
Proof. intros Ht Hf s' t' o' [Hin|[= -> -> ->]%list_elem_of_singleton]%elem_of_app; [by apply Ht|done]. Qed.

Lemma proc_put ever ever' b s v' p ans : facts_ok ever' -> (forall x, x ∈ ever -> x ∈ ever') ->
  match b ≫= working with Some d => db_ok ever' d | None => ever' = ever end -> (b = None -> ans = []) ->
  (forall s v, views p !! s = Some v -> view_ok ever ever' s v) -> view_ok ever ever' s v' -> told ever' ans ->
  proc_ok ever (WProc (Proc b (<[s := v']> (views p))) ans).
Proof.
  intros H1 H2 H3 H4 H5 H6 H7. exists ever'. cbn. split_and!; try done. intros s0 v0. rewrite lookup_insert. case_decide; [by intros [= <-]; subst|apply H5].
Qed.

Lemma proc_mono ever ever2 wp : begun (the_proc wp) = false -> facts_ok ever2 -> (forall x, x ∈ ever -> x ∈ ever2) ->
  proc_ok ever wp -> proc_ok ever2 wp.
Proof.
  intros Hb Hf Hm (ever' & H1 & H2 & H3 & H4 & H5 & H6). unfold begun in Hb. destruct (_ ≫= _) eqn:E; [done|]. subst ever'.
  exists ever2. rewrite E. split_and!; try done; [|by eapply told_mono]. intros s v Hv. eapply view_mono; [exact Hm|exact Hm|by apply H5].
Qed.

(** No process but [i] is writing. *)
Definition quiet (w : world) (i : nat) : Prop := forall j q, j <> i -> w_procs w !! j = Some q -> begun (the_proc q) = false.

Lemma free_quiet w i : free_for w i = true -> quiet w i.
Proof.
  unfold free_for. rewrite forallb_forall. intros H j q Hne Hj. specialize (H (j, q)). rewrite orb_true_iff in H. cbn in H.
  destruct H as [H|H]; [|by apply Nat.eqb_eq in H|by apply negb_true_iff in H]. apply list_elem_of_In, elem_of_lookup_imap. by exists j, q.
Qed.

Lemma begun_quiet ever w i wp : world_ok ever w -> w_procs w !! i = Some wp -> begun (the_proc wp) = true -> quiet w i.
Proof.
  intros Hw Hi Hb j q Hne Hj. destruct (begun (the_proc q)) eqn:E; [|done]. exfalso. apply Hne. by eapply (wo_lock _ _ Hw).
Qed.

(** What a process's step must keep. *)
Definition kept (ever : list fact) (w : world) (i : nat) (out : db * wproc * answered) : Prop :=
  let '(d, wp, hist) := out in
  exists ever2, (forall x, x ∈ ever -> x ∈ ever2) /\ facts_ok ever2 /\ db_ok ever2 d /\ told ever2 hist /\ proc_ok ever2 wp /\
    (ever2 = ever \/ quiet w i) /\ (begun (the_proc wp) = true -> quiet w i).

Lemma on_proc_ok ever w i f : world_ok ever w ->
  (forall wp, w_procs w !! i = Some wp -> proc_ok ever wp -> kept ever w i (f wp)) -> exists ever2, world_ok ever2 (on_proc w i f).
Proof.
  intros Hw Hf. unfold on_proc. destruct (w_procs w !! i) as [wp|] eqn:Ei; [|by exists ever]. specialize (Hf wp eq_refl (wo_procs _ _ Hw i wp Ei)).
  destruct (f wp) as [[d wp'] hist]. destruct Hf as (ever2 & Hm & H1 & H2 & H3 & H4 & H5 & H6). exists ever2.
  assert (Hlt : (i < length (w_procs w))%nat) by (by eapply lookup_lt_Some). split; cbn; try done.
  - intros j q Hj. destruct (decide (j = i)) as [-> |Hne]; [rewrite list_lookup_insert_eq in Hj by done; by injection Hj as <-|].
    rewrite list_lookup_insert_ne in Hj by done. destruct H5 as [-> |Hq]; [by eapply wo_procs|]. eapply proc_mono; [by eapply Hq|done|exact Hm|by eapply wo_procs].
  - intros j k p q Hj Hk Hbp Hbq.
    destruct (decide (j = i)) as [-> |Hji], (decide (k = i)) as [-> |Hki]; [done| | |].
    + rewrite list_lookup_insert_eq in Hj by done. injection Hj as <-. rewrite list_lookup_insert_ne in Hk by done.
      by rewrite (H6 Hbp k q Hki Hk) in Hbq.
    + rewrite list_lookup_insert_eq in Hk by done. injection Hk as <-. rewrite list_lookup_insert_ne in Hj by done.
      by rewrite (H6 Hbq j p Hji Hj) in Hbp.
    + rewrite list_lookup_insert_ne in Hj, Hk by done. by eapply (wo_lock _ _ Hw).
Qed.

Lemma told_nil ever : told ever [].
Proof. intros ? ? ? H. by apply not_elem_of_nil in H. Qed.

Lemma told_both ever h k : told ever h -> told ever k -> told ever (h ++ k).
Proof. intros H1 H2 s t o [H|H]%elem_of_app; [by apply H1|by apply H2]. Qed.

Lemma answer_kept ever w i wp c p entry ever2 ever2' : world_ok ever w -> proc_ok ever wp ->
  (forall x, x ∈ ever -> x ∈ ever2) -> facts_ok ever2 -> db_ok ever2 c -> facts_ok ever2' -> (forall x, x ∈ ever2 -> x ∈ ever2') ->
  match open_batch p ≫= working with Some d => db_ok ever2' d | None => ever2' = ever2 end ->
  (open_batch p = None <-> open_batch (the_proc wp) = None) -> (forall s v, views p !! s = Some v -> view_ok ever2 ever2' s v) ->
  told ever2' (answers wp) -> told ever2' entry -> (ever2 = ever \/ quiet w i) -> (begun p = true -> quiet w i) ->
  kept ever w i (let '(wp, hist) := answer entry p wp (w_hist w) in (c, wp, hist)).
Proof.
  intros Hw (e' & _ & _ & _ & Hans & _) Hm Hf Hc Hf' Hm' Hd Hob Hv Ha He Hq Hb. unfold answer.
  assert (Hh : told ever2 (w_hist w)) by (eapply told_mono; [exact Hm|apply Hw]).
  destruct (open_batch (the_proc wp)) as [b|] eqn:Eb; cbn [kept]; exists ever2; split_and!; try done.
  - exists ever2'. cbn. split_and!; try done; [by intros H%Hob|by apply told_both].
  - assert (Ho : open_batch p = None) by by apply Hob. rewrite Ho in Hd. cbn in Hd. subst ever2'. by apply told_both.
  - exists ever2'. cbn. split_and!; try done. intros _. by apply Hans.
Qed.

(** ** The requests *)

Lemma views_with ever ever' s v p : (forall s v, views p !! s = Some v -> view_ok ever ever' s v) -> view_ok ever ever' s v ->
  forall s0 v0, (<[s := v]> (views p) : gmap pystr view) !! s0 = Some v0 -> view_ok ever ever' s0 v0.
Proof. intros H Hv s0 v0. rewrite lookup_insert. case_decide; [by intros [= <-]; subst|apply H]. Qed.

Lemma remember_ok ever ever' s ty o tok v p : is_placeholder_type ty = true -> fact_of ever' s tok o ->
  (open_batch p = None -> ever' = ever) -> view_ok ever ever' s v ->
  view_ok ever ever' s (remember (InMemoryVault.key ty o) tok o v p).
Proof.
  intros Hty Hf Hb [H1 H2]. unfold remember. destruct (open_batch p); split; cbn; try done; [by apply cache_insert|].
  rewrite Hb in Hf by done. by apply cache_insert.
Qed.

Lemma view_hit ever ever' s v ty o tok : (forall x, x ∈ ever -> x ∈ ever') -> view_ok ever ever' s v -> is_placeholder_type ty = true ->
  (match forward v !! InMemoryVault.key ty o with Some t => Some t | None => staged_forward v !! InMemoryVault.key ty o end) = Some tok ->
  fact_of ever' s tok o.
Proof.
  intros Hm [[_ H1] [_ H2]] Hty. destruct (forward v !! _) as [t|] eqn:E.
  - intros [= ->]. destruct (H1 _ _ E) as (ty' & o' & Ek & Hty' & Hf). apply InMemoryVault.key_inj in Ek as [-> ->]; [|done..]. by eapply fact_mono.
  - intros E2. destruct (H2 _ _ E2) as (ty' & o' & Ek & Hty' & Hf). apply InMemoryVault.key_inj in Ek as [-> ->]; done.
Qed.

(** What the issue of one new value leaves. *)
Lemma issue_ok ever w i wp ever' s ty o fl fault r c' b' : world_ok ever w -> w_procs w !! i = Some wp ->
  is_placeholder_type ty = true -> 0 <= fl -> facts_ok ever' -> (forall x, x ∈ ever -> x ∈ ever') ->
  match open_batch (the_proc wp) ≫= working with Some d => db_ok ever' d | None => ever' = ever end ->
  issue mac encrypt (free_for w i) fault s ty o fl (w_db w) (the_proc wp) = (r, c', b') ->
  exists ever2 ever2', (forall x, x ∈ ever -> x ∈ ever2) /\ facts_ok ever2 /\ db_ok ever2 c' /\ facts_ok ever2' /\
    (forall x, x ∈ ever2 -> x ∈ ever2') /\ (forall x, x ∈ ever' -> x ∈ ever2') /\
    match b' ≫= working with Some d => db_ok ever2' d | None => ever2' = ever2 end /\
    (b' = None <-> open_batch (the_proc wp) = None) /\ (ever2 = ever \/ quiet w i) /\
    (begun (Proc b' ∅) = true -> quiet w i) /\ (forall tok, r = Ok tok -> fact_of ever2' s tok o).
Proof.
  intros Hw Hi Hty Hfl Hf' Hm' Hd. assert (Hbq := begun_quiet ever w i wp Hw Hi). unfold begun in *. cbn [open_batch]. unfold issue.
  destruct (open_batch (the_proc wp)) as [b|] eqn:Eb; cbn in Hd, Hbq.
  - destruct (working b) as [d|] eqn:Ew; cbn in Hd, Hbq.
    + assert (Hq := Hbq eq_refl). destruct fault; [intros [= <- <- <-]|destruct (insert _ _ s ty o fl d) as [[tok d']|e] eqn:Ei; intros [= <- <- <-]].
      1, 3: exists ever, ever'; split_and!; try done; try apply Hw; by left.
      destruct (insert_ok _ _ _ _ _ _ _ _ Hf' Hd Hty Hfl Ei) as (e2 & H1 & H2 & H3 & H4). exists ever, e2.
      split_and!; try done; try apply Hw; [by auto|by left|by intros tok' [= <-]].
    + subst ever'. destruct (free_for w i) eqn:Efree.
      * assert (Hq := free_quiet w i Efree).
        destruct fault; [intros [= <- <- <-]|destruct (insert _ _ s ty o fl (w_db w)) as [[tok d']|e] eqn:Ei; intros [= <- <- <-]].
        1, 3: exists ever, ever; split_and!; try done; try apply Hw; by left.
        destruct (insert_ok _ _ _ _ _ _ _ _ Hf' (wo_db _ _ Hw) Hty Hfl Ei) as (e2 & H1 & H2 & H3 & H4). exists ever, e2.
        split_and!; try done; try apply Hw; [by left|by intros tok' [= <-]].
      * intros [= <- <- <-]. exists ever, ever. split_and!; try done; try apply Hw. by left.
  - subst ever'. destruct (negb (free_for w i) || fault) eqn:Ef; [intros [= <- <- <-]|].
    + exists ever, ever. split_and!; try done; try apply Hw. by left.
    + apply orb_false_iff in Ef as [Efree%negb_false_iff _].
      destruct (insert _ _ s ty o fl (w_db w)) as [[tok d']|e] eqn:Ei; intros [= <- <- <-].
      * destruct (insert_ok _ _ _ _ _ _ _ _ Hf' (wo_db _ _ Hw) Hty Hfl Ei) as (e2 & H1 & H2 & H3 & H4). exists e2, e2.
        split_and!; try done; [right; by apply free_quiet|by intros tok' [= <-]].
      * exists ever, ever. split_and!; try done; try apply Hw. by left.
Qed.

Lemma issue_kept ever w i wp v s ty o fl due readable fault : world_ok ever w -> w_procs w !! i = Some wp -> proc_ok ever wp ->
  is_placeholder_type ty = true -> 0 <= fl -> views (the_proc wp) !! s = Some v ->
  kept ever w i (let '(r, c', p) := placeholder_for mac encrypt decrypt due readable (free_for w i) fault s ty o fl v (w_db w) (the_proc wp) in
    let '(wp, hist) := answer (match r with Ok tok => [(s, tok, o)] | Raise _ => [] end) p wp (w_hist w) in (c', wp, hist)).
Proof.
  intros Hw Hi Hp Hty Hfl Hs. pose proof Hp as (ever' & Hf' & Hm' & Hd & Ha & Hv & Ht).
  unfold placeholder_for. set (v1 := revalidate _ _ _ _ _ _ _).
  assert (Hv1 : view_ok ever ever' s v1) by (apply revalidate_ok; [apply Hw|apply Hw|by apply Hv]).
  destruct (match forward v1 !! _ with Some t => Some t | None => _ end) as [tok|] eqn:E.
  - apply (view_hit ever ever' s) in E; [|done..].
    eapply (answer_kept ever w i wp _ _ _ ever ever'); try done; try apply Hw; [by apply views_with| |by left|].
    + intros s' t' o' [= -> -> ->]%list_elem_of_singleton. done.
    + intros Hb. by eapply begun_quiet.
  - clear E. destruct (issue _ _ _ _ _ _ _ _ _ _) as [[r c'] b'] eqn:E.
    destruct (issue_ok _ _ _ _ _ _ _ _ _ _ _ _ _ Hw Hi Hty Hfl Hf' Hm' Hd E) as (e2 & e2' & A1 & A2 & A3 & A4 & A5 & A6 & A7 & A8 & A9 & A10 & A11).
    assert (Hv2 : forall s v, views (the_proc wp) !! s = Some v -> view_ok e2 e2' s v).
    { intros s0 v0 H0. eapply view_mono; [exact A1|exact A6|by apply Hv]. }
    assert (Hv3 : view_ok e2 e2' s v1) by (eapply view_mono; [exact A1|exact A6|done]).
    assert (Ht2 : told e2' (answers wp)) by by eapply told_mono.
    destruct r as [tok|e]; [assert (Hf : fact_of e2' s tok o) by by apply A11|];
      eapply (answer_kept ever w i wp _ _ _ e2 e2'); try done; try apply told_nil.
    + cbn. apply views_with; [done|]. apply remember_ok; [done|done| |done]. cbn. intros Hn. rewrite (proj2 A8 Hn) in A7. done.
    + intros s' t' o' [= -> -> ->]%list_elem_of_singleton. done.
    + cbn. by apply views_with.
Qed.

Lemma restore_kept ever w i wp v s tok due readable fault : world_ok ever w -> w_procs w !! i = Some wp -> proc_ok ever wp ->
  views (the_proc wp) !! s = Some v ->
  kept ever w i (let '(r, p) := original_for decrypt due readable fault s tok v (w_db w) (the_proc wp) in
    let '(wp, hist) := answer (match r with Ok (Some o) => [(s, tok, o)] | _ => [] end) p wp (w_hist w) in (w_db w, wp, hist)).
Proof.
  intros Hw Hi Hp Hs. pose proof Hp as (ever' & Hf' & Hm' & Hd & Ha & Hv & Ht).
  unfold original_for. set (v1 := revalidate _ _ _ _ _ _ _).
  assert (Hv1 : view_ok ever ever' s v1) by (apply revalidate_ok; [apply Hw|apply Hw|by apply Hv]).
  assert (Hkept : forall v2 entry, view_ok ever ever' s v2 -> told ever' entry ->
    kept ever w i (let '(wp, hist) := answer entry (with_view s v2 (the_proc wp)) wp (w_hist w) in (w_db w, wp, hist))).
  { intros v2 entry H2 He. eapply (answer_kept ever w i wp _ _ _ ever ever'); try done; try apply Hw; [by apply views_with|by left|].
    intros Hb. by eapply begun_quiet. }
  destruct (reverse v1 !! tok) as [o|] eqn:E.
  - apply Hkept; [done|]. intros s' t' o' [= -> -> ->]%list_elem_of_singleton. apply (fact_mono ever); [done|by apply Hv1].
  - destruct fault; [apply Hkept; [done|apply told_nil]|]. destruct (List.find _ _) as [row|] eqn:Ef; [|apply Hkept; [done|apply told_nil]].
    apply List.find_some in Ef as [Hr%list_elem_of_In Hrow]. rewrite andb_true_iff, of_session_spec, bool_decide_eq_true in Hrow. destruct Hrow as [<- <-].
    assert (Hdb : db_ok ever' (seen (w_db w) (the_proc wp))).
    { unfold seen. destruct (open_batch (the_proc wp) ≫= working); [done|]. subst ever'. apply Hw. }
    destruct (row_fact _ _ _ Hf' Hdb Hr) as (o & -> & Hty & Hfact). apply Hkept.
    + apply remember_ok; [done|done| |done]. intros Hn. rewrite Hn in Hd. done.
    + intros s' t' o' [= -> -> ->]%list_elem_of_singleton. done.
Qed.

(** A step that leaves the committed tables and the history as they are. *)
Lemma still_kept ever w i wp wp' : world_ok ever w -> w_procs w !! i = Some wp -> proc_ok ever wp' ->
  (begun (the_proc wp') = true -> begun (the_proc wp) = true) -> kept ever w i (w_db w, wp', w_hist w).
Proof.
  intros Hw Hi Hp Hb. exists ever. split_and!; try done; try apply Hw; [by left|]. intros H. by eapply begun_quiet, Hb.
Qed.

Lemma new_proc_ok ever : facts_ok ever -> proc_ok ever (WProc new_proc []).
Proof. intros Hf. exists ever. split_and!; try done. by apply told_nil. Qed.

Lemma begin_kept ever w i wp s v due readable : world_ok ever w -> w_procs w !! i = Some wp -> proc_ok ever wp -> views (the_proc wp) !! s = Some v ->
  kept ever w i (w_db w, WProc (batch_begin decrypt due readable s v (w_db w) (the_proc wp)) (answers wp), w_hist w).
Proof.
  intros Hw Hi Hp Hs. pose proof Hp as (ever' & Hf' & Hm' & Hd & Ha & Hv & Ht). unfold batch_begin.
  destruct (open_batch (the_proc wp)) as [b|] eqn:Eb; (apply (still_kept ever w i wp); [done|done| |done]).
  - by destruct wp.
  - cbn in Hd. subst ever'. exists ever. split_and!; try done. cbn. apply views_with; [done|].
    apply revalidate_ok; [done|apply Hw|by apply Hv].
Qed.

Lemma end_kept ever w i wp returned commits : world_ok ever w -> w_procs w !! i = Some wp -> proc_ok ever wp ->
  kept ever w i (let '(ok, c', p) := batch_end returned commits (w_db w) (the_proc wp) in
    (c', WProc p [], if ok then w_hist w ++ answers wp else w_hist w)).
Proof.
  intros Hw Hi Hp. pose proof Hp as (ever' & Hf' & Hm' & Hd & Ha & Hv & Ht). unfold batch_end.
  destruct (open_batch (the_proc wp)) as [b|] eqn:Eb.
  - cbn in Hd. destruct (_ && _ && _).
    + assert (Hdb : db_ok ever' (default (w_db w) (working b))) by (destruct (working b); [done|subst; apply Hw]).
      assert (Hq : ever' = ever \/ quiet w i).
      { destruct (working b) eqn:Ew; [right|by left]. eapply begun_quiet; [done|done|]. unfold begun. by rewrite Eb; cbn; rewrite Ew. }
      exists ever'. split_and!; try done; [apply told_both; [eapply told_mono; [exact Hm'|apply Hw]|done]|].
      exists ever'. cbn. split_and!; try done; [|apply told_nil]. intros s v. rewrite lookup_fmap.
      destruct (views (the_proc wp) !! s) as [v0|] eqn:E; [|done]. intros [= <-]. destruct (Hv s v0 E) as [H1 H2].
      split; cbn; [apply cache_union; [done|by eapply cache_mono]|apply cache_empty].
    + apply (still_kept ever w i wp); [done|done| |done]. exists ever. cbn. split_and!; try done; [apply Hw| |apply told_nil].
      intros s v. rewrite lookup_fmap. destruct (views (the_proc wp) !! s) as [v0|] eqn:E; [|done]. intros [= <-].
      split; cbn; [by apply (Hv s v0 E)|apply cache_empty].
  - rewrite (Ha eq_refl), app_nil_r. apply (still_kept ever w i wp); [done|done| |done].
    exists ever'. cbn. rewrite Eb. split_and!; try done. apply told_nil.
Qed.

Lemma get_kept ever w i wp s v p : world_ok ever w -> w_procs w !! i = Some wp -> proc_ok ever wp -> open_batch (the_proc wp) = None ->
  get decrypt s (w_db w) (the_proc wp) = Some (v, p) -> kept ever w i (w_db w, WProc p (answers wp), w_hist w).
Proof.
  intros Hw Hi Hp Eb. pose proof Hp as (ever' & Hf' & Hm' & Hd & Ha & Hv & Ht). unfold get, seen. rewrite Eb in *. cbn in Hd. subst ever'. cbn.
  destruct (views (the_proc wp) !! s) as [v0|] eqn:E; [intros [= <- <-]; destruct wp; eapply still_kept; done|].
  intros (v1 & Hl & [= <- <-])%bind_Some. apply (still_kept ever w i wp); try done.
  - exists ever. cbn. rewrite Eb. split_and!; try done. apply views_with; [done|].
    eapply (load_ok ever ever (w_db w) s (View ∅ ∅ ∅ ∅ 0)); [done|apply Hw|split; apply cache_empty|exact Hl].
Qed.

Lemma forget_kept ever w i wp sessions fault : world_ok ever w -> w_procs w !! i = Some wp -> proc_ok ever wp -> open_batch (the_proc wp) = None ->
  kept ever w i (let '(_, c', p) := forget_sessions decrypt (free_for w i) fault sessions (w_db w) (the_proc wp) in (c', WProc p (answers wp), w_hist w)).
Proof.
  intros Hw Hi Hp Eb. unfold forget_sessions. destruct (negb (free_for w i) || fault) eqn:Ef.
  - destruct wp. eapply still_kept; done.
  - apply orb_false_iff in Ef as [Hq%negb_false_iff%free_quiet _]. pose proof Hp as (ever' & Hf' & Hm' & Hd & Ha & Hv & Ht).
    rewrite Eb in *. cbn in Hd. subst ever'. pose proof (delete_ok ever (w_db w) sessions (wo_db _ _ Hw)) as Hdel.
    destruct (delete_sessions sessions (w_db w)) as [present d]. cbn in Hdel. exists ever. split_and!; try done; [apply Hw| |by left].
    exists ever. cbn. rewrite Eb. split_and!; try done. intros s v. rewrite map_lookup_imap.
    destruct (views (the_proc wp) !! s) as [v0|] eqn:E; [|done]. cbn. case_decide; intros [= <-]; [|by apply Hv].
    destruct (load decrypt d s _) as [v1|] eqn:El; [|by apply Hv]. cbn. by eapply load_ok; [| |by apply Hv|exact El].
Qed.

(** ** Whole runs *)

(** A value is asked for under a placeholder type, above a floor that is a number. *)
Definition valid_event (e : event) : Prop :=
  match e with Issue _ _ ty _ floor _ _ _ => is_placeholder_type ty = true /\ 0 <= floor | _ => True end.

Lemma start_ok ever w : world_ok ever w -> world_ok ever (World (w_db w) (w_procs w ++ [WProc new_proc []]) (w_hist w)).
Proof.
  intros [H1 H2 H3 H4 H5]. split; cbn; try done.
  - intros i wp [H|[_ [_ <-]%list_lookup_singleton_Some]]%lookup_app_Some; [by eapply H4|by apply new_proc_ok].
  - intros i j p q [Hi|[_ [_ <-]%list_lookup_singleton_Some]]%lookup_app_Some [Hj|[_ [_ <-]%list_lookup_singleton_Some]]%lookup_app_Some; try done.
    by apply H5.
Qed.

Lemma step_world_ok ever w e : valid_event e -> world_ok ever w -> exists ever2, world_ok ever2 (step w e).
Proof.
  intros Hv Hw.
  assert (Hsame : forall i wp, w_procs w !! i = Some wp -> proc_ok ever wp -> kept ever w i (w_db w, wp, w_hist w)).
  { intros i wp Hi Hp. by eapply still_kept. }
  destruct e as [ |i|i s|i s|i s ty o fl due rd fault|i s tok due rd fault|i s due rd|i rt cm|i ss fault]; cbn [step];
    [exists ever; by apply start_ok|apply (on_proc_ok ever); [done|]; intros wp Hi Hp..].
  - apply (still_kept ever w i wp); [done|done|apply new_proc_ok, Hw|done].
  - destruct (open_batch (the_proc wp)) eqn:Eb; [by apply Hsame|]. destruct (get _ _ _ _) as [[v p]|] eqn:Eg; [by eapply get_kept|by apply Hsame].
  - destruct (open_batch (the_proc wp)) eqn:Eb; [by apply Hsame|]. apply (still_kept ever w i wp); [done|done| |done].
    destruct Hp as (ever' & Hf' & Hm' & Hd & Ha & Hvw & Ht). rewrite Eb in *. exists ever'. cbn. split_and!; try done.
    intros s0 v0 [_ H]%lookup_delete_Some. by apply Hvw.
  - destruct (views (the_proc wp) !! s) as [v|] eqn:Es; [|by apply Hsame]. destruct Hv. by apply issue_kept.
  - destruct (views (the_proc wp) !! s) as [v|] eqn:Es; [|by apply Hsame]. by apply restore_kept.
  - destruct (views (the_proc wp) !! s) as [v|] eqn:Es; [|by apply Hsame]. by apply begin_kept.
  - by apply end_kept.
  - destruct (open_batch (the_proc wp)) eqn:Eb; [by apply Hsame|]. by apply forget_kept.
Qed.

Lemma empty_ok : world_ok [] (World empty_db [] []).
Proof.
  split; cbn; try done; try (intros ? ? ? H; by apply not_elem_of_nil in H).
  - split; intros *; [intros H|intros H _]; by apply not_elem_of_nil in H.
  - split; cbn; intros *; try (intros H; by apply not_elem_of_nil in H). done.
Qed.

Lemma run_world_ok es : Forall valid_event es -> exists ever, world_ok ever (run es).
Proof.
  unfold run. intros H. assert (Hi : exists ever, world_ok ever (World empty_db [] [])) by (exists []; apply empty_ok).
  revert Hi. generalize (World empty_db [] []). induction H as [|e es He _ IH]; intros w [ever Hw]; cbn [fold_left]; [by exists ever|].
  apply IH. by eapply step_world_ok.
Qed.

(** What process [i] goes by: the answers that stand, and its open batch's. *)
Definition heard (w : world) (i : nat) : answered := w_hist w ++ default [] (answers <$> w_procs w !! i).

Lemma heard_told ever w i : world_ok ever w -> exists ever', facts_ok ever' /\ told ever' (heard w i).
Proof.
  intros Hw. unfold heard. destruct (w_procs w !! i) as [wp|] eqn:E; cbn.
  - destruct (wo_procs _ _ Hw i wp E) as (ever' & Hf & Hm & _ & _ & _ & Ht). exists ever'. split; [done|].
    apply told_both; [|done]. eapply told_mono; [exact Hm|apply Hw].
  - exists ever. rewrite app_nil_r. split; apply Hw.
Qed.

(** C28: whatever the processes over one vault file do between one another -- new values
    issued alone or in batches, values looked up, views dropped and reloaded, whole sessions
    deleted under live views of them, writes refused, batches rolled back, processes killed
    -- any two answers for one token of one session, of work that was not rolled back
    (anyone's, and the open batch of the process asking), name one value.  The cipher
    decrypts what it encrypts, and the index of a value is no other value's. *)
Theorem durable_token_one_value es i s tok o o' : Forall valid_event es ->
  (s, tok, o) ∈ heard (run es) i -> (s, tok, o') ∈ heard (run es) i -> o = o'.
Proof.
  intros H Ho Ho'. destruct (run_world_ok es H) as [ever Hw]. destruct (heard_told ever _ i Hw) as (ever' & Hf & Ht). eapply fact_of_fun; [exact Hf|by apply Ht..].
Qed.
End Facts.

(** ** A run: two processes, a deletion under a live view, a rolled-back batch *)

(** Without a cipher the index and the stored value are the value itself. *)
Definition no_mac (session detector_type original : pystr) : pystr := original.

Definition sample : list event :=
  let s := lit "chat" in let ty := lit "EMAIL_ADDRESS" in
  [Start; Start; Get 0 s; Get 1 s; Issue 0 s ty (lit "a@x.io") 0 false true false; Restore 1 s (format_placeholder ty 1) false true false;
   Begin 1 s true true; Issue 1 s ty (lit "b@x.io") 0 false true false; End 1 false true;
   Issue 0 s ty (lit "c@x.io") 0 false true false; Forget 0 {[s]} false;
   Begin 1 s false true; Issue 1 s ty (lit "d@x.io") 0 false true false; End 1 true true;
   Restore 1 s (format_placeholder ty 1) false true false; Restore 1 s (format_placeholder ty 1) true true false].

(** Every answer [sample] gives for the first token, before and after the session's
    deletion, is the address it was issued for; and mid-batch, process 1 reads back the
    number it was given there as its own value. *)
Lemma durable_token_one_value_witness :
  let s := lit "chat" in let tok n := format_placeholder (lit "EMAIL_ADDRESS") n in
  (let h := heard (run no_mac Some Some sample) 1 in length (List.filter (fun x => bool_decide (x.1 = (s, tok 1))) h) = 3%nat /\
     Forall (fun x => x.1 = (s, tok 1) -> x.2 = lit "a@x.io") h) /\
  (let h := heard (run no_mac Some Some (firstn 8 sample ++ [Restore 1 s (tok 2) false true false])) 1 in
     length (List.filter (fun x => bool_decide (x.1 = (s, tok 2))) h) = 2%nat /\ Forall (fun x => x.1 = (s, tok 2) -> x.2 = lit "b@x.io") h).
Proof.
  split; (split; [by vm_compute|]); apply list.Forall_forall; intros [[s tok] o] Ho [= -> ->]; cbn [snd];
    [apply (durable_token_one_value no_mac Some Some) with (es := sample) (i := 1%nat) (s := lit "chat") (tok := format_placeholder (lit "EMAIL_ADDRESS") 1)|
     apply (durable_token_one_value no_mac Some Some) with (es := firstn 8 sample ++ [Restore 1 (lit "chat") (format_placeholder (lit "EMAIL_ADDRESS") 2) false true false])
       (i := 1%nat) (s := lit "chat") (tok := format_placeholder (lit "EMAIL_ADDRESS") 2)].
  all: try exact Ho; try (intros v; by exists v); try (by intros s ty v v'); try (apply list_elem_of_In; vm_compute; tauto).
  all: cbn [firstn app sample]; repeat (constructor; [done || (split; [by vm_compute|lia])|]); constructor.
Defined.

(** A rolled-back batch's number is issued to the next new value, whichever it is:
    in [sample] process 1 is given number 2 for one address, rolls back, and process 0
    is given number 2 for another. *)
Lemma rolled_back_number_reused :
  let s := lit "chat" in let tok := format_placeholder (lit "EMAIL_ADDRESS") 2 in
  (answers <$> w_procs (run no_mac Some Some (firstn 8 sample)) !! 1%nat) = Some [(s, tok, lit "b@x.io")] /\
  (s, tok, lit "c@x.io") ∈ w_hist (run no_mac Some Some sample).
Proof. split; [by vm_compute|]. apply list_elem_of_In. vm_compute. tauto. Qed.
