(* ===== verification/JsonFacts.v ===== *)
(** * Walks and places of JSON values

    The walks of JsonWalk as monadic maps over the items, places inside a value, and
    values of one shape: what the adapters' proofs share. *)

From S2P Require Import Prelude Json JsonWalk.

Local Open Scope mon_scope.

Lemma mbnd_ext {St E A B} (m : M St E A) (k k' : A -> M St E B) s :
  (forall a s, k a s = k' a s) -> mbnd m k s = mbnd m k' s.
Proof. intros H. unfold mbnd. destruct (m s) as [[a|e] s1]; [apply H|done]. Qed.

Lemma mbnd_run {St E A B} (m m' : M St E A) (k : A -> M St E B) s : m s = m' s -> mbnd m k s = mbnd m' k s.
Proof. intros H. unfold mbnd. by rewrite H. Qed.

(** A monadic map, in order. *)
Section MapM.
Context {St E A B : Type} (f : A -> M St E B).

Definition mapM : list A -> M St E (list B) :=
  fix go l := match l with [] => mret [] | x :: l' => x' <~ f x;; r <~ go l';; mret (x' :: r) end.
End MapM.

Lemma mapM_ok {St E A B} (f : A -> M St E B) x l s out s' : mapM f (x :: l) s = (Ok out, s') ->
  exists y ys s1, out = y :: ys /\ f x s = (Ok y, s1) /\ mapM f l s1 = (Ok ys, s').
Proof.
  cbn [mapM]. unfold mbnd, mret. destruct (f x s) as [[y|] s1] eqn:E1; [|done].
  destruct (mapM f l s1) as [[ys|] s2] eqn:E2; [|done]. intros [= <- <-]. by exists y, ys, s1.
Qed.

(** ** The walks over their items *)
Section Walks.
Context {St E : Type} (fn : pystr -> M St E pystr).

Definition opaque_item (kv : pystr * json) : M St E (pystr * json) := x <~ walk_opaque fn kv.2;; mret (kv.1, x).

Lemma walk_opaque_list l : walk_opaque fn (JList l) = (r <~ mapM (walk_opaque fn) l;; mret (JList r)).
Proof. done. Qed.

Lemma mapM_pairs (g : pystr * json -> M St E json) l s :
  mapM (fun kv => x <~ g kv;; mret (kv.1, x)) l s =
  (fix go (l : list (pystr * json)) : M St E (list (pystr * json)) :=
     match l with [] => mret [] | kv :: l' => x' <~ g kv;; r <~ go l';; mret ((kv.1, x') :: r) end) l s.
Proof.
  revert s. induction l as [|kv l IH]; intros s; [done|]. cbn [mapM]. unfold mbnd, mret in *.
  destruct (g kv s) as [[x|] s1]; [|done]. by rewrite IH.
Qed.

Lemma walk_opaque_dict l s : walk_opaque fn (JDict l) s = (r <~ mapM opaque_item l;; mret (JDict r)) s.
Proof.
  unfold opaque_item, mbnd at 1. rewrite (mapM_pairs (fun kv => walk_opaque fn kv.2)). cbn [walk_opaque]. unfold mbnd at 1.
  match goal with |- match ?a l s with _ => _ end = match ?b l s with _ => _ end => assert (Hab : forall l s, a l s = b l s) end.
  { clear. intros l. induction l as [|[k x] l IH]; intros s; [done|]. unfold mbnd. cbn. destruct (walk_opaque fn x s) as [[x'|] s1]; [|done].
    by rewrite IH. }
  by rewrite Hab.
Qed.

Context (skip : gset pystr) (over : pystr -> option (pystr -> M St E pystr)).

(** Whether the object is plaintext source. *)
Definition plaintext (items : list (pystr * json)) : bool :=
  match jget items (lit "type") with Some (JStr s) => bool_decide (s = lit "text") | _ => false end.

(** One item of an object. *)
Definition walk_value (plain : bool) (parent : option pystr) (kv : pystr * json) : M St E json :=
  match kv.2, over kv.1 with
  | JStr s, Some f => t <~ f s;; mret (JStr t)
  | _, _ =>
      if is_opaque parent kv.1 then walk_opaque fn kv.2
      else if bool_decide (kv.1 = lit "data") && plain && is_jstr kv.2 then
        match kv.2 with JStr s => t <~ fn s;; mret (JStr t) | _ => mret kv.2 end
      else if (bool_decide (kv.1 ∈ skip) && negb (is_container kv.2)) || is_enum_list parent kv.1 kv.2 || is_media parent kv.1 kv.2
      then mret kv.2 else walk fn skip over (Some kv.1) kv.2
  end.

Definition walk_item (plain : bool) (parent : option pystr) (kv : pystr * json) : M St E (pystr * json) :=
  x <~ walk_value plain parent kv;; mret (kv.1, x).

Lemma walk_list parent l : walk fn skip over parent (JList l) = (r <~ mapM (walk fn skip over parent) l;; mret (JList r)).
Proof. done. Qed.

Lemma walk_dict parent l s : walk fn skip over parent (JDict l) s = (r <~ mapM (walk_item (plaintext l) parent) l;; mret (JDict r)) s.
Proof.
  unfold walk_item, mbnd at 1. rewrite (mapM_pairs (walk_value (plaintext l) parent)). cbn [walk]. fold (plaintext l).
  generalize (plaintext l). intros plain. unfold mbnd at 1.
  match goal with |- match ?a l s with _ => _ end = match ?b l s with _ => _ end => assert (Hab : forall l s, a l s = b l s) end.
  { clear. intros l. induction l as [|[k x] l IH]; intros s; [done|].
    apply (mbnd_ext (walk_value plain parent (k, x))). intros x' s1. by apply mbnd_run. }
  by rewrite Hab.
Qed.
End Walks.

(** [_strings_in] of providers/base.py: every string value, keys never read. *)
Fixpoint strings_in (value : json) : list pystr :=
  match value with
  | JStr s => [s]
  | JList l => flat_map strings_in l
  | JDict l => flat_map (fun kv => strings_in kv.2) l
  | _ => []
  end.

(** All that the skip rules look at besides keys. *)
Definition flat (v : json) : bool := match v with JList l => negb (existsb is_container l) | _ => false end.

Definition same_kind (v w : json) : Prop := is_jstr v = is_jstr w /\ is_container v = is_container w /\ flat v = flat w.

Lemma mapM_Forall2 {St E A B} (f : A -> M St E B) (R : A -> B -> Prop) l s out s' :
  (forall x s y s', x ∈ l -> f x s = (Ok y, s') -> R x y) -> mapM f l s = (Ok out, s') -> Forall2 R l out.
Proof.
  revert s out. induction l as [|x l IH]; intros s out H Hm; [injection Hm as <- <-; constructor|].
  apply mapM_ok in Hm as (y & ys & s1 & -> & H1 & H2). constructor; [eapply H; [left|done]|]. eapply IH; [|done].
  intros ???? ?. apply H. by right.
Qed.

Lemma walk_kind {St E} (fn : pystr -> M St E pystr) skip over v : forall parent s w s',
  walk fn skip over parent v s = (Ok w, s') -> same_kind v w.
Proof.
  induction v as [|b|n|t|l IH|l IH] using json_ind'; intros parent s w s'; [by intros [= <- <-]..| | |].
  - cbn. unfold mbnd. destruct (fn t s) as [[t'|] s1]; [|done]. by intros [= <- <-].
  - rewrite walk_list. unfold mbnd at 1. destruct (mapM _ l s) as [[r|] s1] eqn:E1; [|done]. intros [= <- <-].
    unfold same_kind, flat. split_and!; [done|done|]. f_equal. apply (mapM_Forall2 _ (fun x y => is_container x = is_container y)) in E1.
    + clear IH. induction E1 as [|x y l r Hxy _ IHl]; cbn; [done|]. by rewrite Hxy, IHl.
    + intros x s2 y s3 Hx Hxy. rewrite list.Forall_forall in IH. by apply (IH x Hx) in Hxy as (_ & ? & _).
  - rewrite walk_dict. unfold mbnd at 1. destruct (mapM _ l s) as [[r|] s1] eqn:E1; [|done]. by intros [= <- <-].
Qed.

Lemma type_not_opaque parent : is_opaque parent (lit "type") = false.
Proof. unfold is_opaque. by rewrite bool_decide_eq_false_2 by by vm_compute. Qed.

#[local] Opaque is_opaque is_media is_enum_list.

(** ** A walk undone by another

    [fn] rewrites strings and may learn; [gn], run on what [fn] made under any state
    that kept what [fn] learned, gives the string back. *)
Section Inverse.
Context {St E St' E' : Type} (fn : pystr -> M St E pystr) (gn : pystr -> M St' E' pystr).
Context (good : St -> Prop) (grows : St -> St -> Prop) (P : pystr -> Prop) (final : St).
Hypothesis grows_refl : forall s, grows s s.
Hypothesis grows_trans : forall s1 s2 s3, grows s1 s2 -> grows s2 s3 -> grows s1 s3.
Hypothesis fn_undone : forall t s out s', good s -> P t -> fn t s = (Ok out, s') ->
  good s' /\ grows s s' /\ (grows s' final -> forall c, (gn out c).1 = Ok t).
Context (skip : gset pystr).
Hypothesis skip_type : lit "type" ∈ skip.

Abbreviation none := (fun _ => None).

Definition undone {A B} (W : A -> M St E B) (W' : B -> M St' E' A) (x : A) : Prop := forall s out s', good s -> W x s = (Ok out, s') ->
  good s' /\ grows s s' /\ (grows s' final -> forall c, (W' out c).1 = Ok x).

Lemma mapM_undone {A B} (W : A -> M St E B) (W' : B -> M St' E' A) l : Forall (undone W W') l -> undone (mapM W) (mapM W') l.
Proof.
  induction 1 as [|x l Hx _ IH]; intros s out s' Hg Hm; [injection Hm as <- <-; split_and!; done|].
  apply mapM_ok in Hm as (y & ys & s1 & -> & H1 & H2). destruct (Hx _ _ _ Hg H1) as (G1 & R1 & U1). destruct (IH _ _ _ G1 H2) as (G2 & R2 & U2).
  split_and!; [done|by eapply grows_trans|]. intros Hf c. cbn [mapM]. unfold mbnd. specialize (U1 ltac:(by eapply grows_trans) c).
  destruct (W' y c) as [r c1]. cbn in U1. subst r. specialize (U2 Hf c1). destruct (mapM W' ys c1) as [r c2]. cbn in U2. by subst r.
Qed.

Lemma flat_map_Forall {A} (g : A -> list pystr) l : Forall P (flat_map g l) -> Forall (fun x => Forall P (g x)) l.
Proof. induction l as [|x l IH]; cbn; [by constructor|]. intros [H1 H2]%Forall_app. constructor; auto. Qed.

Lemma undone_bind {A B} (W : A -> M St E B) (W' : B -> M St' E' A) (x : A) {C D} (k : A -> C) (h : B -> D)
    (V : C -> M St E D) (V' : D -> M St' E' C) :
  undone W W' x -> (forall s, V (k x) s = (y <~ W x;; mret (h y)) s) ->
  (forall y s s', W x s = (Ok y, s') -> forall c, V' (h y) c = (z <~ W' y;; mret (k z)) c) -> undone V V' (k x).
Proof.
  intros Hu HV HV' s out s' Hg. rewrite HV. unfold mbnd. destruct (W x s) as [[y|] s1] eqn:E1; [|done]. intros [= <- <-].
  destruct (Hu _ _ _ Hg E1) as (G & R & U). split_and!; [done|done|]. intros Hf c. rewrite (HV' _ _ _ E1). specialize (U Hf c).
  unfold mbnd. destruct (W' y c) as [r c1]. cbn in U. by subst r.
Qed.

Lemma fn_str_undone t : P t -> undone fn gn t.
Proof. intros HP s out s' Hg. by apply fn_undone. Qed.

Lemma ret_undone {A} (W : A -> M St E A) (W' : A -> M St' E' A) (x : A) :
  (forall s, W x s = (Ok x, s)) -> (forall c, W' x c = (Ok x, c)) -> undone W W' x.
Proof. intros H H' s out s' Hg. rewrite H. intros [= <- <-]. split_and!; [done|done|]. intros _ c. by rewrite H'. Qed.

Lemma walk_opaque_undone v : Forall P (strings_in v) -> undone (walk_opaque fn) (walk_opaque gn) v.
Proof.
  induction v as [|b|n|t|l IH|l IH] using json_ind'; cbn [strings_in]; intros HP; try by apply ret_undone.
  - apply (undone_bind fn gn t JStr JStr); [by apply fn_str_undone, (list.Forall_cons_1 _ _ _ HP)|done..].
  - apply (undone_bind (mapM (walk_opaque fn)) (mapM (walk_opaque gn)) l JList JList); [|done..].
    apply mapM_undone. apply flat_map_Forall in HP. rewrite list.Forall_forall in *. eauto.
  - apply (undone_bind (mapM (opaque_item fn)) (mapM (opaque_item gn)) l JDict JDict);
      [|intros; apply walk_opaque_dict|intros; apply walk_opaque_dict].
    apply mapM_undone. apply flat_map_Forall in HP. rewrite list.Forall_forall in *. intros [k x] Hx.
    apply (undone_bind (walk_opaque fn) (walk_opaque gn) x (pair k) (pair k)); [by apply (IH (k, x)), (HP (k, x))|done..].
Qed.

Lemma value_none {St0 E0} (f : pystr -> M St0 E0 pystr) plain parent k x : walk_value f skip none plain parent (k, x) =
  if is_opaque parent k then walk_opaque f x
  else if bool_decide (k = lit "data") && plain && is_jstr x then match x with JStr s => t <~ f s;; mret (JStr t) | _ => mret x end
  else if (bool_decide (k ∈ skip) && negb (is_container x)) || is_enum_list parent k x || is_media parent k x then mret x
  else walk f skip none (Some k) x.
Proof. by destruct x. Qed.

Lemma skips_kind parent k x y : same_kind x y ->
  (bool_decide (k ∈ skip) && negb (is_container y)) || is_enum_list parent k y || is_media parent k y =
  (bool_decide (k ∈ skip) && negb (is_container x)) || is_enum_list parent k x || is_media parent k x.
Proof.
  intros (H1 & H2 & H3). Transparent is_media is_enum_list. unfold is_media. rewrite H1, H2. do 2 f_equal. unfold is_enum_list. f_equal. unfold flat in H3.
  destruct x, y; done.
Qed.

Lemma item_undone plain parent k x : Forall P (strings_in x) ->
  (forall parent, undone (walk fn skip none parent) (walk gn skip none parent) x) ->
  undone (walk_item fn skip none plain parent) (walk_item gn skip none plain parent) (k, x).
Proof.
  intros HP IH. unfold walk_item.
  destruct (is_opaque parent k) eqn:E1; [|destruct (bool_decide (k = lit "data") && plain && is_jstr x) eqn:E2;
    [|destruct ((bool_decide (k ∈ skip) && negb (is_container x)) || is_enum_list parent k x || is_media parent k x) eqn:E3]].
  - apply (undone_bind (walk_opaque fn) (walk_opaque gn) x (pair k) (pair k)); [by apply walk_opaque_undone| |];
      intros; rewrite value_none, E1; cbn [fst snd]; reflexivity.
  - assert (exists t, x = JStr t) as [t ->].
    { apply andb_true_iff in E2 as [_ E2]. destruct x as [|b|n|t|l|l]; [discriminate E2..|by exists t|discriminate E2|discriminate E2]. }
    apply (undone_bind fn gn t (fun t => (k, JStr t)) (fun t => (k, JStr t))); [by apply fn_str_undone, (list.Forall_cons_1 _ _ _ HP)| |];
      intros; rewrite value_none, E1; [rewrite E2|change (is_jstr (JStr y)) with (is_jstr (JStr t)); rewrite E2]; unfold mbnd, mret;
      [destruct (fn t _) as [[]]|destruct (gn y _) as [[]]]; cbn [fst snd]; reflexivity.
  - apply (ret_undone (walk_item fn skip none plain parent) (walk_item gn skip none plain parent)); intros s; unfold walk_item;
      rewrite value_none, E1, E2, E3; cbn [fst snd]; reflexivity.
  - apply (undone_bind (walk fn skip none (Some k)) (walk gn skip none (Some k)) x (pair k) (pair k)); [apply IH| |].
    + intros s. rewrite value_none, E1, E2, E3; cbn [fst snd]; reflexivity.
    + intros y s s' Hy c. apply walk_kind in Hy. pose proof Hy as (H1 & _ & _). rewrite value_none, E1, <- H1, E2, (skips_kind _ _ x y Hy), E3. cbn [fst snd]. reflexivity.
Qed.

Lemma plaintext_kept plain parent l s r s' : mapM (walk_item fn skip none plain parent) l s = (Ok r, s') -> plaintext r = plaintext l.
Proof.
  unfold plaintext. revert s r. induction l as [|[k x] l IH]; intros s r Hm; [by injection Hm as <- <-|].
  apply mapM_ok in Hm as ([k' y] & ys & s1 & -> & H1 & H2). unfold walk_item in H1. cbn [fst] in H1. unfold mbnd, mret in H1.
  rewrite value_none in H1. cbn [jget].
  assert (k' = k) as -> by (destruct (if is_opaque parent k then _ else _) as [[]]; congruence).
  destruct (decide (k = lit "type")) as [-> |Hne]; [|by eapply IH].
  rewrite type_not_opaque in H1. cbn [andb] in H1.
  rewrite (bool_decide_eq_false_2 (lit "type" = lit "data")) in H1 by done. cbn [andb] in H1. rewrite (bool_decide_eq_true_2 _ skip_type) in H1. cbn [andb] in H1.
  destruct (_ || _) eqn:Es in H1; [by injection H1 as <- _|].
  apply orb_false_iff in Es as [[Es%negb_false_iff _]%orb_false_iff _].
  destruct (walk fn skip none (Some (lit "type")) x s) as [[w|] s2] eqn:Ew; [|done]. injection H1 as <- _. apply walk_kind in Ew as (_ & Hc & _).
  rewrite Es in Hc. destruct x, w; done.
Qed.

Lemma walk_undone v : forall parent, Forall P (strings_in v) -> undone (walk fn skip none parent) (walk gn skip none parent) v.
Proof.
  induction v as [|b|n|t|l IH|l IH] using json_ind'; cbn [strings_in]; intros parent HP; try by apply ret_undone.
  - apply (undone_bind fn gn t JStr JStr); [by apply fn_str_undone, (list.Forall_cons_1 _ _ _ HP)|done..].
  - apply (undone_bind (mapM (walk fn skip none parent)) (mapM (walk gn skip none parent)) l JList JList); [|done..].
    apply mapM_undone. apply flat_map_Forall in HP. rewrite list.Forall_forall in *. eauto.
  - apply (undone_bind (mapM (walk_item fn skip none (plaintext l) parent)) (mapM (walk_item gn skip none (plaintext l) parent)) l JDict JDict).
    + apply mapM_undone. apply flat_map_Forall in HP. rewrite list.Forall_forall in *. intros [k x] Hx.
      apply item_undone; [by apply (HP (k, x))|]. intros parent'. by apply (IH (k, x)), (HP (k, x)).
    + intros s. apply walk_dict.
    + intros r s s' Hr c. apply plaintext_kept in Hr. rewrite <- Hr. apply walk_dict.
Qed.
End Inverse.

(** ** A walk that changed nothing

    Where the transform leaves a measure of the state as it was only if it returns its text,
    a walk over which the measure stood still returned its value. *)
Section Settled.
Context {St E : Type} (fn : pystr -> M St E pystr) (measure : St -> Z) (skip : gset pystr).

Definition settles {A} (W : A -> M St E A) (x : A) : Prop := forall s out s', W x s = (Ok out, s') ->
  measure s <= measure s' /\ (measure s' = measure s -> out = x).

Hypothesis fn_settles : forall t, settles fn t.

Lemma mapM_settles {A} (W : A -> M St E A) l : Forall (settles W) l -> settles (mapM W) l.
Proof.
  induction 1 as [|x l Hx _ IH]; intros s out s' Hm; [injection Hm as <- <-; split; [lia|done]|].
  apply mapM_ok in Hm as (y & ys & s1 & -> & H1 & H2). apply Hx in H1 as [M1 E1]. apply IH in H2 as [M2 E2].
  split; [lia|]. intros Hm. rewrite E1, E2 by lia. done.
Qed.

Lemma settles_bind {A C} (W : A -> M St E A) (x : A) (k : A -> C) (V : C -> M St E C) :
  settles W x -> (forall s, V (k x) s = (y <~ W x;; mret (k y)) s) -> settles V (k x).
Proof.
  intros Hw HV s out s'. rewrite HV. unfold mbnd. destruct (W x s) as [[y|] s1] eqn:E1; [|done]. intros [= <- <-].
  apply Hw in E1 as [M1 H1]. split; [done|]. intros Hm. by rewrite H1.
Qed.

Lemma settles_ret {A} (W : A -> M St E A) (x : A) : (forall s, W x s = (Ok x, s)) -> settles W x.
Proof. intros H s out s'. rewrite H. intros [= <- <-]. split; [lia|done]. Qed.

Lemma walk_opaque_settles v : settles (walk_opaque fn) v.
Proof.
  induction v as [|b|n|t|l IH|l IH] using json_ind'; try by apply settles_ret.
  - by apply (settles_bind fn t JStr).
  - apply (settles_bind (mapM (walk_opaque fn)) l JList); [by apply mapM_settles|done].
  - apply (settles_bind (mapM (opaque_item fn)) l JDict); [|intros s; apply walk_opaque_dict]. apply mapM_settles.
    eapply list.Forall_impl; [exact IH|]. intros [k x] Hx. by apply (settles_bind (walk_opaque fn) x (pair k)).
Qed.

Lemma item_settles plain parent k x : (forall parent, settles (walk fn skip (fun _ => None) parent) x) ->
  settles (walk_item fn skip (fun _ => None) plain parent) (k, x).
Proof.
  intros IH. destruct (is_opaque parent k) eqn:E1; [|destruct (bool_decide (k = lit "data") && plain && is_jstr x) eqn:E2;
    [|destruct ((bool_decide (k ∈ skip) && negb (is_container x)) || is_enum_list parent k x || is_media parent k x) eqn:E3]].
  - apply (settles_bind (walk_opaque fn) x (pair k)); [apply walk_opaque_settles|]. intros s. unfold walk_item. by rewrite value_none, E1.
  - assert (exists t, x = JStr t) as [t ->].
    { apply andb_true_iff in E2 as [_ E2]. destruct x as [|b|n|t|l|l]; [discriminate E2..|by exists t|discriminate E2|discriminate E2]. }
    apply (settles_bind fn t (fun t => (k, JStr t))); [apply fn_settles|]. intros s. unfold walk_item. rewrite value_none, E1, E2. unfold mbnd, mret. by destruct (fn t s) as [[]].
  - apply settles_ret. intros s. unfold walk_item. by rewrite value_none, E1, E2, E3.
  - apply (settles_bind (walk fn skip (fun _ => None) (Some k)) x (pair k)); [apply IH|]. intros s. unfold walk_item. by rewrite value_none, E1, E2, E3.
Qed.

Lemma walk_settles v : forall parent, settles (walk fn skip (fun _ => None) parent) v.
Proof.
  induction v as [|b|n|t|l IH|l IH] using json_ind'; intros parent; try by apply settles_ret.
  - by apply (settles_bind fn t JStr).
  - apply (settles_bind (mapM (walk fn skip (fun _ => None) parent)) l JList); [|done]. apply mapM_settles. eapply list.Forall_impl; [exact IH|]. intros x Hx. apply Hx.
  - apply (settles_bind (mapM (walk_item fn skip (fun _ => None) (plaintext l) parent)) l JDict); [|intros s; apply walk_dict]. apply mapM_settles.
    eapply list.Forall_impl; [exact IH|]. intros [k x] Hx. by apply item_settles.
Qed.
End Settled.
