(* ===== verification/BodyRoundTrip.v ===== *)
(** * The round trip of whole bodies

    [Redactor.redact_json] of a parsed request body, undone by
    [Rehydrator.rehydrate_json]: the two walks skip the same places. *)

From S2P Require Import Prelude PyRegex Json Placeholders JsonWalk JsonFacts TokenSearch Vault Rehydrate.
From S2P Require Import Streaming Detection Overlaps Redactor Winners Redaction RoundTrip.

(** The two walks undo each other. *)
Lemma body_restored {V O} `{VaultLaws V} `{OverrideOps O} rd fuzzy body (s : rstate V O) out s' v counts :
  detector_ok rd -> vinv (vault s) -> Forall (fun t => mem_char LAQUO t = false) (strings_in body) ->
  redact_json rd body s = (Ok out, s') -> extends (vault s') v ->
  (rehydrate_json fuzzy (encrypted_content_passthrough rd) v counts out).1 = Ok body.
Proof.
  intros Hdk Hv Hp Hred Hext. unfold redact_json, rehydrate_json, transform_strings in *.
  set (final := set_vault v s').
  destruct (walk_undone (E' := Empty_set) (redact_text rd) (fun text counts => let (out, c) := rehydrate_text fuzzy v counts text in (Ok out, c))
    (fun s => vinv (vault s)) (fun s1 s2 => extends (vault s1) (vault s2)) (fun t => mem_char LAQUO t = false) final) with
    (skip := if encrypted_content_passthrough rd then STRUCTURAL_KEYS ∪ {[lit "encrypted_content"]} else STRUCTURAL_KEYS)
    (v := body) (parent := @None pystr) (s := s) (out := out) (s' := s') as (_ & _ & Hb); try done.
  - intros s1 t o. done.
  - intros s1 s2 s3. apply extends_trans.
  - intros t s1 o s2 Hv1 Ht Ho. destruct (redact_text_ok rd t s1 o s2 Hdk Hv1 Ho) as (_ & _ & _ & _ & Hv2 & He & _).
    split_and!; [done|done|]. intros Hf c. destruct (redacted_restores rd fuzzy t s1 o s2 v Hdk Hv1 Ht Ho Hf) as [_ Hr].
    specialize (Hr c). destruct (rehydrate_text fuzzy v c o) as [o' c']. cbn in *. by subst.
  - destruct (encrypted_content_passthrough rd); by vm_compute.
  - by apply Hb.
Qed.

(** Redacting a request body and restoring what was made of it gives the body back,
    field for field: the vault fills up string after string, and any vault that has kept
    what it knew at the end restores every one, in strict and in fuzzy mode, whatever
    the body's structure; no string may carry an opening guillemet. *)
Theorem body_round_trip {V O} `{VaultLaws V} `{OverrideOps O} rd fuzzy body (s : rstate V O) out s' v counts :
  detector_ok rd -> vinv (vault s) -> Forall (fun t => mem_char LAQUO t = false) (strings_in body) ->
  redact_json rd body s = (Ok out, s') -> extends (vault s') v ->
  (rehydrate_json fuzzy (encrypted_content_passthrough rd) v counts out).1 = Ok body.
Proof. apply body_restored. Qed.

(** *** A body with an address in a list of messages, under redaction *)
Definition demo_body : json :=
  JDict [(lit "model", JStr (lit "m")); (lit "messages", JList [JDict [(lit "role", JStr (lit "user")); (lit "content", JStr demo_text)];
         JDict [(lit "role", JStr (lit "user")); (lit "content", JStr (lit "again"))]])].

Lemma body_round_trip_witness :
  let r := redact_json demo_redactor demo_body demo_state in
  exists out, r.1 = Ok out /\ out <> demo_body /\ (rehydrate_json true false (vault r.2) ∅ out).1 = Ok demo_body.
Proof.
  intros r. destruct r as [[out|e] s'] eqn:E; [|vm_compute in E; discriminate E]. exists out. split_and!; [done| |].
  - vm_compute in E. injection E as <- _. vm_compute. discriminate.
  - apply (body_round_trip demo_redactor true demo_body demo_state out s').
    + apply demo_redactor_ok.
    + apply InMemoryVault.empty_inv.
    + repeat constructor.
    + exact E.
    + intros t o Ho. exact Ho.
Defined.
