(* ===== verification/Adapters.v ===== *)
(** * Provider adapters -- src/llm_redact/providers/base.py

    What every adapter's request goes through: MCP configuration and exempt MCP blocks
    kept out of the redaction, the route's verbatim fields scanned but never rewritten,
    its label fields redacted after the walk, and the note. *)

From S2P Require Import Prelude Json Placeholders JsonWalk JsonFacts Vault Detection Redactor.

Local Open Scope mon_scope.

(** A string value under a key. *)
Definition jstr (items : list (pystr * json)) (key : pystr) : option pystr :=
  match jget items key with Some (JStr s) => Some s | _ => None end.

(** [d.get(key)] with None as JSON's null. *)
Definition jget_null (items : list (pystr * json)) (key : pystr) : json := default JNull (jget items key).

(** [d[key] = v] and [{**d, key: v}]. *)
Definition jset (items : list (pystr * json)) (key : pystr) (v : json) : list (pystr * json) := dict_set items key v.

(** ** MCP tools: provider-directed configuration *)
Definition MCP_TOOL_SENTINEL : json := JDict [(lit "type", JStr (lit "mcp"))].

(** [isinstance(tool, dict) and tool.get("type") == "mcp"] *)
Definition is_mcp_tool (tool : json) : bool :=
  match tool with JDict items => match jstr items (lit "type") with Some t => bool_decide (t = lit "mcp") | None => false end | _ => false end.

Fixpoint strip_mcp_tools (node : json) : json :=
  match node with
  | JDict items =>
      JDict (map (fun kv => (kv.1,
        match kv.2 with
        | JList tools => if bool_decide (kv.1 = lit "tools")
                         then JList (map (fun tool => if is_mcp_tool tool then MCP_TOOL_SENTINEL else strip_mcp_tools tool) tools)
                         else strip_mcp_tools kv.2
        | _ => strip_mcp_tools kv.2
        end)) items)
  | JList items => JList (map strip_mcp_tools items)
  | _ => node
  end.

Fixpoint restore_mcp_tools (redacted original : json) {struct redacted} : json :=
  match redacted, original with
  | JDict reds, JDict origs =>
      JDict (map (fun kv => (kv.1,
        let orig := jget_null origs kv.1 in
        match kv.2, orig with
        | JList rs, JList os =>
            if bool_decide (kv.1 = lit "tools") && (length os =? length rs)%nat
            then JList ((fix go (rs : list json) (os : list json) {struct rs} : list json :=
                           match rs, os with
                           | r :: rs, o :: os => (if is_mcp_tool o then o else restore_mcp_tools r o) :: go rs os
                           | _, _ => []
                           end) rs os)
            else restore_mcp_tools kv.2 orig
        | _, _ => restore_mcp_tools kv.2 orig
        end)) reds)
  | JList rs, JList os =>
      if (length os =? length rs)%nat
      then JList ((fix go (rs : list json) (os : list json) {struct rs} : list json :=
                     match rs, os with
                     | r :: rs, o :: os => restore_mcp_tools r o :: go rs os
                     | _, _ => []
                     end) rs os)
      else redacted
  | _, _ => redacted
  end.

(** ** Exempt MCP blocks: content addressed to an exempt server *)
Definition EXEMPT_STASH_SENTINEL : json := JDict [(lit "type", JStr (lit "mcp_exempt_stash"))].

(** A number's text before its exponent. *)
Fixpoint mantissa (repr : pystr) : pystr :=
  match repr with c :: r => if bool_decide (c ∈ lit "eE") then [] else c :: mantissa r | [] => [] end.

(** Python's truth of a value; a number is false when all its digits before an
    exponent are zero. *)
Definition truthy (v : json) : bool :=
  match v with
  | JNull => false
  | JBool b => b
  | JNum repr => existsb (fun c => negb (bool_decide (c ∈ lit "-.0"))) (mantissa repr)
  | JStr s => match s with [] => false | _ => true end
  | JList l => match l with [] => false | _ => true end
  | JDict l => match l with [] => false | _ => true end
  end.

(** The block's server: [node.get("server_name") or node.get("server_label")]. *)
Definition server_of (items : list (pystr * json)) : json :=
  let name := jget_null items (lit "server_name") in if truthy name then name else jget_null items (lit "server_label").

Definition mcp_type (items : list (pystr * json)) : bool :=
  match jstr items (lit "type") with Some t => starts_with (lit "mcp") t | None => false end.

Definition exempt_server (exempt : gset pystr) (items : list (pystr * json)) : bool :=
  match server_of items with JStr s => bool_decide (s ∈ exempt) | _ => false end.

Definition is_exempt_mcp_block (exempt ids : gset pystr) (items : list (pystr * json)) : bool :=
  mcp_type items &&
  (exempt_server exempt items ||
   match jstr items (lit "tool_use_id") with Some i => bool_decide (i ∈ ids) | None => false end).

Fixpoint exempt_mcp_use_ids (exempt : gset pystr) (node : json) : gset pystr :=
  match node with
  | JDict items =>
      (match jstr items (lit "id") with
       | Some i => if mcp_type items && exempt_server exempt items then {[i]} else ∅
       | None => ∅
       end) ∪ ⋃ map (fun kv => exempt_mcp_use_ids exempt kv.2) items
  | JList items => ⋃ map (exempt_mcp_use_ids exempt) items
  | _ => ∅
  end.

(** [stash] with the blocks it counts. *)
Fixpoint stash (exempt ids : gset pystr) (item : json) : json :=
  match item with
  | JDict items =>
      if is_exempt_mcp_block exempt ids items then EXEMPT_STASH_SENTINEL
      else JDict (map (fun kv => (kv.1, stash exempt ids kv.2)) items)
  | JList items => JList (map (stash exempt ids) items)
  | _ => item
  end.

Fixpoint stashed_blocks (exempt ids : gset pystr) (item : json) : nat :=
  match item with
  | JDict items =>
      if is_exempt_mcp_block exempt ids items then 1%nat
      else list_sum (map (fun kv => stashed_blocks exempt ids kv.2) items)
  | JList items => list_sum (map (stashed_blocks exempt ids) items)
  | _ => 0%nat
  end.

Definition stash_exempt_mcp_blocks (node : json) (exempt : gset pystr) : json * nat :=
  let ids := exempt_mcp_use_ids exempt node in (stash exempt ids node, stashed_blocks exempt ids node).

Fixpoint restore (exempt ids : gset pystr) (red orig : json) {struct red} : json :=
  match orig with
  | JDict origs =>
      if is_exempt_mcp_block exempt ids origs then orig
      else match red with
           | JDict reds => JDict (map (fun kv => (kv.1, restore exempt ids kv.2 (jget_null origs kv.1))) reds)
           | _ => red
           end
  | JList os =>
      match red with
      | JList rs =>
          if (length os =? length rs)%nat
          then JList ((fix go (rs : list json) (os : list json) {struct rs} : list json :=
                         match rs, os with r :: rs, o :: os => restore exempt ids r o :: go rs os | _, _ => [] end) rs os)
          else red
      | _ => red
      end
  | _ => red
  end.

Definition restore_exempt_mcp_blocks (original redacted : json) (exempt : gset pystr) : json :=
  restore exempt (exempt_mcp_use_ids exempt original) redacted original.

(** ** Fields by position *)
Definition EVERY_ITEM : pystr := lit "*".
Definition ANY_DEPTH : pystr := lit "**".

(** A step below a container: a key or a list index. *)
Inductive step : Type := SKey (key : pystr) | SIdx (index : nat).
#[export] Instance step_eq_dec : EqDecision step.
Proof. solve_decision. Defined.

(** Where a cursor stands: the steps from the body's root. *)
Abbreviation path := (list step).

(** What [f] finds in each item, by its index. *)
Definition indexed {A B} (f : nat -> A -> list B) : nat -> list A -> list B :=
  fix go i l := match l with [] => [] | x :: l => f i x ++ go (S i) l end.

(** [_each_slot]: the slots [position] names in [node], in document order. *)
Fixpoint each_slot (position : list pystr) : json -> path -> list (json * path) :=
  match position with
  | [] => fun node cursor => [(node, cursor)]
  | head :: rest =>
      if bool_decide (head = ANY_DEPTH) then
        fix deep (node : json) (cursor : path) : list (json * path) :=
          each_slot rest node cursor ++
          match node with
          | JDict items => flat_map (fun kv => deep kv.2 (cursor ++ [SKey kv.1])) items
          | JList items =>
              indexed (fun i x => deep x (cursor ++ [SIdx i])) 0 items
          | _ => []
          end
      else if bool_decide (head = EVERY_ITEM) then
        fun node cursor =>
          match node with
          | JList items => indexed (fun i x => each_slot rest x (cursor ++ [SIdx i])) 0 items
          | _ => []
          end
      else
        fun node cursor =>
          match node with
          | JDict items => match jget items head with Some v => each_slot rest v (cursor ++ [SKey head]) | None => [] end
          | _ => []
          end
  end.

(** [_Held] and [_Slots]: the fields held, under the steps that lead to them. *)
Record held : Type := mk_held { order : nat; field : json; position : list pystr }.

Inductive slots : Type :=
| Held (h : held)
| Below (trie : list (step * slots)).

Fixpoint slot_get {A} (trie : list (step * A)) (s : step) : option A :=
  match trie with [] => None | (s0, x) :: rest => if decide (s0 = s) then Some x else slot_get rest s end.

Fixpoint slot_set {A} (trie : list (step * A)) (s : step) (x : A) : list (step * A) :=
  match trie with [] => [(s, x)] | (s0, x0) :: rest => if decide (s0 = s) then (s0, x) :: rest else (s0, x0) :: slot_set rest s x end.

(** [_Cursor.hold]: nothing is held at the root, nor at or below a field already held;
    what was held below goes. *)
Fixpoint hold (h : held) (cursor : path) (trie : list (step * slots)) : list (step * slots) :=
  match cursor with
  | [] => trie
  | s :: cursor =>
      match cursor, slot_get trie s with
      | _, Some (Held _) => trie
      | [], _ => slot_set trie s (Held h)
      | _, Some (Below below) => slot_set trie s (Below (hold h cursor below))
      | _, None => slot_set trie s (Below (hold h cursor []))
      end
  end.

(** [_held_fields]: in the order they were held. *)
Fixpoint held_in (s : slots) : list held :=
  match s with Held h => [h] | Below trie => flat_map (fun sx => held_in sx.2) trie end.

Definition held_fields (trie : list (step * slots)) : list held :=
  sort_by (fun a b => (order a <=? order b)%nat) (flat_map (fun sx => held_in sx.2) trie).

(** [list(node)] of what is not a dict. *)
Definition items_of (node : json) : option (list json) :=
  match node with JList l => Some l | JStr s => Some (map (fun c => JStr [c]) s) | _ => None end.

(** [node[step]] and [copy[step] = v]; None is the exception (a copy never gets an index
    into an object: the steps are those of the body the copy has the shape of). *)
Definition item_get (node : json) (s : step) : option json :=
  match node, s with
  | JDict items, SKey k => jget items k
  | JDict _, SIdx _ => None
  | _, SIdx i => l ← items_of node; l !! i
  | _, SKey _ => None
  end.

Definition item_set (copy : json) (s : step) (v : json) : option json :=
  match copy, s with
  | JDict items, SKey k => Some (JDict (jset items k v))
  | JList items, SIdx i => if (i <? length items)%nat then Some (JList (<[i := v]> items)) else None
  | _, _ => None
  end.

Definition copy_of (node : json) : option json :=
  match node with JDict _ => Some node | _ => JList <$> items_of node end.

(** [_rebuilt] *)
Fixpoint rebuilt_at (replace : held -> json) (s : slots) (node : json) : option json :=
  match s with
  | Held h => Some (replace h)
  | Below trie =>
      copy ← copy_of node;
      (fix go (trie : list (step * slots)) (copy : json) : option json :=
         match trie with
         | [] => Some copy
         | (st, below) :: trie =>
             v ← match below with
                 | Held h => Some (replace h)
                 | Below _ => x ← item_get node st; rebuilt_at replace below x
                 end;
             copy ← item_set copy st v; go trie copy
         end) trie copy
  end.

Definition rebuilt (node : json) (trie : list (step * slots)) (replace : held -> json) : option json :=
  rebuilt_at replace (Below trie) node.

(** ** Preparing a request *)

(** What refuses it, or an exception of the rebuilding. *)
Inductive route_error : Type :=
| Refused (r : refusal)
| VerbatimFieldRedacted (label : pystr)
| Misshapen.

Section Prepare.
Context {V O : Type} `{VaultOps V} `{OverrideOps O} (rd : redactor).

Abbreviation R := (M (rstate V O) route_error).

Definition refusing {A} (m : M (rstate V O) refusal A) : R A := fun s =>
  match m s with (Ok a, s') => (Ok a, s') | (Raise e, s') => (Raise (Refused e), s') end.

Definition shaped {A} (o : option A) : R A := fun s => match o with Some a => (Ok a, s) | None => (Raise Misshapen, s) end.

(** What an adapter gives; the base class's [verbatim_fields] and [label_fields] are
    empty.  [prepare] also counts the exempt MCP blocks it stashed. *)
Record adapter : Type := mk_adapter {
  verbatim_fields : pystr -> pystr -> list (list pystr);
  label_fields : pystr -> pystr -> list (list pystr);
  prepare : bool -> gset pystr -> json -> M (rstate V O) refusal (json * nat)
}.

(** [ProviderAdapter.prepare_request] *)
Definition total (counts : gmap pystr Z) : Z := map_fold (fun _ n acc => n + acc) 0 counts.

Definition changed (before after : gmap pystr Z) : bool :=
  negb (total after =? total before) || negb (size after =? size before)%nat.

Definition prepare_request (inject_system_note : json -> json) (inject_note : bool) (mcp_exempt : gset pystr) (body : json)
    : M (rstate V O) refusal (json * nat) :=
  s0 <~ mget;;
  let '(target, blocks) := if bool_decide (mcp_exempt = ∅) then (body, 0%nat) else stash_exempt_mcp_blocks body mcp_exempt in
  redacted <~ redact_json rd target;;
  let redacted := if bool_decide (mcp_exempt = ∅) then redacted else restore_exempt_mcp_blocks body redacted mcp_exempt in
  s1 <~ mget;;
  mret (if inject_note && changed (counts s0) (counts s1) then inject_system_note redacted else redacted, blocks).

(** The holding of the verbatim fields: each is charged when found. *)
Fixpoint hold_all (position : list pystr) (found : list (json * path)) (st : list (step * slots) * nat)
    : M (rstate V O) refusal (list (step * slots) * nat) :=
  match found with
  | [] => mret st
  | (value, cursor) :: found =>
      charge rd 1;;; hold_all position found (hold (mk_held st.2 value position) cursor st.1, S st.2)
  end.

Fixpoint hold_fields (positions : list (list pystr)) (body : json) (st : list (step * slots) * nat)
    : M (rstate V O) refusal (list (step * slots) * nat) :=
  match positions with
  | [] => mret st
  | position :: positions => st <~ hold_all position (each_slot position body []) st;; hold_fields positions body st
  end.

(** The field's name in the refusal. *)
Definition field_label (position : list pystr) : pystr :=
  Prelude.join (lit ".") (List.filter (fun k => negb (bool_decide (k = EVERY_ITEM)) && negb (bool_decide (k = ANY_DEPTH))) position).

Fixpoint scan_texts (label : pystr) (texts : list pystr) : R unit :=
  match texts with
  | [] => mret tt
  | text :: texts =>
      found <~ refusing (scan_text rd text);;
      if bool_decide (found = ∅) then scan_texts label texts else mraise (VerbatimFieldRedacted label)
  end.

Fixpoint scan_fields (fields : list held) : R unit :=
  match fields with
  | [] => mret tt
  | h :: fields => scan_texts (field_label (position h)) (strings_in (field h));;; scan_fields fields
  end.

(** The label fields, redacted and held in slot order. *)
Fixpoint redact_found (position : list pystr) (found : list (json * path)) (labels : list (step * slots))
    : M (rstate V O) refusal (list (step * slots)) :=
  match found with
  | [] => mret labels
  | (JStr text, cursor) :: found =>
      t <~ redact_text rd text;; redact_found position found (hold (mk_held 0 (JStr t) position) cursor labels)
  | _ :: found => redact_found position found labels
  end.

Fixpoint redact_labels (positions : list (list pystr)) (prepared : json) (labels : list (step * slots))
    : M (rstate V O) refusal (list (step * slots)) :=
  match positions with
  | [] => mret labels
  | position :: positions =>
      labels <~ redact_found position (each_slot position prepared []) labels;; redact_labels positions prepared labels
  end.

Definition prepare_route_request (a : adapter) (method route : pystr) (body : json) (inject_note : bool) (mcp_exempt : gset pystr)
    : R (json * nat) :=
  st <~ refusing (hold_fields (verbatim_fields a method route) body ([], 0%nat));;
  let trie := st.1 in let fields := held_fields trie in
  scan_fields fields;;;
  target <~ match fields with [] => mret body | _ => shaped (rebuilt body trie (fun _ => JNull)) end;;
  r <~ refusing (prepare a inject_note mcp_exempt target);;
  prepared <~ match fields with [] => mret r.1 | _ => shaped (rebuilt r.1 trie field) end;;
  labels <~ refusing (redact_labels (label_fields a method route) prepared []);;
  out <~ match labels with [] => mret prepared | _ => shaped (rebuilt prepared labels field) end;;
  mret (out, r.2).
End Prepare.
