(* ===== verification/AdapterFacts.v ===== *)
(** * What an adapter's preparation keeps -- src/llm_redact/providers/base.py

    Verbatim fields leave exactly as sent and only when nothing in them is found; exempt
    MCP blocks leave exactly as sent and everything outside them as redacted. *)

From S2P Require Import Prelude PyRegex Json Placeholders JsonWalk JsonFacts Vault Detection Redactor Winners RoundTrip Adapters.

Local Open Scope mon_scope.

(** ** Places *)
Definition child (v : json) (s : step) : option json :=
  match v, s with JDict items, SKey k => jget items k | JList items, SIdx i => items !! i | _, _ => None end.

Fixpoint at_path (p : path) (v : json) : option json :=
  match p with [] => Some v | s :: p => match child v s with Some x => at_path p x | None => None end end.

Lemma at_path_app p q v : at_path (p ++ q) v = match at_path p v with Some x => at_path q x | None => None end.
Proof. revert v. induction p as [|s p IH]; intros v; [done|]. cbn. by destruct (child v s). Qed.

(** A parsed object has each key once. *)
Fixpoint keys_once (v : json) : bool :=
  match v with
  | JList l => forallb keys_once l
  | JDict l => bool_decide (NoDup (map fst l)) && forallb (fun kv => keys_once kv.2) l
  | _ => true
  end.

Lemma jget_in items k v : NoDup (map fst items) -> (k, v) ∈ items -> jget items k = Some v.
Proof.
  induction items as [|[k0 v0] items IH]; cbn; [by intros _ ?%not_elem_of_nil|]. intros [Hk Hnd]%list.NoDup_cons [[= -> ->]|H]%elem_of_cons.
  - by rewrite decide_True.
  - rewrite decide_False; [by apply IH|]. intros ->. apply Hk. apply list_elem_of_fmap. by exists (k, v).
Qed.

Lemma jget_elem items k v : jget items k = Some v -> (k, v) ∈ items.
Proof.
  induction items as [|[k0 v0] items IH]; cbn; [done|]. destruct (decide (k0 = k)) as [-> |]; [intros [= ->]; left|]. intros H. right. by apply IH.
Qed.

Lemma jget_set items k v k' : jget (dict_set items k v) k' = if decide (k = k') then Some v else jget items k'.
Proof.
  induction items as [|[k0 v0] items IH]; cbn; [done|]. destruct (decide (k0 = k)) as [-> |]; cbn; [by case_decide|]. rewrite IH.
  destruct (decide (k0 = k')) as [-> |]; [by rewrite decide_False|done].
Qed.

Lemma keys_dict l : keys_once (JDict l) = true -> NoDup (map fst l) /\ forall kv, kv ∈ l -> keys_once kv.2 = true.
Proof.
  cbn. intros [H1%bool_decide_eq_true H2]%andb_true_iff. split; [done|]. rewrite forallb_forall in H2. intros kv Hkv. by apply H2, list_elem_of_In.
Qed.

Lemma keys_list l : keys_once (JList l) = true -> forall x, x ∈ l -> keys_once x = true.
Proof. cbn. rewrite forallb_forall. intros H x Hx. by apply H, list_elem_of_In. Qed.

Lemma keys_child v s x : keys_once v = true -> child v s = Some x -> keys_once x = true.
Proof.
  intros Hk Hc. destruct v, s; try done; cbn [child] in Hc.
  - apply list_elem_of_lookup_2 in Hc. by eapply keys_list.
  - apply jget_elem in Hc. by eapply keys_dict in Hc.
Qed.

Lemma dict_set_keys items k v : NoDup (map fst items) -> NoDup (map fst (dict_set items k v)) /\ forall k', k' ∈ map fst (dict_set items k v) -> k' ∈ map fst items \/ k' = k.
Proof.
  induction items as [|[k0 v0] items IH]; cbn; intros Hnd.
  - split; [apply list.NoDup_singleton|]. intros k' ->%list_elem_of_singleton. by right.
  - apply list.NoDup_cons in Hnd as [Hk Hnd]. destruct (decide (k0 = k)) as [-> |Hne]; cbn.
    + split; [by apply list.NoDup_cons|]. intros k' H. by left.
    + destruct (IH Hnd) as [H1 H2]. split; [apply list.NoDup_cons; split; [|done]|].
      * intros [H| ->]%H2; done.
      * intros k' [-> |H]%elem_of_cons; [left; left|]. apply H2 in H as [H|H]; [left; by right|by right].
Qed.

Lemma elem_indexed {A B} (f : nat -> A -> list B) l y i : y ∈ indexed f i l -> exists j x, l !! j = Some x /\ y ∈ f (i + j)%nat x.
Proof.
  revert i. induction l as [|x l IH]; intros i; [by intros ?%not_elem_of_nil|]. cbn. intros [H|H]%elem_of_app.
  - exists 0%nat, x. by rewrite Nat.add_0_r.
  - apply IH in H as (j & z & Hj & H). exists (S j), z. by rewrite Nat.add_succ_r.
Qed.

(** ** The slots of a position are places of the body *)
Lemma each_slot_at position : forall node cursor v p, keys_once node = true -> (v, p) ∈ each_slot position node cursor ->
  exists q, p = cursor ++ q /\ at_path q node = Some v.
Proof.
  induction position as [|head rest IH]; intros node cursor v p Hk.
  - intros [= -> ->]%list_elem_of_singleton. exists []. by rewrite app_nil_r.
  - cbn [each_slot]. case_bool_decide as Hd; [|case_bool_decide as He].
    + revert cursor p. induction node as [|b|n|t|l IHl|l IHl] using json_ind'; intros cursor p;
        (intros [H|H]%elem_of_app; [by apply IH|]); try by apply not_elem_of_nil in H.
      * apply elem_indexed in H as (j & x & Hj & H). rewrite list.Forall_forall in IHl. pose proof (list_elem_of_lookup_2 _ _ _ Hj) as Hx.
        apply (IHl _ Hx (keys_list l Hk x Hx)) in H as (q & -> & Hq). exists (SIdx j :: q). rewrite <- app_assoc. split; [done|]. cbn. by rewrite Hj.
      * apply keys_dict in Hk as [Hnd Hl]. apply list_elem_of_In, in_flat_map in H as ([k x] & Hx%list_elem_of_In & H%list_elem_of_In).
        rewrite list.Forall_forall in IHl. apply (IHl _ Hx (Hl _ Hx)) in H as (q & -> & Hq). exists (SKey k :: q). rewrite <- app_assoc.
        split; [done|]. cbn. by rewrite (jget_in _ _ _ Hnd Hx).
    + destruct node as [| | | |l|]; try by intros ?%not_elem_of_nil. intros (i & x & Hi & H)%elem_indexed. apply IH in H as (q & -> & Hq).
      * exists (SIdx i :: q). rewrite <- app_assoc. split; [done|]. cbn. by rewrite Hi.
      * eapply keys_list; [done|]. by eapply list_elem_of_lookup_2.
    + destruct node as [| | | | |l]; try by intros ?%not_elem_of_nil. destruct (jget l head) as [x|] eqn:Ex; [|by intros ?%not_elem_of_nil].
      intros (q & -> & Hq)%IH; [|by eapply (keys_child (JDict l) (SKey head))]. exists (SKey head :: q). rewrite <- app_assoc. split; [done|]. cbn. by rewrite Ex.
Qed.

(** ** The trie of held fields *)
Fixpoint held_at (q : path) (trie : list (step * slots)) : option held :=
  match q with
  | [] => None
  | s :: q =>
      match slot_get trie s with
      | Some (Held h) => match q with [] => Some h | _ => None end
      | Some (Below below) => held_at q below
      | None => None
      end
  end.

Definition covered (trie : list (step * slots)) (cursor : path) : Prop := exists q r h, cursor = q ++ r /\ held_at q trie = Some h.

(** Each step once, at every level. *)
Fixpoint steps_once (s : slots) : bool :=
  match s with
  | Held _ => true
  | Below trie => bool_decide (NoDup (map fst trie)) && forallb (fun sx => steps_once sx.2) trie
  end.

Lemma slot_get_set {A} (trie : list (step * A)) s x s' : slot_get (slot_set trie s x) s' = if decide (s = s') then Some x else slot_get trie s'.
Proof.
  induction trie as [|[s0 x0] trie IH]; cbn; [done|]. destruct (decide (s0 = s)) as [-> |]; cbn; [by case_decide|]. rewrite IH.
  destruct (decide (s0 = s')) as [-> |]; [by rewrite decide_False|done].
Qed.

Lemma slot_set_elem {A} (trie : list (step * A)) s x sx : sx ∈ slot_set trie s x -> sx ∈ trie \/ sx = (s, x).
Proof.
  induction trie as [|[s0 x0] trie IH]; cbn; [intros ->%list_elem_of_singleton; by right|]. case_decide as E; intros [-> |H]%elem_of_cons.
  - right. by subst.
  - left. by right.
  - left. left.
  - apply IH in H as [H|H]; [left; by right|by right].
Qed.

Lemma slot_set_steps {A} (trie : list (step * A)) s x : NoDup (map fst trie) -> NoDup (map fst (slot_set trie s x)).
Proof.
  induction trie as [|[s0 x0] trie IH]; cbn; intros Hnd; [apply list.NoDup_singleton|]. apply list.NoDup_cons in Hnd as [Hk Hnd].
  case_decide as E; cbn; apply list.NoDup_cons; (split; [|by auto]); [done|]. intros ([s1 x1] & -> & [H|[= -> ->]]%slot_set_elem)%list_elem_of_fmap; [|done].
  apply Hk, list_elem_of_fmap. by exists (s1, x1).
Qed.

Lemma steps_below trie : steps_once (Below trie) = true <-> NoDup (map fst trie) /\ forall s x, (s, x) ∈ trie -> steps_once x = true.
Proof.
  cbn. rewrite andb_true_iff, bool_decide_eq_true, forallb_forall. split; intros [H1 H2]; (split; [done|]).
  - intros s x Hx. by apply (H2 (s, x)), list_elem_of_In.
  - intros [s x] Hx. by apply (H2 s), list_elem_of_In.
Qed.

Lemma slot_get_elem {A} (trie : list (step * A)) s x : slot_get trie s = Some x -> (s, x) ∈ trie.
Proof. induction trie as [|[s0 x0] trie IH]; cbn; [done|]. case_decide as E; [intros [= ->]; subst; left|]. intros H. right. by apply IH. Qed.

Lemma slot_set_once trie s x : steps_once (Below trie) = true -> steps_once x = true -> steps_once (Below (slot_set trie s x)) = true.
Proof.
  rewrite !steps_below. intros [H1 H2] Hx. split; [by apply slot_set_steps|]. intros s0 x0 [H|[= -> ->]]%slot_set_elem; [by eapply H2|done].
Qed.

Lemma hold_once h cursor : forall trie, steps_once (Below trie) = true -> steps_once (Below (hold h cursor trie)) = true.
Proof.
  induction cursor as [|s cursor IH]; intros trie Ht; [done|]. cbn [hold].
  destruct (slot_get trie s) as [[h'|below]|] eqn:E; [by destruct cursor| |]; (destruct cursor as [|s' cursor]; apply slot_set_once; try done; apply IH; try done).
  apply slot_get_elem in E. apply steps_below in Ht as [_ Ht]. by eapply Ht.
Qed.

(** What holding a field adds. *)
Lemma held_hold h cursor : forall trie q h', held_at q (hold h cursor trie) = Some h' -> held_at q trie = Some h' \/ (q = cursor /\ h' = h).
Proof.
  induction cursor as [|s cursor IH]; intros trie q h'; [by left|]. cbn [hold]. destruct q as [|s' q]; [done|].
  assert (Hset : forall x, held_at (s' :: q) (slot_set trie s x) = Some h' ->
    held_at (s' :: q) trie = Some h' \/ (s' = s /\ match x with Held h0 => q = [] /\ h0 = h' | Below b => held_at q b = Some h' end)).
  { intros x. cbn [held_at]. rewrite slot_get_set. destruct (decide (s = s')) as [-> |]; [|by left]. intros Hx. right. split; [done|].
    destruct x; [|done]. destruct q; [by injection Hx as ->|done]. }
  destruct cursor as [|s1 cursor], (slot_get trie s) as [[h0|below]|] eqn:E; try by left.
  - intros [H|(-> & -> & ->)]%Hset; [by left|by right].
  - intros [H|(-> & -> & ->)]%Hset; [by left|by right].
  - intros [H|(-> & [H|[-> ->]]%IH)]%Hset; [by left| |by right]. left. cbn [held_at]. by rewrite E.
  - intros [H|(-> & [H|[-> ->]]%IH)]%Hset; [by left|by destruct q|by right].
Qed.

Lemma hold_covers h cursor : forall trie, cursor <> [] -> covered (hold h cursor trie) cursor.
Proof.
  induction cursor as [|s cursor IH]; intros trie Hne; [done|]. cbn [hold].
  destruct (slot_get trie s) as [[h'|below]|] eqn:E.
  - exists [s], cursor, h'. split; [done|]. destruct cursor; cbn; by rewrite E.
  - destruct cursor as [|s1 cursor]; [exists [s], [], h; cbn; by rewrite slot_get_set, decide_True|].
    destruct (IH below ltac:(done)) as (q & r & h' & -> & Hq). exists (s :: q), r, h'. split; [done|]. cbn [held_at]. by rewrite slot_get_set, decide_True.
  - destruct cursor as [|s1 cursor]; [exists [s], [], h; cbn; by rewrite slot_get_set, decide_True|].
    destruct (IH [] ltac:(done)) as (q & r & h' & -> & Hq). exists (s :: q), r, h'. split; [done|]. cbn [held_at]. by rewrite slot_get_set, decide_True.
Qed.

Lemma hold_keeps h cursor : forall trie c, covered trie c -> covered (hold h cursor trie) c.
Proof.
  induction cursor as [|s cursor IH]; intros trie c (q & r & h' & -> & Hq); [by exists q, r, h'|]. destruct q as [|s' q]; [done|]. cbn [held_at] in Hq.
  destruct (decide (s = s')) as [<-|Hne].
  - destruct (slot_get trie s) as [[h0|below]|] eqn:E; [|..|done].
    + exists (s :: q), r, h'. split; [done|]. cbn [hold held_at]. rewrite E. by destruct cursor; cbn; rewrite E.
    + cbn [hold]. rewrite E. destruct cursor as [|s1 cursor].
      * exists [s], (q ++ r), h. split; [done|]. cbn. by rewrite slot_get_set, decide_True.
      * destruct (IH below (q ++ r)) as (q1 & r1 & h1 & Eq & H1); [by exists q, r, h'|]. exists (s :: q1), r1, h1. rewrite <- !app_comm_cons, Eq.
        split; [done|]. cbn [held_at]. by rewrite slot_get_set, decide_True.
  - exists (s' :: q), r, h'. split; [done|]. cbn [hold]. destruct (slot_get trie s) as [[h0|below]|], cursor; cbn [held_at]; try done;
      rewrite slot_get_set, decide_False; done.
Qed.

(** ** Rebuilding *)
Lemma child_set copy s v out s' : item_set copy s v = Some out -> child out s' = if decide (s = s') then Some v else child copy s'.
Proof.
  destruct copy as [| | | |l|l], s as [k|i]; cbn [item_set]; try done.
  - case_match eqn:E; [|done]. intros [= <-]. apply Nat.ltb_lt in E. destruct s' as [k|j]; cbn [child]; [by rewrite decide_False|].
    destruct (decide (SIdx i = SIdx j)) as [[= <-]|Hne]; [by apply list_lookup_insert_eq|]. apply list_lookup_insert_ne. congruence.
  - intros [= <-]. destruct s' as [k'|j]; cbn [child]; [|by rewrite decide_False]. unfold jset. rewrite jget_set.
    destruct (decide (k = k')) as [<-|Hne]; [by rewrite decide_True|]. rewrite decide_False; [done|]. congruence.
Qed.

(** The values [_rebuilt] puts in a copy, entry after entry. *)
Definition put_slots (replace : held -> json) (node : json) : list (step * slots) -> json -> option json :=
  fix go trie copy :=
    match trie with
    | [] => Some copy
    | (st, below) :: trie =>
        v ← match below with Held h => Some (replace h) | Below _ => x ← item_get node st; rebuilt_at replace below x end;
        copy ← item_set copy st v; go trie copy
    end.

Lemma rebuilt_below replace trie node : rebuilt_at replace (Below trie) node = (copy ← copy_of node; put_slots replace node trie copy).
Proof. done. Qed.

Lemma put_slots_child replace node trie : forall copy out, NoDup (map fst trie) -> put_slots replace node trie copy = Some out -> forall s,
  match slot_get trie s with
  | None => child out s = child copy s
  | Some (Held h) => child out s = Some (replace h)
  | Some (Below b) => exists x v, child out s = Some v /\ rebuilt_at replace (Below b) x = Some v
  end.
Proof.
  induction trie as [|[st below] trie IH]; cbn; intros copy out Hnd; [by intros [= <-]|]. apply list.NoDup_cons in Hnd as [Hst Hnd].
  intros (v & Hv & (copy1 & Hc & Hgo)%bind_Some)%bind_Some s. pose proof (child_set copy st v copy1 s Hc) as Hch. specialize (IH _ _ Hnd Hgo s).
  destruct (decide (st = s)) as [<-|Hne].
  - destruct (slot_get trie st) as [y|] eqn:E; [exfalso; apply slot_get_elem in E; apply Hst, list_elem_of_fmap; by exists (st, y)|].
    rewrite IH, Hch. destruct below as [h|b]; [by injection Hv as <-|]. apply bind_Some in Hv as (x & _ & Hx). by exists x, v.
  - destruct (slot_get trie s) as [[h|b]|]; [done|done|]. by rewrite IH, Hch.
Qed.

Lemma rebuilt_child replace trie node out s : steps_once (Below trie) = true -> rebuilt node trie replace = Some out ->
  match slot_get trie s with
  | None => forall x, child node s = Some x -> child out s = Some x
  | Some (Held h) => child out s = Some (replace h)
  | Some (Below b) => exists x v, child out s = Some v /\ rebuilt x b replace = Some v
  end.
Proof.
  intros [Hnd _]%steps_below. unfold rebuilt. rewrite rebuilt_below. intros (copy & Hc & Hp)%bind_Some.
  pose proof (put_slots_child replace node trie copy out Hnd Hp s) as H. destruct (slot_get trie s) as [[h|b]|]; [done|done|].
  intros x Hx. rewrite H. destruct node; try done; by injection Hc as <-.
Qed.

Lemma rebuilt_at_held replace q : forall trie node out h, steps_once (Below trie) = true -> rebuilt node trie replace = Some out ->
  held_at q trie = Some h -> at_path q out = Some (replace h).
Proof.
  induction q as [|s q IH]; intros trie node out h Ht Hr Hh; [done|]. cbn [held_at] in Hh. pose proof (rebuilt_child replace trie node out s Ht Hr) as H.
  destruct (slot_get trie s) as [[h0|b]|] eqn:E; [| |done].
  - destruct q; [|done]. injection Hh as ->. cbn. by rewrite H.
  - destruct H as (x & v & Hc & Hx). cbn [at_path]. rewrite Hc. eapply IH; [|exact Hx|exact Hh]. apply slot_get_elem in E.
    apply steps_below in Ht as [_ Ht]. by eapply Ht.
Qed.

(** ** Strings below a place *)
Lemma strings_child v s x : child v s = Some x -> forall t, t ∈ strings_in x -> t ∈ strings_in v.
Proof.
  destruct v as [| | | |l|l], s as [k|i]; try done; cbn [child strings_in]; intros H t Ht; apply list_elem_of_In, in_flat_map.
  - exists x. split; apply list_elem_of_In; [by eapply list_elem_of_lookup_2|done].
  - exists (k, x). split; apply list_elem_of_In; [by apply jget_elem|done].
Qed.

Lemma strings_at p : forall v x, at_path p v = Some x -> forall t, t ∈ strings_in x -> t ∈ strings_in v.
Proof.
  induction p as [|s p IH]; cbn; intros v x; [by intros [= ->]|]. destruct (child v s) as [y|] eqn:E; [|done]. intros H t Ht.
  eapply strings_child; [exact E|]. by eapply IH.
Qed.

(** ** Preparing *)
Section Prepare.
Context {V O : Type} `{VaultOps V} `{OverrideOps O} (rd : redactor).

(** The fields held are values of the body at their slots, and every slot found is covered. *)
Definition holding (body : json) (st : list (step * slots) * nat) : Prop :=
  steps_once (Below st.1) = true /\ forall q h, held_at q st.1 = Some h -> at_path q body = Some (field h).

Lemma hold_all_ok body position found : forall st (s : rstate V O) st' s', holding body st ->
  (forall v p, (v, p) ∈ found -> at_path p body = Some v) -> hold_all rd position found st s = (Ok st', s') ->
  holding body st' /\ (forall c, covered st.1 c -> covered st'.1 c) /\ forall v p, (v, p) ∈ found -> p <> [] -> covered st'.1 p.
Proof.
  induction found as [|[v cursor] found IH]; intros st s st' s' [Ht Hh] Hf; cbn [hold_all].
  - intros [= <- <-]. split_and!; [done|done|]. by intros v p ?%not_elem_of_nil.
  - intros (u & s1 & _ & Hm)%mbnd_ok. apply IH in Hm as (H1 & H2 & H3); [|split|]; cbn in *.
    + split_and!; [done|intros c Hc; by apply H2, hold_keeps|]. intros v' p [[= -> ->]|Hin]%elem_of_cons Hp; [by apply H2, hold_covers|by eapply H3].
    + by apply hold_once.
    + intros q h [Hq|[-> ->]]%held_hold; [by apply Hh|]. apply Hf. left.
    + intros v' p Hin. apply Hf. by right.
Qed.

Lemma hold_fields_ok body positions : keys_once body = true -> forall st (s : rstate V O) st' s', holding body st ->
  hold_fields rd positions body st s = (Ok st', s') ->
  holding body st' /\ (forall c, covered st.1 c -> covered st'.1 c) /\
  forall position v p, position ∈ positions -> (v, p) ∈ each_slot position body [] -> p <> [] -> covered st'.1 p.
Proof.
  intros Hk. induction positions as [|position positions IH]; intros st s st' s' Hst; cbn [hold_fields].
  - intros [= <- <-]. split_and!; [done|done|]. by intros position v p ?%not_elem_of_nil.
  - intros (st1 & s1 & H1 & H2)%mbnd_ok. apply (hold_all_ok body) in H1 as (A1 & A2 & A3); [|done|].
    + apply IH in H2 as (B1 & B2 & B3); [|done]. split_and!; [done|auto|]. intros position' v p [-> |Hin]%elem_of_cons Hv Hp; [by eapply B2, A3|by eapply B3].
    + intros v p (q & -> & Hq)%each_slot_at; done.
Qed.

Lemma slots_field trie q h : held_at q trie = Some h -> h ∈ flat_map (fun sx => held_in sx.2) trie.
Proof.
  revert trie. induction q as [|s q IH]; intros trie; [done|]. cbn [held_at]. destruct (slot_get trie s) as [[h0|b]|] eqn:E; [..|done]; apply slot_get_elem in E;
    intros Hh; apply list_elem_of_In, in_flat_map.
  - destruct q; [|done]. injection Hh as ->. exists (s, Held h). split; [by apply list_elem_of_In|by left].
  - exists (s, Below b). split; [by apply list_elem_of_In|]. apply list_elem_of_In. by apply IH.
Qed.

Lemma held_fields_in trie q h : held_at q trie = Some h -> h ∈ held_fields trie.
Proof. intros Hh. unfold held_fields. rewrite sort_by_perm. by eapply slots_field. Qed.

Lemma refusing_ok {A} (m : M (rstate V O) refusal A) s a s' : refusing m s = (Ok a, s') -> m s = (Ok a, s').
Proof. unfold refusing. destruct (m s) as [[x|e] s1]; [|done]. by intros [= -> ->]. Qed.

Lemma shaped_ok {A} (o : option A) (s : rstate V O) a s' : shaped o s = (Ok a, s') -> o = Some a /\ s' = s.
Proof. unfold shaped. destruct o; [|done]. by intros [= -> ->]. Qed.

(** A text some run of the scan found nothing in. *)
Definition scanned_clean (text : pystr) : Prop := exists s s' : rstate V O, scan_text rd text s = (Ok ∅, s').

Lemma scan_texts_ok label texts : forall (s s' : rstate V O) u, scan_texts rd label texts s = (Ok u, s') -> forall t, t ∈ texts -> scanned_clean t.
Proof.
  induction texts as [|text texts IH]; cbn; intros s s' u; [by intros _ t ?%not_elem_of_nil|].
  intros (found & s1 & H1 & H2)%mbnd_ok. unfold refusing in H1. destruct (scan_text rd text s) as [[f|e] s2] eqn:E; [|done]. injection H1 as -> ->.
  case_bool_decide as Hb; [|done]. subst. intros t [-> |Ht]%elem_of_cons; [by exists s, s1|]. by eapply IH.
Qed.

Lemma scan_fields_ok fields : forall (s s' : rstate V O) u, scan_fields rd fields s = (Ok u, s') ->
  forall h t, h ∈ fields -> t ∈ strings_in (field h) -> scanned_clean t.
Proof.
  induction fields as [|h fields IH]; cbn; intros s s' u; [by intros _ h t ?%not_elem_of_nil|].
  intros (u1 & s1 & H1 & H2)%mbnd_ok h' t [-> |Hh]%elem_of_cons Ht; [by eapply scan_texts_ok|by eapply IH].
Qed.
End Prepare.

(** ** Labels *)
Definition literal (k : pystr) : Prop := k <> EVERY_ITEM /\ k <> ANY_DEPTH.

(** Two positions that begin with different keys. *)
Definition apart (p q : list pystr) : Prop :=
  match p, q with a :: _, b :: _ => literal a /\ literal b /\ a <> b | _, _ => False end.

Lemma each_slot_below position : forall node cursor v p, (v, p) ∈ each_slot position node cursor -> exists q, p = cursor ++ q.
Proof.
  induction position as [|head rest IH]; intros node cursor v p; [intros [= -> ->]%list_elem_of_singleton; exists []; by rewrite app_nil_r|].
  cbn [each_slot]. case_bool_decide; [|case_bool_decide].
  - revert cursor p. induction node as [|b|n|t|l IHl|l IHl] using json_ind'; intros cursor p; (intros [Hp|Hp]%elem_of_app; [by apply IH in Hp|]);
      try by apply not_elem_of_nil in Hp.
    + apply elem_indexed in Hp as (j & x & Hj & Hp). rewrite list.Forall_forall in IHl. apply (IHl x) in Hp as (q & ->); [|by eapply list_elem_of_lookup_2].
      eexists. by rewrite <- app_assoc.
    + apply list_elem_of_In, in_flat_map in Hp as (x & Hx%list_elem_of_In & Hp%list_elem_of_In). rewrite list.Forall_forall in IHl.
      apply (IHl x Hx) in Hp as (q & ->). eexists. by rewrite <- app_assoc.
  - destruct node; try by intros ?%not_elem_of_nil. intros (j & x & Hj & Hp)%elem_indexed. apply IH in Hp as (q & ->). eexists. by rewrite <- app_assoc.
  - destruct node as [| | | | |l]; try by intros ?%not_elem_of_nil. destruct (jget l head); [|by intros ?%not_elem_of_nil].
    intros (q & ->)%IH. eexists. by rewrite <- app_assoc.
Qed.

Lemma literal_slot k rest node v p : literal k -> (v, p) ∈ each_slot (k :: rest) node [] -> exists q, p = SKey k :: q.
Proof.
  intros [H1 H2] Hin. cbn [each_slot] in Hin. rewrite bool_decide_eq_false_2, bool_decide_eq_false_2 in Hin by done.
  destruct node as [| | | | |l]; try by apply not_elem_of_nil in Hin. destruct (jget l k) as [x|] eqn:E; [|by apply not_elem_of_nil in Hin].
  apply each_slot_below in Hin as (q & ->). by exists q.
Qed.

Lemma hold_first h cursor trie s : slot_get trie s = None -> (forall c, cursor <> s :: c) -> slot_get (hold h cursor trie) s = None.
Proof.
  intros Hs Hc. destruct cursor as [|s0 cursor]; [done|]. cbn [hold]. assert (s0 <> s) by (intros ->; by eapply Hc).
  destruct (slot_get trie s0) as [[h0|b]|], cursor; try done; by rewrite slot_get_set, decide_False.
Qed.

Section Labels.
Context {V O : Type} `{VaultOps V} `{OverrideOps O} (rd : redactor).

(** No label is held at the key [k]. *)
Definition clear_of (k : pystr) (labels : list (step * slots)) : Prop := steps_once (Below labels) = true /\ slot_get labels (SKey k) = None.

Lemma redact_found_ok position found k : (forall v p, (v, p) ∈ found -> forall c, p <> SKey k :: c) -> forall labels (s : rstate V O) labels' s',
  redact_found rd position found labels s = (Ok labels', s') -> clear_of k labels -> clear_of k labels'.
Proof.
  induction found as [|[v cursor] found IH]; intros Hf labels s labels' s'; cbn [redact_found]; [by intros [= <- <-]|].
  assert (Hrec : forall v p, (v, p) ∈ found -> forall c, p <> SKey k :: c) by (intros v' p Hin; apply (Hf v'); by right).
  destruct v; try by apply IH. intros (t & s1 & _ & Hm)%mbnd_ok [Ho Hn]. eapply IH; [done|exact Hm|]. split; [by apply hold_once|].
  apply hold_first; [done|]. eapply Hf. left.
Qed.

Lemma redact_labels_ok p positions k rest prepared : p = k :: rest -> (forall q, q ∈ positions -> apart p q) ->
  forall labels (s : rstate V O) labels' s', redact_labels rd positions prepared labels s = (Ok labels', s') -> clear_of k labels -> clear_of k labels'.
Proof.
  intros ->. induction positions as [|position positions IH]; intros Hp labels s labels' s'; cbn [redact_labels]; [by intros [= <- <-]|].
  intros (l1 & s1 & H1 & H2)%mbnd_ok Hc. pose proof (Hp position ltac:(left)) as Ha. destruct position as [|a arest]; [done|]. destruct Ha as (Hk & Ha & Hne).
  eapply IH; [intros q Hq; apply Hp; by right|exact H2|]. eapply redact_found_ok; [|exact H1|done].
  intros v q (q' & ->)%literal_slot c [= E _]; [by subst|done].
Qed.

Lemma labels_apart p positions prepared labels (s : rstate V O) s' out v c : (forall q, q ∈ positions -> apart p q) ->
  redact_labels rd positions prepared [] s = (Ok labels, s') -> rebuilt prepared labels field = Some out ->
  (exists k rest, p = k :: rest /\ exists c', c = SKey k :: c') -> at_path c prepared = Some v -> at_path c out = Some v.
Proof.
  intros Hp Hl Hr (k & rest & -> & c' & ->). eapply redact_labels_ok in Hl as [Ho Hn]; [|done|exact Hp|split; [done|done]].
  cbn [at_path]. destruct (child prepared (SKey k)) as [x|] eqn:E; [|done]. pose proof (rebuilt_child field labels prepared out (SKey k) Ho Hr) as Hc.
  rewrite Hn in Hc. by rewrite (Hc x E).
Qed.
End Labels.

(** C26: a verbatim field of a request leaves exactly as it was sent, and only when the
    scan found nothing in any string of it: whatever the adapter made of the rest of the
    body, whatever labels were redacted elsewhere in it, and however the route's
    positions nest or overlap. *)
Theorem verbatim_fields_exact {V O} `{VaultOps V} `{OverrideOps O} rd (a : adapter (V := V) (O := O)) method route body inject exempt s out blocks s' :
  keys_once body = true ->
  (forall p q, p ∈ verbatim_fields a method route -> q ∈ label_fields a method route -> apart p q) ->
  prepare_route_request rd a method route body inject exempt s = (Ok (out, blocks), s') ->
  forall p value cursor, p ∈ verbatim_fields a method route -> (value, cursor) ∈ each_slot p body [] -> cursor <> [] ->
    at_path cursor out = Some value /\ forall t, t ∈ strings_in value -> scanned_clean (V := V) (O := O) rd t.
Proof.
  intros Hk Hap. unfold prepare_route_request. intros (st & s1 & H1 & Hm)%mbnd_ok p value cursor Hp Hin Hne.
  apply refusing_ok in H1. apply (hold_fields_ok rd body _ Hk) in H1 as ([Ho Hh] & _ & Hcov); [|split; [done|by intros [|? ?] h]].
  destruct (Hcov p value cursor Hp Hin Hne) as (q & r & h & -> & Hq). clear Hcov.
  apply mbnd_ok in Hm as (u & s2 & Hscan & Hm). pose proof (held_fields_in _ _ _ Hq) as Hfield.
  apply each_slot_at in Hin as Hat; [|done]. destruct Hat as (q' & Eq & Hat). cbn in Eq. subst q'.
  assert (Hval : at_path r (field h) = Some value) by (rewrite at_path_app, (Hh _ _ Hq) in Hat; done).
  split; [|intros t Ht; eapply scan_fields_ok; [exact Hscan|exact Hfield|by eapply strings_at]].
  apply mbnd_ok in Hm as (target & s3 & _ & Hm). apply mbnd_ok in Hm as ([made n] & s4 & _ & Hm). apply mbnd_ok in Hm as (prepared & s5 & Hprep & Hm).
  assert (Hb : rebuilt made st.1 field = Some prepared).
  { destruct (held_fields st.1); [by apply not_elem_of_nil in Hfield|]. by apply shaped_ok in Hprep as [? _]. }
  pose proof (rebuilt_at_held field q st.1 made prepared h Ho Hb Hq) as Hatq.
  apply mbnd_ok in Hm as (labels & s6 & Hlab%refusing_ok & Hm). apply mbnd_ok in Hm as (final & s7 & Hfin & Hm). injection Hm as -> -> _.
  assert (Hw : at_path (q ++ r) prepared = Some value) by by rewrite at_path_app, Hatq.
  destruct labels as [|l labels]; [by injection Hfin as <- _|]. apply shaped_ok in Hfin as [Hfin _].
  destruct (label_fields a method route) as [|lp lps] eqn:Elf; [by injection Hlab as ? _|].
  eapply labels_apart; [intros lq Hlq; apply (Hap p lq Hp Hlq)|exact Hlab|exact Hfin| |exact Hw].
  pose proof (Hap p lp Hp ltac:(left)) as Ha. destruct p as [|k rest]; [done|]. exists k, rest. split; [done|]. destruct lp; [done|].
  by eapply literal_slot, Hin; destruct Ha.
Qed.

(** *** A vector store created with an attached file and a name *)
Definition demo_adapter : adapter (V := InMemoryVault.t) (O := unit) :=
  mk_adapter (fun _ _ => [[lit "file_ids"]; [lit "filters"; lit "**"; lit "key"]]) (fun _ _ => [[lit "name"]])
    (prepare_request demo_redactor (fun v => v)).

Definition demo_store : json :=
  JDict [(lit "name", JStr demo_text); (lit "file_ids", JList [JStr (lit "file-1"); JStr (lit "file-2")]);
         (lit "filters", JDict [(lit "all", JList [JDict [(lit "key", JStr (lit "city")); (lit "value", JStr demo_text)]])])].

Lemma verbatim_fields_exact_witness :
  let r := prepare_route_request demo_redactor demo_adapter [] [] demo_store false ∅ demo_state in
  exists out, r.1 = Ok (out, 0%nat) /\ jstr (match out with JDict l => l | _ => [] end) (lit "name") <> Some demo_text /\
    at_path [SKey (lit "filters"); SKey (lit "all"); SIdx 0; SKey (lit "key")] out = Some (JStr (lit "city")).
Proof.
  intros r. destruct r as [[[out n]|e] s'] eqn:E; [|vm_compute in E; discriminate E]. exists out.
  assert (n = 0%nat) as -> by (vm_compute in E; injection E; done). split_and!; [done| |].
  - vm_compute in E. injection E as <- _. vm_compute. discriminate.
  - eapply (verbatim_fields_exact demo_redactor demo_adapter [] [] demo_store false ∅ demo_state out 0%nat s') with (p := [lit "filters"; lit "**"; lit "key"]).
    + by vm_compute.
    + intros p q Hp ->%list_elem_of_singleton. apply elem_of_cons in Hp as [-> | ->%list_elem_of_singleton]; repeat split; by vm_compute.
    + exact E.
    + right. left.
    + apply list_elem_of_In. vm_compute. tauto.
    + done.
Defined.
