(* ===== verification/McpFacts.v ===== *)
(** * MCP blocks around the redaction -- src/llm_redact/providers/base.py

    Exempt blocks leave exactly as sent, everything outside them as redacted; MCP tools
    kept out of the redaction come back at their places. *)

From S2P Require Import Prelude PyRegex Json Placeholders JsonWalk JsonFacts Vault Detection Redactor Winners RoundTrip Adapters AdapterFacts.

Local Open Scope mon_scope.

(** ** Values of one structure *)
Inductive alike : json -> json -> Prop :=
| alike_atom v w : is_container v = false -> is_container w = false -> alike v w
| alike_list l l' : Forall2 alike l l' -> alike (JList l) (JList l')
| alike_dict l l' : Forall2 (fun a b => a.1 = b.1 /\ alike a.2 b.2) l l' -> alike (JDict l) (JDict l').

Lemma alike_refl v : alike v v.
Proof.
  induction v as [|b|n|t|l IH|l IH] using json_ind'; try by apply alike_atom.
  - apply alike_list. by induction IH; constructor.
  - apply alike_dict. by induction IH; constructor.
Qed.

Section Walks.
Context {St E : Type} (fn : pystr -> M St E pystr) (skip : gset pystr).

Lemma walk_opaque_alike v : forall s w s', walk_opaque fn v s = (Ok w, s') -> alike v w.
Proof.
  induction v as [|b|n|t|l IH|l IH] using json_ind'; intros s w s'; [by intros [= <- <-]; apply alike_atom..| | |].
  - cbn. unfold mbnd. destruct (fn t s) as [[t'|] s1]; [|done]. intros [= <- <-]. by apply alike_atom.
  - rewrite walk_opaque_list. intros (r & s1 & Hr & [= <- <-])%mbnd_ok. apply alike_list. eapply mapM_Forall2; [|exact Hr].
    intros x s2 y s3 Hx Hy. rewrite list.Forall_forall in IH. by eapply IH.
  - rewrite walk_opaque_dict. intros (r & s1 & Hr & [= <- <-])%mbnd_ok. apply alike_dict. eapply mapM_Forall2; [|exact Hr].
    intros [k x] s2 y s3 Hx (z & s4 & Hz & [= <- <-])%mbnd_ok. rewrite list.Forall_forall in IH. split; [done|]. by eapply (IH (k, x)).
Qed.

Lemma walk_alike v : forall parent s w s', walk fn skip (fun _ => None) parent v s = (Ok w, s') -> alike v w.
Proof.
  induction v as [|b|n|t|l IH|l IH] using json_ind'; intros parent s w s'; [by intros [= <- <-]; apply alike_atom..| | |].
  - cbn. unfold mbnd. destruct (fn t s) as [[t'|] s1]; [|done]. intros [= <- <-]. by apply alike_atom.
  - rewrite walk_list. intros (r & s1 & Hr & [= <- <-])%mbnd_ok. apply alike_list. eapply mapM_Forall2; [|exact Hr].
    intros x s2 y s3 Hx Hy. rewrite list.Forall_forall in IH. by eapply IH.
  - rewrite walk_dict. intros (r & s1 & Hr & [= <- <-])%mbnd_ok. apply alike_dict. eapply mapM_Forall2; [|exact Hr].
    intros [k x] s2 y s3 Hx (z & s4 & Hz & [= <- <-])%mbnd_ok. split; [done|]. cbn [fst snd] in *. rewrite value_none in Hz.
    destruct (is_opaque parent k); [by eapply walk_opaque_alike|]. destruct (_ && _ && _).
    + destruct x as [|b|n|t|l'|l']; try (injection Hz as <- _; apply alike_refl). apply mbnd_ok in Hz as (t' & s5 & _ & [= <- _]). by apply alike_atom.
    + destruct (_ || _ || _); [injection Hz as <- _; apply alike_refl|]. rewrite list.Forall_forall in IH. by eapply (IH (k, x)).
Qed.
End Walks.

(** ** Exempt blocks *)
Section Exempt.
Context (exempt ids : gset pystr).

(** A place in or below an exempt block. *)
Definition exempt_at (p : path) (v : json) : Prop :=
  exists q r items, p = q ++ r /\ at_path q v = Some (JDict items) /\ is_exempt_mcp_block exempt ids items = true.

Lemma exempt_child s p v x : child v s = Some x -> exempt_at p x -> exempt_at (s :: p) v.
Proof. intros Hc (q & r & items & -> & Hq & He). exists (s :: q), r, items. split_and!; [done| |done]. cbn [at_path]. by rewrite Hc. Qed.

Definition is_exempt (v : json) : bool := match v with JDict items => is_exempt_mcp_block exempt ids items | _ => false end.

Lemma exempt_below s p v x : is_exempt v = false -> child v s = Some x -> exempt_at (s :: p) v -> exempt_at p x.
Proof.
  intros Hv Hc (q & r & items & Hp & Hq & He). destruct q as [|s' q]; [injection Hq as ->; cbn in Hv; congruence|]. injection Hp as <- ->.
  cbn [at_path] in Hq. rewrite Hc in Hq. by exists q, r, items.
Qed.

Lemma jget_zip (l l' : list (pystr * json)) R k : Forall2 (fun a b => a.1 = b.1 /\ R a.2 b.2) l l' ->
  match jget l k, jget l' k with Some x, Some y => R x y | None, None => True | _, _ => False end.
Proof.
  induction 1 as [|[k1 x] [k2 y] l l' [Hk HR] _ IH]; [done|]. cbn in *. subst k2. by case_decide.
Qed.

Lemma jget_map (f : pystr -> json -> json) l k : jget (map (fun kv => (kv.1, f kv.1 kv.2)) l) k = f k <$> jget l k.
Proof. induction l as [|[k0 x] l IH]; cbn; [done|]. by case_decide; [subst|]. Qed.

Lemma stash_list_len l l' : Forall2 alike (map (stash exempt ids) l) l' -> length l = length l'.
Proof. intros H%Forall2_length. by rewrite length_map in H. Qed.

Definition restore_items : list json -> list json -> list json :=
  fix go (rs os : list json) {struct rs} : list json :=
    match rs, os with r :: rs, o :: os => restore exempt ids r o :: go rs os | _, _ => [] end.

Lemma restore_items_at rs : forall os i r o, rs !! i = Some r -> os !! i = Some o -> restore_items rs os !! i = Some (restore exempt ids r o).
Proof. induction rs as [|r rs IH]; intros [|o os] [|i]; cbn; try done; [by intros ?? [= ->] [= ->]|]. intros. by apply IH. Qed.

Lemma restore_items_length rs : forall os, length os = length rs -> length (restore_items rs os) = length rs.
Proof. induction rs as [|r rs IH]; intros [|o os]; cbn; try done. intros [= H]. by rewrite IH. Qed.

(** What a step into a restored container meets. *)
Lemma restore_child orig red s : is_exempt orig = false -> alike (stash exempt ids orig) red ->
  match child orig s, child red s with
  | Some o, Some r => alike (stash exempt ids o) r /\ child (restore exempt ids red orig) s = Some (restore exempt ids r o)
  | None, None => child (restore exempt ids red orig) s = None
  | _, _ => False
  end.
Proof.
  intros He Ha. destruct orig as [|b|n|t|os|origs]; cbn [stash is_exempt] in Ha, He.
  1-4: (inversion Ha as [v w _ Hw| |]; subst; destruct red; done).
  - inversion Ha as [v w Hv _|l l' Hl|]; subst; [done|]. pose proof (stash_list_len _ _ Hl) as Hlen. cbn [restore]. rewrite Hlen, Nat.eqb_refl.
    fold restore_items. destruct s as [k|i]; [done|]. cbn [child]. destruct (os !! i) as [o|] eqn:Eo, (l' !! i) as [r|] eqn:Er.
    + split; [|by apply restore_items_at]. eapply (Forall2_lookup_lr _ _ _ i); [exact Hl| |exact Er]. by rewrite list_lookup_fmap, Eo.
    + apply lookup_lt_Some in Eo. apply lookup_ge_None in Er. lia.
    + apply lookup_lt_Some in Er. apply lookup_ge_None in Eo. lia.
    + apply lookup_ge_None. apply lookup_ge_None in Er. by rewrite restore_items_length.
  - rewrite He in Ha. inversion Ha as [v w Hv _| |l l' Hl]; subst; [done|]. cbn [restore]. rewrite He.
    destruct s as [k|i]; [|done]. cbn [child]. pose proof (jget_zip _ _ _ k Hl) as Hz.
    change (map _ l') with (map (fun kv => (kv.1, (fun k x => restore exempt ids x (jget_null origs k)) kv.1 kv.2)) l').
    rewrite jget_map. change (map _ origs) with (map (fun kv => (kv.1, (fun _ x => stash exempt ids x) kv.1 kv.2)) origs) in Hz. rewrite jget_map in Hz.
    unfold jget_null. destruct (jget origs k) as [o|], (jget l' k) as [r|]; cbn in *; done.
Qed.

Lemma restore_inside p : forall orig red, alike (stash exempt ids orig) red -> exempt_at p orig -> at_path p (restore exempt ids red orig) = at_path p orig.
Proof.
  induction p as [|s p IH]; intros orig red Ha He.
  - destruct He as (q & r & items & Hp & Hq & He). symmetry in Hp. apply app_nil in Hp as [-> ->]. injection Hq as ->. destruct red; cbn; by rewrite He.
  - destruct (is_exempt orig) eqn:Ex; [destruct orig; try done; destruct red; cbn [restore] in *; cbn in Ex; by rewrite Ex|].
    pose proof (restore_child orig red s Ex Ha) as Hc. cbn [at_path]. destruct (child orig s) as [o|] eqn:Eo, (child red s) as [r|]; [|done|done|by rewrite Hc].
    destruct Hc as [Hor ->]. apply IH; [done|]. by eapply exempt_below.
Qed.

(** Outside exempt blocks the restored value has the redacted one's containers and its
    leaves. *)
Lemma restore_outside p : forall orig red, alike (stash exempt ids orig) red -> ~ exempt_at p orig ->
  match at_path p red, at_path p (restore exempt ids red orig) with
  | Some x, Some y => is_container x = is_container y /\ (is_container x = false -> x = y)
  | None, None => True
  | _, _ => False
  end.
Proof.
  induction p as [|s p IH]; intros orig red Ha He.
  - cbn [at_path]. destruct (is_exempt orig) eqn:Ex.
    { exfalso. apply He. destruct orig as [| | | | |items]; try done. by exists [], [], items. }
    destruct orig as [|b|n|t|os|origs]; [by destruct red..| |]; cbn [stash is_exempt] in Ha, Ex.
    + inversion Ha as [v w Hv _|l l' Hl|]; subst; [done|]. cbn [restore]. by case_match.
    + rewrite Ex in Ha. inversion Ha as [v w Hv _| |l l' Hl]; subst; [done|]. cbn [restore]. by rewrite Ex.
  - destruct (is_exempt orig) eqn:Ex.
    { exfalso. apply He. destruct orig as [| | | | |items]; try done. by exists [], (s :: p), items. }
    pose proof (restore_child orig red s Ex Ha) as Hc. cbn [at_path]. destruct (child orig s) as [o|] eqn:Eo, (child red s) as [r|]; [|done|done|by rewrite Hc].
    destruct Hc as [Hor ->]. apply IH; [done|]. intros H. by eapply He, exempt_child.
Qed.
End Exempt.

(** Whether [p] leads into an exempt block of [body]. *)
Definition in_exempt (exempt : gset pystr) (body : json) (p : path) : Prop := exempt_at exempt (exempt_mcp_use_ids exempt body) p body.

(** An MCP block addressed to an exempt server -- or a result proved to answer one --
    leaves exactly as it was sent, wherever it lies; every string, number and container
    outside such blocks is what redacting the body without them made of it. *)
Theorem exempt_blocks_sent_as_is {V O} `{VaultOps V} `{OverrideOps O} rd note exempt body (s : rstate V O) out blocks s' :
  exempt <> ∅ -> prepare_request rd note false exempt body s = (Ok (out, blocks), s') ->
  exists redacted, redact_json rd (stash_exempt_mcp_blocks body exempt).1 s = (Ok redacted, s') /\
    blocks = (stash_exempt_mcp_blocks body exempt).2 /\
    forall p, (in_exempt exempt body p -> at_path p out = at_path p body) /\
      (~ in_exempt exempt body p ->
        match at_path p redacted, at_path p out with
        | Some x, Some y => is_container x = is_container y /\ (is_container x = false -> x = y)
        | None, None => True
        | _, _ => False
        end).
Proof.
  intros Hne. unfold prepare_request. rewrite bool_decide_eq_false_2 by done. intros (s0 & s1 & [= <- <-] & Hm)%mbnd_ok.
  cbn [stash_exempt_mcp_blocks] in *. apply mbnd_ok in Hm as (redacted & s2 & Hr & Hm). apply mbnd_ok in Hm as (s3 & s4 & [= <- <-] & [= <- <- <-]).
  exists redacted. split_and!; [done|done|]. apply walk_alike in Hr. intros p. split; intros He; [by apply restore_inside|by apply restore_outside].
Qed.

(** *** One exempt call, its result, and a message to redact *)
Definition demo_result : list (pystr * json) :=
  [(lit "type", JStr (lit "mcp_tool_result")); (lit "tool_use_id", JStr (lit "u1")); (lit "content", JStr demo_text)].

Definition demo_calls : json :=
  JDict [(lit "content", JList
    [JDict [(lit "type", JStr (lit "mcp_tool_use")); (lit "id", JStr (lit "u1")); (lit "server_name", JStr (lit "files")); (lit "input", JDict [(lit "q", JStr demo_text)])];
     JDict demo_result;
     JDict [(lit "type", JStr (lit "text")); (lit "text", JStr demo_text)]])].

Definition demo_call_answer := prepare_request demo_redactor (fun v => v) false {[lit "files"]} demo_calls demo_state.

Definition body_of {E S} (r : result E (json * nat) * S) : json := match r.1 with Ok x => x.1 | Raise _ => JNull end.

Lemma exempt_blocks_sent_as_is_witness : let out := body_of demo_call_answer in
  demo_call_answer.1 = Ok (out, 2%nat) /\
  at_path [SKey (lit "content"); SIdx 1; SKey (lit "content")] out = Some (JStr demo_text) /\
  bool_decide (at_path [SKey (lit "content"); SIdx 2; SKey (lit "text")] out = Some (JStr demo_text)) = false.
Proof.
  intros out. destruct (exempt_blocks_sent_as_is demo_redactor (fun v => v) {[lit "files"]} demo_calls demo_state out 2%nat demo_call_answer.2)
    as (redacted & Hr & Hn & Hp); [vm_compute; discriminate|vm_compute; reflexivity|].
  split_and!; [vm_compute; reflexivity| |vm_compute; reflexivity].
  rewrite (proj1 (Hp [SKey (lit "content"); SIdx 1; SKey (lit "content")])); [vm_compute; reflexivity|].
  exists [SKey (lit "content"); SIdx 1], [SKey (lit "content")], demo_result. split_and!; vm_compute; reflexivity.
Defined.

(** ** MCP tools *)

Lemma jget_null_in items k v : NoDup (map fst items) -> (k, v) ∈ items -> jget_null items k = v.
Proof. intros Hn Hi. unfold jget_null. by rewrite (jget_in items k v). Qed.

(** Tools kept out of the redaction come back: with nothing redacted the body is the one sent. *)
Lemma restore_strip v : keys_once v = true -> restore_mcp_tools (strip_mcp_tools v) v = v.
Proof.
  assert (Hmap : forall l (f : json -> json), (forall x, x ∈ l -> restore_mcp_tools (f x) x = x) ->
    (fix go (rs os : list json) {struct rs} : list json := match rs, os with r :: rs, o :: os => restore_mcp_tools r o :: go rs os | _, _ => [] end) (map f l) l = l).
  { intros l f. induction l as [|x l IH]; intros H; [done|]. cbn. rewrite IH; [|intros y Hy; apply H; by right]. by rewrite H by left. }
  induction v as [|b|n|t|l IH|l IH] using json_ind'; intros Hk; try done.
  - cbn. rewrite length_map, Nat.eqb_refl. f_equal. rewrite list.Forall_forall in IH. apply (Hmap l strip_mcp_tools).
    intros x Hx. apply IH; [done|]. by eapply keys_list.
  - destruct (keys_dict l Hk) as [Hnd Hl]. cbn [strip_mcp_tools restore_mcp_tools]. f_equal. rewrite map_map. cbn [fst snd].
    rewrite list.Forall_forall in IH. transitivity (map (fun kv : pystr * json => kv) l); [|apply map_id].
    apply map_ext_in. intros [k x] Hx%list_elem_of_In. cbn [fst snd]. rewrite (jget_null_in l k x Hnd Hx). f_equal.
    specialize (IH _ Hx (Hl _ Hx)). cbn [snd] in IH. destruct x as [|b|n|t|tools|items]; try done.
    case_bool_decide as Ek; [|exact IH].
    cbn [andb]. rewrite length_map, Nat.eqb_refl. cbv iota. f_equal.
    cbn in IH. rewrite length_map, Nat.eqb_refl in IH. injection IH as IH. clear -IH. revert IH. induction tools as [|x tools IHl]; [done|]. cbn.
    intros [= Hx Ht]. rewrite IHl by done. f_equal. destruct (is_mcp_tool x) eqn:E; [done|done].
Qed.
