(* ===== verification/Channels.v ===== *)
(** * Streamed payloads and their channels -- src/llm_redact/rehydrate.py, RehydratorPool

    What every streaming adapter relies on: a stream rewritten payload by payload, each
    payload speaking on at most one channel of the pool at a time, says on a channel what
    one rehydration of that channel's whole text says. *)

From S2P Require Import Prelude PyRegex Json Placeholders JsonWalk TokenSearch Vault Rehydrate Streaming.

(** ** The pool as a map *)
Section Pool.
Context {V : Type} `{VaultOps V} {K : Type} `{EqDecision K} (v : V).

Abbreviation at_key k l := (snd <$> List.find (fun kc : K * channel => bool_decide (kc.1 = k)) l).

Lemma find_replace k ch k' (l : list (K * channel)) :
  at_key k' (map (fun kc => if bool_decide (kc.1 = k) then (k, ch) else kc) l) =
  if decide (k = k') then (_ ← at_key k l; Some ch) else at_key k' l.
Proof.
  induction l as [|[k0 c0] l IH]; [cbn; by case_decide|]. cbn [map List.find fst]. destruct (decide (k0 = k)) as [-> |Hne].
  - rewrite (bool_decide_eq_true_2 (k = k)) by done. cbn [fst]. case_bool_decide as E1; [by rewrite decide_True|]. rewrite IH. by rewrite !decide_False.
  - rewrite (bool_decide_eq_false_2 (k0 = k)) by done. cbn [fst]. case_bool_decide as E1; [|done]. by rewrite decide_False by congruence.
Qed.

Lemma find_snoc k ch k' (l : list (K * channel)) : at_key k l = None ->
  at_key k' (l ++ [(k, ch)]) = if decide (k = k') then Some ch else at_key k' l.
Proof.
  induction l as [|[k0 c0] l IH]; cbn; [intros _; case_bool_decide; [by rewrite decide_True|by rewrite decide_False]|].
  case_bool_decide as E0; cbn; [done|]. intros H1. case_bool_decide as E1; [|by apply IH]. subst. by rewrite decide_False.
Qed.

Lemma pool_find_set (p : pool (K := K)) k ch k' : pool_find k' (pool_set k ch p) = if decide (k = k') then Some ch else pool_find k' p.
Proof.
  unfold pool_find at 1, pool_set. cbn [channels]. destruct (pool_find k p) as [c0|] eqn:E; unfold pool_find in *.
  - rewrite find_replace. case_decide; [by rewrite E|done].
  - by apply find_snoc.
Qed.

Lemma pool_find_drop (p : pool (K := K)) k c k' : pool_find k' (mk_pool (p_fuzzy p) (List.filter (fun kc => negb (bool_decide (kc.1 = k))) (channels p)) c) =
  if decide (k = k') then None else pool_find k' p.
Proof.
  unfold pool_find. cbn [channels]. induction (channels p) as [|[k0 c0] l IH]; cbn; [by case_decide|].
  destruct (decide (k0 = k)) as [-> |Hne]; [rewrite (bool_decide_eq_true_2 (k = k)) by done|rewrite (bool_decide_eq_false_2 (k0 = k)) by done]; cbn.
  - rewrite IH. case_decide; [done|]. by rewrite bool_decide_eq_false_2.
  - case_bool_decide; [|done]. subst. by rewrite decide_False.
Qed.

Lemma substitute_counts fuzzy j c1 c2 t : (substitute_tokens fuzzy j v c1 t).1 = (substitute_tokens fuzzy j v c2 t).1.
Proof. done. Qed.

(** What a channel says does not depend on the counts. *)
Definition feed_text (ch : channel) (t : pystr) : pystr * channel := (feed v ch ∅ t).1.
Definition flush_text (ch : channel) : pystr := (flush v ch ∅).1.1.

Lemma feed_counts ch c t : (feed v ch c t).1 = feed_text ch t.
Proof.
  unfold feed_text, feed. destruct (if json_source ch then _ else _) as [data tail]. unfold ch_match.
  pose proof (substitute_counts (ch_fuzzy ch) (json_source ch) c ∅ (buffer ch ++ data)) as Hs.
  destruct (substitute_tokens _ _ _ c _) as [s1 c1], (substitute_tokens _ _ _ ∅ _) as [s2 c2]. cbn in Hs. subst s2. by destruct (viable_prefix_start _ _).
Qed.

Lemma flush_counts ch c : (flush v ch c).1.1 = flush_text ch.
Proof.
  unfold flush_text, flush, ch_match. destruct (escape_tail ch) as [|? ?];
    (match goal with |- context [substitute_tokens ?f ?j v c ?b] => pose proof (substitute_counts f j c ∅ b) as Hs end);
    destruct (substitute_tokens _ _ _ c _) as [s1 c1], (substitute_tokens _ _ _ ∅ _) as [s2 c2]; exact Hs.
Qed.

Lemma feed_all_counts ch c c' ts : (feed_all v ch c ts).1 = (feed_all v ch c' ts).1.
Proof.
  revert c c' ch. induction ts as [|t ts IH]; intros c c' ch; [done|]. cbn. pose proof (feed_counts ch c t) as F1. rewrite <- (feed_counts ch c' t) in F1.
  destruct (feed v ch c t) as [[o1 ch1] c1], (feed v ch c' t) as [[o2 ch2] c2]. injection F1 as -> ->. specialize (IH c1 c2 ch2).
  destruct (feed_all v ch2 c1 ts) as [[t1 d1] e1], (feed_all v ch2 c2 ts) as [[t2 d2] e2]. by injection IH as -> ->.
Qed.

(** The channel of a key, a new one where there is none. *)
Definition channel_at (k : K) (j : bool) (p : pool (K := K)) : channel := default (new_channel j (p_fuzzy p)) (pool_find k p).

Lemma pool_feed_spec k j t (p : pool (K := K)) : let r := pool_feed v k j t p in
  r.1 = (feed_text (channel_at k j p) t).1 /\ p_fuzzy r.2 = p_fuzzy p /\
  forall k', pool_find k' r.2 = if decide (k = k') then Some (feed_text (channel_at k j p) t).2 else pool_find k' p.
Proof.
  unfold pool_feed, pool_get, channel_at. destruct (pool_find k p) as [ch|] eqn:E; cbn [from_option]; unfold id.
  - rewrite <- (feed_counts ch (p_counts p) t). destruct (feed v ch (p_counts p) t) as [[out ch'] c']. cbn. split_and!; [done|done|].
    intros k'. apply (pool_find_set p k ch' k').
  - set (p1 := pool_set k (new_channel j (p_fuzzy p)) p). rewrite <- (feed_counts _ (p_counts p1) t).
    destruct (feed v _ (p_counts p1) t) as [[out ch'] c']. cbn. split_and!; [done|done|]. intros k'.
    transitivity (pool_find k' (pool_set k ch' p1)); [done|]. rewrite pool_find_set. unfold p1. rewrite pool_find_set. by case_decide.
Qed.

Lemma pool_flush_spec k (p : pool (K := K)) : let r := pool_flush v k p in
  r.1 = match pool_find k p with Some ch => flush_text ch | None => [] end /\ p_fuzzy r.2 = p_fuzzy p /\
  forall k', pool_find k' r.2 = if decide (k = k') then None else pool_find k' p.
Proof.
  unfold pool_flush. destruct (pool_find k p) as [ch|] eqn:E.
  - rewrite <- (flush_counts ch (p_counts p)). destruct (flush v ch (p_counts p)) as [[out ch'] c']. cbn. split_and!; [done|done|].
    intros k'. apply (pool_find_drop p k c' k').
  - cbn. split_and!; [done|done|]. intros k'. case_decide; [by subst|done].
Qed.
End Pool.

(** ** Streams of payloads *)
Section Streams.
Context {V : Type} `{VaultOps V} {K : Type} `{EqDecision K} (v : V).
Context {P E : Type} (step : P -> pool (K := K) -> result E (list P) * pool (K := K)).

(** What a payload says on the channel watched, and whether it ends that channel. *)
Context (key : K) (json_src : bool) (said : P -> option pystr) (ends : P -> bool).

Definition says (ps : list P) : list pystr := omap said ps.

(** What a step owes the watched channel, on the pools an adapter makes ([good]) and the
    payloads it is meant for ([well]). *)
Context (good : pool (K := K) -> Prop) (well : P -> Prop).

Definition channel_step_on : Prop := forall p pl outs pl', good pl -> well p -> step p pl = (Ok outs, pl') ->
  good pl' /\ p_fuzzy pl' = p_fuzzy pl /\
  if ends p then
    concat (says outs) = match pool_find key pl with Some ch => flush_text v ch | None => [] end /\ pool_find key pl' = None
  else match said p with
       | Some t => concat (says outs) = (feed_text v (channel_at key json_src pl) t).1 /\ pool_find key pl' = Some (feed_text v (channel_at key json_src pl) t).2
       | None => concat (says outs) = [] /\ pool_find key pl' = pool_find key pl
       end.

(** Every payload in turn; the first exception ends the stream. *)
Fixpoint run_stream (ps : list P) (pl : pool (K := K)) : result E (list P) * pool (K := K) :=
  match ps with
  | [] => (Ok [], pl)
  | p :: ps =>
      match step p pl with
      | (Ok outs, pl) => match run_stream ps pl with (Ok more, pl) => (Ok (outs ++ more), pl) | r => r end
      | (Raise e, pl) => (Raise e, pl)
      end
  end.

Lemma says_app ps qs : says (ps ++ qs) = says ps ++ says qs.
Proof. apply omap_app. Qed.

(** While nothing is said the channel stays as it is. *)
Lemma silent_channel_on : channel_step_on -> forall ps pl outs pl', good pl -> Forall well ps -> Forall (fun p => ends p = false) ps -> says ps = [] ->
  run_stream ps pl = (Ok outs, pl') -> pool_find key pl' = pool_find key pl.
Proof.
  intros Hstep. induction ps as [|p ps IH]; intros pl outs pl' Hg Hwell Hends Hq; cbn [run_stream]; [by intros [= <- <-]|].
  apply list.Forall_cons_1 in Hwell as [Hwp Hwell]. apply list.Forall_cons_1 in Hends as [Hp Hends]. destruct (step p pl) as [[o|e] pl1] eqn:E1; [|done].
  destruct (run_stream ps pl1) as [[more|e] pl2] eqn:E2; [|done]. intros [= <- <-]. destruct (Hstep _ _ _ _ Hg Hwp E1) as (Hg1 & _ & Hs). rewrite Hp in Hs.
  cbn in Hq. destruct (said p); [done|]. destruct Hs as [_ <-]. by eapply IH.
Qed.

Lemma run_channel_on : channel_step_on -> forall ps pl outs pl', good pl -> Forall well ps -> Forall (fun p => ends p = false) ps ->
  run_stream ps pl = (Ok outs, pl') -> good pl' /\ p_fuzzy pl' = p_fuzzy pl /\
  let '(texts, ch, _) := feed_all v (channel_at key json_src pl) ∅ (says ps) in
  concat (says outs) = concat texts /\ channel_at key json_src pl' = ch /\ (says ps <> [] -> is_Some (pool_find key pl')).
Proof.
  intros Hstep. induction ps as [|p ps IH]; intros pl outs pl' Hg Hwell Hends; cbn [run_stream]; [by intros [= <- <-]|].
  apply list.Forall_cons_1 in Hwell as [Hwp Hwell]. apply list.Forall_cons_1 in Hends as [Hp Hends]. destruct (step p pl) as [[o|e] pl1] eqn:E1; [|done].
  destruct (run_stream ps pl1) as [[more|e] pl2] eqn:E2; [|done]. intros [= <- <-]. destruct (Hstep _ _ _ _ Hg Hwp E1) as (Hg1 & Hf & Hs). rewrite Hp in Hs.
  destruct (IH _ _ _ Hg1 Hwell Hends E2) as (Hg2 & Hf2 & IH2). split; [done|]. split; [congruence|]. rewrite says_app, concat_app. cbn [says omap list_omap].
  destruct (said p) as [t|] eqn:Es.
  - destruct Hs as [-> Hfind]. cbn [feed_all].
    pose proof (feed_counts v (channel_at key json_src pl) ∅ t) as F. unfold feed_text in Hfind. unfold feed_text.
    destruct (feed v (channel_at key json_src pl) ∅ t) as [[o1 ch1] c1] eqn:Ef. cbn [fst snd] in *.
    assert (Hch : channel_at key json_src pl1 = ch1) by (unfold channel_at; by rewrite Hfind). rewrite Hch in IH2.
    pose proof (feed_all_counts v ch1 ∅ c1 (says ps)) as Hc. change (omap said ps) with (says ps).
    destruct (feed_all v ch1 ∅ (says ps)) as [[t1 d1] e1], (feed_all v ch1 c1 (says ps)) as [[t2 d2] e2]. injection Hc as -> ->.
    destruct IH2 as (-> & -> & Hsome). split_and!; [done|done|]. intros _. destruct (decide (says ps = [])) as [Hn|Hn]; [|by apply Hsome].
    rewrite (silent_channel_on Hstep _ _ _ _ Hg1 Hwell Hends Hn E2), Hfind. by exists ch1.
  - destruct Hs as [-> Hfind]. change (omap said ps) with (says ps).
    assert (Hch : channel_at key json_src pl1 = channel_at key json_src pl) by (unfold channel_at; by rewrite Hfind, Hf). by rewrite Hch in IH2.
Qed.

Lemma run_stream_app ps qs : forall pl outs pl', run_stream (ps ++ qs) pl = (Ok outs, pl') ->
  exists o1 pl1 o2, run_stream ps pl = (Ok o1, pl1) /\ run_stream qs pl1 = (Ok o2, pl') /\ outs = o1 ++ o2.
Proof.
  induction ps as [|p ps IH]; intros pl outs pl'; cbn [run_stream app]; [by exists [], pl, outs|].
  destruct (step p pl) as [[o|e] pl1]; [|done]. destruct (run_stream (ps ++ qs) pl1) as [[m|e] pl2] eqn:E2; [|done]. intros [= <- <-].
  destruct (IH _ _ _ E2) as (o1 & pl3 & o2 & -> & H2 & ->). exists (o ++ o1), pl3, o2. by rewrite <- app_assoc.
Qed.

(** A channel's whole life: no channel yet, payloads that do not end it, the one that
    does. *)
Lemma channel_life_on : channel_step_on -> forall ps last pl outs pl', good pl -> Forall well (ps ++ [last]) -> Forall (fun p => ends p = false) ps -> ends last = true -> pool_find key pl = None ->
  run_stream (ps ++ [last]) pl = (Ok outs, pl') ->
  concat (says outs) = (stream v (new_channel json_src (p_fuzzy pl)) ∅ (says ps)).1 /\ pool_find key pl' = None.
Proof.
  intros Hstep ps last pl outs pl' Hg [Hwell Hwl]%Forall_app Hends Hlast Hnone Hrun. apply list.Forall_cons_1 in Hwl as [Hwl _].
  assert (Hsplit : exists o1 pl1 o2, run_stream ps pl = (Ok o1, pl1) /\ step last pl1 = (Ok o2, pl') /\ outs = o1 ++ o2).
  { destruct (run_stream_app ps [last] pl outs pl' Hrun) as (o1 & pl1 & o2 & H1 & H2 & ->). exists o1, pl1, o2. split_and!; [done| |done].
    cbn [run_stream] in H2. destruct (step last pl1) as [[o|e] pl2]; [|done]. by rewrite app_nil_r in H2. }
  destruct Hsplit as (o1 & pl1 & o2 & H1 & H2 & ->). destruct (run_channel_on Hstep _ _ _ _ Hg Hwell Hends H1) as (Hg1 & Hf & Hch).
  destruct (Hstep _ _ _ _ Hg1 Hwl H2) as (_ & _ & Hs). rewrite Hlast in Hs. destruct Hs as [Ho2 Hnone']. split; [|done]. rewrite says_app, concat_app, Ho2.
  assert (Hnew : channel_at key json_src pl = new_channel json_src (p_fuzzy pl)) by (unfold channel_at; by rewrite Hnone). rewrite Hnew in Hch.
  unfold stream. destruct (feed_all v _ ∅ (says ps)) as [[texts ch] c] eqn:Ef. destruct Hch as (-> & Hch & Hsome).
  pose proof (flush_counts v ch c) as Hfl. destruct (flush v ch c) as [[last_text x] y]. cbn in Hfl |- *. subst last_text. f_equal.
  unfold channel_at in Hch. destruct (pool_find key pl1) as [ch1|] eqn:Ep; cbn [from_option] in Hch; unfold id in Hch; [by subst|].
  assert (says ps = []) as Hn. { destruct (says ps) eqn:En; [done|]. destruct (Hsome ltac:(done)) as [? ?]. done. }
  rewrite Hn in Ef. injection Ef as <- <- <-. unfold flush_text, flush, new_channel. cbn. done.
Qed.
End Streams.

(** The same where every pool and every payload will do. *)
Section Anywhere.
Context {V : Type} `{VaultOps V} {K : Type} `{EqDecision K} (v : V).
Context {P E : Type} (step : P -> pool (K := K) -> result E (list P) * pool (K := K)).
Context (key : K) (json_src : bool) (said : P -> option pystr) (ends : P -> bool).

Abbreviation says := (says said).

(** What a step owes the watched channel. *)
Definition channel_step : Prop := forall p pl outs pl', step p pl = (Ok outs, pl') ->
  p_fuzzy pl' = p_fuzzy pl /\
  if ends p then
    concat (says outs) = match pool_find key pl with Some ch => flush_text v ch | None => [] end /\ pool_find key pl' = None
  else match said p with
       | Some t => concat (says outs) = (feed_text v (channel_at key json_src pl) t).1 /\ pool_find key pl' = Some (feed_text v (channel_at key json_src pl) t).2
       | None => concat (says outs) = [] /\ pool_find key pl' = pool_find key pl
       end.

Lemma channel_step_anywhere : channel_step -> channel_step_on v step key json_src said ends (fun _ => True) (fun _ => True).
Proof. intros Hs p pl outs pl' _ _ E1. split; [done|]. by apply Hs. Qed.

Lemma any_well (ps : list P) : Forall (fun _ => True) ps.
Proof. induction ps; by constructor. Qed.

Lemma channel_life : channel_step -> forall ps last pl outs pl', Forall (fun p => ends p = false) ps -> ends last = true -> pool_find key pl = None ->
  run_stream step (ps ++ [last]) pl = (Ok outs, pl') ->
  concat (says outs) = (stream v (new_channel json_src (p_fuzzy pl)) ∅ (says ps)).1 /\ pool_find key pl' = None.
Proof. intros Hs%channel_step_anywhere ps last pl outs pl'. apply (channel_life_on v step key json_src said ends _ _ Hs); [done|apply any_well]. Qed.
End Anywhere.
