(* ===== verification/Anthropic.v ===== *)
(** * The Anthropic adapter -- src/llm_redact/providers/anthropic.py

    The Messages API's request preparation and its answers: the event stream rewritten on
    a channel per content block, batch results line by line, and the files and containers
    an answer names.  [json_text] and the reading of a JSON text are parameters. *)

From S2P Require Import Prelude PyRegex Json Placeholders JsonWalk JsonFacts Vault Rehydrate Sse Detection Redactor Adapters Channels.

Local Open Scope mon_scope.

(** ** Indexes as keys of a dict

    Numbers are known by their exact decimal value (Python rounds a literal with a
    fraction or an exponent to a double), so 1, 1.0 and true are one key. *)
Inductive hashed : Type := HNum (mantissa exponent : Z) | HText (s : pystr) | HNone.
#[export] Instance hashed_eq_dec : EqDecision hashed.
Proof. solve_decision. Defined.

(** The exact value of a number's text: digits, then a point's and an exponent's shift;
    a text with anything else (NaN) is a key of its own. *)
Fixpoint shift_out (fuel : nat) (m e : Z) : Z * Z :=
  match fuel with
  | O => (m, e)
  | S fuel => if (m mod 10 =? 0) && negb (m =? 0) then shift_out fuel (m / 10) (e + 1) else (m, e)
  end.

Definition signed (s : pystr) : Z * pystr :=
  match s with c :: r => if c =? 45 then (-1, r) else if c =? 43 then (1, r) else (1, s) | [] => (1, []) end.

Definition hash_number (repr : pystr) : hashed :=
  let body := mantissa repr in
  let exponent := drop (S (length body)) repr in
  let '(sign, digits) := signed body in
  let '(whole, fraction) := partition_char 46 digits in
  let '(esign, edigits) := signed exponent in
  if forallb is_09 whole && forallb is_09 fraction && forallb is_09 edigits then
    let m := int_of_digits (whole ++ fraction) in
    if m =? 0 then HNum 0 0
    else let '(m, e) := shift_out (length repr) m (esign * int_of_digits edigits - zlen fraction) in HNum (sign * m) e
  else HText (63 :: repr).

(** None: unhashable, a [TypeError]. *)
Definition hash_key (v : json) : option hashed :=
  match v with
  | JNull => Some HNone
  | JBool b => Some (HNum (if b then 1 else 0) 0)
  | JNum repr => Some (hash_number repr)
  | JStr s => Some (HText (34 :: s))
  | JList _ | JDict _ => None
  end.

(** The stream's channels: text, thinking, a tool's input, the legacy completion. *)
Inductive channel_kind : Type := KText | KThinking | KTool.
Inductive channel_key : Type := Block (kind : channel_kind) (index : hashed) | LegacyCompletion.
#[export] Instance channel_kind_eq_dec : EqDecision channel_kind.
Proof. solve_decision. Defined.
#[export] Instance channel_key_eq_dec : EqDecision channel_key.
Proof. solve_decision. Defined.

(** What a malformed event raises: an attribute of what is no object, a text that is no
    string, an index that cannot be hashed. *)
Inductive event_error : Type := AttributeError | TypeError.

(** ** The note *)
Definition SYSTEM_NOTE : pystr :=
  lit "Some values in this conversation have been replaced with privacy tokens of the form " ++ [LAQUO] ++ lit "TYPE_NNN" ++ [RAQUO] ++
  lit " (for example " ++ [LAQUO] ++ lit "EMAIL_000" ++ [RAQUO] ++
  lit "). Treat each token as an opaque identifier for the real value and reproduce every token exactly, character for character, whenever you refer to it.".

Definition inject_anthropic_system_note (body : list (pystr * json)) : list (pystr * json) :=
  match jget_null body (lit "system") with
  | JNull => jset body (lit "system") (JStr SYSTEM_NOTE)
  | JStr system => jset body (lit "system") (JStr (system ++ [10; 10] ++ SYSTEM_NOTE))
  | JList system => jset body (lit "system") (JList (system ++ [JDict [(lit "type", JStr (lit "text")); (lit "text", JStr SYSTEM_NOTE)]]))
  | _ => body
  end.

(** [AnthropicAdapter.inject_system_note]: per entry of a batch, else on the body. *)
Definition inject_system_note (body : list (pystr * json)) : list (pystr * json) :=
  match jget body (lit "requests") with
  | Some (JList requests) =>
      jset body (lit "requests") (JList (map (fun item =>
        match item with
        | JDict fields =>
            match jget fields (lit "params") with
            | Some (JDict params) => JDict (jset fields (lit "params") (JDict (inject_anthropic_system_note params)))
            | _ => item
            end
        | _ => item
        end) requests))
  | _ => inject_anthropic_system_note body
  end.

Definition on_dict (f : list (pystr * json) -> list (pystr * json)) (v : json) : json :=
  match v with JDict items => JDict (f items) | _ => v end.

(** [AnthropicAdapter.prepare_request]: the MCP servers' configuration is not scanned. *)
Definition prepare_messages {V O} `{VaultOps V} `{OverrideOps O} (rd : redactor) (inject_note : bool) (mcp_exempt : gset pystr)
    (body : list (pystr * json)) : M (rstate V O) refusal (json * nat) :=
  match jget body (lit "mcp_servers") with
  | Some (JList servers) =>
      let stripped := List.filter (fun kv => negb (bool_decide (kv.1 = lit "mcp_servers"))) body in
      r <~ prepare_request rd (on_dict inject_system_note) inject_note mcp_exempt (JDict stripped);;
      mret (on_dict (fun prepared => jset prepared (lit "mcp_servers") (JList servers)) r.1, r.2)
  | _ => prepare_request rd (on_dict inject_system_note) inject_note mcp_exempt (JDict body)
  end.

(** ** The event stream *)
Section Stream.
Context {V : Type} `{VaultOps V} (v : V).

Abbreviation pool := (Rehydrate.pool (K := channel_key)).

(** What [delta_type] writes: its channel, whether it is JSON source, and its field. *)
Definition delta_shape (delta_type : pystr) : option (channel_kind * bool * pystr) :=
  if bool_decide (delta_type = lit "text_delta") then Some (KText, false, lit "text")
  else if bool_decide (delta_type = lit "thinking_delta") then Some (KThinking, false, lit "thinking")
  else if bool_decide (delta_type = lit "input_json_delta") then Some (KTool, true, lit "partial_json")
  else None.

(** [payload.get("index", 0)] *)
Definition index_of (payload : list (pystr * json)) : json := default (JNum (lit "0")) (jget payload (lit "index")).

(** One flush delta of a stopped block. *)
Definition flush_delta (index : json) (delta_type field text : pystr) : list (pystr * json) :=
  [(lit "type", JStr (lit "content_block_delta")); (lit "index", index);
   (lit "delta", JDict [(lit "type", JStr delta_type); (field, JStr text)])].

Definition flush_block (index : json) (key : hashed) (shape : pystr * channel_kind * pystr) (st : list (list (pystr * json)) * pool)
    : list (list (pystr * json)) * pool :=
  let '(delta_type, kind, field) := shape in
  let '(leftover, pl) := pool_flush v (Block kind key) st.2 in
  (match leftover with [] => st.1 | _ => st.1 ++ [flush_delta index delta_type field leftover] end, pl).

Definition channel_shapes : list (pystr * channel_kind * pystr) :=
  [(lit "text_delta", KText, lit "text"); (lit "thinking_delta", KThinking, lit "thinking"); (lit "input_json_delta", KTool, lit "partial_json")].

(** An element of the result: the payload itself, or a new one. *)
Inductive out_item : Type := Unchanged | Rewritten (p : list (pystr * json)).

(** [rehydrate_messages_payload]: None for an event it does not rewrite. *)
Definition rehydrate_messages_payload (payload : list (pystr * json)) (pl : pool)
    : result event_error (option (list out_item)) * pool :=
  match jstr payload (lit "type") with
  | Some ty =>
      if bool_decide (ty = lit "content_block_delta") then
        match default (JDict []) (jget payload (lit "delta")) with
        | JDict delta =>
            match jstr delta (lit "type") ≫= delta_shape with
            | Some (kind, json_src, field) =>
                match hash_key (index_of payload) with
                | None => (Raise TypeError, pl)
                | Some key =>
                    match default (JStr []) (jget delta field) with
                    | JStr text =>
                        let '(out, pl) := pool_feed v (Block kind key) json_src text pl in
                        (Ok (Some [Rewritten (jset payload (lit "delta") (JDict (jset delta field (JStr out))))]), pl)
                    | _ => (Raise TypeError, (pool_get (Block kind key) json_src pl).2)
                    end
                end
            | None => (Ok None, pl)
            end
        | _ => (Raise AttributeError, pl)
        end
      else if bool_decide (ty = lit "content_block_stop") then
        match hash_key (index_of payload) with
        | None => (Raise TypeError, pl)
        | Some key =>
            let '(synthetic, pl) := fold_left (fun st shape => flush_block (index_of payload) key shape st) channel_shapes ([], pl) in
            (Ok (Some (map Rewritten synthetic ++ [Unchanged])), pl)
        end
      else (Ok None, pl)
  | None => (Ok None, pl)
  end.

(** What the caller forwards of an event not rewritten: the event itself. *)
Definition step_payload (payload : list (pystr * json)) (pl : pool) : result event_error (list (list (pystr * json))) * pool :=
  match rehydrate_messages_payload payload pl with
  | (Ok (Some out), pl) => (Ok (map (fun i => match i with Unchanged => payload | Rewritten p => p end) out), pl)
  | (Ok None, pl) => (Ok [payload], pl)
  | (Raise e, pl) => (Raise e, pl)
  end.

(** *** Over server-sent events *)
Context (loads_text : pystr -> document) (dumps : json -> pystr).

Definition PASSTHROUGH_EVENTS : list pystr :=
  map lit ["message_start"; "message_delta"; "message_stop"; "ping"; "error"; "content_block_start"]%string.

Definition with_data (e : SSEEvent) (d : pystr) : SSEEvent := mk_event (event e) d (ev_id e) (comments e).

(** The event as it was for the payload itself, its data replaced for its rewritten form,
    a flush delta in an event of its own. *)
Definition event_of (e : SSEEvent) (payload : list (pystr * json)) (item : out_item) : SSEEvent :=
  match item with
  | Unchanged => e
  | Rewritten p =>
      if bool_decide (jget_null p (lit "type") = jget_null payload (lit "type")) then with_data e (dumps (JDict p))
      else mk_event (Some (lit "content_block_delta")) (dumps (JDict p)) None []
  end.

Definition rewritten (e : SSEEvent) (payload : list (pystr * json)) (pl : pool) : result event_error (list SSEEvent) * pool :=
  match rehydrate_messages_payload payload pl with
  | (Ok (Some items), pl) => (Ok (map (event_of e payload) items), pl)
  | (Ok None, pl) => (Ok [e], pl)
  | (Raise err, pl) => (Raise err, pl)
  end.

Definition legacy_event (e : SSEEvent) (payload : list (pystr * json)) (completion : pystr) (pl : pool) : list SSEEvent * pool :=
  let '(new_text, pl) := pool_feed v LegacyCompletion false completion pl in
  let '(last, pl) := if truthy (jget_null payload (lit "stop_reason")) then pool_flush v LegacyCompletion pl else ([], pl) in
  let new_text := new_text ++ last in
  ([if bool_decide (new_text = completion) then e else with_data e (dumps (JDict (jset payload (lit "completion") (JStr new_text))))], pl).

(** [AnthropicAdapter.rehydrate_event] *)
Definition rehydrate_event (e : SSEEvent) (pl : pool) : result event_error (list SSEEvent) * pool :=
  if match event e with Some name => bool_decide (name ∈ PASSTHROUGH_EVENTS) | None => false end || bool_decide (data e = []) then (Ok [e], pl)
  else match loads_bounded (loads_text (data e)) with
       | Ok (JDict payload) =>
           match jstr payload (lit "type"), jstr payload (lit "completion") with
           | Some ty, Some completion =>
               if bool_decide (ty = lit "completion") then let '(es, pl) := legacy_event e payload completion pl in (Ok es, pl)
               else rewritten e payload pl
           | _, _ => rewritten e payload pl
           end
       | _ => (Ok [e], pl)
       end.

(** [AnthropicAdapter.rehydrate_ndjson_line]; [read] is the bounded parse of a line's
    bytes and [json_bytes] the encoder's. *)
Definition rehydrate_ndjson_line (passthrough : bool) (read : pybytes -> document) (json_bytes : json -> pybytes) (line : pybytes) (pl : pool)
    : pybytes * pool :=
  match loads_bounded (read line) with
  | Ok (JDict items) =>
      match transform_strings (E := event_error) (fun text pl => let (out, pl) := rehydrate_whole v false text pl in (Ok out, pl))
              STRUCTURAL_KEYS (fun _ => None) passthrough (JDict items) pl with
      | (Ok rehydrated, pl) => (if bool_decide (rehydrated = JDict items) then line else json_bytes rehydrated, pl)
      | (Raise _, pl) => (line, pl)
      end
  | _ => (line, pl)
  end.
End Stream.

(** ** Files and containers an answer names *)
Definition kind_ends (items : list (pystr * json)) (suffix : pystr) : bool :=
  match jstr items (lit "type") with Some k => ends_with suffix k | None => false end.

(** A non-empty string under a key. *)
Definition jtext (items : list (pystr * json)) (key : pystr) : option pystr :=
  match jstr items key with Some [] => None | o => o end.

Definition output_file_id (output : json) : list pystr :=
  match output with
  | JDict items => if kind_ends items (lit "_output") then match jtext items (lit "file_id") with Some i => [i] | None => [] end else []
  | _ => []
  end.

Definition result_file_ids (block : json) : list pystr :=
  match block with
  | JDict items =>
      if kind_ends items (lit "code_execution_tool_result") then
        match jget items (lit "content") with
        | Some (JDict result) => match jget result (lit "content") with Some (JList outputs) => flat_map output_file_id outputs | _ => [] end
        | _ => []
        end
      else []
  | _ => []
  end.

Definition generated_file_ids (blocks : json) : list pystr :=
  match blocks with JList l => from_keys (flat_map result_file_ids l) | _ => [] end.

Definition container_ids (container : json) : list pystr :=
  match container with JDict items => match jtext items (lit "id") with Some i => [i] | None => [] end | _ => [] end.

(** [path.rstrip("/")] *)
Definition rstrip_slash (path : pystr) : pystr := rstrip_char 47 path.

Definition creates_message (path : pystr) : bool := bool_decide (rstrip_slash path = lit "/v1/messages").

Definition message_ids (items : list (pystr * json)) : list pystr :=
  from_keys (generated_file_ids (jget_null items (lit "content")) ++ container_ids (jget_null items (lit "container"))).

Definition object_ids_from_body (path : pystr) (body : json) : list pystr :=
  match body with
  | JDict items => if creates_message path then message_ids items else match jtext items (lit "id") with Some i => [i] | None => [] end
  | _ => []
  end.

Definition quoted_key (key : string) : pystr := 34 :: lit key ++ [34].

Definition object_ids_from_event (loads_text : pystr -> document) (path : pystr) (data : pystr) : list pystr :=
  if creates_message path && negb (contains_sub (quoted_key "file_id") data) && negb (contains_sub (quoted_key "container") data) then []
  else match loads_bounded (loads_text data) with
       | Ok payload =>
           if creates_message path then
             match payload with
             | JDict items =>
                 match jstr items (lit "type") with
                 | Some kind =>
                     if bool_decide (kind = lit "content_block_start") then generated_file_ids (JList [jget_null items (lit "content_block")])
                     else if bool_decide (kind = lit "message_delta") then
                       match jget_null items (lit "delta") with JDict delta => container_ids (jget_null delta (lit "container")) | _ => [] end
                     else if bool_decide (kind = lit "message_start") then
                       match jget_null items (lit "message") with JDict message => message_ids message | _ => [] end
                     else []
                 | None => []
                 end
             | _ => []
             end
           else object_ids_from_body path payload
       | Raise _ => []
       end.
