(* ===== verification/AnthropicFacts.v ===== *)
(** * What the Anthropic event stream restores

    The deltas of one content block, interleaved with any other events and cut anywhere,
    say what the restored whole says. *)

From S2P Require Import Prelude PyRegex Json Placeholders JsonWalk TokenSearch Vault Rehydrate Streaming JsonSource Sse.
From S2P Require Import Detection Overlaps Redactor Winners Redaction RoundTrip Adapters AdapterFacts Channels Anthropic.

Lemma jget_eq items k v : jget (dict_set items k v) k = Some v.
Proof. rewrite jget_set. by rewrite decide_True. Qed.

Lemma jget_ne items k v k' : k <> k' -> jget (dict_set items k v) k' = jget items k'.
Proof. intros Hk. rewrite jget_set. by rewrite decide_False. Qed.

(** ** One block's channel *)
Section Block.
Context {V : Type} `{VaultOps V} (v : V) (kind : channel_kind) (key : hashed).

Definition is_source (kind : channel_kind) : bool := match kind with KTool => true | _ => false end.

Definition field_of (kind : channel_kind) : pystr := match kind with KText => lit "text" | KThinking => lit "thinking" | KTool => lit "partial_json" end.

(** The text a delta of the block carries, and whether a payload stops the block. *)
Definition block_said (payload : list (pystr * json)) : option pystr :=
  if bool_decide (jstr payload (lit "type") = Some (lit "content_block_delta")) && bool_decide (hash_key (index_of payload) = Some key) then
    match jget payload (lit "delta") with
    | Some (JDict delta) =>
        match jstr delta (lit "type") ≫= delta_shape with
        | Some (k, _, field) => if bool_decide (k = kind) then match default (JStr []) (jget delta field) with JStr text => Some text | _ => None end else None
        | None => None
        end
    | _ => None
    end
  else None.

Definition block_ends (payload : list (pystr * json)) : bool :=
  bool_decide (jstr payload (lit "type") = Some (lit "content_block_stop")) && bool_decide (hash_key (index_of payload) = Some key).

Lemma delta_shape_kind ty k j f : delta_shape ty = Some (k, j, f) -> j = is_source k /\ f = field_of k.
Proof. unfold delta_shape. repeat case_bool_decide; by intros [= <- <- <-]. Qed.

Lemma type_not_field k : field_of k <> lit "type".
Proof. by destruct k. Qed.

(** A payload with another delta in place of its own says that delta's text. *)
Lemma said_rewritten payload delta k j f text :
  jstr payload (lit "type") = Some (lit "content_block_delta") -> jstr delta (lit "type") ≫= delta_shape = Some (k, j, f) ->
  block_said (jset payload (lit "delta") (JDict (jset delta f (JStr text)))) =
    if bool_decide (hash_key (index_of payload) = Some key) && bool_decide (k = kind) then Some text else None.
Proof.
  intros Ht Hd. assert (f <> lit "type") as Hf. { destruct (jstr delta (lit "type")) as [ty|]; [|done]. apply delta_shape_kind in Hd as [_ ->]. apply type_not_field. }
  unfold block_said, index_of, jstr, jset in *. rewrite !(jget_ne payload) by done. rewrite Ht.
  rewrite (bool_decide_eq_true_2 (Some (lit "content_block_delta") = _)) by done. cbn [andb]. case_bool_decide; [|done]. cbn [andb].
  rewrite jget_eq, (jget_ne delta) by done. rewrite Hd. case_bool_decide; [|done]. by rewrite jget_eq.
Qed.

(** The delta type of a channel. *)
Definition delta_type_of (k : channel_kind) : pystr := lit (match k with KText => "text_delta" | KThinking => "thinking_delta" | KTool => "input_json_delta" end).

Lemma said_flush index k text : block_said (flush_delta index (delta_type_of k) (field_of k) text) =
  if bool_decide (hash_key index = Some key) && bool_decide (k = kind) then Some text else None.
Proof.
  unfold block_said. change (index_of _) with index. rewrite (bool_decide_eq_true_2 (jstr _ _ = _)) by done. cbn [andb]. case_bool_decide; [|done]. by destruct k, kind.
Qed.

(** The text a stop flushes on the channel. *)
Definition flushed (pl : pool (K := channel_key)) : pystr := match pool_find (Block kind key) pl with Some ch => flush_text v ch | None => [] end.

Lemma flush_one index k key' acc pl : hash_key index = Some key' ->
  let r := flush_block v index key' (delta_type_of k, k, field_of k) (acc, pl) in
  let ours := bool_decide (key' = key) && bool_decide (k = kind) in
  concat (says block_said r.1) = concat (says block_said acc) ++ (if ours then flushed pl else []) /\
  p_fuzzy r.2 = p_fuzzy pl /\ pool_find (Block kind key) r.2 = if ours then None else pool_find (Block kind key) pl.
Proof.
  intros Hi. unfold flush_block. cbn [snd fst]. pose proof (pool_flush_spec v (Block k key') pl) as (Ho & Hf & Hp).
  destruct (pool_flush v (Block k key') pl) as [leftover pl'] eqn:E. cbn [fst snd] in *.
  destruct (bool_decide (key' = key) && bool_decide (k = kind)) eqn:Eo; cbn [fst snd].
  - apply andb_true_iff in Eo as [->%bool_decide_eq_true ->%bool_decide_eq_true]. fold (flushed pl) in Ho. split_and!; [|done|by rewrite Hp, decide_True].
    destruct leftover as [|c l]; [by rewrite <- Ho, app_nil_r|]. rewrite says_app, concat_app. f_equal. cbn [says omap list_omap].
    rewrite said_flush, Hi, !bool_decide_eq_true_2 by done. cbn. by rewrite <- Ho, app_nil_r.
  - assert (Block k key' <> Block kind key) as Hne.
    { intros [= -> ->]. by rewrite !bool_decide_eq_true_2 in Eo by done. }
    split_and!; [|done|by rewrite Hp, decide_False]. rewrite app_nil_r. destruct leftover as [|c l]; [done|]. rewrite says_app. cbn [says omap list_omap].
    rewrite said_flush, Hi. rewrite (bool_decide_ext (Some key' = Some key) (key' = key)) by (split; [by intros [= ->]|by intros ->]). rewrite Eo. by rewrite app_nil_r.
Qed.

(** A stop of the block flushes its channel; a stop of another leaves it. *)
Lemma flush_all index key' pl : hash_key index = Some key' ->
  let r := fold_left (fun st shape => flush_block v index key' shape st) channel_shapes ([], pl) in
  concat (says block_said r.1) = (if bool_decide (key' = key) then flushed pl else []) /\
  p_fuzzy r.2 = p_fuzzy pl /\ pool_find (Block kind key) r.2 = if bool_decide (key' = key) then None else pool_find (Block kind key) pl.
Proof.
  intros Hi. change channel_shapes with (map (fun k => (delta_type_of k, k, field_of k)) [KText; KThinking; KTool]). cbn [map fold_left].
  pose proof (flush_one index KText key' [] pl Hi) as H1. destruct (flush_block v index key' (delta_type_of KText, _, _) _) as [a1 p1].
  pose proof (flush_one index KThinking key' a1 p1 Hi) as H2. destruct (flush_block v index key' (delta_type_of KThinking, _, _) _) as [a2 p2].
  pose proof (flush_one index KTool key' a2 p2 Hi) as H3. destruct (flush_block v index key' (delta_type_of KTool, _, _) _) as [a3 p3].
  cbn [fst snd] in *. destruct H1 as (S1 & F1 & P1), H2 as (S2 & F2 & P2), H3 as (S3 & F3 & P3). rewrite S3, S2, S1, P3, P2, P1, F3, F2, F1. unfold flushed.
  case_bool_decide; [|done]. rewrite P2, P1. destruct kind; cbn; by rewrite ?app_nil_r.
Qed.

(** What [rehydrate_messages_payload] owes the block's channel. *)
Lemma block_channel : channel_step v (step_payload v) (Block kind key) (is_source kind) block_said block_ends.
Proof.
  intros payload pl outs pl'. unfold step_payload, rehydrate_messages_payload, block_ends.
  destruct (jstr payload (lit "type")) as [ty|] eqn:Et.
  2:{ intros [= <- <-]. cbn. unfold block_said. by rewrite Et. }
  destruct (bool_decide (ty = lit "content_block_delta")) eqn:Ed; [apply bool_decide_eq_true in Ed as ->|].
  - rewrite (bool_decide_eq_false_2 (Some (lit "content_block_delta") = Some (lit "content_block_stop"))) by done. cbn [andb].
    destruct (default (JDict []) (jget payload (lit "delta"))) as [| | | | |delta] eqn:Eg; try done.
    assert (Hquiet : jstr delta (lit "type") ≫= delta_shape = None -> block_said payload = None).
    { intros Hd. unfold block_said. destruct (_ && _); [|done]. destruct (jget payload (lit "delta")) as [dv|]; [|done]. cbn in Eg. subst dv. by rewrite Hd. }
    destruct (jstr delta (lit "type") ≫= delta_shape) as [[[k j] f]|] eqn:Es.
    2:{ intros [= <- <-]. rewrite Hquiet by done. cbn. by rewrite Hquiet by done. }
    assert (Ed : jget payload (lit "delta") = Some (JDict delta)).
    { destruct (jget payload (lit "delta")); cbn in Eg; [by subst|]. injection Eg as <-. done. }
    destruct (hash_key (index_of payload)) as [key'|] eqn:Ek; [|done].
    destruct (default (JStr []) (jget delta f)) as [| | |text| |] eqn:Ex; try done.
    pose proof (pool_feed_spec v (Block k key') j text pl) as (Ho & Hf & Hp).
    destruct (pool_feed v (Block k key') j text pl) as [out pl1] eqn:Ef. intros [= <- <-]. split; [done|]. cbn [fst snd map] in *.
    assert (block_said payload = if bool_decide (Some key' = Some key) && bool_decide (k = kind) then Some text else None) as ->.
    { unfold block_said. rewrite Et, Ek, Ed, Es, (bool_decide_eq_true_2 (Some (lit "content_block_delta") = _)) by done. cbn [andb].
      case_bool_decide; [|done]. cbn [andb]. case_bool_decide; [|done]. by rewrite Ex. }
    cbn [says omap list_omap]. rewrite (said_rewritten payload delta k j f out Et Es), Ek.
    destruct (bool_decide (Some key' = Some key) && bool_decide (k = kind)) eqn:Eo.
    + apply andb_true_iff in Eo as [E1%bool_decide_eq_true ->%bool_decide_eq_true]. injection E1 as ->.
      assert (j = is_source kind) as ->. { destruct (jstr delta (lit "type")); [|done]. by apply delta_shape_kind in Es as [-> _]. }
      split; [by cbn; rewrite app_nil_r|]. by rewrite Hp, decide_True.
    + split; [done|]. rewrite Hp, decide_False; [done|]. intros [= -> ->]. by rewrite !bool_decide_eq_true_2 in Eo by done.
  - apply bool_decide_eq_false in Ed. assert (Hnone : block_said payload = None).
    { unfold block_said. rewrite Et, bool_decide_eq_false_2; [done|]. by intros [= ->]. }
    destruct (bool_decide (ty = lit "content_block_stop")) eqn:Es; [apply bool_decide_eq_true in Es as ->|].
    2:{ apply bool_decide_eq_false in Es. intros [= <- <-]. rewrite bool_decide_eq_false_2 by (by intros [= ->]). cbn [andb]. rewrite Hnone. cbn. by rewrite Hnone. }
    destruct (hash_key (index_of payload)) as [key'|] eqn:Ek; [|done].
    pose proof (flush_all (index_of payload) key' pl Ek) as Hall. destruct (fold_left _ channel_shapes _) as [syn pl1]. cbn [fst snd] in Hall. intros [= <- <-].
    destruct Hall as (Ha & Hf & Hp). split; [done|]. rewrite (bool_decide_eq_true_2 (Some (lit "content_block_stop") = _)) by done. cbn [andb].
    rewrite map_app, map_map, map_id, says_app, concat_app, Ha. cbn [map says omap list_omap]. rewrite Hnone, app_nil_r.
    rewrite (bool_decide_ext (Some key' = Some key) (key' = key)) by (split; [by intros [= ->]|by intros ->]). by case_bool_decide.
Qed.
End Block.

(** ** Well-formed events never raise *)
Definition event_ok (payload : list (pystr * json)) : bool :=
  let hashable := bool_decide (is_Some (hash_key (index_of payload))) in
  match jstr payload (lit "type") with
  | Some ty =>
      if bool_decide (ty = lit "content_block_delta") then
        match default (JDict []) (jget payload (lit "delta")) with
        | JDict delta =>
            match jstr delta (lit "type") ≫= delta_shape with
            | Some (_, _, field) => hashable && match default (JStr []) (jget delta field) with JStr _ => true | _ => false end
            | None => true
            end
        | _ => false
        end
      else if bool_decide (ty = lit "content_block_stop") then hashable else true
  | None => true
  end.

Lemma step_returns {V} `{VaultOps V} (v : V) payload pl : event_ok payload = true -> exists outs pl', step_payload v payload pl = (Ok outs, pl').
Proof.
  unfold event_ok, step_payload, rehydrate_messages_payload. destruct (jstr payload (lit "type")) as [ty|]; [|by eauto].
  case_bool_decide.
  - destruct (default _ (jget payload _)) as [| | | | |delta]; try done. destruct (jstr delta _ ≫= _) as [[[k j] f]|]; [|by eauto].
    intros [[key ->]%bool_decide_eq_true Hx]%andb_true_iff. destruct (default _ (jget delta f)); try done. destruct (pool_feed _ _ _ _ _). by eauto.
  - case_bool_decide; [|by eauto]. intros [key ->]%bool_decide_eq_true. destruct (fold_left _ _ _). by eauto.
Qed.

Lemma stream_returns {V} `{VaultOps V} (v : V) ps : Forall (fun p => event_ok p = true) ps ->
  forall pl, exists outs pl', run_stream (step_payload v) ps pl = (Ok outs, pl').
Proof.
  induction 1 as [|p ps Hp _ IH]; intros pl; cbn [run_stream]; [by eauto|]. destruct (step_returns v p pl Hp) as (o & pl1 & ->).
  destruct (IH pl1) as (more & pl2 & ->). by eauto.
Qed.

(** ** A block's deltas *)
Section Properties.
Context {V : Type} `{VaultLaws V} (v : V).

(** The deltas of a content block, between any other events of the stream and cut
    anywhere, say what one restoration of the block's whole text says: plain text for text
    and thinking, JSON source for a tool's input.  The block's stop ends its channel, and
    a well-formed stream is rewritten without an exception. *)
Theorem block_stream_restores kind key ps last pl : vinv v ->
  Forall (fun p => event_ok p = true) (ps ++ [last]) ->
  Forall (fun p => block_ends key p = false) ps -> block_ends key last = true -> pool_find (Block kind key) pl = None ->
  let text := concat (says (block_said kind key) ps) in
  stream_safe (p_fuzzy pl) v (is_source kind) (if is_source kind then norm text else text) = true ->
  exists outs pl', run_stream (step_payload v) (ps ++ [last]) pl = (Ok outs, pl') /\
    concat (says (block_said kind key) outs) = ((if is_source kind then rehydrate_json_source_text else rehydrate_text) (p_fuzzy pl) v ∅ text).1 /\
    pool_find (Block kind key) pl' = None.
Proof.
  intros Hv Hok Hends Hlast Hnone text Hsafe. destruct (stream_returns v _ Hok pl) as (outs & pl' & Hrun). exists outs, pl'. split; [done|].
  destruct (channel_life v _ _ _ _ _ (block_channel v kind key) ps last pl outs pl' Hends Hlast Hnone Hrun) as [-> Hend]. split; [|done].
  apply stream_safe_ok in Hsafe; [|done]. destruct (is_source kind); [by rewrite stream_source|by rewrite stream_pieces].
Qed.

(** A redacted text that a model's answer repeats in the deltas of a text or thinking
    block comes back to the client as the original text, however the deltas cut it and
    whatever else the stream carries between them; the vault may have grown meanwhile. *)
Theorem echoed_block_restored {O} `{OverrideOps O} rd original (s : rstate V O) redacted s' kind key ps last pl :
  detector_ok rd -> vinv (vault s) -> mem_char LAQUO original = false ->
  redact_text rd original s = (Ok redacted, s') -> extends (vault s') v -> kind <> KTool ->
  Forall (fun p => event_ok p = true) (ps ++ [last]) ->
  Forall (fun p => block_ends key p = false) ps -> block_ends key last = true -> pool_find (Block kind key) pl = None ->
  concat (says (block_said kind key) ps) = redacted ->
  exists outs pl', run_stream (step_payload v) (ps ++ [last]) pl = (Ok outs, pl') /\
    concat (says (block_said kind key) outs) = original.
Proof.
  intros Hdk Hv Hp Hred Hext Hkind Hok Hends Hlast Hnone Htext. destruct (stream_returns v _ Hok pl) as (outs & pl' & Hrun). exists outs, pl'. split; [done|].
  destruct (channel_life v _ _ _ _ _ (block_channel v kind key) ps last pl outs pl' Hends Hlast Hnone Hrun) as [-> _].
  destruct (redacted_restores rd (p_fuzzy pl) original s redacted s' v Hdk Hv Hp Hred Hext) as [Hsafe Hr].
  assert (is_source kind = false) as -> by by destruct kind. rewrite stream_pieces, Htext by by rewrite Htext. apply Hr.
Qed.
End Properties.

(** *** Two blocks interleaved: a text block's token cut in three, a tool's input *)
Definition demo_delta (index : string) (ty field : string) (text : pystr) : list (pystr * json) :=
  [(lit "type", JStr (lit "content_block_delta")); (lit "index", JNum (lit index)); (lit "delta", JDict [(lit "type", JStr (lit ty)); (lit field, JStr text)])].
Definition demo_stop (index : string) : list (pystr * json) := [(lit "type", JStr (lit "content_block_stop")); (lit "index", JNum (lit index))].
Definition demo_token : pystr := LAQUO :: lit "EMAIL_001" ++ [RAQUO].

Definition demo_pool : pool (K := channel_key) := mk_pool false [] ∅.

Definition demo_stream : list (list (pystr * json)) :=
  [demo_delta "0" "text_delta" "text" (lit "mail " ++ take 4 demo_token); demo_delta "1" "input_json_delta" "partial_json" (lit "{");
   demo_delta "0" "text_delta" "text" (take 5 (drop 4 demo_token)); demo_stop "1"; demo_delta "0.0" "text_delta" "text" (drop 9 demo_token)].

Lemma block_stream_restores_witness :
  exists outs pl', run_stream (step_payload demo_vault) (demo_stream ++ [demo_stop "0"]) demo_pool = (Ok outs, pl') /\
    concat (says (block_said KText (HNum 0 0)) outs) = lit "mail jo@x.org".
Proof.
  destruct (block_stream_restores demo_vault KText (HNum 0 0) demo_stream (demo_stop "0") demo_pool) as (outs & pl' & Hrun & Ht & _);
    [apply InMemoryVault.vault_of_inv; vm_compute; reflexivity|repeat constructor|repeat constructor|reflexivity|reflexivity|vm_compute; reflexivity|].
  exists outs, pl'. split; [exact Hrun|]. rewrite Ht. vm_compute. reflexivity.
Defined.

(** *** An answer that repeats a redacted message in two thinking deltas *)
Definition demo_redacted : pystr := match (redact_text demo_redactor demo_text demo_state).1 with Ok t => t | Raise _ => [] end.

Definition demo_echo : list (list (pystr * json)) :=
  [demo_delta "3" "thinking_delta" "thinking" (take 8 demo_redacted); demo_delta "0" "text_delta" "text" (lit "ok"); demo_stop "0";
   demo_delta "3" "thinking_delta" "thinking" (drop 8 demo_redacted)].

Lemma echoed_block_restored_witness :
  exists outs pl', run_stream (step_payload (vault (redact_text demo_redactor demo_text demo_state).2)) (demo_echo ++ [demo_stop "3"]) demo_pool = (Ok outs, pl') /\
    concat (says (block_said KThinking (HNum 3 0)) outs) = demo_text.
Proof.
  apply (echoed_block_restored (vault (redact_text demo_redactor demo_text demo_state).2) demo_redactor demo_text demo_state demo_redacted
    (redact_text demo_redactor demo_text demo_state).2 KThinking (HNum 3 0) demo_echo (demo_stop "3") demo_pool).
  - apply demo_redactor_ok.
  - apply InMemoryVault.empty_inv.
  - vm_compute. reflexivity.
  - vm_compute. reflexivity.
  - intros t o Ho. exact Ho.
  - discriminate.
  - repeat (constructor; [vm_compute; reflexivity|]). constructor.
  - repeat (constructor; [vm_compute; reflexivity|]). constructor.
  - vm_compute. reflexivity.
  - reflexivity.
  - vm_compute. reflexivity.
Defined.
