(* ===== verification/Attribution.v ===== *)
(** * Whose request it is -- src/llm_redact/providers/attribution.py

    An unrecognized request is attributed to a provider by its path family, else by the
    one marker it carries, else to OpenAI by its key or path; anything else to nobody.
    [str.lower] is a parameter. *)

From S2P Require Import Prelude Bytes Detection.

Definition CUSTOM_ROUTE_PREFIX : pystr := lit "/custom/".

Definition family (prefix provider : string) : pystr * pystr := (lit prefix, lit provider).

Definition PATH_FAMILIES : list (pystr * pystr) :=
  [family "/v1beta" "gemini"; family "/upload/v1beta" "gemini"; family "/download/v1beta" "gemini";
   family "/v1/projects" "vertex"; family "/v1/publishers" "vertex"; family "/v1beta1" "vertex"; family "/openai" "azure";
   family "/model" "bedrock"; family "/guardrail" "bedrock"; family "/async-invoke" "bedrock"; family "/api" "ollama"; family "/v2" "cohere";
   family "/v1/messages" "anthropic"; family "/v1/complete" "anthropic"; family "/v1/organizations" "anthropic"].

Definition OPENAI_PREFIXES : list pystr := map lit
  ["/v1/chat"; "/v1/completions"; "/v1/embeddings"; "/v1/models"; "/v1/responses"; "/v1/conversations"; "/v1/files"; "/v1/uploads";
   "/v1/batches"; "/v1/images"; "/v1/audio"; "/v1/videos"; "/v1/moderations"; "/v1/fine_tuning"; "/v1/realtime"; "/v1/vector_stores";
   "/v1/assistants"; "/v1/threads"; "/v1/containers"; "/v1/evals"; "/v1/chatkit"; "/v1/organization"]%string.

Definition under (path prefix : pystr) : bool := bool_decide (path = prefix) || starts_with (prefix ++ lit "/") path.

Definition path_family (path : pystr) : option pystr :=
  if starts_with CUSTOM_ROUTE_PREFIX path then Some (lit "custom:" ++ before_char 47 (drop (length CUSTOM_ROUTE_PREFIX) path))
  else snd <$> List.find (fun f => under path f.1) PATH_FAMILIES.

(** ** [urllib.parse.unquote_plus] *)
Definition hex_value (c : Z) : option Z :=
  if is_09 c then Some (c - 48) else if between 97 102 c then Some (c - 87) else if between 65 70 c then Some (c - 55) else None.

(** The percent escapes of an ASCII run as bytes; one not followed by two hex digits stays. *)
Fixpoint unquote_to_bytes (s : pystr) : pybytes :=
  match s with
  | c :: rest =>
      if c =? 37 then
        match rest with
        | a :: b :: rest' =>
            match hex_value a, hex_value b with
            | Some h, Some l => (16 * h + l) :: unquote_to_bytes rest'
            | _, _ => c :: unquote_to_bytes rest
            end
        | _ => c :: unquote_to_bytes rest
        end
      else c :: unquote_to_bytes rest
  | [] => []
  end.

(** [unquote]: each run of ASCII characters decoded as UTF-8 with replacement, the others
    as they are.  [fuel]: more than the text's length. *)
Fixpoint ascii_run (s : pystr) : pystr * pystr :=
  match s with c :: r => if between 0 127 c then let (a, b) := ascii_run r in (c :: a, b) else ([], s) | [] => ([], []) end.

Fixpoint unquote_go (fuel : nat) (s : pystr) : pystr :=
  match fuel, s with
  | S fuel, c :: r =>
      let (run, rest) := ascii_run s in
      match run with [] => c :: unquote_go fuel r | _ => utf8_replace (unquote_to_bytes run) ++ unquote_go fuel rest end
  | _, _ => []
  end.

Definition unquote (s : pystr) : pystr := if mem_char 37 s then unquote_go (S (length s)) s else s.

Definition unquote_plus (s : pystr) : pystr := unquote (map (fun c => if c =? 43 then 32 else c) s).

Fixpoint lstrip_dollar (s : pystr) : pystr := match s with c :: r => if c =? 36 then lstrip_dollar r else s | [] => [] end.

Section Lower.
Context (str_lower : pystr -> pystr).

Abbreviation headers := (list (pystr * pystr)).

(** A query part's parameter name. *)
Definition param_name (part : pystr) : pystr := lstrip_dollar (str_lower (unquote_plus (before_char 61 part))).

Definition google_key_in_query (query : pystr) : bool :=
  existsb (fun part => match part with [] => false | _ => bool_decide (param_name part = lit "key") end) (split_char 38 query).

Definition header_marker (nv : pystr * pystr) : option pystr :=
  let lowered := str_lower nv.1 in
  if bool_decide (lowered = lit "anthropic-version") then Some (lit "anthropic")
  else if starts_with (lit "x-goog-") lowered then Some (lit "gemini")
  else if starts_with (lit "openai-") lowered then Some (lit "openai")
  else if bool_decide (lowered = lit "x-fern-sdk-name") && starts_with (lit "cohere") (str_lower nv.2) then Some (lit "cohere")
  else None.

Definition provider_markers (hs : headers) (query : pystr) : gset pystr :=
  list_to_set (omap header_marker hs) ∪ (if google_key_in_query query then {[lit "gemini"]} else ∅).

Definition bearer (value : pystr) : option pystr :=
  let value := strip value in
  let (scheme, token) := match find_char 32 value with Some n => (take n value, drop (S n) value) | None => (value, []) end in
  let token := strip token in
  if bool_decide (str_lower scheme = lit "bearer") && starts_with (lit "sk-") token then Some token else None.

(** The first [Authorization] header with an [sk-] key decides. *)
Fixpoint openai_bearer (hs : headers) : bool :=
  match hs with
  | [] => false
  | (name, value) :: hs =>
      if bool_decide (str_lower name = lit "authorization") then
        match bearer value with Some token => negb (starts_with (lit "sk-ant-") token) | None => openai_bearer hs end
      else openai_bearer hs
  end.

Definition attribute (path : pystr) (hs : headers) (query : pystr) : option pystr :=
  match path_family path with
  | Some f => Some f
  | None =>
      let markers := provider_markers hs query in
      if bool_decide (markers = ∅) then
        if openai_bearer hs || existsb (under path) OPENAI_PREFIXES then Some (lit "openai") else None
      else match elements markers with [m] => Some m | _ => None end
  end.
End Lower.
