(* ===== verification/AttributionFacts.v ===== *)
(** * Requests are attributed only positively

    No request goes to a provider by default, none that carries one provider's marker
    goes to another, and the order of the path families decides nothing. *)

From S2P Require Import Prelude Bytes Attribution.

(** ** Whole path segments *)
(** Of two prefixes a path is under, one is the other's or under it. *)
Lemma under_comparable path p q : under path p = true -> under path q = true -> under p q = true \/ under q p = true.
Proof.
  assert (Hpre : forall r, under path r = true -> exists t, path ++ [47] = r ++ 47 :: t).
  { intros r [->%bool_decide_eq_true|[t ->]%starts_with_spec]%orb_true_iff; [by exists []|]. exists (t ++ [47]). cbn. by rewrite <- !app_assoc. }
  intros [t1 H1]%Hpre [t2 H2]%Hpre. rewrite H1 in H2. clear -H2. unfold under.
  revert q H2. induction p as [|c p IH]; intros q H2; destruct q as [|d q]; cbn in H2.
  - left. done.
  - right. apply orb_true_iff. right. injection H2 as <- _. done.
  - left. apply orb_true_iff. right. injection H2 as -> _. done.
  - injection H2 as <- H2. destruct (IH q H2) as [Hu|Hu]; [left|right]; apply orb_true_iff in Hu as [->%bool_decide_eq_true|Hu]; cbn.
    1, 3: by rewrite bool_decide_eq_true_2.
    all: cbn in Hu; by rewrite Z.eqb_refl, Hu, orb_true_r.
Qed.

(** Every path prefix with its provider, OpenAI's too. *)
Definition all_prefixes : list (pystr * pystr) := PATH_FAMILIES ++ map (fun p => (p, lit "openai")) OPENAI_PREFIXES.

Lemma prefixes_apart f g : f ∈ all_prefixes -> g ∈ all_prefixes -> under f.1 g.1 = true -> f = g.
Proof.
  assert (Hall : forallb (fun f => forallb (fun g => negb (under f.1 g.1) || bool_decide (f = g)) all_prefixes) all_prefixes = true) by (vm_compute; reflexivity).
  rewrite !list_elem_of_In. rewrite forallb_forall in Hall. intros Hf Hg Hu. specialize (Hall f Hf). rewrite forallb_forall in Hall. specialize (Hall g Hg).
  rewrite Hu in Hall. by apply bool_decide_eq_true in Hall.
Qed.

(** ** Attribution *)
Section Attribute.
Context (str_lower : pystr -> pystr).

Lemma marker_provider hs query nv m : nv ∈ hs -> header_marker str_lower nv = Some m -> m ∈ provider_markers str_lower hs query.
Proof. intros Hin Hm. unfold provider_markers. apply elem_of_union_l, elem_of_list_to_set, list_elem_of_omap. by exists nv. Qed.

(** An unrecognized request goes to a provider only for a reason of its own: the path
    family it is in -- in whatever order the families are listed --, else the one provider
    its markers name, else OpenAI by its key or path; so one that carries a provider's
    header and is in no family is sent to that provider or to nobody. *)
Theorem attributed_positively path hs query p : attribute str_lower path hs query = Some p ->
  (forall f, f ∈ PATH_FAMILIES -> under path f.1 = true -> path_family path = Some f.2 /\ p = f.2) /\
  (path_family path = None ->
     provider_markers str_lower hs query = {[p]} \/
     (provider_markers str_lower hs query = ∅ /\ p = lit "openai" /\ (openai_bearer str_lower hs = true \/ exists prefix, prefix ∈ OPENAI_PREFIXES /\ under path prefix = true))) /\
  (forall nv m, path_family path = None -> nv ∈ hs -> header_marker str_lower nv = Some m -> p = m).
Proof.
  intros Ha. assert (Hmark : path_family path = None -> provider_markers str_lower hs query = {[p]} \/
     (provider_markers str_lower hs query = ∅ /\ p = lit "openai" /\ (openai_bearer str_lower hs = true \/ exists prefix, prefix ∈ OPENAI_PREFIXES /\ under path prefix = true))).
  { intros Hn. unfold attribute in Ha. rewrite Hn in Ha. case_bool_decide as He.
    - right. destruct (openai_bearer str_lower hs || existsb (under path) OPENAI_PREFIXES) eqn:E; [|done]. injection Ha as <-. split_and!; [done|done|].
      apply orb_true_iff in E as [?|(x & Hx & Hu)%existsb_exists]; [by left|right]. exists x. split; [by apply list_elem_of_In|done].
    - left. destruct (elements (provider_markers str_lower hs query)) as [|m [|m2 l]] eqn:E; try done. injection Ha as ->.
      apply set_eq. intros x. rewrite <- elem_of_elements, E, list_elem_of_singleton, elem_of_singleton. done. }
  split_and!; [|done|].
  - intros f Hf Hu. destruct (starts_with CUSTOM_ROUTE_PREFIX path) eqn:Ec.
    { exfalso. assert (Hcu : under path (lit "/custom") = true) by (unfold under; apply orb_true_iff; by right).
      assert (Hsep : forallb (fun g => negb (under g.1 (lit "/custom")) && negb (under (lit "/custom") g.1)) PATH_FAMILIES = true) by (vm_compute; reflexivity).
      rewrite forallb_forall in Hsep. specialize (Hsep f ltac:(by apply list_elem_of_In)). apply andb_true_iff in Hsep as [S1%negb_true_iff S2%negb_true_iff].
      destruct (under_comparable path f.1 (lit "/custom") Hu Hcu) as [H1|H1]; [by rewrite H1 in S1|by rewrite H1 in S2]. }
    assert (Hpf : path_family path = Some f.2).
    { unfold path_family. rewrite Ec. destruct (List.find (fun g => under path g.1) PATH_FAMILIES) as [g|] eqn:Eg.
      - apply find_some in Eg as [Hg Hug]. cbn. f_equal. f_equal.
        assert (Hin : forall x, x ∈ PATH_FAMILIES -> x ∈ all_prefixes) by (intros x Hx; apply elem_of_app; by left). apply list_elem_of_In in Hg.
        destruct (under_comparable path g.1 f.1 Hug Hu) as [H1|H1]; [by apply prefixes_apart; [apply Hin|apply Hin|]|symmetry; by apply prefixes_apart; [apply Hin|apply Hin|]].
      - exfalso. apply list_elem_of_In in Hf. pose proof (find_none _ _ Eg f Hf) as Hn. cbn in Hn. by rewrite Hu in Hn. }
    split; [done|]. unfold attribute in Ha. rewrite Hpf in Ha. by injection Ha as <-.
  - intros nv m Hn Hin Hm. pose proof (marker_provider hs query nv m Hin Hm) as Hpm. destruct (Hmark Hn) as [E|[E _]]; rewrite E in Hpm.
    + by apply elem_of_singleton in Hpm.
    + by apply not_elem_of_empty in Hpm.
Qed.
End Attribute.

Lemma attributed_positively_witness :
  let hs := [(lit "Anthropic-Version", lit "2023-06-01"); (lit "authorization", lit "Bearer sk-proj-1")] in
  attribute (map ascii_lower) (lit "/v1/models") hs [] = Some (lit "anthropic") /\
  provider_markers (map ascii_lower) hs [] = {[lit "anthropic"]}.
Proof.
  intros hs. split; [vm_compute; reflexivity|].
  destruct (attributed_positively (map ascii_lower) (lit "/v1/models") hs [] (lit "anthropic")) as (_ & H & _); [vm_compute; reflexivity|].
  destruct H as [H|(_ & H & _)]; [vm_compute; reflexivity|exact H|discriminate H].
Defined.
