(* ===== verification/Addressing.v ===== *)
(** * Where a request goes -- src/llm_redact/proxy.py

    What [_handle] decides from the request line and headers alone: the paths it refuses
    to route, method overrides, requests web pages made, credentials dropped when the
    proxy's own is spent, and the other spellings of a recognized route.

    [str.lower], [str.upper], NFKC and the URL parsers are parameters. *)

From S2P Require Import Prelude Bytes PyRegex Sse Detection Attribution.

(** [text.replace(old, new)], [old] not empty; [fuel]: the text's length. *)
Fixpoint replace_go (fuel : nat) (old new s : pystr) : pystr :=
  match fuel, s with
  | S fuel, c :: rest => if starts_with old s then new ++ replace_go fuel old new (drop (length old) s) else c :: replace_go fuel old new rest
  | _, _ => s
  end.

Definition replace_sub (old new s : pystr) : pystr := replace_go (length s) old new s.

(** ** The request's scope *)
Record scope : Type := mk_scope {
  raw_path : option pybytes;
  scope_path : option pystr;
  scope_headers : list (pystr * pystr)
}.

Definition RESERVED_PREFIX : pystr := lit "/__llm-redact".
Definition IDENTITY_PATH_PREFIX : pystr := lit "/u/".
Definition AUTH_PREFIX : pystr := RESERVED_PREFIX ++ lit "/auth".
Definition OWN_HEADER_PREFIX : pystr := lit "x-llm-redact-".

Definition is_auth_path (path : pystr) : bool := starts_with (AUTH_PREFIX ++ lit "/") path.

Definition origin_form_target (s : scope) : bool :=
  match raw_path s with
  | Some raw => starts_with (lit "/") raw
  | None => match scope_path s with Some path => starts_with (lit "/") path | None => false end
  end.

(** *** Dot segments and empty segments

    [_DOT_SEGMENT]: one or two dots after the start or a slash, before a slash or the end
    ([$] also stands before a final newline). *)
Definition segment_end (s : pystr) : bool :=
  match s with [] => true | c :: r => (c =? 47) || ((c =? 10) && match r with [] => true | _ => false end) end.

Definition dots_at (s : pystr) : bool :=
  match s with
  | c :: r => (c =? 46) && (segment_end r || match r with d :: r' => (d =? 46) && segment_end r' | [] => false end)
  | [] => false
  end.

Fixpoint dots_in (starts : bool) (s : pystr) : bool :=
  (starts && dots_at s) || match s with c :: r => dots_in (c =? 47) r | [] => false end.

Definition dot_segment_search (s : pystr) : bool := dots_in true s.

Section Text.
Context (str_lower str_upper : pystr -> pystr).

Definition dot_normalized (path : pystr) : pystr :=
  map (fun c => if c =? 92 then 47 else c) (replace_sub (lit "%5c") (lit "/") (replace_sub (lit "%2e") (lit ".") (str_lower path))).

(** The raw path without its query, a character per byte, and the decoded path. *)
Definition request_paths (s : scope) : list pystr :=
  match raw_path s with Some raw => [before_char 63 raw] | None => [] end ++ match scope_path s with Some path => [path] | None => [] end.

Definition has_dot_segment (s : scope) : bool := existsb (fun p => dot_segment_search (dot_normalized p)) (request_paths s).

Definition has_empty_segment (s : scope) : bool := existsb (fun p => contains_sub (lit "//") (dot_normalized p)) (request_paths s).

(** ** Method overrides *)
Definition METHOD_OVERRIDE_HEADERS : list pystr := map lit ["x-http-method-override"; "x-http-method"; "x-method-override"]%string.

Definition METHOD_OVERRIDE_PARAMS : list pystr :=
  map lit ["_method"; "$method"; "httpmethod"; "$httpmethod"]%string ++ METHOD_OVERRIDE_HEADERS ++ map (fun h => 36 :: h) METHOD_OVERRIDE_HEADERS.

(** The names of [parse_qsl(query, keep_blank_values=True)]. *)
Definition query_names (query : pystr) : list pystr :=
  map (fun part => unquote_plus (before_char 61 part)) (List.filter (fun part => match part with [] => false | _ => true end) (split_char 38 query)).

Inductive override_kind : Type := OverrideHeader | OverrideQuery.

Definition method_override (hs : list (pystr * pystr)) (query : pystr) : option override_kind :=
  if existsb (fun nv => bool_decide (str_lower nv.1 ∈ METHOD_OVERRIDE_HEADERS)) hs then Some OverrideHeader
  else if existsb (fun name => bool_decide (str_lower name ∈ METHOD_OVERRIDE_PARAMS)) (query_names query) then Some OverrideQuery
  else None.

(** ** Credentials *)
Definition CREDENTIAL_HEADERS : list pystr := map lit
  ["cookie"; "password"; "passwd"; "ocp-apim-subscription-key"; "x-goog-user-project"; "x-goog-quota-user"; "x-goog-iam-authority-selector";
   "x-goog-iam-authorization-token"]%string.

Definition CREDENTIAL_QUERY_PARAMS : list pystr := map lit
  ["key"; "api-key"; "api_key"; "access_token"; "oauth_token"; "userproject"; "quotauser"; "subscription-key"; "password"; "passwd"]%string.

Definition is_credential_header (name : pystr) : bool :=
  let lowered := str_lower name in
  bool_decide (lowered ∈ CREDENTIAL_HEADERS) || contains_sub (lit "authorization") lowered || ends_with (lit "api-key") lowered
  || starts_with (lit "x-amz-") lowered.

Definition is_credential_param (name : pystr) : bool :=
  bool_decide (name ∈ CREDENTIAL_QUERY_PARAMS) || contains_sub (lit "authorization") name || starts_with (lit "x-amz-") name.

Definition strip_credential_query (query : pystr) : pystr :=
  join [38] (List.filter (fun part => negb (is_credential_param (param_name str_lower part))) (split_char 38 query)).

(** [on_wire] is [str(httpx.URL(...))]. *)
Definition strip_client_credentials (on_wire : pystr -> pystr) (url : pystr) (hs : list (pystr * pystr)) : pystr * list (pystr * pystr) :=
  let (base, query) := match find_char 63 url with Some n => (take n url, drop (S n) url) | None => (url, []) end in
  let stripped := match query with [] => [] | _ => strip_credential_query query end in
  (on_wire (base ++ match stripped with [] => [] | _ => 63 :: stripped end), List.filter (fun nv => negb (is_credential_header nv.1)) hs).

(** ** Headers forwarded and relayed *)
Definition SKIP_REQUEST_HEADERS : list pystr := map lit ["host"; "content-length"; "connection"; "accept-encoding"]%string.
Definition SKIP_RESPONSE_HEADERS : list pystr := map lit ["content-length"; "content-encoding"; "transfer-encoding"]%string.

Definition request_headers (matched : bool) (hs : list (pystr * pystr)) : list (pystr * pystr) :=
  List.filter (fun nv => negb (bool_decide (str_lower nv.1 ∈ SKIP_REQUEST_HEADERS)) && negb (starts_with OWN_HEADER_PREFIX (str_lower nv.1))
                         && negb (matched && bool_decide (str_lower nv.1 ∈ METHOD_OVERRIDE_HEADERS))) hs
  ++ [(lit "accept-encoding", lit "identity")].

Definition response_headers (hs : list (pystr * pystr)) : list (pystr * pystr) :=
  List.filter (fun nv => negb (bool_decide (str_lower nv.1 ∈ SKIP_RESPONSE_HEADERS))) hs.

(** ** Spellings of a route *)
Context (nfkc : pystr -> pystr).

Definition SEGMENT_TRAILER : list Z := [32; 9; 13; 10; 11; 12; 46].

Definition trim_segment (part : pystr) : pystr := rev ((fix go s := match s with c :: r => if bool_decide (c ∈ SEGMENT_TRAILER) then go r else s | [] => [] end) (rev (before_char 59 part))).

Definition normalized_path (path : pystr) : pystr :=
  let text := map (fun c => if c =? 92 then 47 else c) (nfkc path) in
  47 :: join [47] (List.filter (fun s => match s with [] => false | _ => true end) (map trim_segment (split_char 47 text))).

Definition hex4 (s : pystr) : Z := fold_left (fun n c => n * 16 + default 0 (hex_value c)) s 0.

Definition hex_digit (c : Z) : bool := match hex_value c with Some _ => true | None => false end.

Definition PERCENT_U : regex :=
  Cat (Lit 37) (Cat (Chr (fun c => (c =? 117) || (c =? 85))) (Grp "1" (Rep 4 (Some 4%nat) (Chr hex_digit)))).

Definition decoded_again (path : pystr) : pystr := unquote_plus (sub PERCENT_U (fun _ cs => [hex4 (group cs "1")]) path).

Definition without_slash (path : pystr) : pystr := if (1 <? length path)%nat && ends_with (lit "/") path then take (length path - 1) path else path.

Definition spellings (path : pystr) : list pystr :=
  let forms := [without_slash path; normalized_path path; normalized_path (decoded_again path)] in
  from_keys (flat_map (fun form => [form; str_lower form; str_lower (str_upper form)]) forms).

(** ** Routing *)
Inductive RouteKind : Type := CHAT | REDACT_ONLY | NONE.
#[export] Instance RouteKind_eq_dec : EqDecision RouteKind.
Proof. solve_decision. Defined.

(** What routing asks of an adapter: its name and [matches_request]. *)
Record route_entry : Type := mk_entry {
  r_name : pystr;
  matches_request : pystr -> pystr -> list (pystr * pystr) -> pystr -> RouteKind
}.

Definition route (adapters : list route_entry) (method path : pystr) (hs : list (pystr * pystr)) (query : pystr) : option route_entry * RouteKind :=
  match List.find (fun a => negb (bool_decide (matches_request a method path hs query = NONE))) adapters with
  | Some a => (Some a, matches_request a method path hs query)
  | None => (None, NONE)
  end.

(** [configured]: the providers with an entry in the configuration. *)
Definition provider_for (configured : pystr -> bool) (adapter : option route_entry) (path : pystr) (hs : list (pystr * pystr)) (query : pystr) : option pystr :=
  match adapter with
  | Some a => if configured (r_name a) then Some (r_name a) else attribute str_lower path hs query
  | None => attribute str_lower path hs query
  end.

(** ** Misaddressed requests *)
Inductive misaddress : Type := Spelling | MissingVersion | ExtraPrefix.

Definition misaddress_status (m : misaddress) : Z := match m with Spelling => 400 | MissingVersion | ExtraPrefix => 404 end.

Definition MEDIA_FAMILIES : list pystr := map lit ["/upload/v1beta/"; "/download/v1beta/"]%string.
Definition MAX_EXTRA_PREFIX : nat := 8.

Section Misaddressed.
Context (adapters : list route_entry) (method : pystr) (hs : list (pystr * pystr)) (query : pystr).

(** The provider whose route a candidate path is. *)
Definition names (candidate : pystr) : option pystr := r_name <$> (route adapters method candidate hs query).1.

Fixpoint first_some {A B} (f : A -> option B) (l : list A) : option B :=
  match l with [] => None | x :: l => match f x with Some y => Some y | None => first_some f l end end.

Definition versioned_name (candidate : pystr) : option pystr :=
  let versioned := lit "/v1" ++ candidate in
  match names versioned with
  | Some n => Some n
  | None => if existsb (under versioned) OPENAI_PREFIXES then Some (lit "openai") else None
  end.

(** The paths left of a candidate when two to nine of its segments (the empty one before
    the leading slash among them) are dropped. *)
Definition tails (candidate : pystr) : list pystr :=
  let segments := split_char 47 candidate in
  map (fun index => 47 :: join [47] (drop index segments)) (seq 2 (Nat.min (length segments) (MAX_EXTRA_PREFIX + 2) - 2)).

Definition misaddressed (path : pystr) : option (misaddress * pystr) :=
  let candidates := spellings path in
  match first_some (fun c => if bool_decide (c = path) then None else names c) candidates with
  | Some n => Some (Spelling, n)
  | None =>
      let unversioned := bool_decide (path_family path = None) && negb (under (str_lower path) (lit "/v1")) in
      match (if unversioned then first_some versioned_name candidates else None) with
      | Some n => Some (MissingVersion, n)
      | None =>
          if existsb (fun p => starts_with p path) (CUSTOM_ROUTE_PREFIX :: lit "/openai/" :: MEDIA_FAMILIES) then None
          else match first_some (fun tail => if starts_with (lit "/openai/") tail then None else names tail) (flat_map tails candidates) with
               | Some n => Some (ExtraPrefix, n)
               | None => None
               end
      end
  end.
End Misaddressed.

(** ** The upstream URL

    [parse_url] is [httpx.URL], None for [InvalidURL]. *)
Record httpx_url : Type := mk_url { u_scheme : pystr; u_userinfo : pystr; u_host : pystr; u_port : option Z; u_raw_path : pybytes }.

Section Target.
Context (parse_url : pystr -> option httpx_url) (on_wire : pystr -> pystr).

Definition same_upstream (url upstream_base : pystr) (exact_path : option pybytes) : bool :=
  match parse_url url, parse_url upstream_base with
  | Some built, Some base =>
      bool_decide ((u_scheme built, u_userinfo built, u_host built, u_port built) = (u_scheme base, u_userinfo base, u_host base, u_port base)) &&
      let built_path := before_char 63 (u_raw_path built) in
      let base_path := rstrip_char 47 (before_char 63 (u_raw_path base)) in
      (bool_decide (base_path = []) || bool_decide (built_path = base_path) || starts_with (base_path ++ [47]) built_path) &&
      match exact_path with Some p => bool_decide (built_path = p) | None => true end
  | _, _ => false
  end.

Definition upstream_path (s : scope) (path : pystr) : pystr :=
  match raw_path s with
  | Some (c :: raw) => let p := before_char 63 (c :: raw) in if forallb (between 0 127) p then p else path
  | _ => path
  end.

(** [CUSTOM_ROUTE_PREFIX + provider_key.removeprefix("custom:")] *)
Definition custom_prefix (provider_key : pystr) : pystr :=
  CUSTOM_ROUTE_PREFIX ++ if starts_with (lit "custom:") provider_key then drop 7 provider_key else provider_key.

(** [_legacy_target]; [base_path] is [upstream_base_path], [utf8] the encoder's. *)
Definition legacy_target (base_path : pystr -> pystr) (utf8 : pystr -> pybytes) (s : scope) (path query provider_name upstream_base : pystr)
    (proxy_identity matched : bool) : option (pystr * list (pystr * pystr)) :=
  let upath := upstream_path s path in
  let prefix := custom_prefix provider_name in
  let upath := if starts_with (lit "custom:") provider_name && starts_with prefix upath
               then match drop (length prefix) upath with [] => lit "/" | p => p end else upath in
  let url := upstream_base ++ upath ++ match query with [] => [] | _ => 63 :: query end in
  if negb (same_upstream url upstream_base None) then None
  else
    let headers := request_headers matched (scope_headers s) in
    if negb proxy_identity then Some (url, headers)
    else
      let '(url, headers) := strip_client_credentials on_wire url headers in
      if negb (same_upstream url upstream_base (Some (utf8 (base_path upstream_base ++ upath)))) then None else Some (url, headers).
End Target.

(** ** Requests web pages made

    [urlsplit], None where it or its [port] raises [ValueError]. *)
Record split_url : Type := mk_split {
  s_scheme : pystr; s_netloc : pystr; s_hostname : option pystr; s_port : option Z; s_path : pystr; s_query : pystr; s_fragment : pystr }.

(** The URL a request was sent to. *)
Record request_url : Type := mk_request_url { q_scheme : pystr; q_hostname : option pystr; q_port : option Z }.

Section Origins.
Context (urlsplit : pystr -> option split_url) (normalize_origin : pystr -> option pystr).
(** The access gate's public origin (its host and serialized form), the bind host, the
    operator's hosts and origins. *)
Context (public_origin : option (pystr * pystr)) (bind_host : pystr) (allowed_hosts allowed_origins : list pystr).

Definition allowed_hostnames : list pystr :=
  map lit ["127.0.0.1"; "localhost"; "::1"]%string ++ str_lower bind_host :: allowed_hosts ++ match public_origin with Some (host, _) => [host] | None => [] end.

Definition host_allowed (url : request_url) : bool :=
  match q_hostname url with Some h => bool_decide (str_lower h ∈ allowed_hostnames) | None => false end.

Definition getlist (name : pystr) (hs : list (pystr * pystr)) : list pystr := map snd (List.filter (fun nv => bool_decide (nv.1 = name)) hs).

Definition browser_request (hs : list (pystr * pystr)) : bool :=
  existsb (fun nv => bool_decide (nv.1 = lit "origin") || starts_with (lit "sec-fetch-") nv.1) hs.

(** A web origin's scheme of a request URL's. *)
Definition origin_scheme (s : pystr) : option pystr :=
  if bool_decide (s = lit "http") || bool_decide (s = lit "ws") then Some (lit "http")
  else if bool_decide (s = lit "https") || bool_decide (s = lit "wss") then Some (lit "https") else None.

(** [port or default] *)
Definition port_or (d : Z) (p : option Z) : Z := match p with Some n => if n =? 0 then d else n | None => d end.

Definition own_origin (url : request_url) (origin : pystr) : bool :=
  let value := str_lower (strip origin) in
  match public_origin with Some (_, o) => bool_decide (value = o) | None => false end ||
  match urlsplit value, origin_scheme (q_scheme url), q_hostname url with
  | Some parsed, Some scheme, Some hostname =>
      bool_decide (s_scheme parsed = scheme) && negb (mem_char 64 (s_netloc parsed)) &&
      bool_decide (s_path parsed = []) && bool_decide (s_query parsed = []) && bool_decide (s_fragment parsed = []) &&
      let d := if bool_decide (scheme = lit "https") then 443 else 80 in
      bool_decide (s_hostname parsed = Some (str_lower hostname)) && (port_or d (s_port parsed) =? port_or d (q_port url))
  | _, _, _ => false
  end.

Inductive origin_refusal : Type := RHost | ROrigin | RFetchSite.

Definition own_fetch_site (site : pystr) : bool := bool_decide (str_lower (strip site) ∈ map lit ["same-origin"; "none"]%string).

Definition listed_origin (origin : pystr) : bool := match normalize_origin origin with Some o => bool_decide (o ∈ allowed_origins) | None => false end.

(** The Origin headers in turn: refused, or whether one was a listed page's. *)
Fixpoint check_origins (url : request_url) (origins : list pystr) (listed : bool) : option bool :=
  match origins with
  | [] => Some listed
  | o :: os => if own_origin url o then check_origins url os listed else if listed_origin o then check_origins url os true else None
  end.

Definition request_origin_refusal (url : request_url) (hs : list (pystr * pystr)) (lends_credential : bool) : option origin_refusal :=
  if negb (browser_request hs) then
    if lends_credential && negb (bool_decide (q_scheme url ∈ map lit ["https"; "wss"]%string)) then if host_allowed url then None else Some RHost
    else None
  else if negb (host_allowed url) then Some RHost
  else match check_origins url (getlist (lit "origin") hs) false with
       | None => Some ROrigin
       | Some true => None
       | Some false => if forallb own_fetch_site (getlist (lit "sec-fetch-site") hs) then None else Some RFetchSite
       end.
End Origins.
End Text.
