(* ===== verification/AddressingFacts.v ===== *)
(** * Requests go where they were matched, and with whose credentials

    No path that resolves elsewhere is routed, no other spelling of a recognized route
    is forwarded, and a request the proxy signs carries none of its client's credentials. *)

From S2P Require Import Prelude Bytes PyRegex Sse Detection Attribution Addressing.

(** ** Segments of a path *)
Definition segments (s : pystr) : list pystr := split_char 47 s.

(** Dot segments resolved, RFC 3986's [remove_dot_segments]. *)
Fixpoint resolve_go (kept segs : list pystr) : list pystr :=
  match segs with
  | [] => rev kept
  | s :: segs =>
      if bool_decide (s = lit ".") then resolve_go kept segs
      else if bool_decide (s = lit "..") then resolve_go (tail kept) segs
      else resolve_go (s :: kept) segs
  end.

Definition resolve (segs : list pystr) : list pystr := resolve_go [] segs.

Definition dotted (s : pystr) : bool := bool_decide (s = lit ".") || bool_decide (s = lit "..").

Lemma resolve_plain segs : forallb (fun s => negb (dotted s)) segs = true -> forall kept, resolve_go kept segs = rev kept ++ segs.
Proof.
  induction segs as [|s segs IH]; cbn [forallb resolve_go]; [intros _ kept; by rewrite app_nil_r|]. intros [Hd Hs]%andb_true_iff kept.
  apply negb_true_iff, orb_false_iff in Hd as [-> ->]. rewrite IH by done. cbn [rev]. by rewrite <- app_assoc.
Qed.

Lemma split_cons c x s : split_char c (x :: s) = if x =? c then [] :: split_char c s else match split_char c s with [] => [[x]] | h :: t => (x :: h) :: t end.
Proof. done. Qed.

(** The first segment ends where a slash or the text does. *)
Lemma first_segment c s h t : split_char c s = h :: t -> exists r, s = h ++ r /\ match r with [] => True | x :: _ => x = c end.
Proof.
  revert h t. induction s as [|x s IH]; intros h t; [intros [= <- _]; by exists []|]. rewrite split_cons. destruct (x =? c) eqn:E.
  - intros [= <- _]. exists (x :: s). split; [done|]. by apply Z.eqb_eq.
  - destruct (split_char c s) as [|h' t'] eqn:Es.
    + destruct (split_char_cons c s) as (? & ? & Hc). by rewrite Es in Hc.
    + intros [= <- <-]. destruct (IH h' t' eq_refl) as (r & -> & Hr). by exists r.
Qed.

Lemma dots_found s h t : segments s = h :: t -> dotted h = true -> dots_at s = true.
Proof.
  intros Hs Hd. destruct (first_segment _ _ _ _ Hs) as (r & -> & Hr).
  assert (Hend : segment_end r = true) by (destruct r; [done|subst; done]).
  apply orb_true_iff in Hd as [->%bool_decide_eq_true| ->%bool_decide_eq_true]; cbn; rewrite Hend; [done|by rewrite orb_true_r].
Qed.

Lemma no_dots starts s : dots_in starts s = false ->
  match segments s with [] => True | h :: t => (starts = true -> dotted h = false) /\ forallb (fun s => negb (dotted s)) t = true end.
Proof.
  revert starts. induction s as [|c s IH]; intros starts; cbn [dots_in].
  - intros _. by cbn.
  - intros [Hh Hd]%orb_false_iff. specialize (IH _ Hd). unfold segments in *. destruct (split_char 47 (c :: s)) as [|h t] eqn:E; [done|].
    assert (starts = true -> dotted h = false) as Hst.
    { intros ->. destruct (dotted h) eqn:Ed; [|done]. by rewrite (dots_found _ _ _ E Ed) in Hh. }
    split; [done|]. rewrite split_cons in E. destruct (c =? 47).
    + injection E as <- <-. destruct (split_char 47 s); [done|]. destruct IH as [IH1 IH2]. cbn. by rewrite IH1, IH2.
    + destruct (split_char 47 s); [injection E as <- <-; done|]. injection E as <- <-. apply IH.
Qed.

Lemma no_double s : contains_sub (lit "//") s = false -> forall i, segments s !! S i = Some [] -> length (segments s) = S (S i).
Proof.
  unfold segments. induction s as [|c s IH]; intros Hc i; [done|]. rewrite split_cons.
  assert (Hs : starts_with (lit "//") (c :: s) = false /\ contains_sub (lit "//") s = false).
  { unfold contains_sub in *. cbn [find_sub] in Hc. destruct (starts_with (lit "//") (c :: s)); [done|]. destruct (find_sub _ s); [done|]. done. }
  destruct Hs as [Hw Hc']. specialize (IH Hc'). destruct (split_char_cons 47 s) as (h & t & E). rewrite E in *. destruct (c =? 47) eqn:Ec.
  - cbn [lookup list_lookup length] in *. destruct i as [|i]; [|intros Hi; f_equal; exact (IH i Hi)]. intros [= ->]. destruct t as [|h2 t]; [done|]. exfalso.
    destruct s as [|d s]; [done|]. rewrite split_cons in E. apply Z.eqb_eq in Ec as ->. cbn in Hw. destruct (d =? 47) eqn:Ed; [apply Z.eqb_eq in Ed as ->; done|].
    destruct (split_char 47 s); done.
  - cbn [lookup list_lookup length] in *. intros Hi. exact (IH i Hi).
Qed.

(** The path a request was matched on is the path an upstream will read: of a request
    neither check refuses, in the raw and the decoded path, percent-encoded dots and
    backslashes read as such, resolving dot segments changes nothing, and the only empty
    segments are the one before the leading slash and one after a trailing slash. *)
Theorem routed_path_is_resolved str_lower s p : has_dot_segment str_lower s = false -> has_empty_segment str_lower s = false -> p ∈ request_paths s ->
  let segs := segments (dot_normalized str_lower p) in
  resolve segs = segs /\ forall i, segs !! S i = Some [] -> length segs = S (S i).
Proof.
  intros Hd He Hp segs. unfold has_dot_segment, has_empty_segment in *. assert (Hall : forall f, existsb f (request_paths s) = false -> f p = false).
  { intros f Hf. destruct (f p) eqn:E; [|done]. assert (existsb f (request_paths s) = true) as Ht; [|by rewrite Ht in Hf].
    apply existsb_exists. exists p. split; [by apply list_elem_of_In|done]. }
  apply Hall in Hd, He. split; [|by apply no_double].
  apply no_dots in Hd. fold segs in Hd. clearbody segs. destruct segs as [|h t]; [done|]. destruct Hd as [Hh Ht]. unfold resolve.
  rewrite resolve_plain; [done|]. cbn [forallb]. by rewrite Hh, Ht.
Qed.

Lemma routed_path_is_resolved_witness :
  let s := mk_scope (Some (lit "/v1/a%2Fb.c/")) (Some (lit "/v1/a/b.c/")) [] in
  let segs := segments (dot_normalized (map ascii_lower) (lit "/v1/a/b.c/")) in
  resolve segs = segs /\ forall i, segs !! S i = Some [] -> length segs = S (S i).
Proof.
  intros s segs. apply (routed_path_is_resolved (map ascii_lower) s (lit "/v1/a/b.c/")); [vm_compute; reflexivity|vm_compute; reflexivity|].
  apply list_elem_of_In. right. left. reflexivity.
Defined.

(** ** Other spellings of a path *)

(** A path as a lenient front end may be sent it: each segment after a slash or backslash,
    with trailing spaces or dots and [;params]. *)
Record piece : Type := mk_piece { sep : Z; seg : pystr; trailer : pystr; params : pystr }.

Definition plain_char (c : Z) : bool := negb (c =? 47) && negb (c =? 92).

Definition piece_ok (p : piece) : bool :=
  ((sep p =? 47) || (sep p =? 92)) && forallb (fun c => plain_char c && negb (c =? 59)) (seg p) &&
  match rev (seg p) with c :: _ => negb (bool_decide (c ∈ SEGMENT_TRAILER)) | [] => false end &&
  forallb (fun c => bool_decide (c ∈ SEGMENT_TRAILER)) (trailer p) && forallb plain_char (params p) &&
  match params p with [] => true | c :: _ => c =? 59 end.

Definition written (pieces : list piece) : pystr := flat_map (fun p => sep p :: seg p ++ trailer p ++ params p) pieces.
Definition plain (pieces : list piece) : pystr := flat_map (fun p => 47 :: seg p) pieces.

Lemma trailer_plain c : bool_decide (c ∈ SEGMENT_TRAILER) = true -> plain_char c = true /\ c <> 59.
Proof.
  intros Hc%bool_decide_eq_true. unfold SEGMENT_TRAILER in Hc. rewrite !elem_of_cons in Hc. unfold plain_char.
  destruct Hc as [->|[->|[->|[->|[->|[->|[->|[]%not_elem_of_nil]]]]]]]; done.
Qed.

Lemma before_char_none c a : mem_char c a = false -> before_char c a = a.
Proof.
  unfold before_char. induction a as [|x a IH]; [done|]. rewrite mem_char_cons. intros [Hx Ha]%orb_false_iff. cbn. rewrite Z.eqb_sym in Hx. rewrite Hx.
  specialize (IH Ha). destruct (find_char c a); cbn; [by rewrite IH|done].
Qed.

Lemma before_char_at c a b : mem_char c a = false -> before_char c (a ++ c :: b) = a.
Proof.
  unfold before_char. induction a as [|x a IH]; [cbn; by rewrite Z.eqb_refl|]. rewrite mem_char_cons. intros [Hx Ha]%orb_false_iff. cbn. rewrite Z.eqb_sym in Hx.
  rewrite Hx. specialize (IH Ha). destruct (find_char c (a ++ c :: b)); cbn in *; [by rewrite IH|by apply (f_equal length) in IH; rewrite length_app in IH; cbn in IH; lia].
Qed.

Lemma trim_piece p : piece_ok p = true -> trim_segment (seg p ++ trailer p ++ params p) = seg p.
Proof.
  unfold piece_ok. intros [[[[[_ Hs]%andb_true_iff Hl]%andb_true_iff Ht]%andb_true_iff _]%andb_true_iff Hp]%andb_true_iff. unfold trim_segment.
  assert (Hm : mem_char 59 (seg p ++ trailer p) = false).
  { rewrite mem_char_app. apply orb_false_iff. split; eapply forallb_mem_char; try eassumption; done. }
  assert (Hb : before_char 59 (seg p ++ trailer p ++ params p) = seg p ++ trailer p).
  { rewrite app_assoc. destruct (params p) as [|c q]; [by rewrite app_nil_r, before_char_none|]. apply Z.eqb_eq in Hp as ->. by apply before_char_at. }
  rewrite Hb, rev_app_distr. rewrite <- (rev_involutive (seg p)) at 2. f_equal.
  assert (Hr : forallb (fun c => bool_decide (c ∈ SEGMENT_TRAILER)) (rev (trailer p)) = true).
  { rewrite forallb_forall in Ht |- *. intros c Hc. apply Ht. by apply in_rev. }
  induction (rev (trailer p)) as [|c l IH]; cbn [app].
  - destruct (rev (seg p)) as [|c l]; [done|]. by apply negb_true_iff in Hl as ->.
  - apply andb_true_iff in Hr as [-> Hr]. by apply IH.
Qed.

Lemma piece_text p : piece_ok p = true -> let text := map (fun c => if c =? 92 then 47 else c) (sep p :: seg p ++ trailer p ++ params p) in
  text = 47 :: seg p ++ trailer p ++ params p /\ mem_char 47 (seg p ++ trailer p ++ params p) = false.
Proof.
  unfold piece_ok. intros [[[[[He Hs]%andb_true_iff _]%andb_true_iff Ht]%andb_true_iff Hp]%andb_true_iff _]%andb_true_iff.
  assert (Hall : forallb plain_char (seg p ++ trailer p ++ params p) = true).
  { rewrite !forallb_app'. rewrite Hp, andb_true_r. apply andb_true_iff. split; (eapply forallb_impl; [|eassumption]); intros c; cbn.
    - by intros [? _]%andb_true_iff.
    - by intros [? _]%trailer_plain. }
  split.
  - cbn [map]. f_equal; [by apply orb_true_iff in He as [->%Z.eqb_eq| ->%Z.eqb_eq]|]. clear -Hall. induction (seg p ++ _) as [|c l IH]; [done|].
    cbn [forallb] in Hall. apply andb_true_iff in Hall as [[_ Hc]%andb_true_iff Hl]. cbn [map]. apply negb_true_iff in Hc as ->. by rewrite IH.
  - eapply forallb_mem_char; [exact Hall|done].
Qed.

Lemma seg_nonempty p : piece_ok p = true -> seg p <> [].
Proof. unfold piece_ok. intros Hp E. rewrite E in Hp. cbn in Hp. by rewrite !andb_false_r in Hp. Qed.

Lemma filter_trimmed pieces : forallb piece_ok pieces = true ->
  List.filter (fun s : pystr => match s with [] => false | _ => true end) (map (fun p => trim_segment (seg p ++ trailer p ++ params p)) pieces) = map seg pieces.
Proof.
  induction pieces as [|p pieces IH]; [done|]. cbn [forallb map List.filter]. intros [Hp Hok]%andb_true_iff. rewrite trim_piece, IH by done.
  pose proof (seg_nonempty p Hp). by destruct (seg p).
Qed.

Lemma join_plain pieces : pieces <> [] -> 47 :: join [47] (map seg pieces) = plain pieces.
Proof.
  induction pieces as [|p [|q pieces] IH]; [done|cbn; by rewrite app_nil_r|]. intros _. specialize (IH ltac:(done)).
  change (plain (p :: q :: pieces)) with (47 :: seg p ++ plain (q :: pieces)). by rewrite <- IH.
Qed.

(** [normalized_path] reads any such spelling as the plain path, a final slash or backslash
    too. *)
Lemma normalized_written nfkc pieces tail : forallb piece_ok pieces = true -> pieces <> [] -> tail = [] \/ tail = [47] \/ tail = [92] ->
  nfkc (written pieces ++ tail) = written pieces ++ tail -> normalized_path nfkc (written pieces ++ tail) = plain pieces.
Proof.
  intros Hok Hne Htail Hn. unfold normalized_path. rewrite Hn, map_app.
  set (text := map (fun c => if c =? 92 then 47 else c)). assert (Ht : text tail = [] \/ text tail = [47]) by (destruct Htail as [-> |[-> | ->]]; [left|right|right]; done).
  generalize dependent (text tail). clear Htail Hn. intros t Ht.
  assert (Hsplit : forall first, mem_char 47 first = false -> split_char 47 (first ++ text (written pieces) ++ t) =
    first :: map (fun p => seg p ++ trailer p ++ params p) pieces ++ match t with [] => [] | _ => [[]] end).
  { clear Hne. induction pieces as [|p pieces IH]; intros first Hf.
    - destruct Ht as [-> | ->]; cbn; [by rewrite app_nil_r, split_char_no|]. by rewrite split_char_app, split_char_no.
    - cbn [forallb] in Hok. apply andb_true_iff in Hok as [Hp Hok]. destruct (piece_text p Hp) as [Htx Hm].
      change (written (p :: pieces)) with ((sep p :: seg p ++ trailer p ++ params p) ++ written pieces). unfold text at 1. rewrite map_app, Htx. fold text.
      cbn [app map]. rewrite <- !app_assoc. cbn [app]. rewrite split_char_app, split_char_no by done. cbn [app]. f_equal.
      rewrite <- (IH Hok (seg p ++ trailer p ++ params p) Hm). by rewrite <- !app_assoc. }
  pose proof (Hsplit [] eq_refl) as Hs0. cbn [app] in Hs0. rewrite Hs0. cbn [map List.filter]. rewrite map_app, map_map, filter_app.
  rewrite (List.filter_ext_in _ (fun _ => false) (map trim_segment (match t with [] => [] | _ => [[]] end))) by (destruct Ht as [-> | ->]; [done|intros a [<-|[]]; done]).
  clear Hsplit Ht. assert (Hnil : forall l : list pystr, List.filter (fun _ => false) l = []) by (induction l; done). rewrite Hnil, app_nil_r.
  change (trim_segment []) with (@nil Z). rewrite filter_trimmed by done. by apply join_plain.
Qed.

(** ** Misaddressed requests are refused *)
Lemma first_some_is_some {A B} (f : A -> option B) l x : x ∈ l -> is_Some (f x) -> is_Some (first_some f l).
Proof.
  induction l as [|a l IH]; [by intros ?%not_elem_of_nil|]. cbn. intros [->|Hx]%elem_of_cons [y Hy]; [rewrite Hy; by eauto|].
  destruct (f a); [by eauto|]. apply IH; [done|by eauto].
Qed.

Section Respelled.
Context (str_lower str_upper nfkc : pystr -> pystr) (adapters : list route_entry) (method : pystr) (hs : list (pystr * pystr)) (query : pystr).

Abbreviation names := (names adapters method hs query).
Abbreviation misaddressed := (misaddressed str_lower str_upper nfkc adapters method hs query).
Abbreviation spellings := (spellings str_lower str_upper nfkc).

(** The ways a path respells a route's path. *)
Inductive respells (p : pystr) : pystr -> Prop :=
| SpelledSlash : p <> [] -> respells p (p ++ [47])
| SpelledCase path : ends_with (lit "/") path = false -> str_lower path = p \/ str_lower (str_upper path) = p -> respells p path
| SpelledPieces pieces tail : forallb piece_ok pieces = true -> pieces <> [] -> tail = [] \/ tail = [47] \/ tail = [92] ->
    nfkc (written pieces ++ tail) = written pieces ++ tail -> plain pieces = p -> respells p (written pieces ++ tail)
| SpelledEncoded path pieces tail : decoded_again path = written pieces ++ tail -> forallb piece_ok pieces = true -> pieces <> [] ->
    tail = [] \/ tail = [47] \/ tail = [92] -> nfkc (written pieces ++ tail) = written pieces ++ tail -> plain pieces = p -> respells p path.

Lemma spelling_refused path c : c ∈ spellings path -> c <> path -> is_Some (names c) -> exists n, misaddressed path = Some (Spelling, n).
Proof.
  intros Hc Hne Hn. unfold misaddressed. destruct (first_some_is_some (fun c => if bool_decide (c = path) then None else names c) _ c Hc) as [n Hf].
  - by rewrite bool_decide_eq_false_2.
  - exists n. by rewrite Hf.
Qed.

Lemma spelled_form path form c : form ∈ [without_slash path; normalized_path nfkc path; normalized_path nfkc (decoded_again path)] ->
  c ∈ [form; str_lower form; str_lower (str_upper form)] -> c ∈ spellings path.
Proof.
  intros Hf Hc. unfold spellings. apply elem_from_keys. apply list_elem_of_In, in_flat_map. exists form. split; by apply list_elem_of_In.
Qed.

Lemma without_slash_id path : ends_with (lit "/") path = false -> without_slash path = path.
Proof. unfold without_slash. intros ->. by rewrite andb_false_r. Qed.


(** Extra leading segments. *)
Definition prefixed (extra : list pystr) (p : pystr) : pystr := flat_map (fun s => 47 :: s) extra ++ p.

Lemma split_prefixed extra p : forallb (fun s => negb (mem_char 47 s)) extra = true -> (exists q, p = 47 :: q) ->
  split_char 47 (prefixed extra p) = [] :: extra ++ tail (split_char 47 p).
Proof.
  intros He [q ->]. unfold prefixed. rewrite split_cons, Z.eqb_refl. cbn [tail].
  assert (Hgo : forall first, mem_char 47 first = false -> split_char 47 (first ++ flat_map (fun s => 47 :: s) extra ++ 47 :: q) = first :: extra ++ split_char 47 q).
  { induction extra as [|s extra IH]; intros first Hf; cbn [flat_map app]; [by rewrite split_char_app, split_char_no|].
    cbn [forallb] in He. apply andb_true_iff in He as [Hs%negb_true_iff He]. rewrite split_char_app, split_char_no by done. cbn [app]. f_equal.
    rewrite <- app_assoc. by apply IH. }
  by apply (Hgo []).
Qed.

(** A recognized route's path behind up to eight extra segments, or without its
    [/v1], is refused too, wherever no provider's own family claims the path. *)
Theorem misplaced_route_refused p path n : names p = Some n -> ends_with (lit "/") path = false ->
  (p = lit "/v1" ++ path /\ path_family path = None /\ under (str_lower path) (lit "/v1") = false) \/
  (exists extra q, path = prefixed extra p /\ p = 47 :: q /\ starts_with (lit "/openai/") p = false /\ (1 <= length extra <= 8)%nat /\
     forallb (fun s => negb (mem_char 47 s)) extra = true /\
     existsb (fun f => starts_with f path) (CUSTOM_ROUTE_PREFIX :: lit "/openai/" :: MEDIA_FAMILIES) = false) ->
  is_Some (misaddressed path).
Proof.
  intros Hn He Hcase. assert (Hpath : path ∈ spellings path) by (apply (spelled_form _ path); [rewrite <- (without_slash_id path He) at 1; left|left]).
  unfold misaddressed. destruct (first_some _ (spellings path)) as [n1|]; [by eauto|].
  destruct (if bool_decide (path_family path = None) && negb (under (str_lower path) (lit "/v1")) then _ else None) as [n2|] eqn:E2; [by eauto|].
  destruct Hcase as [(-> & Hfam & Hu)|(extra & q & Hx & Hq & Ho & Hlen & Hs & Hex)].
  - exfalso. rewrite Hfam, Hu, (bool_decide_eq_true_2 (_ = _)) in E2 by done. cbn [andb negb] in E2.
    destruct (first_some_is_some (versioned_name adapters method hs query) (spellings path) path Hpath) as [x Hv]; [|by rewrite Hv in E2].
    unfold versioned_name. rewrite Hn. by eauto.
  - rewrite Hex. destruct (first_some_is_some (fun tail => if starts_with (lit "/openai/") tail then None else names tail)
      (flat_map tails (spellings path)) p) as [x ->]; [|rewrite Ho, Hn; by eauto|by eauto].
    apply list_elem_of_In, in_flat_map. exists path. split; [by apply list_elem_of_In|]. unfold tails. apply in_map_iff. exists (S (length extra)).
    rewrite Hx, (split_prefixed extra p) by eauto. subst p. rewrite split_cons, Z.eqb_refl. cbn [tail]. split.
    + cbn [drop]. rewrite drop_app_length. by rewrite join_split.
    + apply in_seq. cbn [length]. rewrite length_app. destruct (split_char_cons 47 q) as (h & t & ->). cbn [length]. unfold MAX_EXTRA_PREFIX. lia.
Qed.
End Respelled.

(** *** A proxy that recognizes one route *)
Definition demo_adapters : list route_entry :=
  [mk_entry (lit "openai") (fun _ path _ _ => if bool_decide (path = lit "/v1/chat/completions") then CHAT else NONE)].

Definition demo_misaddressed : pystr -> option (misaddress * pystr) :=
  misaddressed (map ascii_lower) (map ascii_upper) id demo_adapters (lit "POST") [] [].


Lemma misplaced_route_refused_witness : is_Some (demo_misaddressed (lit "/api/v1/v1/chat/completions")) /\ is_Some (demo_misaddressed (lit "/chat/completions")).
Proof.
  split.
  - apply (misplaced_route_refused (map ascii_lower) (map ascii_upper) id demo_adapters (lit "POST") [] [] (lit "/v1/chat/completions") (lit "/api/v1/v1/chat/completions") (lit "openai")).
    + vm_compute. reflexivity.
    + vm_compute. reflexivity.
    + right. exists [lit "api"; lit "v1"], (lit "v1/chat/completions"). split; [reflexivity|]. split; [reflexivity|]. split; [vm_compute; reflexivity|].
      split; [cbn; lia|]. split; vm_compute; reflexivity.
  - apply (misplaced_route_refused (map ascii_lower) (map ascii_upper) id demo_adapters (lit "POST") [] [] (lit "/v1/chat/completions") (lit "/chat/completions") (lit "openai")).
    + vm_compute. reflexivity.
    + vm_compute. reflexivity.
    + left. split; [reflexivity|]. split; vm_compute; reflexivity.
Defined.

(** ** Credentials *)
Lemma split_kept c f s : List.filter f (split_char c s) <> [] -> split_char c (join [c] (List.filter f (split_char c s))) = List.filter f (split_char c s).
Proof.
  assert (Hno : forall part, part ∈ split_char c s -> mem_char c part = false).
  { intros part Hp. revert part Hp. induction s as [|x s IH]; [intros part [->|[]%not_elem_of_nil]%elem_of_cons; done|]. rewrite split_cons.
    intros part. destruct (x =? c) eqn:E; [intros [->|Hp]%elem_of_cons; [done|by apply IH]|].
    destruct (split_char c s) as [|h t]; [intros [->|[]%not_elem_of_nil]%elem_of_cons; by rewrite mem_char_cons, Z.eqb_sym, E|].
    intros [->|Hp]%elem_of_cons; [|by apply IH; right]. rewrite mem_char_cons, Z.eqb_sym, E. apply IH. by left. }
  assert (Hall : forall part, part ∈ List.filter f (split_char c s) -> mem_char c part = false) by (intros part [Hp _]%elem_filter; by apply Hno).
  induction (List.filter f (split_char c s)) as [|p [|q l] IH]; [done|intros _; cbn; apply split_char_no, Hall; by left|]. intros _.
  change (join [c] (p :: q :: l)) with (p ++ c :: join [c] (q :: l)). rewrite split_char_app, split_char_no by (apply Hall; by left).
  cbn [app]. f_equal. apply IH; [by intros part Hp; apply Hall; right|done].
Qed.

Section Credentials.
Context (str_lower : pystr -> pystr).

(** What the proxy sends under its own identity carries no credential of the
    client's: no such header, and of the query exactly the parameters that name none, byte
    for byte in their order -- so the request no longer reads as one with a Google key. *)
Theorem identity_request_is_stripped on_wire url query hs : mem_char 63 url = false -> query <> [] ->
  let kept := List.filter (fun part => negb (is_credential_param (param_name str_lower part))) (split_char 38 query) in
  (exists stripped, (strip_client_credentials str_lower on_wire (url ++ 63 :: query) hs).1 = on_wire (url ++ match stripped with [] => [] | _ => 63 :: stripped end) /\
     (kept <> [] -> split_char 38 stripped = kept) /\ google_key_in_query str_lower stripped = false) /\
  forall nv, nv ∈ (strip_client_credentials str_lower on_wire (url ++ 63 :: query) hs).2 <-> nv ∈ hs /\ is_credential_header str_lower nv.1 = false.
Proof.
  intros Hurl Hq kept. unfold strip_client_credentials.
  assert (Hf : find_char 63 (url ++ 63 :: query) = Some (length url)).
  { clear -Hurl. induction url as [|x url IH]; [done|]. rewrite mem_char_cons in Hurl. apply orb_false_iff in Hurl as [Hx Hurl].
    cbn [app find_char]. rewrite Z.eqb_sym in Hx. rewrite Hx. by rewrite (IH Hurl). }
  rewrite Hf, take_app_length. replace (drop (S (length url)) (url ++ 63 :: query)) with query
    by (change (url ++ 63 :: query) with (url ++ [63] ++ query); rewrite app_assoc, drop_app_length'; [done|rewrite length_app; cbn; lia]).
  cbn [fst snd]. split.
  - exists (strip_credential_query str_lower query). split; [by destruct query|]. split; [apply split_kept|].
    unfold google_key_in_query. destruct (existsb _ _) eqn:E; [|done]. exfalso. apply existsb_exists in E as (part & Hin & Hk). destruct part as [|c part]; [done|].
    apply bool_decide_eq_true in Hk. destruct (decide (kept = [])) as [Hn|Hn].
    + unfold strip_credential_query in Hin. fold kept in Hin. rewrite Hn in Hin. cbn in Hin. destruct Hin as [?|[]]; done.
    + unfold strip_credential_query in Hin. rewrite (split_kept 38 _ query Hn) in Hin. apply filter_In in Hin as [_ Hc]. by rewrite Hk in Hc.
  - intros nv. rewrite elem_filter, negb_true_iff. done.
Qed.
End Credentials.

Lemma identity_request_is_stripped_witness :
  let r := strip_client_credentials (map ascii_lower) id (lit "https://h/p" ++ 63 :: lit "a=1&%24KEY=s&b") [(lit "X-Api-Key", lit "s"); (lit "accept", lit "*")] in
  r.1 = lit "https://h/p?a=1&b" /\ (lit "accept", lit "*") ∈ r.2.
Proof.
  intros r. destruct (identity_request_is_stripped (map ascii_lower) id (lit "https://h/p") (lit "a=1&%24KEY=s&b")
    [(lit "X-Api-Key", lit "s"); (lit "accept", lit "*")]) as [_ H]; [vm_compute; reflexivity|discriminate|].
  split; [vm_compute; reflexivity|]. apply H. split; [right; left|vm_compute; reflexivity].
Defined.

(** ** Requests web pages made *)
Section Pages.
Context (str_lower : pystr -> pystr) (urlsplit : pystr -> option split_url) (normalize_origin : pystr -> option pystr).
Context (public_origin : option (pystr * pystr)) (bind_host : pystr) (allowed_hosts allowed_origins : list pystr).

Abbreviation own := (own_origin str_lower urlsplit public_origin).
Abbreviation listed := (listed_origin normalize_origin allowed_origins).
Abbreviation allowed := (host_allowed str_lower public_origin bind_host allowed_hosts).
Abbreviation refusal := (request_origin_refusal str_lower urlsplit normalize_origin public_origin bind_host allowed_hosts allowed_origins).

Lemma check_origins_spec url origins l : check_origins str_lower urlsplit normalize_origin public_origin allowed_origins url origins l =
  if forallb (fun o => own url o || listed o) origins then Some (l || existsb (fun o => negb (own url o)) origins) else None.
Proof.
  revert l. induction origins as [|o os IH]; intros l; cbn; [by rewrite orb_false_r|]. destruct (own url o); cbn; [apply IH|].
  destruct (listed o); cbn; [rewrite IH; by rewrite orb_true_r|done].
Qed.

(** A request that spends anything of the proxy's is served to a web page only if the
    host it names is the proxy's and every Origin it carries is the request's own or
    listed by the operator, and then either one is listed or every [Sec-Fetch-Site] says
    same-origin or none; without browser markers only a lent credential over plain
    HTTP asks for the host. *)
Theorem web_page_served_iff url hs lends : refusal url hs lends = None <->
  if browser_request hs then
    allowed url = true /\ (forall o, o ∈ getlist (lit "origin") hs -> own url o = true \/ listed o = true) /\
    ((exists o, o ∈ getlist (lit "origin") hs /\ own url o = false) \/ forall site, site ∈ getlist (lit "sec-fetch-site") hs -> own_fetch_site str_lower site = true)
  else lends = false \/ q_scheme url = lit "https" \/ q_scheme url = lit "wss" \/ allowed url = true.
Proof.
  unfold request_origin_refusal. destruct (browser_request hs); cbn [negb].
  - destruct (allowed url); cbn [negb]; [|by split; [|intros [? _]]]. rewrite check_origins_spec. cbn [orb].
    destruct (forallb _ (getlist (lit "origin") hs)) eqn:Ef.
    + rewrite forallb_forall in Ef. assert (Hown : forall o, o ∈ getlist (lit "origin") hs -> own url o = true \/ listed o = true).
      { intros o Ho. apply orb_true_iff, Ef, list_elem_of_In, Ho. }
      destruct (existsb _ (getlist (lit "origin") hs)) eqn:Ee.
      * split; [|done]. intros _. apply existsb_exists in Ee as (o & Ho & Hn%negb_true_iff). split_and!; [done|done|]. left. exists o. split; [by apply list_elem_of_In|done].
      * assert (Hno : ~ exists o, o ∈ getlist (lit "origin") hs /\ own url o = false).
        { intros (o & Ho & Hn). assert (existsb (fun o => negb (own url o)) (getlist (lit "origin") hs) = true) as Ht; [|by rewrite Ht in Ee].
          apply existsb_exists. exists o. rewrite Hn. split; [by apply list_elem_of_In|done]. }
        destruct (forallb _ _) eqn:Es.
        -- split; [|done]. intros _. split_and!; [done|done|]. right. rewrite forallb_forall in Es. intros site Hs. by apply Es, list_elem_of_In.
        -- split; [done|]. intros (_ & _ & [?|Hs]); [done|]. assert (forallb (own_fetch_site str_lower) (getlist (lit "sec-fetch-site") hs) = true) as Ht; [|by rewrite Ht in Es].
           apply forallb_forall. intros site Hi. by apply Hs, list_elem_of_In.
    + split; [done|]. intros (_ & Ho & _). assert (forallb (fun o => own url o || listed o) (getlist (lit "origin") hs) = true) as Ht; [|by rewrite Ht in Ef].
      apply forallb_forall. intros o Hi. apply orb_true_iff, Ho. by apply list_elem_of_In.
  - destruct lends; cbn [andb]; [|by split; [left|]].
    case_bool_decide as Hs; cbn [negb]; [split; [intros _; right|done]|].
    + cbn in Hs. rewrite !elem_of_cons in Hs. destruct Hs as [?|[?|[]%not_elem_of_nil]]; by eauto.
    + destruct (allowed url); [split; [by eauto|done]|]. split; [done|]. intros [?|[H1|[H1|?]]]; try done; exfalso; apply Hs; rewrite H1; cbn; set_solver.
Qed.
End Pages.
