(* ===== verification/BodyRules.v ===== *)
(** * Which request bodies the proxy reads -- src/llm_redact/proxy.py

    The scanned-body rule, what a requester may override of it, and what the
    stored-object check reads of an upload.  [str.lower], the adapter's boundaries and the
    reading of an upload ([upload_view], [classify_file]) are parameters. *)

From S2P Require Import Prelude Bytes Json Detection Multipart Addressing.

Abbreviation headers := (list (pystr * pystr)).

(** [headers.get(name, "")] *)
Definition header_or_empty (name : pystr) (hs : headers) : pystr := match getlist name hs with v :: _ => v | [] => [] end.

(** The local refusals' kinds. *)
Inductive local_refusal : Type :=
| access_gate | audit_unavailable | authorization | binary_values | blocked_value | budget | credential_protocol | delivery_fault
| detector_unavailable | disabled_provider | identity_path | identity_route | method_override_ | misaddressed_ | no_route | no_upstream
| object_access | override_fault | override_raced | placeholder_limit | realtime_unavailable | redirect_refused | reload | request_origin
| request_target | route_unsupported | scanned_body | sealed_session | too_large | too_many_strings | unattributed | unchecked_body
| unredactable | unscanned_upload | unsupported_encoding | upstream_auth | upstream_fault | vault_fault | verbatim_field.
#[export] Instance local_refusal_eq_dec : EqDecision local_refusal.
Proof. solve_decision. Defined.

(** What a message says. *)
Inductive body_problem : Type :=
| ContentEncoded | TwoContentTypes | NestsTooDeep | NotJsonObject | MultipartRoute | NotCanonical
| TooManyParts | TooManyBytes | TooManyLines | UploadProblem (p : pystr) | Reclassified.
#[export] Instance body_problem_eq_dec : EqDecision body_problem.
Proof. solve_decision. Defined.

Record unreadable : Type := mk_unreadable {
  u_status : Z; u_problem : body_problem; credential_bound : bool; u_kind : option local_refusal }.

Definition unreadable_as (status : Z) (p : body_problem) : unreadable := mk_unreadable status p true None.

Definition unreadable_kind (u : unreadable) (default : local_refusal) : local_refusal :=
  match u_kind u with Some k => k | None => if u_status u =? 415 then unsupported_encoding else default end.

(** [bytes.count(sub)], [sub] not empty; [fuel]: the length. *)
Fixpoint count_go (fuel : nat) (needle s : pybytes) : nat :=
  match fuel with
  | O => 0
  | S fuel =>
      if starts_with needle s then S (count_go fuel needle (drop (length needle) s))
      else match s with [] => 0 | _ :: s => count_go fuel needle s end
  end.

Definition count_sub (needle s : pybytes) : nat := count_go (S (length s)) needle s.

Definition delimiter (boundary : pybytes) : pybytes := [13; 10; 45; 45] ++ boundary.

Section Rules.
Context (str_lower : pystr -> pystr).

Definition content_encoded (hs : headers) : bool :=
  existsb (fun value => existsb (fun coding => negb (bool_decide (str_lower (strip coding) ∈ [[]; lit "identity"]))) (split_char 44 value))
    (getlist (lit "content-encoding") hs).

(** What the rule asks of the matched adapter. *)
Context (multipart_boundary : pystr -> pystr -> option pybytes) (redacts_multipart : pystr -> bool).

Definition multipart_parts_over (hs : headers) (body : pybytes) (limit : Z) (path : pystr) : bool :=
  match multipart_boundary path (header_or_empty (lit "content-type") hs) with
  | Some boundary => limit <? Z.of_nat (count_sub (delimiter boundary) body)
  | None => false
  end.

(** [_unscanned_body]; JSON's null as Python's None. *)
Definition unscanned_body (path : pystr) (hs : headers) (body : pybytes) (parsed : json) (too_deep : bool) : option unreadable :=
  if content_encoded hs then Some (unreadable_as 415 ContentEncoded)
  else
    let content_types := getlist (lit "content-type") hs in
    if (1 <? length content_types)%nat then Some (unreadable_as 400 TwoContentTypes)
    else if too_deep then Some (unreadable_as 400 NestsTooDeep)
    else match parsed with
         | JDict _ => None
         | _ =>
             match parsed, content_types with
             | JNull, content_type :: _ =>
                 match multipart_boundary path content_type with
                 | None => Some (unreadable_as 400 NotJsonObject)
                 | Some boundary =>
                     if negb (redacts_multipart path) then Some (unreadable_as 400 MultipartRoute)
                     else match Multipart.parse body boundary with None => Some (unreadable_as 400 NotCanonical) | Some _ => None end
                 end
             | _, _ => Some (unreadable_as 400 NotJsonObject)
             end
         end.

(** *** A body an override may pass *)
Definition LENIENT_SKIP (c : Z) : bool := (between 0 31 c && negb (is_space c)) || (c =? 127) || (c =? 65279) || (c =? 65534).

Definition STRUCTURED_MEDIA : list pystr := map lit ["multipart"; "x-www-form-urlencoded"]%string.

(** The loop strips spaces and skipped characters until neither is left; [fuel]: more than
    the length. *)
Fixpoint lead_of (fuel : nat) (lead : pystr) : pystr :=
  match fuel with
  | O => lead
  | S fuel => let stripped := lstrip_if LENIENT_SKIP (lstrip lead) in if bool_decide (stripped = lead) then lead else lead_of fuel stripped
  end.

Definition plain_text_body (body : pybytes) (hs : headers) : bool :=
  let media := str_lower (header_or_empty (lit "content-type") hs) in
  if existsb (fun kind => contains_sub kind media) STRUCTURED_MEDIA then false
  else match utf8_decode body with
       | None => false
       | Some text => match lead_of (S (length text)) text with [] => false | c :: _ => negb (c =? 123) && negb (c =? 91) end
       end.

Definition body_overridable (overrides_on : bool) (unscanned : unreadable) (proxy_credential checks_object_access : bool) (body : pybytes) (hs : headers) : bool :=
  overrides_on && bool_decide (u_problem unscanned = NotJsonObject) && negb proxy_credential && negb checks_object_access && plain_text_body body hs.

(** ** What the stored-object check reads

    An upload as [upload_view] reads it. *)
Record upload_view : Type := mk_view {
  oversized : bool; too_many_lines : bool; problem : option pystr; normalized : option pybytes; cited : json }.

Context (upload_metadata_boundary : pystr -> pystr -> option pybytes) (parse_multipart_boundary : pystr -> option pybytes).
Context (read_upload_metadata : pybytes -> pybytes -> upload_view) (read_upload : pybytes -> pybytes -> Z -> Z -> upload_view).
Context (file_kind : pybytes -> Z).

Fixpoint rewritten_differs (before after : list MultipartPart) : bool :=
  match before, after with
  | old :: before, new :: after =>
      (negb (bool_decide (content old = content new)) && negb (file_kind (content old) =? file_kind (content new))) || rewritten_differs before after
  | _, _ => false
  end.

Definition reclassified (body normal boundary : pybytes) : bool :=
  match Multipart.parse body boundary, Multipart.parse normal boundary with
  | Some before, Some after =>
      if (length (parts before) =? length (parts after))%nat then rewritten_differs (parts before) (parts after) else true
  | _, _ => true
  end.

Definition view_unreadable (v : upload_view) : option unreadable :=
  if oversized v then Some (mk_unreadable 413 TooManyBytes true (Some too_large))
  else if too_many_lines v then Some (mk_unreadable 413 TooManyLines true (Some too_many_strings))
  else match problem v with Some p => Some (unreadable_as 400 (UploadProblem p)) | None => None end.

(** [_ownership_body]: the body checked, the one to forward in its place, the refusal. *)
Definition ownership_body (path : pystr) (hs : headers) (body : pybytes) (parsed : json) (proxy_credential scanned : bool) (max_body_bytes max_parts : Z)
    : json * option pybytes * option unreadable :=
  if proxy_credential && content_encoded hs then (JNull, None, Some (unreadable_as 415 ContentEncoded))
  else if proxy_credential && (1 <? length (getlist (lit "content-type") hs))%nat then (JNull, None, Some (unreadable_as 400 TwoContentTypes))
  else
    match parsed with
    | JNull =>
        let content_type := header_or_empty (lit "content-type") hs in
        let metadata_boundary := upload_metadata_boundary path content_type in
        match match metadata_boundary with Some [] | None => parse_multipart_boundary content_type | b => b end with
        | None => (JNull, None, None)
        | Some boundary =>
            if max_parts <? Z.of_nat (count_sub (delimiter boundary) body) then
              (JNull, None, if proxy_credential then Some (mk_unreadable 413 TooManyParts true (Some too_many_strings)) else None)
            else
              let view := match metadata_boundary with Some _ => read_upload_metadata body boundary | None => read_upload body boundary max_body_bytes max_parts end in
              match view_unreadable view with
              | Some u =>
                  if proxy_credential then (JNull, None, Some u)
                  else match metadata_boundary with
                       | Some _ => if scanned then (JNull, None, Some (mk_unreadable (u_status u) (u_problem u) false (u_kind u))) else (JNull, None, None)
                       | None => (JNull, None, None)
                       end
              | None =>
                  match normalized view with
                  | Some n => if reclassified body n boundary then (JNull, None, Some (mk_unreadable 400 Reclassified false None)) else (cited view, Some n, None)
                  | None => (cited view, None, None)
                  end
              end
        end
    | _ => (parsed, None, None)
    end.
End Rules.
