(* ===== verification/Handle.v ===== *)
(** * The request pipeline -- src/llm_redact/proxy.py, [_handle]

    Every check a request passes from the socket to the upstream, in the source's order:
    the result is the request sent, or the answer the proxy gives itself.  Plugins (the
    access gate, the router, the session router), the network and an adapter's own
    operations are members of a record; no upload inspector or scan sink is registered. *)

From S2P Require Import Prelude Json JsonWalk Placeholders Vault Detection Redactor Adapters Attribution Addressing BodyRules.

Local Open Scope mon_scope.

(** An answer the proxy gives itself; [recorded]: in the request log, else only counted. *)
Inductive answer : Type :=
| Refuse (status : Z) (kind : local_refusal) (provider : option pystr) (recorded : bool)
| LocalPage
| BaseUrl
| Discovery
| Crash.

Record request : Type := mk_request {
  q_method : pystr; q_scope : scope; q_url_path : pystr; q_query : pystr; q_url : request_url; q_body : pybytes }.

Record provider_conf : Type := mk_provider { enabled : bool; detection : bool; upstream_base_url : pystr }.

(** A routed plan: whether it says [proxy_credential] is False, and its note. *)
Record route_plan : Type := mk_plan { plan_id : Z; plan_credential : option bool; plan_note : bool }.
Inductive planned : Type := NoPlan | PlanRefused (status : Z) | Planned (p : route_plan).

Definition lends_credential (p : route_plan) : bool := negb (bool_decide (plan_credential p = Some false)).

(** The access gate's admission: its verdict and the scope with its credentials removed. *)
Record admission : Type := mk_admission { adm_refused : bool; adm_subject : bool; adm_scope : scope }.

(** A request's facts as the gate is asked about it. *)
Record facts : Type := mk_facts { f_provider : pystr; f_adapter : option pystr; f_kind : RouteKind; f_model : option pystr; f_identity : bool }.

Record content_facts : Type := mk_content {
  c_scanned : bool; c_detected : option (gmap pystr Z); c_warned : option (gmap pystr Z); c_unscanned_parts : nat; c_exempt_blocks : nat }.

(** The session router's verdict on stored objects: it may raise, answer nothing, or
    anything else, which refuses. *)
Inductive verdict : Type := VRaised | VNone | VOther.
Definition object_refused (v : verdict) : bool := match v with VNone => false | VRaised | VOther => true end.

(** What an upload's redaction raises. *)
Inductive upload_error : Type :=
| UploadRefused (r : refusal) | BinaryValuesDetected | UnscannedPart (binary_file : bool).

(** The requester's route rules. *)
Class RouteRules (O : Type) : Type := {
  route_rule : O -> pystr -> pystr -> pystr -> pystr -> option Z * O;
  use_route : Z -> O -> O;
  commit : O -> bool * O;
  faulted : O -> bool
}.

Section Handle.
Context {V O : Type} `{VaultOps V} `{OverrideOps O} `{RouteRules O}.

Abbreviation St := (rstate V O).
Abbreviation Step A := (M St answer A).
Abbreviation headers := (list (pystr * pystr)).

(** What an upload's redaction leaves of its binary parts: how many it forwarded, and the
    rule it forwarded them on. *)
Record marks : Type := mk_marks { forwarded : list nat; binary_rules : list Z }.
Abbreviation Upload A := (M (St * marks) upload_error A).

(** An adapter as the pipeline uses it. *)
Record served : Type := mk_served {
  entry : route_entry;
  operations : redactor -> adapter (V := V) (O := O);
  multipart_boundary : pystr -> pystr -> option pybytes;
  redacts_multipart : pystr -> bool;
  upload_metadata_boundary : pystr -> pystr -> option pybytes;
  proxy_credential_refused : pystr -> pystr -> headers -> pystr -> bool;
  request_model : pystr -> pystr -> json -> option pystr;
  wants_system_note : RouteKind -> pystr -> bool;
  redact_multipart : redactor -> pystr -> pybytes -> pybytes -> bool -> option (nat -> Upload unit) -> Upload (option pybytes)
}.

Definition s_name (a : served) : pystr := r_name (entry a).

(** The proxy: its configuration, adapters, plugins and collaborators. *)
Record proxy : Type := mk_proxy {
  adapters : list served;
  providers : pystr -> option provider_conf;
  max_body_bytes : Z; max_body_strings : Z;
  inject_note : bool; mcp_exempt_servers : gset pystr; forwards_binary : bool;
  identity_auth : pystr -> bool;
  admission_for : request -> admission;
  answers_locally : option (pystr -> pystr -> headers -> bool);
  plan_request : option (option pystr -> pystr -> option pystr -> planned);
  authorizes : option (facts -> bool);
  checks_content : option (facts -> content_facts -> bool);
  overlay_refused : bool;
  object_check : option (option pystr -> pystr -> pystr -> json -> bool -> verdict);
  override_scope : option O;
  context_for : option pystr -> json -> option redactor;
  prefetch_unavailable : pystr -> json -> bool; upload_prefetch_unavailable : pystr -> pybytes -> bool;
  authorize_upstream : pystr -> pystr -> headers -> pybytes -> option headers;
  audit_refused : bool;
  read_json : pybytes -> document;
  json_bytes : json -> pybytes;
  urlsplit : pystr -> option split_url; normalize_origin : pystr -> option pystr;
  public_origin : option (pystr * pystr); bind_host : pystr; allowed_hosts : list pystr; allowed_origins : list pystr;
  str_lower : pystr -> pystr; str_upper : pystr -> pystr; nfkc : pystr -> pystr;
  parse_url : pystr -> option httpx_url; on_wire : pystr -> pystr; base_path : pystr -> pystr; utf8 : pystr -> pybytes;
  read_upload_metadata : pybytes -> pybytes -> upload_view;
  read_upload : pybytes -> pybytes -> Z -> Z -> upload_view;
  file_kind : pybytes -> Z;
  parse_multipart_boundary : pystr -> option pybytes
}.

Context (px : proxy).

(** What is sent: the body, its decoded form, whose credential, and where. *)
Inductive destination : Type := Direct (url : pystr) (hs : headers) | Routed (p : route_plan).
Record sent : Type := mk_sent {
  x_adapter : option served; x_provider : pystr; x_body : pybytes; x_object : option json; x_proxy_credential : bool; x_to : destination }.

Definition page_refusal (url : request_url) (hs : headers) (lends : bool) : bool :=
  match request_origin_refusal (str_lower px) (urlsplit px) (normalize_origin px) (public_origin px) (bind_host px) (allowed_hosts px) (allowed_origins px)
          url hs lends with Some _ => true | None => false end.

Definition guard (refused : bool) (a : answer) : Step unit := if refused then mraise a else mret tt.

(** ** Before routing *)
Definition screen (q : request) : Step admission :=
  let s := q_scope q in
  guard (negb (origin_form_target s)) (Refuse 400 request_target None false);;;
  guard (has_dot_segment (str_lower px) s) (Refuse 400 request_target None false);;;
  guard (has_empty_segment (str_lower px) s) (Refuse 400 request_target None false);;;
  guard (starts_with RESERVED_PREFIX (q_url_path q)) LocalPage;;;
  let a := admission_for px q in
  let path := default [] (scope_path (adm_scope a)) in
  guard (starts_with RESERVED_PREFIX path) (Refuse 404 identity_path None false);;;
  guard (starts_with IDENTITY_PATH_PREFIX path) (Refuse 404 identity_path None false);;;
  mret a.

Definition entry_of (name : option pystr) (a : route_entry) : bool := bool_decide (name = Some (r_name a)).

(** The first adapter that serves the request. *)
Definition route_request (method path : pystr) (hs : headers) (query : pystr) : option served * RouteKind :=
  match List.find (fun a => negb (bool_decide (matches_request (entry a) method path hs query = NONE))) (adapters px) with
  | Some a => (Some a, matches_request (entry a) method path hs query)
  | None => (None, NONE)
  end.

(** A routed request: its adapter, kind, provider and that provider's entry, and whether
    the proxy's identity is spent. *)
Record routed : Type := mk_routed { rt_adapter : option served; rt_kind : RouteKind; rt_provider : pystr; rt_conf : provider_conf; rt_identity : bool }.

Definition address (q : request) (a : admission) (path : pystr) : Step routed :=
  let hs := scope_headers (adm_scope a) in
  let method := q_method q in
  let query := q_query q in
  let '(ad, kind) := route_request method path hs query in
  let provider := provider_for (str_lower px) (fun n => match providers px n with Some _ => true | None => false end) (entry <$> ad) path hs query in
  let conf := provider ≫= providers px in
  let identity := match provider with Some p => identity_auth px p | None => false end in
  guard (page_refusal (q_url q) hs identity) (Refuse 403 request_origin provider true);;;
  guard (bool_decide (path = lit "/") && bool_decide (method ∈ map lit ["GET"; "HEAD"]%string)) BaseUrl;;;
  match match ad with None => if adm_refused a then None else misaddressed (str_lower px) (str_upper px) (nfkc px) (map entry (adapters px)) method hs query path | Some _ => None end with
  | Some (m, n) => mraise (Refuse (misaddress_status m) misaddressed_ (Some n) true)
  | None =>
      match provider with
      | None => mraise (Refuse 404 unattributed None true)
      | Some p =>
          match conf with
          | None => mraise (Refuse 502 no_upstream (Some p) true)
          | Some c =>
              guard (negb (enabled c)) (Refuse 502 disabled_provider (Some p) true);;;
              guard (adm_refused a) (Refuse 403 access_gate (Some p) true);;;
              mret (mk_routed ad kind p c identity)
          end
      end
  end.

(** ** Before the body *)
Definition is_matched (r : routed) : bool := match rt_adapter r with Some _ => true | None => false end.
Definition facts_of (r : routed) (model : option pystr) (identity : bool) : facts := mk_facts (rt_provider r) (s_name <$> rt_adapter r) (rt_kind r) model identity.

Definition authorization_check (r : routed) (f : facts) : Step unit :=
  match authorizes px with Some ask => guard (ask f) (Refuse 403 authorization (Some (rt_provider r)) true) | None => mret tt end.

Definition before_body (q : request) (path : pystr) (hs : headers) (r : routed) : Step (option route_plan) :=
  let refuse status kind := Refuse status kind (Some (rt_provider r)) true in
  guard ((is_matched r || match authorizes px with Some _ => true | None => false end) &&
         match method_override (str_lower px) hs (q_query q) with Some _ => true | None => false end) (refuse 400 method_override_);;;
  guard (negb (is_matched r) && rt_identity r) (refuse 403 identity_route);;;
  match answers_locally px with
  | Some local =>
      if local (q_method q) path hs then
        authorization_check r (facts_of r (rt_adapter r ≫= fun a => request_model a (q_method q) path JNull) (rt_identity r));;; mraise Discovery
      else mret tt
  | None => mret tt
  end;;;
  match plan_request px with
  | Some ask =>
      if is_matched r || rt_identity r then mret None
      else match ask None (rt_provider r) None with
           | PlanRefused status => mraise (refuse status no_route)
           | NoPlan => mret None
           | Planned p => guard (lends_credential p) (refuse 403 identity_route);;; mret (Some p)
           end
  | None => mret None
  end.

(** The body: capped on a matched route, read whole after the gate's verdict on another. *)
Definition read_body (q : request) (r : routed) : Step pybytes :=
  match rt_adapter r with
  | Some _ => guard (max_body_bytes px <? zlen (q_body q)) (Refuse 413 too_large (Some (rt_provider r)) true);;; mret (q_body q)
  | None => authorization_check r (facts_of r None false);;; mret (q_body q)
  end.

(** The parsed body -- JSON's null and no JSON alike [JNull], Python's None --, whether a
    key repeats and whether it nests too deep. *)
Definition parse_body (r : routed) (body : pybytes) : json * bool * bool :=
  match rt_adapter r, body with
  | Some _, _ :: _ =>
      match loads_request (read_json px body) with
      | Ok (v, dup) => (v, dup, false)
      | Raise JsonTooDeep => (JNull, false, true)
      | Raise ValueErr => (JNull, false, false)
      end
  | _, _ => (JNull, false, false)
  end.

Definition body_model (parsed : json) : option pystr := match parsed with JDict items => jstr items (lit "model") | _ => None end.

Definition plan_matched (r : routed) (parsed : json) (plan : option route_plan) : Step (option route_plan) :=
  match plan_request px with
  | Some ask =>
      if is_matched r && negb (rt_identity r) then
        match ask (s_name <$> rt_adapter r) (rt_provider r) (body_model parsed) with
        | PlanRefused status => mraise (Refuse status no_route (Some (rt_provider r)) true)
        | NoPlan => mret None
        | Planned p => mret (Some p)
        end
      else mret plan
  | None => mret plan
  end.

(** Whose credential is spent, and what that asks of the request. *)
Definition spends_proxy_credential (r : routed) (plan : option route_plan) : bool :=
  rt_identity r || match plan with Some p => lends_credential p | None => false end.

Definition credential_rules (q : request) (path : pystr) (hs : headers) (r : routed) (proxy_credential : bool) : Step unit :=
  guard (proxy_credential && negb (rt_identity r) && page_refusal (q_url q) hs true)
    (Refuse 403 request_origin (Some (rt_provider r)) true);;;
  match rt_adapter r with
  | Some a => guard (proxy_credential && proxy_credential_refused a (q_method q) path hs (q_query q)) (Refuse 403 credential_protocol (Some (rt_provider r)) true)
  | None => mret tt
  end.

(** ** The scanned-body rule *)
Definition overrides_on : bool := match override_scope px with Some _ => true | None => false end.
Definition checks_object_access : bool := match object_check px with Some _ => true | None => false end.

(** [_route_override]: an approved rule, used now. *)
Definition route_override (o : O) (kind provider method path : pystr) : bool :=
  match route_rule o kind provider method path with (Some rule, o) => (commit (use_route rule o)).1 | (None, _) => false end.

Definition is_none (parsed : json) : bool := match parsed with JNull => true | _ => false end.

Definition scanned_rule (q : request) (path : pystr) (hs : headers) (r : routed) (body : pybytes) (parsed : json) (too_deep proxy_credential : bool) : Step json :=
  match rt_adapter r, body with
  | Some a, _ :: _ =>
      if proxy_credential || detection (rt_conf r) then
        guard (is_none parsed && multipart_parts_over (multipart_boundary a) hs body (max_body_strings px) path)
          (Refuse 413 too_many_strings (Some (s_name a)) true);;;
        match unscanned_body (str_lower px) (multipart_boundary a) (redacts_multipart a) path hs body parsed too_deep with
        | None => mret parsed
        | Some u =>
            if body_overridable (str_lower px) overrides_on u proxy_credential checks_object_access body hs &&
               match override_scope px with Some o => route_override o (lit "unscanned_body") (rt_provider r) (q_method q) path | None => false end
            then mret JNull
            else mraise (Refuse (u_status u) (unreadable_kind u scanned_body) (Some (rt_provider r)) true)
        end
      else mret parsed
  | _, _ => mret parsed
  end.

(** ** Stored objects, then the gate *)
Definition ownership (q : request) (path : pystr) (hs : headers) (r : routed) (body : pybytes) (parsed : json) (proxy_credential : bool) : Step (option pybytes) :=
  let '(check_body, checked_upload, unreadable) :=
    match rt_adapter r, body with
    | Some a, _ :: _ =>
        if checks_object_access then
          ownership_body (str_lower px) (upload_metadata_boundary a) (parse_multipart_boundary px) (read_upload_metadata px) (read_upload px) (file_kind px)
            path hs body parsed proxy_credential (proxy_credential || detection (rt_conf r)) (max_body_bytes px) (max_body_strings px)
        else (parsed, None, None)
    | _, _ => (parsed, None, None)
    end in
  match unreadable with
  | Some u => mraise (Refuse (u_status u) (unreadable_kind u unchecked_body) (Some (rt_provider r)) true)
  | None =>
      match object_check px with
      | Some check =>
          guard (object_refused (check (s_name <$> rt_adapter r) (q_method q) path check_body proxy_credential)) (Refuse 403 object_access (Some (rt_provider r)) true)
      | None => mret tt
      end;;;
      mret checked_upload
  end.

Definition asked_facts (q : request) (path : pystr) (r : routed) (parsed : json) (proxy_credential : bool) : facts :=
  match rt_adapter r with
  | Some a => facts_of r (request_model a (q_method q) path parsed) proxy_credential
  | None => facts_of r None false
  end.

Definition matched_authorization (r : routed) (f : facts) : Step unit := if is_matched r then authorization_check r f else mret tt.

Definition detects (r : routed) (parsed : json) : bool :=
  is_matched r && detection (rt_conf r) && match parsed with JDict _ => true | _ => false end.

Definition session (r : routed) (parsed : json) : Step redactor :=
  let name := s_name <$> rt_adapter r in
  guard (detects r parsed && prefetch_unavailable px (default [] name) parsed) (Refuse 503 detector_unavailable name true);;;
  guard (overlay_refused px) (Refuse 403 authorization (Some (rt_provider r)) true);;;
  match context_for px name parsed with Some rd => mret rd | None => mraise (Refuse 503 vault_fault (Some (rt_provider r)) true) end.

(** ** Redaction *)
Record outbound : Type := mk_outbound { o_body : pybytes; o_object : option json; o_scanned : bool; o_parts : nat; o_blocks : nat }.

Definition as_object (parsed : json) : option json := match parsed with JDict _ => Some parsed | _ => None end.

Definition refusal_answer (name : pystr) (r : refusal) : answer :=
  match r with
  | BlockedRequest _ => Refuse 400 blocked_value (Some name) true
  | TooManyStrings _ => Refuse 413 too_many_strings (Some name) true
  | PlaceholderLimitReached _ => Refuse 400 placeholder_limit (Some name) true
  | DetectorUnavailable _ _ => Refuse 503 detector_unavailable (Some name) true
  | VaultFault => Refuse 503 vault_fault (Some name) true
  end.

Definition route_answer (name : pystr) (e : route_error) : answer :=
  match e with
  | Refused r => refusal_answer name r
  | VerbatimFieldRedacted _ => Refuse 400 verbatim_field (Some name) true
  | Misshapen => Crash
  end.

Definition upload_answer (name : pystr) (e : upload_error) : answer :=
  match e with
  | UploadRefused r => refusal_answer name r
  | BinaryValuesDetected => Refuse 400 binary_values (Some name) true
  | UnscannedPart _ => Refuse 400 unscanned_upload (Some name) true
  end.

(** The requester's overrides are consumed as the request passes. *)
Definition commit_overrides (name : pystr) : Step unit := fun s =>
  match overrides s with
  | None => (Ok tt, s)
  | Some o =>
      let (ok, o) := commit o in
      if ok then (Ok tt, set_overrides (Some o) s)
      else (Raise (Refuse 400 (if faulted o then override_fault else override_raced) (Some name) true), set_overrides (Some o) s)
  end.

(** A request's copy of the redactor: its budget, its overrides, and the floors of the
    tokens the body carries. *)
Definition request_scope (proxy_credential : bool) : option O := if proxy_credential then None else override_scope px.

Definition request_redactor (rd : redactor) (body : pybytes) (parsed : json) : redactor :=
  let budgeted := with_budget rd (max_body_strings px) in
  if may_carry_tokens_bytes body then with_floors budgeted (json_floors parsed) else budgeted.

Definition redact_object (q : request) (path : pystr) (r : routed) (a : served) (rd : redactor) (body : pybytes) (parsed : json)
    (duplicate_keys proxy_credential note_wanted : bool) : Step outbound := fun s0 =>
  let s := set_used 0 (set_overrides (request_scope proxy_credential) s0) in
  let note := note_wanted && wants_system_note a (rt_kind r) path in
  let rd := request_redactor rd body parsed in
  match prepare_route_request rd (operations a rd) (q_method q) path parsed note (mcp_exempt_servers px) s with
  | (Raise e, s') => (Raise (route_answer (s_name a) e), s')
  | (Ok (prepared, blocks), s') =>
      (commit_overrides (s_name a);;;
       let quiet := total (counts s') =? total (counts s0) in
       mret (mk_outbound (if duplicate_keys || negb quiet then json_bytes px prepared else body) (Some prepared) true 0 blocks)) s'
  end.

(** What is told of an upload's binary parts: forwarded, or on the requester's rule. *)
Definition forward_all (count : nat) : Upload unit := fun st => (Ok tt, (st.1, mk_marks (forwarded st.2 ++ [count]) (binary_rules st.2))).

Definition forward_on_rule (provider method path : pystr) (count : nat) : Upload unit := fun st =>
  match overrides st.1 with
  | None => (Raise (UnscannedPart true), st)
  | Some o =>
      match route_rule o (lit "binary_upload") provider method path with
      | (None, o) => (Raise (UnscannedPart true), (set_overrides (Some o) st.1, st.2))
      | (Some rule, o) => (Ok tt, (set_overrides (Some o) st.1, mk_marks (forwarded st.2 ++ [count]) (binary_rules st.2 ++ [rule])))
      end
  end.

Definition binary_policy (provider method path : pystr) (proxy_credential : bool) : option (nat -> Upload unit) :=
  if proxy_credential then None
  else if forwards_binary px then Some forward_all
  else match override_scope px with Some _ => Some (forward_on_rule provider method path) | None => None end.

(** The rule an upload's binary parts were forwarded on is used once it passes. *)
Definition use_binary_rule (m : marks) (s : St) : St :=
  match binary_rules m, forwarded m, overrides s with
  | rule :: _, _ :: _, Some o => set_overrides (Some (use_route rule o)) s
  | _, _, _ => s
  end.

Definition redact_upload (q : request) (path : pystr) (hs : headers) (r : routed) (a : served) (rd : redactor) (body : pybytes) (checked_upload : option pybytes)
    (proxy_credential note_wanted : bool) : Step outbound := fun s0 =>
  match multipart_boundary a path (header_or_empty (lit "content-type") hs) with
  | None => (Ok (mk_outbound body None false 0 0), s0)
  | Some boundary =>
      let upload_body := default body checked_upload in
      if upload_prefetch_unavailable px (s_name a) upload_body then (Raise (Refuse 503 detector_unavailable (Some (s_name a)) true), s0)
      else
        let s := set_used 0 (set_overrides (request_scope proxy_credential) s0) in
        match redact_multipart a (with_budget rd (max_body_strings px)) path upload_body boundary (note_wanted && wants_system_note a (rt_kind r) path)
                (binary_policy (rt_provider r) (q_method q) path proxy_credential) (s, mk_marks [] []) with
        | (Raise e, (s', _)) => (Raise (upload_answer (s_name a) e), s')
        | (Ok rewritten, (s', m)) =>
            (commit_overrides (s_name a);;;
             mret (mk_outbound (match rewritten with Some b => b | None => upload_body end) None true (nth 0 (forwarded m) 0%nat) 0)) (use_binary_rule m s')
        end
  end.

Definition redact_request (q : request) (path : pystr) (hs : headers) (r : routed) (rd : redactor) (body : pybytes) (parsed : json)
    (duplicate_keys : bool) (checked_upload : option pybytes) (proxy_credential note_wanted : bool) : Step outbound :=
  match rt_adapter r with
  | None => mret (mk_outbound body (as_object parsed) false 0 0)
  | Some a =>
      if negb (detection (rt_conf r)) then
        mret (mk_outbound (if duplicate_keys then json_bytes px parsed else default body checked_upload) (as_object parsed) false 0 0)
      else match parsed, body with
           | JDict _, _ => redact_object q path r a rd body parsed duplicate_keys proxy_credential note_wanted
           | JNull, _ :: _ => redact_upload q path hs r a rd body checked_upload proxy_credential note_wanted
           | _, _ => mret (mk_outbound body (as_object parsed) false 0 0)
           end
  end.

(** ** What redaction found, and the upstream *)
Definition count_delta (after before : gmap pystr Z) : gmap pystr Z :=
  map_imap (fun k n => let b := default 0 (before !! k) in if b <? n then Some (n - b) else None) after.

Definition content_rule (r : routed) (f : facts) (o : outbound) (before : St) : Step unit :=
  match checks_content px with
  | Some ask => fun s =>
      let found m n := if o_scanned o then Some (count_delta m n) else None in
      guard (ask f (mk_content (o_scanned o) (found (counts s) (counts before)) (found (warn_counts s) (warn_counts before)) (o_parts o) (o_blocks o)))
        (Refuse 403 authorization (Some (rt_provider r)) true) s
  | None => mret tt
  end.

Definition send (q : request) (s : scope) (path : pystr) (r : routed) (plan : option route_plan) (o : outbound) (proxy_credential : bool) : Step sent :=
  let to := mk_sent (rt_adapter r) (rt_provider r) (o_body o) (o_object o) proxy_credential in
  match plan with
  | Some p => mret (to (Routed p))
  | None =>
      let base := upstream_base_url (rt_conf r) in
      guard (bool_decide (base = [])) (Refuse 502 no_upstream (Some (default (lit "unknown") (s_name <$> rt_adapter r))) true);;;
      match legacy_target (str_lower px) (parse_url px) (on_wire px) (base_path px) (utf8 px) s path (q_query q) (rt_provider r) base (rt_identity r) (is_matched r) with
      | None => mraise (Refuse 400 request_target (Some (rt_provider r)) false)
      | Some (url, headers) =>
          headers <~ (if rt_identity r then
                        match authorize_upstream px (q_method q) url headers (o_body o) with
                        | Some h => mret h
                        | None => mraise (Refuse 502 upstream_auth (Some (rt_provider r)) true)
                        end
                      else mret headers);;
          guard (audit_refused px) (Refuse 503 audit_unavailable (s_name <$> rt_adapter r) true);;;
          mret (to (Direct url headers))
      end
  end.

(** ** [_handle] *)
Definition handle (q : request) : Step sent :=
  a <~ screen q;;
  let s := adm_scope a in
  let path := default [] (scope_path s) in
  let hs := scope_headers s in
  r <~ address q a path;;
  early <~ before_body q path hs r;;
  body <~ read_body q r;;
  let '(parsed, duplicate_keys, too_deep) := parse_body r body in
  plan <~ plan_matched r parsed early;;
  let proxy_credential := spends_proxy_credential r plan in
  credential_rules q path hs r proxy_credential;;;
  parsed <~ scanned_rule q path hs r body parsed too_deep proxy_credential;;
  checked_upload <~ ownership q path hs r body parsed proxy_credential;;
  let f := asked_facts q path r parsed proxy_credential in
  matched_authorization r f;;;
  rd <~ session r parsed;;
  before <~ mget;;
  let note := match plan with Some p => plan_note p | None => inject_note px end in
  o <~ redact_request q path hs r rd body parsed duplicate_keys checked_upload proxy_credential note;;
  content_rule r f o before;;;
  send q s path r plan o proxy_credential.
End Handle.
