(* ===== verification/HandleFacts.v ===== *)
(** * What reaches an upstream

    Inversion of the request pipeline, stage by stage, and what follows for every request
    it sends: its body was read and redacted, and the proxy's credential is spent only on
    recognized routes, for requests the origin rule admits. *)

From S2P Require Import Prelude Json JsonWalk Placeholders Vault Detection Redactor Winners Redaction RoundTrip Adapters Attribution Addressing BodyRules Handle.

Section Facts.
Context {V O : Type} `{VaultOps V} `{OverrideOps O} `{RouteRules O} (px : proxy (V := V) (O := O)).

Abbreviation St := (rstate V O).

Lemma guard_ok b a (s s' : St) u : guard (O := O) b a s = (Ok u, s') -> b = false /\ s' = s.
Proof. unfold guard. destruct b; [done|]. by intros [_ ->]%mret_ok. Qed.

Ltac bind_step Hm a s Ha := apply mbnd_ok in Hm as (a & s & Ha & Hm).
Ltac guard_step Hm Hb := let u := fresh "u" in let s := fresh "s" in let Hg := fresh "Hg" in
  apply mbnd_ok in Hm as (u & s & Hg & Hm); apply guard_ok in Hg as [Hb ->]; cbn beta in Hm; clear u.

Lemma screen_ok q (s s' : St) a : screen px q s = (Ok a, s') ->
  s' = s /\ a = admission_for px q /\ starts_with RESERVED_PREFIX (default [] (scope_path (adm_scope a))) = false /\
  starts_with IDENTITY_PATH_PREFIX (default [] (scope_path (adm_scope a))) = false /\
  has_dot_segment (str_lower px) (q_scope q) = false /\ has_empty_segment (str_lower px) (q_scope q) = false.
Proof.
  unfold screen. intros Hm. guard_step Hm Ho. guard_step Hm Hd. guard_step Hm He. guard_step Hm Hr. guard_step Hm Hp. guard_step Hm Hi.
  apply mret_ok in Hm as [-> ->]. done.
Qed.

(** A routed request as [address] leaves it. *)
Definition addressed (q : request) (a : admission) (path : pystr) (r : routed (V := V) (O := O)) : Prop :=
  let hs := scope_headers (adm_scope a) in
  route_request px (q_method q) path hs (q_query q) = (rt_adapter r, rt_kind r) /\
  provider_for (str_lower px) (fun n => match providers px n with Some _ => true | None => false end) (entry <$> rt_adapter r) path hs (q_query q) = Some (rt_provider r) /\
  providers px (rt_provider r) = Some (rt_conf r) /\ enabled (rt_conf r) = true /\ adm_refused a = false /\
  rt_identity r = identity_auth px (rt_provider r) /\ page_refusal px (q_url q) hs (rt_identity r) = false /\
  (rt_adapter r = None -> misaddressed (str_lower px) (str_upper px) (nfkc px) (map entry (adapters px)) (q_method q) hs (q_query q) path = None).

Lemma address_ok q a path (s s' : St) r : address px q a path s = (Ok r, s') -> s' = s /\ addressed q a path r.
Proof.
  unfold address, addressed. destruct (route_request px _ _ _ _) as [ad kind] eqn:Er. intros Hm. guard_step Hm Hp. guard_step Hm Hb.
  destruct (match ad with None => if adm_refused a then None else _ | Some _ => None end) as [[m n]|] eqn:Em; [done|].
  destruct (provider_for _ _ _ _ _ _) as [p|] eqn:Ep; [|done]. cbn in Hm. destruct (providers px p) as [c|] eqn:Ec; [|done].
  guard_step Hm He. guard_step Hm Ha. apply mret_ok in Hm as [-> ->]. apply negb_false_iff in He. cbn. split_and!; try done.
  intros ->. by rewrite Ha in Em.
Qed.

Lemma before_body_ok q path hs r (s s' : St) plan : before_body px q path hs r s = (Ok plan, s') ->
  s' = s /\ (is_matched r = false -> rt_identity r = false) /\
  (is_matched r = true -> method_override (str_lower px) hs (q_query q) = None /\ plan = None) /\
  (forall p, plan = Some p -> lends_credential p = false).
Proof.
  unfold before_body. intros Hm. guard_step Hm Ho. guard_step Hm Hi.
  assert (Hov : is_matched r = true -> method_override (str_lower px) hs (q_query q) = None).
  { intros Hr. rewrite Hr in Ho. cbn in Ho. by destruct (method_override _ _ _). }
  assert (Hid : is_matched r = false -> rt_identity r = false) by (intros Hr; by rewrite Hr in Hi).
  bind_step Hm u s1 Hl. assert (s1 = s) as ->.
  { destruct (answers_locally px) as [f|]; [|by apply mret_ok in Hl as [_ ->]]. destruct (f _ _ _); [|by apply mret_ok in Hl as [_ ->]].
    bind_step Hl v s2 Hc. done. }
  destruct (plan_request px) as [ask|]; [|by apply mret_ok in Hm as [-> ->]; split_and!; try done; intros Hr; split; [by apply Hov|]].
  destruct (is_matched r || rt_identity r) eqn:Em; [by apply mret_ok in Hm as [-> ->]; split_and!; try done; intros Hr; split; [by apply Hov|]|].
  apply orb_false_iff in Em as [Em _]. destruct (ask _ _ _) as [|st|p]; [|done|].
  - apply mret_ok in Hm as [-> ->]. split_and!; [done|done|by rewrite Em|done].
  - guard_step Hm Hp. apply mret_ok in Hm as [-> ->]. split_and!; [done|done|by rewrite Em|]. by intros p' [= <-].
Qed.

Lemma authorization_ok r f (s s' : St) u : authorization_check px r f s = (Ok u, s') ->
  s' = s /\ forall ask, authorizes px = Some ask -> ask f = false.
Proof.
  unfold authorization_check. destruct (authorizes px) as [ask|]; intros Hm.
  - apply guard_ok in Hm as [Hb ->]. split; [done|]. by intros ? [= <-].
  - apply mret_ok in Hm as [_ ->]. done.
Qed.

Lemma read_body_ok q r (s s' : St) body : read_body px q r s = (Ok body, s') ->
  s' = s /\ body = q_body q /\ (is_matched r = true -> zlen body <= max_body_bytes px) /\
  (is_matched r = false -> forall ask, authorizes px = Some ask -> ask (facts_of r None false) = false).
Proof.
  unfold read_body, is_matched. destruct (rt_adapter r); intros Hm.
  - guard_step Hm Hb. apply mret_ok in Hm as [-> ->]. apply Z.ltb_ge in Hb. done.
  - bind_step Hm u s1 Ha. apply authorization_ok in Ha as [-> Ha]. apply mret_ok in Hm as [-> ->]. done.
Qed.

Lemma plan_matched_ok r parsed plan (s s' : St) plan' : plan_matched px r parsed plan s = (Ok plan', s') ->
  s' = s /\ (plan' = plan \/ (is_matched r = true /\ rt_identity r = false)).
Proof.
  unfold plan_matched. destruct (plan_request px) as [ask|]; [|intros [-> ->]%mret_ok; by split; [|left]].
  destruct (is_matched r && negb (rt_identity r)) eqn:E; [|intros [-> ->]%mret_ok; by split; [|left]].
  apply andb_true_iff in E as [E1 E2%negb_true_iff]. destruct (ask _ _ _); [intros [-> ->]%mret_ok|done|intros [-> ->]%mret_ok]; (split; [done|by right]).
Qed.

Lemma credential_rules_ok q path hs r pc (s s' : St) u : credential_rules px q path hs r pc s = (Ok u, s') ->
  s' = s /\ (pc = true -> rt_identity r = false -> page_refusal px (q_url q) hs true = false) /\
  (forall a, rt_adapter r = Some a -> pc = true -> proxy_credential_refused a (q_method q) path hs (q_query q) = false).
Proof.
  unfold credential_rules. intros Hm. guard_step Hm Hp. assert (Hp' : pc = true -> rt_identity r = false -> page_refusal px (q_url q) hs true = false).
  { intros -> Hr. by rewrite Hr in Hp. }
  destruct (rt_adapter r) as [a|]; [|by apply mret_ok in Hm as [_ ->]]. apply guard_ok in Hm as [Hg ->]. split_and!; [done|done|].
  intros a' [= <-] ->. done.
Qed.

(** What the scanned-body rule leaves: the parse, or nothing on an approved override. *)
Definition readable (a : served (V := V) (O := O)) (path : pystr) (hs : list (pystr * pystr)) (body : pybytes) (parsed : json) (too_deep : bool) : Prop :=
  unscanned_body (str_lower px) (multipart_boundary a) (redacts_multipart a) path hs body parsed too_deep = None.

Definition approved_unscanned (q : request) (path : pystr) (hs : list (pystr * pystr)) (provider : pystr) (body : pybytes) : Prop :=
  plain_text_body (str_lower px) body hs = true /\ checks_object_access px = false /\
  exists o, override_scope px = Some o /\ route_override o (lit "unscanned_body") provider (q_method q) path = true.

Lemma scanned_rule_ok q path hs r body parsed too_deep pc (s s' : St) parsed' : scanned_rule px q path hs r body parsed too_deep pc s = (Ok parsed', s') ->
  s' = s /\ forall a, rt_adapter r = Some a -> body <> [] -> pc || detection (rt_conf r) = true ->
    (parsed' = parsed /\ readable a path hs body parsed too_deep) \/ (parsed' = JNull /\ pc = false /\ approved_unscanned q path hs (rt_provider r) body).
Proof.
  unfold scanned_rule. destruct (rt_adapter r) as [a|]; [|by intros [-> ->]%mret_ok]. destruct body as [|c body]; [by intros [-> ->]%mret_ok|].
  destruct (pc || detection (rt_conf r)) eqn:E; [|by intros [-> ->]%mret_ok]. intros Hm. guard_step Hm Hg.
  destruct (unscanned_body _ _ _ _ _ _ _ _) as [u|] eqn:Eu.
  - destruct (body_overridable _ _ _ _ _ _ _ && _) eqn:Eo; [|done]. apply mret_ok in Hm as [-> ->]. split; [done|]. intros a' [= <-] _ _. right.
    apply andb_true_iff in Eo as [Eb Er]. unfold body_overridable in Eb. bool_simpl. split_and!; [done|done|]. unfold approved_unscanned. split_and!; [done|done|].
    destruct (override_scope px) as [o|]; [|done]. by exists o.
  - apply mret_ok in Hm as [-> ->]. split; [done|]. intros a' [= <-] _ _. by left.
Qed.

(** The upload a stored-object check normalized, which is redacted in the body's place. *)
Definition checked_upload (a : served (V := V) (O := O)) (path : pystr) (hs : list (pystr * pystr)) (body : pybytes) (parsed : json) (pc scanned : bool) : option pybytes :=
  if checks_object_access px then
    (ownership_body (str_lower px) (upload_metadata_boundary a) (parse_multipart_boundary px) (read_upload_metadata px) (read_upload px) (file_kind px)
      path hs body parsed pc scanned (max_body_bytes px) (max_body_strings px)).1.2
  else None.

Lemma ownership_ok q path hs r body parsed pc (s s' : St) cu : ownership px q path hs r body parsed pc s = (Ok cu, s') ->
  s' = s /\ forall a, rt_adapter r = Some a -> body <> [] -> cu = checked_upload a path hs body parsed pc (pc || detection (rt_conf r)).
Proof.
  unfold ownership, checked_upload. destruct (match rt_adapter r with Some _ => _ | None => _ end) as [[cb cu'] u] eqn:E. destruct u; [done|].
  intros Hm. bind_step Hm x s1 Hc. apply mret_ok in Hm as [-> ->].
  split; [destruct (object_check px); [by apply guard_ok in Hc as [_ ->]|by apply mret_ok in Hc as [_ ->]]|].
  intros a Ha Hb. rewrite Ha in E. destruct body as [|c body]; [done|]. destruct (checks_object_access px); [by rewrite E|by injection E as _ <-].
Qed.

Lemma session_ok r parsed (s s' : St) rd : session px r parsed s = (Ok rd, s') -> s' = s /\ context_for px (s_name <$> rt_adapter r) parsed = Some rd.
Proof.
  unfold session. intros Hm. guard_step Hm Hp. guard_step Hm Ho. destruct (context_for _ _ _) as [rd'|]; [|done]. by apply mret_ok in Hm as [-> ->].
Qed.

Lemma content_ok r f o before (s s' : St) u : content_rule px r f o before s = (Ok u, s') -> s' = s.
Proof. unfold content_rule. destruct (checks_content px); [by intros [_ ->]%guard_ok|by intros [_ ->]%mret_ok]. Qed.

Lemma send_ok q sc path r plan o pc (s s' : St) x : send px q sc path r plan o pc s = (Ok x, s') ->
  s' = s /\ x_adapter x = rt_adapter r /\ x_provider x = rt_provider r /\ x_body x = o_body o /\ x_proxy_credential x = pc /\
  plan = match x_to x with Routed p => Some p | Direct _ _ => None end.
Proof.
  unfold send. destruct plan as [p|]; [by intros [-> ->]%mret_ok|]. intros Hm. guard_step Hm Hb. destruct (legacy_target _ _ _ _ _ _ _ _ _ _ _ _) as [[url hs]|]; [|done].
  bind_step Hm h s1 Hh. assert (s1 = s) as ->.
  { destruct (rt_identity r); [|by apply mret_ok in Hh as [_ ->]]. destruct (authorize_upstream _ _ _ _ _); [by apply mret_ok in Hh as [_ ->]|done]. }
  guard_step Hm Ha. by apply mret_ok in Hm as [-> ->].
Qed.

Lemma overrides_committed name (s s' : St) u : commit_overrides name s = (Ok u, s') -> counts s' = counts s /\ vault s' = vault s.
Proof.
  unfold commit_overrides. destruct (overrides s); [|by intros [= _ <-]]. destruct (commit o) as [ok o']. destruct ok; [|done]. by intros [= _ <-].
Qed.

(** ** The whole pipeline *)
Section Sent.
Context (q : request).

Abbreviation sc := (adm_scope (admission_for px q)).
Abbreviation path := (default [] (scope_path sc)).
Abbreviation hs := (scope_headers sc).

Lemma handle_ok (s s' : St) x : handle px q s = (Ok x, s') ->
  exists r early parsed0 dup deep plan parsed cu rd o,
    addressed q (admission_for px q) path r /\
    ((is_matched r = false -> rt_identity r = false) /\ (is_matched r = true -> method_override (str_lower px) hs (q_query q) = None /\ early = None) /\
     (forall p, early = Some p -> lends_credential p = false)) /\
    (is_matched r = false -> forall ask, authorizes px = Some ask -> ask (facts_of r None false) = false) /\
    parse_body px r (q_body q) = (parsed0, dup, deep) /\
    (plan = early \/ (is_matched r = true /\ rt_identity r = false)) /\
    (let pc := spends_proxy_credential r plan in
     (pc = true -> rt_identity r = false -> page_refusal px (q_url q) hs true = false) /\
     (forall a, rt_adapter r = Some a -> pc = true -> proxy_credential_refused a (q_method q) path hs (q_query q) = false) /\
     (forall a, rt_adapter r = Some a -> q_body q <> [] -> pc || detection (rt_conf r) = true ->
        (parsed = parsed0 /\ readable a path hs (q_body q) parsed0 deep) \/ (parsed = JNull /\ pc = false /\ approved_unscanned q path hs (rt_provider r) (q_body q))) /\
     context_for px (s_name <$> rt_adapter r) parsed = Some rd /\
     redact_request px q path hs r rd (q_body q) parsed dup cu pc (match plan with Some p => plan_note p | None => inject_note px end) s = (Ok o, s') /\
     x_adapter x = rt_adapter r /\ x_provider x = rt_provider r /\ x_body x = o_body o /\ x_proxy_credential x = pc /\
     plan = match x_to x with Routed p => Some p | Direct _ _ => None end /\
     (forall a, rt_adapter r = Some a -> q_body q <> [] -> cu = checked_upload a path hs (q_body q) parsed pc (pc || detection (rt_conf r)))).
Proof.
  unfold handle. intros Hm. bind_step Hm a s1 K1. apply screen_ok in K1 as (-> & -> & _). bind_step Hm r s2 K2. apply address_ok in K2 as [-> Hr].
  bind_step Hm early s3 K3. apply before_body_ok in K3 as [-> He]. bind_step Hm body s4 K4. apply read_body_ok in K4 as (-> & -> & _ & Hau).
  destruct (parse_body px r (q_body q)) as [[parsed0 dup] deep] eqn:Hp. bind_step Hm plan s5 K5. apply plan_matched_ok in K5 as [-> Hplan].
  bind_step Hm u6 s6 K6. apply credential_rules_ok in K6 as (-> & Hc1 & Hc2). bind_step Hm parsed s7 K7. apply scanned_rule_ok in K7 as [-> Hs].
  bind_step Hm cu s8 K8. apply ownership_ok in K8 as [-> Hcu]. bind_step Hm u9 s9 K9.
  assert (s9 = s) as ->. { unfold matched_authorization in K9. destruct (is_matched r); [by apply authorization_ok in K9 as [-> _]|by apply mret_ok in K9 as [_ ->]]. }
  bind_step Hm rd s10 K10. apply session_ok in K10 as [-> Hrd]. bind_step Hm bf s11 K11. injection K11 as <- <-.
  bind_step Hm o s12 K12. bind_step Hm u13 s13 K13. apply content_ok in K13 as ->. apply send_ok in Hm as (-> & Hx).
  destruct He as (He1 & He2 & He3), Hx as (Hx1 & Hx2 & Hx3 & Hx4 & Hx5). exists r, early, parsed0, dup, deep, plan, parsed, cu, rd, o. cbv zeta. split_and!; done.
Qed.

(** The body as the proxy read it, and whether it nests too deep. *)
Definition reading (body : pybytes) : json * bool :=
  match loads_request (read_json px body) with Ok (v, _) => (v, false) | Raise JsonTooDeep => (JNull, true) | Raise ValueErr => (JNull, false) end.

Lemma parse_reading r a parsed dup deep : rt_adapter r = Some a -> q_body q <> [] -> parse_body px r (q_body q) = (parsed, dup, deep) ->
  (parsed, deep) = reading (q_body q) /\ (parsed <> JNull -> loads_request (read_json px (q_body q)) = Ok (parsed, dup)).
Proof.
  unfold parse_body, reading. intros -> Hn Hp. destruct (q_body q) as [|c b]; [done|].
  destruct (loads_request _) as [[v d]|[]]; by injection Hp as <- <- <-.
Qed.

(** A body the proxy read: a JSON object, or a form on a route whose forms are redacted;
    sent uncompressed and under one content type. *)
Inductive was_read (a : served (V := V) (O := O)) : Prop :=
| ReadObject items dup : content_encoded (str_lower px) hs = false -> loads_request (read_json px (q_body q)) = Ok (JDict items, dup) -> was_read a
| ReadForm boundary form : content_encoded (str_lower px) hs = false -> (reading (q_body q)).1 = JNull ->
    multipart_boundary a path (header_or_empty (lit "content-type") hs) = Some boundary -> redacts_multipart a path = true ->
    Multipart.parse (q_body q) boundary = Some form -> was_read a.

Lemma readable_was_read r a parsed dup deep : rt_adapter r = Some a -> q_body q <> [] -> parse_body px r (q_body q) = (parsed, dup, deep) ->
  readable a path hs (q_body q) parsed deep -> was_read a.
Proof.
  intros Ha Hb Hp Hr. destruct (parse_reading _ _ _ _ _ Ha Hb Hp) as [Hread Hobj]. unfold readable, unscanned_body in Hr.
  destruct (content_encoded _ _) eqn:Ec; [done|]. destruct (1 <? _)%nat; [done|]. destruct deep; [done|].
  destruct parsed as [| | | | |items]; try done.
  - destruct (getlist _ hs) as [|ct l] eqn:Eg; [done|]. destruct (multipart_boundary a path ct) as [bd|] eqn:Eb; [|done].
    destruct (redacts_multipart a path) eqn:Em; [|done]. cbn [negb] in Hr. destruct (Multipart.parse (q_body q) bd) as [form|] eqn:Ef; [|done].
    eapply (ReadForm a bd form); [done|by rewrite <- Hread|by unfold header_or_empty; rewrite Eg|done..].
  - eapply ReadObject; [done|by apply Hobj].
Qed.

(** What a request's redaction starts from, and whether the system note is wanted. *)
Definition redaction_state (s : St) (pc : bool) : St := set_used 0 (set_overrides (request_scope px pc) s).

Definition note_for (a : served (V := V) (O := O)) (x : sent (V := V) (O := O)) : bool :=
  (match x_to x with Routed p => plan_note p | Direct _ _ => inject_note px end) &&
  wants_system_note a (route_request px (q_method q) path hs (q_query q)).2 path.

(** What redaction of a JSON object sends. *)
Lemma redact_object_ok r a rd body parsed dup pc note (s s' : St) o : redact_object px q path r a rd body parsed dup pc note s = (Ok o, s') ->
  exists prepared blocks s1,
    prepare_route_request (request_redactor px rd body parsed) (operations a (request_redactor px rd body parsed)) (q_method q) path parsed (note && wants_system_note a (rt_kind r) path)
      (mcp_exempt_servers px) (redaction_state s pc) = (Ok (prepared, blocks), s1) /\
    o_body o = (if dup || negb (total (counts s1) =? total (counts s)) then json_bytes px prepared else body) /\ vault s' = vault s1 /\ counts s' = counts s1.
Proof.
  unfold redact_object, redaction_state. cbv zeta. destruct (prepare_route_request _ _ _ _ _ _ _ _) as [[[prepared blocks]|e] s1] eqn:E; [|done].
  intros Hm. bind_step Hm u s2 Hc. apply overrides_committed in Hc as [Hc Hv]. apply mret_ok in Hm as [-> ->].
  exists prepared, blocks, s1. by split_and!.
Qed.

Lemma redact_upload_ok r a rd body cu pc note (s s' : St) o : redact_upload px q path hs r a rd body cu pc note s = (Ok o, s') ->
  match multipart_boundary a path (header_or_empty (lit "content-type") hs) with
  | None => o_body o = body
  | Some boundary => exists rewritten st1,
      redact_multipart a (with_budget rd (max_body_strings px)) path (default body cu) boundary (note && wants_system_note a (rt_kind r) path)
        (binary_policy px (rt_provider r) (q_method q) path pc) (redaction_state s pc, mk_marks [] []) = (Ok rewritten, st1) /\
      o_body o = default (default body cu) rewritten
  end.
Proof.
  unfold redact_upload, redaction_state. destruct (multipart_boundary _ _ _) as [b|]; [|by intros [= <- _]]. destruct (upload_prefetch_unavailable _ _ _); [done|].
  destruct (redact_multipart _ _ _ _ _ _ _ _) as [[rw|e] [s1 m]] eqn:E; [|done]. intros Hm. bind_step Hm u s2 Hc. apply mret_ok in Hm as [-> _].
  eexists rw, (s1, m). split; [done|]. cbn. by destruct rw.
Qed.

(** Of a body sent, what the proxy did with it: everything but its outcome is the
    request's own -- the object the bytes read as, the session's redactor, the scope, the
    route's adapter, the note, the rule for binary parts. *)
Inductive vouched (a : served (V := V) (O := O)) (s : St) (x : sent (V := V) (O := O)) : Prop :=
| AsObject items dup rd prepared blocks s1 :
    let parsed := JDict items in
    let redactor := request_redactor px rd (q_body q) parsed in
    loads_request (read_json px (q_body q)) = Ok (parsed, dup) -> context_for px (Some (s_name a)) parsed = Some rd ->
    prepare_route_request redactor (operations a redactor) (q_method q) path parsed (note_for a x) (mcp_exempt_servers px)
      (redaction_state s (x_proxy_credential x)) = (Ok (prepared, blocks), s1) ->
    x_body x = (if dup || negb (total (counts s1) =? total (counts s)) then json_bytes px prepared else q_body q) -> vouched a s x
| AsUpload boundary rd rewritten st1 :
    let upload := default (q_body q) (checked_upload a path hs (q_body q) JNull (x_proxy_credential x) true) in
    multipart_boundary a path (header_or_empty (lit "content-type") hs) = Some boundary -> context_for px (Some (s_name a)) JNull = Some rd ->
    redact_multipart a (with_budget rd (max_body_strings px)) path upload boundary (note_for a x)
      (binary_policy px (x_provider x) (q_method q) path (x_proxy_credential x)) (redaction_state s (x_proxy_credential x), mk_marks [] []) = (Ok rewritten, st1) ->
    x_body x = default upload rewritten -> vouched a s x
| AsApproved : approved_unscanned q path hs (x_provider x) (q_body q) -> x_proxy_credential x = false -> x_body x = q_body q -> vouched a s x.

Lemma redact_request_ok r a rd parsed dup cu pc note (s s' : St) o : rt_adapter r = Some a -> detection (rt_conf r) = true ->
  redact_request px q path hs r rd (q_body q) parsed dup cu pc note s = (Ok o, s') ->
  match parsed, q_body q with
  | JDict _, _ => redact_object px q path r a rd (q_body q) parsed dup pc note s = (Ok o, s')
  | JNull, _ :: _ => redact_upload px q path hs r a rd (q_body q) cu pc note s = (Ok o, s')
  | _, _ => o_body o = q_body q
  end.
Proof. unfold redact_request. intros -> ->. cbn [negb]. destruct parsed, (q_body q); try done; by intros [-> _]%mret_ok. Qed.

(** C3: nothing the proxy did not redact reaches a provider on a recognized route where
    detection is on: a non-empty body that is sent is what the route's adapter made, with
    the session's redactor, of the JSON object the bytes read as, serialized -- the
    client's own bytes when that counted no value and no key repeats --, or what its
    multipart redaction made of the upload (or of the form of it the stored-object check
    normalized) under the rule for binary parts, or plain text on an approved override
    under the client's own credential.  An adapter's own operations are parameters here. *)
Theorem sent_body_was_read (s s' : St) x a conf : handle px q s = (Ok x, s') -> x_adapter x = Some a -> q_body q <> [] ->
  providers px (x_provider x) = Some conf -> detection conf = true -> vouched a s x.
Proof.
  intros (r & early & parsed0 & dup & deep & plan & parsed & cu & rd & o & Had & _ & _ & Hp & _ & _ & _ & Hs & Hrd & Hred & Hx1 & Hx2 & Hx3 & Hx4 & Hx5 & Hcu)%handle_ok Ha Hb Hc Hdet.
  rewrite Hx1 in Ha. destruct Had as (Hroute & _ & Hconf & _). rewrite Hx2, Hconf in Hc. injection Hc as <-.
  assert (Hd : spends_proxy_credential r plan || detection (rt_conf r) = true) by by rewrite Hdet, orb_true_r.
  pose proof (redact_request_ok _ _ _ _ _ _ _ _ _ _ _ Ha Hdet Hred) as Hr. specialize (Hs a Ha Hb Hd). specialize (Hcu a Ha Hb). rewrite Hd in Hcu.
  rewrite Ha in Hrd. cbn in Hrd. set (note := match plan with Some p => plan_note p | None => inject_note px end) in *.
  assert (Hnote : note && wants_system_note a (rt_kind r) path = note_for a x).
  { unfold note_for, note. rewrite Hroute. cbn [snd]. rewrite Hx5. by destruct (x_to x). }
  rewrite <- Hx4 in *. clear Hx5.
  assert (Hup : parsed = JNull -> redact_upload px q path hs r a rd (q_body q) cu (x_proxy_credential x) note s = (Ok o, s') -> vouched a s x).
  { intros -> Hu. apply redact_upload_ok in Hu. rewrite Hnote in Hu. destruct (multipart_boundary a path _) as [bd|] eqn:Eb.
    - destruct Hu as (rw & st1 & Hrm & Ho). rewrite Hcu, <- Hx2 in Hrm. eapply AsUpload; [exact Eb|exact Hrd|exact Hrm|by rewrite Hx3, Ho, Hcu].
    - destruct Hs as [[<- Hread]|(_ & Hpc & Hok)]; [|apply AsApproved; [by rewrite Hx2|done|congruence]].
      exfalso. unfold readable, unscanned_body in Hread. destruct (content_encoded _ _); [done|]. destruct (1 <? _)%nat; [done|].
      unfold header_or_empty in Eb. destruct deep; [done|]. destruct (getlist _ _) as [|ct l]; [done|]. by rewrite Eb in Hread. }
  destruct Hs as [[-> Hread]|(-> & Hpc & Hok)].
  2:{ destruct (q_body q) eqn:E; [done|]. rewrite <- E in *. by apply Hup. }
  destruct parsed0 as [| | | | |items].
  1:{ destruct (q_body q) eqn:E; [done|]. rewrite <- E in *. by apply Hup. }
  1-4: exfalso; unfold readable, unscanned_body in Hread; destruct (content_encoded _ _); [done|]; destruct (1 <? _)%nat; [done|]; by destruct deep.
  apply redact_object_ok in Hr as (prepared & blocks & s1 & Hprep & Ho & _). rewrite Hnote in Hprep.
  destruct (parse_reading _ _ _ _ _ Ha Hb Hp) as [_ Hl]. eapply AsObject; [by apply Hl|exact Hrd|exact Hprep|by rewrite Hx3, Ho].
Qed.

(** C4: a credential the proxy holds -- its cloud identity, or a routed upstream's own
    key -- is spent only on a route an adapter recognizes and whose protocol allows it, for
    a request the web-page rule admits for lending, without a method override, and with a
    body the proxy read: its bytes are a JSON object, or a form that parses on a route
    whose forms are redacted, and are not compressed. *)
Theorem proxy_credential_spent (s s' : St) x : handle px q s = (Ok x, s') -> x_proxy_credential x = true ->
  exists a, x_adapter x = Some a /\ page_refusal px (q_url q) hs true = false /\ method_override (str_lower px) hs (q_query q) = None /\
    proxy_credential_refused a (q_method q) path hs (q_query q) = false /\ (q_body q <> [] -> was_read a).
Proof.
  intros (r & early & parsed0 & dup & deep & plan & parsed & cu & rd & o & Had & (He1 & He2 & He3) & _ & Hp & Hplan & Hc1 & Hc2 & Hs & _ & _ & Hx1 & _ & _ & Hx4 & _)%handle_ok Hpc.
  rewrite Hx4 in Hpc. destruct (rt_adapter r) as [a|] eqn:Ea.
  - assert (Hm : is_matched r = true) by (unfold is_matched; by rewrite Ea). exists a. rewrite Hx1. split_and!; [done| |by apply He2|by apply Hc2|].
    + destruct (rt_identity r) eqn:Ei; [|by apply Hc1]. destruct Had as (_ & _ & _ & _ & _ & _ & Hpage & _). by rewrite Ei in Hpage.
    + intros Hb. destruct (Hs a eq_refl Hb) as [[_ Hread]|(_ & Hn & _)]; [by rewrite Hpc| |by rewrite Hpc in Hn].
      by eapply readable_was_read.
  - exfalso. assert (Hm : is_matched r = false) by (unfold is_matched; by rewrite Ea). unfold spends_proxy_credential in Hpc. rewrite (He1 Hm) in Hpc. cbn in Hpc.
    destruct Hplan as [-> |[Hm' _]]; [|by rewrite Hm in Hm']. destruct early as [p|]; [|done]. by rewrite (He3 p eq_refl) in Hpc.
Qed.

(** C25: what no adapter recognizes goes out verbatim or not at all: with the client's own
    credential, to the provider it is positively attributed to, by a path that spells no
    recognized route, and past the access gate's own verdict. *)
Theorem pass_through_verbatim (s s' : St) x : handle px q s = (Ok x, s') -> x_adapter x = None ->
  x_body x = q_body q /\ x_proxy_credential x = false /\ attribute (str_lower px) path hs (q_query q) = Some (x_provider x) /\
  misaddressed (str_lower px) (str_upper px) (nfkc px) (map entry (adapters px)) (q_method q) hs (q_query q) path = None /\
  (forall ask, authorizes px = Some ask -> exists f, f_provider f = x_provider x /\ f_adapter f = None /\ ask f = false).
Proof.
  intros (r & early & parsed0 & dup & deep & plan & parsed & cu & rd & o & Had & (He1 & _ & He3) & Hau & _ & Hplan & _ & _ & _ & _ & Hred & Hx1 & Hx2 & Hx3 & Hx4 & _)%handle_ok Hn.
  rewrite Hx1 in Hn. assert (Hm : is_matched r = false) by (unfold is_matched; by rewrite Hn). destruct Had as (_ & Hprov & _ & _ & _ & _ & _ & Hmis).
  rewrite Hn in Hprov. cbn in Hprov. split_and!.
  - unfold redact_request in Hred. rewrite Hn in Hred. apply mret_ok in Hred as [-> _]. by rewrite Hx3.
  - rewrite Hx4. unfold spends_proxy_credential. rewrite (He1 Hm). cbn. destruct Hplan as [-> |[Hm' _]]; [|by rewrite Hm in Hm']. destruct early as [p|]; [|done]. by apply He3.
  - by rewrite Hx2.
  - by apply Hmis.
  - intros ask Hask. exists (facts_of r None false). rewrite Hx2. unfold facts_of. rewrite Hn. split_and!; try done. specialize (Hau Hm ask Hask). unfold facts_of in Hau. by rewrite Hn in Hau.
Qed.
End Sent.
End Facts.

(** *** A proxy with one recognized route, one address to redact, and no plugins *)
#[export] Instance no_rules : RouteRules unit := {| route_rule o _ _ _ _ := (None, o); use_route _ o := o; commit o := (true, o); faulted _ := false |}.

Definition demo_served : served (V := InMemoryVault.t) (O := unit) :=
  mk_served (mk_entry (lit "anthropic") (fun _ path _ _ => if bool_decide (path = lit "/v1/messages") then CHAT else NONE))
    (fun rd => mk_adapter (fun _ _ => []) (fun _ _ => []) (prepare_request rd (fun v => v)))
    (fun _ _ => None) (fun _ => false) (fun _ _ => None) (fun _ _ _ _ => false) (fun _ _ parsed => body_model parsed) (fun _ _ => false)
    (fun _ _ _ _ _ _ => mret None).

(** The demo's serializer writes one string, its reader one document. *)
Definition demo_proxy (identity : bool) : proxy (V := InMemoryVault.t) (O := unit) := {|
  adapters := [demo_served];
  providers := fun n => if bool_decide (n = lit "anthropic") then Some (mk_provider true true (lit "https://api")) else None;
  max_body_bytes := 1000; max_body_strings := 100; inject_note := false; mcp_exempt_servers := ∅; forwards_binary := true;
  identity_auth := fun _ => identity; admission_for := fun q => mk_admission false false (q_scope q); answers_locally := None; plan_request := None;
  authorizes := None; checks_content := None; overlay_refused := false; object_check := None; override_scope := None;
  context_for := fun _ _ => Some demo_redactor; prefetch_unavailable := fun _ _ => false; upload_prefetch_unavailable := fun _ _ => false;
  authorize_upstream := fun _ _ h _ => Some h; audit_refused := false;
  read_json := fun _ => DocTree (JDict [(lit "text", JStr demo_text)]);
  json_bytes := fun v => match v with JDict [(_, JStr s)] => s | _ => [] end;
  urlsplit := fun _ => None; normalize_origin := fun _ => None; public_origin := None; bind_host := lit "127.0.0.1"; allowed_hosts := []; allowed_origins := [];
  str_lower := map ascii_lower; str_upper := map ascii_upper; nfkc := id;
  parse_url := fun u => Some (mk_url (lit "https") [] (lit "api") None (match find_sub (lit "/v1") u with Some n => drop n u | None => [] end));
  on_wire := id; base_path := fun _ => []; utf8 := id;
  read_upload_metadata := fun _ _ => mk_view false false None None JNull; read_upload := fun _ _ _ _ => mk_view false false None None JNull;
  file_kind := fun _ => 0; parse_multipart_boundary := fun _ => None |}.

Definition demo_request (path : string) : request :=
  mk_request (lit "POST") (mk_scope (Some (lit path)) (Some (lit path)) [(lit "anthropic-version", lit "1")]) (lit path) []
    (mk_request_url (lit "https") (Some (lit "localhost")) None) (lit "{..}").

Definition demo_sent (identity : bool) (path : string) : result answer (sent (V := InMemoryVault.t) (O := unit)) * rstate InMemoryVault.t unit :=
  handle (demo_proxy identity) (demo_request path) demo_state.

Definition demo_out (identity : bool) (path : string) : option (sent (V := InMemoryVault.t) (O := unit)) :=
  match (demo_sent identity path).1 with Ok x => Some x | Raise _ => None end.

(** Of a request sent: whether an adapter serves it, its provider, its body and whose
    credential. *)
Definition demo_view (identity : bool) (path : string) : option (bool * pystr * pybytes * bool) :=
  (fun x => (match x_adapter x with Some _ => true | None => false end, x_provider x, x_body x, x_proxy_credential x)) <$> demo_out identity path.

Ltac never_refused E := exfalso;
  match type of E with demo_sent ?i ?p = _ =>
    assert (Hn : match demo_view i p with Some _ => true | None => false end = true) by (vm_compute; reflexivity);
    unfold demo_view, demo_out in Hn; rewrite E in Hn; discriminate Hn end.

Lemma sent_body_was_read_witness :
  exists x a, demo_out false "/v1/messages" = Some x /\ x_body x <> q_body (demo_request "/v1/messages") /\
    vouched (demo_proxy false) (demo_request "/v1/messages") a demo_state x.
Proof.
  destruct (demo_sent false "/v1/messages") as [[x|e] s'] eqn:E; [|never_refused E].
  assert (Hv : match demo_view false "/v1/messages" with Some (m, p, b, _) => m && bool_decide (p = lit "anthropic") && negb (bool_decide (b = lit "{..}")) | None => false end = true)
    by (vm_compute; reflexivity).
  unfold demo_view, demo_out in *. rewrite E in *. cbn [fst fmap option_fmap option_map] in Hv. destruct (x_adapter x) as [a|] eqn:Ea; [|discriminate Hv].
  apply andb_true_iff in Hv as [Hp Hb]. apply andb_true_iff in Hp as [_ Hp]. apply bool_decide_eq_true in Hp. apply negb_true_iff, bool_decide_eq_false in Hb.
  exists x, a. split; [reflexivity|]. split; [exact Hb|].
  apply (sent_body_was_read (demo_proxy false) (demo_request "/v1/messages") demo_state s' x a (mk_provider true true (lit "https://api"))).
  - exact E.
  - exact Ea.
  - discriminate.
  - rewrite Hp. reflexivity.
  - reflexivity.
Defined.

Lemma proxy_credential_spent_witness :
  exists x a, demo_out true "/v1/messages" = Some x /\ x_adapter x = Some a /\
    page_refusal (demo_proxy true) (q_url (demo_request "/v1/messages")) [(lit "anthropic-version", lit "1")] true = false.
Proof.
  destruct (demo_sent true "/v1/messages") as [[x|e] s'] eqn:E; [|never_refused E].
  assert (Hc : match demo_view true "/v1/messages" with Some (_, c) => c | None => false end = true) by (vm_compute; reflexivity).
  unfold demo_view, demo_out in *. rewrite E in *. cbn [fst fmap option_fmap option_map] in Hc. exists x.
  destruct (proxy_credential_spent (demo_proxy true) (demo_request "/v1/messages") demo_state s' x E Hc) as (a & Ha & Hp & _). exists a.
  split; [reflexivity|]. split; [exact Ha|exact Hp].
Defined.

Lemma pass_through_verbatim_witness :
  exists x, demo_out false "/v1/models" = Some x /\ x_body x = lit "{..}" /\ x_proxy_credential x = false.
Proof.
  destruct (demo_sent false "/v1/models") as [[x|e] s'] eqn:E; [|never_refused E].
  assert (Ha : match demo_view false "/v1/models" with Some (m, _, _, _) => negb m | None => false end = true) by (vm_compute; reflexivity).
  unfold demo_view, demo_out in *. rewrite E in *. cbn [fst fmap option_fmap option_map] in Ha. exists x. split; [reflexivity|].
  destruct (pass_through_verbatim (demo_proxy false) (demo_request "/v1/models") demo_state s' x E) as (Hb & Hc & _); [by destruct (x_adapter x)|].
  split; [exact Hb|exact Hc].
Defined.
