(* ===== verification/JsonText.v ===== *)
(** * Writing JSON -- src/llm_redact/jsonwalk.py, [json_text] and [json_bytes]

    The one serializer of the proxy, and what reading its text back gives.  The standard
    library's encoder and scanner are parameters: the encoder's text is one line of code
    points, and the scanner reads it as the value's tree, where a number may be respelled
    and a pair of surrogate escapes is one character. *)

From Stdlib Require Import List.
From S2P Require Import Prelude Bytes Sse Json JsonWalk.

(** ** The serializer *)
Section Writer.
Context (encode : json -> pystr).

Definition json_text (value : json) : pystr := json_text_of (encode value).

(** None: [UnicodeEncodeError]. *)
Definition json_bytes (value : json) : option pybytes :=
  let text := encode value in
  match utf8_encode text with
  | Some b => Some b
  | None => utf8_encode (flat_map (fun c => if is_surrogate c then escape_surrogate c else [c]) text)
  end.
End Writer.

(** ** Reading back *)

(** The text a literal's escapes stand for: a high surrogate before a low one is the
    character the two encode. *)
Definition is_high (c : Z) : bool := between 55296 56319 c.
Definition is_low (c : Z) : bool := between 56320 57343 c.

Fixpoint join_surrogates (s : pystr) : pystr :=
  match s with
  | a :: r =>
      match r with
      | b :: t => if is_high a && is_low b then (65536 + (a - 55296) * 1024 + (b - 56320)) :: join_surrogates t else a :: join_surrogates r
      | [] => [a]
      end
  | [] => []
  end.

Section Reader.
Context (number : pystr -> pystr).

Fixpoint respell (v : json) : json :=
  match v with
  | JNum r => JNum (number r)
  | JStr s => JStr (join_surrogates s)
  | JList l => JList (map respell l)
  | JDict l => JDict (map (fun kv => (join_surrogates kv.1, respell kv.2)) l)
  | _ => v
  end.
End Reader.

(** A number spelled alike by every writer: an integer of a few digits. *)
Definition plain_integer (r : pystr) : bool :=
  forallb is_09 r && (0 <? zlen r) && (zlen r <=? 18) && (bool_decide (zlen r = 1) || negb (starts_with [48] r)).

(** A code point of one line. *)
Definition raw_char (c : Z) : bool := between 0 1114111 c && negb (c =? 10) && negb (c =? 13).

(** The standard library's JSON. *)
Class JsonLib : Type := { encode : json -> pystr; loads_text : pystr -> document; number : pystr -> pystr }.

Class JsonLibLaws `{JsonLib} : Prop := {
  encode_chars v : forallb raw_char (encode v) = true;
  encode_some v : encode v <> [];
  scans_back v : too_deep v = false -> loads_text (json_text encode v) = DocTree (respell number v);
  number_plain r : plain_integer r = true -> number r = r
}.

(** ** What is written can be sent *)
Lemma hex_digit_ok n : 0 <= n < 16 -> char_ok (hex_digit n) && negb (hex_digit n =? 10) && negb (hex_digit n =? 13) = true.
Proof. unfold char_ok, between, hex_digit. intros Hn. destruct (Z.ltb_spec n 10); lia. Qed.

(** One line of characters UTF-8 can write. *)
Definition wire_char (c : Z) : bool := char_ok c && negb (c =? 10) && negb (c =? 13).

Lemma escape_surrogate_wire c : forallb wire_char (escape_surrogate c) = true.
Proof.
  unfold escape_surrogate, hex4. rewrite forallb_app. cbn [forallb]. unfold wire_char.
  assert (forall n, 0 <= Z.land n 15 < 16) as Hl by (intros n; change 15 with (Z.ones 4); rewrite Z.land_ones by lia; apply Z.mod_pos_bound; lia).
  by rewrite !hex_digit_ok by apply Hl.
Qed.

Lemma wire_line s : forallb wire_char s = true -> line_ok s = true.
Proof.
  intros Hs. apply line_ok_spec. rewrite forallb_forall in Hs. split_and!.
  - apply forallb_forall. intros c Hc%Hs. unfold wire_char in Hc. by bool_simpl.
  - apply not_true_is_false. unfold mem_char. intros (c & Hc%Hs & <-%Z.eqb_eq)%existsb_exists. done.
  - intros Hl%list.last_Some_elem_of%list_elem_of_In%Hs. done.
Qed.

Lemma ascii_char_ok s : is_ascii s = true -> forallb char_ok s = true.
Proof. unfold is_ascii. rewrite !forallb_forall. intros Ha c Hc%Ha. unfold char_ok, between in *. lia. Qed.

Lemma plain_char_ok s : forallb (fun c => between 0 1114111 c) s = true -> existsb is_surrogate s = false -> forallb char_ok s = true.
Proof.
  intros Hr Hs. rewrite forallb_forall in *. intros c Hc. specialize (Hr _ Hc). unfold char_ok. rewrite Hr. cbn. apply negb_true_iff.
  destruct (between 55296 57343 c) eqn:E; [|done]. rewrite <- Hs. symmetry. apply existsb_exists. by exists c.
Qed.

(** A code point UTF-8 refuses is a surrogate. *)
Lemma encoded_chars s b : utf8_encode s = Some b -> forallb char_ok s = true.
Proof.
  revert b. induction s as [|c s IH]; [done|]. cbn. intros b. destruct (utf8_char c) as [bc|] eqn:Ec; [|done]. destruct (utf8_encode s) as [bs|]; [|done].
  intros _. by rewrite (char_ok_utf8 _ _ Ec), (IH bs).
Qed.

Lemma escaped_wire s : forallb raw_char s = true -> forallb wire_char (flat_map (fun c => if is_surrogate c then escape_surrogate c else [c]) s) = true.
Proof.
  induction s as [|c s IH]; [done|]. cbn [forallb]. intros [Hc Hs]%andb_true_iff. cbn [flat_map]. rewrite forallb_app, IH by done.
  destruct (is_surrogate c) eqn:E; [by rewrite escape_surrogate_wire|]. cbn. unfold raw_char, wire_char, char_ok, is_surrogate in *. rewrite E.
  by rewrite !andb_true_r.
Qed.

Lemma unescaped_wire s : forallb raw_char s = true -> forallb char_ok s = true -> forallb wire_char s = true.
Proof.
  rewrite !forallb_forall. intros Hc Ho c Hi. specialize (Hc _ Hi). specialize (Ho _ Hi). unfold wire_char, raw_char in *. rewrite Ho. cbn.
  rewrite <- andb_assoc in Hc. by apply andb_true_iff in Hc as [_ Hc].
Qed.

Section Laws.
Context `{JsonLibLaws}.

Lemma encode_range v : forallb (fun c => between 0 1114111 c) (encode v) = true.
Proof. pose proof (encode_chars v) as Hc. rewrite forallb_forall in *. intros c Hi%Hc. unfold raw_char in Hi. by bool_simpl. Qed.

Lemma text_wire v : forallb wire_char (json_text encode v) = true.
Proof.
  unfold json_text, json_text_of. destruct (is_ascii _) eqn:Ea; [apply unescaped_wire; [apply encode_chars|by apply ascii_char_ok]|].
  destruct (existsb is_surrogate _) eqn:Es; [apply escaped_wire, encode_chars|]. apply unescaped_wire; [apply encode_chars|]. apply plain_char_ok; [apply encode_range|done].
Qed.

Lemma text_some v : json_text encode v <> [].
Proof.
  unfold json_text, json_text_of. destruct (is_ascii _); [apply encode_some|]. destruct (existsb _ _); [|apply encode_some].
  pose proof (encode_some v). destruct (encode v) as [|c s]; [done|]. cbn. by destruct (is_surrogate c).
Qed.

Lemma text_line v : line_ok (json_text encode v) = true.
Proof. apply wire_line, text_wire. Qed.

(** Every value is written: the text UTF-8 can encode, and [json_bytes] is its encoding. *)
Theorem json_bytes_text v : json_bytes encode v = utf8_encode (json_text encode v) /\ is_Some (json_bytes encode v).
Proof.
  assert (json_bytes encode v = utf8_encode (json_text encode v)) as Heq.
  { unfold json_bytes, json_text, json_text_of. destruct (utf8_encode (encode v)) as [b|] eqn:E.
    - assert (existsb is_surrogate (encode v) = false) as ->; [|by destruct (is_ascii _)]. apply encoded_chars in E. rewrite forallb_forall in E.
      apply not_true_is_false. intros (c & Hc%E & Hs)%existsb_exists. unfold char_ok, is_surrogate in *. rewrite Hs in Hc. by rewrite andb_false_r in Hc.
    - destruct (is_ascii _) eqn:Ea; [destruct (encode_ok _ (ascii_char_ok _ Ea)) as (b & Hb & _); congruence|].
      destruct (existsb is_surrogate _) eqn:Es; [done|]. destruct (encode_ok _ (plain_char_ok _ (encode_range v) Es)) as (b & Hb & _). congruence. }
  split; [done|]. rewrite Heq. destruct (line_ok_decode _ (text_line v)) as (b & -> & _). by exists b.
Qed.
End Laws.

(** ** Depth, as a number *)
Lemma list_max_cons x l : list_max (x :: l) = Nat.max x (list_max l).
Proof. done. Qed.

Lemma filter_depth l : list_max (map jdepth (List.filter is_container l)) = list_max (map jdepth l).
Proof. induction l as [|v l IH]; [done|]. cbn [List.filter map]. rewrite list_max_cons. destruct v; cbn [is_container map]; rewrite ?list_max_cons; rewrite IH; done. Qed.

Lemma children_depth v : list_max (map jdepth (children v)) = pred (jdepth v).
Proof. destruct v; cbn; try done. by rewrite map_map. Qed.

Lemma level_depth level : list_max (map jdepth (flat_map children level)) = pred (list_max (map jdepth level)).
Proof. induction level as [|v l IH]; [done|]. cbn [flat_map map]. rewrite map_app, list_max_app, IH, children_depth, list_max_cons. lia. Qed.

Lemma too_deep_unfold r level : too_deep_go (S r) level =
  let next := List.filter is_container (flat_map children level) in match next with [] => false | _ => too_deep_go r next end.
Proof. done. Qed.

Lemma too_deep_go_spec rounds : forall level, too_deep_go (S rounds) level = false <-> (list_max (map jdepth level) <= S rounds)%nat.
Proof.
  induction rounds as [|r IH]; intros level;
    rewrite too_deep_unfold;
    pose proof (filter_depth (flat_map children level)) as Hf; rewrite level_depth in Hf;
    destruct (List.filter is_container (flat_map children level)) as [|c next] eqn:E.
  1,3: cbn in Hf; split; [lia|done].
  all: assert (1 <= list_max (map jdepth (c :: next)))%nat as H1.
  1,3: assert (In c (List.filter is_container (flat_map children level))) as [_ Hc]%filter_In by (rewrite E; by left);
    cbn [map]; rewrite list_max_cons; destruct c; cbn in *; (done || lia).
  - split; [done|lia].
  - rewrite IH, Hf. lia.
Qed.

Lemma too_deep_spec v : too_deep v = false <-> (jdepth v <= MAX_JSON_DEPTH)%nat.
Proof. unfold too_deep, MAX_JSON_DEPTH. rewrite too_deep_go_spec. cbn. lia. Qed.

(** *** A dict's values *)
Lemma dict_set_values d k v x : x ∈ dict_set d k v -> x ∈ d \/ x = (k, v).
Proof.
  induction d as [|[k0 v0] d IH]; cbn; [intros ->%list_elem_of_singleton; by right|].
  case_decide as E; [subst; intros [->|Hx]%elem_of_cons; [by right|left; by right]|].
  intros [->|Hx]%elem_of_cons; [left; by left|]. destruct (IH Hx) as [?|?]; [left; by right|by right].
Qed.

Lemma py_dict_values l kv : kv ∈ py_dict l -> kv ∈ l.
Proof.
  unfold py_dict. assert (forall d, kv ∈ fold_left (fun d kv => dict_set d kv.1 kv.2) l d -> kv ∈ d \/ kv ∈ l) as H.
  { induction l as [|[k v] l IH]; intros d; cbn; [by left|]. intros [Hd|Hl]%IH; [|right; by right].
    apply dict_set_values in Hd as [Hd| ->]; [by left|right; by left]. }
  intros [?%not_elem_of_nil|?]%H; done.
Qed.

Lemma dict_set_nodup d k v : NoDup (map fst d) -> NoDup (map fst (dict_set d k v)).
Proof.
  induction d as [|[k0 v0] d IH]; cbn; [intros _; apply list.NoDup_singleton|]. intros [Hk Hd]%list.NoDup_cons.
  case_decide as E; cbn; [by apply list.NoDup_cons|]. apply list.NoDup_cons. split; [|by apply IH].
  intros (kv & Hkv & Hin)%list_elem_of_fmap. apply dict_set_values in Hin as [Hin| ->]; [|by cbn in Hkv].
  apply Hk, list_elem_of_fmap. by exists kv.
Qed.

Lemma py_dict_nodup l : NoDup (map fst (py_dict l)).
Proof.
  unfold py_dict. assert (forall d, NoDup (map fst d) -> NoDup (map fst (fold_left (fun d kv => dict_set d kv.1 kv.2) l d))) as H; [|apply H; constructor].
  induction l as [|[k v] l IH]; intros d Hd; cbn; [done|]. by apply IH, dict_set_nodup.
Qed.

Lemma list_max_elem l n : (forall x, x ∈ l -> (x <= n)%nat) -> (list_max l <= n)%nat.
Proof. intros H. apply list_max_le, List.Forall_forall. intros x Hx. by apply H, list_elem_of_In. Qed.

Lemma elem_list_max l x : x ∈ l -> (x <= list_max l)%nat.
Proof. intros Hx%list_elem_of_In. pose proof (proj1 (list_max_le l (list_max l)) (le_n _)) as H. rewrite List.Forall_forall in H. by apply H. Qed.

Lemma item_depth d k v : (k, v) ∈ d -> (jdepth v < jdepth (JDict d))%nat.
Proof. intros Hkv. cbn. apply le_n_S. apply elem_list_max, list_elem_of_fmap. by exists (k, v). Qed.

Lemma dict_depth d n : (forall k v, (k, v) ∈ d -> (jdepth v <= n)%nat) -> (jdepth (JDict d) <= S n)%nat.
Proof. intros H. cbn. apply le_n_S, list_max_elem. intros x ([k v] & -> & Hkv)%list_elem_of_fmap. by eapply H. Qed.

Lemma loads_depth v : (jdepth (loads v) <= jdepth v)%nat.
Proof.
  induction v as [| | | |l IH|l IH] using json_ind'; cbn [loads]; try done.
  - cbn [jdepth]. apply le_n_S. rewrite map_map. induction IH as [|x l Hx _ IHl]; [done|]. cbn [map]. rewrite !list_max_cons. lia.
  - destruct l as [|kv0 l0] eqn:El; [done|]. rewrite <- El in *. change (jdepth (JDict l)) with (S (list_max (map (fun kv => jdepth kv.2) l))). apply dict_depth.
    intros k v ([k' v'] & [= -> ->] & Hin)%py_dict_values%list_elem_of_fmap. rewrite list.Forall_forall in IH. specialize (IH _ Hin). cbn in IH.
    etrans; [exact IH|]. apply elem_list_max, list_elem_of_fmap. by exists (k', v').
Qed.

(** ** The value read back *)
Section Reread.
Context (number : pystr -> pystr).

Definition reread (v : json) : json := loads (respell number v).

Lemma respell_depth v : jdepth (respell number v) = jdepth v.
Proof.
  induction v as [| | | |l IH|l IH] using json_ind'; cbn; try done; f_equal; rewrite map_map; f_equal; apply map_ext_Forall; [done|].
  by eapply Forall_impl, IH.
Qed.

Lemma reread_depth v : (jdepth (reread v) <= jdepth v)%nat.
Proof. unfold reread. etrans; [apply loads_depth|]. by rewrite respell_depth. Qed.

(** Joining surrogates makes no plain character. *)
Definition plain_char (c : Z) : bool := c <? 55296.

Lemma join_surrogates_plain s : forallb plain_char s = true -> join_surrogates s = s.
Proof.
  induction s as [|a s IH]; [done|]. cbn [forallb]. intros [Ha Hs]%andb_true_iff. cbn [join_surrogates]. destruct s as [|b s]; [done|].
  assert (is_high a = false) as -> by (unfold is_high, plain_char, between in *; lia). cbn [andb]. by rewrite (IH Hs).
Qed.

Lemma plain_join s : forallb plain_char (join_surrogates s) = true -> join_surrogates s = s.
Proof.
  induction s as [s IH] using (well_founded_ind (Wf_nat.well_founded_ltof _ (@length Z))). unfold Wf_nat.ltof in IH.
  destruct s as [|a [|b s]]; [done..|]. cbn [join_surrogates]. destruct (is_high a && is_low b) eqn:E.
  - cbn [forallb]. intros [H _]%andb_true_iff. unfold plain_char, is_high, is_low, between in *. bool_simpl. lia.
  - change (match s with [] => _ | _ => _ end) with (join_surrogates (b :: s)). cbn [forallb]. intros [_ H]%andb_true_iff. f_equal. apply IH; [cbn; lia|done].
Qed.

Lemma join_eq_plain s k : forallb plain_char k = true -> join_surrogates s = k <-> s = k.
Proof.
  intros Hk. split; [|intros ->; by apply join_surrogates_plain]. intros E. rewrite <- E. symmetry. apply plain_join. by rewrite E.
Qed.

(** A text without surrogates is read back as it is. *)
Lemma join_ok s : forallb char_ok s = true -> join_surrogates s = s.
Proof.
  induction s as [|a s IH]; [done|]. cbn [forallb]. intros [Ha Hs]%andb_true_iff. cbn [join_surrogates]. destruct s as [|b s]; [done|].
  assert (is_high a = false) as -> by (unfold is_high, char_ok, between in *; lia). cbn [andb]. by rewrite (IH Hs).
Qed.

Lemma jget_py_dict l k : jget (py_dict l) k = fold_left (fun acc kv => if decide (kv.1 = k) then Some kv.2 else acc) l None.
Proof.
  unfold py_dict. assert (forall d, jget (fold_left (fun d kv => dict_set d kv.1 kv.2) l d) k =
    fold_left (fun acc kv => if decide (kv.1 = k) then Some kv.2 else acc) l (jget d k)) as H; [|apply (H [])].
  induction l as [|[k0 v0] l IH]; intros d; cbn; [done|]. rewrite IH. f_equal.
  clear. induction d as [|[k1 v1] d IH]; cbn; [done|]. repeat (case_decide; subst; cbn); try done; by rewrite ?decide_True, ?decide_False.
Qed.

(** A plain key of a dict read back holds its value read back. *)
Lemma jget_reread p k : NoDup (map fst p) -> forallb plain_char k = true ->
  exists q, reread (JDict p) = JDict q /\ jget q k = reread <$> jget p k.
Proof.
  intros Hnd Hk. eexists. split; [done|]. rewrite map_map, jget_py_dict.
  enough (forall acc, fold_left (fun acc kv => if decide (kv.1 = k) then Some kv.2 else acc)
    (map (fun kv => (join_surrogates kv.1, loads (respell number kv.2))) p) acc = match jget p k with Some v => Some (reread v) | None => acc end) as ->
    by (by destruct (jget p k)).
  induction p as [|[k0 v0] p IH]; intros acc; cbn; [done|]. apply list.NoDup_cons in Hnd as [Hk0 Hnd]. rewrite IH by done.
  rewrite (decide_ext (join_surrogates k0 = k) (k0 = k)) by (by apply join_eq_plain).
  case_decide as E; [subst|done]. destruct (jget p k) as [v|] eqn:Ej; [|done]. exfalso. apply Hk0. clear -Ej.
  induction p as [|[k1 v1] p IH]; cbn in *; [done|]. case_decide; [subst; by left|right; by apply IH].
Qed.
End Reread.

(** ** The assumptions can hold: a reader and a writer

    A printable text for every value -- the bits of its number in an enumeration. *)

Fixpoint tree_of (v : json) : gen_tree pystr :=
  match v with
  | JNull => GenNode 0 []
  | JBool b => GenNode (if b then 2 else 1) []
  | JNum s => GenNode 3 [GenLeaf s]
  | JStr s => GenLeaf s
  | JList l => GenNode 4 (map tree_of l)
  | JDict l => GenNode 5 (map (fun kv => GenNode 6 [GenLeaf kv.1; tree_of kv.2]) l)
  end.

Fixpoint of_tree (t : gen_tree pystr) : json :=
  match t with
  | GenLeaf s => JStr s
  | GenNode 1 _ => JBool false
  | GenNode 2 _ => JBool true
  | GenNode 3 [GenLeaf s] => JNum s
  | GenNode 4 l => JList (map of_tree l)
  | GenNode 5 l => JDict (map (fun t => match t with GenNode _ [GenLeaf k; x] => (k, of_tree x) | _ => ([], JNull) end) l)
  | _ => JNull
  end.

Lemma of_tree_of v : of_tree (tree_of v) = v.
Proof.
  induction v as [|[]| | |l IH|l IH] using json_ind'; cbn; try done; f_equal; rewrite map_map; rewrite <- (map_id l) at 2; apply map_ext_Forall.
  - done.
  - eapply list.Forall_impl; [exact IH|]. by intros [k x] ->.
Qed.

#[export] Instance json_countable : Countable json := inj_countable' tree_of of_tree of_tree_of.

Fixpoint bits (p : positive) : pystr := match p with xH => [49] | xO p => 48 :: bits p | xI p => 50 :: bits p end.

Fixpoint unbits (s : pystr) : option positive :=
  match s with
  | [] => None
  | c :: r => if c =? 49 then Some xH else if c =? 48 then xO <$> unbits r else xI <$> unbits r
  end.

Lemma unbits_bits p : unbits (bits p) = Some p.
Proof. induction p as [p IH|p IH|]; cbn; by rewrite ?IH. Qed.

Lemma bits_chars p : forallb (fun c => between 48 50 c) (bits p) = true.
Proof. by induction p. Qed.

#[local] Instance enumerated_json : JsonLib := {
  encode v := bits (countable.encode v);
  loads_text s := match unbits s ≫= countable.decode with Some v => DocTree (respell id v) | None => DocMalformed end;
  number := id
}.

#[local] Instance enumerated_laws : JsonLibLaws.
Proof.
  split.
  - intros v. cbn. pose proof (bits_chars (countable.encode v)) as Hb. rewrite forallb_forall in *. intros c Hc%Hb. unfold raw_char, between in *. lia.
  - intros v. cbn. by destruct (countable.encode v).
  - intros v _. change (json_text encode v) with (json_text_of (bits (countable.encode v))).
    assert (is_ascii (bits (countable.encode v)) = true) as Ha.
    { pose proof (bits_chars (countable.encode v)) as Hb. unfold is_ascii. rewrite forallb_forall in *. intros c Hc%Hb. unfold between in *. lia. }
    unfold json_text_of. rewrite Ha. cbn [loads_text enumerated_json]. rewrite unbits_bits. cbn. by rewrite decode_encode.
  - done.
Qed.
