(* ===== verification/Relay.v ===== *)
(** * Streamed answers -- src/llm_redact/proxy.py, the stream relays

    [_stream_rehydrated] (server-sent events), [_stream_rehydrated_eventstream] (AWS event
    streams) and [_stream_rehydrated_ndjson]: an upstream's chunks as the bytes handed to
    the client, with the bookkeeping done on the way.  The adapter, the session router, the
    router's hooks and the JSON scanner are parameters: a plugin answers as a function of
    the calls it has had.  Waiting (for the upstream, for map writes) is left out. *)

From S2P Require Import Prelude PyRegex Json JsonWalk JsonFacts Placeholders Vault Rehydrate Ndjson Sse EventStream.

Local Open Scope mon_scope.

(** Any exception but the transport's. *)
Inductive fault : Type := Fault.

(** ** Session bookkeeping *)

(** What the session router and the durable maps are told of an answer. *)
Inductive router_call : Type :=
| AskResponse (id : pystr) | MirrorResponse (id : pystr) | AskObject (id : pystr) | MirrorObject (id : pystr) | Observe (payload : json).

(** [Vetoed]: the router answered False. *)
Inductive reply : Type := CallRaised | Vetoed | Replied.

Record session_router : Type := mk_router { static_mode : bool; tracks_owners : bool; replies : list router_call -> router_call -> reply }.

(** Where a contained fault is counted. *)
Inductive stage : Type := ResponseIdStage | ObjectIdsStage | ObserverStage | DeliveryStage.

(** [seen]: [_StreamedObjects]' ids, None when the stream is not (or no longer) read for
    them; [observing]: the observer is still called. *)
Record books : Type := mk_books { id_seen : bool; seen : option (list pystr); observing : bool; calls : list router_call; bookkeeping_errors : list stage }.

Abbreviation Book A := (M books fault A).

(** [_uncited]: the loop over the stack; [fuel]: more than the body's nodes. *)
Definition pushed (node : json) : list json :=
  match node with JDict l => map snd l | JList l => l | _ => [] end.

Fixpoint cited_go (fuel : nat) (wanted cited : gset pystr) (stack : list json) : gset pystr :=
  match fuel, stack with
  | S fuel, node :: stack =>
      if (size cited <? size wanted)%nat then
        cited_go fuel wanted (match node with JStr s => if bool_decide (s ∈ wanted) then {[s]} ∪ cited else cited | _ => cited end)
          (rev (pushed node) ++ stack)
      else cited
  | _, _ => cited
  end.

Definition uncited (object_ids : list pystr) (request_body : json) : list pystr :=
  let cited := cited_go (S (jsize request_body)) (list_to_set object_ids) ∅ [request_body] in
  List.filter (fun object_id => bool_decide (object_id ∉ cited)) object_ids.

Section Bookkeeping.
Context (router : session_router).

Definition call (c : router_call) : Book reply := fun b =>
  let b' := mk_books (id_seen b) (seen b) (observing b) (calls b ++ [c]) (bookkeeping_errors b) in
  match replies router (calls b) c with CallRaised => (Raise Fault, b') | r => (Ok r, b') end.

(** [_contained]: None when it failed. *)
Definition contained {A} (at_stage : stage) (bookkeeping : Book A) : Book (option A) := fun b =>
  match bookkeeping b with
  | (Ok a, b) => (Ok (Some a), b)
  | (Raise _, b) => (Ok None, mk_books (id_seen b) (seen b) (observing b) (calls b) (bookkeeping_errors b ++ [at_stage]))
  end.

(** [ProxyState.record_response_id], [ProxyState.record_object_ids] *)
Definition record_response_id (response_id : pystr) : Book unit :=
  if static_mode router then mret tt
  else r <~ call (AskResponse response_id);;
       match r with Vetoed => mret tt | _ => call (MirrorResponse response_id);;; mret tt end.

Fixpoint record_each (object_ids : list pystr) : Book unit :=
  match object_ids with
  | [] => mret tt
  | object_id :: more =>
      r <~ call (AskObject object_id);;
      (match r with Vetoed => mret tt | _ => call (MirrorObject object_id);;; mret tt end);;;
      record_each more
  end.

Definition record_object_ids (object_ids : list pystr) : Book unit :=
  if tracks_owners router then record_each object_ids else mret tt.

(** [_observe]: a failed observer is not called again. *)
Definition observe (document : document) : Book unit :=
  b <~ mget;;
  if observing b then
    match loads_bounded document with
    | Raise _ => mret tt
    | Ok payload =>
        r <~ contained ObserverStage (call (Observe payload));;
        match r with
        | Some _ => mret tt
        | None => mmodify (fun b => mk_books (id_seen b) (seen b) false (calls b) (bookkeeping_errors b))
        end
    end
  else mret tt.

(** *** [_StreamedObjects] *)
Context (object_ids_from_event : SSEEvent -> option (list pystr)) (once : bool) (request_body : json).

Definition set_seen (ids : option (list pystr)) (b : books) : books := mk_books (id_seen b) ids (observing b) (calls b) (bookkeeping_errors b).

(** [record]: whether the event named anything new. *)
Definition record (e : SSEEvent) : Book bool :=
  match object_ids_from_event e with
  | None => mraise Fault
  | Some found =>
      b <~ mget;;
      let known := default [] (seen b) in
      match List.filter (fun object_id => bool_decide (object_id ∉ known)) found with
      | [] => mret false
      | fresh =>
          mmodify (set_seen (Some (known ++ fresh)));;;
          (match uncited fresh request_body with [] => mret tt | created => record_object_ids created end);;;
          mret true
      end
  end.

(** [report]: whether the stream needs no further reading. *)
Definition report (e : SSEEvent) : Book bool :=
  r <~ contained ObjectIdsStage (record e);;
  mret (match r with None => true | Some named => named && once end).

(** *** What one event is read for *)
Context {E : Type} (response_id_from_event : SSEEvent -> result E (option pystr)) (loads_text : pystr -> document).

(** Reading the id is not contained. *)
Definition track_response (e : SSEEvent) : Book unit :=
  b <~ mget;;
  if id_seen b then mret tt
  else match response_id_from_event e with
       | Raise _ => mraise Fault
       | Ok None => mret tt
       | Ok (Some response_id) =>
           contained ResponseIdStage (record_response_id response_id);;;
           mmodify (fun b => mk_books true (seen b) (observing b) (calls b) (bookkeeping_errors b))
       end.

Definition track_objects (closing : bool) (e : SSEEvent) : Book unit :=
  b <~ mget;;
  match seen b with
  | None => mret tt
  | Some _ => finished <~ report e;; if finished && negb closing then mmodify (set_seen None) else mret tt
  end.

Definition note (closing : bool) (e : SSEEvent) : Book unit :=
  (if closing then mret tt else track_response e);;;
  track_objects closing e;;;
  observe (loads_text (data e)).
End Bookkeeping.

(** ** Delivery *)
Section Delivery.
Context {V : Type} `{VaultOps V} {K : Type} `{EqDecision K} {R E : Type} (v : V).

Abbreviation pool := (Rehydrate.pool (K := K)).

(** [sent]: what was yielded; [routed]: the route's own state. *)
Record delivery : Type := mk_delivery { sent : list pybytes; restoring : pool; routed : R }.

Abbreviation Deliver A := (M delivery fault A).

Definition yield_bytes (b : pybytes) : Deliver unit := mmodify (fun d => mk_delivery (sent d ++ [b]) (restoring d) (routed d)).

(** A router's hook on what is about to be yielded; it may raise. *)
Definition hooked {A} (hook : option (A -> R -> option A * R)) (a : A) : Deliver A := fun d =>
  match hook with
  | None => (Ok a, d)
  | Some f => match f a (routed d) with
              | (Some a', r) => (Ok a', mk_delivery (sent d) (restoring d) r)
              | (None, r) => (Raise Fault, mk_delivery (sent d) (restoring d) r)
              end
  end.

(** An adapter's operation on the pool. *)
Definition restored {A} (op : pool -> result E A * pool) : Deliver A := fun d =>
  match op (restoring d) with
  | (Ok a, pl) => (Ok a, mk_delivery (sent d) pl (routed d))
  | (Raise _, pl) => (Raise Fault, mk_delivery (sent d) pl (routed d))
  end.

Fixpoint each {A} (f : A -> Deliver unit) (l : list A) : Deliver unit :=
  match l with [] => mret tt | x :: l => f x;;; each f l end.

Context (observe_event : option (SSEEvent -> R -> option SSEEvent * R)) (rehydrate_event : SSEEvent -> pool -> result E (list SSEEvent) * pool).

Definition send_event (out : SSEEvent) : Deliver unit :=
  out <~ hooked observe_event out;;
  match Sse.serialize out with Some b => yield_bytes b | None => mraise Fault end.

Definition deliver_event (e : SSEEvent) : Deliver unit :=
  outs <~ restored (rehydrate_event e);; each send_event outs.

Context (rehydrate_eventstream_message : EventStreamMessage -> pool -> result E (list EventStreamMessage) * pool).

Definition send_frame (out : EventStreamMessage) : Deliver unit :=
  match EventStream.serialize out with Ok b => yield_bytes b | Raise _ => mraise Fault end.

Definition deliver_frame (frame : EventStreamMessage) : Deliver unit :=
  outs <~ restored (rehydrate_eventstream_message frame);; each send_frame outs.

Context (observe_line : option (pybytes -> R -> option pybytes * R)) (rehydrate_ndjson_line : pybytes -> pool -> result E pybytes * pool).

(** [terminator]: LF, or nothing for the tail. *)
Definition deliver_line (terminator line : pybytes) : Deliver unit :=
  out <~ restored (rehydrate_ndjson_line line);;
  out <~ hooked observe_line out;;
  yield_bytes (out ++ terminator).
End Delivery.

Arguments delivery : clear implicits.
Arguments mk_delivery {_ _} _ _ _.
Arguments sent {_ _} _.
Arguments restoring {_ _} _.
Arguments routed {_ _} _.

(** ** The three relays *)
Section Relays.
Context {V : Type} `{VaultOps V} {K : Type} `{EqDecision K} {R E : Type} (v : V).

Abbreviation pool := (Rehydrate.pool (K := K)).
Abbreviation St := (books * delivery K R)%type.
Abbreviation Step A := (M St fault A).

Definition in_books {A} (m : Book A) : Step A := fun s => let (r, b) := m s.1 in (r, (b, s.2)).
Definition in_delivery {A} (m : M (delivery K R) fault A) : Step A := fun s => let (r, d) := m s.2 in (r, (s.1, d)).

Fixpoint every {A} (f : A -> Step unit) (l : list A) : Step unit :=
  match l with [] => mret tt | x :: l => f x;;; every f l end.

(** How a stream ended: to its end, by the upstream's transport, by the proxy itself. *)
Inductive ending : Type := Ended | UpstreamDropped | Cut.

(** What is left in the pool at the end is discarded. *)
Definition discard_leftover (s : St) : St := (s.1, mk_delivery (sent s.2) (flush_all v (restoring s.2)).2 (routed s.2)).

(** [_stream_delivery_fault]'s count. *)
Definition stream_delivery_fault (s : St) : St :=
  (mk_books (id_seen s.1) (seen s.1) (observing s.1) (calls s.1) (bookkeeping_errors s.1 ++ [DeliveryStage]), s.2).

(** The [try] of a relay: [body] answers whether the stream was read to its end. *)
Definition relayed (body : Step bool) (s : St) : ending * St :=
  match body s with
  | (Ok true, s) => (Ended, discard_leftover s)
  | (Ok false, s) => (UpstreamDropped, s)
  | (Raise _, s) => (Cut, stream_delivery_fault s)
  end.

(** The [finally]: the row recorded. *)
Record stream_row : Type := mk_row { row_status : Z; row_refusal : option pystr; row_rehydrations : counter; row_route_failed : bool }.

Definition finalize (upstream_status : Z) (end_ : ending) (s : St) : stream_row :=
  mk_row (match end_ with Cut => 502 | _ => upstream_status end) (match end_ with Cut => Some (lit "delivery_fault") | _ => None end)
    (p_counts (restoring s.2)) (match end_ with Ended => false | _ => true end).

(** *** [_stream_rehydrated] *)
Section Events.
Context (on_event : bool -> SSEEvent -> Step unit).

Fixpoint feed_events (p : SSEParser.t) (chunks : list pybytes) : Step SSEParser.t :=
  match chunks with
  | [] => mret p
  | chunk :: chunks => let (events, p) := SSEParser.feed p chunk in every (on_event false) events;;; feed_events p chunks
  end.

Definition event_stream (chunks : list pybytes) (dropped : bool) : Step bool :=
  p <~ feed_events SSEParser.init chunks;;
  if dropped then mret false else every (on_event true) (SSEParser.close p).1;;; mret true.
End Events.

Context (router : session_router) (object_ids_from_event : SSEEvent -> option (list pystr)) (once : bool) (request_body : json).
Context (response_id_from_event : SSEEvent -> result E (option pystr)) (loads_text : pystr -> document) (loads_data : pybytes -> document).
Context (observe_event : option (SSEEvent -> R -> option SSEEvent * R)) (observe_line : option (pybytes -> R -> option pybytes * R)).
Context (rehydrate_event : SSEEvent -> pool -> result E (list SSEEvent) * pool)
  (rehydrate_eventstream_message : EventStreamMessage -> pool -> result E (list EventStreamMessage) * pool)
  (rehydrate_ndjson_line : pybytes -> pool -> result E pybytes * pool).

Definition on_event (closing : bool) (e : SSEEvent) : Step unit :=
  in_books (note router object_ids_from_event once request_body response_id_from_event loads_text closing e);;;
  in_delivery (deliver_event observe_event rehydrate_event e).

Definition stream_rehydrated (chunks : list pybytes) (dropped : bool) : St -> ending * St :=
  relayed (event_stream on_event chunks dropped).

(** *** [_stream_rehydrated_eventstream] *)
Context (max_body_bytes : Z).

Definition on_frame (frame : EventStreamMessage) : Step unit :=
  in_books (observe router (loads_data (payload frame)));;;
  in_delivery (deliver_frame rehydrate_eventstream_message frame).

(** Answers the buffer, or None once degraded: by an EventStreamError alone, as any other
    exception of the parser (a header that is not UTF-8) cuts the stream. *)
Fixpoint feed_frames (buffer : option pybytes) (chunks : list pybytes) : Step (option pybytes) :=
  match chunks with
  | [] => mret buffer
  | chunk :: chunks =>
      match buffer with
      | None => in_delivery (yield_bytes chunk);;; feed_frames None chunks
      | Some buffer =>
          match EventStreamParser.feed max_body_bytes buffer chunk with
          | (Raise (EventStreamError _), buffer) => in_delivery (yield_bytes (EventStreamParser.residual buffer));;; feed_frames None chunks
          | (Raise _, _) => mraise Fault
          | (Ok frames, buffer) => every on_frame frames;;; feed_frames (Some buffer) chunks
          end
      end
  end.

Definition frame_stream (chunks : list pybytes) (dropped : bool) : Step (option bool) :=
  buffer <~ feed_frames (Some []) chunks;;
  if dropped then mret None
  else match buffer with
       | None => mret (Some false)
       | Some buffer =>
           (match EventStreamParser.close buffer with
            | Ok _ => mret tt
            | Raise _ => in_delivery (yield_bytes (EventStreamParser.residual buffer))
            end);;; mret (Some true)
       end.

(** The pool is flushed only where the stream was not degraded. *)
Definition stream_rehydrated_eventstream (chunks : list pybytes) (dropped : bool) (s : St) : ending * St :=
  match frame_stream chunks dropped s with
  | (Ok (Some true), s) => (Ended, discard_leftover s)
  | (Ok (Some false), s) => (Ended, s)
  | (Ok None, s) => (UpstreamDropped, s)
  | (Raise _, s) => (Cut, stream_delivery_fault s)
  end.

(** *** [_stream_rehydrated_ndjson] *)
Definition on_line (terminator line : pybytes) : Step unit :=
  in_books (observe router (loads_data line));;;
  in_delivery (deliver_line observe_line rehydrate_ndjson_line terminator line).

Fixpoint feed_lines (buffer : NDJSONParser.t) (chunks : list pybytes) : Step NDJSONParser.t :=
  match chunks with
  | [] => mret buffer
  | chunk :: chunks => let (lines, buffer) := NDJSONParser.feed buffer chunk in every (on_line [10]) lines;;; feed_lines buffer chunks
  end.

Definition line_stream (chunks : list pybytes) (dropped : bool) : Step bool :=
  buffer <~ feed_lines NDJSONParser.init chunks;;
  if dropped then mret false
  else (match (NDJSONParser.close buffer).1 with [] => mret tt | tail => on_line [] tail end);;; mret true.

Definition stream_rehydrated_ndjson (chunks : list pybytes) (dropped : bool) : St -> ending * St :=
  relayed (line_stream chunks dropped).

(** What a relay starts from. *)
Definition fresh_books (tracked observed : bool) : books := mk_books false (if tracked then Some [] else None) observed [] [].
Definition fresh_delivery (fuzzy : bool) (r : R) : delivery K R := mk_delivery [] (mk_pool fuzzy [] ∅) r.
End Relays.
