(* ===== verification/RelayFacts.v ===== *)
(** * What the stream relays guarantee

    The client's bytes are those of delivering the upstream's events one by one, whatever
    the chunks, the session router and the observer do; ids the request cites are never
    reported, the others once; what no adapter rewrites is relayed byte for byte. *)

From S2P Require Import Prelude PyRegex Bytes Json JsonWalk JsonFacts Placeholders Vault Rehydrate Ndjson Sse EventStream Relay.

Local Open Scope mon_scope.

(** ** [_uncited] *)
Section Uncited.
Context (wanted : gset pystr).

Lemma size_full (cited : gset pystr) : cited ⊆ wanted -> (size cited <? size wanted)%nat = false -> cited = wanted.
Proof. intros Hs Hn%Nat.ltb_ge. by apply set_subseteq_size_eq. Qed.

Lemma pushed_strings node s : s ∈ flat_map strings_in (rev (pushed node)) <-> s ∈ strings_in node /\ is_jstr node = false.
Proof.
  assert (forall l, s ∈ flat_map strings_in (rev l) <-> s ∈ flat_map strings_in l) as Hrev.
  { intros l. rewrite !list_elem_of_In, !in_flat_map. setoid_rewrite <- in_rev. done. }
  rewrite Hrev. destruct node as [| | | |l|l]; cbn; try (split; [by intros ?%not_elem_of_nil|by intros [?%not_elem_of_nil ?]]).
  - split; [by intros ?%not_elem_of_nil|by intros [_ ?]].
  - split; [done|by intros [? _]].
  - rewrite !list_elem_of_In, !in_flat_map. split; [intros (x & ([k y] & <- & Hin)%in_map_iff & Hs); split; [by exists (k, y)|done]|].
    intros [([k y] & Hin & Hs) _]. exists y. split; [|done]. apply in_map_iff. by exists (k, y).
Qed.

Lemma list_sum_cons x l : list_sum (x :: l) = (x + list_sum l)%nat.
Proof. done. Qed.

Lemma pushed_size node : (list_sum (map jsize (rev (pushed node))) < jsize node)%nat.
Proof.
  assert (forall l, list_sum (map jsize (rev l)) = list_sum (map jsize l)) as Hrev.
  { induction l as [|x l IH]; [done|]. cbn [rev map]. rewrite map_app, list_sum_app, IH. cbn [map]. rewrite !list_sum_cons. cbn. lia. }
  rewrite Hrev. destruct node as [| | | |l|l]; cbn [pushed jsize]; try (cbn; lia). rewrite map_map. induction l as [|[k x] l IH]; [cbn; lia|]. cbn [map]. rewrite !list_sum_cons. cbn [snd]. lia.
Qed.

Lemma cited_go_spec fuel : forall cited stack, cited ⊆ wanted -> (list_sum (map jsize stack) < fuel)%nat ->
  forall s, s ∈ cited_go fuel wanted cited stack <-> s ∈ cited \/ (s ∈ wanted /\ s ∈ flat_map strings_in stack).
Proof.
  induction fuel as [|fuel IH]; intros cited stack Hc Hf s; [lia|]. destruct stack as [|node stack]; cbn [cited_go].
  { cbn. rewrite elem_of_nil. tauto. }
  destruct (size cited <? size wanted)%nat eqn:E.
  2:{ rewrite (size_full _ Hc E). split; [by left|]. by intros [?|[? _]]. }
  cbn [map] in Hf. rewrite list_sum_cons in Hf.
  pose proof (pushed_size node) as Hp. rewrite IH; [|destruct node; try done; case_bool_decide; [set_solver|done]|].
  2:{ rewrite map_app, list_sum_app. lia. }
  cbn [flat_map]. rewrite flat_map_app, !elem_of_app, pushed_strings.
  destruct node as [| | |t|l|l]; cbn [is_jstr strings_in]; try (rewrite ?elem_of_nil; tauto).
  rewrite list_elem_of_singleton. case_bool_decide as Ht; [set_solver|]. split; [set_solver|]. intros [?|[? [->|?]]]; set_solver.
Qed.
End Uncited.

(** The ids a request does not cite are exactly those of the answer that are no string
    of the request's body, in order: the walk, which stops early once every id is found,
    terminates within the body's nodes and misses none. *)
Theorem uncited_exact object_ids request_body :
  uncited object_ids request_body = List.filter (fun i => bool_decide (i ∉ strings_in request_body)) object_ids.
Proof.
  unfold uncited. apply filter_ext_in. intros i Hi%list_elem_of_In. apply bool_decide_ext.
  rewrite cited_go_spec by (set_solver || (cbn; lia)). cbn [flat_map]. rewrite app_nil_r, elem_of_list_to_set. set_solver.
Qed.

(** ** What a stream delivers, whatever its bookkeeping meets *)
Section Delivered.
Context {V : Type} `{VaultOps V} {K : Type} `{EqDecision K} {R E : Type} (v : V).
Context (router : session_router) (object_ids_from_event : SSEEvent -> option (list pystr)) (once : bool) (request_body : json).
Context (response_id_from_event : SSEEvent -> result E (option pystr)) (loads_text : pystr -> document).
Context (observe_event : option (SSEEvent -> R -> option SSEEvent * R)).
Context (rehydrate_event : SSEEvent -> Rehydrate.pool (K := K) -> result E (list SSEEvent) * Rehydrate.pool (K := K)).

Abbreviation St := (books * delivery K R)%type.
Abbreviation deliver := (deliver_event observe_event rehydrate_event).
Abbreviation noted := (note router object_ids_from_event once request_body response_id_from_event loads_text).
Abbreviation event_step := (on_event router object_ids_from_event once request_body response_id_from_event loads_text observe_event rehydrate_event).

Lemma contained_returns {A} at_stage (m : M books fault A) b : exists r b', contained at_stage m b = (Ok r, b').
Proof. unfold contained. destruct (m b) as [[a|f] b']; by eauto. Qed.

Lemma observe_returns d b : exists b', observe router d b = (Ok tt, b').
Proof.
  unfold observe, mbnd, mget. destruct (observing b); [|by eexists]. destruct (loads_bounded d); [|by eexists].
  destruct (contained_returns ObserverStage (call router (Observe a)) b) as ([r|] & b' & ->); by eexists.
Qed.

Lemma track_objects_returns closing e b : exists b', track_objects router object_ids_from_event once request_body closing e b = (Ok tt, b').
Proof.
  unfold track_objects, report, mbnd, mget, mret. destruct (seen b); [|by eexists].
  destruct (contained_returns ObjectIdsStage (record router object_ids_from_event request_body e) b) as (r & b' & ->).
  destruct (_ && negb closing); by eexists.
Qed.

Context (Hid : forall e err, response_id_from_event e <> Raise err).

Lemma note_returns closing e b : exists b', noted closing e b = (Ok tt, b').
Proof.
  assert (exists b1, (if closing then mret tt else track_response router response_id_from_event e) b = (Ok tt, b1)) as (b1 & Hb1).
  { destruct closing; [by eexists|]. unfold track_response, mbnd, mget. destruct (id_seen b); [by eexists|].
    destruct (response_id_from_event e) as [[i|]|err] eqn:Ei; [|by eexists|by apply Hid in Ei].
    destruct (contained_returns ResponseIdStage (record_response_id router i) b) as (r & b' & ->). by eexists. }
  destruct (track_objects_returns closing e b1) as (b2 & Hb2). destruct (observe_returns (loads_text (data e)) b2) as (b3 & Hb3).
  exists b3. unfold note, mbnd. by rewrite Hb1, Hb2, Hb3.
Qed.

Lemma on_event_delivers closing e b d : exists b', event_step closing e (b, d) = (let (r, d') := deliver e d in (r, (b', d'))).
Proof.
  destruct (note_returns closing e b) as (b' & Hb). exists b'. unfold on_event, in_books, in_delivery, mbnd. cbn [fst snd]. rewrite Hb. cbn [fst snd].
  by destruct (deliver e d).
Qed.

Lemma every_delivers closing es : forall b d, exists b', every (event_step closing) es (b, d) = (let (r, d') := each deliver es d in (r, (b', d'))).
Proof.
  induction es as [|e es IH]; intros b d; cbn [every each]; [by eexists|]. destruct (on_event_delivers closing e b d) as (b1 & He).
  unfold mbnd. rewrite He. destruct (deliver e d) as [[[]|f] d1]; [|by eexists]. apply IH.
Qed.

Lemma each_app es1 es2 d : each deliver (es1 ++ es2) d = match each deliver es1 d with (Ok _, d') => each deliver es2 d' | r => r end.
Proof.
  revert d. induction es1 as [|e es1 IH]; intros d; [done|]. cbn [app each]. unfold mbnd. destruct (deliver e d) as [[[]|f] d1]; [apply IH|done].
Qed.

Lemma feed_events_delivers chunks : forall p b d, let (es, q) := SSEParser.feed_all p chunks in
  exists b', feed_events (event_step) p chunks (b, d) =
    match each deliver es d with (Ok _, d') => (Ok q, (b', d')) | (Raise f, d') => (Raise f, (b', d')) end.
Proof.
  induction chunks as [|c chunks IH]; intros p b d; cbn [SSEParser.feed_all feed_events]; [by eexists|].
  destruct (SSEParser.feed p c) as [es p1]. unfold mbnd. destruct (every_delivers false es b d) as (b1 & Hes).
  specialize (fun d' => IH p1 b1 d'). destruct (SSEParser.feed_all p1 chunks) as [more q]. rewrite Hes.
  destruct (each deliver es d) as [[[]|f] d1] eqn:E1.
  - destruct (IH d1) as (b2 & Hb2). exists b2. rewrite Hb2. by rewrite each_app, E1.
  - exists b1. by rewrite each_app, E1.
Qed.

(** The upstream's events, the one its close flushes included unless the transport dropped. *)
Definition events_of (chunks : list pybytes) (dropped : bool) : list SSEEvent :=
  let (es, p) := SSEParser.feed_all SSEParser.init chunks in if dropped then es else es ++ (SSEParser.close p).1.

(** The relay of a stream, as the delivery of its events. *)
Lemma relay_delivers_all chunks dropped b d :
  let (end_, s) := stream_rehydrated v router object_ids_from_event once request_body response_id_from_event loads_text observe_event rehydrate_event chunks dropped (b, d) in
  match each deliver (events_of chunks dropped) d with
  | (Ok _, d') => end_ = (if dropped then UpstreamDropped else Ended) /\ sent s.2 = sent d' /\ routed s.2 = routed d'
  | (Raise _, d') => end_ = Cut /\ s.2 = d'
  end.
Proof.
  unfold stream_rehydrated, relayed, event_stream, mbnd at 1, events_of. pose proof (feed_events_delivers chunks SSEParser.init b d) as Hf.
  destruct (SSEParser.feed_all SSEParser.init chunks) as [es q]. destruct Hf as (b1 & ->). destruct dropped.
  - by destruct (each deliver es d) as [[[]|f] d1].
  - rewrite each_app. destruct (each deliver es d) as [[[]|f] d1]; [|done]. unfold mbnd.
    destruct (every_delivers true (SSEParser.close q).1 b1 d1) as (b2 & ->). by destruct (each deliver _ d1) as [[[]|f] d2].
Qed.

(** C12: what the client of an event stream gets is what restoring and serializing the
    upstream's events one by one gives: it depends neither on how the bytes were cut nor on
    the session router, the observer or the tracker, whatever they answer or raise, and the
    stream is cut exactly where restoring or serializing an event fails.  Assumed: the
    adapter's reader of the response id never raises -- it runs outside the containment,
    and where it does raise (the Responses adapter's on a response.created event whose data
    is no object) it cuts the stream. *)
Theorem relay_delivers_events chunks dropped b d :
  let (end_, s) := stream_rehydrated v router object_ids_from_event once request_body response_id_from_event loads_text observe_event rehydrate_event chunks dropped (b, d) in
  match each deliver (events_of chunks dropped) d with
  | (Ok _, d') => end_ = (if dropped then UpstreamDropped else Ended) /\ sent s.2 = sent d' /\ routed s.2 = routed d'
  | (Raise _, d') => end_ = Cut /\ s.2 = d'
  end.
Proof. apply relay_delivers_all. Qed.
End Delivered.

(** ** Stored objects *)
Section Objects.
Context (router : session_router) (object_ids_from_event : SSEEvent -> option (list pystr)) (once : bool) (request_body : json).

(** The ids the session router was asked to record. *)
Definition asked_id (c : router_call) : list pystr := match c with AskObject i => [i] | _ => [] end.
Definition asked (b : books) : list pystr := flat_map asked_id (calls b).

Definition fresh_of (known found : list pystr) : list pystr := List.filter (fun i => bool_decide (i ∉ known)) found.
Definition uncited_of (ids : list pystr) : list pystr := List.filter (fun i => bool_decide (i ∉ strings_in request_body)) ids.

Lemma call_asked c b : let (r, b') := call router c b in asked b' = asked b ++ asked_id c /\ seen b' = seen b /\
  ((forall h c', replies router h c' <> CallRaised) -> exists a, r = Ok a).
Proof.
  unfold call, asked. destruct (replies router (calls b) c) eqn:E; cbn; rewrite flat_map_app; cbn; rewrite app_nil_r; split_and!; try done; eauto.
  intros Hn. by apply Hn in E.
Qed.

(** Bookkeeping that asks for no object. *)
Definition quiet {A} (m : M books fault A) : Prop := forall b, asked (m b).2 = asked b /\ seen (m b).2 = seen b.

Lemma quiet_bind {A B} (m : M books fault A) (k : A -> M books fault B) : quiet m -> (forall a, quiet (k a)) -> quiet (mbnd m k).
Proof.
  intros Hm Hk b. unfold mbnd. specialize (Hm b). destruct (m b) as [[a|f] b1]; [|done]. destruct (Hk a b1) as [-> ->]. done.
Qed.

Lemma quiet_contained {A} at_stage (m : M books fault A) : quiet m -> quiet (contained at_stage m).
Proof. intros Hm b. specialize (Hm b). unfold contained. by destruct (m b) as [[a|f] b1]. Qed.

Lemma quiet_call c : asked_id c = [] -> quiet (call router c).
Proof. intros Hc b. pose proof (call_asked c b) as Hb. destruct (call router c b). rewrite Hc, app_nil_r in Hb. tauto. Qed.

Lemma quiet_ret {A} (a : A) : quiet (mret a).
Proof. done. Qed.

Lemma quiet_record_response i : quiet (record_response_id router i).
Proof.
  unfold record_response_id. destruct (static_mode router); [done|]. apply quiet_bind; [by apply quiet_call|].
  intros [| |]; [|done|]; (apply quiet_bind; [by apply quiet_call|done]).
Qed.

Lemma quiet_observe d : quiet (observe router d).
Proof.
  unfold observe. apply quiet_bind; [done|]. intros b. destruct (observing b); [|done]. destruct (loads_bounded d); [|done].
  apply quiet_bind; [by apply quiet_contained, quiet_call|]. by intros [|].
Qed.

Lemma quiet_track {E} (response_id_from_event : SSEEvent -> result E (option pystr)) e : quiet (track_response router response_id_from_event e).
Proof.
  unfold track_response. apply quiet_bind; [done|]. intros b. destruct (id_seen b); [done|].
  destruct (response_id_from_event e) as [[i|]|err]; [|done..]. apply quiet_bind; [apply quiet_contained, quiet_record_response|done].
Qed.

(** Recording asks for the ids in order, all of them while nothing raises. *)
Lemma record_each_asked ids : forall b, let (r, b') := record_each router ids b in exists n, asked b' = asked b ++ take n ids /\ seen b' = seen b /\
  ((forall h c', replies router h c' <> CallRaised) -> r = Ok tt /\ take n ids = ids).
Proof.
  induction ids as [|i ids IH]; intros b; cbn [record_each]; [by exists 0%nat; rewrite app_nil_r|]. unfold mbnd at 1.
  pose proof (call_asked (AskObject i) b) as Hc. destruct (call router (AskObject i) b) as [[r|f] b1]; destruct Hc as (Ha & Hs & Hn).
  2:{ exists 1%nat. cbn [take]. rewrite Ha, Hs, take_0. split_and!; [done|done|]. intros Hh. destruct (Hn Hh) as [? ?]. done. }
  assert (Hm : let (r', b2) := (match r with Vetoed => mret tt | _ => mbnd (call router (MirrorObject i)) (fun _ => mret tt) end) b1 in
    asked b2 = asked b1 /\ seen b2 = seen b1 /\ ((forall h c', replies router h c' <> CallRaised) -> r' = Ok tt)).
  { pose proof (call_asked (MirrorObject i) b1) as Hc. destruct r; [|done|]; unfold mbnd, mret; destruct (call router (MirrorObject i) b1) as [[r'|f'] b2];
      cbn iota; destruct Hc as (-> & -> & Hn'); rewrite app_nil_r; split_and!; try done; intros Hh; by destruct (Hn' Hh). }
  unfold mbnd at 1. revert Hm. match goal with |- (let (_, _) := ?m in _) -> _ => destruct m as [[[]|f] b2] end; intros (Ha2 & Hs2 & Hn2).
  - specialize (IH b2). destruct (record_each router ids b2) as [r' b3]. destruct IH as (n & Ha3 & Hs3 & Hn3). exists (S n). cbn [take].
    rewrite Ha3, Ha2, Ha, Hs3, Hs2, Hs, <- app_assoc. split_and!; [done|done|]. intros Hh. destruct (Hn3 Hh) as [-> ->]. done.
  - exists 1%nat. cbn [take]. rewrite Ha2, Ha, Hs2, Hs, take_0. split_and!; [done|done|]. intros Hh. by specialize (Hn2 Hh).
Qed.

(** What reading one event for ids does, whatever fails. *)
Lemma track_objects_asked closing e b known : seen b = Some known ->
  let found := default [] (object_ids_from_event e) in
  let b' := (track_objects router object_ids_from_event once request_body closing e b).2 in
  exists n, asked b' = asked b ++ take n (uncited_of (fresh_of known found)) /\ (seen b' = None \/ seen b' = Some (known ++ fresh_of known found)) /\
    ((forall h c', replies router h c' <> CallRaised) -> tracks_owners router = true -> is_Some (object_ids_from_event e) -> once = false ->
      take n (uncited_of (fresh_of known found)) = uncited_of (fresh_of known found) /\ seen b' = Some (known ++ fresh_of known found)).
Proof.
  intros Hk found. unfold track_objects, mbnd at 1, mget. rewrite Hk. unfold report, mbnd, contained, record. subst found.
  destruct (object_ids_from_event e) as [found|]; cbn [default from_option mraise].
  2:{ exists 0%nat. unfold fresh_of. cbn [List.filter uncited_of take]. rewrite !app_nil_r. split_and!; [by rewrite Hk; destruct closing|destruct closing; [right; rewrite Hk; exact Hk|left; by rewrite Hk]|]. intros _ _ [? ?]. done. }
  unfold mbnd, mget, mmodify. cbv beta iota. rewrite !Hk. cbn [default from_option]. unfold id. fold (fresh_of known found).
  destruct (fresh_of known found) as [|i fresh] eqn:Ef.
  { exists 0%nat. cbn [List.filter uncited_of take mret snd andb negb]. rewrite !app_nil_r, Hk. split_and!; [done|by right|done]. }
  rewrite uncited_exact. fold (uncited_of (i :: fresh)). set (b1 := set_seen _ b).
  assert (Hr : let (r, b2) := (match uncited_of (i :: fresh) with [] => mret tt | created => record_object_ids router created end) b1 in
    exists n, asked b2 = asked b ++ take n (uncited_of (i :: fresh)) /\ seen b2 = Some (known ++ i :: fresh) /\
    ((forall h c', replies router h c' <> CallRaised) -> tracks_owners router = true -> r = Ok tt /\ take n (uncited_of (i :: fresh)) = uncited_of (i :: fresh))).
  { destruct (uncited_of (i :: fresh)) as [|j l]; [by exists 0%nat; rewrite app_nil_r|]. unfold record_object_ids.
    destruct (tracks_owners router); [|by exists 0%nat; rewrite app_nil_r]. pose proof (record_each_asked (j :: l) b1) as Hr.
    destruct (record_each router (j :: l) b1) as [r b2]. destruct Hr as (n & Ha & Hs & Hn). exists n. split_and!; [exact Ha|by rewrite Hs|]. intros Hh _. by apply Hn. }
  revert Hr. match goal with |- (let (_, _) := ?m in _) -> _ => destruct m as [[[]|f] b2] end; intros (n & Ha & Hs & Hn); exists n; cbn [mret].
  - unfold mret. destruct (true && once && negb closing) eqn:Eo; cbn [fst snd mmodify]; split_and!; try done.
    + by left.
    + intros _ _ _ Hon. by rewrite Hon in Eo.
    + by right.
    + intros Hh Ht _ _. by destruct (Hn Hh Ht).
  - unfold mret. destruct closing; cbn [andb negb fst snd mmodify]; split_and!; try done; [by right| |by left|]; intros Hh Ht; by destruct (Hn Hh Ht).
Qed.

(** *** Over a stream *)
Definition named (e : SSEEvent) : list pystr := default [] (object_ids_from_event e).

Lemma from_keys_app (l1 l2 : list pystr) : from_keys (l1 ++ l2) = from_keys l1 ++ List.filter (fun i => bool_decide (i ∉ l1)) (from_keys l2).
Proof.
  induction l1 as [|a l1 IH]; cbn [app from_keys].
  - symmetry. apply forallb_filter_id. apply forallb_forall. intros i _. by apply bool_decide_eq_true, not_elem_of_nil.
  - rewrite IH, filter_app. cbn [app]. f_equal. f_equal. clear IH. induction (from_keys l2) as [|x l IHl]; [done|]. cbn [List.filter].
    destruct (decide (x ∈ l1)) as [Hx|Hx]; [rewrite (bool_decide_eq_false_2 (x ∉ l1)), (bool_decide_eq_false_2 (x ∉ a :: l1)) by set_solver; exact IHl|].
    rewrite (bool_decide_eq_true_2 (x ∉ l1)) by done. cbn [List.filter]. destruct (decide (x = a)) as [-> |Hne].
    + rewrite (bool_decide_eq_true_2 (a = a)), (bool_decide_eq_false_2 (a ∉ a :: l1)) by set_solver. exact IHl.
    + rewrite (bool_decide_eq_false_2 (x = a)), (bool_decide_eq_true_2 (x ∉ a :: l1)) by set_solver. cbn [negb]. by rewrite IHl.
Qed.

Lemma from_keys_nodup (l : list pystr) : NoDup l -> from_keys l = l.
Proof.
  induction 1 as [|a l Ha _ IH]; [done|]. cbn. rewrite IH. f_equal. apply forallb_filter_id, forallb_forall. intros i Hi%list_elem_of_In.
  apply negb_true_iff, bool_decide_eq_false. intros ->. done.
Qed.

Lemma filter_nodup (p : pystr -> bool) l : NoDup l -> NoDup (List.filter p l).
Proof.
  induction 1 as [|a l Ha _ IH]; [constructor|]. cbn. destruct (p a); [|done]. constructor; [|done]. by intros [? _]%elem_filter.
Qed.

Lemma take_elem {A} (x : A) n l : x ∈ take n l -> x ∈ l.
Proof. intros (i & Hi)%list_elem_of_lookup. apply lookup_take_Some in Hi as [Hi _]. by eapply list_elem_of_lookup_2. Qed.

Lemma take_nodup {A} n (l : list A) : NoDup l -> NoDup (take n l).
Proof. intros Hn. rewrite <- (take_drop n l) in Hn. by apply list.NoDup_app in Hn as [? _]. Qed.

Context (Hnodup : forall e, NoDup (named e)).

(** No id twice, no cited id, and every id asked for is known. *)
Definition books_ok (b : books) : Prop :=
  NoDup (asked b) /\ (forall i, i ∈ asked b -> i ∉ strings_in request_body) /\ forall known, seen b = Some known -> asked b ⊆ known.

Lemma quiet_ok {A} (m : M books fault A) b : quiet m -> books_ok b -> books_ok (m b).2.
Proof. intros Hq (H1 & H2 & H3). destruct (Hq b) as [Ha Hs]. unfold books_ok. by rewrite Ha, Hs. Qed.

Lemma track_ok closing e b : books_ok b -> books_ok (track_objects router object_ids_from_event once request_body closing e b).2.
Proof.
  intros (Hn & Hc & Hk). destruct (seen b) as [known|] eqn:Es; [|unfold track_objects, mbnd, mget; rewrite Es; split_and!; [done|done|intros known Hk'; cbn in Hk'; congruence]].
  destruct (track_objects_asked closing e b known Es) as (n & Ha & Hs & _). specialize (Hk known eq_refl). fold (named e) in Ha, Hs.
  set (b' := (track_objects _ _ _ _ closing e b).2) in *. unfold books_ok. rewrite Ha.
  assert (Hin : forall i, i ∈ take n (uncited_of (fresh_of known (named e))) -> (i ∉ strings_in request_body) /\ (i ∉ known) /\ (i ∈ named e)).
  { intros i [Hi1 Hi2]%take_elem%elem_filter. apply elem_filter in Hi1 as [? ?]. by rewrite !bool_decide_eq_true in *. }
  split_and!.
  - apply list.NoDup_app. split_and!; [done|intros i Hi Hi'; apply Hin in Hi' as (_ & H2 & _); by apply H2, Hk|]. by apply take_nodup, filter_nodup, filter_nodup.
  - intros i [Hi|Hi]%elem_of_app; [by apply Hc|by apply Hin in Hi as [? _]].
  - intros known' Hk'. destruct Hs as [Hs|Hs]; rewrite Hs in Hk'; [done|]. injection Hk' as <-.
    intros i [Hi|Hi]%elem_of_app; [apply elem_of_app; left; by apply Hk|]. apply elem_of_app. right. apply Hin in Hi as (_ & H1 & H2). apply elem_filter. by rewrite bool_decide_eq_true.
Qed.

Section Noted.
Context {E : Type} (response_id_from_event : SSEEvent -> result E (option pystr)) (loads_text : pystr -> document).
Abbreviation noted := (note router object_ids_from_event once request_body response_id_from_event loads_text).

Lemma note_ok closing e b : books_ok b -> books_ok (noted closing e b).2.
Proof.
  intros Hb. unfold note, mbnd.
  assert (Hq : quiet (if closing then mret tt else track_response router response_id_from_event e)) by (destruct closing; [done|apply quiet_track]).
  set (m := (if closing then mret tt else track_response router response_id_from_event e) : M books fault unit) in *.
  pose proof (quiet_ok _ b Hq Hb) as Hb1. destruct (m b) as [[[]|f] b1]; [|done].
  pose proof (track_ok closing e b1 Hb1) as Hb2. destruct (track_objects _ _ _ _ closing e b1) as [[[]|f] b2]; [|done].
  apply (quiet_ok _ b2 (quiet_observe _)), Hb2.
Qed.

(** Every id named so far is known; the uncited ones have been asked for. *)
Definition told (es : list SSEEvent) (b : books) : Prop :=
  seen b = Some (from_keys (flat_map named es)) /\ asked b = uncited_of (from_keys (flat_map named es)).

Context {K : Type} `{EqDecision K} {R : Type} (observe_event : option (SSEEvent -> R -> option SSEEvent * R)).
Context (rehydrate_event : SSEEvent -> Rehydrate.pool (K := K) -> result E (list SSEEvent) * Rehydrate.pool (K := K)).
Abbreviation St := (books * delivery K R)%type.
Abbreviation event_step := (on_event router object_ids_from_event once request_body response_id_from_event loads_text observe_event rehydrate_event).

(** Steps that keep the books sound. *)
Definition keeps {A} (m : M St fault A) : Prop := forall s, books_ok s.1 -> books_ok (m s).2.1.

Lemma keeps_bind {A B} (m : M St fault A) (k : A -> M St fault B) : keeps m -> (forall a, keeps (k a)) -> keeps (mbnd m k).
Proof. intros Hm Hk s Hs. unfold mbnd. specialize (Hm s Hs). destruct (m s) as [[a|f] s1]; [by apply Hk|done]. Qed.

Lemma keeps_event closing e : keeps (event_step closing e).
Proof.
  unfold on_event. apply keeps_bind.
  - intros s Hs. unfold in_books. pose proof (note_ok closing e s.1 Hs) as Hn. by destruct (noted closing e s.1).
  - intros _ s Hs. unfold in_delivery. by destruct (deliver_event _ _ e s.2).
Qed.

Lemma keeps_every closing l : keeps (every (event_step closing) l).
Proof. induction l as [|e l IH]; [by intros s|]. cbn [every]. apply keeps_bind; [apply keeps_event|done]. Qed.

Lemma keeps_feed chunks : forall p, keeps (feed_events event_step p chunks).
Proof.
  induction chunks as [|c chunks IH]; intros p; cbn [feed_events]; [by intros s|]. destruct (SSEParser.feed p c). apply keeps_bind; [apply keeps_every|done].
Qed.

Context (Hrouter : forall h c, replies router h c <> CallRaised) (Howners : tracks_owners router = true)
  (Htracker : forall e, is_Some (object_ids_from_event e)) (Honce : once = false).

Lemma note_told closing es e b b' : told es b -> noted closing e b = (Ok tt, b') -> told (es ++ [e]) b'.
Proof.
  intros [Hs Ha]. unfold note, mbnd.
  assert (Hq : quiet (if closing then mret tt else track_response router response_id_from_event e)) by (destruct closing; [done|apply quiet_track]).
  set (m := (if closing then mret tt else track_response router response_id_from_event e) : M books fault unit) in *.
  specialize (Hq b). destruct (m b) as [[[]|f] b1]; [|done]. cbn [snd] in Hq. destruct Hq as [Ha1 Hs1]. rewrite Ha in Ha1. rewrite Hs in Hs1.
  destruct (track_objects_asked closing e b1 _ Hs1) as (n & Ha2 & _ & Hall). specialize (Hall Hrouter Howners (Htracker e) Honce) as [Htake Hs2].
  destruct (track_objects _ _ _ _ closing e b1) as [[[]|f] b2]; [|done]. cbn [snd] in *. intros Ho.
  destruct (quiet_observe (loads_text (data e)) b2) as [Ha3 Hs3]. rewrite Ho in Ha3, Hs3. cbn [snd] in *. fold (named e) in *.
  assert (from_keys (flat_map named (es ++ [e])) = from_keys (flat_map named es) ++ fresh_of (from_keys (flat_map named es)) (named e)) as Hkeys.
  { rewrite flat_map_app. cbn [flat_map]. rewrite app_nil_r, from_keys_app, (from_keys_nodup (named e)) by done. f_equal. apply filter_ext.
    intros i. apply bool_decide_ext. by rewrite elem_from_keys. }
  unfold told. rewrite Hkeys, Ha3, Hs3, Hs2, Ha2, Htake, Ha1. split; [done|]. unfold uncited_of. by rewrite filter_app.
Qed.

Lemma on_event_told closing es e (s s' : St) : told es s.1 -> event_step closing e s = (Ok tt, s') -> told (es ++ [e]) s'.1.
Proof.
  intros Ht. unfold on_event, in_books, in_delivery, mbnd. destruct (noted closing e s.1) as [[[]|f] b'] eqn:En; [|done]. cbn [fst snd].
  destruct (deliver_event _ _ e s.2) as [[[]|f] d']; [|done]. intros [= <-]. by eapply note_told.
Qed.

Lemma every_told closing l : forall es (s s' : St), told es s.1 -> every (event_step closing) l s = (Ok tt, s') -> told (es ++ l) s'.1.
Proof.
  induction l as [|e l IH]; intros es s s' Ht; cbn [every]; [intros [= <-]; by rewrite app_nil_r|]. unfold mbnd.
  destruct (event_step closing e s) as [[[]|f] s1] eqn:E1; [|done]. intros Hl. assert (es ++ e :: l = (es ++ [e]) ++ l) as -> by by rewrite <- app_assoc. eapply IH, Hl. by eapply on_event_told.
Qed.

Lemma feed_events_told chunks : forall p es (s s' : St) q, told es s.1 -> feed_events event_step p chunks s = (Ok q, s') ->
  told (es ++ (SSEParser.feed_all p chunks).1) s'.1 /\ q = (SSEParser.feed_all p chunks).2.
Proof.
  induction chunks as [|c chunks IH]; intros p es s s' q Ht; cbn [feed_events SSEParser.feed_all]; [intros [= <- <-]; by rewrite app_nil_r|].
  destruct (SSEParser.feed p c) as [l p1]. unfold mbnd. destruct (every (event_step false) l s) as [[[]|f] s1] eqn:E1; [|done].
  intros Hc. destruct (IH p1 (es ++ l) s1 s' q (every_told _ _ _ _ _ Ht E1) Hc) as [Ht' ->]. destruct (SSEParser.feed_all p1 chunks). cbn [fst snd] in *. by rewrite app_assoc.
Qed.
End Noted.
End Objects.

(** C15: the ids of stored objects a tracked stream names are reported to the session
    router once each and never when the request itself cites them, whatever the router,
    the observer and the tracker answer or raise and wherever the stream is cut.  And for a
    response that is not recorded once only ([once] false), with a router that tracks
    owners: while nothing raises, a stream read to its end has reported exactly the ids its
    events name, in order of first naming, less the cited ones.  Assumed of the adapter:
    the ids it reads from one event hold no duplicate (a duplicate within one event is
    reported twice: what was seen is noted after the event). *)
Theorem objects_reported {V} `{VaultOps V} {K} `{EqDecision K} {R E} (v : V) router object_ids_from_event once request_body
    (response_id_from_event : SSEEvent -> result E (option pystr)) loads_text (observe_event : option (SSEEvent -> R -> option SSEEvent * R))
    (rehydrate_event : SSEEvent -> Rehydrate.pool (K := K) -> result E (list SSEEvent) * Rehydrate.pool (K := K)) chunks dropped observed d :
  (forall e, NoDup (default [] (object_ids_from_event e))) ->
  let (end_, s) := stream_rehydrated v router object_ids_from_event once request_body response_id_from_event loads_text observe_event rehydrate_event chunks dropped (fresh_books true observed, d) in
  (NoDup (asked s.1) /\ forall i, i ∈ asked s.1 -> i ∉ strings_in request_body) /\
  ((forall h c, replies router h c <> CallRaised) -> (forall e, is_Some (object_ids_from_event e)) -> tracks_owners router = true -> once = false -> end_ = Ended ->
    asked s.1 = List.filter (fun i => bool_decide (i ∉ strings_in request_body))
      (from_keys (flat_map (fun e => default [] (object_ids_from_event e)) (events_of chunks false)))).
Proof.
  intros Hnd. assert (H0 : books_ok request_body (fresh_books true observed)) by (repeat split; [constructor|by intros i ?%not_elem_of_nil|by intros known _ i ?%not_elem_of_nil]).
  unfold stream_rehydrated, relayed, event_stream, events_of.
  pose proof (keeps_feed router object_ids_from_event once request_body Hnd response_id_from_event loads_text observe_event rehydrate_event chunks SSEParser.init (fresh_books true observed, d) H0) as Hk.
  unfold mbnd at 1. destruct (feed_events _ SSEParser.init chunks _) as [[p|f] s1] eqn:E1; cbn [snd] in Hk; [|by destruct Hk as (? & ? & _)].
  assert (Htold : (forall h c, replies router h c <> CallRaised) -> (forall e, is_Some (object_ids_from_event e)) -> tracks_owners router = true -> once = false ->
    told object_ids_from_event request_body (SSEParser.feed_all SSEParser.init chunks).1 s1.1 /\ p = (SSEParser.feed_all SSEParser.init chunks).2).
  { intros Hr Ht Ho Hon. by refine (feed_events_told router object_ids_from_event once request_body Hnd response_id_from_event loads_text observe_event rehydrate_event Hr Ho Ht Hon
      chunks SSEParser.init [] (fresh_books true observed, d) s1 p _ E1). }
  destruct dropped; [by destruct Hk as (? & ? & _)|]. unfold mbnd.
  pose proof (keeps_every router object_ids_from_event once request_body Hnd response_id_from_event loads_text observe_event rehydrate_event true (SSEParser.close p).1 s1 Hk) as Hk2.
  destruct (every _ (SSEParser.close p).1 s1) as [[[]|f] s2] eqn:E2; cbn [snd mret] in *; destruct Hk2 as (Hn & Hc & _); [|done].
  split; [done|]. intros Hr Ht Ho Hon _. destruct (Htold Hr Ht Ho Hon) as [Ht1 ->].
  pose proof (every_told router object_ids_from_event once request_body Hnd response_id_from_event loads_text observe_event rehydrate_event Hr Ho Ht Hon true _ _ _ _ Ht1 E2) as [_ Ha].
  cbn [discard_leftover fst]. rewrite Ha. destruct (SSEParser.feed_all SSEParser.init chunks). done.
Qed.

(** ** What is not rewritten is relayed byte for byte *)
Section Verbatim.
Context {K : Type} `{EqDecision K} {R E : Type} (router : session_router) (loads_data : pybytes -> document).
Abbreviation pool := (Rehydrate.pool (K := K)).
Abbreviation St := (books * delivery K R)%type.

Definition bytes_sent (s : St) : pybytes := concat (sent s.2).

Section Frames.
Context (rehydrate_eventstream_message : EventStreamMessage -> pool -> result E (list EventStreamMessage) * pool) (max_body_bytes : Z).
Abbreviation deliver := (deliver_frame rehydrate_eventstream_message).
Abbreviation feed := (feed_frames router loads_data rehydrate_eventstream_message max_body_bytes).

Lemma every_frame_delivers ms : forall b (d : delivery K R), exists b', every (on_frame router loads_data rehydrate_eventstream_message) ms (b, d) =
  (let (r, d') := each deliver ms d in (r, (b', d'))).
Proof.
  induction ms as [|m ms IH]; intros b d; cbn [every each]; [by eexists|]. unfold mbnd, on_frame, in_books, in_delivery, mbnd. cbn [fst snd].
  destruct (observe_returns router (loads_data (payload m)) b) as (b1 & ->). cbn [fst snd]. destruct (deliver m d) as [[[]|f] d1]; [|by eexists]. apply IH.
Qed.

Lemma each_frame_app ms1 ms2 (d : delivery K R) : each deliver (ms1 ++ ms2) d =
  match each deliver ms1 d with (Ok _, d') => each deliver ms2 d' | r => r end.
Proof.
  revert d. induction ms1 as [|m ms1 IH]; intros d; [done|]. cbn [app each]. unfold mbnd. destruct (deliver m d) as [[[]|f] d1]; [apply IH|done].
Qed.

(** Once degraded, the chunks go on as they are. *)
Lemma degraded_sends chunks : forall (s : St), exists d, feed None chunks s = (Ok None, (s.1, d)) /\ concat (sent d) = concat (sent s.2) ++ concat chunks.
Proof.
  induction chunks as [|c chunks IH]; intros s; cbn [feed_frames concat]; [exists s.2; rewrite app_nil_r; by destruct s|].
  unfold mbnd, in_delivery, yield_bytes, mmodify. cbn [fst snd]. destruct (IH (s.1, mk_delivery (sent s.2 ++ [c]) (restoring s.2) (routed s.2))) as (d & -> & Hd).
  exists d. split; [done|]. rewrite Hd. cbn [sent snd]. by rewrite concat_app, <- app_assoc; cbn; rewrite app_nil_r.
Qed.

(** The loop, as what the parser hands out and how it stops. *)
Lemma feed_frames_spec chunks : forall buffer b (d : delivery K R),
  let '(ms, failure, residual, unfed) := EventStream.feed_all max_body_bytes buffer chunks in
  match each deliver ms d with
  | (Raise f, d') => exists b', feed (Some buffer) chunks (b, d) = (Raise f, (b', d'))
  | (Ok _, d') =>
      match failure with
      | None => exists b', feed (Some buffer) chunks (b, d) = (Ok (Some residual), (b', d'))
      | Some (EventStreamError _) => exists b' d2, feed (Some buffer) chunks (b, d) = (Ok None, (b', d2)) /\
          concat (sent d2) = concat (sent d') ++ residual ++ concat unfed
      | Some _ => exists b', feed (Some buffer) chunks (b, d) = (Raise Fault, (b', d'))
      end
  end.
Proof.
  induction chunks as [|c chunks IH]; intros buffer b d; cbn [EventStream.feed_all feed_frames]; [by exists b|].
  destruct (EventStreamParser.feed max_body_bytes buffer c) as [[ms|e] buffer1].
  - specialize (fun b d => IH buffer1 b d). destruct (EventStream.feed_all max_body_bytes buffer1 chunks) as [[[more failure] residual] unfed].
    rewrite each_frame_app. destruct (every_frame_delivers ms b d) as (b1 & Hms). unfold mbnd. rewrite Hms.
    destruct (each deliver ms d) as [[[]|f] d1]; [apply IH|by exists b1].
  - destruct e as [why| | | | |]; cbn [each mret]; try (by exists b). unfold mret, mbnd at 1, in_delivery, yield_bytes, mmodify. cbn [fst snd].
    destruct (degraded_sends chunks (b, mk_delivery (sent d ++ [EventStreamParser.residual buffer1]) (restoring d) (routed d))) as (d2 & -> & Hd).
    exists b, d2. split; [done|]. rewrite Hd. cbn [sent snd]. rewrite concat_app, <- app_assoc. cbn. by rewrite app_nil_r.
Qed.
End Frames.

Section Lines.
Context (observe_line : option (pybytes -> R -> option pybytes * R)) (rehydrate_ndjson_line : pybytes -> pool -> result E pybytes * pool).
Context (Hsame : forall l pl, rehydrate_ndjson_line l pl = (Ok l, pl)) (Hhook : observe_line = None).

Lemma line_sent t l (s : St) : exists s', on_line router loads_data observe_line rehydrate_ndjson_line t l s = (Ok tt, s') /\ bytes_sent s' = bytes_sent s ++ l ++ t.
Proof.
  unfold on_line, in_books, in_delivery, mbnd. destruct (observe_returns router (loads_data l) s.1) as (b & ->). cbn [fst snd].
  unfold deliver_line, restored, hooked, mbnd. rewrite Hsame, Hhook. eexists. split; [done|]. unfold bytes_sent. cbn. by rewrite concat_app; cbn; rewrite app_nil_r.
Qed.

Lemma lines_sent ls : forall s : St, exists s', every (on_line router loads_data observe_line rehydrate_ndjson_line [10]) ls s = (Ok tt, s') /\
  bytes_sent s' = bytes_sent s ++ concat (map (fun l => l ++ [10]) ls).
Proof.
  induction ls as [|l ls IH]; intros s; [exists s; by rewrite app_nil_r|]. cbn [every map concat]. unfold mbnd. destruct (line_sent [10] l s) as (s1 & -> & H1).
  destruct (IH s1) as (s2 & -> & H2). exists s2. split; [done|]. by rewrite H2, H1, <- app_assoc.
Qed.

Lemma lines_relayed chunks : forall buffer (s : St), exists s',
  feed_lines router loads_data observe_line rehydrate_ndjson_line buffer chunks s = (Ok (NDJSONParser.feed_all buffer chunks).2, s') /\
  bytes_sent s' = bytes_sent s ++ concat (map (fun l => l ++ [10]) (NDJSONParser.feed_all buffer chunks).1).
Proof.
  induction chunks as [|c chunks IH]; intros buffer s; cbn [feed_lines NDJSONParser.feed_all]; [exists s; by rewrite app_nil_r|].
  destruct (NDJSONParser.feed buffer c) as [ls b1]. unfold mbnd. destruct (lines_sent ls s) as (s1 & -> & H1). destruct (IH b1 s1) as (s2 & -> & H2).
  exists s2. destruct (NDJSONParser.feed_all b1 chunks). cbn [fst snd] in *. split; [done|]. by rewrite H2, H1, map_app, concat_app, <- app_assoc.
Qed.
End Lines.
End Verbatim.

(** C21: an AWS event stream reaches the client as its frames, restored and serialized in
    turn, then every byte the parser returned no frame for: its residual and the chunks
    after it when it raised EventStreamError (a corrupt frame), its residual when the
    stream ends inside a frame (unless the transport dropped).  The frames, the residual
    and those chunks are the upstream's bytes in order, however they were cut.  The stream
    is cut where restoring or serializing a frame fails, or the parser raises something
    else (a frame whose checksums hold and whose header is not UTF-8), and then only what
    the frames before gave has been sent. *)
Theorem eventstream_relayed {V} `{VaultOps V} {K} `{EqDecision K} {R E} (v : V) router loads_data max_body_bytes
    (restore : EventStreamMessage -> Rehydrate.pool (K := K) -> result E (list EventStreamMessage) * Rehydrate.pool (K := K))
    chunks dropped b (d : delivery K R) : Forall is_bytes chunks ->
  let '(ms, failure, residual, unfed) := EventStream.feed_all max_body_bytes [] chunks in
  let (end_, s) := stream_rehydrated_eventstream v router loads_data restore max_body_bytes chunks dropped (b, d) in
  let to_end := if dropped then UpstreamDropped else Ended in
  (exists fs, Forall2 (fun m f => EventStream.serialize m = Ok f) ms fs /\ concat fs ++ residual ++ concat unfed = concat chunks) /\
  match each (deliver_frame restore) ms d, failure with
  | (Raise _, d'), _ => end_ = Cut /\ s.2 = d'
  | (Ok _, d'), None => end_ = to_end /\ concat (sent s.2) = concat (sent d') ++ (if dropped then [] else residual)
  | (Ok _, d'), Some (EventStreamError _) => end_ = to_end /\ concat (sent s.2) = concat (sent d') ++ residual ++ concat unfed
  | (Ok _, d'), Some _ => end_ = Cut /\ s.2 = d'
  end.
Proof.
  intros Hb. pose proof (eventstream_lossless max_body_bytes chunks Hb) as Hl.
  pose proof (feed_frames_spec (R := R) router loads_data restore max_body_bytes chunks [] b d) as Hf.
  destruct (EventStream.feed_all max_body_bytes [] chunks) as [[[ms failure] residual] unfed]. unfold stream_rehydrated_eventstream, frame_stream, mbnd at 1.
  destruct (each (deliver_frame restore) ms d) as [[[]|f] d'].
  2: { destruct Hf as (b' & ->). done. }
  destruct failure as [[why| | | | |]|]; try (destruct Hf as (b' & ->); done).
  - destruct Hf as (b' & d2 & -> & Hd). by destruct dropped.
  - destruct Hf as (b' & ->). destruct dropped; [by rewrite app_nil_r|]. unfold mbnd, mret.
    destruct residual as [|x residual]; cbn; (split; [done|split; [done|]]); [by rewrite app_nil_r|]. by rewrite concat_app; cbn; rewrite app_nil_r.
Qed.

(** What the adapter leaves alone of a JSON Lines stream reaches the client byte for
    byte, its unterminated last line included; the stream is never cut. *)
Theorem unrewritten_lines_verbatim {V} `{VaultOps V} {K} `{EqDecision K} {R E} (v : V) router loads_data
    (lines : pybytes -> Rehydrate.pool (K := K) -> result E pybytes * Rehydrate.pool (K := K)) chunks b fuzzy (r : R) :
  (forall l pl, lines l pl = (Ok l, pl)) ->
  let nd := stream_rehydrated_ndjson v router loads_data None lines chunks false (b, fresh_delivery fuzzy r) in
  nd.1 = Ended /\ bytes_sent nd.2 = concat chunks.
Proof.
  intros Hl nd. subst nd. unfold stream_rehydrated_ndjson, relayed, line_stream, mbnd.
  destruct (lines_relayed router loads_data None lines Hl eq_refl chunks NDJSONParser.init (b, fresh_delivery fuzzy r)) as (s' & -> & Hs).
  pose proof (NDJSONParser.ndjson_lines chunks) as Hlines. destruct (NDJSONParser.feed_all NDJSONParser.init chunks) as [ls buffer]. destruct Hlines as (_ & _ & Heq).
  cbn [fst snd NDJSONParser.close] in *. destruct buffer as [|x buffer].
  - cbn. split; [done|]. rewrite app_nil_r in Heq. rewrite <- Heq. exact Hs.
  - destruct (line_sent router loads_data None lines Hl eq_refl [] (x :: buffer) s') as (s2 & -> & H2). cbn. split; [done|].
    rewrite app_nil_r in H2. rewrite <- Heq. transitivity (bytes_sent s2); [done|]. by rewrite H2, Hs.
Qed.

(** *** Witnesses: an adapter that restores an event's data, a router that always raises *)
Definition plain_adapter (v : InMemoryVault.t) (e : SSEEvent) (pl : Rehydrate.pool (K := unit)) : result unit (list SSEEvent) * Rehydrate.pool (K := unit) :=
  let (text, pl) := rehydrate_whole v false (data e) pl in (Ok [mk_event (event e) text (ev_id e) (comments e)], pl).

Definition failing_router : session_router := mk_router false true (fun _ _ => CallRaised).
Definition healthy_router : session_router := mk_router false true (fun _ _ => Replied).
Definition email_stream : list pybytes := [lit "data: to " ++ [194; 171] ++ lit "EMA"; lit "IL_001" ++ [194; 187; 10; 10] ++ lit "data: bye"].

Definition answering (router : session_router) (chunks : list pybytes) :=
  let v := InMemoryVault.vault_of [(lit "EMAIL", lit "jo@x.org")] in
  stream_rehydrated (R := unit) (E := unit) v router (fun e => Some (match data e with [] => [] | d => [take 3 d; lit "cited"] end)) false (JList [JStr (lit "cited")])
    (fun _ => Ok (Some (lit "resp_1"))) (fun _ => DocMalformed) None (plain_adapter v) chunks false (fresh_books true true, fresh_delivery false tt).

Lemma relay_delivers_events_witness :
  (answering failing_router email_stream).1 = Ended /\
  concat (sent (answering failing_router email_stream).2.2) = lit "data: to jo@x.org" ++ [10; 10] ++ lit "data: bye" ++ [10; 10].
Proof.
  unfold answering. set (v := InMemoryVault.vault_of _). set (named_of := fun e : SSEEvent => _).
  pose proof (relay_delivers_events (K := unit) (R := unit) (E := unit) v failing_router named_of false (JList [JStr (lit "cited")])
    (fun _ => Ok (Some (lit "resp_1"))) (fun _ => DocMalformed) None (plain_adapter v) ltac:(intros e err; discriminate) email_stream false
    (fresh_books true true) (fresh_delivery false tt)) as Hd.
  destruct (stream_rehydrated _ _ _ _ _ _ _ _ _ _ _ _) as [end_ s]. cbn [fst snd].
  destruct (each _ _ _) as [[[]|f] d'] eqn:Ed; [|vm_compute in Ed; discriminate Ed]. destruct Hd as (-> & -> & _). split; [reflexivity|].
  assert (sent d' = sent (@pair (result fault unit) _ (Ok tt) d').2) as -> by reflexivity. rewrite <- Ed. vm_compute. reflexivity.
Defined.

Lemma objects_reported_witness : asked (answering healthy_router email_stream).2.1 = [lit "to "; lit "bye"].
Proof.
  unfold answering. set (v := InMemoryVault.vault_of _). set (named_of := fun e : SSEEvent => _).
  pose proof (objects_reported (K := unit) (R := unit) (E := unit) v healthy_router named_of false (JList [JStr (lit "cited")])
    (fun _ => Ok (Some (lit "resp_1"))) (fun _ => DocMalformed) None (plain_adapter v) email_stream false true (fresh_delivery false tt)) as Hd.
  assert (Hend : (stream_rehydrated (R := unit) (E := unit) v healthy_router named_of false (JList [JStr (lit "cited")]) (fun _ => Ok (Some (lit "resp_1")))
    (fun _ => DocMalformed) None (plain_adapter v) email_stream false (fresh_books true true, fresh_delivery false tt)).1 = Ended) by (vm_compute; reflexivity).
  destruct (stream_rehydrated _ _ _ _ _ _ _ _ _ _ _ _) as [end_ s]. cbn [fst snd] in *. destruct Hd as [_ Hd].
  - intros e. subst named_of. cbn. destruct (data e) as [|c d]; [constructor|]. apply list.NoDup_cons. split; [|apply list.NoDup_singleton].
    intros Heq%list_elem_of_singleton. by destruct d as [|? [|? [|? ?]]].
  - rewrite Hd; [vm_compute; reflexivity|discriminate|intros e; subst named_of; cbn; destruct (data e); by eexists|reflexivity|reflexivity|exact Hend].
Defined.

Lemma unrewritten_lines_verbatim_witness :
  let nd := stream_rehydrated_ndjson (K := unit) (R := unit) (E := unit) InMemoryVault.empty failing_router (fun _ => DocTree JNull) None (fun l pl => (Ok l, pl))
    [[1; 2; 3; 10; 5]; [12; 13]] false (fresh_books false true, fresh_delivery false tt) in
  bytes_sent nd.2 = [1; 2; 3; 10; 5; 12; 13].
Proof.
  cbv zeta. exact (proj2 (unrewritten_lines_verbatim (K := unit) (R := unit) (E := unit) InMemoryVault.empty failing_router (fun _ => DocTree JNull)
    (fun l pl => (Ok l, pl)) [[1; 2; 3; 10; 5]; [12; 13]] (fresh_books false true) false tt (fun _ _ => eq_refl))).
Defined.

(** A frame whose payload the adapter restores, then a corrupt frame, then more bytes. *)
Definition payload_adapter (m : EventStreamMessage) (pl : Rehydrate.pool (K := unit)) : result unit (list EventStreamMessage) * Rehydrate.pool (K := unit) :=
  (Ok [mk_message (headers m) (lit "restored")], pl).

Definition frame_chunks : list pybytes :=
  let f := EventStream.frame [] (lit "token") in [take 5 f; drop 5 f ++ [1]; replicate 15 7; [1; 2]].

Definition frames_answered := stream_rehydrated_eventstream (K := unit) (R := unit) InMemoryVault.empty failing_router (fun _ => DocTree JNull) payload_adapter 1000
  frame_chunks false (fresh_books false true, fresh_delivery false tt).

Lemma eventstream_relayed_witness : frames_answered.1 = Ended /\
  concat (sent frames_answered.2.2) = EventStream.frame [] (lit "restored") ++ (1 :: replicate 15 7) ++ [1; 2].
Proof.
  assert (Hb : Forall is_bytes frame_chunks) by (apply chunks_forallb; vm_compute; reflexivity).
  pose proof (eventstream_relayed (K := unit) (R := unit) InMemoryVault.empty failing_router (fun _ => DocTree JNull) 1000 payload_adapter frame_chunks false
    (fresh_books false true) (fresh_delivery false tt) Hb) as H. fold frames_answered in H.
  assert (Ef : EventStream.feed_all 1000 [] frame_chunks =
    ([mk_message [] (lit "token")], Some (EventStreamError "implausible frame lengths"), 1 :: replicate 15 7, [[1; 2]])) by (vm_compute; reflexivity).
  rewrite Ef in H. destruct frames_answered as [end_ s].
  assert (Ee : each (deliver_frame payload_adapter) [mk_message [] (lit "token")] (fresh_delivery (K := unit) false tt) =
    (Ok tt, mk_delivery [EventStream.frame [] (lit "restored")] (mk_pool false [] ∅) tt)) by (vm_compute; reflexivity).
  rewrite Ee in H. destruct H as (_ & -> & H). split; [done|]. cbn [snd sent] in *. rewrite H. by rewrite !concat_cons, !app_nil_r.
Defined.
