(* ===== verification/StreamEcho.v ===== *)
(** * From the upstream's bytes to the client's

    For any adapter that keeps a channel's promise ([channel_step]) and writes what can be
    read back: the text a channel of an event stream carries reaches a client that parses
    the relayed bytes restored, however the upstream's bytes are cut. *)

From Stdlib Require Import List.
From S2P Require Import Prelude PyRegex Bytes Json JsonWalk JsonText Placeholders Vault Rehydrate Streaming Sse Channels.
From S2P Require Import Relay RelayFacts.

Local Open Scope mon_scope.

(** ** What a parser hands out, and what its bytes give *)
Lemma parsed_ok chunks dropped : forallb event_ok (events_of chunks dropped) = true.
Proof.
  unfold events_of. rewrite feed_all_lines by done. cbn [app SSEParser.init SSEParser.byte_buffer SSEParser.pending].
  destruct (cut_lines_no_lf (concat chunks)) as [Hls Hr]. destruct (cut_lines (concat chunks)) as [ls r]. cbn in Hls, Hr.
  assert (forallb line_ok (map SSEParser.decode_line ls) = true) as Hl.
  { apply forallb_forall. intros l (raw & <- & Hin)%in_map_iff. rewrite List.Forall_forall in Hls. by apply decode_line_ok, Hls. }
  destruct (run_lines_ok (map SSEParser.decode_line ls) None eq_refl Hl) as [Hes Hp].
  destruct (run_lines None (map SSEParser.decode_line ls)) as [es p]. cbn [fst snd] in Hes, Hp. destruct dropped; [done|].
  by destruct (close_ok (SSEParser.mk r p) es Hp Hr Hes) as [_ Hall].
Qed.

Definition blank (e : SSEEvent) : bool := match e with mk_event None [] None [] => true | _ => false end.

Lemma blank_spec e : blank e = true <-> e = blank_event.
Proof. destruct e as [[] [] [] []]; cbn; split; (done || by intros [=]). Qed.

Lemma feed_blank rest : SSEParser.feed SSEParser.init ([10; 10] ++ rest) = SSEParser.feed SSEParser.init rest.
Proof.
  rewrite !Sse.feed_lines. cbn [SSEParser.init SSEParser.byte_buffer SSEParser.pending app].
  pose proof (cut_lines_line [] (10 :: rest) eq_refl) as H1. pose proof (cut_lines_line [] rest eq_refl) as H2. cbn [app] in H1, H2. rewrite H1, H2. destruct (cut_lines rest) as [ls r]. cbn [fst snd map run_lines].
  change (SSEParser.decode_line []) with (@nil Z). cbn [SSEParser.on_line run_lines]. by destruct (run_lines None _).
Qed.

(** Serialized events read back, the blank ones (made of unknown fields only) apart. *)
Lemma written_read_back es : forallb event_ok es = true -> exists bs, Forall2 (fun e b => serialize e = Some b) es bs /\
  SSEParser.feed SSEParser.init (concat bs) = (List.filter (fun e => negb (blank e)) es, SSEParser.init).
Proof.
  induction es as [|e es IH]; [by exists []|]. cbn [forallb]. intros [He Hes]%andb_true_iff. destruct (IH Hes) as (bs & Hbs & Hf). cbn [List.filter].
  destruct (blank e) eqn:Eb; cbn [negb].
  - apply blank_spec in Eb as ->. exists ([10; 10] :: bs). split; [by constructor|]. cbn [concat]. by rewrite feed_blank.
  - assert (e <> blank_event) as Hne by (intros ->; done). destruct (serialize_lines e He Hne) as (bls & Hs & _).
    exists (uncut (bls ++ [[]], []) :: bs). split; [by constructor|]. cbn [concat]. rewrite (feed_serialized e) by done. by rewrite Hf.
Qed.

(** A parser's events of the bytes, whatever their chunks. *)
Lemma client_events es bs chunks : Forall2 (fun e b => serialize e = Some b) es bs -> forallb event_ok es = true -> concat chunks = concat bs ->
  events_of chunks false = List.filter (fun e => negb (blank e)) es.
Proof.
  intros Hbs Hok Hc. destruct (written_read_back es Hok) as (bs' & Hbs' & Hf). assert (bs' = bs) as ->.
  { clear -Hbs Hbs'. revert bs' Hbs'. induction Hbs as [|e b es bs He _ IH]; intros bs' Hbs'; inversion Hbs'; subst; [done|]. f_equal; [congruence|by apply IH]. }
  unfold events_of. rewrite feed_all_lines, <- Sse.feed_lines by done. rewrite Hc, Hf. cbn. by rewrite app_nil_r.
Qed.

(** ** A channel from end to end *)
Section Echo.
Context {V : Type} `{VaultLaws V} {K : Type} `{EqDecision K} {E : Type} (v : V).
Abbreviation pool := (Rehydrate.pool (K := K)).

(** What an adapter reads of an event, and what that says on the channel and ends. *)
Context {P : Type} (payload_of : SSEEvent -> option P) (psaid : P -> option pystr) (pends : P -> bool) (key : K).
Abbreviation item := (SSEEvent * option P)%type.
Definition item_said (it : item) : option pystr := it.2 ≫= psaid.
Definition item_ends (it : item) : bool := from_option pends false it.2.
Definition read (e : SSEEvent) : item := (e, payload_of e).
Definition event_said (e : SSEEvent) : option pystr := payload_of e ≫= psaid.

Context (rehydrate_event : SSEEvent -> pool -> result E (list SSEEvent) * pool) (step : item -> pool -> result E (list item) * pool) (wellformed : SSEEvent -> Prop).
Context (Hstep : channel_step v step key false item_said item_ends).
Context (Hevents : forall e pl, rehydrate_event e pl = (match (step (read e) pl).1 with Ok its => Ok (map fst its) | Raise x => Raise x end, (step (read e) pl).2)).
Context (Hreturns : forall e pl, wellformed e -> exists its pl', step (read e) pl = (Ok its, pl')).
Context (Hwritten : forall e pl its pl', event_ok e = true -> wellformed e -> step (read e) pl = (Ok its, pl') ->
  Forall (fun it => event_ok it.1 = true /\ event_said it.1 = join_surrogates <$> item_said it) its).
Context (Hblank : event_said blank_event = None).

Lemma stream_runs es : Forall wellformed es -> forall pl, exists its pl', run_stream step (map read es) pl = (Ok its, pl').
Proof.
  induction 1 as [|e es He _ IH]; intros pl; cbn [map run_stream]; [by eauto|]. destruct (Hreturns e pl He) as (its & pl1 & ->).
  destruct (IH pl1) as (more & pl2 & ->). by eauto.
Qed.

Lemma stream_written es : Forall wellformed es -> forallb event_ok es = true -> forall pl its pl', run_stream step (map read es) pl = (Ok its, pl') ->
  Forall (fun it => event_ok it.1 = true /\ event_said it.1 = join_surrogates <$> item_said it) its.
Proof.
  induction 1 as [|e es He _ IH]; intros Hok pl its pl'; cbn [map run_stream]; [by intros [= <- <-]|]. cbn in Hok. apply andb_true_iff in Hok as [Hoe Hok].
  destruct (step (read e) pl) as [[o|x] pl1] eqn:E1; [|done]. destruct (run_stream step (map read es) pl1) as [[more|x] pl2] eqn:E2; [|done]. intros [= <- <-].
  apply Forall_app. split; [by eapply Hwritten|by eapply IH].
Qed.

Lemma items_sent {R} (its : list item) bs (d : delivery K R) : Forall2 (fun e b => serialize e = Some b) (map fst its) bs ->
  each (send_event None) (map fst its) d = (Ok tt, mk_delivery (sent d ++ bs) (restoring d) (routed d)).
Proof.
  revert bs d. induction its as [|it its IH]; intros bs d Hbs; cbn [map] in *; inversion Hbs as [|? b ? bs' Hb Hbs']; subst; cbn [each].
  - rewrite app_nil_r. by destruct d.
  - unfold send_event at 1, hooked, mbnd. rewrite Hb. cbn [yield_bytes mmodify]. unfold mmodify. rewrite (IH bs') by done. cbn. by rewrite <- app_assoc.
Qed.

(** Delivering the events sends what the items are written as. *)
Lemma stream_delivered {R} es : forall (d : delivery K R) its pl' bs, run_stream step (map read es) (restoring d) = (Ok its, pl') ->
  Forall2 (fun e b => serialize e = Some b) (map fst its) bs ->
  each (deliver_event None rehydrate_event) es d = (Ok tt, mk_delivery (sent d ++ bs) pl' (routed d)).
Proof.
  induction es as [|e es IH]; intros d its pl' bs; cbn [map run_stream each].
  { intros [= <- <-] Hbs. inversion Hbs; subst. rewrite app_nil_r. by destruct d. }
  destruct (step (read e) (restoring d)) as [[o|x] pl1] eqn:E1; [|done]. destruct (run_stream step (map read es) pl1) as [[more|x] pl2] eqn:E2; [|done].
  intros [= <- <-]. rewrite map_app. intros (bs1 & bs2 & Hb1 & Hb2 & ->)%Forall2_app_inv_l.
  unfold deliver_event at 1, restored, mbnd. rewrite Hevents, E1. cbn [fst snd].
  rewrite (items_sent o bs1 (mk_delivery (sent d) pl1 (routed d)) Hb1). cbn [sent restoring routed]. rewrite (IH (mk_delivery (sent d ++ bs1) pl1 (routed d)) more pl2 bs2 E2 Hb2).
  cbn. by rewrite <- app_assoc.
Qed.

(** A payload of another channel says nothing. *)
Lemma silent_run es : Forall (fun e => event_said e = None /\ item_ends (read e) = false) es -> forall pl its pl', run_stream step (map read es) pl = (Ok its, pl') ->
  concat (says item_said its) = [].
Proof.
  induction 1 as [|e es [Hs Hn] _ IH]; intros pl its pl'; cbn [map run_stream]; [by intros [= <- <-]|].
  destruct (step (read e) pl) as [[o|x] pl1] eqn:E1; [|done]. destruct (run_stream step (map read es) pl1) as [[more|x] pl2] eqn:E2; [|done]. intros [= <- <-].
  destruct (Hstep _ _ _ _ E1) as [_ H1]. rewrite Hn in H1. change (item_said (read e)) with (event_said e) in H1. rewrite Hs in H1. destruct H1 as [H1 _].
  rewrite says_app, concat_app, H1. by eapply IH.
Qed.

(** What the client reads of the events written. *)
Lemma client_says (its : list item) text : Forall (fun it => event_ok it.1 = true /\ event_said it.1 = join_surrogates <$> item_said it) its ->
  concat (says item_said its) = text -> forallb char_ok text = true ->
  concat (omap event_said (List.filter (fun e => negb (blank e)) (map fst its))) = text.
Proof.
  revert text. induction its as [|it its IH]; intros text Hw Htext Hc; [done|]. apply list.Forall_cons_1 in Hw as [[_ Hi] Hw]. cbn [map List.filter].
  unfold says in *. cbn [omap list_omap] in Htext.
  assert (Htail : forall t, concat (omap item_said its) = t -> forallb char_ok t = true -> concat (omap event_said (if negb (blank it.1)
      then it.1 :: List.filter (fun e => negb (blank e)) (map fst its) else List.filter (fun e => negb (blank e)) (map fst its))) = default [] (event_said it.1) ++ t).
  { intros t Ht Hct. destruct (blank it.1) eqn:Eb; cbn [negb].
    - apply blank_spec in Eb. rewrite Eb, Hblank. cbn. by apply IH.
    - cbn [omap list_omap]. destruct (event_said it.1); cbn [concat default from_option]; unfold id; cbn [app]; by rewrite (IH t). }
  destruct (item_said it) as [t|]; cbn [fmap option_fmap option_map] in Hi.
  - cbn [concat] in Htext. subst text. rewrite forallb_app in Hc. apply andb_true_iff in Hc as [Ht Hc]. rewrite (Htail _ eq_refl Hc), Hi. cbn. by rewrite join_ok.
  - rewrite (Htail _ Htext Hc), Hi. done.
Qed.

Section Relay.
Context {R : Type} (router : session_router) (object_ids_from_event : SSEEvent -> option (list pystr)) (once : bool) (request_body : json)
  (response_id_from_event : SSEEvent -> result E (option pystr)) (loads_text : pystr -> document).
Context (Hid : forall e err, response_id_from_event e <> Raise err).

(** The whole way: the channel's text in the upstream's events is [text]; the client's
    parser, given the bytes sent in any chunks, reads what the channel makes of it. *)
Lemma relay_channel chunks b fuzzy (r : R) pre last post :
  events_of chunks false = pre ++ last :: post -> Forall wellformed (pre ++ last :: post) ->
  Forall (fun e => item_ends (read e) = false) pre -> item_ends (read last) = true ->
  Forall (fun e => event_said e = None /\ item_ends (read e) = false) post ->
  let text := (stream v (new_channel false fuzzy) ∅ (omap event_said pre)).1 in
  forallb char_ok text = true ->
  exists s', stream_rehydrated v router object_ids_from_event once request_body response_id_from_event loads_text None rehydrate_event chunks false (b, fresh_delivery fuzzy r) = (Ended, s') /\
    forall received, concat received = concat (sent s'.2) -> concat (omap event_said (events_of received false)) = text.
Proof.
  intros Hes Hwf Hpre Hlast Hpost text Hc. pose proof (parsed_ok chunks false) as Hok.
  pose proof (relay_delivers_all v router object_ids_from_event once request_body response_id_from_event loads_text None rehydrate_event Hid chunks false b (fresh_delivery fuzzy r)) as Hrel.
  rewrite Hes in *. destruct (stream_runs _ Hwf (mk_pool fuzzy [] ∅)) as (its & pl' & Hrun).
  pose proof (stream_written _ Hwf Hok _ _ _ Hrun) as Hw.
  assert (Hall : forallb event_ok (map fst its) = true).
  { apply forallb_forall. intros e (it & <- & Hin)%in_map_iff. rewrite list.Forall_forall in Hw. apply Hw. by apply list_elem_of_In. }
  destruct (written_read_back _ Hall) as (bs & Hbs & _).
  pose proof (stream_delivered _ (fresh_delivery fuzzy r) its pl' bs Hrun Hbs) as Hd. rewrite Hd in Hrel.
  destruct (stream_rehydrated _ _ _ _ _ _ _ _ _ _ _ _) as [end_ s']. destruct Hrel as (-> & Hsent & _). exists s'. split; [done|].
  intros received Hrec. rewrite Hsent in Hrec. cbn in Hrec. rewrite (client_events (map fst its) bs received Hbs Hall Hrec).
  apply client_says; [done| |done].
  assert (Hsplit : exists i1 pl1 i2, run_stream step (map read (pre ++ [last])) (mk_pool fuzzy [] ∅) = (Ok i1, pl1) /\ run_stream step (map read post) pl1 = (Ok i2, pl') /\ its = i1 ++ i2).
  { change (pre ++ last :: post) with (pre ++ [last] ++ post) in Hrun. rewrite app_assoc, map_app in Hrun. by apply run_stream_app. }
  destruct Hsplit as (i1 & pl1 & i2 & Hrun1 & Hrun2 & ->). rewrite says_app, concat_app, (silent_run _ Hpost _ _ _ Hrun2), app_nil_r. rewrite map_app in Hrun1.
  destruct (channel_life v step key false item_said item_ends Hstep (map read pre) (read last) (mk_pool fuzzy [] ∅) i1 pl1) as [-> _]; try done.
  - apply Forall_fmap. exact Hpre.
  - subst text. cbn [p_fuzzy]. f_equal. f_equal. unfold says. clear. induction pre as [|e pre IH]; [done|]. cbn [map omap list_omap]. unfold event_said at 1, item_said at 1. cbn [read snd]. by rewrite <- IH.
Qed.
End Relay.
End Echo.
