(* ===== verification/AnthropicEcho.v ===== *)
(** * The Anthropic stream, byte to byte

    The adapter's event rewriting, its JSON written and read back, under the relay: a
    redacted text a model repeats comes out of the client's parser as the original. *)

From Stdlib Require Import List.
From S2P Require Import Prelude PyRegex Bytes Json JsonWalk JsonText Placeholders Vault Rehydrate Streaming Sse.
From S2P Require Import Detection Redactor Winners Redaction RoundTrip Adapters AdapterFacts Channels Anthropic AnthropicFacts Relay RelayFacts StreamEcho.

Local Open Scope mon_scope.

Abbreviation payload_items := (list (pystr * json)).

(** ** An index spelled alike by every writer *)
Definition index_plain (payload : payload_items) : bool :=
  match index_of payload with JNum r => plain_integer r | _ => true end.

(** An object whose keys, and whose delta's keys, are distinct: what reading gives. *)
Definition tidy (payload : payload_items) : Prop :=
  NoDup (map fst payload) /\ forall delta, jget payload (lit "delta") = Some (JDict delta) -> NoDup (map fst delta).

Lemma loads_dict raw items : loads raw = JDict items -> exists l, items = py_dict (map (fun kv => (kv.1, loads kv.2)) l).
Proof. destruct raw as [| | | |l|l]; cbn; try done. intros [= <-]. by exists l. Qed.

Lemma read_tidy d payload : loads_bounded d = Ok (JDict payload) -> tidy payload /\ (jdepth (JDict payload) <= MAX_JSON_DEPTH)%nat.
Proof.
  unfold loads_bounded. destruct d as [raw| |]; try done. cbv zeta. destruct (too_deep (loads raw)) eqn:Ed; [done|]. intros [= Hl]. rewrite Hl in Ed.
  split; [|by apply too_deep_spec]. apply loads_dict in Hl as (l & ->). split; [apply py_dict_nodup|].
  intros delta Hd%jget_elem%py_dict_values. apply list_elem_of_fmap in Hd as ([k x] & [= _ Hx] & _). symmetry in Hx. apply loads_dict in Hx as (l' & ->). apply py_dict_nodup.
Qed.

Lemma jset_tidy_delta payload delta f x : tidy payload -> jget payload (lit "delta") = Some (JDict delta) -> tidy (jset payload (lit "delta") (JDict (jset delta f x))).
Proof.
  intros [H1 H2] Hd. split; [by apply dict_set_nodup|]. intros delta'. unfold jset. rewrite jget_eq. intros [= <-]. apply dict_set_nodup. by apply H2.
Qed.

Lemma jset_depth payload k v n : (jdepth (JDict payload) <= S n)%nat -> (jdepth v <= n)%nat -> (jdepth (JDict (jset payload k v)) <= S n)%nat.
Proof.
  intros Hp Hv. apply dict_depth. intros k' x [Hx|[= -> ->]]%dict_set_values; [|done]. apply item_depth in Hx. lia.
Qed.

Section ReadBack.
Context `{JsonLibLaws} (kind : channel_kind) (n m : Z).
Abbreviation key := (HNum n m).
Abbreviation psaid := (block_said kind key).

Lemma jstr_reread p q k : jget q k = reread number <$> jget p k -> jstr q k = join_surrogates <$> jstr p k.
Proof. unfold jstr. intros ->. destruct (jget p k) as [v|]; [|done]. by destruct v. Qed.

Lemma jstr_test (o : option pystr) c : forallb plain_char c = true -> bool_decide (join_surrogates <$> o = Some c) = bool_decide (o = Some c).
Proof.
  intros Hc. apply bool_decide_ext. destruct o as [s|]; cbn; [|done]. split; intros [= E]; f_equal; by apply join_eq_plain.
Qed.

Lemma join_test s c : forallb plain_char c = true -> bool_decide (join_surrogates s = c) = bool_decide (s = c).
Proof. intros Hc. apply bool_decide_ext. by apply join_eq_plain. Qed.

Lemma delta_shape_join ty : delta_shape (join_surrogates ty) = delta_shape ty.
Proof.
  unfold delta_shape. by rewrite !join_test.
Qed.

Lemma index_reread p q : index_plain p = true -> jget q (lit "index") = reread number <$> jget p (lit "index") ->
  bool_decide (hash_key (index_of q) = Some key) = bool_decide (hash_key (index_of p) = Some key).
Proof.
  unfold index_plain, index_of. intros Hp ->. destruct (jget p (lit "index")) as [v|]; [|done]. cbn in *. unfold id in *. destruct v as [|b|r|s|l|l]; cbn in *; try done.
  by rewrite number_plain.
Qed.

(** A payload read back says what it said. *)
Lemma said_reread p : tidy p -> index_plain p = true -> exists q, reread number (JDict p) = JDict q /\ psaid q = join_surrogates <$> psaid p.
Proof.
  intros [Hn Hd] Hi. destruct (jget_reread number p (lit "type") Hn eq_refl) as (q & Hq & Ht). exists q. split; [done|].
  destruct (jget_reread number p (lit "index") Hn eq_refl) as (q' & Hq' & Hx). rewrite Hq in Hq'. injection Hq' as <-.
  destruct (jget_reread number p (lit "delta") Hn eq_refl) as (q' & Hq' & Hdelta). rewrite Hq in Hq'. injection Hq' as <-.
  unfold block_said. rewrite (jstr_reread _ _ _ Ht), (index_reread p q Hi Hx), jstr_test by done.
  destruct (_ && _); [|done]. rewrite Hdelta. destruct (jget p (lit "delta")) as [dv|]; [|done]. destruct dv as [| | | | |delta]; try done.
  specialize (Hd delta eq_refl). cbn [fmap option_fmap option_map]. destruct (jget_reread number delta (lit "type") Hd eq_refl) as (e & He & Hty).
  rewrite He. rewrite (jstr_reread _ _ _ Hty). destruct (jstr delta (lit "type")) as [ty|]; [|done]. cbn [fmap option_fmap option_map mbind option_bind].
  rewrite delta_shape_join. destruct (delta_shape ty) as [[[k j] f]|] eqn:Es; [|done]. apply delta_shape_kind in Es as [_ ->]. case_bool_decide; [|done].
  destruct (jget_reread number delta (field_of k) Hd) as (e' & He' & Hf); [by destruct k|]. rewrite He in He'. injection He' as <-. rewrite Hf.
  destruct (jget delta (field_of k)) as [x|]; [|done]. by destruct x.
Qed.

Lemma type_reread p c : tidy p -> forallb plain_char c = true -> jstr p (lit "type") = Some c -> c <> lit "content_block_delta" ->
  exists q, reread number (JDict p) = JDict q /\ psaid q = None.
Proof.
  intros [Hn _] Hc Ht Hne. destruct (jget_reread number p (lit "type") Hn eq_refl) as (q & Hq & Hty). exists q. split; [done|].
  unfold block_said. rewrite (jstr_reread _ _ _ Hty), Ht. cbn [fmap option_fmap option_map]. rewrite join_surrogates_plain by done. rewrite bool_decide_eq_false_2; [done|]. by intros [=].
Qed.

(** ** Events *)
Definition skipped (name : option pystr) : bool := match name with Some name => bool_decide (name ∈ PASSTHROUGH_EVENTS) | None => false end.
Definition passed_on (e : SSEEvent) : bool := skipped (event e) || bool_decide (data e = []).

Definition payload_of (e : SSEEvent) : option payload_items :=
  if passed_on e then None else match loads_bounded (loads_text (data e)) with Ok (JDict p) => Some p | _ => None end.

Lemma payload_tidy e p : payload_of e = Some p -> tidy p /\ (jdepth (JDict p) <= MAX_JSON_DEPTH)%nat.
Proof. unfold payload_of. destruct (passed_on e); [done|]. destruct (loads_bounded _) as [[]|] eqn:El; try done. intros [= <-]. by apply read_tidy in El. Qed.

Lemma written_payload name text i cs p : text = json_text encode (JDict p) -> skipped name = false -> (jdepth (JDict p) <= MAX_JSON_DEPTH)%nat ->
  payload_of (mk_event name text i cs) = match reread number (JDict p) with JDict q => Some q | _ => None end.
Proof.
  intros -> He Hd. unfold payload_of, passed_on. cbn [event data]. rewrite He, (bool_decide_eq_false_2 (json_text encode (JDict p) = [])) by apply text_some.
  cbn [orb]. rewrite scans_back by by apply too_deep_spec. unfold loads_bounded. fold (reread number (JDict p)). cbv zeta.
  assert (too_deep (reread number (JDict p)) = false) as ->; [|done]. apply too_deep_spec. etrans; [apply reread_depth|done].
Qed.

Lemma not_skipped e p : payload_of e = Some p -> skipped (event e) = false.
Proof. unfold payload_of, passed_on. by destruct (skipped (event e)). Qed.
End ReadBack.

(** ** The adapter's step, with the payloads it writes *)
Section Adapter.
Context {V : Type} `{VaultLaws V} `{JsonLibLaws} (v : V) (kind : channel_kind) (n m : Z).
Abbreviation key := (HNum n m).
Abbreviation psaid := (block_said kind key).
Abbreviation pool := (Rehydrate.pool (K := channel_key)).
Abbreviation item := (SSEEvent * option payload_items)%type.
Abbreviation dumps := (json_text encode).

Definition written (payload : payload_items) (i : out_item) : payload_items := match i with Unchanged => payload | Rewritten p => p end.

Definition items_step (e : SSEEvent) (payload : payload_items) (pl : pool) : result event_error (list item) * pool :=
  match rehydrate_messages_payload v payload pl with
  | (Ok (Some items), pl) => (Ok (map (fun i => (event_of dumps e payload i, Some (written payload i))) items), pl)
  | (Ok None, pl) => (Ok [(e, Some payload)], pl)
  | (Raise err, pl) => (Raise err, pl)
  end.

Definition step (it : item) (pl : pool) : result event_error (list item) * pool :=
  match it.2 with
  | None => (Ok [it], pl)
  | Some payload =>
      match jstr payload (lit "type"), jstr payload (lit "completion") with
      | Some ty, Some completion =>
          if bool_decide (ty = lit "completion") then let '(es, pl) := legacy_event v dumps it.1 payload completion pl in (Ok (map (fun e => (e, None)) es), pl)
          else items_step it.1 payload pl
      | _, _ => items_step it.1 payload pl
      end
  end.

Lemma step_events e pl : rehydrate_event v loads_text dumps e pl =
  (match (step (read payload_of e) pl).1 with Ok its => Ok (map fst its) | Raise x => Raise x end, (step (read payload_of e) pl).2).
Proof.
  assert (Hitems : forall payload, rewritten v dumps e payload pl =
    (match (items_step e payload pl).1 with Ok its => Ok (map fst its) | Raise x => Raise x end, (items_step e payload pl).2)).
  { intros payload. unfold rewritten, items_step. destruct (rehydrate_messages_payload v payload pl) as [[[items|]|err] pl']; try done. cbn. by rewrite map_map. }
  unfold rehydrate_event, step, read, payload_of. cbn [fst snd]. fold (skipped (event e)). fold (passed_on e). destruct (passed_on e); [done|].
  destruct (loads_bounded (loads_text (data e))) as [[| | | | |payload]|]; try done.
  destruct (jstr payload (lit "type")) as [ty|]; [|done]. destruct (jstr payload (lit "completion")) as [completion|]; [|done].
  case_bool_decide; [|done]. destruct (legacy_event v dumps e payload completion pl) as [es pl']. cbn. by rewrite map_map, map_id.
Qed.

(** The legacy completion's channel is another. *)
Lemma legacy_other e payload completion pl : let r := legacy_event v dumps e payload completion pl in
  p_fuzzy r.2 = p_fuzzy pl /\ pool_find (Block kind key) r.2 = pool_find (Block kind key) pl.
Proof.
  unfold legacy_event. pose proof (pool_feed_spec v LegacyCompletion false completion pl) as (_ & Hf1 & Hp1).
  destruct (pool_feed v LegacyCompletion false completion pl) as [t1 pl1]. cbn [fst snd] in *. destruct (truthy _).
  - pose proof (pool_flush_spec v LegacyCompletion pl1) as (_ & Hf2 & Hp2). destruct (pool_flush v LegacyCompletion pl1) as [t2 pl2]. cbn in *.
    by rewrite Hf2, Hp2, Hf1, Hp1, !decide_False.
  - cbn. by rewrite Hf1, Hp1, decide_False.
Qed.

Lemma completion_silent payload : jstr payload (lit "type") = Some (lit "completion") -> psaid payload = None /\ block_ends key payload = false.
Proof. intros Ht. unfold block_said, block_ends. by rewrite Ht. Qed.

Lemma step_channel : channel_step v step (Block kind key) (is_source kind) (item_said psaid) (item_ends (block_ends key)).
Proof.
  assert (Hitems : forall e payload pl outs pl', items_step e payload pl = (Ok outs, pl') -> exists pouts, step_payload v payload pl = (Ok pouts, pl') /\
    concat (says (item_said psaid) outs) = concat (says psaid pouts)).
  { intros e payload pl outs pl'. unfold items_step, step_payload. destruct (rehydrate_messages_payload v payload pl) as [[[items|]|err] pl1]; [| |done]; intros [= <- <-].
    - eexists. split; [done|]. f_equal. unfold says. induction items as [|i items IH]; [done|]. cbn [map omap list_omap item_said snd mbind option_bind]. rewrite IH. by destruct i.
    - eexists. split; [done|]. done. }
  intros [e [payload|]] pl outs pl'; unfold step; cbn [fst snd].
  2:{ intros [= <- <-]. cbn. done. }
  assert (Hpay : items_step e payload pl = (Ok outs, pl') -> p_fuzzy pl' = p_fuzzy pl /\
    (if block_ends key payload then concat (says (item_said psaid) outs) = match pool_find (Block kind key) pl with Some ch => flush_text v ch | None => [] end /\ pool_find (Block kind key) pl' = None
     else match psaid payload with
          | Some t => concat (says (item_said psaid) outs) = (feed_text v (channel_at (Block kind key) (is_source kind) pl) t).1 /\
                      pool_find (Block kind key) pl' = Some (feed_text v (channel_at (Block kind key) (is_source kind) pl) t).2
          | None => concat (says (item_said psaid) outs) = [] /\ pool_find (Block kind key) pl' = pool_find (Block kind key) pl
          end)).
  { intros Hs. destruct (Hitems _ _ _ _ _ Hs) as (pouts & Hp & ->). by apply (block_channel v kind key). }
  destruct (jstr payload (lit "type")) as [ty|] eqn:Et; [|exact Hpay]. destruct (jstr payload (lit "completion")) as [completion|]; [|exact Hpay].
  case_bool_decide as Ec; [|exact Hpay]. subst. destruct (completion_silent payload Et) as [Hs He].
  pose proof (legacy_other e payload completion pl) as [Hf Hp]. destruct (legacy_event v dumps e payload completion pl) as [es pl1]. cbn [snd] in *. intros [= <- <-].
  cbn [item_ends item_said snd from_option mbind option_bind]. rewrite Hs, He. split; [done|]. split; [|done].
  clear Hpay. unfold says. induction es as [|e' es IH]; [done|]. exact IH.
Qed.

(** ** What it writes reads back *)
Definition wellformed (e : SSEEvent) : Prop := forall p, payload_of e = Some p -> AnthropicFacts.event_ok p = true /\ index_plain p = true.

Lemma step_well e pl : wellformed e -> exists its pl', step (read payload_of e) pl = (Ok its, pl').
Proof.
  unfold wellformed, step, read. cbn [fst snd]. destruct (payload_of e) as [payload|]; [|by eauto]. intros Hw. destruct (Hw payload eq_refl) as [Hok _].
  assert (Hi : exists its pl', items_step e payload pl = (Ok its, pl')).
  { destruct (step_returns v payload pl Hok) as (outs & pl' & Hs). unfold step_payload in Hs. unfold items_step. destruct (rehydrate_messages_payload v payload pl) as [[[items|]|err] pl1]; by eauto. }
  destruct (jstr payload (lit "type")) as [ty|]; [|done]. destruct (jstr payload (lit "completion")); [|done]. case_bool_decide; [|done]. destruct (legacy_event _ _ _ _ _ _). by eauto.
Qed.

(** A payload whose text reads back as itself. *)
Definition writable (p : payload_items) : Prop := tidy p /\ (jdepth (JDict p) <= MAX_JSON_DEPTH)%nat /\ index_plain p = true.

Lemma event_ok_text name text i cs cs0 d0 : Sse.event_ok (mk_event name d0 i cs0) = true -> forallb (fun c => line_ok c && negb (starts_with [32] c)) cs = true -> line_ok text = true ->
  Sse.event_ok (mk_event name text i cs) = true.
Proof.
  unfold Sse.event_ok. cbn [event data ev_id comments]. rewrite !andb_true_iff. intros [[[_ Hn] Hi] _] Hc Ht. split_and!; try done.
  unfold data_ok. assert (mem_char 10 text = false) as Hm by (by apply line_ok_spec in Ht as (_ & ? & _)). rewrite split_char_no by done. cbn. rewrite Ht. cbn.
  destruct text as [|c t]; [done|]. cbn. rewrite mem_char_cons in Hm. apply orb_false_iff in Hm as [-> _]. done.
Qed.

Lemma written_said name i cs p : skipped name = false -> writable p ->
  event_said payload_of psaid (mk_event name (dumps (JDict p)) i cs) = join_surrogates <$> psaid p.
Proof.
  intros Hs (Ht & Hd & Hi). unfold event_said. rewrite (written_payload name _ i cs p eq_refl Hs Hd). destruct (said_reread kind n m p Ht Hi) as (q & -> & Hq). exact Hq.
Qed.

Lemma event_of_ok e payload i : Sse.event_ok e = true -> payload_of e = Some payload ->
  match i with Unchanged => psaid payload = None | Rewritten p => writable p end ->
  Sse.event_ok (event_of dumps e payload i) = true /\ event_said payload_of psaid (event_of dumps e payload i) = join_surrogates <$> psaid (written payload i).
Proof.
  intros Hok Hp. destruct i as [|p]; cbn [event_of written].
  - intros Hs. split; [done|]. unfold event_said. rewrite Hp. cbn. by rewrite Hs.
  - intros Hw. case_bool_decide; unfold with_data.
    + split; [|apply written_said; [by eapply not_skipped|done]]. destruct e as [nm d i cs]. eapply event_ok_text; [exact Hok| |apply text_line].
      unfold Sse.event_ok in Hok. cbn [comments] in *. rewrite !andb_true_iff in Hok. tauto.
    + split; [|apply written_said; [vm_compute; reflexivity|done]]. apply (event_ok_text _ _ None [] [] []); [vm_compute; reflexivity|reflexivity|apply text_line].
Qed.
Lemma hash_scalar x k : hash_key x = Some k -> jdepth x = 0%nat.
Proof. by destruct x. Qed.

Lemma flush_delta_writable payload ty field text k : index_plain payload = true -> hash_key (index_of payload) = Some k -> field <> lit "type" ->
  writable (flush_delta (index_of payload) ty field text).
Proof.
  intros Hi Hk Hf. split_and!.
  - split; [apply (bool_decide_unpack _); by vm_compute|]. intros delta [= <-]. cbn. apply list.NoDup_cons. split; [intros Heq%list_elem_of_singleton; by apply Hf|apply list.NoDup_singleton].
  - apply hash_scalar in Hk. unfold flush_delta, MAX_JSON_DEPTH. apply (dict_depth _ 127). intros k' x Hx. repeat (apply elem_of_cons in Hx as [[= -> ->]|Hx]); try (by apply not_elem_of_nil in Hx).
    + cbn. lia.
    + lia.
    + cbn. lia.
  - exact Hi.
Qed.

Lemma flush_block_writable payload k shape st : index_plain payload = true -> hash_key (index_of payload) = Some k -> shape.2 <> lit "type" ->
  Forall writable st.1 -> Forall writable (flush_block v (index_of payload) k shape st).1.
Proof.
  intros Hi Hk Hs Hw. unfold flush_block. destruct shape as [[ty kd] field]. destruct (pool_flush v (Block kd k) st.2) as [[|c left] pl]; [done|].
  apply Forall_app. split; [done|]. constructor; [by eapply flush_delta_writable|constructor].
Qed.

Lemma rewritten_writable payload pl items pl' : writable payload -> rehydrate_messages_payload v payload pl = (Ok (Some items), pl') ->
  Forall (fun i => match i with Unchanged => psaid payload = None | Rewritten p => writable p end) items.
Proof.
  intros (Ht & Hd & Hi). unfold rehydrate_messages_payload. destruct (jstr payload (lit "type")) as [ty|] eqn:Ety; [|done].
  case_bool_decide as Hty; [subst|].
  - destruct (default _ (jget payload (lit "delta"))) as [| | | | |delta] eqn:Eg; try done. destruct (jstr delta (lit "type") ≫= delta_shape) as [[[kd j] f]|] eqn:Es; [|done].
    destruct (hash_key (index_of payload)) as [k|] eqn:Ek; [|done]. destruct (default (JStr []) (jget delta f)) as [| | |text| |] eqn:Ex; try done.
    destruct (pool_feed v (Block kd k) j text pl) as [out pl1]. intros [= <- <-].
    assert (Edelta : jget payload (lit "delta") = Some (JDict delta)).
    { destruct (jget payload (lit "delta")); cbn in Eg; [by subst|]. injection Eg as <-. done. }
    constructor; [|constructor]. split_and!.
    + by apply jset_tidy_delta.
    + unfold MAX_JSON_DEPTH in *. apply jset_depth; [done|]. pose proof (item_depth _ _ _ (jget_elem _ _ _ Edelta)) as Hx.
      apply (jset_depth _ _ _ 126); [lia|]. cbn. lia.
    + unfold index_plain, index_of, jset in *. by rewrite jget_ne.
  - case_bool_decide as Hstop; [subst|done]. destruct (hash_key (index_of payload)) as [k|] eqn:Ek; [|done].
    assert (Hall : Forall writable (fold_left (fun st shape => flush_block v (index_of payload) k shape st) channel_shapes ([], pl)).1).
    { unfold channel_shapes. cbn [fold_left]. repeat (apply flush_block_writable; [done|done|done|]). constructor. }
    destruct (fold_left _ channel_shapes _) as [syn pl1]. cbn [fst] in Hall. intros [= <- <-]. apply Forall_app. split.
    + by apply Forall_fmap.
    + constructor; [|constructor]. unfold block_said. by rewrite Ety.
Qed.


Lemma not_rewritten_silent payload pl pl' : rehydrate_messages_payload v payload pl = (Ok None, pl') -> psaid payload = None.
Proof.
  unfold rehydrate_messages_payload, block_said. destruct (jstr payload (lit "type")) as [ty|] eqn:Ety; [|done].
  case_bool_decide as Hty; [subst|intros _; rewrite bool_decide_eq_false_2; [done|by intros [= ->]]].
  destruct (jget payload (lit "delta")) as [dv|]; cbn [default from_option]; unfold id; [|by destruct (_ && _)].
  destruct dv as [| | | | |delta]; try done. destruct (jstr delta (lit "type") ≫= delta_shape) as [[[kd j] f]|]; [|by destruct (_ && _)].
  destruct (hash_key (index_of payload)); [|done]. destruct (from_option _ (JStr []) (jget delta f)); try done. by destruct (pool_feed _ _ _ _ _).
Qed.

Lemma step_written e pl its pl' : Sse.event_ok e = true -> wellformed e -> step (read payload_of e) pl = (Ok its, pl') ->
  Forall (fun it => Sse.event_ok it.1 = true /\ event_said payload_of psaid it.1 = join_surrogates <$> item_said psaid it) its.
Proof.
  intros Hok Hw. unfold step, read. cbn [fst snd]. destruct (payload_of e) as [payload|] eqn:Ep.
  2:{ intros [= <- <-]. constructor; [|constructor]. split; [done|]. unfold event_said. cbn. by rewrite Ep. }
  destruct (Hw payload Ep) as [_ Hi]. destruct (payload_tidy e payload Ep) as [Ht Hd].
  assert (Hitems : items_step e payload pl = (Ok its, pl') -> Forall (fun it => Sse.event_ok it.1 = true /\ event_said payload_of psaid it.1 = join_surrogates <$> item_said psaid it) its).
  { unfold items_step. destruct (rehydrate_messages_payload v payload pl) as [[[items|]|err] pl1] eqn:Er; [| |done]; intros [= <- <-].
    - apply rewritten_writable in Er; [|done]. apply Forall_fmap. eapply list.Forall_impl; [exact Er|]. intros i Hi'. by apply event_of_ok.
    - constructor; [|constructor]. split; [done|]. unfold event_said. cbn. rewrite Ep. cbn. by rewrite (not_rewritten_silent _ _ _ Er). }
  destruct (jstr payload (lit "type")) as [ty|] eqn:Ety; [|exact Hitems]. destruct (jstr payload (lit "completion")) as [completion|]; [|exact Hitems].
  case_bool_decide as Ec; [|exact Hitems]. subst ty. destruct (legacy_event v dumps e payload completion pl) as [es pl1] eqn:El. intros [= <- <-].
  unfold legacy_event in El. destruct (pool_feed v LegacyCompletion false completion pl) as [t1 pl2]. destruct (if truthy _ then _ else _) as [t2 pl3]. injection El as <- <-.
  cbn [map]. constructor; [|constructor]. cbn [fst item_said snd mbind option_bind fmap option_fmap option_map].
  case_bool_decide; [split; [done|]; unfold event_said; rewrite Ep; exact (proj1 (completion_silent payload Ety))|]. unfold with_data. split.
  - destruct e as [nm d i cs]. eapply event_ok_text; [exact Hok| |apply text_line]. unfold Sse.event_ok in Hok. cbn [comments] in *. rewrite !andb_true_iff in Hok. tauto.
  - unfold event_said. rewrite (written_payload _ _ _ _ _ eq_refl (not_skipped e payload Ep)).
    2:{ unfold MAX_JSON_DEPTH in *. apply jset_depth; [done|]. cbn. lia. }
    destruct (type_reread kind n m (jset payload (lit "completion") (JStr (t1 ++ t2))) (lit "completion")) as (q & -> & Hq); try done.
    + destruct Ht as [Hkeys Hdelta]. split; [by apply dict_set_nodup|]. intros delta. unfold jset. rewrite jget_ne by done. apply Hdelta.
    + unfold jstr, jset in *. by rewrite jget_ne.
Qed.

(** C9: a redacted text that a model's answer repeats in the deltas of one text or thinking
    block (not a tool call's input, which is JSON source) reaches the client as the
    original text, where that carries no opening guillemet: from the upstream's bytes, cut
    in any chunks, to the bytes relayed, parsed by the client in any chunks and read as
    JSON -- whatever other well-formed events and blocks the stream carries up to the
    block's end and after it, whatever the session router and the tracker do while the
    response id can be read, and however the vault has grown.  The request is unrouted: no
    hook observes its events, and the transport does not drop. *)
Theorem echoed_stream_restored {O} `{OverrideOps O} {R} rd original (s : rstate V O) redacted s' router object_ids_from_event once request_body
    (response_id_from_event : SSEEvent -> result event_error (option pystr)) chunks b fuzzy (r : R) pre last post :
  detector_ok rd -> vinv (vault s) -> mem_char LAQUO original = false -> forallb char_ok original = true ->
  redact_text rd original s = (Ok redacted, s') -> extends (vault s') v -> kind <> KTool ->
  (forall e err, response_id_from_event e <> Raise err) ->
  events_of chunks false = pre ++ last :: post -> Forall wellformed (pre ++ last :: post) ->
  Forall (fun e => item_ends (block_ends key) (read payload_of e) = false) pre -> item_ends (block_ends key) (read payload_of last) = true ->
  Forall (fun e => event_said payload_of psaid e = None /\ item_ends (block_ends key) (read payload_of e) = false) post ->
  concat (omap (event_said payload_of psaid) pre) = redacted ->
  exists st, stream_rehydrated v router object_ids_from_event once request_body response_id_from_event loads_text None (rehydrate_event v loads_text dumps)
      chunks false (b, fresh_delivery fuzzy r) = (Ended, st) /\
    forall received, concat received = concat (sent st.2) -> concat (omap (event_said payload_of psaid) (events_of received false)) = original.
Proof.
  intros Hdk Hv Hp Hc Hred Hext Hkind Hid Hes Hwf Hpre Hlast Hpost Htext.
  destruct (redacted_restores rd fuzzy original s redacted s' v Hdk Hv Hp Hred Hext) as [Hsafe Hr].
  assert (Hout : (stream v (new_channel false fuzzy) ∅ (omap (event_said payload_of psaid) pre)).1 = original) by (rewrite stream_pieces, Htext by (by rewrite Htext); apply Hr).
  assert (Hstep : channel_step v step (Block kind key) false (item_said psaid) (item_ends (block_ends key))).
  { replace false with (is_source kind) by by destruct kind. apply step_channel. }
  destruct (relay_channel v payload_of psaid (block_ends key) (Block kind key) (rehydrate_event v loads_text dumps) step wellformed Hstep step_events
    step_well step_written eq_refl router object_ids_from_event once request_body response_id_from_event loads_text Hid chunks b fuzzy r pre last post Hes Hwf Hpre Hlast Hpost)
    as (st & Hrun & Hread); [by rewrite Hout|]. exists st. split; [done|]. intros received Hrec. by rewrite (Hread received Hrec).
Qed.
End Adapter.

(** *** An answer that repeats a redacted message, its bytes in two chunks, a session
    router that raises at every call *)
#[local] Existing Instance enumerated_json.
#[local] Existing Instance enumerated_laws.

Definition wire_event (name : string) (payload : payload_items) : SSEEvent := mk_event (Some (lit name)) (json_text encode (JDict payload)) None [].
Definition demo_events : list SSEEvent :=
  wire_event "message_start" [(lit "type", JStr (lit "message_start"))] :: map (wire_event "content_block_delta") demo_echo.
Definition demo_last : SSEEvent := wire_event "content_block_stop" (demo_stop "3").
Definition demo_post : list SSEEvent := [wire_event "message_stop" [(lit "type", JStr (lit "message_stop"))]].
Definition demo_bytes : pybytes := concat (omap serialize (demo_events ++ demo_last :: demo_post)).
Definition demo_chunks : list pybytes := [take 700 demo_bytes; drop 700 demo_bytes].
Definition raising_router : session_router := mk_router false true (fun _ _ => CallRaised).
Definition demo_final := vault (redact_text demo_redactor demo_text demo_state).2.

Lemma echoed_stream_restored_witness :
  let said := event_said payload_of (block_said KThinking (HNum 3 0)) in
  exists st, stream_rehydrated demo_final raising_router (fun _ => None) false JNull (fun _ => Ok None) loads_text None (rehydrate_event demo_final loads_text (json_text encode))
      demo_chunks false (fresh_books true true, fresh_delivery false tt) = (Ended, st) /\
    concat (omap said (events_of (sent st.2) false)) = demo_text.
Proof.
  destruct (echoed_stream_restored demo_final KThinking 3 0 demo_redactor demo_text demo_state demo_redacted (redact_text demo_redactor demo_text demo_state).2
    raising_router (fun _ => None) false JNull (fun _ => Ok None) demo_chunks (fresh_books true true) false tt demo_events demo_last demo_post) as (st & Hrun & Hread).
  - apply demo_redactor_ok.
  - apply InMemoryVault.empty_inv.
  - vm_compute. reflexivity.
  - vm_compute. reflexivity.
  - vm_compute. reflexivity.
  - intros t o Ho. exact Ho.
  - discriminate.
  - discriminate.
  - vm_compute. reflexivity.
  - repeat (constructor; [intros p Hp; vm_compute in Hp; (discriminate Hp || (injection Hp as <-; split; vm_compute; reflexivity))|]). constructor.
  - repeat (constructor; [vm_compute; reflexivity|]). constructor.
  - vm_compute. reflexivity.
  - repeat (constructor; [split; vm_compute; reflexivity|]). constructor.
  - vm_compute. reflexivity.
  - exists st. split; [exact Hrun|]. exact (Hread (sent st.2) eq_refl).
Defined.
