(* ===== verification/Listing.v ===== *)
(** * Listings of stored objects -- src/llm_redact/proxy.py, [_restore_listing]

    An answer that lists stored objects is restored item by item, each in the session its
    owner's router names, checked against the durable map.  The router, the vault manager
    and an adapter's restoring of one body are parameters; a plugin's call that raises is
    None. *)

From S2P Require Import Prelude Json JsonWalk Adapters Anthropic.

(** ** Where the adapters' listings hold their items *)

(** The key whose array [listing_items] returns: [AnthropicAdapter], [OpenAIAdapter],
    [GeminiAdapter]. *)
Definition array_at (items : list (pystr * json)) (key : pystr) : option pystr :=
  match jget items key with Some (JList _) => Some key | _ => None end.

Definition anthropic_listing (items : list (pystr * json)) : option pystr := array_at items (lit "data").

Definition openai_listing (items : list (pystr * json)) : option pystr :=
  if bool_decide (jget items (lit "object") = Some (JStr (lit "list"))) then array_at items (lit "data") else None.

Definition gemini_listing (items : list (pystr * json)) : option pystr :=
  match array_at items (lit "operations") with Some key => Some key | None => array_at items (lit "files") end.

(** [listing_item_id]: of the base class, of Gemini. *)
Definition text_at (key : pystr) (item : json) : option pystr :=
  match item with JDict items => jstr items key | _ => None end.
Definition listing_item_id : json -> option pystr := text_at (lit "id").
Definition gemini_item_id : json -> option pystr := text_at (lit "name").

(** [a == b] of values: scalars as dict keys compare them (1, 1.0 and true are equal),
    objects whatever their keys' order. *)
Fixpoint py_eq (a b : json) {struct a} : bool :=
  match a, b with
  | JList l, JList l' =>
      (fix go (l l' : list json) {struct l} : bool :=
         match l, l' with [], [] => true | x :: l, y :: l' => py_eq x y && go l l' | _, _ => false end) l l'
  | JDict l, JDict l' =>
      (length l =? length l')%nat && forallb (fun kv => match jget l' kv.1 with Some y => py_eq kv.2 y | None => false end) l
  | JList _, _ | JDict _, _ | _, JList _ | _, JDict _ => false
  | _, _ => bool_decide (hash_key a = hash_key b)
  end.

Section Listing.
Context {C S E : Type}.

(** An adapter's listing; [restore_item]: [rehydrate_body] with a session's rehydrator,
    which counts what it restores. *)
Record lister : Type := mk_lister {
  listing_key : list (pystr * json) -> option pystr;
  item_id : json -> option pystr;
  restore_item : S -> json -> C -> result E json * C
}.

Definition listing_items (l : lister) (body : json) : option (list json) :=
  match body with
  | JDict items => key ← listing_key l items; match jget items key with Some (JList found) => Some found | _ => None end
  | _ => None
  end.

(** The body with other items in its array. *)
Definition with_items (l : lister) (body : json) (found : list json) : json :=
  match body with
  | JDict items => match listing_key l items with Some key => JDict (jset items key (JList found)) | None => body end
  | _ => body
  end.

(** The session router's and the vault manager's part.  A session named is a string;
    anything else names none.  [existing]: [_existing_session_rehydrator], which may raise
    (None), or answer no rehydrator. *)
Record listing_state : Type := mk_listing {
  batched : option (list pystr -> option (list (option pystr)));
  single : option (pystr -> option (option pystr));
  durable_response_map : bool;
  lookup_many : option (list pystr -> option (list (pystr * pystr)));
  lookup_one : pystr -> option (option pystr);
  existing : pystr -> option (option S)
}.

Context (st : listing_state).

(** [_listing_sessions]: the sessions named, the ids unanswered, the faults counted. *)
Inductive answered : Type := Unanswered | NamedBy (session : option pystr).

Definition listing_item_session_of (object_id : pystr) : answered :=
  match single st with
  | None => NamedBy None
  | Some name_session => match name_session object_id with Some a => NamedBy a | None => Unanswered end
  end.

Definition is_unanswered (a : answered) : bool := match a with Unanswered => true | NamedBy _ => false end.

Definition split_answers (pairs : list (pystr * answered)) : list (pystr * pystr) * list pystr :=
  (omap (fun p => match p.2 with NamedBy (Some session) => Some (p.1, session) | _ => None end) pairs,
   map fst (List.filter (fun p => is_unanswered p.2) pairs)).

Definition listing_sessions (object_ids : list pystr) : list (pystr * pystr) * list pystr * nat :=
  match batched st with
  | Some ask =>
      match ask object_ids with
      | None => ([], object_ids, 1%nat)
      | Some answer =>
          if (length answer =? length object_ids)%nat then (split_answers (zip object_ids (map NamedBy answer)), 0%nat)
          else ([], object_ids, 1%nat)
      end
  | None =>
      let pairs := map (fun object_id => (object_id, listing_item_session_of object_id)) object_ids in
      (split_answers pairs, length (List.filter (fun p => is_unanswered p.2) pairs))
  end.

(** A dict given as its pairs: the last value of a key. *)
Definition lookup_last {A} (pairs : list (pystr * A)) (key : pystr) : option A :=
  fold_left (fun acc kv => if bool_decide (kv.1 = key) then Some kv.2 else acc) pairs None.

(** [_recorded_sessions]: None without a durable map; a lookup that fails records nothing. *)
Fixpoint recorded_each (ids : list pystr) : option (list (pystr * pystr)) :=
  match ids with
  | [] => Some []
  | i :: ids =>
      match lookup_one st i with
      | None => None
      | Some None => recorded_each ids
      | Some (Some session) => rest ← recorded_each ids; Some ((i, session) :: rest)
      end
  end.

Definition recorded_sessions (named : list (pystr * pystr)) : option (list (pystr * pystr)) :=
  if durable_response_map st then
    Some (default [] (match lookup_many st with Some many => many (map fst named) | None => recorded_each (map fst named) end))
  else None.

(** [listing_restorers]: what each id of the answer is restored with (None: left as the
    provider sent it); the rehydrators made so far, and the faults. *)
Definition restorer_of (recorded : option (list (pystr * pystr))) (acc : list (pystr * option S) * list (pystr * option S) * nat) (named : pystr * pystr)
    : list (pystr * option S) * list (pystr * option S) * nat :=
  let '(restorers, rehydrators, faults) := acc in
  let '(object_id, session_id) := named in
  if match recorded with Some rows => negb (bool_decide (lookup_last rows object_id = Some session_id)) | None => false end
  then (restorers ++ [(object_id, None)], rehydrators, faults)
  else match lookup_last rehydrators session_id with
       | Some r => (restorers ++ [(object_id, r)], rehydrators, faults)
       | None =>
           let '(r, fault) := match existing st session_id with Some r => (r, 0%nat) | None => (None, 1%nat) end in
           (restorers ++ [(object_id, r)], rehydrators ++ [(session_id, r)], (faults + fault)%nat)
       end.

Definition listing_restorers (object_ids : list pystr) : list (pystr * option S) * nat :=
  let '(named, unanswered, faults) := listing_sessions object_ids in
  let restorers := map (fun i => (i, None)) unanswered in
  match named with
  | [] => (restorers, faults)
  | _ =>
      let '(restorers, _, more) := fold_left (restorer_of (recorded_sessions named)) named (restorers, [], 0%nat) in
      (restorers, (faults + more)%nat)
  end.

(** ** [_restore_listing] *)
Context (l : lister) (loads_data : pybytes -> document).

(** One item of the answer about to be delivered; the fault is counted. *)
Definition restore_one (r : option S) (original delivered : json) (acc : C) : json * bool * C * nat :=
  let '(restored, counts, fault) :=
    match r with
    | None => (original, acc, 0%nat)
    | Some s => match restore_item l s original acc with (Ok v, c) => (v, c, 0%nat) | (Raise _, c) => (original, c, 1%nat) end
    end in
  if py_eq restored delivered then (delivered, false, counts, fault) else (restored, true, counts, fault).

Fixpoint restore_items (by_id : list (pystr * option S)) (items delivered : list json) (counts : C) : list json * bool * C * nat :=
  match items, delivered with
  | item :: items, d :: delivered =>
      let '(d', changed, counts, faults) :=
        match item_id l item ≫= lookup_last by_id with
        | Some r => restore_one r item d counts
        | None => (d, false, counts, 0%nat)
        end in
      let '(rest, more, counts, faults') := restore_items by_id items delivered counts in
      (d' :: rest, changed || more, counts, (faults + faults')%nat)
  | _, _ => (delivered, false, counts, 0%nat)
  end.

(** What is delivered instead ([None]: the bytes stay), the counts and the faults; it raises
    where the bytes about to be delivered are no JSON. *)
Definition restore_listing (upstream_raw raw : pybytes) (counts : C) : result unit (option json) * C * nat :=
  match loads_bounded (loads_data upstream_raw) with
  | Raise _ => (Ok None, counts, 0%nat)
  | Ok original =>
      match listing_items l original with
      | None | Some [] => (Ok None, counts, 0%nat)
      | Some items =>
          let '(by_id, faults) := listing_restorers (from_keys (omap (item_id l) items)) in
          if existsb (fun item => match item_id l item ≫= lookup_last by_id with Some _ => true | None => false end) items then
            match loads_bounded (loads_data raw) with
            | Raise _ => (Raise tt, counts, faults)
            | Ok delivered =>
                match listing_items l delivered with
                | Some found =>
                    if (length found =? length items)%nat then
                      let '(found', changed, counts, more) := restore_items by_id items found counts in
                      (Ok (if changed then Some (with_items l delivered found') else None), counts, (faults + more)%nat)
                    else (Ok None, counts, faults)
                | None => (Ok None, counts, faults)
                end
            end
          else (Ok None, counts, faults)
      end
  end.
End Listing.

(** ** What an item is delivered as *)
Lemma lookup_last_elem {A} (pairs : list (pystr * A)) key x : lookup_last pairs key = Some x -> (key, x) ∈ pairs.
Proof.
  unfold lookup_last. assert (forall acc, fold_left (fun acc kv => if bool_decide (kv.1 = key) then Some kv.2 else acc) pairs acc = Some x ->
    acc = Some x \/ (key, x) ∈ pairs) as Hgo; [|intros [?|?]%Hgo; done].
  induction pairs as [|[k a] pairs IH]; intros acc; cbn; [by left|]. intros [Hx|Hx]%IH; [|right; by right].
  case_bool_decide as E; [|by left]. subst. injection Hx as ->. right. left.
Qed.

Section Facts.
Context {C S E : Type} (st : listing_state (S := S)).

(** The session router named [session] for the object. *)
Definition names (object_ids : list pystr) (object_id session : pystr) : Prop :=
  match batched st with
  | Some ask => exists answer, ask object_ids = Some answer /\ length answer = length object_ids /\ (object_id, Some session) ∈ zip object_ids answer
  | None => exists f, single st = Some f /\ f object_id = Some (Some session)
  end.

(** The durable map, where there is one, records the object in it. *)
Definition confirmed (named : list (pystr * pystr)) (object_id session : pystr) : Prop :=
  durable_response_map st = true -> exists rows, recorded_sessions st named = Some rows /\ lookup_last rows object_id = Some session.

Lemma zip_named (ids : list pystr) : forall (answer : list (option pystr)) i a, (i, NamedBy a) ∈ zip ids (map NamedBy answer) -> (i, a) ∈ zip ids answer.
Proof.
  induction ids as [|j ids IH]; intros [|b answer] i a; cbn; try by intros ?%not_elem_of_nil. intros [[= -> ->]|Hin]%elem_of_cons; [left|right]. by apply IH.
Qed.

Lemma named_sessions object_ids : forall i session, (i, session) ∈ (listing_sessions st object_ids).1.1 -> names object_ids i session.
Proof.
  intros i session. unfold listing_sessions, names, split_answers. destruct (batched st) as [ask|].
  - destruct (ask object_ids) as [answer|]; [|by intros ?%not_elem_of_nil]. destruct (Nat.eqb_spec (length answer) (length object_ids)) as [Hl|]; [|by intros ?%not_elem_of_nil].
    cbn [fst]. intros ([j a] & Hin & Hp)%list_elem_of_omap. cbn [fst snd] in Hp. destruct a as [|[s|]]; try done. injection Hp as <- <-. exists answer. split_and!; [done..|].
    by apply zip_named.
  - cbn [fst]. intros ([j a] & Hin & Hp)%list_elem_of_omap. cbn [fst snd] in Hp. destruct a as [|[s|]]; try done. injection Hp as <- <-.
    apply list_elem_of_fmap in Hin as (k & [= -> Ha] & _). unfold listing_item_session_of in Ha. destruct (single st) as [f|]; [|done].
    destruct (f k) as [a|] eqn:Ef; [|done]. injection Ha as <-. by exists f.
Qed.

Lemma restorers_sound object_ids i s : lookup_last (listing_restorers st object_ids).1 i = Some (Some s) ->
  exists session, names object_ids i session /\ confirmed (listing_sessions st object_ids).1.1 i session /\ existing st session = Some (Some s).
Proof.
  unfold listing_restorers. pose proof (named_sessions object_ids) as Hn. destruct (listing_sessions st object_ids) as [[named unanswered] faults]. cbn [fst] in *.
  assert (Hbase : (i, Some s) ∈ map (fun i : pystr => (i, @None S)) unanswered -> False) by (by intros (? & [=] & _)%list_elem_of_fmap).
  intros Hl. assert (Hin : named <> [] /\ (i, Some s) ∈ (fold_left (restorer_of st (recorded_sessions st named)) named (map (fun i => (i, None)) unanswered, [], 0%nat)).1.1).
  { destruct named as [|p named]; [by apply lookup_last_elem in Hl|]. split; [done|]. destruct (fold_left _ (p :: named) _) as [[r h] f]. by apply lookup_last_elem in Hl. }
  destruct Hin as [_ Hin].
  assert (Hgo : forall l acc, (forall p, p ∈ l -> p ∈ named) ->
    (forall j t, (j, Some t) ∈ acc.1.1 -> exists session, (j, session) ∈ named /\ confirmed named j session /\ existing st session = Some (Some t)) ->
    (forall ses t, (ses, Some t) ∈ acc.1.2 -> existing st ses = Some (Some t)) ->
    forall j t, (j, Some t) ∈ (fold_left (restorer_of st (recorded_sessions st named)) l acc).1.1 ->
      exists session, (j, session) ∈ named /\ confirmed named j session /\ existing st session = Some (Some t)).
  { clear Hin Hl Hbase. induction l as [|[j0 ses0] l IH]; intros [[rs hs] n] Hl Hr Hh; cbn [fold_left fst snd] in *; [exact Hr|]. apply IH; [intros p Hp; apply Hl; by right| |].
    all: specialize (Hl (j0, ses0) ltac:(left)); unfold restorer_of.
    all: destruct (match recorded_sessions st named with Some rows => _ | None => false end) eqn:Econf.
    - cbn [fst]. intros j t [Hj|[=]%list_elem_of_singleton]%elem_of_app. by apply Hr.
    - assert (Hc : confirmed named j0 ses0).
      { intros Hd. unfold recorded_sessions in *. rewrite Hd in *. eexists. split; [done|]. apply negb_false_iff, bool_decide_eq_true in Econf. exact Econf. }
      destruct (lookup_last hs ses0) as [r|] eqn:Er.
      + cbn [fst]. intros j t [Hj|[= -> <-]%list_elem_of_singleton]%elem_of_app; [by apply Hr|]. exists ses0. split_and!; [done..|]. by apply Hh, lookup_last_elem.
      + destruct (existing st ses0) as [r|] eqn:Ee; cbn [fst]; (intros j t [Hj|Hj%list_elem_of_singleton]%elem_of_app; [by apply Hr|]); [injection Hj as -> <-|done]. exists ses0. split_and!; [done..|by rewrite Ee].
    - exact Hh.
    - destruct (lookup_last hs ses0) as [r|] eqn:Er; [exact Hh|]. destruct (existing st ses0) as [r|] eqn:Ee; cbn [fst snd];
        (intros ses t [Hj|Hj%list_elem_of_singleton]%elem_of_app; [by apply Hh|]); [injection Hj as -> <-; by rewrite Ee|done]. }
  destruct (Hgo named (map (fun i => (i, None)) unanswered, [], 0%nat)) with (j := i) (t := s) as (session & Hnm & Hc & He); try done.
  - by intros j t (? & [=] & _)%list_elem_of_fmap.
  - by intros ses t ?%not_elem_of_nil.
  - exists session. split_and!; [by apply Hn|done..].
Qed.
End Facts.

Section Restored.
Context {C S E : Type} (st : listing_state (S := S)) (l : lister (C := C) (S := S) (E := E)) (loads_data : pybytes -> document).

(** [w] as it is delivered where [d] was about to be: itself, or [d] when they are equal. *)
Definition shows (w d d' : json) : Prop := d' = w \/ (d' = d /\ py_eq w d = true).

(** What an item's restorer makes of it. *)
Definition made_of (r : option S) (item w : json) : Prop :=
  match r with
  | None => w = item
  | Some s => exists c c', restore_item l s item c = (Ok w, c') \/ (w = item /\ exists e, restore_item l s item c = (Raise e, c'))
  end.

Lemma restore_one_shows r item d c : exists w, made_of r item w /\ shows w d (restore_one l r item d c).1.1.1.
Proof.
  unfold restore_one, made_of, shows. destruct r as [s|].
  - destruct (restore_item l s item c) as [[w|e] c'] eqn:E0.
    + exists w. split; [exists c, c'; by left|]. destruct (py_eq w d); cbn; eauto.
    + exists item. split; [exists c, c'; right; eauto|]. destruct (py_eq item d); cbn; eauto.
  - exists item. split; [done|]. destruct (py_eq item d); cbn; eauto.
Qed.

Lemma restore_items_shows by_id items : forall delivered counts n item d, items !! n = Some item -> delivered !! n = Some d ->
  exists d', (restore_items l by_id items delivered counts).1.1.1 !! n = Some d' /\
    match item_id l item ≫= lookup_last by_id with Some r => exists w, made_of r item w /\ shows w d d' | None => d' = d end.
Proof.
  induction items as [|i items IH]; intros [|d0 delivered] counts n item d; [done..|]. cbn [restore_items].
  assert (Hone : let r := (match item_id l i ≫= lookup_last by_id with Some r => restore_one l r i d0 counts | None => (d0, false, counts, 0%nat) end) in
    match item_id l i ≫= lookup_last by_id with Some r' => exists w, made_of r' i w /\ shows w d0 r.1.1.1 | None => r.1.1.1 = d0 end).
  { destruct (item_id l i ≫= lookup_last by_id) as [r|]; [apply restore_one_shows|done]. }
  destruct (match item_id l i ≫= lookup_last by_id with Some r => restore_one l r i d0 counts | None => (d0, false, counts, 0%nat) end) as [[[d1 ch] c1] f1].
  specialize (IH delivered c1). destruct (restore_items l by_id items delivered c1) as [[[rest more] c2] f2]. cbn [fst snd] in *.
  destruct n as [|n]; cbn; [intros [= <-] [= <-]; by exists d1|]. intros Hi Hd. by apply IH.
Qed.

End Restored.

(** *** Two batches: one its owner's, one whose record names another session *)
Definition demo_lister : lister (C := unit) (S := pystr) (E := unit) :=
  mk_lister anthropic_listing listing_item_id (fun s item c => (Ok (JDict [(lit "restored in", JStr s)]), c)).
Definition demo_listing_state : listing_state (S := pystr) :=
  mk_listing None (Some (fun _ => Some (Some (lit "alice")))) true None (fun i => Some (Some (if bool_decide (i = lit "b1") then lit "alice" else lit "other"))) (fun s => Some (Some s)).
Definition batch_item (id : string) : json := JDict [(lit "id", JStr (lit id)); (lit "x", JStr (lit "t"))].
Definition batch_list : json := JDict [(lit "data", JList [batch_item "b1"; batch_item "b2"])].

