(* ===== verification/Deliver.v ===== *)
(** * Delivering an answer -- src/llm_redact/proxy.py, [_deliver]

    An upstream's answer as the client gets it: a redirect refused, the headers passed on,
    a stream relayed (Relay) or a body restored whole ([_restore_buffered]), a listing
    restored item by item (Listing), with the bookkeeping contained.  The adapter's
    operations on a body, the router's hooks and the JSON reader are parameters. *)

From S2P Require Import Prelude Json JsonWalk JsonText Placeholders Vault Rehydrate Sse EventStream Addressing BodyRules Handle Relay Listing.

Local Open Scope mon_scope.

(** An answer's status, headers as [items()] gives them (names in lower case), and its body
    read whole: None where the transport drops. *)
Record upstream_response : Type := mk_response { status_code : Z; u_headers : list (pystr * pystr); body_read : option pybytes }.

Definition get_header (hs : list (pystr * pystr)) (name : pystr) : option pystr :=
  snd <$> List.find (fun nv => bool_decide (nv.1 = name)) hs.

Definition content_type (u : upstream_response) : pystr := default [] (get_header (u_headers u) (lit "content-type")).

(** [headers[name] = value] *)
Fixpoint set_header (name value : pystr) (hs : list (pystr * pystr)) : list (pystr * pystr) :=
  match hs with
  | [] => [(name, value)]
  | (n, x) :: hs => if bool_decide (n = name) then (n, value) :: hs else (n, x) :: set_header name value hs
  end.

(** [_is_redirect] *)
Definition is_redirect (u : upstream_response) : bool :=
  (300 <=? status_code u) && (status_code u <? 400) && negb (status_code u =? 304) &&
  match get_header (u_headers u) (lit "location") with Some _ => true | None => false end.

Definition is_success (status : Z) : bool := (200 <=? status) && (status <? 300).

(** [sum(counts.values())] *)
Definition total (counts : counter) : Z := map_fold (fun _ n acc => n + acc) 0 counts.

(** [_JSONL_CONTENT_TYPES] *)
Definition JSONL_CONTENT_TYPES : list pystr := map lit ["application/x-ndjson"; "application/x-jsonl"; "application/jsonl"]%string.

Section Deliver.
Context {E R S : Type} `{JsonLib}.

(** An adapter as an answer needs it; its restoring counts in the shared counts. *)
Record restorer : Type := mk_restorer {
  restores_file_download : pystr -> pystr -> bool;
  rehydrate_raw_body : pystr -> pybytes -> counter -> result E (option pybytes) * counter;
  response_id_from_body : json -> result E (option pystr);
  rehydrate_body : json -> counter -> result E json * counter;
  capability_response_headers : list pystr;
  handles_eventstream : bool;
  handles_ndjson : bool
}.

(** The routed request's hooks: whether a payload was changed, and what it is now. *)
Record route_delivery : Type := mk_route {
  route_headers : list (pystr * pystr);
  wants_payload : RouteKind -> bool;
  observe_payload : json -> RouteKind -> R -> option (bool * json) * R
}.

(** What delivering changes: the bookkeeping, the process's counts, the route's state, the
    listing faults. *)
Record delivering : Type := mk_delivering { noted : books; rehydration_counts : counter; route_state : R; listing_faults : nat }.

Abbreviation Step A := (M delivering fault A).

Definition in_notes {A} (m : M books fault A) : Step A := fun s =>
  let (r, b) := m (noted s) in (r, mk_delivering b (rehydration_counts s) (route_state s) (listing_faults s)).

Definition counting {A} (op : counter -> result E A * counter) : Step A := fun s =>
  let (r, c) := op (rehydration_counts s) in
  (match r with Ok a => Ok a | Raise _ => Raise Fault end, mk_delivering (noted s) c (route_state s) (listing_faults s)).

(** [route.observe_payload] *)
Definition observed_payload (route : option route_delivery) (payload : json) (kind : RouteKind) : Step (bool * json) := fun s =>
  match route with
  | None => (Ok (false, payload), s)
  | Some rt =>
      let (a, r) := observe_payload rt payload kind (route_state s) in
      (match a with Some x => Ok x | None => Raise Fault end, mk_delivering (noted s) (rehydration_counts s) r (listing_faults s))
  end.

Definition written_json (value : json) : Step pybytes :=
  match JsonText.json_bytes JsonText.encode value with Some b => mret b | None => mraise Fault end.

Context (loads_data : pybytes -> document).

(** [loads_bounded(raw)], None where it is no JSON value (or JSON's null). *)
Definition parsed_body (raw : pybytes) : option json :=
  match loads_bounded (loads_data raw) with Ok JNull | Raise _ => None | Ok v => Some v end.

Context (router : session_router) (adapter : option restorer) (kind : RouteKind) (route : option route_delivery) (method path : pystr).

Definition names_json (ctype : pystr) : bool := contains_sub (lit "application/json") ctype.

(** ** [_restore_buffered]: the branches on the answer's kind; the bytes and the provider's
    own payload where one was read *)
Definition restore_file (a : restorer) (raw : pybytes) : Step pybytes :=
  match raw with
  | [] => mret raw
  | _ => r <~ counting (rehydrate_raw_body a path raw);; mret (default raw r)
  end.

Definition restore_chat (a : restorer) (raw : pybytes) : Step (pybytes * option json) :=
  match parsed_body raw with
  | None => mret (raw, None)
  | Some payload =>
      s0 <~ mget;;
      (match response_id_from_body a payload with
       | Raise _ => mraise Fault
       | Ok None => mret tt
       | Ok (Some response_id) => in_notes (contained ResponseIdStage (record_response_id router response_id));;; mret tt
       end);;;
      rehydrated <~ counting (rehydrate_body a payload);;
      s1 <~ mget;;
      p <~ observed_payload route rehydrated kind;;
      let '(rewritten, rehydrated) := p in
      if negb (total (rehydration_counts s1) =? total (rehydration_counts s0)) || rewritten
      then b <~ written_json rehydrated;; mret (b, Some payload)
      else mret (raw, Some payload)
  end.

Definition restore_routed (raw : pybytes) : Step (pybytes * option json) :=
  match parsed_body raw with
  | None => mret (raw, None)
  | Some payload =>
      p <~ observed_payload route payload kind;;
      let '(rewritten, payload) := p in
      b <~ (if rewritten then written_json payload else mret raw);;
      mret (b, Some payload)
  end.

Definition file_download : bool :=
  match kind, adapter with CHAT, Some a => restores_file_download a method path | _, _ => false end.

(** An answer outside those branches: only the router may want it. *)
Definition restore_unread (ctype : pystr) (raw : pybytes) : Step (pybytes * option json) :=
  match route with
  | Some rt => if negb (bool_decide (raw = [])) && names_json ctype && wants_payload rt kind then restore_routed raw else mret (raw, None)
  | None => mret (raw, None)
  end.

Definition restore_content (ctype : pystr) (raw : pybytes) : Step (pybytes * option json) :=
  match kind, adapter with
  | CHAT, Some a =>
      if restores_file_download a method path then b <~ restore_file a raw;; mret (b, None)
      else if names_json ctype then restore_chat a raw
      else restore_unread ctype raw
  | _, _ => restore_unread ctype raw
  end.

(** [lists], [tracks]: the adapter claiming the request, where one does. *)
Context (lists : option (lister (C := counter) (S := S) (E := E))) (listings : listing_state (S := S)).
Context (tracks : option (json -> option (list pystr))) (request_body : json).

Definition restore_list (ctype : pystr) (status : Z) (received raw : pybytes) : Step pybytes :=
  if negb (bool_decide (raw = [])) && is_success status && names_json ctype then
    match lists with
    | None => mret raw
    | Some l => fun s =>
        let '(r, c, faults) := restore_listing listings l loads_data received raw (rehydration_counts s) in
        let s := mk_delivering (noted s) c (route_state s) (listing_faults s + faults) in
        match r with
        | Raise _ => (Raise Fault, s)
        | Ok None => (Ok raw, s)
        | Ok (Some body) => written_json body s
        end
    end
  else mret raw.

(** [_report_object_ids] *)
Definition report_object_ids (object_ids_from_body : json -> option (list pystr)) (answer : json) : M books fault unit :=
  match object_ids_from_body answer with
  | None => mraise Fault
  | Some [] => mret tt
  | Some ids => match uncited ids request_body with [] => mret tt | created => record_object_ids router created end
  end.

Definition track_stored (ctype : pystr) (status : Z) (raw : pybytes) (payload : option json) : Step unit :=
  if negb (bool_decide (raw = [])) && is_success status && names_json ctype then
    match tracks with
    | None => mret tt
    | Some object_ids_from_body =>
        let stored := match payload with Some p => p | None => default JNull (parsed_body raw) end in
        in_notes (contained ObjectIdsStage (report_object_ids object_ids_from_body stored));;; mret tt
    end
  else mret tt.

Definition restore_buffered (ctype : pystr) (status : Z) (received : pybytes) : Step pybytes :=
  p <~ restore_content ctype received;;
  let '(raw, payload) := p in
  raw <~ restore_list ctype status received raw;;
  track_stored ctype status raw payload;;;
  mret raw.

(** ** [_deliver] *)

(** How an answer's content reaches the client. *)
Inductive content : Type := Events (tracked : bool) | Frames | Lines | Whole (raw : pybytes).

(** The row recorded at once; a stream records its own at its end. *)
Record answer_row : Type := mk_answer_row { recorded_status : Z; recorded_rehydrations : counter; recorded_refusal : option local_refusal }.

Inductive answered_with : Type :=
| RefusedWith (kind : local_refusal) (headers : list (pystr * pystr))
| Answered (status : Z) (headers : list (pystr * pystr)) (c : content).

Context (relay_redirects identity : bool).

Definition answer_headers (u : upstream_response) : list (pystr * pystr) :=
  let headers := response_headers (map ascii_lower) (u_headers u) in
  let headers :=
    match adapter with
    | Some a => if identity && negb (bool_decide (capability_response_headers a = []))
                then List.filter (fun nv => negb (bool_decide (map ascii_lower nv.1 ∈ capability_response_headers a))) headers else headers
    | None => headers
    end in
  match route with
  | Some rt => fold_left (fun hs nv => set_header nv.1 nv.2 hs) (route_headers rt) headers
  | None => headers
  end.

Definition refused_headers : list (pystr * pystr) := match route with Some rt => route_headers rt | None => [] end.

Definition refused (why : local_refusal) : answered_with * option answer_row :=
  (RefusedWith why refused_headers, Some (mk_answer_row 502 ∅ (Some why))).

Definition streamed : option restorer := if file_download then None else match kind with CHAT => adapter | _ => None end.

Definition deliver (u : upstream_response) : delivering -> (answered_with * option answer_row) * delivering := fun s =>
  if is_redirect u && negb (relay_redirects && match route with None => true | Some _ => false end) then (refused redirect_refused, s)
  else
    let ctype := content_type u in
    let headers := answer_headers u in
    let streams c := ((Answered (status_code u) headers c, None), s) in
    let whole :=
      match body_read u with
      | None => (refused upstream_fault, s)
      | Some received =>
          match restore_buffered ctype (status_code u) received s with
          | (Raise _, s') =>
              (refused delivery_fault, mk_delivering (mk_books (id_seen (noted s')) (seen (noted s')) (observing (noted s')) (calls (noted s')) (bookkeeping_errors (noted s') ++ [DeliveryStage]))
                 (rehydration_counts s') (route_state s') (listing_faults s'))
          | (Ok raw, s') =>
              let s' := if negb (bool_decide (received = [])) && names_json ctype then (in_notes (observe router (loads_data received)) s').2 else s' in
              ((Answered (status_code u) headers (Whole raw),
                Some (mk_answer_row (status_code u) (count_delta (rehydration_counts s') (rehydration_counts s)) None)), s')
          end
      end in
    match streamed with
    | Some a =>
        if contains_sub (lit "text/event-stream") ctype then
          streams (Events (is_success (status_code u) && match tracks with Some _ => true | None => false end))
        else if handles_eventstream a && contains_sub (lit "application/vnd.amazon.eventstream") ctype then streams Frames
        else if handles_ndjson a && existsb (fun t => contains_sub t ctype) JSONL_CONTENT_TYPES then streams Lines
        else whole
    | None => whole
    end.
End Deliver.
