(* ===== verification/DeliverFacts.v ===== *)
(** * What the delivery of an answer guarantees

    An answer repeating a redacted request comes back as the request; an answer with
    nothing to restore comes back byte for byte; no redirect and no capability header
    reaches the client where the proxy's credential was spent. *)

From Stdlib Require Import List.
From S2P Require Import Prelude PyRegex Bytes Json JsonWalk JsonFacts JsonText Placeholders TokenSearch Vault Rehydrate.
From S2P Require Import Detection Redactor Winners Redaction RoundTrip BodyRoundTrip Addressing BodyRules Relay RelayFacts Listing Deliver.

Local Open Scope mon_scope.

(** ** The counts only grow, and stand still where nothing was restored *)
Lemma total_insert (m : counter) k n : m !! k = None -> total (<[k := n]> m) = n + total m.
Proof. intros Hk. unfold total. rewrite map_fold_insert_L; [done| |done]. intros. lia. Qed.

Lemma total_incr m k : total (counter_incr m k) = total m + 1.
Proof.
  unfold counter_incr, counter_get. destruct (m !! k) as [n|] eqn:E; cbn [default from_option].
  - assert (total m = n + total (delete k m)) as -> by (rewrite <- (total_insert _ k) by apply lookup_delete_eq; by rewrite insert_delete_eq, insert_id).
    unfold id. rewrite <- insert_delete_eq, total_insert by apply lookup_delete_eq. lia.
  - rewrite total_insert by done. lia.
Qed.

(** The pieces of a search are the text. *)
Definition seg_text (g : seg) : pystr := match g with SHit w _ => w | SChar c => [c] end.

Lemma scan_go_text r suf : forall pre skip, flat_map seg_text (scan_go r pre suf skip) = drop skip suf.
Proof.
  induction suf as [|c rest IH]; intros pre skip; cbn [scan_go]; [by rewrite drop_nil|]. destruct skip as [|k]; [|apply IH].
  destruct (match_at r pre (c :: rest)) as [[[|x w] cs]|]; cbn [flat_map seg_text]; rewrite IH; [done| |done].
  change (drop (length w) rest) with (drop (S (length w)) (c :: rest)). by rewrite take_drop.
Qed.

Lemma scan_text r s : flat_map seg_text (PyRegex.scan r s) = s.
Proof. apply (scan_go_text r s [] 0). Qed.

Section Restoring.
Context {V : Type} `{VaultOps V} (fuzzy : bool) (v : V).

Lemma restore_total counts token : total counts <= total (count_restore fuzzy v counts token) /\
  (total (count_restore fuzzy v counts token) = total counts -> replacement fuzzy false v token = token).
Proof.
  unfold count_restore, replacement. destruct (resolve fuzzy v token) as [[canonical original]|]; [|split; [lia|done]]. rewrite total_incr. split; [lia|]. intros. lia.
Qed.

Lemma rehydrate_text_settles t counts : let (out, counts') := rehydrate_text fuzzy v counts t in
  total counts <= total counts' /\ (total counts' = total counts -> out = t).
Proof.
  unfold rehydrate_text, substitute_tokens, sub, finditer. 
  enough (forall counts, total counts <= total (fold_left (fun c m => count_restore fuzzy v c m.1) (flat_map (fun g => match g with SHit w cs => [(w, cs)] | SChar _ => [] end) (PyRegex.scan (pattern fuzzy) t)) counts) /\
    (total (fold_left (fun c m => count_restore fuzzy v c m.1) (flat_map (fun g => match g with SHit w cs => [(w, cs)] | SChar _ => [] end) (PyRegex.scan (pattern fuzzy) t)) counts) = total counts ->
     flat_map (fun g => match g with SHit w cs => replacement fuzzy false v w | SChar c => [c] end) (PyRegex.scan (pattern fuzzy) t) = flat_map seg_text (PyRegex.scan (pattern fuzzy) t)))
    as Hgo by (rewrite scan_text in Hgo; apply Hgo). clear counts.
  induction (PyRegex.scan (pattern fuzzy) t) as [|g l IH]; intros counts; cbn [flat_map fold_left seg_text]; [split; [lia|done]|].
  destruct g as [c|w cs]; cbn [flat_map fold_left app seg_text].
  2: { destruct (restore_total counts w) as [M1 E1]. destruct (IH (count_restore fuzzy v counts w)) as [M2 E2]. cbn [fst]. split; [lia|]. intros Ht. rewrite E1, E2 by lia. done. }
  destruct (IH counts) as [M E]. split; [done|]. intros Ht. by rewrite E.
Qed.

(** An answer restored without a restore counted is the answer. *)

Lemma rehydrate_json_same passthrough obj counts out counts' : rehydrate_json fuzzy passthrough v counts obj = (Ok out, counts') ->
  total counts' = total counts -> out = obj.
Proof.
  unfold rehydrate_json, transform_strings. intros Hr Ht.
  eapply (walk_settles (E := Empty_set) _ total) in Hr as [_ Hr]; [by apply Hr|].
  intros t s o s'. pose proof (rehydrate_text_settles t s) as Hs. destruct (rehydrate_text fuzzy v s t) as [o1 c1]. intros [= <- <-]. exact Hs.
Qed.
End Restoring.

(** ** A buffered answer *)
Section Buffered.
Context {V : Type} `{VaultOps V} {R S : Type} `{JsonLibLaws} (v : V) (fuzzy passthrough : bool) (loads_data : pybytes -> document).
Context (router : session_router) (a : restorer (E := Empty_set)) (method path : pystr) (listings : listing_state (S := S)).
Context (tracks : option (json -> option (list pystr))) (request_body : json).
Context (Hbody : forall x c, rehydrate_body a x c = rehydrate_json fuzzy passthrough v c x) (Hfile : restores_file_download a method path = false).

Lemma rehydrate_json_total obj c : exists out c', rehydrate_json fuzzy passthrough v c obj = (Ok out, c').
Proof. destruct (rehydrate_json fuzzy passthrough v c obj) as [[out|[]] c']. by eauto. Qed.

Lemma contained_in_notes {A} at_stage (m : M books fault A) (s : delivering (R := R)) : exists r s', in_notes (contained at_stage m) s = (Ok r, s') /\ rehydration_counts s' = rehydration_counts s.
Proof. unfold in_notes. destruct (contained_returns at_stage m (noted s)) as (r & b & ->). by eexists _, _. Qed.

Abbreviation restore := (restore_buffered (R := R) (E := Empty_set) loads_data router (Some a) CHAT None method path None listings tracks request_body).

(** What follows the restoring changes no byte. *)
Lemma track_stored_returns ctype status raw payload (s : delivering (R := R)) : exists s', track_stored loads_data router tracks request_body ctype status raw payload s = (Ok tt, s').
Proof.
  unfold track_stored. destruct (_ && _); [|by eexists]. destruct tracks as [ids|]; [|by eexists]. unfold mbnd.
  destruct (contained_in_notes ObjectIdsStage (report_object_ids router request_body ids (match payload with Some p => p | None => default JNull (parsed_body loads_data raw) end)) s) as (r & s' & -> & _).
  by eexists.
Qed.

Lemma restore_buffered_exact ctype status raw payload st out c' : names_json ctype = true -> parsed_body loads_data raw = Some payload ->
  rehydrate_json fuzzy passthrough v (rehydration_counts st) payload = (Ok out, c') ->
  exists d st', restore ctype status raw st = (Ok d, st') /\ ((d = raw /\ out = payload) \/ JsonText.json_bytes JsonText.encode out = Some d).
Proof.
  intros Hj Hp Hr. unfold restore_buffered, restore_content. rewrite Hfile, Hj. unfold mbnd at 1, restore_chat. rewrite Hp. unfold mbnd at 1, mget.
  assert (Hfirst : exists s1, (match response_id_from_body a payload with
       | Raise _ => mraise Fault
       | Ok None => mret tt
       | Ok (Some response_id) => in_notes (contained ResponseIdStage (record_response_id router response_id));;; mret tt
       end) st = (Ok tt, s1) /\ rehydration_counts s1 = rehydration_counts st).
  { destruct (response_id_from_body a payload) as [[i|]|[]]; [|by eexists]. unfold mbnd.
    destruct (contained_in_notes ResponseIdStage (record_response_id router i) st) as (r & s' & -> & Hc). by eexists. }
  destruct Hfirst as (s1 & Hs1 & Hc1). unfold mbnd at 1. rewrite Hs1. unfold mbnd at 1, counting. rewrite Hbody, Hc1, Hr. cbn [mbnd mget observed_payload].
  unfold mbnd, mret. cbn [rehydration_counts]. rewrite orb_false_r.
  assert (Hend : forall d (st2 : delivering (R := R)), exists st', restore_list (E := Empty_set) loads_data None listings ctype status raw d st2 = (Ok d, st2) /\ track_stored loads_data router tracks request_body ctype status d (Some payload) st2 = (Ok tt, st')).
  { intros d st2. destruct (track_stored_returns ctype status d (Some payload) st2) as (st' & Ht). exists st'. split; [|done]. unfold restore_list. by destruct (_ && _). }
  destruct (Z.eqb_spec (total c') (total (rehydration_counts st))) as [Ht|Ht]; cbn [negb].
  - cbv beta iota zeta. destruct (Hend raw (mk_delivering (noted s1) c' (route_state s1) (listing_faults s1))) as (st' & -> & ->). exists raw, st'. split; [done|]. left. split; [done|].
    by eapply rehydrate_json_same.
  - destruct (json_bytes_text out) as [_ [d Hd]]. unfold written_json. rewrite Hd. cbv beta iota zeta delta [mret].
    destruct (Hend d (mk_delivering (noted s1) c' (route_state s1) (listing_faults s1))) as (st' & -> & ->). exists d, st'. split; [done|by right].
Qed.

(** The client of a buffered JSON answer gets the restored answer, written by the
    proxy's serializer, or -- only where nothing was restored, so that it is the same
    value -- the provider's own bytes, whatever the session router and the tracker do. *)
Theorem buffered_answer_exact ctype status raw payload st : names_json ctype = true -> parsed_body loads_data raw = Some payload ->
  exists out c' d st', rehydrate_json fuzzy passthrough v (rehydration_counts st) payload = (Ok out, c') /\ restore ctype status raw st = (Ok d, st') /\
    ((d = raw /\ out = payload) \/ JsonText.json_bytes JsonText.encode out = Some d).
Proof.
  intros Hj Hp. destruct (rehydrate_json_total payload (rehydration_counts st)) as (out & c' & Hr).
  destruct (restore_buffered_exact ctype status raw payload st out c' Hj Hp Hr) as (d & st' & Hd). by exists out, c', d, st'.
Qed.
End Buffered.

(** C10: a redacted request that a provider echoes in its JSON answer (a stored message read
    back, a batch's own request) reaches the client as the original request -- the
    serializer's text of it, or the provider's bytes where redaction had changed nothing --
    whatever the session router and the object tracker do; for an adapter that restores a
    body by the plain walk over its strings, an unrouted answer that is neither a listing
    nor a file download, a body without opening guillemets and a vault that has kept what
    the redaction's knew. *)
Theorem echoed_body_delivered {V O} `{VaultLaws V} `{OverrideOps O} `{JsonLibLaws} {R S} rd fuzzy body (s : rstate V O) redacted s' v loads_data router
    (a : restorer (E := Empty_set)) method path (listings : listing_state (S := S)) tracks request_body ctype status raw (st : delivering (R := R)) :
  detector_ok rd -> vinv (vault s) -> Forall (fun t => mem_char LAQUO t = false) (strings_in body) ->
  redact_json rd body s = (Ok redacted, s') -> extends (vault s') v ->
  (forall x c, rehydrate_body a x c = rehydrate_json fuzzy (encrypted_content_passthrough rd) v c x) -> restores_file_download a method path = false ->
  names_json ctype = true -> parsed_body loads_data raw = Some redacted ->
  exists d st', restore_buffered loads_data router (Some a) CHAT None method path None listings tracks request_body ctype status raw st = (Ok d, st') /\
    ((d = raw /\ redacted = body) \/ JsonText.json_bytes JsonText.encode body = Some d).
Proof.
  intros Hdk Hv Hp Hred Hext Hb Hf Hj Hraw. pose proof (body_restored rd fuzzy body s redacted s' v (rehydration_counts st) Hdk Hv Hp Hred Hext) as Hr.
  destruct (rehydrate_json fuzzy (encrypted_content_passthrough rd) v (rehydration_counts st) redacted) as [r c'] eqn:Er. cbn in Hr. subst r.
  destruct (restore_buffered_exact v fuzzy (encrypted_content_passthrough rd) loads_data router a method path listings tracks request_body Hb Hf ctype status raw redacted st body c' Hj Hraw Er)
    as (d & st' & Hd & [[-> ->]|Hd']); eexists _, st'; (split; [exact Hd|]); [by left|by right].
Qed.

(** ** Redirects and headers *)
Section Headers.
Context {E R S : Type} `{JsonLib} (loads_data : pybytes -> document) (router : session_router) (adapter : option (restorer (E := E))) (kind : RouteKind)
  (method path : pystr) (lists : option (lister (C := counter) (S := S) (E := E))) (listings : listing_state (S := S))
  (tracks : option (json -> option (list pystr))) (request_body : json) (relay_redirects identity : bool).
Abbreviation delivered route u st := (deliver (R := R) loads_data router adapter kind route method path lists listings tracks request_body relay_redirects identity u st).1.1.

(** Headers an answer may not carry of the upstream's. *)
Definition withheld (name : pystr) : Prop :=
  map ascii_lower name ∈ SKIP_RESPONSE_HEADERS \/
  (identity = true /\ exists a, adapter = Some a /\ map ascii_lower name ∈ capability_response_headers a).

Lemma set_header_in n v hs nv : nv ∈ set_header n v hs -> nv = (n, v) \/ nv ∈ hs.
Proof.
  induction hs as [|[m x] hs IH]; cbn [set_header]; [intros ->%list_elem_of_singleton; by left|].
  case_bool_decide as Em; intros [->|Hin]%elem_of_cons; [subst; by left|right; by right|right; by left|].
  destruct (IH Hin) as [->|?]; [by left|right; by right].
Qed.

Lemma set_headers_in l hs nv : nv ∈ fold_left (fun hs nv => set_header nv.1 nv.2 hs) l hs -> nv ∈ l \/ nv ∈ hs.
Proof.
  revert hs. induction l as [|[n v] l IH]; intros hs; cbn [fold_left]; [by right|]. intros [Hin|Hin]%IH; [left; by right|].
  apply set_header_in in Hin as [->|?]; [left; by left|by right].
Qed.

(** The headers a router sets itself. *)
Definition set_by_router (route : option (route_delivery (R := R))) : list (pystr * pystr) := match route with Some rt => route_headers rt | None => [] end.

Lemma answer_headers_safe route u name value : (name, value) ∈ answer_headers (R := R) adapter route identity u ->
  (name, value) ∈ set_by_router route \/ ((name, value) ∈ u_headers u /\ ~ withheld name).
Proof.
  assert (Hbase : forall hs n x, (n, x) ∈ response_headers (map ascii_lower) hs -> (n, x) ∈ hs /\ map ascii_lower n ∉ SKIP_RESPONSE_HEADERS).
  { intros hs n x [Hin Hs]%elem_filter. split; [done|]. by apply negb_true_iff, bool_decide_eq_false in Hs. }
  assert (Hown : (name, value) ∈ answer_headers (R := R) adapter None identity u -> (name, value) ∈ u_headers u /\ ~ withheld name).
  { unfold answer_headers, withheld. destruct adapter as [a|].
    - destruct (identity && _) eqn:Ei.
      + intros [[Hin Hn]%Hbase Hc]%elem_filter. apply negb_true_iff, bool_decide_eq_false in Hc. split; [done|]. intros [Hs|(_ & a' & [= <-] & Ha)]; [by apply Hn|by apply Hc].
      + intros [Hin Hn]%Hbase. split; [done|]. intros [Hs|(-> & a' & [= <-] & Ha)]; [by apply Hn|]. cbn [andb] in Ei. apply negb_false_iff, bool_decide_eq_true in Ei. rewrite Ei in Ha. by apply not_elem_of_nil in Ha.
    - intros [Hin Hn]%Hbase. split; [done|]. intros [Hs|(_ & a' & [=] & _)]. by apply Hn. }
  destruct route as [rt|]; [|by right; apply Hown]. unfold answer_headers at 1. intros [Hin|Hin]%set_headers_in; [by left|right; by apply Hown].
Qed.

(** C14: a redirect reaches the client only where the caller relays redirects and the request
    is unrouted: any other is answered by the proxy, and none of the upstream's headers --
    its Location among them -- goes out.  An answer, routed or not, carries only headers the
    router set itself and headers the upstream sent, of these never the framing ones, and
    where a credential of the proxy's was spent never a capability the provider minted for
    it (those the adapter names). *)
Theorem answer_headers_withheld route u st :
  (is_redirect u = true -> relay_redirects && match route with None => true | Some _ => false end = false ->
    delivered route u st = RefusedWith redirect_refused (set_by_router route)) /\
  (forall status hs c, delivered route u st = Answered status hs c ->
    status = status_code u /\ (is_redirect u = true -> relay_redirects = true /\ route = None) /\
    forall name value, (name, value) ∈ hs -> (name, value) ∈ set_by_router route \/ ((name, value) ∈ u_headers u /\ ~ withheld name)).
Proof.
  split.
  - intros Hr Hn. unfold deliver. by rewrite Hr, Hn.
  - intros status hs c. unfold deliver. destruct (is_redirect u && _) eqn:Er; [done|].
    assert (Hrel : is_redirect u = true -> relay_redirects = true /\ route = None).
    { intros Hred. rewrite Hred in Er. cbn in Er. apply negb_false_iff, andb_true_iff in Er as [? ?]. by destruct route. }
    assert (Hans : forall c', Answered (status_code u) (answer_headers (R := R) adapter route identity u) c' = Answered status hs c ->
      status = status_code u /\ (is_redirect u = true -> relay_redirects = true /\ route = None) /\
      forall name value, (name, value) ∈ hs -> (name, value) ∈ set_by_router route \/ ((name, value) ∈ u_headers u /\ ~ withheld name)).
    { intros c' [= <- <- <-]. split_and!; [done|done|]. intros name value. apply answer_headers_safe. }
    cbv zeta. destruct (streamed adapter kind method path) as [a|].
    + destruct (contains_sub _ _); [exact (Hans _)|]. destruct (_ && contains_sub _ _); [exact (Hans _)|]. destruct (_ && existsb _ _); [exact (Hans _)|].
      destruct (body_read u) as [received|]; [|done]. destruct (restore_buffered _ _ _ _ _ _ _ _ _ _ _ _ _ _ st) as [[raw|f] s']; [|done]. exact (Hans _).
    + destruct (body_read u) as [received|]; [|done]. destruct (restore_buffered _ _ _ _ _ _ _ _ _ _ _ _ _ _ st) as [[raw|f] s']; [|done]. exact (Hans _).
Qed.
End Headers.

(** *** Witnesses *)
#[local] Existing Instance enumerated_json.
#[local] Existing Instance enumerated_laws.

Definition demo_restorer (v : InMemoryVault.t) : restorer (E := Empty_set) :=
  mk_restorer (fun _ _ => false) (fun _ _ c => (Ok None, c)) (fun _ => Ok (Some (lit "resp_1"))) (fun x c => rehydrate_json false false v c x) [lit "x-upload-url"] false false.
Definition idle_listings : listing_state (S := unit) := mk_listing None None false None (fun _ => Some None) (fun _ => Some None).
Definition demo_delivering : delivering (R := unit) := mk_delivering (fresh_books false false) ∅ tt 0.
Definition demo_answer : json := match (redact_json demo_redactor demo_body demo_state).1 with Ok out => out | Raise _ => JNull end.
Definition demo_answer_vault : InMemoryVault.t := vault (redact_json demo_redactor demo_body demo_state).2.

Lemma buffered_answer_exact_witness :
  exists d st', restore_buffered (fun _ => DocTree demo_answer) failing_router (Some (demo_restorer demo_answer_vault)) CHAT None (lit "POST") (lit "/v1/x") None idle_listings None JNull
    (lit "application/json") 200 [1] demo_delivering = (Ok d, st') /\ JsonText.json_bytes JsonText.encode demo_body = Some d.
Proof.
  destruct (buffered_answer_exact demo_answer_vault false false (fun _ => DocTree demo_answer) failing_router (demo_restorer demo_answer_vault) (lit "POST") (lit "/v1/x") idle_listings None JNull
    (fun x c => eq_refl) eq_refl (lit "application/json") 200 [1] demo_answer demo_delivering) as (out & c' & d & st' & Hr & Hd & Hcase); [reflexivity|vm_compute; reflexivity|].
  exists d, st'. split; [exact Hd|]. vm_compute in Hr. injection Hr as <- _. destruct Hcase as [[_ Hsame]|Hb]; [vm_compute in Hsame; discriminate Hsame|exact Hb].
Defined.

Lemma echoed_body_delivered_witness :
  exists d st', restore_buffered (fun _ => DocTree demo_answer) failing_router (Some (demo_restorer demo_answer_vault)) CHAT None (lit "GET") (lit "/v1/x") None idle_listings None JNull
    (lit "application/json") 200 [1] demo_delivering = (Ok d, st') /\ JsonText.json_bytes JsonText.encode demo_body = Some d.
Proof.
  destruct (echoed_body_delivered demo_redactor false demo_body demo_state demo_answer (redact_json demo_redactor demo_body demo_state).2 demo_answer_vault
    (fun _ => DocTree demo_answer) failing_router (demo_restorer demo_answer_vault) (lit "GET") (lit "/v1/x") idle_listings None JNull (lit "application/json") 200 [1] demo_delivering)
    as (d & st' & Hd & Hcase).
  - apply demo_redactor_ok.
  - apply InMemoryVault.empty_inv.
  - repeat constructor.
  - vm_compute. reflexivity.
  - intros t o Ho. exact Ho.
  - reflexivity.
  - reflexivity.
  - reflexivity.
  - vm_compute. reflexivity.
  - exists d, st'. split; [exact Hd|]. destruct Hcase as [[_ Hsame]|Hb]; [vm_compute in Hsame; discriminate Hsame|exact Hb].
Defined.

Definition minted : upstream_response := mk_response 200 [(lit "content-type", lit "text/plain"); (lit "x-upload-url", lit "https://u/1"); (lit "content-length", lit "1")] (Some [7]).
Definition moved : upstream_response := mk_response 307 [(lit "location", lit "https://elsewhere/")] (Some []).
Definition demo_route : route_delivery (R := unit) := mk_route [(lit "x-route", lit "west")] (fun _ => false) (fun x _ r => (Some (false, x), r)).
Definition deliver_demo (u : upstream_response) := (deliver (R := unit) (fun _ => DocMalformed) failing_router (Some (demo_restorer InMemoryVault.empty)) CHAT (Some demo_route) (lit "POST") (lit "/v1/x") None idle_listings
    None JNull true true u demo_delivering).1.1.

(** Routed answers: a redirect the caller would relay is refused all the same. *)
Lemma answer_headers_withheld_witness :
  deliver_demo moved = RefusedWith redirect_refused [(lit "x-route", lit "west")] /\
  deliver_demo minted = Answered 200 [(lit "content-type", lit "text/plain"); (lit "x-route", lit "west")] (Whole [7]) /\
  withheld (E := Empty_set) (Some (demo_restorer InMemoryVault.empty)) true (lit "X-Upload-Url").
Proof.
  pose proof (fun u => answer_headers_withheld (R := unit) (fun _ => DocMalformed) failing_router (Some (demo_restorer InMemoryVault.empty)) CHAT (lit "POST") (lit "/v1/x") None idle_listings
    None JNull true true (Some demo_route) u demo_delivering) as Hall. split; [|split].
  - apply (proj1 (Hall moved)); reflexivity.
  - assert (Hd : deliver_demo minted = Answered 200 [(lit "content-type", lit "text/plain"); (lit "x-route", lit "west")] (Whole [7])) by (vm_compute; reflexivity).
    destruct (proj2 (Hall minted) _ _ _ Hd) as [_ _]. exact Hd.
  - right. split; [reflexivity|]. eexists. split; [reflexivity|]. left.
Defined.
