(* ===== verification/Doubles.v ===== *)
(** * The order and the addition of Python's floats

    Python's floats are IEEE doubles, as the Standard Library's SpecFloat computes them.
    Doubles that are neither NaN nor plus infinity are ordered as their values, and their
    sum is the exact sum rounded to the nearest double, as long as it stays finite: the
    rounding is monotone, so is the sum. *)

From Stdlib Require Import SpecFloat.
From S2P Require Import Prelude.

(** ** Digits and shifts *)
Lemma digits_bounds m : 2 ^ (Zpos (digits2_pos m) - 1) <= Zpos m < 2 ^ Zpos (digits2_pos m).
Proof.
  induction m as [m IH|m IH|]; cbn [digits2_pos]; [..|done]; rewrite Pos2Z.inj_succ in *;
    replace (Z.succ (Z.pos (digits2_pos m)) - 1) with (Z.succ (Z.pos (digits2_pos m) - 1)) by lia; rewrite !Z.pow_succ_r by lia; lia.
Qed.

(** A positive number's digits are what its powers of two say. *)
Lemma digits_unique m d : 0 < d -> 2 ^ (d - 1) <= Zpos m < 2 ^ d -> Zpos (digits2_pos m) = d.
Proof.
  intros Hd [Hl Hu]. destruct (digits_bounds m) as [Hl' Hu'].
  destruct (Z.lt_trichotomy (Zpos (digits2_pos m)) d) as [H|[H|H]]; [|done|].
  - pose proof (Z.pow_le_mono_r 2 (Zpos (digits2_pos m)) (d - 1)). lia.
  - pose proof (Z.pow_le_mono_r 2 d (Zpos (digits2_pos m) - 1)). lia.
Qed.

Lemma iter_xO m d : Zpos (Pos.iter xO m d) = Zpos m * 2 ^ Zpos d.
Proof.
  induction d as [|d IH] using Pos.peano_ind; [by rewrite Z.mul_comm|]. rewrite Pos.iter_succ, Pos2Z.inj_succ, Z.pow_succ_r by lia.
  rewrite Pos2Z.inj_xO, IH. lia.
Qed.

Lemma shl_align_spec m e e' : let (m', f) := shl_align m e e' in
  f = Z.min e e' /\ Zpos m' = Zpos m * 2 ^ (e - f) \/ e <= e' /\ f = e /\ m' = m.
Proof.
  unfold shl_align. destruct (e' - e) as [|d|d] eqn:E; [right; lia..|]. left. split; [lia|]. rewrite iter_xO. f_equal. f_equal. lia.
Qed.

Lemma digits_shift m m' k : 0 <= k -> Zpos m' = Zpos m * 2 ^ k -> Zpos (digits2_pos m') = Zpos (digits2_pos m) + k.
Proof.
  intros Hk E. pose proof (digits_bounds m). apply digits_unique; [lia|]. rewrite E.
  replace (Zpos (digits2_pos m) + k - 1) with ((Zpos (digits2_pos m) - 1) + k) by lia. rewrite !Z.pow_add_r by lia. nia.
Qed.

(** ** Rounding to the nearest multiple of a power of two, ties to even *)
Definition rounded (n k : Z) : Z :=
  let q := n / 2 ^ k in
  match Z.compare (2 * (n mod 2 ^ k)) (2 ^ k) with Lt => q | Eq => if Z.even q then q else q + 1 | Gt => q + 1 end.

Lemma rounded_range n k : 0 <= k -> n / 2 ^ k <= rounded n k <= n / 2 ^ k + 1.
Proof. intros Hk. unfold rounded. destruct (Z.compare_spec (2 * (n mod 2 ^ k)) (2 ^ k)); [destruct (Z.even _)|..]; lia. Qed.

Lemma rounded_mono n n' k : 0 <= k -> n <= n' -> rounded n k <= rounded n' k.
Proof.
  intros Hk Hn. assert (0 < 2 ^ k) by by apply Z.pow_pos_nonneg. pose proof (Z.div_le_mono n n' (2 ^ k) ltac:(lia) Hn) as Hq.
  pose proof (rounded_range n k Hk). pose proof (rounded_range n' k Hk). destruct (Z.eq_dec (n / 2 ^ k) (n' / 2 ^ k)) as [E|]; [|lia].
  pose proof (Z.div_mod n (2 ^ k) ltac:(lia)). pose proof (Z.div_mod n' (2 ^ k) ltac:(lia)). unfold rounded in *. rewrite <- E in *.
  destruct (Z.compare_spec (2 * (n mod 2 ^ k)) (2 ^ k)), (Z.compare_spec (2 * (n' mod 2 ^ k)) (2 ^ k)); try lia;
    destruct (Z.even (n / 2 ^ k)); lia.
Qed.

Lemma rounded_multiple c k : 0 <= k -> rounded (c * 2 ^ k) k = c.
Proof.
  intros Hk. assert (0 < 2 ^ k) by by apply Z.pow_pos_nonneg. unfold rounded. rewrite Z.mod_mul, Z.div_mul by lia.
  destruct (Z.compare_spec (2 * 0) (2 ^ k)); lia.
Qed.

Lemma rounded_scale m a b : 0 <= a -> 0 <= b -> rounded (m * 2 ^ a) (a + b) = rounded m b.
Proof.
  intros Ha Hb. assert (0 < 2 ^ a) by by apply Z.pow_pos_nonneg. assert (0 < 2 ^ b) by by apply Z.pow_pos_nonneg.
  unfold rounded. rewrite Z.add_comm, Z.pow_add_r, Z.div_mul_cancel_r, Z.mul_mod_distr_r, Z.mul_assoc, <- Zmult_compare_compat_r by lia. done.
Qed.

(** The bits shifted out: the half bit, and whether anything is below it. *)
Definition shifted (m k : Z) (rec : shr_record) : Prop :=
  0 <= shr_m rec /\ exists low, 2 * (m - shr_m rec * 2 ^ k) = Z.b2z (shr_r rec) * 2 ^ k + low /\ 0 <= low < 2 ^ k /\ shr_s rec = negb (low =? 0).

Lemma shr_1_shifted m k rec : 0 <= k -> shifted m k rec -> shifted m (k + 1) (shr_1 rec).
Proof.
  intros Hk (Hm & low & E & Hl & Hs). assert (Hp : 2 ^ (k + 1) = 2 * 2 ^ k) by (rewrite Z.pow_add_r by lia; lia).
  destruct rec as [q r s]. cbn in Hm, E, Hs. subst s.
  assert (Hgo : exists q' b, q = 2 * q' + Z.b2z b /\ 0 <= q' /\ shr_1 (Build_shr_record q r (negb (low =? 0))) = Build_shr_record q' b (r || negb (low =? 0))).
  { destruct q as [|[q|q|]|]; [exists 0, false|exists (Zpos q), true|exists (Zpos q), false|exists 0, true|lia]; (split_and!; [cbn; lia|lia|done]). }
  destruct Hgo as (q' & b & Eq & Hq & ->). subst q. split; [done|]. cbn [shr_m shr_r shr_s]. exists (Z.b2z r * 2 ^ k + low). rewrite Hp. split_and!.
  - destruct b, r; cbn in *; lia.
  - destruct r; cbn; lia.
  - destruct r; cbn; lia.
  - destruct r; cbn [orb Z.b2z]; [|by rewrite Z.mul_0_l]. destruct (Z.eqb_spec (1 * 2 ^ k + low) 0); [lia|done].
Qed.

Lemma iter_pos_nat {A} (f : A -> A) p : forall x, SpecFloat.iter_pos f p x = Nat.iter (Pos.to_nat p) f x.
Proof.
  induction p as [p IH|p IH|]; intros x; cbn [SpecFloat.iter_pos]; [..|done]; rewrite !IH.
  - rewrite Pos2Nat.inj_xI, Nat.iter_succ_r, <- Nat.iter_add. f_equal. lia.
  - rewrite Pos2Nat.inj_xO, <- Nat.iter_add. f_equal. lia.
Qed.

Lemma shr_spec m e k : 0 <= m -> let (rec, e') := shr (Build_shr_record m false false) e k in e' = e + Z.max 0 k /\ shifted m (Z.max 0 k) rec.
Proof.
  intros Hm. assert (H0 : shifted m 0 (Build_shr_record m false false)) by (split; [done|]; exists 0; cbn; lia).
  destruct k as [|p|p]; cbn [shr]; [split; [lia|done]| |split; [lia|done]]. split; [lia|]. rewrite iter_pos_nat, Z.max_r, <- positive_nat_Z by lia.
  induction (Pos.to_nat p) as [|j IH]; [done|]. rewrite Nat2Z.inj_succ, <- Z.add_1_r. apply shr_1_shifted; [lia|exact IH].
Qed.

Lemma shifted_rounds m k rec : 0 <= k -> shifted m k rec -> round_nearest_even (shr_m rec) (loc_of_shr_record rec) = rounded m k.
Proof.
  intros Hk (Hm & low & E & Hl & Hs). destruct rec as [q r s]. cbn [shr_m shr_r shr_s] in *. assert (0 < 2 ^ k) by by apply Z.pow_pos_nonneg.
  assert (Hr : 0 <= m - q * 2 ^ k < 2 ^ k) by (destruct r; cbn in E; lia).
  assert (Hq : m / 2 ^ k = q) by (symmetry; apply (Z.div_unique m (2 ^ k) q (m - q * 2 ^ k)); [by left|lia]).
  assert (Hrem : m mod 2 ^ k = m - q * 2 ^ k) by (symmetry; apply (Z.mod_unique m (2 ^ k) q); [by left|lia]).
  unfold rounded. rewrite Hq, Hrem, E. subst s. destruct (Z.eqb_spec low 0) as [H0|H0]; destruct r; cbn [loc_of_shr_record negb round_nearest_even Z.b2z];
    [destruct (Z.compare_spec (1 * 2 ^ k + low) (2 ^ k))|destruct (Z.compare_spec (0 * 2 ^ k + low) (2 ^ k))|
     destruct (Z.compare_spec (1 * 2 ^ k + low) (2 ^ k))|destruct (Z.compare_spec (0 * 2 ^ k + low) (2 ^ k))]; (done || lia).
Qed.

Lemma shifted_quotient m k rec : 0 <= k -> shifted m k rec -> shr_m rec = m / 2 ^ k.
Proof.
  intros Hk (Hm & low & E & Hl & _). assert (0 < 2 ^ k) by by apply Z.pow_pos_nonneg.
  apply (Z.div_unique m (2 ^ k) _ (m - shr_m rec * 2 ^ k)); [left; destruct (shr_r rec); cbn in E; lia|lia].
Qed.

Lemma digits_log2 m : Zpos (digits2_pos m) = Z.log2 (Zpos m) + 1.
Proof. pose proof (digits_bounds m). rewrite (Z.log2_unique (Zpos m) (Zpos (digits2_pos m) - 1)); [lia|lia|]. by replace (Z.succ (Zpos (digits2_pos m) - 1)) with (Zpos (digits2_pos m)) by lia. Qed.

Lemma shr_exact_quotient m e k : 0 <= m -> let (rec, e') := shr (shr_record_of_loc m loc_Exact) e k in e' = e + Z.max 0 k /\ shr_m rec = m / 2 ^ Z.max 0 k.
Proof.
  intros Hm. pose proof (shr_spec m e k Hm) as Hs. cbn [shr_record_of_loc]. destruct (shr _ e k) as [rec e']. destruct Hs as [He Hs].
  split; [done|]. by apply shifted_quotient; [lia|].
Qed.

(** ** A format: numbers of [prec] bits, the unit of the smallest *)
Section Format.
Context (prec emax : Z) (Hprec : 1 < prec) (Hmax : prec < emax).

Abbreviation emin := (SpecFloat.emin prec emax).

(** How many low bits of a number a float has no room for, and the number rounded. *)
Definition grain (n : Z) : Z := Z.max 0 (Z.log2 n + 1 - prec).
Definition near (n : Z) : Z := rounded n (grain n) * 2 ^ grain n.

Lemma grain_room n : 0 <= n -> n < 2 ^ (grain n + prec).
Proof.
  intros Hn. destruct (Z.eq_dec n 0) as [-> |]; [apply Z.pow_pos_nonneg; unfold grain; lia|].
  apply Z.log2_lt_pow2; unfold grain; lia.
Qed.

Lemma grain_full n : 0 < n -> 0 < grain n -> 2 ^ (prec - 1) <= n / 2 ^ grain n.
Proof.
  intros Hn Hg. assert (0 < 2 ^ grain n) by (apply Z.pow_pos_nonneg; lia). apply Z.div_le_lower_bound; [done|]. rewrite <- Z.pow_add_r by lia.
  apply Z.log2_le_pow2; unfold grain in *; lia.
Qed.

Lemma rounded_fits n : 0 <= n -> rounded n (grain n) <= 2 ^ prec.
Proof.
  intros Hn. assert (Hg : 0 <= grain n) by (unfold grain; lia). pose proof (rounded_range n (grain n) Hg). pose proof (grain_room n Hn) as Hr.
  rewrite Z.pow_add_r in Hr by lia. apply Z.div_lt_upper_bound in Hr; [lia|]. by apply Z.pow_pos_nonneg.
Qed.

Lemma near_mono n n' : 0 <= n <= n' -> near n <= near n'.
Proof.
  intros [Hn Hle]. assert (Hg : 0 <= grain n <= grain n') by (pose proof (Z.log2_le_mono n n' Hle); unfold grain; lia). unfold near.
  destruct (Z.eq_dec (grain n) (grain n')) as [<-|Hne].
  { apply Z.mul_le_mono_nonneg_r; [apply Z.pow_nonneg; lia|apply rounded_mono; lia]. }
  transitivity (2 ^ (prec + grain n)).
  - rewrite Z.pow_add_r by lia. apply Z.mul_le_mono_nonneg_r; [apply Z.pow_nonneg; lia|by apply rounded_fits].
  - transitivity (2 ^ (prec - 1) * 2 ^ grain n'); [rewrite <- Z.pow_add_r by lia; apply Z.pow_le_mono_r; lia|].
    apply Z.mul_le_mono_nonneg_r; [apply Z.pow_nonneg; lia|]. pose proof (rounded_range n' (grain n') ltac:(lia)).
    assert (0 < n') by (destruct (Z.eq_dec n' 0) as [-> |]; [unfold grain in *; cbn in *; lia|lia]). pose proof (grain_full n' ltac:(lia) ltac:(lia)). lia.
Qed.

(** A number of [prec] bits is not rounded. *)
Lemma near_exact c k : 0 <= c < 2 ^ prec -> 0 <= k -> near (c * 2 ^ k) = c * 2 ^ k.
Proof.
  intros [Hc Hlt] Hk. destruct (Z.eq_dec c 0) as [-> |Hne]; [rewrite Z.mul_0_l; unfold near; by rewrite <- (Z.mul_0_l (2 ^ grain 0)), rounded_multiple by (unfold grain; lia)|].
  apply Z.log2_lt_pow2 in Hlt; [|lia]. assert (Hg : 0 <= grain (c * 2 ^ k) <= k) by (unfold grain; rewrite Z.log2_mul_pow2 by lia; lia).
  unfold near. revert Hg. generalize (grain (c * 2 ^ k)). intros g Hg. assert (E : c * 2 ^ k = (c * 2 ^ (k - g)) * 2 ^ g).
  { rewrite <- Z.mul_assoc, <- Z.pow_add_r by lia. do 2 f_equal. lia. }
  rewrite E, rounded_multiple by lia. done.
Qed.

(** A float's value in units of the smallest, if it is a number. *)
Definition number (x : spec_float) : bool :=
  match x with S754_finite _ m e => bounded prec emax m e | S754_zero _ => true | _ => false end.
Definition units (x : spec_float) : Z :=
  match x with S754_finite s m e => cond_Zopp s (Zpos m * 2 ^ (e - emin)) | _ => 0 end.

Lemma bounded_spec m e : bounded prec emax m e = true <->
  e <= emax - prec /\ emin <= e /\ Zpos m < 2 ^ prec /\ (emin < e -> 2 ^ (prec - 1) <= Zpos m).
Proof.
  unfold bounded, canonical_mantissa, fexp. rewrite andb_true_iff, Z.eqb_eq, Z.leb_le. pose proof (digits_bounds m) as Hd. set (d := Zpos (digits2_pos m)) in *. split.
  - intros [E He]. split_and!; [done|lia| |].
    + pose proof (Z.pow_le_mono_r 2 d prec). lia.
    + intros Hlt. assert (prec = d) as -> by lia. lia.
  - intros (He & Hmin & Hlt & Hfull). split; [|done].
    assert (d <= prec). { destruct (Z.le_gt_cases d prec); [done|]. pose proof (Z.pow_le_mono_r 2 prec (d - 1)). lia. }
    destruct (Z.eq_dec e emin); [lia|]. assert (prec <= d); [|lia]. destruct (Z.le_gt_cases prec d); [done|].
    pose proof (Z.pow_le_mono_r 2 d (prec - 1)). lia.
Qed.

(** The exponent a rounding aims at. *)
Lemma fexp_grain m e : emin <= e -> fexp prec emax (Zpos (digits2_pos m) + e) = emin + grain (Zpos m * 2 ^ (e - emin)).
Proof. intros He. unfold fexp, grain. rewrite Z.log2_mul_pow2, digits_log2 by lia. lia. Qed.

Lemma number_finite s m e : emin <= e -> Zpos m < 2 ^ prec -> (emin < e -> 2 ^ (prec - 1) <= Zpos m) -> Zpos m * 2 ^ (e - emin) < 2 ^ (emax - emin) ->
  let x := if e <=? emax - prec then S754_finite s m e else S754_infinity s in number x = true /\ units x = cond_Zopp s (Zpos m * 2 ^ (e - emin)).
Proof.
  intros He Hm Hfull Hover. assert (Hle : e <= emax - prec).
  { destruct (Z.le_gt_cases e (emax - prec)) as [|Hgt]; [done|]. unfold SpecFloat.emin in *. specialize (Hfull ltac:(lia)).
    assert (2 ^ (emax - (3 - emax - prec)) <= 2 ^ (prec - 1) * 2 ^ (e - (3 - emax - prec))); [rewrite <- Z.pow_add_r by lia; apply Z.pow_le_mono_r; lia|].
    assert (0 < 2 ^ (e - (3 - emax - prec))) by (apply Z.pow_pos_nonneg; lia). nia. }
  rewrite (proj2 (Z.leb_le _ _) Hle). split; [|done]. by apply bounded_spec.
Qed.

Lemma binary_round_near s m e : emin <= e -> let n := Zpos m * 2 ^ (e - emin) in
  near n < 2 ^ (emax - emin) -> let x := binary_round prec emax s m e in number x = true /\ units x = cond_Zopp s (near n).
Proof.
  intros He n Hover. assert (Hn : 0 < n) by (apply Z.mul_pos_pos; [lia|apply Z.pow_pos_nonneg; lia]). unfold binary_round.
  pose proof (fexp_grain m e He) as Ef. fold n in Ef. assert (Hg : 0 <= grain n) by (unfold grain; lia).
  pose proof (shl_align_spec m e (fexp prec emax (Zpos (digits2_pos m) + e))) as Hal.
  destruct (shl_align _ _ _) as [mz ez].
  assert (Hz : emin <= ez <= emin + grain n /\ n = Zpos mz * 2 ^ (ez - emin)).
  { rewrite Ef in Hal. destruct Hal as [[-> E]|(Hle & -> & ->)]; [|split; [lia|done]]. split; [lia|]. rewrite E, <- Z.mul_assoc, <- Z.pow_add_r by lia.
    unfold n. do 2 f_equal. lia. }
  destruct Hz as [Hez En]. clear Hal. unfold binary_round_aux, shr_fexp. cbn [Zdigits2]. rewrite fexp_grain, <- En by lia.
  pose proof (shr_spec (Zpos mz) ez (emin + grain n - ez) ltac:(lia)) as Hs. cbn [shr_record_of_loc]. destruct (shr _ ez _) as [rec e1].
  destruct Hs as [-> Hs]. apply shifted_rounds in Hs; [|lia]. rewrite Hs. rewrite Z.max_r by lia. replace (ez + (emin + grain n - ez)) with (emin + grain n) by lia.
  assert (Eq : rounded (Zpos mz) (emin + grain n - ez) = rounded n (grain n)).
  { transitivity (rounded (Zpos mz * 2 ^ (ez - emin)) ((ez - emin) + (emin + grain n - ez))); [symmetry; apply rounded_scale; lia|rewrite <- En; f_equal; lia]. }
  rewrite Eq. clear Hs Eq rec. unfold near in *. remember (grain n) as g eqn:Eg. pose proof (rounded_fits n ltac:(lia)) as Hq. pose proof (rounded_range n g Hg) as Hr. rewrite <- Eg in Hq.
  assert (Hq1 : 0 < rounded n g /\ (0 < g -> 2 ^ (prec - 1) <= rounded n g)).
  { assert (0 < 2 ^ (prec - 1)) by (apply Z.pow_pos_nonneg; lia). destruct (Z.eq_dec g 0) as [E|].
    - rewrite E in *. change (2 ^ 0) with 1 in Hr. rewrite Z.div_1_r in Hr. lia.
    - pose proof (grain_full n Hn) as Hf. rewrite <- Eg in Hf. specialize (Hf ltac:(lia)). lia. }
  clear Hr. revert Hover Hq Hq1. generalize (rounded n g). intros q Hover Hq [Hpos Hfull]. destruct q as [|q|q]; try lia.
  set (k := fexp prec emax _ - _). pose proof (shr_exact_quotient (Zpos q) (emin + g) k ltac:(lia)) as Hs. cbn [shr_record_of_loc] in Hs. destruct (shr _ _ k) as [rec e2].
  destruct Hs as [-> ->]. assert (Hk : Zpos q < 2 ^ prec /\ Z.max 0 k = 0 \/ Zpos q = 2 ^ prec /\ Z.max 0 k = 1).
  { unfold k. cbn [Zdigits2]. rewrite fexp_grain by lia. unfold grain. replace (emin + g - emin) with g by lia. rewrite Z.log2_mul_pow2 by lia.
    destruct (Z.eq_dec (Zpos q) (2 ^ prec)) as [E|Hne]; [right; split; [done|]; rewrite E, Z.log2_pow2 by lia; lia|left; split; [lia|]].
    pose proof (proj1 (Z.log2_lt_pow2 (Zpos q) prec ltac:(lia)) ltac:(lia)). lia. }
  destruct Hk as [[Hlt ->]|[E ->]].
  - rewrite Z.pow_0_r, Z.div_1_r, Z.add_0_r. replace (Zpos q * 2 ^ g) with (Zpos q * 2 ^ (emin + g - emin)) in * by (do 2 f_equal; lia).
    apply number_finite; [lia|done|intros; apply Hfull; lia|done].
  - rewrite E in *. assert (Hh : 2 ^ prec = 2 ^ (prec - 1) * 2) by (rewrite Z.mul_comm, <- Z.pow_succ_r by lia; f_equal; lia).
    change (2 ^ 1) with 2. rewrite Hh, Z.div_mul by lia. assert (Hp : 0 < 2 ^ (prec - 1)) by (apply Z.pow_pos_nonneg; lia).
    assert (Hv : 2 ^ (prec - 1) * 2 * 2 ^ g = 2 ^ (prec - 1) * 2 ^ (emin + g + 1 - emin)).
    { replace (emin + g + 1 - emin) with (g + 1) by lia. rewrite Z.pow_add_r by lia. lia. }
    rewrite Hh in Hover. rewrite Hv in *. destruct (2 ^ (prec - 1)) as [|r|r] eqn:Er; try lia. apply number_finite; [lia|lia|lia|done].
Qed.

(** *** The sum *)
Definition near_z (n : Z) : Z := if n <? 0 then - near (- n) else near n.

Lemma near_nonneg n : 0 <= n -> 0 <= near n.
Proof. intros Hn. pose proof (near_mono 0 n ltac:(lia)) as H. assert (near 0 = 0) by (apply (near_exact 0 0); [split; [done|apply Z.pow_pos_nonneg; lia]|done]). lia. Qed.

Lemma near_z_mono n n' : n <= n' -> near_z n <= near_z n'.
Proof.
  intros Hn. unfold near_z. destruct (Z.ltb_spec n 0), (Z.ltb_spec n' 0); try lia.
  - pose proof (near_mono (- n') (- n)). lia.
  - pose proof (near_nonneg (- n)). pose proof (near_nonneg n'). lia.
  - pose proof (near_mono n n'). lia.
Qed.

Lemma near_z_opp s n : 0 < n -> near_z (cond_Zopp s n) = cond_Zopp s (near n).
Proof. intros Hn. unfold near_z. destruct s; cbn; [rewrite Z.opp_involutive; destruct (Z.ltb_spec (- n) 0); lia|destruct (Z.ltb_spec n 0); lia]. Qed.

Lemma near_z_exact c k : Z.abs c < 2 ^ prec -> 0 <= k -> near_z (c * 2 ^ k) = c * 2 ^ k.
Proof.
  intros Hc Hk. assert (0 < 2 ^ k) by by apply Z.pow_pos_nonneg. unfold near_z. destruct (Z.ltb_spec (c * 2 ^ k) 0).
  - rewrite <- Z.mul_opp_l, near_exact by nia. lia.
  - apply near_exact; nia.
Qed.

Lemma near_z_bound n c k : Z.abs n <= c * 2 ^ k -> 0 <= c < 2 ^ prec -> 0 <= k -> Z.abs (near_z n) <= c * 2 ^ k.
Proof.
  intros Hn Hc Hk. pose proof (near_z_mono (- c * 2 ^ k) n ltac:(lia)) as H1. pose proof (near_z_mono n (c * 2 ^ k) ltac:(lia)) as H2.
  rewrite near_z_exact in H1, H2 by lia. lia.
Qed.

Lemma align_units s m e ez : emin <= ez <= e -> cond_Zopp s (Zpos (fst (shl_align m e ez))) * 2 ^ (ez - emin) = units (S754_finite s m e).
Proof.
  intros He. pose proof (shl_align_spec m e ez) as H. destruct (shl_align m e ez) as [m' f]. cbn [fst units].
  assert (Zpos m' = Zpos m * 2 ^ (e - ez)) as E.
  { destruct H as [[-> E]|(Hle & -> & ->)]; [by rewrite Z.min_r in E by lia|]. assert (ez = e) as -> by lia. by rewrite Z.sub_diag, Z.mul_1_r. }
  replace (e - emin) with ((e - ez) + (ez - emin)) by lia. rewrite Z.pow_add_r, Z.mul_assoc, <- E by lia. destruct s; cbn [cond_Zopp]; lia.
Qed.

Lemma number_exact x : number x = true -> near_z (units x) = units x.
Proof.
  destruct x as [| | |s m e]; try done; cbn [units number]; [intros _; by rewrite <- (Z.mul_0_l (2 ^ 0)), near_z_exact by (try (apply Z.pow_pos_nonneg); lia)|].
  intros (_ & He & Hm & _)%bounded_spec. replace (cond_Zopp s (Zpos m * 2 ^ (e - emin))) with (cond_Zopp s (Zpos m) * 2 ^ (e - emin)) by (destruct s; cbn [cond_Zopp]; lia).
  apply near_z_exact; [destruct s; cbn [cond_Zopp]; lia|lia].
Qed.

Lemma SFadd_near x y : number x = true -> number y = true -> Z.abs (near_z (units x + units y)) < 2 ^ (emax - emin) ->
  number (SFadd prec emax x y) = true /\ units (SFadd prec emax x y) = near_z (units x + units y).
Proof.
  intros Hx Hy Hover. pose proof (number_exact x Hx) as Ex. pose proof (number_exact y Hy) as Ey.
  destruct x as [sx| | |sx mx ex], y as [sy| | |sy my ey]; try done; cbn [SFadd].
  - cbn [units] in *. rewrite Z.add_0_l, Ex. by destruct sx, sy.
  - split; [done|]. cbn [units] in *. by rewrite Z.add_0_r, Ex.
  - cbn [number] in *. apply bounded_spec in Hx as (_ & Hex & _), Hy as (_ & Hey & _). set (ez := Z.min ex ey).
    rewrite <- (align_units sx mx ex ez), <- (align_units sy my ey ez), <- Z.mul_add_distr_r in * by lia.
    set (t := _ + _) in *. clearbody t. clear Ex Ey. unfold binary_normalize.
    assert (Hz : 0 <= ez - emin) by lia. destruct t as [|t|t].
    + split; [done|]. cbn [units]. by rewrite near_z_exact by (try (apply Z.pow_pos_nonneg); lia).
    + assert (0 < Zpos t * 2 ^ (ez - emin)) by (apply Z.mul_pos_pos; [lia|by apply Z.pow_pos_nonneg]).
      pose proof (near_z_opp false _ H) as E. cbn [cond_Zopp] in E.
      destruct (binary_round_near false t ez ltac:(lia)) as [H1 H2]; [lia|]. split; [done|]. by rewrite H2, E.
    + assert (0 < Zpos t * 2 ^ (ez - emin)) by (apply Z.mul_pos_pos; [lia|by apply Z.pow_pos_nonneg]).
      pose proof (near_z_opp true _ H) as E. cbn [cond_Zopp] in E. replace (- (Zpos t * 2 ^ (ez - emin))) with (Zneg t * 2 ^ (ez - emin)) in E by lia.
      destruct (binary_round_near true t ez ltac:(lia)) as [H1 H2]; [lia|]. split; [done|]. by rewrite H2, E.
Qed.

(** *** The order *)
Lemma magnitude_lt m e m' e' : bounded prec emax m e = true -> bounded prec emax m' e' = true -> e < e' -> Zpos m * 2 ^ (e - emin) < Zpos m' * 2 ^ (e' - emin).
Proof.
  intros (_ & He & Hm & _)%bounded_spec (_ & He' & _ & Hfull)%bounded_spec Hlt. specialize (Hfull ltac:(lia)).
  apply Z.lt_le_trans with (2 ^ prec * 2 ^ (e - emin)); [apply Z.mul_lt_mono_pos_r; [apply Z.pow_pos_nonneg; lia|done]|].
  transitivity (2 ^ (prec - 1) * 2 ^ (e' - emin)); [rewrite <- !Z.pow_add_r by lia; apply Z.pow_le_mono_r; lia|].
  apply Z.mul_le_mono_nonneg_r; [apply Z.pow_nonneg; lia|done].
Qed.

Lemma magnitude_compare m e m' e' : bounded prec emax m e = true -> bounded prec emax m' e' = true ->
  match Z.compare e e' with Lt => Lt | Gt => Gt | Eq => Pos.compare_cont Eq m m' end = Z.compare (Zpos m * 2 ^ (e - emin)) (Zpos m' * 2 ^ (e' - emin)).
Proof.
  intros H H'. destruct (Z.compare_spec e e') as [<-|Hlt|Hlt].
  - apply bounded_spec in H as (_ & He & _). rewrite <- Zmult_compare_compat_r; [done|]. apply Z.lt_gt, Z.pow_pos_nonneg; lia.
  - symmetry. apply Z.compare_lt_iff. by apply magnitude_lt.
  - symmetry. apply Z.compare_gt_iff. by apply magnitude_lt.
Qed.

Lemma SFcompare_units x y : number x = true -> number y = true -> SFcompare x y = Some (Z.compare (units x) (units y)).
Proof.
  assert (Hpos : forall m e, bounded prec emax m e = true -> 0 < Zpos m * 2 ^ (e - emin)).
  { intros m e (_ & He & _)%bounded_spec. apply Z.mul_pos_pos; [lia|apply Z.pow_pos_nonneg; lia]. }
  intros Hx Hy. destruct x as [sx| | |sx m e], y as [sy| | |sy m' e']; try done; cbn [number] in *; cbn [SFcompare units].
  - specialize (Hpos _ _ Hy). f_equal. destruct sy; cbn [cond_Zopp]; symmetry; [apply Z.compare_gt_iff|apply Z.compare_lt_iff]; lia.
  - specialize (Hpos _ _ Hx). f_equal. destruct sx; cbn [cond_Zopp]; symmetry; [apply Z.compare_lt_iff|apply Z.compare_gt_iff]; lia.
  - pose proof (magnitude_compare m e m' e' Hx Hy) as Hc. apply Hpos in Hx, Hy. f_equal. destruct sx, sy; cbn [cond_Zopp].
    + rewrite Z.compare_opp, (Z.compare_antisym (Zpos m * 2 ^ (e - emin))), <- Hc. by destruct (Z.compare e e').
    + symmetry. apply Z.compare_lt_iff. lia.
    + symmetry. apply Z.compare_gt_iff. lia.
    + exact Hc.
Qed.
End Format.
