(* ===== verification/Tagging.v ===== *)
(** * Token taggers -- src/llm_redact/detection/tagging.py

    How the label scores of a BIOES or BILOU token tagger become spans: the labels read
    from the model's configuration, the constrained Viterbi decoder and the greedy one,
    and the reading of a label path as spans.  Scores are an ordered type with an addition:
    Python's floats ([binary64]), or the integers with minus infinity ([exact]). *)

From Stdlib Require Import SpecFloat.
From S2P Require Import Prelude Detection Json.

(** ** Scores *)
Class Scores (F : Type) : Type := {
  gtb : F -> F -> bool;
  addf : F -> F -> F;
  no_score : F;
  is_nan : F -> bool
}.

(** What the decoder needs of the scores it meets.  [fit k]: the sum of at most [k] of the
    scores and biases it was given, [k] at most [limit]; on these [>] is a strict weak order
    with [-inf] at the bottom, and [+] is monotone in its left operand and keeps [-inf].
    ([double_laws]: Python's floats up to 2^960 and minus infinity, whatever the biases'
    signs, for sums of fewer than 2^53 -- no sum of theirs is NaN or plus infinity.) *)
Class ScoreLaws (F : Type) `{Scores F} (fit : Z -> F -> Prop) (limit : Z) : Prop := {
  fit_no_score k : fit k no_score;
  fit_more j k x : j <= k -> fit j x -> fit k x;
  fit_add k x y : k < limit -> fit k x -> fit 1 y -> fit (k + 1) (addf x y);
  gtb_asym x y : gtb x y = true -> gtb y x = false;
  gtb_trans k x y z : fit k x -> fit k y -> fit k z -> gtb x y = false -> gtb y z = false -> gtb x z = false;
  no_score_least x : gtb no_score x = false;
  addf_mono k x y c : k < limit -> fit k x -> fit k y -> fit 1 c -> gtb x y = false -> gtb (addf x c) (addf y c) = false;
  addf_no_score c : fit 1 c -> gtb (addf no_score c) no_score = false
}.

(** Python's floats. *)
#[export] Instance binary64 : Scores spec_float := {
  gtb x y := match SFcompare x y with Some Gt => true | _ => false end;
  addf := SFadd 53 1024;
  no_score := S754_infinity true;
  is_nan x := match x with S754_nan => true | _ => false end
}.

(** Exact scores: minus infinity or an integer. *)
#[export] Instance exact : Scores (option Z) := {
  gtb x y := match x, y with Some a, Some b => b <? a | Some _, None => true | None, _ => false end;
  addf x y := match x, y with Some a, Some b => Some (a + b) | _, _ => None end;
  no_score := None;
  is_nan _ := false
}.

(** ** Tags *)
Inductive tag : Type := tB | tI | tE | tS | tO.
#[export] Instance tag_eq_dec : EqDecision tag.
Proof. solve_decision. Defined.

Inductive scheme : Type := BIO | BIOES | BILOU.

(** [TaggingError], by what it complains of. *)
Inductive tagging_error : Type := MixedSchemes | BadIndexes | MissingIndexes | BadCalibration.

(** A label the model may give: [TagSet], one row of [tags] and [entities]. *)
Record label : Type := mk_label { ltag : option tag; entity : pystr }.
Definition tagset : Type := list label.

Section Labels.
Context {K : Type} (int_of : K -> option Z) (is_letter : Z -> bool).

(** [_TAG_RE.match]: the tag's letter, in upper case. *)
Definition TAG_RE (l : pystr) : option Z :=
  match l with
  | t :: 45 :: c :: _ => if mem_char (ascii_upper t) (lit "BIESLU") && is_letter c then Some (ascii_upper t) else None
  | _ => None
  end.

Definition tagging_scheme (labels : list pystr) : result tagging_error scheme :=
  let tags := omap (fun l => TAG_RE (strip l)) labels in
  let has s := existsb (fun t => mem_char t (lit s)) tags in
  if has "ES"%string && has "LU"%string then Raise MixedSchemes
  else if has "ES"%string then Ok BIOES
  else if has "LU"%string then Ok BILOU
  else Ok BIO.

(** A tag's letter, BILOU's read as BIOES'. *)
Definition as_bioes (t : Z) : tag :=
  if t =? 66 then tB else if t =? 73 then tI else if (t =? 69) || (t =? 76) then tE else tS.

(** [label.upper() == "O"]: no other character's upper case is O. *)
Definition is_background (l : pystr) : bool := bool_decide (map ascii_upper l = lit "O").

Definition read_label (l : pystr) : label :=
  let l := strip l in
  match TAG_RE l with
  | Some t => mk_label (Some (as_bioes t)) (drop 2 l)
  | None => mk_label (if is_background l then Some tO else None) []
  end.

(** [{int(index): str(label) for ...}], later entries over earlier ones. *)
Fixpoint by_index (id2label : list (K * pystr)) (acc : gmap Z pystr) : option (gmap Z pystr) :=
  match id2label with
  | [] => Some acc
  | (k, l) :: more => match int_of k with Some i => by_index more (<[i := l]> acc) | None => None end
  end.

Definition indexed (id2label : list (K * pystr)) : result tagging_error (list pystr) :=
  match by_index id2label ∅ with
  | None => Raise BadIndexes
  | Some m => match mapM (fun i => m !! Z.of_nat i) (seq 0 (size m)) with Some ls => Ok ls | None => Raise MissingIndexes end
  end.

(** [TagSet.from_labels] *)
Definition from_labels (id2label : list (K * pystr)) : result tagging_error tagset :=
  match indexed id2label with Ok ls => Ok (map read_label ls) | Raise e => Raise e end.

(** [TagSet.from_bio_labels]: a label without a tag is I of itself. *)
Definition as_bio (l : pystr) (t : label) : label :=
  match ltag t with Some _ => t | None => mk_label (Some tI) (strip l) end.

Definition from_bio_labels (id2label : list (K * pystr)) : result tagging_error tagset :=
  match indexed id2label with Ok ls => Ok (map (fun l => as_bio l (read_label l)) ls) | Raise e => Raise e end.
End Labels.

(** ** The decoders *)
Record biases (F : Type) : Type := mk_biases { stay : F; enter : F; keep_on : F; close : F; leave : F; again : F }.
Arguments mk_biases {F} _ _ _ _ _ _.
Arguments stay {F} _.
Arguments enter {F} _.
Arguments keep_on {F} _.
Arguments close {F} _.
Arguments leave {F} _.
Arguments again {F} _.

Section Decoders.
Context {F : Type} `{Scores F}.

Abbreviation cand := (F * Z)%type.

(** [_finite] *)
Definition finite (rows : list (list F)) : list (list F) := map (map (fun s => if is_nan s then no_score else s)) rows.

(** [_best] *)
Definition better (best candidate : cand) : cand := if gtb candidate.1 best.1 then candidate else best.
Definition none : cand := (no_score, -1).
Definition best_of (candidates : list cand) : cand := fold_left better candidates none.

Definition at_score (l : list F) (j : nat) : F := nth j l no_score.

Context (ts : tagset).

Definition tag_of (j : nat) : option tag := ts !! j ≫= ltag.
Definition entity_of (j : nat) : pystr := default [] (entity <$> ts !! j).
Definition labels : list nat := seq 0 (length ts).

Definition opens (t : option tag) : bool := match t with Some (tO | tB | tS) => true | _ => false end.
Definition ends (t : option tag) : bool := match t with Some (tE | tS) => true | _ => false end.
Definition within (t : option tag) : bool := match t with Some (tB | tI) => true | _ => false end.

(** The labels of a kind with their scores. *)
Definition scored (p : nat -> bool) (score : list F) : list cand :=
  map (fun j => (at_score score j, Z.of_nat j)) (List.filter p labels).

(** [inside]: the best open label of each entity. *)
Definition keep_best (score : list F) (m : gmap pystr cand) (j : nat) : gmap pystr cand :=
  if within (tag_of j) && gtb (at_score score j) (default none (m !! entity_of j)).1 then <[entity_of j := (at_score score j, Z.of_nat j)]> m else m.

Definition inside (score : list F) : gmap pystr cand := fold_left (keep_best score) labels ∅.

Context (b : biases F).

(** One token: the best predecessor of every label. *)
Definition predecessor (score : list F) : nat -> cand :=
  let background := best_of (scored (fun j => bool_decide (tag_of j = Some tO)) score) in
  let ended := best_of (scored (fun j => ends (tag_of j)) score) in
  let ins := inside score in
  let to_background := best_of [(addf background.1 (stay b), background.2); (addf ended.1 (leave b), ended.2)] in
  let to_start := best_of [(addf background.1 (enter b), background.2); (addf ended.1 (again b), ended.2)] in
  fun j => match tag_of j with
           | Some tO => to_background
           | Some (tB | tS) => to_start
           | Some t =>
               let opened := default none (ins !! entity_of j) in
               (addf opened.1 (match t with tI => keep_on b | _ => close b end), opened.2)
           | None => none
           end.

Definition advance (score row : list F) : list F * list Z :=
  let previous := predecessor score in
  (map (fun j => addf (previous j).1 (at_score row j)) labels, map (fun j => (previous j).2) labels).

(** The pointers of every token after the first, the newest first. *)
Fixpoint forward (rows : list (list F)) (score : list F) (back : list (list Z)) : list F * list (list Z) :=
  match rows with
  | [] => (score, back)
  | row :: rows => let (score', pointers) := advance score row in forward rows score' (pointers :: back)
  end.

(** [pointers[i]], from the end where [i] is negative. *)
Definition py_at (l : list Z) (i : Z) : Z := nth (Z.to_nat (if i <? 0 then i + zlen l else i)) l (-1).

Fixpoint trace (back : list (list Z)) (last : Z) : list Z :=
  last :: match back with [] => [] | pointers :: back => trace back (py_at pointers last) end.

Definition start_score (row : list F) : list F := map (fun j => if opens (tag_of j) then at_score row j else no_score) labels.

(** Every index the decoder reads is there: else [IndexError]. *)
Definition readable (rows : list (list F)) : bool :=
  match rows with
  | [] => true
  | row :: rows => forallb (fun j => negb (opens (tag_of j)) || (j <? length row)%nat) labels && forallb (fun r => (length ts <=? length r)%nat) rows
  end.

Inductive index_error : Type := IndexError.

Definition viterbi_path (rows : list (list F)) : result index_error (option (list Z)) :=
  match finite rows with
  | [] => Ok (Some [])
  | row :: more =>
      if readable rows then
        let (score, back) := forward more (start_score row) [] in
        let (final, last) := best_of (scored (fun j => bool_decide (tag_of j = Some tO) || ends (tag_of j)) score) in
        if gtb final no_score then Ok (Some (rev (trace back last))) else Ok None
      else Raise IndexError
  end.
End Decoders.

(** [argmax_path] *)
Definition argmax_path {F} `{Scores F} (rows : list (list F)) : list Z :=
  map (fun row => (best_of (map (fun js => (js.2, Z.of_nat js.1)) (combine (seq 0 (length row)) row))).2) (finite rows).

(** [decoder_for] *)
Definition decoder_for {F} `{Scores F} (ts : tagset) (b : option (biases F)) (rows : list (list F)) : result index_error (list Z) :=
  match b with
  | None => Ok (argmax_path rows)
  | Some b => match viterbi_path ts b rows with
              | Ok (Some path) => Ok path
              | Ok None => Ok (argmax_path rows)
              | Raise e => Raise e
              end
  end.

(** ** Spans *)

(** [open]: the span being read, its first token and entity. *)
Record reading : Type := mk_reading { spans : list (Z * Z * pystr); open : option (Z * pystr) }.

(** [close] *)
Definition close_at (last : Z) (r : reading) : reading :=
  match open r with Some (first, e) => mk_reading (spans r ++ [(first, last, e)]) None | None => r end.

Definition read_token (ts : tagset) (index : Z) (lb : nat) (r : reading) : reading :=
  let e := entity_of ts lb in
  match tag_of ts lb with
  | Some ((tB | tI | tE | tS) as t) =>
      if match open r with Some (_, e0) => bool_decide (t = tI \/ t = tE) && bool_decide (e = e0) | None => false end
      then (if bool_decide (t = tE) then close_at index r else r)
      else let r := close_at (index - 1) r in
           if bool_decide (t = tS) then mk_reading (spans r ++ [(index, index, e)]) (open r)
           else let r := mk_reading (spans r) (Some (index, e)) in
                if bool_decide (t = tE) then close_at index r else r
  | _ => close_at (index - 1) r
  end.

Fixpoint read_tokens (ts : tagset) (index : Z) (path : list nat) (r : reading) : reading :=
  match path with [] => r | lb :: path => read_tokens ts (index + 1) path (read_token ts index lb r) end.

(** A list index of Python: from the end where negative. *)
Definition in_range (n : nat) (i : Z) : bool := (- Z.of_nat n <=? i) && (i <? Z.of_nat n).
Definition from_end (n : nat) (i : Z) : nat := Z.to_nat (if i <? 0 then i + Z.of_nat n else i).

Definition spans_of (path : list Z) (ts : tagset) : result index_error (list (Z * Z * pystr)) :=
  if forallb (in_range (length ts)) path then
    Ok (spans (close_at (zlen path - 1) (read_tokens ts 0 (map (from_end (length ts)) path) (mk_reading [] None))))
  else Raise IndexError.

(** ** The calibration file *)
Definition BIAS_KEYS : list pystr :=
  map lit ["transition_bias_background_stay"; "transition_bias_background_to_start"; "transition_bias_inside_to_continue";
           "transition_bias_inside_to_end"; "transition_bias_end_to_background"; "transition_bias_end_to_start"]%string.

(** [set(d) == set(keys)] *)
Definition has_exactly (d : list (pystr * json)) (keys : list pystr) : bool :=
  forallb (fun k => bool_decide (k ∈ keys)) (map fst d) && forallb (fun k => bool_decide (k ∈ map fst d)) keys.

(** The object under the only key. *)
Definition only (key : pystr) (d : list (pystr * json)) : option (list (pystr * json)) :=
  if has_exactly d [key] then match jget d key with Some (JDict x) => Some x | _ => None end else None.

(** [viterbi_biases]; [to_float]: [float(value)] where it is finite. *)
Definition viterbi_biases {F} (to_float : pystr -> option F) (calibration : list (pystr * json)) : result tagging_error (biases F) :=
  match (points ← only (lit "operating_points") calibration; default ← only (lit "default") points; only (lit "biases") default) with
  | Some d =>
      if has_exactly d BIAS_KEYS then
        match mapM (M := option) (fun k => match jget d k with Some (JNum repr) => to_float repr | _ => None end) BIAS_KEYS with
        | Some [st; en; ke; cl; le; ag] => Ok (mk_biases st en ke cl le ag)
        | _ => Raise BadCalibration
        end
      else Raise BadCalibration
  | None => Raise BadCalibration
  end.
