(* ===== verification/TaggingFacts.v ===== *)
(** * What the decoders of token taggers guarantee

    The Viterbi decoder returns a path of the scheme that no other path of the scheme
    scores above; the spans read from any path hold exactly the tokens it marks. *)

From Stdlib Require Import SpecFloat.
From S2P Require Import Prelude Doubles Detection Json Tagging.

(** ** The best candidate *)
Section Best.
Context {F : Type} `{ScoreLaws F fit limit} (k : Z).

Abbreviation le x y := (gtb x y = false).

Lemma le_refl x : le x x.
Proof. destruct (gtb x x) eqn:E; [|done]. pose proof (gtb_asym x x E). congruence. Qed.

Lemma gtb_le x y : gtb x y = true -> le y x.
Proof. apply gtb_asym. Qed.

(** What lies above something of [-inf] and over is above it. *)
Lemma gtb_raise x y : fit k x -> fit k y -> le x y -> gtb x no_score = true -> gtb y no_score = true.
Proof.
  intros Hx Hy Hl Hg. destruct (gtb y no_score) eqn:E; [done|].
  pose proof (gtb_trans k x y no_score Hx Hy (fit_no_score k) Hl E). congruence.
Qed.

Lemma better_best cs : forall best, fit k best.1 -> Forall (fun c => fit k c.1) cs ->
  let r := fold_left better cs best in
  fit k r.1 /\ le best.1 r.1 /\ (forall c, c ∈ cs -> le c.1 r.1) /\ (r = best \/ r ∈ cs /\ gtb r.1 best.1 = true).
Proof.
  induction cs as [|c cs IH]; intros best Hf Hcs; cbn [fold_left].
  - split_and!; [done|apply le_refl|by intros ? ?%not_elem_of_nil|by left].
  - apply list.Forall_cons_1 in Hcs as [Hc Hcs]. destruct (gtb c.1 best.1) eqn:E.
    + assert (better best c = c) as -> by (unfold better; by rewrite E). destruct (IH c Hc Hcs) as (Fr & Lr & Lc & Or). pose proof (gtb_le _ _ E) as Hbc. split_and!; [done| | |].
      * eapply (gtb_trans k _ c.1); eauto.
      * intros x [-> |Hx]%elem_of_cons; [done|by apply Lc].
      * right. destruct Or as [-> |[Hin Hg]]; [by split; [apply elem_of_cons; left|]|]. split; [by apply elem_of_cons; right|].
        destruct (gtb (fold_left better cs c).1 best.1) eqn:E2; [done|].
        pose proof (gtb_trans k _ _ _ Hc Fr Hf Lr E2). congruence.
    + assert (better best c = best) as -> by (unfold better; by rewrite E). destruct (IH best Hf Hcs) as (Fr & Lr & Lc & Or). split_and!; [done|done| |].
      * intros x [-> |Hx]%elem_of_cons; [|by apply Lc]. eapply (gtb_trans k _ best.1); eauto.
      * destruct Or as [-> |[Hin Hg]]; [by left|right]. split; [by apply elem_of_cons; right|done].
Qed.

Lemma best_of_spec cs : Forall (fun c => fit k c.1) cs -> let r := best_of cs in
  fit k r.1 /\ (forall c, c ∈ cs -> le c.1 r.1) /\ (gtb r.1 no_score = true -> r ∈ cs).
Proof.
  intros Hcs. destruct (better_best cs none (fit_no_score k) Hcs) as (Fr & _ & Lc & Or). fold (best_of cs) in *. split_and!; [done|done|].
  intros Hg. destruct Or as [Hr|[Hin _]]; [|done]. rewrite Hr in Hg. unfold none in Hg. cbn [fst] in Hg. by rewrite (no_score_least (fit := fit) (limit := limit)) in Hg.
Qed.
End Best.

(** ** Paths of the scheme and their scores *)
Section Paths.
Context {F : Type} `{Scores F} (ts : tagset) (b : biases F).

(** What may come after a label, and what the step costs. *)
Definition closed (j : nat) : bool := bool_decide (tag_of ts j = Some tO) || ends (tag_of ts j).

Definition follows (j k : nat) : bool :=
  match tag_of ts k with
  | Some (tO | tB | tS) => closed j
  | Some (tI | tE) => within (tag_of ts j) && bool_decide (entity_of ts j = entity_of ts k)
  | None => false
  end.

Definition bias (j k : nat) : F :=
  match tag_of ts k with
  | Some tO => if bool_decide (tag_of ts j = Some tO) then stay b else leave b
  | Some (tB | tS) => if bool_decide (tag_of ts j = Some tO) then enter b else again b
  | Some tI => keep_on b
  | _ => close b
  end.

(** The score of a path's continuation from a label scored [s]; None where the scheme
    forbids a step. *)
Fixpoint path_from (s : F) (j : nat) (rows : list (list F)) (path : list nat) : option F :=
  match rows, path with
  | [], [] => Some s
  | row :: rows, k :: path => if follows j k then path_from (addf (addf s (bias j k)) (at_score row k)) k rows path else None
  | _, _ => None
  end.

(** A path of the scheme for the rows, and its score. *)
Definition path_score (rows : list (list F)) (path : list nat) : option F :=
  match rows, path with
  | row :: rows, j :: path =>
      if opens (tag_of ts j) && closed (List.last path j) then path_from (at_score row j) j rows path else None
  | _, _ => None
  end.
End Paths.

Section Viterbi.
Context {F : Type} `{ScoreLaws F fit limit} (ts : tagset) (b : biases F).
Context (Hb : Forall (fit 1) [stay b; enter b; keep_on b; close b; leave b; again b]).

Abbreviation le x y := (gtb x y = false).
Abbreviation n := (length ts).

Lemma bias_fit j k : fit 1 (bias ts b j k).
Proof.
  pose proof (proj1 (list.Forall_forall _ _) Hb) as Hf. unfold bias. destruct (tag_of ts k) as [[]|]; try case_bool_decide; apply Hf; set_solver.
Qed.

Lemma tag_in j t : tag_of ts j = Some t -> (j < n)%nat.
Proof. unfold tag_of. destruct (ts !! j) eqn:E; [|done]. intros _. by apply lookup_lt_Some in E. Qed.

Lemma at_map (f : nat -> F) j : (j < n)%nat -> at_score (map f (labels ts)) j = f j.
Proof.
  intros Hj. unfold at_score, labels. rewrite (nth_indep _ no_score (f 0%nat)) by (by rewrite length_map, length_seq).
  rewrite map_nth, seq_nth by done. done.
Qed.

Lemma label_in j : j ∈ labels ts <-> (j < n)%nat.
Proof. unfold labels. rewrite list_elem_of_In, in_seq. lia. Qed.

(** Scores that are fit label by label. *)
Definition fits (g : Z) (score : list F) : Prop := forall j, (j < n)%nat -> fit g (at_score score j).

Lemma scored_spec g p score : fits g score -> let r := best_of (scored ts p score) in
  fit g r.1 /\ (forall j, (j < n)%nat -> p j = true -> le (at_score score j) r.1) /\
  (gtb r.1 no_score = true -> exists j, (j < n)%nat /\ p j = true /\ r = (at_score score j, Z.of_nat j)).
Proof.
  intros Hs. assert (Hin : forall c, c ∈ scored ts p score <-> exists j, (j < n)%nat /\ p j = true /\ c = (at_score score j, Z.of_nat j)).
  { intros c. unfold scored. rewrite list_elem_of_fmap. setoid_rewrite elem_filter. setoid_rewrite label_in. naive_solver. }
  destruct (best_of_spec g (scored ts p score)) as (Hf & Hl & Hg).
  - apply list.Forall_forall. intros c (j & Hj & _ & ->)%Hin. by apply Hs.
  - split_and!; [done| |].
    + intros j Hj Hp. apply (Hl (at_score score j, Z.of_nat j)), Hin. by exists j.
    + intros Hr. by apply Hin, Hg.
Qed.
Lemma inside_spec g score e : fits g score -> let r := default none (inside ts score !! e) in
  fit g r.1 /\ (forall j, (j < n)%nat -> within (tag_of ts j) = true -> entity_of ts j = e -> le (at_score score j) r.1) /\
  (gtb r.1 no_score = true -> exists j, (j < n)%nat /\ within (tag_of ts j) = true /\ entity_of ts j = e /\ r = (at_score score j, Z.of_nat j)).
Proof.
  intros Hs. unfold inside.
  enough (Hgo : forall l, (forall j, j ∈ l -> (j < n)%nat) -> forall e,
    let r := default none (fold_left (keep_best ts score) l ∅ !! e) in
    fit g r.1 /\ (forall j, j ∈ l -> within (tag_of ts j) = true -> entity_of ts j = e -> le (at_score score j) r.1) /\
    (gtb r.1 no_score = true -> exists j, j ∈ l /\ within (tag_of ts j) = true /\ entity_of ts j = e /\ r = (at_score score j, Z.of_nat j))).
  { destruct (Hgo (labels ts) (fun j => proj1 (label_in j)) e) as (Hf & Hl & Hg). split_and!; [done| |].
    - intros j Hj. apply Hl. by apply label_in.
    - intros Hr. destruct (Hg Hr) as (j & Hj & Hrest). exists j. split; [by apply label_in|done]. }
  clear e. induction l as [|j l IH] using rev_ind; intros Hin e; cbn [fold_left].
  { rewrite lookup_empty. cbn [default from_option]. split_and!; [apply fit_no_score|by intros ? ?%not_elem_of_nil|].
    unfold none. cbn [fst]. by rewrite (no_score_least (fit := fit) (limit := limit)). }
  rewrite fold_left_app. cbn [fold_left].
  assert (Hpre : forall j', j' ∈ l -> (j' < n)%nat) by (intros j' Hj'; apply Hin, elem_of_app; by left).
  pose proof (IH Hpre) as IHall. clear IH.
  set (m := fold_left _ l ∅) in *. unfold keep_best. assert (Hj : (j < n)%nat) by (apply Hin, elem_of_app; right; by apply list_elem_of_singleton).
  destruct (within (tag_of ts j) && gtb (at_score score j) (default none (m !! entity_of ts j)).1) eqn:E.
  - apply andb_true_iff in E as [Ew Eg]. destruct (decide (entity_of ts j = e)) as [<-|Hne].
    + rewrite lookup_insert_eq. cbn [default from_option fst]. unfold id. cbn [fst]. destruct (IHall (entity_of ts j)) as (Hf & Hl & Hg).
      split_and!; [by apply Hs| |].
      * intros k [Hk|Hk]%elem_of_app Hkw Hke; [|apply list_elem_of_singleton in Hk as ->; apply le_refl].
        eapply (gtb_trans g _ (default none (m !! entity_of ts j)).1); [by apply Hs, Hpre|done|by apply Hs|by apply Hl|by apply gtb_asym].
      * intros _. exists j. split_and!; [apply elem_of_app; right; by apply list_elem_of_singleton|done..].
    + rewrite lookup_insert_ne by done. destruct (IHall e) as (Hf & Hl & Hg). split_and!; [done| |].
      * intros k [Hk|Hk]%elem_of_app Hkw Hke; [by apply Hl|]. apply list_elem_of_singleton in Hk as ->. done.
      * intros Hr. destruct (Hg Hr) as (k & Hk & Hrest). exists k. split; [apply elem_of_app; by left|done].
  - destruct (IHall e) as (Hf & Hl & Hg). split_and!; [done| |].
    + intros k [Hk|Hk]%elem_of_app Hkw Hke; [by apply Hl|]. apply list_elem_of_singleton in Hk as ->. subst e. by rewrite Hkw in E.
    + intros Hr. destruct (Hg Hr) as (k & Hk & Hrest). exists k. split; [apply elem_of_app; by left|done].
Qed.
Lemma add_raises g x c : g < limit -> fit g x -> fit 1 c -> gtb (addf x c) no_score = true -> gtb x no_score = true.
Proof.
  intros Hl Hx Hc Hg. destruct (gtb x no_score) eqn:E; [done|].
  pose proof (addf_mono g x no_score c Hl Hx (fit_no_score g) Hc E) as Hm. pose proof (addf_no_score c Hc) as Hn.
  pose proof (gtb_trans (g + 1) _ _ no_score (fit_add g _ _ Hl Hx Hc) (fit_add g _ _ Hl (fit_no_score g) Hc) (fit_no_score _) Hm Hn). congruence.
Qed.

(** What a step into a label owes: the best of what may come before. *)
Definition best_step (g : Z) (score : list F) (allowed : nat -> bool) (cost : nat -> F) (r : F * Z) : Prop :=
  fit g r.1 /\ (forall j, (j < n)%nat -> allowed j = true -> le (addf (at_score score j) (cost j)) r.1) /\
  (gtb r.1 no_score = true -> exists j, (j < n)%nat /\ allowed j = true /\ gtb (at_score score j) no_score = true /\
     r = (addf (at_score score j) (cost j), Z.of_nat j)).

(** One kind of predecessor, every label of it at the same cost. *)
Lemma same_cost g score p c r : g < limit -> fits g score -> fit 1 c -> fit g r.1 -> (forall j, (j < n)%nat -> p j = true -> le (at_score score j) r.1) ->
  (gtb r.1 no_score = true -> exists j, (j < n)%nat /\ p j = true /\ r = (at_score score j, Z.of_nat j)) ->
  best_step (g + 1) score p (fun _ => c) (addf r.1 c, r.2).
Proof.
  intros Hlt Hs Hc Hf Hl Hg. split_and!; [by apply fit_add| |].
  - intros j Hj Hp. by apply (addf_mono g); [done|apply Hs|..|apply Hl].
  - cbn [fst]. intros Hr%(add_raises g); [|done..]. destruct (Hg Hr) as (j & Hj & Hp & ->). by exists j.
Qed.

(** Of two kinds of predecessor the better. *)
Lemma either_step g score (p q : nat -> bool) (cost : nat -> F) c d x y : g < limit -> fits g score -> fit 1 c -> fit 1 d ->
  (forall j, p j = true -> cost j = c) -> (forall j, q j = true -> cost j = d) ->
  best_step (g + 1) score p (fun _ => c) x -> best_step (g + 1) score q (fun _ => d) y -> best_step (g + 1) score (fun j => p j || q j) cost (best_of [x; y]).
Proof.
  intros Hlt Hs Fc Fd Hc Hd (Fx & Lx & Gx) (Fy & Ly & Gy). destruct (best_of_spec (g + 1) [x; y]) as (Hf & Hl & Hg); [by repeat constructor|].
  assert (Hx : le x.1 (best_of [x; y]).1) by (apply Hl; set_solver). assert (Hy : le y.1 (best_of [x; y]).1) by (apply Hl; set_solver). split_and!; [done| |].
  - intros j Hj [Hp|Hp]%orb_true_iff.
    + rewrite (Hc j Hp). eapply (gtb_trans (g + 1) _ x.1); [by apply fit_add; [done|apply Hs|]|done|done|by apply Lx|done].
    + rewrite (Hd j Hp). eapply (gtb_trans (g + 1) _ y.1); [by apply fit_add; [done|apply Hs|]|done|done|by apply Ly|done].
  - intros Hr. pose proof (Hg Hr) as Hin. apply elem_of_cons in Hin as [E|E%list_elem_of_singleton]; rewrite E in Hr |- *.
    + destruct (Gx Hr) as (j & Hj & Hp & Hsj & ->). exists j. rewrite (Hc j Hp), Hp. done.
    + destruct (Gy Hr) as (j & Hj & Hp & Hsj & ->). exists j. rewrite (Hd j Hp), Hp, orb_true_r. done.
Qed.

Lemma predecessor_spec g score k : g < limit -> fits g score -> (k < n)%nat -> best_step (g + 1) score (fun j => follows ts j k) (fun j => bias ts b j k) (predecessor ts b score k).
Proof.
  intros Hlt Hs Hk. pose proof (proj1 (list.Forall_forall _ _) Hb) as Hf. unfold predecessor, follows, bias.
  destruct (scored_spec g (fun j => bool_decide (tag_of ts j = Some tO)) score Hs) as (Fb & Lb & Gb).
  destruct (scored_spec g (fun j => ends (tag_of ts j)) score Hs) as (Fe & Le & Ge). destruct (inside_spec g score (entity_of ts k) Hs) as (Fi & Li & Gi).
  assert (Hends : forall j, ends (tag_of ts j) = true -> bool_decide (tag_of ts j = Some tO) = false) by (intros j; by destruct (tag_of ts j) as [[]|]).
  destruct (tag_of ts k) as [[]|].
  all: try (eapply (either_step g); [done|done| | | |by intros j ->%Hends|eapply (same_cost g); [done|done| |apply Fb|apply Lb|apply Gb]|eapply (same_cost g); [done|done| |apply Fe|apply Le|apply Ge]];
    try (apply Hf; set_solver); by intros j ->).
  all: try (apply (same_cost g); [done|done|apply Hf; set_solver|done| |];
    [intros j Hj [Hw He%bool_decide_eq_true]%andb_true_iff; by apply Li|
     intros Hr; destruct (Gi Hr) as (j & Hj & Hw & He & ->); exists j; by rewrite Hw, He, bool_decide_eq_true_2]).
  split_and!; [apply fit_no_score|done|]. unfold none. cbn [fst]. by rewrite (no_score_least (fit := fit) (limit := limit)).
Qed.

(** *** The forward pass *)
Lemma last_step {A} (x : A) l d : List.last (x :: l) d = List.last l x.
Proof.
  revert x d. induction l as [|y l IH]; intros x d; [done|]. change (List.last (y :: l) d = List.last (y :: l) x). by rewrite !IH.
Qed.

Lemma fit_add2 g x y z : g + 1 < limit -> fit g x -> fit 1 y -> fit 1 z -> fit (g + 2) (addf (addf x y) z).
Proof. intros Hg Hx Hy Hz. replace (g + 2) with (g + 1 + 1) by lia. apply fit_add; [done| |done]. apply fit_add; [lia|done..]. Qed.

Lemma advance_fits g score row : g + 1 < limit -> fits g score -> fits 1 row -> fits (g + 2) (advance ts b score row).1.
Proof.
  intros Hg Hs Hr j Hj. unfold advance. cbn [fst]. rewrite at_map by done. replace (g + 2) with (g + 1 + 1) by lia.
  apply fit_add; [done| |by apply Hr]. apply predecessor_spec; [lia|done..].
Qed.

Lemma pointer_at score row j : (j < n)%nat -> py_at (advance ts b score row).2 (Z.of_nat j) = (predecessor ts b score j).2.
Proof.
  intros Hj. unfold advance, py_at. cbn [snd]. replace (Z.of_nat j <? 0) with false by lia. rewrite Nat2Z.id. unfold labels.
  rewrite (nth_indep _ (-1) ((predecessor ts b score 0%nat).2)) by (by rewrite length_map, length_seq).
  rewrite (map_nth (fun j => (predecessor ts b score j).2)), seq_nth by done. done.
Qed.

(** Of the rows that are left: every path is worth at most what the pass computes for its
    last label, and what it computes is the worth of the path its pointers trace. *)
Lemma forward_spec rows : forall g score back, g + 2 * zlen rows <= limit -> fits g score -> Forall (fits 1) rows -> let (final, back') := forward ts b rows score back in
  fits (g + 2 * zlen rows) final /\
  (forall j path s k w, (j < n)%nat -> fit g s -> le s (at_score score j) -> path_from ts b s j rows path = Some w -> k = List.last path j -> le w (at_score final k)) /\
  (forall k, (k < n)%nat -> gtb (at_score final k) no_score = true ->
    exists j path, (j < n)%nat /\ gtb (at_score score j) no_score = true /\ path_from ts b (at_score score j) j rows path = Some (at_score final k) /\
      k = List.last path j /\ Forall (fun i => (i < n)%nat) path /\
      trace back' (Z.of_nat k) = rev (map Z.of_nat path) ++ trace back (Z.of_nat j)).
Proof.
  induction rows as [|row rows IH]; intros g score back Hg Hs Hrows.
  - cbn [forward]. change (zlen []) with 0. rewrite Z.mul_0_r, Z.add_0_r. split_and!; [done| |].
    + intros j [|k0 path] s k w Hj Hfs Hl; cbn [path_from]; [|done]. by intros [= <-] ->.
    + intros k Hk Hgk. exists k, []. by split_and!.
  - cbn [forward]. apply list.Forall_cons_1 in Hrows as [Hrow Hrows]. assert (Hz : zlen (row :: rows) = 1 + zlen rows) by (unfold zlen; cbn; lia). assert (Hn0 : 0 <= zlen rows) by (unfold zlen; lia). rewrite Hz in *.
    replace (g + 2 * (1 + zlen rows)) with ((g + 2) + 2 * zlen rows) in * by lia. pose proof (advance_fits g score row ltac:(lia) Hs Hrow) as Ha.
    pose proof (fun j => at_map (fun j => addf (predecessor ts b score j).1 (at_score row j)) j) as Hnew. pose proof (pointer_at score row) as Hptr.
    unfold advance in *. cbn [fst snd] in *. specialize (IH (g + 2) _ (map (fun j => (predecessor ts b score j).2) (labels ts) :: back) Hg Ha Hrows).
    destruct (forward ts b rows _ _) as [final back']. destruct IH as (Hf & Hup & Hat). split_and!; [done| |].
    + intros j [|k0 path] s k w Hj Hfs Hl; cbn [path_from]; [done|]. destruct (follows ts j k0) eqn:Efol; [|done]. intros Hp Hk.
      assert (Hk0 : (k0 < n)%nat) by (unfold follows in Efol; destruct (tag_of ts k0) eqn:Et; [by eapply tag_in|done]).
      eapply (Hup k0 path _ _ w Hk0); [| |exact Hp|by rewrite Hk, last_step]; [apply fit_add2; [lia|done|apply bias_fit|by apply Hrow]|].
      rewrite Hnew by done. destruct (predecessor_spec g score k0 ltac:(lia) Hs Hk0) as (Fp & Lp & _).
      assert (Fs : fit (g + 1) (addf s (bias ts b j k0))) by (apply fit_add; [lia|done|apply bias_fit]).
      apply (addf_mono (g + 1)); [lia|done|done|by apply Hrow|]. eapply (gtb_trans (g + 1) _ (addf (at_score score j) (bias ts b j k0))); [done| |done| |by apply Lp].
      * apply fit_add; [lia|by apply Hs|apply bias_fit].
      * apply (addf_mono g); [lia|done|by apply Hs|apply bias_fit|done].
    + intros k Hk Hgk. destruct (Hat k Hk Hgk) as (k0 & path & Hk0 & Hg0 & Hp & Hlast & Hall & Htr). rewrite Hnew in Hg0, Hp by done.
      destruct (predecessor_spec g score k0 ltac:(lia) Hs Hk0) as (Fp & _ & Gp). apply (add_raises (g + 1)) in Hg0; [|lia|done|by apply Hrow].
      destruct (Gp Hg0) as (j & Hj & Hfol & Hgj & Er). exists j, (k0 :: path). split_and!; [done|done| | |by constructor|].
      * cbn [path_from]. rewrite Hfol. by rewrite Er in Hp.
      * by rewrite Hlast, last_step.
      * rewrite Htr. cbn [map rev]. rewrite <- app_assoc. f_equal. cbn [trace app]. by rewrite Hptr, Er.
Qed.
(** *** The whole decoder *)
Definition scores_fit (rows : list (list F)) : Prop := Forall (Forall (fun s => is_nan s = true \/ fit 1 s)) rows.

Lemma finite_fits rows : scores_fit rows -> Forall (fits 1) (finite rows).
Proof.
  intros Hr. unfold finite. apply Forall_fmap. eapply list.Forall_impl; [exact Hr|]. intros row Hrow j _. cbn. unfold at_score.
  destruct (nth_in_or_default j (map (fun s => if is_nan s then no_score else s) row) no_score) as [Hin| ->]; [|apply fit_no_score].
  apply in_map_iff in Hin as (s & <- & Hin%list_elem_of_In). destruct (proj1 (list.Forall_forall _ _) Hrow s Hin) as [-> |Hs]; [apply fit_no_score|].
  destruct (is_nan s); [apply fit_no_score|done].
Qed.

Lemma start_fits row : fits 1 row -> fits 1 (start_score ts row).
Proof. intros Hr j Hj. unfold start_score. rewrite at_map by done. destruct (opens _); [by apply Hr|apply fit_no_score]. Qed.

Lemma follows_in j k : follows ts j k = true -> (k < n)%nat.
Proof. unfold follows. destruct (tag_of ts k) eqn:Et; [|done]. intros _. by eapply tag_in. Qed.

Lemma path_fit rows : Forall (fits 1) rows -> forall path g s j w, g + 2 * zlen rows <= limit -> fit g s -> path_from ts b s j rows path = Some w -> fit (g + 2 * zlen rows) w.
Proof.
  induction 1 as [|row rows Hrow _ IH]; intros [|k path] g s j w Hg Hs; cbn [path_from];
    [intros [= <-]; change (zlen []) with 0; by rewrite Z.mul_0_r, Z.add_0_r|done|done|].
  assert (Hz : zlen (row :: rows) = 1 + zlen rows) by (unfold zlen; cbn; lia). assert (Hn0 : 0 <= zlen rows) by (unfold zlen; lia). rewrite Hz in *.
  replace (g + 2 * (1 + zlen rows)) with ((g + 2) + 2 * zlen rows) in * by lia. destruct (follows ts j k) eqn:Ef; [|done]. apply IH; [done|].
  apply fit_add2; [lia|done|apply bias_fit|by eapply Hrow, follows_in].
Qed.

(** A path of the scheme that no other is worth more than. *)
Definition best_path (rows : list (list F)) (path : list Z) : Prop :=
  exists p w, path = map Z.of_nat p /\ path_score ts b rows p = Some w /\ gtb w no_score = true /\
    forall q w', path_score ts b rows q = Some w' -> le w' w.

(** C31: on a row of scores per token -- NaN read as minus infinity, the others and the six
    biases, of any sign, small enough that no path's sum overflows ([ScoreLaws]; of Python's
    floats those up to 2^960 in size, for fewer than 2^52 tokens) -- the decoder returns a
    path of the scheme (it opens with O, B or S, keeps each span's entity, closes every
    span) that no path of the scheme scores above, or none where every such path scores
    minus infinity; it raises IndexError exactly on a row too short: the first without a
    label that may open a path, a later one without some label. *)
Theorem viterbi_path_optimal rows : rows <> [] -> scores_fit rows -> 2 * zlen rows <= limit ->
  match viterbi_path ts b rows with
  | Ok (Some path) => readable ts rows = true /\ best_path (finite rows) path
  | Ok None => readable ts rows = true /\ forall q w', path_score ts b (finite rows) q = Some w' -> le w' no_score
  | Raise IndexError => readable ts rows = false
  end.
Proof.
  intros Hne Hfit Hlim. unfold viterbi_path, best_path. apply finite_fits in Hfit. assert (Hz : zlen (finite rows) = zlen rows) by (unfold zlen, finite; by rewrite length_map).
  destruct (finite rows) as [|row more] eqn:E; [by destruct rows|].
  destruct (readable ts rows); [|done]. assert (Hz' : zlen (row :: more) = 1 + zlen more) by (unfold zlen; cbn; lia).
  apply list.Forall_cons_1 in Hfit as [Hrow Hmore]. pose proof (forward_spec more 1 _ [] ltac:(lia) (start_fits row Hrow) Hmore) as Hfw.
  destruct (forward ts b more _ _) as [final back]. destruct Hfw as (Hf & Hup & Hat). set (g := 1 + 2 * zlen more) in *.
  destruct (scored_spec g (fun j => bool_decide (tag_of ts j = Some tO) || ends (tag_of ts j)) final Hf) as (Fr & Lr & Gr).
  destruct (best_of _) as [worth last]. cbn [fst snd] in *.
  assert (Hall : forall q w', path_score ts b (row :: more) q = Some w' -> fit g w' /\ le w' worth).
  { intros [|j path] w'; cbn [path_score]; [done|]. destruct (opens (tag_of ts j)) eqn:Eo; [|done]. destruct (closed ts (List.last path j)) eqn:Ec; [|done]. cbn [andb].
    intros Hp. assert (Hj : (j < n)%nat) by (destruct (tag_of ts j) eqn:Et; [by eapply tag_in|done]).
    assert (Hk : (List.last path j < n)%nat) by (unfold closed in Ec; destruct (tag_of ts (List.last path j)) eqn:Et; [by eapply tag_in|done]).
    assert (Fw : fit g w') by (eapply (path_fit more Hmore _ 1); [lia| |exact Hp]; by apply Hrow).
    split; [done|]. eapply (gtb_trans g _ (at_score final (List.last path j))); [done|by apply Hf|done| |by apply Lr].
    apply (Hup j path (at_score row j) _ w'); [done|by apply Hrow| |done|done]. unfold start_score. rewrite at_map, Eo by done. apply le_refl. }
  destruct (gtb worth no_score) eqn:Eg; (split; [done|]); [|intros q w' Hq].
  - destruct (Gr eq_refl) as (k & Hk & Hck & [= -> ->]). destruct (Hat k Hk Eg) as (j & path & Hj & Hgj & Hp & -> & _ & Htr).
    assert (Eo : opens (tag_of ts j) = true). { unfold start_score in Hgj. rewrite at_map in Hgj by done. destruct (opens _); [done|]. by rewrite (no_score_least (fit := fit) (limit := limit)) in Hgj. }
    exists (j :: path), (at_score final (List.last path j)). split_and!; [|by cbn [path_score]; unfold closed; rewrite Eo, Hck; unfold start_score in Hp; rewrite at_map, Eo in Hp by done|done|by intros q w' Hq; apply (Hall q w' Hq)].
    rewrite Htr, rev_app_distr, rev_involutive. done.
  - destruct (Hall q w' Hq) as [Hfw Hle]. by eapply (gtb_trans g _ worth); [..|apply (fit_no_score (limit := limit))| |].
Qed.
End Viterbi.

(** ** Spans *)
Section Spans.
Context (ts : tagset).

Abbreviation span := (Z * Z * pystr)%type.
Definition sfirst (s : span) : Z := s.1.1.
Definition slast (s : span) : Z := s.1.2.

Definition marked (lb : nat) : bool := match tag_of ts lb with Some (tB | tI | tE | tS) => true | _ => false end.

(** A token of a path: its label. *)
Definition token (p : list nat) (i : Z) (lb : nat) : Prop := 0 <= i /\ p !! Z.to_nat i = Some lb.

(** The spans of a path, in order and apart, hold exactly the tokens it marks, each by its
    own entity. *)
Definition exact_spans (p : list nat) (sp : list span) : Prop :=
  StronglySorted (fun s s' => slast s < sfirst s') sp /\
  (forall s, s ∈ sp -> 0 <= sfirst s <= slast s /\ slast s < zlen p) /\
  (forall s i, s ∈ sp -> sfirst s <= i <= slast s -> exists lb, token p i lb /\ marked lb = true /\ entity_of ts lb = s.2) /\
  (forall i lb, token p i lb -> marked lb = true -> exists s, s ∈ sp /\ sfirst s <= i <= slast s).

Lemma token_snoc p lb i x : token (p ++ [lb]) i x <-> token p i x \/ (i = zlen p /\ x = lb).
Proof.
  unfold token, zlen. split.
  - intros [Hi [Hl|[Hl Hx]]%lookup_app_Some]; [by left|]. right. apply list_lookup_singleton_Some in Hx as [Hz ->]. split; [lia|done].
  - intros [[Hi Hl]|[-> ->]]; (split; [lia|]); [by apply lookup_app_l_Some|]. rewrite Nat2Z.id. by rewrite lookup_app_r, Nat.sub_diag by lia.
Qed.

Lemma zlen_snoc {A} (l : list A) x : zlen (l ++ [x]) = zlen l + 1.
Proof. unfold zlen. rewrite length_app. cbn. lia. Qed.

Lemma token_lt p i lb : token p i lb -> i < zlen p.
Proof. intros [Hi Hl%lookup_lt_Some]. unfold zlen. lia. Qed.

Lemma sorted_snoc (sp : list span) s : StronglySorted (fun s s' => slast s < sfirst s') sp -> (forall x, x ∈ sp -> slast x < sfirst s) ->
  StronglySorted (fun s s' => slast s < sfirst s') (sp ++ [s]).
Proof.
  induction sp as [|x sp IH]; intros Hs Hx; cbn; [by repeat constructor|]. apply StronglySorted_inv in Hs as [Hs Hall]. constructor.
  - apply IH; [done|]. intros y Hy. apply Hx. by apply elem_of_cons; right.
  - apply Forall_app. split; [done|]. constructor; [|constructor]. apply Hx. by apply elem_of_cons; left.
Qed.

Lemma sorted_extend (sp : list span) f l l' e : StronglySorted (fun s s' => slast s < sfirst s') (sp ++ [(f, l, e)]) ->
  StronglySorted (fun s s' => slast s < sfirst s') (sp ++ [(f, l', e)]).
Proof.
  induction sp as [|x sp IH]; intros Hs; cbn in *; [by repeat constructor|]. apply StronglySorted_inv in Hs as [Hs Hall]. constructor; [by apply IH|].
  apply Forall_app in Hall as [Ha Hl]. apply Forall_app. split; [done|]. apply list.Forall_cons_1 in Hl as [Hl _]. by constructor.
Qed.

(** An unmarked token, a token that goes on with the last span, one that starts a span. *)
Lemma spans_unmarked p lb sp : marked lb = false -> exact_spans p sp -> exact_spans (p ++ [lb]) sp.
Proof.
  intros Hm (Hs & Hb & He & Hc). split_and!; [done| | |].
  - intros s Hin. destruct (Hb s Hin). rewrite zlen_snoc. lia.
  - intros s i Hin Hi. destruct (He s i Hin Hi) as (x & Ht & Hx). exists x. split; [apply token_snoc; by left|done].
  - intros i x [Ht|[-> ->]]%token_snoc Hx; [by eapply Hc|congruence].
Qed.

Lemma spans_extended p lb sp f e : marked lb = true -> entity_of ts lb = e -> exact_spans p (sp ++ [(f, zlen p - 1, e)]) ->
  exact_spans (p ++ [lb]) (sp ++ [(f, zlen p, e)]).
Proof.
  intros Hm He (Hs & Hb & Hen & Hc). assert (Hold : forall s, s ∈ sp -> s ∈ sp ++ [(f, zlen p - 1, e)]) by (intros; apply elem_of_app; by left).
  assert (Hlast : (f, zlen p - 1, e) ∈ sp ++ [(f, zlen p - 1, e)]) by (apply elem_of_app; right; by apply list_elem_of_singleton). pose proof (Hb _ Hlast) as Hbl. unfold sfirst, slast in Hbl. cbn in Hbl.
  split_and!; [by eapply sorted_extend| | |].
  - intros s [Hin|Hin]%elem_of_app; rewrite zlen_snoc; [destruct (Hb s (Hold s Hin)); lia|]. apply list_elem_of_singleton in Hin as ->. cbn. unfold sfirst, slast. cbn. lia.
  - intros s i [Hin|Hin]%elem_of_app Hi.
    + destruct (Hen s i (Hold s Hin) Hi) as (x & Ht & Hx). exists x. split; [apply token_snoc; by left|done].
    + apply list_elem_of_singleton in Hin as ->. unfold sfirst, slast in Hi. cbn in Hi. destruct (decide (i = zlen p)) as [-> |Hne].
      * exists lb. split; [apply token_snoc; by right|done].
      * destruct (Hen _ i Hlast) as (x & Ht & Hx); [unfold sfirst, slast; cbn; lia|]. exists x. split; [apply token_snoc; by left|done].
  - intros i x [Ht|[-> ->]]%token_snoc Hx.
    + destruct (Hc i x Ht Hx) as (s & [Hin|Hin]%elem_of_app & Hi); [exists s; split; [apply elem_of_app; by left|done]|].
      apply list_elem_of_singleton in Hin as ->. exists (f, zlen p, e). split; [apply elem_of_app; right; by apply list_elem_of_singleton|]. unfold sfirst, slast in *. cbn in *. lia.
    + exists (f, zlen p, e). split; [apply elem_of_app; right; by apply list_elem_of_singleton|]. unfold sfirst, slast. cbn. lia.
Qed.

Lemma spans_started p lb sp : marked lb = true -> exact_spans p sp -> exact_spans (p ++ [lb]) (sp ++ [(zlen p, zlen p, entity_of ts lb)]).
Proof.
  intros Hm (Hs & Hb & Hen & Hc). assert (Hnn : 0 <= zlen p) by (unfold zlen; lia). split_and!.
  - apply sorted_snoc; [done|]. intros x Hx. destruct (Hb x Hx). unfold sfirst at 1. cbn. lia.
  - intros s [Hin|Hin]%elem_of_app; rewrite zlen_snoc; [destruct (Hb s Hin); lia|]. apply list_elem_of_singleton in Hin as ->. unfold sfirst, slast. cbn. lia.
  - intros s i [Hin|Hin]%elem_of_app Hi.
    + destruct (Hen s i Hin Hi) as (x & Ht & Hx). exists x. split; [apply token_snoc; by left|done].
    + apply list_elem_of_singleton in Hin as ->. unfold sfirst, slast in Hi. cbn in Hi. assert (i = zlen p) as -> by lia. exists lb. split; [apply token_snoc; by right|done].
  - intros i x [Ht|[-> ->]]%token_snoc Hx.
    + destruct (Hc i x Ht Hx) as (s & Hin & Hi). exists s. split; [apply elem_of_app; by left|done].
    + eexists. split; [apply elem_of_app; right; by apply list_elem_of_singleton|]. unfold sfirst, slast. cbn. lia.
Qed.
(** *** One token *)
Definition spans_at (m : Z) (r : reading) : list span := spans (close_at (m - 1) r).

Lemma read_token_spans m lb r : let r' := read_token ts m lb r in
  if marked lb then
    (exists f, open r = Some (f, entity_of ts lb) /\ spans_at (m + 1) r' = spans r ++ [(f, m, entity_of ts lb)]) \/
    spans_at (m + 1) r' = spans_at m r ++ [(m, m, entity_of ts lb)]
  else spans_at (m + 1) r' = spans_at m r.
Proof.
  unfold read_token, spans_at, marked, close_at. replace (m + 1 - 1) with m by lia.
  destruct (tag_of ts lb) as [[]|]; destruct (open r) as [[f e]|] eqn:Eo; cbn; rewrite ?Eo; cbn; try done; try (by right).
  all: repeat (case_bool_decide; cbn; rewrite ?Eo; cbn; try (by right)); try naive_solver.
Qed.

Lemma exact_step p lb r : exact_spans p (spans_at (zlen p) r) -> exact_spans (p ++ [lb]) (spans_at (zlen (p ++ [lb])) (read_token ts (zlen p) lb r)).
Proof.
  intros Hp. rewrite zlen_snoc. pose proof (read_token_spans (zlen p) lb r) as Hr. cbn zeta in Hr. destruct (marked lb) eqn:Em.
  - destruct Hr as [(f & Ho & ->)| ->]; [|by apply spans_started]. apply spans_extended; [done|done|]. unfold spans_at, close_at in Hp. by rewrite Ho in Hp.
  - rewrite Hr. by apply spans_unmarked.
Qed.

Lemma exact_run rest : forall p r, exact_spans p (spans_at (zlen p) r) -> exact_spans (p ++ rest) (spans_at (zlen (p ++ rest)) (read_tokens ts (zlen p) rest r)).
Proof.
  induction rest as [|lb rest IH]; intros p r Hp; [by rewrite app_nil_r|]. cbn [read_tokens]. pose proof (IH (p ++ [lb]) _ (exact_step p lb r Hp)) as Hx.
  rewrite <- app_assoc in Hx. cbn [app] in Hx. by rewrite zlen_snoc in Hx.
Qed.

(** *** Paths of the scheme *)
Definition tag_at (p : list nat) (i : Z) : option tag := p !! Z.to_nat i ≫= tag_of ts.

(** A token on its own, or the first, the inner and the last tokens of a span. *)
Definition whole (p : list nat) (s : span) : Prop :=
  (sfirst s = slast s /\ tag_at p (sfirst s) = Some tS) \/
  (sfirst s < slast s /\ tag_at p (sfirst s) = Some tB /\ tag_at p (slast s) = Some tE /\ forall i, sfirst s < i < slast s -> tag_at p i = Some tI).

Fixpoint chained (j : nat) (path : list nat) : bool :=
  match path with [] => closed ts j | k :: path => follows ts j k && chained k path end.

(** The label sequences [path_score] scores. *)
Lemma path_chained {F} `{Scores F} (b : biases F) rows : forall path s j w, path_from ts b s j rows path = Some w -> closed ts (List.last path j) = true -> chained j path = true.
Proof.
  induction rows as [|row rows IH]; intros [|k path] s j w; cbn [path_from chained]; try done. rewrite last_step.
  destruct (follows ts j k); [|done]. apply IH.
Qed.

(** What is being read after a label: a span that began with B, or nothing. *)
Definition reading_at (p : list nat) (last : option nat) (r : reading) : Prop :=
  Forall (fun s => whole p s /\ 0 <= sfirst s /\ slast s < zlen p) (spans r) /\
  match open r with
  | Some (f, e) => (exists j, last = Some j /\ within (tag_of ts j) = true /\ entity_of ts j = e) /\
                   0 <= f < zlen p /\ tag_at p f = Some tB /\ forall i, f < i < zlen p -> tag_at p i = Some tI
  | None => forall j, last = Some j -> closed ts j = true
  end.

Lemma tag_at_old p lb i : 0 <= i < zlen p -> tag_at (p ++ [lb]) i = tag_at p i.
Proof. intros Hi. unfold tag_at, zlen in *. by rewrite lookup_app_l by lia. Qed.

Lemma tag_at_new p lb : tag_at (p ++ [lb]) (zlen p) = tag_of ts lb.
Proof. unfold tag_at, zlen. rewrite Nat2Z.id. by rewrite lookup_app_r, Nat.sub_diag by lia. Qed.

Lemma whole_snoc p lb s : whole p s /\ 0 <= sfirst s /\ slast s < zlen p -> whole (p ++ [lb]) s /\ 0 <= sfirst s /\ slast s < zlen (p ++ [lb]).
Proof.
  intros ([[E H]|(Hl & Hf & He & Hi)] & H0 & Hz); rewrite zlen_snoc; (split; [|lia]); [left|right].
  - rewrite tag_at_old by lia. done.
  - rewrite !tag_at_old by lia. split_and!; [done..|]. intros i Hii. rewrite tag_at_old by lia. by apply Hi.
Qed.

Lemma closed_not_within j : closed ts j = true -> within (tag_of ts j) = false.
Proof. unfold closed. by destruct (tag_of ts j) as [[]|]. Qed.

(** In a span only its own I or E may follow; outside one only O, B or S. *)
Lemma scheme_cases p last lb r : reading_at p last r ->
  match last with Some j => follows ts j lb | None => opens (tag_of ts lb) && bool_decide (open r = None) end = true ->
  match open r with
  | Some (f, e) => (tag_of ts lb = Some tI \/ tag_of ts lb = Some tE) /\ entity_of ts lb = e
  | None => tag_of ts lb = Some tO \/ tag_of ts lb = Some tB \/ tag_of ts lb = Some tS
  end.
Proof.
  intros [_ Ho] Hstep. destruct (open r) as [[f e]|].
  - destruct Ho as [(j & -> & Hw & He) _]. unfold follows in Hstep. pose proof (closed_not_within j) as Hc.
    destruct (tag_of ts lb) as [[]|]; try (rewrite Hc in Hw by done); try done; apply andb_true_iff in Hstep as [_ Hs%bool_decide_eq_true]; split; try congruence; by auto.
  - destruct last as [j|].
    + specialize (Ho j eq_refl). apply closed_not_within in Ho. unfold follows in Hstep. rewrite Ho in Hstep. destruct (tag_of ts lb) as [[]|]; auto; done.
    + destruct (tag_of ts lb) as [[]|]; auto; done.
Qed.

Lemma scheme_step p last lb r : reading_at p last r ->
  match last with Some j => follows ts j lb | None => opens (tag_of ts lb) && bool_decide (open r = None) end = true ->
  reading_at (p ++ [lb]) (Some lb) (read_token ts (zlen p) lb r).
Proof.
  intros Hr Hstep. pose proof (scheme_cases p last lb r Hr Hstep) as Hcase. destruct Hr as [Hs Ho]. assert (H0 : 0 <= zlen p) by (unfold zlen; lia).
  assert (Hs' : Forall (fun s => whole (p ++ [lb]) s /\ 0 <= sfirst s /\ slast s < zlen (p ++ [lb])) (spans r)) by (eapply list.Forall_impl; [exact Hs|]; intros s; apply whole_snoc).
  unfold read_token, close_at, reading_at, closed. pose proof (tag_at_new p lb) as Hnew. pose proof (tag_at_old p lb) as Hold. rewrite zlen_snoc in *.
  destruct (open r) as [[f e]|] eqn:Eo.
  - destruct Hcase as [Htag He]. destruct Ho as (_ & Hf & Hb & Hi). destruct Htag as [Et|Et]; rewrite Et in *; rewrite !bool_decide_eq_true_2 by auto; cbn [andb].
    + rewrite bool_decide_eq_false_2 by done. rewrite Eo. split; [done|]. split_and!; [exists lb; by rewrite Et|lia..|by rewrite Hold|].
      intros i Hii. destruct (decide (i = zlen p)) as [-> |Hne]; [done|]. rewrite Hold by lia. apply Hi. lia.
    + cbn [spans open]. split; [|by intros ? [= <-]; rewrite Et]. apply Forall_app. split; [done|]. constructor; [|constructor]. unfold sfirst, slast. cbn [fst snd]. split; [|lia].
      right. unfold sfirst, slast. cbn [fst snd]. split_and!; [lia|by rewrite Hold|by rewrite Hnew|]. intros i Hii. rewrite Hold by lia. apply Hi. lia.
  - destruct Hcase as [Et|[Et|Et]]; rewrite Et in *; cbn [andb spans open].
    + rewrite Eo. split; [done|]. intros ? [= <-]. by rewrite Et.
    + rewrite !bool_decide_eq_false_2 by done. cbn [spans open]. split; [done|]. split_and!; [exists lb; by rewrite Et|lia..|done|lia].
    + rewrite !bool_decide_eq_true_2 by done. cbn [spans open]. rewrite Eo. split; [|by intros ? [= <-]; rewrite Et]. apply Forall_app. split; [done|].
      constructor; [|constructor]. unfold sfirst, slast. cbn [fst snd]. split; [|lia]. left. by unfold sfirst, slast.
Qed.

Lemma scheme_run rest : forall p last r, reading_at p (Some last) r -> chained last rest = true -> exists last',
  reading_at (p ++ rest) (Some last') (read_tokens ts (zlen p) rest r) /\ closed ts last' = true.
Proof.
  induction rest as [|lb rest IH]; intros p last r Hr; cbn [chained read_tokens]; [exists last; by rewrite app_nil_r|]. intros [Hf Hc]%andb_true_iff.
  destruct (IH (p ++ [lb]) lb _ (scheme_step p (Some last) lb r Hr Hf) Hc) as (l & Hx & Hcl). exists l. rewrite <- app_assoc, zlen_snoc in Hx. by split.
Qed.

(** C32: from any labels a decoder answers, the spans read are in order and apart, and hold
    exactly the tokens the labels mark, each token in a span of its own entity: a malformed
    sequence drops no token.  From a path of the scheme every span is whole: S, or B,
    then I, then E. *)
Theorem spans_of_exact path : forallb (in_range (length ts)) path = true -> exists sp,
  spans_of path ts = Ok sp /\ exact_spans (map (from_end (length ts)) path) sp /\
  (forall (F : Type) (HF : Scores F) (b : biases F) rows w, path_score ts b rows (map (from_end (length ts)) path) = Some w ->
    Forall (whole (map (from_end (length ts)) path)) sp).
Proof.
  intros Hr. unfold spans_of. rewrite Hr. eexists. split; [done|]. replace (zlen path) with (zlen (map (from_end (length ts)) path)) by (unfold zlen; by rewrite length_map).
  set (p := map _ path). split.
  - apply (exact_run p [] (mk_reading [] None)). change (spans_at (zlen []) (mk_reading [] None)) with (@nil span).
    split_and!; [apply SSorted_nil|by intros ? ?%not_elem_of_nil|by intros ? ? ?%not_elem_of_nil|]. intros i lb [_ Hl]. done.
  - intros F HF b [|row rows] w; [done|]. destruct p as [|lb p]; cbn [path_score]; [done|]. destruct (opens _ && _) eqn:Eo; [|done].
    apply andb_true_iff in Eo as [Ho Hcl]. intros Hc%path_chained; [|done]. clear Hcl.
    assert (Hst : reading_at [lb] (Some lb) (read_token ts 0 lb (mk_reading [] None))).
    { apply (scheme_step [] None lb (mk_reading [] None)); [split; [constructor|done]|]. by rewrite Ho. }
    destruct (scheme_run p [lb] lb _ Hst Hc) as (l & [Hs Hx] & Hcl). cbn [read_tokens app] in *. change (zlen [lb]) with 1 in Hs, Hx. change (0 + 1) with 1.
    unfold close_at. destruct (open _) as [[f e]|]; [|by eapply list.Forall_impl; [exact Hs|]; intros s [? _]].
    destruct Hx as [(j & [= <-] & Hw & _) _]. by rewrite closed_not_within in Hw.
Qed.
End Spans.

(** ** The laws hold of Python's floats, and of the exact scores *)

(** Minus infinity, or a float of at most [k] times 2^960. *)
Definition small_double (k : Z) (x : spec_float) : Prop :=
  x = S754_infinity true \/ number 53 1024 x = true /\ Z.abs (units 53 1024 x) <= k * 2 ^ 2034.

Abbreviation near64 := (near_z 53).
Abbreviation units64 := (units 53 1024).

Lemma gtb_units x y : number 53 1024 x = true -> number 53 1024 y = true -> gtb x y = (units64 y <? units64 x).
Proof.
  intros Hx Hy. cbn [gtb binary64]. rewrite (SFcompare_units 53 1024) by (lia || done). unfold Z.ltb. rewrite (Z.compare_antisym (units64 x)).
  by destruct (Z.compare (units64 x) (units64 y)).
Qed.

Lemma gtb_bottom x : number 53 1024 x = true -> gtb x (S754_infinity true) = true /\ gtb (S754_infinity true) x = false.
Proof. by destruct x. Qed.

Lemma add_bottom x k : small_double k x -> addf (S754_infinity true) x = S754_infinity true /\ addf x (S754_infinity true) = S754_infinity true.
Proof. intros [-> |[Hx _]]; [done|by destruct x]. Qed.

Lemma small_sum k x y : k < 2 ^ 53 - 1 -> number 53 1024 x = true -> Z.abs (units64 x) <= k * 2 ^ 2034 -> number 53 1024 y = true -> Z.abs (units64 y) <= 2 ^ 2034 ->
  number 53 1024 (addf x y) = true /\ units64 (addf x y) = near64 (units64 x + units64 y) /\ Z.abs (units64 (addf x y)) <= (k + 1) * 2 ^ 2034.
Proof.
  intros Hk Hx Bx Hy By. cbn [addf binary64]. assert (H34 : 0 < 2 ^ 2034) by by apply Z.pow_pos_nonneg.
  assert (Hb : Z.abs (near64 (units64 x + units64 y)) <= (k + 1) * 2 ^ 2034) by (apply near_z_bound; lia).
  destruct (SFadd_near 53 1024 ltac:(lia) ltac:(lia) x y Hx Hy) as [H1 H2]; [|split_and!; [done|done|by rewrite H2]].
  apply Z.le_lt_trans with ((k + 1) * 2 ^ 2034); [done|]. change (1024 - SpecFloat.emin 53 1024) with (64 + 2034). rewrite Z.pow_add_r by lia.
  apply Z.mul_lt_mono_pos_r; lia.
Qed.

#[export] Instance double_laws : ScoreLaws spec_float small_double (2 ^ 53 - 1).
Proof.
  assert (H34 : 0 < 2 ^ 2034) by by apply Z.pow_pos_nonneg. split.
  - intros k. by left.
  - intros j k x Hjk [-> |[Hx Hb]]; [by left|right]. split; [done|]. nia.
  - intros k x y Hk [-> |[Hx Bx]] Hy; [left; by eapply add_bottom|]. destruct Hy as [-> |[Hy By]]; [left; eapply (add_bottom x k); by right|].
    right. destruct (small_sum k x y) as (H1 & _ & H2); [done..|lia|done].
  - intros x y. cbn [gtb binary64].
    destruct x as [|[]| |[] m e], y as [|[]| |[] m' e']; cbn [SFcompare]; try done.
    all: rewrite (Z.compare_antisym e e'); destruct (Z.compare e e'); cbn; try done.
    all: change (Pos.compare_cont Eq ?a ?b) with (Pos.compare a b); rewrite (Pos.compare_antisym m m'); by destruct (Pos.compare m m').
  - intros k x y z Hx Hy Hz. destruct Hx as [-> |[Hx _]]; [intros _ _; destruct Hz as [-> |[Hz _]]; [done|by apply gtb_bottom]|].
    destruct Hy as [-> |[Hy _]]; [by rewrite (proj1 (gtb_bottom x Hx))|]. destruct Hz as [-> |[Hz _]]; [by rewrite (proj1 (gtb_bottom y Hy))|].
    rewrite !gtb_units by done. lia.
  - intros x. by destruct x as [|[]| |].
  - intros k x y c Hk Hx Hy Hc Hle. destruct Hc as [-> |[Hc Bc]].
    { rewrite (proj2 (add_bottom x k Hx)), (proj2 (add_bottom y k Hy)). done. }
    assert (Bc1 : small_double 1 c) by by right.
    destruct Hx as [-> |[Hx Bx]]; [rewrite (proj1 (add_bottom c 1 Bc1)); by destruct (addf y c) as [|[]| |]|].
    destruct Hy as [-> |[Hy By]]; [by rewrite (proj1 (gtb_bottom x Hx)) in Hle|]. rewrite gtb_units in Hle by done.
    destruct (small_sum k x c) as (Nx & Ux & _); [done..|lia|]. destruct (small_sum k y c) as (Ny & Uy & _); [done..|lia|].
    rewrite gtb_units, Ux, Uy by done. pose proof (near_z_mono 53 ltac:(lia) (units64 x + units64 c) (units64 y + units64 c)). lia.
  - intros c Hc. change (gtb (addf (S754_infinity true) c) (S754_infinity true) = false). by rewrite (proj1 (add_bottom c 1 Hc)).
Qed.

#[export] Instance exact_laws limit : ScoreLaws (option Z) (fun _ _ => True) limit.
Proof.
  split; try done.
  - by intros [x|] [y|]; cbn; try done; intros ?%Z.ltb_lt; apply Z.ltb_ge; lia.
  - intros _ [x|] [y|] [z|] _ _ _; cbn; try done. intros ?%Z.ltb_ge ?%Z.ltb_ge. apply Z.ltb_ge. lia.
  - intros _ [x|] [y|] [c|] _ _ _ _; cbn; try done. intros ?%Z.ltb_ge. apply Z.ltb_ge. lia.
Qed.

(** ** Examples: people and places, tagged BIOES *)

Definition demo_labels : list (Z * pystr) :=
  [(0, lit "O"); (1, lit "B-PER"); (2, lit "I-PER"); (3, lit "E-PER"); (4, lit "S-PER"); (5, lit "B-LOC"); (6, lit " L-LOC")].

Definition demo_tags : tagset := match from_labels (K := Z) Some (fun c => is_AZ c || is_az c) demo_labels with Ok ts => ts | Raise _ => [] end.

Definition zero_biases : biases (option Z) := mk_biases (Some 0) (Some 0) (Some 0) (Some 0) (Some 0) (Some 0).

(** The best label of each token is B, I, O: no path of the scheme; the best path is B, I, E. *)
Definition demo_rows : list (list (option Z)) :=
  [[Some (-9); Some (-1); None; None; Some (-8); None; None];
   [Some (-9); None; Some (-1); Some (-4); None; None; None];
   [Some (-2); None; None; Some (-3); None; None; Some (-1)]].

Example demo_decoded : viterbi_path demo_tags zero_biases demo_rows = Ok (Some [1; 2; 3]) /\ argmax_path demo_rows = [1; 2; 6] /\
  spans_of [1; 2; 6] demo_tags = Ok [(0, 1, lit "PER"); (2, 2, lit "LOC")].
Proof. by vm_compute. Qed.

(** The same in tenths as doubles: biases of both signs pick another path. *)
Definition double (z : Z) : spec_float := match z with 0 => S754_zero false | Zneg p => S754_finite true (shift_pos (53 - Z.to_pos (Z.log2 (Zpos p) + 1)) p) (Z.log2 (Zpos p) - 52) | Zpos p => S754_finite false (shift_pos (53 - Z.to_pos (Z.log2 (Zpos p) + 1)) p) (Z.log2 (Zpos p) - 52) end.

(** Tenths, as Python divides. *)
Definition tenths (r : option Z) : spec_float := match r with Some z => SFdiv 53 1024 (double z) (double 10) | None => S754_infinity true end.
Definition demo_biases : biases spec_float :=
  mk_biases (tenths (Some 0)) (tenths (Some 3)) (tenths (Some 7)) (tenths (Some (-2))) (tenths (Some 12)) (tenths (Some 0)).
Definition double_rows : list (list spec_float) := map (map tenths) demo_rows.

Example demo_decoded_doubles : viterbi_path demo_tags demo_biases double_rows = Ok (Some [1; 3; 0]) /\
  viterbi_path demo_tags demo_biases (map (take 6) double_rows) = Raise IndexError.
Proof. by vm_compute. Qed.

(** A double's [small_double], by evaluation. *)
Definition is_small (x : spec_float) : bool :=
  match x with S754_infinity true => true | _ => number 53 1024 x && (Z.abs (units 53 1024 x) <=? 2 ^ 2034) end.

Lemma is_small_ok x : is_small x = true -> small_double 1 x.
Proof.
  unfold is_small, small_double. destruct x as [|[]| |]; try (by left); intros [Hn Hb%Z.leb_le]%andb_true_iff; right; (split; [done|]); by rewrite Z.mul_1_l.
Qed.

Lemma viterbi_path_optimal_witness : best_path demo_tags demo_biases (finite double_rows) [1; 3; 0].
Proof.
  assert (Hb : Forall (small_double 1) [stay demo_biases; enter demo_biases; keep_on demo_biases; close demo_biases; leave demo_biases; again demo_biases])
    by (repeat (constructor; [apply is_small_ok; by vm_compute|]); constructor).
  assert (Hfit : scores_fit (fit := small_double) double_rows) by (repeat (constructor; [repeat (constructor; [right; apply is_small_ok; by vm_compute|]); constructor|]); constructor).
  assert (E : viterbi_path demo_tags demo_biases double_rows = Ok (Some [1; 3; 0])) by (vm_compute; reflexivity).
  pose proof (viterbi_path_optimal (limit := 2 ^ 53 - 1) demo_tags demo_biases Hb double_rows ltac:(discriminate) Hfit ltac:(by vm_compute)) as Hv.
  rewrite E in Hv. exact (proj2 Hv).
Defined.

Lemma spans_of_exact_witness : exists sp, spans_of [1; 2; 3] demo_tags = Ok sp /\ Forall (whole demo_tags [1; 2; 3]%nat) sp.
Proof.
  destruct (spans_of_exact demo_tags [1; 2; 3] ltac:(by vm_compute)) as (sp & Hsp & _ & Hw). exists sp. split; [exact Hsp|].
  exact (Hw (option Z) exact zero_biases (finite demo_rows) (Some (-5)) ltac:(by vm_compute)).
Defined.
