(* ===== verification/Wallets.v ===== *)
(** * Wallet checksums -- src/llm_redact/detection/wallet_checksums.py

    Keccak-256 and EIP-55, base58check, bech32 and bech32m, as the validators of the
    wallet rules run them on the text their pattern matched.  SHA-256 (hashlib's) is
    FIPS 180-4's. *)

From S2P Require Import Prelude Bytes.

(** The word operations of the hash functions, [w] bits wide. *)
Definition mask (w : Z) (x : Z) : Z := Z.land x (Z.ones w).
Definition rotl64 (value shift : Z) : Z := mask 64 (Z.lor (Z.shiftl value shift) (Z.shiftr value (64 - shift))).

(** ** Keccak-256 *)
Definition KECCAK_RC : list Z :=
  [0x0000000000000001; 0x0000000000008082; 0x800000000000808A; 0x8000000080008000; 0x000000000000808B; 0x0000000080000001;
   0x8000000080008081; 0x8000000000008009; 0x000000000000008A; 0x0000000000000088; 0x0000000080008009; 0x000000008000000A;
   0x000000008000808B; 0x800000000000008B; 0x8000000000008089; 0x8000000000008003; 0x8000000000008002; 0x8000000000000080;
   0x000000000000800A; 0x800000008000000A; 0x8000000080008081; 0x8000000000008080; 0x0000000080000001; 0x8000000080008008].

Definition KECCAK_ROT : list (list Z) := [[0; 36; 3; 41; 18]; [1; 44; 10; 45; 2]; [62; 6; 43; 15; 61]; [28; 55; 25; 21; 56]; [27; 20; 39; 8; 14]].

Definition five : list nat := [0; 1; 2; 3; 4]%nat.

(** The state, column by column: [a[x][y]]. *)
Definition at2 (a : list (list Z)) (x y : nat) : Z := nth y (nth x a []) 0.
Definition grid (f : nat -> nat -> Z) : list (list Z) := map (fun x => map (f x) five) five.

Definition keccak_round (a : list (list Z)) (rc : Z) : list (list Z) :=
  let c := map (fun x => fold_left Z.lxor (map (at2 a x) [1; 2; 3; 4]%nat) (at2 a x 0)) five in
  let d := map (fun x => Z.lxor (nth ((x + 4) mod 5) c 0) (rotl64 (nth ((x + 1) mod 5) c 0) 1)) five in
  let a := grid (fun x y => Z.lxor (at2 a x y) (nth x d 0)) in
  (* b[y][(2x + 3y) % 5] = rotl64(a[x][y]): b[u][v] comes from y = u, x = 3v + u (mod 5) *)
  let b := grid (fun u v => let x := ((3 * v + u) mod 5)%nat in rotl64 (at2 a x u) (at2 KECCAK_ROT x u)) in
  let a := grid (fun x y => Z.lxor (at2 b x y) (Z.land (Z.lnot (at2 b ((x + 1) mod 5) y)) (at2 b ((x + 2) mod 5) y))) in
  grid (fun x y => if (x =? 0)%nat && (y =? 0)%nat then Z.lxor (at2 a 0 0) rc else at2 a x y).

Definition keccak_f1600 (a : list (list Z)) : list (list Z) := fold_left keccak_round KECCAK_RC a.

Definition RATE : nat := 136.

(** The padding: 0x01, zeros up to a multiple of the rate, the top bit of the last byte. *)
Definition keccak_pad (data : pybytes) : pybytes :=
  let padded := data ++ [1] in
  let padded := padded ++ repeat 0 ((RATE - length padded mod RATE) mod RATE) in
  removelast padded ++ [Z.lxor (List.last padded 0) 128].

Definition le_value (s : pybytes) : Z := fold_right (fun b acc => b + 256 * acc) 0 s.
Fixpoint le_bytes (w : nat) (n : Z) : pybytes := match w with O => [] | S w => n mod 256 :: le_bytes w (n / 256) end.

(** A block xored into the state, lane [i] at [state[i % 5][i // 5]]. *)
Definition absorb (state : list (list Z)) (block : pybytes) : list (list Z) :=
  grid (fun x y => let i := (x + 5 * y)%nat in
    if (i <? RATE / 8)%nat then Z.lxor (at2 state x y) (le_value (take 8 (drop (8 * i) block))) else at2 state x y).

Fixpoint absorb_blocks (blocks : nat) (state : list (list Z)) (data : pybytes) : list (list Z) :=
  match blocks with O => state | S blocks => absorb_blocks blocks (keccak_f1600 (absorb state (take RATE data))) (drop RATE data) end.

(** 32 bytes are four lanes: one squeeze. *)
Definition keccak256 (data : pybytes) : pybytes :=
  let padded := keccak_pad data in
  let state := absorb_blocks (length padded / RATE) (grid (fun _ _ => 0)) padded in
  flat_map (fun i => le_bytes 8 (at2 state (i mod 5) (i / 5))) [0; 1; 2; 3]%nat.

(** ** EIP-55 *)

(** [bytes.hex()], its digits as numbers. *)
Definition nibbles (s : pybytes) : list Z := flat_map (fun b => [b / 16; b mod 16]) s.

Definition is_alpha (c : Z) : bool := is_az c || is_AZ c.

(** Each letter by its digit of the digest; None: [IndexError], a letter past its end. *)
Fixpoint cased (s : pystr) (digest : list Z) : option pystr :=
  match s with
  | [] => Some []
  | ch :: s =>
      let rest := cased s (tail digest) in
      if is_alpha ch then match digest with d :: _ => cons (if 8 <=? d then ascii_upper ch else ch) <$> rest | [] => None end
      else cons ch <$> rest
  end.

(** [addr_lower] is hexadecimal: its UTF-8 bytes are its characters. *)
Definition eth_checksum (addr_lower : pystr) : option pystr := cased addr_lower (nibbles (keccak256 addr_lower)).

Definition lower (s : pystr) : pystr := map ascii_lower s.
Definition upper (s : pystr) : pystr := map ascii_upper s.

(** [len(set(s)) == 1] *)
Definition one_character (s : pystr) : bool := match s with [] => false | c :: s => forallb (Z.eqb c) s end.

Definition eth_address_ok (group0 : pystr) : option bool :=
  let hexpart := drop 2 group0 in
  let low := lower hexpart in
  if one_character low then Some false
  else if bool_decide (hexpart = low) || bool_decide (hexpart = upper hexpart) then Some true
  else (fun checksum => bool_decide (hexpart = checksum)) <$> eth_checksum low.

(** ** SHA-256

    Its constants are the first bits behind the point of the roots of the first primes. *)
Definition small_primes : list Z :=
  List.filter (fun p => forallb (fun d => negb (p mod d =? 0)) (List.filter (fun d => d <? p) (map Z.of_nat (seq 2 17)))) (map Z.of_nat (seq 2 310)).

(** The whole part of the [k]-th root, below 2^40, bit by bit. *)
Definition whole_root (k n : Z) : Z := fold_left (fun x b => if (x + 2 ^ b) ^ k <=? n then x + 2 ^ b else x) (rev (map Z.of_nat (seq 0 40))) 0.
Definition root_bits (k p : Z) : Z := mask 32 (whole_root k (p * 2 ^ (32 * k))).

Definition SHA256_K : list Z := Eval vm_compute in map (root_bits 3) small_primes.
Definition SHA256_H : list Z := Eval vm_compute in map (root_bits 2) (take 8 small_primes).

Definition rotr32 (x n : Z) : Z := mask 32 (Z.lor (Z.shiftr x n) (Z.shiftl x (32 - n))).
Definition xor3 (a b c : Z) : Z := Z.lxor a (Z.lxor b c).

(** The message schedule, the newest word first. *)
Fixpoint schedule (n : nat) (w : list Z) : list Z :=
  match n with
  | O => w
  | S n =>
      let w15 := nth 14 w 0 in let w2 := nth 1 w 0 in
      let s0 := xor3 (rotr32 w15 7) (rotr32 w15 18) (Z.shiftr w15 3) in
      let s1 := xor3 (rotr32 w2 17) (rotr32 w2 19) (Z.shiftr w2 10) in
      schedule n (mask 32 (nth 15 w 0 + s0 + nth 6 w 0 + s1) :: w)
  end.

Definition sha256_round (h : list Z) (kw : Z * Z) : list Z :=
  match h with
  | [a; b; c; d; e; f; g; i] =>
      let t1 := i + xor3 (rotr32 e 6) (rotr32 e 11) (rotr32 e 25) + Z.lxor (Z.land e f) (Z.land (Z.lnot e) g) + kw.1 + kw.2 in
      let t2 := xor3 (rotr32 a 2) (rotr32 a 13) (rotr32 a 22) + xor3 (Z.land a b) (Z.land a c) (Z.land b c) in
      [mask 32 (t1 + t2); a; b; c; mask 32 (d + t1); e; f; g]
  | _ => h
  end.

Fixpoint words32 (n : nat) (s : pybytes) : list Z := match n with O => [] | S n => be_value (take 4 s) :: words32 n (drop 4 s) end.

Definition sha256_block (h : list Z) (block : pybytes) : list Z :=
  let w := rev (schedule 48 (rev (words32 16 block))) in
  zip_with (fun x y => mask 32 (x + y)) h (fold_left sha256_round (combine SHA256_K w) h).

Definition sha256_pad (data : pybytes) : pybytes :=
  data ++ [128] ++ repeat 0 ((64 - (length data + 9) mod 64) mod 64) ++ be_bytes 8 (8 * zlen data).

Fixpoint sha256_blocks (n : nat) (h : list Z) (s : pybytes) : list Z :=
  match n with O => h | S n => sha256_blocks n (sha256_block h (take 64 s)) (drop 64 s) end.

Definition sha256 (data : pybytes) : pybytes :=
  let padded := sha256_pad data in flat_map (be_bytes 4) (sha256_blocks (length padded / 64) SHA256_H padded).

(** ** base58check *)
Definition B58_ALPHABET : pystr := lit "123456789ABCDEFGHJKLMNPQRSTUVWXYZabcdefghijkmnopqrstuvwxyz".

Definition b58_char (d : Z) : Z := nth (Z.to_nat d) B58_ALPHABET 0.

(** [while num > 0], least significant first; [fuel]: more than the number has bits. *)
Fixpoint base_digits (base : Z) (fuel : nat) (num : Z) : list Z :=
  match fuel with
  | O => []
  | S fuel => if 0 <? num then num mod base :: base_digits base fuel (num / base) else []
  end.

Definition digits_in (base num : Z) : list Z := rev (base_digits base (S (Z.to_nat (Z.log2 num))) num).

(** How many of a character a text starts with. *)
Fixpoint leading (c : Z) (s : list Z) : nat := match s with x :: s => if x =? c then S (leading c s) else O | [] => O end.

Definition base58_encode (raw : pybytes) : pystr := repeat 49 (leading 0 raw) ++ map b58_char (digits_in 58 (be_value raw)).

(** The checksum: the first bytes of a double SHA-256. *)
Definition double_sha (body : pybytes) : pybytes := take 4 (sha256 (sha256 body)).

Definition base58check_encode (version : Z) (payload20 : pybytes) : pystr :=
  let body := version :: payload20 in base58_encode (body ++ double_sha body).

(** [num = num * 58 + idx]; None for a character outside the alphabet. *)
Fixpoint base58_value (num : Z) (addr : pystr) : option Z :=
  match addr with
  | [] => Some num
  | ch :: addr => match find_char ch B58_ALPHABET with Some idx => base58_value (num * 58 + Z.of_nat idx) addr | None => None end
  end.

(** [num.to_bytes((num.bit_length() + 7) // 8, "big")] *)
Definition minimal_bytes (num : Z) : pybytes := digits_in 256 num.

Definition base58check_ok (group0 : pystr) : bool :=
  match base58_value 0 group0 with
  | None => false
  | Some num =>
      let raw := repeat 0 (leading 49 group0) ++ minimal_bytes num in
      if (length raw =? 25)%nat then
        let body := take 21 raw in
        bool_decide (double_sha body = drop 21 raw) && match body with v :: _ => (v =? 0) || (v =? 5) | [] => false end
      else false
  end.

(** ** bech32 and bech32m *)
Definition BECH32_CHARSET : pystr := lit "qpzry9x8gf2tvdw0s3jn54khce6mua7l".
Definition BECH32_CONST : Z := 1.
Definition BECH32M_CONST : Z := 0x2BC830A3.
Definition GEN : list Z := [0x3B6A57B2; 0x26508E6D; 0x1EA119FA; 0x3D4233DD; 0x2A1462B3].

Definition gen_of (top : Z) (chk : Z) : Z :=
  fold_left (fun chk ig => if Z.testbit top ig.1 then Z.lxor chk ig.2 else chk) (combine [0; 1; 2; 3; 4] GEN) chk.

Definition polymod_step (chk value : Z) : Z :=
  gen_of (Z.shiftr chk 25) (Z.lxor (Z.shiftl (Z.land chk 0x1FFFFFF) 5) value).

Definition bech32_polymod (values : list Z) : Z := fold_left polymod_step values 1.

Definition bech32_hrp_expand (hrp : pystr) : list Z := map (fun c => Z.shiftr c 5) hrp ++ [0] ++ map (fun c => Z.land c 31) hrp.

(** [while bits >= tobits]; [fuel]: the bits left. *)
Fixpoint take_groups (fuel : nat) (acc bits tobits : Z) : list Z * Z :=
  match fuel with
  | O => ([], bits)
  | S fuel =>
      if tobits <=? bits then
        let bits := bits - tobits in let (ret, left) := take_groups fuel acc bits tobits in (Z.land (Z.shiftr acc bits) (Z.ones tobits) :: ret, left)
      else ([], bits)
  end.

Fixpoint convert_go (data : list Z) (acc bits frombits tobits : Z) : option (list Z * Z * Z) :=
  match data with
  | [] => Some ([], acc, bits)
  | value :: data =>
      if (value <? 0) || negb (Z.shiftr value frombits =? 0) then None
      else
        let acc := Z.lor (Z.shiftl acc frombits) value in
        let (ret, bits) := take_groups (S (Z.to_nat (bits + frombits))) acc (bits + frombits) tobits in
        match convert_go data acc bits frombits tobits with Some (more, acc, bits) => Some (ret ++ more, acc, bits) | None => None end
  end.

Definition convertbits (data : list Z) (frombits tobits : Z) (pad : bool) : option (list Z) :=
  match convert_go data 0 0 frombits tobits with
  | None => None
  | Some (ret, acc, bits) =>
      let rest := Z.land (Z.shiftl acc (tobits - bits)) (Z.ones tobits) in
      if pad then Some (if bits =? 0 then ret else ret ++ [rest])
      else if (frombits <=? bits) || negb (rest =? 0) then None else Some ret
  end.

Definition const_of (witver : Z) : Z := if witver =? 0 then BECH32_CONST else BECH32M_CONST.

Definition bech32_char (d : Z) : Z := nth (Z.to_nat d) BECH32_CHARSET 0.

Definition bech32_encode (hrp : pystr) (witver : Z) (program : pybytes) : pystr :=
  let data := witver :: default [] (convertbits program 8 5 true) in
  let values := bech32_hrp_expand hrp ++ data in
  let polymod := Z.lxor (bech32_polymod (values ++ [0; 0; 0; 0; 0; 0])) (const_of witver) in
  let checksum := map (fun i => Z.land (Z.shiftr polymod (5 * (5 - i))) 31) [0; 1; 2; 3; 4; 5] in
  hrp ++ [49] ++ map bech32_char (data ++ checksum).

(** The characters after the separator as numbers. *)
Fixpoint bech32_data (s : pystr) : option (list Z) :=
  match s with
  | [] => Some []
  | ch :: s => match find_char ch BECH32_CHARSET, bech32_data s with Some i, Some d => Some (Z.of_nat i :: d) | _, _ => None end
  end.

(** [addr.rfind("1")]: -1 where there is none, so [addr[:-1]] and [addr[0:]]. *)
Definition bech32_address_ok (group0 : pystr) : bool :=
  let '(hrp, rest) := match rfind_char 49 group0 with Some pos => (take pos group0, drop (S pos) group0) | None => (removelast group0, group0) end in
  if bool_decide (hrp = lit "bc") then
    match bech32_data rest with
    | None => false
    | Some data =>
        if (length data <? 7)%nat then false
        else match data with
             | [] => false
             | witver :: _ => (witver <=? 16) && (bech32_polymod (bech32_hrp_expand hrp ++ data) =? const_of witver)
             end
    end
  else false.

(** ** Published vectors *)
Definition hex (s : pystr) : pybytes :=
  (fix go (s : pystr) : pybytes := match s with
    | a :: b :: s => let v c := if is_09 c then c - 48 else c - 87 in 16 * v a + v b :: go s | _ => [] end) s.

Example keccak_empty : keccak256 [] = hex (lit "c5d2460186f7233c927e7db2dcc703c0e500b653ca82273b7bfad8045d85a470").
Proof. vm_compute. reflexivity. Qed.

Example sha256_abc : sha256 (lit "abc") = hex (lit "ba7816bf8f01cfea414140de5dae2223b00361a396177a9cb410ff61f20015ad").
Proof. vm_compute. reflexivity. Qed.

Example eip55_vector : eth_address_ok (lit "0x5aAeb6053F3E94C9b9A09f33669435E7Ef1BeAed") = Some true /\
  eth_address_ok (lit "0x5AAeb6053F3E94C9b9A09f33669435E7Ef1BeAed") = Some false.
Proof. split; vm_compute; reflexivity. Qed.

Example genesis_address : base58check_ok (lit "1A1zP1eP5QGefi2DMPTfTL5SLmv7DivfNa") = true.
Proof. vm_compute. reflexivity. Qed.

Example bip173_vector : bech32_address_ok (lit "bc1qw508d6qejxtdg4y5r3zarvary0c5xw7kv8f3t4") = true.
Proof. vm_compute. reflexivity. Qed.
