(* ===== verification/WalletFacts.v ===== *)
(** * What the wallet checksums accept

    base58check accepts exactly the encodings of the two mainnet versions; bech32 accepts
    what the encoder writes and nothing that differs from an accepted address in one or
    two characters. *)

From S2P Require Import Prelude Bytes Wallets.

(** ** Numbers in a base *)
Section Base.
Context (base : Z) (Hbase : 2 <= base).

Definition digit (d : Z) : Prop := 0 <= d < base.

(** Most significant first, and least significant first. *)
Definition value (ds : list Z) : Z := fold_left (fun acc d => acc * base + d) ds 0.
Definition low_value (ds : list Z) : Z := fold_right (fun d acc => d + base * acc) 0 ds.

Lemma fold_value ds acc : fold_left (fun acc d => acc * base + d) ds acc = acc * base ^ zlen ds + value ds.
Proof.
  unfold value. revert acc. induction ds as [|d ds IH]; intros acc; cbn [fold_left]; [change (zlen []) with 0; lia|].
  rewrite IH, (IH (0 * base + d)). unfold zlen. cbn [length]. rewrite Nat2Z.inj_succ, Z.pow_succ_r by lia. lia.
Qed.

Lemma value_rev ds : value (rev ds) = low_value ds.
Proof.
  induction ds as [|d ds IH]; [done|]. cbn [rev low_value fold_right]. unfold value in *. rewrite fold_left_app. cbn [fold_left]. rewrite IH. unfold low_value. lia.
Qed.

Lemma low_value_nonneg ds : Forall digit ds -> 0 <= low_value ds.
Proof. induction 1 as [|d ds [Hd _] _ IH]; cbn [low_value fold_right]; [lia|]. unfold low_value in IH. nia. Qed.

Lemma base_digits_value fuel : forall num, 0 <= num < 2 ^ Z.of_nat fuel -> low_value (base_digits base fuel num) = num /\ Forall digit (base_digits base fuel num).
Proof.
  induction fuel as [|fuel IH]; intros num Hn; cbn [base_digits]; [change (2 ^ Z.of_nat 0) with 1 in Hn; cbn; split; [lia|constructor]|].
  rewrite Nat2Z.inj_succ, Z.pow_succ_r in Hn by lia. destruct (Z.ltb_spec 0 num); [|cbn; split; [lia|constructor]].
  destruct (IH (num / base)) as [Hv Hd].
  { split; [apply Z.div_pos; lia|]. apply Z.div_lt_upper_bound; [lia|]. nia. }
  cbn [low_value fold_right]. unfold low_value in Hv. rewrite Hv. split; [pose proof (Z.div_mod num base); lia|]. constructor; [|done]. unfold digit. apply Z.mod_pos_bound. lia.
Qed.

(** A digit list without a zero at its most significant end is what its value gives. *)
Lemma base_digits_unique ds : forall fuel, Forall digit ds -> List.last ds 1 <> 0 -> low_value ds < 2 ^ Z.of_nat fuel -> base_digits base fuel (low_value ds) = ds.
Proof.
  induction ds as [|d ds IH]; intros fuel Hd Hlast Hlt; [by destruct fuel|].
  apply list.Forall_cons_1 in Hd as [Hd0 Hd]. pose proof (low_value_nonneg ds Hd) as Hnn. unfold digit in Hd0.
  assert (Hpos : 0 < low_value (d :: ds)).
  { cbn [low_value fold_right]. fold (low_value ds). destruct ds as [|d1 ds1]; [cbn in *; lia|].
    assert (0 < low_value (d1 :: ds1)); [|nia]. clear IH Hlt. cbn in Hlast. revert d1 Hd Hlast Hnn. induction ds1 as [|d2 ds2 IH2]; intros d1 Hd1 Hl Hn.
    - cbn in *. apply list.Forall_cons_1 in Hd1 as [[? ?] _]. lia.
    - apply list.Forall_cons_1 in Hd1 as [[? ?] Hd2]. specialize (IH2 d2 Hd2 Hl (low_value_nonneg _ Hd2)). cbn [low_value fold_right] in *. nia. }
  destruct fuel as [|fuel]; [change (2 ^ Z.of_nat 0) with 1 in Hlt; lia|]. cbn [base_digits]. replace (0 <? low_value (d :: ds)) with true by lia.
  cbn [low_value fold_right] in *. fold (low_value ds) in *.
  replace (d + base * low_value ds) with (d + low_value ds * base) by lia. rewrite Z.mod_add, Z.div_add, Z.mod_small, Z.div_small by lia. cbn [Z.add]. f_equal.
  rewrite Nat2Z.inj_succ, Z.pow_succ_r in Hlt by lia. apply IH; [done| |nia]. destruct ds as [|d1 ds1]; [done|exact Hlast].
Qed.

Lemma digits_fuel_enough num : 0 <= num -> num < 2 ^ Z.of_nat (S (Z.to_nat (Z.log2 num))).
Proof.
  intros Hn. rewrite Nat2Z.inj_succ, Z2Nat.id by apply Z.log2_nonneg. destruct (decide (num = 0)) as [-> |]; [done|]. apply Z.log2_spec. lia.
Qed.

Lemma value_digits num : 0 <= num -> value (digits_in base num) = num /\ Forall digit (digits_in base num).
Proof.
  intros Hn. unfold digits_in. rewrite value_rev. destruct (base_digits_value _ num (conj Hn (digits_fuel_enough num Hn))) as [-> Hd].
  split; [done|]. by apply Forall_rev.
Qed.

Lemma top_of_rev (l : list Z) d : List.last (rev l) d = hd d l.
Proof. destruct l as [|x l]; [done|]. cbn [rev hd]. apply List.last_last. Qed.

Lemma digits_value ds : Forall digit ds -> hd 1 ds <> 0 -> digits_in base (value ds) = ds.
Proof.
  intros Hd Hh. unfold digits_in. rewrite <- (rev_involutive ds), value_rev. f_equal. pose proof (Forall_rev Hd) as Hd'.
  apply base_digits_unique; [done|by rewrite top_of_rev|]. by apply digits_fuel_enough, low_value_nonneg.
Qed.

Lemma base_digits_top fuel : forall num, 0 <= num < 2 ^ Z.of_nat fuel -> List.last (base_digits base fuel num) 1 <> 0.
Proof.
  induction fuel as [|fuel IH]; intros num Hn; cbn [base_digits]; [done|]. rewrite Nat2Z.inj_succ, Z.pow_succ_r in Hn by lia.
  destruct (Z.ltb_spec 0 num); [|done]. assert (Hq : 0 <= num / base < 2 ^ Z.of_nat fuel).
  { split; [apply Z.div_pos; lia|]. apply Z.div_lt_upper_bound; [lia|]. nia. }
  specialize (IH _ Hq). destruct (base_digits base fuel (num / base)) as [|d ds] eqn:E; [|exact IH]. cbn [List.last].
  assert (num / base = 0) as Hz. { destruct fuel as [|fuel]; [change (2 ^ Z.of_nat 0) with 1 in Hq; lia|]. cbn [base_digits] in E. destruct (Z.ltb_spec 0 (num / base)); [done|lia]. }
  pose proof (Z.div_mod num base). lia.
Qed.

Lemma digits_top num : 0 <= num -> hd 1 (digits_in base num) <> 0.
Proof. intros Hn. unfold digits_in. rewrite <- top_of_rev, rev_involutive. apply base_digits_top. split; [done|by apply digits_fuel_enough]. Qed.

(** A digit list is its leading zeros and the digits of its value. *)
Lemma leading_split c (s : list Z) : s = repeat c (leading c s) ++ drop (leading c s) s /\ hd (c + 1) (drop (leading c s) s) <> c.
Proof.
  induction s as [|x s [IH1 IH2]]; cbn; [split; [done|lia]|]. destruct (Z.eqb_spec x c) as [-> |Hne]; cbn; [|done]. split; [by f_equal|done].
Qed.

Lemma leading_repeat c k (s : list Z) : hd (c + 1) s <> c -> leading c (repeat c k ++ s) = k.
Proof. intros Hs. induction k as [|k IH]; cbn; [destruct s as [|x s]; [done|]; cbn in *; by destruct (Z.eqb_spec x c)|]. rewrite Z.eqb_refl. by rewrite IH. Qed.

Lemma zeros_digit k : Forall digit (repeat 0 k).
Proof. induction k as [|k IH]; cbn; constructor; [unfold digit; lia|done]. Qed.

Lemma value_zeros k ds : value (repeat 0 k ++ ds) = value ds.
Proof. unfold value. induction k as [|k IH]; [done|exact IH]. Qed.

Lemma digits_zeros ds : Forall digit ds -> ds = repeat 0 (leading 0 ds) ++ digits_in base (value ds).
Proof.
  intros Hd. destruct (leading_split 0 ds) as [E Hh]. assert (value ds = value (drop (leading 0 ds) ds)) as -> by (rewrite E at 1; apply value_zeros).
  rewrite digits_value; [done|by apply Forall_drop|exact Hh].
Qed.
End Base.

(** ** base58check *)
Lemma be_value_value s : be_value s = value 256 s.
Proof. done. Qed.

Definition b58_digit : Z -> Prop := digit 58.

Lemma b58_find d : b58_digit d -> find_char (b58_char d) B58_ALPHABET = Some (Z.to_nat d).
Proof.
  intros Hd. assert (Hall : forallb (fun i => bool_decide (find_char (b58_char (Z.of_nat i)) B58_ALPHABET = Some i)) (seq 0 58) = true) by (vm_compute; reflexivity).
  rewrite forallb_forall in Hall. specialize (Hall (Z.to_nat d)). rewrite in_seq in Hall. unfold b58_digit, digit in Hd. rewrite Z2Nat.id in Hall by lia.
  apply (bool_decide_unpack _). rewrite Hall by lia. done.
Qed.

Lemma find_char_at c s i : find_char c s = Some i -> (i < length s)%nat /\ nth i s 0 = c.
Proof.
  revert i. induction s as [|x s IH]; intros i; cbn; [done|]. destruct (Z.eqb_spec x c) as [-> |Hne]; [intros [= <-]; split; [lia|done]|].
  destruct (find_char c s) as [j|]; [|done]. intros [= <-]. destruct (IH j eq_refl). split; [lia|done].
Qed.

Lemma base58_value_digits ds : Forall b58_digit ds -> forall num, base58_value num (map b58_char ds) = Some (fold_left (fun acc d => acc * 58 + d) ds num).
Proof.
  induction 1 as [|d ds Hd _ IH]; intros num; [done|]. cbn [map base58_value fold_left]. rewrite b58_find by done. unfold b58_digit, digit in Hd. by rewrite Z2Nat.id by lia.
Qed.

Lemma base58_value_chars addr : forall num n, base58_value num addr = Some n -> exists ds, Forall b58_digit ds /\ addr = map b58_char ds.
Proof.
  induction addr as [|c addr IH]; intros num n; cbn [base58_value]; [by exists []|]. destruct (find_char c B58_ALPHABET) as [i|] eqn:Ei; [|done]. intros Hv.
  destruct (IH _ _ Hv) as (ds & Hds & ->). apply find_char_at in Ei as [Hi Hc]. change (length B58_ALPHABET) with 58%nat in Hi. exists (Z.of_nat i :: ds). split.
  - constructor; [unfold b58_digit, digit; lia|done].
  - cbn [map]. f_equal. unfold b58_char. by rewrite Nat2Z.id.
Qed.

Lemma leading_b58 ds : Forall b58_digit ds -> leading 49 (map b58_char ds) = leading 0 ds.
Proof.
  induction 1 as [|d ds Hd _ IH]; [done|]. cbn [map leading]. rewrite IH. destruct (Z.eqb_spec d 0) as [-> |Hne]; [done|].
  destruct (Z.eqb_spec (b58_char d) 49) as [E|]; [|done]. pose proof (b58_find d Hd) as Hf. rewrite E in Hf. change (find_char 49 B58_ALPHABET) with (Some 0%nat) in Hf. injection Hf as Hf. unfold b58_digit, digit in Hd. lia.
Qed.

(** The checksum is four bytes. *)
Lemma sha256_round_length h kw : length (sha256_round h kw) = length h.
Proof. by destruct h as [|a [|b [|c [|d [|e [|f [|g [|i [|? ?]]]]]]]]]. Qed.

Lemma sha256_blocks_length n : forall h s, length h = 8%nat -> length (sha256_blocks n h s) = 8%nat.
Proof.
  induction n as [|n IH]; intros h s Hh; [done|]. cbn [sha256_blocks]. apply IH. unfold sha256_block. rewrite length_zip_with.
  assert (Hf : forall l h, length (fold_left sha256_round l h) = length h) by (induction l as [|kw l IHl]; intros h'; [done|]; cbn [fold_left]; by rewrite IHl, sha256_round_length).
  rewrite Hf, Hh. done.
Qed.

Lemma double_sha_bytes body : length (double_sha body) = 4%nat /\ Forall (digit 256) (double_sha body).
Proof.
  unfold double_sha. set (inner := sha256 body). unfold sha256. pose proof (sha256_blocks_length (length (sha256_pad inner) / 64) SHA256_H (sha256_pad inner) eq_refl) as Hl.
  destruct (sha256_blocks _ _ _) as [|w ws]; [done|]. cbn [flat_map]. split.
  - rewrite length_take, length_app, be_bytes_length. lia.
  - apply Forall_take, Forall_app. split; [apply be_bytes_byte|]. clear Hl. induction ws as [|x ws IH]; cbn; [constructor|]. apply Forall_app. split; [apply be_bytes_byte|done].
Qed.

(** C34: base58check accepts exactly the addresses the encoder writes of twenty bytes under
    the version of a pay-to-public-key-hash or pay-to-script-hash address: nothing else,
    so each address in one spelling only, and every one of them. *)
Theorem base58check_accepts_exactly group0 :
  base58check_ok group0 = true <->
  exists version payload, (version = 0 \/ version = 5) /\ length payload = 20%nat /\ Forall (digit 256) payload /\ group0 = base58check_encode version payload.
Proof.
  split.
  - unfold base58check_ok. destruct (base58_value 0 group0) as [num|] eqn:En; [|done]. destruct (base58_value_chars _ _ _ En) as (ds & Hds & ->).
    rewrite base58_value_digits in En by done. injection En as <-. fold (value 58 ds). rewrite leading_b58 by done. set (raw := repeat 0 _ ++ _).
    destruct (Nat.eqb_spec (length raw) 25) as [Hlen|]; [|done]. intros [Hsum%bool_decide_eq_true Hver]%andb_true_iff.
    assert (Hn : 0 <= value 58 ds) by (rewrite <- (rev_involutive ds), value_rev; by apply low_value_nonneg, Forall_rev).
    destruct (value_digits 256 ltac:(lia) (value 58 ds) Hn) as [Hv Hd].
    assert (Hraw : Forall (digit 256) raw). { apply Forall_app. split; [|exact Hd]. by apply zeros_digit. }
    destruct raw as [|v rest] eqn:Er; [done|]. cbn [take drop] in Hsum, Hver. exists v, (take 20 rest). cbn [length] in Hlen.
    apply list.Forall_cons_1 in Hraw as [_ Hrest]. split_and!; [rewrite orb_true_iff, !Z.eqb_eq in Hver; exact Hver|rewrite length_take; lia|by apply Forall_take|].
    unfold base58check_encode. change (v :: take 20 rest) with (take 21 (v :: rest)) in *. rewrite Hsum. change (drop 20 rest) with (drop 21 (v :: rest)). rewrite take_drop, <- Er.
    unfold base58_encode, raw. rewrite be_value_value, value_zeros. unfold minimal_bytes. rewrite Hv, leading_repeat by (by apply digits_top).
    rewrite (digits_zeros 58 ltac:(lia) ds) at 1 by done. rewrite map_app, map_repeat. f_equal.
  - intros (version & payload & Hver & Hlen & Hp & ->). unfold base58check_encode. set (body := version :: payload). destruct (double_sha_bytes body) as [Hsl Hsb].
    set (raw := body ++ double_sha body). assert (Hraw : Forall (digit 256) raw) by (apply Forall_app; split; [constructor; [unfold digit; lia|done]|done]).
    unfold base58_encode. rewrite be_value_value. assert (Hn : 0 <= value 256 raw) by (rewrite <- (rev_involutive raw), value_rev; by apply low_value_nonneg, Forall_rev).
    destruct (value_digits 58 ltac:(lia) (value 256 raw) Hn) as [Hv Hd]. set (ds := repeat 0 (leading 0 raw) ++ digits_in 58 (value 256 raw)).
    assert (Hds : Forall b58_digit ds). { apply Forall_app. split; [|exact Hd]. by apply zeros_digit. }
    assert (Hmap : repeat 49 (leading 0 raw) ++ map b58_char (digits_in 58 (value 256 raw)) = map b58_char ds) by (unfold ds; by rewrite map_app, map_repeat).
    rewrite Hmap. unfold base58check_ok. rewrite base58_value_digits by done. fold (value 58 ds). rewrite leading_b58 by done.
    unfold ds. rewrite value_zeros, Hv, leading_repeat by (by apply digits_top). unfold minimal_bytes. rewrite <- (digits_zeros 256 ltac:(lia)) by done.
    assert (Htake : take 21 raw = body) by (unfold raw; rewrite take_app_length'; [done|cbn; lia]). assert (Hdrop : drop 21 raw = double_sha body) by (unfold raw; rewrite drop_app_length'; [done|cbn; lia]).
    assert (length raw = 25%nat) as -> by (unfold raw; rewrite length_app, Hsl; cbn; lia). cbn [Nat.eqb]. rewrite Htake, Hdrop, bool_decide_eq_true_2 by done. unfold body. destruct Hver as [-> | ->]; done.
Qed.

(** The address of the genesis block, from its public key's hash. *)
Example genesis_encoded : base58check_encode 0 (hex (lit "62e907b15cbf27d5425399ebf6f0fb50ebb88f18")) = lit "1A1zP1eP5QGefi2DMPTfTL5SLmv7DivfNa".
Proof. vm_compute. reflexivity. Qed.

(** ** bech32: the checksum is linear *)
Definition xors : list Z -> list Z -> list Z := zip_with Z.lxor.

(** The step without the generator's choice: what a clear or set bit of the top adds. *)
Lemma gen_of_lxor top chk : gen_of top chk = Z.lxor chk (gen_of top 0).
Proof.
  unfold gen_of, GEN. cbn [combine fold_left fst snd]. repeat (destruct (Z.testbit top _)); rewrite ?Z.lxor_0_l, ?Z.lxor_0_r, ?Z.lxor_assoc; done.
Qed.

Lemma gen_linear s t : gen_of (Z.lxor s t) 0 = Z.lxor (gen_of s 0) (gen_of t 0).
Proof.
  unfold gen_of, GEN. cbn [combine fold_left fst snd]. rewrite !Z.lxor_spec.
  repeat match goal with |- context [Z.testbit ?x ?i] => destruct (Z.testbit x i) end; vm_compute; reflexivity.
Qed.

Lemma step_lxor a b v w : polymod_step (Z.lxor a b) (Z.lxor v w) = Z.lxor (polymod_step a v) (polymod_step b w).
Proof.
  unfold polymod_step. rewrite (gen_of_lxor _ (Z.lxor _ (Z.lxor v w))), (gen_of_lxor _ (Z.lxor _ v)), (gen_of_lxor _ (Z.lxor _ w)), Z.shiftr_lxor, gen_linear.
  set (ga := gen_of (Z.shiftr a 25) 0). set (gb := gen_of (Z.shiftr b 25) 0).
  assert (Z.land (Z.lxor a b) 33554431 = Z.lxor (Z.land a 33554431) (Z.land b 33554431)) as ->.
  { apply Z.bits_inj'. intros n _. rewrite !Z.lxor_spec, !Z.land_spec, Z.lxor_spec. by destruct (Z.testbit a n), (Z.testbit b n), (Z.testbit 33554431 n). }
  rewrite Z.shiftl_lxor. set (x := Z.shiftl _ 5). set (y := Z.shiftl _ 5). apply Z.bits_inj'. intros n _. rewrite !Z.lxor_spec.
  by destruct (Z.testbit x n), (Z.testbit y n), (Z.testbit v n), (Z.testbit w n), (Z.testbit ga n), (Z.testbit gb n).
Qed.

Lemma fold_lxor l : forall m a b, length l = length m ->
  fold_left polymod_step (xors l m) (Z.lxor a b) = Z.lxor (fold_left polymod_step l a) (fold_left polymod_step m b).
Proof.
  induction l as [|v l IH]; intros [|w m] a b Hl; try done. cbn [xors zip_with fold_left]. rewrite step_lxor. apply IH. cbn in Hl. lia.
Qed.

Lemma xors_zeros l : xors (repeat 0 (length l)) l = l.
Proof. unfold xors. induction l as [|x l IH]; [done|]. cbn. by rewrite IH. Qed.

(** *** Words of the checksum *)
Lemma gen_range top : 0 <= gen_of top 0 < 2 ^ 30.
Proof. unfold gen_of, GEN. cbn [combine fold_left fst snd]. repeat (destruct (Z.testbit top _)); vm_compute; split; congruence. Qed.

Definition sym (v : Z) : Prop := 0 <= v < 32.

Lemma step_range chk v : sym v -> 0 <= polymod_step chk v < 2 ^ 30.
Proof.
  intros Hv. unfold polymod_step. rewrite gen_of_lxor. apply lxor_range; [lia| |apply gen_range]. apply lxor_range; [lia| |unfold sym in Hv; lia].
  change 33554431 with (Z.ones 25). rewrite Z.land_ones, Z.shiftl_mul_pow2 by lia. pose proof (Z.mod_pos_bound chk (2 ^ 25) ltac:(lia)). lia.
Qed.

Lemma fold_range l : forall chk, Forall sym l -> 0 <= chk < 2 ^ 30 -> 0 <= fold_left polymod_step l chk < 2 ^ 30.
Proof. induction l as [|v l IH]; intros chk Hl Hc; [done|]. apply list.Forall_cons_1 in Hl as [Hv Hl]. cbn. apply IH; [done|by apply step_range]. Qed.

(** Below 2^25 a step only shifts a symbol in. *)
Lemma step_small chk v : sym v -> 0 <= chk < 2 ^ 25 -> polymod_step chk v = chk * 32 + v.
Proof.
  intros Hv Hc. unfold polymod_step. rewrite Z.shiftr_div_pow2, Z.div_small by lia. change (gen_of 0 ?x) with x.
  change 33554431 with (Z.ones 25). rewrite Z.land_ones, Z.mod_small, Z.shiftl_mul_pow2 by lia. change (2 ^ 5) with 32.
  symmetry. apply Z.add_nocarry_lxor. apply Z.bits_inj'. intros n Hn. rewrite Z.land_spec, Z.bits_0. unfold sym in Hv.
  destruct (Z.ltb_spec n 5).
  - change 32 with (2 ^ 5). by rewrite Z.mul_pow2_bits_low.
  - rewrite (Z.bits_above_log2 v n); [by rewrite andb_false_r|lia|]. destruct (decide (v = 0)) as [-> |]; [change (Z.log2 0) with 0; lia|].
    apply Z.log2_lt_pow2; [lia|]. apply (Z.lt_le_trans _ (2 ^ 5)); [lia|]. apply Z.pow_le_mono_r; lia.
Qed.

(** Six symbols from zero are the number they spell. *)
Definition spelled (l : list Z) : Z := fold_left (fun acc d => acc * 32 + d) l 0.

Lemma spelled_six c0 c1 c2 c3 c4 c5 : sym c0 -> sym c1 -> sym c2 -> sym c3 -> sym c4 -> sym c5 ->
  fold_left polymod_step [c0; c1; c2; c3; c4; c5] 0 = spelled [c0; c1; c2; c3; c4; c5].
Proof.
  unfold sym. intros. unfold spelled. cbn [fold_left]. change (2 ^ 25) with 33554432 in *.
  rewrite (step_small _ c0), (step_small _ c1), (step_small _ c2), (step_small _ c3), (step_small _ c4), (step_small _ c5); unfold sym; change (2 ^ 25) with 33554432; lia.
Qed.

Lemma spelled_list l : length l = 6%nat -> Forall sym l -> fold_left polymod_step l 0 = spelled l.
Proof.
  destruct l as [|c0 [|c1 [|c2 [|c3 [|c4 [|c5 [|? ?]]]]]]]; try done. intros _ Hs. repeat (apply list.Forall_cons_1 in Hs as [? Hs]). by apply spelled_six.
Qed.

Definition groups (p : Z) : list Z := map (fun i => Z.land (Z.shiftr p (5 * (5 - i))) 31) [0; 1; 2; 3; 4; 5].

Lemma groups_sym p : Forall sym (groups p).
Proof. unfold groups. apply Forall_fmap. repeat constructor; cbn; change 31 with (Z.ones 5); rewrite Z.land_ones by lia; apply Z.mod_pos_bound; lia. Qed.

Lemma groups_spelled p : 0 <= p < 2 ^ 30 -> spelled (groups p) = p.
Proof.
  intros Hp. unfold groups, spelled. cbn [map fold_left]. change 31 with (Z.ones 5). rewrite !Z.land_ones, !Z.shiftr_div_pow2 by lia.
  change (5 * (5 - 0)) with 25. change (5 * (5 - 1)) with 20. change (5 * (5 - 2)) with 15. change (5 * (5 - 3)) with 10. change (5 * (5 - 4)) with 5. change (5 * (5 - 5)) with 0.
  change (2 ^ 25) with (2 ^ 20 * 32). change (2 ^ 20) with (2 ^ 15 * 32). change (2 ^ 15) with (2 ^ 10 * 32). change (2 ^ 10) with (2 ^ 5 * 32). change (2 ^ 5) with 32. change (2 ^ 0) with 1.
  rewrite Z.div_1_r. rewrite <- !Z.div_div by lia.
  pose proof (Z.div_mod p 32 ltac:(lia)). set (p1 := p / 32) in *. pose proof (Z.div_mod p1 32 ltac:(lia)). set (p2 := p1 / 32) in *.
  pose proof (Z.div_mod p2 32 ltac:(lia)). set (p3 := p2 / 32) in *. pose proof (Z.div_mod p3 32 ltac:(lia)). set (p4 := p3 / 32) in *.
  pose proof (Z.div_mod p4 32 ltac:(lia)). set (p5 := p4 / 32) in *. pose proof (Z.mod_pos_bound p 32 ltac:(lia)). pose proof (Z.mod_pos_bound p1 32 ltac:(lia)).
  pose proof (Z.mod_pos_bound p2 32 ltac:(lia)). pose proof (Z.mod_pos_bound p3 32 ltac:(lia)). pose proof (Z.mod_pos_bound p4 32 ltac:(lia)).
  rewrite (Z.mod_small p5 32); [lia|]. change (2 ^ 30) with 1073741824 in Hp. lia.
Qed.

(** The checksum the encoder appends gives the constant. *)
Lemma checksum_closes values const : Forall sym values -> 0 <= const < 2 ^ 30 ->
  bech32_polymod (values ++ groups (Z.lxor (bech32_polymod (values ++ [0; 0; 0; 0; 0; 0])) const)) = const.
Proof.
  intros Hv Hc. unfold bech32_polymod. rewrite !fold_left_app. set (st := fold_left polymod_step values 1).
  set (zeroed := fold_left polymod_step [0; 0; 0; 0; 0; 0] st). set (p := Z.lxor zeroed const).
  assert (Hp : 0 <= p < 2 ^ 30).
  { apply lxor_range; [lia| |done]. apply fold_range; [repeat constructor; unfold sym; lia|]. apply fold_range; [done|lia]. }
  assert (Hl : fold_left polymod_step (groups p) st = Z.lxor zeroed (fold_left polymod_step (groups p) 0)).
  { pose proof (fold_lxor (repeat 0 6) (groups p) st 0 eq_refl) as Hl. rewrite Z.lxor_0_r in Hl. pose proof (xors_zeros (groups p)) as Hx. change (length (groups p)) with 6%nat in Hx. by rewrite Hx in Hl. }
  rewrite Hl, spelled_list, groups_spelled; [|done|done|apply groups_sym]. unfold p. by rewrite <- Z.lxor_assoc, Z.lxor_nilpotent, Z.lxor_0_l.
Qed.

(** *** Characters of the data part *)
Lemma bech32_find d : sym d -> find_char (bech32_char d) BECH32_CHARSET = Some (Z.to_nat d) /\ bech32_char d <> 49.
Proof.
  intros Hd. assert (Hall : forallb (fun i => bool_decide (find_char (bech32_char (Z.of_nat i)) BECH32_CHARSET = Some i) && negb (bech32_char (Z.of_nat i) =? 49)) (seq 0 32) = true) by (vm_compute; reflexivity).
  rewrite forallb_forall in Hall. specialize (Hall (Z.to_nat d)). rewrite in_seq in Hall. unfold sym in Hd. rewrite Z2Nat.id in Hall by lia.
  assert (Hd' : (0 <= Z.to_nat d < 0 + 32)%nat) by lia. apply Hall in Hd' as [H1%bool_decide_eq_true H2]%andb_true_iff. split; [done|]. intros E. by rewrite E in H2.
Qed.

Lemma bech32_data_chars ds : Forall sym ds -> bech32_data (map bech32_char ds) = Some ds.
Proof.
  induction 1 as [|d ds Hd _ IH]; [done|]. cbn [map bech32_data]. destruct (bech32_find d Hd) as [-> _]. rewrite IH. unfold sym in Hd. by rewrite Z2Nat.id by lia.
Qed.

Lemma bech32_chars_of s ds : bech32_data s = Some ds -> Forall sym ds /\ s = map bech32_char ds.
Proof.
  revert ds. induction s as [|c s IH]; intros ds; cbn [bech32_data]; [intros [= <-]; split; [constructor|done]|].
  destruct (find_char c BECH32_CHARSET) as [i|] eqn:Ei; [|done]. destruct (bech32_data s) as [d|] eqn:Ed; [|done]. intros [= <-]. destruct (IH d eq_refl) as [Hd ->].
  apply find_char_at in Ei as [Hi Hc]. change (length BECH32_CHARSET) with 32%nat in Hi. split.
  - constructor; [unfold sym; lia|done].
  - cbn [map]. f_equal. unfold bech32_char. by rewrite Nat2Z.id.
Qed.

Lemma chars_no_one ds : Forall sym ds -> mem_char 49 (map bech32_char ds) = false.
Proof.
  induction 1 as [|d ds Hd _ IH]; [done|]. cbn [map]. rewrite mem_char_cons, IH, orb_false_r. destruct (bech32_find d Hd) as [_ Hne]. by apply Z.eqb_neq.
Qed.

(** What the validator reads of an address with data after [bc1]. *)
Lemma bech32_read ds : Forall sym ds -> bech32_address_ok (lit "bc1" ++ map bech32_char ds) =
  if (length ds <? 7)%nat then false
  else match ds with [] => false | w :: _ => (w <=? 16) && (bech32_polymod (bech32_hrp_expand (lit "bc") ++ ds) =? const_of w) end.
Proof.
  intros Hd. unfold bech32_address_ok. assert (rfind_char 49 (lit "bc1" ++ map bech32_char ds) = Some 2%nat) as ->.
  { change (lit "bc1") with [98; 99; 49]. cbn [app rfind_char]. rewrite (proj2 (rfind_char_None 49 _) (chars_no_one ds Hd)). done. }
  change (take 2 (lit "bc1" ++ map bech32_char ds)) with (lit "bc"). change (drop 3 (lit "bc1" ++ map bech32_char ds)) with (map bech32_char ds).
  rewrite bool_decide_eq_true_2, bech32_data_chars by done. done.
Qed.

(** *** What the encoder writes is accepted *)
Lemma land_sym x : sym (Z.land x (Z.ones 5)).
Proof. rewrite Z.land_ones by lia. apply Z.mod_pos_bound. lia. Qed.

Lemma take_groups_sym fuel : forall acc bits, Forall sym (take_groups fuel acc bits 5).1.
Proof.
  induction fuel as [|fuel IH]; intros acc bits; cbn [take_groups]; [constructor|]. destruct (5 <=? bits); [|constructor].
  specialize (IH acc (bits - 5)). destruct (take_groups fuel acc (bits - 5) 5) as [ret left]. constructor; [apply land_sym|exact IH].
Qed.

Lemma convert_go_sym data : forall acc bits ret acc' bits', convert_go data acc bits 8 5 = Some (ret, acc', bits') -> Forall sym ret.
Proof.
  induction data as [|v data IH]; intros acc bits ret acc' bits'; cbn [convert_go]; [by intros [= <- _ _]|]. destruct (_ || _); [done|].
  pose proof (take_groups_sym (S (Z.to_nat (bits + 8))) (Z.lor (Z.shiftl acc 8) v) (bits + 8)) as Hg. destruct (take_groups _ _ _ 5) as [r b]. destruct (convert_go data _ b 8 5) as [[[m a] b']|] eqn:E; [|done].
  intros [= <- _ _]. apply Forall_app. split; [exact Hg|by eapply IH].
Qed.

Lemma program_sym program : Forall sym (default [] (convertbits program 8 5 true)).
Proof.
  unfold convertbits. destruct (convert_go program 0 0 8 5) as [[[ret acc] bits]|] eqn:E; [|constructor]. apply convert_go_sym in E. cbn [default from_option]. unfold id.
  destruct (bits =? 0); [done|]. apply Forall_app. split; [done|]. constructor; [apply land_sym|constructor].
Qed.

Lemma const_range w : 0 <= const_of w < 2 ^ 30.
Proof. unfold const_of. destruct (w =? 0); vm_compute; split; congruence. Qed.

Lemma hrp_sym : Forall sym (bech32_hrp_expand (lit "bc")).
Proof. vm_compute. repeat (constructor; [split; congruence|]). constructor. Qed.

(** Every segwit address the encoder writes, for any witness version and program, is
    accepted. *)
Theorem bech32_round_trip witver program : 0 <= witver <= 16 -> bech32_address_ok (bech32_encode (lit "bc") witver program) = true.
Proof.
  intros Hw. unfold bech32_encode. set (data := witver :: _). assert (Hd : Forall sym data) by (constructor; [unfold sym; lia|apply program_sym]).
  set (values := bech32_hrp_expand (lit "bc") ++ data). assert (Hv : Forall sym values) by (apply Forall_app; split; [apply hrp_sym|done]).
  fold (groups (Z.lxor (bech32_polymod (values ++ [0; 0; 0; 0; 0; 0])) (const_of witver))). set (sum := groups _).
  change (lit "bc" ++ [49] ++ map bech32_char (data ++ sum)) with (lit "bc1" ++ map bech32_char (data ++ sum)).
  rewrite bech32_read by (apply Forall_app; split; [done|apply groups_sym]).
  assert (Hlen : (7 <= length (data ++ sum))%nat) by (rewrite length_app; unfold data, sum, groups; cbn [length]; rewrite length_map; cbn [length]; lia).
  destruct (Nat.ltb_spec (length (data ++ sum)) 7); [lia|]. unfold data at 1. cbn [app]. rewrite app_assoc. fold values. unfold sum.
  rewrite checksum_closes by (done || apply const_range). rewrite Z.eqb_refl, andb_true_r. lia.
Qed.

Lemma bech32_round_trip_witness : bech32_address_ok (bech32_encode (lit "bc") 1 [0; 255; 7]) = true.
Proof. apply bech32_round_trip. lia. Defined.

(** *** One or two characters mistyped *)

(** What a symbol adds to the checksum word from [p] places before the end. *)
Fixpoint syndrome (p : nat) (a : Z) : Z := match p with O => a | S p => syndrome p (polymod_step a 0) end.

Definition places : nat := 87.
Definition marks : list (nat * Z) := flat_map (fun p => map (fun a => (p, Z.of_nat a)) (seq 1 31)) (seq 0 places).
Definition mark (m : nat * Z) : Z := syndrome m.1 m.2.

Definition version_gap : Z := Z.lxor BECH32_CONST BECH32M_CONST.

(** The marks by their words; None where two share a word. *)
Fixpoint words_of (l : list (nat * Z)) (seen : gmap Z (nat * Z)) : option (gmap Z (nat * Z)) :=
  match l with
  | [] => Some seen
  | m :: l => match seen !! mark m with Some _ => None | None => words_of l (<[mark m := m]> seen) end
  end.

(** No two marks share a word, none has a zero one or the gap between the two constants,
    and no two differ by the gap. *)
Definition apart : bool :=
  match words_of marks ∅ with
  | None => false
  | Some words =>
      forallb (fun m => let x := mark m in
        negb (x =? 0) && negb (x =? version_gap) && match words !! Z.lxor x version_gap with Some _ => false | None => true end) marks
  end.

Lemma marks_apart : apart = true.
Proof. vm_compute. reflexivity. Qed.

Lemma words_of_spec l : forall seen words, words_of l seen = Some words ->
  (forall x m, seen !! x = Some m -> words !! x = Some m) /\ (forall m, m ∈ l -> words !! mark m = Some m).
Proof.
  induction l as [|m l IH]; intros seen words; cbn [words_of]; [intros [= <-]; split; [done|by intros ? ?%not_elem_of_nil]|].
  destruct (seen !! mark m) eqn:E; [done|]. intros Hw. destruct (IH _ _ Hw) as [Hold Hnew]. split.
  - intros x m' Hx. apply Hold. rewrite lookup_insert_ne; [done|]. intros <-. congruence.
  - intros m' [-> |Hm]%elem_of_cons; [|by apply Hnew]. apply Hold. by rewrite lookup_insert_eq.
Qed.

Lemma marks_facts m : m ∈ marks ->
  mark m <> 0 /\ mark m <> version_gap /\ forall m', m' ∈ marks -> (mark m = mark m' -> m = m') /\ Z.lxor (mark m) (mark m') <> version_gap.
Proof.
  intros Hm. pose proof marks_apart as Ha. unfold apart in Ha. destruct (words_of marks ∅) as [words|] eqn:Ew; [|done].
  destruct (words_of_spec _ _ _ Ew) as [_ Hw]. rewrite forallb_forall in Ha. pose proof (Ha m (proj1 (list_elem_of_In _ _) Hm)) as Hf.
  apply andb_true_iff in Hf as [[H0%negb_true_iff%Z.eqb_neq Hg%negb_true_iff%Z.eqb_neq]%andb_true_iff Hx]. split_and!; [done|done|]. intros m' Hm'. split.
  - intros E. pose proof (Hw m Hm) as H1. pose proof (Hw m' Hm') as H2. rewrite E in H1. congruence.
  - intros E. assert (mark m' = Z.lxor (mark m) version_gap) as E' by (by rewrite <- E, <- Z.lxor_assoc, Z.lxor_nilpotent, Z.lxor_0_l). by rewrite <- E', (Hw m' Hm') in Hx.
Qed.

Lemma mark_in p a : (p < places)%nat -> sym a -> a <> 0 -> (p, a) ∈ marks.
Proof.
  intros Hp Ha Hne. unfold sym in Ha. unfold marks. apply list_elem_of_In, in_flat_map. exists p. split; [apply in_seq; lia|]. apply in_map_iff. exists (Z.to_nat a). split; [by rewrite Z2Nat.id by lia|apply in_seq; lia].
Qed.

Lemma fold_zeros p : forall a, fold_left polymod_step (repeat 0 p) a = syndrome p a.
Proof. induction p as [|p IH]; intros a; [done|]. cbn [repeat fold_left syndrome]. apply IH. Qed.

Lemma fold_symbol a e : sym a -> fold_left polymod_step (a :: e) 0 = Z.lxor (syndrome (length e) a) (fold_left polymod_step e 0).
Proof.
  intros Ha. cbn [fold_left]. rewrite step_small by (done || lia). change (0 * 32 + a) with a.
  pose proof (fold_lxor (repeat 0 (length e)) e a 0 (repeat_length _ _)) as Hl. by rewrite xors_zeros, Z.lxor_0_r, fold_zeros in Hl.
Qed.

Definition weight (e : list Z) : nat := length (List.filter (fun x => negb (x =? 0)) e).

Lemma fold_weight e : Forall sym e -> (length e <= places)%nat ->
  let w := fold_left polymod_step e 0 in
  (weight e = 0%nat -> w = 0) /\
  (weight e = 1%nat -> exists m, m ∈ marks /\ (m.1 < length e)%nat /\ w = mark m) /\
  (weight e = 2%nat -> exists m m', m ∈ marks /\ m' ∈ marks /\ (m'.1 < m.1 < length e)%nat /\ w = Z.lxor (mark m) (mark m')).
Proof.
  induction e as [|a e IH]; intros Hs Hl; cbn zeta; [by split_and!|]. apply list.Forall_cons_1 in Hs as [Ha Hs]. cbn [length] in Hl. rewrite fold_symbol by done.
  destruct (IH Hs ltac:(lia)) as (H0 & H1 & H2). clear IH. unfold weight in *. cbn [List.filter length]. destruct (Z.eqb_spec a 0) as [-> |Hne]; cbn [negb length].
  - assert (Hz : syndrome (length e) 0 = 0) by (generalize (length e); intros p; induction p as [|p IHp]; [done|exact IHp]). rewrite Hz, Z.lxor_0_l. split_and!; [done| |].
    + intros Hw. destruct (H1 Hw) as (m & ? & ? & ?). exists m. split_and!; [done|lia|done].
    + intros Hw. destruct (H2 Hw) as (m & m' & ? & ? & ? & ?). exists m, m'. split_and!; [done|done|lia|lia|done].
  - pose proof (mark_in (length e) a ltac:(lia) Ha Hne) as Hm. split_and!; [done| |].
    + intros [= Hw]. exists (length e, a). split_and!; [done|cbn; lia|]. rewrite H0 by done. by rewrite Z.lxor_0_r.
    + intros [= Hw]. destruct (H1 Hw) as (m & Hm' & Hlt & ->). exists (length e, a), m. split_and!; [done|done|done|cbn; lia|done].
Qed.

(** How many places two texts of one length differ in. *)
Definition differences (s s' : pystr) : nat := length (List.filter (fun xy => negb (xy.1 =? xy.2)) (combine s s')).

Lemma differences_weight ds : forall ds', Forall sym ds -> Forall sym ds' -> length ds = length ds' ->
  differences (map bech32_char ds) (map bech32_char ds') = weight (xors ds ds') /\ Forall sym (xors ds ds').
Proof.
  induction ds as [|d ds IH]; intros [|d' ds'] Hd Hd' Hl; try done. apply list.Forall_cons_1 in Hd as [Hx Hd]. apply list.Forall_cons_1 in Hd' as [Hx' Hd'].
  cbn in Hl. destruct (IH ds' Hd Hd' ltac:(lia)) as [IHd IHs]. unfold differences, weight, xors in *. cbn [map combine zip_with List.filter fst snd]. split.
  - assert ((bech32_char d =? bech32_char d') = (Z.lxor d d' =? 0)) as ->.
    { destruct (Z.eqb_spec d d') as [-> |Hne]; [by rewrite Z.lxor_nilpotent, !Z.eqb_refl|]. destruct (Z.eqb_spec (Z.lxor d d') 0) as [E|_]; [by apply Z.lxor_eq in E|].
      apply Z.eqb_neq. intros E. destruct (bech32_find d Hx) as [H1 _]. destruct (bech32_find d' Hx') as [H2 _]. rewrite E, H2 in H1. injection H1 as H1. unfold sym in *. lia. }
    destruct (Z.lxor d d' =? 0); cbn; by rewrite IHd.
  - constructor; [|done]. unfold sym in *. change 32 with (2 ^ 5). apply lxor_range; lia.
Qed.

Lemma accepted_data s : bech32_address_ok (lit "bc1" ++ s) = true -> exists ds, Forall sym ds /\ s = map bech32_char ds.
Proof.
  unfold bech32_address_ok. destruct (rfind_char 49 (lit "bc1" ++ s)) as [pos|] eqn:E.
  - case_bool_decide as Hh; [|done]. assert (pos = 2%nat) as ->.
    { apply (f_equal length) in Hh. rewrite length_take, length_app in Hh. cbn in Hh. lia. }
    change (drop 3 (lit "bc1" ++ s)) with s. destruct (bech32_data s) as [ds|] eqn:Ed; [|done]. intros _. exists ds. by apply bech32_chars_of.
  - apply rfind_char_None in E. by rewrite mem_char_app in E.
Qed.

(** C33: of two addresses with the longest data part the rule's pattern matches or less, that
    differ in one or two characters -- a character mistyped, two mistyped, two swapped --
    at most one is accepted, also where the witness version is what changes and with it
    the checksum's constant. *)
Theorem bech32_detects_two_typos s s' : length s = length s' -> (length s <= 87)%nat -> (1 <= differences s s' <= 2)%nat ->
  bech32_address_ok (lit "bc1" ++ s) = true -> bech32_address_ok (lit "bc1" ++ s') = false.
Proof.
  intros Hl Hlen Hdiff Hok. destruct (bech32_address_ok (lit "bc1" ++ s')) eqn:Hok'; [exfalso|done].
  destruct (accepted_data s Hok) as (ds & Hds & ->). destruct (accepted_data s' Hok') as (ds' & Hds' & ->). rewrite bech32_read in Hok, Hok' by done. rewrite !length_map in *.
  destruct (_ <? 7)%nat; [done|]. destruct (_ <? 7)%nat; [done|].
  destruct (differences_weight ds ds' Hds Hds' Hl) as [Hw Hsym]. rewrite Hw in Hdiff.
  assert (Hfold : forall c c', bech32_polymod (bech32_hrp_expand (lit "bc") ++ ds) = c -> bech32_polymod (bech32_hrp_expand (lit "bc") ++ ds') = c' ->
    fold_left polymod_step (xors ds ds') 0 = Z.lxor c c').
  { intros c c' <- <-. unfold bech32_polymod. rewrite !fold_left_app. set (st := fold_left polymod_step _ 1). rewrite <- (Z.lxor_nilpotent st). by apply fold_lxor. }
  assert (Hlx : length (xors ds ds') = length ds) by (unfold xors; rewrite length_zip_with; lia).
  destruct (fold_weight (xors ds ds') Hsym) as (_ & H1 & H2); [rewrite Hlx; exact Hlen|].
  destruct ds as [|w ds]; [done|]. destruct ds' as [|w' ds']; [done|]. apply andb_true_iff in Hok as [_ Hok%Z.eqb_eq]. apply andb_true_iff in Hok' as [_ Hok'%Z.eqb_eq].
  pose proof (Hfold _ _ Hok Hok') as Hf. assert (Hgap : Z.lxor (const_of w) (const_of w') = 0 \/ Z.lxor (const_of w) (const_of w') = version_gap).
  { unfold const_of. destruct (w =? 0), (w' =? 0); vm_compute; auto. }
  assert (Hcase : weight (xors (w :: ds) (w' :: ds')) = 1%nat \/ weight (xors (w :: ds) (w' :: ds')) = 2%nat) by lia. destruct Hcase as [E|E].
  - destruct (H1 E) as (m & Hm & _ & Em). destruct (marks_facts m Hm) as (Hn0 & Hng & _). rewrite Hf in Em. destruct Hgap as [Hg|Hg]; congruence.
  - destruct (H2 E) as (m & m' & Hm & Hm' & Hlt & Em). destruct (marks_facts m Hm) as (_ & _ & Hpair). destruct (Hpair m' Hm') as [Hinj Hng]. rewrite Hf in Em.
    destruct Hgap as [Hg|Hg]; [|congruence]. rewrite Hg in Em. symmetry in Em. apply Z.lxor_eq in Em. rewrite (Hinj Em) in Hlt. lia.
Qed.

(** The BIP-173 address with its two last characters swapped. *)
Lemma bech32_detects_two_typos_witness : bech32_address_ok (lit "bc1qw508d6qejxtdg4y5r3zarvary0c5xw7kv8f34t") = false.
Proof.
  apply (bech32_detects_two_typos (lit "qw508d6qejxtdg4y5r3zarvary0c5xw7kv8f3t4") (lit "qw508d6qejxtdg4y5r3zarvary0c5xw7kv8f34t")).
  - reflexivity.
  - vm_compute. lia.
  - vm_compute. lia.
  - vm_compute. reflexivity.
Defined.

(** ** EIP-55 *)
Lemma cased_lower s : forall digest c, forallb (fun x => negb (is_AZ x)) s = true -> cased s digest = Some c -> lower c = s.
Proof.
  induction s as [|x s IH]; intros digest c; cbn [forallb cased]; [by intros _ [= <-]|]. intros [Hx Hs]%andb_true_iff.
  assert (Hlow : ascii_lower x = x /\ ascii_lower (ascii_upper x) = x) by (unfold ascii_lower, ascii_upper in *; split; repeat case_match; char_solve).
  destruct (cased s (tail digest)) as [rest|] eqn:E; cbn [fmap option_fmap option_map]; [|destruct (is_alpha x), digest; done].
  pose proof (IH _ _ Hs E) as Hr. unfold lower in *.
  destruct (is_alpha x); [destruct digest as [|d digest]; [done|]; destruct (8 <=? d)|]; intros [= <-]; cbn [map]; rewrite Hr; f_equal; apply Hlow.
Qed.

(** Of an address's spellings in mixed case exactly the checksum's is accepted. *)
Theorem eip55_one_spelling low c h : forallb (fun x => negb (is_AZ x)) low = true -> one_character low = false -> eth_checksum low = Some c ->
  eth_address_ok (lit "0x" ++ c) = Some true /\
  (lower h = low -> h <> low -> h <> upper h -> eth_address_ok (lit "0x" ++ h) = Some (bool_decide (h = c))).
Proof.
  intros Hl Ho Hc. unfold eth_address_ok. change (drop 2 (lit "0x" ++ c)) with c. change (drop 2 (lit "0x" ++ h)) with h.
  rewrite (cased_lower _ _ _ Hl Hc), Ho. split.
  - destruct (_ || _); [done|]. rewrite Hc. cbn. by rewrite bool_decide_eq_true_2.
  - intros -> Hn Hu. rewrite Ho, !bool_decide_eq_false_2 by done. cbn [orb]. by rewrite Hc.
Qed.
