(* ===== verification/StreamPools.v ===== *)
(** * Pools of channels under an adapter's steps

    What flushing many channels at once does to one of them, and that a walk which restores
    whole values ([rehydrate_whole]) leaves every channel as it was. *)

From Stdlib Require Import List.
From S2P Require Import Prelude PyRegex Json JsonWalk JsonFacts Placeholders Vault Rehydrate Channels.

Local Open Scope mon_scope.

(** ** Walks whose transform always answers and keeps a relation on the state *)
Section Keeps.
Context {St E : Type} (R : St -> St -> Prop) `{!PreOrder R}.
Context (fn : pystr -> M St E pystr) (skip : gset pystr) (over : pystr -> option (pystr -> M St E pystr)).

Definition keeps {A B} (W : A -> M St E B) (x : A) : Prop := forall s, exists out s', W x s = (Ok out, s') /\ R s s'.

Context (Hfn : forall t, keeps fn t) (Hover : forall k f, over k = Some f -> forall t, keeps f t).

Lemma walk_bind_keeps {A B C D} (W : A -> M St E B) (x : A) (k : B -> C) (y : D) (W' : D -> M St E C) :
  keeps W x -> (forall s, W' y s = (r <~ W x;; mret (k r)) s) -> keeps W' y.
Proof. intros Hw He s. rewrite He. unfold mbnd. destruct (Hw s) as (out & s' & -> & HR). by eexists _, _. Qed.

Lemma walk_ret_keeps {A B} (W : A -> M St E B) (x : A) (y : B) : (forall s, W x s = (Ok y, s)) -> keeps W x.
Proof. intros H s. rewrite H. by eexists _, _. Qed.

Lemma mapM_keeps {A B} (W : A -> M St E B) l : Forall (keeps W) l -> keeps (mapM W) l.
Proof.
  induction 1 as [|x l Hx _ IH]; intros s; cbn [mapM]; [by eexists _, _|]. unfold mbnd. destruct (Hx s) as (y & s1 & -> & R1). destruct (IH s1) as (ys & s2 & -> & R2).
  eexists _, _. split; [done|]. by etrans.
Qed.

Lemma walk_opaque_keeps v : keeps (walk_opaque fn) v.
Proof.
  induction v as [|b|n|t|l IH|l IH] using json_ind'; try by eapply walk_ret_keeps.
  - by apply (walk_bind_keeps fn t JStr).
  - apply (walk_bind_keeps (mapM (walk_opaque fn)) l JList); [by apply mapM_keeps|done].
  - apply (walk_bind_keeps (mapM (opaque_item fn)) l JDict); [|intros s; apply walk_opaque_dict]. apply mapM_keeps.
    eapply list.Forall_impl; [exact IH|]. intros [k x] Hx. by apply (walk_bind_keeps (walk_opaque fn) x (pair k)).
Qed.

Lemma value_keeps plain parent k x : (forall parent, keeps (walk fn skip over parent) x) -> keeps (walk_value fn skip over plain parent) (k, x).
Proof.
  intros IH. unfold keeps, walk_value. cbn [fst snd]. intros s.
  assert (Hrest : exists out s', (if is_opaque parent k then walk_opaque fn x
      else if bool_decide (k = lit "data") && plain && is_jstr x then match x with JStr s => t <~ fn s;; mret (JStr t) | _ => mret x end
      else if (bool_decide (k ∈ skip) && negb (is_container x)) || is_enum_list parent k x || is_media parent k x then mret x
      else walk fn skip over (Some k) x) s = (Ok out, s') /\ R s s').
  { destruct (is_opaque parent k); [apply walk_opaque_keeps|]. destruct (_ && _ && _).
    - destruct x; try by eexists _, _. destruct (Hfn s0 s) as (t & s1 & E1 & R1). unfold mbnd. rewrite E1. by eexists _, _.
    - destruct (_ || _ || _); [by eexists _, _|apply IH]. }
  destruct x; try exact Hrest. destruct (over k) as [f|] eqn:Eo; [|exact Hrest].
  destruct (Hover k f Eo s0 s) as (t & s1 & E1 & R1). unfold mbnd. rewrite E1. by eexists _, _.
Qed.

Lemma walk_keeps v : forall parent, keeps (walk fn skip over parent) v.
Proof.
  induction v as [|b|n|t|l IH|l IH] using json_ind'; intros parent; try by eapply walk_ret_keeps.
  - by apply (walk_bind_keeps fn t JStr).
  - apply (walk_bind_keeps (mapM (walk fn skip over parent)) l JList); [|done]. apply mapM_keeps. eapply list.Forall_impl; [exact IH|]. intros x Hx. apply Hx.
  - apply (walk_bind_keeps (mapM (walk_item fn skip over (plaintext l) parent)) l JDict); [|intros s; apply walk_dict]. apply mapM_keeps.
    eapply list.Forall_impl; [exact IH|]. intros [k x] Hx. apply (walk_bind_keeps (walk_value fn skip over (plaintext l) parent) (k, x) (pair k)); [by apply value_keeps|done].
Qed.
End Keeps.

(** ** Pools *)
Section Pools.
Context {V : Type} `{VaultOps V} {K : Type} `{EqDecision K} (v : V).

Abbreviation pool := (Rehydrate.pool (K := K)).

(** The same channels in the same mode. *)
Definition same_channels (p q : pool) : Prop := channels q = channels p /\ p_fuzzy q = p_fuzzy p.
#[export] Instance same_channels_preorder : PreOrder same_channels.
Proof. split; [by intros p|]. intros p q r [Hc Hf] [Hc' Hf']. split; congruence. Qed.

Lemma whole_keeps j t (p : pool) : same_channels p (rehydrate_whole v j t p).2.
Proof. unfold rehydrate_whole. destruct (feed v _ _ t) as [[o ch] c]. by destruct (flush v ch c) as [[l x] y]. Qed.

(** Every key once. *)
Definition once (p : pool) : Prop := NoDup (map fst (channels p)).

Lemma pool_find_in k (p : pool) : pool_find k p = None <-> k ∉ map fst (channels p).
Proof.
  unfold pool_find. induction (channels p) as [|[k0 c0] l IH]; cbn; [split; [by intros _ ?%not_elem_of_nil|done]|].
  rewrite not_elem_of_cons. case_bool_decide as E; [subst; split; [done|by intros [? _]]|]. rewrite IH. split; [by split; [intros ->|]|by intros [_ ?]].
Qed.

Lemma pool_set_keys k ch (p : pool) : map fst (channels (pool_set k ch p)) = map fst (channels p) ++ (if bool_decide (k ∈ map fst (channels p)) then [] else [k]).
Proof.
  unfold pool_set. cbn [channels]. destruct (pool_find k p) as [c0|] eqn:E.
  - rewrite bool_decide_eq_true_2; [|apply dec_stable; intros Hn%pool_find_in; congruence]. rewrite app_nil_r, map_map. apply map_ext. intros [k0 c]. cbn. by case_bool_decide.
  - rewrite bool_decide_eq_false_2 by (by apply pool_find_in). by rewrite map_app.
Qed.

Lemma pool_set_once k ch (p : pool) : once p -> once (pool_set k ch p).
Proof.
  unfold once. rewrite pool_set_keys. case_bool_decide as E; [by rewrite app_nil_r|]. intros Hn. apply list.NoDup_app. split_and!; [done| |apply list.NoDup_singleton].
  by intros x Hx ->%list_elem_of_singleton.
Qed.

Lemma pool_set_has k ch (p : pool) : k ∈ map fst (channels (pool_set k ch p)).
Proof. rewrite pool_set_keys. apply elem_of_app. case_bool_decide; [by left|right; by apply list_elem_of_singleton]. Qed.

Lemma pool_feed_keys k j t (p : pool) : map fst (channels (pool_feed v k j t p).2) = map fst (channels p) ++ (if bool_decide (k ∈ map fst (channels p)) then [] else [k]).
Proof.
  unfold pool_feed, pool_get. destruct (pool_find k p) as [ch|] eqn:E.
  - destruct (feed v ch (p_counts p) t) as [[o ch'] c]. cbn [snd channels]. apply pool_set_keys.
  - set (p1 := pool_set k _ p). destruct (feed v _ (p_counts p1) t) as [[o ch'] c]. cbn [snd channels]. rewrite pool_set_keys.
    rewrite bool_decide_eq_true_2 by apply pool_set_has. rewrite app_nil_r. apply pool_set_keys.
Qed.

Lemma pool_feed_once k j t (p : pool) : once p -> once (pool_feed v k j t p).2.
Proof.
  unfold once. rewrite pool_feed_keys. intros Hn. case_bool_decide as E; [by rewrite app_nil_r|]. apply list.NoDup_app. split_and!; [done| |apply list.NoDup_singleton].
  by intros x Hx ->%list_elem_of_singleton.
Qed.

Lemma dropped_once (pred : K -> bool) (l : list (K * channel)) : NoDup (map fst l) -> NoDup (map fst (List.filter (fun kc => pred kc.1) l)).
Proof.
  induction l as [|[k c] l IH]; cbn [List.filter map fst]; [done|]. intros [Hk Hn]%list.NoDup_cons. destruct (pred k); cbn [map fst]; [|by apply IH].
  apply list.NoDup_cons. split; [|by apply IH]. intros Hin. apply Hk. apply list_elem_of_fmap in Hin as ([k' c'] & -> & Hin). apply list_elem_of_fmap. exists (k', c'). split; [done|].
  by apply elem_filter in Hin as [? _].
Qed.

Lemma pool_flush_once k (p : pool) : once p -> once (pool_flush v k p).2.
Proof.
  unfold pool_flush. destruct (pool_find k p) as [ch|]; [|done]. destruct (flush v ch (p_counts p)) as [[o x] c]. intros Hn. cbn [snd]. unfold once. cbn [channels].
  exact (dropped_once (fun k0 : K => negb (bool_decide (k0 = k))) (channels p) Hn).
Qed.

(** The texts a flush gives one key. *)
Definition texts_of (k : K) (left : list (K * pystr)) : list pystr := omap (fun kt : K * pystr => if bool_decide (kt.1 = k) then Some kt.2 else None) left.

Lemma flush_fold (l : list (K * channel)) : forall acc c, let r := fold_left (fun (acc : list (K * pystr) * counter) kc =>
    let '(out, _, counts') := flush v kc.2 acc.2 in (acc.1 ++ [(kc.1, out)], counts')) l (acc, c) in
  r.1 = acc ++ map (fun kc => (kc.1, flush_text v kc.2)) l.
Proof.
  induction l as [|[k ch] l IH]; intros acc c; cbn [fold_left map]; [by rewrite app_nil_r|]. cbn [snd fst].
  pose proof (flush_counts v ch c) as Hf. destruct (flush v ch c) as [[o x] c'] eqn:E. cbn [fst] in Hf. cbn zeta in IH. rewrite IH. subst o. by rewrite <- app_assoc.
Qed.

Lemma flush_matching_spec pred (p : pool) : let r := flush_matching v pred p in
  p_fuzzy r.2 = p_fuzzy p /\ (once p -> once r.2) /\
  (forall k, k ∈ map fst (channels r.2) -> k ∈ map fst (channels p)) /\
  (forall kt, kt ∈ r.1 -> kt.1 ∈ map fst (channels p) /\ pred kt.1 = true) /\
  forall k, once p ->
    concat (texts_of k r.1) = (if pred k then match pool_find k p with Some ch => flush_text v ch | None => [] end else []) /\
    pool_find k r.2 = if pred k then None else pool_find k p.
Proof.
  unfold flush_matching. pose proof (flush_fold (List.filter (fun kc => pred kc.1) (channels p)) [] (p_counts p)) as Hfold.
  destruct (fold_left _ _ _) as [left counts]. cbn [fst snd app] in *. subst left. split_and!.
  - done.
  - unfold once. cbn [channels]. apply (dropped_once (fun k => negb (pred k))).
  - intros k. cbn [channels]. intros ([k' c'] & -> & [Hin _]%elem_filter)%list_elem_of_fmap. apply list_elem_of_fmap. by exists (k', c').
  - intros [k t] [Hin _]%elem_filter. apply list_elem_of_fmap in Hin as ([k' c'] & [= -> ->] & [Hin Hp]%elem_filter). cbn [fst] in *. split; [|done].
    apply list_elem_of_fmap. by exists (k', c').
  - intros k Hn. split.
    + unfold once, pool_find, texts_of in *. clear counts. induction (channels p) as [|[k0 c0] l IH]; cbn [List.filter map omap list_omap List.find fst]; [by destruct (pred k)|].
      apply list.NoDup_cons in Hn as [Hk0 Hn]. specialize (IH Hn). destruct (decide (k0 = k)) as [-> |Hne].
      * rewrite (bool_decide_eq_true_2 (k = k)) by done. cbn [fmap option_fmap option_map snd].
        assert (Hrest : concat (omap (fun kt : K * pystr => if bool_decide (kt.1 = k) then Some kt.2 else None)
           (List.filter (fun kt => match kt.2 with [] => false | _ => true end) (map (fun kc => (kc.1, flush_text v kc.2)) (List.filter (fun kc => pred kc.1) l)))) = []).
        { rewrite IH. destruct (pred k); [|done]. destruct (List.find _ l) as [[k1 c1]|] eqn:Ef; [|done]. apply find_some in Ef as [Hin Heq%bool_decide_eq_true]. cbn in Heq. subst k1.
          exfalso. apply Hk0, list_elem_of_fmap. exists (k, c1). split; [done|by apply list_elem_of_In]. }
        destruct (pred k) eqn:Ep; cbn [map List.filter fst snd]; [|exact Hrest].
        destruct (flush_text v c0) as [|c t]; cbn [omap list_omap fst snd]; [by rewrite Hrest|]. rewrite bool_decide_eq_true_2 by done. cbn [concat]. by rewrite Hrest, app_nil_r.
      * rewrite (bool_decide_eq_false_2 (k0 = k)) by done. rewrite <- IH. destruct (pred k0); cbn [map List.filter fst snd]; [|done].
        destruct (flush_text v c0) as [|c t]; cbn [omap list_omap fst snd]; [done|]. by rewrite bool_decide_eq_false_2.
    + unfold pool_find. cbn [channels]. clear Hn counts. induction (channels p) as [|[k0 c0] l IH]; cbn [List.filter List.find fst]; [by destruct (pred k)|].
      destruct (decide (k0 = k)) as [-> |Hne].
      * rewrite (bool_decide_eq_true_2 (k = k)) by done. destruct (pred k); cbn [negb List.find fst]; [exact IH|]. by rewrite bool_decide_eq_true_2.
      * rewrite (bool_decide_eq_false_2 (k0 = k)) by done. destruct (pred k0); cbn [negb List.find fst]; [exact IH|]. by rewrite bool_decide_eq_false_2.
Qed.
End Pools.
