(* ===== verification/Responses.v ===== *)
(** * The OpenAI Responses adapter -- src/llm_redact/providers/openai_responses.py

    The event stream of /v1/responses: a channel per item, kind and index, whole values
    restored on the events that repeat them, and what an answer's events name (the response
    id, the files and containers of the code interpreter).  [json_text] and the reading of
    a JSON text are parameters. *)

From S2P Require Import Prelude PyRegex Json Placeholders JsonWalk JsonFacts Vault Rehydrate Sse Detection Adapters Anthropic.

Local Open Scope mon_scope.

(** ** Channel keys

    An identifier or index is known by its value, as a part of a dict's key; [key_json]
    writes it back (Python keeps the first spelling of equal numbers, 1 for 1.0). *)
Definition number_text (m e : Z) : pystr :=
  let sign := if m <? 0 then [45] else [] in
  if 0 <=? e then sign ++ str_of_nat (Z.abs m * 10 ^ e) else sign ++ str_of_nat (Z.abs m) ++ lit "e-" ++ str_of_nat (- e).

Definition key_json (h : hashed) : json :=
  match h with
  | HNum m e => JNum (number_text m e)
  | HText (34 :: s) => JStr s
  | HText (_ :: s) => JNum s
  | HText [] => JNull
  | HNone => JNull
  end.

Inductive rkind : Type := RText | RRefusal | RArgs.
#[export] Instance rkind_eq_dec : EqDecision rkind.
Proof. solve_decision. Defined.

(** [(item_id, "args", output_index)] or [(item_id, kind, output_index, content_index)] *)
Record rkey : Type := mk_rkey { k_item : hashed; k_kind : rkind; k_output : hashed; k_content : option hashed }.
#[export] Instance rkey_eq_dec : EqDecision rkey.
Proof. solve_decision. Defined.

(** [payload.get(field, 0)] *)
Definition get_index (payload : list (pystr * json)) (field : pystr) : json := default (JNum (lit "0")) (jget payload field).

(** [_channel_key]; None: a part that cannot be hashed. *)
Definition channel_key (kind : rkind) (payload : list (pystr * json)) : option rkey :=
  item ← hash_key (jget_null payload (lit "item_id"));
  output ← hash_key (get_index payload (lit "output_index"));
  match kind with
  | RArgs => Some (mk_rkey item RArgs output None)
  | _ => content ← hash_key (get_index payload (lit "content_index")); Some (mk_rkey item kind output (Some content))
  end.

(** ** The events *)

(** [_DELTA_EVENTS]: the channel's kind, the field always [delta]; [_DONE_EVENTS]: the kind
    and the field with the full value. *)
Definition DELTA_EVENTS (ty : pystr) : option rkind :=
  if bool_decide (ty = lit "response.output_text.delta") then Some RText
  else if bool_decide (ty = lit "response.refusal.delta") then Some RRefusal
  else if bool_decide (ty = lit "response.function_call_arguments.delta") then Some RArgs
  else if bool_decide (ty = lit "response.mcp_call_arguments.delta") then Some RArgs
  else None.

Definition DONE_EVENTS (ty : pystr) : option (rkind * pystr) :=
  if bool_decide (ty = lit "response.output_text.done") then Some (RText, lit "text")
  else if bool_decide (ty = lit "response.refusal.done") then Some (RRefusal, lit "refusal")
  else if bool_decide (ty = lit "response.function_call_arguments.done") then Some (RArgs, lit "arguments")
  else if bool_decide (ty = lit "response.mcp_call_arguments.done") then Some (RArgs, lit "arguments")
  else None.

Definition TERMINAL_EVENTS : list pystr := map lit ["response.completed"; "response.failed"; "response.incomplete"]%string.

Definition is_source (kind : rkind) : bool := match kind with RArgs => true | _ => false end.

(** [_synthetic_delta] *)
Definition delta_type (kind : rkind) : pystr :=
  lit (match kind with RText => "response.output_text.delta" | RRefusal => "response.refusal.delta" | RArgs => "response.function_call_arguments.delta" end).

Definition synthetic_delta (key : rkey) (leftover : pystr) : list (pystr * json) :=
  [(lit "type", JStr (delta_type (k_kind key))); (lit "item_id", key_json (k_item key)); (lit "output_index", key_json (k_output key))] ++
  (match k_content key with Some content => [(lit "content_index", key_json content)] | None => [] end) ++
  [(lit "delta", JStr leftover)].

(** What becomes of an event: itself, itself with a new payload, or a new event. *)
Inductive rout : Type := Same | Changed (p : list (pystr * json)) | Extra (p : list (pystr * json)).

Section Stream.
Context {V : Type} `{VaultOps V} (v : V) (encrypted_content_passthrough : bool).

Abbreviation pool := (Rehydrate.pool (K := rkey)).

(** [_flush_to_events] *)
Definition flush_to_events (leftovers : list (rkey * pystr)) : list rout := map (fun kt => Extra (synthetic_delta kt.1 kt.2)) leftovers.

Definition whole (json_src : bool) (t : pystr) : M pool event_error pystr := fun pl => let (out, pl) := rehydrate_whole v json_src t pl in (Ok out, pl).

(** [_rehydrate_embedded] *)
Definition arguments_override (k : pystr) : option (pystr -> M pool event_error pystr) := if bool_decide (k = lit "arguments") then Some (whole true) else None.

Definition rehydrate_embedded (obj : json) : M pool event_error json :=
  transform_strings (whole false) STRUCTURAL_KEYS arguments_override encrypted_content_passthrough obj.

(** An object under a field, restored; the payload unchanged where there is none. *)
Definition embedded_in (payload : list (pystr * json)) (field : pystr) : M pool event_error rout :=
  match jget payload field with
  | Some (JDict obj) => r <~ rehydrate_embedded (JDict obj);; mret (Changed (jset payload field r))
  | _ => mret Same
  end.

Definition delta_event (payload : list (pystr * json)) (kind : rkind) : M pool event_error (list rout) := fun pl =>
  match jget payload (lit "delta") with
  | Some (JStr text) =>
      match channel_key kind payload with
      | None => (Raise TypeError, pl)
      | Some key => let (out, pl) := pool_feed v key (is_source kind) text pl in (Ok [Changed (jset payload (lit "delta") (JStr out))], pl)
      end
  | _ => (Ok [Same], pl)
  end.

Definition done_event (payload : list (pystr * json)) (kind : rkind) (field : pystr) : M pool event_error (list rout) := fun pl =>
  match channel_key kind payload with
  | None => (Raise TypeError, pl)
  | Some key =>
      let (leftover, pl) := pool_flush v key pl in
      let synthetic := match leftover with [] => [] | _ => [Extra (synthetic_delta key leftover)] end in
      match jget payload field with
      | Some (JStr text) => let (out, pl) := rehydrate_whole v (is_source kind) text pl in (Ok (synthetic ++ [Changed (jset payload field (JStr out))]), pl)
      | _ => (Ok (synthetic ++ [Same]), pl)
      end
  end.

(** [k[0] == item_id] *)
Definition of_item (item : list (pystr * json)) (k : rkey) : bool := bool_decide (hash_key (jget_null item (lit "id")) = Some (k_item k)).

Definition item_done (payload : list (pystr * json)) : M pool event_error (list rout) := fun pl =>
  match jget payload (lit "item") with
  | Some (JDict item) =>
      let (leftovers, pl) := flush_matching v (of_item item) pl in
      (r <~ embedded_in payload (lit "item");; mret (flush_to_events leftovers ++ [r])) pl
  | _ => (Ok [Same], pl)
  end.

Definition terminal_event (payload : list (pystr * json)) : M pool event_error (list rout) := fun pl =>
  let (leftovers, pl) := flush_all v pl in
  (r <~ embedded_in payload (lit "response");; mret (flush_to_events leftovers ++ [r])) pl.

(** A parsed event; a type that cannot be hashed is no key of the tables. *)
Definition rehydrate_payload (payload : list (pystr * json)) : M pool event_error (list rout) :=
  match jget_null payload (lit "type") with
  | JStr ty =>
      match DELTA_EVENTS ty with
      | Some kind => delta_event payload kind
      | None =>
          match DONE_EVENTS ty with
          | Some (kind, field) => done_event payload kind field
          | None =>
              if bool_decide (ty = lit "response.content_part.done") then r <~ embedded_in payload (lit "part");; mret [r]
              else if bool_decide (ty = lit "response.output_item.done") then item_done payload
              else if bool_decide (ty ∈ TERMINAL_EVENTS) then terminal_event payload
              else mret [Same]
          end
      end
  | JList _ | JDict _ => mraise TypeError
  | _ => mret [Same]
  end.

(** ** Over server-sent events *)
Context (loads_text : pystr -> document) (dumps : json -> pystr).

Definition DONE_DATA : pystr := lit "[DONE]".

Definition event_out (e : SSEEvent) (o : rout) : SSEEvent :=
  match o with
  | Same => e
  | Changed p => with_data e (dumps (JDict p))
  | Extra p => mk_event (jstr p (lit "type")) (dumps (JDict p)) None []
  end.

(** [OpenAIResponsesAdapter.rehydrate_event] *)
Definition rehydrate_event (e : SSEEvent) : M pool event_error (list SSEEvent) := fun pl =>
  if bool_decide (strip (data e) = DONE_DATA) then
    let (leftovers, pl) := flush_all v pl in (Ok (map (event_out e) (flush_to_events leftovers) ++ [e]), pl)
  else if bool_decide (data e = []) then (Ok [e], pl)
  else match loads_bounded (loads_text (data e)) with
       | Raise _ => (Ok [e], pl)
       | Ok (JDict payload) => (outs <~ rehydrate_payload payload;; mret (map (event_out e) outs)) pl
       | Ok _ => (Raise AttributeError, pl)
       end.
End Stream.

(** ** What the events name *)
Section Names.
Context (loads_text : pystr -> document).

(** [response_id_from_event], [response_id_from_body] *)
Definition response_id_from_event (e : SSEEvent) : result event_error (option pystr) :=
  if negb (bool_decide (event e = Some (lit "response.created"))) || bool_decide (data e = []) then Ok None
  else match loads_bounded (loads_text (data e)) with
       | Raise _ => Ok None
       | Ok (JDict payload) => Ok (match jget payload (lit "response") with Some (JDict response) => jstr response (lit "id") | _ => None end)
       | Ok _ => Raise AttributeError
       end.

Definition response_id_from_body (body : json) : option pystr := match body with JDict items => jstr items (lit "id") | _ => None end.

Definition text_ids (items : list (pystr * json)) (keys : list pystr) : list pystr := omap (jtext items) keys.

Definition annotation_file (annotation : json) : list pystr :=
  match annotation with
  | JDict items => if bool_decide (jget items (lit "type") = Some (JStr (lit "container_file_citation"))) then text_ids items [lit "file_id"; lit "container_id"] else []
  | _ => []
  end.

Definition list_at (items : list (pystr * json)) (key : pystr) : list json := match jget items key with Some (JList l) => l | _ => [] end.

Definition part_files (part : json) : list pystr :=
  match part with JDict items => flat_map annotation_file (list_at items (lit "annotations")) | _ => [] end.

(** The dicts of a list. *)
Definition dicts (l : list json) : list (list (pystr * json)) := omap (fun x => match x with JDict items => Some items | _ => None end) l.

Definition item_files (item : json) : list pystr :=
  match item with
  | JDict items =>
      if bool_decide (jget items (lit "type") = Some (JStr (lit "code_interpreter_call"))) then
        text_ids items [lit "container_id"] ++
        flat_map (fun key => flat_map (fun output => flat_map (fun file => text_ids file [lit "file_id"]) (dicts (list_at output (lit "files")))) (dicts (list_at items key)))
          [lit "outputs"; lit "results"]
      else flat_map part_files (list_at items (lit "content"))
  | _ => []
  end.

Definition container_file_ids (response : json) : list pystr :=
  match response with JDict items => from_keys (flat_map item_files (list_at items (lit "output"))) | _ => [] end.

Definition event_container_files (payload : list (pystr * json)) : list pystr :=
  from_keys (annotation_file (jget_null payload (lit "annotation")) ++ part_files (jget_null payload (lit "part")) ++ item_files (jget_null payload (lit "item")) ++
             container_file_ids (jget_null payload (lit "response"))).

(** [object_ids_from_event]: an event without either key is never parsed. *)
Definition object_ids_from_event (e : SSEEvent) : list pystr :=
  if negb (contains_sub (quoted_key "file_id") (data e)) && negb (contains_sub (quoted_key "container_id") (data e)) then []
  else match loads_bounded (loads_text (data e)) with Ok (JDict payload) => event_container_files payload | _ => [] end.

Definition tracks_object_ids (method path : pystr) : bool := bool_decide (method = lit "POST") && ends_with (lit "/responses") (rstrip_slash path).
End Names.

(** ** The note and the routes *)
Definition inject_instructions (body : list (pystr * json)) : list (pystr * json) :=
  jset body (lit "instructions") (JStr (match jget body (lit "instructions") with Some (JStr (c :: s)) => (c :: s) ++ [10; 10] ++ SYSTEM_NOTE | _ => SYSTEM_NOTE end)).
