(* ===== verification/ResponsesFacts.v ===== *)
(** * What the Responses event stream restores

    The deltas of one channel (an item's text, refusal or arguments), between any other
    events and cut anywhere, say what the restored whole says; an event that ends the
    channel brings out what it still held back. *)

From S2P Require Import Prelude PyRegex Json Placeholders JsonWalk JsonFacts TokenSearch Vault Rehydrate Streaming JsonSource Sse.
From S2P Require Import Detection Overlaps Redactor Winners Redaction RoundTrip Adapters AdapterFacts Channels Anthropic AnthropicFacts StreamPools Responses.

(** The payloads an event becomes. *)
Definition out_payload (payload : list (pystr * json)) (o : rout) : list (pystr * json) :=
  match o with Same => payload | Changed p | Extra p => p end.

Section Stream.
Context {V : Type} `{VaultOps V} (v : V) (encrypted_content_passthrough : bool).

Abbreviation pool := (Rehydrate.pool (K := rkey)).
Abbreviation dict := (list (pystr * json)).

Definition response_step (payload : dict) (pl : pool) : result event_error (list dict) * pool :=
  match rehydrate_payload v encrypted_content_passthrough payload pl with
  | (Ok outs, pl) => (Ok (map (out_payload payload) outs), pl)
  | (Raise e, pl) => (Raise e, pl)
  end.

Definition jtype (payload : dict) : option pystr := jstr payload (lit "type").

(** The channel a delta event speaks on, and the channels an event ends. *)
Definition delta_key (payload : dict) : option rkey := ty ← jtype payload; kind ← DELTA_EVENTS ty; channel_key kind payload.

Definition delta_said (key : rkey) (payload : dict) : option pystr :=
  if bool_decide (delta_key payload = Some key) then jstr payload (lit "delta") else None.

Definition channel_ends (key : rkey) (payload : dict) : bool :=
  match jtype payload with
  | Some ty =>
      match DONE_EVENTS ty with
      | Some (kind, _) => bool_decide (channel_key kind payload = Some key)
      | None =>
          if bool_decide (ty = lit "response.output_item.done") then match jget payload (lit "item") with Some (JDict item) => of_item item key | _ => false end
          else bool_decide (ty ∈ TERMINAL_EVENTS)
      end
  | None => false
  end.

(** A key that a synthetic event spells so that it reads back: every identifier of the
    API, and every index. *)
Definition printable (key : rkey) : bool := bool_decide (channel_key (k_kind key) (synthetic_delta key []) = Some key).

Definition readable (payload : dict) : bool := match delta_key payload with Some key => printable key | None => true end.

(** The pools the adapter makes. *)
Definition rpool_ok (pl : pool) : Prop := once pl /\ forall k, k ∈ map fst (channels pl) -> printable k = true.

Lemma rpool_ok_same p q : same_channels p q -> rpool_ok p -> rpool_ok q.
Proof. intros [Hc _] Ho. unfold rpool_ok, once in *. by rewrite Hc. Qed.

Lemma same_find p q (k : rkey) : same_channels p q -> pool_find k q = pool_find k p.
Proof. intros [Hc _]. unfold pool_find. by rewrite Hc. Qed.

(** *** What the adapter's own events say *)
Lemma channel_key_ext kind (p q : dict) : (forall f, f ∈ [lit "item_id"; lit "output_index"; lit "content_index"] -> jget q f = jget p f) -> channel_key kind q = channel_key kind p.
Proof.
  intros He. unfold channel_key, get_index, jget_null. rewrite (He (lit "item_id")), (He (lit "output_index")), (He (lit "content_index")); [done|..];
    rewrite !elem_of_cons; tauto.
Qed.

Lemma delta_key_ext (p q : dict) : (forall f, f ∈ [lit "type"; lit "item_id"; lit "output_index"; lit "content_index"] -> jget q f = jget p f) -> delta_key q = delta_key p.
Proof.
  intros He. unfold delta_key, jtype, jstr. rewrite (He (lit "type")) by (apply elem_of_cons; by left). destruct (_ : option pystr) as [ty|]; [|done]. cbn.
  destruct (DELTA_EVENTS ty) as [kind|]; [|done]. cbn. apply channel_key_ext. intros f Hf. apply He. apply elem_of_cons. by right.
Qed.

Lemma synthetic_field key text f : f <> lit "delta" -> jget (synthetic_delta key text) f = jget (synthetic_delta key []) f.
Proof.
  intros Hf. unfold synthetic_delta. rewrite !app_assoc. generalize ([(lit "type", JStr (delta_type (k_kind key))); (lit "item_id", key_json (k_item key)); (lit "output_index", key_json (k_output key))] ++
    match k_content key with Some content => [(lit "content_index", key_json content)] | None => [] end). intros l.
  induction l as [|[k x] l IH]; cbn [app jget]; [by rewrite !decide_False by congruence|by case_decide].
Qed.

Lemma delta_type_kind k : DELTA_EVENTS (delta_type k) = Some k.
Proof. by destruct k. Qed.

Lemma synthetic_said key' key text : printable key' = true -> delta_said key (synthetic_delta key' text) = if bool_decide (key' = key) then Some text else None.
Proof.
  intros Hp%bool_decide_eq_true. unfold delta_said.
  assert (delta_key (synthetic_delta key' text) = Some key') as ->.
  { rewrite (delta_key_ext (synthetic_delta key' [])); [|intros f Hf; apply synthetic_field; set_solver]. unfold delta_key.
    change (jtype _) with (Some (delta_type (k_kind key'))). cbn. by rewrite delta_type_kind. }
  rewrite (bool_decide_ext (Some key' = Some key) (key' = key)) by (split; [by intros [= ->]|by intros ->]). case_bool_decide; [|done].
  unfold jstr, synthetic_delta. by destruct (k_content key').
Qed.

Lemma silent_type key (payload : dict) : (forall ty, jtype payload = Some ty -> DELTA_EVENTS ty = None) -> delta_said key payload = None.
Proof. intros Hq. unfold delta_said, delta_key. destruct (jtype payload) as [ty|]; [|done]. cbn. by rewrite (Hq ty). Qed.

Lemma jtype_set (payload : dict) f x : f <> lit "type" -> jtype (jset payload f x) = jtype payload.
Proof. intros Hf. unfold jtype, jstr, jset. by rewrite jget_ne. Qed.

Lemma flushed_said key payload (left : list (rkey * pystr)) : (forall kt, kt ∈ left -> printable kt.1 = true) ->
  concat (says (delta_said key) (map (out_payload payload) (flush_to_events left))) = concat (texts_of key left).
Proof.
  induction left as [|[k t] left IH]; intros Hp; [done|]. cbn [flush_to_events map out_payload says texts_of omap list_omap fst snd].
  rewrite synthetic_said by (apply (Hp (k, t)), elem_of_cons; by left).
  assert (IH' := IH (fun kt Hin => Hp kt ltac:(apply elem_of_cons; by right))). case_bool_decide; cbn [concat]; [by f_equal|exact IH'].
Qed.

(** *** The parts of a step *)
Lemma embedded_spec payload field pl : field <> lit "type" -> exists o pl', embedded_in v encrypted_content_passthrough payload field pl = (Ok o, pl') /\
  same_channels pl pl' /\ jtype (out_payload payload o) = jtype payload.
Proof.
  intros Hf. unfold embedded_in. destruct (jget payload field) as [x|]; [|by exists Same, pl]. destruct x; try by exists Same, pl.
  unfold rehydrate_embedded, transform_strings, mbnd.
  destruct (walk_keeps (same_channels (K := rkey)) (whole v false) (if encrypted_content_passthrough then STRUCTURAL_KEYS ∪ {[lit "encrypted_content"]} else STRUCTURAL_KEYS)
    (arguments_override v)) with (v := JDict items) (parent := @None pystr) (s := pl) as (r & pl' & -> & Hs).
  - intros t s. unfold whole. pose proof (whole_keeps v false t s). destruct (rehydrate_whole v false t s). by eexists _, _.
  - unfold arguments_override. intros k f. case_bool_decide; [|done]. intros [= <-] t s. unfold whole. pose proof (whole_keeps v true t s). destruct (rehydrate_whole v true t s). by eexists _, _.
  - eexists _, _. split; [done|]. split; [done|]. cbn [out_payload]. by apply jtype_set.
Qed.

Lemma jtype_null payload ty : jget_null payload (lit "type") = JStr ty -> jtype payload = Some ty.
Proof. unfold jget_null, jtype, jstr. destruct (jget _ _) as [[]|]; try done. by intros [= ->]. Qed.

Lemma jtype_other payload : (forall ty, jget_null payload (lit "type") <> JStr ty) -> jtype payload = None.
Proof. unfold jget_null, jtype, jstr. destruct (jget _ _) as [[]|]; try done. intros Hn. by destruct (Hn s). Qed.

(** The text the channel still holds back. *)
Definition held (key : rkey) (pl : pool) : pystr := match pool_find key pl with Some ch => flush_text v ch | None => [] end.

(** A step that leaves channels alone says nothing on them. *)
Definition step_owes (key : rkey) (ends : bool) (said : option pystr) (outs : list dict) (pl pl' : pool) : Prop :=
  rpool_ok pl' /\ p_fuzzy pl' = p_fuzzy pl /\
  if ends then concat (says (delta_said key) outs) = held key pl /\ pool_find key pl' = None
  else match said with
       | Some t => concat (says (delta_said key) outs) = (feed_text v (channel_at key (is_source (k_kind key)) pl) t).1 /\
                   pool_find key pl' = Some (feed_text v (channel_at key (is_source (k_kind key)) pl) t).2
       | None => concat (says (delta_said key) outs) = [] /\ pool_find key pl' = pool_find key pl
       end.

Lemma says_one key p : says (delta_said key) [p] = match delta_said key p with Some t => [t] | None => [] end.
Proof. cbn. by destruct (delta_said key p). Qed.

Lemma owes_silent key p pl pl' : rpool_ok pl -> same_channels pl pl' -> delta_said key p = None -> step_owes key false None [p] pl pl'.
Proof.
  intros Hg Hs Hq. split; [by eapply rpool_ok_same|]. split; [apply Hs|]. rewrite says_one, Hq. split; [done|]. by apply same_find.
Qed.

(** Flushing what [pred] picks out, then one silent event. *)
Lemma owes_flush key pred p payload pl pl' : rpool_ok pl -> let r := flush_matching v pred pl in same_channels r.2 pl' -> delta_said key p = None ->
  step_owes key (pred key) None (map (out_payload payload) (flush_to_events r.1) ++ [p]) pl pl'.
Proof.
  intros [Ho Hp]. cbn zeta. destruct (flush_matching_spec v pred pl) as (Hf & Ho' & Hk & Hl & Hkey). intros Hs Hq.
  split; [eapply rpool_ok_same; [exact Hs|]; split; [by apply Ho'|]; intros k Hin; by apply Hp, Hk|]. split; [rewrite <- Hf; apply Hs|].
  destruct (Hkey key Ho) as [Ht Hfind]. rewrite says_app, concat_app, says_one, Hq, app_nil_r, flushed_said by (intros kt Hin; apply Hp; by apply Hl).
  rewrite Ht, (same_find _ _ _ Hs), Hfind. by destruct (pred key).
Qed.

Lemma said_delta key payload ty kind : jtype payload = Some ty -> DELTA_EVENTS ty = Some kind ->
  delta_key payload = channel_key kind payload /\ channel_ends key payload = false.
Proof.
  intros Ht Hd. unfold delta_key, channel_ends. rewrite Ht. cbn. rewrite Hd. split; [done|]. revert Hd. unfold DELTA_EVENTS.
  repeat (case_bool_decide; [subst ty; intros _; reflexivity|]). done.
Qed.

Lemma done_no_delta ty x : DONE_EVENTS ty = Some x -> DELTA_EVENTS ty = None.
Proof. unfold DONE_EVENTS. repeat (case_bool_decide; [subst ty; intros _; reflexivity|]). done. Qed.

Lemma done_field ty kind field : DONE_EVENTS ty = Some (kind, field) -> field <> lit "type".
Proof. unfold DONE_EVENTS. repeat (case_bool_decide; [by intros [= <- <-]|]). done. Qed.

(** A delta on its channel. *)
Lemma owes_delta key payload kind outs pl pl' : rpool_ok pl -> readable payload = true -> delta_key payload = channel_key kind payload ->
  (forall k, channel_key kind payload = Some k -> k_kind k = kind) ->
  delta_event v payload kind pl = (Ok outs, pl') -> step_owes key false (delta_said key payload) (map (out_payload payload) outs) pl pl'.
Proof.
  intros Hg Hr Hk Hkind. unfold delta_event. assert (Hq : jstr payload (lit "delta") = None -> delta_said key payload = None).
  { unfold delta_said. intros ->. by case_bool_decide. }
  destruct (jget payload (lit "delta")) as [x|] eqn:Ed.
  2:{ intros [= <- <-]. rewrite Hq by (unfold jstr; by rewrite Ed). cbn [map out_payload]. apply owes_silent; [done|done|]. apply Hq. unfold jstr. by rewrite Ed. }
  destruct x as [| | |text| |]; try (intros [= <- <-]; rewrite Hq by (unfold jstr; by rewrite Ed); cbn [map out_payload]; apply owes_silent; [done|done|]; apply Hq; unfold jstr; by rewrite Ed).
  destruct (channel_key kind payload) as [k|] eqn:Ek; [|done]. destruct (pool_feed_spec v k (is_source kind) text pl) as (Ho & Hf & Hp).
  pose proof (pool_feed_once v k (is_source kind) text pl) as Hone. pose proof (pool_feed_keys v k (is_source kind) text pl) as Hkeys.
  destruct (pool_feed v k (is_source kind) text pl) as [out pl1] eqn:Efeed. intros [= <- <-]. cbn [fst snd map out_payload] in *.
  unfold step_owes. rewrite says_one. unfold delta_said.
  rewrite (delta_key_ext payload (jset payload (lit "delta") (JStr out))) by (intros f Hin; unfold jset; apply jget_ne; clear -Hin; set_solver). unfold jstr, jset. rewrite jget_eq, Ed, Hk.
  split. { split; [by apply Hone, Hg|]. intros k'. rewrite Hkeys. case_bool_decide; [rewrite app_nil_r; apply Hg|]. intros [Hin|Hin]%elem_of_app; [by apply Hg|].
    apply list_elem_of_singleton in Hin as ->. unfold readable in Hr. by rewrite Hk in Hr. }
  split; [done|]. rewrite Hp. rewrite (bool_decide_ext (Some k = Some key) (k = key)) by (split; [by intros [= ->]|by intros ->]).
  destruct (decide (k = key)) as [-> |Hne]; [rewrite bool_decide_eq_true_2 by done|by rewrite bool_decide_eq_false_2].
  rewrite (Hkind key) by done. cbn. by rewrite app_nil_r, Ho.
Qed.

Lemma channel_key_kind kind payload k : channel_key kind payload = Some k -> k_kind k = kind.
Proof.
  unfold channel_key. intros (i & _ & (o & _ & Hk)%bind_Some)%bind_Some. destruct kind; [..|by injection Hk as <-]; apply bind_Some in Hk as (c & _ & [= <-]); done.
Qed.

(** An event that repeats a channel's whole text. *)
Lemma owes_done key payload kind field outs pl pl' : rpool_ok pl -> jtype payload ≫= DONE_EVENTS = Some (kind, field) ->
  done_event v payload kind field pl = (Ok outs, pl') ->
  step_owes key (bool_decide (channel_key kind payload = Some key)) None (map (out_payload payload) outs) pl pl'.
Proof.
  intros [Ho Hp] Ht. unfold done_event. destruct (channel_key kind payload) as [k|] eqn:Ek; [|done].
  destruct (pool_flush_spec v k pl) as (Hl & Hf & Hfind). pose proof (pool_flush_once v k pl Ho) as Ho1.
  assert (Hsub : forall k', k' ∈ map fst (channels (pool_flush v k pl).2) -> printable k' = true).
  { intros k' Hin. apply Hp. destruct (decide (k' ∈ map fst (channels pl))) as [|Hn]; [done|]. apply pool_find_in in Hn.
    assert (Hn' : pool_find k' (pool_flush v k pl).2 = None) by (rewrite Hfind; by case_decide). by apply pool_find_in in Hn'. }
  destruct (pool_flush v k pl) as [leftover pl1] eqn:Eflush. cbn [fst snd] in *.
  assert (Hsyn : concat (says (delta_said key) (map (out_payload payload) (match leftover with [] => [] | _ => [Extra (synthetic_delta k leftover)] end))) = if bool_decide (k = key) then held key pl else []).
  { unfold held. destruct (pool_find k pl) as [ch|] eqn:Ec; [|subst leftover; cbn; case_bool_decide; [by subst; rewrite Ec|done]].
    assert (Hpk : printable k = true). { apply Hp, dec_stable. intros Hn%pool_find_in. by rewrite Ec in Hn. }
    assert (Hh : bool_decide (k = key) = true -> match pool_find key pl with Some ch => flush_text v ch | None => [] end = leftover) by (intros ->%bool_decide_eq_true; by rewrite Ec, Hl).
    destruct leftover as [|c l]; cbn [map says omap list_omap concat out_payload].
    - destruct (bool_decide (k = key)); [by rewrite Hh|done].
    - rewrite synthetic_said by done. destruct (bool_decide (k = key)); [rewrite Hh by done; cbn; by rewrite app_nil_r|done]. }
  assert (Hnext : forall last pl2, jtype last = jtype payload -> same_channels pl1 pl2 ->
    step_owes key (bool_decide (Some k = Some key)) None (map (out_payload payload) (match leftover with [] => [] | _ => [Extra (synthetic_delta k leftover)] end) ++ [last]) pl pl2).
  { intros last pl2 Hty Hs. unfold step_owes. rewrite says_app, concat_app, Hsyn, says_one, silent_type.
    2:{ intros ty. rewrite Hty. intros E. rewrite E in Ht. by apply done_no_delta in Ht. }
    cbn [concat]. rewrite app_nil_r. split; [eapply rpool_ok_same; [exact Hs|]; by split|]. split; [destruct Hs as [_ ->]; done|]. rewrite (same_find _ _ _ Hs), Hfind.
    rewrite (bool_decide_ext (Some k = Some key) (k = key)) by (split; [by intros [= ->]|by intros ->]). case_bool_decide; [subst; by rewrite decide_True|by rewrite decide_False]. }
  assert (Hsame : (Ok ((match leftover with [] => [] | _ => [Extra (synthetic_delta k leftover)] end) ++ [Same]), pl1) = (Ok (E := event_error) outs, pl') ->
    step_owes key (bool_decide (Some k = Some key)) None (map (out_payload payload) outs) pl pl').
  { intros [= <- <-]. rewrite map_app. by apply Hnext. }
  destruct (jget payload field) as [x|] eqn:Ex; [|exact Hsame]. destruct x as [| | |text| |]; try exact Hsame.
  pose proof (whole_keeps v (is_source kind) text pl1) as Hs. destruct (rehydrate_whole v _ text pl1) as [out pl2]. intros [= <- <-]. rewrite map_app. apply Hnext; [|done].
  apply jtype_set. destruct (jtype payload) as [ty|]; [|done]. by eapply done_field.
Qed.

(** What [rehydrate_event] owes every channel of the stream. *)
Lemma response_channel key : channel_step_on v response_step key (is_source (k_kind key)) (delta_said key) (channel_ends key) rpool_ok (fun p => readable p = true).
Proof.
  intros payload pl outs pl' Hg Hr. unfold response_step. destruct (rehydrate_payload _ _ payload pl) as [[os|e] pl1] eqn:E; [|done]. intros [= <- <-].
  change (step_owes key (channel_ends key payload) (delta_said key payload) (map (out_payload payload) os) pl pl1). revert E. unfold rehydrate_payload.
  assert (Hquiet : jtype payload = None -> (Ok (E := event_error) [Same], pl) = (Ok os, pl1) -> step_owes key (channel_ends key payload) (delta_said key payload) (map (out_payload payload) os) pl pl1).
  { intros Ht [= <- <-]. assert (Hn : delta_said key payload = None) by (apply silent_type; by rewrite Ht). unfold channel_ends. rewrite Ht, Hn. by apply owes_silent. }
  destruct (jget_null payload (lit "type")) as [|b|n|ty|l|l] eqn:Ety; try done; try (apply Hquiet, jtype_other; by rewrite Ety).
  apply jtype_null in Ety. destruct (DELTA_EVENTS ty) as [kind|] eqn:Ed.
  { destruct (said_delta key payload ty kind Ety Ed) as [Hk ->]. intros E. by eapply owes_delta; [..|apply channel_key_kind|]. }
  assert (Hn : delta_said key payload = None) by (apply silent_type; intros ty'; rewrite Ety; by intros [= <-]). rewrite Hn. unfold channel_ends. rewrite Ety.
  destruct (DONE_EVENTS ty) as [[kind field]|] eqn:Edone; [intros E; eapply owes_done; [done| |done]; by rewrite Ety|].
  assert (Hsilent : forall o, jtype (out_payload payload o) = jtype payload -> delta_said key (out_payload payload o) = None).
  { intros o Ho. apply silent_type. intros ty'. rewrite Ho, Ety. by intros [= <-]. }
  destruct (bool_decide (ty = lit "response.content_part.done")) eqn:Ecp.
  { apply bool_decide_eq_true in Ecp as ->. destruct (embedded_spec payload (lit "part") pl ltac:(done)) as (o & pl2 & E2 & Hs & Ho). unfold mbnd. rewrite E2. intros [= <- <-]. by apply owes_silent; [..|apply Hsilent]. }
  destruct (bool_decide (ty = lit "response.output_item.done")) eqn:Eid.
  { unfold item_done. destruct (jget payload (lit "item")) as [x|] eqn:Ei; [|intros [= <- <-]; by apply owes_silent]. destruct x as [| | | | |item]; try (intros [= <- <-]; by apply owes_silent).
    pose proof (owes_flush key (of_item item)) as Hfl. destruct (flush_matching v (of_item item) pl) as [left pl2] eqn:Efl. specialize (fun p => Hfl p payload pl). rewrite Efl in Hfl.
    destruct (embedded_spec payload (lit "item") pl2 ltac:(done)) as (o & pl3 & E2 & Hs & Ho). unfold mbnd. rewrite E2. intros [= <- <-]. rewrite map_app. by apply Hfl; [..|apply Hsilent]. }
  destruct (bool_decide (ty ∈ TERMINAL_EVENTS)); [|intros [= <- <-]; by apply owes_silent].
  unfold terminal_event. change (Rehydrate.flush_all v pl) with (flush_matching v (fun _ : rkey => true) pl).
  pose proof (owes_flush key (fun _ => true)) as Hfl. destruct (flush_matching v _ pl) as [left pl2] eqn:Efl. specialize (fun p => Hfl p payload pl). rewrite Efl in Hfl.
  destruct (embedded_spec payload (lit "response") pl2 ltac:(done)) as (o & pl3 & E2 & Hs & Ho). unfold mbnd. rewrite E2. intros [= <- <-]. rewrite map_app. by apply Hfl; [..|apply Hsilent].
Qed.
End Stream.

(** ** Well-formed events never raise *)
Definition response_event_ok (payload : list (pystr * json)) : bool :=
  let keyed kind := bool_decide (is_Some (channel_key kind payload)) in
  match jget_null payload (lit "type") with
  | JStr ty =>
      match DELTA_EVENTS ty with
      | Some kind => keyed kind
      | None => match DONE_EVENTS ty with Some (kind, _) => keyed kind | None => true end
      end
  | JList _ | JDict _ => false
  | _ => true
  end.

Lemma response_returns {V} `{VaultOps V} (v : V) passthrough payload pl : response_event_ok payload = true ->
  exists outs pl', response_step v passthrough payload pl = (Ok outs, pl').
Proof.
  intros Hok. unfold response_step. assert (exists outs pl', rehydrate_payload v passthrough payload pl = (Ok outs, pl')) as (outs & pl' & ->); [|by eauto].
  unfold response_event_ok, rehydrate_payload in *. destruct (jget_null payload (lit "type")) as [| | |ty| |]; try done; try (by eexists _, _).
  assert (Hemb : forall field (k : rout -> list rout) pl, field <> lit "type" -> exists outs pl', (r <~ embedded_in v passthrough payload field;; mret (k r))%mon pl = (Ok outs, pl')).
  { intros field k pl1 Hf. destruct (embedded_spec v passthrough payload field pl1 Hf) as (o & pl2 & E & _). unfold mbnd. rewrite E. by eexists _, _. }
  destruct (DELTA_EVENTS ty) as [kind|].
  { unfold delta_event. apply bool_decide_eq_true in Hok as [key ->]. destruct (jget payload (lit "delta")) as [[]|]; try by eexists _, _. destruct (pool_feed _ _ _ _ _). by eexists _, _. }
  destruct (DONE_EVENTS ty) as [[kind field]|].
  { unfold done_event. apply bool_decide_eq_true in Hok as [key ->]. destruct (pool_flush _ _ _). destruct (jget payload field) as [[]|]; try by eexists _, _. destruct (rehydrate_whole _ _ _ _). by eexists _, _. }
  repeat case_bool_decide; try by eexists _, _.
  - by apply (Hemb (lit "part") (fun r => [r])).
  - unfold item_done. destruct (jget payload (lit "item")) as [[]|]; try by eexists _, _. destruct (flush_matching _ _ _). by apply Hemb.
  - unfold terminal_event. destruct (Rehydrate.flush_all _ _). by apply Hemb.
Qed.

Lemma responses_return {V} `{VaultOps V} (v : V) passthrough ps : Forall (fun p => response_event_ok p = true) ps ->
  forall pl, exists outs pl', run_stream (response_step v passthrough) ps pl = (Ok outs, pl').
Proof.
  induction 1 as [|p ps Hp _ IH]; intros pl; cbn [run_stream]; [by eauto|]. destruct (response_returns v passthrough p pl Hp) as (o & pl1 & ->).
  destruct (IH pl1) as (more & pl2 & ->). by eauto.
Qed.

Section Properties.
Context {V : Type} `{VaultLaws V} (v : V) (passthrough : bool).

(** C8: The deltas a Responses stream carries for one item, kind and index, between any
    other events (deltas of other channels, whole values, done events) and cut anywhere,
    say to the client what one restoration of their whole text says: JSON source for a
    call's arguments, plain text otherwise.  The event that repeats the whole, the end of
    the item and the end of the response each bring out what the channel still held, and
    leave it closed; a stream of well-formed events is rewritten without an exception.
    Assumed: the vault's invariant; that the whole text is one the sweep is exact on
    ([stream_safe]: no restored token inside an open guillemet held back, no restored value
    that opens one, fuzzy tokens within the length held back); and that every delta's ids
    and indexes read back as a synthetic event spells them ([readable]). *)
Theorem response_channel_restores key ps last fuzzy : vinv v ->
  Forall (fun p => response_event_ok p = true) (ps ++ [last]) -> Forall (fun p => readable p = true) (ps ++ [last]) ->
  Forall (fun p => channel_ends key p = false) ps -> channel_ends key last = true ->
  let text := concat (says (delta_said key) ps) in
  let source := is_source (k_kind key) in
  stream_safe fuzzy v source (if source then norm text else text) = true ->
  exists outs pl', run_stream (response_step v passthrough) (ps ++ [last]) (mk_pool fuzzy [] ∅) = (Ok outs, pl') /\
    concat (says (delta_said key) outs) = ((if source then rehydrate_json_source_text else rehydrate_text) fuzzy v ∅ text).1 /\
    pool_find key pl' = None.
Proof.
  intros Hv Hok Hread Hends Hlast text source Hsafe. destruct (responses_return v passthrough _ Hok (mk_pool fuzzy [] ∅)) as (outs & pl' & Hrun). exists outs, pl'. split; [done|].
  assert (Hnew : rpool_ok (mk_pool fuzzy [] ∅)) by (split; [by constructor|by intros k ?%not_elem_of_nil]).
  destruct (channel_life_on v _ _ _ _ _ _ _ (response_channel v passthrough key) ps last _ outs pl' Hnew Hread Hends Hlast eq_refl Hrun) as [-> Hend]. split; [|done].
  fold source. apply stream_safe_ok in Hsafe; [|done]. destruct source; [by rewrite stream_source|by rewrite stream_pieces].
Qed.
End Properties.

(** *** A message's token cut in two by another item's arguments; the item's end brings out
    nothing more, the response's end closes the call that broke off *)
Definition demo_event (ty item : string) (more : list (pystr * json)) : list (pystr * json) :=
  [(lit "type", JStr (lit ty)); (lit "item_id", JStr (lit item)); (lit "output_index", JNum (lit "0"))] ++ more.

Definition demo_key : rkey := mk_rkey (HText (34 :: lit "msg_1")) RText (HNum 0 0) (Some (HNum 0 0)).
Definition demo_call : rkey := mk_rkey (HText (34 :: lit "fc_1")) RArgs (HNum 0 0) None.

Definition demo_response : list (list (pystr * json)) :=
  [demo_event "response.output_text.delta" "msg_1" [(lit "content_index", JNum (lit "0")); (lit "delta", JStr (lit "mail " ++ take 4 demo_token))];
   demo_event "response.function_call_arguments.delta" "fc_1" [(lit "delta", JStr (lit "{" ++ [34] ++ take 3 demo_token))];
   demo_event "response.output_text.delta" "msg_1" [(lit "delta", JStr (drop 4 demo_token))];
   [(lit "type", JStr (lit "response.content_part.done")); (lit "part", JDict [(lit "text", JStr (lit "mail " ++ demo_token))])]].

Definition demo_completed : list (pystr * json) := [(lit "type", JStr (lit "response.completed")); (lit "response", JDict [])].

(** The call's two characters of a token come out at the end, in an event of their own. *)
Example demo_broken_off : jstr (synthetic_delta demo_call (take 3 demo_token)) (lit "item_id") = Some (lit "fc_1") /\
  (fun r => says (delta_said demo_call) <$> (match r.1 with Ok outs => Some outs | Raise _ => None end))
    (run_stream (response_step demo_vault false) (demo_response ++ [demo_completed]) (mk_pool false [] ∅)) = Some [lit "{" ++ [34]; take 3 demo_token].
Proof. split; vm_compute; reflexivity. Qed.

Lemma response_channel_restores_witness :
  exists outs pl', run_stream (response_step demo_vault false) (demo_response ++ [demo_completed]) (mk_pool false [] ∅) = (Ok outs, pl') /\
    concat (says (delta_said demo_key) outs) = lit "mail jo@x.org".
Proof.
  destruct (response_channel_restores demo_vault false demo_key demo_response demo_completed false) as (outs & pl' & Hrun & Ht & _);
    [apply InMemoryVault.vault_of_inv; vm_compute; reflexivity|repeat (constructor; [vm_compute; reflexivity|]); constructor|repeat (constructor; [vm_compute; reflexivity|]); constructor
    |repeat (constructor; [vm_compute; reflexivity|]); constructor|vm_compute; reflexivity|vm_compute; reflexivity|].
  exists outs, pl'. split; [exact Hrun|]. rewrite Ht. vm_compute. reflexivity.
Defined.
