(* ===== verification/OpenAI.v ===== *)
(** * The OpenAI chat adapter -- src/llm_redact/providers/openai.py

    The chunk stream of /v1/chat/completions and /v1/completions: a channel per choice for
    its content, its reasoning fields, the arguments of each tool call and the legacy text;
    and what an answer that is one JSON document restores and names. *)

From S2P Require Import Prelude PyRegex Json Placeholders JsonWalk JsonFacts Vault Rehydrate Sse Detection Adapters Anthropic Responses.

Local Open Scope mon_scope.

(** ** Channel keys: [(index, field)] and [(index, "tool", call index)] *)
Inductive chat_field : Type := FContent | FReasoningContent | FReasoning | FLegacy.
#[export] Instance chat_field_eq_dec : EqDecision chat_field.
Proof. solve_decision. Defined.

Inductive chat_key : Type := Field (index : hashed) (f : chat_field) | ToolCall (index call : hashed).
#[export] Instance chat_key_eq_dec : EqDecision chat_key.
Proof. solve_decision. Defined.

Definition choice_of (k : chat_key) : hashed := match k with Field index _ | ToolCall index _ => index end.
Definition chat_source (k : chat_key) : bool := match k with ToolCall _ _ => true | Field _ _ => false end.

Definition field_name (f : chat_field) : pystr :=
  lit (match f with FContent => "content" | FReasoningContent => "reasoning_content" | FReasoning => "reasoning" | FLegacy => "text" end).

(** The fields of a delta: the content, then [_REASONING_FIELDS]. *)
Definition DELTA_FIELDS : list chat_field := [FContent; FReasoningContent; FReasoning].

(** What a [for] over a JSON value visits; [d.get(key) or []]. *)
Definition iterated (x : json) : result event_error (list json) :=
  match x with
  | JList l => Ok l
  | JDict items => Ok (map (fun kv => JStr kv.1) items)
  | JStr s => Ok (map (fun c => JStr [c]) s)
  | _ => Raise TypeError
  end.

Definition or_empty (x : option json) : json := match x with Some x => if truthy x then x else JList [] | None => JList [] end.

Definition lift {A} {St} (r : result event_error A) : M St event_error A := fun s => (r, s).

(** ** Flushed text: [_leftover_to_delta], [_synthetic_chunk], [_flush_to_events] *)
Definition chunk_of (object : string) (index : hashed) (said : pystr * json) : list (pystr * json) :=
  [(lit "object", JStr (lit object)); (lit "choices", JList [JDict [(lit "index", key_json index); said; (lit "finish_reason", JNull)]])].

Definition leftover_chunk (key : chat_key) (text : pystr) : list (pystr * json) :=
  match key with
  | Field index FLegacy => chunk_of "text_completion" index (lit "text", JStr text)
  | Field index f => chunk_of "chat.completion.chunk" index (lit "delta", JDict [(field_name f, JStr text)])
  | ToolCall index call => chunk_of "chat.completion.chunk" index
      (lit "delta", JDict [(lit "tool_calls", JList [JDict [(lit "index", key_json call); (lit "function", JDict [(lit "arguments", JStr text)])]])])
  end.

Definition leftover_chunks (leftovers : list (chat_key * pystr)) : list (list (pystr * json)) := map (fun kt => leftover_chunk kt.1 kt.2) leftovers.

Section Stream.
Context {V : Type} `{VaultOps V} (v : V).

Abbreviation pool := (Rehydrate.pool (K := chat_key)).

(** A text under [name], fed to the channel; whether there was one. *)
Definition feed_under (key : option chat_key) (json_src : bool) (items : list (pystr * json)) (name : pystr) : M pool event_error (list (pystr * json) * bool) := fun pl =>
  match jget items name with
  | Some (JStr t) =>
      match key with
      | None => (Raise TypeError, pl)
      | Some key => let (out, pl) := pool_feed v key json_src t pl in (Ok (jset items name (JStr out), true), pl)
      end
  | _ => (Ok (items, false), pl)
  end.

Definition field_key (index : json) (f : chat_field) : option chat_key := i ← hash_key index; Some (Field i f).
Definition call_key (index call : json) : option chat_key := i ← hash_key index; c ← hash_key call; Some (ToolCall i c).

(** Each of the fields in turn. *)
Fixpoint feed_fields (index : json) (fs : list chat_field) (items : list (pystr * json)) : M pool event_error (list (pystr * json) * bool) :=
  match fs with
  | [] => mret (items, false)
  | f :: fs =>
      r <~ feed_under (field_key index f) false items (field_name f);;
      rest <~ feed_fields index fs r.1;;
      mret (rest.1, r.2 || rest.2)
  end.

Definition feed_call (index : json) (tool_call : json) : M pool event_error (json * bool) :=
  match tool_call with
  | JDict call =>
      match jget call (lit "function") with
      | Some (JDict function) =>
          r <~ feed_under (call_key index (get_index call (lit "index"))) true function (lit "arguments");;
          mret (JDict (jset call (lit "function") (JDict r.1)), r.2)
      | _ => mret (tool_call, false)
      end
  | _ => mraise AttributeError
  end.

(** The choice's delta: its fields, then its tool calls. *)
Definition feed_delta (index : json) (delta : list (pystr * json)) : M pool event_error (list (pystr * json) * bool) :=
  r <~ feed_fields index DELTA_FIELDS delta;;
  match jget r.1 (lit "tool_calls") with
  | Some x =>
      if truthy x then
        calls <~ lift (iterated x);;
        fed <~ mapM (feed_call index) calls;;
        mret (jset r.1 (lit "tool_calls") (JList (map fst fed)), r.2 || existsb snd fed)
      else mret r
  | None => mret r
  end.

Definition feed_delta_of (index : json) (items : list (pystr * json)) : M pool event_error (list (pystr * json) * bool) :=
  match jget items (lit "delta") with
  | Some (JDict delta) => d <~ feed_delta index delta;; mret (jset items (lit "delta") (JDict d.1), d.2)
  | _ => mret (items, false)
  end.

(** A choice: the new choice, whether text was fed, and its index where it is finished. *)
Definition feed_choice (choice : json) : M pool event_error (json * bool * option json) :=
  match choice with
  | JDict items =>
      let index := get_index items (lit "index") in
      r <~ feed_delta_of index items;;
      t <~ feed_under (field_key index FLegacy) false r.1 (field_name FLegacy);;
      mret (JDict t.1, r.2 || t.2, if truthy (jget_null items (lit "finish_reason")) then Some index else None)
  | _ => mraise AttributeError
  end.

(** [key[0] == i] *)
Definition of_choice (index : json) (k : chat_key) : bool := bool_decide (hash_key index = Some (choice_of k)).

Fixpoint flush_finished (finished : list json) (pl : pool) : list (list (pystr * json)) * pool :=
  match finished with
  | [] => ([], pl)
  | index :: finished =>
      let (leftovers, pl) := flush_matching v (of_choice index) pl in
      let (more, pl) := flush_finished finished pl in
      (leftover_chunks leftovers ++ more, pl)
  end.

(** A parsed chunk: the flushed chunks before it, and the new payload where text was fed. *)
Definition rehydrate_chunk (payload : list (pystr * json)) : M pool event_error (list (list (pystr * json)) * option (list (pystr * json))) :=
  choices <~ match jget payload (lit "choices") with Some x => lift (iterated x) | None => mret [] end;;
  fed <~ mapM feed_choice choices;;
  synthetic <~ (fun pl => let (s, pl) := flush_finished (omap snd fed) pl in (Ok s, pl));;
  mret (synthetic, if existsb (fun r => r.1.2) fed then Some (jset payload (lit "choices") (JList (map (fun r => r.1.1) fed))) else None).

(** ** Over server-sent events *)
Context (loads_text : pystr -> document) (dumps : json -> pystr).

Definition chunk_event (payload : list (pystr * json)) : SSEEvent := mk_event None (dumps (JDict payload)) None [].

(** [OpenAIAdapter.rehydrate_event] *)
Definition rehydrate_event (e : SSEEvent) : M pool event_error (list SSEEvent) := fun pl =>
  if bool_decide (data e = []) then (Ok [e], pl)
  else if bool_decide (strip (data e) = DONE_DATA) then
    let (leftovers, pl) := flush_all v pl in (Ok (map chunk_event (leftover_chunks leftovers) ++ [e]), pl)
  else match loads_bounded (loads_text (data e)) with
       | Raise _ => (Ok [e], pl)
       | Ok (JDict payload) =>
           (r <~ rehydrate_chunk payload;;
            mret (map chunk_event r.1 ++ [match r.2 with Some p => with_data e (dumps (JDict p)) | None => e end])) pl
       | Ok _ => (Raise AttributeError, pl)
       end.
End Stream.
