(* ===== verification/OpenAIFacts.v ===== *)
(** * What the chat chunk stream restores

    The texts of one channel of a choice (its content, a reasoning field, a tool call's
    arguments, the legacy text) over the chunks of an answer say what the restored whole
    says, and the chunk that finishes the choice, or the end of the stream, brings out what
    was held back. *)

From Stdlib Require Import List.
From S2P Require Import Prelude PyRegex Json Placeholders JsonWalk JsonFacts TokenSearch Vault Rehydrate Streaming JsonSource Sse.
From S2P Require Import Detection Overlaps Redactor Winners Redaction RoundTrip Adapters AdapterFacts Channels Anthropic AnthropicFacts StreamPools Responses OpenAI.

Abbreviation dict := (list (pystr * json)).

(** ** The texts of a chunk, in the order they are fed *)
Definition under (key : option chat_key) (items : dict) (name : pystr) : list (chat_key * pystr) :=
  match key, jget items name with Some k, Some (JStr t) => [(k, t)] | _, _ => [] end.

Definition call_texts (index tool_call : json) : list (chat_key * pystr) :=
  match tool_call with
  | JDict call => match jget call (lit "function") with Some (JDict f) => under (call_key index (get_index call (lit "index"))) f (lit "arguments") | _ => [] end
  | _ => []
  end.

Definition listed (x : option json) : list json := match x with Some (JList l) => l | _ => [] end.

Definition fields_texts (index : json) (fs : list chat_field) (items : dict) : list (chat_key * pystr) :=
  flat_map (fun f => under (field_key index f) items (field_name f)) fs.

Definition delta_texts (index : json) (delta : dict) : list (chat_key * pystr) :=
  fields_texts index DELTA_FIELDS delta ++ flat_map (call_texts index) (listed (jget delta (lit "tool_calls"))).

Definition texts_of_delta (index : json) (items : dict) : list (chat_key * pystr) :=
  match jget items (lit "delta") with Some (JDict d) => delta_texts index d | _ => [] end.

Definition choice_texts (choice : json) : list (chat_key * pystr) :=
  match choice with
  | JDict items =>
      let index := get_index items (lit "index") in
      texts_of_delta index items ++ under (field_key index FLegacy) items (field_name FLegacy)
  | _ => []
  end.

Definition chunk_texts (payload : dict) : list (chat_key * pystr) := flat_map choice_texts (listed (jget payload (lit "choices"))).

(** The indexes of the finished choices. *)
Definition finished_index (choice : json) : option json :=
  match choice with JDict items => if truthy (jget_null items (lit "finish_reason")) then Some (get_index items (lit "index")) else None | _ => None end.

Definition finishes (key : chat_key) (payload : dict) : bool := existsb (fun i => of_choice i key) (omap finished_index (listed (jget payload (lit "choices")))).

(** A key that a flushed chunk spells so that it reads back. *)
Definition key_printable (key : chat_key) : bool := bool_decide (chunk_texts (leftover_chunk key []) = [(key, [])]).

(** A chunk that speaks at most once on a channel, and on none it finishes. *)
Definition tidy_chunk (payload : dict) : bool :=
  bool_decide (NoDup (map fst (chunk_texts payload))) && forallb (fun kt => key_printable kt.1 && negb (finishes kt.1 payload)) (chunk_texts payload).

(** ** What feeding does to the texts *)
Section Stream.
Context {V : Type} `{VaultOps V} (v : V).

Abbreviation pool := (Rehydrate.pool (K := chat_key)).

Fixpoint feed_list (l : list (chat_key * pystr)) (pl : pool) : list (chat_key * pystr) * pool :=
  match l with
  | [] => ([], pl)
  | (k, t) :: l => let (out, pl) := pool_feed v k (chat_source k) t pl in let (more, pl) := feed_list l pl in ((k, out) :: more, pl)
  end.

Lemma feed_list_app l l' pl : feed_list (l ++ l') pl = let (a, p1) := feed_list l pl in let (b, p2) := feed_list l' p1 in (a ++ b, p2).
Proof.
  revert pl. induction l as [|[k t] l IH]; intros pl; cbn [app feed_list]; [by destruct (feed_list l' pl)|].
  destruct (pool_feed v k _ t pl) as [out p1]. rewrite IH. destruct (feed_list l p1) as [a p2]. by destruct (feed_list l' p2).
Qed.

(** A rewriting of the texts [T] reads: fed in order; where it reports no text there is
    none. *)
Definition rewrites {A B} (W : A -> M pool event_error B) (T : A -> list (chat_key * pystr)) (T' : B -> list (chat_key * pystr)) (fed : B -> bool) (x : A) : Prop :=
  forall pl out pl', W x pl = (Ok out, pl') -> (T' out, pl') = feed_list (T x) pl /\ (fed out = false -> T x = []).

Lemma mapM_rewrites {A B} (W : A -> M pool event_error B) T T' fed l : (forall x, rewrites W T T' fed x) -> rewrites (mapM W) (flat_map T) (flat_map T') (existsb fed) l.
Proof.
  intros Hw. induction l as [|x l IH]; intros pl out pl'; [by intros [= <- <-]|]. intros (y & ys & p1 & -> & Hx & Hl)%mapM_ok.
  destruct (Hw x _ _ _ Hx) as [E1 F1]. destruct (IH _ _ _ Hl) as [E2 F2]. cbn [flat_map existsb]. rewrite feed_list_app, <- E1, <- E2. split; [done|].
  intros [? ?]%orb_false_iff. by rewrite F1, F2.
Qed.

Lemma feed_under_spec key name items pl out pl' j : (forall k, key = Some k -> chat_source k = j) -> feed_under v key j items name pl = (Ok out, pl') ->
  (under key out.1 name, pl') = feed_list (under key items name) pl /\ (out.2 = false -> under key items name = []) /\ forall n, n <> name -> jget out.1 n = jget items n.
Proof.
  intros Hj. unfold feed_under, under. destruct (jget items name) as [x|] eqn:E; [|intros [= <- <-]; cbn; rewrite E; by destruct key].
  destruct x as [| | |t| |]; try (intros [= <- <-]; cbn; rewrite E; by destruct key). destruct key as [k|]; [|done]. cbn [feed_list]. rewrite (Hj k) by done.
  destruct (pool_feed v k j t pl) as [o p1]. intros [= <- <-]. cbn [fst snd]. unfold jset. rewrite jget_eq. split_and!; [done|done|]. intros n Hn. by apply jget_ne.
Qed.

Lemma field_key_source index f k : field_key index f = Some k -> chat_source k = false.
Proof. unfold field_key. intros (i & _ & [= <-])%bind_Some. done. Qed.

Lemma call_key_source index call k : call_key index call = Some k -> chat_source k = true.
Proof. unfold call_key. intros (i & _ & (c & _ & [= <-])%bind_Some)%bind_Some. done. Qed.

Lemma under_ext key items items' name : jget items' name = jget items name -> under key items' name = under key items name.
Proof. unfold under. by intros ->. Qed.

Lemma fields_texts_ext index fs items items' : (forall f, f ∈ fs -> jget items' (field_name f) = jget items (field_name f)) -> fields_texts index fs items' = fields_texts index fs items.
Proof.
  intros He. unfold fields_texts. induction fs as [|f fs IH]; [done|]. cbn [flat_map]. f_equal; [apply under_ext, He, elem_of_cons; by left|].
  apply IH. intros f' Hf. apply He, elem_of_cons. by right.
Qed.

Lemma feed_fields_spec index fs items pl out pl' : NoDup (map field_name fs) -> feed_fields v index fs items pl = (Ok out, pl') ->
  (fields_texts index fs out.1, pl') = feed_list (fields_texts index fs items) pl /\ (out.2 = false -> fields_texts index fs items = []) /\
  forall n, n ∉ map field_name fs -> jget out.1 n = jget items n.
Proof.
  revert items pl out pl'. induction fs as [|f fs IH]; intros items pl out pl' Hn; [by intros [= <- <-]|]. cbn [feed_fields]. unfold mbnd, mret.
  apply list.NoDup_cons in Hn as [Hf Hn]. destruct (feed_under v _ false items (field_name f) pl) as [[r|e] p1] eqn:E1; [|done].
  destruct (feed_fields v index fs r.1 p1) as [[r2|e] p2] eqn:E2; [|done]. intros [= <- <-]. cbn [fst snd].
  destruct (feed_under_spec _ _ _ _ _ _ _ (field_key_source index f) E1) as (S1 & F1 & O1). destruct (IH _ _ _ _ Hn E2) as (S2 & F2 & O2).
  assert (Hsame : fields_texts index fs r.1 = fields_texts index fs items).
  { apply fields_texts_ext. intros f' Hin. apply O1. intros He. apply Hf. rewrite <- He. by apply list_elem_of_fmap_2. }
  rewrite Hsame in S2, F2. cbn [fields_texts flat_map]. fold (fields_texts index fs items). fold (fields_texts index fs r2.1). rewrite feed_list_app, <- S1, <- S2.
  split_and!; [|intros [? ?]%orb_false_iff; by rewrite F1, F2|].
  - f_equal. f_equal. by apply under_ext, O2.
  - intros n. cbn [map]. intros [H1 H2]%not_elem_of_cons. rewrite O2 by done. by apply O1.
Qed.

Lemma feed_call_rewrites index call : rewrites (feed_call v index) (call_texts index) (fun r => call_texts index r.1) snd call.
Proof.
  intros pl out pl'. unfold feed_call, call_texts. destruct call as [| | | | |items]; try done.
  destruct (jget items (lit "function")) as [x|] eqn:Ef; [|intros [= <- <-]; cbn [fst snd]; by rewrite Ef]. destruct x as [| | | | |fn]; try (intros [= <- <-]; cbn [fst snd]; by rewrite Ef).
  unfold mbnd, mret. destruct (feed_under v _ true fn (lit "arguments") pl) as [[r|e] p1] eqn:E1; [|done]. intros [= <- <-]. cbn [fst snd].
  destruct (feed_under_spec _ _ _ _ _ _ _ (call_key_source index _) E1) as (S1 & F1 & _). unfold get_index, jset. rewrite jget_eq, jget_ne by done. done.
Qed.

Lemma feed_delta_spec index delta pl out pl' : feed_delta v index delta pl = (Ok out, pl') ->
  (delta_texts index out.1, pl') = feed_list (delta_texts index delta) pl /\ (out.2 = false -> delta_texts index delta = []).
Proof.
  unfold feed_delta, mbnd, mret. destruct (feed_fields v index DELTA_FIELDS delta pl) as [[r|e] p1] eqn:E1; [|done].
  assert (Hnd : NoDup (map field_name DELTA_FIELDS)) by (repeat constructor; set_solver).
  destruct (feed_fields_spec _ _ _ _ _ _ Hnd E1) as (S1 & F1 & O1). unfold delta_texts.
  assert (Ht : jget r.1 (lit "tool_calls") = jget delta (lit "tool_calls")) by (apply O1; set_solver). rewrite Ht.
  assert (Hquiet : listed (jget delta (lit "tool_calls")) = [] -> (Ok r, p1) = (Ok (E := event_error) out, pl') ->
    (fields_texts index DELTA_FIELDS out.1 ++ flat_map (call_texts index) (listed (jget out.1 (lit "tool_calls"))), pl') =
      feed_list (fields_texts index DELTA_FIELDS delta ++ flat_map (call_texts index) (listed (jget delta (lit "tool_calls")))) pl /\
    (out.2 = false -> fields_texts index DELTA_FIELDS delta ++ flat_map (call_texts index) (listed (jget delta (lit "tool_calls"))) = [])).
  { intros Hl [= <- <-]. rewrite Ht, Hl. cbn [flat_map]. by rewrite !app_nil_r. }
  destruct (jget delta (lit "tool_calls")) as [x|]; [|by apply Hquiet].
  destruct (truthy x) eqn:Etr; [|apply Hquiet; by destruct x as [| | | |[]|]].
  unfold lift. destruct (iterated x) as [calls|e] eqn:Ei; [|done]. destruct (mapM (feed_call v index) calls p1) as [[fed|e] p2] eqn:E2; [|done]. intros [= <- <-]. cbn [fst snd].
  destruct (mapM_rewrites _ _ _ _ calls (feed_call_rewrites index) _ _ _ E2) as [S2 F2].
  assert (Hcalls : flat_map (call_texts index) (listed (Some x)) = flat_map (call_texts index) calls).
  { destruct x as [| | |s|l|l]; try done; cbn in Ei; injection Ei as <-; cbn [listed flat_map]; [by induction s|done|by induction l as [|[] ?]]. }
  rewrite Hcalls, feed_list_app, <- S1, <- S2. unfold jset. rewrite jget_eq. cbn [listed]. rewrite flat_map_concat_map, map_map, <- flat_map_concat_map. split.
  - f_equal. f_equal. apply fields_texts_ext. intros f Hf. apply jget_ne. intros He. clear -Hf He. by destruct f.
  - intros [? ?]%orb_false_iff. by rewrite F1, F2.
Qed.

Lemma feed_delta_of_spec index items pl out pl' : feed_delta_of v index items pl = (Ok out, pl') ->
  (texts_of_delta index out.1, pl') = feed_list (texts_of_delta index items) pl /\ (out.2 = false -> texts_of_delta index items = []) /\ forall n, n <> lit "delta" -> jget out.1 n = jget items n.
Proof.
  unfold feed_delta_of, texts_of_delta. destruct (jget items (lit "delta")) as [x|] eqn:Ed; [|intros [= <- <-]; cbn [fst snd]; by rewrite Ed].
  destruct x as [| | | | |delta]; try (intros [= <- <-]; cbn [fst snd]; by rewrite Ed). unfold mbnd, mret.
  destruct (feed_delta v index delta pl) as [[d|e] p1] eqn:E1; [|done]. intros [= <- <-]. cbn [fst snd]. unfold jset. rewrite jget_eq.
  destruct (feed_delta_spec _ _ _ _ _ E1) as [S1 F1]. split_and!; [done|done|]. intros n Hn. by apply jget_ne.
Qed.

Lemma feed_choice_rewrites choice : rewrites (feed_choice v) choice_texts (fun r => choice_texts r.1.1) (fun r => r.1.2) choice.
Proof.
  intros pl out pl'. unfold feed_choice, choice_texts. destruct choice as [| | | | |items]; try done. unfold mbnd, mret. set (index := get_index items (lit "index")).
  destruct (feed_delta_of v index items pl) as [[r|e] p1] eqn:E1; [|done]. destruct (feed_delta_of_spec _ _ _ _ _ E1) as (S1 & F1 & O1).
  destruct (feed_under v _ false r.1 _ p1) as [[t|e] p2] eqn:E2; [|done]. intros [= <- <-]. cbn [fst snd].
  destruct (feed_under_spec _ _ _ _ _ _ _ (field_key_source index FLegacy) E2) as (S2 & F2 & O2).
  assert (Hu : under (field_key index FLegacy) r.1 (field_name FLegacy) = under (field_key index FLegacy) items (field_name FLegacy)) by by apply under_ext, O1.
  rewrite Hu in S2, F2. rewrite feed_list_app, <- S1, <- S2.
  assert (Hi : get_index t.1 (lit "index") = index) by (unfold get_index; by rewrite O2, O1). rewrite Hi.
  assert (Hd : texts_of_delta index t.1 = texts_of_delta index r.1) by (unfold texts_of_delta; by rewrite O2). rewrite Hd.
  split; [done|]. intros [? ?]%orb_false_iff. by rewrite F1, F2.
Qed.

Lemma feed_choice_finished choice pl out pl' : feed_choice v choice pl = (Ok out, pl') -> out.2 = finished_index choice.
Proof.
  unfold feed_choice, finished_index. destruct choice as [| | | | |items]; try done. unfold mbnd.
  destruct (feed_delta_of v _ items pl) as [[r|e] p1]; [|done]. destruct (feed_under v _ false r.1 _ p1) as [[t|e] p2]; [|done]. by intros [= <- <-].
Qed.

Lemma feed_choices_finished l : forall pl out pl', mapM (feed_choice v) l pl = (Ok out, pl') -> omap snd out = omap finished_index l.
Proof.
  induction l as [|x l IH]; intros pl out pl'; [by intros [= <- <-]|]. intros (y & ys & p1 & -> & Hx & Hl)%mapM_ok. cbn [omap list_omap].
  rewrite (feed_choice_finished _ _ _ _ Hx). destruct (finished_index x); [f_equal|]; by eapply IH.
Qed.

(** *** One channel of the pool *)
Lemma feed_list_keys l : forall pl, map fst (feed_list l pl).1 = map fst l.
Proof.
  induction l as [|[k t] l IH]; intros pl; [done|]. cbn [feed_list]. destruct (pool_feed v k _ t pl) as [out p1]. specialize (IH p1). destruct (feed_list l p1) as [more p2]. cbn. by f_equal.
Qed.

Lemma texts_of_none key (l : list (chat_key * pystr)) : key ∉ map fst l -> texts_of key l = [].
Proof.
  induction l as [|[k t] l IH]; [done|]. cbn [map fst]. intros [H1 H2]%not_elem_of_cons. cbn [texts_of omap list_omap fst snd].
  rewrite bool_decide_eq_false_2 by (by intros E; apply H1; rewrite <- E). by apply IH.
Qed.

Lemma texts_of_one key (l : list (chat_key * pystr)) : NoDup (map fst l) -> texts_of key l = match head (texts_of key l) with Some t => [t] | None => [] end.
Proof.
  induction l as [|[k t] l IH]; [done|]. cbn [map fst]. intros [Hk Hn]%list.NoDup_cons. cbn [texts_of omap list_omap fst snd]. case_bool_decide as E; [|by apply IH].
  subst k. cbn [head]. f_equal. by apply texts_of_none.
Qed.

Definition cpool_ok (pl : pool) : Prop := once pl /\ forall k, k ∈ map fst (channels pl) -> key_printable k = true.

(** Texts of other channels, then at most one of the watched one. *)
Lemma feed_list_spec key l : forall pl, cpool_ok pl -> NoDup (map fst l) -> (forall kt, kt ∈ l -> key_printable kt.1 = true) ->
  let r := feed_list l pl in cpool_ok r.2 /\ p_fuzzy r.2 = p_fuzzy pl /\
  match head (texts_of key l) with
  | Some t => concat (texts_of key r.1) = (feed_text v (channel_at key (chat_source key) pl) t).1 /\ pool_find key r.2 = Some (feed_text v (channel_at key (chat_source key) pl) t).2
  | None => concat (texts_of key r.1) = [] /\ pool_find key r.2 = pool_find key pl
  end.
Proof.
  induction l as [|[k t] l IH]; intros pl Hg Hn Hp; [done|]. cbn [map fst] in Hn. apply list.NoDup_cons in Hn as [Hk Hn]. cbn [feed_list].
  destruct (pool_feed_spec v k (chat_source k) t pl) as (Ho & Hf & Hfind). pose proof (pool_feed_once v k (chat_source k) t pl) as Hone. pose proof (pool_feed_keys v k (chat_source k) t pl) as Hkeys.
  destruct (pool_feed v k (chat_source k) t pl) as [out p1]. cbn [fst snd] in *.
  assert (Hg1 : cpool_ok p1).
  { split; [by apply Hone, Hg|]. intros k'. rewrite Hkeys. destruct (bool_decide (k ∈ map fst (channels pl))); [rewrite app_nil_r; apply Hg|]. intros [Hin|Hin]%elem_of_app; [by apply Hg|].
    apply list_elem_of_singleton in Hin as ->. apply (Hp (k, t)), elem_of_cons. by left. }
  specialize (IH p1 Hg1 Hn (fun kt Hin => Hp kt ltac:(apply elem_of_cons; by right))). destruct (feed_list l p1) as [more p2] eqn:El. cbn [fst snd] in *.
  destruct IH as (Hg2 & Hf2 & IH). split; [done|]. split; [congruence|]. cbn [texts_of omap list_omap fst snd]. destruct (decide (k = key)) as [-> |Hne].
  - rewrite !bool_decide_eq_true_2 by done. cbn [head concat].
    rewrite (texts_of_none key l Hk) in IH. destruct IH as [Hc IH]. change (concat (texts_of key more) = []) in Hc. fold (texts_of key more). rewrite Hc, app_nil_r, IH, Hfind, decide_True by done. by subst out.
  - rewrite !bool_decide_eq_false_2 by done. fold (texts_of key l). fold (texts_of key more).
    assert (Hsame : pool_find key p1 = pool_find key pl) by (by rewrite Hfind, decide_False). unfold channel_at in *. by rewrite Hsame, Hf in IH.
Qed.

(** The text the channel still holds back. *)
Definition held (key : chat_key) (pl : pool) : pystr := match pool_find key pl with Some ch => flush_text v ch | None => [] end.

(** What a flushed chunk says. *)
Definition chat_said (key : chat_key) (payload : dict) : option pystr := head (texts_of key (chunk_texts payload)).

Lemma leftover_said key' key text : key_printable key' = true -> chat_said key (leftover_chunk key' text) = if bool_decide (key' = key) then Some text else None.
Proof.
  intros Hp%bool_decide_eq_true. unfold chat_said. assert (chunk_texts (leftover_chunk key' text) = [(key', text)]) as ->.
  { destruct key' as [index f|index call]; [destruct f|]; cbv -[hash_key key_json] in Hp |- *; repeat (destruct (hash_key (key_json _)); try done); by simplify_eq. }
  cbn. by case_bool_decide.
Qed.

Lemma leftovers_said key (left : list (chat_key * pystr)) : (forall kt, kt ∈ left -> key_printable kt.1 = true) ->
  concat (says (chat_said key) (leftover_chunks left)) = concat (texts_of key left).
Proof.
  induction left as [|[k t] left IH]; intros Hp; [done|]. cbn [leftover_chunks map says texts_of omap list_omap fst snd].
  rewrite leftover_said by (apply (Hp (k, t)), elem_of_cons; by left).
  assert (IH' := IH (fun kt Hin => Hp kt ltac:(apply elem_of_cons; by right))). case_bool_decide; cbn [concat]; [by f_equal|exact IH'].
Qed.

Lemma flushed_step pred key pl : cpool_ok pl -> let r := flush_matching v pred pl in
  cpool_ok r.2 /\ p_fuzzy r.2 = p_fuzzy pl /\ concat (says (chat_said key) (leftover_chunks r.1)) = (if pred key then held key pl else []) /\
  pool_find key r.2 = if pred key then None else pool_find key pl.
Proof.
  intros [Ho Hp]. cbn zeta. destruct (flush_matching_spec v pred pl) as (Hf & Ho' & Hk & Hl & Hkey). destruct (Hkey key Ho) as [Ht Hfind].
  split; [split; [by apply Ho'|by intros k Hin; apply Hp, Hk]|]. split_and!; [done| |done]. rewrite leftovers_said, Ht by (intros kt Hin; apply Hp; by apply Hl). done.
Qed.

Lemma flush_finished_spec key finished : forall pl, cpool_ok pl -> let r := flush_finished v finished pl in let ours := existsb (fun i => of_choice i key) finished in
  cpool_ok r.2 /\ p_fuzzy r.2 = p_fuzzy pl /\ concat (says (chat_said key) r.1) = (if ours then held key pl else []) /\
  pool_find key r.2 = if ours then None else pool_find key pl.
Proof.
  induction finished as [|i finished IH]; intros pl Hg; [done|]. cbn [flush_finished existsb]. destruct (flushed_step (of_choice i) key pl Hg) as (Hg1 & Hf1 & Hs1 & Hp1).
  destruct (flush_matching v (of_choice i) pl) as [left p1]. cbn [fst snd] in *. specialize (IH p1 Hg1). destruct (flush_finished v finished p1) as [more p2]. cbn [fst snd] in *.
  destruct IH as (Hg2 & Hf2 & Hs2 & Hp2). rewrite says_app, concat_app, Hs1, Hs2, Hp2. split; [done|]. split_and!; [congruence|..].
  - unfold held. rewrite Hp1. destruct (of_choice i key); cbn [orb]; [|done]. destruct (existsb _ finished); by rewrite app_nil_r.
  - rewrite Hp1. destruct (of_choice i key); cbn [orb]; [by destruct (existsb _ finished)|done].
Qed.

(** ** The stream: its chunks, then [[DONE]] *)
Inductive chat_in : Type := Chunk (payload : dict) | DoneSentinel.

Definition chat_step (x : chat_in) (pl : pool) : result event_error (list chat_in) * pool :=
  match x with
  | Chunk payload =>
      match rehydrate_chunk v payload pl with
      | (Ok r, pl) => (Ok (map Chunk r.1 ++ [Chunk (default payload r.2)]), pl)
      | (Raise e, pl) => (Raise e, pl)
      end
  | DoneSentinel => let (leftovers, pl) := Rehydrate.flush_all v pl in (Ok (map Chunk (leftover_chunks leftovers) ++ [DoneSentinel]), pl)
  end.

Definition in_said (key : chat_key) (x : chat_in) : option pystr := match x with Chunk payload => chat_said key payload | DoneSentinel => None end.
Definition in_ends (key : chat_key) (x : chat_in) : bool := match x with Chunk payload => finishes key payload | DoneSentinel => true end.
Definition in_tidy (x : chat_in) : bool := match x with Chunk payload => tidy_chunk payload | DoneSentinel => true end.

Lemma says_chunks key ps : says (in_said key) (map Chunk ps) = says (chat_said key) ps.
Proof. induction ps as [|p ps IH]; [done|]. cbn. destruct (chat_said key p); [f_equal|]; exact IH. Qed.

Lemma iterated_listed x l : iterated x = Ok l -> flat_map choice_texts (listed (Some x)) = flat_map choice_texts l /\ omap finished_index (listed (Some x)) = omap finished_index l.
Proof.
  destruct x as [| | |s|a|a]; try done; intros [= <-]; cbn [listed]; [|done|].
  - by induction s.
  - by induction a as [|[k y] a IH].
Qed.

(** What [rehydrate_event] owes every channel of the stream. *)
Lemma chat_channel key : channel_step_on v chat_step key (chat_source key) (in_said key) (in_ends key) cpool_ok (fun x => in_tidy x = true).
Proof.
  intros x pl outs pl' Hg Ht. destruct x as [payload|]; cbn [chat_step in_said in_ends in_tidy] in *.
  2:{ pose proof (flushed_step (fun _ => true) key pl Hg) as Hfl. change (Rehydrate.flush_all v pl) with (flush_matching v (fun _ : chat_key => true) pl).
      destruct (flush_matching v (fun _ => true) pl) as [left p1]. cbn [fst snd] in Hfl. destruct Hfl as (Hg1 & Hf1 & Hs1 & Hp1). intros [= <- <-].
      rewrite says_app, concat_app, says_chunks, Hs1. cbn. by rewrite app_nil_r. }
  destruct (rehydrate_chunk v payload pl) as [[r|e] p3] eqn:E; [|done]. intros [= <- <-]. revert E. unfold rehydrate_chunk, mbnd at 1.
  apply andb_true_iff in Ht as [Hnd%bool_decide_eq_true Hkeys]. rewrite forallb_forall in Hkeys.
  destruct (match jget payload (lit "choices") with Some x => lift (iterated x) | None => mret [] end pl) as [[choices|e] p0] eqn:Ec; [|done].
  assert (Hc : p0 = pl /\ chunk_texts payload = flat_map choice_texts choices /\ finishes key payload = existsb (fun i => of_choice i key) (omap finished_index choices)).
  { unfold chunk_texts, finishes. destruct (jget payload (lit "choices")) as [x|]; [|by injection Ec as <- <-]. injection Ec as Ei <-. by destruct (iterated_listed _ _ Ei) as [-> ->]. }
  destruct Hc as (-> & Htexts & Hends). rewrite Hends. unfold mbnd, mret. destruct (mapM (feed_choice v) choices pl) as [[fed|e] p1] eqn:Em; [|done].
  pose proof (feed_choices_finished _ _ _ _ Em) as Hfin. destruct (mapM_rewrites _ _ _ _ choices feed_choice_rewrites _ _ _ Em) as [S1 F1]. rewrite Hfin. rewrite <- Htexts in S1, F1.
  assert (Hkp : forall kt, kt ∈ chunk_texts payload -> key_printable kt.1 = true /\ finishes kt.1 payload = false).
  { intros kt Hin%list_elem_of_In. specialize (Hkeys kt Hin). by apply andb_true_iff in Hkeys as [? ?%negb_true_iff]. }
  set (p' := default payload (if existsb (fun r => r.1.2) fed then Some (jset payload (lit "choices") (JList (map (fun r => r.1.1) fed))) else None)).
  assert (Hp' : (chunk_texts p', p1) = feed_list (chunk_texts payload) pl).
  { subst p'. destruct (existsb _ fed) eqn:Ex; cbn [default from_option]; unfold id; [|rewrite F1 in S1 |- * by done; cbn in S1 |- *; by injection S1 as _ <-].
    rewrite <- S1. f_equal. unfold chunk_texts, jset. rewrite jget_eq. cbn [listed]. by rewrite flat_map_concat_map, map_map, <- flat_map_concat_map. }
  pose proof (feed_list_spec key (chunk_texts payload) pl Hg Hnd (fun kt Hin => proj1 (Hkp kt Hin))) as Hfeed. pose proof (feed_list_keys (chunk_texts payload) pl) as Hsk.
  destruct (feed_list (chunk_texts payload) pl) as [fl p1']. injection Hp' as Hp' <-. cbn [fst snd] in *. destruct Hfeed as (Hg1 & Hf1 & Hfeed).
  destruct (flush_finished_spec key (omap finished_index choices) p1 Hg1) as (Hg2 & Hf2 & Hs2 & Hpf2).
  destruct (flush_finished v (omap finished_index choices) p1) as [syn p2]. cbn [fst snd] in *. intros [= <- <-]. cbn [fst snd].
  change (default payload _) with p'. split; [done|]. split; [congruence|]. rewrite says_app, concat_app, says_chunks, Hs2, Hpf2.
  assert (Hlast : concat (says (in_said key) [Chunk p']) = concat (texts_of key fl)).
  { rewrite (texts_of_one key fl) by by rewrite Hsk. cbn. unfold chat_said. rewrite Hp'. by destruct (head (texts_of key fl)). }
  rewrite Hlast. change (head (texts_of key (chunk_texts payload))) with (chat_said key payload) in Hfeed.
  destruct (existsb (fun i => of_choice i key) (omap finished_index choices)) eqn:Eends.
  - assert (Hno : chat_said key payload = None).
    { unfold chat_said. rewrite texts_of_none; [done|]. intros ([k t] & -> & Hin)%list_elem_of_fmap. destruct (Hkp _ Hin) as [_ Hfk]. cbn [fst] in *.
      rewrite Hends in Hfk. congruence. }
    rewrite Hno in Hfeed. destruct Hfeed as [-> Hsame]. rewrite app_nil_r. split; [|done]. unfold held. by rewrite Hsame.
  - cbn [app]. exact Hfeed.
Qed.
End Stream.

(** ** Chunks that never raise *)
Definition under_fine (key : option chat_key) (items : dict) (name : pystr) : bool :=
  match jget items name with Some (JStr _) => bool_decide (is_Some key) | _ => true end.

Definition call_fine (index tool_call : json) : bool :=
  match tool_call with
  | JDict call => match jget call (lit "function") with Some (JDict f) => under_fine (call_key index (get_index call (lit "index"))) f (lit "arguments") | _ => true end
  | _ => false
  end.

Definition delta_fine (index : json) (delta : dict) : bool :=
  forallb (fun f => under_fine (field_key index f) delta (field_name f)) DELTA_FIELDS &&
  match jget delta (lit "tool_calls") with Some (JList l) => forallb (call_fine index) l | Some x => negb (truthy x) | None => true end.

Definition choice_fine (choice : json) : bool :=
  match choice with
  | JDict items =>
      let index := get_index items (lit "index") in
      match jget items (lit "delta") with Some (JDict d) => delta_fine index d | _ => true end && under_fine (field_key index FLegacy) items (field_name FLegacy)
  | _ => false
  end.

Definition chunk_fine (payload : dict) : bool := match jget payload (lit "choices") with Some (JList l) => forallb choice_fine l | Some _ => false | None => true end.

Section Returns.
Context {V : Type} `{VaultOps V} (v : V).

Definition returns {St E A} (m : M St E A) : Prop := forall s, exists out s', m s = (Ok out, s').

Lemma mapM_returns {St E A B} (W : A -> M St E B) (ok : A -> bool) l : (forall x, ok x = true -> returns (W x)) -> forallb ok l = true -> returns (mapM W l).
Proof.
  intros Hw. induction l as [|x l IH]; intros Hl s; [by eexists _, _|]. cbn in Hl. apply andb_true_iff in Hl as [Hx Hl]. cbn [mapM]. unfold mbnd.
  destruct (Hw x Hx s) as (y & s1 & ->). destruct (IH Hl s1) as (ys & s2 & ->). by eexists _, _.
Qed.

Lemma feed_under_returns key j items name : under_fine key items name = true -> returns (feed_under v key j items name).
Proof.
  unfold under_fine, feed_under. intros Hok s. destruct (jget items name) as [[]|]; try by eexists _, _. apply bool_decide_eq_true in Hok as [k ->]. destruct (pool_feed v k j _ s). by eexists _, _.
Qed.

Lemma feed_call_returns index call : call_fine index call = true -> returns (feed_call v index call).
Proof.
  unfold call_fine, feed_call. intros Hok s. destruct call as [| | | | |items]; try done. destruct (jget items (lit "function")) as [[]|]; try by eexists _, _.
  unfold mbnd. destruct (feed_under_returns _ true _ _ Hok s) as (r & s1 & ->). by eexists _, _.
Qed.

Lemma feed_fields_returns index fs : NoDup (map field_name fs) -> forall items, forallb (fun f => under_fine (field_key index f) items (field_name f)) fs = true -> returns (feed_fields v index fs items).
Proof.
  induction fs as [|f fs IH]; intros Hn items Hok s; [by eexists _, _|]. cbn [map] in Hn. apply list.NoDup_cons in Hn as [Hf Hn]. cbn [forallb] in Hok. apply andb_true_iff in Hok as [H1 H2].
  cbn [feed_fields]. unfold mbnd. destruct (feed_under_returns _ false _ _ H1 s) as (r & s1 & E1). rewrite E1.
  destruct (feed_under_spec v _ _ _ _ _ _ _ (field_key_source index f) E1) as (_ & _ & O1).
  assert (H2' : forallb (fun f => under_fine (field_key index f) r.1 (field_name f)) fs = true).
  { apply forallb_forall. intros f' Hin. rewrite forallb_forall in H2. specialize (H2 f' Hin). unfold under_fine in *. rewrite O1; [done|].
    intros He. apply Hf. rewrite <- He. apply list_elem_of_fmap_2. by apply list_elem_of_In. }
  destruct (IH Hn _ H2' s1) as (r2 & s2 & ->). by eexists _, _.
Qed.

Lemma feed_delta_returns index delta : delta_fine index delta = true -> returns (feed_delta v index delta).
Proof.
  intros [H1 H2]%andb_true_iff s. unfold feed_delta, mbnd. assert (Hnd : NoDup (map field_name DELTA_FIELDS)) by (repeat constructor; set_solver).
  destruct (feed_fields_returns index DELTA_FIELDS Hnd delta H1 s) as (r & s1 & E1). rewrite E1. destruct (feed_fields_spec v _ _ _ _ _ _ Hnd E1) as (_ & _ & O1).
  rewrite (O1 (lit "tool_calls")) by set_solver. destruct (jget delta (lit "tool_calls")) as [x|]; [|by eexists _, _]. destruct (truthy x) eqn:Et; [|by eexists _, _].
  destruct x as [| | | |l|]; try done; try by rewrite Et in H2. unfold lift. cbn [iterated]. destruct (mapM_returns (feed_call v index) _ l (feed_call_returns index) H2 s1) as (fed & s2 & ->). by eexists _, _.
Qed.

Lemma feed_choice_returns choice : choice_fine choice = true -> returns (feed_choice v choice).
Proof.
  unfold choice_fine, feed_choice. destruct choice as [| | | | |items]; try done. intros [H1 H2]%andb_true_iff s. unfold mbnd.
  assert (exists r s1, feed_delta_of v (get_index items (lit "index")) items s = (Ok r, s1)) as (r & s1 & E1).
  { unfold feed_delta_of. destruct (jget items (lit "delta")) as [[]|]; try by eexists _, _. unfold mbnd. destruct (feed_delta_returns _ _ H1 s) as (d & s1 & ->). by eexists _, _. }
  rewrite E1. destruct (feed_delta_of_spec v _ _ _ _ _ E1) as (_ & _ & O1).
  destruct (feed_under_returns (field_key (get_index items (lit "index")) FLegacy) false r.1 (field_name FLegacy)) with (s := s1) as (t & s2 & ->); [|by eexists _, _].
  unfold under_fine in *. by rewrite O1.
Qed.

Definition in_fine (x : chat_in) : bool := match x with Chunk payload => chunk_fine payload | DoneSentinel => true end.

Lemma chat_returns x pl : in_fine x = true -> exists outs pl', chat_step v x pl = (Ok outs, pl').
Proof.
  destruct x as [payload|]; cbn [in_fine chat_step]; [|destruct (Rehydrate.flush_all v pl); by eexists _, _]. intros Hok.
  unfold rehydrate_chunk, mbnd, chunk_fine in *. destruct (jget payload (lit "choices")) as [[| | | |l|]|]; try done; cbn [lift iterated].
  - unfold lift. destruct (mapM_returns (feed_choice v) _ l feed_choice_returns Hok pl) as (fed & s1 & ->). destruct (flush_finished v _ s1). by eexists _, _.
  - unfold mret at 1. cbn [mapM]. unfold mret at 1. destruct (flush_finished v _ pl). by eexists _, _.
Qed.

Lemma chats_return ps : Forall (fun x => in_fine x = true) ps -> forall pl, exists outs pl', run_stream (chat_step v) ps pl = (Ok outs, pl').
Proof.
  induction 1 as [|p ps Hp _ IH]; intros pl; cbn [run_stream]; [by eauto|]. destruct (chat_returns p pl Hp) as (o & pl1 & ->). destruct (IH pl1) as (more & pl2 & ->). by eauto.
Qed.
End Returns.

(** ** A channel's whole life *)
Section Properties.
Context {V : Type} `{VaultLaws V} (v : V).

Lemma chat_channel_restores key ps last fuzzy : vinv v ->
  Forall (fun x => in_fine x = true) (ps ++ [last]) -> Forall (fun x => in_tidy x = true) (ps ++ [last]) ->
  Forall (fun x => in_ends key x = false) ps -> in_ends key last = true ->
  let text := concat (says (in_said key) ps) in let source := chat_source key in
  stream_safe fuzzy v source (if source then norm text else text) = true ->
  exists outs pl', run_stream (chat_step v) (ps ++ [last]) (mk_pool fuzzy [] ∅) = (Ok outs, pl') /\
    concat (says (in_said key) outs) = ((if source then rehydrate_json_source_text else rehydrate_text) fuzzy v ∅ text).1 /\ pool_find key pl' = None.
Proof.
  intros Hv Hok Htidy Hends Hlast text source Hsafe. destruct (chats_return v _ Hok (mk_pool fuzzy [] ∅)) as (outs & pl' & Hrun). exists outs, pl'. split; [done|].
  assert (Hnew : cpool_ok (mk_pool fuzzy [] ∅)) by (split; [by constructor|by intros k ?%not_elem_of_nil]).
  destruct (channel_life_on v _ _ _ _ _ _ _ (chat_channel v key) ps last _ outs pl' Hnew Htidy Hends Hlast eq_refl Hrun) as [-> Hend]. split; [|done].
  fold source. apply stream_safe_ok in Hsafe; [|done]. destruct source; [by rewrite stream_source|by rewrite stream_pieces].
Qed.

(** C5: A redacted text that a chat model repeats in the chunks of one choice (as its
    content, a reasoning field or the legacy text) comes back to the client as the
    original text: however the chunks cut it, whatever other choices, fields and tool
    calls speak between them, with several choices in one chunk, and whether the choice's
    own finishing chunk or the end of the stream closes the channel.  The vault may have
    grown meanwhile, and no chunk of the shape the API sends raises.  Assumed: the original
    carries no opening guillemet, and every chunk is tidy ([in_tidy]): it speaks at most
    once on a channel, and says nothing more on one it finishes -- a finishing chunk that
    also speaks is delivered out of order ([finished_out_of_order]). *)
Theorem echoed_chat_restored {O} `{OverrideOps O} rd original (s : rstate V O) redacted s' index field ps last fuzzy :
  detector_ok rd -> vinv (vault s) -> mem_char LAQUO original = false ->
  redact_text rd original s = (Ok redacted, s') -> extends (vault s') v ->
  let key := Field index field in
  Forall (fun x => in_fine x = true) (ps ++ [last]) -> Forall (fun x => in_tidy x = true) (ps ++ [last]) ->
  Forall (fun x => in_ends key x = false) ps -> in_ends key last = true ->
  concat (says (in_said key) ps) = redacted ->
  exists outs pl', run_stream (chat_step v) (ps ++ [last]) (mk_pool fuzzy [] ∅) = (Ok outs, pl') /\
    concat (says (in_said key) outs) = original /\ pool_find key pl' = None.
Proof.
  intros Hdk Hv Hp Hred Hext key Hok Htidy Hends Hlast Htext. destruct (chats_return v _ Hok (mk_pool fuzzy [] ∅)) as (outs & pl' & Hrun). exists outs, pl'. split; [done|].
  assert (Hnew : cpool_ok (mk_pool fuzzy [] ∅)) by (split; [by constructor|by intros k ?%not_elem_of_nil]).
  destruct (channel_life_on v _ _ _ _ _ _ _ (chat_channel v key) ps last _ outs pl' Hnew Htidy Hends Hlast eq_refl Hrun) as [-> Hend]. split; [|done].
  destruct (redacted_restores rd fuzzy original s redacted s' v Hdk Hv Hp Hred Hext) as [Hsafe Hr]. cbn [chat_source key].
  rewrite stream_pieces, Htext by by rewrite Htext. apply Hr.
Qed.
End Properties.

(** *** Two choices in turn and at once, a tool call between *)
Definition demo_choice (index : string) (delta : dict) (finish : json) : json :=
  JDict [(lit "index", JNum (lit index)); (lit "delta", JDict delta); (lit "finish_reason", finish)].
Definition demo_chunk (choices : list json) : dict := [(lit "id", JStr (lit "c-1")); (lit "choices", JList choices)].

Definition chat_tool (arguments : pystr) : dict :=
  [(lit "tool_calls", JList [JDict [(lit "index", JNum (lit "0")); (lit "function", JDict [(lit "arguments", JStr arguments)])]])].

Definition demo_chat : list chat_in :=
  [Chunk (demo_chunk [demo_choice "0" [(lit "content", JStr (take 6 demo_redacted))] JNull; demo_choice "1" [(lit "content", JStr (lit "no"))] JNull]);
   Chunk (demo_chunk [demo_choice "0" (chat_tool (lit "{}")) JNull]);
   Chunk (demo_chunk [demo_choice "1" [] (JStr (lit "stop")); demo_choice "0" [(lit "content", JStr (drop 6 demo_redacted))] JNull])].

Definition demo_stop_chunk : chat_in := Chunk (demo_chunk [demo_choice "0" [] (JStr (lit "stop"))]).

Lemma echoed_chat_restored_witness :
  exists outs pl', run_stream (chat_step (vault (redact_text demo_redactor demo_text demo_state).2)) (demo_chat ++ [demo_stop_chunk]) (mk_pool false [] ∅) = (Ok outs, pl') /\
    concat (says (in_said (Field (HNum 0 0) FContent)) outs) = demo_text.
Proof.
  destruct (echoed_chat_restored (vault (redact_text demo_redactor demo_text demo_state).2) demo_redactor demo_text demo_state demo_redacted
    (redact_text demo_redactor demo_text demo_state).2 (HNum 0 0) FContent demo_chat demo_stop_chunk false) as (outs & pl' & Hrun & Ht & _).
  - apply demo_redactor_ok.
  - apply InMemoryVault.empty_inv.
  - vm_compute. reflexivity.
  - vm_compute. reflexivity.
  - intros t o Ho. exact Ho.
  - repeat (constructor; [vm_compute; reflexivity|]). constructor.
  - repeat (constructor; [vm_compute; reflexivity|]). constructor.
  - repeat (constructor; [vm_compute; reflexivity|]). constructor.
  - vm_compute. reflexivity.
  - vm_compute. reflexivity.
  - exists outs, pl'. split; [exact Hrun|exact Ht].
Defined.

(** Where a chunk both speaks on a channel and finishes it, what was held back comes out
    before the chunk's own text: [«EM] here, although the text said [x «EM]. *)
Example finished_out_of_order : says (in_said (Field (HNum 0 0) FContent))
  (match (chat_step demo_vault (Chunk (demo_chunk [demo_choice "0" [(lit "content", JStr (lit "x " ++ take 3 demo_token))] (JStr (lit "length"))])) (mk_pool false [] ∅)).1 with
   | Ok outs => outs | Raise _ => [] end) = [take 3 demo_token; lit "x "].
Proof. vm_compute. reflexivity. Qed.

(** A chunk whose choices are null raises. *)
Example null_choices_raise : (chat_step demo_vault (Chunk [(lit "choices", JNull)]) (mk_pool false [] ∅)).1 = Raise TypeError.
Proof. reflexivity. Qed.
