(* ===== verification/UploadContent.v ===== *)
(** * What an uploaded file is -- src/llm_redact/upload_content.py

    The one reading of a file's bytes that the redaction of an upload and the restoration of
    its download share: JSON lines, text in one of five encodings, or binary.  The parser of
    a line's bytes is a parameter. *)

From S2P Require Import Prelude Bytes Json JsonWalk.

(** ** The codecs of the standard library a file is decoded with *)
Inductive codec : Type := UTF8 | UTF16 (big : bool) | UTF32 (big : bool).
#[export] Instance codec_eq_dec : EqDecision codec.
Proof. solve_decision. Defined.

(** A 16-bit unit or a 32-bit code in either byte order. *)
Definition word (big : bool) (hi lo : Z) : Z := if big then hi * 256 + lo else lo * 256 + hi.
Definition unword (big : bool) (u : Z) : pybytes := if big then [u / 256; u mod 256] else [u mod 256; u / 256].

Fixpoint units (big : bool) (s : pybytes) : option (list Z) :=
  match s with
  | [] => Some []
  | a :: b :: r => u ← units big r; Some (word big a b :: u)
  | _ => None
  end.

Definition high_unit (u : Z) : bool := between 55296 56319 u.
Definition low_unit (u : Z) : bool := between 56320 57343 u.

(** The characters of 16-bit units: a high surrogate and the low one behind it are one,
    a lone surrogate is an error. *)
Fixpoint of_units (us : list Z) : option pystr :=
  match us with
  | [] => Some []
  | u :: r =>
      if high_unit u then
        match r with
        | l :: r => if low_unit l then t ← of_units r; Some (65536 + (u - 55296) * 1024 + (l - 56320) :: t) else None
        | [] => None
        end
      else if low_unit u then None
      else t ← of_units r; Some (u :: t)
  end.

(** None: a surrogate, or no code point. *)
Definition units_of_char (c : Z) : option (list Z) :=
  if negb (between 0 1114111 c) || between 55296 57343 c then None
  else if c <? 65536 then Some [c]
  else Some [55296 + (c - 65536) / 1024; 56320 + (c - 65536) mod 1024].

Fixpoint units_of (t : pystr) : option (list Z) :=
  match t with [] => Some [] | c :: t => u ← units_of_char c; r ← units_of t; Some (u ++ r) end.

Fixpoint quads (big : bool) (s : pybytes) : option pystr :=
  match s with
  | [] => Some []
  | a :: b :: c :: d :: r =>
      let x := word big a b in let y := word big c d in
      let code := if big then x * 65536 + y else y * 65536 + x in
      if negb (between 0 1114111 code) || between 55296 57343 code then None else t ← quads big r; Some (code :: t)
  | _ => None
  end.

Fixpoint unquads (big : bool) (t : pystr) : option pybytes :=
  match t with
  | [] => Some []
  | c :: t =>
      if negb (between 0 1114111 c) || between 55296 57343 c then None
      else r ← unquads big t; Some ((if big then unword big (c / 65536) ++ unword big (c mod 65536) else unword big (c mod 65536) ++ unword big (c / 65536)) ++ r)
  end.

Definition decode (c : codec) (s : pybytes) : option pystr :=
  match c with UTF8 => utf8_decode s | UTF16 big => units big s ≫= of_units | UTF32 big => quads big s end.

Definition encode (c : codec) (t : pystr) : option pybytes :=
  match c with UTF8 => utf8_encode t | UTF16 big => u ← units_of t; Some (flat_map (unword big) u) | UTF32 big => unquads big t end.

(** ** Signatures and byte-order marks *)
Definition SIGNATURES : list pybytes :=
  [lit "%PDF-"; lit "PK" ++ [3; 4]; lit "PK" ++ [5; 6]; lit "Rar!" ++ [26; 7]; [26; 69; 223; 163]; 127 :: lit "ELF"].

Definition BOMS : list (pybytes * codec) :=
  [([239; 187; 191], UTF8); ([255; 254; 0; 0], UTF32 false); ([0; 0; 254; 255], UTF32 true); ([255; 254], UTF16 false); ([254; 255], UTF16 true)].

(** ** [FileContent] *)
Inductive FileKind : Type := KJsonl | KText.
#[export] Instance FileKind_eq_dec : EqDecision FileKind.
Proof. solve_decision. Defined.

(** A file that is text; a binary one is None. *)
Record FileContent : Type := mk_content { kind : FileKind; text : pystr; file_codec : codec; bom : pybytes }.

(** [FileContent.encode]; None: [UnicodeEncodeError]. *)
Definition file_encode (f : FileContent) (t : pystr) : option pybytes := b ← encode (file_codec f) t; Some (bom f ++ b).

Definition bom_of (content : pybytes) : pybytes * codec :=
  default ([], UTF8) (List.find (fun mark => starts_with mark.1 content) BOMS).

Definition decode_text (content : pybytes) : option FileContent :=
  if existsb (fun s => starts_with s content) SIGNATURES then None
  else
    let (bom, c) := bom_of content in
    t ← decode c (drop (length bom) content);
    if mem_char 0 t then None else Some (mk_content KText t c bom).

(** ** JSON lines *)
Definition ascii_blank (c : Z) : bool := between 9 13 c || (c =? 32).

Definition blank_line (line : pybytes) : bool := forallb ascii_blank line.

Section Lines.
Context (read_line : pybytes -> document).

(** [json.loads] of the line is a dict; nesting past the parser counts as one. *)
Definition is_object_line (line : pybytes) : bool :=
  match read_line line with DocTree (JDict _) | DocRecursion => true | _ => false end.

(** [_FIRST_NON_BLANK_LINE] *)
Definition first_non_blank_line (content : pybytes) : option pybytes := List.find (fun l => negb (blank_line l)) (split_char 10 content).

(** The lines the per-line check is charged for, and its answer. *)
Definition is_jsonl (content : pybytes) : option Z * bool :=
  match first_non_blank_line content with
  | Some first =>
      if is_object_line first then
        (Some (zlen (List.filter (Z.eqb 10) content) + 1), forallb is_object_line (List.filter (fun l => negb (blank_line l)) (split_char 10 content)))
      else (None, false)
  | None => (None, false)
  end.

(** [classify_file]: what is charged, and the file. *)
Definition classify_file (content : pybytes) : option Z * option FileContent :=
  match decode_text content with
  | None => (None, None)
  | Some f =>
      if bool_decide (file_codec f = UTF8) then
        let (charged, jsonl) := is_jsonl content in
        (charged, Some (if jsonl then mk_content KJsonl (text f) (file_codec f) (bom f) else f))
      else (None, Some f)
  end.
End Lines.
