(* ===== verification/UploadContentFacts.v ===== *)
(** * What is written as it was read: the encodings of an uploaded file *)

From Stdlib Require Import List Wf_nat.
From S2P Require Import Prelude Bytes Json JsonWalk UploadContent.

Abbreviation bytes s := (Forall (fun b => 0 <= b < 256) s).

(** ** 16-bit words *)
Lemma unword_word big a b : 0 <= a < 256 -> 0 <= b < 256 -> unword big (word big a b) = [a; b].
Proof.
  intros Ha Hb. assert (H : forall x y, 0 <= x < 256 -> 0 <= y < 256 -> (x * 256 + y) / 256 = x /\ (x * 256 + y) mod 256 = y).
  { intros x y Hx Hy. split; [rewrite Z.add_comm, Z.div_add, Z.div_small by lia; lia|rewrite Z.add_comm, Z.mod_add, Z.mod_small by lia; lia]. }
  unfold unword, word. destruct big; [destruct (H a b Ha Hb) as [-> ->]|destruct (H b a Hb Ha) as [-> ->]]; done.
Qed.

Lemma word_range big a b : 0 <= a < 256 -> 0 <= b < 256 -> 0 <= word big a b < 65536.
Proof. unfold word. destruct big; lia. Qed.

Lemma unword_spec big u : 0 <= u < 65536 -> exists a b, unword big u = [a; b] /\ word big a b = u /\ 0 <= a < 256 /\ 0 <= b < 256.
Proof.
  intros Hu. assert (0 <= u / 256 < 256 /\ 0 <= u mod 256 < 256 /\ u = u / 256 * 256 + u mod 256) as (H1 & H2 & H3).
  { pose proof (Z.div_mod u 256 ltac:(lia)). pose proof (Z.mod_pos_bound u 256 ltac:(lia)). lia. }
  unfold unword, word. destruct big; eexists _, _; split_and!; try done; lia.
Qed.

Lemma units_unwords big : forall s u, bytes s -> units big s = Some u -> flat_map (unword big) u = s /\ Forall (fun x => 0 <= x < 65536) u.
Proof.
  fix IH 1. intros [|a [|b r]] u Hs; cbn [units]; [by intros [= <-]|done|]. intros (u' & Hu & [= <-])%bind_Some.
  apply list.Forall_cons_1 in Hs as [Ha Hs]. apply list.Forall_cons_1 in Hs as [Hb Hs]. destruct (IH r u' Hs Hu) as [Hr Hw]. cbn [flat_map]. rewrite unword_word, Hr by done.
  split; [done|]. constructor; [by apply word_range|done].
Qed.

Lemma unwords_units big u : Forall (fun x => 0 <= x < 65536) u -> units big (flat_map (unword big) u) = Some u.
Proof.
  induction 1 as [|x u Hx _ IH]; [done|]. cbn [flat_map]. destruct (unword_spec big x Hx) as (a & b & -> & Hw & _). cbn [app units]. rewrite IH. cbn. by rewrite Hw.
Qed.

(** ** Characters of units *)
Lemma units_of_char_inv c us : units_of_char c = Some us ->
  (us = [c] /\ 0 <= c < 65536 /\ high_unit c = false /\ low_unit c = false) \/
  (exists h l, us = [h; l] /\ high_unit h = true /\ low_unit l = true /\ c = 65536 + (h - 55296) * 1024 + (l - 56320) /\ 0 <= h < 65536 /\ 0 <= l < 65536).
Proof.
  unfold units_of_char, high_unit, low_unit. destruct (negb (between 0 1114111 c) || between 55296 57343 c) eqn:E; [done|].
  apply orb_false_iff in E as [H1%negb_false_iff%between_spec H2%between_false]. case_match eqn:E; intros [= <-].
  - left. apply Z.ltb_lt in E. split_and!; [done|lia|lia|..]; apply between_false; lia.
  - right. apply Z.ltb_ge in E. pose proof (Z.div_mod (c - 65536) 1024 ltac:(lia)). pose proof (Z.mod_pos_bound (c - 65536) 1024 ltac:(lia)).
    eexists _, _. split; [done|]. rewrite !between_spec. lia.
Qed.

Lemma units_of_decode t : forall us, units_of t = Some us -> of_units us = Some t /\ Forall (fun x => 0 <= x < 65536) us.
Proof.
  induction t as [|c t IH]; intros us; cbn [units_of]; [by intros [= <-]|]. intros (u & Hu & (r & Hr & [= <-])%bind_Some)%bind_Some. destruct (IH r Hr) as [Hd Hf].
  apply units_of_char_inv in Hu as [(-> & Hc & Hh & Hl)|(h & l & -> & Hh & Hl & -> & H1 & H2)]; cbn [app of_units]; rewrite Hh, ?Hl, Hd; (split; [done|]); repeat (apply list.Forall_cons; split; [done|]); done.
Qed.

Lemma of_units_encode : forall us t, Forall (fun x => 0 <= x < 65536) us -> of_units us = Some t -> units_of t = Some us.
Proof.
  fix IH 1. intros [|u r] t Hf; cbn [of_units]; [by intros [= <-]|]. apply list.Forall_cons_1 in Hf as [Hu Hf]. unfold high_unit, low_unit. destruct (between 55296 56319 u) eqn:Eh.
  - destruct r as [|l r]; [done|]. destruct (between 56320 57343 l) eqn:El; [|done]. intros (t' & Ht & [= <-])%bind_Some. apply list.Forall_cons_1 in Hf as [Hl Hf].
    cbn [units_of]. rewrite (IH r t' Hf Ht). apply between_spec in Eh, El. unfold units_of_char.
    assert (negb (between 0 1114111 (65536 + (u - 55296) * 1024 + (l - 56320))) || between 55296 57343 (65536 + (u - 55296) * 1024 + (l - 56320)) = false) as ->.
    { apply orb_false_iff. rewrite negb_false_iff, between_spec, between_false. lia. }
    rewrite (proj2 (Z.ltb_ge _ _)) by lia. cbn. repeat f_equal.
    + replace (65536 + (u - 55296) * 1024 + (l - 56320) - 65536) with ((l - 56320) + (u - 55296) * 1024) by lia. rewrite Z.div_add, Z.div_small by lia. lia.
    + replace (65536 + (u - 55296) * 1024 + (l - 56320) - 65536) with ((l - 56320) + (u - 55296) * 1024) by lia. rewrite Z.mod_add, Z.mod_small by lia. lia.
  - destruct (between 56320 57343 u) eqn:El; [done|]. intros (t' & Ht & [= <-])%bind_Some. cbn [units_of]. rewrite (IH r t' Hf Ht). unfold units_of_char.
    apply between_false in Eh, El. assert (negb (between 0 1114111 u) || between 55296 57343 u = false) as ->.
    { apply orb_false_iff. rewrite negb_false_iff, between_spec, between_false. lia. }
    by rewrite (proj2 (Z.ltb_lt _ _)) by lia.
Qed.

(** ** 32-bit codes *)
Lemma quads_encode big : forall s t, bytes s -> quads big s = Some t -> unquads big t = Some s.
Proof.
  intros s. induction s as [s IH] using (induction_ltof1 _ (@length Z)). destruct s as [|a [|b [|c [|d r]]]]; intros t Hs; cbn [quads]; [intros [= <-]; reflexivity|discriminate..|]. cbv zeta.
  apply list.Forall_cons_1 in Hs as [Ha Hs]. apply list.Forall_cons_1 in Hs as [Hb Hs]. apply list.Forall_cons_1 in Hs as [Hc Hs]. apply list.Forall_cons_1 in Hs as [Hd Hs].
  pose proof (word_range big a b Ha Hb) as Hx. pose proof (word_range big c d Hc Hd) as Hy. pose proof (unword_word big a b Ha Hb) as Ux. pose proof (unword_word big c d Hc Hd) as Uy.
  set (x := word big a b) in *. set (y := word big c d) in *. set (code := if big then x * 65536 + y else y * 65536 + x).
  destruct (negb (between 0 1114111 code) || between 55296 57343 code) eqn:E; [done|]. intros (t' & Ht & [= <-])%bind_Some. cbn [unquads]. rewrite E, (IH r ltac:(unfold ltof; cbn; lia) t' Hs Ht). cbn. f_equal.
  assert (H : forall p q, 0 <= p < 65536 -> 0 <= q < 65536 -> (p * 65536 + q) / 65536 = p /\ (p * 65536 + q) mod 65536 = q).
  { intros p q Hp Hq. split; [rewrite Z.add_comm, Z.div_add, Z.div_small by lia; lia|rewrite Z.add_comm, Z.mod_add, Z.mod_small by lia; lia]. }
  subst code. destruct big; [destruct (H x y Hx Hy) as [-> ->]|destruct (H y x Hy Hx) as [-> ->]]; by rewrite Ux, Uy.
Qed.

Lemma unquads_decode big t : forall s, unquads big t = Some s -> quads big s = Some t.
Proof.
  induction t as [|c t IH]; intros s; cbn [unquads]; [by intros [= <-]|]. destruct (negb (between 0 1114111 c) || between 55296 57343 c) eqn:E; [done|].
  intros (r & Hr & [= <-])%bind_Some. pose proof E as [H1%negb_false_iff%between_spec _]%orb_false_iff.
  assert (0 <= c / 65536 < 65536 /\ 0 <= c mod 65536 < 65536 /\ c = c / 65536 * 65536 + c mod 65536) as (H2 & H3 & H4).
  { pose proof (Z.div_mod c 65536 ltac:(lia)). pose proof (Z.mod_pos_bound c 65536 ltac:(lia)). lia. }
  destruct (unword_spec big _ H2) as (a & b & Ux & Wx & _), (unword_spec big _ H3) as (a' & b' & Uy & Wy & _). rewrite Ux, Uy.
  destruct big; cbn [app quads]; rewrite Wx, Wy, <- H4, E, (IH r Hr); done.
Qed.

(** ** The codecs *)
Lemma encode_decode c s t : bytes s -> decode c s = Some t -> encode c t = Some s.
Proof.
  destruct c as [|big|big]; cbn [decode encode]; intros Hs.
  - apply utf8_encode_decode.
  - intros (us & Hu & Ht)%bind_Some. destruct (units_unwords big s us Hs Hu) as [Hf Hr]. rewrite (of_units_encode us t Hr Ht). cbn. by rewrite Hf.
  - by apply quads_encode.
Qed.

Lemma decode_encode c s t : encode c t = Some s -> decode c s = Some t.
Proof.
  destruct c as [|big|big]; cbn [decode encode].
  - apply utf8_decode_encode.
  - intros (us & Hu & [= <-])%bind_Some. destruct (units_of_decode t us Hu) as [Ht Hr]. by rewrite (unwords_units big us Hr).
  - apply unquads_decode.
Qed.

(** ** Files *)
Lemma bom_of_spec content : let (bom, c) := bom_of content in bom ++ drop (length bom) content = content.
Proof.
  unfold bom_of. destruct (List.find _ BOMS) as [[bom c]|] eqn:E; [|done]. cbn [default from_option]. unfold id.
  apply find_some in E as [_ Hs]. cbn [fst] in Hs. apply starts_with_spec in Hs as [r ->]. by rewrite drop_app_length.
Qed.

Lemma file_unchanged content f : bytes content -> decode_text content = Some f -> file_encode f (text f) = Some content.
Proof.
  unfold decode_text. destruct (existsb _ SIGNATURES); [done|]. pose proof (bom_of_spec content) as Hb. destruct (bom_of content) as [bom c]. intros Hc (t & Ht & Hm)%bind_Some.
  destruct (mem_char 0 t); [done|]. injection Hm as <-. unfold file_encode. cbn [file_codec text UploadContent.bom].
  rewrite (encode_decode c (drop (length bom) content) t); [cbn; by rewrite Hb| |done]. by apply Forall_drop.
Qed.
