(* ===== verification/Uploads.v ===== *)
(** * Uploaded files, out and back -- src/llm_redact/providers/openai.py

    The multipart upload of the Files API read once and redacted part by part (form fields,
    JSON lines, text files, binary files), what the process remembers of the text files it
    sent, and the restoration of a download.  The JSON encoder and parser of the standard
    library, and the digest of what is remembered, are parameters. *)

From S2P Require Import Prelude Bytes PyRegex Json JsonWalk JsonFacts JsonText Placeholders Vault Rehydrate Detection Redactor Adapters Anthropic Multipart UploadContent.

Local Open Scope mon_scope.

(** What ends an upload: the redactor's refusals, [UnredactableRequest],
    [UnscannedBinaryFile], and a text that cannot be written in the part's encoding. *)
Inductive upload_error : Type :=
| ByRedactor (r : refusal)
| UnredactableRequest (reason : pystr)
| UnscannedBinaryFile
| Unencodable.

Definition AMBIGUOUS : pystr := lit "a multipart part header cannot be parsed unambiguously".
Definition FIELD_NOT_TEXT : pystr := lit "a multipart form field is not UTF-8 text llm-redact can redact".
Definition LINE_NOT_OBJECT : pystr := lit "an uploaded JSONL line is not a JSON object llm-redact can redact".
Definition TRANSFER_ENCODED : pystr := lit "a multipart part declares a Content-Transfer-Encoding llm-redact does not decode".
Definition CHARSET : pystr := lit "a multipart part declares a charset llm-redact does not decode".
Definition OUTSIDE_PARTS : pystr := lit "the multipart body carries a preamble or epilogue llm-redact does not redact".

(** ** Where an upload's lines are requests *)

(** [_CONTAINER_FILES_RE] searched: [/containers/{id}/files] at the end, or before a last
    line feed ([$]). *)
Definition container_files_at_end (path : pystr) : bool :=
  match rev (split_char 47 path) with
  | last :: id :: under :: _ :: _ =>
      bool_decide (last = lit "files" \/ last = lit "files" ++ [10]) && negb (bool_decide (id = [])) && bool_decide (under = lit "containers")
  | _ => false
  end.

(** [_REQUEST_LINE_KEYS] *)
Definition REQUEST_LINE_KEYS (purpose : pystr) : gset pystr :=
  if bool_decide (purpose = lit "batch") then {[lit "body"]}
  else if bool_decide (purpose = lit "fine-tune") then
    list_to_set (map lit ["messages"; "tools"; "functions"; "parallel_tool_calls"; "input"; "preferred_output"; "non_preferred_output"]%string)
  else ∅.

(** The distinct contents of the [purpose] form fields. *)
Definition purposes (parsed : Multipart) : list pybytes :=
  from_keys (map content (List.filter (fun p => bool_decide (name p = Some (lit "purpose")) && bool_decide (filename p = None)) (parts parsed))).

Definition request_line_keys (path : pystr) (parsed : Multipart) : gset pystr :=
  if container_files_at_end path then ∅
  else match purposes parsed with [p] => REQUEST_LINE_KEYS p | _ => ∅ end.

(** ** Reading the parts *)
Inductive reading : Type := RJsonl (f : FileContent) | RDocument (f : FileContent) | RBinary | RText | RMedia | RField | RConverted.

Definition PROMPT_FIELD_PATH_SUFFIXES : list pystr := [lit "/images/edits"; lit "/videos"].

Definition STRUCTURAL_FORM_FIELDS : list pystr := map lit
  ["_charset_"; "background"; "expires_after[anchor]"; "expires_after[seconds]"; "input_fidelity"; "model"; "moderation"; "n"; "output_compression";
   "output_format"; "partial_images"; "purpose"; "quality"; "response_format"; "seconds"; "size"; "stream"]%string.

(** [_part_kind]: None stands for "file". *)
Definition part_kind (part : MultipartPart) (media require_scanned : bool) : option reading :=
  if media && bool_decide (name part = Some (lit "prompt")) then Some RText
  else match filename part with
       | Some _ => if media then Some RMedia else None
       | None => if require_scanned || negb (match name part with Some n => bool_decide (n ∈ STRUCTURAL_FORM_FIELDS) | None => false end) then Some RText else Some RField
       end.

Definition reading_text (r : reading) : option pystr := match r with RDocument f => Some (text f) | _ => None end.
Definition scanned_kind (r : reading) : bool := match r with RMedia | RBinary => false | _ => true end.
Definition reading_codec (r : reading) : codec := match r with RJsonl f | RDocument f => file_codec f | _ => UTF8 end.

(** ** What the strict reading refuses of a part's headers *)
Definition header_block_found (part : MultipartPart) : bool :=
  match headers part with Some _ => true | None => match content part with [] => true | c => starts_with CRLF c end end.

Definition PLAIN_TRANSFER_ENCODINGS : list pybytes := [lit "7bit"; lit "8bit"; lit "binary"].

Definition DECLARABLE_CHARSETS (c : codec) : list pystr :=
  match c with
  | UTF8 => [lit "utf-8"; lit "us-ascii"]
  | UTF16 false => [lit "utf-16"; lit "utf-16le"]
  | UTF16 true => [lit "utf-16"; lit "utf-16be"]
  | UTF32 false => [lit "utf-32"; lit "utf-32le"]
  | UTF32 true => [lit "utf-32"; lit "utf-32be"]
  end.

(** [_require_plain_encoding]; an ambiguous header ends in [UnredactableRequest] too. *)
Definition require_plain_encoding (str_lower : pystr -> pystr) (part : MultipartPart) (scanned : bool) (c : codec) : option upload_error :=
  match header (E := Empty_set) part (lit "content-transfer-encoding") with
  | Raise _ => Some (UnredactableRequest AMBIGUOUS)
  | Ok encoding =>
      if match encoding with Some e => negb (bool_decide (map ascii_lower e ∈ PLAIN_TRANSFER_ENCODINGS)) | None => false end
      then Some (UnredactableRequest TRANSFER_ENCODED)
      else if negb scanned then None
      else match params (E := Empty_set) part (lit "content-type") with
           | Raise _ => Some (UnredactableRequest AMBIGUOUS)
           | Ok ps =>
               let declared := (match get_param (default [] ps) (lit "charset") with Some p => [value p] | None => [] end) ++
                 (if bool_decide (name part = Some (lit "_charset_")) then [strip (content part)] else []) in
               if existsb (fun n => negb (bool_decide (str_lower n ∈ DECLARABLE_CHARSETS c))) declared then Some (UnredactableRequest CHARSET) else None
           end
  end.

(** ** A converted file: its name, its headers *)
Definition rpartition_dot (name : pystr) : option (pystr * pystr) :=
  match find_char 46 (rev name) with Some n => Some (rev (drop (S n) (rev name)), rev (take n (rev name))) | None => None end.

Definition text_file_name (name : pystr) : pystr :=
  match rpartition_dot name with
  | Some (stem, extension) =>
      if existsb (fun c => negb (c =? 46)) stem && negb (mem_char 47 extension) && negb (mem_char 92 extension) then stem ++ lit ".txt" else name ++ lit ".txt"
  | None => name ++ lit ".txt"
  end.

Definition with_content_type (hs line : pybytes) : pybytes :=
  let entries := match hs with [] => [] | _ => split_sub CRLF hs end in
  Prelude.join CRLF (List.filter (fun e => negb (bool_decide (map ascii_lower (strip_if ascii_space (partition1 58 e).1.1) ∈ [lit "content-type"; lit "content-length"]))) entries ++ [line]).

Definition TEXT_PLAIN : pybytes := lit "Content-Type: text/plain; charset=utf-8".

(** ** Redacting an upload *)
Section Upload.
Context {V O : Type} `{VaultOps V} `{OverrideOps O} (rd : redactor).
Context (str_lower : pystr -> pystr) (read_line : pybytes -> document) (encode_json : json -> pystr).

Abbreviation U := (M (rstate V O) upload_error).

Definition by_redactor {A} (m : M (rstate V O) refusal A) : U A := fun s =>
  match m s with (Ok a, s) => (Ok a, s) | (Raise e, s) => (Raise (ByRedactor e), s) end.

Definition written (b : option pybytes) : U pybytes := match b with Some b => mret b | None => mraise Unencodable end.

(** [redact_filenames] with the text function [fn]; an ambiguous header ends in
    [UnredactableRequest], whose message (one of two) is not told apart. *)
Definition redact_names (fn : pystr -> U pystr) (part : MultipartPart) (strict : bool) : U (bool * MultipartPart) := fun s =>
  match redact_filenames fn part strict s with
  | (Ok r, s) => (Ok r, s)
  | (Raise AmbiguousHeaders, s) => (Raise (UnredactableRequest AMBIGUOUS), s)
  | (Raise EncodeError, s) => (Raise Unencodable, s)
  | (Raise (RedactError e), s) => (Raise e, s)
  end.

Definition redact_text_of (text : pystr) : U pystr := by_redactor (redact_text rd text).

(** [_parse_request_line]: the object, and whether an object in it repeats a key. *)
Definition parse_request_line (line : pybytes) : option (list (pystr * json) * bool) :=
  match strip_if ascii_blank line with
  | [] => None
  | stripped => match loads_request (read_line stripped) with Ok (JDict items, duplicate_keys) => Some (items, duplicate_keys) | _ => None end
  end.

(** [_redact_line] with the text function [fn]. *)
Definition redact_value {St E} (fn : pystr -> M St E pystr) (request_keys : gset pystr) (passthrough : bool) (kv : pystr * json) : M St E (pystr * json) :=
  if bool_decide (kv.1 ∈ request_keys) then
    r <~ transform_strings fn STRUCTURAL_KEYS (fun _ => None) passthrough (JDict [kv]);;
    mret (kv.1, match r with JDict items => jget_null items kv.1 | _ => JNull end)
  else x <~ transform_all_strings fn kv.2;; mret (kv.1, x).

Definition redact_line {St E} (fn : pystr -> M St E pystr) (request_keys : gset pystr) (passthrough : bool) : list (pystr * json) -> M St E (list (pystr * json)) :=
  mapM (redact_value fn request_keys passthrough).

(** [OpenAIAdapter.inject_system_note] *)
Definition inject_messages (body : list (pystr * json)) : list (pystr * json) :=
  let messages := match jget body (lit "messages") with Some (JList l) => l | _ => [] end in
  jset body (lit "messages") (JList (JDict [(lit "role", JStr (lit "system")); (lit "content", JStr SYSTEM_NOTE)] :: messages)).

Definition has_messages (body : list (pystr * json)) : bool := match jget body (lit "messages") with Some (JList _) => true | _ => false end.

(** The note in a line that is a request: its body's, or its own. *)
Definition note_line (request_keys : gset pystr) (redacted : list (pystr * json)) : list (pystr * json) :=
  let own := if bool_decide (lit "messages" ∈ request_keys) && has_messages redacted then inject_messages redacted else redacted in
  match jget redacted (lit "body") with
  | Some (JDict body) => if bool_decide (lit "body" ∈ request_keys) && has_messages body then jset redacted (lit "body") (JDict (inject_messages body)) else own
  | _ => own
  end.

(** A line of [_redact_jsonl]. *)
Definition redact_jsonl_line (request_keys : gset pystr) (inject_note require_scanned : bool) (line : pybytes) : U pybytes :=
  match parse_request_line line with
  | None => if require_scanned && negb (blank_line line) then mraise (UnredactableRequest LINE_NOT_OBJECT) else mret line
  | Some (obj, duplicate_keys) =>
      redacted <~ redact_line redact_text_of request_keys (encrypted_content_passthrough rd) obj;;
      let changed := negb (bool_decide (redacted = obj)) in
      if negb changed && negb duplicate_keys then mret line
      else written (json_bytes encode_json (JDict (if inject_note && changed then note_line request_keys redacted else redacted)))
  end.

Definition redact_jsonl (request_keys : gset pystr) (inject_note require_scanned : bool) (data : pybytes) : U pybytes :=
  lines <~ mapM (redact_jsonl_line request_keys inject_note require_scanned) (split_char 10 data);; mret (Prelude.join [10] lines).

(** [_redact_text_part]: the new content where it changed. *)
Definition redact_text_part (require_scanned : bool) (data : pybytes) : U (option pybytes) :=
  match utf8_decode data with
  | None => if require_scanned then mraise (UnredactableRequest FIELD_NOT_TEXT) else mret None
  | Some t =>
      redacted <~ redact_text_of t;;
      if bool_decide (redacted = t) then mret None else b <~ written (utf8_encode redacted);; mret (Some b)
  end.

(** A text file, as one text. *)
Definition redact_document (f : FileContent) : U (option pybytes) :=
  redacted <~ redact_text_of (text f);;
  if bool_decide (redacted = text f) then mret None else b <~ written (file_encode f redacted);; mret (Some b).

(** What the loop makes of a part: the part, whether its bytes or names changed, and
    whether its content was assigned. *)
Record part_out : Type := mk_out { d_part : MultipartPart; d_changed : bool; d_assigned : bool }.

Definition redacted_content (request_keys : gset pystr) (inject_note require_scanned forward_binary : bool) (data : pybytes) (r : reading) : U (option pybytes) :=
  match r with
  | RJsonl _ => new <~ redact_jsonl request_keys inject_note require_scanned data;; mret (if bool_decide (new = data) then None else Some new)
  | RDocument f => redact_document f
  | RText => redact_text_part require_scanned data
  | RBinary => if require_scanned && negb forward_binary then mraise UnscannedBinaryFile else mret None
  | _ => mret None
  end.

(** [_redact_part] *)
Definition redact_part (request_keys : gset pystr) (inject_note require_scanned forward_binary : bool) (part : MultipartPart) (r : reading) : U part_out :=
  named <~ redact_names redact_text_of part require_scanned;;
  let (changed, part) := named in
  (if require_scanned then
     if negb (header_block_found part) then mraise (UnredactableRequest AMBIGUOUS)
     else match require_plain_encoding str_lower part (scanned_kind r) (reading_codec r) with Some e => mraise e | None => mret tt end
   else mret tt);;;
  new <~ redacted_content request_keys inject_note require_scanned forward_binary (content part) r;;
  mret (match new with
        | Some c => mk_out (mk_part (headers part) c) true true
        | None => mk_out part changed false
        end).

(** [convert_part]: the extracted text in place of the binary file. *)
Definition convert_part (part : MultipartPart) (extracted : pystr) : U part_out :=
  named <~ redact_names (fun n => new <~ redact_text_of n;; mret (text_file_name new)) part true;;
  redacted <~ redact_text_of extracted;;
  b <~ written (utf8_encode redacted);;
  mret (mk_out (mk_part (Some (with_content_type (default [] (headers named.2)) TEXT_PLAIN)) b) true true).

(** *** The floors of a whole upload: [_multipart_floors] *)
Definition observe_text (t : pystr) (fl : Placeholders.floors) : Placeholders.floors := merge_floors fl (map_to_list (token_floors t)).

Definition content_floors (fl : Placeholders.floors) (data : pybytes) (r : reading) : Placeholders.floors :=
  match r with
  | RDocument f => observe_text (text f) fl
  | RJsonl _ => fold_left (fun fl line =>
      if may_carry_tokens_bytes line then
        match parse_request_line line with
        | Some (obj, _) => merge_floors fl (map_to_list (json_floors (JDict obj)))
        | None => observe_text (utf8_replace line) fl
        end
      else fl) (split_char 10 data) fl
  | RMedia => fl
  | _ => observe_text (utf8_replace data) fl
  end.

(** Names are read leniently here, which raises nothing, and come back unchanged. *)
Definition part_floors (fl : Placeholders.floors) (pr : MultipartPart * reading) : Placeholders.floors :=
  let '(_, fl) := redact_filenames (E := Empty_set) (fun t fl => (Ok t, observe_text t fl)) pr.1 false fl in
  content_floors fl (content pr.1) pr.2.

(** *** Reading the upload *)
Definition read_part (media require_scanned : bool) (part : MultipartPart) : U reading :=
  match part_kind part media require_scanned with
  | Some r => mret r
  | None =>
      let (charged, f) := classify_file read_line (content part) in
      by_redactor (match charged with Some n => charge rd n | None => mret tt end);;;
      mret (match f with Some f => match kind f with KJsonl => RJsonl f | KText => RDocument f end | None => RBinary end)
  end.

(** [read_form_upload] of a body inside the grammar. *)
Definition read_form_upload (path : pystr) (parsed : Multipart) (require_scanned request_purposes : bool) : U (list reading * gset pystr) :=
  (if require_scanned && negb (blank_line (preamble parsed) && blank_line (epilogue parsed)) then mraise (UnredactableRequest OUTSIDE_PARTS) else mret tt);;;
  let media := existsb (fun suffix => ends_with suffix path) PROMPT_FIELD_PATH_SUFFIXES in
  readings <~ mapM (read_part media require_scanned) (parts parsed);;
  mret (readings, if request_purposes then request_line_keys path parsed else ∅).

(** *** The loop *)

(** [InspectedUpload]: the binary parts cleared through their extracted text, and the
    converted ones with theirs. *)
Context (cleared : nat -> bool) (converted : nat -> option pystr).

Definition loop_part (request_keys : gset pystr) (inject_note require_scanned forward_binary : bool) (index : nat) (part : MultipartPart) (r : reading) : U part_out :=
  match r, converted index with
  | RBinary, Some extracted => convert_part part extracted
  | _, _ => redact_part request_keys inject_note require_scanned (forward_binary || cleared index) part r
  end.

Definition loop_parts (request_keys : gset pystr) (inject_note require_scanned forward_binary : bool) (prs : list (MultipartPart * reading)) : U (list part_out) :=
  mapM (fun ipr => loop_part request_keys inject_note require_scanned forward_binary ipr.1 ipr.2.1 ipr.2.2) (zip (seq 0 (length prs)) prs).

(** How a part was sent: a converted one is a text file. *)
Definition as_sent (index : nat) (r : reading) : reading :=
  match r, converted index with RBinary, Some _ => RConverted | _, _ => r end.

(** What the upload becomes: the new body where it changed, the text files to remember,
    and the binary files that go out unscanned. *)
Record uploaded : Type := mk_uploaded { u_body : option pybytes; u_texts : list pybytes; u_binary : nat }.

Definition sent_texts (prs : list (MultipartPart * reading)) (outs : list part_out) : list pybytes :=
  omap (fun iro => match as_sent iro.1 iro.2.1.2 with
                   | RDocument _ | RConverted => if d_assigned iro.2.2 then Some (content (d_part iro.2.2)) else None
                   | _ => None
                   end) (zip (seq 0 (length prs)) (zip prs outs)).

Definition uncleared_binaries (readings : list reading) : nat :=
  length (List.filter (fun ir => match as_sent ir.1 ir.2 with RBinary => negb (cleared ir.1) | _ => false end) (zip (seq 0 (length readings)) readings)).
End Upload.

(** [redact_form_upload]: with the proxy's reading where it made one. *)
Definition redact_form_upload {V O} `{VaultOps V} `{OverrideOps O} (rd : redactor) (str_lower : pystr -> pystr) (read_line : pybytes -> document) (encode_json : json -> pystr)
    (cleared : nat -> bool) (converted : nat -> option pystr)
    (path : pystr) (body boundary : pybytes) (inject_note require_scanned forward_binary request_purposes : bool) (inspected : option (Multipart * list reading * gset pystr))
    : M (rstate V O) upload_error (option uploaded) :=
  upload <~ (match inspected with
            | Some reading => mret (Some reading)
            | None => match parse body boundary with
                      | None => mret None
                      | Some parsed => r <~ read_form_upload rd read_line path parsed require_scanned request_purposes;; mret (Some (parsed, r.1, r.2))
                      end
            end : M (rstate V O) upload_error (option (Multipart * list reading * gset pystr)));;
  match upload with
  | None => mret None
  | Some (parsed, readings, request_keys) =>
      let prs := zip (parts parsed) readings in
      let rd := if may_carry_tokens_bytes body then with_floors rd (fold_left (part_floors read_line) prs ∅) else rd in
      outs <~ loop_parts rd str_lower read_line encode_json cleared converted request_keys inject_note require_scanned forward_binary prs;;
      mret (Some (mk_uploaded
        (if existsb d_changed outs then Some (serialize (mk_multipart (Multipart.boundary parsed) (preamble parsed) (map d_part outs) (epilogue parsed))) else None)
        (sent_texts converted prs outs)
        (uncleared_binaries cleared converted readings)))
  end.

(** ** The text files this process sent: [_RawTextFiles] *)
Definition RAW_MAX : nat := 1024.

Section RawTexts.
Context (digest : pybytes -> pybytes).

(** The digests, the newest last. *)
Definition record_raw (texts : list pybytes) (sent : pybytes) : list pybytes :=
  let texts := List.filter (fun d => negb (bool_decide (d = digest sent))) texts ++ [digest sent] in
  drop (length texts - RAW_MAX) texts.

Definition remember_raw_texts (contents : list pybytes) (texts : list pybytes) : list pybytes := fold_left record_raw contents texts.

Definition is_raw_text (texts : list pybytes) (raw : pybytes) : bool := bool_decide (digest raw ∈ texts).

(** ** Downloads *)
Context {V : Type} `{VaultOps V} (v : V) (fuzzy : bool).
Context (read_line : pybytes -> document) (read_text : pystr -> document) (encode_json : json -> pystr).

Abbreviation D := (M counter upload_error).

Definition restore_text (t : pystr) : D pystr := fun c => let (out, c) := rehydrate_text fuzzy v c t in (Ok out, c).
Definition restore_source (t : pystr) : D pystr := fun c => let (out, c) := rehydrate_json_source_text fuzzy v c t in (Ok out, c).

(** [_restore_file_value] *)
Fixpoint restore_file_value (x : json) : D json :=
  match x with
  | JStr t => out <~ restore_text t;; mret (JStr out)
  | JList l =>
      l <~ (fix go (l : list json) : D (list json) :=
              match l with [] => mret [] | x :: l' => x' <~ restore_file_value x;; r <~ go l';; mret (x' :: r) end) l;;
      mret (JList l)
  | JDict items =>
      l <~ (fix go (l : list (pystr * json)) : D (list (pystr * json)) :=
              match l with
              | [] => mret []
              | (k, x) :: l' =>
                  x' <~ (if bool_decide (k = lit "arguments") then match x with JStr t => out <~ restore_source t;; mret (JStr out) | _ => restore_file_value x end
                         else restore_file_value x);;
                  r <~ go l';; mret ((k, x') :: r)
              end) items;;
      mret (JDict l)
  | _ => mret x
  end.

(** [_rehydrate_file_line], with the adapter's [restore]. *)
Definition rehydrate_file_line (restore : json -> D json) (line : pystr) : D pystr :=
  if negb (may_carry_tokens_str line) then mret line
  else match loads_bounded (read_text line) with
       | Raise JsonTooDeep => mret line
       | Raise _ => restore_text line
       | Ok x =>
           hydrated <~ restore x;;
           if bool_decide (hydrated = x) then mret line
           else mret (take (length line - length (lstrip line)) line ++ json_text encode_json hydrated ++ drop (length (rstrip line)) line)
       end.

(** What a restored text is written as; None: left untouched. *)
Definition rewritten_file (f : FileContent) (t : pystr) : D (option pybytes) :=
  if bool_decide (t = text f) then mret None
  else match file_encode f t with Some b => mret (Some b) | None => mraise Unencodable end.

(** [rehydrate_text_file] *)
Definition rehydrate_text_file (texts : list pybytes) (restore : json -> D json) (raw : pybytes) : D (option pybytes) :=
  match (classify_file read_line raw).2 with
  | None => mret None
  | Some f =>
      if negb (may_carry_tokens_str (text f)) then mret None
      else if is_raw_text texts raw then t <~ restore_text (text f);; rewritten_file f t
      else match kind f with
           | KText => t <~ (match loads_bounded (read_text (text f)) with Ok _ => restore_source (text f) | Raise _ => restore_text (text f) end);; rewritten_file f t
           | KJsonl => lines <~ mapM (rehydrate_file_line restore) (split_char 10 (text f));; 
               if bool_decide (lines = split_char 10 (text f)) then mret None else
               match file_encode f (Prelude.join [10] lines) with Some b => mret (Some b) | None => mraise Unencodable end
           end
  end.
End RawTexts.
