(* ===== verification/UploadsFacts.v ===== *)
(** * What comes back of an uploaded file

    A text file redacted as one text is downloaded byte for byte as it was uploaded, in
    each of the five encodings; a line of JSON is restored value for value; and of an upload
    under the proxy's own identity every part leaves redacted. *)

From Stdlib Require Import List.
From S2P Require Import Prelude Bytes PyRegex Json JsonWalk JsonFacts JsonText Placeholders TokenSearch Vault Rehydrate.
From S2P Require Import Streaming Detection Overlaps Redactor Winners Redaction RoundTrip Adapters AdapterFacts UploadContent UploadContentFacts Uploads.

Local Open Scope mon_scope.

(** ** The text that goes out *)
Section Shape.
Context {V O : Type} `{VaultLaws V} `{OverrideOps O} (rd : redactor).

(** Up to its first token it is the text that came; no other character is new. *)
Lemma spliced_first v text ws out : spliced rd v text 0 ws out -> out = text \/ exists n rest, out = take n text ++ LAQUO :: rest.
Proof.
  assert (Hb : py_bound text 0 = 0%nat) by (unfold py_bound; change (0 <? 0) with false; cbv iota; lia).
  remember 0 as cursor eqn:E. induction 1 as [cursor|cursor d ds out Hr Hs IH|cursor d ds n rest Hr Hty Hn Ho Hs IH].
  - subst. left. unfold pyfrom. by rewrite Hb.
  - by apply IH.
  - right. destruct (issued_shape (detector_type d) n Hty ltac:(lia)) as (b & -> & _ & _). subst cursor. unfold span_text, pyslice.
    rewrite Hb, drop_0. eexists _, (b ++ RAQUO :: rest). f_equal. cbn [app]. by rewrite <- app_assoc.
Qed.

Lemma token_no_char c ty n : is_placeholder_type ty = true -> 0 <= n -> cls_AZ09_ c = false -> c <> LAQUO -> c <> RAQUO -> mem_char c (format_placeholder ty n) = false.
Proof.
  intros Hty Hn Hc Ho Hc2. destruct (issued_shape ty n Hty Hn) as (b & -> & _ & Hb). destruct (mem_char c (LAQUO :: b ++ [RAQUO])) eqn:E; [|done].
  apply mem_char_elem in E. apply elem_of_cons in E as [->|E]; [done|]. apply elem_of_app in E as [E|E%list_elem_of_singleton]; [|done].
  rewrite forallb_forall in Hb. apply list_elem_of_In, Hb in E. congruence.
Qed.

Lemma spliced_no_char c v text cursor ws out : cls_AZ09_ c = false -> c <> LAQUO -> c <> RAQUO -> mem_char c text = false -> spliced rd v text cursor ws out -> mem_char c out = false.
Proof.
  intros Hc Hc1 Hc2 Ht. induction 1 as [cursor|cursor d ds out Hr Hs IH|cursor d ds n rest Hr Hty Hn Ho Hs IH]; [by apply mem_pyfrom|done|].
  rewrite !mem_char_app, IH, token_no_char by (done || lia). rewrite !orb_false_r. by apply mem_pyslice.
Qed.

Lemma redact_text_shape text (s : rstate V O) out s' : detector_ok rd -> vinv (vault s) -> redact_text rd text s = (Ok out, s') ->
  (out = text \/ exists n rest, out = take n text ++ LAQUO :: rest) /\ (mem_char 0 text = false -> mem_char 0 out = false).
Proof.
  intros Hdk Hv Hr. destruct (redact_text_ok rd text s out s' Hdk Hv Hr) as (ds & ws & _ & _ & _ & _ & Hs & _). split; [by eapply spliced_first|].
  intros Hn. by eapply spliced_no_char; [..|exact Hs].
Qed.
End Shape.

(** A text without an opening guillemet has no token to restore. *)
Lemma rehydrate_plain {V} `{VaultOps V} fuzzy (v : V) counts t : mem_char LAQUO t = false -> (rehydrate_text fuzzy v counts t).1 = t.
Proof. intros Ht. rewrite rehydrate_subst, subst_plain_all; [apply map_id|apply _|done]. Qed.

(** ** Read again after the redaction *)
Lemma starts_with_cut p a c r : Forall (fun x => x <> c) p -> starts_with p (a ++ c :: r) = true -> exists q, a = p ++ q.
Proof.
  intros Hp Hs. apply starts_with_spec in Hs as [t Ht]. revert a Ht. induction Hp as [|x p Hx _ IH]; intros a Ht; [by exists a|].
  destruct a as [|y a]; cbn in Ht; injection Ht; [intros _ E; by destruct Hx|]. intros Hr ->. destruct (IH a Hr) as [q ->]. by exists q.
Qed.

Lemma starts_with_more p a b : starts_with p a = true -> starts_with p (a ++ b) = true.
Proof. intros [t ->]%starts_with_spec. apply starts_with_spec. exists (t ++ b). by rewrite app_assoc. Qed.

(** Bytes in front of which no mark or signature can end: UTF-8's first byte of «. *)
Lemma marks_free : Forall (Forall (fun x => x <> 194)) (SIGNATURES ++ map fst BOMS).
Proof. repeat (apply list.Forall_cons; split; [repeat (apply list.Forall_cons; split; [done|]); constructor|]). constructor. Qed.

Lemma mark_before a r b mark : Forall (fun x => x <> 194) mark -> starts_with mark (a ++ 194 :: r) = true -> starts_with mark (a ++ b) = true.
Proof. intros Hm Hs. apply starts_with_more. apply starts_with_cut in Hs as [q ->]; [apply starts_with_spec; by exists q|done]. Qed.

Lemma find_none_iff {A} (f : A -> bool) l : List.find f l = None <-> forall x, x ∈ l -> f x = false.
Proof.
  split.
  - intros H x Hx. apply (find_none f l H). by apply list_elem_of_In.
  - intros Hf. destruct (List.find f l) as [x|] eqn:E; [|done]. apply find_some in E as [Hin E]. rewrite Hf in E; [done|]. by apply list_elem_of_In.
Qed.

(** What a mark in front of the text decides, whatever follows. *)
Lemma bom_kept bom c b b' : (bom, c) ∈ BOMS -> (c = UTF16 false -> starts_with [0; 0] b' = false) -> bom_of (bom ++ b) = (bom, c) -> bom_of (bom ++ b') = (bom, c).
Proof.
  intros Hin Hz Hb. unfold bom_of in *. cbn [BOMS] in *. repeat (apply elem_of_cons in Hin as [[= -> ->]|Hin]); [..|by apply not_elem_of_nil in Hin]; try done.
  cbn in *. by rewrite Hz.
Qed.

Lemma no_signature bom c b : (bom, c) ∈ BOMS -> existsb (fun s => starts_with s (bom ++ b)) SIGNATURES = false.
Proof. intros Hin. repeat (apply elem_of_cons in Hin as [[= -> ->]|Hin]; [reflexivity|]). by apply not_elem_of_nil in Hin. Qed.

Lemma utf8_encode_split s t b : utf8_encode (s ++ t) = Some b -> exists bs bt, utf8_encode s = Some bs /\ utf8_encode t = Some bt /\ b = bs ++ bt.
Proof.
  revert b. induction s as [|c s IH]; intros b; cbn [app utf8_encode]; [by exists [], b|].
  destruct (utf8_char c) as [x|]; [|done]. destruct (utf8_encode (s ++ t)) as [y|] eqn:E; [|done]. intros [= <-]. destruct (IH y eq_refl) as (bs & bt & -> & -> & ->).
  exists (x ++ bs), bt. by rewrite app_assoc.
Qed.

Lemma unit_not_nul c us : c <> 0 -> units_of_char c = Some us -> exists x r, us = x :: r /\ x <> 0 /\ 0 <= x < 65536.
Proof.
  intros Hc Hu. apply units_of_char_inv in Hu as [(-> & Hr & _)|(h & l & -> & Hh & _ & _ & Hr & _)]; eexists _, _; (split; [done|]); [lia|]. unfold high_unit in Hh. apply between_spec in Hh. lia.
Qed.

Lemma utf16_no_nul b out : mem_char 0 out = false -> encode (UTF16 false) out = Some b -> starts_with [0; 0] b = false.
Proof.
  cbn [encode]. intros Hn (us & Hu & [= <-])%bind_Some. destruct out as [|c out]; cbn [units_of] in Hu; [by injection Hu as <-|].
  apply bind_Some in Hu as (u & Hu & (r & _ & [= <-])%bind_Some). cbn in Hn. apply orb_false_iff in Hn as [Hc%Z.eqb_neq _].
  destruct (unit_not_nul c u ltac:(lia) Hu) as (x & r' & -> & Hx & Hr). cbn [app flat_map unword]. cbn [starts_with].
  destruct (Z.eqb_spec 0 (x mod 256)); [|done]. destruct (Z.eqb_spec 0 (x / 256)); [|done]. pose proof (Z.div_mod x 256 ltac:(lia)). lia.
Qed.

(** A redacted text file is read as text again: the same codec and byte-order mark. *)
Lemma reread content f out sent n rest : bytes content -> decode_text content = Some f -> out = take n (text f) ++ LAQUO :: rest -> mem_char 0 out = false ->
  file_encode f out = Some sent -> decode_text sent = Some (mk_content KText out (file_codec f) (bom f)).
Proof.
  intros Hb Hd Hout Hn. pose proof (file_unchanged content f Hb Hd) as Hsame. unfold decode_text in Hd. destruct (existsb _ SIGNATURES) eqn:Esig; [done|].
  destruct (bom_of content) as [bm c] eqn:Ebom. apply bind_Some in Hd as (t & Ht & Hd). destruct (mem_char 0 t); [done|]. injection Hd as <-.
  unfold file_encode in *. cbn [text file_codec bom] in *. intros (b & He & [= <-])%bind_Some. apply bind_Some in Hsame as (b0 & He0 & Hsame). injection Hsame as <-.
  assert (Hgo : existsb (fun s => starts_with s (bm ++ b)) SIGNATURES = false /\ bom_of (bm ++ b) = (bm, c)).
  { assert (Hcase : (bm, c) ∈ BOMS \/ (bm = [] /\ c = UTF8 /\ List.find (fun mark => starts_with mark.1 b0) BOMS = None)).
    { pose proof Ebom as E. unfold bom_of in E. destruct (List.find (fun mark => starts_with mark.1 (bm ++ b0)) BOMS) as [[bm' c']|] eqn:Ef; cbn in E; injection E as <- <-.
      - left. apply find_some in Ef as [Hin _]. by apply list_elem_of_In.
      - right. by cbn in Ef. }
    destruct Hcase as [Hin|(-> & -> & Hnone)].
    - split; [by apply (no_signature bm c)|]. apply (bom_kept bm c b0 b Hin); [|done]. intros ->. by eapply utf16_no_nul.
    - cbn [app encode] in *. rewrite <- (take_drop n t) in He0. apply utf8_encode_split in He0 as (ba & bb & Ha & _ & ->).
      rewrite Hout in He. apply utf8_encode_split in He as (ba' & bl & Ha' & Hl & ->). rewrite Ha in Ha'. injection Ha' as <-.
      assert (exists r, bl = 194 :: r) as [r ->].
      { cbn [utf8_encode] in Hl. change (utf8_char LAQUO) with (Some [194; 171]) in Hl. destruct (utf8_encode rest); [|done]. injection Hl as <-. by eexists. }
      pose proof marks_free as Hfree. apply Forall_app in Hfree as [Hfs Hfb]. rewrite list.Forall_forall in Hfs, Hfb. split.
      + apply not_true_iff_false. intros E2. apply existsb_exists in E2 as (s & Hs & E2). apply (mark_before ba r bb) in E2; [|by apply Hfs, list_elem_of_In].
        apply not_true_iff_false in Esig. apply Esig, existsb_exists. by exists s.
      + unfold bom_of. assert (List.find (fun mark => starts_with mark.1 (ba ++ 194 :: r)) BOMS = None) as ->; [|done].
        apply find_none_iff. intros mark Hin. destruct (starts_with mark.1 (ba ++ 194 :: r)) eqn:E2; [|done]. apply (mark_before ba r bb) in E2; [|by apply Hfb, list_elem_of_fmap_2].
        rewrite find_none_iff in Hnone. by rewrite Hnone in E2. }
  destruct Hgo as [Hs1 Hs2]. unfold decode_text. rewrite Hs1, Hs2, drop_app_length, (decode_encode c b out He). cbn. by rewrite Hn.
Qed.

(** ** What is remembered *)
Section Memory.
Context (digest : pybytes -> pybytes).

(** The digest is held with at most [k] newer ones. *)
Definition recent (d : pybytes) (k : nat) (texts : list pybytes) : Prop := exists pre post, texts = pre ++ d :: post /\ (length post <= k)%nat.

Lemma recorded_recent texts sent : recent (digest sent) 0 (record_raw digest texts sent).
Proof.
  unfold record_raw. set (kept := List.filter _ texts). exists (drop (length (kept ++ [digest sent]) - RAW_MAX) kept), []. split; [|done].
  rewrite drop_app_le; [done|]. rewrite length_app. unfold RAW_MAX. cbn [length]. lia.
Qed.

Lemma record_keeps d k texts x : (S k < RAW_MAX)%nat -> recent d k texts -> recent d (S k) (record_raw digest texts x).
Proof.
  intros Hk (pre & post & -> & Hl). destruct (decide (digest x = d)) as [<-|Hne].
  - destruct (recorded_recent (pre ++ digest x :: post) x) as (p & q & E & Hq). exists p, q. split; [done|]. cbn in Hq. lia.
  - unfold record_raw. set (keep := fun e => negb (bool_decide (e = digest x))). rewrite filter_app. cbn [List.filter].
    assert (keep d = true) as -> by (unfold keep; by rewrite bool_decide_eq_false_2 by congruence).
    pose proof (filter_length_le keep post) as Hp. exists (drop (length ((List.filter keep pre ++ d :: List.filter keep post) ++ [digest x]) - RAW_MAX) (List.filter keep pre)), (List.filter keep post ++ [digest x]).
    split; [|rewrite length_app; cbn [length]; lia]. rewrite <- app_assoc, drop_app_le; [done|]. rewrite !length_app. cbn [length app]. lia.
Qed.

(** Fewer than [RAW_MAX] later files: the file is still known. *)
Lemma remembered texts sent later : (length later < RAW_MAX)%nat -> is_raw_text digest (remember_raw_texts digest (sent :: later) texts) sent = true.
Proof.
  intros Hl. assert (Hgo : forall later k ts, (k + length later < RAW_MAX)%nat -> recent (digest sent) k ts -> recent (digest sent) (k + length later) (remember_raw_texts digest later ts)).
  { clear. induction later as [|x later IH]; intros k ts Hl Hr; cbn [length remember_raw_texts fold_left] in *; [by rewrite Nat.add_0_r|].
    rewrite Nat.add_succ_r, <- Nat.add_succ_l. apply IH; [lia|]. apply record_keeps; [lia|done]. }
  destruct (Hgo later 0%nat _ Hl (recorded_recent texts sent)) as (pre & post & E & _). apply bool_decide_eq_true. unfold remember_raw_texts in *. cbn [fold_left]. rewrite E.
  apply elem_of_app. right. apply elem_of_cons. by left.
Qed.
End Memory.

(** ** A line of JSON, value for value *)

(** No object holds a string under [arguments], which a download restores JSON-escaped. *)
Fixpoint argless (x : json) : bool :=
  match x with
  | JList l => forallb argless l
  | JDict l => forallb (fun kv => negb (bool_decide (kv.1 = lit "arguments") && is_jstr kv.2) && argless kv.2) l
  | _ => true
  end.

Section Lines.
Context {V : Type} `{VaultOps V} (v : V) (fuzzy : bool).

Abbreviation gn := (restore_text v fuzzy).
Abbreviation back := (restore_file_value v fuzzy).

Definition back_under (kv : pystr * json) : M counter upload_error json :=
  if bool_decide (kv.1 = lit "arguments") then match kv.2 with JStr t => out <~ restore_source v fuzzy t;; mret (JStr out) | _ => back kv.2 end else back kv.2.

Definition restore_item (kv : pystr * json) : M counter upload_error (pystr * json) := x <~ back_under kv;; mret (kv.1, x).

Lemma back_dict l c : back (JDict l) c = (r <~ mapM restore_item l;; mret (JDict r)) c.
Proof.
  unfold restore_item, mbnd at 1. rewrite (mapM_pairs back_under).
  cbn [restore_file_value]. unfold mbnd at 1.
  match goal with |- match ?a l c with _ => _ end = match ?b l c with _ => _ end => assert (Hab : forall l c, a l c = b l c) end.
  { clear. intros l. induction l as [|[k x] l IH]; intros c; [done|].
    apply (mbnd_ext (back_under (k, x))). intros x' c1. by apply mbnd_run. }
  by rewrite Hab.
Qed.

Context {St E : Type} (fn : pystr -> M St E pystr) (good : St -> Prop) (grows : St -> St -> Prop) (P : pystr -> Prop) (final : St).
Hypothesis grows_refl : forall s, grows s s.
Hypothesis grows_trans : forall s1 s2 s3, grows s1 s2 -> grows s2 s3 -> grows s1 s3.
Hypothesis fn_undone : forall t s out s', good s -> P t -> fn t s = (Ok out, s') ->
  good s' /\ grows s s' /\ (grows s' final -> forall c, (gn out c).1 = Ok t).
Hypothesis plain_kept : forall t c, P t -> (gn t c).1 = Ok t.

Abbreviation undone := (undone good grows final).

Lemma item_comes_back (W : json -> M St E json) k x : (forall s y s', W x s = (Ok y, s') -> is_jstr y = is_jstr x) ->
  negb (bool_decide (k = lit "arguments") && is_jstr x) = true -> undone W back x ->
  undone (fun kv => y <~ W kv.2;; mret (kv.1, y)) restore_item (k, x).
Proof.
  intros Hk Ha%negb_true_iff Hu. apply (undone_bind good grows final W back x (pair k) (pair k)); [done|done|].
  intros y s s' Hy c. unfold restore_item, back_under. cbn [fst snd]. apply Hk in Hy. destruct (bool_decide (k = lit "arguments")); [|done]. destruct x, y; done.
Qed.

Lemma opaque_jstr x s y s' : walk_opaque fn x s = (Ok y, s') -> is_jstr y = is_jstr x.
Proof.
  destruct x as [| | |t|l|l]; try (by intros [= <- <-]).
  - cbn [walk_opaque]. unfold mbnd. destruct (fn t s) as [[o|] s1]; [|done]. by intros [= <- <-].
  - rewrite walk_opaque_list. unfold mbnd. destruct (mapM _ l s) as [[r|] s1]; [|done]. by intros [= <- <-].
  - rewrite walk_opaque_dict. unfold mbnd. destruct (mapM _ l s) as [[r|] s1]; [|done]. by intros [= <- <-].
Qed.

Lemma back_same x : Forall P (strings_in x) -> argless x = true -> forall c, (back x c).1 = Ok x.
Proof.
  induction x as [|b|n|t|l IH|l IH] using json_ind'; cbn [strings_in argless]; intros HP Ha c; try done.
  - cbn [restore_file_value]. unfold mbnd. apply list.Forall_cons_1 in HP as [HP _]. specialize (plain_kept t c HP). destruct (gn t c) as [[o|] c1]; cbn in plain_kept; by simplify_eq.
  - apply flat_map_Forall in HP. rewrite forallb_forall in Ha. change (back (JList l)) with (r <~ mapM back l;; mret (JList r)). unfold mbnd.
    assert (forall c, (mapM back l c).1 = Ok l) as Hl; [|specialize (Hl c); destruct (mapM back l c) as [[r|] c1]; cbn in *; by simplify_eq].
    clear c. induction l as [|x l IHl]; intros c; [done|]. apply list.Forall_cons_1 in IH as [Hx IH]. apply list.Forall_cons_1 in HP as [Px HP]. cbn [mapM]. unfold mbnd.
    specialize (Hx Px (Ha x ltac:(by left)) c). destruct (back x c) as [[y|] c1]; cbn in Hx; simplify_eq. specialize (IHl IH HP (fun z Hz => Ha z ltac:(by right)) c1). destruct (mapM back l c1) as [[r|] c2]; cbn in *; by simplify_eq.
  - apply flat_map_Forall in HP. rewrite forallb_forall in Ha. rewrite back_dict. unfold mbnd.
    assert (forall c, (mapM restore_item l c).1 = Ok l) as Hl; [|specialize (Hl c); destruct (mapM restore_item l c) as [[r|] c1]; cbn in *; by simplify_eq].
    clear c. induction l as [|[k x] l IHl]; intros c; [done|]. apply list.Forall_cons_1 in IH as [Hx IH]. apply list.Forall_cons_1 in HP as [Px HP]. cbn [mapM]. unfold mbnd at 1.
    specialize (IHl IH HP (fun z Hz => Ha z ltac:(by right))). pose proof (Ha (k, x) ltac:(by left)) as [Hk Hax]%andb_true_iff. cbn [fst snd] in *.
    assert (exists c1, restore_item (k, x) c = (Ok (k, x), c1)) as [c1 ->].
    { unfold restore_item, back_under, mbnd. cbn [fst snd]. specialize (Hx Px Hax c). apply negb_true_iff in Hk. destruct (bool_decide (k = lit "arguments")); [destruct x; try done|];
        (destruct (back _ c) as [[y|] c1]; cbn in Hx; simplify_eq; by eexists). }
    specialize (IHl c1). unfold mbnd. destruct (mapM restore_item l c1) as [[r|] c2]; cbn in *; by simplify_eq.
Qed.

Lemma items_argless l : forallb (fun kv : pystr * json => negb (bool_decide (kv.1 = lit "arguments") && is_jstr kv.2) && argless kv.2) l = true ->
  Forall (fun kv => negb (bool_decide (kv.1 = lit "arguments") && is_jstr kv.2) = true /\ argless kv.2 = true) l.
Proof. rewrite forallb_forall. intros Ha. apply list.Forall_forall. intros kv Hin%list_elem_of_In. by apply andb_true_iff, Ha. Qed.

Lemma argless_list l : forallb argless l = true -> Forall (fun x => argless x = true) l.
Proof. rewrite forallb_forall. intros Ha. apply list.Forall_forall. intros kv Hin%list_elem_of_In. by apply Ha. Qed.

Lemma opaque_comes_back x : Forall P (strings_in x) -> argless x = true -> undone (walk_opaque fn) back x.
Proof.
  induction x as [|b|n|t|l IH|l IH] using json_ind'; cbn [strings_in argless]; intros HP Ha; try by (apply ret_undone).
  - apply (undone_bind good grows final fn gn t JStr JStr); [|done..]. intros s out s' Hg. by apply fn_undone, (list.Forall_cons_1 _ _ _ HP).
  - apply (undone_bind good grows final (mapM (walk_opaque fn)) (mapM back) l JList JList); [|done..]. apply mapM_undone; [done..|].
    apply flat_map_Forall in HP. apply argless_list in Ha. rewrite list.Forall_forall in *. eauto.
  - apply (undone_bind good grows final (mapM (opaque_item fn)) (mapM restore_item) l JDict JDict); [|intros; apply walk_opaque_dict|intros; apply back_dict].
    apply mapM_undone; [done..|]. apply flat_map_Forall in HP. apply items_argless in Ha. rewrite list.Forall_forall in *. intros [k x] Hin.
    destruct (Ha _ Hin) as [Hk Hax]. apply (item_comes_back (walk_opaque fn)); [by apply opaque_jstr|done|]. by apply (IH (k, x)), Hax; [|apply (HP (k, x))].
Qed.

(** A request's walk skips the structural places: a string there came as it is. *)
Context (skip : gset pystr).
Abbreviation none := (fun _ => None).

Lemma value_jstr plain parent k x s y s' : walk_value fn skip none plain parent (k, x) s = (Ok y, s') -> is_jstr y = is_jstr x.
Proof.
  rewrite value_none. destruct (is_opaque parent k); [apply opaque_jstr|]. destruct (_ && _ && _).
  { destruct x as [| | |t| |]; try (by intros [= <- <-]). unfold mbnd. destruct (fn t s) as [[o|] s1]; [|done]. by intros [= <- <-]. }
  destruct (_ || _ || _); [by intros [= <- <-]|]. intros Hw. apply walk_kind in Hw as (Hw & _). by symmetry.
Qed.

Lemma value_comes_back plain parent k x : Forall P (strings_in x) -> argless x = true -> (forall parent, undone (walk fn skip none parent) back x) ->
  undone (fun x => walk_value fn skip none plain parent (k, x)) back x.
Proof.
  intros HP Ha IH s out s' Hg. rewrite value_none. destruct (is_opaque parent k); [by apply opaque_comes_back|].
  destruct (bool_decide (k = lit "data") && plain && is_jstr x).
  { destruct x as [| | |t| |]; try (intros [= <- <-]; split_and!; [done|done|intros _ c; by apply back_same]).
    apply (opaque_comes_back (JStr t) HP Ha s out s' Hg). }
  destruct (_ || _ || _); [|by apply IH]. intros [= <- <-]. split_and!; [done|done|]. intros _ c. by apply back_same.
Qed.

Lemma walk_comes_back x : Forall P (strings_in x) -> argless x = true -> forall parent, undone (walk fn skip none parent) back x.
Proof.
  induction x as [|b|n|t|l IH|l IH] using json_ind'; cbn [strings_in argless]; intros HP Ha parent; try by (apply ret_undone).
  - apply (undone_bind good grows final fn gn t JStr JStr); [|done..]. intros s out s' Hg. by apply fn_undone, (list.Forall_cons_1 _ _ _ HP).
  - apply (undone_bind good grows final (mapM (walk fn skip none parent)) (mapM back) l JList JList); [|done..]. apply mapM_undone; [done..|].
    apply flat_map_Forall in HP. apply argless_list in Ha. rewrite list.Forall_forall in *. eauto.
  - apply (undone_bind good grows final (mapM (walk_item fn skip none (plaintext l) parent)) (mapM restore_item) l JDict JDict); [|intros; apply walk_dict|intros; apply back_dict].
    apply mapM_undone; [done..|]. apply flat_map_Forall in HP. apply items_argless in Ha. rewrite list.Forall_forall in *. intros [k x] Hin.
    destruct (Ha _ Hin) as [Hk Hax]. cbn [fst snd] in *. apply (item_comes_back (fun x => walk_value fn skip none (plaintext l) parent (k, x))); [apply value_jstr|done|].
    apply value_comes_back; [by apply (HP (k, x))|done|]. intros parent'. by apply (IH (k, x)), Hax; [|apply (HP (k, x))].
Qed.
End Lines.

Section Line.
Context {V O : Type} `{VaultLaws V} `{OverrideOps O} (rd : redactor) (v : V) (fuzzy : bool).

Lemma redact_value_walk {St E} (fn : pystr -> M St E pystr) keys passthrough k x s : k ∈ keys ->
  redact_value fn keys passthrough (k, x) s =
  (y <~ walk_value fn (if passthrough then STRUCTURAL_KEYS ∪ {[lit "encrypted_content"]} else STRUCTURAL_KEYS) (fun _ => None) (plaintext [(k, x)]) None (k, x);; mret (k, y)) s.
Proof.
  intros Hk. unfold redact_value. rewrite bool_decide_eq_true_2 by done. cbn [fst snd]. unfold transform_strings, mbnd at 1. rewrite walk_dict. unfold mbnd at 1. cbn [mapM].
  unfold mbnd, walk_item, mbnd, mret. destruct (walk_value _ _ _ _ None (k, x) s) as [[y|e] s1]; [|done]. cbn [fst]. unfold jget_null. cbn [jget]. by rewrite decide_True.
Qed.

Lemma line_comes_back keys obj (s : rstate V O) out s' : detector_ok rd -> vinv (vault s) -> Forall (fun t => mem_char LAQUO t = false) (strings_in (JDict obj)) -> argless (JDict obj) = true ->
  redact_line (redact_text_of rd) keys (encrypted_content_passthrough rd) obj s = (Ok out, s') -> extends (vault s') v ->
  forall c, (restore_file_value v fuzzy (JDict out) c).1 = Ok (JDict obj).
Proof.
  intros Hdk Hv HP Ha Hr Hext c. set (final := set_vault v s').
  set (good := fun s : rstate V O => vinv (vault s)). set (grows := fun s1 s2 : rstate V O => extends (vault s1) (vault s2)).
  assert (Hfn : forall t s out s', good s -> mem_char LAQUO t = false -> redact_text_of rd t s = (Ok out, s') ->
    good s' /\ grows s s' /\ (grows s' final -> forall c, (restore_text v fuzzy out c).1 = Ok t)).
  { intros t s1 o s2 Hv1 Ht Ho. unfold redact_text_of, by_redactor in Ho. destruct (redact_text rd t s1) as [[o'|e] s3] eqn:E; [|done]. injection Ho as -> ->.
    destruct (redact_text_ok rd t s1 o s2 Hdk Hv1 E) as (_ & _ & _ & _ & Hv2 & He & _). split_and!; [done|done|]. intros Hf c'.
    destruct (redacted_restores rd fuzzy t s1 o s2 v Hdk Hv1 Ht E Hf) as [_ Hb]. specialize (Hb c'). unfold restore_text. destruct (rehydrate_text fuzzy v c' o) as [o' c2]. cbn in *. by subst. }
  assert (Hplain : forall t c, mem_char LAQUO t = false -> (restore_text v fuzzy t c).1 = Ok t).
  { intros t c' Ht. unfold restore_text. pose proof (rehydrate_plain fuzzy v c' t Ht) as Hp. destruct (rehydrate_text fuzzy v c' t) as [o' c2]. cbn in *. by subst. }
  assert (Hgr : forall s, grows s s) by (intros s1 t o; done). assert (Hgt : forall s1 s2 s3, grows s1 s2 -> grows s2 s3 -> grows s1 s3) by (intros s1 s2 s3; apply extends_trans).
  assert (Hu : undone good grows final (mapM (redact_value (redact_text_of rd) keys (encrypted_content_passthrough rd))) (mapM (restore_item v fuzzy)) obj).
  { apply mapM_undone; [done..|]. cbn [strings_in] in HP. apply flat_map_Forall in HP. cbn [argless] in Ha. apply items_argless in Ha. rewrite list.Forall_forall in *. intros [k x] Hin.
    destruct (Ha _ Hin) as [Hk Hax]. specialize (HP _ Hin). cbn [fst snd] in *. destruct (decide (k ∈ keys)) as [Hin'|Hout].
    - intros s1 o s2 Hg Ho. rewrite redact_value_walk in Ho by done. revert s1 o s2 Hg Ho. set (sk := if encrypted_content_passthrough rd then _ else _).
      apply (item_comes_back v fuzzy good grows final (fun x => walk_value (redact_text_of rd) sk (fun _ => None) (plaintext [(k, x)]) None (k, x))); [apply value_jstr|done|].
      intros s1 o s2. eapply (value_comes_back v fuzzy (redact_text_of rd) good grows (fun t => mem_char LAQUO t = false) final); try done. intros parent.
      by apply (walk_comes_back v fuzzy (redact_text_of rd) good grows (fun t => mem_char LAQUO t = false) final).
    - intros s1 o s2 Hg Ho. unfold redact_value in Ho. rewrite bool_decide_eq_false_2 in Ho by done. revert s1 o s2 Hg Ho.
      apply (item_comes_back v fuzzy good grows final (walk_opaque (redact_text_of rd))); [apply opaque_jstr|done|].
      by apply (opaque_comes_back v fuzzy (redact_text_of rd) good grows (fun t => mem_char LAQUO t = false) final). }
  destruct (Hu s out s' Hv Hr) as (_ & _ & Hb). specialize (Hb Hext c). rewrite back_dict. unfold mbnd. destruct (mapM (restore_item v fuzzy) out c) as [[r|] c1]; cbn in Hb; by simplify_eq.
Qed.
End Line.

(** ** The properties *)
Section Properties.
Context {V O : Type} `{VaultLaws V} `{OverrideOps O} (rd : redactor) (v : V) (fuzzy : bool).
Context (digest : pybytes -> pybytes) (read_line : pybytes -> document) (read_text : pystr -> document) (encode_json : json -> pystr).

(** C6: A text file that an upload redacted, and whose text carries no opening guillemet, is
    downloaded byte for byte as it was uploaded:
    in UTF-8, UTF-16 or UTF-32, with its byte-order mark, whatever the redacted bytes
    would read as (they may have become JSON, and the restored values are still not
    escaped), in strict and in fuzzy mode, by any vault that kept what the redacting vault
    knew.  Every codec, mark and signature is read again as it was; the process still
    knows the file after up to 1,023 later ones. *)
Theorem text_file_comes_back content f (s : rstate V O) sent s' texts later restore c :
  detector_ok rd -> vinv (vault s) -> bytes content -> decode_text content = Some f -> mem_char LAQUO (text f) = false ->
  redact_document rd f s = (Ok (Some sent), s') -> extends (vault s') v -> (length later < RAW_MAX)%nat ->
  (rehydrate_text_file digest v fuzzy read_line read_text encode_json (remember_raw_texts digest (sent :: later) texts) restore sent c).1 = Ok (Some content).
Proof.
  intros Hdk Hv Hb Hd Hno Hr Hext Hl. unfold redact_document, redact_text_of, by_redactor, mbnd in Hr.
  destruct (redact_text rd (text f) s) as [[out|e] s1] eqn:Et; [|done]. case_bool_decide as Ho; [done|]. unfold written in Hr. destruct (file_encode f out) as [b|] eqn:Ee; [|done]. injection Hr as -> <-.
  destruct (redact_text_shape rd (text f) s out s1 Hdk Hv Et) as [[->|(n & rest & Hout)] Hnul]; [done|].
  assert (Hnt : mem_char 0 (text f) = false). { unfold decode_text in Hd. destruct (existsb _ _); [done|]. destruct (bom_of content) as [bm cd]. apply bind_Some in Hd as (t & _ & Hd). destruct (mem_char 0 t) eqn:E0; [done|]. by injection Hd as <-. }
  pose proof (reread content f out sent n rest Hb Hd Hout (Hnul Hnt) Ee) as Hre. pose proof (file_unchanged content f Hb Hd) as Hsame.
  destruct (redacted_restores rd fuzzy (text f) s out s1 v Hdk Hv Hno Et Hext) as [_ Hback].
  assert (exists k, (classify_file read_line sent).2 = Some (mk_content k out (file_codec f) (bom f))) as [k Hk].
  { unfold classify_file. rewrite Hre. cbn [file_codec text bom]. case_bool_decide; [|by eexists]. destruct (is_jsonl read_line sent) as [ch j]. cbn [snd]. destruct j; by eexists. }
  unfold rehydrate_text_file. rewrite Hk. cbn [text]. rewrite remembered by done.
  assert (Hm : may_carry_tokens_str out = true). { unfold may_carry_tokens_str. rewrite Hout, mem_char_app. cbn [mem_char existsb]. change (LAQUO =? LAQUO) with true. by rewrite orb_true_r. }
  rewrite Hm. cbn [negb]. unfold mbnd, restore_text. specialize (Hback c). destruct (rehydrate_text fuzzy v c out) as [back c1]. cbn in Hback. subst back.
  unfold rewritten_file. cbn [text]. rewrite bool_decide_eq_false_2 by congruence. unfold file_encode in *. cbn [file_codec bom] in *. by rewrite Hsame.
Qed.

(** C30: A line of an uploaded JSON Lines file, redacted and sent, is restored to the value
    it was: whichever of its keys hold requests (walked with the structural places left
    as they are) and whichever hold data (every string of it redacted), however deep,
    although the download restores every place alike.  No string carries an opening
    guillemet, and none stands under [arguments]. *)
Theorem jsonl_line_comes_back keys obj (s : rstate V O) out s' c :
  detector_ok rd -> vinv (vault s) -> Forall (fun t => mem_char LAQUO t = false) (strings_in (JDict obj)) -> argless (JDict obj) = true ->
  redact_line (redact_text_of rd) keys (encrypted_content_passthrough rd) obj s = (Ok out, s') -> extends (vault s') v ->
  (restore_file_value v fuzzy (JDict out) c).1 = Ok (JDict obj).
Proof. intros Hdk Hv HP Ha Hr Hext. by eapply line_comes_back. Qed.
End Properties.

(** *** A UTF-16 file with its byte-order mark *)
Definition demo_file : pybytes := [255; 254] ++ default [] (encode (UTF16 false) demo_text).
Definition demo_content : FileContent := default (mk_content KText [] UTF8 []) (decode_text demo_file).
Definition demo_sent : pybytes := match (redact_document demo_redactor demo_content demo_state).1 with Ok (Some b) => b | _ => [] end.
Definition no_lines (line : pybytes) : document := DocMalformed.

Lemma text_file_comes_back_witness :
  demo_sent <> demo_file /\
  (rehydrate_text_file (fun b => b) (vault (redact_document demo_redactor demo_content demo_state).2) true no_lines no_lines (fun _ => [])
    (remember_raw_texts (fun b => b) [demo_sent; [1]; [2]] []) mret demo_sent ∅).1 = Ok (Some demo_file).
Proof.
  split; [vm_compute; discriminate|].
  apply (text_file_comes_back demo_redactor (vault (redact_document demo_redactor demo_content demo_state).2) true (fun b => b) no_lines no_lines (fun _ => [])
    demo_file demo_content demo_state demo_sent (redact_document demo_redactor demo_content demo_state).2 [] [[1]; [2]] mret ∅).
  - apply demo_redactor_ok.
  - apply InMemoryVault.empty_inv.
  - apply list.Forall_forall. intros x Hx%list_elem_of_In. assert (Hall : forallb (fun b => (0 <=? b) && (b <? 256)) demo_file = true) by (vm_compute; reflexivity).
    rewrite forallb_forall in Hall. specialize (Hall x Hx). lia.
  - vm_compute. reflexivity.
  - vm_compute. reflexivity.
  - vm_compute. reflexivity.
  - intros t o Ho. exact Ho.
  - unfold RAW_MAX. cbn. lia.
Defined.

(** *** A batch line: the request's body, and the envelope as data *)
Definition demo_line : list (pystr * json) :=
  [(lit "custom_id", JStr demo_text); (lit "body", JDict [(lit "model", JStr (lit "m")); (lit "messages", JList [JDict [(lit "role", JStr (lit "user")); (lit "content", JStr demo_text)]])])].
Definition demo_line_sent : list (pystr * json) := match (redact_line (redact_text_of demo_redactor) (REQUEST_LINE_KEYS (lit "batch")) false demo_line demo_state).1 with Ok l => l | Raise _ => [] end.

Lemma jsonl_line_comes_back_witness :
  demo_line_sent <> demo_line /\
  (restore_file_value (vault (redact_line (redact_text_of demo_redactor) (REQUEST_LINE_KEYS (lit "batch")) false demo_line demo_state).2) false (JDict demo_line_sent) ∅).1 = Ok (JDict demo_line).
Proof.
  split; [vm_compute; discriminate|].
  apply (jsonl_line_comes_back demo_redactor (vault (redact_line (redact_text_of demo_redactor) (REQUEST_LINE_KEYS (lit "batch")) false demo_line demo_state).2) false
    (REQUEST_LINE_KEYS (lit "batch")) demo_line demo_state demo_line_sent (redact_line (redact_text_of demo_redactor) (REQUEST_LINE_KEYS (lit "batch")) false demo_line demo_state).2 ∅).
  - apply demo_redactor_ok.
  - apply InMemoryVault.empty_inv.
  - repeat (apply list.Forall_cons; split; [vm_compute; reflexivity|]). constructor.
  - vm_compute. reflexivity.
  - vm_compute. reflexivity.
  - intros t o Ho. exact Ho.
Defined.

(** A data line's string under [arguments] comes back JSON-escaped: a quote in its
    restored value gains a backslash the uploaded line did not have. *)
Definition user_token : pystr := LAQUO :: lit "USER_001" ++ [RAQUO].
Definition quoting_vault : InMemoryVault.t := InMemoryVault.vault_of [(lit "USER", lit "CORP\jdoe")].

Example arguments_come_back_escaped :
  (restore_file_value quoting_vault false (JDict [(lit "arguments", JStr user_token); (lit "note", JStr user_token)]) ∅).1 =
  Ok (JDict [(lit "arguments", JStr (lit "CORP\\jdoe")); (lit "note", JStr (lit "CORP\jdoe"))]).
Proof. vm_compute. reflexivity. Qed.

(** ** What the strict reading lets out *)
Section Strict.
Context {V O : Type} `{VaultLaws V} `{OverrideOps O} (rd : redactor).
Context (str_lower : pystr -> pystr) (read_line : pybytes -> document) (encode_json : json -> pystr) (cleared : nat -> bool) (converted : nat -> option pystr).

Lemma names_keep_content fn part strict (s : rstate V O) r s' : redact_names fn part strict s = (Ok r, s') -> Multipart.content r.2 = Multipart.content part.
Proof.
  unfold redact_names. destruct (Multipart.redact_filenames fn part strict s) as [[x|[]] s1] eqn:E; try done. intros [= <- <-]. revert E. unfold Multipart.redact_filenames.
  destruct (Multipart.headers part); [|by intros [= <- <-]]. destruct (Multipart.read_disposition part strict) as [[ps ext]|[]]; [|by destruct strict; [|intros [= <- <-]]|done..].
  unfold mbnd. destruct (Multipart.edit_plain fn ps s) as [[pe|] s2]; [|done]. destruct (Multipart.edit_ext fn ext s2) as [[ee|] s3]; [|done]. by intros [= <- <-].
Qed.

(** What a part of an upload is read as, under the strict reading. *)
Definition reading_of (path : pystr) (part : Multipart.MultipartPart) : reading :=
  match part_kind part (existsb (fun suffix => ends_with suffix path) PROMPT_FIELD_PATH_SUFFIXES) true with
  | Some r => r
  | None =>
      match (classify_file read_line (Multipart.content part)).2 with
      | Some f => match kind f with KJsonl => RJsonl f | KText => RDocument f end
      | None => RBinary
      end
  end.

Lemma read_form_ok rd0 path parsed rp (s : rstate V O) readings keys s' :
  read_form_upload rd0 read_line path parsed true rp s = (Ok (readings, keys), s') ->
  blank_line (Multipart.preamble parsed) = true /\ blank_line (Multipart.epilogue parsed) = true /\
  readings = map (reading_of path) (Multipart.parts parsed) /\ keys = (if rp then request_line_keys path parsed else ∅).
Proof.
  unfold read_form_upload. intros Hm. apply mbnd_ok in Hm as (u & s1 & Hb & Hm). cbn [andb] in Hb.
  destruct (blank_line (Multipart.preamble parsed)) eqn:E1, (blank_line (Multipart.epilogue parsed)) eqn:E2; try done. clear Hb.
  apply mbnd_ok in Hm as (rs & s2 & Hr & [= <- <- <-]). split_and!; [done..| |done].
  apply (mapM_Forall2 _ (fun part r => r = reading_of path part)) in Hr.
  - clear -Hr. induction Hr as [|x y l l' -> _ IH]; [done|]. cbn. by rewrite IH.
  - intros part st r st' _ Hx. unfold read_part, reading_of in *. destruct (part_kind _ _ _); [by injection Hx as <- <-|].
    destruct (classify_file _ _) as [ch f]. apply mbnd_ok in Hx as (u' & st1 & _ & [= <- <-]). done.
Qed.

(** A text as it leaves: redacted by [rd], then written; where nothing changed, its bytes. *)
Definition sent_redacted (rd : redactor) (write : pystr -> option pybytes) (text : pystr) (before after : pybytes) : Prop :=
  exists (s : rstate V O) out s', redact_text rd text s = (Ok out, s') /\ ((out = text /\ after = before) \/ write out = Some after).

(** A line as it leaves: blank, or an object redacted, with the note where it changed. *)
Definition sent_line (rd : redactor) (keys : gset pystr) (inject : bool) (before after : pybytes) : Prop :=
  (blank_line before = true /\ after = before) \/
  exists obj dup (s : rstate V O) out s', parse_request_line read_line before = Some (obj, dup) /\
    redact_line (redact_text_of rd) keys (encrypted_content_passthrough rd) obj s = (Ok out, s') /\
    ((out = obj /\ dup = false /\ after = before) \/
     json_bytes encode_json (JDict (if inject && negb (bool_decide (out = obj)) then note_line keys out else out)) = Some after).

(** The content that leaves in a part's place. *)
Definition sent_content (rd : redactor) (keys : gset pystr) (inject : bool) (path : pystr) (index : nat) (before after : pybytes) (r : reading) : Prop :=
  match r with
  | RText => exists text, utf8_decode before = Some text /\ sent_redacted rd utf8_encode text before after
  | RDocument f => (classify_file read_line before).2 = Some f /\ sent_redacted rd (file_encode f) (text f) before after
  | RJsonl _ => exists lines, Forall2 (sent_line rd keys inject) (split_char 10 before) lines /\ after = Prelude.join [10] lines
  | RBinary => match converted index with
               | Some extracted => sent_redacted rd utf8_encode extracted before after
               | None => cleared index = true /\ after = before
               end
  | RMedia => existsb (fun suffix => ends_with suffix path) PROMPT_FIELD_PATH_SUFFIXES = true /\ after = before
  | RField | RConverted => False
  end.

Lemma reading_cases path part :
  match reading_of path part with
  | RMedia => existsb (fun suffix => ends_with suffix path) PROMPT_FIELD_PATH_SUFFIXES = true
  | RDocument f => (classify_file read_line (Multipart.content part)).2 = Some f
  | RField | RConverted => False
  | _ => True
  end.
Proof.
  unfold reading_of, part_kind. destruct (existsb _ _); cbn [andb orb].
  - case_bool_decide; [done|]. by destruct (Multipart.filename part).
  - destruct (Multipart.filename part); [|done]. destruct (classify_file _ _) as [ch [f|]]; [|done]. cbn [snd]. by destruct (kind f).
Qed.

Lemma redact_text_of_ok (rd0 : redactor) t (s : rstate V O) out s' : redact_text_of rd0 t s = (Ok out, s') -> redact_text rd0 t s = (Ok out, s').
Proof. unfold redact_text_of, by_redactor. destruct (redact_text rd0 t s) as [[o|e] s1]; [|done]. by intros [= <- <-]. Qed.

Lemma written_redacted (rd0 : redactor) write text before (s : rstate V O) new s' :
  (redacted <~ redact_text_of rd0 text;; if bool_decide (redacted = text) then mret None else b <~ written (write redacted);; mret (Some b)) s = (Ok new, s') ->
  sent_redacted rd0 write text before (default before new).
Proof.
  intros Hm. apply mbnd_ok in Hm as (out & s1 & Hr%redact_text_of_ok & Hm). exists s, out, s1. split; [done|].
  destruct (decide (out = text)) as [->|Hne]; [rewrite bool_decide_eq_true_2 in Hm by done; injection Hm as <- <-; by left|].
  rewrite bool_decide_eq_false_2 in Hm by done. right. unfold written in Hm. destruct (write out) as [b|]; [|done]. by injection Hm as <- <-.
Qed.

Lemma jsonl_sent (rd0 : redactor) keys inject before (s : rstate V O) after s' :
  redact_jsonl rd0 read_line encode_json keys inject true before s = (Ok after, s') ->
  exists lines, Forall2 (sent_line rd0 keys inject) (split_char 10 before) lines /\ after = Prelude.join [10] lines.
Proof.
  unfold redact_jsonl. intros Hm. apply mbnd_ok in Hm as (lines & s1 & Hl & [= <- <-]). exists lines. split; [|done].
  eapply (mapM_Forall2 _ (sent_line rd0 keys inject)); [|exact Hl]. clear. intros line s out s' _ Hx. unfold redact_jsonl_line in Hx.
  destruct (parse_request_line read_line line) as [[obj dup]|] eqn:Ep.
  - apply mbnd_ok in Hx as (red & s1 & Hr & Hx). right. exists obj, dup, s, red, s1. split_and!; [done..|].
    destruct (decide (red = obj)) as [->|Hne].
    + rewrite bool_decide_eq_true_2 in * by done. cbn [negb andb] in Hx. rewrite andb_false_r in *. destruct dup; [|injection Hx as <- <-; by left].
      cbn [negb] in Hx. right. unfold written in Hx. destruct (json_bytes _ _); [|done]. by injection Hx as <- <-.
    + rewrite bool_decide_eq_false_2 in * by done. cbn [negb andb] in Hx. right. unfold written in Hx. destruct (json_bytes _ _); [|done]. by injection Hx as <- <-.
  - cbn [andb] in Hx. destruct (blank_line line) eqn:Eb; [|done]. injection Hx as <- <-. by left.
Qed.

(** What the strict loop makes of one part. *)
Lemma strict_part (rd0 : redactor) keys inject path index part (s : rstate V O) out s' :
  loop_part rd0 str_lower read_line encode_json cleared converted keys inject true false index part (reading_of path part) s = (Ok out, s') ->
  sent_content rd0 keys inject path index (Multipart.content part) (Multipart.content (d_part out)) (reading_of path part) /\
  (d_changed out = false -> Multipart.content (d_part out) = Multipart.content part).
Proof.
  intros Hl. pose proof (reading_cases path part) as Hc. set (r := reading_of path part) in *.
  assert (Hcase : redact_part rd0 str_lower read_line encode_json keys inject true (cleared index) part r s = (Ok out, s') /\ (r = RBinary -> converted index = None) \/
    exists extracted, r = RBinary /\ converted index = Some extracted /\ convert_part rd0 part extracted s = (Ok out, s')).
  { unfold loop_part in Hl. destruct r; try by left. destruct (converted index) as [x|]; [right; by exists x|by left]. }
  clear Hl. destruct Hcase as [[Hm Hconv]|(x & -> & Hx & Hm)].
  - unfold redact_part in Hm. apply mbnd_ok in Hm as ([ch p1] & s1 & En & Hm). apply names_keep_content in En. cbn [snd] in En.
    apply mbnd_ok in Hm as (u & s2 & _ & Hm). apply mbnd_ok in Hm as (new & s3 & Ec & Hm). rewrite En in Ec.
    assert (Hout : Multipart.content (d_part out) = default (Multipart.content part) new /\ (d_changed out = false -> new = None)).
    { destruct new as [c|]; injection Hm as <- _; cbn; [by split|by rewrite En]. }
    destruct Hout as [-> Hnone]. split; [|by intros ->%Hnone]. clear Hnone Hm.
    destruct r; cbn [redacted_content sent_content] in *.
    + apply mbnd_ok in Ec as (after & s4 & Hj & Hnew). apply jsonl_sent in Hj as (lines & Hlines & ->). exists lines. split; [done|].
      case_bool_decide as Hsame; injection Hnew as <- _; done.
    + split; [done|]. by eapply written_redacted.
    + rewrite Hconv by done. destruct (cleared index); [|done]. cbn in Ec. injection Ec as <- _. done.
    + unfold redact_text_part in Ec. destruct (utf8_decode (Multipart.content part)) as [t|]; [|done]. exists t. split; [done|]. by eapply written_redacted.
    + by injection Ec as <- _.
    + done.
    + done.
  - unfold convert_part in Hm. apply mbnd_ok in Hm as (named & s1 & _ & Hm). apply mbnd_ok in Hm as (red & s2 & Hr%redact_text_of_ok & Hm).
    apply mbnd_ok in Hm as (b & s3 & Hw & [= <- _]). cbn [sent_content d_part d_changed Multipart.content]. rewrite Hx. split; [|done].
    exists s1, red, s2. split; [done|]. right. unfold written in Hw. destruct (utf8_encode red); [|done]. by injection Hw as <- _.
Qed.
End Strict.

Section StrictUpload.
Context {V O : Type} `{VaultLaws V} `{OverrideOps O} (rd : redactor).
Context (str_lower : pystr -> pystr) (read_line : pybytes -> document) (encode_json : json -> pystr) (cleared : nat -> bool) (converted : nat -> option pystr).

(** The redactor of an upload: the tokens of the whole body bound the numbers it gives. *)
Definition upload_redactor (path : pystr) (body : pybytes) (parsed : Multipart.Multipart) : redactor :=
  if may_carry_tokens_bytes body
  then with_floors rd (fold_left (part_floors read_line) (zip (Multipart.parts parsed) (map (reading_of read_line path) (Multipart.parts parsed))) ∅) else rd.

(** The proxy's reading of the upload, where it made one, is of this body. *)
Definition read_before (path : pystr) (body boundary : pybytes) (rp : bool) (inspected : option (Multipart.Multipart * list reading * gset pystr)) : Prop :=
  forall parsed readings keys, inspected = Some (parsed, readings, keys) -> Multipart.parse body boundary = Some parsed /\
    exists rd0 (s0 s1 : rstate V O), read_form_upload rd0 read_line path parsed true rp s0 = (Ok (readings, keys), s1).

Lemma uncleared_none readings : (forall index, readings !! index = Some RBinary -> cleared index = true \/ is_Some (converted index)) ->
  uncleared_binaries cleared converted readings = 0%nat.
Proof.
  intros Hall. unfold uncleared_binaries. destruct (List.filter _ _) as [|[i r] rest] eqn:Ef; [done|]. exfalso.
  assert (Hin : (i, r) ∈ (i, r) :: rest) by (apply elem_of_cons; by left). rewrite <- Ef in Hin. apply elem_filter in Hin as [Hin Hbad]. apply list_elem_of_lookup in Hin as [k Hk].
  apply lookup_zip_with_Some in Hk as (i' & r' & [= -> ->] & [-> _]%lookup_seq & Hrk). cbn [fst snd Nat.add] in Hbad. unfold as_sent in Hbad. destruct r'; try done.
  destruct (Hall k Hrk) as [Hc|[x Hx]]; [by destruct (converted k); [|rewrite Hc in Hbad]|by rewrite Hx in Hbad].
Qed.

(** C7: Of an upload sent under the proxy's own identity every part leaves redacted: the
    body parses, with nothing but white space outside its parts, and each part's content
    goes out as its reading's text redacted by the upload's redactor and written again --
    a form field as UTF-8, a text file in its encoding, a JSON Lines file line by line,
    each blank or an object, a binary file as its extracted text -- or, unchanged, as a
    binary file the inspection cleared, or as the media of an image or video route; no
    binary file counts as sent unscanned.  Where the proxy read the upload before, that
    reading was of this body. *)
Theorem strict_upload_redacted path body boundary inject rp inspected (s : rstate V O) u s' : read_before path body boundary rp inspected ->
  redact_form_upload rd str_lower read_line encode_json cleared converted path body boundary inject true false rp inspected s = (Ok (Some u), s') ->
  exists parsed outs, Multipart.parse body boundary = Some parsed /\
    blank_line (Multipart.preamble parsed) = true /\ blank_line (Multipart.epilogue parsed) = true /\ u_binary u = 0%nat /\
    (forall index part, Multipart.parts parsed !! index = Some part -> exists out, outs !! index = Some out /\
      sent_content (O := O) read_line encode_json cleared converted (upload_redactor path body parsed) (if rp then request_line_keys path parsed else ∅) inject path index
        (Multipart.content part) (Multipart.content out) (reading_of read_line path part)) /\
    match u_body u with
    | Some sent => sent = Multipart.serialize (Multipart.mk_multipart (Multipart.boundary parsed) (Multipart.preamble parsed) outs (Multipart.epilogue parsed))
    | None => map Multipart.content outs = map Multipart.content (Multipart.parts parsed)
    end.
Proof.
  intros Hread Hm. unfold redact_form_upload in Hm. apply mbnd_ok in Hm as (upload & s1 & Hup & Hm).
  assert (Hup' : match upload with
    | Some (parsed, readings, keys) => Multipart.parse body boundary = Some parsed /\ exists rd0 (s0 s1 : rstate V O), read_form_upload rd0 read_line path parsed true rp s0 = (Ok (readings, keys), s1)
    | None => True end).
  { destruct inspected as [[[p rs] ks]|]; [injection Hup as <- _; by apply Hread|]. destruct (Multipart.parse body boundary) as [p|] eqn:Ep; [|by injection Hup as <- _].
    apply mbnd_ok in Hup as ([rs ks] & s2 & Hr & [= <- _]). cbn [fst snd]. split; [done|]. by exists rd, s, s2. }
  clear Hup Hread. destruct upload as [[[parsed readings] keys]|]; [|done]. destruct Hup' as (Hp & rd0 & t0 & t1 & Hrd).
  apply read_form_ok in Hrd as (Hpre & Hepi & -> & ->). set (readings := map (reading_of read_line path) (Multipart.parts parsed)) in *. cbv beta iota zeta in Hm.
  apply mbnd_ok in Hm as (outs & s2 & Hl & [= <- _]). cbn [u_body u_binary]. exists parsed, (map d_part outs).
  change (if may_carry_tokens_bytes body then _ else rd) with (upload_redactor path body parsed) in Hl.
  set (keys := if rp then request_line_keys path parsed else ∅) in *. unfold loop_parts in Hl.
  set (prs := zip (Multipart.parts parsed) readings) in *.
  apply (mapM_Forall2 _ (fun ipr out => ipr.2.2 = reading_of read_line path ipr.2.1 -> sent_content (O := O) read_line encode_json cleared converted (upload_redactor path body parsed) keys inject path ipr.1
    (Multipart.content ipr.2.1) (Multipart.content (d_part out)) (reading_of read_line path ipr.2.1) /\ (d_changed out = false -> Multipart.content (d_part out) = Multipart.content ipr.2.1))) in Hl.
  2: { intros [i [p q]] st y st' _ Hx. cbn [fst snd] in *. intros ->. by eapply strict_part. }
  assert (Hprs : forall index part, Multipart.parts parsed !! index = Some part -> zip (seq 0 (length prs)) prs !! index = Some (index, (part, reading_of read_line path part))).
  { intros index part Hi. apply lookup_zip_with_Some. exists index, (part, reading_of read_line path part). split; [done|]. split.
    - apply lookup_seq. split; [done|]. unfold prs, readings. rewrite length_zip_with, length_map. apply lookup_lt_Some in Hi. lia.
    - apply lookup_zip_with_Some. exists part, (reading_of read_line path part). split_and!; [done..|]. unfold readings. by rewrite list_lookup_fmap, Hi. }
  assert (Hlen : length outs = length (Multipart.parts parsed)).
  { apply Forall2_length in Hl. rewrite <- Hl, length_zip_with, length_seq. unfold prs, readings. rewrite length_zip_with, length_map. lia. }
  assert (Hall : forall index part, Multipart.parts parsed !! index = Some part -> exists out, outs !! index = Some out /\
    sent_content (O := O) read_line encode_json cleared converted (upload_redactor path body parsed) keys inject path index (Multipart.content part) (Multipart.content (d_part out)) (reading_of read_line path part) /\
    (d_changed out = false -> Multipart.content (d_part out) = Multipart.content part)).
  { intros index part Hi. destruct (lookup_lt_is_Some_2 outs index) as [out Ho]; [rewrite Hlen; by eapply lookup_lt_Some|]. exists out. split; [done|].
    assert (Hr := Forall2_lookup_lr _ _ _ _ _ _ Hl (Hprs index part Hi) Ho). by apply Hr. }
  split_and!; [done..| | |].
  - apply uncleared_none. intros index Hi. unfold readings in Hi. rewrite list_lookup_fmap in Hi. destruct (Multipart.parts parsed !! index) as [part|] eqn:Ep; [|done].
    injection Hi as Hi. destruct (Hall index part Ep) as (out & _ & Hs & _). rewrite Hi in Hs. cbn [sent_content] in Hs. destruct (converted index) as [x|]; [right; by eexists|left; tauto].
  - intros index part Hi. destruct (Hall index part Hi) as (out & Ho & Hs & _). exists (d_part out). split; [by rewrite list_lookup_fmap, Ho|done].
  - destruct (existsb d_changed outs) eqn:Ex; [done|]. rewrite map_map. apply list_eq. intros index. rewrite !list_lookup_fmap.
    destruct (Multipart.parts parsed !! index) as [part|] eqn:Ep.
    + destruct (Hall index part Ep) as (out & Ho & _ & Hsame). rewrite Ho. cbn. f_equal. apply Hsame. destruct (d_changed out) eqn:Ed; [|done].
      assert (Ht : existsb d_changed outs = true); [|congruence]. apply existsb_exists. exists out. split; [|done]. apply list_elem_of_In. by eapply list_elem_of_lookup_2.
    + assert (outs !! index = None) as ->; [|done]. apply lookup_ge_None_2. rewrite Hlen. by apply lookup_ge_None_1.
Qed.
End StrictUpload.

(** *** A purpose field and a PDF whose extracted text was read *)
Definition quoted (text : string) : pybytes := map (fun c => if c =? 39 then 34 else c) (lit text).
Definition demo_body : pybytes :=
  lit "--b" ++ Multipart.CRLF ++ quoted "Content-Disposition: form-data; name='user'" ++ Multipart.CRLF ++ Multipart.CRLF ++ demo_text ++ Multipart.CRLF ++
  lit "--b" ++ Multipart.CRLF ++ quoted "Content-Disposition: form-data; name='file'; filename='a.pdf'" ++ Multipart.CRLF ++ Multipart.CRLF ++ lit "%PDF-1.4" ++ Multipart.CRLF ++ lit "--b--" ++ Multipart.CRLF.
Definition demo_uploaded := redact_form_upload demo_redactor (fun t => t) no_lines (fun _ => []) (fun index => (index =? 1)%nat) (fun _ => None)
  (lit "/v1/files") demo_body (lit "b") false true false true None demo_state.
Definition demo_out : uploaded := match demo_uploaded.1 with Ok (Some u) => u | _ => mk_uploaded None [] 7 end.

Lemma strict_upload_redacted_witness : is_Some (u_body demo_out) /\ u_binary demo_out = 0%nat /\
  exists parsed, Multipart.parse demo_body (lit "b") = Some parsed /\ length (Multipart.parts parsed) = 2%nat.
Proof.
  split; [vm_compute; eexists; reflexivity|].
  destruct (strict_upload_redacted demo_redactor (fun t => t) no_lines (fun _ => []) (fun index => (index =? 1)%nat) (fun _ => None)
    (lit "/v1/files") demo_body (lit "b") false true None demo_state demo_out demo_uploaded.2) as (parsed & outs & Hp & _ & _ & Hb & _).
  - discriminate.
  - vm_compute. reflexivity.
  - split; [exact Hb|]. exists parsed. split; [exact Hp|]. vm_compute in Hp. injection Hp as <-. reflexivity.
Defined.
